(* ===== verification/_CoqProject ===== *)
-Q . S2P
Prelude.v
MemTypes.v
Coherence.v
CoherenceInv.v
CoherenceInval.v
CoherenceAccess.v
CoherenceMain.v
Hash.v
ReplPolicies.v
CacheArrays.v
MemCtrls.v
PrioQueue.v
TimingEvents.v
WeaveInv.v
Weave.v
WeavePhase.v
WeaveFrame.v
WeaveMain.v
CachePort.v
RecorderInv.v
EventRecorder.v
CoreRecorder.v
RecorderBound.v
RecorderMain.v
RecorderExamples.v
Prefetcher.v
PrefetcherMain.v
PrefetcherExamples.v
WeaveExamples.v
Barrier.v
BarrierInv.v
BarrierMain.v
Locality.v
OooWindow.v
OooWindowInv.v
OooWindowMain.v
OooBuffers.v
OooCore.v
OooCoreInv.v
FilterCache.v
OooCoreMain.v
OooExamples.v
UMon.v
Lookahead.v
WayPart.v
PartMonitor.v
Hierarchy.v
Dram.v
DramTiming.v
DramStd.v
DramBanks.v
DramFrame.v
DDR3.v
DDR4.v
HMC.v
DramExamples.v
Scheduler.v
AddressMap.v
Controller.v
ControllerInv.v
ControllerRequests.v
ControllerPolicy.v
RowMirror.v
ControllerSafe.v
ControllerRun.v
ControllerLive.v
ControllerRefresh.v
ControllerHistory.v
Memory.v
MemoryProps.v
Pages.v
DDRControllers.v
ControllerExamples.v
MemoryExamples.v
