(* ===== verification/Prelude.v ===== *)
(** * DAMOV-SIM: a verification library for the simulator's core components

    DAMOV-SIM joins two simulators.  The zsim part (src/simulator/src) models
    cores, a hierarchy of coherent caches and simple memories; an access of a
    core is one call of [MemObject::access], which recurses through the levels
    and returns the cycle at which it completes.  The Ramulator part
    (src/simulator/ramulator) models DRAM cycle by cycle; zsim hands it the
    misses of the last level as requests.  The development follows that split.
    Shared state is explicit: caches live in one store and reach each other by
    index, as the code's objects do by pointer; what can fail an assertion or
    panic returns an option or an error, and the theorems show when it cannot.

    ** The cache hierarchy (src/simulator/src)

    - MemTypes.v: memory_hierarchy.h, the types of accesses, invalidations and
      MESI states, the request ([MemReq]), and the interfaces of networks,
      memories and arrays.
    - Coherence.v: coherence_ctrls.h/.cpp and cache.h/.cpp.  [MESIBottomCC] is
      the array of line states with [processEviction], [processAccess],
      [processInval]; [MESITopCC] the directory with [processAccess],
      [sendInvalidates]; [Cache::access] and [Cache::invalidate] compose them.
      The recursion through the levels has fuel; the theorems give an amount,
      the height of the hierarchy, that is always enough.
    - CoherenceInv.v, CoherenceInval.v, CoherenceAccess.v, CoherenceMain.v: the
      invariant of coherence and inclusion, and its preservation by
      invalidations, by the steps of an access, and by the whole access.
    - Hierarchy.v: the theorems on sequences of accesses: they never fail, keep
      one writer or many readers per line, keep the caches inclusive, grant the
      permission asked for; invalidations clear a subtree and report dirty data;
      the race of a write-back with an invalidation is resolved as
      [CheckForMESIRace] says.  A concrete two-level system instantiates them.
    - CacheArrays.v, ReplPolicies.v, Hash.v: cache_arrays.h/.cpp,
      repl_policies.h, hash.h/.cpp, bithacks.h: the set-associative array and
      its contract towards the caches, the zcache array, every replacement
      policy with what it evicts, the H3 hash with its unrolled loop.
    - MemCtrls.v: mem_ctrls.h/.cpp and fixed_delay_network.cpp: the memories of
      fixed and of M/D/1 latency and the network between the levels.

    ** Cache partitioning and queues (src/simulator/src)

    - UMon.v: utility_monitor.h/.cpp: sampled shadow tags as LRU lists, and the
      miss curve they measure, compared with real LRU caches of every size.
    - Lookahead.v: lookahead.h/.cpp: the allocation of buckets to partitions by
      greatest marginal utility; utilities are exact fractions.  It conserves
      buckets, and is optimal for curves of diminishing returns.
    - PartMonitor.v: partitioner.h: the monitor of all partitions that
      drives the utility monitors.
    - WayPart.v: part_repl_policies.h and partition_mapper.h: the mappers from
      accesses to partitions and the way-partitioned replacement policy.
    - PrioQueue.v: prio_queue.h: the calendar queue of the contention
      simulation, with its occupancy bits and its map of far events.

    ** The weave phase (src/simulator/src)

    - TimingEvents.v: timing_event.h/.cpp, contention_sim.h/.cpp and the
      handlers of timing_cache.cpp: the graph of events that the bound phase
      leaves behind, [addChild], [queue], [requeue], [hold], [run], [done],
      [parentDone]; the misses, hits and write-backs of a cache with a limited
      number of MSHRs; the loop of [simulatePhaseThread] over one domain.
    - WeaveInv.v: the invariant of the graph ([EventsInv]): parents are counted
      by edges, every miss in flight has the event that ends it.
    - Weave.v, WeavePhase.v: the invariant kept by [enqueue], [done] and the
      handlers; [WellFormed] adds the caches and the queue.  The potential [lb]
      gives each event the cycle it had in the bound phase, [budget] bounds the
      delays below an event so that no cycle overflows the queue's range.
    - WeaveFrame.v: what a run of an event leaves alone: the other events that
      are still to run, the recorders of the other cores, and the two latency
      counters of the caches but for what the last steps of a miss add.
    - WeaveMain.v: a phase runs to its end without a failed assertion, and its
      events run in the order of time and of their dependencies.  No freed event
      is used but by those two steps, which read the start cycle of their miss
      out of an event that is always gone (a finding).
    - CachePort.v: the two clocks of a cache's port grant what a full record
      of the taken cycles would; the blocks of children hold all children.
    - WeaveExamples.v: a phase with a miss and a hit that waits for its MSHR.
    - EventRecorder.v: event_recorder.h: the record that waits between two
      levels, and the allocation of events.
    - CoreRecorder.v: core_recorder.h/.cpp and [simulatePhase] of
      contention_sim.cpp: the recorder of a simple core, which links its accesses
      to a chain of events ([notifyJoin], [recordAccess], [notifyLeave],
      [cSimStart]) and moves its clocks after the phase ([cSimEnd]).
    - RecorderInv.v: the chains of the cores ([Chains]) over a phase: when an
      event of a core is late, the cycles of all that depends on it move
      ([shift]), and with them the gap of the core; [Clocked] relates the recorder to it.
    - RecorderBound.v: a new event at the end of a chain keeps the graph in order.
    - RecorderMain.v: over the whole of [simulatePhase] no assertion fails and
      every core's clock without load stays what it was; [Bound] is the state
      between the phases, which the phase re-establishes.
    - RecorderExamples.v: a core that is ten cycles late.

    ** The prefetcher (src/simulator/src)

    - Prefetcher.v: prefetcher.h/.cpp over the recorder of EventRecorder.v:
      [access] of the stream prefetcher, split into the hit and the miss of its
      table, the training of an entry, and the issue of the prefetches, whose
      events join those that the parent left ([coupleEvents]).
    - PrefetcherMain.v: over a parent that keeps a log of its requests: and leaves no timing record: demands
      reach it first and unchanged, prefetches stay in the page; which lines
      of a stream are fetched (a third of them), and which cycle a load is told.
    - PrefetcherExamples.v: a stream, and three accesses that go wrong.

    ** Threads, and locality (src/simulator/src)

    - Barrier.v: barrier.h: the barrier between the threads of the bound phase
      ([join], [leave], [sync]), which runs a bounded number of them at a time,
      and the specification ([spec_step]) of what it does.
    - BarrierInv.v, BarrierMain.v: the run list and its invariant ([Core]); every
      history is a run of the specification, fails no assertion, and always has
      an active thread while one is in the barrier; a thread that waits goes on
      when it is active, and a spurious wake-up fails its assertion.  The calls are atomic, as the
      lock of the scheduler makes them.
    - Locality.v: locality.h/.cpp: the histograms of reuse distances and strides
      are those of a reference definition; the scores are means over accesses.

    ** The out-of-order core (src/simulator/src)

    - OooWindow.v: ooo_core.h, [WindowStructure]: the issue window as two arrays
      of cycles and a map of later ones, [schedule] with its extra slots,
      [advancePos] with the rebasing of the arrays, [longAdvance].  The wait for
      room ends at the [horizon], after which nothing is scheduled.
    - OooWindowInv.v, OooWindowMain.v: the window read as one table from cycles
      to busy ports.  The three containers implement it; an operation is given
      the earliest cycle from the one asked for that has one of its ports free,
      and no other cycle changes.
    - OooBuffers.v: [ReorderBuffer], [CycleQueue], [BranchPredictorPAg]: a buffer
      gives each entry the cycle of the entry that was SZ places before it,
      leaves in order, and lets W + 1 entries leave in a cycle (a finding); a branch
      that always goes one way, in a run without others, is predicted after
      its history has filled.
    - OooCore.v: ooo_core.cpp: the core as decoder and issue ([Front]), load-store
      unit ([Lsu]), and retirement ([Pipe]), with [bbl] split into the steps of its
      loop, [load], [store], [predFalseMemOp], [branch], [advance].  The caches are
      the interface [CoreCaches].
    - OooCoreInv.v, OooCoreMain.v: the invariants ([FInv], [LInv], [PipeInv], [CoreInv]) and, stage by stage,
      how far the clocks can go ([TimelyCaches] bounds the delay of the caches):
      a block never fails, and its operations commit in the order of their
      dependences.  The loop over fetched lines has fuel for every line of
      the block.
    - FilterCache.v: filter_cache.h: the filter in front of the first level, over
      caches below that are a parameter ([LowerCaches]) and may invalidate
      lines on the way; it is an instance of [CoreCaches] and keeps its timing promise.
    - OooExamples.v: a core that runs blocks with loads, stores and branches.

    ** DRAM (src/simulator/ramulator)

    - Dram.v: DRAM.h.  A standard is a record of tables ([Spec]) and a channel a
      tree of nodes ([Node]); [decode], [check], [get_next], [check_row_hit],
      [check_row_open], [update], [update_serving_requests] are the recursive
      methods.  Prerequisites and state changes are arguments that look at the
      node they are called on, as the C++ lambdas do.
    - DramTiming.v: the earliest clocks kept in the tree are related to the
      history of commands: [check] accepts a command exactly when every timing
      constraint holds of the history.
    - DramStd.v, DramBanks.v, DramFrame.v: what standards with the same twelve
      commands share: their tables, the protocol of rows and power states
      (interface [Banked]), and the frame of a command.
    - DDR3.v, DDR4.v, HMC.v: DDR3.h/.cc, DDR4.h/.cc, HMC.h/.cc, all tables.
      DramExamples.v holds concrete channels.
    - Scheduler.v: Request.h and Scheduler.h: requests, row table, request
      scheduler ([get_head], [compare]) and row policy ([get_victim]).
    - Controller.v: Controller.h and Refresh.h: [enqueue], [tick] with its
      steps in their order (refresh, write mode, scheduling, issue, retirement)
      and the refresh scheduler.  The interface [CtrlSpec] is what the
      controller reads of a standard.
    - ControllerInv.v, ControllerRequests.v: requests are conserved, answered
      no earlier than their data (or by a queued write of their address),
      counted, and refused when the queue is full, for every standard,
      scheduler and policy.
    - ControllerPolicy.v: the row policies that close rows do what the policy
      that keeps them open does, or read outside of an array.
    - RowMirror.v, ControllerSafe.v, ControllerRun.v, ControllerLive.v,
      ControllerRefresh.v, ControllerHistory.v: for a standard that keeps the
      promises [Effects] and [Controlled], no assertion of the controller
      fails, every command on the bus respects every timing constraint, the row
      table is exactly the set of open banks, and every rank is refreshed once
      per interval.  [Configured] is the class of machines the theorems range
      over; DDRControllers.v shows that DDR3 and DDR4 channels are members,
      ControllerExamples.v a concrete machine and a configuration outside.
    - AddressMap.v, Memory.v, MemoryProps.v, Pages.v, MemoryExamples.v:
      Memory.h: the cut of an address into coordinates is a bijection on the
      memory, a memory is the product of its channels, and the allocation of
      physical pages ends and is injective while pages are free.

    ** Reading the model

    C++ integers are [Z]; where the C++ type wraps and the wrap can be reached,
    [u32], [u64], [s32], [s64] below write it out.  [float] and [double] are exact
    rationals ([Q]).  Assertions, panics and accesses past the end of a container
    are results of their own, never a default value that a theorem could hide
    behind (but for the coordinates that the DRAM tree reads of an address
    vector, [data]: the theorems are about vectors of full length, or stop at
    the row table, which does check); where a loop is bounded by fuel its theorem proves that the fuel
    suffices: the height of the hierarchy for accesses and invalidations, the
    depth of the tree of nodes for DRAM methods, 31 rounds for [calc_log2] (an
    [int] has no more), the number of pages for the search of a free page, the
    length of the queue for loops over requests, the buckets that are left for
    the lookahead allocation, for the search of an event the blocks of the
    window plus the distance to the first far event, for [done] the number of
    events, for a phase the events times the cycles that are left
    ([phase_fuel]), since no event runs twice in a cycle, for the passes of
    the barrier the length of its list, and for the jumps of the issue window
    the cycles up to the target.

    ** Not modelled

    Locks: an access runs with its locks held, and the interleavings they allow
    are modelled only where the code names them (MESI races).  Statistics that
    are only printed, command traces, power estimates.  The SHA-1 hash (an
    external library) and the random generators (parameters).  The Ramulator
    standards with other commands or states (SALP, TL-DRAM, DSARP, LPDDR, HBM,
    Wide I/O 2, ALDRAM, GDDR5, Wide I/O) with the controller's specialisations
    for some of them, the HMC controller with its packets and links, and the
    front end of stand-alone Ramulator (Processor, Cache).  In zsim: the
    recorder of the out-of-order core, the loop over phases of [BblFunc], and
    [poisonRange], which nothing calls; the simple, timing, null and accelerator
    cores; Vantage and IdealLRU partitioning, the crossings between the
    domains of the contention simulation with its threads, the events that the
    timing caches record in the bound phase, the older DDR models, Pin instrumentation, the
    assignment of threads to cores (scheduler.h), configuration and I/O.  Code under pin, libconfig, g_heap and mtrand.h is third-party. *)

From stdpp Require Import base tactics numbers list gmap sets.
From Stdlib Require Import ZArith Lia.

Declare Scope damov_scope.
Delimit Scope damov_scope with damov.
Open Scope Z_scope.

(** ** Machine integers

    [uint32_t], [uint64_t] are integers of [Z] kept in range by explicit
    reduction at the places where the C++ arithmetic wraps. *)
Definition W32 : Z := 4294967296.
Definition W64 : Z := 18446744073709551616.
Definition u32 (z : Z) : Z := z `mod` W32.
Definition u64 (z : Z) : Z := z `mod` W64.
Definition in_u32 (z : Z) : Prop := 0 <= z < W32.
Definition in_u64 (z : Z) : Prop := 0 <= z < W64.
(** Reinterpretation of a 64-bit (32-bit) pattern as a signed integer. *)
Definition s64 (z : Z) : Z := if decide (u64 z < W64 / 2) then u64 z else u64 z - W64.
Definition s32 (z : Z) : Z := if decide (u32 z < W32 / 2) then u32 z else u32 z - W32.

Lemma u32_range z : in_u32 (u32 z).
Proof. apply Z.mod_pos_bound. done. Qed.

Lemma u64_range z : in_u64 (u64 z).
Proof. apply Z.mod_pos_bound. done. Qed.

Lemma u32_id z : in_u32 z -> u32 z = z.
Proof. apply Z.mod_small. Qed.

Lemma u64_id z : in_u64 z -> u64 z = z.
Proof. apply Z.mod_small. Qed.

Lemma u32_u32 z : u32 (u32 z) = u32 z.
Proof. apply u32_id, u32_range. Qed.

Lemma u64_u64 z : u64 (u64 z) = u64 z.
Proof. apply u64_id, u64_range. Qed.

(** ** Faults, results and the state monad

    A handler of the simulator either returns or stops the simulation: an
    [assert] that fails, a [panic] or undefined behaviour (an access outside an
    array, a division by zero), or (in the model only) a recursion that was
    given too little fuel. *)
Inductive fault : Type := AssertFail | Panicked | NoFuel.

Inductive result (A : Type) : Type := Ok (a : A) | Err (f : fault).
Arguments Ok {A} a.
Arguments Err {A} f.

#[export] Instance fault_eq_dec : EqDecision fault.
Proof. solve_decision. Defined.

Definition is_ok {A} (r : result A) : bool := match r with Ok _ => true | Err _ => false end.

(** The state monad over results. *)
Definition st (S A : Type) : Type := S -> result (A * S).

#[export] Instance st_ret {S} : MRet (st S) := fun A a s => Ok (a, s).
#[export] Instance st_bind {S} : MBind (st S) := fun A B k m s =>
  match m s with Ok (a, s') => k a s' | Err f => Err f end.

Definition gets {S A} (f : S -> A) : st S A := fun s => Ok (f s, s).
Definition modify {S} (f : S -> S) : st S unit := fun s => Ok (tt, f s).
Definition fail {S A} (f : fault) : st S A := fun _ => Err f.
(** [assert(b)] of the C++ code. *)
Definition assert_ {S} (b : bool) : st S unit := fun s => if b then Ok (tt, s) else Err AssertFail.
Definition lift {S A} (r : result A) : st S A :=
  fun s => match r with Ok x => Ok (x, s) | Err f => Err f end.
(** A computation on a component of the state. *)
Definition zoom {S T A} (get : S -> T) (set : T -> S -> S) (m : st T A) : st S A := fun s =>
  match m (get s) with Ok (x, t) => Ok (x, set t s) | Err f => Err f end.
Definition when {S} (b : bool) (m : st S unit) : st S unit := if b then m else mret tt.

(** ** Total-correctness weakest preconditions *)
Definition wp {S A} (m : st S A) (s : S) (Q : A -> S -> Prop) : Prop :=
  match m s with Ok (a, s') => Q a s' | Err _ => False end.

Lemma wp_ret {S A} (a : A) (s : S) Q : Q a s -> wp (mret a) s Q.
Proof. done. Qed.

Lemma wp_bind {S A B} (m : st S A) (k : A -> st S B) s Q :
  wp m s (fun a s' => wp (k a) s' Q) -> wp (mbind k m) s Q.
Proof. unfold wp, mbind, st_bind. destruct (m s) as [[a s']|f]; done. Qed.

Lemma wp_gets {S A} (f : S -> A) s Q : Q (f s) s -> wp (gets f) s Q.
Proof. done. Qed.

Lemma wp_modify {S} (f : S -> S) s (Q : unit -> S -> Prop) : Q tt (f s) -> wp (modify f) s Q.
Proof. done. Qed.

Lemma wp_assert {S} (b : bool) (s : S) (Q : unit -> S -> Prop) :
  b = true -> Q tt s -> wp (assert_ b) s Q.
Proof. unfold wp, assert_. by intros ->. Qed.

Lemma wp_mono {S A} (m : st S A) s (Q Q' : A -> S -> Prop) :
  wp m s Q -> (forall a s', Q a s' -> Q' a s') -> wp m s Q'.
Proof. unfold wp. destruct (m s) as [[a s']|f]; eauto. Qed.

Lemma wp_when {S} (b : bool) (m : st S unit) s (Q : unit -> S -> Prop) :
  (b = true -> wp m s Q) -> (b = false -> Q tt s) -> wp (when b m) s Q.
Proof. destruct b; simpl; eauto using wp_ret. Qed.

Lemma wp_zoom {S T A} (get : S -> T) (set : T -> S -> S) (m : st T A) s Q :
  wp m (get s) (fun x t => Q x (set t s)) -> wp (zoom get set m) s Q.
Proof. unfold wp, zoom. destruct (m (get s)) as [[x t]|f]; done. Qed.

Lemma wp_lift {S A} (r : result A) (s : S) Q : (exists x, r = Ok x /\ Q x s) -> wp (lift r) s Q.
Proof. by intros (x & -> & HQ). Qed.

Lemma wp_ok {S A} (m : st S A) s Q :
  wp m s Q <-> exists a s', m s = Ok (a, s') /\ Q a s'.
Proof.
  unfold wp. destruct (m s) as [[a s']|f]; split; try naive_solver.
Qed.

(** ** Weakest liberal preconditions *)
Definition wlp {S A} (m : st S A) (s : S) (Q : A -> S -> Prop) : Prop :=
  match m s with Ok (a, s') => Q a s' | Err _ => True end.

Lemma wlp_ret {S A} (a : A) (s : S) Q : Q a s -> wlp (mret a) s Q.
Proof. done. Qed.
Lemma wlp_bind {S A B} (m : st S A) (k : A -> st S B) s Q :
  wlp m s (fun a s' => wlp (k a) s' Q) -> wlp (mbind k m) s Q.
Proof. unfold wlp, mbind, st_bind. destruct (m s) as [[a s']|f]; done. Qed.
Lemma wlp_gets {S A} (f : S -> A) s Q : Q (f s) s -> wlp (gets f) s Q.
Proof. done. Qed.
Lemma wlp_modify {S} (f : S -> S) s (Q : unit -> S -> Prop) : Q tt (f s) -> wlp (modify f) s Q.
Proof. done. Qed.
Lemma wlp_fail {S A} (f : fault) (s : S) (Q : A -> S -> Prop) : wlp (fail f) s Q.
Proof. done. Qed.
Lemma wlp_assert {S} (b : bool) (s : S) (Q : unit -> S -> Prop) : (b = true -> Q tt s) -> wlp (assert_ b) s Q.
Proof. unfold wlp, assert_. destruct b; auto. Qed.
Lemma wlp_when {S} (b : bool) (m : st S unit) s (Q : unit -> S -> Prop) :
  (b = true -> wlp m s Q) -> (b = false -> Q tt s) -> wlp (when b m) s Q.
Proof. destruct b; simpl; eauto using wlp_ret. Qed.
Lemma wlp_zoom {S T A} (get : S -> T) (set : T -> S -> S) (m : st T A) s Q :
  wlp m (get s) (fun x t => Q x (set t s)) -> wlp (zoom get set m) s Q.
Proof. unfold wlp, zoom. destruct (m (get s)) as [[x t]|f]; done. Qed.
Lemma wlp_lift {S A} (r : result A) (s : S) Q : (forall x, r = Ok x -> Q x s) -> wlp (lift r) s Q.
Proof. unfold wlp, lift. destruct r; auto. Qed.
Lemma wlp_mono {S A} (m : st S A) s (Q Q' : A -> S -> Prop) :
  wlp m s Q -> (forall a s', Q a s' -> Q' a s') -> wlp m s Q'.
Proof. unfold wlp. destruct (m s) as [[a s']|f]; eauto. Qed.
Lemma wlp_ok {S A} (m : st S A) s Q a s' : wlp m s Q -> m s = Ok (a, s') -> Q a s'.
Proof. unfold wlp. intros H Hm. by rewrite Hm in H. Qed.
Lemma wlp_true {S A} (m : st S A) s (Q : A -> S -> Prop) : (forall a s', Q a s') -> wlp m s Q.
Proof. unfold wlp. destruct (m s) as [[a s']|f]; auto. Qed.

Lemma wp_wlp {S A} (m : st S A) s (Q Q' : A -> S -> Prop) : wp m s Q -> wlp m s Q' -> wp m s (fun a s' => Q a s' /\ Q' a s').
Proof. unfold wp, wlp. destruct (m s) as [[a s']|f]; auto. Qed.

(** What a computation returns. *)
Lemma wlp_and {S A} (m : st S A) s (Q R : A -> S -> Prop) : wlp m s Q -> wlp m s R -> wlp m s (fun a s' => Q a s' /\ R a s').
Proof. unfold wlp. destruct (m s) as [[a s']|]; auto. Qed.
Lemma wlp_result {S A} (m : st S A) s : wlp m s (fun a s' => m s = Ok (a, s')).
Proof. unfold wlp. by destruct (m s) as [[a s']|]. Qed.

(** ** Word arrays

    A zero-initialised array ([gm_calloc]) of integers. *)
Definition word (m : gmap Z Z) (i : Z) : Z := default 0 (m !! i).

Lemma word_insert m i x j : word (<[i := x]> m) j = if decide (j = i) then x else word m j.
Proof.
  unfold word. case_decide as H; [subst; by rewrite lookup_insert_eq|].
  rewrite lookup_insert_ne; [done|congruence].
Qed.

Lemma word_empty i : word ∅ i = 0.
Proof. unfold word. by rewrite lookup_empty. Qed.

(** ** Arrays

    An array access; outside the array it is undefined. *)
Definition at_ {A} (l : list A) (i : Z) : result A := match l !! Z.to_nat i with Some x => Ok x | None => Err Panicked end.
Definition set_at {A} (l : list A) (i : Z) (x : A) : result (list A) :=
  match l !! Z.to_nat i with Some _ => Ok (<[Z.to_nat i := x]> l) | None => Err Panicked end.

Lemma at_some {A} (l : list A) i x : l !! Z.to_nat i = Some x -> at_ l i = Ok x.
Proof. unfold at_. by intros ->. Qed.

Lemma set_at_some {A} (l : list A) i (x y : A) : l !! Z.to_nat i = Some y -> set_at l i x = Ok (<[Z.to_nat i := x]> l).
Proof. unfold set_at. by intros ->. Qed.

(** ** Sums *)
Definition sumZ (l : list Z) : Z := foldr Z.add 0 l.

Lemma sumZ_cons x l : sumZ (x :: l) = x + sumZ l.
Proof. done. Qed.

Lemma sumZ_replicate n x : sumZ (replicate n x) = Z.of_nat n * x.
Proof. induction n as [|n IH]; [done|]. cbn [replicate]. rewrite sumZ_cons, IH. lia. Qed.

Lemma sumZ_zeros n : sumZ (replicate n 0) = 0.
Proof. rewrite sumZ_replicate. lia. Qed.

Lemma sumZ_nonneg l : Forall (fun x => 0 <= x) l -> 0 <= sumZ l.
Proof. induction 1; simpl; lia. Qed.

Lemma sumZ_lookup i l x : Forall (fun x => 0 <= x) l -> l !! i = Some x -> x <= sumZ l.
Proof.
  intros Hl. revert i. induction Hl as [|y l Hy Hl IH]; intros i; [done|]. pose proof (sumZ_nonneg _ Hl).
  destruct i as [|i]; simpl; intros Hi; [injection Hi as <-; lia|]. specialize (IH _ Hi). lia.
Qed.

Lemma sumZ_alter f l p a : l !! p = Some a -> sumZ (alter f p l) = sumZ l + (f a - a).
Proof.
  revert p. induction l as [|x l IH]; intros [|p] Hp; try done.
  - injection Hp as ->. change (alter f 0%nat (a :: l)) with (f a :: l). rewrite !sumZ_cons. lia.
  - change (alter f (S p) (x :: l)) with (x :: alter f p l). rewrite !sumZ_cons, (IH p Hp). lia.
Qed.

(** ** Maps *)
Lemma alter_known {A} (f : A -> A) (m : gmap Z A) k x : m !! k = Some x -> alter f k m = <[k:=f x]> m.
Proof.
  intros Hk. apply map_eq. intros i. destruct (decide (i = k)) as [->|Hne].
  - by rewrite lookup_alter_eq, Hk, lookup_insert_eq.
  - by rewrite lookup_alter_ne, lookup_insert_ne.
Qed.

(** ** Sums over maps *)
Definition map_sum {A} (f : Z -> A -> Z) (m : gmap Z A) : Z := map_fold (fun k x acc => f k x + acc) 0 m.

Section map_sum.
Context {A : Type} (f : Z -> A -> Z).

Lemma map_sum_empty : map_sum f ∅ = 0.
Proof. apply map_fold_empty. Qed.

Lemma map_sum_insert m k x : m !! k = None -> map_sum f (<[k:=x]> m) = f k x + map_sum f m.
Proof. intros Hk. unfold map_sum. rewrite map_fold_insert_L; [done|intros; lia|done]. Qed.

Lemma map_sum_delete m k x : m !! k = Some x -> map_sum f m = f k x + map_sum f (delete k m).
Proof. intros Hk. rewrite <- map_sum_insert by apply lookup_delete_eq. by rewrite insert_delete_id. Qed.

Lemma map_sum_update m k x y : m !! k = Some x -> map_sum f (<[k:=y]> m) = map_sum f m - f k x + f k y.
Proof.
  intros Hk. rewrite (map_sum_delete m k x Hk), <- insert_delete_eq, map_sum_insert by apply lookup_delete_eq. lia.
Qed.

Lemma map_sum_ext g m : (forall k x, m !! k = Some x -> f k x = g k x) -> map_sum f m = map_sum g m.
Proof.
  induction m as [|k x m Hk IH] using map_ind; intros H; [done|].
  rewrite map_sum_insert by done. unfold map_sum at 2. rewrite map_fold_insert_L; [|intros; lia|done]. fold (map_sum g m).
  rewrite (H k x) by apply lookup_insert_eq. rewrite IH; [done|]. intros k' x' Hk'. apply H.
  rewrite lookup_insert_ne; [done|]. intros ->. congruence.
Qed.

Lemma map_sum_add g m : map_sum (fun k x => f k x + g k x) m = map_sum f m + map_sum g m.
Proof.
  induction m as [|k x m Hk IH] using map_ind; unfold map_sum in *; [by rewrite !map_fold_empty|].
  rewrite !map_fold_insert_L; [lia|intros; lia|done|intros; lia|done|intros; lia|done].
Qed.

Lemma map_sum_nonneg m : (forall k x, m !! k = Some x -> 0 <= f k x) -> 0 <= map_sum f m.
Proof.
  induction m as [|k x m Hk IH] using map_ind; intros H; [by rewrite map_sum_empty|].
  rewrite map_sum_insert by done. pose proof (H k x (lookup_insert_eq _ _ _)).
  enough (0 <= map_sum f m) by lia. apply IH. intros k' x' Hk'. apply (H k').
  rewrite lookup_insert_ne; [done|]. intros ->. congruence.
Qed.

Lemma map_sum_zero m : (forall k x, m !! k = Some x -> f k x = 0) -> map_sum f m = 0.
Proof.
  induction m as [|k x m Hk IH] using map_ind; intros H; [done|].
  rewrite map_sum_insert by done. rewrite (H k x) by apply lookup_insert_eq. apply IH. intros k' x' Hk'. apply (H k').
  rewrite lookup_insert_ne; [done|]. intros ->. congruence.
Qed.

Lemma map_sum_lookup m k x : (forall k x, m !! k = Some x -> 0 <= f k x) -> m !! k = Some x -> f k x <= map_sum f m.
Proof.
  intros H Hk. rewrite (map_sum_delete m k x Hk). enough (0 <= map_sum f (delete k m)) by lia.
  apply map_sum_nonneg. intros k' x' [_ Hk']%lookup_delete_Some. eauto.
Qed.

Lemma map_sum_bound m b : (forall k x, m !! k = Some x -> f k x <= b) -> map_sum f m <= Z.of_nat (size m) * b.
Proof.
  induction m as [|k x m Hk IH] using map_ind; intros H; [by rewrite map_sum_empty, map_size_empty|].
  rewrite map_sum_insert, map_size_insert_None by done. pose proof (H k x (lookup_insert_eq _ _ _)).
  enough (map_sum f m <= Z.of_nat (size m) * b) by lia. apply IH. intros k' x' Hk'. apply (H k').
  rewrite lookup_insert_ne; [done|]. intros ->. congruence.
Qed.
End map_sum.

(** ** Sets of indices *)
Lemma elem_nonempty {A} `{Countable A} (X : gset A) (k : A) : k ∈ X -> X <> ∅.
Proof. intros Hk ->. by apply not_elem_of_empty in Hk. Qed.

Lemma size_remove {A} `{Countable A} (X : gset A) (k : A) :
  k ∈ X -> size X = S (size (X ∖ {[k]})).
Proof.
  intros Hk. assert (X = {[k]} ∪ (X ∖ {[k]})) as Heq by (apply union_difference_L; set_solver).
  rewrite Heq at 1. rewrite size_union by set_solver. by rewrite size_singleton.
Qed.

Lemma in_remove {A} `{Countable A} (X : gset A) (j k : A) : j ∈ X ∖ {[k]} <-> j ∈ X /\ j <> k.
Proof. rewrite elem_of_difference, elem_of_singleton. done. Qed.

(** Comparison of two-part indices, such as a cache and a line. *)
Lemma index_ne_sym {A B} (x x' : A) (y y' : B) : ~ (x = x' /\ y = y') -> ~ (x' = x /\ y' = y).
Proof. intros H [-> ->]. by apply H. Qed.

Lemma index_ne_l {A B} (x x' : A) (y y' : B) : x <> x' -> ~ (x = x' /\ y = y').
Proof. by intros H [-> _]. Qed.

Create HintDb damov.
Create Rewrite HintDb damov.
#[export] Hint Resolve u32_range u64_range index_ne_sym index_ne_l : damov.
#[export] Hint Rewrite u32_u32 u64_u64 : damov.

(** One step of a monadic program under [wp]. *)
Ltac wp_step :=
  lazymatch goal with
  | |- wp (mbind _ _) _ _ => apply wp_bind
  | |- wp (mret _) _ _ => apply wp_ret
  | |- wp (gets _) _ _ => apply wp_gets
  | |- wp (modify _) _ _ => apply wp_modify
  | |- wp (assert_ _) _ _ => apply wp_assert
  | |- wp (when _ _) _ _ => apply wp_when
  | |- wp (zoom _ _ _) _ _ => apply wp_zoom
  | |- wp (lift _) _ _ => apply wp_lift
  end.
Ltac wlp_step :=
  lazymatch goal with
  | |- wlp (mbind _ _) _ _ => apply wlp_bind
  | |- wlp (mret _) _ _ => apply wlp_ret
  | |- wlp (gets _) _ _ => apply wlp_gets
  | |- wlp (modify _) _ _ => apply wlp_modify
  | |- wlp (fail _) _ _ => apply wlp_fail
  | |- wlp (assert_ _) _ _ => apply wlp_assert
  | |- wlp (when _ _) _ _ => apply wlp_when
  | |- wlp (zoom _ _ _) _ _ => apply wlp_zoom
  | |- wlp (lift _) _ _ => apply wlp_lift
  end.
