(* ===== verification/MemTypes.v ===== *)
(** * Types of the memory hierarchy (memory_hierarchy.h)

    Access and invalidation types, MESI states, requests, and the interfaces
    that the coherence controllers use: the network, the memory controllers
    behind the last level, and the cache arrays. *)

From stdpp Require Import base tactics numbers list gmap sets.
From Stdlib Require Import ZArith Lia.
From S2P Require Import Prelude.

Open Scope Z_scope.

Inductive AccessType : Type := GETS | GETX | PUTS | PUTX.
Inductive InvType : Type := INV | INVX | FWD.
Inductive MESIState : Type := I | S | E | M.

#[export] Instance AccessType_eq_dec : EqDecision AccessType.
Proof. solve_decision. Defined.
#[export] Instance InvType_eq_dec : EqDecision InvType.
Proof. solve_decision. Defined.
#[export] Instance MESIState_eq_dec : EqDecision MESIState.
Proof. solve_decision. Defined.
#[export] Instance MESIState_inhabited : Inhabited MESIState := populate I.

Definition IsGet (t : AccessType) : bool := bool_decide (t = GETS) || bool_decide (t = GETX).
Definition IsPut (t : AccessType) : bool := bool_decide (t = PUTS) || bool_decide (t = PUTX).

(** [MemReq::Flag]. *)
Definition IFETCH : Z := Z.shiftl 1 1.
Definition NOEXCL : Z := Z.shiftl 1 2.
Definition NONINCLWB : Z := Z.shiftl 1 3.
Definition PUTX_KEEPEXCL : Z := Z.shiftl 1 4.
Definition PREFETCH : Z := Z.shiftl 1 5.

(** [flags & f], as the C++ condition it is used for. *)
Definition has_flag (flags f : Z) : bool := negb (Z.land flags f =? 0).

(** A [MESIState*]: the state word of a line of some cache's bottom
    controller, or the state word a core passes with its request. *)
Inductive StateRef : Type :=
  | CoreState
  | LineState (c : nat) (lineId : Z).

Record MemReq : Type := mkReq {
  lineAddr : Z;
  type : AccessType;
  childId : nat;
  state : StateRef;
  cycle : Z;
  initialState : MESIState;
  srcId : Z;
  flags : Z;
}.

(** [MemReq::set] and [MemReq::is]. *)
Definition MemReq_set (r : MemReq) (f : Z) : MemReq :=
  mkReq (lineAddr r) (type r) (childId r) (state r) (cycle r) (initialState r)
        (srcId r) (Z.lor (flags r) f).
Definition MemReq_is (r : MemReq) (f : Z) : bool := has_flag (flags r) f.

Definition with_type (r : MemReq) (t : AccessType) : MemReq :=
  mkReq (lineAddr r) t (childId r) (state r) (cycle r) (initialState r) (srcId r) (flags r).

(** [InvReq]; its [writeback] pointer is threaded through the calls. *)
Record InvReq : Type := mkInv {
  inv_lineAddr : Z;
  inv_type : InvType;
  inv_cycle : Z;
  inv_srcId : Z;
}.

Lemma flag_set_is r f : f <> 0 -> MemReq_is (MemReq_set r f) f = true.
Proof.
  intros Hf. unfold MemReq_is, has_flag, MemReq_set; simpl.
  rewrite Z.land_lor_distr_l, Z.land_diag.
  destruct (Z.eqb_spec (Z.lor (Z.land (flags r) f) f) 0) as [H|]; [|done].
  apply Z.lor_eq_0_iff in H as [_ H]. done.
Qed.

(** ** The network between two levels (network.h) *)

(** End points of a link, which the C++ code names by strings. *)
Inductive MemRef : Type := ToCache (c : nat) | ToMem (m : nat).
#[export] Instance MemRef_eq_dec : EqDecision MemRef.
Proof. solve_decision. Defined.

(** [Network::getRTT(curCycle, latency, src, dst)], which may keep state. *)
Class Network (N : Type) := getRTT : N -> Z -> Z -> MemRef -> MemRef -> Z * N.

(** [getRTT] returns a [uint32_t]. *)
Class NetworkOk (N : Type) `{Network N} :=
  getRTT_u32 : forall (n : N) cy lat a b, in_u32 (getRTT n cy lat a b).1.

(** ** Memory controllers behind the last level ([MemObject::access])

    [mem_access m req] is the access method of memory [m]: it returns what it
    stores in [*req.state] and the response cycle. *)
Class MemCtrl (MM : Type) := mem_access : nat -> MemReq -> st MM (MESIState * Z).

(** Cycles at which a request may arrive without overflowing [uint64_t] on its way. *)
Definition cycle_limit : Z := 2 ^ 62.

Definition mem_reply_ok (t : AccessType) (fl : Z) (s : MESIState) : Prop :=
  match t with
  | PUTS | PUTX => s = I
  | GETS => if has_flag fl NOEXCL then s = S else s = E
  | GETX => s = M
  end.

(** What the coherence controllers rely on: the permission that comes back,
    and a response no earlier than the request. *)
Class MemCtrlOk (MM : Type) `{MemCtrl MM} := {
  mem_inv : MM -> Prop;
  mem_access_ok : forall m req (s : MM), mem_inv s ->
    0 <= cycle req <= 2 * cycle_limit ->
    wp (mem_access m req) s (fun '(st', resp) s' =>
      mem_inv s' /\ mem_reply_ok (type req) (flags req) st' /\
      cycle req <= resp <= cycle req + W32);
}.

(** ** Cache arrays (CacheArray in cache_arrays.h) *)

(** What a replacement policy may ask the coherence controller:
    [cc->isValid(id)] and [cc->numSharers(id)]. *)
Record ReplView : Type := mkView { rv_isValid : Z -> bool; rv_numSharers : Z -> Z }.

Class CacheArray (A : Type) := {
  (** [lookup(lineAddr, req, updateReplacement)], -1 when absent *)
  arr_lookup : Z -> option MemReq -> bool -> st A Z;
  (** [preinsert(lineAddr, req, &wbLineAddr)]: the line id and [wbLineAddr] *)
  arr_preinsert : ReplView -> Z -> MemReq -> st A (Z * Z);
  (** [postinsert(lineAddr, req, lineId)] *)
  arr_postinsert : Z -> MemReq -> Z -> st A unit;
}.

(** The contract of an array. [arr_tag] is the address written in a line,
    [arr_find] the line a lookup returns; [arr_inv p] holds of an array whose
    pending insertion (between preinsert and postinsert) is [p]. *)
Class CacheArrayOk (A : Type) `{CacheArray A} := {
  arr_inv : option (Z * Z) -> A -> Prop;
  arr_find : A -> Z -> option Z;
  arr_tag : A -> Z -> Z;
  (** the line addresses the array accepts *)
  arr_addr_ok : Z -> Prop;
  arr_find_tag : forall p s a id, arr_inv p s -> arr_find s a = Some id -> arr_tag s id = a /\ 0 <= id;
  arr_lookup_ok : forall p s a r u, arr_inv p s -> arr_addr_ok a -> (u = true -> is_Some r) ->
    wp (arr_lookup a r u) s (fun id s' =>
      arr_inv p s' /\ id = default (-1) (arr_find s a) /\
      (forall b, arr_find s' b = arr_find s b) /\ (forall j, arr_tag s' j = arr_tag s j));
  arr_preinsert_ok : forall s v a r, arr_inv None s -> arr_addr_ok a -> arr_find s a = None ->
    wp (arr_preinsert v a r) s (fun '(id, wb) s' =>
      arr_inv (Some (a, id)) s' /\ 0 <= id /\ wb = arr_tag s id /\
      (forall b, arr_find s' b = arr_find s b) /\ (forall j, arr_tag s' j = arr_tag s j));
  arr_postinsert_ok : forall s a id r, arr_inv (Some (a, id)) s -> arr_addr_ok a -> arr_find s a = None ->
    wp (arr_postinsert a r id) s (fun _ s' =>
      arr_inv None s' /\ arr_find s' a = Some id /\ arr_tag s' id = a /\
      (forall j, j <> id -> arr_tag s' j = arr_tag s j) /\
      (forall b j, arr_find s b = Some j -> j <> id -> arr_find s' b = Some j));
}.
