(* ===== verification/Coherence.v ===== *)
(** * MESI coherence controllers and caches (coherence_ctrls.h/.cpp, cache.h/.cpp)

    The state of a cache is its tag array, the states of its bottom controller
    (MESIBottomCC), the directory entries of its top controller (MESITopCC)
    and the profiling counters.  All caches live in one store, [Sys]; a
    [MESIState*] is a reference into it, so that a parent writes the state of
    its child's line through the pointer of the request, as the code does.

    The controllers are modelled with the locks held: an access or an
    invalidation runs to completion.  The races that the hand-over-hand
    locking lets in are modelled where the code resolves them, in
    [CheckForMESIRace]. *)

From stdpp Require Import base tactics numbers list gmap sets.
From Stdlib Require Import ZArith Lia.
From S2P Require Import Prelude MemTypes.

Open Scope Z_scope.

(** ** Data *)

(** [MESITopCC::Entry]; the [std::bitset] of sharers is the set of its bits. *)
Record Entry : Type := mkEntry {
  numSharers : Z;
  sharers : gset nat;
  exclusive : bool;
}.
#[export] Instance Entry_eq_dec : EqDecision Entry.
Proof. solve_decision. Defined.

(** [Entry::clear], [isEmpty], [isExclusive]. *)
Definition Entry_clear : Entry := mkEntry 0 ∅ false.
Definition Entry_isEmpty (e : Entry) : bool := bool_decide (numSharers e = 0).
Definition Entry_isExclusive (e : Entry) : bool := bool_decide (numSharers e = 1) && exclusive e.
#[export] Instance Entry_inhabited : Inhabited Entry := populate Entry_clear.

Definition set_sharer (k : nat) (e : Entry) : Entry :=
  mkEntry (numSharers e) ({[k]} ∪ sharers e) (exclusive e).
Definition reset_sharer (k : nat) (e : Entry) : Entry :=
  mkEntry (numSharers e) (sharers e ∖ {[k]}) (exclusive e).
Definition set_numSharers (n : Z) (e : Entry) : Entry := mkEntry n (sharers e) (exclusive e).
Definition set_exclusive (b : bool) (e : Entry) : Entry := mkEntry (numSharers e) (sharers e) b.

(** The counters of a bottom controller. *)
Inductive BccCounter : Type :=
  | profGETSHit | profGETSMiss | profGETXHit | profGETXMissIM | profGETXMissSM
  | profPUTS | profPUTX | profINV | profINVX | profFWD | sharedRequests
  | profGETNextLevelLat | profGETNetLat.
#[export] Instance BccCounter_eq_dec : EqDecision BccCounter.
Proof. solve_decision. Defined.

(** The static configuration of a cache: the constructor arguments of the
    cache and its controller, and what setParents and setChildren record. *)
Record CacheCfg : Type := mkCfg {
  c_terminal : bool;           (* MESITerminalCC, else MESICC *)
  c_selfId : nat;
  c_parents : list MemRef;
  c_children : list nat;
  c_accLat : Z;
  c_invLat : Z;
  c_nonInclusiveHack : bool;
  c_bypass : bool;
  c_network : bool;            (* a network was given *)
}.

Record Cache (A : Type) : Type := mkCache {
  arr : A;
  bcc : gmap Z MESIState;
  tcc : gmap Z Entry;
  prof : BccCounter -> Z;
}.
Arguments mkCache {A} _ _ _ _.
Arguments arr {A} _.
Arguments bcc {A} _.
Arguments tcc {A} _.
Arguments prof {A} _.
#[export] Instance Cache_inhabited {A} `{!Inhabited A} : Inhabited (Cache A) :=
  populate (mkCache inhabitant ∅ ∅ (fun _ => 0)).

Record Sys (A N MM : Type) : Type := mkSys {
  caches : gmap nat (Cache A);
  coreState : MESIState;      (* the state word of the requesting core *)
  net : N;
  mem : MM;
}.
Arguments mkSys {A N MM} _ _ _ _.
Arguments caches {A N MM} _.
Arguments coreState {A N MM} _.
Arguments net {A N MM} _.
Arguments mem {A N MM} _.

(** XOR of the four 16-bit chunks of the address, modulo the number of parents. *)
Definition addrFold (a : Z) : Z :=
  let chunk i := Z.land 65535 (Z.shiftr a (16 * i)) in
  u32 (Z.lxor (Z.lxor (Z.lxor (Z.lxor 0 (chunk 0)) (chunk 1)) (chunk 2)) (chunk 3)).

Definition getParentId (cf : CacheCfg) (a : Z) : nat :=
  Z.to_nat (addrFold a `mod` Z.of_nat (length (c_parents cf))).

(** [parents[getParentId(lineAddr)]]. *)
Definition getParent (cf : CacheCfg) (a : Z) : option MemRef := c_parents cf !! getParentId cf a.

(** [CheckForMESIRace]: the type the access goes on with, and whether it is skipped. *)
Definition CheckForMESIRace (t : AccessType) (cur initial : MESIState) : result (AccessType * bool) :=
  if decide (cur = initial) then Ok (t, false)
  else match t with
  | PUTS | PUTX =>
      if decide (cur = I) then Ok (t, true)
      else if decide (cur = S) then Ok (PUTS, false) else Err AssertFail
  | GETX =>
      if decide (initial = S) then
        if decide (cur = I) then Ok (GETX, false) else Err AssertFail
      else Err AssertFail
  | GETS => Err Panicked
  end.

Section Controllers.
Context {A N MM : Type} `{!Inhabited A} `{!CacheArray A} `{!Network N} `{!MemCtrl MM}.
Context (cfg : nat -> CacheCfg).

Abbreviation Sys := (Sys A N MM).
Abbreviation CM := (st Sys).

(** ** Access to the store *)
Definition cache_of (σ : Sys) (c : nat) : Cache A := caches σ !!! c.
Definition bst (σ : Sys) (c : nat) (id : Z) : MESIState := bcc (cache_of σ c) !!! id.
Definition entry (σ : Sys) (c : nat) (id : Z) : Entry := tcc (cache_of σ c) !!! id.

Definition upd_cache (c : nat) (f : Cache A -> Cache A) (σ : Sys) : Sys :=
  mkSys (<[c := f (cache_of σ c)]> (caches σ)) (coreState σ) (net σ) (mem σ).
Definition set_bst (c : nat) (id : Z) (s : MESIState) : Sys -> Sys :=
  upd_cache c (fun k => mkCache (arr k) (<[id := s]> (bcc k)) (tcc k) (prof k)).
Definition upd_entry (c : nat) (id : Z) (f : Entry -> Entry) : Sys -> Sys :=
  upd_cache c (fun k => mkCache (arr k) (bcc k) (<[id := f (tcc k !!! id)]> (tcc k)) (prof k)).
Definition set_arr (c : nat) (a : A) : Sys -> Sys :=
  upd_cache c (fun k => mkCache a (bcc k) (tcc k) (prof k)).
Definition prof_inc (c : nat) (ctr : BccCounter) (n : Z) : Sys -> Sys :=
  upd_cache c (fun k => mkCache (arr k) (bcc k) (tcc k)
    (fun x => if decide (x = ctr) then u64 (prof k x + n) else prof k x)).
Definition read_ref (r : StateRef) (σ : Sys) : MESIState :=
  match r with CoreState => coreState σ | LineState c id => bst σ c id end.
Definition write_ref (r : StateRef) (s : MESIState) (σ : Sys) : Sys :=
  match r with
  | CoreState => mkSys (caches σ) s (net σ) (mem σ)
  | LineState c id => set_bst c id s σ
  end.

(** A call on the cache's array. *)
Definition on_arr {X} (c : nat) (m : st A X) : CM X := fun σ =>
  match m (arr (cache_of σ c)) with
  | Ok (x, a') => Ok (x, set_arr c a' σ)
  | Err f => Err f
  end.
(** [(network)? network->getRTT(...) : 0]. *)
Definition net_rtt (c : nat) (cy lat : Z) (dst : MemRef) : CM Z := fun σ =>
  if c_network (cfg c) then
    let '(d, n') := getRTT (net σ) cy lat (ToCache c) dst in
    Ok (d, mkSys (caches σ) (coreState σ) n' (mem σ))
  else Ok (0, σ).
(** The view a replacement policy has of the controller. *)
Definition repl_view (σ : Sys) (c : nat) : ReplView :=
  mkView (fun id => bool_decide (bst σ c id <> I))
         (fun id => if c_terminal (cfg c) then 0 else numSharers (entry σ c id)).
Definition isExclusive (σ : Sys) (c : nat) (id : Z) : bool :=
  bool_decide (bst σ c id = E) || bool_decide (bst σ c id = M).

(** ** Invalidations *)

(** [MESIBottomCC::processInval]; returns the new [*reqWriteback]. *)
Definition bcc_processInval (c : nat) (id : Z) (t : InvType) (wb : bool) : CM bool :=
  s ← gets (fun σ => bst σ c id);
  assert_ (bool_decide (s <> I));;
  match t with
  | INVX =>
      assert_ (bool_decide (s = E) || bool_decide (s = M));;
      let wb := if decide (s = M) then true else wb in
      modify (set_bst c id S);;
      modify (prof_inc c profINVX 1);;
      mret wb
  | INV =>
      let wb := if decide (s = M) then true else wb in
      modify (set_bst c id I);;
      modify (prof_inc c profINV 1);;
      mret wb
  | FWD =>
      assert_ (bool_decide (s = S));;
      modify (prof_inc c profFWD 1);;
      mret wb
  end.

Section SendInvalidates.
(** [children[c]->invalidate(req)] with the writeback flag threaded. *)
Variable invalidate_child : nat -> InvReq -> bool -> CM (Z * bool).

(** The loop of [MESITopCC::sendInvalidates] over the children from index [k] on. *)
Fixpoint sendInv_loop (c : nat) (a id : Z) (t : InvType) (cy src : Z)
    (kids : list nat) (k : nat) (maxCycle sentInvs : Z) (wb : bool) : CM (Z * Z * bool) :=
  match kids with
  | [] => mret (maxCycle, sentInvs, wb)
  | kid :: kids' =>
      e ← gets (fun σ => entry σ c id);
      if decide (k ∈ sharers e) then
        '(resp, wb') ← invalidate_child kid (mkInv a t cy src) wb;
        let latency := s32 (Z.max (s64 resp - s64 cy) 0) in
        d ← net_rtt c cy (u32 latency) (ToCache kid);
        let resp := u64 (resp + d) in
        (if decide (t = INV) then modify (upd_entry c id (reset_sharer k)) else mret ());;
        sendInv_loop c a id t cy src kids' (k + 1) (Z.max resp maxCycle) (sentInvs + 1) wb'
      else sendInv_loop c a id t cy src kids' (k + 1) maxCycle sentInvs wb
  end.

(** [MESITopCC::sendInvalidates]: the cycle it ends and the new [*reqWriteback]. *)
Definition sendInvalidates (c : nat) (a id : Z) (t : InvType) (wb : bool) (cy src : Z) : CM (Z * bool) :=
  e ← gets (fun σ => entry σ c id);
  if bool_decide (t = INVX) && negb (Entry_isExclusive e) then mret (cy, wb)
  else if Entry_isEmpty e then mret (cy, wb)
  else
    '(maxCycle, sentInvs, wb') ← sendInv_loop c a id t cy src (c_children (cfg c)) 0 cy 0 wb;
    e' ← gets (fun σ => entry σ c id);
    assert_ (bool_decide (sentInvs = numSharers e'));;
    (if decide (t = INV) then modify (upd_entry c id (set_numSharers 0))
     else
       assert_ (exclusive e');;
       assert_ (bool_decide (numSharers e' = 1));;
       modify (upd_entry c id (set_exclusive false)));;
    mret (maxCycle, wb').

(** [MESITopCC::processInval]. *)
Definition tcc_processInval (c : nat) (a id : Z) (t : InvType) (wb : bool) (cy src : Z) : CM (Z * bool) :=
  if decide (t = FWD) then assert_ (negb (c_nonInclusiveHack (cfg c)));; mret (cy, wb)
  else sendInvalidates c a id t wb cy src.

(** [MESITopCC::processEviction]. *)
Definition tcc_processEviction (c : nat) (wbAddr id : Z) (wb : bool) (cy src : Z) : CM (Z * bool) :=
  if c_nonInclusiveHack (cfg c) then
    modify (upd_entry c id (fun _ => Entry_clear));; mret (cy, wb)
  else sendInvalidates c wbAddr id INV wb cy src.

(** [MESICC::processInv] and [MESITerminalCC::processInv]. *)
Definition cc_processInv (c : nat) (r : InvReq) (id : Z) (wb : bool) (cy : Z) : CM (Z * bool) :=
  if c_terminal (cfg c) then
    wb' ← bcc_processInval c id (inv_type r) wb;
    mret (cy, wb')
  else
    '(resp, wb') ← tcc_processInval c (inv_lineAddr r) id (inv_type r) wb cy (inv_srcId r);
    wb'' ← bcc_processInval c id (inv_type r) wb';
    mret (resp, wb'').

(** [Cache::finishInvalidate]. *)
Definition finishInvalidate (c : nat) (r : InvReq) (wb : bool) : CM (Z * bool) :=
  id ← on_arr c (arr_lookup (inv_lineAddr r) None false);
  assert_ (bool_decide (id <> -1));;
  cc_processInv c r id wb (u64 (inv_cycle r + c_invLat (cfg c))).
End SendInvalidates.

(** [Cache::invalidate], down the hierarchy; [n] bounds the number of levels below. *)
Fixpoint invalidate (n : nat) (c : nat) (r : InvReq) (wb : bool) : CM (Z * bool) :=
  match n with
  | O => fail NoFuel
  | Datatypes.S n' => finishInvalidate (invalidate n') c r wb
  end.

(** ** Accesses *)

(** [lineId == -1] is the miss of a lookup. *)
Definition bcc_isValid (σ : Sys) (c : nat) (id : Z) : bool := bool_decide (bst σ c id <> I).

Section Accesses.
(** The calls a cache makes: [children[k]->invalidate] and
    [parents[p]->access] for a parent cache. *)
Variable invalidate_child : nat -> InvReq -> bool -> CM (Z * bool).
Variable access_cache : nat -> MemReq -> CM Z.

(** [parent->access(req)] for any memory object. *)
Definition access_parent (p : MemRef) (r : MemReq) : CM Z :=
  match p with
  | ToCache c => access_cache c r
  | ToMem m => fun σ =>
      match mem_access m r (mem σ) with
      | Ok (s, resp, mm') =>
          Ok (resp, write_ref (state r) s (mkSys (caches σ) (coreState σ) (net σ) mm'))
      | Err f => Err f
      end
  end.

(** [parents[getParentId(lineAddr)]], then a request built on line [id] of cache [c]. *)
Definition parent_of (c : nat) (a : Z) : CM MemRef :=
  match getParent (cfg c) a with Some p => mret p | None => fail AssertFail end.
Definition request_up (c : nat) (a id : Z) (t : AccessType) (cy src fl : Z) : CM Z :=
  p ← parent_of c a;
  s ← gets (fun σ => bst σ c id);
  access_parent p (mkReq a t (c_selfId (cfg c)) (LineState c id) cy s src fl).

(** [MESIBottomCC::processEviction]. *)
Definition bcc_processEviction (c : nat) (wbAddr id : Z) (lowerLevelWriteback : bool) (cy src : Z) : CM Z :=
  (if lowerLevelWriteback then
     s ← gets (fun σ => bst σ c id);
     assert_ (bool_decide (s = M) || bool_decide (s = E));;
     modify (set_bst c id M)
   else mret ());;
  s ← gets (fun σ => bst σ c id);
  resp ← match s with
         | I => mret cy
         | S | E => request_up c wbAddr id PUTS cy src 0
         | M => request_up c wbAddr id PUTX cy src 0
         end;
  s ← gets (fun σ => bst σ c id);
  assert_ (bool_decide (s = I));;
  mret resp.

(** The miss path shared by GETS and GETX in [MESIBottomCC::processAccess]:
    the request, the two latencies and their counters. *)
Definition bcc_fetch (c : nat) (a id : Z) (t : AccessType) (cy src fl : Z) : CM Z :=
  p ← parent_of c a;
  resp ← request_up c a id t cy src fl;
  let nextLevelLat := u32 (resp - cy) in
  netLat ← net_rtt c cy nextLevelLat p;
  modify (prof_inc c profGETNextLevelLat nextLevelLat);;
  modify (prof_inc c profGETNetLat netLat);;
  mret (u64 (cy + u32 (nextLevelLat + netLat))).

(** [MESIBottomCC::processAccess]. *)
Definition bcc_processAccess (c : nat) (a id : Z) (t : AccessType) (cy src fl : Z) : CM Z :=
  if c_bypass (cfg c) then request_up c a id t cy src fl
  else
    s ← gets (fun σ => bst σ c id);
    when (bool_decide (s = S)) (modify (prof_inc c sharedRequests 1));;
    resp ← match t with
    | PUTS =>
        assert_ (bool_decide (s <> I));;
        modify (prof_inc c profPUTS 1);;
        mret cy
    | PUTX =>
        assert_ (bool_decide (s = M) || bool_decide (s = E));;
        when (bool_decide (s = E)) (modify (set_bst c id M));;
        modify (prof_inc c profPUTX 1);;
        mret cy
    | GETS =>
        if decide (s = I) then
          resp ← bcc_fetch c a id GETS cy src fl;
          modify (prof_inc c profGETSMiss 1);;
          s' ← gets (fun σ => bst σ c id);
          assert_ (bool_decide (s' = S) || bool_decide (s' = E));;
          mret resp
        else
          modify (prof_inc c profGETSHit 1);;
          mret cy
    | GETX =>
        resp ← (if bool_decide (s = I) || bool_decide (s = S) then
                  modify (prof_inc c (if decide (s = I) then profGETXMissIM else profGETXMissSM) 1);;
                  bcc_fetch c a id GETX cy src fl
                else
                  when (bool_decide (s = E)) (modify (set_bst c id M));;
                  modify (prof_inc c profGETXHit 1);;
                  mret cy);
        s' ← gets (fun σ => bst σ c id);
        assert_ (bool_decide (s' = M));;
        mret resp
    end;
    assert_ (bool_decide (cy <= resp));;
    mret resp.

(** [MESIBottomCC::processWritebackOnAccess]. *)
Definition bcc_processWritebackOnAccess (c : nat) (id : Z) : CM unit :=
  s ← gets (fun σ => bst σ c id);
  assert_ (bool_decide (s = M) || bool_decide (s = E));;
  when (bool_decide (s = E)) (modify (set_bst c id M)).

(** [MESIBottomCC::processNonInclusiveWriteback]. *)
Definition bcc_processNonInclusiveWriteback (c : nat) (r : MemReq) (cy : Z) : CM Z :=
  if c_nonInclusiveHack (cfg c) then
    p ← parent_of c (lineAddr r);
    s ← gets (read_ref (state r));
    access_parent p (mkReq (lineAddr r) (type r) (c_selfId (cfg c)) (state r) cy s (srcId r)
                           (Z.lor (flags r) NONINCLWB))
  else fail Panicked.

(** [MESITopCC::processAccess]. The PUTX case falls through to PUTS
    unless the requester keeps its exclusive permission. *)
Definition tcc_put (c : nat) (id : Z) (child : nat) (childState : StateRef) : CM unit :=
  e ← gets (fun σ => entry σ c id);
  assert_ (bool_decide (child ∈ sharers e));;
  modify (upd_entry c id (reset_sharer child));;
  modify (upd_entry c id (fun e => set_numSharers (u32 (numSharers e - 1)) e));;
  modify (write_ref childState I).

Definition tcc_processAccess (c : nat) (a id : Z) (t : AccessType) (child : nat) (haveExclusive : bool)
    (childState : StateRef) (cy src fl : Z) : CM (Z * bool) :=
  match t with
  | PUTX =>
      e ← gets (fun σ => entry σ c id);
      assert_ (Entry_isExclusive e);;
      if has_flag fl PUTX_KEEPEXCL then
        assert_ (bool_decide (child ∈ sharers e));;
        s ← gets (read_ref childState);
        assert_ (bool_decide (s = M));;
        modify (write_ref childState E);;
        mret (cy, false)
      else tcc_put c id child childState;; mret (cy, false)
  | PUTS => tcc_put c id child childState;; mret (cy, false)
  | GETS =>
      e ← gets (fun σ => entry σ c id);
      if Entry_isEmpty e && haveExclusive && negb (has_flag fl NOEXCL) then
        modify (upd_entry c id (fun e => set_numSharers 1 (set_sharer child (set_exclusive true e))));;
        modify (write_ref childState E);;
        mret (cy, false)
      else
        assert_ (bool_decide (child ∉ sharers e));;
        '(resp, wb) ← (if Entry_isExclusive e
                       then sendInvalidates invalidate_child c a id INVX false cy src
                       else mret (cy, false));
        e' ← gets (fun σ => entry σ c id);
        assert_ (negb (Entry_isExclusive e'));;
        modify (upd_entry c id (fun e =>
          set_exclusive false (set_numSharers (u32 (numSharers e + 1)) (set_sharer child e))));;
        modify (write_ref childState S);;
        mret (resp, wb)
  | GETX =>
      assert_ haveExclusive;;
      e ← gets (fun σ => entry σ c id);
      (if decide (child ∈ sharers e) then
         assert_ (negb (Entry_isExclusive e));;
         modify (upd_entry c id (fun e =>
           set_numSharers (u32 (numSharers e - 1)) (reset_sharer child e)))
       else mret ());;
      '(resp, wb) ← sendInvalidates invalidate_child c a id INV false cy src;
      modify (upd_entry c id (fun e =>
        set_exclusive true (set_numSharers (u32 (numSharers e + 1)) (set_sharer child e))));;
      e' ← gets (fun σ => entry σ c id);
      assert_ (bool_decide (numSharers e' = 1));;
      modify (write_ref childState M);;
      mret (resp, wb)
  end.

(** [MESICC::startAccess], [MESITerminalCC::startAccess]: the request as
    it goes on, and whether it is skipped. *)
Definition cc_startAccess (c : nat) (r : MemReq) : CM (MemReq * bool) :=
  assert_ (if c_terminal (cfg c) then IsGet (type r) else true);;
  s ← gets (read_ref (state r));
  '(t, skip) ← lift (CheckForMESIRace (type r) s (initialState r));
  mret (with_type r t, skip).

(** [shouldAllocate]. *)
Definition cc_shouldAllocate (c : nat) (r : MemReq) : CM bool :=
  if c_terminal (cfg c) then mret true
  else if IsGet (type r) then mret true
  else if c_nonInclusiveHack (cfg c) then mret false else fail Panicked.

(** [processEviction] of the two controllers. *)
Definition cc_processEviction (c : nat) (trigger : MemReq) (wbAddr id cy : Z) : CM Z :=
  if c_terminal (cfg c) then bcc_processEviction c wbAddr id false cy (srcId trigger)
  else
    '(evCycle, wb) ← tcc_processEviction invalidate_child c wbAddr id false cy (srcId trigger);
    bcc_processEviction c wbAddr id wb evCycle (srcId trigger).

(** [MESICC::processAccess] and [MESITerminalCC::processAccess]. *)
Definition mesicc_processAccess (c : nat) (r : MemReq) (id cy : Z) : CM Z :=
  v ← gets (fun σ => bcc_isValid σ c id);
  if bool_decide (id = -1) || (IsPut (type r) && negb v && negb (c_bypass (cfg c))) then
    assert_ (c_nonInclusiveHack (cfg c));;
    assert_ (IsPut (type r));;
    bcc_processNonInclusiveWriteback c r cy
  else
    let isPrefetch := has_flag (flags r) PREFETCH in
    assert_ (negb isPrefetch || bool_decide (type r = GETS));;
    let fl := Z.land (flags r) (Z.lnot PREFETCH) in
    resp ← bcc_processAccess c (lineAddr r) id (type r) cy (srcId r) fl;
    if isPrefetch then mret resp
    else
      excl ← gets (fun σ => isExclusive σ c id);
      '(resp, wb) ← tcc_processAccess c (lineAddr r) id (type r) (childId r) excl (state r)
                      resp (srcId r) fl;
      when wb (bcc_processWritebackOnAccess c id);;
      mret resp.

Definition cc_processAccess (c : nat) (r : MemReq) (id cy : Z) : CM Z :=
  if c_terminal (cfg c) then
    assert_ (bool_decide (id <> -1));;
    bcc_processAccess c (lineAddr r) id (type r) cy (srcId r) (flags r)
  else mesicc_processAccess c r id cy.

(** The miss branch of [Cache::access]: make space for the line. *)
Definition Cache_allocate (c : nat) (r : MemReq) (cy : Z) : CM Z :=
  v ← gets (fun σ => repl_view σ c);
  '(id, wbAddr) ← on_arr c (arr_preinsert v (lineAddr r) r);
  cc_processEviction c r wbAddr id cy;;
  on_arr c (arr_postinsert (lineAddr r) r id);;
  mret id.

(** [Cache::access] (no event recorder: the contention model's timing records are not modelled). *)
Definition Cache_access (c : nat) (r0 : MemReq) : CM Z :=
  '(r, skipAccess) ← cc_startAccess c r0;
  resp ← (if skipAccess : bool then mret (cycle r)
          else
            let updateReplacement := IsGet (type r) in
            id ← on_arr c (arr_lookup (lineAddr r) (Some r) updateReplacement);
            let cy := u64 (cycle r + c_accLat (cfg c)) in
            id ← (if bool_decide (id = -1) then
                    alloc ← cc_shouldAllocate c r;
                    if (alloc : bool) then Cache_allocate c r cy else mret id
                  else mret id);
            cc_processAccess c r id cy);
  assert_ (bool_decide (cycle r <= resp));;
  mret resp.
End Accesses.

(** [Cache::access], up the hierarchy; [d] bounds the levels below a cache
    and [n] the levels above. *)
Fixpoint access (d n : nat) (c : nat) (r : MemReq) : CM Z :=
  match n with
  | O => fail NoFuel
  | Datatypes.S n' => Cache_access (invalidate d) (access d n') c r
  end.

(** A core's request, as its filter cache sends it to its terminal cache
    (filter_cache.h): the state word is a local of the caller. *)
Definition core_access (d n : nat) (c : nat) (a : Z) (t : AccessType) (cy src fl : Z) : CM Z :=
  modify (fun σ => mkSys (caches σ) I (net σ) (mem σ));;
  access d n c (mkReq a t 0 CoreState cy I src fl).
End Controllers.
