(* ===== verification/CoherenceInv.v ===== *)
(** * Invariants of the cache hierarchy

    The observations of the store (line states, directory entries, array
    contents), the well-formedness of a hierarchy, the coherence and inclusion
    invariant, and the tree of caches that can hold a given line. *)

From stdpp Require Import base tactics numbers list gmap sets.
From Stdlib Require Import ZArith Lia.
From S2P Require Import Prelude.
From S2P Require Import MemTypes.
From S2P Require Import Coherence.

Open Scope Z_scope.

(** Exclusive permission: E or M. *)
Definition excl (s : MESIState) : Prop := s = E \/ s = M.
#[export] Instance excl_dec s : Decision (excl s).
Proof. unfold excl. apply _. Defined.

Lemma excl_not_I s : excl s -> s <> I.
Proof. intros [-> | ->]; done. Qed.

(** A well-formed inclusive hierarchy with [level] growing towards memory. *)
Record WfCfg (cfg : nat -> CacheCfg) (level : nat -> nat) (top : nat) : Prop := {
  wf_bypass : forall c, c_bypass (cfg c) = false;
  wf_inclusive : forall c, c_nonInclusiveHack (cfg c) = false;
  wf_parents : forall c, c_parents (cfg c) <> [];
  wf_up : forall c p, ToCache p ∈ c_parents (cfg c) ->
    (level c < level p)%nat /\ c_terminal (cfg p) = false /\
    c_children (cfg p) !! c_selfId (cfg c) = Some c;
  wf_down : forall p k c, c_children (cfg p) !! k = Some c ->
    c_selfId (cfg c) = k /\ (level c < level p)%nat;
  wf_term : forall c, c_terminal (cfg c) = true -> c_children (cfg c) = [];
  wf_lat : forall c, in_u32 (c_accLat (cfg c)) /\ in_u32 (c_invLat (cfg c));
  wf_nchildren : forall c, (length (c_children (cfg c)) <= 2048)%nat;
  wf_top : forall c, (level c < top)%nat;
  wf_top_bound : Z.of_nat top <= 2 ^ 20;
}.

Section Observations.
Set Default Proof Using "Type".
Context {A N MM : Type} `{!Inhabited A} `{!CacheArray A} `{!CacheArrayOk A}.
Context `{!Network N} `{!NetworkOk N} `{!MemCtrl MM} `{!MemCtrlOk MM}.
Abbreviation Sys := (Sys A N MM).
Implicit Types (σ : Sys) (a : Z) (c d p : nat).

Definition find σ c a : option Z := arr_find (arr (cache_of σ c)) a.
Definition tag σ c (id : Z) : Z := arr_tag (arr (cache_of σ c)) id.
(** The state of line [a] in cache [c]. *)
Definition lst σ c a : MESIState := match find σ c a with Some id => bst σ c id | None => I end.

(** ** Reading an updated store *)
Lemma cache_of_upd c f σ d :
  cache_of (upd_cache c f σ) d = if decide (c = d) then f (cache_of σ c) else cache_of σ d.
Proof.
  unfold cache_of, upd_cache; simpl. case_decide; subst.
  - by rewrite lookup_total_insert_eq.
  - by rewrite lookup_total_insert_ne.
Qed.

Lemma bst_set_bst c id s σ d j :
  bst (set_bst c id s σ) d j = if decide (c = d /\ id = j) then s else bst σ d j.
Proof.
  unfold bst, set_bst. rewrite cache_of_upd. case_decide; [subst; simpl|by case_decide; naive_solver].
  case_decide as Hd.
  - destruct Hd as [_ ->]. by rewrite lookup_total_insert_eq.
  - rewrite lookup_total_insert_ne; naive_solver.
Qed.

Lemma entry_upd_entry c id f σ d j :
  entry (upd_entry c id f σ) d j = if decide (c = d /\ id = j) then f (entry σ c id) else entry σ d j.
Proof.
  unfold entry, upd_entry. rewrite cache_of_upd. case_decide; [subst; simpl|by case_decide; naive_solver].
  case_decide as Hd.
  - destruct Hd as [_ ->]. by rewrite lookup_total_insert_eq.
  - rewrite lookup_total_insert_ne; naive_solver.
Qed.

Lemma entry_set_bst c id s σ d j : entry (set_bst c id s σ) d j = entry σ d j.
Proof. unfold entry, set_bst. rewrite cache_of_upd. by case_decide; subst. Qed.
Lemma bst_upd_entry c id f σ d j : bst (upd_entry c id f σ) d j = bst σ d j.
Proof. unfold bst, upd_entry. rewrite cache_of_upd. by case_decide; subst. Qed.
Lemma bst_set_arr c s σ d j : bst (set_arr c s σ) d j = bst σ d j.
Proof. unfold bst, set_arr. rewrite cache_of_upd. by case_decide; subst. Qed.
Lemma entry_set_arr c s σ d j : entry (set_arr c s σ) d j = entry σ d j.
Proof. unfold entry, set_arr. rewrite cache_of_upd. by case_decide; subst. Qed.
Lemma bst_prof_inc c k n σ d j : bst (prof_inc c k n σ) d j = bst σ d j.
Proof. unfold bst, prof_inc. rewrite cache_of_upd. by case_decide; subst. Qed.
Lemma entry_prof_inc c k n σ d j : entry (prof_inc c k n σ) d j = entry σ d j.
Proof. unfold entry, prof_inc. rewrite cache_of_upd. by case_decide; subst. Qed.
Lemma arr_set_arr c s σ d : arr (cache_of (set_arr c s σ) d) = if decide (c = d) then s else arr (cache_of σ d).
Proof. unfold set_arr. rewrite cache_of_upd. by case_decide. Qed.
Lemma arr_set_bst c id s σ d : arr (cache_of (set_bst c id s σ) d) = arr (cache_of σ d).
Proof. unfold set_bst. rewrite cache_of_upd. by case_decide; subst. Qed.
Lemma arr_upd_entry c id f σ d : arr (cache_of (upd_entry c id f σ) d) = arr (cache_of σ d).
Proof. unfold upd_entry. rewrite cache_of_upd. by case_decide; subst. Qed.
Lemma arr_prof_inc c k n σ d : arr (cache_of (prof_inc c k n σ) d) = arr (cache_of σ d).
Proof. unfold prof_inc. rewrite cache_of_upd. by case_decide; subst. Qed.

(** ** The part of the store that the invariant speaks of *)

(** [σ'] has the line states, entries and array contents of [σ] (its
    counters, network and replacement state may differ). *)
Record same_arr σ σ' : Prop := {
  sa_find : forall c a, find σ' c a = find σ c a;
  sa_tag : forall c id, tag σ' c id = tag σ c id;
  sa_inv : forall q c, arr_inv q (arr (cache_of σ c)) -> arr_inv q (arr (cache_of σ' c));
}.
Record same_view σ σ' : Prop := {
  sv_arr : same_arr σ σ';
  sv_bst : forall c id, bst σ' c id = bst σ c id;
  sv_entry : forall c id, entry σ' c id = entry σ c id;
  sv_mem : mem σ' = mem σ;
  sv_core : coreState σ' = coreState σ;
}.

Lemma same_arr_eq σ σ' : (forall c, arr (cache_of σ' c) = arr (cache_of σ c)) -> same_arr σ σ'.
Proof. intros H. split; unfold find, tag; intros; by rewrite ?H. Qed.

#[export] Instance same_arr_refl : Reflexive same_arr.
Proof. intros σ. by split. Qed.
#[export] Instance same_arr_trans : Transitive same_arr.
Proof. intros x y z [] []. split; intros; [congruence..|eauto]. Qed.
#[export] Instance same_view_refl : Reflexive same_view.
Proof. intros σ. by split. Qed.
#[export] Instance same_view_trans : Transitive same_view.
Proof. intros x y z [] []. split; [by etrans|congruence..]. Qed.

Lemma same_view_prof_inc c k n σ : same_view σ (prof_inc c k n σ).
Proof.
  split; intros; [apply same_arr_eq; intros; apply arr_prof_inc|..];
    by rewrite ?bst_prof_inc, ?entry_prof_inc.
Qed.
Lemma same_view_net σ n : same_view σ (mkSys (caches σ) (coreState σ) n (mem σ)).
Proof. by split. Qed.

(** ** Weakest preconditions of the primitive operations *)
Lemma wp_on_arr {X} c (m : st A X) σ Q :
  wp m (arr (cache_of σ c)) (fun x s' => Q x (set_arr c s' σ)) -> wp (on_arr c m) σ Q.
Proof. unfold wp, on_arr. destruct (m _) as [[x s']|]; done. Qed.

Lemma wp_net_rtt cfg c cy lat dst σ Q :
  (forall (rtt : Z) σ', in_u32 rtt -> same_view σ σ' -> Q rtt σ') -> wp (net_rtt cfg c cy lat dst) σ Q.
Proof using NetworkOk0.
  intros HQ. unfold wp, net_rtt. destruct (c_network (cfg c)).
  - destruct (getRTT _ _ _ _ _) as [rtt n'] eqn:Hg. apply HQ; [|apply same_view_net].
    pose proof (getRTT_u32 (net σ) cy lat (ToCache c) dst) as Hr. by rewrite Hg in Hr.
  - apply HQ; [|done]. unfold in_u32, W32. lia.
Qed.

(** A lookup only touches the replacement state. *)
Lemma wp_lookup q c a r u σ Q :
  arr_inv q (arr (cache_of σ c)) -> arr_addr_ok (A:=A) a -> (u = true -> is_Some r) ->
  (forall σ', same_view σ σ' -> Q (default (-1) (find σ c a)) σ') ->
  wp (on_arr c (arr_lookup a r u)) σ Q.
Proof.
  intros Hi Ha Hu HQ. apply wp_on_arr.
  pose proof (fun q' Hq' => arr_lookup_ok q' (arr (cache_of σ c)) a r u Hq' Ha Hu) as Hok.
  pose proof (Hok q Hi) as (id & s' & Hrun & Hi' & -> & Hf & Ht)%wp_ok.
  apply wp_ok. exists (default (-1) (find σ c a)), s'. split; [done|]. apply HQ.
  split; [split|..]; intros; unfold find, tag in *; rewrite ?arr_set_arr;
    rewrite ?bst_set_arr, ?entry_set_arr; try done; case_decide; subst; auto.
  specialize (Hok q0 ltac:(done)). unfold wp in Hok. rewrite Hrun in Hok. apply Hok.
Qed.
End Observations.

#[export] Hint Rewrite @bst_set_bst @entry_upd_entry @entry_set_bst @bst_upd_entry @bst_set_arr
  @entry_set_arr @bst_prof_inc @entry_prof_inc @arr_set_bst @arr_upd_entry @arr_prof_inc @arr_set_arr : damov.

(** ** The caches that can hold a line

    The bank hash gives each cache one parent per line, so the caches form a
    forest for each line. *)
Section Tree.
Context (cfg : nat -> CacheCfg) (level : nat -> nat) (top : nat) (WF : WfCfg cfg level top).
Implicit Types (a : Z) (c d p k : nat).

(** Cache [c] is the child number [k] of [p], and sends line [a] to it. *)
Definition child_at a p k c : Prop :=
  c_children (cfg p) !! k = Some c /\ getParent (cfg c) a = Some (ToCache p).

(** [d] is [c] or a cache below it for line [a]. *)
Inductive below a c : nat -> Prop :=
  | below_refl : below a c c
  | below_step p k d : below a c p -> child_at a p k d -> below a c d.

Lemma child_at_level a p k c : child_at a p k c -> (level c < level p)%nat.
Proof using WF. intros [H _]. by eapply (wf_down _ _ _ WF) in H as [_ ?]. Qed.

Lemma child_ne a p k c : child_at a p k c -> c <> p.
Proof using WF. intros Hc ->. apply child_at_level in Hc. lia. Qed.

Lemma child_at_index a p k c : child_at a p k c -> k = c_selfId (cfg c).
Proof using WF. intros [H _]. by eapply (wf_down _ _ _ WF) in H as [<- ?]. Qed.

Lemma child_at_inj a p1 k1 p2 k2 c :
  child_at a p1 k1 c -> child_at a p2 k2 c -> p1 = p2 /\ k1 = k2.
Proof using WF.
  intros H1 H2. split; [destruct H1, H2; congruence|].
  by rewrite (child_at_index _ _ _ _ H1), (child_at_index _ _ _ _ H2).
Qed.

Lemma child_at_fun a p k c1 c2 : child_at a p k c1 -> child_at a p k c2 -> c1 = c2.
Proof. intros [H1 _] [H2 _]. congruence. Qed.

Lemma parent_child a c p : getParent (cfg c) a = Some (ToCache p) -> child_at a p (c_selfId (cfg c)) c.
Proof using WF.
  intros H. split; [|done]. apply list_elem_of_lookup_2 in H.
  by apply (wf_up _ _ _ WF) in H as (_ & _ & ?).
Qed.

Lemma getParent_total c a : exists pr, getParent (cfg c) a = Some pr.
Proof using WF.
  unfold getParent. apply lookup_lt_is_Some. unfold getParentId.
  pose proof (wf_parents _ _ _ WF c) as Hne.
  assert (0 < Z.of_nat (length (c_parents (cfg c)))) by (destruct (c_parents (cfg c)); simpl; [done|lia]).
  pose proof (Z.mod_pos_bound (addrFold a) (Z.of_nat (length (c_parents (cfg c))))). lia.
Qed.

Lemma below_level a c d : below a c d -> (level d <= level c)%nat /\ (level d = level c -> d = c).
Proof using WF.
  induction 1 as [|p k d _ [IH IH'] H]; [done|].
  apply child_at_level in H. split; [lia|]. lia.
Qed.

Lemma below_child a p k c d : child_at a p k c -> below a c d -> below a p d.
Proof. intros H. induction 1; [|by econstructor]. eapply below_step; [apply below_refl|done]. Qed.

(** A cache strictly below [p] is below exactly one of its children. *)
Lemma below_inv a p d : below a p d -> d = p \/ exists k c, child_at a p k c /\ below a c d.
Proof.
  induction 1 as [|q k d _ IH H]; [by left|right].
  destruct IH as [->|(k' & c & Hc & Hb)]; [exists k, d; split; [done|constructor]|].
  exists k', c. split; [done|by econstructor].
Qed.

Lemma below_chain a c1 c2 d : below a c1 d -> below a c2 d -> below a c1 c2 \/ below a c2 c1.
Proof using WF.
  intros H1. induction H1 as [|p k d H1 IH Hc]; intros H2; [by right|].
  inversion H2 as [|p' k' d' H2' Hc']; subst; [left; by econstructor|].
  destruct (child_at_inj _ _ _ _ _ _ Hc Hc') as [-> ->]. auto.
Qed.

Lemma below_siblings a p k1 k2 c1 c2 d :
  child_at a p k1 c1 -> child_at a p k2 c2 -> below a c1 d -> below a c2 d -> k1 = k2.
Proof using WF.
  intros Hc1 Hc2 H1 H2.
  assert (forall k1 c1 k2 c2, child_at a p k1 c1 -> child_at a p k2 c2 -> below a c1 c2 -> k1 = k2) as Hw.
  { intros ????? Hc Hb. inversion Hb as [|q k d' Hb' Hc']; subst; [by destruct (child_at_inj _ _ _ _ _ _ H Hc)|].
    destruct (child_at_inj _ _ _ _ _ _ Hc Hc') as [-> ->].
    apply below_level in Hb' as [? _]. apply child_at_level in H. lia. }
  destruct (below_chain _ _ _ _ H1 H2); [|symmetry]; eauto.
Qed.

Lemma below_not_child a p k c : child_at a p k c -> ~ below a c p.
Proof using WF. intros H Hb. apply below_level in Hb as [? _]. apply child_at_level in H. lia. Qed.

Lemma below_em a c d : below a c d \/ ~ below a c d.
Proof using WF.
  induction d as [d IH] using (induction_ltof1 _ (fun d => (top - level d)%nat)).
  destruct (decide (d = c)) as [->|Hne]; [left; constructor|].
  destruct (getParent (cfg d) a) as [[p|m]|] eqn:Hp.
  - pose proof (parent_child _ _ _ Hp) as Hc. pose proof (child_at_level _ _ _ _ Hc).
    destruct (IH p) as [Hb|Hb].
    { unfold ltof. pose proof (wf_top _ _ _ WF p). lia. }
    + left. by econstructor.
    + right. intros Hd. inversion Hd as [|p' k' d' Hd' Hc']; subst; [done|].
      destruct (child_at_inj _ _ _ _ _ _ Hc Hc') as [-> _]. done.
  - right. intros Hd. inversion Hd as [|p' k' d' Hd' [_ Hc']]; subst; [done|congruence].
  - right. intros Hd. inversion Hd as [|p' k' d' Hd' [_ Hc']]; subst; [done|congruence].
Qed.
End Tree.

(** ** The coherence and inclusion invariant *)
Section Invariant.
Set Default Proof Using "Type".
Context {A N MM : Type} `{!Inhabited A} `{!CacheArray A} `{!CacheArrayOk A}.
Context `{!Network N} `{!NetworkOk N} `{!MemCtrl MM} `{!MemCtrlOk MM}.
Context (cfg : nat -> CacheCfg).
Abbreviation Sys := (Sys A N MM).
Abbreviation child_at := (child_at cfg).
Abbreviation below := (below cfg).
Implicit Types (σ : Sys) (a : Z) (c d p : nat).

(** The directory entry of line [a], held by line [id] of cache [d]: its
    count is the number of its sharers, every sharer holds the line, with
    exclusive permission exactly when the entry says so, and an exclusive
    sharer is alone and its parent holds exclusive permission too. *)
Record EntryOK σ d (id a : Z) : Prop := {
  eo_count : numSharers (entry σ d id) = Z.of_nat (size (sharers (entry σ d id)));
  eo_inv : bst σ d id = I -> sharers (entry σ d id) = ∅;
  eo_child : forall k, k ∈ sharers (entry σ d id) -> exists ch, child_at a d k ch /\
    lst σ ch a <> I /\ (excl (lst σ ch a) <-> exclusive (entry σ d id) = true);
  eo_excl : exclusive (entry σ d id) = true -> sharers (entry σ d id) <> ∅ ->
    size (sharers (entry σ d id)) = 1%nat /\ excl (bst σ d id);
}.

(** Cache [d] is coherent with its children on line [a]: its entry is right,
    and a child that holds the line is in the directory (inclusion). *)
Record NodeOK σ a d : Prop := {
  no_entry : forall id, find σ d a = Some id -> EntryOK σ d id a;
  no_incl : forall k ch, child_at a d k ch -> lst σ ch a <> I ->
    exists id, find σ d a = Some id /\ k ∈ sharers (entry σ d id);
}.

(** The invariant of the hierarchy; [pend c] is the insertion that the
    array of [c] is in the middle of. *)
Record Inv (pend : nat -> option (Z * Z)) σ : Prop := {
  inv_arr : forall c, arr_inv (pend c) (arr (cache_of σ c));
  inv_found : forall c id, bst σ c id <> I ->
    find σ c (tag σ c id) = Some id /\ arr_addr_ok (A:=A) (tag σ c id);
  inv_stale : forall c id, bst σ c id = I -> sharers (entry σ c id) = ∅ /\ numSharers (entry σ c id) = 0;
  inv_node : forall a d, NodeOK σ a d;
  inv_mem : mem_inv (mem σ);
}.
Definition no_pend : nat -> option (Z * Z) := fun _ => None.

Lemma lst_found σ c a id : find σ c a = Some id -> lst σ c a = bst σ c id.
Proof. unfold lst. by intros ->. Qed.

Lemma lst_not_I σ c a : lst σ c a <> I -> exists id, find σ c a = Some id /\ bst σ c id = lst σ c a.
Proof. unfold lst. destruct (find σ c a) as [id|] eqn:?; [eauto|done]. Qed.

Lemma Entry_isExclusive_true e : Entry_isExclusive e = true <-> numSharers e = 1 /\ exclusive e = true.
Proof. unfold Entry_isExclusive. rewrite andb_true_iff, bool_decide_eq_true. done. Qed.

Lemma size_1_nonempty (X : gset nat) : size X = 1%nat -> X <> ∅.
Proof. intros H ->. by rewrite size_empty in H. Qed.

Lemma isExclusive_sharers σ d id a :
  EntryOK σ d id a -> Entry_isExclusive (entry σ d id) = true ->
  exclusive (entry σ d id) = true /\ sharers (entry σ d id) <> ∅ /\ excl (bst σ d id).
Proof.
  intros HE [Hn Hx]%Entry_isExclusive_true.
  assert (sharers (entry σ d id) <> ∅) as Hne.
  { apply size_1_nonempty. pose proof (eo_count _ _ _ _ HE). lia. }
  split; [done|]. split; [done|]. by apply (eo_excl _ _ _ _ HE).
Qed.

Lemma not_isExclusive_child σ d id a k ch :
  EntryOK σ d id a -> Entry_isExclusive (entry σ d id) = false -> k ∈ sharers (entry σ d id) ->
  child_at a d k ch -> ~ excl (lst σ ch a).
Proof.
  intros HE Hx Hk Hc He. destruct (eo_child _ _ _ _ HE k Hk) as (ch' & Hc' & _ & Hiff).
  rewrite (child_at_fun _ _ _ _ _ _ Hc' Hc) in Hiff. apply Hiff in He.
  assert (sharers (entry σ d id) <> ∅) as Hne by eauto using elem_nonempty.
  destruct (eo_excl _ _ _ _ HE He Hne) as [Hs _].
  apply not_true_iff_false in Hx. apply Hx, Entry_isExclusive_true.
  split; [rewrite (eo_count _ _ _ _ HE), Hs; done|done].
Qed.

(** ** Frames *)
Lemma lst_same σ σ' c a :
  same_arr σ σ' -> (forall id, find σ c a = Some id -> bst σ' c id = bst σ c id) -> lst σ' c a = lst σ c a.
Proof. intros [Hf _ _] Hb. unfold lst. rewrite Hf. destruct (find σ c a); auto. Qed.

Lemma NodeOK_frame σ σ' a d :
  same_arr σ σ' ->
  (forall id, find σ d a = Some id -> bst σ' d id = bst σ d id /\ entry σ' d id = entry σ d id) ->
  (forall k ch, child_at a d k ch -> lst σ' ch a = lst σ ch a) ->
  NodeOK σ a d -> NodeOK σ' a d.
Proof.
  intros Hs Hd Hch HN. split.
  - intros id Hf. rewrite (sa_find _ _ Hs) in Hf. destruct (Hd _ Hf) as [Hb He].
    destruct (no_entry _ _ _ HN _ Hf) as [Hcnt Hinv Hchild Hexcl].
    split; rewrite ?He, ?Hb; auto.
    intros k Hk. destruct (Hchild k Hk) as (ch & Hc & Hl). exists ch.
    rewrite (Hch _ _ Hc). auto.
  - intros k ch Hc Hl. rewrite (Hch _ _ Hc) in Hl.
    destruct (no_incl _ _ _ HN _ _ Hc Hl) as (id & Hf & Hk). exists id.
    rewrite (sa_find _ _ Hs). split; [done|]. by rewrite (proj2 (Hd _ Hf)).
Qed.

Lemma same_view_lst σ σ' c a : same_view σ σ' -> lst σ' c a = lst σ c a.
Proof. intros H. apply lst_same; [apply H|]. intros. apply H. Qed.

Lemma same_view_Inv pend σ σ' : same_view σ σ' -> Inv pend σ -> Inv pend σ'.
Proof.
  intros Hs HI. pose proof (sv_arr _ _ Hs) as Ha. split.
  - intros c. apply Ha, HI.
  - intros c id. rewrite (sv_bst _ _ Hs), (sa_tag _ _ Ha), (sa_find _ _ Ha). apply HI.
  - intros c id. rewrite (sv_bst _ _ Hs), (sv_entry _ _ Hs). apply HI.
  - intros a d. eapply (NodeOK_frame σ); eauto using inv_node.
    + intros. by rewrite (sv_bst _ _ Hs), (sv_entry _ _ Hs).
    + intros. by apply same_view_lst.
  - rewrite (sv_mem _ _ Hs). apply HI.
Qed.

(** ** Subtrees where a line is absent, or not exclusive *)
Lemma below_all_I σ a c d :
  (forall d, below a c d -> NodeOK σ a d) -> lst σ c a = I -> below a c d -> lst σ d a = I.
Proof.
  intros HN HI. induction 1 as [|p k d Hb IH Hc]; [done|].
  destruct (decide (lst σ d a = I)) as [|Hne]; [done|exfalso].
  destruct (no_incl _ _ _ (HN _ Hb) _ _ Hc Hne) as (id & Hf & Hk).
  rewrite (lst_found _ _ _ _ Hf) in IH.
  pose proof (eo_inv _ _ _ _ (no_entry _ _ _ (HN _ Hb) _ Hf) IH). by eapply elem_nonempty.
Qed.

Lemma below_not_excl σ a c d :
  (forall d, below a c d -> NodeOK σ a d) -> ~ excl (lst σ c a) -> below a c d -> ~ excl (lst σ d a).
Proof.
  intros HN HI. induction 1 as [|p k d Hb IH Hc]; [done|].
  intros He. destruct (no_incl _ _ _ (HN _ Hb) _ _ Hc (excl_not_I _ He)) as (id & Hf & Hk).
  rewrite (lst_found _ _ _ _ Hf) in IH. apply IH.
  pose proof (no_entry _ _ _ (HN _ Hb) _ Hf) as HE.
  destruct (eo_child _ _ _ _ HE k Hk) as (ch & Hc' & _ & Hiff).
  rewrite (child_at_fun _ _ _ _ _ _ Hc' Hc) in Hiff.
  apply (eo_excl _ _ _ _ HE); [by apply Hiff|eauto using elem_nonempty].
Qed.

(** ** The effect of an invalidation on a line and on its entry *)
Definition eff_st (t : InvType) (s : MESIState) : MESIState :=
  match t with INV => I | INVX => if decide (excl s) then S else s | FWD => s end.
Definition eff_ent (t : InvType) (e : Entry) : Entry :=
  match t with
  | INV => mkEntry 0 ∅ (exclusive e)
  | INVX => if Entry_isExclusive e then set_exclusive false e else e
  | FWD => e
  end.

(** [σ'] is [σ] with line [a] invalidated (or downgraded) in the caches of [T]. *)
Record Eff (t : InvType) a (T : nat -> Prop) σ σ' : Prop := {
  ef_arr : same_arr σ σ';
  ef_mem : mem σ' = mem σ;
  ef_core : coreState σ' = coreState σ;
  ef_in : forall d id, T d -> find σ d a = Some id ->
    bst σ' d id = eff_st t (bst σ d id) /\ entry σ' d id = eff_ent t (entry σ d id);
  ef_out : forall d id, ~ (T d /\ find σ d a = Some id) ->
    bst σ' d id = bst σ d id /\ entry σ' d id = entry σ d id;
}.

Lemma eff_ent_INV_empty e : numSharers e = 0 -> sharers e = ∅ -> eff_ent INV e = e.
Proof. destruct e; simpl. by intros -> ->. Qed.

Lemma Entry_eta e : mkEntry (numSharers e) (sharers e) (exclusive e) = e.
Proof. by destruct e. Qed.

Lemma eff_ent_id_INV σ d id a : EntryOK σ d id a -> bst σ d id = I -> eff_ent INV (entry σ d id) = entry σ d id.
Proof.
  intros HE Hb. pose proof (eo_inv _ _ _ _ HE Hb) as Hs. pose proof (eo_count _ _ _ _ HE) as Hc.
  rewrite Hs, size_empty in Hc. by apply eff_ent_INV_empty.
Qed.

(** The lines that an invalidation does not reach would not change. *)
Definition unaffected (t : InvType) (s : MESIState) : Prop :=
  match t with INV => s = I | _ => ~ excl s end.

Lemma eff_noop t σ a c d id :
  (forall d, below a c d -> NodeOK σ a d) -> unaffected t (lst σ c a) -> below a c d ->
  find σ d a = Some id ->
  eff_st t (bst σ d id) = bst σ d id /\ eff_ent t (entry σ d id) = entry σ d id.
Proof.
  intros HN Hu Hb Hf. pose proof (no_entry _ _ _ (HN _ Hb) _ Hf) as HE.
  destruct t; simpl in *; [|split|done].
  - pose proof (below_all_I _ _ _ _ HN Hu Hb) as HI. rewrite (lst_found _ _ _ _ Hf) in HI.
    split; [by rewrite HI|]. by eapply eff_ent_id_INV.
  - pose proof (below_not_excl _ _ _ _ HN Hu Hb) as HI. rewrite (lst_found _ _ _ _ Hf) in HI.
    by rewrite decide_False.
  - pose proof (below_not_excl _ _ _ _ HN Hu Hb) as HI. rewrite (lst_found _ _ _ _ Hf) in HI.
    destruct (Entry_isExclusive _) eqn:Hx; [|done].
    by apply (isExclusive_sharers _ _ _ _ HE) in Hx as (_ & _ & ?).
Qed.
End Invariant.
