(* ===== verification/CoherenceInval.v ===== *)
(** * Invalidations: what they change, and that they never fail

    [invalidate] on a cache that holds the line, in a hierarchy that is
    coherent below it, terminates without a failed assertion; it clears (or
    downgrades) the line in exactly the caches of the subtree, and reports a
    writeback exactly when one of them held the line dirty. *)

From stdpp Require Import base tactics numbers list gmap sets.
From Stdlib Require Import ZArith Lia.
From S2P Require Import Prelude.
From S2P Require Import MemTypes.
From S2P Require Import Coherence.
From S2P Require Import CoherenceInv.

Open Scope Z_scope.

(** Cycles one level of the hierarchy can add. *)
Definition lat_bound : Z := 2 ^ 33.

Section Inval.
Context {A N MM : Type} `{!Inhabited A} `{!CacheArray A} `{!CacheArrayOk A}.
Context `{!Network N} `{!NetworkOk N} `{!MemCtrl MM} `{!MemCtrlOk MM}.
Context (cfg : nat -> CacheCfg) (level : nat -> nat) (top : nat) (WF : WfCfg cfg level top).
Abbreviation Sys := (Sys A N MM).
Abbreviation CM := (st Sys).
Abbreviation child_at := (child_at cfg).
Abbreviation below := (below cfg).
Abbreviation NodeOK := (NodeOK (A:=A) (N:=N) (MM:=MM) cfg).
Implicit Types (σ : Sys) (a : Z) (c d p : nat).

Definition cycle_room (c : nat) (cy : Z) : Prop :=
  0 <= cy /\ cy + lat_bound * (Z.of_nat (level c) + 1) <= 2 * cycle_limit.

(** What an invalidation needs, and what it guarantees. *)
Record InvalPre (t : InvType) c a (cy : Z) σ : Prop := {
  ip_type : t = INV \/ t = INVX;
  ip_addr : arr_addr_ok (A:=A) a;
  ip_arr : forall d, exists q, arr_inv q (arr (cache_of σ d));
  ip_nodes : forall d, below a c d -> NodeOK σ a d;
  ip_held : lst σ c a <> I;
  ip_excl : t = INVX -> excl (lst σ c a);
  ip_cycle : cycle_room c cy;
}.
Definition dirty_in (T : nat -> Prop) a σ : Prop := exists d, T d /\ lst σ d a = M.
Definition InvalPost (t : InvType) c a (cy : Z) (wb : bool) σ (r : Z * bool) σ' : Prop :=
  Eff t a (below a c) σ σ' /\
  cy <= r.1 <= cy + lat_bound * (Z.of_nat (level c) + 1) /\
  (r.2 = true <-> wb = true \/ dirty_in (below a c) a σ).

(** An invalidation method that is right for the caches below level [n]. *)
Definition InvalSpec (n : nat) (inv : nat -> InvReq -> bool -> CM (Z * bool)) : Prop :=
  forall t c a cy src wb σ, (level c < n)%nat -> InvalPre t c a cy σ ->
    wp (inv c (mkInv a t cy src) wb) σ (InvalPost t c a cy wb σ).

Section Send.
Variable inv : nat -> InvReq -> bool -> CM (Z * bool).
Variable t : InvType.
Variables (c : nat) (a id cy src : Z).
Variable σ0 : Sys.
Hypothesis Hinv : InvalSpec (level c) inv.
Let e0 := entry σ0 c id.

(** The caches reached by the first [k] iterations of the loop. *)
Definition reached (k : nat) (d : nat) : Prop :=
  exists j ch, (j < k)%nat /\ j ∈ sharers e0 /\ child_at a c j ch /\ below a ch d.

(** What the entry at [c] must say for the loop to be right. *)
Record SendPre : Prop := {
  sp_type : t = INV \/ (t = INVX /\ Entry_isExclusive e0 = true);
  sp_addr : arr_addr_ok (A:=A) a;
  sp_arr : forall d, exists q, arr_inv q (arr (cache_of σ0 d));
  sp_count : numSharers e0 = Z.of_nat (size (sharers e0));
  sp_child : forall k, k ∈ sharers e0 -> exists ch, child_at a c k ch /\ lst σ0 ch a <> I /\
    (t = INVX -> excl (lst σ0 ch a)) /\ (forall d, below a ch d -> NodeOK σ0 a d);
  sp_cycle : 0 <= cy /\ cy + lat_bound * (Z.of_nat (level c) + 1) <= 2 * cycle_limit + 2 ^ 32;
}.
Hypothesis HP : SendPre.

Definition entry_at (k : nat) : Entry :=
  mkEntry (numSharers e0)
    (if decide (t = INV) then filter (fun j => (k <= j)%nat) (sharers e0) else sharers e0)
    (exclusive e0).

(** The store after [k] iterations. *)
Record LoopSt (k : nat) σ : Prop := {
  ls_arr : same_arr σ0 σ;
  ls_mem : mem σ = mem σ0;
  ls_core : coreState σ = coreState σ0;
  ls_bst : bst σ c id = bst σ0 c id;
  ls_entry : entry σ c id = entry_at k;
  ls_in : forall d i, reached k d -> find σ0 d a = Some i ->
    bst σ d i = eff_st t (bst σ0 d i) /\ entry σ d i = eff_ent t (entry σ0 d i);
  ls_out : forall d i, ~ (d = c /\ i = id) -> ~ (reached k d /\ find σ0 d a = Some i) ->
    bst σ d i = bst σ0 d i /\ entry σ d i = entry σ0 d i;
}.

Lemma reached_not_c k : ~ reached k c.
Proof. intros (j & ch & _ & _ & Hc & Hb). by eapply below_not_child in Hb. Qed.

Lemma reached_not_later k ch d : child_at a c k ch -> below a ch d -> ~ reached k d.
Proof.
  intros Hc Hb (j & ch' & Hj & _ & Hc' & Hb').
  pose proof (below_siblings _ _ _ WF _ _ _ _ _ _ _ Hc Hc' Hb Hb'). lia.
Qed.

Lemma below_child_ne k ch d : child_at a c k ch -> below a ch d -> d <> c.
Proof. intros Hc Hb ->. by eapply below_not_child. Qed.

Lemma reached_S k d : reached (k + 1) d <->
  reached k d \/ (k ∈ sharers e0 /\ exists ch, child_at a c k ch /\ below a ch d).
Proof.
  unfold reached. split.
  - intros (j & ch & Hj & Hs & Hc & Hb). destruct (decide (j = k)) as [->|]; [eauto|].
    left. exists j, ch. repeat split; try done; [lia|apply Hc..].
  - intros [(j & ch & Hj & Hs & Hc & Hb)|(Hs & ch & Hc & Hb)].
    + exists j, ch. repeat split; try done; [lia|apply Hc..].
    + exists k, ch. repeat split; try done; [lia|apply Hc..].
Qed.

Lemma entry_at_reset k : k ∈ sharers e0 ->
  (if decide (t = INV) then reset_sharer k (entry_at k) else entry_at k) = entry_at (k + 1).
Proof.
  intros Hk. unfold entry_at. case_decide; [|done]. unfold reset_sharer. simpl. f_equal.
  apply set_eq. intros x. rewrite elem_of_difference, !elem_of_filter, elem_of_singleton.
  assert ((k <= x)%nat /\ x <> k <-> (k + 1 <= x)%nat) as <- by lia. tauto.
Qed.

Lemma entry_at_skip k : k ∉ sharers e0 -> entry_at k = entry_at (k + 1).
Proof.
  intros Hk. unfold entry_at. case_decide; [|done]. f_equal.
  apply set_eq. intros x. rewrite !elem_of_filter.
  split; intros [Hle Hx]; (split; [|done]); [|lia].
  destruct (decide (x = k)) as [->|]; [done|lia].
Qed.

(** The nodes of a subtree that the loop has not reached yet are as at the start. *)
Lemma LoopSt_nodes k σ ch d : LoopSt k σ -> child_at a c k ch -> below a ch d ->
  (forall i, find σ0 d a = Some i -> bst σ d i = bst σ0 d i /\ entry σ d i = entry σ0 d i) /\
  lst σ d a = lst σ0 d a.
Proof.
  intros HL Hc Hb.
  assert (forall i, find σ0 d a = Some i -> bst σ d i = bst σ0 d i /\ entry σ d i = entry σ0 d i) as Hsame.
  { intros i Hf. apply (ls_out _ _ HL).
    - intros [-> _]. by eapply below_child_ne.
    - intros [Hr _]. by eapply reached_not_later. }
  split; [done|]. apply lst_same; [apply HL|]. intros i Hf. by apply Hsame.
Qed.

Lemma LoopSt_step k σ σ' σ'' ch :
  LoopSt k σ -> k ∈ sharers e0 -> child_at a c k ch ->
  Eff t a (below a ch) σ σ' -> same_view σ' σ'' ->
  LoopSt (k + 1) (if decide (t = INV) then upd_entry c id (reset_sharer k) σ'' else σ'').
Proof.
  intros HL Hk Hc HE Hv. set (τ := if decide (t = INV) then _ else _).
  assert (forall d i, ~ (d = c /\ i = id) -> bst τ d i = bst σ' d i /\ entry τ d i = entry σ' d i) as Hτ.
  { intros d i Hne. rewrite <- (sv_bst _ _ Hv), <- (sv_entry _ _ Hv). unfold τ.
    case_decide; [|done]. rewrite bst_upd_entry, entry_upd_entry, decide_False; naive_solver. }
  assert (bst σ' c id = bst σ c id /\ entry σ' c id = entry σ c id) as [Hcb Hce].
  { apply (ef_out _ _ _ _ _ HE). intros [Hb _]. by eapply below_not_child. }
  assert (same_arr σ'' τ) as Ha.
  { unfold τ. case_decide; [|done]. apply same_arr_eq. intros. apply arr_upd_entry. }
  split.
  - etrans; [apply HL|]. etrans; [apply HE|]. etrans; [apply Hv|done].
  - transitivity (mem σ''); [unfold τ; by case_decide|].
    rewrite (sv_mem _ _ Hv), (ef_mem _ _ _ _ _ HE). apply HL.
  - transitivity (coreState σ''); [unfold τ; by case_decide|].
    rewrite (sv_core _ _ Hv), (ef_core _ _ _ _ _ HE). apply HL.
  - transitivity (bst σ'' c id); [unfold τ; case_decide; by rewrite ?bst_upd_entry|].
    rewrite (sv_bst _ _ Hv), Hcb. apply HL.
  - rewrite <- (entry_at_reset _ Hk), <- (ls_entry _ _ HL), <- Hce, <- (sv_entry _ _ Hv).
    unfold τ. case_decide; [|done]. by rewrite entry_upd_entry, decide_True.
  - intros d i [Hr|(_ & ch' & Hc' & Hb)]%reached_S Hf.
    + assert (d <> c) as Hd by (intros ->; by apply (reached_not_c k)).
      destruct (Hτ d i) as [-> ->]; [naive_solver|].
      destruct (ef_out _ _ _ _ _ HE d i) as [-> ->]; [|by apply HL].
      intros [Hb _]. by eapply reached_not_later.
    + rewrite (child_at_fun _ _ _ _ _ _ Hc' Hc) in Hb.
      destruct (Hτ d i) as [-> ->]; [intros [Hd _]; exact (below_child_ne _ _ _ Hc Hb Hd)|].
      destruct (LoopSt_nodes _ _ _ _ HL Hc Hb) as [Hsame _].
      destruct (Hsame i Hf) as [<- <-]. apply (ef_in _ _ _ _ _ HE); [done|].
      by rewrite (sa_find _ _ (ls_arr _ _ HL)).
  - intros d i Hne Hnr. destruct (Hτ d i Hne) as [-> ->].
    destruct (ef_out _ _ _ _ _ HE d i) as [-> ->].
    + intros [Hb Hf]. apply Hnr. rewrite (sa_find _ _ (ls_arr _ _ HL)) in Hf.
      split; [|done]. apply reached_S. right. eauto.
    + apply HL; [done|]. intros [Hr Hf]. apply Hnr. split; [|done]. apply reached_S. by left.
Qed.

Lemma LoopSt_skip k σ : LoopSt k σ -> k ∉ sharers e0 -> LoopSt (k + 1) σ.
Proof.
  intros HL Hk. assert (forall d, reached (k + 1) d <-> reached k d) as Hr.
  { intros d. rewrite reached_S. naive_solver. }
  destruct HL. split; auto.
  - by rewrite <- entry_at_skip.
  - intros d i. rewrite Hr. auto.
  - intros d i. rewrite Hr. auto.
Qed.

Lemma in_entry_at k : k ∈ sharers (entry_at k) <-> k ∈ sharers e0.
Proof. unfold entry_at. case_decide; simpl; [|done]. rewrite elem_of_filter. naive_solver lia. Qed.

(** How many of the sharers have an index below [k]. *)
Definition sent_before (k : nat) : Z := Z.of_nat (size (filter (fun j => (j < k)%nat) (sharers e0))).

Lemma sent_before_step k : k ∈ sharers e0 -> sent_before (k + 1) = sent_before k + 1.
Proof.
  intros Hk. unfold sent_before.
  assert (filter (fun j => (j < k + 1)%nat) (sharers e0) =
          {[k]} ∪ filter (fun j => (j < k)%nat) (sharers e0)) as ->.
  { apply set_eq. intros x. rewrite elem_of_union, !elem_of_filter, elem_of_singleton.
    split; [|naive_solver lia]. intros [Hx ?]. destruct (decide (x = k)); [by left|right]. split; [lia|done]. }
  rewrite size_union, size_singleton; [lia|]. intros x. rewrite elem_of_singleton, elem_of_filter. lia.
Qed.

Lemma sent_before_skip k : k ∉ sharers e0 -> sent_before (k + 1) = sent_before k.
Proof.
  intros Hk. unfold sent_before. do 2 f_equal. apply set_eq. intros x. rewrite !elem_of_filter.
  split; intros [Hx ?]; (split; [|done]); [|lia].
  destruct (decide (x = k)) as [->|]; [done|lia].
Qed.

Definition LoopOut (k : nat) (wb : bool) (maxc sent : Z) (wb' : bool) σ : Prop :=
  LoopSt k σ /\ sent = sent_before k /\ cy <= maxc <= cy + lat_bound * Z.of_nat (level c) + 2 ^ 32 /\
  (wb' = true <-> wb = true \/ dirty_in (reached k) a σ0).

Lemma InvalPre_child k σ ch : LoopSt k σ -> k ∈ sharers e0 -> child_at a c k ch -> InvalPre t ch a cy σ.
Proof.
  intros HL Hk Hc. destruct (sp_child HP k Hk) as (ch' & Hc' & Hl & Hx & HN).
  rewrite (child_at_fun _ _ _ _ _ _ Hc' Hc) in *. clear ch' Hc'.
  destruct (LoopSt_nodes _ _ _ ch HL Hc (below_refl _ _ _)) as [_ Hlst].
  pose proof (child_at_level _ _ _ WF _ _ _ _ Hc) as Hlev.
  split; rewrite ?Hlst; auto.
  - destruct (sp_type HP) as [|[? _]]; auto.
  - apply HP.
  - intros d. destruct (sp_arr HP d) as [q Hq]. exists q. by apply (ls_arr _ _ HL).
  - intros d Hb. eapply (NodeOK_frame cfg σ0); [apply HL| | |by apply HN].
    + by apply (LoopSt_nodes _ _ _ _ HL Hc Hb).
    + intros k' ch' Hc'. by eapply LoopSt_nodes; [| |by eapply below_step].
  - pose proof (sp_cycle HP). unfold cycle_room, lat_bound in *. nia.
Qed.

Lemma sendInv_loop_spec wb0 kids k maxc sent wb σ :
  drop k (c_children (cfg c)) = kids -> LoopOut k wb0 maxc sent wb σ ->
  wp (sendInv_loop cfg inv c a id t cy src kids k maxc sent wb) σ
    (fun '(maxc', sent', wb') σ' => LoopOut (k + length kids) wb0 maxc' sent' wb' σ').
Proof.
  revert k maxc sent wb σ. induction kids as [|kid kids IH]; intros k maxc sent wb σ Hkids HO; simpl.
  { wp_step. by replace (k + 0)%nat with k by lia. }
  assert (c_children (cfg c) !! k = Some kid) as Hkid.
  { rewrite <- (Nat.add_0_r k), <- lookup_drop, Hkids. done. }
  assert (drop (k + 1) (c_children (cfg c)) = kids) as Hkids'.
  { by rewrite <- drop_drop, Hkids. }
  replace (k + Datatypes.S (length kids))%nat with ((k + 1) + length kids)%nat by lia.
  destruct HO as (HL & Hsent & Hmax & Hwb).
  do 2 wp_step. rewrite (ls_entry _ _ HL). case_decide as Hk; rewrite in_entry_at in Hk.
  - destruct (sp_child HP k Hk) as (ch & Hc & _).
    assert (ch = kid) as -> by (destruct Hc; congruence).
    wp_step. eapply wp_mono; [apply Hinv; [by eapply child_at_level|by eapply InvalPre_child]|].
    intros [resp wb'] σ' (HE & Hresp & Hwb'). cbn [fst snd] in *.
    wp_step. apply wp_net_rtt. intros rtt σ'' Hrtt Hv.
    assert (u64 (resp + rtt) = resp + rtt) as ->.
    { apply u64_id. pose proof (sp_cycle HP). pose proof (child_at_level _ _ _ WF _ _ _ _ Hc).
      unfold in_u64, in_u32, W64, W32, lat_bound, cycle_limit in *. nia. }
    wp_step. apply wp_mono with (Q := fun _ σ => LoopSt (k + 1) σ).
    { pose proof (LoopSt_step _ _ _ _ _ HL Hk Hc HE Hv) as Hst. case_decide; by wp_step. }
    intros _ σ3 HL3. apply IH; [done|]. split; [done|]. split; [by rewrite sent_before_step, Hsent|].
    split.
    + pose proof (child_at_level _ _ _ WF _ _ _ _ Hc). unfold in_u32, W32, lat_bound in *. nia.
    + rewrite Hwb', Hwb. unfold dirty_in. setoid_rewrite reached_S.
      assert (forall d, below a kid d -> lst σ d a = lst σ0 d a) as Hl.
      { intros d Hb. by eapply LoopSt_nodes. }
      split.
      * intros [[?|(d & ? & ?)]|(d & Hb & Hd)]; [by left|right; by eauto|].
        right. exists d. rewrite Hl in Hd by done. split; [|done]. right. eauto.
      * intros [?|(d & [Hr|(_ & ch' & Hc' & Hb)] & Hd)]; [by left; left|left; right; by eauto|].
        rewrite (child_at_fun _ _ _ _ _ _ Hc' Hc) in Hb. right. exists d. by rewrite Hl.
  - apply IH; [done|]. split; [by apply LoopSt_skip|]. split; [by rewrite sent_before_skip|].
    split; [done|]. rewrite Hwb. unfold dirty_in. setoid_rewrite reached_S. naive_solver.
Qed.
(** The caches below the sharers of the entry. *)
Definition shared_below (d : nat) : Prop :=
  exists j ch, j ∈ sharers e0 /\ child_at a c j ch /\ below a ch d.

Record SendPost (wb : bool) (r : Z * bool) σ' : Prop := {
  so_arr : same_arr σ0 σ';
  so_mem : mem σ' = mem σ0;
  so_core : coreState σ' = coreState σ0;
  so_bst : bst σ' c id = bst σ0 c id;
  so_entry : entry σ' c id = eff_ent t e0;
  so_in : forall d i, shared_below d -> find σ0 d a = Some i ->
    bst σ' d i = eff_st t (bst σ0 d i) /\ entry σ' d i = eff_ent t (entry σ0 d i);
  so_out : forall d i, ~ (d = c /\ i = id) -> ~ (shared_below d /\ find σ0 d a = Some i) ->
    bst σ' d i = bst σ0 d i /\ entry σ' d i = entry σ0 d i;
  so_cycle : cy <= r.1 <= cy + lat_bound * Z.of_nat (level c) + 2 ^ 32;
  so_wb : r.2 = true <-> wb = true \/ dirty_in shared_below a σ0;
}.

Lemma reached_all d : reached (length (c_children (cfg c))) d <-> shared_below d.
Proof.
  split; [intros (j & ch & _ & ?); by exists j, ch|].
  intros (j & ch & Hj & Hc & Hb). exists j, ch. repeat split; try done; [|apply Hc..].
  apply lookup_lt_Some with ch. apply Hc.
Qed.

Lemma sharers_bound j : j ∈ sharers e0 -> (j < length (c_children (cfg c)))%nat.
Proof.
  intros Hj. destruct (sp_child HP j Hj) as (ch & [Hc _] & _). by eapply lookup_lt_Some.
Qed.

Lemma sent_before_all : sent_before (length (c_children (cfg c))) = numSharers e0.
Proof.
  rewrite (sp_count HP). unfold sent_before. do 2 f_equal. apply set_eq. intros x.
  rewrite elem_of_filter. split; [tauto|]. auto using sharers_bound.
Qed.

Lemma entry_at_all : sharers (entry_at (length (c_children (cfg c)))) =
  if decide (t = INV) then ∅ else sharers e0.
Proof.
  unfold entry_at; simpl. case_decide; [|done]. apply set_eq. intros x.
  rewrite elem_of_filter. split; [|set_solver]. intros [Hle Hx%sharers_bound]. lia.
Qed.

Lemma SendPost_empty wb : Entry_isEmpty e0 = true -> SendPost wb (cy, wb) σ0.
Proof.
  intros He%bool_decide_eq_true. pose proof (sp_count HP) as Hc.
  assert (sharers e0 = ∅) as Hs by (apply leibniz_equiv, size_empty_inv; lia).
  assert (forall d, ~ shared_below d) as Hno by (intros d (j & ch & Hj & _); set_solver).
  split; try done.
  - destruct (sp_type HP) as [->|[-> [Hx _]%Entry_isExclusive_true]]; [|lia].
    symmetry. by apply eff_ent_INV_empty.
  - intros d i Hd. by apply Hno in Hd.
  - unfold lat_bound; simpl. lia.
  - unfold dirty_in. naive_solver.
Qed.

Lemma sendInvalidates_spec wb :
  wp (sendInvalidates cfg inv c a id t wb cy src) σ0 (SendPost wb).
Proof.
  unfold sendInvalidates. do 2 wp_step. fold e0.
  assert (bool_decide (t = INVX) && negb (Entry_isExclusive e0) = false) as ->.
  { destruct (sp_type HP) as [->|[-> ->]]; done. }
  destruct (Entry_isEmpty e0) eqn:Hemp; [wp_step; by apply SendPost_empty|].
  wp_step. eapply wp_mono; [apply (sendInv_loop_spec wb); [by rewrite drop_0|]|].
  { split; [split; try done|split; [|split]].
    - fold e0. rewrite <- (Entry_eta e0) at 1. unfold entry_at. f_equal. case_decide; [|done].
      apply set_eq. intros x. rewrite elem_of_filter. split; [|tauto]. split; [lia|done].
    - by intros d i (j & ch & Hj & _); lia.
    - unfold sent_before. assert (filter (fun j => (j < 0)%nat) (sharers e0) = ∅) as ->; [|done].
      apply set_eq. intros x. rewrite elem_of_filter. split; [lia|set_solver].
    - unfold lat_bound. lia.
    - unfold dirty_in. split; [by left|]. intros [?|(d & (j & ch & Hj & _) & _)]; [done|lia]. }
  rewrite Nat.add_0_l. intros [[maxc sent] wb'] σ' (HL & -> & Hmax & Hwb).
  rewrite sent_before_all. do 2 wp_step. rewrite (ls_entry _ _ HL).
  wp_step. apply wp_assert; [by apply bool_decide_eq_true|].
  set (K := length (c_children (cfg c))) in *.
  wp_step. apply wp_mono with (Q := fun _ σ'' => same_arr σ' σ'' /\ mem σ'' = mem σ' /\
    coreState σ'' = coreState σ' /\ (forall d i, bst σ'' d i = bst σ' d i) /\
    entry σ'' c id = eff_ent t e0 /\ (forall d i, ~ (d = c /\ i = id) -> entry σ'' d i = entry σ' d i)).
  - assert (forall f, same_arr σ' (upd_entry c id f σ')) as Hsa.
    { intros f. apply same_arr_eq. intros. apply arr_upd_entry. }
    pose proof entry_at_all as Hall. fold K in Hall.
    destruct (sp_type HP) as [Ht|[Ht Hx]]; rewrite Ht in *.
    + rewrite decide_True by done. wp_step. rewrite decide_True in Hall by done.
      split_and!; auto using bst_upd_entry.
      * rewrite entry_upd_entry, decide_True, (ls_entry _ _ HL) by done.
        unfold set_numSharers, eff_ent. by rewrite Hall.
      * intros d i Hne. rewrite entry_upd_entry, decide_False; naive_solver.
    + rewrite decide_False by done. pose proof Hx as [Hn He]%Entry_isExclusive_true.
      wp_step. apply wp_assert; [done|]. wp_step. apply wp_assert; [by apply bool_decide_eq_true|].
      wp_step. split_and!; auto using bst_upd_entry.
      * rewrite entry_upd_entry, decide_True, (ls_entry _ _ HL) by done.
        unfold eff_ent, entry_at. rewrite Hx, decide_False by (by rewrite Ht). done.
      * intros d i Hne. rewrite entry_upd_entry, decide_False; naive_solver.
  - intros _ σ'' (Ha & Hm & Hco & Hb & He & Hne). wp_step.
    assert (forall d i, ~ (d = c /\ i = id) -> bst σ'' d i = bst σ' d i /\ entry σ'' d i = entry σ' d i) as Hd by auto.
    split.
    + etrans; [apply HL|done].
    + rewrite Hm. apply HL.
    + rewrite Hco. apply HL.
    + rewrite Hb. apply HL.
    + done.
    + intros d i Hr%reached_all Hf. fold K in Hr.
      assert (d <> c) by (intros ->; by apply reached_not_c in Hr).
      destruct (Hd d i) as [-> ->]; [naive_solver|]. by apply (ls_in _ _ HL).
    + intros d i Hn Hr. destruct (Hd d i Hn) as [-> ->]. apply (ls_out _ _ HL); [done|].
      fold K in Hr. intros [H%reached_all Hf]. by apply Hr.
    + done.
    + rewrite Hwb. unfold dirty_in. pose proof reached_all as Hra. fold K in Hra.
      by setoid_rewrite Hra.
Qed.
End Send.

(** ** [Cache::invalidate] *)

(** A cache whose entry is in order may send invalidates. *)
Lemma NodeOK_SendPre t c a id cy σ :
  (t = INV \/ (t = INVX /\ Entry_isExclusive (entry σ c id) = true)) ->
  arr_addr_ok (A:=A) a -> (forall d, exists q, arr_inv q (arr (cache_of σ d))) ->
  (forall d, below a c d -> NodeOK σ a d) -> find σ c a = Some id ->
  0 <= cy /\ cy + lat_bound * (Z.of_nat (level c) + 1) <= 2 * cycle_limit + 2 ^ 32 ->
  SendPre t c a id cy σ.
Proof.
  intros Ht Ha Harr HN Hf Hcy. pose proof (no_entry _ _ _ _ (HN c (below_refl _ _ _)) _ Hf) as HE.
  split; auto; [apply HE|]. intros k Hk.
  destruct (eo_child _ _ _ _ _ HE k Hk) as (ch & Hc & Hl & Hiff). exists ch. split_and!; auto.
  - intros ->. destruct Ht as [|[_ Hx]]; [done|]. by apply Hiff, Entry_isExclusive_true.
  - intros d Hb. apply HN. by eapply below_child.
Qed.

(** Outside the subtrees of the sharers, an invalidation has nothing to do. *)
Lemma unshared_noop t c a id σ d i :
  (t = INV \/ t = INVX) -> (forall d, below a c d -> NodeOK σ a d) -> find σ c a = Some id ->
  (t = INV \/ Entry_isExclusive (entry σ c id) = true -> ~ shared_below c a id σ d) ->
  below a c d -> d <> c -> find σ d a = Some i ->
  eff_st t (bst σ d i) = bst σ d i /\ eff_ent t (entry σ d i) = entry σ d i.
Proof.
  intros Ht HN Hfc Hns Hb Hne Hf.
  destruct (below_inv _ _ _ _ Hb) as [|(k & ch & Hc & Hbd)]; [done|].
  pose proof (HN c (below_refl _ _ _)) as HNc. pose proof (no_entry _ _ _ _ HNc _ Hfc) as HE.
  assert (forall d', below a ch d' -> NodeOK σ a d') as HN' by eauto using below_child.
  apply (eff_noop cfg t σ a ch d i HN'); [|done|done].
  assert (lst σ ch a <> I -> k ∈ sharers (entry σ c id)) as Hk.
  { intros Hl. destruct (no_incl _ _ _ _ HNc _ _ Hc Hl) as (id' & Hf' & ?). congruence. }
  destruct Ht as [-> | ->]; simpl.
  - destruct (decide (lst σ ch a = I)) as [|Hl]; [done|].
    destruct Hns; [by left|]. exists k, ch. split_and!; auto; apply Hc.
  - intros Hx. pose proof (Hk (excl_not_I _ Hx)) as Hks.
    destruct (Entry_isExclusive (entry σ c id)) eqn:He.
    + destruct Hns; [by right|]. exists k, ch. split_and!; auto; apply Hc.
    + by eapply not_isExclusive_child in Hx.
Qed.

Lemma shared_below_below c a id σ d : shared_below c a id σ d -> below a c d /\ d <> c.
Proof.
  intros (k & ch & _ & Hc & Hb). split; [by eapply below_child|]. intros ->.
  by eapply below_not_child.
Qed.

Lemma shared_below_em c a id σ d :
  below a c d -> d <> c -> shared_below c a id σ d \/ ~ shared_below c a id σ d.
Proof.
  intros Hb Hne. destruct (below_inv _ _ _ _ Hb) as [|(k & ch & Hc & Hbd)]; [done|].
  destruct (decide (k ∈ sharers (entry σ c id))) as [Hk|Hk].
  - left. exists k, ch. split_and!; auto; apply Hc.
  - right. intros (k' & ch' & Hk' & Hc' & Hb').
    by rewrite (below_siblings _ _ _ WF _ _ _ _ _ _ _ Hc Hc' Hbd Hb') in Hk.
Qed.

(** A dirty copy below [c] is reached by the invalidation. *)
Lemma dirty_shared t c a id σ d :
  (t = INV \/ t = INVX) -> (forall d, below a c d -> NodeOK σ a d) -> find σ c a = Some id ->
  below a c d -> d <> c -> lst σ d a = M ->
  (t = INV \/ Entry_isExclusive (entry σ c id) = true) /\ shared_below c a id σ d.
Proof.
  intros Ht HN Hf Hb Hne HM. destruct (lst_not_I σ d a) as (i & Hfi & Hbi); [by rewrite HM|].
  destruct (shared_below_em c a id σ d Hb Hne) as [Hs|Hs].
  - split; [|done]. destruct (decide (t = INV \/ Entry_isExclusive (entry σ c id) = true)); [done|].
    destruct (unshared_noop t c a id σ d i) as [Hx _]; auto.
    rewrite Hbi, HM in Hx. by destruct Ht as [-> | ->].
  - destruct (unshared_noop t c a id σ d i) as [Hx _]; auto.
    rewrite Hbi, HM in Hx. by destruct Ht as [-> | ->].
Qed.

(** [MESITopCC::processInval]: the lines strictly below [c], and its entry. *)
Record TccInvalPost t c a id cy wb σ (r : Z * bool) σ' : Prop := {
  ti_in : forall d i, below a c d -> d <> c -> find σ d a = Some i ->
    bst σ' d i = eff_st t (bst σ d i) /\ entry σ' d i = eff_ent t (entry σ d i);
  ti_out : forall d i, ~ (d = c /\ i = id) -> ~ (below a c d /\ find σ d a = Some i) ->
    bst σ' d i = bst σ d i /\ entry σ' d i = entry σ d i;
  ti_bst : bst σ' c id = bst σ c id;
  ti_entry : entry σ' c id = eff_ent t (entry σ c id);
  ti_arr : same_arr σ σ';
  ti_mem : mem σ' = mem σ;
  ti_core : coreState σ' = coreState σ;
  ti_cycle : cy <= r.1 <= cy + lat_bound * Z.of_nat (level c) + 2 ^ 32;
  ti_wb : r.2 = true <-> wb = true \/ dirty_in (fun d => below a c d /\ d <> c) a σ;
}.

Lemma tcc_processInval_spec inv t c a id cy src wb σ :
  InvalSpec (level c) inv -> (t = INV \/ t = INVX) -> arr_addr_ok (A:=A) a ->
  (forall d, exists q, arr_inv q (arr (cache_of σ d))) ->
  (forall d, below a c d -> NodeOK σ a d) -> find σ c a = Some id ->
  0 <= cy /\ cy + lat_bound * (Z.of_nat (level c) + 1) <= 2 * cycle_limit + 2 ^ 32 ->
  wp (tcc_processInval cfg inv c a id t wb cy src) σ (TccInvalPost t c a id cy wb σ).
Proof.
  intros Hinv Ht Ha Harr HN Hf Hcy. unfold tcc_processInval.
  rewrite decide_False by (by destruct Ht as [-> | ->]).
  pose proof (fun d Hb Hne HM => dirty_shared t c a id σ d Ht HN Hf Hb Hne HM) as Hdirty.
  destruct (decide (t = INV \/ Entry_isExclusive (entry σ c id) = true)) as [Hy|Hn].
  - eapply wp_mono; [apply sendInvalidates_spec; [done|]|].
    { eapply NodeOK_SendPre; eauto. naive_solver. }
    intros [resp wb'] σ' []. split; auto.
    + intros d i Hb Hne Hfi. destruct (shared_below_em c a id σ d Hb Hne) as [Hs|Hs]; [auto|].
      destruct (so_out0 d i) as [-> ->]; [naive_solver..|].
      destruct (unshared_noop t c a id σ d i) as [-> ->]; auto.
    + intros d i Hne Hnb. apply so_out0; [done|]. intros [Hs%shared_below_below ?]. naive_solver.
    + rewrite so_wb0. unfold dirty_in. split; (intros [?|(d & Hd & HM)]; [by left|right; exists d; split; [|done]]).
      * by apply shared_below_below in Hd.
      * destruct Hd. by apply Hdirty.
  - assert (t = INVX) as -> by (destruct Ht; [by destruct Hn; left|done]).
    assert (Entry_isExclusive (entry σ c id) = false) as Hx by (apply not_true_iff_false; naive_solver).
    unfold sendInvalidates. do 2 wp_step. rewrite Hx, bool_decide_true by done. cbn [andb negb].
    wp_step. split; try done.
    + intros d i Hb Hne Hfi. destruct (unshared_noop INVX c a id σ d i) as [-> ->]; auto.
    + simpl. by rewrite Hx.
    + simpl. unfold lat_bound. lia.
    + simpl. split; [by left|]. intros [|(d & [Hb Hne] & HM)]; [done|].
      destruct (Hdirty d Hb Hne HM) as [[?|?] _]; [done|congruence].
Qed.

(** [MESIBottomCC::processInval]. *)
Lemma bcc_processInval_spec t c id wb σ :
  (t = INV \/ t = INVX) -> bst σ c id <> I -> (t = INVX -> excl (bst σ c id)) ->
  wp (bcc_processInval c id t wb) σ (fun wb' σ' =>
    same_view (set_bst c id (eff_st t (bst σ c id)) σ) σ' /\
    (wb' = true <-> wb = true \/ bst σ c id = M)).
Proof.
  intros Ht Hb Hx. unfold bcc_processInval. do 2 wp_step.
  wp_step. apply wp_assert; [by apply bool_decide_eq_true|].
  destruct Ht as [-> | ->].
  - do 5 wp_step. split; [apply same_view_prof_inc|]. case_decide; naive_solver.
  - wp_step. apply wp_assert; [destruct (Hx eq_refl) as [-> | ->]; done|].
    do 5 wp_step. split; [|case_decide; naive_solver]. unfold eff_st.
    rewrite decide_True by auto. apply same_view_prof_inc.
Qed.

(** Facts about the line of [c] itself. *)
Lemma below_cases c a id σ d i :
  find σ c a = Some id -> below a c d -> find σ d a = Some i ->
  (d = c /\ i = id) \/ d <> c.
Proof. intros Hc Hb Hd. destruct (decide (d = c)) as [->|]; [left; split; congruence|by right]. Qed.

Lemma terminal_below c a d : c_terminal (cfg c) = true -> below a c d -> d = c.
Proof using WF.
  intros Ht Hb. destruct (below_inv _ _ _ _ Hb) as [|(k & ch & [Hc _] & _)]; [done|].
  by rewrite (wf_term _ _ _ WF _ Ht) in Hc.
Qed.

(** Both controllers' [processInv]: every level of the subtree is updated. *)
Lemma cc_processInv_spec inv t c a id cy src wb σ :
  InvalSpec (level c) inv -> InvalPre t c a (cy - c_invLat (cfg c)) σ -> find σ c a = Some id ->
  0 <= cy ->
  wp (cc_processInv cfg inv c (mkInv a t (cy - c_invLat (cfg c)) src) id wb cy) σ
    (InvalPost t c a (cy - c_invLat (cfg c)) wb σ).
Proof.
  intros Hinv [Ht Ha Harr HN Hheld Hexcl Hcy] Hf Hcy0.
  pose proof (wf_lat _ _ _ WF c) as [_ Hlat]. rewrite (lst_found _ _ _ _ Hf) in Hheld, Hexcl.
  assert (dirty_in (fun d => below a c d /\ d <> c) a σ \/ bst σ c id = M <->
    dirty_in (below a c) a σ) as Hdirty.
  { unfold dirty_in. split.
    - intros [(d & [Hb _] & HM)|HM]; [by exists d|].
      exists c. split; [constructor|by rewrite (lst_found _ _ _ _ Hf)].
    - intros (d & Hb & HM). destruct (decide (d = c)) as [->|]; [|by left; exists d].
      right. by rewrite (lst_found _ _ _ _ Hf) in HM. }
  unfold cc_processInv. destruct (c_terminal (cfg c)) eqn:Hterm; cbn [inv_type inv_lineAddr inv_srcId].
  - wp_step. eapply wp_mono; [by apply bcc_processInval_spec|].
    intros wb' σ' [Hv Hwb]. wp_step. split; [|split; cbn [fst snd]].
    + split; [etrans; [|apply Hv]; apply same_arr_eq; intros; apply arr_set_bst|by rewrite (sv_mem _ _ Hv)|by rewrite (sv_core _ _ Hv)|..].
      * intros d i Hb Hfd. apply (terminal_below _ _ _ Hterm) in Hb as ->.
        assert (i = id) as -> by congruence.
        rewrite (sv_bst _ _ Hv), (sv_entry _ _ Hv), bst_set_bst, entry_set_bst, decide_True by done.
        split; [done|]. pose proof (no_entry _ _ _ _ (HN c (below_refl _ _ _)) _ Hf) as HE.
        assert (sharers (entry σ c id) = ∅) as Hs.
        { apply set_eq. intros k. split; [|set_solver]. intros Hk.
          destruct (eo_child _ _ _ _ _ HE k Hk) as (ch & [Hc _] & _).
          by rewrite (wf_term _ _ _ WF _ Hterm) in Hc. }
        pose proof (eo_count _ _ _ _ _ HE) as Hn. rewrite Hs, size_empty in Hn.
        destruct Ht as [-> | ->]; [by rewrite eff_ent_INV_empty|].
        unfold eff_ent, Entry_isExclusive. by rewrite Hn.
      * intros d i Hn. rewrite (sv_bst _ _ Hv), (sv_entry _ _ Hv), bst_set_bst, entry_set_bst.
        rewrite decide_False; [done|]. intros [-> ->]. apply Hn. split; [constructor|done].
    + unfold in_u32, W32, lat_bound in *. lia.
    + rewrite Hwb, <- Hdirty. unfold dirty_in. split; [naive_solver|].
      intros [?|[(d & [Hb Hne] & _)|?]]; [by left| |by right].
      by apply (terminal_below _ _ _ Hterm) in Hb.
  - wp_step. eapply wp_mono; [apply tcc_processInval_spec; eauto|].
    { unfold cycle_room, in_u32, W32, cycle_limit in *. lia. }
    intros [resp wb'] σ' [Hin Hout Hbst Hent Hsa Hmem Hcore Hcyc Hwb]; cbn [fst snd] in *.
    wp_step. eapply wp_mono; [apply bcc_processInval_spec; rewrite ?Hbst; done|].
    rewrite Hbst. intros wb'' σ'' [Hv Hwb'']. wp_step. split; [|split; cbn [fst snd]].
    + split; [etrans; [apply Hsa|]; etrans; [|apply Hv]; apply same_arr_eq; intros; apply arr_set_bst
             |by rewrite (sv_mem _ _ Hv)|by rewrite (sv_core _ _ Hv)|..].
      * intros d i Hb Hfd.
        rewrite (sv_bst _ _ Hv), (sv_entry _ _ Hv), bst_set_bst, entry_set_bst.
        destruct (below_cases _ _ _ _ _ _ Hf Hb Hfd) as [[-> ->]|Hne].
        -- by rewrite decide_True.
        -- rewrite decide_False by naive_solver. auto.
      * intros d i Hn. rewrite (sv_bst _ _ Hv), (sv_entry _ _ Hv), bst_set_bst, entry_set_bst.
        assert (~ (d = c /\ i = id)) as Hne.
        { intros [-> ->]. apply Hn. split; [constructor|done]. }
        rewrite decide_False by naive_solver. auto.
    + unfold in_u32, W32, lat_bound in *. lia.
    + rewrite Hwb'', Hwb, <- Hdirty. tauto.
Qed.

(** The specification holds of [invalidate] once its fuel covers the levels below. *)
Lemma invalidate_spec n : InvalSpec n (invalidate cfg n).
Proof.
  induction n as [|n IH]; intros t c a cy src wb σ Hlev HP; [lia|].
  destruct (lst_not_I _ _ _ (ip_held _ _ _ _ _ HP)) as (id & Hf & _).
  destruct (ip_arr _ _ _ _ _ HP c) as [q Hq].
  pose proof (arr_find_tag _ _ _ _ Hq Hf) as [_ Hid].
  simpl. unfold finishInvalidate. wp_step. eapply wp_lookup; [done|apply HP|done|].
  intros σ1 Hv. cbn [inv_lineAddr inv_cycle]. rewrite Hf. change (default (-1) (Some id)) with id. wp_step. apply wp_assert; [apply bool_decide_eq_true; lia|].
  pose proof (wf_lat _ _ _ WF c) as [_ Hlat].
  pose proof (ip_cycle _ _ _ _ _ HP) as Hcy.
  assert (u64 (cy + c_invLat (cfg c)) = cy + c_invLat (cfg c)) as Hu.
  { apply u64_id. unfold in_u64, in_u32, W64, W32, cycle_room, lat_bound, cycle_limit in *. lia. }
  rewrite Hu.
  assert (InvalPre t c a (cy + c_invLat (cfg c) - c_invLat (cfg c)) σ1) as HP1.
  { rewrite Z.add_simpl_r. destruct HP as [? ? Harr HN Hheld Hexcl ?].
    split; rewrite ?(same_view_lst _ _ _ _ Hv); auto.
    - intros d. destruct (Harr d) as [q' Hq']. exists q'. by apply Hv.
    - intros d Hb. eapply (NodeOK_frame cfg σ); [apply Hv| | |by apply HN].
      + intros. by rewrite (sv_bst _ _ Hv), (sv_entry _ _ Hv).
      + intros. by apply same_view_lst. }
  assert (InvalSpec (level c) (invalidate cfg n)) as Hinv.
  { intros t' c' a' cy' src' wb' σ' Hl. apply IH. lia. }
  pose proof (cc_processInv_spec (invalidate cfg n) t c a id (cy + c_invLat (cfg c)) src wb σ1 Hinv HP1) as Hcc.
  rewrite (sa_find _ _ (sv_arr _ _ Hv)), Z.add_simpl_r in Hcc.
  eapply wp_mono; [apply Hcc; [done|unfold cycle_room, in_u32 in *; lia]|].
  intros r σ' (HE & Hcyc & Hwb). split; [|split; [done|]].
  - destruct HE as [Hsa Hm Hco Hin Hout]. split.
    + etrans; [apply Hv|done].
    + by rewrite Hm, (sv_mem _ _ Hv).
    + by rewrite Hco, (sv_core _ _ Hv).
    + intros d i. rewrite <- (sv_bst _ _ Hv), <- (sv_entry _ _ Hv), <- (sa_find _ _ (sv_arr _ _ Hv)). apply Hin.
    + intros d i. rewrite <- (sv_bst _ _ Hv), <- (sv_entry _ _ Hv), <- (sa_find _ _ (sv_arr _ _ Hv)). apply Hout.
  - rewrite Hwb. unfold dirty_in. by setoid_rewrite (same_view_lst _ _ _ _ Hv).
Qed.
End Inval.
