(* ===== verification/CoherenceAccess.v ===== *)
(** * Accesses preserve coherence and never fail

    In a well-formed inclusive hierarchy, an access from a core terminates
    without a failed assertion or a panic, leaves the invariant in place, and
    gives the requester the permission it asked for. *)

From stdpp Require Import base tactics numbers list gmap sets.
From Stdlib Require Import ZArith Lia.
From S2P Require Import Prelude.
From S2P Require Import MemTypes.
From S2P Require Import Coherence.
From S2P Require Import CoherenceInv.
From S2P Require Import CoherenceInval.

Open Scope Z_scope.

Section Access.
Context {A N MM : Type} `{!Inhabited A} `{!CacheArray A} `{!CacheArrayOk A}.
Context `{!Network N} `{!NetworkOk N} `{!MemCtrl MM} `{!MemCtrlOk MM}.
Context (cfg : nat -> CacheCfg) (level : nat -> nat) (top : nat) (WF : WfCfg cfg level top).
Abbreviation Sys := (Sys A N MM).
Abbreviation CM := (st Sys).
Abbreviation child_at := (child_at cfg).
Abbreviation below := (below cfg).
Abbreviation NodeOK := (NodeOK (A:=A) (N:=N) (MM:=MM) cfg).
Abbreviation Inv := (Inv (A:=A) (N:=N) (MM:=MM) cfg).
Implicit Types (σ : Sys) (a : Z) (c d p : nat) (pend : nat -> option (Z * Z)).

(** ** Re-establishing the invariant after a change to one line *)

Lemma find_tag pend σ c a id : Inv pend σ -> find σ c a = Some id -> tag σ c id = a /\ 0 <= id.
Proof. intros HI Hf. by eapply arr_find_tag; [apply HI|]. Qed.

Lemma find_inj pend σ d a b i :
  Inv pend σ -> find σ d a = Some i -> find σ d b = Some i -> a = b.
Proof.
  intros HI Ha Hb. apply (find_tag _ _ _ _ _ HI) in Ha as [<- _].
  by apply (find_tag _ _ _ _ _ HI) in Hb as [<- _].
Qed.

Lemma Inv_line pend σ σ' a :
  Inv pend σ -> same_arr σ σ' -> mem_inv (mem σ') ->
  (forall d i, find σ d a <> Some i -> bst σ' d i = bst σ d i /\ entry σ' d i = entry σ d i) ->
  (forall d i, find σ d a = Some i -> bst σ' d i = I ->
     sharers (entry σ' d i) = ∅ /\ numSharers (entry σ' d i) = 0) ->
  arr_addr_ok (A:=A) a -> (forall d, NodeOK σ' a d) -> Inv pend σ'.
Proof.
  intros HI Hs Hm Hout Hstale Ha HN. split.
  - intros c. apply Hs, HI.
  - intros c id. rewrite (sa_tag _ _ Hs), (sa_find _ _ Hs).
    destruct (decide (find σ c a = Some id)) as [Hf|Hf].
    + intros _. by destruct (find_tag _ _ _ _ _ HI Hf) as [-> _].
    + destruct (Hout _ _ Hf) as [-> _]. apply HI.
  - intros c id. destruct (decide (find σ c a = Some id)) as [Hf|Hf]; [by apply Hstale|].
    destruct (Hout _ _ Hf) as [-> ->]. apply HI.
  - intros b d. destruct (decide (b = a)) as [->|Hne]; [done|].
    assert (forall d i, find σ d b = Some i -> bst σ' d i = bst σ d i /\ entry σ' d i = entry σ d i) as Hsame.
    { intros d' i Hf. apply Hout. intros Hf'. by destruct Hne; eapply find_inj. }
    eapply (NodeOK_frame cfg σ); [done|auto| |apply HI].
    intros k ch _. apply lst_same; [done|]. intros i Hf. by apply Hsame.
  - done.
Qed.

(** A node whose entry is unchanged, whose own state may be strengthened and
    whose children keep their permissions. *)
Lemma NodeOK_upd σ σ' a d :
  NodeOK σ a d -> same_arr σ σ' ->
  (forall id, find σ d a = Some id -> entry σ' d id = entry σ d id /\
     (sharers (entry σ d id) = ∅ \/
      (bst σ' d id <> I /\ (excl (bst σ d id) -> excl (bst σ' d id))))) ->
  (forall k ch, child_at a d k ch -> (lst σ' ch a = I <-> lst σ ch a = I) /\
     (excl (lst σ' ch a) <-> excl (lst σ ch a))) ->
  NodeOK σ' a d.
Proof.
  intros HN Hs Hd Hch. split.
  - intros id Hf. rewrite (sa_find _ _ Hs) in Hf. destruct (Hd _ Hf) as [He Hb].
    destruct (no_entry _ _ _ _ HN _ Hf) as [Hcnt Hinv Hchild Hexcl].
    split; rewrite ?He; auto.
    + intros HI. destruct Hb as [|[]]; done.
    + intros k Hk. destruct (Hchild k Hk) as (ch & Hc & Hl & Hx). exists ch.
      destruct (Hch _ _ Hc) as [Hi Hx']. rewrite Hi, Hx'. auto.
    + intros Hx Hne. destruct (Hexcl Hx Hne) as [? ?]. split; [done|]. destruct Hb as [|[]]; auto; done.
  - intros k ch Hc Hl. destruct (Hch _ _ Hc) as [Hi _]. rewrite Hi in Hl.
    destruct (no_incl _ _ _ _ HN _ _ Hc Hl) as (id & Hf & Hk). exists id.
    rewrite (sa_find _ _ Hs). split; [done|]. by rewrite (proj1 (Hd _ Hf)).
Qed.

Lemma eff_st_I t s : t = INV \/ t = INVX -> eff_st t s = I -> t = INV \/ s = I.
Proof. intros [-> | ->]; simpl; [by left|]. case_decide; [done|by right]. Qed.

Lemma eff_st_not_excl t s : t = INV \/ t = INVX -> ~ excl (eff_st t s).
Proof. intros [-> | ->]; simpl; [by intros []|]. case_decide; [by intros []|done]. Qed.

(** A node inside an invalidated subtree. *)
Lemma NodeOK_eff t σ σ' a d :
  t = INV \/ t = INVX -> NodeOK σ a d -> same_arr σ σ' ->
  (forall i, find σ d a = Some i ->
     bst σ' d i = eff_st t (bst σ d i) /\ entry σ' d i = eff_ent t (entry σ d i)) ->
  (forall k ch i, child_at a d k ch -> find σ ch a = Some i -> bst σ' ch i = eff_st t (bst σ ch i)) ->
  NodeOK σ' a d.
Proof.
  intros Ht HN Hs Hd Hch.
  assert (forall k ch, child_at a d k ch -> lst σ' ch a = I \/ t = INVX /\ lst σ' ch a = eff_st t (lst σ ch a)) as Hkid.
  { intros k ch Hc. unfold lst. rewrite (sa_find _ _ Hs). destruct (find σ ch a) as [i|] eqn:Hf; [|by left].
    rewrite (Hch _ _ _ Hc Hf). destruct Ht as [-> | ->]; [by left|by right]. }
  split.
  - intros id Hf. rewrite (sa_find _ _ Hs) in Hf. destruct (Hd _ Hf) as [Hb He].
    pose proof (no_entry _ _ _ _ HN _ Hf) as HE.
    destruct Ht as [-> | ->].
    { split; rewrite He; simpl; [done|done|by intros k ?%not_elem_of_empty|done]. }
    assert (sharers (eff_ent INVX (entry σ d id)) = sharers (entry σ d id)) as Hsh by (simpl; by case_match).
    assert (exclusive (eff_ent INVX (entry σ d id)) = true -> sharers (entry σ d id) <> ∅ -> False) as Hnx.
    { simpl. destruct (Entry_isExclusive (entry σ d id)) eqn:Hx; [done|]. intros Hxx Hne.
      destruct (eo_excl _ _ _ _ _ HE Hxx Hne) as [Hsz _]. apply not_true_iff_false in Hx. apply Hx.
      apply Entry_isExclusive_true. split; [rewrite (eo_count _ _ _ _ _ HE), Hsz; done|done]. }
    split; rewrite He, ?Hsh.
    + rewrite <- (eo_count _ _ _ _ _ HE). simpl. by case_match.
    + rewrite Hb. intros [|]%eff_st_I; [done|by apply (eo_inv _ _ _ _ _ HE)|by right].
    + intros k Hk. destruct (eo_child _ _ _ _ _ HE k Hk) as (ch & Hc & Hl & _). exists ch.
      split; [done|]. destruct (lst_not_I _ _ _ Hl) as (i & Hfi & Hbi).
      assert (lst σ' ch a = eff_st INVX (lst σ ch a)) as Hl'.
      { unfold lst. rewrite (sa_find _ _ Hs), Hfi. by apply Hch with k. }
      rewrite Hl'. split; [intros [|]%eff_st_I; [done|done|by right]|].
      split; [by intros ?%eff_st_not_excl; [|by right]|].
      intros Hx. destruct Hnx; eauto using elem_nonempty.
    + intros Hx Hne. by destruct (Hnx Hx Hne).
  - intros k ch Hc Hl. destruct (Hkid _ _ Hc) as [|[-> Hl']]; [done|].
    assert (lst σ ch a <> I) as Hl0 by (intros HI; by rewrite Hl', HI in Hl).
    destruct (no_incl _ _ _ _ HN _ _ Hc Hl0) as (id & Hf & Hk). exists id.
    rewrite (sa_find _ _ Hs). split; [done|]. destruct (Hd _ Hf) as [_ ->]. simpl. by case_match.
Qed.

(** The silent E to M transition of a controller. *)
Lemma Inv_silent pend σ c id a :
  Inv pend σ -> find σ c a = Some id -> arr_addr_ok (A:=A) a -> excl (bst σ c id) ->
  Inv pend (set_bst c id M σ).
Proof.
  intros HI Hf Ha Hx. assert (same_arr σ (set_bst c id M σ)) as Hs.
  { apply same_arr_eq. intros. apply arr_set_bst. }
  assert (forall d i, bst (set_bst c id M σ) d i = bst σ d i \/ (d = c /\ i = id)) as Hb.
  { intros d i. rewrite bst_set_bst. case_decide; [right|by left]; naive_solver. }
  eapply (Inv_line _ σ _ a); [done|done|apply HI| | |done|].
  - intros d i Hne. rewrite entry_set_bst. destruct (Hb d i) as [->|[-> ->]]; done.
  - intros d i Hfd. rewrite entry_set_bst, bst_set_bst. case_decide; [done|]. apply HI.
  - intros d. eapply (NodeOK_upd σ); [apply HI|done| |].
    + intros i Hfd. rewrite entry_set_bst, bst_set_bst. split; [done|]. case_decide as Hd.
      * right. split; [done|]. by right.
      * destruct (decide (bst σ d i = I)) as [HbI|]; [left; by apply HI|by right].
    + intros k ch Hc. unfold lst. rewrite (sa_find _ _ Hs).
      destruct (find σ ch a) as [i|] eqn:Hfi; [|done]. destruct (Hb ch i) as [->|[-> ->]]; [done|].
      rewrite bst_set_bst, decide_True by done. pose proof (excl_not_I _ Hx) as HnI.
      split; [by split|]. split; [done|]. intros _. by right.
Qed.

(** ** Giving a line to a child, or taking it back

    [σ'] differs from [σ] on line [a] only: the entry of the parent [c],
    the state of the child [ch] that asked, and the caches [T] below its
    siblings, where the line was invalidated. *)
Record Grant (t : InvType) c (a id : Z) (k ch : nat) (idch : Z) (T : nat -> Prop) (s' : MESIState) σ σ' : Prop := {
  g_arr : same_arr σ σ';
  g_mem : mem σ' = mem σ;
  g_T : forall d, T d -> exists j cj, j <> k /\ child_at a c j cj /\ below a cj d;
  g_Tdown : forall d j cj, T d -> child_at a d j cj -> T cj;
  g_Tup : forall d j cj, T cj -> child_at a d j cj -> T d \/ d = c;
  g_Tdec : forall d, T d \/ ~ T d;
  g_in : forall d i, T d -> find σ d a = Some i ->
    bst σ' d i = eff_st t (bst σ d i) /\ entry σ' d i = eff_ent t (entry σ d i);
  g_out : forall d i, ~ (d = c /\ i = id) -> ~ (d = ch /\ i = idch) -> ~ (T d /\ find σ d a = Some i) ->
    bst σ' d i = bst σ d i /\ entry σ' d i = entry σ d i;
  g_bst : excl (bst σ c id) <-> excl (bst σ' c id);
  g_bst_I : bst σ c id <> I /\ bst σ' c id <> I;
  g_child : bst σ' ch idch = s';
  g_child_entry : entry σ' ch idch = entry σ ch idch;
}.

Section GrantInv.
Context (t : InvType) (c : nat) (a id : Z) (k ch : nat) (idch : Z) (T : nat -> Prop) (s' : MESIState).
Context (pend : nat -> option (Z * Z)) (σ σ' : Sys).
Hypothesis Ht : t = INV \/ t = INVX.
Hypothesis HG : Grant t c a id k ch idch T s' σ σ'.
Hypothesis HI : Inv pend σ.
Hypothesis Haddr : arr_addr_ok (A:=A) a.
Hypothesis Hkid : child_at a c k ch.
Hypothesis Hfc : find σ c a = Some id.
Hypothesis Hfch : find σ ch a = Some idch.
Hypothesis Hs' : sharers (entry σ ch idch) = ∅ \/ (s' <> I /\ (excl (bst σ ch idch) -> excl s')).
(** What the new entry must satisfy. *)
Hypothesis Hentry : EntryOK cfg σ' c id a.
Hypothesis Hincl : forall j cj, child_at a c j cj -> lst σ' cj a <> I -> j ∈ sharers (entry σ' c id).

Lemma grant_T_ne d : T d -> d <> c /\ d <> ch.
Proof.
  intros Hd. destruct (g_T _ _ _ _ _ _ _ _ _ _ _ HG d Hd) as (j & cj & Hj & Hc & Hb).
  split; intros ->; [by eapply below_not_child|].
  by apply Hj, (below_siblings _ _ _ WF _ _ _ _ _ _ _ Hc Hkid Hb (below_refl _ _ _)).
Qed.

Lemma grant_c_ch : c <> ch.
Proof. intros ->. apply (child_at_level _ _ _ WF) in Hkid. lia. Qed.

Lemma grant_other d i : d <> c -> d <> ch -> ~ T d ->
  bst σ' d i = bst σ d i /\ entry σ' d i = entry σ d i.
Proof. intros. apply (g_out _ _ _ _ _ _ _ _ _ _ _ HG); naive_solver. Qed.

Lemma grant_lst d : d <> c -> d <> ch -> ~ T d -> lst σ' d a = lst σ d a.
Proof. intros. apply lst_same; [apply HG|]. intros. by apply grant_other. Qed.

Lemma grant_lst_c : (lst σ' c a = I <-> lst σ c a = I) /\ (excl (lst σ' c a) <-> excl (lst σ c a)).
Proof.
  rewrite (lst_found _ _ _ _ Hfc). unfold lst. rewrite (sa_find _ _ (g_arr _ _ _ _ _ _ _ _ _ _ _ HG)), Hfc.
  destruct (g_bst_I _ _ _ _ _ _ _ _ _ _ _ HG). rewrite (g_bst _ _ _ _ _ _ _ _ _ _ _ HG). done.
Qed.

Lemma grant_NodeOK d : NodeOK σ' a d.
Proof.
  pose proof (g_arr _ _ _ _ _ _ _ _ _ _ _ HG) as Hs.
  destruct (decide (d = c)) as [->|Hdc].
  { split.
    - intros id' Hf. rewrite (sa_find _ _ Hs) in Hf. by replace id' with id by congruence.
    - intros j cj Hc Hl. exists id. rewrite (sa_find _ _ Hs). eauto. }
  destruct (g_Tdec _ _ _ _ _ _ _ _ _ _ _ HG d) as [HT|HT].
  { eapply (NodeOK_eff t σ); [done|apply HI|done|intros; by apply (g_in _ _ _ _ _ _ _ _ _ _ _ HG)|].
    intros j cj i Hc Hf. by apply (g_in _ _ _ _ _ _ _ _ _ _ _ HG); [eapply (g_Tdown _ _ _ _ _ _ _ _ _ _ _ HG)|]. }
  eapply (NodeOK_upd σ); [apply HI|done| |].
  - intros i Hf. destruct (decide (d = ch)) as [->|Hdch].
    + replace i with idch by congruence. split; [exact (g_child_entry _ _ _ _ _ _ _ _ _ _ _ HG)|].
      by rewrite (g_child _ _ _ _ _ _ _ _ _ _ _ HG).
    + destruct (grant_other d i) as [-> ->]; [done..|]. split; [done|].
      destruct (decide (bst σ d i = I)); [left; by apply HI|by right].
  - intros j cj Hc. destruct (decide (cj = c)) as [->|Hcc]; [apply grant_lst_c|].
    destruct (decide (cj = ch)) as [->|Hcch].
    { by destruct (child_at_inj _ _ _ WF _ _ _ _ _ _ Hc Hkid) as [-> _]. }
    rewrite grant_lst; [done..|]. intros HTc.
    by destruct (g_Tup _ _ _ _ _ _ _ _ _ _ _ HG _ _ _ HTc Hc).
Qed.

Lemma grant_Inv : Inv pend σ'.
Proof.
  eapply (Inv_line pend σ σ' a); [done|apply HG| | | |done|apply grant_NodeOK].
  - rewrite (g_mem _ _ _ _ _ _ _ _ _ _ _ HG). apply HI.
  - intros d i Hf. apply (g_out _ _ _ _ _ _ _ _ _ _ _ HG); [intros [-> ->]; done..|by intros []].
  - intros d i Hf Hb. destruct (decide (d = c)) as [->|Hdc].
    { replace i with id in * by congruence. by destruct (g_bst_I _ _ _ _ _ _ _ _ _ _ _ HG). }
    destruct (decide (d = ch)) as [->|Hdch].
    { replace i with idch in * by congruence. rewrite (g_child _ _ _ _ _ _ _ _ _ _ _ HG) in Hb.
      rewrite (g_child_entry _ _ _ _ _ _ _ _ _ _ _ HG). destruct Hs' as [He|[? _]]; [|done].
      split; [done|]. rewrite (eo_count _ _ _ _ _ (no_entry _ _ _ _ (inv_node _ _ _ HI a ch) _ Hfch)).
      by rewrite He, size_empty. }
    destruct (g_Tdec _ _ _ _ _ _ _ _ _ _ _ HG d) as [HT|HT].
    + destruct (g_in _ _ _ _ _ _ _ _ _ _ _ HG d i HT Hf) as [Hb' ->]. rewrite Hb' in Hb.
      apply eff_st_I in Hb; [|done]. destruct (decide (t = INV)) as [->|Hti]; [done|].
      assert (t = INVX) as -> by (by destruct Ht). destruct Hb as [|Hb]; [done|].
      destruct (inv_stale _ _ _ HI d i Hb) as [He Hn]. simpl. unfold Entry_isExclusive. by rewrite Hn.
    + destruct (grant_other d i) as [Hb' ->]; [done..|]. rewrite Hb' in Hb. by apply HI.
Qed.
End GrantInv.

(** What the requester's own subtree sees of an access to line [a]. *)
Definition kid_frame a ch σ σ' : Prop := forall d i, below a ch d -> find σ d a = Some i ->
  entry σ' d i = entry σ d i /\ (d <> ch -> bst σ' d i = bst σ d i).

Lemma grant_kid_frame t c a id k ch idch T s' pend σ σ' :
  Grant t c a id k ch idch T s' σ σ' -> Inv pend σ -> child_at a c k ch ->
  find σ c a = Some id -> find σ ch a = Some idch -> kid_frame a ch σ σ'.
Proof using WF.
  intros HG HI Hk Hfc Hfch d i Hb Hf.
  assert (d <> c) as Hdc by (intros ->; by eapply below_not_child).
  destruct (decide (d = ch)) as [->|Hne].
  { replace i with idch by congruence. split; [exact (g_child_entry _ _ _ _ _ _ _ _ _ _ _ HG)|done]. }
  destruct (g_out _ _ _ _ _ _ _ _ _ _ _ HG d i) as [Hb' He]; [naive_solver..| |done].
  intros [HT _]. destruct (g_T _ _ _ _ _ _ _ _ _ _ _ HG d HT) as (j & cj & Hj & Hc & Hbj).
  by apply Hj, (below_siblings _ _ _ WF _ _ _ _ _ _ _ Hc Hk Hbj Hb).
Qed.

Lemma sharers_size σ d id a : EntryOK cfg σ d id a -> (size (sharers (entry σ d id)) <= 2048)%nat.
Proof using WF.
  intros HE. pose proof (wf_nchildren _ _ _ WF d).
  assert (sharers (entry σ d id) ⊆ set_seq 0 (length (c_children (cfg d)))) as Hsub.
  { intros k Hk. destruct (eo_child _ _ _ _ _ HE k Hk) as (ch & [Hc _] & _).
    apply elem_of_set_seq. apply lookup_lt_Some in Hc. lia. }
  apply subseteq_size in Hsub. rewrite size_set_seq in Hsub. lia.
Qed.

(** [PUTS], and [PUTX] without the keep-exclusive flag. *)
Lemma tcc_put_spec inv pend σ c a id k ch idch t excl_ cy src fl :
  Inv pend σ -> arr_addr_ok (A:=A) a -> child_at a c k ch ->
  find σ c a = Some id -> find σ ch a = Some idch ->
  sharers (entry σ ch idch) = ∅ -> bst σ ch idch <> I ->
  (t = PUTS \/ t = PUTX /\ excl (bst σ ch idch)) -> has_flag fl PUTX_KEEPEXCL = false ->
  wp (tcc_processAccess cfg inv c a id t k excl_ (LineState ch idch) cy src fl) σ (fun '(resp, wb) σ' =>
    resp = cy /\ wb = false /\ Inv pend σ' /\ same_arr σ σ' /\ bst σ' ch idch = I /\ mem σ' = mem σ /\
    (forall d i, ~ (d = ch /\ i = idch) -> bst σ' d i = bst σ d i) /\
    (forall d i, ~ (d = c /\ i = id) -> entry σ' d i = entry σ d i)).
Proof using WF NetworkOk0.
  intros HI Ha Hk Hfc Hfch Hemp Hb Ht Hfl.
  assert (lst σ ch a <> I) as Hl by by rewrite (lst_found _ _ _ _ Hfch).
  destruct (no_incl _ _ _ _ (inv_node _ _ _ HI a c) _ _ Hk Hl) as (id' & Hf' & Hks).
  replace id' with id in * by congruence.
  pose proof (no_entry _ _ _ _ (inv_node _ _ _ HI a c) _ Hfc) as HE.
  assert (bst σ c id <> I) as Hbc.
  { intros HbI. pose proof (eo_inv _ _ _ _ _ HE HbI). by eapply elem_nonempty. }
  assert (c <> ch) as Hne by (intros ->; apply (child_at_level _ _ _ WF) in Hk; lia).
  set (e' := set_numSharers (u32 (numSharers (entry σ c id) - 1)) (reset_sharer k (entry σ c id))).
  set (σ' := write_ref (LineState ch idch) I
     (upd_entry c id (fun e => set_numSharers (u32 (numSharers e - 1)) e) (upd_entry c id (reset_sharer k) σ))).
  assert (wp (tcc_put c id k (LineState ch idch)) σ (fun _ σ'' => σ'' = σ')) as Hput.
  { unfold tcc_put. do 2 wp_step. wp_step. apply wp_assert; [by apply bool_decide_eq_true|].
    by do 5 wp_step. }
  assert (entry σ' c id = e') as He'.
  { unfold σ'. simpl. rewrite entry_set_bst, entry_upd_entry, decide_True by done.
    by rewrite entry_upd_entry, decide_True. }
  assert (forall d i, ~ (d = ch /\ i = idch) -> bst σ' d i = bst σ d i) as Hbst.
  { intros d i Hd. unfold σ'. simpl. rewrite bst_set_bst, decide_False by auto with damov.
    by rewrite !bst_upd_entry. }
  assert (forall d i, ~ (d = c /\ i = id) -> entry σ' d i = entry σ d i) as Hent.
  { intros d i Hd. unfold σ'. simpl. rewrite entry_set_bst. by rewrite !entry_upd_entry, !decide_False by auto with damov. }
  assert (same_arr σ σ') as Hsa.
  { apply same_arr_eq. intros d. unfold σ'. simpl. by rewrite arr_set_bst, !arr_upd_entry. }
  assert (bst σ' ch idch = I) as Hch.
  { unfold σ'. simpl. by rewrite bst_set_bst, decide_True. }
  assert (mem σ' = mem σ) as Hmem by done.
  clearbody σ'.
  assert (forall cj, cj <> ch -> lst σ' cj a = lst σ cj a) as Hlst.
  { intros cj Hcj. apply lst_same; [done|]. intros. apply Hbst. naive_solver. }
  assert (Grant INV c a id k ch idch (fun _ => False) I σ σ') as HG.
  { assert (bst σ' c id = bst σ c id) as Hcb by (apply Hbst; naive_solver).
    assert (entry σ' ch idch = entry σ ch idch) as Hce by (apply Hent; naive_solver).
    split; rewrite ?Hcb; auto; by intros d []. }
  assert (size (sharers (entry σ c id)) = Datatypes.S (size (sharers e'))) as Hsz.
  { by apply size_remove. }
  pose proof (sharers_size _ _ _ _ HE) as Hmax. pose proof (eo_count _ _ _ _ _ HE) as Hcnt.
  assert (EntryOK cfg σ' c id a) as HE'.
  { split; rewrite ?He'.
    - simpl numSharers. rewrite Hcnt, Hsz, u32_id; [lia|]. unfold in_u32, W32. lia.
    - rewrite Hbst by naive_solver. done.
    - intros j Hj. simpl in Hj. apply in_remove in Hj as [Hj1 Hj2].
      destruct (eo_child _ _ _ _ _ HE j Hj1) as (cj & Hc & Hlj & Hx). exists cj.
      rewrite Hlst; [by split_and!|]. intros ->. by destruct (child_at_inj _ _ _ WF _ _ _ _ _ _ Hc Hk).
    - intros Hx Hn. simpl in Hx. destruct (eo_excl _ _ _ _ _ HE Hx) as [H1 _]; [by eapply elem_nonempty|].
      exfalso. apply Hn. apply leibniz_equiv, size_empty_inv. lia. }
  assert (Inv pend σ') as HI'.
  { eapply (grant_Inv INV c a id k ch idch (fun _ => False) I); try done; [by left|by left|].
    intros j cj Hc Hlj. rewrite He'.
    destruct (decide (cj = ch)) as [->|Hcj].
    { destruct Hlj. unfold lst. by rewrite (sa_find _ _ Hsa), Hfch. }
    rewrite Hlst in Hlj by done.
    destruct (no_incl _ _ _ _ (inv_node _ _ _ HI a c) _ _ Hc Hlj) as (id2 & Hf2 & Hj).
    replace id2 with id in * by congruence. simpl. apply in_remove. split; [done|]. intros ->. by destruct Hcj, (child_at_fun _ _ _ _ _ _ Hc Hk). }
  destruct Ht as [->|[-> Hx]]; unfold tcc_processAccess.
  - wp_step. eapply wp_mono; [apply Hput|]. intros _ ? ->. wp_step. by split_and!.
  - do 2 wp_step. wp_step. apply wp_assert.
    { assert (exclusive (entry σ c id) = true) as Hex.
      { destruct (eo_child _ _ _ _ _ HE k Hks) as (ch' & Hc' & _ & Hiff).
        rewrite (child_at_fun _ _ _ _ _ _ Hc' Hk), (lst_found _ _ _ _ Hfch) in Hiff. by apply Hiff. }
      apply Entry_isExclusive_true. split; [|done].
      destruct (eo_excl _ _ _ _ _ HE Hex) as [H1 _]; [by eapply elem_nonempty|]. lia. }
    rewrite Hfl. wp_step. eapply wp_mono; [apply Hput|]. intros _ ? ->. wp_step. by split_and!.
Qed.

(** The subtrees invalidated on behalf of child [k]. *)
Lemma shared_T c a id σ1 k :
  k ∉ sharers (entry σ1 c id) ->
  (forall d, shared_below cfg c a id σ1 d -> exists j cj, j <> k /\ child_at a c j cj /\ below a cj d) /\
  (forall d j cj, shared_below cfg c a id σ1 d -> child_at a d j cj -> shared_below cfg c a id σ1 cj) /\
  (forall d j cj, shared_below cfg c a id σ1 cj -> child_at a d j cj -> shared_below cfg c a id σ1 d \/ d = c) /\
  (forall d, shared_below cfg c a id σ1 d \/ ~ shared_below cfg c a id σ1 d).
Proof using WF.
  intros Hk. split_and!.
  - intros d (j & cj & Hj & Hc & Hb). exists j, cj. split_and!; try done; [by intros ->|apply Hc..].
  - intros d j cj (j' & c' & Hj & Hc & Hb) Hd. exists j', c'. split_and!; try done; [apply Hc..|by econstructor].
  - intros d j cj (j' & c' & Hj & Hc & Hb) Hd.
    inversion Hb as [|p' k' d' Hb' Hc']; subst.
    + right. by destruct (child_at_inj _ _ _ WF _ _ _ _ _ _ Hc Hd) as [-> _].
    + left. destruct (child_at_inj _ _ _ WF _ _ _ _ _ _ Hd Hc') as [-> _].
      exists j', c'. split_and!; try done; apply Hc.
  - intros d. destruct (below_em _ _ _ WF a c d) as [Hb|Hb].
    + destruct (decide (d = c)) as [->|Hne].
      * right. intros [_ ?]%(shared_below_below cfg level top WF). done.
      * by apply (shared_below_em cfg level top WF).
    + right. by intros [? _]%(shared_below_below cfg level top WF).
Qed.

(** What a GETS or GETX leaves behind at the directory that serves it. *)
Record GetPost pend c a id ch (cy resp : Z) (wb : bool) σ σ' : Prop := {
  gp_inv : Inv pend σ';
  gp_arr : same_arr σ σ';
  gp_bst : bst σ' c id = bst σ c id;
  gp_wb : wb = true -> excl (bst σ c id);
  gp_cycle : cy <= resp <= cy + lat_bound * Z.of_nat (level c) + 2 ^ 32;
  gp_frame : kid_frame a ch σ σ';
}.

Section Get.
Context (inv : nat -> InvReq -> bool -> CM (Z * bool)) (pend : nat -> option (Z * Z)).
Context (c : nat) (a id : Z) (k ch : nat) (idch : Z) (cy src fl : Z) (σ : Sys).
Hypothesis Hinv : InvalSpec cfg level (level c) inv.
Hypothesis HI : Inv pend σ.
Hypothesis Haddr : arr_addr_ok (A:=A) a.
Hypothesis Hk : child_at a c k ch.
Hypothesis Hfc : find σ c a = Some id.
Hypothesis Hfch : find σ ch a = Some idch.
Hypothesis Hbc : bst σ c id <> I.
Hypothesis Hcy : 0 <= cy /\ cy + lat_bound * (Z.of_nat (level c) + 1) <= 2 * cycle_limit + 2 ^ 32.
Let e0 := entry σ c id.

Lemma get_entry : EntryOK cfg σ c id a.
Proof. apply (inv_node _ _ _ HI a c). done. Qed.

Lemma get_ne : c <> ch.
Proof. intros Heq. pose proof (child_at_level _ _ _ WF _ _ _ _ Hk) as Hl. rewrite Heq in Hl. lia. Qed.

(** The child that asks is in the directory exactly when it holds the line. *)
Lemma get_sharer : k ∈ sharers e0 <-> bst σ ch idch <> I.
Proof.
  rewrite <- (lst_found _ _ _ _ Hfch). split.
  - intros Hks. destruct (eo_child _ _ _ _ _ get_entry k Hks) as (ch' & Hc' & Hl & _).
    by rewrite (child_at_fun _ _ _ _ _ _ Hc' Hk) in Hl.
  - intros Hl. destruct (no_incl _ _ _ _ (inv_node _ _ _ HI a c) _ _ Hk Hl) as (id' & Hf' & Hks).
    unfold e0. by replace id with id' by congruence.
Qed.

Lemma get_incl σ' j cj : same_arr σ σ' -> lst σ' cj a = lst σ cj a -> child_at a c j cj ->
  lst σ' cj a <> I -> j ∈ sharers e0.
Proof.
  intros Hs -> Hc Hl. destruct (no_incl _ _ _ _ (inv_node _ _ _ HI a c) _ _ Hc Hl) as (id' & Hf' & Hks).
  unfold e0. by replace id with id' by congruence.
Qed.

(** A store with the entry of [c] replaced and the child's state written. *)
Definition granted (f : Entry -> Entry) (s' : MESIState) (σ1 : Sys) : Sys :=
  write_ref (LineState ch idch) s' (upd_entry c id f σ1).

Lemma granted_obs f s' σ1 :
  same_arr σ1 (granted f s' σ1) /\ mem (granted f s' σ1) = mem σ1 /\
  bst (granted f s' σ1) ch idch = s' /\ entry (granted f s' σ1) c id = f (entry σ1 c id) /\
  (forall d i, ~ (d = ch /\ i = idch) -> bst (granted f s' σ1) d i = bst σ1 d i) /\
  (forall d i, ~ (d = c /\ i = id) -> entry (granted f s' σ1) d i = entry σ1 d i).
Proof.
  unfold granted; simpl. split_and!.
  - apply same_arr_eq. intros d. by rewrite arr_set_bst, arr_upd_entry.
  - done.
  - by rewrite bst_set_bst, decide_True.
  - by rewrite entry_set_bst, entry_upd_entry, decide_True.
  - intros d i Hd. by rewrite bst_set_bst, decide_False, bst_upd_entry by auto with damov.
  - intros d i Hd. by rewrite entry_set_bst, entry_upd_entry, decide_False by auto with damov.
Qed.

(** Giving the line without sending invalidations. *)
Lemma grant_plain f s' :
  let σ' := granted f s' σ in
  sharers (entry σ ch idch) = ∅ \/ (s' <> I /\ (excl (bst σ ch idch) -> excl s')) ->
  EntryOK cfg σ' c id a ->
  (forall j cj, child_at a c j cj -> cj <> ch -> lst σ cj a <> I -> j ∈ sharers (f e0)) ->
  (s' <> I -> k ∈ sharers (f e0)) ->
  forall resp wb, (wb = true -> excl (bst σ c id)) ->
  cy <= resp <= cy + lat_bound * Z.of_nat (level c) + 2 ^ 32 ->
  GetPost pend c a id ch cy resp wb σ σ' /\ bst σ' ch idch = s'.
Proof.
  intros σ' Hs' HE Hincl Hkin resp wb Hwb Hresp.
  destruct (granted_obs f s' σ) as (Hsa & Hm & Hb & He & Hbo & Heo). fold σ' in Hsa, Hm, Hb, He, Hbo, Heo.
  pose proof get_ne as Hne. clearbody σ'.
  assert (bst σ' c id = bst σ c id) as Hcb by (apply Hbo; auto with damov).
  assert (entry σ' ch idch = entry σ ch idch) as Hce by (apply Heo; auto with damov).
  assert (Grant INV c a id k ch idch (fun _ => False) s' σ σ') as HG.
  { split; rewrite ?Hcb; auto; by intros d []. }
  split; [|done]. split; try done.
  - eapply (grant_Inv INV c a id k ch idch (fun _ => False) s'); try done; [by left|].
    intros j cj Hc Hl. rewrite He. destruct (decide (cj = ch)) as [->|Hcj].
    + rewrite (child_at_index _ _ _ WF _ _ _ _ Hc), <- (child_at_index _ _ _ WF _ _ _ _ Hk).
      apply Hkin. intros HsI. apply Hl. unfold lst. by rewrite (sa_find _ _ Hsa), Hfch, Hb.
    + eapply Hincl; [done|done|]. rewrite (lst_same σ σ') in Hl; [done|done|].
      intros. apply Hbo. auto with damov.
  - by eapply grant_kid_frame.
Qed.

(** Giving the line after the other sharers were invalidated. *)
Lemma grant_after t f s' σ1 σ2 resp0 wb :
  (t = INV \/ t = INVX) ->
  (* [σ1] is [σ] with [k] out of the entry *)
  same_arr σ σ1 -> mem σ1 = mem σ -> (forall d i, bst σ1 d i = bst σ d i) ->
  (forall d i, ~ (d = c /\ i = id) -> entry σ1 d i = entry σ d i) ->
  k ∉ sharers (entry σ1 c id) ->
  SendPost cfg level t c a id cy σ1 false (resp0, wb) σ2 ->
  let σ' := granted f s' σ2 in
  sharers (entry σ ch idch) = ∅ \/ (s' <> I /\ (excl (bst σ ch idch) -> excl s')) ->
  EntryOK cfg σ' c id a ->
  (forall j cj, child_at a c j cj -> cj <> ch -> lst σ' cj a <> I -> j ∈ sharers (entry σ' c id)) ->
  k ∈ sharers (entry σ' c id) ->
  (wb = true -> excl (bst σ c id)) ->
  GetPost pend c a id ch cy resp0 wb σ σ' /\ bst σ' ch idch = s'.
Proof.
  intros Ht Hs1 Hm1 Hb1 He1 Hk1 [Ha2 Hm2 _ Hb2 He2 Hin2 Hout2 Hcy2 _] σ' Hs' HE Hincl Hkin Hwb.
  destruct (granted_obs f s' σ2) as (Hsa & Hm & Hb & He & Hbo & Heo). fold σ' in Hsa, Hm, Hb, He, Hbo, Heo.
  pose proof get_ne as Hne. clearbody σ'.
  destruct (shared_T c a id σ1 k Hk1) as (HT & HTd & HTu & HTdec).
  assert (~ shared_below cfg c a id σ1 c) as HTc.
  { intros [_ ?]%(shared_below_below cfg level top WF). done. }
  assert (~ shared_below cfg c a id σ1 ch) as HTch.
  { intros (j & cj & Hj & Hc & Hbj)%HT.
    by apply Hj, (below_siblings _ _ _ WF _ _ _ _ _ _ _ Hc Hk Hbj (below_refl _ _ _)). }
  assert (bst σ' c id = bst σ c id) as Hcb.
  { rewrite Hbo by auto with damov. by rewrite Hb2, Hb1. }
  assert (entry σ' ch idch = entry σ ch idch) as Hce.
  { rewrite Heo by auto with damov. rewrite (proj2 (Hout2 ch idch ltac:(auto with damov) ltac:(naive_solver))).
    apply He1. auto with damov. }
  assert (Grant t c a id k ch idch (shared_below cfg c a id σ1) s' σ σ') as HG.
  { split; rewrite ?Hcb; try done.
    - by do 2 (etrans; [done|]).
    - by rewrite Hm, Hm2.
    - intros d i Hd Hf. assert (d <> c) as Hdc by (by intros ->). assert (d <> ch) as Hdch by (by intros ->).
      rewrite Hbo, Heo by auto with damov. destruct (Hin2 d i) as [-> ->]; [done|by rewrite (sa_find _ _ Hs1)|].
      by rewrite Hb1, He1 by auto with damov.
    - intros d i H1 H2 H3. rewrite Hbo, Heo by done.
      destruct (Hout2 d i) as [-> ->]; [done|by rewrite (sa_find _ _ Hs1)|]. by rewrite Hb1, He1. }
  split; [|done]. split; try done.
  - eapply (grant_Inv t c a id k ch idch (shared_below cfg c a id σ1) s'); try done.
    intros j cj Hc Hl. destruct (decide (cj = ch)) as [->|Hcj]; [|by eapply Hincl].
    by rewrite (child_at_index _ _ _ WF _ _ _ _ Hc), <- (child_at_index _ _ _ WF _ _ _ _ Hk).
  - by do 2 (etrans; [done|]).
  - by eapply grant_kid_frame.
Qed.

Lemma isExclusive_excl : isExclusive σ c id = true -> excl (bst σ c id).
Proof.
  unfold isExclusive. rewrite orb_true_iff, !bool_decide_eq_true. done.
Qed.

Lemma u32_count : u32 (numSharers e0 + 1) = numSharers e0 + 1.
Proof.
  pose proof (sharers_size _ _ _ _ get_entry). pose proof (eo_count _ _ _ _ _ get_entry) as Hc.
  unfold e0. rewrite Hc. apply u32_id. unfold in_u32, W32. lia.
Qed.

Lemma size_insert_new (X : gset nat) : k ∉ X -> Z.of_nat (size ({[k]} ∪ X)) = Z.of_nat (size X) + 1.
Proof. intros Hn. rewrite size_union by set_solver. rewrite size_singleton. lia. Qed.

(** Every requester other than [ch] that holds the line after a plain grant is in the entry. *)
Lemma plain_incl j cj : child_at a c j cj -> cj <> ch -> lst σ cj a <> I -> j ∈ sharers e0.
Proof. intros Hc _ Hl. by eapply (get_incl σ). Qed.

Lemma kid_ne j cj : child_at a c j cj -> j <> k -> cj <> ch.
Proof. intros Hc Hj ->. by destruct (child_at_inj _ _ _ WF _ _ _ _ _ _ Hc Hk). Qed.

(** GETS answered with E. *)
Lemma gets_E_spec :
  bst σ ch idch = I -> Entry_isEmpty e0 = true -> excl (bst σ c id) ->
  let f := fun e => set_numSharers 1 (set_sharer k (set_exclusive true e)) in
  GetPost pend c a id ch cy cy false σ (granted f E σ) /\ bst (granted f E σ) ch idch = E.
Proof.
  intros Hch Hemp%bool_decide_eq_true Hx f.
  assert (sharers e0 = ∅) as Hs0.
  { pose proof (eo_count _ _ _ _ _ get_entry) as Hc. fold e0 in Hc.
    apply leibniz_equiv, size_empty_inv. lia. }
  destruct (granted_obs f E σ) as (Hsa & Hm & Hb & He & Hbo & Heo).
  pose proof get_ne as Hne.
  apply grant_plain; [left; by apply HI| | | |done|unfold lat_bound; lia].
  - fold e0 in He. set (σ' := granted f E σ) in *. clearbody σ'. split; rewrite He; simpl; rewrite ?Hs0, ?union_empty_r_L.
    + by rewrite size_singleton.
    + rewrite Hbo by auto with damov. done.
    + intros j ->%elem_of_singleton. exists ch. split; [done|].
      unfold lst. rewrite (sa_find _ _ Hsa), Hfch, Hb. split; [done|]. split; [done|by left].
    + intros _ _. rewrite size_singleton, Hbo by auto with damov. done.
  - intros j cj Hc Hcj Hl. pose proof (plain_incl _ _ Hc Hcj Hl) as Hj. rewrite Hs0 in Hj. by apply not_elem_of_empty in Hj.
  - intros _. simpl. apply elem_of_union_l. by apply elem_of_singleton.
Qed.

(** The entry after a GETS answered with S. *)
Definition add_shared (e : Entry) : Entry :=
  set_exclusive false (set_numSharers (u32 (numSharers e + 1)) (set_sharer k e)).

Lemma add_shared_ok σ' :
  bst σ ch idch = I -> same_arr σ σ' -> bst σ' ch idch = S -> bst σ' c id <> I ->
  entry σ' c id = mkEntry (numSharers e0 + 1) ({[k]} ∪ sharers e0) false ->
  (forall j cj, j ∈ sharers e0 -> child_at a c j cj -> lst σ' cj a <> I /\ ~ excl (lst σ' cj a)) ->
  EntryOK cfg σ' c id a.
Proof.
  intros Hch Hsa Hb Hbc' He Hkids.
  assert (k ∉ sharers e0) as Hk0 by (rewrite get_sharer; auto).
  split; rewrite He; simpl.
  - rewrite size_insert_new by done. pose proof (eo_count _ _ _ _ _ get_entry) as Hc. fold e0 in Hc. lia.
  - done.
  - intros j [->%elem_of_singleton|Hj]%elem_of_union.
    + exists ch. split; [done|]. unfold lst. rewrite (sa_find _ _ Hsa), Hfch, Hb.
      split; [done|]. split; [by intros []|done].
    + destruct (eo_child _ _ _ _ _ get_entry j Hj) as (cj & Hc & _). exists cj.
      destruct (Hkids j cj Hj Hc) as [Hl Hx]. split_and!; try done; [apply Hc..].
  - done.
Qed.

Lemma tcc_GETS_spec :
  bst σ ch idch = I ->
  wp (tcc_processAccess cfg inv c a id GETS k (isExclusive σ c id) (LineState ch idch) cy src fl) σ
    (fun '(resp, wb) σ' => GetPost pend c a id ch cy resp wb σ σ' /\
       (bst σ' ch idch = S \/ bst σ' ch idch = E)).
Proof.
  intros Hch. assert (k ∉ sharers e0) as Hk0 by (rewrite get_sharer; auto).
  assert (sharers (entry σ ch idch) = ∅) as Hs0 by (by apply HI).
  unfold tcc_processAccess. do 2 wp_step. fold e0.
  destruct (Entry_isEmpty e0 && isExclusive σ c id && negb (has_flag fl NOEXCL)) eqn:Hgrant.
  { apply andb_true_iff in Hgrant as [[Hemp Hx%isExclusive_excl]%andb_true_iff _].
    do 5 wp_step. destruct (gets_E_spec Hch Hemp Hx) as [HG HE]. split; [exact HG|right; exact HE]. }
  wp_step. apply wp_assert; [by apply bool_decide_eq_true|]. wp_step.
  pose proof get_ne as Hne. pose proof get_entry as HE0.
  destruct (Entry_isExclusive e0) eqn:Hx.
  - destruct (isExclusive_sharers _ _ _ _ _ HE0 Hx) as (Hex & Hne0 & Hxc).
    eapply wp_mono; [apply (sendInvalidates_spec cfg level top WF); [done|]|].
    { eapply NodeOK_SendPre; eauto using inv_node. intros d. exists (pend d). apply HI. }
    intros [resp wb] σ2 HS. do 2 wp_step.
    assert (entry σ2 c id = set_exclusive false e0) as He2.
    { rewrite (so_entry _ _ _ _ _ _ _ _ _ _ _ HS). simpl. fold e0. by rewrite Hx. }
    wp_step. apply wp_assert; [rewrite He2; unfold Entry_isExclusive; simpl; by rewrite andb_false_r|].
    do 5 wp_step.
    destruct (granted_obs add_shared S σ2) as (Hsa & Hm & Hb & He & Hbo & Heo).
    rewrite He2 in He. unfold add_shared in He at 2. simpl in He. rewrite u32_count in He.
    enough (GetPost pend c a id ch cy resp wb σ (granted add_shared S σ2) /\
            bst (granted add_shared S σ2) ch idch = S) as [HG HB] by (split; [exact HG|left; exact HB]).
    eapply (grant_after INVX add_shared S σ σ2); eauto; [done|..].
    + apply add_shared_ok; try done.
      * etrans; [apply (so_arr _ _ _ _ _ _ _ _ _ _ _ HS)|done].
      * rewrite Hbo by auto with damov. by rewrite (so_bst _ _ _ _ _ _ _ _ _ _ _ HS).
      * intros j cj Hj Hc. assert (j <> k) as Hjk by (by intros ->).
        destruct (eo_child _ _ _ _ _ HE0 j Hj) as (cj' & Hc' & Hl & _).
        rewrite (child_at_fun _ _ _ _ _ _ Hc' Hc) in Hl.
        destruct (lst_not_I _ _ _ Hl) as (i & Hf & Hbi).
        assert (lst (granted add_shared S σ2) cj a = eff_st INVX (lst σ cj a)) as ->.
        { unfold lst at 1. rewrite (sa_find _ _ Hsa), (sa_find _ _ (so_arr _ _ _ _ _ _ _ _ _ _ _ HS)), Hf, <- Hbi.
          rewrite Hbo by (apply index_ne_l; by eapply kid_ne).
          apply (so_in _ _ _ _ _ _ _ _ _ _ _ HS); [|done]. exists j, cj. split_and!; try done; [apply Hc..|constructor]. }
        split; [intros [|]%eff_st_I; auto; done|]. apply eff_st_not_excl. by right.
    + intros j cj Hc Hcj Hl. rewrite He. simpl. apply elem_of_union_r.
      destruct (decide (lst σ cj a = I)) as [HlI|Hl0]; [|by eapply plain_incl].
      exfalso. apply Hl. unfold lst in *. rewrite (sa_find _ _ Hsa), (sa_find _ _ (so_arr _ _ _ _ _ _ _ _ _ _ _ HS)).
      destruct (find σ cj a) as [i|] eqn:Hf; [|done]. rewrite Hbo by auto with damov.
      destruct (shared_T c a id σ k Hk0) as (_ & _ & _ & HTdec). destruct (HTdec cj) as [HT|HT].
      * rewrite (proj1 (so_in _ _ _ _ _ _ _ _ _ _ _ HS cj i HT Hf)). by rewrite HlI.
      * rewrite (proj1 (so_out _ _ _ _ _ _ _ _ _ _ _ HS cj i ltac:(apply index_ne_l; by eapply child_ne) ltac:(by intros []))). done.
    + rewrite He. simpl. apply elem_of_union_l. by apply elem_of_singleton.
  - wp_step. do 2 wp_step. wp_step. apply wp_assert; [fold e0; by rewrite Hx|]. do 5 wp_step.
    destruct (granted_obs add_shared S σ) as (Hsa & Hm & Hb & He & Hbo & Heo).
    fold e0 in He. unfold add_shared in He at 2. rewrite u32_count in He.
    enough (GetPost pend c a id ch cy cy false σ (granted add_shared S σ) /\
            bst (granted add_shared S σ) ch idch = S) as [HG HB] by (split; [exact HG|left; exact HB]).
    apply grant_plain; [by left| | | |done|unfold lat_bound; lia].
    + apply add_shared_ok; try done; [by rewrite Hbo by auto with damov|].
      intros j cj Hj Hc. rewrite (lst_same σ); [|done|intros; apply Hbo, index_ne_l; eapply kid_ne; [done|by intros ->]].
      split; [|by eapply not_isExclusive_child].
      destruct (eo_child _ _ _ _ _ HE0 j Hj) as (cj' & Hc' & Hl & _).
      by rewrite (child_at_fun _ _ _ _ _ _ Hc' Hc) in Hl.
    + intros j cj Hc Hcj Hl. simpl. apply elem_of_union_r. by eapply plain_incl.
    + intros _. simpl. apply elem_of_union_l. by apply elem_of_singleton.
Qed.

(** The store of a GETX once the requester is out of the directory entry. *)
Definition dropped : Sys :=
  if decide (k ∈ sharers e0)
  then upd_entry c id (fun e => set_numSharers (u32 (numSharers e - 1)) (reset_sharer k e)) σ else σ.

Lemma dropped_obs :
  same_arr σ dropped /\ mem dropped = mem σ /\ (forall d i, bst dropped d i = bst σ d i) /\
  (forall d i, ~ (d = c /\ i = id) -> entry dropped d i = entry σ d i) /\
  sharers (entry dropped c id) = sharers e0 ∖ {[k]} /\
  numSharers (entry dropped c id) = Z.of_nat (size (sharers e0 ∖ {[k]})).
Proof.
  pose proof (eo_count _ _ _ _ _ get_entry) as Hcnt. fold e0 in Hcnt. unfold dropped. case_decide as Hks.
  - pose proof (size_remove _ _ Hks) as Hsz. pose proof (sharers_size _ _ _ _ get_entry) as Hmax. fold e0 in Hmax.
    split_and!; try done.
    + apply same_arr_eq. intros. apply arr_upd_entry.
    + intros. apply bst_upd_entry.
    + intros d i Hd. by rewrite entry_upd_entry, decide_False by auto with damov.
    + by rewrite entry_upd_entry, decide_True.
    + rewrite entry_upd_entry, decide_True by done. simpl. fold e0.
      rewrite u32_id; [lia|]. unfold in_u32, W32. lia.
  - fold e0. replace (sharers e0 ∖ {[k]}) with (sharers e0) by set_solver. by split_and!.
Qed.

Lemma dropped_SendPre : SendPre cfg level INV c a id cy dropped.
Proof.
  destruct dropped_obs as (Hsa & Hm & Hb & He & Hsh & Hn).
  split; [by left|done| |by rewrite Hsh| |done].
  - intros d. exists (pend d). apply Hsa, HI.
  - intros j. rewrite Hsh, in_remove. intros [Hj Hjk].
    destruct (eo_child _ _ _ _ _ get_entry j Hj) as (cj & Hc & Hl & _). exists cj.
    assert (forall d, lst dropped d a = lst σ d a) as Hlst by (intros d; apply lst_same; auto).
    rewrite Hlst. split_and!; try done; [apply Hc..|].
    intros d Hb'. eapply (NodeOK_frame cfg σ); [done| |auto|apply HI].
    intros i _. split; [done|]. apply He, index_ne_l. intros ->. by eapply below_not_child.
Qed.

Definition take_exclusive (e : Entry) : Entry :=
  set_exclusive true (set_numSharers (u32 (numSharers e + 1)) (set_sharer k e)).

Lemma tcc_GETX_spec :
  excl (bst σ c id) -> bst σ ch idch = I \/ bst σ ch idch = S ->
  wp (tcc_processAccess cfg inv c a id GETX k (isExclusive σ c id) (LineState ch idch) cy src fl) σ
    (fun '(resp, wb) σ' => GetPost pend c a id ch cy resp wb σ σ' /\ bst σ' ch idch = M).
Proof.
  intros Hxc Hch. pose proof get_ne as Hne. pose proof get_entry as HE0.
  unfold tcc_processAccess. wp_step. apply wp_assert.
  { unfold isExclusive. by destruct Hxc as [-> | ->]. }
  do 2 wp_step. fold e0. wp_step. apply wp_mono with (Q := fun _ σ1 => σ1 = dropped).
  { unfold dropped. case_decide as Hks; [|by wp_step]. wp_step. apply wp_assert; [|by wp_step].
    destruct (Entry_isExclusive e0) eqn:Hx; [|done].
    apply Entry_isExclusive_true in Hx as [_ Hx].
    destruct (eo_child _ _ _ _ _ HE0 k Hks) as (ch' & Hc' & _ & Hiff).
    rewrite (child_at_fun _ _ _ _ _ _ Hc' Hk), (lst_found _ _ _ _ Hfch) in Hiff.
    apply Hiff in Hx. destruct Hch as [Hch|Hch]; rewrite Hch in Hx; by destruct Hx. }
  intros _ σ1 ->. destruct dropped_obs as (Hsa1 & Hm1 & Hb1 & He1 & Hsh1 & Hn1).
  wp_step. eapply wp_mono; [apply (sendInvalidates_spec cfg level top WF); [done|apply dropped_SendPre]|].
  intros [resp wb] σ2 HS.
  assert (k ∉ sharers (entry dropped c id)) as Hk1 by (rewrite Hsh1, in_remove; naive_solver).
  assert (entry σ2 c id = mkEntry 0 ∅ (exclusive (entry dropped c id))) as He2.
  { by rewrite (so_entry _ _ _ _ _ _ _ _ _ _ _ HS). }
  do 2 wp_step. do 2 wp_step. wp_step. apply wp_assert.
  { rewrite entry_upd_entry, decide_True, He2 by done. done. }
  do 3 wp_step.
  destruct (granted_obs take_exclusive M σ2) as (Hsa & Hm & Hb & He & Hbo & Heo).
  rewrite He2 in He. change (take_exclusive _) with (mkEntry 1 ({[k]} ∪ ∅) true) in He.
  rewrite union_empty_r_L in He.
  assert (bst (granted take_exclusive M σ2) c id = bst σ c id) as Hcb.
  { rewrite Hbo by auto with damov. by rewrite (so_bst _ _ _ _ _ _ _ _ _ _ _ HS). }
  eapply (grant_after INV take_exclusive M dropped σ2); eauto; [right; split; [done|by right]|..].
  - split; rewrite He; cbn [numSharers sharers exclusive].
    + by rewrite size_singleton.
    + by rewrite Hcb.
    + intros j ->%elem_of_singleton. exists ch. split; [done|].
      unfold lst. rewrite (sa_find _ _ Hsa), (sa_find _ _ (so_arr _ _ _ _ _ _ _ _ _ _ _ HS)), (sa_find _ _ Hsa1), Hfch, Hb.
      split; [done|]. split; [done|by right].
    + intros _ _. by rewrite size_singleton, Hcb.
  - intros j cj Hc Hcj Hl. exfalso. apply Hl.
    unfold lst. rewrite (sa_find _ _ Hsa), (sa_find _ _ (so_arr _ _ _ _ _ _ _ _ _ _ _ HS)), (sa_find _ _ Hsa1).
    destruct (find σ cj a) as [i|] eqn:Hf; [|done]. rewrite Hbo by auto with damov.
    destruct (shared_T c a id dropped k Hk1) as (_ & _ & _ & HTdec). destruct (HTdec cj) as [HT|HT].
    + by rewrite (proj1 (so_in _ _ _ _ _ _ _ _ _ _ _ HS cj i HT (eq_trans (sa_find _ _ Hsa1 _ _) Hf))).
    + rewrite (proj1 (so_out _ _ _ _ _ _ _ _ _ _ _ HS cj i ltac:(apply index_ne_l; by eapply child_ne) ltac:(by intros []))), Hb1.
      destruct (decide (bst σ cj i = I)) as [|HlI]; [done|]. destruct HT. exists j, cj.
      rewrite Hsh1, in_remove. split; [|split; [exact Hc|constructor]].
      rewrite <- (lst_found _ _ _ _ Hf) in HlI. split; [by eapply plain_incl|].
      intros ->. by destruct Hcj, (child_at_fun _ _ _ _ _ _ Hc Hk).
  - rewrite He. cbn [sharers]. by apply elem_of_singleton.
Qed.
End Get.
End Access.
