(* ===== verification/CoherenceMain.v ===== *)
(** * The cache hierarchy: every access keeps coherence and inclusion

    Evictions, fills and the composition of [Cache::access], by induction on
    the levels above a cache; then sequences of accesses from the cores. *)

From stdpp Require Import base tactics numbers list gmap sets.
From Stdlib Require Import ZArith Lia.
From S2P Require Import Prelude.
From S2P Require Import MemTypes.
From S2P Require Import Coherence.
From S2P Require Import CoherenceInv.
From S2P Require Import CoherenceInval.
From S2P Require Import CoherenceAccess.

Open Scope Z_scope.

(** Flags of a demand request: no prefetch, no non-relinquishing writeback. *)
Definition demand_flags (fl : Z) : Prop := has_flag fl PREFETCH = false /\ has_flag fl PUTX_KEEPEXCL = false.

Lemma demand_flags_land fl m : demand_flags fl -> demand_flags (Z.land fl m).
Proof.
  unfold demand_flags, has_flag. rewrite !negb_false_iff, !Z.eqb_eq. intros [H1 H2].
  by rewrite <- !Z.land_assoc, !(Z.land_comm m), !Z.land_assoc, H1, H2.
Qed.

Section Main.
Context {A N MM : Type} `{!Inhabited A} `{!CacheArray A} `{!CacheArrayOk A}.
Context `{!Network N} `{!NetworkOk N} `{!MemCtrl MM} `{!MemCtrlOk MM}.
Context (cfg : nat -> CacheCfg) (level : nat -> nat) (top : nat) (WF : WfCfg cfg level top).
Abbreviation Sys := (Sys A N MM).
Abbreviation CM := (st Sys).
Abbreviation child_at := (child_at cfg).
Abbreviation below := (below cfg).
Abbreviation NodeOK := (NodeOK (A:=A) (N:=N) (MM:=MM) cfg).
Abbreviation Inv := (Inv (A:=A) (N:=N) (MM:=MM) cfg).
Implicit Types (σ : Sys) (a : Z) (c d p : nat) (pend : nat -> option (Z * Z)).

Lemma inv_any_arr pend σ d : Inv pend σ -> exists q, arr_inv q (arr (cache_of σ d)).
Proof. intros HI. exists (pend d). apply HI. Qed.

Lemma kid_not_terminal a p k ch : child_at a p k ch -> c_terminal (cfg p) = false.
Proof using WF.
  intros [_ H]. apply list_elem_of_lookup_2 in H. by apply (wf_up _ _ _ WF) in H as (_ & ? & _).
Qed.

(** ** The start of an access: no race in a sequential run *)
Lemma start_spec c r σ Q :
  read_ref (state r) σ = initialState r -> (c_terminal (cfg c) = true -> IsGet (type r) = true) ->
  Q (r, false) σ -> wp (cc_startAccess cfg c r) σ Q.
Proof.
  intros Hr Ht HQ. unfold cc_startAccess. wp_step. apply wp_assert; [destruct (c_terminal (cfg c)); auto|].
  do 2 wp_step. wp_step. unfold CheckForMESIRace. rewrite Hr, decide_True by done.
  apply (wp_ret (type r, false)). wp_step. by destruct r.
Qed.

Lemma with_type_id r : with_type r (type r) = r.
Proof. by destruct r. Qed.

(** ** Memory as the parent *)
Lemma top_Inv pend σ c a id m s' mm :
  Inv pend σ -> find σ c a = Some id -> arr_addr_ok (A:=A) a -> getParent (cfg c) a = Some (ToMem m) ->
  sharers (entry σ c id) = ∅ \/ (s' <> I /\ (excl (bst σ c id) -> excl s')) -> mem_inv mm ->
  Inv pend (write_ref (LineState c id) s' (mkSys (caches σ) (coreState σ) (net σ) mm)).
Proof.
  intros HI Hf Ha Hp Hs' Hmm. set (σ' := write_ref _ _ _).
  assert (same_arr σ σ') as Hsa by (apply same_arr_eq; intros; etrans; [apply arr_set_bst|done]).
  assert (forall d i, entry σ' d i = entry σ d i) as He by (intros; etrans; [apply entry_set_bst|done]).
  assert (bst σ' c id = s') as Hb by (unfold σ'; simpl; by rewrite bst_set_bst, decide_True).
  assert (forall d i, ~ (d = c /\ i = id) -> bst σ' d i = bst σ d i) as Hbo.
  { intros d i Hd. unfold σ'; simpl. by rewrite bst_set_bst, decide_False by auto with damov. }
  assert (mem σ' = mm) as Hm by done. clearbody σ'.
  eapply (Inv_line _ pend σ σ' a); try done.
  - by rewrite Hm.
  - intros d i Hfd. split; [|done]. apply Hbo. by intros [-> ->].
  - intros d i Hfd Hbi. rewrite He. destruct (decide (d = c)) as [->|Hd].
    + replace i with id in * by congruence. rewrite Hb in Hbi.
      destruct Hs' as [Hs|[? _]]; [|done]. split; [done|].
      rewrite (eo_count _ _ _ _ _ (no_entry _ _ _ _ (inv_node _ _ _ HI a c) _ Hf)). by rewrite Hs, size_empty.
    + rewrite Hbo in Hbi by auto with damov. by apply HI.
  - intros d. eapply (NodeOK_upd _ σ); [apply HI|done| |].
    + intros i Hfd. split; [done|]. destruct (decide (d = c)) as [->|Hd].
      * replace i with id by congruence. by rewrite Hb.
      * rewrite Hbo by auto with damov. destruct (decide (bst σ d i = I)); [left; by apply HI|by right].
    + intros k ch [_ Hc]. assert (ch <> c) as Hne by congruence.
      rewrite (lst_same σ σ'); [done|done|]. intros. apply Hbo. auto with damov.
Qed.

(** ** A writeback from a child *)
Record EvictPost pend c (id : Z) σ σ' : Prop := {
  ev_inv : Inv pend σ';
  ev_arr : same_arr σ σ';
  ev_bst : bst σ' c id = I;
  ev_entry : entry σ' c id = entry σ c id;
  ev_low : forall d i, (level d <= level c)%nat -> ~ (d = c /\ i = id) ->
    bst σ' d i = bst σ d i /\ entry σ' d i = entry σ d i;
}.

Lemma EvictPost_view_l pend c id σ σ1 σ2 :
  same_view σ σ1 -> EvictPost pend c id σ1 σ2 -> EvictPost pend c id σ σ2.
Proof.
  intros Hv [HI Ha Hb He Hl]. split; try done.
  - etrans; [apply Hv|done].
  - by rewrite He, (sv_entry _ _ Hv).
  - intros d i Hd Hn. destruct (Hl d i Hd Hn) as [-> ->]. by rewrite (sv_bst _ _ Hv), (sv_entry _ _ Hv).
Qed.

Definition put_type (t : AccessType) (s : MESIState) : Prop :=
  (t = PUTS /\ (s = S \/ s = E)) \/ (t = PUTX /\ s = M).

(** The bottom controller of the parent records the writeback. *)
Lemma bcc_put_spec acc pend σ c a id t cy src fl :
  Inv pend σ -> find σ c a = Some id -> arr_addr_ok (A:=A) a ->
  (t = PUTS /\ bst σ c id <> I) \/ (t = PUTX /\ excl (bst σ c id)) ->
  wp (bcc_processAccess cfg acc c a id t cy src fl) σ (fun resp σ' =>
    resp = cy /\ Inv pend σ' /\ same_arr σ σ' /\ bst σ' c id <> I /\
    (forall d i, ~ (d = c /\ i = id) -> bst σ' d i = bst σ d i) /\
    (forall d i, entry σ' d i = entry σ d i)).
Proof using WF.
  intros HI Hf Ha Ht. unfold bcc_processAccess. rewrite (wf_bypass _ _ _ WF). do 2 wp_step.
  wp_step. apply wp_mono with (Q := fun _ σ' => same_view σ σ').
  { wp_step; [intros _; wp_step; apply same_view_prof_inc|done]. }
  intros _ σ1 Hv. wp_step.
  apply wp_mono with (Q := fun resp σ2 => resp = cy /\
    exists τ, same_view τ σ2 /\ (τ = σ1 /\ bst σ c id <> I \/ τ = set_bst c id M σ1 /\ excl (bst σ c id))).
  { destruct Ht as [[-> Hb]|[-> Hx]].
    - wp_step. apply wp_assert; [by apply bool_decide_eq_true|]. do 3 wp_step. split; [done|].
      exists σ1. split; [apply same_view_prof_inc|by left].
    - wp_step. apply wp_assert; [by destruct Hx as [-> | ->]|]. wp_step.
      apply wp_mono with (Q := fun _ σ2 => σ2 = σ1 \/ σ2 = set_bst c id M σ1).
      + wp_step; [intros _; wp_step; by right|by left].
      + intros _ σ2 Hσ2. do 3 wp_step. split; [done|]. destruct Hσ2 as [-> | ->].
        * exists σ1. split; [apply same_view_prof_inc|left; split; [done|by apply excl_not_I]].
        * exists (set_bst c id M σ1). split; [apply same_view_prof_inc|by right]. }
  intros ? σ2 (-> & τ & Hv2 & Hτ). wp_step. apply wp_assert; [apply bool_decide_eq_true; lia|]. wp_step.
  split; [done|].
  assert (Inv pend σ1) as HI1 by (by eapply same_view_Inv).
  assert (Inv pend τ /\ same_arr σ1 τ /\ bst τ c id <> I /\
    (forall d i, ~ (d = c /\ i = id) -> bst τ d i = bst σ1 d i) /\
    (forall d i, entry τ d i = entry σ1 d i)) as (HIτ & Haτ & Hbτ & Hboτ & Heτ).
  { destruct Hτ as [[-> Hb]|[-> Hx]].
    - split_and!; [done|done|by rewrite (sv_bst _ _ Hv)|done|done].
    - split_and!.
      + eapply Inv_silent; [done| |done|by rewrite (sv_bst _ _ Hv)].
        by rewrite (sa_find _ _ (sv_arr _ _ Hv)).
      + apply same_arr_eq. intros. apply arr_set_bst.
      + by rewrite bst_set_bst, decide_True.
      + intros d i Hd. by rewrite bst_set_bst, decide_False by auto with damov.
      + intros. apply entry_set_bst. }
  split_and!.
  - by eapply same_view_Inv.
  - etrans; [apply Hv|]. etrans; [done|apply Hv2].
  - by rewrite (sv_bst _ _ Hv2).
  - intros d i Hd. by rewrite (sv_bst _ _ Hv2), Hboτ, (sv_bst _ _ Hv).
  - intros d i. by rewrite (sv_entry _ _ Hv2), Heτ, (sv_entry _ _ Hv).
Qed.

Lemma flags0 : has_flag 0 PREFETCH = false /\ has_flag 0 PUTX_KEEPEXCL = false.
Proof. done. Qed.

(** [Cache::access] with a PUT from a child that has no sharers of its own:
    it hits by inclusion, and does not go further up. *)
Lemma put_access_spec inv acc pend σ p a k ch idch t cy src :
  Inv pend σ -> arr_addr_ok (A:=A) a -> child_at a p k ch -> find σ ch a = Some idch ->
  sharers (entry σ ch idch) = ∅ -> put_type t (bst σ ch idch) -> 0 <= cy <= 2 * cycle_limit ->
  wp (Cache_access cfg inv acc p (mkReq a t k (LineState ch idch) cy (bst σ ch idch) src 0)) σ
    (fun resp σ' => cy <= resp /\ EvictPost pend ch idch σ σ').
Proof using WF NetworkOk0.
  intros HI Ha Hk Hfch Hemp Ht Hcy.
  assert (bst σ ch idch <> I) as Hb by (destruct Ht as [[_ [-> | ->]]|[_ ->]]; done).
  assert (lst σ ch a <> I) as Hl by by rewrite (lst_found _ _ _ _ Hfch).
  destruct (no_incl _ _ _ _ (inv_node _ _ _ HI a p) _ _ Hk Hl) as (id & Hfp & Hks).
  pose proof (no_entry _ _ _ _ (inv_node _ _ _ HI a p) _ Hfp) as HE.
  assert (bst σ p id <> I) as Hbp.
  { intros HbI. pose proof (eo_inv _ _ _ _ _ HE HbI). by eapply elem_nonempty. }
  destruct (find_tag _ _ _ _ _ _ HI Hfp) as [_ Hid].
  pose proof (kid_not_terminal _ _ _ _ Hk) as Hterm.
  unfold Cache_access. wp_step. apply start_spec; [done|by rewrite Hterm|].
  cbn [type IsGet]. wp_step.
  assert (IsGet t = false /\ IsPut t = true) as [Hget Hput] by (destruct Ht as [[-> _]|[-> _]]; done).
  wp_step. cbn [lineAddr]. rewrite Hget. eapply wp_lookup; [apply HI|done|done|].
  intros σ1 Hv. rewrite Hfp. change (default (-1) (Some id)) with id.
  rewrite bool_decide_false by lia. do 2 wp_step.
  assert (Inv pend σ1) as HI1 by (by eapply same_view_Inv).
  pose proof (sv_bst _ _ Hv) as Hb1. pose proof (sv_entry _ _ Hv) as He1.
  pose proof (sa_find _ _ (sv_arr _ _ Hv)) as Hf1.
  unfold cc_processAccess. rewrite Hterm. unfold mesicc_processAccess. do 2 wp_step.
  cbn [type flags lineAddr srcId childId state cycle].
  rewrite bool_decide_false by lia. unfold bcc_isValid. rewrite Hb1, (bool_decide_true _ Hbp), andb_false_r. cbn [orb andb].
  pose proof flags0 as [-> Hkeep]. wp_step. apply wp_assert; [done|]. wp_step.
  assert (excl (bst σ ch idch) -> excl (bst σ p id)) as Hxp.
  { intros Hx. destruct (eo_child _ _ _ _ _ HE k Hks) as (ch' & Hc' & _ & Hiff).
    rewrite (child_at_fun _ _ _ _ _ _ Hc' Hk), (lst_found _ _ _ _ Hfch) in Hiff.
    apply (eo_excl _ _ _ _ _ HE); [by apply Hiff|by eapply elem_nonempty]. }
  pose proof (wf_lat _ _ _ WF p) as [Hlat _].
  assert (u64 (cy + c_accLat (cfg p)) = cy + c_accLat (cfg p)) as Hu.
  { apply u64_id. unfold in_u64, in_u32, W64, W32, cycle_limit in *. lia. }
  rewrite Hu. eapply wp_mono; [apply (bcc_put_spec acc pend)|].
  { done. } { by rewrite Hf1. } { done. }
  { rewrite Hb1. destruct Ht as [[-> _]|[-> HM]]; [by left|right; split; [done|]]. apply Hxp. rewrite HM. by right. }
  intros resp σ2 (-> & HI2 & Ha2 & Hbp2 & Hbo2 & He2). do 2 wp_step. wp_step.
  assert (p <> ch) as Hne by (intros Heq; by apply (child_ne _ _ _ WF _ _ _ _ Hk)).
  assert (bst σ2 ch idch = bst σ ch idch) as Hbch.
  { rewrite Hbo2 by auto with damov. apply Hb1. }
  eapply wp_mono; [eapply (tcc_put_spec cfg level top WF inv pend σ2 p a id k ch idch t)|].
  { done. } { done. } { done. } { by rewrite (sa_find _ _ Ha2), Hf1. } { by rewrite (sa_find _ _ Ha2), Hf1. }
  { by rewrite He2, He1. } { by rewrite Hbch. }
  { rewrite Hbch. destruct Ht as [[-> _]|[-> HM]]; [by left|right; split; [done|]]. rewrite HM. by right. }
  { done. }
  intros [resp wb] σ3 (-> & -> & HI3 & Ha3 & Hb3 & Hm3 & Hbo3 & Heo3). cbn [when]. do 2 wp_step. wp_step.
  wp_step. apply wp_assert.
  { apply bool_decide_eq_true. unfold in_u32 in *. lia. }
  wp_step. split; [unfold in_u32 in *; lia|].
  pose proof (child_at_level _ _ _ WF _ _ _ _ Hk) as Hlev.
  split; try done.
  - etrans; [apply Hv|]. by etrans.
  - rewrite Heo3 by auto with damov. by rewrite He2, He1.
  - intros d i Hd Hn. assert (d <> p) as Hdp by (intros ->; lia).
    by rewrite Hbo3, Heo3, Hbo2, He2, Hb1, He1 by auto with damov.
Qed.

(** ** Requests to the next level *)

(** A parent cache's access method, as its children rely on it. *)
Definition PutSpec (n : nat) (acc : nat -> MemReq -> CM Z) : Prop :=
  forall pend σ p a k ch idch t cy src, (top - level p < n)%nat ->
    Inv pend σ -> arr_addr_ok (A:=A) a -> child_at a p k ch -> find σ ch a = Some idch ->
    sharers (entry σ ch idch) = ∅ -> put_type t (bst σ ch idch) -> 0 <= cy <= 2 * cycle_limit ->
    wp (acc p (mkReq a t k (LineState ch idch) cy (bst σ ch idch) src 0)) σ
      (fun resp σ' => cy <= resp /\ EvictPost pend ch idch σ σ').

Lemma wp_parent_of c a σ Q :
  (forall pr, getParent (cfg c) a = Some pr -> Q pr σ) -> wp (parent_of cfg c a) σ Q.
Proof using WF.
  intros HQ. unfold parent_of. destruct (getParent_total cfg level top WF c a) as [pr Hpr].
  rewrite Hpr. wp_step. auto.
Qed.

Lemma level_fuel c p n : (level c < level p)%nat -> (top - level c < Datatypes.S n)%nat -> (top - level p < n)%nat.
Proof using WF. intros. pose proof (wf_top _ _ _ WF p). lia. Qed.

(** Writing a line back to the next level. *)
Lemma request_put_spec n acc pend σ c a id t cy src :
  PutSpec n acc -> (top - level c < Datatypes.S n)%nat ->
  Inv pend σ -> arr_addr_ok (A:=A) a -> find σ c a = Some id ->
  sharers (entry σ c id) = ∅ -> put_type t (bst σ c id) -> 0 <= cy <= 2 * cycle_limit ->
  wp (request_up cfg acc c a id t cy src 0) σ (fun resp σ' => cy <= resp /\ EvictPost pend c id σ σ').
Proof using WF NetworkOk0.
  intros Hacc Hn HI Ha Hf Hemp Ht Hcy. unfold request_up. wp_step. apply wp_parent_of.
  intros [p|m] Hp; do 2 wp_step; simpl.
  - pose proof (parent_child _ _ _ WF _ _ _ Hp) as Hk. pose proof (child_at_level _ _ _ WF _ _ _ _ Hk).
    eapply Hacc; eauto using level_fuel.
  - set (r := mkReq _ _ _ _ _ _ _ _).
    pose proof (mem_access_ok m r (mem σ) (inv_mem _ _ _ HI) Hcy) as ([s' resp] & mm & Hrun & Hmm & Hs' & Hresp)%wp_ok.
    unfold wp. rewrite Hrun. split; [apply Hresp|].
    assert (s' = I) as -> by (destruct Ht as [[-> _]|[-> _]]; exact Hs').
    split.
    + eapply top_Inv; eauto.
    + apply same_arr_eq. intros. etrans; [apply arr_set_bst|done].
    + simpl. by rewrite bst_set_bst, decide_True.
    + etrans; [apply entry_set_bst|done].
    + intros d i _ Hd. simpl. rewrite bst_set_bst, decide_False by auto with damov. split; [done|].
      etrans; [apply entry_set_bst|done].
Qed.

(** [MESIBottomCC::processEviction]. *)
Lemma bcc_processEviction_spec n acc pend σ c a id wb cy src :
  PutSpec n acc -> (top - level c < Datatypes.S n)%nat -> Inv pend σ ->
  (bst σ c id <> I -> find σ c a = Some id /\ arr_addr_ok (A:=A) a) ->
  sharers (entry σ c id) = ∅ -> (wb = true -> excl (bst σ c id)) -> 0 <= cy <= 2 * cycle_limit ->
  wp (bcc_processEviction cfg acc c a id wb cy src) σ (fun resp σ' => cy <= resp /\ EvictPost pend c id σ σ').
Proof using WF NetworkOk0.
  intros Hacc Hn HI Hvalid Hemp Hwb Hcy. unfold bcc_processEviction. wp_step.
  apply wp_mono with (Q := fun _ σ1 => Inv pend σ1 /\ same_arr σ σ1 /\
    (bst σ c id <> I <-> bst σ1 c id <> I) /\ (forall d i, entry σ1 d i = entry σ d i) /\
    (forall d i, ~ (d = c /\ i = id) -> bst σ1 d i = bst σ d i)).
  { destruct wb; [|by wp_step]. pose proof (Hwb eq_refl) as Hx. pose proof (excl_not_I _ Hx) as HnI.
    destruct (Hvalid HnI) as [Hf Ha]. do 2 wp_step. wp_step.
    apply wp_assert; [by destruct Hx as [-> | ->]|]. wp_step. split_and!.
    - by eapply Inv_silent.
    - apply same_arr_eq. intros. apply arr_set_bst.
    - by rewrite bst_set_bst, decide_True.
    - intros. apply entry_set_bst.
    - intros d i Hd. by rewrite bst_set_bst, decide_False by auto with damov. }
  intros _ σ1 (HI1 & Ha1 & HbI & He1 & Hb1). do 3 wp_step.
  apply wp_mono with (Q := fun resp σ2 => cy <= resp /\ EvictPost pend c id σ1 σ2).
  { destruct (decide (bst σ1 c id = I)) as [HI0|HnI].
    - rewrite HI0. wp_step. split; [lia|]. by split.
    - destruct (Hvalid (proj2 HbI HnI)) as [Hf Ha]. rewrite <- (sa_find _ _ Ha1) in Hf. rewrite <- He1 in Hemp.
      destruct (bst σ1 c id) eqn:Hs; [done|..]; eapply request_put_spec; try done; rewrite Hs;
        [left; split; [done|by left]|left; split; [done|by right]|by right]. }
  intros resp σ2 [Hresp [HI2 Ha2 Hb2 He2 Hl2]]. do 2 wp_step. wp_step.
  apply wp_assert; [by apply bool_decide_eq_true|]. wp_step. split; [done|]. split; try done.
  - by etrans.
  - by rewrite He2.
  - intros d i Hd Hne. destruct (Hl2 d i Hd Hne) as [-> ->]. by rewrite Hb1, He1.
Qed.

(** A directory whose children may be exclusive is exclusive itself. *)
Lemma shared_dirty_excl pend σ c a id :
  Inv pend σ -> find σ c a = Some id -> dirty_in (shared_below cfg c a id σ) a σ -> excl (bst σ c id).
Proof.
  intros HI Hf (d & (j & ch & Hj & Hc & Hb) & HM).
  pose proof (no_entry _ _ _ _ (inv_node _ _ _ HI a c) _ Hf) as HE.
  destruct (eo_child _ _ _ _ _ HE j Hj) as (ch' & Hc' & _ & Hiff).
  rewrite (child_at_fun _ _ _ _ _ _ Hc' Hc) in Hiff.
  apply (eo_excl _ _ _ _ _ HE); [apply Hiff|by eapply elem_nonempty].
  destruct (decide (excl (lst σ ch a))) as [|Hx]; [done|].
  destruct (below_not_excl cfg σ a ch d); [intros; apply HI|done|done|]. rewrite HM. by right.
Qed.

(** Inclusion victims: after the children of a victim are invalidated. *)
Lemma evict_Inv pend σ c a id cy r σ' :
  Inv pend σ -> find σ c a = Some id -> arr_addr_ok (A:=A) a -> bst σ c id <> I ->
  SendPost cfg level INV c a id cy σ false r σ' ->
  Inv pend σ' /\ sharers (entry σ' c id) = ∅ /\ (r.2 = true -> excl (bst σ' c id)).
Proof using WF.
  intros HI Hf Ha Hb [Hsa Hm _ Hbc Hec Hin Hout _ Hwb]. simpl in Hec.
  pose proof (inv_node _ _ _ HI a c) as HNc. pose proof (no_entry _ _ _ _ HNc _ Hf) as HE.
  set (T := shared_below cfg c a id σ) in *.
  assert (forall d, T d -> d <> c) as HTc by (intros d Hd; apply (shared_below_below cfg level top WF) in Hd; apply Hd).
  assert (forall d, T d \/ ~ T d) as HTdec.
  { intros d. destruct (below_em _ _ _ WF a c d) as [Hbd|Hbd].
    - destruct (decide (d = c)) as [->|Hd]; [right; by intros ?%HTc|].
      by apply (shared_below_em cfg level top WF).
    - right. by intros [? _]%(shared_below_below cfg level top WF). }
  assert (forall j ch, child_at a c j ch -> T ch \/ lst σ ch a = I) as Hkids.
  { intros j ch Hc. destruct (decide (lst σ ch a = I)) as [|Hl]; [by right|left].
    destruct (no_incl _ _ _ _ HNc _ _ Hc Hl) as (id' & Hf' & Hj). replace id' with id in Hj by congruence.
    exists j, ch. split; [done|split; [exact Hc|constructor]]. }
  assert (forall d, d <> c -> ~ T d -> lst σ' d a = lst σ d a) as Hlst.
  { intros d Hd HT. apply lst_same; [done|]. intros i _. apply Hout; [auto with damov|by intros []]. }
  assert (forall d, T d -> lst σ' d a = I) as HlT.
  { intros d HT. unfold lst. rewrite (sa_find _ _ Hsa). destruct (find σ d a) as [i|] eqn:Hfi; [|done].
    by destruct (Hin d i HT Hfi). }
  split; [|split; [by rewrite Hec|]].
  - eapply (Inv_line cfg pend σ σ' a); try done; [rewrite Hm; apply HI|..].
    + intros d i Hne. apply Hout; [by intros [-> ->]|by intros []].
    + intros d i Hfd Hbd. destruct (decide (d = c)) as [->|Hd].
      { replace i with id by congruence. by rewrite Hec. }
      destruct (HTdec d) as [HT|HT]; [by destruct (Hin d i HT Hfd) as [_ ->]|].
      destruct (Hout d i) as [Hbe ->]; [auto with damov|by intros []|].
      apply HI. congruence.
    + intros d. destruct (decide (d = c)) as [->|Hd].
      { split.
        - intros i Hfi. rewrite (sa_find _ _ Hsa) in Hfi. replace i with id by congruence.
          split; rewrite ?Hec; [done|done|by intros ? ?%not_elem_of_empty|done].
        - intros j ch Hc Hl. destruct Hl. destruct (Hkids _ _ Hc) as [HT|Hl]; [by apply HlT|].
          destruct (HTdec ch); [by apply HlT|]. rewrite Hlst; try done. by eapply child_ne. }
      destruct (HTdec d) as [HT|HT].
      { eapply (NodeOK_eff cfg INV σ); [by left|apply HI|done|by intros; apply Hin|].
        intros j ch i Hc Hfi. apply Hin; [|done].
        destruct HT as (j' & c' & Hj & Hc' & Hb'). exists j', c'. split; [done|split; [exact Hc'|by econstructor]]. }
      eapply (NodeOK_upd cfg σ); [apply HI|done| |].
      * intros i Hfi. destruct (Hout d i) as [-> ->]; [auto with damov|by intros []|]. split; [done|].
        destruct (decide (bst σ d i = I)); [left; by apply HI|by right].
      * intros j ch Hc. destruct (decide (ch = c)) as [->|Hcc].
        { rewrite (lst_same σ σ'); [done|done|]. intros i Hfi. by replace i with id by congruence. }
        rewrite Hlst; [done|done|]. intros (j' & c' & Hj & Hc' & Hb').
        inversion Hb' as [|p' k' d' Hb'' Hc'']; subst.
        -- by destruct Hd, (child_at_inj _ _ _ WF _ _ _ _ _ _ Hc Hc').
        -- destruct (child_at_inj _ _ _ WF _ _ _ _ _ _ Hc Hc'') as [-> _]. apply HT.
           exists j', c'. split; [done|split; [exact Hc'|done]].
  - intros Hr. rewrite Hbc. eapply shared_dirty_excl; [done..|].
    by apply Hwb in Hr as [|].
Qed.
(** ** Evictions *)
Definition room (c : nat) (cy : Z) : Prop :=
  0 <= cy /\ cy + lat_bound * (Z.of_nat (level c) + 1) <= 2 * cycle_limit.

(** What evicting line [id] of [c] leaves: the line is invalid, and up to the
    level of [c] only copies of the victim have changed. *)
Record EvictedPost pend c (wb id : Z) σ σ' : Prop := {
  ed_inv : Inv pend σ';
  ed_arr : same_arr σ σ';
  ed_bst : bst σ' c id = I;
  ed_frame : forall d i, (level d <= level c)%nat -> ~ (d = c /\ i = id) ->
    bst σ c id = I \/ find σ d wb <> Some i -> bst σ' d i = bst σ d i /\ entry σ' d i = entry σ d i;
}.

Lemma terminal_sharers pend σ c id :
  Inv pend σ -> c_terminal (cfg c) = true -> sharers (entry σ c id) = ∅.
Proof using WF.
  intros HI Ht. destruct (decide (bst σ c id = I)) as [Hb|Hb]; [by apply HI|].
  destruct (inv_found _ _ _ HI c id Hb) as [Hf _].
  pose proof (no_entry _ _ _ _ (inv_node _ _ _ HI _ c) _ Hf) as HE.
  apply set_eq. intros k. split; [|by intros ?%not_elem_of_empty]. intros Hk.
  destruct (eo_child _ _ _ _ _ HE k Hk) as (ch & [Hc _] & _).
  by rewrite (wf_term _ _ _ WF _ Ht) in Hc.
Qed.

(** Invalidating the children of a victim. *)
Lemma tcc_processEviction_spec inv pend σ c id cy src :
  InvalSpec cfg level (level c) inv -> Inv pend σ -> room c cy ->
  wp (tcc_processEviction cfg inv c (tag σ c id) id false cy src) σ (fun r σ' =>
    Inv pend σ' /\ same_arr σ σ' /\ bst σ' c id = bst σ c id /\ sharers (entry σ' c id) = ∅ /\
    (r.2 = true -> excl (bst σ' c id)) /\ 0 <= r.1 <= 2 * cycle_limit /\
    (forall d i, ~ (d = c /\ i = id) -> bst σ c id = I \/ find σ d (tag σ c id) <> Some i ->
       bst σ' d i = bst σ d i /\ entry σ' d i = entry σ d i)).
Proof using WF NetworkOk0.
  intros Hinv HI [Hcy0 Hcy]. unfold tcc_processEviction. rewrite (wf_inclusive _ _ _ WF).
  assert (cy <= 2 * cycle_limit) as Hle by (unfold lat_bound, cycle_limit in *; lia).
  destruct (decide (bst σ c id = I)) as [Hb|Hb].
  - destruct (inv_stale _ _ _ HI c id Hb) as [Hs Hn]. unfold sendInvalidates. do 2 wp_step.
    rewrite bool_decide_false by done. cbn [andb]. unfold Entry_isEmpty. rewrite bool_decide_true by done. wp_step. by split_and!.
  - destruct (inv_found _ _ _ HI c id Hb) as [Hf Ha].
    eapply wp_mono; [apply (sendInvalidates_spec cfg level top WF); [done|]|].
    { eapply NodeOK_SendPre; eauto using inv_node, inv_any_arr. unfold room, lat_bound in *. lia. }
    intros r σ' HS. destruct (evict_Inv _ _ _ _ _ _ _ _ HI Hf Ha Hb HS) as (HI' & Hemp & Hwb).
    destruct HS as [Hsa _ _ Hbc _ _ Hout Hc _]. split_and!; try done; [lia|unfold lat_bound in *; lia|].
    intros d i Hne [?|Hfd]; [done|]. apply Hout; [done|by intros []].
Qed.

Lemma cc_processEviction_spec inv n acc pend σ c id cy r :
  InvalSpec cfg level (level c) inv -> PutSpec n acc -> (top - level c < Datatypes.S n)%nat ->
  Inv pend σ -> room c cy ->
  wp (cc_processEviction cfg inv acc c r (tag σ c id) id cy) σ
    (fun _ σ' => EvictedPost pend c (tag σ c id) id σ σ').
Proof using WF NetworkOk0.
  intros Hinv Hacc Hn HI Hcy. unfold cc_processEviction. destruct (c_terminal (cfg c)) eqn:Hterm.
  - eapply wp_mono; [eapply bcc_processEviction_spec; try done|].
    + apply HI.
    + by eapply terminal_sharers.
    + destruct Hcy. unfold lat_bound, cycle_limit in *. lia.
    + intros _ σ' [_ [HI' Ha Hb He Hl]]. split; try done. intros d i Hd Hne _. by apply Hl.
  - wp_step. eapply wp_mono; [by apply tcc_processEviction_spec|].
    intros [ev wb] σ1 (HI1 & Ha1 & Hb1 & Hs1 & Hwb & Hev & Hfr). cbn [fst snd] in *.
    eapply wp_mono; [eapply (bcc_processEviction_spec n acc pend σ1)|]; try done.
    + rewrite <- (sa_tag _ _ Ha1). intros Hb. by apply HI1.
    + intros _ σ' [_ [HI' Ha Hb He Hl]]. split; try done; [by etrans|].
      intros d i Hd Hne Hc. destruct (Hl d i Hd Hne) as [-> ->]. by apply Hfr.
Qed.
(** ** Making room for a line *)
Definition with_pend pend c (x : Z * Z) : nat -> option (Z * Z) :=
  fun d => if decide (d = c) then Some x else pend d.

(** A node keeps its invariant when the line it holds, if valid, is where it
    was, and its children hold what they held. *)
Lemma NodeOK_move σ σ' b d :
  (forall i, find σ' d b = Some i -> bst σ' d i <> I ->
     find σ d b = Some i /\ bst σ' d i = bst σ d i /\ entry σ' d i = entry σ d i) ->
  (forall i, find σ' d b = Some i -> bst σ' d i = I -> sharers (entry σ' d i) = ∅ /\ numSharers (entry σ' d i) = 0) ->
  (forall i, find σ d b = Some i -> bst σ d i <> I -> find σ' d b = Some i /\ entry σ' d i = entry σ d i) ->
  (forall k ch, child_at b d k ch -> lst σ' ch b = lst σ ch b) ->
  NodeOK σ b d -> NodeOK σ' b d.
Proof.
  intros Hv Hs Hf Hch HN. split.
  - intros i Hfi. destruct (decide (bst σ' d i = I)) as [Hb|Hb].
    + destruct (Hs i Hfi Hb) as [He Hn]. split; rewrite ?He, ?Hn; [done|done|by intros ? ?%not_elem_of_empty|done].
    + destruct (Hv i Hfi Hb) as (Hf0 & Hb0 & He). destruct (no_entry _ _ _ _ HN _ Hf0) as [Hc Hi Hk Hx].
      split; rewrite ?He, ?Hb0; try done. intros k Hks. destruct (Hk k Hks) as (ch & Hcc & Hl). exists ch.
      by rewrite (Hch _ _ Hcc).
  - intros k ch Hc Hl. rewrite (Hch _ _ Hc) in Hl.
    destruct (no_incl _ _ _ _ HN _ _ Hc Hl) as (i & Hfi & Hk). exists i.
    destruct (Hf i Hfi) as [? ->]; [|done]. intros Hb.
    pose proof (eo_inv _ _ _ _ _ (no_entry _ _ _ _ HN _ Hfi) Hb). by eapply elem_nonempty.
Qed.

(** An array operation on [c] that keeps every valid line where it is. *)
Lemma Inv_set_arr pend pend' σ c s' :
  Inv pend σ -> arr_inv (pend' c) s' -> (forall d, d <> c -> pend' d = pend d) ->
  (forall b i, bst σ c i <> I -> find σ c b = Some i -> arr_find s' b = Some i /\ arr_tag s' i = arr_tag (arr (cache_of σ c)) i) ->
  (forall b i, arr_find s' b = Some i -> bst σ c i <> I -> find σ c b = Some i) ->
  Inv pend' (set_arr c s' σ).
Proof.
  intros HI Hs' Hp Hfwd Hbwd. set (σ' := set_arr c s' σ).
  assert (forall d i, bst σ' d i = bst σ d i) as Hb by (intros; apply bst_set_arr).
  assert (forall d i, entry σ' d i = entry σ d i) as He by (intros; apply entry_set_arr).
  assert (forall b, find σ' c b = arr_find s' b) as Hfc.
  { intros b. unfold find, σ'. by rewrite arr_set_arr, decide_True. }
  assert (forall d b, d <> c -> find σ' d b = find σ d b) as Hfo.
  { intros d b Hd. unfold find, σ'. by rewrite arr_set_arr, decide_False. }
  assert (forall d b, lst σ' d b = lst σ d b) as Hl.
  { intros d b. destruct (decide (d = c)) as [->|Hd]; unfold lst; [|rewrite Hfo by done; by destruct (find σ d b)].
    rewrite Hfc. destruct (find σ c b) as [i|] eqn:Hf.
    - destruct (decide (bst σ c i = I)) as [Hi|Hi]; [|by destruct (Hfwd b i Hi Hf) as [-> _]].
      destruct (arr_find s' b) as [j|] eqn:Hf'; [|done]. rewrite Hb.
      destruct (decide (bst σ c j = I)) as [|Hj]; [congruence|]. specialize (Hbwd b j Hf' Hj). congruence.
    - destruct (arr_find s' b) as [j|] eqn:Hf'; [|done]. rewrite Hb.
      destruct (decide (bst σ c j = I)) as [|Hj]; [done|]. specialize (Hbwd b j Hf' Hj). congruence. }
  split.
  - intros d. unfold σ'. rewrite arr_set_arr. case_decide as Hd; [by subst|]. rewrite Hp by done. apply HI.
  - intros d i. rewrite Hb. intros Hi. destruct (inv_found _ _ _ HI d i Hi) as [Hf Ha].
    destruct (decide (d = c)) as [->|Hd].
    + destruct (Hfwd _ _ Hi Hf) as [Hf' Ht]. unfold tag, σ' at 2 3.
      rewrite arr_set_arr, decide_True, Hfc, Ht by done. done.
    + unfold tag, σ' at 2 3. rewrite arr_set_arr, decide_False, Hfo by done. done.
  - intros d i. rewrite Hb, He. apply HI.
  - intros b d. apply (NodeOK_move σ σ'); [| | |by intros|apply HI].
    + intros i Hf Hi. rewrite Hb in Hi |- *. split; [|done]. destruct (decide (d = c)) as [->|Hd].
      * rewrite Hfc in Hf. auto.
      * by rewrite Hfo in Hf.
    + intros i _. rewrite Hb, He. apply HI.
    + intros i Hf Hi. split; [|done]. destruct (decide (d = c)) as [->|Hd].
      * rewrite Hfc. by apply Hfwd.
      * by rewrite Hfo.
  - apply HI.
Qed.

(** What [Cache_allocate] leaves: the line is in the array, invalid, and the
    copies of the line below are untouched. *)
Record AllocPost pend c a (id : Z) σ σ' : Prop := {
  al_inv : Inv pend σ';
  al_id : 0 <= id;
  al_find : find σ' c a = Some id;
  al_bst : bst σ' c id = I;
  al_other : forall d b, d <> c -> find σ' d b = find σ d b;
  al_frame : forall d i, (level d <= level c)%nat -> d <> c -> find σ d a = Some i ->
    bst σ' d i = bst σ d i /\ entry σ' d i = entry σ d i;
}.

Lemma find_set_arr c s σ d b :
  find (set_arr c s σ) d b = if decide (d = c) then arr_find s b else find σ d b.
Proof. unfold find. rewrite arr_set_arr. case_decide; case_decide; congruence. Qed.
Lemma tag_set_arr c s σ d i :
  tag (set_arr c s σ) d i = if decide (d = c) then arr_tag s i else tag σ d i.
Proof. unfold tag. rewrite arr_set_arr. case_decide; case_decide; congruence. Qed.

Lemma Cache_allocate_spec inv n acc pend σ c a cy r :
  InvalSpec cfg level (level c) inv -> PutSpec n acc -> (top - level c < Datatypes.S n)%nat ->
  Inv pend σ -> pend c = None -> room c cy -> arr_addr_ok (A:=A) a -> find σ c a = None -> lineAddr r = a ->
  wp (Cache_allocate cfg inv acc c r cy) σ (fun id σ' => AllocPost pend c a id σ σ').
Proof using WF NetworkOk0.
  intros Hinv Hacc Hn HI Hp Hcy Ha Hf <-. unfold Cache_allocate. do 2 wp_step. wp_step. apply wp_on_arr.
  pose proof (inv_arr _ _ _ HI c) as Harr. rewrite Hp in Harr.
  eapply wp_mono; [by apply (arr_preinsert_ok _ (repl_view cfg σ c) (lineAddr r) r)|].
  intros [id wb] s1 (Hs1 & Hid & -> & Hf1 & Ht1).
  set (σ1 := set_arr c s1 σ). set (a := lineAddr r) in *.
  assert (forall d b, find σ1 d b = find σ d b) as Hfs1.
  { intros d b. unfold σ1. rewrite find_set_arr. case_decide; [subst; apply Hf1|done]. }
  assert (forall d i, tag σ1 d i = tag σ d i) as Hts1.
  { intros d i. unfold σ1. rewrite tag_set_arr. case_decide; [subst; apply Ht1|done]. }
  assert (Inv (with_pend pend c (a, id)) σ1) as HI1.
  { apply (Inv_set_arr pend); try done.
    - unfold with_pend. by rewrite decide_True.
    - intros d Hd. unfold with_pend. by rewrite decide_False.
    - intros b i _ Hfb. rewrite Hf1, Ht1. done.
    - intros b i. by rewrite Hf1. }
  change (arr_tag (arr (cache_of σ c)) id) with (tag σ c id). rewrite <- Hts1. wp_step.
  eapply wp_mono; [by eapply cc_processEviction_spec|].
  intros _ σ2 [HI2 Ha2 Hb2 Hfr2]. wp_step. apply wp_on_arr.
  pose proof (inv_arr _ _ _ HI2 c) as Harr2. unfold with_pend in Harr2. rewrite decide_True in Harr2 by done.
  assert (find σ2 c a = None) as Hf2 by (by rewrite (sa_find _ _ Ha2), Hfs1).
  eapply wp_mono; [by apply (arr_postinsert_ok _ a id r)|].
  intros _ s3 (Hs3 & Hf3 & Htag3 & Hto3 & Hfo3). wp_step.
  assert (Inv pend (set_arr c s3 σ2)) as HI3.
  { apply (Inv_set_arr (with_pend pend c (a, id))); try done.
    - by rewrite Hp.
    - intros d Hd. unfold with_pend. by rewrite decide_False.
    - intros b i Hi Hfb. assert (i <> id) by congruence. split; [by apply Hfo3|by apply Hto3].
    - intros b i Hfb Hi. assert (i <> id) as Hne by congruence.
      destruct (arr_find_tag _ _ _ _ Hs3 Hfb) as [Htb _]. rewrite Hto3 in Htb by done.
      destruct (inv_found _ _ _ HI2 c i Hi) as [Hfi _]. unfold tag in Hfi. by rewrite Htb in Hfi. }
  split; try done.
  - by rewrite find_set_arr, decide_True.
  - by rewrite bst_set_arr.
  - intros d b Hd. rewrite find_set_arr, decide_False by done. by rewrite (sa_find _ _ Ha2), Hfs1.
  - intros d i Hd Hdc Hfd. rewrite bst_set_arr, entry_set_arr.
    destruct (Hfr2 d i Hd) as [-> ->]; [auto with damov| |unfold σ1; by rewrite bst_set_arr, entry_set_arr].
    destruct (decide (bst σ1 c id = I)) as [|Hv]; [by left|right]. rewrite <- Hfs1 in Hfd. intros Hfw.
    destruct (inv_found _ _ _ HI1 c id Hv) as [Hfc _]. pose proof (find_inj cfg _ _ _ _ _ _ HI1 Hfd Hfw) as Heq.
    rewrite Hts1 in Heq, Hfc. rewrite <- Heq, Hfs1 in Hfc. congruence.
Qed.

(** ** Getting a line *)

(** The permission a request ends with. *)
Definition perm (t : AccessType) (s : MESIState) : Prop :=
  match t with GETX => s = M | _ => s <> I end.
(** The state that the next level answers a miss with. *)
Definition answers (t : AccessType) (s : MESIState) : Prop :=
  match t with GETX => s = M | _ => s = S \/ s = E end.
(** The states from which a controller sends a GETS or a GETX upwards. *)
Definition asks (t : AccessType) (s : MESIState) : Prop :=
  (t = GETS /\ s = I) \/ (t = GETX /\ (s = I \/ s = S)).

(** Cycles a request may carry at [c], so that no level above overflows. *)
Definition access_room (c : nat) (cy : Z) : Prop :=
  0 <= cy /\ cy + W32 * (Z.of_nat top - Z.of_nat (level c)) <= cycle_limit.

(** The same, for a request that has paid the access latency of [c]. *)
Definition up_room (c : nat) (cy : Z) : Prop :=
  0 <= cy /\ cy - W32 + W32 * (Z.of_nat top - Z.of_nat (level c)) <= cycle_limit.

Record GrantPost (P : MESIState -> Prop) a c (id : Z) σ σ' : Prop := {
  gr_inv : Inv no_pend σ';
  gr_perm : P (bst σ' c id);
  gr_find : forall d b, (level d <= level c)%nat -> find σ' d b = find σ d b;
  gr_frame : kid_frame cfg a c σ σ';
}.

Definition AccGetSpec (n : nat) (acc : nat -> MemReq -> CM Z) : Prop :=
  forall σ p a k ch idch t cy src fl, (top - level p < n)%nat ->
    Inv no_pend σ -> arr_addr_ok (A:=A) a -> child_at a p k ch -> find σ ch a = Some idch ->
    asks t (bst σ ch idch) -> access_room p cy -> demand_flags fl ->
    wp (acc p (mkReq a t k (LineState ch idch) cy (bst σ ch idch) src fl)) σ
      (fun resp σ' => cy <= resp /\ GrantPost (answers t) a ch idch σ σ').

Lemma kid_frame_refl a c σ : kid_frame cfg a c σ σ.
Proof. by intros d i _ _. Qed.

Lemma GrantPost_view P a c id σ σ1 σ2 :
  GrantPost P a c id σ σ1 -> same_view σ1 σ2 -> GrantPost P a c id σ σ2.
Proof.
  intros [HI Hp Hf Hk] Hv. split.
  - by eapply same_view_Inv.
  - by rewrite (sv_bst _ _ Hv).
  - intros d b Hd. rewrite (sa_find _ _ (sv_arr _ _ Hv)). auto.
  - intros d i Hb Hfd. rewrite (sv_bst _ _ Hv), (sv_entry _ _ Hv). by apply Hk.
Qed.

Lemma GrantPost_view_l P a c id σ σ1 σ2 :
  same_view σ σ1 -> GrantPost P a c id σ1 σ2 -> GrantPost P a c id σ σ2.
Proof.
  intros Hv [HI Hp Hf Hk]. split; try done.
  - intros d b Hd. by rewrite Hf, (sa_find _ _ (sv_arr _ _ Hv)).
  - intros d i Hb Hfd. rewrite <- (sa_find _ _ (sv_arr _ _ Hv)) in Hfd.
    rewrite <- (sv_bst _ _ Hv), <- (sv_entry _ _ Hv). by apply Hk.
Qed.

(** The request to the parent, a cache or a memory. *)
Lemma request_get_spec n acc σ c a id t cy src fl :
  AccGetSpec n acc -> (top - level c < Datatypes.S n)%nat -> Inv no_pend σ -> arr_addr_ok (A:=A) a ->
  find σ c a = Some id -> asks t (bst σ c id) -> up_room c cy -> demand_flags fl ->
  wp (request_up cfg acc c a id t cy src fl) σ (fun resp σ' => cy <= resp /\ GrantPost (answers t) a c id σ σ').
Proof using WF NetworkOk0.
  intros Hacc Hn HI Ha Hf Ht [Hcy0 Hcy] Hfl. unfold request_up. wp_step. apply wp_parent_of.
  intros [p|m] Hp; do 2 wp_step; simpl.
  - pose proof (parent_child _ _ _ WF _ _ _ Hp) as Hk. pose proof (child_at_level _ _ _ WF _ _ _ _ Hk).
    eapply Hacc; eauto using level_fuel. split; [done|]. unfold W32 in *. lia.
  - set (r := mkReq _ _ _ _ _ _ _ _). pose proof (wf_top _ _ _ WF c) as Htop.
    assert (0 <= cycle r <= 2 * cycle_limit) as Hcr by (simpl; unfold W32, cycle_limit in *; lia).
    pose proof (mem_access_ok m r (mem σ) (inv_mem _ _ _ HI) Hcr) as ([s' resp] & mm & Hrun & Hmm & Hs' & Hresp)%wp_ok.
    unfold wp. rewrite Hrun. split; [apply Hresp|].
    assert (answers t s' /\ s' <> I /\ (excl (bst σ c id) -> excl s')) as (Hpm & HnI & Hx).
    { destruct Ht as [[-> Hs]|[-> Hs]]; simpl in Hs' |- *; [|subst s'; split_and!; [done|done|by right]].
      destruct (has_flag fl NOEXCL); subst s'; (split_and!; [by auto|done|]); rewrite Hs; by intros []. }
    split.
    + eapply top_Inv; eauto.
    + simpl. by rewrite bst_set_bst, decide_True.
    + intros d b _. unfold find. f_equal. etrans; [apply arr_set_bst|done].
    + intros d i Hb Hfd. split; [etrans; [apply entry_set_bst|done]|].
      intros Hd. simpl. by rewrite bst_set_bst, decide_False by auto with damov.
Qed.

(** [MESIBottomCC::processAccess]'s miss path. *)
Lemma bcc_fetch_spec n acc σ c a id t cy src fl :
  AccGetSpec n acc -> (top - level c < Datatypes.S n)%nat -> Inv no_pend σ -> arr_addr_ok (A:=A) a ->
  find σ c a = Some id -> asks t (bst σ c id) -> up_room c cy -> demand_flags fl ->
  wp (bcc_fetch cfg acc c a id t cy src fl) σ
    (fun resp σ' => cy <= resp <= cy + W32 /\ GrantPost (answers t) a c id σ σ').
Proof using WF NetworkOk0.
  intros Hacc Hn HI Ha Hf Ht Hcy Hfl. unfold bcc_fetch. wp_step. apply wp_parent_of. intros p _.
  wp_step. eapply wp_mono; [by eapply request_get_spec|]. intros resp σ1 [Hresp HG].
  wp_step. apply wp_net_rtt. intros rtt σ2 Hrtt Hv. do 5 wp_step. split.
  - pose proof (u32_range (u32 (resp - cy) + rtt)) as Hr. destruct Hcy as [Hcy0 Hcy].
    pose proof (wf_top _ _ _ WF c). unfold in_u32 in Hr.
    rewrite u64_id; [lia|]. unfold in_u64, W64, W32, cycle_limit in *. lia.
  - eapply GrantPost_view; [by eapply GrantPost_view|].
    etrans; apply same_view_prof_inc.
Qed.

Lemma GrantPost_hit (P : MESIState -> Prop) a c id σ : Inv no_pend σ -> P (bst σ c id) -> GrantPost P a c id σ σ.
Proof. intros. by split. Qed.

Lemma GrantPost_silent a c id σ :
  Inv no_pend σ -> arr_addr_ok (A:=A) a -> find σ c a = Some id -> excl (bst σ c id) ->
  GrantPost (answers GETX) a c id σ (set_bst c id M σ).
Proof using WF.
  intros HI Ha Hf Hx. split.
  - by eapply Inv_silent.
  - simpl. by rewrite bst_set_bst, decide_True.
  - intros d b _. unfold find. f_equal. apply arr_set_bst.
  - intros d i Hb Hfd. rewrite entry_set_bst. split; [done|]. intros Hd.
    by rewrite bst_set_bst, decide_False by auto with damov.
Qed.

Lemma bcc_get_spec n acc σ c a id t cy src fl :
  AccGetSpec n acc -> (top - level c < Datatypes.S n)%nat -> Inv no_pend σ -> arr_addr_ok (A:=A) a ->
  find σ c a = Some id -> IsGet t = true -> up_room c cy -> demand_flags fl ->
  wp (bcc_processAccess cfg acc c a id t cy src fl) σ
    (fun resp σ' => cy <= resp <= cy + W32 /\ GrantPost (perm t) a c id σ σ').
Proof using WF NetworkOk0.
  intros Hacc Hn HI Ha Hf Ht Hcy Hfl. unfold bcc_processAccess. rewrite (wf_bypass _ _ _ WF). do 2 wp_step.
  wp_step. apply wp_mono with (Q := fun _ σ' => same_view σ σ').
  { wp_step; [intros _; wp_step; apply same_view_prof_inc|done]. }
  intros _ σ1 Hv. wp_step.
  assert (cy <= cy <= cy + W32) as Hself by (unfold W32; lia).
  apply wp_mono with (Q := fun resp σ' => cy <= resp <= cy + W32 /\ GrantPost (perm t) a c id σ σ').
  2:{ intros resp σ' [Hr HG]. wp_step. apply wp_assert; [apply bool_decide_eq_true; lia|]. by wp_step. }
  apply wp_mono with (Q := fun resp σ' => cy <= resp <= cy + W32 /\ GrantPost (perm t) a c id σ1 σ').
  2:{ intros resp σ' [Hr HG]. split; [done|]. by eapply GrantPost_view_l. }
  assert (Inv no_pend σ1) as HI1 by (by eapply same_view_Inv).
  rewrite <- (sa_find _ _ (sv_arr _ _ Hv)) in Hf. rewrite <- (sv_bst _ _ Hv).
  clear σ Hv HI. rename σ1 into σ, HI1 into HI.
  destruct t; [| |done..].
  - case_decide as Hb.
    + wp_step. eapply wp_mono; [eapply bcc_fetch_spec; try done; by left|].
      intros resp σ' [Hr HG]. do 4 wp_step. wp_step.
      pose proof (gr_perm _ _ _ _ _ _ HG) as Hp. simpl in Hp. rewrite bst_prof_inc.
      eapply wp_mono; [eapply (wp_assert _ _ (fun _ σ'' => σ'' = _)); [|reflexivity]|].
      { by destruct Hp as [-> | ->]. }
      intros _ ? ->. wp_step. split; [done|]. destruct HG as [? HP ? ?]. simpl in HP.
      assert (bst σ' c id <> I) by (by destruct HP as [-> | ->]).
      eapply GrantPost_view; [by split|apply same_view_prof_inc].
    + do 3 wp_step. split; [done|]. eapply GrantPost_view; [by apply GrantPost_hit|apply same_view_prof_inc].
  - wp_step. apply wp_mono with (Q := fun resp σ' => cy <= resp <= cy + W32 /\ GrantPost (answers GETX) a c id σ σ').
    2:{ intros resp σ' [Hr HG]. do 2 wp_step. wp_step. apply wp_assert.
        - apply bool_decide_eq_true. apply HG.
        - by wp_step. }
    destruct (bool_decide (bst σ c id = I) || bool_decide (bst σ c id = S)) eqn:Hb.
    + apply orb_true_iff in Hb. rewrite !bool_decide_eq_true in Hb. do 2 wp_step.
      set (ctr := if decide _ then profGETXMissIM else profGETXMissSM).
      pose proof (same_view_prof_inc c ctr 1 σ) as Hv.
      eapply wp_mono; [eapply (bcc_fetch_spec n acc (prof_inc c ctr 1 σ)); try done|].
      * by eapply same_view_Inv.
      * by rewrite (sa_find _ _ (sv_arr _ _ Hv)).
      * rewrite (sv_bst _ _ Hv). by right.
      * intros resp σ' [Hr HG]. split; [done|]. by eapply GrantPost_view_l.
    + apply orb_false_iff in Hb. rewrite !bool_decide_eq_false in Hb. destruct Hb as [HbI HbS].
      assert (excl (bst σ c id)) as Hx by (destruct (bst σ c id); [done|done|by left|by right]).
      wp_step. apply wp_mono with (Q := fun _ σ' => GrantPost (answers GETX) a c id σ σ').
      { wp_step.
        - intros _. wp_step. by apply GrantPost_silent.
        - intros HE%bool_decide_eq_false. apply GrantPost_hit; [done|]. by destruct Hx. }
      intros _ σ' HG. do 3 wp_step. split; [done|]. eapply GrantPost_view; [done|apply same_view_prof_inc].
Qed.

(** ** [Cache::access] for a demand GETS or GETX *)

(** The line is in the array once the miss branch is done. *)
Record PlacePost a c (id : Z) σ σ' : Prop := {
  pl_inv : Inv no_pend σ';
  pl_id : 0 <= id;
  pl_find : find σ' c a = Some id;
  pl_other : forall d b, d <> c -> find σ' d b = find σ d b;
  pl_frame : forall d i, (level d <= level c)%nat -> d <> c -> find σ d a = Some i ->
    bst σ' d i = bst σ d i /\ entry σ' d i = entry σ d i;
}.

Lemma place_spec inv n acc σ c cy r :
  InvalSpec cfg level (level c) inv -> PutSpec n acc -> (top - level c < Datatypes.S n)%nat ->
  Inv no_pend σ -> room c cy -> arr_addr_ok (A:=A) (lineAddr r) -> IsGet (type r) = true ->
  let id := default (-1) (find σ c (lineAddr r)) in
  wp (if bool_decide (id = -1) then
        alloc ← cc_shouldAllocate cfg c r;
        if (alloc : bool) then Cache_allocate cfg inv acc c r cy else mret id
      else mret id) σ (fun id σ' => PlacePost (lineAddr r) c id σ σ').
Proof using WF NetworkOk0.
  intros Hinv Hacc Hn HI Hcy Ha Ht id'. subst id'. destruct (find σ c (lineAddr r)) as [id|] eqn:Hf.
  - destruct (find_tag _ _ _ _ _ _ HI Hf) as [_ Hid]. change (default (-1) (Some id)) with id.
    rewrite bool_decide_false by lia. wp_step. by split.
  - change (default (-1) None) with (-1). rewrite bool_decide_true by done. wp_step.
    unfold cc_shouldAllocate. rewrite Ht.
    assert (forall Q : bool -> Sys -> Prop, Q true σ -> wp (if c_terminal (cfg c) then mret true else mret true) σ Q) as Htrue.
    { intros Q HQ. by destruct (c_terminal (cfg c)). }
    apply Htrue. eapply wp_mono; [by eapply Cache_allocate_spec|]. intros id σ' []. by split.
Qed.

Lemma kid_frame_trans a c σ1 σ2 σ3 :
  (forall d, below a c d -> find σ2 d a = find σ1 d a) ->
  kid_frame cfg a c σ1 σ2 -> kid_frame cfg a c σ2 σ3 -> kid_frame cfg a c σ1 σ3.
Proof.
  intros Hf H1 H2 d i Hb Hfd. destruct (H1 d i Hb Hfd) as [<- Hb1].
  rewrite <- Hf in Hfd by done. destruct (H2 d i Hb Hfd) as [<- Hb2]. split; [done|].
  intros Hd. rewrite Hb2 by done. auto.
Qed.

(** The requester's subtree, seen from a frame of the whole subtree of the parent. *)
Lemma kid_frame_child a p k ch σ σ' :
  child_at a p k ch -> kid_frame cfg a p σ σ' -> kid_frame cfg a ch σ σ' /\
  (forall i, find σ ch a = Some i -> bst σ' ch i = bst σ ch i).
Proof using WF.
  intros Hk Hf. split.
  - intros d i Hb Hfd. destruct (Hf d i) as [-> Hb']; [by eapply below_child|done|]. split; [done|].
    intros _. apply Hb'. intros ->. by eapply below_not_child.
  - intros i Hfd. destruct (Hf ch i) as [_ Hb]; [|done|].
    + by eapply below_step; [apply below_refl|].
    + apply Hb. by eapply child_ne.
Qed.

Lemma access_room_level c cy : access_room c cy -> 0 <= cy <= cycle_limit - W32.
Proof using WF. intros [? ?]. pose proof (wf_top _ _ _ WF c). unfold W32 in *. lia. Qed.

Lemma slack c : lat_bound * (Z.of_nat (level c) + 1) <= cycle_limit - 2 ^ 40.
Proof using WF.
  pose proof (wf_top _ _ _ WF c). pose proof (wf_top_bound _ _ _ WF). unfold lat_bound, cycle_limit. nia.
Qed.

(** The directory's part, for any demand get from a child. *)
Lemma tcc_get_spec inv σ c a id k ch idch t cy src fl :
  InvalSpec cfg level (level c) inv -> Inv no_pend σ -> arr_addr_ok (A:=A) a -> child_at a c k ch ->
  find σ c a = Some id -> find σ ch a = Some idch -> perm t (bst σ c id) -> asks t (bst σ ch idch) ->
  0 <= cy /\ cy + lat_bound * (Z.of_nat (level c) + 1) <= 2 * cycle_limit + 2 ^ 32 ->
  wp (tcc_processAccess cfg inv c a id t k (isExclusive σ c id) (LineState ch idch) cy src fl) σ
    (fun '(resp, wb) σ' => GetPost cfg level no_pend c a id ch cy resp wb σ σ' /\ answers t (bst σ' ch idch)).
Proof using WF NetworkOk0.
  intros Hinv HI Ha Hk Hf Hfch Hp Ht Hcy. destruct Ht as [[-> Hb]|[-> Hb]]; simpl in Hp.
  - eapply wp_mono; [by eapply (tcc_GETS_spec cfg level top WF)|]. by intros [resp wb] σ' [? ?].
  - assert (excl (bst σ c id)) as Hx by (rewrite Hp; by right).
    assert (bst σ c id <> I) as HnI by (by rewrite Hp).
    eapply wp_mono; [by eapply (tcc_GETX_spec cfg level top WF)|]. by intros [resp wb] σ' [? ?].
Qed.

(** [processWritebackOnAccess], after the directory's part. *)
Lemma writeback_spec pend σ c a id wb :
  Inv pend σ -> arr_addr_ok (A:=A) a -> find σ c a = Some id -> (wb = true -> excl (bst σ c id)) ->
  wp (when wb (bcc_processWritebackOnAccess c id)) σ (fun _ σ' =>
    Inv pend σ' /\ same_arr σ σ' /\ (forall d i, d <> c -> bst σ' d i = bst σ d i) /\
    (forall d i, entry σ' d i = entry σ d i)).
Proof using WF.
  intros HI Ha Hf Hwb. wp_step; [|done]. intros Hx%Hwb. unfold bcc_processWritebackOnAccess. do 2 wp_step.
  wp_step. apply wp_assert; [by destruct Hx as [-> | ->]|]. wp_step; [|done]. intros _. wp_step. split_and!.
  - by eapply Inv_silent.
  - apply same_arr_eq. intros. apply arr_set_bst.
  - intros d i Hd. by rewrite bst_set_bst, decide_False by auto with damov.
  - intros. apply entry_set_bst.
Qed.

Lemma mesicc_get_spec inv n acc σ p a id k ch idch t cy cy0 src fl :
  InvalSpec cfg level (level p) inv -> AccGetSpec n acc -> (top - level p < Datatypes.S n)%nat ->
  Inv no_pend σ -> arr_addr_ok (A:=A) a -> child_at a p k ch -> find σ ch a = Some idch ->
  find σ p a = Some id -> 0 <= id -> asks t (bst σ ch idch) -> up_room p cy -> demand_flags fl ->
  wp (mesicc_processAccess cfg inv acc p (mkReq a t k (LineState ch idch) cy0 (bst σ ch idch) src fl) id cy) σ
    (fun resp σ' => cy <= resp /\ GrantPost (answers t) a ch idch σ σ').
Proof using WF NetworkOk0.
  intros Hinv Hacc Hn HI Ha Hk Hfch Hf Hid Ht Hcy Hfl. unfold mesicc_processAccess. do 2 wp_step.
  cbn [type flags lineAddr srcId childId state].
  assert (IsPut t = false /\ IsGet t = true) as [-> Hget] by (destruct Ht as [[-> _]|[-> _]]; done).
  rewrite bool_decide_false by lia. cbn [orb andb].
  rewrite (proj1 Hfl). wp_step. apply wp_assert; [done|]. wp_step.
  eapply wp_mono; [by eapply bcc_get_spec, demand_flags_land|].
  intros resp1 σ3 [Hr1 HG]. pose proof (child_at_level _ _ _ WF _ _ _ _ Hk) as Hlev.
  assert (forall d, below a ch d -> find σ3 d a = find σ d a) as Hfind3.
  { intros d Hb. apply HG. apply (below_level _ _ _ WF) in Hb as [? _]. lia. }
  destruct (kid_frame_child _ _ _ _ _ _ Hk (gr_frame _ _ _ _ _ _ HG)) as [Hkf Hbch].
  assert (find σ3 p a = Some id) as Hf3 by (by rewrite (gr_find _ _ _ _ _ _ HG)).
  do 2 wp_step. wp_step. rewrite <- (Hbch _ Hfch) in Ht. rewrite <- (Hfind3 ch) in Hfch by constructor.
  eapply wp_mono; [eapply (tcc_get_spec inv σ3); try done|].
  { apply HG. } { apply HG. }
  { destruct Hcy as [Hcy0 Hcy]. pose proof (slack p). pose proof (wf_top _ _ _ WF p).
    unfold W32, cycle_limit in *. lia. }
  intros [resp wb] σ4 [[HI4 Ha4 Hb4 Hwb Hc4 Hk4] Hans]. wp_step.
  eapply wp_mono; [eapply (writeback_spec no_pend σ4 p a id wb); try done|].
  { by rewrite (sa_find _ _ Ha4). } { by rewrite Hb4. }
  intros _ σ5 (HI5 & Ha5 & Hb5 & He5). wp_step. split; [lia|].
  assert (p <> ch) as Hne by (intros Heq; by apply (child_ne _ _ _ WF _ _ _ _ Hk)).
  split; [done|by rewrite Hb5 by done|..].
  - intros d b Hd. rewrite (sa_find _ _ Ha5), (sa_find _ _ Ha4). apply HG. lia.
  - eapply kid_frame_trans; [exact Hfind3|done|].
    intros d i Hb Hfd. destruct (Hk4 d i Hb Hfd) as [<- Hbd]. rewrite He5. split; [done|].
    intros Hd. rewrite Hb5 by (intros ->; by eapply below_not_child). auto.
Qed.

Lemma get_access_spec inv n acc σ p a k ch idch t cy src fl :
  InvalSpec cfg level (level p) inv -> PutSpec n acc -> AccGetSpec n acc -> (top - level p < Datatypes.S n)%nat ->
  Inv no_pend σ -> arr_addr_ok (A:=A) a -> child_at a p k ch -> find σ ch a = Some idch ->
  asks t (bst σ ch idch) -> access_room p cy -> demand_flags fl ->
  wp (Cache_access cfg inv acc p (mkReq a t k (LineState ch idch) cy (bst σ ch idch) src fl)) σ
    (fun resp σ' => cy <= resp /\ GrantPost (answers t) a ch idch σ σ').
Proof using WF NetworkOk0.
  intros Hinv Hput Hacc Hn HI Ha Hk Hfch Ht Hcy Hfl.
  assert (IsGet t = true) as Hget by (destruct Ht as [[-> _]|[-> _]]; done).
  unfold Cache_access. wp_step. apply start_spec; [done|done|]. wp_step.
  cbn [type cycle lineAddr]. wp_step. eapply wp_lookup; [apply HI|done|done|]. intros σ1 Hv.
  pose proof (wf_lat _ _ _ WF p) as [Hlat _]. pose proof (access_room_level _ _ Hcy) as Hcyl.
  assert (u64 (cy + c_accLat (cfg p)) = cy + c_accLat (cfg p)) as ->.
  { apply u64_id. unfold in_u64, in_u32, W64, W32, cycle_limit in *. lia. }
  assert (room p (cy + c_accLat (cfg p))) as Hroom.
  { pose proof (slack p). unfold room, in_u32, W32, cycle_limit in *. lia. }
  assert (Inv no_pend σ1) as HI1 by (by eapply same_view_Inv).
  pose proof (sa_find _ _ (sv_arr _ _ Hv)) as Hf1. rewrite <- (sv_bst _ _ Hv) in Ht |- *.
  rewrite <- Hf1 in Hfch |- *. wp_step.
  eapply wp_mono; [by eapply (place_spec inv n acc σ1 p _ (mkReq a t k _ cy _ src fl))|].
  intros id σ2 [HI2 Hid2 Hf2 Ho2 Hfr2]. cbn [lineAddr] in *.
  pose proof (child_at_level _ _ _ WF _ _ _ _ Hk) as Hlev.
  assert (ch <> p) as Hne by (by eapply child_ne).
  destruct (Hfr2 ch idch) as [Hbch _]; [lia|done|done|]. rewrite <- Hbch in Ht |- *.
  rewrite <- Ho2 in Hfch by done.
  unfold cc_processAccess. rewrite (kid_not_terminal _ _ _ _ Hk).
  eapply wp_mono; [eapply mesicc_get_spec; try done|].
  { unfold up_room, access_room, in_u32, W32 in *. lia. }
  intros resp σ3 [Hresp [HI3 Hp3 Hf3 Hk3]]. wp_step. apply wp_assert.
  { apply bool_decide_eq_true. unfold in_u32 in *. lia. }
  wp_step. split; [unfold in_u32 in *; lia|]. split; [done|done|..].
  - intros d b Hd. rewrite Hf3, Ho2, Hf1 by (done || (intros ->; lia)). done.
  - intros d i Hb Hfd. rewrite <- Hf1 in Hfd.
    assert (d <> p /\ level d <= level p)%nat as [Hdp Hdl].
    { pose proof (below_level _ _ _ WF _ _ _ Hb) as [? _]. split; [intros ->|]; lia. }
    destruct (Hfr2 d i Hdl Hdp Hfd) as [Hbd Hed]. rewrite <- Ho2 in Hfd by done.
    destruct (Hk3 d i Hb Hfd) as [-> Hb3]. rewrite Hed, (sv_entry _ _ Hv). split; [done|].
    intros Hd. rewrite Hb3, Hbd by done. apply Hv.
Qed.

(** ** The whole hierarchy *)
Lemma InvalSpec_le n m inv : (n <= m)%nat -> InvalSpec (A:=A) (N:=N) (MM:=MM) cfg level m inv -> InvalSpec cfg level n inv.
Proof. intros Hle Hinv t c a cy src wb σ Hc. apply Hinv. lia. Qed.

Lemma invalidate_ok d c : (top <= d)%nat -> InvalSpec (A:=A) (N:=N) (MM:=MM) cfg level (level c) (invalidate cfg d).
Proof using WF NetworkOk0.
  intros Hd. eapply InvalSpec_le; [|by apply (invalidate_spec cfg level top WF)].
  pose proof (wf_top _ _ _ WF c). lia.
Qed.

Lemma access_spec d n : (top <= d)%nat ->
  PutSpec n (access cfg d n) /\ AccGetSpec n (access cfg d n).
Proof using WF NetworkOk0.
  intros Hd. induction n as [|n [IHp IHg]]; [unfold PutSpec, AccGetSpec; split; intros; lia|]. split.
  - intros pend σ p a k ch idch t cy src Hn HI Ha Hk Hf He Ht Hcy. simpl. by eapply put_access_spec.
  - intros σ p a k ch idch t cy src fl Hn HI Ha Hk Hf Ht Hcy Hfl. simpl.
    eapply get_access_spec; try done. by apply invalidate_ok.
Qed.

Lemma Inv_core σ s : Inv no_pend σ -> Inv no_pend (mkSys (caches σ) s (net σ) (mem σ)).
Proof.
  intros HI. split; [apply HI..| |apply HI].
  intros a d. eapply (NodeOK_frame cfg σ); [by apply same_arr_eq|by intros|by intros|apply HI].
Qed.

(** A core's access at a terminal cache. *)
Lemma terminal_access_spec inv n acc σ c a t cy src fl :
  InvalSpec cfg level (level c) inv -> PutSpec n acc -> AccGetSpec n acc -> (top - level c < Datatypes.S n)%nat ->
  c_terminal (cfg c) = true -> Inv no_pend σ -> coreState σ = I -> arr_addr_ok (A:=A) a -> IsGet t = true ->
  access_room c cy -> demand_flags fl ->
  wp (Cache_access cfg inv acc c (mkReq a t 0 CoreState cy I src fl)) σ
    (fun resp σ' => cy <= resp /\ Inv no_pend σ' /\ perm t (lst σ' c a)).
Proof using WF NetworkOk0.
  intros Hinv Hput Hacc Hn Hterm HI Hcore Ha Hget Hcy Hfl.
  unfold Cache_access. wp_step. apply start_spec; [done|done|]. wp_step.
  cbn [type cycle lineAddr]. wp_step. eapply wp_lookup; [apply HI|done|done|]. intros σ1 Hv.
  pose proof (wf_lat _ _ _ WF c) as [Hlat _]. pose proof (access_room_level _ _ Hcy) as Hcyl.
  assert (u64 (cy + c_accLat (cfg c)) = cy + c_accLat (cfg c)) as ->.
  { apply u64_id. unfold in_u64, in_u32, W64, W32, cycle_limit in *. lia. }
  assert (room c (cy + c_accLat (cfg c))) as Hroom.
  { pose proof (slack c). unfold room, in_u32, W32, cycle_limit in *. lia. }
  assert (Inv no_pend σ1) as HI1 by (by eapply same_view_Inv).
  rewrite <- (sa_find _ _ (sv_arr _ _ Hv)). wp_step.
  eapply wp_mono; [by eapply (place_spec inv n acc σ1 c _ (mkReq a t 0 CoreState cy I src fl))|].
  intros id σ2 [HI2 Hid2 Hf2 _ _]. cbn [lineAddr] in *.
  unfold cc_processAccess. rewrite Hterm. wp_step. apply wp_assert; [apply bool_decide_eq_true; lia|].
  cbn [type lineAddr srcId flags].
  eapply wp_mono; [eapply bcc_get_spec; try done|].
  { unfold up_room, access_room, in_u32, W32 in *. lia. }
  intros resp σ3 [Hresp [HI3 Hp3 Hf3 _]]. wp_step. apply wp_assert.
  { apply bool_decide_eq_true. unfold in_u32 in *. lia. }
  wp_step. split_and!; [unfold in_u32 in *; lia|done|].
  rewrite (lst_found _ _ _ _ (eq_trans (Hf3 c a (Nat.le_refl _)) Hf2)). done.
Qed.

Lemma core_access_spec d n σ c a t cy src fl :
  (top <= d)%nat -> (top - level c < n)%nat -> c_terminal (cfg c) = true -> Inv no_pend σ ->
  arr_addr_ok (A:=A) a -> IsGet t = true -> access_room c cy -> demand_flags fl ->
  wp (core_access cfg d n c a t cy src fl) σ
    (fun resp σ' => cy <= resp /\ Inv no_pend σ' /\ perm t (lst σ' c a)).
Proof using WF NetworkOk0.
  intros Hd Hn Hterm HI Ha Ht Hcy Hfl. unfold core_access. do 2 wp_step.
  destruct n as [|n]; [lia|]. destruct (access_spec d n Hd) as [Hput Hacc]. simpl.
  eapply terminal_access_spec; try done; [by apply invalidate_ok|by apply Inv_core].
Qed.
End Main.
