(* ===== verification/Hash.v ===== *)
(** * Bit tricks and hash families (bithacks.h, hash.h, hash.cpp)

    [isPow2], [ilog2], the identity hash and the H3 hash: its hand-unrolled
    loop, the folding of the output, and the construction of its matrix from a
    stream of random numbers. *)

From stdpp Require Import base tactics numbers list gmap.
From Stdlib Require Import ZArith Lia Btauto.
From S2P Require Import Prelude.

Open Scope Z_scope.

(** ** bithacks.h *)
Definition isPow2 (val : Z) : bool := negb (val =? 0) && (Z.land val (val - 1) =? 0).
(** [val ? 31 - __builtin_clz(val) : 0]. *)
Definition ilog2 (val : Z) : Z := if decide (val = 0) then 0 else Z.log2 val.

(** ** Hash families *)

(** [HashFamily::hash(id, val)]; the code asserts that [id] is one of its functions. *)
Class HashFamily (H : Type) := hash : H -> Z -> Z -> result Z.

(** What the arrays rely on: [hash_id_ok h id] says that function [id] exists. *)
Class HashFamilyOk (H : Type) `{HashFamily H} := {
  hash_id_ok : H -> Z -> Prop;
  hash_ok : forall h id val, hash_id_ok h id -> in_u64 val -> exists r, hash h id val = Ok r /\ in_u64 r;
}.

(** [IdHashFamily]. *)
Inductive IdHashFamily : Type := IdHash.
#[export] Instance IdHash_hash : HashFamily IdHashFamily := fun _ _ val => Ok val.
#[export] Program Instance IdHash_ok : HashFamilyOk IdHashFamily := {| hash_id_ok := fun _ _ => True |}.
Next Obligation. intros [] id val _ Hv. by exists val. Qed.

(** ** The H3 family *)
Record H3HashFamily : Type := mkH3 {
  numFuncs : Z;
  resShift : Z;
  hMatrix : gmap Z Z;
}.

(** [(x << k) | (x >> (64 - k))] on [uint64_t]. *)
Definition rotl64 (x k : Z) : Z := Z.lor (u64 (Z.shiftl x k)) (Z.shiftr x (64 - k)).

(** One iteration of the 8-way unrolled loop. *)
Definition h3_round (m : gmap Z Z) (base val res : Z) : Z :=
  let r i := Z.land val (word m (base + i)) in
  let res := Z.lxor res (Z.lxor (Z.lxor (Z.lxor (r 0) (rotl64 (r 1) 1)) (rotl64 (r 2) 2)) (rotl64 (r 3) 3)) in
  let res := Z.lxor res (Z.lxor (Z.lxor (Z.lxor (rotl64 (r 4) 4) (rotl64 (r 5) 5)) (rotl64 (r 6) 6)) (rotl64 (r 7) 7)) in
  rotl64 res 8.

(** The loop, for [n] iterations from [x] on. *)
Fixpoint h3_loop (m : gmap Z Z) (start : Z) (n : nat) (x val res : Z) : Z :=
  match n with
  | O => res
  | S n' => h3_loop m start n' (x + 8) val (h3_round m (start + x) val res)
  end.

(** The fold of the output to the width that was asked for. *)
Definition fold_bits (k r : Z) : Z := Z.lxor (Z.shiftr r k) r.
Definition h3_fold (shift res : Z) : Z :=
  if decide (shift = 1) then fold_bits 32 res
  else if decide (shift = 2) then fold_bits 16 (fold_bits 32 res)
  else if decide (shift = 3) then fold_bits 8 (fold_bits 16 (fold_bits 32 res))
  else res.

(** [H3HashFamily::hash]. *)
Definition H3_hash (h : H3HashFamily) (id val : Z) : result Z :=
  if bool_decide (0 <= id) && bool_decide (id < numFuncs h) then
    let maxBits := Z.shiftr 64 (resShift h) in
    let res := h3_loop (hMatrix h) (Z.shiftl id (6 - resShift h)) (Z.to_nat (maxBits / 8)) 0 val 0 in
    Ok (h3_fold (resShift h) res)
  else Err AssertFail.
#[export] Instance H3_HashFamily : HashFamily H3HashFamily := H3_hash.

(** [H3HashFamily::H3HashFamily]; [rnd i] is the i-th number its generator draws. *)
Definition h3_shift (outputBits : Z) : option Z :=
  if decide (outputBits <= 8) then Some 3
  else if decide (outputBits <= 16) then Some 2
  else if decide (outputBits <= 32) then Some 1
  else if decide (outputBits <= 64) then Some 0
  else None.
Fixpoint h3_word (rnd : nat -> Z) (draw : nat) (kk : nat) (val : Z) : Z :=
  match kk with
  | O => val
  | S kk' =>
      let val := u64 (Z.shiftl val 1) in
      h3_word rnd (draw + 1) kk' (if decide (rnd draw `mod` 2 = 0) then u64 (val + 1) else val)
  end.
Fixpoint h3_matrix (rnd : nat -> Z) (words : nat) : gmap Z Z :=
  match words with
  | O => ∅
  | S w => <[Z.of_nat w := h3_word rnd (64 * w) 64 0]> (h3_matrix rnd w)
  end.
Definition H3_init (numFunctions outputBits : Z) (rnd : nat -> Z) : result H3HashFamily :=
  match h3_shift outputBits with
  | None => Err Panicked
  | Some s => Ok (mkH3 numFunctions s (h3_matrix rnd (Z.to_nat (Z.shiftr 64 s * numFunctions))))
  end.

(** The loop that the comment of [H3HashFamily::hash] gives as the original code. *)
Fixpoint h3_reference (m : gmap Z Z) (start : Z) (n : nat) (x val res : Z) : Z :=
  match n with
  | O => res
  | S n' => h3_reference m start n' (x + 1) val (rotl64 (Z.lxor res (Z.land val (word m (start + x)))) 1)
  end.

(** ** Lemmas: powers of two *)
Lemma isPow2_spec v : 0 <= v -> isPow2 v = true <-> exists k, 0 <= k /\ v = 2 ^ k.
Proof.
  intros Hv. unfold isPow2. rewrite andb_true_iff, negb_true_iff, Z.eqb_neq, Z.eqb_eq. split.
  - intros [Hne Hl]. exists (Z.log2 v). split; [apply Z.log2_nonneg|].
    destruct (Z.log2_spec v) as [H1 H2]; [lia|]. destruct (decide (v = 2 ^ Z.log2 v)) as [|Hlt]; [done|exfalso].
    assert (Z.testbit (Z.land v (v - 1)) (Z.log2 v) = true) as Hb; [|by rewrite Hl, Z.testbit_0_l in Hb].
    rewrite Z.land_spec, Z.bit_log2 by lia.
    replace (Z.log2 v) with (Z.log2 (v - 1)); [rewrite Z.bit_log2; [done|]|].
    + assert (0 < 2 ^ Z.log2 v) by (apply Z.pow_pos_nonneg; [lia|apply Z.log2_nonneg]). lia.
    + apply Z.log2_unique; [apply Z.log2_nonneg|lia].
  - intros (k & Hk & ->). pose proof (Z.pow_pos_nonneg 2 k ltac:(lia) Hk). split; [lia|].
    replace (2 ^ k - 1) with (Z.ones k) by (rewrite Z.ones_equiv; lia).
    by rewrite Z.land_ones, Z.mod_same by lia.
Qed.

(** The masks [numSets - 1] select a set. *)
Lemma land_mask n x : isPow2 n = true -> 0 < n -> Z.land x (n - 1) = x `mod` n.
Proof.
  intros Hp Hn. apply isPow2_spec in Hp as (k & Hk & ->); [|lia].
  replace (2 ^ k - 1) with (Z.ones k) by (rewrite Z.ones_equiv; lia). by apply Z.land_ones.
Qed.

Lemma ilog2_spec v : 0 < v -> 2 ^ ilog2 v <= v < 2 ^ (ilog2 v + 1).
Proof. intros Hv. unfold ilog2. rewrite decide_False by lia. by apply Z.log2_spec. Qed.

(** ** Lemmas: rotations and exclusive or *)
Lemma in_u64_bits x i : in_u64 x -> 64 <= i -> Z.testbit x i = false.
Proof.
  intros [H1 H2] Hi. destruct (decide (x = 0)) as [->|]; [apply Z.testbit_0_l|].
  apply Z.bits_above_log2; [done|]. apply Z.lt_le_trans with 64; [|done]. apply Z.log2_lt_pow2; [lia|exact H2].
Qed.

Lemma bits_in_u64 x : 0 <= x -> (forall i, 64 <= i -> Z.testbit x i = false) -> in_u64 x.
Proof.
  intros H0 Hb. split; [done|]. destruct (decide (x = 0)) as [->|]; [done|].
  destruct (decide (x < W64)) as [|Hge]; [done|exfalso].
  assert (64 <= Z.log2 x) by (apply Z.log2_le_pow2; [lia|unfold W64 in *; lia]).
  pose proof (Hb _ H) as Hf. rewrite Z.bit_log2 in Hf by lia. done.
Qed.

Lemma rotl64_testbit x k i : in_u64 x -> 0 <= k < 64 -> 0 <= i ->
  Z.testbit (rotl64 x k) i = (i <? 64) && Z.testbit x ((i - k) `mod` 64).
Proof.
  intros Hx Hk Hi. unfold rotl64, u64. change W64 with (2 ^ 64).
  rewrite Z.lor_spec, Z.testbit_mod_pow2, Z.shiftl_spec, Z.shiftr_spec by lia.
  destruct (Z.ltb_spec i 64); simpl; [|by apply in_u64_bits; [|lia]].
  destruct (decide (k <= i)).
  - rewrite (Z.mod_small (i - k)) by lia. rewrite (in_u64_bits x (i + (64 - k))) by (done || lia). by rewrite orb_false_r.
  - rewrite (Z.testbit_neg_r x (i - k)) by lia. simpl. f_equal.
    apply Z.mod_unique with (-1); lia.
Qed.

Lemma rotl64_range x k : in_u64 x -> 0 <= k < 64 -> in_u64 (rotl64 x k).
Proof.
  intros Hx Hk. apply bits_in_u64.
  - unfold rotl64. apply Z.lor_nonneg. split; [apply u64_range|]. apply Z.shiftr_nonneg, Hx.
  - intros i Hi. rewrite rotl64_testbit by (done || lia). by rewrite (proj2 (Z.ltb_ge i 64)).
Qed.

Lemma lxor_range x y : in_u64 x -> in_u64 y -> in_u64 (Z.lxor x y).
Proof.
  intros Hx Hy. apply bits_in_u64.
  - apply Z.lxor_nonneg. split; intros _; [apply Hy|apply Hx].
  - intros i Hi. by rewrite Z.lxor_spec, !in_u64_bits.
Qed.

Lemma land_range x y : in_u64 x -> in_u64 (Z.land x y).
Proof.
  intros Hx. apply bits_in_u64; [apply Z.land_nonneg; left; apply Hx|].
  intros i Hi. by rewrite Z.land_spec, in_u64_bits.
Qed.

Lemma shiftr_range x k : in_u64 x -> 0 <= k -> in_u64 (Z.shiftr x k).
Proof.
  intros Hx Hk. apply bits_in_u64; [apply Z.shiftr_nonneg, Hx|].
  intros i Hi. rewrite Z.shiftr_spec by lia. apply in_u64_bits; [done|lia].
Qed.

#[export] Hint Resolve rotl64_range lxor_range land_range shiftr_range : damov.

Lemma rotl64_lxor x y k : in_u64 x -> in_u64 y -> 0 <= k < 64 ->
  rotl64 (Z.lxor x y) k = Z.lxor (rotl64 x k) (rotl64 y k).
Proof.
  intros Hx Hy Hk. apply Z.bits_inj'. intros i Hi.
  rewrite Z.lxor_spec, !rotl64_testbit, Z.lxor_spec by auto with damov. btauto.
Qed.

Lemma rotl64_rotl64 x j k : in_u64 x -> 0 <= j < 64 -> 0 <= k < 64 ->
  rotl64 (rotl64 x j) k = rotl64 x ((j + k) `mod` 64).
Proof.
  intros Hx Hj Hk. pose proof (Z.mod_pos_bound (j + k) 64). apply Z.bits_inj'. intros i Hi.
  pose proof (Z.mod_pos_bound (i - k) 64 ltac:(lia)).
  rewrite !rotl64_testbit by (auto with damov || lia).
  rewrite (proj2 (Z.ltb_lt ((i - k) `mod` 64) 64)) by lia. simpl. do 2 f_equal.
  rewrite Zminus_mod_idemp_l, Zminus_mod_idemp_r. f_equal. lia.
Qed.

Lemma rotl64_0 x : in_u64 x -> rotl64 x 0 = x.
Proof.
  intros Hx. apply Z.bits_inj'. intros i Hi. rewrite rotl64_testbit, Z.sub_0_r by (done || lia).
  destruct (Z.ltb_spec i 64); simpl; [by rewrite Z.mod_small by lia|by rewrite in_u64_bits].
Qed.

Lemma land_lxor_l x y m : Z.land (Z.lxor x y) m = Z.lxor (Z.land x m) (Z.land y m).
Proof. apply Z.bits_inj'. intros i Hi. rewrite Z.land_spec, !Z.lxor_spec, !Z.land_spec. btauto. Qed.

(** Exclusive or of a list. *)
Definition xor_all (l : list Z) : Z := foldr Z.lxor 0 l.

Lemma xor_all_app l1 l2 : xor_all (l1 ++ l2) = Z.lxor (xor_all l1) (xor_all l2).
Proof.
  unfold xor_all. induction l1 as [|x l1 IH]; simpl; [by rewrite Z.lxor_0_l|].
  by rewrite IH, Z.lxor_assoc.
Qed.

Lemma xor_all_range l : Forall in_u64 l -> in_u64 (xor_all l).
Proof. induction 1; simpl; [by split|auto with damov]. Qed.

Lemma xor_all_rotl l k : Forall in_u64 l -> 0 <= k < 64 -> rotl64 (xor_all l) k = xor_all ((fun x => rotl64 x k) <$> l).
Proof.
  intros Hl Hk. induction Hl as [|x l Hx Hl IH]; simpl.
  - apply Z.bits_inj'. intros i Hi. rewrite rotl64_testbit by (done || by split). by rewrite !Z.testbit_0_l, andb_false_r.
  - rewrite rotl64_lxor by (auto using xor_all_range). by rewrite IH.
Qed.

(** ** The closed form of the H3 loop *)

(** The contribution of row [x] to the result of [n] iterations. *)
Definition h3_term (m : gmap Z Z) (start : Z) (n : Z) (val x : Z) : Z :=
  rotl64 (Z.land val (word m (start + x))) ((x `mod` 8 + 8 * (n - x / 8)) `mod` 64).

Definition h3_rows (m : gmap Z Z) (start : Z) (n : Z) (val : Z) : Z :=
  xor_all (h3_term m start n val <$> seqZ 0 (8 * n)).

Lemma h3_term_range m start n val x : in_u64 val -> in_u64 (h3_term m start n val x).
Proof. intros Hv. apply rotl64_range; [auto with damov|]. apply Z.mod_pos_bound. lia. Qed.

Lemma h3_terms_range m start n val l : in_u64 val -> Forall in_u64 (h3_term m start n val <$> l).
Proof. intros Hv. apply Forall_fmap, Forall_true. intros x. by apply h3_term_range. Qed.

Lemma h3_rows_range m start n val : in_u64 val -> in_u64 (h3_rows m start n val).
Proof. intros Hv. by apply xor_all_range, h3_terms_range. Qed.

Lemma seqZ_8 : seqZ 0 8 = [0; 1; 2; 3; 4; 5; 6; 7].
Proof. reflexivity. Qed.

(** The eight terms of an iteration, rotated by the final rotation. *)
Lemma h3_round_rotl r0 r1 r2 r3 r4 r5 r6 r7 res :
  Forall in_u64 [r0; r1; r2; r3; r4; r5; r6; r7; res] ->
  rotl64 (Z.lxor (Z.lxor res (Z.lxor (Z.lxor (Z.lxor r0 (rotl64 r1 1)) (rotl64 r2 2)) (rotl64 r3 3)))
    (Z.lxor (Z.lxor (Z.lxor (rotl64 r4 4) (rotl64 r5 5)) (rotl64 r6 6)) (rotl64 r7 7))) 8 =
  Z.lxor (rotl64 res 8) (xor_all [rotl64 r0 8; rotl64 r1 9; rotl64 r2 10; rotl64 r3 11;
    rotl64 r4 12; rotl64 r5 13; rotl64 r6 14; rotl64 r7 15]).
Proof.
  rewrite !Forall_cons. intros (H0 & H1 & H2 & H3 & H4 & H5 & H6 & H7 & Hr & _).
  assert (forall x j, in_u64 x -> 0 <= j < 8 -> rotl64 (rotl64 x j) 8 = rotl64 x (j + 8)) as Hrr.
  { intros x j Hx Hj. rewrite rotl64_rotl64 by (assumption || lia). f_equal. apply Z.mod_small. lia. }
  rewrite !rotl64_lxor by (repeat first [assumption | apply lxor_range | apply rotl64_range | lia]).
  rewrite !Hrr by (assumption || lia). unfold xor_all, foldr. rewrite Z.lxor_0_r.
  rewrite !Z.lxor_assoc. reflexivity.
Qed.

Lemma h3_round_spec m base val res : in_u64 val -> in_u64 res ->
  h3_round m base val res = Z.lxor (rotl64 res 8) (xor_all (h3_term m base 1 val <$> seqZ 0 8)).
Proof.
  intros Hv Hr. unfold h3_round. rewrite h3_round_rotl, seqZ_8; [reflexivity|].
  repeat (apply Forall_cons; split); auto with damov.
Qed.

Lemma h3_loop_spec m start n x val res : in_u64 val -> in_u64 res ->
  h3_loop m start n x val res =
    Z.lxor (rotl64 res ((8 * Z.of_nat n) `mod` 64)) (h3_rows m (start + x) (Z.of_nat n) val).
Proof.
  intros Hv. revert x res. induction n as [|n IH]; intros x res Hr; simpl h3_loop.
  { change (h3_rows m (start + x) (Z.of_nat 0) val) with 0.
    change ((8 * Z.of_nat 0) `mod` 64) with 0. by rewrite rotl64_0, Z.lxor_0_r. }
  rewrite h3_round_spec by done.
  assert (in_u64 (xor_all (h3_term m (start + x) 1 val <$> seqZ 0 8))) as Hterms.
  { by apply xor_all_range, h3_terms_range. }
  pose proof (Z.mod_pos_bound (8 * Z.of_nat n) 64 ltac:(lia)) as Hmod.
  rewrite IH by (repeat first [assumption | apply lxor_range | apply rotl64_range | lia]).
  rewrite rotl64_lxor, rotl64_rotl64 by (repeat first [assumption | apply rotl64_range | lia]).
  rewrite Z.lxor_assoc. f_equal.
  { f_equal. rewrite Zplus_mod_idemp_r. f_equal. lia. }
  unfold h3_rows. replace (8 * Z.of_nat (S n)) with (8 + 8 * Z.of_nat n) by lia.
  rewrite seqZ_app, fmap_app, xor_all_app by lia. f_equal.
  - rewrite xor_all_rotl by (apply h3_terms_range || done; done). rewrite <- list_fmap_compose. f_equal.
    apply list_fmap_ext. intros i y Hy%list_elem_of_lookup_2%elem_of_seqZ. unfold compose, h3_term.
    rewrite rotl64_rotl64 by (first [apply land_range; assumption | apply Z.mod_pos_bound; lia | assumption]).
    f_equal. rewrite Zplus_mod_idemp_l, Zplus_mod_idemp_r. f_equal.
    rewrite (Z.div_small y 8) by lia. lia.
  - change (0 + 8) with 8. f_equal. rewrite <- (fmap_add_seqZ 8 0), <- list_fmap_compose.
    apply list_fmap_ext. intros i y _. unfold compose, h3_term.
    replace (start + (x + 8) + y) with (start + x + (8 + y)) by lia.
    replace ((8 + y) `mod` 8) with (y `mod` 8) by (replace (8 + y) with (y + 1 * 8) by lia; by rewrite Z.mod_add).
    replace ((8 + y) / 8) with (y / 8 + 1) by (replace (8 + y) with (y + 1 * 8) by lia; by rewrite Z.div_add).
    do 2 f_equal. lia.
Qed.

Lemma h3_rows_lxor m start n v w : in_u64 v -> in_u64 w ->
  h3_rows m start n (Z.lxor v w) = Z.lxor (h3_rows m start n v) (h3_rows m start n w).
Proof.
  intros Hv Hw. unfold h3_rows. induction (seqZ 0 (8 * n)) as [|x l IH]; [done|].
  rewrite !fmap_cons. unfold xor_all in *. cbn [foldr]. rewrite IH.
  assert (h3_term m start n (Z.lxor v w) x = Z.lxor (h3_term m start n v x) (h3_term m start n w x)) as ->.
  { unfold h3_term. rewrite land_lxor_l, rotl64_lxor; [done|auto with damov..|]. apply Z.mod_pos_bound. lia. }
  apply Z.bits_inj'. intros i _. rewrite !Z.lxor_spec. btauto.
Qed.

Lemma fold_bits_lxor k x y : 0 <= k -> fold_bits k (Z.lxor x y) = Z.lxor (fold_bits k x) (fold_bits k y).
Proof.
  intros Hk. unfold fold_bits. apply Z.bits_inj'. intros i Hi.
  rewrite !Z.lxor_spec, !Z.shiftr_spec, !Z.lxor_spec by lia. btauto.
Qed.

Lemma fold_bits_range k x : 0 <= k -> in_u64 x -> in_u64 (fold_bits k x).
Proof. intros Hk Hx. unfold fold_bits. auto with damov. Qed.

Lemma h3_fold_lxor s x y : h3_fold s (Z.lxor x y) = Z.lxor (h3_fold s x) (h3_fold s y).
Proof. unfold h3_fold. repeat case_decide; by rewrite ?fold_bits_lxor by lia. Qed.

Lemma h3_fold_range s x : in_u64 x -> in_u64 (h3_fold s x).
Proof. intros Hx. unfold h3_fold. repeat case_decide; repeat first [assumption | apply fold_bits_range | lia]. Qed.

(** The hash in closed form. *)
Lemma H3_hash_rows h id val : 0 <= id < numFuncs h -> in_u64 val ->
  H3_hash h id val = Ok (h3_fold (resShift h)
    (h3_rows (hMatrix h) (Z.shiftl id (6 - resShift h)) (Z.of_nat (Z.to_nat (Z.shiftr 64 (resShift h) / 8))) val)).
Proof.
  intros Hid Hv. unfold H3_hash. rewrite !bool_decide_true by lia. cbn [andb].
  rewrite h3_loop_spec by (done || by split).
  assert (rotl64 0 ((8 * Z.of_nat (Z.to_nat (Z.shiftr 64 (resShift h) / 8))) `mod` 64) = 0) as ->.
  { apply Z.bits_inj'. intros i Hi. pose proof (Z.mod_pos_bound (8 * Z.of_nat (Z.to_nat (Z.shiftr 64 (resShift h) / 8))) 64).
    rewrite rotl64_testbit by (lia || by split). by rewrite !Z.testbit_0_l, andb_false_r. }
  by rewrite Z.lxor_0_l, Z.add_0_r.
Qed.

#[export] Program Instance H3_ok : HashFamilyOk H3HashFamily := {|
  hash_id_ok := fun h id => 0 <= id < numFuncs h
|}.
Next Obligation.
  intros h id val Hid Hv. eexists. split; [by apply H3_hash_rows|]. by apply h3_fold_range, h3_rows_range.
Qed.

Lemma h3_reference_spec m start n x val res : in_u64 val -> in_u64 res ->
  h3_reference m start n x val res = Z.lxor (rotl64 res (Z.of_nat n `mod` 64))
    (xor_all ((fun y => rotl64 (Z.land val (word m (start + y))) ((x + Z.of_nat n - y) `mod` 64)) <$> seqZ x (Z.of_nat n))).
Proof.
  intros Hv. revert x res. induction n as [|n IH]; intros x res Hr.
  { change (xor_all _) with 0. change (Z.of_nat 0 `mod` 64) with 0. by rewrite Z.lxor_0_r, rotl64_0. }
  cbn [h3_reference]. pose proof (Z.mod_pos_bound (Z.of_nat n) 64 ltac:(lia)) as Hmod.
  rewrite IH by (apply rotl64_range; [auto with damov|lia]).
  rewrite rotl64_rotl64, rotl64_lxor by (auto with damov || (apply Z.mod_pos_bound; lia) || lia).
  rewrite Zplus_mod_idemp_r. replace (1 + Z.of_nat n) with (Z.of_nat (S n)) by lia.
  rewrite (seqZ_cons x (Z.of_nat (S n))), fmap_cons by lia. change (xor_all (?a :: ?l)) with (Z.lxor a (xor_all l)).
  rewrite Z.lxor_assoc. f_equal. f_equal; [f_equal; f_equal; lia|].
  change (foldr Z.lxor 0) with xor_all. f_equal. f_equal; [|f_equal; lia].
  replace (x + 1 + Z.of_nat n) with (x + Z.of_nat (S n)) by lia. done.
Qed.

Lemma xor_all_perm l1 l2 : l1 ≡ₚ l2 -> xor_all l1 = xor_all l2.
Proof.
  unfold xor_all. induction 1; simpl; [done|congruence| |congruence].
  rewrite <- !Z.lxor_assoc. f_equal. apply Z.lxor_comm.
Qed.

(** Where row [x] of the unrolled loop stands in the reference loop. *)
Definition h3_row_of (x : Z) : Z := (8 * (x / 8) - x `mod` 8) `mod` 64.

Lemma h3_row_of_perm : h3_row_of <$> seqZ 0 64 ≡ₚ seqZ 0 64.
Proof. apply (bool_decide_unpack _). vm_compute. exact Logic.I. Qed.

(** ** Properties *)

(** C34: the hand-unrolled loop of [H3HashFamily::hash] computes what the simple
    loop in its comment computes, up to an order of the rows: on a matrix with
    row [x] at place [8 * (x / 8) - x mod 8] modulo 64, the simple loop gives
    the same 64-bit value. *)
Theorem H3_unrolled_reference (m m' : gmap Z Z) (start val : Z) :
  in_u64 val -> (forall x, 0 <= x < 64 -> word m' (start + h3_row_of x) = word m (start + x)) ->
  h3_loop m start 8 0 val 0 = h3_reference m' start 64 0 val 0.
Proof.
  intros Hv Hm. rewrite h3_loop_spec, h3_reference_spec by (done || by split).
  change (Z.of_nat 8) with 8. change (Z.of_nat 64) with 64. change ((8 * 8) `mod` 64) with (64 `mod` 64).
  f_equal. unfold h3_rows. rewrite Z.add_0_r.
  set (g := fun y => rotl64 (Z.land val (word m' (start + y))) ((0 + 64 - y) `mod` 64)).
  rewrite <- (xor_all_perm (g <$> _) _ (fmap_Permutation g _ _ h3_row_of_perm)), <- list_fmap_compose. f_equal.
  apply list_fmap_ext. intros i x Hx%list_elem_of_lookup_2%elem_of_seqZ. unfold compose, g, h3_term.
  rewrite Hm by lia. f_equal. unfold h3_row_of. rewrite Zminus_mod_idemp_r.
  f_equal. lia.
Qed.
Lemma H3_unrolled_reference_witness :
  let m := list_to_map ((fun x => (x, x * x + 7)) <$> seqZ 0 64) in
  let m' := list_to_map ((fun x => (h3_row_of x, x * x + 7)) <$> seqZ 0 64) in
  in_u64 12345 /\ h3_loop m 0 8 0 12345 0 = h3_reference m' 0 64 0 12345 0.
Proof.
  intros m m'. split; [by split|]. apply (H3_unrolled_reference m m' 0 12345); [by split|].
  intros x Hx. assert (Forall (fun x => word m' (0 + h3_row_of x) = word m (0 + x)) (seqZ 0 64)) as Hall.
  { apply (bool_decide_unpack _). vm_compute. exact Logic.I. }
  rewrite Forall_forall in Hall. apply Hall. apply elem_of_seqZ. lia.
Defined.

(** every H3 hash function is linear over GF(2): the hash of an exclusive
    or is the exclusive or of the hashes. *)
Theorem H3_hash_linear (h : H3HashFamily) (id v w : Z) :
  0 <= id < numFuncs h -> in_u64 v -> in_u64 w ->
  exists x y, H3_hash h id v = Ok x /\ H3_hash h id w = Ok y /\ H3_hash h id (Z.lxor v w) = Ok (Z.lxor x y).
Proof.
  intros Hid Hv Hw. rewrite !H3_hash_rows by auto with damov.
  do 2 eexists. split; [done|]. split; [done|]. by rewrite h3_rows_lxor, h3_fold_lxor.
Qed.
Lemma H3_hash_linear_witness :
  let h := mkH3 1 3 (list_to_map [(0, 255); (3, 18446744073709551615); (7, 5)]) in
  0 <= 0 < numFuncs h /\ in_u64 1000 /\ in_u64 77 /\
  exists x y, H3_hash h 0 1000 = Ok x /\ H3_hash h 0 77 = Ok y /\ H3_hash h 0 (Z.lxor 1000 77) = Ok (Z.lxor x y).
Proof.
  intros h. assert (0 <= 0 < numFuncs h) by (split; [lia|reflexivity]).
  assert (in_u64 1000) by (by split). assert (in_u64 77) by (by split).
  split; [done|]. split; [done|]. split; [done|]. by apply (H3_hash_linear h 0 1000 77).
Defined.

(** On the same matrix the two loops differ: the comment's loop is not the
    routine it documents. *)
Theorem H3_comment_differs : exists m val,
  h3_loop m 0 8 0 val 0 <> h3_reference m 0 64 0 val 0.
Proof. exists {[1 := 1]}, 1. by vm_compute. Qed.
