(* ===== verification/ReplPolicies.v ===== *)
(** * Replacement policies (repl_policies.h)

    LRU (optionally aware of sharers), TreeLRU, NRU, random and LFU, the
    profiling wrapper, the interface the cache arrays use them through, and
    what each of them promises to the arrays. *)

From stdpp Require Import base tactics numbers list gmap.
From Stdlib Require Import ZArith Lia.
From S2P Require Import Prelude.
From S2P Require Import MemTypes.

Open Scope Z_scope.

(** ** The interface *)

(** [ReplPolicy]: update, replaced and rankCands (over the line ids of the candidates). *)
Class ReplPolicy (P : Type) := {
  rp_update : Z -> MemReq -> st P unit;
  rp_replaced : Z -> st P unit;
  rp_rank : ReplView -> MemReq -> list Z -> st P Z;
}.

(** The contract of a policy. [rp_inv b]: [b] says that a victim was chosen
    and [replaced] is still to come. *)
Class ReplPolicyOk (P : Type) `{ReplPolicy P} := {
  rp_inv : bool -> P -> Prop;
  (** the size of the array, and the numbers of candidates the policy takes *)
  rp_lines : P -> Z;
  rp_ncands : P -> nat -> Prop;
  rp_same := fun p p' => rp_lines p' = rp_lines p /\ rp_ncands p' = rp_ncands p;
  rp_update_ok : forall b p id r, rp_inv b p -> 0 <= id < rp_lines p ->
    wp (rp_update id r) p (fun _ p' => rp_inv b p' /\ rp_same p p');
  rp_replaced_ok : forall b p id, rp_inv b p -> 0 <= id < rp_lines p ->
    wp (rp_replaced id) p (fun _ p' => rp_inv false p' /\ rp_same p p');
  rp_rank_ok : forall p v r cands, rp_inv false p -> rp_ncands p (length cands) ->
    Forall (fun id => 0 <= id < rp_lines p) cands ->
    wp (rp_rank v r cands) p (fun id p' => id ∈ cands /\ rp_inv true p' /\ rp_same p p');
}.

(** ** LRU *)
Record LRUReplPolicy : Type := mkLRU {
  sharersAware : bool;
  timestamp : Z;
  lru_array : gmap Z Z;
  lru_numLines : Z;
}.
Definition LRU_init (aware : bool) (n : Z) : LRUReplPolicy := mkLRU aware 1 ∅ n.
Definition LRU_update (id : Z) (p : LRUReplPolicy) : LRUReplPolicy :=
  mkLRU (sharersAware p) (u64 (timestamp p + 1)) (<[id := timestamp p]> (lru_array p)) (lru_numLines p).
Definition LRU_replaced (id : Z) (p : LRUReplPolicy) : LRUReplPolicy :=
  mkLRU (sharersAware p) (timestamp p) (<[id := 0]> (lru_array p)) (lru_numLines p).
(** [score], a [uint64_t]. *)
Definition LRU_score (v : ReplView) (p : LRUReplPolicy) (id : Z) : Z :=
  u64 ((if sharersAware p then rv_numSharers v id else 0) * timestamp p
       + word (lru_array p) id * (if rv_isValid v id then 1 else 0)).
(** [rank]: the score is kept in a [uint32_t] before it is compared. *)
Definition LRU_rank_step (v : ReplView) (p : LRUReplPolicy) (best : Z * Z) (c : Z) : Z * Z :=
  let s := u32 (LRU_score v p c) in
  (if s <? best.2 then c else best.1, Z.min s best.2).
Definition LRU_rank (v : ReplView) (p : LRUReplPolicy) (cands : list Z) : Z :=
  (fold_left (LRU_rank_step v p) cands (W32 - 1, W64 - 1)).1.

#[export] Instance LRU_policy : ReplPolicy LRUReplPolicy := {|
  rp_update := fun id _ => modify (LRU_update id);
  rp_replaced := fun id => modify (LRU_replaced id);
  rp_rank := fun v _ cands => gets (fun p => LRU_rank v p cands);
|}.

(** ** TreeLRU

    Its recordCandidate and getBestCandidate; [rankCands] stays the one that
    LRU binds, so that an array never calls them. *)
Record TreeLRUReplPolicy : Type := mkTree {
  tree_lru : LRUReplPolicy;
  tree_candArray : gmap Z Z;
  tree_numCands : Z;
  tree_candIdx : Z;
}.
Definition TreeLRU_init (n numCands : Z) : result TreeLRUReplPolicy :=
  if Z.land numCands (numCands - 1) =? 0 then Ok (mkTree (LRU_init true n) ∅ numCands 0) else Err Panicked.
Definition TreeLRU_recordCandidate (id : Z) (p : TreeLRUReplPolicy) : TreeLRUReplPolicy :=
  mkTree (tree_lru p) (<[tree_candIdx p := id]> (tree_candArray p)) (tree_numCands p) (tree_candIdx p + 1).
Definition TreeLRU_replaced (id : Z) (p : TreeLRUReplPolicy) : TreeLRUReplPolicy :=
  mkTree (LRU_replaced id (tree_lru p)) (tree_candArray p) (tree_numCands p) 0.
(** The newest timestamp among the candidates at [start, stop). *)
Definition tree_newest (p : TreeLRUReplPolicy) (start stop : Z) : Z :=
  fold_left (fun t i => Z.max t (word (lru_array (tree_lru p)) (word (tree_candArray p) i)))
            (seqZ start (stop - start)) 0.
(** The descent of the tree; [n] bounds its depth. *)
Fixpoint tree_descend (p : TreeLRUReplPolicy) (n : nat) (start stop : Z) : option Z :=
  if decide (stop - start > 1) then
    match n with
    | O => None
    | Datatypes.S n' =>
        let pivot := start + (stop - start) / 2 in
        if decide (tree_newest p start pivot > tree_newest p pivot stop)
        then tree_descend p n' pivot stop else tree_descend p n' start pivot
    end
  else Some start.
Definition TreeLRU_getBestCandidate (p : TreeLRUReplPolicy) : result Z :=
  if decide (tree_candIdx p = tree_numCands p) then
    match tree_descend p (Z.to_nat (Z.log2 (tree_numCands p) + 1)) 0 (tree_numCands p) with
    | Some i => Ok (word (tree_candArray p) i)
    | None => Err NoFuel
    end
  else Err AssertFail.

#[export] Instance TreeLRU_policy : ReplPolicy TreeLRUReplPolicy := {|
  rp_update := fun id _ => modify (fun p => mkTree (LRU_update id (tree_lru p)) (tree_candArray p) (tree_numCands p) (tree_candIdx p));
  rp_replaced := fun id => modify (TreeLRU_replaced id);
  rp_rank := fun v _ cands => gets (fun p => LRU_rank v (tree_lru p) cands);
|}.

(** ** Policies of the legacy interface

    [LegacyReplPolicy::rank]: startReplacement, recordCandidate on each
    candidate in order, then getBestCandidate. *)
Definition legacy_rank {P} (start : MemReq -> P -> P) (record : ReplView -> Z -> P -> P) (best : st P Z)
    (v : ReplView) (r : MemReq) (cands : list Z) : st P Z := fun p =>
  best (fold_left (fun p c => record v c p) cands (start r p)).

(** ** NRU, with two bits per line *)
Record NRUReplPolicy : Type := mkNRU {
  nru_array : gmap Z Z;
  nru_candArray : list Z;
  nru_numLines : Z;
  nru_numCands : Z;
  youngLines : Z;
  nru_candVal : Z;
}.
(** [candIdx] is the number of candidates kept. *)
Definition nru_candIdx (p : NRUReplPolicy) : Z := Z.of_nat (length (nru_candArray p)).
Definition NRU_init (n numCands : Z) : NRUReplPolicy := mkNRU ∅ [] n numCands 0 (Z.shiftl 1 20).
(** The shift of every line, when half of them are young. *)
Definition NRU_age (p : NRUReplPolicy) : NRUReplPolicy :=
  if decide (youngLines p >= nru_numLines p / 2) then
    mkNRU (fmap (fun x => Z.shiftr x 1) (nru_array p)) (nru_candArray p) (nru_numLines p) (nru_numCands p) 0 (nru_candVal p)
  else p.
Definition NRU_update (id : Z) (p : NRUReplPolicy) : NRUReplPolicy :=
  let x := word (nru_array p) id in
  NRU_age (mkNRU (<[id := Z.lor x 2]> (nru_array p)) (nru_candArray p) (nru_numLines p) (nru_numCands p)
                 (u32 (youngLines p + u32 (1 - Z.shiftr x 1))) (nru_candVal p)).
Definition NRU_recordCandidate (id : Z) (p : NRUReplPolicy) : NRUReplPolicy :=
  let iVal := word (nru_array p) id in
  let '(val, kept) :=
    if decide (iVal < nru_candVal p) then (iVal, [id])
    else if decide (iVal = nru_candVal p) then (nru_candVal p, nru_candArray p ++ [id])
    else (nru_candVal p, nru_candArray p) in
  mkNRU (nru_array p) kept (nru_numLines p) (nru_numCands p) (youngLines p) val.
Definition NRU_getBestCandidate : st NRUReplPolicy Z :=
  p ← gets (fun p => p);
  assert_ (bool_decide (nru_candIdx p > 0));;
  mret (nth (Z.to_nat (youngLines p `mod` nru_candIdx p)) (nru_candArray p) 0).
Definition NRU_replaced (id : Z) (p : NRUReplPolicy) : NRUReplPolicy :=
  mkNRU (<[id := 0]> (nru_array p)) [] (nru_numLines p) (nru_numCands p) (youngLines p) (Z.shiftl 1 20).

#[export] Instance NRU_policy : ReplPolicy NRUReplPolicy := {|
  rp_update := fun id _ => modify (NRU_update id);
  rp_replaced := fun id => modify (NRU_replaced id);
  rp_rank := legacy_rank (fun _ p => p) (fun _ => NRU_recordCandidate) NRU_getBestCandidate;
|}.

(** ** Random replacement *)

(** [MTRand::randInt(n)]: a number in [0, n]. *)
Class MTRand (R : Type) := randInt : Z -> R -> Z * R.
Class MTRandOk (R : Type) `{MTRand R} := randInt_range : forall n (g : R), 0 <= n -> 0 <= (randInt n g).1 <= n.

Record RandReplPolicy (R : Type) : Type := mkRand {
  rand_candArray : list Z;       (* its length is [candIdx] *)
  rand_numCands : Z;
  rand_rnd : R;
}.
Arguments mkRand {R} _ _ _.
Arguments rand_candArray {R} _.
Arguments rand_numCands {R} _.
Arguments rand_rnd {R} _.

Definition Rand_init {R} (numCands : Z) (rnd : R) : RandReplPolicy R := mkRand [] numCands rnd.
Definition Rand_recordCandidate {R} (id : Z) (p : RandReplPolicy R) : RandReplPolicy R :=
  mkRand (rand_candArray p ++ [id]) (rand_numCands p) (rand_rnd p).
Definition Rand_getBestCandidate {R} `{MTRand R} : st (RandReplPolicy R) Z :=
  p ← gets (fun p => p);
  assert_ (bool_decide (Z.of_nat (length (rand_candArray p)) = rand_numCands p));;
  let '(idx, rnd) := randInt (rand_numCands p - 1) (rand_rnd p) in
  modify (fun p => mkRand (rand_candArray p) (rand_numCands p) rnd);;
  mret (nth (Z.to_nat idx) (rand_candArray p) 0).
Definition Rand_replaced {R} (p : RandReplPolicy R) : RandReplPolicy R :=
  mkRand [] (rand_numCands p) (rand_rnd p).

#[export] Instance Rand_policy {R} `{MTRand R} : ReplPolicy (RandReplPolicy R) := {|
  rp_update := fun _ _ => mret tt;
  rp_replaced := fun _ => modify Rand_replaced;
  rp_rank := legacy_rank (fun _ p => p) (fun _ => Rand_recordCandidate) Rand_getBestCandidate;
|}.

(** ** LFU *)
Record LFUInfo : Type := mkLFUInfo { lfu_ts : Z; lfu_acc : Z }.
Record Rank : Type := mkRank { lfuInfo : LFUInfo; rank_sharers : Z; rank_valid : bool }.
Definition Rank_reset : Rank := mkRank (mkLFUInfo 0 0) 0 false.
(** [Rank::lessThan]: this line is a better victim than [other]. *)
Definition Rank_lessThan (a other : Rank) (curTs : Z) : bool :=
  if negb (rank_valid a) && rank_valid other then true
  else if eqb (rank_valid a) (rank_valid other) then
    if bool_decide (rank_sharers a = 0) && bool_decide (rank_sharers other > 0) then true
    else if bool_decide (rank_sharers a > 0) && bool_decide (rank_sharers other = 0) then false
    else if bool_decide (lfu_acc (lfuInfo a) = 0) then true
    else if bool_decide (lfu_acc (lfuInfo other) = 0) then false
    else
      let ownInvFreq := u64 (curTs - lfu_ts (lfuInfo a)) / lfu_acc (lfuInfo a) in
      let otherInvFreq := u64 (curTs - lfu_ts (lfuInfo other)) / lfu_acc (lfuInfo other) in
      bool_decide (ownInvFreq > otherInvFreq)
  else false.

Record LFUReplPolicy : Type := mkLFU {
  lfu_timestamp : Z;
  lfu_bestCandidate : Z;
  lfu_array : gmap Z LFUInfo;
  lfu_numLines : Z;
  lfu_bestRank : Rank;
}.
Definition lfu_info (p : LFUReplPolicy) (id : Z) : LFUInfo := default (mkLFUInfo 0 0) (lfu_array p !! id).
Definition LFU_init (n : Z) : LFUReplPolicy := mkLFU 1 (-1) ∅ n Rank_reset.
(** The timestamp of a line is the mean of its accesses' times. The division
    is by [acc + 1] on 64 bits; at the wrap to 0 the code would trap. *)
Definition LFU_update (id : Z) : st LFUReplPolicy unit :=
  p ← gets (fun p => p);
  let i := lfu_info p id in
  let n := u64 (lfu_acc i + 1) in
  if decide (n = 0) then fail Panicked
  else modify (fun p => mkLFU (u64 (lfu_timestamp p + 1000)) (lfu_bestCandidate p)
                (<[id := mkLFUInfo (u64 (lfu_acc i * lfu_ts i + lfu_timestamp p) / n) n]> (lfu_array p))
                (lfu_numLines p) (lfu_bestRank p)).
Definition LFU_recordCandidate (v : ReplView) (id : Z) (p : LFUReplPolicy) : LFUReplPolicy :=
  let candRank := mkRank (lfu_info p id) (rv_numSharers v id) (rv_isValid v id) in
  if bool_decide (lfu_bestCandidate p = -1) || Rank_lessThan candRank (lfu_bestRank p) (lfu_timestamp p)
  then mkLFU (lfu_timestamp p) (s32 id) (lfu_array p) (lfu_numLines p) candRank
  else p.
Definition LFU_getBestCandidate : st LFUReplPolicy Z :=
  p ← gets (fun p => p);
  assert_ (bool_decide (lfu_bestCandidate p <> -1));;
  mret (u32 (lfu_bestCandidate p)).
Definition LFU_replaced (id : Z) (p : LFUReplPolicy) : LFUReplPolicy :=
  mkLFU (lfu_timestamp p) (-1) (<[id := mkLFUInfo (lfu_ts (lfu_info p id)) 0]> (lfu_array p))
        (lfu_numLines p) Rank_reset.

#[export] Instance LFU_policy : ReplPolicy LFUReplPolicy := {|
  rp_update := fun id _ => LFU_update id;
  rp_replaced := fun id => modify (LFU_replaced id);
  rp_rank := legacy_rank (fun _ p => p) LFU_recordCandidate LFU_getBestCandidate;
|}.

(** ** Profiling of access-order violations *)
Record AccTimes : Type := mkAccTimes { at_read : Z; at_write : Z }.
Inductive ViolCounter : Type := vRAW | vWAR | vRAR | vWAW | vAAE | noViolAcc | noViolEv.
#[export] Instance ViolCounter_eq_dec : EqDecision ViolCounter.
Proof. solve_decision. Defined.

Section ProfViol.
Context {T : Type} `{!ReplPolicy T}.

Record ProfViolReplPolicy : Type := mkProfViol {
  pv_base : T;
  accTimes : gmap Z AccTimes;
  pv_count : ViolCounter -> Z;
  replCycle : Z;
}.
Definition acc_times (p : ProfViolReplPolicy) (id : Z) : AccTimes := default (mkAccTimes 0 0) (accTimes p !! id).
Definition pv_inc (c : ViolCounter) (p : ProfViolReplPolicy) : ProfViolReplPolicy :=
  mkProfViol (pv_base p) (accTimes p) (fun x => if decide (x = c) then u64 (pv_count p x + 1) else pv_count p x) (replCycle p).
Definition on_base {X} (m : st T X) : st ProfViolReplPolicy X := fun p =>
  match m (pv_base p) with
  | Ok (x, t') => Ok (x, mkProfViol t' (accTimes p) (pv_count p) (replCycle p))
  | Err f => Err f
  end.

(** Which counter an access at [cycle] falls into, given the times of its line. *)
Definition viol_kind (t : AccTimes) (read : bool) (cycle : Z) : ViolCounter :=
  if decide (cycle < Z.max (at_read t) (at_write t)) then
    let readViol :=
      if decide (cycle < Z.min (at_read t) (at_write t)) then bool_decide (at_read t < at_write t)
      else bool_decide (cycle < at_read t) in
    if read then (if readViol then vRAR else vRAW) else (if readViol then vWAR else vWAW)
  else noViolAcc.

(** [update] calls the update of the wrapped policy on entry and again on exit. *)
Definition ProfViol_update (id : Z) (r : MemReq) : st ProfViolReplPolicy unit :=
  on_base (rp_update id r);;
  let read := bool_decide (type r = GETS) in
  assert_ (read || bool_decide (type r = GETX));;
  t ← gets (fun p => acc_times p id);
  (if bool_decide (cycle r < Z.max (at_read t) (at_write t)) && negb (bool_decide (cycle r < Z.min (at_read t) (at_write t)))
      && negb (bool_decide (cycle r < at_read t))
   then assert_ (bool_decide (cycle r < at_write t)) else mret tt);;
  modify (pv_inc (viol_kind t read (cycle r)));;
  let t' := if read then mkAccTimes (Z.max (at_read t) (cycle r)) (at_write t)
            else mkAccTimes (at_read t) (Z.max (at_write t) (cycle r)) in
  modify (fun p => mkProfViol (pv_base p) (<[id := t']> (accTimes p)) (pv_count p) (replCycle p));;
  on_base (rp_update id r).

Definition ProfViol_replaced (id : Z) : st ProfViolReplPolicy unit :=
  on_base (rp_replaced id);;
  p ← gets (fun p => p);
  let t := acc_times p id in
  modify (pv_inc (if decide (replCycle p < Z.max (at_read t) (at_write t)) then vAAE else noViolEv));;
  modify (fun p => mkProfViol (pv_base p) (<[id := mkAccTimes 0 0]> (accTimes p)) (pv_count p) (replCycle p)).
End ProfViol.
Arguments ProfViolReplPolicy : clear implicits.

(** ** Lemmas: LRU's rank *)

(** The pass keeps the first candidate of least (truncated) score. *)
Lemma LRU_rank_fold v p cands best :
  let r := fold_left (LRU_rank_step v p) cands best in
  (r = best \/ (r.1 ∈ cands /\ r.2 = u32 (LRU_score v p r.1) /\ r.2 < best.2)) /\ r.2 <= best.2 /\
  Forall (fun c => r.2 <= u32 (LRU_score v p c)) cands.
Proof.
  revert best. induction cands as [|c cands IH]; intros best; simpl; [split_and!; [by left|lia|constructor]|].
  set (best' := LRU_rank_step v p best c). destruct (IH best') as (Hr & Hle & Hall).
  assert (best'.2 = Z.min (u32 (LRU_score v p c)) best.2) as Hb2 by done.
  assert (best' = best \/ best'.1 = c /\ best'.2 = u32 (LRU_score v p c) /\ best'.2 < best.2) as Hb.
  { unfold best', LRU_rank_step. destruct (Z.ltb_spec (u32 (LRU_score v p c)) best.2); simpl.
    - right. split_and!; [done|lia|lia].
    - left. destruct best; simpl in *. f_equal. lia. }
  split_and!; [|lia|constructor; [lia|done]].
  destruct Hr as [Hr|(Hin & Hs & Hlt)].
  - destruct Hb as [Hb|(Hc & Hs & Hlt)]; [left; congruence|right].
    rewrite Hr, Hc. split_and!; [constructor|congruence|lia].
  - right. split_and!; [by constructor|done|lia].
Qed.

Lemma LRU_rank_spec v p cands : cands <> [] ->
  LRU_rank v p cands ∈ cands /\
  Forall (fun c => u32 (LRU_score v p (LRU_rank v p cands)) <= u32 (LRU_score v p c)) cands.
Proof.
  intros Hne. unfold LRU_rank. set (best := (W32 - 1, W64 - 1)).
  destruct (LRU_rank_fold v p cands best) as (Hr & _ & Hall).
  destruct Hr as [Hr|(Hin & Hs & _)].
  - destruct cands as [|c cands]; [done|]. rewrite Forall_cons in Hall. destruct Hall as [Hc _].
    rewrite Hr in Hc. pose proof (u32_range (LRU_score v p c)) as Hu. unfold best, in_u32, W32, W64 in *. simpl in Hc. lia.
  - by rewrite <- Hs.
Qed.

(** ** What the policies promise *)
#[export] Program Instance LRU_ok : ReplPolicyOk LRUReplPolicy := {|
  rp_inv := fun _ _ => True;
  rp_lines := lru_numLines;
  rp_ncands := fun _ n => n <> 0%nat;
|}.
Next Obligation. by intros. Qed.
Next Obligation. by intros. Qed.
Next Obligation.
  intros p v r cands _ Hn _. apply wp_gets. split; [|done]. apply LRU_rank_spec. by intros ->.
Qed.

#[export] Program Instance TreeLRU_ok : ReplPolicyOk TreeLRUReplPolicy := {|
  rp_inv := fun _ _ => True;
  rp_lines := fun p => lru_numLines (tree_lru p);
  rp_ncands := fun _ n => n <> 0%nat;
|}.
Next Obligation. by intros. Qed.
Next Obligation. by intros. Qed.
Next Obligation.
  intros p v r cands _ Hn _. apply wp_gets. split; [|done]. apply LRU_rank_spec. by intros ->.
Qed.

Lemma nth_elem {X} (l : list X) n d : (n < length l)%nat -> nth n l d ∈ l.
Proof. intros Hn. apply list_elem_of_In. by apply nth_In. Qed.

(** The candidates that random replacement has recorded. *)
Lemma Rand_record_all {R} (p : RandReplPolicy R) cands :
  fold_left (fun p c => Rand_recordCandidate c p) cands p =
  mkRand (rand_candArray p ++ cands) (rand_numCands p) (rand_rnd p).
Proof.
  revert p. induction cands as [|c cands IH]; intros p; simpl.
  - rewrite app_nil_r. by destruct p.
  - rewrite IH. simpl. by rewrite <- app_assoc.
Qed.

#[export] Program Instance Rand_ok {R} `{MTRandOk R} (n : Z) : ReplPolicyOk (RandReplPolicy R) := {|
  rp_inv := fun b p => b = false -> rand_candArray p = [];
  rp_lines := fun _ => n;
  rp_ncands := fun p k => Z.of_nat k = rand_numCands p /\ k <> 0%nat;
|}.
Next Obligation. by intros. Qed.
Next Obligation. by intros. Qed.
Next Obligation.
  intros R ? ? n p v r cands Hp [Hk Hne] _. unfold rp_rank. simpl. unfold legacy_rank, wp.
  rewrite Rand_record_all, (Hp eq_refl). simpl. unfold Rand_getBestCandidate, mbind, st_bind, gets, assert_, modify, mret, st_ret.
  simpl. rewrite bool_decide_true by done.
  destruct (randInt _ _) as [idx rnd'] eqn:Hr. split; [|done].
  pose proof (randInt_range (rand_numCands p - 1) (rand_rnd p)) as Hrg. rewrite Hr in Hrg. simpl in Hrg.
  apply nth_elem. lia.
Qed.

(** The legacy fold of LFU: a candidate is always kept. *)
Lemma LFU_fold v p cands :
  (lfu_bestCandidate p = -1 \/ exists c, lfu_bestCandidate p = c /\ 0 <= c < W32 / 2) ->
  Forall (fun c => 0 <= c < W32 / 2) cands ->
  let p' := fold_left (fun p c => LFU_recordCandidate v c p) cands p in
  lfu_numLines p' = lfu_numLines p /\
  ((lfu_bestCandidate p' = lfu_bestCandidate p /\ (cands = [] \/ lfu_bestCandidate p <> -1)) \/ lfu_bestCandidate p' ∈ cands).
Proof.
  intros Hb Hall. revert p Hb. induction Hall as [|c cands Hc Hall IH]; intros p Hb; simpl; [split; [done|left; auto]|].
  assert (s32 c = c) as Hs.
  { unfold s32. change (W32 / 2) with 2147483648 in *.
    assert (u32 c = c) as -> by (apply u32_id; unfold in_u32, W32; lia). rewrite decide_True; [done|]. apply Hc. }
  unfold LFU_recordCandidate at 2 4 6.
  destruct (bool_decide (lfu_bestCandidate p = -1) || _) eqn:Hx.
  - set (p1 := mkLFU _ _ _ _ _). destruct (IH p1) as [Hn Hc'].
    { right. exists c. split; [apply Hs|done]. }
    split; [done|]. right. destruct Hc' as [[-> _]|Hin]; [simpl; rewrite Hs; constructor|by constructor].
  - apply orb_false_iff in Hx as [Hx _]. apply bool_decide_eq_false in Hx.
    destruct (IH p Hb) as [Hn [[Heq _]|Hin]]; (split; [done|]); [left; auto|right; by constructor].
Qed.

(** How evictable LFU finds a line, before frequencies: invalid lines first,
    then lines without sharers. *)
Definition lfu_class (r : Rank) : Z :=
  (if rank_valid r then 2 else 0) + (if decide (rank_sharers r = 0) then 0 else 1).

Lemma lessThan_class a b ts : 0 <= rank_sharers a -> 0 <= rank_sharers b ->
  if Rank_lessThan a b ts then lfu_class a <= lfu_class b else lfu_class b <= lfu_class a.
Proof.
  intros Ha Hb. unfold Rank_lessThan, lfu_class.
  destruct (rank_valid a), (rank_valid b); simpl;
    repeat case_bool_decide; repeat case_decide; simpl; lia.
Qed.

Definition cand_rank (v : ReplView) (p : LFUReplPolicy) (id : Z) : Rank :=
  mkRank (lfu_info p id) (rv_numSharers v id) (rv_isValid v id).

Lemma LFU_fold_class v p cands : (forall id, 0 <= rv_numSharers v id) ->
  Forall (fun c => 0 <= c < W32 / 2) cands ->
  (lfu_bestCandidate p = -1 \/ lfu_bestRank p = cand_rank v p (lfu_bestCandidate p)) ->
  let p' := fold_left (fun p c => LFU_recordCandidate v c p) cands p in
  lfu_array p' = lfu_array p /\
  (lfu_bestCandidate p' = -1 \/ lfu_bestRank p' = cand_rank v p (lfu_bestCandidate p')) /\
  (lfu_bestCandidate p <> -1 -> lfu_class (lfu_bestRank p') <= lfu_class (lfu_bestRank p)) /\
  Forall (fun c => lfu_class (lfu_bestRank p') <= lfu_class (cand_rank v p c)) cands.
Proof.
  intros Hsh Hall. revert p. induction Hall as [|c cands Hc Hall IH]; intros p Hp; simpl; [by split_and!|].
  assert (s32 c = c) as Hs.
  { unfold s32. change (W32 / 2) with 2147483648 in *.
    assert (u32 c = c) as -> by (apply u32_id; unfold in_u32, W32; lia). rewrite decide_True; [done|]. apply Hc. }
  destruct (LFU_recordCandidate v c p) as [ts bc ar nl br] eqn:Hrec. unfold LFU_recordCandidate in Hrec.
  fold (cand_rank v p c) in Hrec.
  pose proof (lessThan_class (cand_rank v p c) (lfu_bestRank p) (lfu_timestamp p) (Hsh c)) as Hless.
  assert (ar = lfu_array p /\ bc <> -1 /\ br = cand_rank v p bc /\ lfu_class br <= lfu_class (cand_rank v p c) /\
    (lfu_bestCandidate p <> -1 -> lfu_class br <= lfu_class (lfu_bestRank p))) as (Har & Hbc & Hbr & Hcl & Hmono).
  { destruct (bool_decide (lfu_bestCandidate p = -1)) eqn:Hno; simpl in Hrec.
    - apply bool_decide_eq_true in Hno. injection Hrec as <- <- <- <- <-. rewrite Hs. by split_and!; [|lia|..].
    - apply bool_decide_eq_false in Hno. destruct Hp as [|Hp]; [done|].
      rewrite Hp in Hless. specialize (Hless (Hsh _)). rewrite <- Hp in Hless.
      destruct (Rank_lessThan _ _ _).
      + injection Hrec as <- <- <- <- <-. rewrite Hs. by split_and!; [|lia|..].
      + rewrite Hrec in Hp, Hno, Hless |- *. simpl in *. by split_and!. }
  destruct (IH (mkLFU ts bc ar nl br)) as (HA & HB & HC & HD).
  { right. simpl. rewrite Hbr. unfold cand_rank, lfu_info. simpl. by rewrite Har. }
  assert (forall id, cand_rank v (mkLFU ts bc ar nl br) id = cand_rank v p id) as Hcr.
  { intros id. unfold cand_rank, lfu_info. simpl. by rewrite Har. }
  simpl in HA, HC. specialize (HC Hbc). split_and!.
  - by rewrite HA.
  - by rewrite <- Hcr.
  - intros Hne. specialize (Hmono Hne). lia.
  - constructor; [lia|]. eapply Forall_impl; [apply HD|]. intros id Hid. by rewrite <- Hcr.
Qed.

(** ** NRU *)
Definition nru_bits (m : gmap Z Z) : Prop := forall i, 0 <= word m i <= 3.

Record nru_inv (b : bool) (p : NRUReplPolicy) : Prop := {
  ni_bits : nru_bits (nru_array p);
  ni_young : youngLines p = 0 \/ 0 <= youngLines p < nru_numLines p / 2;
  ni_lines : in_u32 (nru_numLines p);
  ni_kept : b = false -> nru_candArray p = [] /\ nru_candVal p = Z.shiftl 1 20;
}.

Lemma nru_bits_insert m i x : nru_bits m -> 0 <= x <= 3 -> nru_bits (<[i := x]> m).
Proof. intros Hm Hx j. rewrite word_insert. case_decide; auto. Qed.

Lemma nru_bits_shift m : nru_bits m -> nru_bits (fmap (fun x => Z.shiftr x 1) m).
Proof.
  intros Hm i. specialize (Hm i). unfold word in *. rewrite lookup_fmap.
  destruct (m !! i) as [x|]; simpl in *; [|lia]. rewrite Z.shiftr_div_pow2 by lia.
  change (2 ^ 1) with 2. split; [apply Z.div_pos; lia|]. apply Z.div_le_upper_bound; lia.
Qed.

Lemma two_bits x : 0 <= x <= 3 -> (Z.lor x 2 = 2 \/ Z.lor x 2 = 3) /\ (Z.shiftr x 1 = 0 \/ Z.shiftr x 1 = 1).
Proof.
  intros Hx. assert (x = 0 \/ x = 1 \/ x = 2 \/ x = 3) as H by lia.
  destruct H as [-> | [-> | [-> | ->]]]; cbv; auto.
Qed.

Lemma NRU_update_inv b id p : nru_inv b p -> nru_inv b (NRU_update id p).
Proof.
  intros [Hb Hy Hl Hk]. unfold NRU_update, NRU_age. destruct (two_bits _ (Hb id)) as [Hlor Hsh].
  set (y := u32 _).
  assert (0 <= y) by (unfold y; apply u32_range).
  case_decide as Hage; split; simpl in *; auto.
  - apply nru_bits_shift, nru_bits_insert; [done|lia].
  - apply nru_bits_insert; [done|lia].
  - right. lia.
Qed.

Lemma NRU_fold p cands seen :
  let kept p := nru_candArray p in
  nru_bits (nru_array p) ->
  (forall x, x ∈ kept p -> x ∈ seen /\ word (nru_array p) x = nru_candVal p) ->
  Forall (fun x => nru_candVal p <= word (nru_array p) x) seen ->
  (kept p = [] -> nru_candVal p = Z.shiftl 1 20) ->
  let p' := fold_left (fun p c => NRU_recordCandidate c p) cands p in
  nru_array p' = nru_array p /\ youngLines p' = youngLines p /\ nru_numLines p' = nru_numLines p /\
  (forall x, x ∈ kept p' -> x ∈ seen ++ cands /\ word (nru_array p) x = nru_candVal p') /\
  Forall (fun x => nru_candVal p' <= word (nru_array p) x) (seen ++ cands) /\
  (cands <> [] \/ kept p <> [] -> kept p' <> []).
Proof.
  intros kept. revert p seen. induction cands as [|c cands IH]; intros p seen Hb Hin Hmin Hemp; simpl.
  { rewrite app_nil_r. split_and!; try done. by intros [|]. }
  assert (exists val l, NRU_recordCandidate c p = mkNRU (nru_array p) l (nru_numLines p) (nru_numCands p) (youngLines p) val /\
    (forall x, x ∈ l -> x ∈ seen ++ [c] /\ word (nru_array p) x = val) /\
    Forall (fun x => val <= word (nru_array p) x) (seen ++ [c]) /\ l <> []) as (val & l & Hrec & Hl & Hv & Hne).
  { unfold NRU_recordCandidate. case_decide as H1; [|case_decide as H2]; (do 2 eexists; split; [reflexivity|]).
    - split_and!; [|apply Forall_app; split; [|by repeat constructor]|done].
      + intros x ->%list_elem_of_singleton. split; [|done]. apply elem_of_app. right. constructor.
      + eapply Forall_impl; [exact Hmin|]. simpl. lia.
    - split_and!; [|apply Forall_app; split; [done|constructor; [lia|done]]|by destruct (nru_candArray p)].
      intros x [Hx|Hx%list_elem_of_singleton]%elem_of_app; rewrite elem_of_app.
      + destruct (Hin x Hx). auto.
      + subst. split; [right; constructor|done].
    - split_and!; [|apply Forall_app; split; [done|constructor; [lia|done]]|].
      + intros x Hx. destruct (Hin x Hx). rewrite elem_of_app. auto.
      + intros Hnil. specialize (Hemp Hnil). specialize (Hb c). change (Z.shiftl 1 20) with 1048576 in Hemp. lia. }
  rewrite Hrec. destruct (IH (mkNRU (nru_array p) l (nru_numLines p) (nru_numCands p) (youngLines p) val) (seen ++ [c]))
    as (Ha & Hy & Hn & Hk & Hm & Hnn); [done|done|done|done|].
  rewrite <- app_assoc in *. simpl in *. split_and!; try done. intros _. apply Hnn. by right.
Qed.

Lemma NRU_best_spec p : nru_candArray p <> [] ->
  wp NRU_getBestCandidate p (fun id p' => id ∈ nru_candArray p /\ p' = p).
Proof.
  intros Hne. unfold NRU_getBestCandidate, nru_candIdx.
  assert (0 < length (nru_candArray p))%nat by (destruct (nru_candArray p); [done|simpl; lia]).
  do 2 wp_step. wp_step. apply wp_assert; [apply bool_decide_eq_true; lia|]. wp_step. split; [|done].
  apply nth_elem. pose proof (Z.mod_pos_bound (youngLines p) (Z.of_nat (length (nru_candArray p)))). lia.
Qed.

Lemma NRU_rank_spec p v r cands :
  nru_inv false p -> cands <> [] ->
  wp (rp_rank v r cands) p (fun id p' => id ∈ cands /\
    Forall (fun x => word (nru_array p) id <= word (nru_array p) x) cands /\
    nru_inv true p' /\ nru_numLines p' = nru_numLines p).
Proof.
  intros [Hb Hy Hl Hk] Hne. destruct (Hk eq_refl) as [Hk0 Hv0]. unfold rp_rank. simpl. unfold legacy_rank.
  destruct (NRU_fold p cands []) as (Ha & Hy' & Hn & Hkept & Hmin & Hnn); rewrite ?Hk0; [done| |constructor|done|].
  { intros x Hx. by apply not_elem_of_nil in Hx. }
  simpl in Hkept, Hmin. set (p' := fold_left _ _ _) in *.
  change (wp NRU_getBestCandidate p' (fun id p' => id ∈ cands /\
    Forall (fun x => word (nru_array p) id <= word (nru_array p) x) cands /\
    nru_inv true p' /\ nru_numLines p' = nru_numLines p)).
  eapply wp_mono; [apply NRU_best_spec, Hnn; by left|].
  intros i ? [Hi ->]. destruct (Hkept i Hi) as [Hic ->]. split_and!; try done. split; rewrite ?Ha, ?Hy', ?Hn; done.
Qed.

#[export] Program Instance NRU_ok : ReplPolicyOk NRUReplPolicy := {|
  rp_inv := nru_inv;
  rp_lines := nru_numLines;
  rp_ncands := fun _ n => n <> 0%nat;
|}.
Next Obligation.
  intros b p id r HI _. apply wp_modify. split; [by apply NRU_update_inv|]. unfold NRU_update, NRU_age. by case_decide.
Qed.
Next Obligation.
  intros b p id [Hb Hy Hl Hk] _. apply wp_modify. split; [|done]. split; simpl; auto. by apply nru_bits_insert.
Qed.
Next Obligation.
  intros p v r cands HI Hn _. eapply wp_mono; [apply NRU_rank_spec; [done|by intros ->]|].
  by intros id p' (? & _ & ? & ?).
Qed.

(** ** LRU over a history of accesses *)
Inductive ReplEvent : Type := Touch (id : Z) | Replace (id : Z).

Definition LRU_event (e : ReplEvent) (p : LRUReplPolicy) : LRUReplPolicy :=
  match e with Touch id => LRU_update id p | Replace id => LRU_replaced id p end.
(** The policy after a history, newest event first. *)
Definition LRU_run (aware : bool) (n : Z) (h : list ReplEvent) : LRUReplPolicy :=
  foldr LRU_event (LRU_init aware n) h.

Fixpoint touches (h : list ReplEvent) : Z :=
  match h with [] => 0 | Touch _ :: h => touches h + 1 | Replace _ :: h => touches h end.
(** When line [id] was last touched since it was last replaced; 0 if never. *)
Fixpoint last_use (h : list ReplEvent) (id : Z) : Z :=
  match h with
  | [] => 0
  | Touch j :: h => if decide (id = j) then touches h + 1 else last_use h id
  | Replace j :: h => if decide (id = j) then 0 else last_use h id
  end.

Lemma touches_nonneg h : 0 <= touches h.
Proof. induction h as [|[] h]; simpl; lia. Qed.

Lemma last_use_bound h id : 0 <= last_use h id <= touches h.
Proof.
  pose proof (touches_nonneg h). induction h as [|[j|j] h IH]; simpl in *; [lia|..]; case_decide;
    try specialize (IH ltac:(pose proof (touches_nonneg h); lia)); pose proof (touches_nonneg h); lia.
Qed.

Lemma LRU_run_state aware n h : touches h + 1 < W64 ->
  sharersAware (LRU_run aware n h) = aware /\ timestamp (LRU_run aware n h) = touches h + 1 /\
  lru_numLines (LRU_run aware n h) = n /\ forall id, word (lru_array (LRU_run aware n h)) id = last_use h id.
Proof.
  induction h as [|[j|j] h IH]; simpl; intros Hb; [split_and!; try done; intros; apply word_empty|..].
  - destruct IH as (Ha & Ht & Hn & Hw); [lia|]. rewrite Ht. split_and!; try done.
    + apply u64_id. pose proof (touches_nonneg h). unfold in_u64. lia.
    + intros id. rewrite word_insert. case_decide; [done|apply Hw].
  - destruct IH as (Ha & Ht & Hn & Hw); [lia|]. split_and!; try done.
    intros id. rewrite word_insert. case_decide; [done|apply Hw].
Qed.

(** A valid line's last use; an invalid line counts as never used. *)
Definition recency (v : ReplView) (h : list ReplEvent) (id : Z) : Z :=
  if rv_isValid v id then last_use h id else 0.

Lemma LRU_score_run aware n v h id : 0 <= rv_numSharers v id ->
  (rv_numSharers v id + 1) * (touches h + 1) <= W32 ->
  u32 (LRU_score v (LRU_run aware n h) id) =
    (if aware then rv_numSharers v id else 0) * (touches h + 1) + recency v h id.
Proof.
  intros Hs Hb. pose proof (touches_nonneg h). pose proof (last_use_bound h id).
  assert (touches h + 1 <= W32) by nia.
  destruct (LRU_run_state aware n h) as (Ha & Ht & _ & Hw); [unfold W32, W64 in *; lia|].
  unfold LRU_score, recency. rewrite Ha, Ht, Hw.
  assert (0 <= (if aware then rv_numSharers v id else 0) * (touches h + 1) + (if rv_isValid v id then last_use h id else 0) < W32).
  { destruct aware, (rv_isValid v id); nia. }
  rewrite u64_id by (unfold in_u64, W64, W32 in *; destruct (rv_isValid v id); lia).
  rewrite u32_id; destruct (rv_isValid v id); unfold in_u32 in *; lia.
Qed.

(** The same history on any policy. *)
Section PolicyRun.
Context {P : Type} `{!ReplPolicy P}.
Definition policy_event (r : MemReq) (e : ReplEvent) : st P unit :=
  match e with Touch id => rp_update id r | Replace id => rp_replaced id end.
Fixpoint policy_run (r : MemReq) (h : list ReplEvent) : st P unit :=
  match h with [] => mret tt | e :: h => policy_run r h;; policy_event r e end.
End PolicyRun.

Lemma Tree_run n k r h : wp (policy_run r h) (mkTree (LRU_init true n) ∅ k 0) (fun _ p => tree_lru p = LRU_run true n h).
Proof.
  induction h as [|e h IH]; [done|]. simpl. apply wp_bind. eapply wp_mono; [apply IH|].
  intros [] p Hp; cbv beta in Hp. destruct e; simpl; apply wp_modify; simpl; by rewrite Hp.
Qed.

(** ** Properties *)

(** C29: What LRU ranks by, as long as its 32-bit scores do not overflow.  After
    any history of touches and replacements, the victim has the fewest sharers
    (when sharers-aware), and among those with as few sharers it is invalid or
    the one whose last use is the oldest.  The comment on the score puts
    validity first: that is so when invalid lines have no sharers and valid ones
    have been used since they were filled, as in a cache; then the victim is
    invalid if any candidate is, and otherwise has the fewest sharers, and the
    oldest use among those.  (An invalid line with sharers would come
    after a valid one without: [LRU_sharers_before_validity].) *)
Theorem LRU_victim_lexicographic (aware : bool) (n : Z) (v : ReplView) (h : list ReplEvent) (cands : list Z) :
  cands <> [] ->
  Forall (fun c => 0 <= rv_numSharers v c /\ (rv_numSharers v c + 1) * (touches h + 1) <= W32) cands ->
  let victim := LRU_rank v (LRU_run aware n h) cands in
  let sharers c := if aware then rv_numSharers v c else 0 in
  victim ∈ cands /\
  Forall (fun c => sharers victim < sharers c \/
                   (sharers victim = sharers c /\ recency v h victim <= recency v h c)) cands /\
  (Forall (fun c => if rv_isValid v c then 0 < last_use h c else rv_numSharers v c = 0) cands ->
   rv_isValid v victim = true -> Forall (fun c => rv_isValid v c = true) cands).
Proof.
  intros Hne Hb victim sharers. destruct (LRU_rank_spec v (LRU_run aware n h) cands Hne) as [Hin Hmin].
  fold victim in Hin, Hmin. split; [done|]. rewrite Forall_forall in Hb, Hmin.
  assert (forall id, 0 <= recency v h id <= touches h) as Hr.
  { intros id. unfold recency. pose proof (last_use_bound h id). pose proof (touches_nonneg h).
    destruct (rv_isValid v id); lia. }
  assert (forall c, c ∈ cands -> sharers victim < sharers c \/ (sharers victim = sharers c /\ recency v h victim <= recency v h c)) as Hlex.
  { intros c Hc. specialize (Hmin c Hc). destruct (Hb c Hc) as [Hc1 Hc2]. destruct (Hb victim Hin) as [Hv1 Hv2].
    rewrite !LRU_score_run in Hmin by done. unfold sharers. pose proof (Hr c). pose proof (Hr victim).
    destruct aware; [|right; split; [done|lia]].
    destruct (Z.lt_trichotomy (rv_numSharers v victim) (rv_numSharers v c)) as [?|[Heq|?]]; [by left|right|nia].
    split; [done|]. rewrite Heq in Hmin. lia. }
  split; [by apply Forall_forall|]. rewrite !Forall_forall. intros Hfill Hval c Hc.
  destruct (rv_isValid v c) eqn:Hvc; [done|]. exfalso.
  pose proof (Hfill _ Hc) as H1. rewrite Hvc in H1. pose proof (Hfill _ Hin) as H2. rewrite Hval in H2.
  pose proof (Hlex c Hc) as H3. unfold recency in H3. rewrite Hvc, Hval in H3.
  destruct (Hb victim Hin) as [? _]. unfold sharers in H3. destruct aware; lia.
Qed.
Lemma LRU_victim_lexicographic_witness :
  let v := mkView (fun _ => true) (fun id => if decide (id = 2) then 1 else 0) in
  let h := [Touch 2; Touch 0; Touch 1; Touch 0] in
  LRU_rank v (LRU_run true 4 h) [2; 0; 1] = 1 /\ 1 ∈ [2; 0; 1] /\ Forall (fun c => rv_isValid v c = true) [2; 0; 1].
Proof.
  intros v h. split; [reflexivity|].
  destruct (LRU_victim_lexicographic true 4 v h [2; 0; 1]) as (Hin & _ & Hval); [done| |].
  - repeat constructor; vm_compute; congruence.
  - split; [exact Hin|]. apply Hval; [repeat constructor|reflexivity].
Defined.

(** An invalid line that has sharers is kept, and a valid one evicted. *)
Example LRU_sharers_before_validity :
  LRU_rank (mkView (fun id => bool_decide (id = 1)) (fun id => if decide (id = 0) then 1 else 0))
    (LRU_run true 2 [Touch 1; Touch 0]) [0; 1] = 1.
Proof. reflexivity. Qed.

(** Once the access counter has passed 2^32, LRU's rank may evict the most
    recently used line: a score is truncated to 32 bits before it is compared,
    and here line 0, used after line 1, is chosen as the victim. *)
Theorem LRU_rank_truncates :
  let v := mkView (fun _ => true) (fun _ => 0) in
  let p := LRU_update 0 (mkLRU false W32 {[1 := 5]} 2) in
  word (lru_array p) 1 < word (lru_array p) 0 /\ LRU_rank v p [0; 1] = 0 /\
  LRU_score v p 1 < LRU_score v p 0.
Proof. by vm_compute. Qed.

(** NRU keeps its two bits per line and its count of young lines in
    bounds, and chooses a victim with the least reference bits among the candidates. *)
Theorem NRU_victim_least_referenced (p : NRUReplPolicy) (id : Z) (v : ReplView) (r : MemReq) (cands : list Z) :
  nru_inv false p -> cands <> [] ->
  nru_inv false (NRU_update id p) /\ nru_inv false (NRU_replaced id p) /\
  wp (rp_rank v r cands) p (fun victim _ =>
    victim ∈ cands /\ Forall (fun c => word (nru_array p) victim <= word (nru_array p) c) cands).
Proof.
  intros HI Hne. split; [by apply NRU_update_inv|]. split.
  - destruct HI as [Hb Hy Hl Hk]. split; simpl; auto. by apply nru_bits_insert.
  - eapply wp_mono; [by apply NRU_rank_spec|]. by intros i p' (? & ? & _).
Qed.
Lemma NRU_victim_least_referenced_witness :
  let p := NRU_update 1 (NRU_update 0 (NRU_init 8 4)) in
  nru_inv false p /\ nru_inv false (NRU_update 2 p).
Proof.
  intros p. assert (nru_inv false p) as Hp.
  { do 2 apply NRU_update_inv. split; simpl; [intros i; rewrite word_empty; lia|by left|by split|done]. }
  split; [exact Hp|].
  destruct (NRU_victim_least_referenced p 2 (mkView (fun _ => true) (fun _ => 0))
    (mkReq 1 GETS 0 CoreState 0 I 0 0) [1; 3] Hp) as [HU _]; [done|exact HU].
Defined.

(** LFU's victim is invalid if some candidate is, and otherwise has no
    sharers if some candidate has none, whatever the frequencies are. *)
Theorem LFU_victim_class (n : Z) (p : LFUReplPolicy) (v : ReplView) (r : MemReq) (cands : list Z) :
  lfu_bestCandidate p = -1 -> cands <> [] -> (forall id, 0 <= rv_numSharers v id) ->
  Forall (fun c => 0 <= c < W32 / 2) cands ->
  wp (rp_rank v r cands) p (fun victim p' => victim ∈ cands /\
    Forall (fun c => lfu_class (cand_rank v p victim) <= lfu_class (cand_rank v p c)) cands).
Proof.
  intros Hp Hne Hsh Hall. unfold rp_rank. simpl. unfold legacy_rank.
  destruct (LFU_fold v p cands (or_introl Hp) Hall) as [_ Hin].
  destruct (LFU_fold_class v p cands Hsh Hall (or_introl Hp)) as (_ & Hbest & _ & Hmin).
  set (p' := fold_left _ _ _) in *.
  assert (lfu_bestCandidate p' ∈ cands) as Hc by (destruct Hin as [[_ [|]]|]; done).
  rewrite Forall_forall in Hall. pose proof (Hall _ Hc) as Hrange.
  change (wp LFU_getBestCandidate p' (fun victim _ => victim ∈ cands /\
    Forall (fun c => lfu_class (cand_rank v p victim) <= lfu_class (cand_rank v p c)) cands)).
  unfold LFU_getBestCandidate. do 2 wp_step. wp_step. apply wp_assert; [apply bool_decide_eq_true; lia|]. wp_step.
  rewrite u32_id by (change (W32 / 2) with 2147483648 in *; unfold in_u32, W32; lia).
  split; [done|]. destruct Hbest as [|<-]; [lia|]. exact Hmin.
Qed.
Lemma LFU_victim_class_witness :
  let v := mkView (fun id => bool_decide (id <> 3)) (fun _ => 1) in
  lfu_bestCandidate (LFU_init 8) = -1 /\ is_ok (rp_rank v (mkReq 1 GETS 0 CoreState 0 I 0 0) [1; 3; 5] (LFU_init 8)) = true.
Proof.
  intros v. split; [reflexivity|].
  pose proof (LFU_victim_class 8 (LFU_init 8) v (mkReq 1 GETS 0 CoreState 0 I 0 0) [1; 3; 5]) as H.
  assert (wp (rp_rank v (mkReq 1 GETS 0 CoreState 0 I 0 0) [1; 3; 5]) (LFU_init 8) (fun _ _ => True)) as Hw.
  { eapply wp_mono; [apply H; [reflexivity|done|intros; simpl; lia|repeat constructor; vm_compute; congruence]|done]. }
  unfold wp in Hw. by destruct (rp_rank _ _ _ _).
Defined.

(** TreeLRU evicts exactly as sharers-aware LRU does, whatever happened
    before: rankCands is the non-virtual one it inherits, so that its tree
    search is never used. *)
Theorem TreeLRU_is_LRU (n numCands : Z) (h : list ReplEvent) (v : ReplView) (r : MemReq) (cands : list Z) :
  wp (policy_run r h;; rp_rank v r cands) (mkTree (LRU_init true n) ∅ numCands 0)
     (fun victim _ => victim = LRU_rank v (LRU_run true n h) cands).
Proof.
  apply wp_bind. eapply wp_mono; [apply Tree_run|]. intros [] p Hp. simpl in *. apply wp_gets. by rewrite Hp.
Qed.

(** the profiling wrapper advances the policy it wraps twice per access:
    an LRU wrapped by it spends two timestamps on every update. *)
Theorem ProfViol_double_update (n id : Z) (r : MemReq) (p : ProfViolReplPolicy LRUReplPolicy) :
  IsGet (type r) = true -> timestamp (pv_base p) + 2 < W64 -> 0 <= timestamp (pv_base p) ->
  wp (ProfViol_update id r) p (fun _ p' =>
    timestamp (pv_base p') = timestamp (pv_base p) + 2 /\
    at_read (acc_times p' id) = (if decide (type r = GETS) then Z.max (at_read (acc_times p id)) (cycle r) else at_read (acc_times p id)) /\
    at_write (acc_times p' id) = (if decide (type r = GETX) then Z.max (at_write (acc_times p id)) (cycle r) else at_write (acc_times p id))).
Proof.
  intros Hget Hts H0. unfold ProfViol_update. wp_step.
  apply wp_mono with (Q := fun _ p1 => p1 = mkProfViol (LRU_update id (pv_base p)) (accTimes p) (pv_count p) (replCycle p)); [reflexivity|].
  intros _ ? ->. wp_step. apply wp_assert; [by destruct (type r)|]. do 2 wp_step. wp_step.
  set (p1 := mkProfViol _ _ _ _). eapply wp_mono with (Q := fun _ p2 => p2 = p1).
  { destruct (_ && _) eqn:Hb; [|done]. wp_step; [|done].
    rewrite !andb_true_iff, !negb_true_iff, !bool_decide_eq_true, !bool_decide_eq_false in Hb.
    apply bool_decide_eq_true. lia. }
  intros _ ? ->. do 4 wp_step.
  assert (forall q : ProfViolReplPolicy LRUReplPolicy, wp (on_base (rp_update id r)) q (fun _ q' =>
    q' = mkProfViol (LRU_update id (pv_base q)) (accTimes q) (pv_count q) (replCycle q))) as Hu by reflexivity.
  eapply wp_mono; [apply Hu|]. intros _ ? ->. simpl. rewrite !(u64_id (timestamp (pv_base p) + 1)), u64_id by (unfold in_u64; lia).
  split; [lia|]. unfold acc_times. simpl. rewrite !lookup_insert_eq. by destruct (type r).
Qed.
Lemma ProfViol_double_update_witness :
  let r := mkReq 1 GETS 0 CoreState 77 I 0 0 in
  let p := mkProfViol (LRU_init true 4) ∅ (fun _ => 0) 0 in
  wp (ProfViol_update 2 r) p (fun _ p' => timestamp (pv_base p') = 3).
Proof.
  intros r p. eapply wp_mono; [apply (ProfViol_double_update 4 2 r p); [reflexivity|vm_compute; congruence|vm_compute; congruence]|].
  intros _ p' [H _]. exact H.
Defined.
