(* ===== verification/CacheArrays.v ===== *)
(** * Cache arrays (cache_arrays.h, cache_arrays.cpp)

    The set-associative array and the zcache array, over any replacement
    policy and hash family that keep their contracts. *)

From stdpp Require Import base tactics numbers list gmap sets.
From Stdlib Require Import ZArith Lia.
From S2P Require Import Prelude.
From S2P Require Import MemTypes.
From S2P Require Import Hash.
From S2P Require Import ReplPolicies.

Open Scope Z_scope.

Section Arrays.
Context {P H : Type} `{!ReplPolicy P} `{!HashFamily H}.

(** ** The set-associative array *)
Record SetAssocArray : Type := mkSA {
  sa_array : gmap Z Z;
  sa_rp : P;
  sa_hf : H;
  sa_numLines : Z;
  sa_numSets : Z;
  sa_assoc : Z;
  sa_setMask : Z;
}.
Definition SetAssoc_init (numLines assoc : Z) (rp : P) (hf : H) : result SetAssocArray :=
  let numSets := numLines / assoc in
  if isPow2 numSets then Ok (mkSA ∅ rp hf numLines numSets assoc (u32 (numSets - 1))) else Err AssertFail.

Definition sa_with_rp (rp : P) (s : SetAssocArray) : SetAssocArray :=
  mkSA (sa_array s) rp (sa_hf s) (sa_numLines s) (sa_numSets s) (sa_assoc s) (sa_setMask s).
Definition sa_with_array (m : gmap Z Z) (s : SetAssocArray) : SetAssocArray :=
  mkSA m (sa_rp s) (sa_hf s) (sa_numLines s) (sa_numSets s) (sa_assoc s) (sa_setMask s).
Definition on_sa_rp {X} (m : st P X) : st SetAssocArray X := zoom sa_rp sa_with_rp m.

(** [first]: where the set of an address starts. *)
Definition sa_first (lineAddr : Z) : st SetAssocArray Z :=
  s ← gets (fun s => s);
  h ← lift (hash (sa_hf s) 0 lineAddr);
  let set := u32 (Z.land h (sa_setMask s)) in
  mret (u32 (set * sa_assoc s)).

(** The loop over the lines of the set. *)
Fixpoint sa_scan (array : gmap Z Z) (n : nat) (id lineAddr : Z) : option Z :=
  match n with
  | O => None
  | Datatypes.S n' => if word array id =? lineAddr then Some id else sa_scan array n' (id + 1) lineAddr
  end.

(** [rp->update(id, req)] when [updateReplacement] is set. *)
Definition SetAssoc_lookup (lineAddr : Z) (req : option MemReq) (updateReplacement : bool) : st SetAssocArray Z :=
  first ← sa_first lineAddr;
  s ← gets (fun s => s);
  match sa_scan (sa_array s) (Z.to_nat (u32 (first + sa_assoc s) - first)) first lineAddr with
  | Some id =>
      (if updateReplacement then
         match req with Some r => on_sa_rp (rp_update id r) | None => fail Panicked end
       else mret tt);;
      mret (s32 id)
  | None => mret (-1)
  end.

Definition SetAssoc_preinsert (v : ReplView) (lineAddr : Z) (req : MemReq) : st SetAssocArray (Z * Z) :=
  first ← sa_first lineAddr;
  assoc ← gets sa_assoc;
  candidate ← on_sa_rp (rp_rank v req (seqZ first (u32 (first + assoc) - first)));
  wb ← gets (fun s => word (sa_array s) candidate);
  mret (candidate, wb).

Definition SetAssoc_postinsert (lineAddr : Z) (req : MemReq) (candidate : Z) : st SetAssocArray unit :=
  on_sa_rp (rp_replaced candidate);;
  modify (fun s => sa_with_array (<[candidate := lineAddr]> (sa_array s)) s);;
  on_sa_rp (rp_update candidate req).

#[export] Instance SetAssoc_array : CacheArray SetAssocArray := {|
  arr_lookup := SetAssoc_lookup;
  arr_preinsert := SetAssoc_preinsert;
  arr_postinsert := SetAssoc_postinsert;
|}.

(** ** The zcache array *)
Record ZWalkInfo : Type := mkWalk { zw_pos : Z; zw_lineId : Z; zw_parentIdx : Z }.

Record ZArray : Type := mkZ {
  z_array : gmap Z Z;          (* line id to address *)
  z_lookupArray : gmap Z Z;    (* physical position to line id *)
  z_rp : P;
  z_hf : H;
  z_numLines : Z;
  z_numSets : Z;
  z_ways : Z;
  z_cands : Z;
  z_setMask : Z;
  z_swapArray : list Z;        (* of length [swapArrayLen] *)
  z_lastCandIdx : Z;
  z_statSwaps : Z;
}.
Definition ZArray_init (numLines ways candidates : Z) (rp : P) (hf : H) : result ZArray :=
  let numSets := numLines / ways in
  if bool_decide (ways > 1) && bool_decide (candidates >= ways) && bool_decide (numLines `mod` ways = 0) && isPow2 numSets
  then Ok (mkZ ∅ (list_to_map ((fun i => (i, i)) <$> seqZ 0 numLines)) rp hf numLines numSets ways candidates
               (u32 (numSets - 1)) [] 0 0)
  else Err AssertFail.

Definition z_with_rp (rp : P) (s : ZArray) : ZArray :=
  mkZ (z_array s) (z_lookupArray s) rp (z_hf s) (z_numLines s) (z_numSets s) (z_ways s) (z_cands s) (z_setMask s)
      (z_swapArray s) (z_lastCandIdx s) (z_statSwaps s).
Definition on_z_rp {X} (m : st P X) : st ZArray X := zoom z_rp z_with_rp m.
Definition z_with_walk (swaps : list Z) (idx : Z) (s : ZArray) : ZArray :=
  mkZ (z_array s) (z_lookupArray s) (z_rp s) (z_hf s) (z_numLines s) (z_numSets s) (z_ways s) (z_cands s) (z_setMask s)
      swaps idx (z_statSwaps s).

(** The position of an address in way [w]. *)
Definition z_pos (s : ZArray) (w lineAddr : Z) : result Z :=
  match hash (z_hf s) w lineAddr with
  | Ok h => Ok (u32 (w * z_numSets s + Z.land h (z_setMask s)))
  | Err f => Err f
  end.

Fixpoint z_lookup_ways (s : ZArray) (ws : list Z) (lineAddr : Z) : result (option Z) :=
  match ws with
  | [] => Ok None
  | w :: ws =>
      match z_pos s w lineAddr with
      | Ok pos =>
          let lineId := word (z_lookupArray s) pos in
          if word (z_array s) lineId =? lineAddr then Ok (Some lineId) else z_lookup_ways s ws lineAddr
      | Err f => Err f
      end
  end.

Definition ZArray_lookup (lineAddr : Z) (req : option MemReq) (updateReplacement : bool) : st ZArray Z :=
  if lineAddr =? 0 then fail Panicked
  else
    s ← gets (fun s => s);
    r ← lift (z_lookup_ways s (seqZ 0 (z_ways s)) lineAddr);
    match r with
    | Some lineId =>
        (if updateReplacement then
           match req with Some q => on_z_rp (rp_update lineId q) | None => fail Panicked end
         else mret tt);;
        mret (s32 lineId)
    | None => mret (-1)
    end.

(** The walk: the candidates so far and [all_valid]. A candidate that is the
    fringe line itself is written and overwritten; it is not kept here. *)
Fixpoint z_expand (s : ZArray) (ws : list Z) (addr : Z) (self : option Z) (parent : Z)
    (cs : list ZWalkInfo) (all_valid : bool) : result (list ZWalkInfo * bool) :=
  match ws with
  | [] => Ok (cs, all_valid)
  | w :: ws =>
      match z_pos s w addr with
      | Ok pos =>
          let lineId := word (z_lookupArray s) pos in
          let all_valid := all_valid && negb (word (z_array s) lineId =? 0) in
          let cs := if decide (self = Some lineId) then cs else cs ++ [mkWalk pos lineId parent] in
          z_expand s ws addr self parent cs all_valid
      | Err f => Err f
      end
  end.

(** The breadth-first expansion of the fringe. *)
Fixpoint z_walk (n : nat) (s : ZArray) (fringeStart : nat) (cs : list ZWalkInfo) (all_valid : bool) :
    result (list ZWalkInfo * bool) :=
  if bool_decide (Z.of_nat (length cs) < z_cands s) && all_valid then
    match n with
    | O => Err NoFuel
    | Datatypes.S n' =>
        match cs !! fringeStart with
        | None => Err Panicked              (* a candidate that was never written *)
        | Some c =>
            let fringeId := zw_lineId c in
            let fringeAddr := word (z_array s) fringeId in
            if fringeAddr =? 0 then Err AssertFail
            else
              match z_expand s (seqZ 0 (z_ways s)) fringeAddr (Some fringeId) (Z.of_nat fringeStart) cs all_valid with
              | Ok (cs, all_valid) => z_walk n' s (fringeStart + 1) cs all_valid
              | Err f => Err f
              end
        end
    end
  else Ok (cs, all_valid).

(** The candidates that [preinsert] ranks. *)
Definition z_candidates (s : ZArray) (lineAddr : Z) : result (list ZWalkInfo) :=
  match z_expand s (seqZ 0 (z_ways s)) lineAddr None (-1) [] true with
  | Ok (seeds, all_valid) =>
      match z_walk (Z.to_nat (z_cands s)) s 0 seeds all_valid with
      | Ok (cs, all_valid) =>
          if negb all_valid || bool_decide (z_cands s <= Z.of_nat (length cs))
          then Ok (take (Z.to_nat (z_cands s)) cs) else Err AssertFail
      | Err f => Err f
      end
  | Err f => Err f
  end.

(** The smallest index of a candidate line. *)
Fixpoint z_minIdx (cs : list ZWalkInfo) (best : Z) (ii : Z) : Z :=
  match cs with
  | [] => -1
  | c :: cs => if decide (best = zw_lineId c) then ii else z_minIdx cs best (ii + 1)
  end.

(** The positions from the victim back to a seed; parents have smaller indices. *)
Fixpoint z_swaps (n : nat) (cs : list ZWalkInfo) (idx : Z) : option (list Z) :=
  if decide (0 <= idx) then
    match n with
    | O => None
    | Datatypes.S n' =>
        match cs !! Z.to_nat idx with
        | None => None
        | Some c => match z_swaps n' cs (zw_parentIdx c) with Some l => Some (zw_pos c :: l) | None => None end
        end
    end
  else Some [].

Definition ZArray_preinsert (v : ReplView) (lineAddr : Z) (req : MemReq) : st ZArray (Z * Z) :=
  s ← gets (fun s => s);
  cs ← lift (z_candidates s lineAddr);
  best ← on_z_rp (rp_rank v req (zw_lineId <$> cs));
  assert_ (bool_decide (best < z_numLines s));;
  let minIdx := z_minIdx cs best 0 in
  match z_swaps (length cs) cs minIdx with
  | None => fail NoFuel
  | Some swaps =>
      assert_ (bool_decide (0 < length swaps)%nat);;
      modify (z_with_walk swaps (u32 minIdx));;
      wb ← gets (fun s => word (z_array s) best);
      mret (best, wb)
  end.

(** Moving each line of the path one position down. *)
Fixpoint z_shift (m : gmap Z Z) (swaps : list Z) : gmap Z Z :=
  match swaps with
  | [] => m
  | p :: rest => match rest with [] => m | q :: _ => z_shift (<[p := word m q]> m) rest end
  end.

Definition ZArray_postinsert (lineAddr : Z) (req : MemReq) (candidate : Z) : st ZArray unit :=
  s ← gets (fun s => s);
  assert_ (bool_decide (word (z_lookupArray s) (hd 0 (z_swapArray s)) = candidate));;
  modify (fun s => mkZ (z_array s)
    (<[List.last (z_swapArray s) 0 := candidate]> (z_shift (z_lookupArray s) (z_swapArray s)))
    (z_rp s) (z_hf s) (z_numLines s) (z_numSets s) (z_ways s) (z_cands s) (z_setMask s)
    (z_swapArray s) (z_lastCandIdx s) (z_statSwaps s));;
  on_z_rp (rp_replaced candidate);;
  modify (fun s => mkZ (<[candidate := lineAddr]> (z_array s)) (z_lookupArray s)
    (z_rp s) (z_hf s) (z_numLines s) (z_numSets s) (z_ways s) (z_cands s) (z_setMask s)
    (z_swapArray s) (z_lastCandIdx s) (z_statSwaps s));;
  on_z_rp (rp_update candidate req);;
  modify (fun s => mkZ (z_array s) (z_lookupArray s)
    (z_rp s) (z_hf s) (z_numLines s) (z_numSets s) (z_ways s) (z_cands s) (z_setMask s)
    (z_swapArray s) (z_lastCandIdx s) (u64 (z_statSwaps s + (Z.of_nat (length (z_swapArray s)) - 1)))).

#[export] Instance Z_array : CacheArray ZArray := {|
  arr_lookup := ZArray_lookup;
  arr_preinsert := ZArray_preinsert;
  arr_postinsert := ZArray_postinsert;
|}.
End Arrays.
Arguments SetAssocArray : clear implicits.
Arguments ZArray : clear implicits.

(** ** The set-associative array keeps the contract of an array *)
Section SetAssocContract.
Context {P H : Type} `{!ReplPolicy P} `{!ReplPolicyOk P} `{!HashFamily H} `{!HashFamilyOk H}.
Abbreviation SetAssocArray := (SetAssocArray P H).
Implicit Types (s : SetAssocArray) (a : Z).

(** Where the set of an address starts, as a function. *)
Definition set_start s a : Z :=
  match hash (sa_hf s) 0 a with Ok h => (h `mod` sa_numSets s) * sa_assoc s | Err _ => 0 end.

Record sa_geometry s : Prop := {
  sg_pow2 : isPow2 (sa_numSets s) = true;
  sg_sets : 0 < sa_numSets s;
  sg_assoc : 0 < sa_assoc s;
  sg_lines : sa_numLines s = sa_numSets s * sa_assoc s;
  sg_bound : sa_numLines s <= W32 / 2;
  sg_mask : sa_setMask s = sa_numSets s - 1;
  sg_hash : hash_id_ok (sa_hf s) 0;
  sg_rp_lines : rp_lines (sa_rp s) = sa_numLines s;
  sg_rp_cands : rp_ncands (sa_rp s) (Z.to_nat (sa_assoc s));
}.
Definition set_inv (pend : option (Z * Z)) s : Prop :=
  sa_geometry s /\
  match pend with
  | None => rp_inv false (sa_rp s)
  | Some (a, id) => in_u64 a /\ rp_inv true (sa_rp s) /\ set_start s a <= id < set_start s a + sa_assoc s
  end.
Definition set_find s a : option Z :=
  if decide (in_u64 a) then sa_scan (sa_array s) (Z.to_nat (sa_assoc s)) (set_start s a) a else None.

#[export] Instance in_u64_dec z : Decision (in_u64 z).
Proof. unfold in_u64. apply _. Defined.

Lemma sa_scan_spec arr n id a : match sa_scan arr n id a with
  | Some j => id <= j < id + Z.of_nat n /\ word arr j = a /\ (forall i, id <= i < j -> word arr i <> a)
  | None => forall i, id <= i < id + Z.of_nat n -> word arr i <> a
  end.
Proof.
  revert id. induction n as [|n IH]; intros id; simpl; [intros i Hi; lia|].
  destruct (Z.eqb_spec (word arr id) a) as [He|He].
  - split_and!; [lia|lia|done|intros i Hi; lia].
  - specialize (IH (id + 1)). destruct (sa_scan arr n (id + 1) a) as [j|].
    + destruct IH as (Hj & Hw & Hlt). split_and!; [lia|lia|done|].
      intros i Hi. destruct (decide (i = id)) as [->|]; [done|apply Hlt; lia].
    + intros i Hi. destruct (decide (i = id)) as [->|]; [done|apply IH; lia].
Qed.

Lemma sa_scan_some arr n id a j : id <= j < id + Z.of_nat n -> word arr j = a ->
  (forall i, id <= i < j -> word arr i <> a) -> sa_scan arr n id a = Some j.
Proof.
  intros Hj Hw Hlt. pose proof (sa_scan_spec arr n id a) as Hs. destruct (sa_scan arr n id a) as [k|].
  - destruct Hs as (Hk & Hwk & Hltk). f_equal.
    destruct (Z.lt_trichotomy k j) as [Hc|[->|Hc]]; [|done|].
    + by destruct (Hlt k ltac:(lia)).
    + by destruct (Hltk j ltac:(lia)).
  - by destruct (Hs j Hj).
Qed.

(** The set of an address lies inside the array. *)
Lemma set_start_range s a : sa_geometry s -> in_u64 a ->
  0 <= set_start s a /\ set_start s a + sa_assoc s <= sa_numLines s.
Proof.
  intros [Hp Hn Hass Hl Hb Hm Hh _ _] Ha. destruct (hash_ok (sa_hf s) 0 a Hh Ha) as (h & Hhash & Hr).
  unfold set_start. rewrite Hhash. pose proof (Z.mod_pos_bound h (sa_numSets s) Hn). nia.
Qed.

Lemma wp_sa_first s a Q : sa_geometry s -> in_u64 a -> Q (set_start s a) s -> wp (sa_first a) s Q.
Proof.
  intros HG Ha HQ. pose proof (set_start_range s a HG Ha) as Hr. destruct HG as [Hp Hn Hass Hl Hb Hm Hh _ _].
  destruct (hash_ok (sa_hf s) 0 a Hh Ha) as (h & Hhash & Hrange).
  unfold sa_first. do 2 wp_step. wp_step. wp_step. exists h. split; [done|]. wp_step.
  unfold set_start in HQ, Hr. rewrite Hhash in HQ, Hr. rewrite Hm, land_mask by done.
  pose proof (Z.mod_pos_bound h (sa_numSets s) Hn). change (W32 / 2) with 2147483648 in Hb.
  rewrite (u32_id (h `mod` sa_numSets s)) by (unfold in_u32, W32; nia). rewrite u32_id by (unfold in_u32, W32; lia). done.
Qed.

Lemma sa_span s a : sa_geometry s -> in_u64 a -> u32 (set_start s a + sa_assoc s) - set_start s a = sa_assoc s.
Proof.
  intros HG Ha. pose proof (set_start_range s a HG Ha). destruct HG. change (W32 / 2) with 2147483648 in *.
  rewrite u32_id by (unfold in_u32, W32; lia). lia.
Qed.

Lemma set_find_range s a id : sa_geometry s -> set_find s a = Some id -> word (sa_array s) id = a /\ 0 <= id < sa_numLines s.
Proof.
  intros HG. unfold set_find. case_decide as Ha; [|done].
  pose proof (sa_scan_spec (sa_array s) (Z.to_nat (sa_assoc s)) (set_start s a) a) as Hs.
  intros Hf. rewrite Hf in Hs. destruct Hs as (Hr & Hw & _). pose proof (set_start_range s a HG Ha).
  pose proof (sg_assoc _ HG). split; [done|lia].
Qed.

(** Changing the policy's state keeps the geometry. *)
Lemma sa_geometry_rp s rp : sa_geometry s -> rp_same (sa_rp s) rp -> sa_geometry (sa_with_rp rp s).
Proof. intros [] [Hl Hc]. split; simpl; rewrite ?Hl, ?Hc; done. Qed.

Lemma s32_line s id : sa_geometry s -> 0 <= id < sa_numLines s -> s32 id = id.
Proof.
  intros HG Hid. pose proof (sg_bound _ HG). unfold s32. change (W32 / 2) with 2147483648 in *.
  rewrite u32_id by (unfold in_u32, W32; lia). rewrite decide_True; lia.
Qed.

Lemma SetAssoc_lookup_spec pend s a r u : set_inv pend s -> in_u64 a -> (u = true -> is_Some r) ->
  wp (SetAssoc_lookup a r u) s (fun id s' => set_inv pend s' /\ id = default (-1) (set_find s a) /\
    (forall b, set_find s' b = set_find s b) /\ (forall j, word (sa_array s') j = word (sa_array s) j)).
Proof.
  intros [HG Hp] Ha Hu. unfold SetAssoc_lookup. wp_step. apply wp_sa_first; [done..|]. do 2 wp_step.
  rewrite sa_span by done. pose proof (set_find_range s a) as Hfr. unfold set_find in Hfr |- *. rewrite decide_True in Hfr |- * by done.
  destruct (sa_scan _ _ _ _) as [id|]; [|wp_step; by split].
  destruct (Hfr id HG eq_refl) as [Hw Hid]. simpl. wp_step.
  apply wp_mono with (Q := fun _ s' => exists rp, s' = sa_with_rp rp s /\ rp_same (sa_rp s) rp /\
    forall b, rp_inv b (sa_rp s) -> rp_inv b rp).
  { destruct u; [|wp_step; exists (sa_rp s); by destruct s].
    destruct (Hu eq_refl) as [q ->]. unfold on_sa_rp. wp_step.
    assert (exists b, rp_inv b (sa_rp s)) as [b Hb].
    { destruct pend as [[]|]; [exists true|exists false]; apply Hp. }
    pose proof (fun b' Hb' => rp_update_ok b' (sa_rp s) id q Hb') as Hok. rewrite (sg_rp_lines _ HG) in Hok.
    pose proof (Hok b Hb Hid) as ([] & rp' & Hrun & _ & Hsame)%wp_ok. apply wp_ok. exists tt, rp'. split; [done|].
    exists rp'. split_and!; [done..|]. intros b' Hb'. specialize (Hok b' Hb' Hid). unfold wp in Hok. rewrite Hrun in Hok. apply Hok. }
  intros _ s' (rp & -> & Hsame & Hinv). wp_step. split_and!; [|by eapply s32_line|by intros|done].
  split; [by apply sa_geometry_rp|]. destruct pend as [[b id']|]; simpl; [|auto].
  destruct Hp as (? & ? & Hid'). split; [done|]. split; [auto|exact Hid'].
Qed.

Lemma SetAssoc_preinsert_spec s v a r : set_inv None s -> in_u64 a ->
  wp (SetAssoc_preinsert v a r) s (fun '(id, wb) s' => set_inv (Some (a, id)) s' /\ 0 <= id /\ wb = word (sa_array s) id /\
    (forall b, set_find s' b = set_find s b) /\ (forall j, word (sa_array s') j = word (sa_array s) j)).
Proof.
  intros [HG Hp] Ha. unfold SetAssoc_preinsert. wp_step. apply wp_sa_first; [done..|]. do 2 wp_step. wp_step.
  rewrite sa_span by done. pose proof (set_start_range s a HG Ha) as Hr.
  unfold on_sa_rp. wp_step. eapply wp_mono; [apply rp_rank_ok; [done|..]|].
  - rewrite length_seqZ. apply HG.
  - apply Forall_forall. intros id Hid%elem_of_seqZ. rewrite (sg_rp_lines _ HG). pose proof (sg_lines _ HG). lia.
  - intros id rp (Hid%elem_of_seqZ & Hinv & Hsame). do 3 wp_step. split_and!; try done; [|lia].
    split; [by apply sa_geometry_rp|]. split; [done|]. split; [done|]. enough (set_start s a <= id < set_start s a + sa_assoc s) as Hset by exact Hset. lia.
Qed.

Lemma SetAssoc_postinsert_spec s a id r : set_inv (Some (a, id)) s -> in_u64 a -> set_find s a = None ->
  wp (SetAssoc_postinsert a r id) s (fun _ s' => set_inv None s' /\ set_find s' a = Some id /\ word (sa_array s') id = a /\
    (forall j, j <> id -> word (sa_array s') j = word (sa_array s) j) /\
    (forall b j, set_find s b = Some j -> j <> id -> set_find s' b = Some j)).
Proof.
  intros [HG (_ & Hp & Hid)] Ha Hnone. pose proof (set_start_range s a HG Ha) as Hr.
  assert (0 <= id < rp_lines (sa_rp s)) as Hline by (rewrite (sg_rp_lines _ HG); lia).
  unfold SetAssoc_postinsert, on_sa_rp. do 2 wp_step. eapply wp_mono; [by apply (rp_replaced_ok true)|].
  intros _ rp1 [Hi1 Hs1]. do 3 wp_step. simpl. destruct Hs1 as [Hl1 Hc1].
  eapply wp_mono; [apply (rp_update_ok false); [done|by rewrite Hl1]|].
  intros _ rp2 [Hi2 [Hl2 Hc2]]. simpl.
  set (s' := sa_with_rp rp2 _).
  assert (forall j, word (sa_array s') j = if decide (j = id) then a else word (sa_array s) j) as Hw.
  { intros j. apply word_insert. }
  assert (forall b j, set_find s b = Some j -> j <> id -> set_find s' b = Some j) as Hkeep.
  { intros b j Hf Hj. unfold set_find in Hf |- *. destruct (decide (in_u64 b)) as [Hb|]; [|done].
    pose proof (sa_scan_spec (sa_array s) (Z.to_nat (sa_assoc s)) (set_start s b) b) as Hsc. rewrite Hf in Hsc.
    destruct Hsc as (Hrange & Hwj & Hlt). assert (a <> b) as Hab by (intros ->; unfold set_find in Hnone; rewrite decide_True in Hnone by done; congruence).
    apply sa_scan_some; [done|by rewrite Hw, decide_False|].
    intros i Hi. rewrite Hw. destruct (decide (i = id)); [done|]. apply Hlt, Hi. }
  split_and!.
  - split; [|done]. destruct HG as []. split; simpl; rewrite ?Hl2, ?Hc2, ?Hl1, ?Hc1; done.
  - unfold set_find in *. rewrite decide_True in Hnone |- * by done.
    pose proof (sa_scan_spec (sa_array s) (Z.to_nat (sa_assoc s)) (set_start s a) a) as Hsc. rewrite Hnone in Hsc.
    pose proof (sg_assoc _ HG). apply sa_scan_some; [simpl; change (set_start s' a) with (set_start s a); lia|by rewrite Hw, decide_True|].
    intros i Hi. rewrite Hw, decide_False by lia. apply Hsc. change (set_start s' a) with (set_start s a) in Hi. lia.
  - by rewrite Hw, decide_True.
  - intros j Hj. by rewrite Hw, decide_False.
  - done.
Qed.

#[export] Instance SetAssoc_ok : CacheArrayOk SetAssocArray := {|
  arr_inv := set_inv;
  arr_find := set_find;
  arr_tag := fun s id => word (sa_array s) id;
  arr_addr_ok := in_u64;
  arr_find_tag := fun p s a id Hi Hf => let '(conj Hw Hid) := set_find_range s a id (proj1 Hi) Hf in conj Hw (proj1 Hid);
  arr_lookup_ok := SetAssoc_lookup_spec;
  arr_preinsert_ok := fun s v a r Hi Ha _ => SetAssoc_preinsert_spec s v a r Hi Ha;
  arr_postinsert_ok := SetAssoc_postinsert_spec;
|}.

(** A freshly built array satisfies the invariant. *)
Lemma SetAssoc_init_inv numLines assoc (rp : P) (hf : H) s :
  SetAssoc_init numLines assoc rp hf = Ok s -> 0 < assoc -> 0 < numLines -> numLines `mod` assoc = 0 ->
  numLines <= W32 / 2 -> hash_id_ok hf 0 -> rp_lines rp = numLines -> rp_ncands rp (Z.to_nat assoc) ->
  rp_inv false rp -> set_inv None s.
Proof.
  unfold SetAssoc_init. destruct (isPow2 _) eqn:Hp; [|done]. intros [= <-] Ha Hn Hm Hb Hh Hl Hc Hi.
  pose proof (Z.div_mod numLines assoc ltac:(lia)) as Hdm. rewrite Hm in Hdm.
  assert (0 < numLines / assoc) by nia.
  split; [|done]. split; simpl; try done; [nia|]. change (W32 / 2) with 2147483648 in Hb.
  apply u32_id. unfold in_u32, W32. nia.
Qed.
End SetAssocContract.
