(* ===== verification/MemCtrls.v ===== *)
(** * Memory controllers and the network between levels
    (mem_ctrls.h, mem_ctrls.cpp, network.h, fixed_delay_network.cpp)

    The fixed-latency memory, the memory with an M/D/1 queueing model, and the
    network with a fixed delay per pair of end points.  The [double]s of the
    queueing model are exact rationals here. *)

From stdpp Require Import base tactics numbers list gmap strings.
From Stdlib Require Import ZArith Lia QArith Qround Lqa.
From S2P Require Import Prelude.
From S2P Require Import MemTypes.

Open Scope Z_scope.
#[local] Obligation Tactic := idtac.

(** ** SimpleMemory *)

(** The memories of a system, by their latencies, and [zinfo->num_dram_requests]. *)
Record SimpleMemory : Type := mkSimple {
  sm_latency : nat -> Z;
  num_dram_requests : Z;
}.

(** What a memory stores in [*req.state]. *)
Definition mem_grant (r : MemReq) : MESIState :=
  match type r with
  | PUTS | PUTX => I
  | GETS => if MemReq_is r NOEXCL then S else E
  | GETX => M
  end.

(** [SimpleMemory::access]. *)
Definition SimpleMemory_access (m : nat) (r : MemReq) : st SimpleMemory (MESIState * Z) :=
  lat ← gets (fun s => sm_latency s m);
  let respCycle := u64 (cycle r + lat) in
  assert_ (bool_decide (respCycle > cycle r));;
  modify (fun s => mkSimple (sm_latency s) (u64 (num_dram_requests s + 1)));;
  mret (mem_grant r, respCycle).
#[export] Instance SimpleMemory_ctrl : MemCtrl SimpleMemory := SimpleMemory_access.

(** ** MD1Memory *)
Record MD1Memory : Type := mkMD1 {
  md_lastPhase : Z;
  maxRequestsPerCycle : Q;
  smoothedPhaseAccesses : Q;
  zeroLoadLatency : Z;
  curLatency : Z;
  curPhaseAccesses : Z;
  profReads : Z;
  profWrites : Z;
  profTotalRdLat : Z;
  profTotalWrLat : Z;
  profLoad : Z;
  profUpdates : Z;
  profClampedLoads : Z;
}.
(** The clock that the controllers read: [zinfo->numPhases], [zinfo->phaseLength]. *)
Record PhaseInfo : Type := mkPhase { numPhases : Z; phaseLength : Z }.

Definition MD1_init (requestSize megacycles megabytes zeroLoad : Z) : result MD1Memory :=
  let bytesPerCycle := (inject_Z megabytes / inject_Z megacycles)%Q in
  let m := (bytesPerCycle / inject_Z requestSize)%Q in
  if Qlt_le_dec 0 m then Ok (mkMD1 0 m 0 zeroLoad zeroLoad 0 0 0 0 0 0 0 0) else Err AssertFail.

(** [(uint32_t)x] of a non-negative value. *)
Definition Qtrunc (q : Q) : Z := u32 (Qfloor q).

(** The load after clamping, and whether it was clamped. *)
Definition md1_load (smoothed maxr : Q) (phaseCycles : Z) : Q * bool :=
  let requestsPerCycle := (smoothed / inject_Z phaseCycles)%Q in
  let load := (requestsPerCycle / maxr)%Q in
  if Qlt_le_dec (19 # 20) load then (19 # 20, true) else (load, false).
Definition latMultiplier (load : Q) : Q := (1 + (1 # 2) * load / (1 - load))%Q.

(** [MD1Memory::updateLatency]. *)
Definition MD1_updateLatency (zi : PhaseInfo) (s : MD1Memory) : MD1Memory :=
  let phaseCycles := u32 ((numPhases zi - md_lastPhase s) * phaseLength zi) in
  if decide (phaseCycles < 10000) then s
  else
    let smoothed := (inject_Z (curPhaseAccesses s) * (1 # 2) + smoothedPhaseAccesses s * (1 # 2))%Q in
    let '(load, clamped) := md1_load smoothed (maxRequestsPerCycle s) phaseCycles in
    mkMD1 (numPhases zi) (maxRequestsPerCycle s) smoothed (zeroLoadLatency s)
      (Qtrunc (latMultiplier load * inject_Z (zeroLoadLatency s)))
      0 (profReads s) (profWrites s) (profTotalRdLat s) (profTotalWrLat s)
      (u64 (profLoad s + Qtrunc (load * 100))) (u64 (profUpdates s + 1))
      (if clamped : bool then u64 (profClampedLoads s + 1) else profClampedLoads s).

Definition MD1_read (s : MD1Memory) : MD1Memory :=
  mkMD1 (md_lastPhase s) (maxRequestsPerCycle s) (smoothedPhaseAccesses s) (zeroLoadLatency s) (curLatency s)
    (u32 (curPhaseAccesses s + 1)) (u64 (profReads s + 1)) (profWrites s) (u64 (profTotalRdLat s + curLatency s))
    (profTotalWrLat s) (profLoad s) (profUpdates s) (profClampedLoads s).
Definition MD1_write (s : MD1Memory) : MD1Memory :=
  mkMD1 (md_lastPhase s) (maxRequestsPerCycle s) (smoothedPhaseAccesses s) (zeroLoadLatency s) (curLatency s)
    (u32 (curPhaseAccesses s + 1)) (profReads s) (u64 (profWrites s + 1)) (profTotalRdLat s)
    (u64 (profTotalWrLat s + curLatency s)) (profLoad s) (profUpdates s) (profClampedLoads s).

(** [MD1Memory::access], with the clock it reads. *)
Definition MD1_access (zi : PhaseInfo) (r : MemReq) : st MD1Memory (MESIState * Z) :=
  modify (fun s => if decide (numPhases zi > md_lastPhase s) then MD1_updateLatency zi s else s);;
  modify (match type r with
          | PUTX => MD1_write
          | PUTS => fun s => s
          | GETS | GETX => MD1_read
          end);;
  lat ← gets curLatency;
  mret (mem_grant r, u64 (cycle r + (if decide (type r = PUTS) then 0 else lat))).

(** The controllers of a system and its clock. *)
Record MD1Memories : Type := mkMD1s { md_ctrls : nat -> MD1Memory; md_zinfo : PhaseInfo }.
Definition md_set (m : nat) (c : MD1Memory) (s : MD1Memories) : MD1Memories :=
  mkMD1s (fun i => if decide (i = m) then c else md_ctrls s i) (md_zinfo s).
#[export] Instance MD1Memories_ctrl : MemCtrl MD1Memories := fun m r =>
  zi ← gets md_zinfo;
  zoom (fun s => md_ctrls s m) (md_set m) (MD1_access zi r).

(** ** FixedDelayNetwork *)
Definition link_key (src dst : string) : string := (src +:+ " " +:+ dst)%string.

(** The constructor, on the lines of the network description file. *)
Fixpoint FDN_load (lines : list (string * string * Z)) (delayMap : gmap string Z) : result (gmap string Z) :=
  match lines with
  | [] => Ok delayMap
  | (src, dst, delay) :: lines =>
      let s1 := link_key src dst in
      let s2 := link_key dst src in
      if bool_decide (delayMap !! s1 = None) && bool_decide (delayMap !! s2 = None)
      then FDN_load lines (<[s2 := delay]> (<[s1 := delay]> delayMap))
      else Err AssertFail
  end.

(** [FixedDelayNetwork::getRTT]: 0 where the file has no entry. *)
Definition FDN_getRTT (delayMap : gmap string Z) (src dst : string) : Z :=
  match delayMap !! link_key src dst with Some d => u32 (2 * d) | None => 0 end.

(** A network over end points that are named by strings. *)
Record FixedDelayNetwork : Type := mkFDN { fdn_map : gmap string Z; fdn_name : MemRef -> string }.
#[export] Instance FDN_network : Network FixedDelayNetwork := fun n _ _ a b =>
  (FDN_getRTT (fdn_map n) (fdn_name n a) (fdn_name n b), n).

(** ** Contracts *)
Lemma mem_grant_ok r : mem_reply_ok (type r) (flags r) (mem_grant r).
Proof. unfold mem_reply_ok, mem_grant, MemReq_is. destruct (type r); try done. by destruct (has_flag _ _). Qed.

#[export] Program Instance SimpleMemory_ok : MemCtrlOk SimpleMemory := {|
  mem_inv := fun s => forall m, 0 < sm_latency s m < W32
|}.
Next Obligation.
  intros m r s Hs Hc. unfold mem_access, SimpleMemory_ctrl, SimpleMemory_access. do 2 wp_step. specialize (Hs m) as Hm.
  rewrite u64_id by (unfold in_u64, W64, W32, cycle_limit in *; lia).
  wp_step. apply wp_assert; [apply bool_decide_eq_true; lia|]. do 3 wp_step.
  split; [done|]. split; [apply mem_grant_ok|]. lia.
Qed.

#[export] Instance FDN_ok : NetworkOk FixedDelayNetwork.
Proof.
  intros n cy lat a b. unfold getRTT, FDN_network, FDN_getRTT. simpl.
  case_match; [apply u32_range|by split].
Qed.

(** What keeps an M/D/1 controller's latency between its zero-load latency
    and 10.5 times it. *)
Record md1_inv (s : MD1Memory) : Prop := {
  mi_max : (0 < maxRequestsPerCycle s)%Q;
  mi_smooth : (0 <= smoothedPhaseAccesses s)%Q;
  mi_accesses : 0 <= curPhaseAccesses s;
  mi_zero : 0 <= zeroLoadLatency s /\ zeroLoadLatency s * 21 < W32 * 2;
  mi_cur : zeroLoadLatency s <= curLatency s /\ 2 * curLatency s <= 21 * zeroLoadLatency s;
}.

Lemma md1_load_range smoothed maxr pc : (0 <= smoothed)%Q -> (0 < maxr)%Q -> 0 < pc ->
  (0 <= (md1_load smoothed maxr pc).1 <= 19 # 20)%Q.
Proof.
  intros Hs Hm Hp. unfold md1_load. destruct (Qlt_le_dec _ _) as [Hlt|Hle]; simpl; [split; discriminate|].
  split; [|done]. apply Qle_shift_div_l; [done|]. rewrite Qmult_0_l.
  apply Qle_shift_div_l; [by rewrite <- (Zlt_Qlt 0)|by rewrite Qmult_0_l].
Qed.

Lemma latMultiplier_range load : (0 <= load <= 19 # 20)%Q -> (1 <= latMultiplier load <= 21 # 2)%Q.
Proof.
  intros [H0 H1]. unfold latMultiplier. assert (0 < 1 - load)%Q as Hd by lra.
  assert (0 <= (1 # 2) * load / (1 - load))%Q by (apply Qle_shift_div_l; [done|lra]).
  assert ((1 # 2) * load / (1 - load) <= 19 # 2)%Q by (apply Qle_shift_div_r; [done|lra]). lra.
Qed.

Lemma Qtrunc_scale mult z : (1 <= mult <= 21 # 2)%Q -> 0 <= z -> z * 21 < W32 * 2 ->
  z <= Qtrunc (mult * inject_Z z) /\ 2 * Qtrunc (mult * inject_Z z) <= 21 * z.
Proof.
  intros [Hl Hu] Hz Hb. set (q := (mult * inject_Z z)%Q).
  assert (0 <= inject_Z z)%Q as Hz' by (by rewrite <- (Zle_Qle 0)).
  assert (inject_Z z <= q)%Q as Hq1 by (unfold q; nra).
  assert (q <= (21 # 2) * inject_Z z)%Q as Hq2 by (unfold q; nra).
  assert (z <= Qfloor q) as Hf1 by (rewrite <- (Qfloor_Z z); by apply Qfloor_resp_le).
  assert (2 * Qfloor q <= 21 * z) as Hf2.
  { rewrite Zle_Qle, !inject_Z_mult. pose proof (Qfloor_le q). change (inject_Z 2) with 2%Q. change (inject_Z 21) with 21%Q. lra. }
  unfold Qtrunc. rewrite u32_id by (unfold in_u32; lia). lia.
Qed.

Lemma MD1_updateLatency_inv zi s : md1_inv s -> md1_inv (MD1_updateLatency zi s).
Proof.
  intros [Hm Hs Ha [Hz Hzb] Hc]. unfold MD1_updateLatency. case_decide as Hp; [done|].
  set (smoothed := (_ + _)%Q).
  assert (0 <= smoothed)%Q as Hsm.
  { unfold smoothed. assert (0 <= inject_Z (curPhaseAccesses s))%Q by (by rewrite <- (Zle_Qle 0)). lra. }
  pose proof (md1_load_range smoothed _ _ Hsm Hm (ltac:(lia) : 0 < u32 ((numPhases zi - md_lastPhase s) * phaseLength zi))) as Hl.
  destruct (md1_load _ _ _) as [load clamped]. apply latMultiplier_range in Hl.
  pose proof (Qtrunc_scale _ (zeroLoadLatency s) Hl Hz Hzb). split; simpl; done.
Qed.

#[export] Program Instance MD1Memories_ok : MemCtrlOk MD1Memories := {|
  mem_inv := fun s => forall m, md1_inv (md_ctrls s m)
|}.
Next Obligation.
  intros m r s Hs Hc. unfold mem_access, MD1Memories_ctrl. do 2 wp_step. wp_step. unfold MD1_access.
  do 2 wp_step. set (c := if decide _ then _ else _).
  assert (md1_inv c) as Hi by (unfold c; case_decide; [by apply MD1_updateLatency_inv|apply Hs]).
  do 2 wp_step. set (c' := match type r with PUTX => _ | _ => _ end c).
  assert (md1_inv c' /\ curLatency c' = curLatency c) as [Hi' Hlat].
  { destruct Hi. unfold c'. destruct (type r); (split; [split; simpl; try done; apply u32_range|done]) || by split. }
  do 3 wp_step. destruct (mi_cur _ Hi') as [Hc1 Hc2]. destruct (mi_zero _ Hi') as [Hz1 Hz2].
  set (lat := if decide (type r = PUTS) then 0 else curLatency c').
  assert (0 <= lat < W32) as Hl by (unfold lat; case_decide; unfold W32 in *; lia).
  rewrite u64_id by (unfold in_u64, W64, W32, cycle_limit in *; lia).
  split; [|split; [apply mem_grant_ok|lia]].
  intros i. simpl. case_decide; [done|apply Hs].
Qed.

(** ** Properties *)

(** A run of accesses, each with the clock of its phase. *)
Fixpoint MD1_run (l : list (PhaseInfo * MemReq)) : st MD1Memory unit :=
  match l with
  | [] => mret tt
  | (zi, r) :: l => MD1_access zi r;; MD1_run l
  end.

Lemma MD1_access_spec zi r s : md1_inv s ->
  wp (MD1_access zi r) s (fun '(st', resp) s' => md1_inv s' /\ zeroLoadLatency s' = zeroLoadLatency s /\
    st' = mem_grant r /\
    resp = u64 (cycle r + if decide (type r = PUTS) then 0 else curLatency s')).
Proof.
  intros Hs. unfold MD1_access. do 2 wp_step. set (c := if decide _ then _ else _).
  assert (md1_inv c /\ zeroLoadLatency c = zeroLoadLatency s) as [Hi Hz].
  { unfold c. case_decide; [|done]. split; [by apply MD1_updateLatency_inv|]. unfold MD1_updateLatency.
    case_decide; [done|]. by destruct (md1_load _ _ _). }
  do 5 wp_step. destruct Hi.
  destruct (type r); (split; [split; simpl; try done; apply u32_range|done]).
Qed.

Lemma MD1_run_spec l s : md1_inv s ->
  wp (MD1_run l) s (fun _ s' => md1_inv s' /\ zeroLoadLatency s' = zeroLoadLatency s).
Proof.
  revert s. induction l as [|[zi r] l IH]; intros s Hs; [by split|]. simpl. wp_step.
  eapply wp_mono; [by apply MD1_access_spec|]. intros [st' resp] s1 (H1 & Hz & _).
  eapply wp_mono; [by apply IH|]. intros _ s2 [H2 Hz2]. split; [done|congruence].
Qed.

(** Whatever the traffic and the phases, the latency of an M/D/1 memory
    stays between its zero-load latency and 10.5 times it: the clamp of the
    load to 95% keeps the queueing formula finite. *)
Theorem MD1_latency_bounds (requestSize megacycles megabytes zeroLoad : Z) (l : list (PhaseInfo * MemReq)) (s : MD1Memory) :
  MD1_init requestSize megacycles megabytes zeroLoad = Ok s -> 0 <= zeroLoad -> zeroLoad * 21 < W32 * 2 ->
  wp (MD1_run l) s (fun _ s' => zeroLoad <= curLatency s' /\ 2 * curLatency s' <= 21 * zeroLoad).
Proof.
  unfold MD1_init. destruct (Qlt_le_dec 0 _) as [Hq|]; [|done]. intros [= <-] Hz Hb.
  eapply wp_mono; [apply MD1_run_spec|].
  - split; simpl; [done|discriminate|lia|done|lia].
  - intros _ s' [Hi Hzl]. simpl in Hzl. pose proof (mi_cur _ Hi). by rewrite Hzl in *.
Qed.
Lemma MD1_latency_bounds_witness :
  let s := mkMD1 0 ((inject_Z 12800 / inject_Z 2000) / inject_Z 64) 0 100 100 0 0 0 0 0 0 0 0 in
  let r := mkReq 7 GETS 0 CoreState 50 I 0 0 in
  MD1_init 64 2000 12800 100 = Ok s /\
  wp (MD1_run [(mkPhase 1 10000, r); (mkPhase 2 10000, r)]) s (fun _ s' => 100 <= curLatency s' /\ 2 * curLatency s' <= 21 * 100).
Proof.
  intros s r. split; [reflexivity|]. apply (MD1_latency_bounds 64 2000 12800 100 _ s); [reflexivity|lia|reflexivity].
Defined.

Lemma FDN_load_keeps lines m m' k d : FDN_load lines m = Ok m' -> m !! k = Some d -> m' !! k = Some d.
Proof.
  revert m. induction lines as [|[[src dst] delay] lines IH]; intros m; simpl; [by intros [= ->]|].
  destruct (bool_decide_reflect (m !! link_key src dst = None)) as [H1|]; [|done].
  destruct (bool_decide_reflect (m !! link_key dst src = None)) as [H2|]; [|done]. simpl.
  intros Hl Hk. apply (IH _ Hl). rewrite !lookup_insert_ne; [done|congruence..].
Qed.

(** A network description that loads gives every link it lists its round
    trip, twice the delay, in both directions. *)
Theorem FDN_getRTT_symmetric (lines : list (string * string * Z)) (m : gmap string Z) (src dst : string) (delay : Z) :
  FDN_load lines ∅ = Ok m -> (src, dst, delay) ∈ lines ->
  FDN_getRTT m src dst = u32 (2 * delay) /\ FDN_getRTT m dst src = u32 (2 * delay).
Proof.
  generalize (∅ : gmap string Z). induction lines as [|[[s d] e] lines IH]; intros m0 Hl Hin; [by apply not_elem_of_nil in Hin|].
  simpl in Hl. destruct (_ && _); [|done]. apply elem_of_cons in Hin as [[= -> -> ->]|Hin]; [|by eapply IH].
  unfold FDN_getRTT.
  rewrite (FDN_load_keeps _ _ _ (link_key s d) e Hl), (FDN_load_keeps _ _ _ (link_key d s) e Hl); [done|..].
  - by rewrite lookup_insert_eq.
  - destruct (decide (link_key d s = link_key s d)) as [->|]; [by rewrite lookup_insert_eq|].
    by rewrite lookup_insert_ne, lookup_insert_eq.
Qed.
Lemma FDN_getRTT_symmetric_witness :
  let m := <[("l3-0 l2-0")%string := 6]> (<[("l2-0 l3-0")%string := 6]> (∅ : gmap string Z)) in
  FDN_load [("l2-0"%string, "l3-0"%string, 6)] ∅ = Ok m /\
  FDN_getRTT m "l2-0" "l3-0" = u32 12 /\ FDN_getRTT m "l3-0" "l2-0" = u32 12.
Proof.
  intros m. split; [reflexivity|].
  apply (FDN_getRTT_symmetric [("l2-0"%string, "l3-0"%string, 6)] m "l2-0" "l3-0" 6); [reflexivity|constructor].
Defined.
