(* ===== verification/PrioQueue.v ===== *)
(** * The event queue of the contention simulation (prio_queue.h)

    A calendar queue of intrusive lists: a window of [B] blocks of 64 cycles
    from the current block on, one list per cycle, and a sorted map of the
    elements that were beyond the window when they came.  The lists are linked
    through the [next] field of the elements, which is part of the state here.
    The queue is a priority queue: it never fails an assertion, and it gives
    the elements back in the order of their cycles. *)

From stdpp Require Import base tactics numbers list gmap functions sorting.
From Stdlib Require Import ZArith Lia.
From S2P Require Import Prelude.

Open Scope Z_scope.

(** ** Data *)

(** A [T*]: an element, or [nullptr]. *)
Definition ptr : Type := option Z.

Record PQBlock : Type := mkBlock {
  array : list ptr;   (** [T* array[64]]: the head of the list of each cycle *)
  occ : Z             (** bit i is 1 if array[i] is populated *)
}.

Record PrioQueue : Type := mkQueue {
  blocks : list PQBlock;
  feMap : list (Z * Z);    (** the far elements, by cycle; a [multimap] *)
  curBlock : Z;
  elems : Z;
  next : gmap Z Z          (** [obj->next] of the elements; absent is [nullptr] *)
}.

Definition set_blocks (f : list PQBlock -> list PQBlock) (q : PrioQueue) : PrioQueue :=
  mkQueue (f (blocks q)) (feMap q) (curBlock q) (elems q) (next q).
Definition set_feMap (f : list (Z * Z) -> list (Z * Z)) (q : PrioQueue) : PrioQueue :=
  mkQueue (blocks q) (f (feMap q)) (curBlock q) (elems q) (next q).
Definition set_curBlock (f : Z -> Z) (q : PrioQueue) : PrioQueue :=
  mkQueue (blocks q) (feMap q) (f (curBlock q)) (elems q) (next q).
Definition set_elems (f : Z -> Z) (q : PrioQueue) : PrioQueue :=
  mkQueue (blocks q) (feMap q) (curBlock q) (f (elems q)) (next q).
Definition set_next (o : Z) (p : ptr) (q : PrioQueue) : PrioQueue :=
  mkQueue (blocks q) (feMap q) (curBlock q) (elems q) (partial_alter (fun _ => p) o (next q)).

(** [std::multimap::insert]: behind the entries with the same key. *)
Fixpoint multimap_insert (c o : Z) (m : list (Z * Z)) : list (Z * Z) :=
  match m with
  | [] => [(c, o)]
  | (c', o') :: rest => if c <? c' then (c, o) :: m else (c', o') :: multimap_insert c o rest
  end.

(** [__builtin_ctzl] on a 64-bit word; undefined for 0. *)
Fixpoint ctz_from (n : nat) (i x : Z) : result Z :=
  match n with
  | O => Err Panicked
  | S n => if Z.testbit x i then Ok i else ctz_from n (i + 1) x
  end.
Definition builtin_ctzl (x : Z) : result Z := ctz_from 64 0 x.

(** ** Blocks *)

Definition PQBlock_init : PQBlock := mkBlock (replicate 64 None) 0.

(** [blocks[i]] and [array[pos]]; outside the arrays the access is undefined. *)
Definition block_at (i : Z) : st PrioQueue PQBlock := fun q =>
  match blocks q !! Z.to_nat i with Some b => Ok (b, q) | None => Err Panicked end.
Definition set_block (i : Z) (b : PQBlock) : st PrioQueue unit := modify (set_blocks (<[Z.to_nat i := b]>)).
Definition slot (b : PQBlock) (pos : Z) : st PrioQueue ptr :=
  lift (match array b !! Z.to_nat pos with Some p => Ok p | None => Err Panicked end).

Definition block_dequeue (i : Z) : st PrioQueue (Z * Z) :=
  b ← block_at i;
  _ ← assert_ (negb (occ b =? 0));
  pos ← lift (builtin_ctzl (occ b));
  res ← slot b pos;
  match res with
  | None => fail Panicked
  | Some res =>
    nxt ← gets (fun q => next q !! res);
    let occ' := match nxt with None => Z.lxor (occ b) (Z.shiftl 1 pos) | Some _ => occ b end in
    _ ← set_block i (mkBlock (<[Z.to_nat pos := nxt]> (array b)) occ');
    _ ← modify (set_next res None);
    mret (res, pos)
  end.

Definition block_enqueue (i obj pos : Z) : st PrioQueue unit :=
  b ← block_at i;
  let occ' := Z.lor (occ b) (Z.shiftl 1 pos) in
  nxt ← gets (fun q => next q !! obj);
  _ ← assert_ (bool_decide (nxt = None));
  head ← slot b pos;
  _ ← modify (set_next obj head);
  set_block i (mkBlock (<[Z.to_nat pos := Some obj]> (array b)) occ').

(** ** The queue *)

Section queue.
Context (B : Z).

Definition PrioQueue_init : PrioQueue := mkQueue (replicate (Z.to_nat B) PQBlock_init) [] 0 0 ∅.

Definition enqueue (obj cycle : Z) : st PrioQueue unit :=
  let absBlock := cycle / 64 in
  cur ← gets curBlock;
  _ ← assert_ (cur <=? absBlock);
  _ ← (if absBlock <? u64 (cur + B)
       then block_enqueue (absBlock `mod` B) obj (cycle `mod` 64)
       else modify (set_feMap (multimap_insert cycle obj)));
  modify (set_elems (fun n => u64 (n + 1))).

(** Move every element with cycle < topCycle to the blocks; the entries that
    stay in the map are returned. *)
Fixpoint move_far (topCycle : Z) (far : list (Z * Z)) : st PrioQueue (list (Z * Z)) :=
  match far with
  | [] => mret []
  | (cycle, obj) :: rest =>
    if cycle <? topCycle then
      let absBlock := cycle / 64 in
      cur ← gets curBlock;
      _ ← assert_ (cur <=? absBlock);
      _ ← assert_ (absBlock <? u64 (cur + B));
      _ ← block_enqueue (absBlock `mod` B) obj (cycle `mod` 64);
      move_far topCycle rest
    else mret far
  end.

(** The loop of [dequeue] to the first populated block. *)
Fixpoint find_block (fuel : nat) : st PrioQueue unit :=
  match fuel with
  | O => fail NoFuel
  | S fuel =>
    cur ← gets curBlock;
    b ← block_at (cur `mod` B);
    if occ b =? 0 then
      _ ← modify (set_curBlock (fun c => u64 (c + 1)));
      cur ← gets curBlock;
      far ← gets feMap;
      _ ← when ((cur `mod` (B / 2) =? 0) && negb (bool_decide (far = []))) (
            rest ← move_far (u64 (u64 (cur + B) * 64)) far;
            modify (set_feMap (fun _ => rest)));
      find_block fuel
    else mret tt
  end.

(** Rounds that are enough for [find_block]: to the end of the window, or to
    the first far element. *)
Definition horizon (q : PrioQueue) : nat :=
  S (Z.to_nat (B + match feMap q with (c, _) :: _ => Z.max 0 (c / 64 - curBlock q) | [] => 0 end)).

Definition dequeue : st PrioQueue (Z * Z) :=
  n ← gets elems;
  _ ← assert_ (negb (n =? 0));
  fuel ← gets horizon;
  _ ← find_block fuel;
  cur ← gets curBlock;
  '(obj, offset) ← block_dequeue (cur `mod` B);
  _ ← modify (set_elems (fun n => u64 (n - 1)));
  mret (obj, u64 (cur * 64 + offset)).

Definition size (q : PrioQueue) : Z := elems q.

(** The first populated one of [n] blocks, from block [i] of the window on, and
    the cycle of its first element. *)
Fixpoint scan (n : nat) (i : Z) (q : PrioQueue) : result (option Z) :=
  match n with
  | O => Ok None
  | S n =>
    match blocks q !! Z.to_nat (u64 (curBlock q + i) `mod` B) with
    | None => Err Panicked
    | Some b =>
      if occ b =? 0 then scan n (i + 1) q
      else match builtin_ctzl (occ b) with
           | Ok pos => Ok (Some (u64 (u64 (curBlock q + i) * 64 + pos)))
           | Err f => Err f
           end
    end
  end.

Definition firstCycle : st PrioQueue Z :=
  n ← gets elems;
  _ ← assert_ (negb (n =? 0));
  q ← gets id;
  near ← lift (scan (Z.to_nat (B / 2)) 0 q);
  match near with
  | Some cycle => mret cycle
  | None =>
    (* beyond B/2 blocks, there may be a far element that comes earlier *)
    late ← lift (scan (Z.to_nat (B - B / 2)) (B / 2) q);
    match late, feMap q with
    | Some cycle, [] => mret cycle
    | Some cycle, (c, _) :: _ => mret (Z.min cycle c)
    | None, (c, _) :: _ => mret c
    | None, [] => fail Panicked
    end
  end.

End queue.

(** ** Lists of elements *)

(** [p] is the head of the list [l] through the [next] fields. *)
Fixpoint chain (nx : gmap Z Z) (p : ptr) (l : list Z) : Prop :=
  match l with
  | [] => p = None
  | o :: l => p = Some o /\ chain nx (nx !! o) l
  end.

Lemma chain_frame nx p l o x : chain nx p l -> o ∉ l -> chain (partial_alter (fun _ => x) o nx) p l.
Proof.
  revert p. induction l as [|y l IH]; intros p; simpl; [done|]. intros [-> Hc] Ho%not_elem_of_cons.
  split; [done|]. rewrite lookup_partial_alter_ne by naive_solver. apply IH; naive_solver.
Qed.

(** A list through the [next] fields is determined by its head. *)
Lemma chain_det nx p l l' : chain nx p l -> chain nx p l' -> l = l'.
Proof.
  revert p l'. induction l as [|o l IH]; intros p [|o' l'] H H'; simpl in *; naive_solver.
Qed.

Lemma chain_suffix nx p l o : chain nx p l -> o ∈ l -> exists l', chain nx (Some o) (o :: l') /\ (length l' < length l)%nat.
Proof.
  revert p. induction l as [|y l IH]; intros p; simpl; [by intros _ ?%elem_of_nil|].
  intros [-> Hc] [->|Hin]%elem_of_cons.
  - exists l. simpl. split; [done|lia].
  - destruct (IH _ Hc Hin) as (l' & H1 & H2). exists l'. split; [done|lia].
Qed.

(** It has no cycle, so no element is twice in it. *)
Lemma chain_head_notin nx o l : chain nx (Some o) (o :: l) -> o ∉ l.
Proof.
  intros H Hin. assert (chain nx (nx !! o) l) as Hc by (simpl in H; tauto).
  destruct (chain_suffix _ _ _ _ Hc Hin) as (l' & H1 & H2).
  pose proof (chain_det _ _ _ _ H H1) as [= ->]. lia.
Qed.

(** ** The word of occupied cycles *)

Lemma ctz_from_spec n i x j :
  i <= j < i + Z.of_nat n -> Z.testbit x j = true -> (forall k, i <= k < j -> Z.testbit x k = false) ->
  ctz_from n i x = Ok j.
Proof.
  revert i. induction n as [|n IH]; intros i Hj Hb Hlow; [lia|]. cbn [ctz_from].
  destruct (decide (i = j)) as [->|Hne]; [by rewrite Hb|].
  rewrite Hlow by lia. apply IH; [lia|done|]. intros k Hk. apply Hlow. lia.
Qed.

(** The least bit of a word that is not zero. *)
Lemma least_bit x : 0 <= x < W64 -> x <> 0 ->
  exists j, 0 <= j < 64 /\ Z.testbit x j = true /\ forall k, 0 <= k < j -> Z.testbit x k = false.
Proof.
  intros Hx Hne.
  assert (forall n, (forall k, 0 <= k < Z.of_nat n -> Z.testbit x k = false) \/
    exists j, 0 <= j < Z.of_nat n /\ Z.testbit x j = true /\ forall k, 0 <= k < j -> Z.testbit x k = false) as Hn.
  { induction n as [|n [IH|(j & ? & ? & ?)]]; [left; lia| |right; exists j; eauto with lia].
    destruct (Z.testbit x (Z.of_nat n)) eqn:E.
    - right. exists (Z.of_nat n). split_and!; eauto with lia.
    - left. intros k Hk. destruct (decide (k = Z.of_nat n)) as [->|]; [done|apply IH; lia]. }
  destruct (Hn 64%nat) as [H|H]; [|exact H].
  exfalso. apply Hne. apply Z.bits_inj'. intros k Hk. rewrite Z.bits_0.
  destruct (decide (k < 64)); [apply H; lia|].
  destruct (decide (x = 0)); [subst; apply Z.bits_0|]. apply Z.bits_above_log2; [lia|].
  assert (Z.log2 x < 64) by (apply Z.log2_lt_pow2; [lia|exact (proj2 Hx)]). lia.
Qed.

Lemma ctzl_spec x j :
  0 <= j < 64 -> Z.testbit x j = true -> (forall k, 0 <= k < j -> Z.testbit x k = false) -> builtin_ctzl x = Ok j.
Proof. intros. apply ctz_from_spec; [lia|done..]. Qed.

Lemma shiftl_bit pos i : 0 <= pos -> 0 <= i -> Z.testbit (Z.shiftl 1 pos) i = bool_decide (i = pos).
Proof.
  intros Hp Hi. rewrite Z.shiftl_1_l, Z.pow2_bits_eqb by lia.
  case_bool_decide; [subst; apply Z.eqb_refl|]. apply Z.eqb_neq. lia.
Qed.

(** Words whose bits are below 64. *)
Lemma word64 x : 0 <= x -> (forall i, 64 <= i -> Z.testbit x i = false) -> 0 <= x < W64.
Proof.
  intros Hx Hb. split; [done|]. destruct (decide (x = 0)); [subst; done|].
  change W64 with (2 ^ 64). apply Z.log2_lt_pow2; [lia|]. destruct (decide (Z.log2 x < 64)); [done|].
  pose proof (Z.bit_log2 x ltac:(lia)) as H. rewrite Hb in H by lia. done.
Qed.

Lemma word64_bits x i : 0 <= x < W64 -> 64 <= i -> Z.testbit x i = false.
Proof.
  intros Hx Hi. destruct (decide (x = 0)); [subst; apply Z.bits_0|]. apply Z.bits_above_log2; [lia|].
  assert (Z.log2 x < 64) by (apply Z.log2_lt_pow2; [lia|exact (proj2 Hx)]). lia.
Qed.

Lemma lor_word x pos : 0 <= x < W64 -> 0 <= pos < 64 -> 0 <= Z.lor x (Z.shiftl 1 pos) < W64.
Proof.
  intros Hx Hp. apply word64; [apply Z.lor_nonneg; split; [lia|apply Z.shiftl_nonneg; lia]|].
  intros i Hi. rewrite Z.lor_spec, word64_bits, shiftl_bit by lia. apply bool_decide_eq_false. lia.
Qed.

Lemma lxor_word x pos : 0 <= x < W64 -> 0 <= pos < 64 -> 0 <= Z.lxor x (Z.shiftl 1 pos) < W64.
Proof.
  intros Hx Hp. apply word64; [apply Z.lxor_nonneg; pose proof (Z.shiftl_nonneg 1 pos); lia|].
  intros i Hi. rewrite Z.lxor_spec, word64_bits, shiftl_bit by lia. simpl. apply bool_decide_eq_false. lia.
Qed.

(** ** What the window holds *)

(** The lists of one block are [l]. *)
Record BlockRep (nx : gmap Z Z) (blk : PQBlock) (l : Z -> list Z) : Prop := {
  block_word : 0 <= occ blk < W64;
  block_slot pos : 0 <= pos < 64 ->
    exists p, array blk !! Z.to_nat pos = Some p /\ chain nx p (l pos) /\
      Z.testbit (occ blk) pos = bool_decide (l pos <> [])
}.

Section window.
Context (B : Z) (HB : 2 <= B).

(** The lists of the window are [L], by cycle. *)
Record Window (q : PrioQueue) (L : Z -> list Z) : Prop := {
  window_len : length (blocks q) = Z.to_nat B;
  window_block b : curBlock q <= b < curBlock q + B ->
    exists blk, blocks q !! Z.to_nat (b `mod` B) = Some blk /\ BlockRep (next q) blk (fun pos => L (b * 64 + pos));
  window_bounds c : L c <> [] -> curBlock q <= c / 64 < curBlock q + B;
  window_next o : next q !! o <> None -> exists c, o ∈ L c;
  window_disj o c c' : o ∈ L c -> o ∈ L c' -> c = c'
}.

Lemma mod_window_inj b b' lo : lo <= b < lo + B -> lo <= b' < lo + B -> b `mod` B = b' `mod` B -> b = b'.
Proof using HB.
  intros Hb Hb' Hm. pose proof (Z.div_mod b B ltac:(lia)). pose proof (Z.div_mod b' B ltac:(lia)).
  assert (b / B = b' / B) by nia. nia.
Qed.

Lemma mod_index b : (Z.to_nat (b `mod` B) < Z.to_nat B)%nat.
Proof using HB. pose proof (Z.mod_pos_bound b B ltac:(lia)). lia. Qed.

Lemma cycle_split c : c = c / 64 * 64 + c `mod` 64 /\ 0 <= c `mod` 64 < 64.
Proof. pose proof (Z.div_mod c 64 ltac:(lia)). pose proof (Z.mod_pos_bound c 64 ltac:(lia)). lia. Qed.

Lemma window_frame q q' L :
  Window q L -> blocks q' = blocks q -> curBlock q' = curBlock q -> next q' = next q -> Window q' L.
Proof. intros [] E1 E2 E3. split; rewrite ?E1, ?E2, ?E3; done. Qed.

(** One list, and the [next] field of one element, are changed. *)
Lemma window_update q L c blk p x l o occ' :
  Window q L -> curBlock q <= c / 64 < curBlock q + B ->
  blocks q !! Z.to_nat ((c / 64) `mod` B) = Some blk ->
  (forall c', c' <> c -> o ∉ L c') ->
  chain (partial_alter (fun _ => x) o (next q)) p l ->
  0 <= occ' < W64 ->
  (forall i, 0 <= i < 64 ->
     Z.testbit occ' i = if decide (i = c `mod` 64) then bool_decide (l <> []) else Z.testbit (occ blk) i) ->
  (forall o', partial_alter (fun _ => x) o (next q) !! o' <> None -> o' ∈ l \/ exists c', c' <> c /\ o' ∈ L c') ->
  (forall o' c', o' ∈ l -> o' ∈ L c' -> c' = c) ->
  forall q', blocks q' = <[Z.to_nat ((c / 64) `mod` B) := mkBlock (<[Z.to_nat (c `mod` 64) := p]> (array blk)) occ']> (blocks q) ->
  curBlock q' = curBlock q -> next q' = partial_alter (fun _ => x) o (next q) ->
  Window q' (<[c := l]> L).
Proof using HB.
  intros [Hlen Hblk Hwin Hnext Hdisj] Hc Hb Ho Hch Hocc Hbits Hnx Hl q' Eb Ec En.
  destruct (cycle_split c) as [Ecyc Hpos].
  split.
  - rewrite Eb. by rewrite length_insert.
  - intros b Hbw. rewrite Ec in Hbw. rewrite Eb, En.
    destruct (Hblk b Hbw) as (blk' & Hb' & Hw & Hs).
    destruct (decide (b = c / 64)) as [->|Hne].
    + assert (blk' = blk) as -> by congruence.
      eexists. split; [apply list_lookup_insert_eq; rewrite Hlen; apply mod_index|]. split; [done|].
      intros pos Hp. cbn [array occ]. destruct (decide (pos = c `mod` 64)) as [->|Hne].
      * rewrite <- Ecyc, fn_lookup_insert. exists p.
        destruct (Hs _ Hp) as (p0 & Hp0 & _). split_and!; [|done|rewrite Hbits by done; by rewrite decide_True].
        apply list_lookup_insert_eq. eapply lookup_lt_Some, Hp0.
      * rewrite fn_lookup_insert_ne by lia. destruct (Hs _ Hp) as (p0 & Hp0 & Hch0 & Hbit).
        exists p0. split_and!; [|apply chain_frame; [done|apply Ho; lia]|rewrite Hbits by done; by rewrite decide_False].
        rewrite list_lookup_insert_ne; [done|]. lia.
    + exists blk'. split.
      * rewrite list_lookup_insert_ne; [done|]. intros Heq. apply Hne.
        pose proof (Z.mod_pos_bound b B ltac:(lia)). pose proof (Z.mod_pos_bound (c / 64) B ltac:(lia)).
        eapply mod_window_inj; [exact Hbw|exact Hc|lia].
      * split; [done|]. intros pos Hp. assert (b * 64 + pos <> c) as Hneq.
        { intros <-. apply Hne. rewrite Z.div_add_l, Z.div_small; lia. }
        rewrite fn_lookup_insert_ne by done. destruct (Hs _ Hp) as (p0 & Hp0 & Hch0 & Hbit).
        exists p0. split_and!; [done|apply chain_frame; [done|by apply Ho]|done].
  - intros c' Hc'. rewrite Ec. destruct (decide (c' = c)) as [->|Hne]; [done|].
    rewrite fn_lookup_insert_ne in Hc' by done. by apply Hwin.
  - intros o' Ho'. rewrite En in Ho'. destruct (Hnx _ Ho') as [Hin|(c' & Hne & Hin)].
    + exists c. by rewrite fn_lookup_insert.
    + exists c'. by rewrite fn_lookup_insert_ne.
  - intros o' c1 c2 H1 H2. destruct (decide (c1 = c)) as [->|N1], (decide (c2 = c)) as [->|N2];
      rewrite ?fn_lookup_insert, ?(fn_lookup_insert_ne L c c1 l), ?(fn_lookup_insert_ne L c c2 l) in * by done; eauto.
    symmetry. eauto.
Qed.

Lemma wp_block_at i q blk (Q : PQBlock -> PrioQueue -> Prop) :
  blocks q !! Z.to_nat i = Some blk -> Q blk q -> wp (block_at i) q Q.
Proof. unfold wp, block_at. by intros ->. Qed.

Lemma wp_slot blk pos p q (Q : ptr -> PrioQueue -> Prop) :
  array blk !! Z.to_nat pos = Some p -> Q p q -> wp (slot blk pos) q Q.
Proof. unfold wp, slot, lift. by intros ->. Qed.

Definition same_rest (q q' : PrioQueue) : Prop :=
  feMap q' = feMap q /\ curBlock q' = curBlock q /\ elems q' = elems q.

(** A new element goes in front of the list of its cycle. *)
Lemma block_enqueue_spec q L c o :
  Window q L -> curBlock q <= c / 64 < curBlock q + B -> (forall c', o ∉ L c') ->
  wp (block_enqueue ((c / 64) `mod` B) o (c `mod` 64)) q (fun _ q' => Window q' (<[c := o :: L c]> L) /\ same_rest q q').
Proof using HB.
  intros HW Hc Ho. destruct (window_block _ _ HW _ Hc) as (blk & Hb & Hw & Hs).
  destruct (cycle_split c) as [Ecyc Hpos]. destruct (Hs _ Hpos) as (p & Hp & Hch & Hbit). rewrite <- Ecyc in Hch.
  assert (next q !! o = None) as Hnull.
  { destruct (next q !! o) eqn:E; [|done]. destruct (window_next _ _ HW o) as [c' Hc']; [by rewrite E|]. by destruct (Ho c'). }
  unfold block_enqueue. wp_step. eapply wp_block_at; [exact Hb|]. cbv zeta. wp_step. wp_step. wp_step. wp_step.
  { rewrite Hnull. done. }
  wp_step. eapply wp_slot; [exact Hp|]. wp_step. wp_step. unfold set_block. wp_step. split; [|done].
  eapply (window_update q L c blk (Some o) p (o :: L c) o (Z.lor (occ blk) (Z.shiftl 1 (c `mod` 64)))); try done.
  - simpl. split; [done|]. rewrite lookup_partial_alter_eq. by apply chain_frame.
  - by apply lor_word.
  - intros i Hi. rewrite Z.lor_spec, shiftl_bit by lia. case_decide as E.
    + subst i. rewrite (bool_decide_eq_true_2 (c `mod` 64 = c `mod` 64)) by done. by rewrite orb_true_r.
    + rewrite bool_decide_eq_false_2 by done. by rewrite orb_false_r.
  - intros o' Hn. destruct (decide (o' = o)) as [->|Hne]; [left; by left|].
    rewrite lookup_partial_alter_ne in Hn by done. destruct (window_next _ _ HW _ Hn) as [c' Hc'].
    destruct (decide (c' = c)) as [->|]; [left; by right|right; eauto].
  - intros o' c' [->|Hin]%elem_of_cons Hin'; [by destruct (Ho c')|]. eapply window_disj; eauto.
Qed.

(** The first element of the first list of a block comes out. *)
Lemma block_dequeue_spec q L blk :
  Window q L -> blocks q !! Z.to_nat (curBlock q `mod` B) = Some blk -> occ blk <> 0 ->
  wp (block_dequeue (curBlock q `mod` B)) q (fun r q' =>
    exists l c, c / 64 = curBlock q /\ r = (r.1, c `mod` 64) /\ L c = r.1 :: l /\
      (forall c', c' / 64 = curBlock q -> L c' <> [] -> c <= c') /\
      Window q' (<[c := l]> L) /\ same_rest q q' /\ next q' !! r.1 = None).
Proof using HB.
  intros HW Hb Hocc. destruct (window_block _ _ HW (curBlock q) ltac:(lia)) as (blk' & Hb' & Hw & Hs).
  assert (blk' = blk) as -> by congruence.
  destruct (least_bit _ Hw Hocc) as (pos & Hpos & Hset & Hlow).
  destruct (Hs _ Hpos) as (p & Hp & Hch & Hbit). set (c := curBlock q * 64 + pos) in *.
  assert (c / 64 = curBlock q) as Ec by (unfold c; rewrite Z.div_add_l, Z.div_small by lia; lia).
  assert (c `mod` 64 = pos) as Em by (unfold c; rewrite Z.add_comm, Z.mod_add, Z.mod_small by lia; lia).
  rewrite Hset in Hbit. symmetry in Hbit. apply bool_decide_eq_true in Hbit.
  destruct (L c) as [|o l] eqn:EL; [done|]. simpl in Hch. destruct Hch as [-> Hch].
  assert (o ∉ l) as Hol by (apply (chain_head_notin (next q)); simpl; done).
  unfold block_dequeue. wp_step. eapply wp_block_at; [exact Hb|]. wp_step. wp_step.
  { apply negb_true_iff, Z.eqb_neq. done. }
  wp_step. wp_step. exists pos. split; [by apply ctzl_spec|].
  wp_step. eapply wp_slot; [exact Hp|]. cbv iota. wp_step. wp_step. cbv zeta. wp_step. unfold set_block. wp_step. wp_step. wp_step. wp_step.
  exists l, c. split_and!; [done|by rewrite Em|done| | |done|apply lookup_partial_alter_eq].
  - intros c' Ec' Hne. destruct (cycle_split c') as [Ecyc' Hpos']. destruct (decide (c' `mod` 64 < pos)); [|unfold c; lia].
    destruct (Hs _ Hpos') as (_ & _ & _ & Hbit'). rewrite Hlow in Hbit' by lia. symmetry in Hbit'.
    apply bool_decide_eq_false, dec_stable in Hbit'. destruct Hne. rewrite <- Hbit'. f_equal. lia.
  - eapply (window_update q L c blk (next q !! o) None l o
      (match next q !! o with None => Z.lxor (occ blk) (Z.shiftl 1 pos) | Some _ => occ blk end)); try (rewrite ?Ec; lia || done).
    + intros c' Hne Hin. apply Hne. eapply window_disj; [done|exact Hin|]. rewrite EL. by left.
    + by apply chain_frame.
    + destruct (next q !! o); [lia|]. by apply lxor_word.
    + intros i Hi. rewrite Em. destruct l as [|o2 l]; simpl in Hch.
      * rewrite Hch, Z.lxor_spec, shiftl_bit by lia. case_decide as E.
        -- subst i. rewrite Hset, bool_decide_eq_true_2 by done. done.
        -- rewrite (bool_decide_eq_false_2 (i = pos)) by done. by rewrite xorb_false_r.
      * destruct Hch as [-> _]. case_decide as E; [subst i; by rewrite Hset|done].
    + intros o' Hn. destruct (decide (o' = o)) as [->|Hne]; [by rewrite lookup_partial_alter_eq in Hn|].
      rewrite lookup_partial_alter_ne in Hn by done. destruct (window_next _ _ HW _ Hn) as [c' Hc'].
      destruct (decide (c' = c)) as [->|]; [left|right; eauto]. rewrite EL in Hc'. by apply elem_of_cons in Hc' as [->|].
    + intros o' c' Hin Hin'. eapply window_disj; [done|exact Hin'|]. rewrite EL. by right.
    + cbn. rewrite Em, Ec. done.
Qed.

(** An empty first block leaves the window. *)
Lemma window_advance q L blk :
  Window q L -> blocks q !! Z.to_nat (curBlock q `mod` B) = Some blk -> occ blk = 0 ->
  Window (set_curBlock (fun c => c + 1) q) L /\ forall c, L c <> [] -> curBlock q + 1 <= c / 64.
Proof using HB.
  intros HW Hb Hocc. destruct (window_block _ _ HW (curBlock q) ltac:(lia)) as (blk' & Hb' & Hw & Hs).
  assert (blk' = blk) as -> by congruence.
  assert (forall pos, 0 <= pos < 64 -> L (curBlock q * 64 + pos) = []) as Hempty.
  { intros pos Hp. destruct (Hs _ Hp) as (_ & _ & _ & Hbit). rewrite Hocc, Z.bits_0 in Hbit.
    symmetry in Hbit. by apply bool_decide_eq_false, dec_stable in Hbit. }
  assert (forall c, L c <> [] -> curBlock q + 1 <= c / 64) as Hfirst.
  { intros c Hc. pose proof (window_bounds _ _ HW _ Hc). destruct (decide (c / 64 = curBlock q)) as [E|]; [|lia].
    destruct (cycle_split c) as [Ecyc Hpos]. destruct Hc. rewrite Ecyc, E. by apply Hempty. }
  split; [|done]. destruct HW as [Hlen Hblk Hwin Hnext Hdisj]. split; cbn; try done.
  - intros b Hbw. destruct (decide (b = curBlock q + B)) as [->|]; [|apply Hblk; lia].
    exists blk. assert ((curBlock q + B) `mod` B = curBlock q `mod` B) as ->
      by (replace (curBlock q + B) with (curBlock q + 1 * B) by lia; apply Z.mod_add; lia).
    split; [done|]. split; [done|].
    intros pos Hp. destruct (Hs _ Hp) as (p & H1 & H2 & H3). exists p.
    assert (L ((curBlock q + B) * 64 + pos) = []) as ->.
    { apply dec_stable. intros Hne. apply Hwin in Hne. rewrite Z.div_add_l, Z.div_small in Hne by lia. lia. }
    rewrite Hempty in H2, H3 by done. by split_and!.
  - intros c Hc. specialize (Hwin c Hc). specialize (Hfirst c Hc). lia.
Qed.

End window.

(** ** The far elements *)

Definition sorted_far : list (Z * Z) -> Prop := StronglySorted (fun x y => x.1 <= y.1).

Lemma elem_of_multimap_insert c o m x : x ∈ multimap_insert c o m <-> x = (c, o) \/ x ∈ m.
Proof.
  induction m as [|[c' o'] m IH]; simpl; [set_solver|]. case_match; set_solver.
Qed.

Lemma multimap_insert_sorted c o m : sorted_far m -> sorted_far (multimap_insert c o m).
Proof.
  unfold sorted_far. induction 1 as [|[c' o'] m Hm IH Hall]; simpl; [repeat constructor|].
  destruct (Z.ltb_spec c c') as [Hlt|Hge].
  - constructor; [by constructor|]. constructor; [simpl; lia|].
    eapply Forall_impl; [exact Hall|]. intros [c2 o2]; simpl. lia.
  - constructor; [done|]. apply Forall_forall. intros x [->|Hx]%elem_of_multimap_insert; [done|].
    rewrite Forall_forall in Hall. by apply Hall.
Qed.

Lemma multimap_insert_perm c o m : multimap_insert c o m ≡ₚ (c, o) :: m.
Proof. induction m as [|[c' o'] m IH]; simpl; [done|]. case_match; [done|]. rewrite IH. by constructor. Qed.

Lemma round_down a n : 0 < n -> a / n * n <= a < a / n * n + n.
Proof. intros Hn. pose proof (Z.div_mod a n ltac:(lia)). pose proof (Z.mod_pos_bound a n Hn). lia. Qed.

Lemma round_down_succ a n : 0 < n -> (a + 1) `mod` n <> 0 -> (a + 1) / n * n = a / n * n.
Proof.
  intros Hn Hm. pose proof (Z.div_mod (a + 1) n ltac:(lia)). pose proof (Z.mod_pos_bound (a + 1) n Hn).
  f_equal. eapply (Z.div_unique a n ((a + 1) / n) ((a + 1) `mod` n - 1)); lia.
Qed.

(** There are no more elements than 64-bit addresses. *)
Lemma address_bound (m : gmap Z Z) : (forall o, is_Some (m !! o) -> 0 < o < W64) -> Z.of_nat (base.size m) < W64.
Proof.
  intros Hm. rewrite <- length_map_to_list, <- (length_fmap fst).
  assert ((map_to_list m).*1 ⊆+ seqZ 1 (W64 - 1)) as Hsub.
  { apply NoDup_submseteq; [apply NoDup_fst_map_to_list|]. intros o ([o' c] & -> & Hin)%list_elem_of_fmap.
    apply elem_of_map_to_list in Hin. apply elem_of_seqZ. specialize (Hm o' (mk_is_Some _ _ Hin)). simpl. lia. }
  apply submseteq_length in Hsub. rewrite length_seqZ in Hsub. unfold W64 in *. lia.
Qed.

Section correctness.
Context (B : Z) (HB : 2 <= B) (HB58 : 2 * B < 2 ^ 58).

(** Cycles for which no computation of the queue wraps around. *)
Definition in_time (c : Z) : Prop := 0 <= c /\ c / 64 + 2 * B < 2 ^ 58.

(** The queue holds the elements of [m], each with its cycle. *)
Record QueueRep (q : PrioQueue) (L : Z -> list Z) (m : gmap Z Z) : Prop := {
  rep_window : Window B q L;
  rep_sorted : sorted_far (feMap q);
  rep_nodup : NoDup (feMap q).*2;
  rep_late c o : (c, o) ∈ feMap q -> curBlock q / (B / 2) * (B / 2) + B <= c / 64;
  rep_out c o c' : (c, o) ∈ feMap q -> o ∉ L c';
  rep_contents o c : m !! o = Some c <-> o ∈ L c \/ (c, o) ∈ feMap q;
  rep_elems : elems q = Z.of_nat (base.size m);
  rep_address o : is_Some (m !! o) -> 0 < o < W64;
  rep_time o c : m !! o = Some c -> in_time c;
  rep_cur : 0 <= curBlock q /\ curBlock q + 2 * B < 2 ^ 58
}.

Lemma half : 1 <= B / 2 /\ 2 * (B / 2) <= B.
Proof using HB. pose proof (Z.div_mod B 2 ltac:(lia)). pose proof (Z.mod_pos_bound B 2 ltac:(lia)). lia. Qed.

Lemma far_beyond q L m c o : QueueRep q L m -> (c, o) ∈ feMap q -> curBlock q + B / 2 < c / 64.
Proof using HB.
  intros HR Hin. pose proof (rep_late _ _ _ HR _ _ Hin). pose proof half. pose proof (round_down (curBlock q) (B / 2)). lia.
Qed.

(** Every element of the queue is in the current block or later. *)
Lemma contents_after q L m o c : QueueRep q L m -> m !! o = Some c -> curBlock q <= c / 64.
Proof using HB.
  intros HR [Hin|Hin]%(rep_contents _ _ _ HR).
  - apply (window_bounds _ _ _ (rep_window _ _ _ HR)). intros E. rewrite E in Hin. by apply elem_of_nil in Hin.
  - pose proof (far_beyond _ _ _ _ _ HR Hin). pose proof half. lia.
Qed.

Lemma init_rep : QueueRep (PrioQueue_init B) (fun _ => []) ∅.
Proof using HB HB58.
  assert (forall i, (i < Z.to_nat B)%nat -> blocks (PrioQueue_init B) !! i = Some PQBlock_init) as Hb.
  { intros i Hi. by apply lookup_replicate. }
  split; cbn; try done.
  - split; cbn; [by rewrite length_replicate| |done|done|by intros o c c' ?%elem_of_nil].
    intros b Hbw. eexists. split; [apply Hb, mod_index, HB|]. split; [done|].
    intros pos Hp. exists None. split_and!; [|exact eq_refl|by rewrite Z.bits_0].
    apply lookup_replicate. split; [done|lia].
  - constructor.
  - constructor.
  - intros c o H. by apply elem_of_nil in H.
  - intros c o c' H. by apply elem_of_nil in H.
  - intros o c. rewrite lookup_empty. set_solver.
  - intros o H. rewrite lookup_empty in H. by destruct H.
Qed.

(** Counting down and up never wraps around. *)
Lemma elems_insert (m : gmap Z Z) o c :
  (forall o', is_Some (<[o := c]> m !! o') -> 0 < o' < W64) -> m !! o = None ->
  u64 (Z.of_nat (base.size m) + 1) = Z.of_nat (base.size (<[o := c]> m)).
Proof.
  intros Ha Ho. pose proof (address_bound _ Ha). rewrite map_size_insert_None in * by done.
  rewrite u64_id; [|split; unfold W64 in *]; lia.
Qed.

Lemma elems_delete (m : gmap Z Z) o :
  (forall o', is_Some (m !! o') -> 0 < o' < W64) -> is_Some (m !! o) ->
  u64 (Z.of_nat (base.size m) - 1) = Z.of_nat (base.size (delete o m)).
Proof.
  intros Ha Ho. pose proof (address_bound _ Ha). rewrite map_size_delete_Some by done.
  assert (base.size m <> 0%nat) by (intros E%map_size_empty_inv; subst; rewrite lookup_empty in Ho; by destruct Ho).
  rewrite u64_id; [|split; unfold W64 in *]; lia.
Qed.

Lemma window_elem q L c o : Window B q L -> o ∈ L c -> curBlock q <= c / 64 < curBlock q + B.
Proof. intros HW Hin. apply (window_bounds _ _ _ HW). intros E. rewrite E in Hin. by apply elem_of_nil in Hin. Qed.

(** A fresh element, no earlier than the current block, is added. *)
Lemma enqueue_spec q L m o c :
  QueueRep q L m -> m !! o = None -> 0 < o < W64 -> in_time c -> curBlock q <= c / 64 ->
  wp (enqueue B o c) q (fun _ q' => (exists L', QueueRep q' L' (<[o := c]> m)) /\ curBlock q' = curBlock q).
Proof using HB HB58.
  intros HR Ho Ha Hc Hcur. pose proof (rep_cur _ _ _ HR) as Hq.
  assert (forall c', o ∉ L c') as HoL.
  { intros c' Hin. assert (m !! o = Some c') by (apply (rep_contents _ _ _ HR); by left). congruence. }
  assert (forall c', (c', o) ∉ feMap q) as Hof.
  { intros c' Hin. assert (m !! o = Some c') by (apply (rep_contents _ _ _ HR); by right). congruence. }
  assert (forall o', is_Some (<[o := c]> m !! o') -> 0 < o' < W64) as Haddr.
  { intros o' Hs%lookup_insert_is_Some'. destruct Hs as [<-|Hs]; [done|]. by apply (rep_address _ _ _ HR). }
  assert (forall o' c', <[o := c]> m !! o' = Some c' -> in_time c') as Htime.
  { intros o' c' [[<- <-]|[_ H]]%lookup_insert_Some; [done|]. by eapply rep_time. }
  unfold enqueue. cbv zeta. wp_step. wp_step. wp_step. wp_step; [by apply Z.leb_le|]. wp_step.
  rewrite (u64_id (curBlock q + B)) by (unfold in_u64, W64; lia).
  destruct (Z.ltb_spec (c / 64) (curBlock q + B)) as [Hnear|Hfar].
  - eapply wp_mono; [eapply (block_enqueue_spec B HB _ L c o); [apply HR|lia|done]|].
    intros _ q' (HW & Efar & Ecur & Eel). wp_step. split; [|done]. exists (<[c := o :: L c]> L).
    split; cbn; rewrite ?Efar, ?Ecur; try apply HR; try done.
    + by eapply (window_frame B q').
    + intros c' o' c2 Hin. destruct (decide (c2 = c)) as [->|].
      * rewrite fn_lookup_insert. intros [->|Hin']%elem_of_cons; [by apply Hof in Hin|]. by eapply rep_out.
      * rewrite fn_lookup_insert_ne by done. by eapply rep_out.
    + intros o' c'. rewrite lookup_insert_Some, (rep_contents _ _ _ HR).
      destruct (decide (c' = c)) as [->|]; [rewrite fn_lookup_insert, elem_of_cons|rewrite fn_lookup_insert_ne by done]; [|set_solver].
      destruct (decide (o' = o)) as [->|]; [|naive_solver]. naive_solver.
    + rewrite Eel, (rep_elems _ _ _ HR). by apply elems_insert.
  - do 2 wp_step. split; [|done]. exists L. split; cbn; try apply HR; try done.
    + eapply (window_frame B q); [apply HR|done..].
    + apply multimap_insert_sorted, HR.
    + rewrite multimap_insert_perm. csimpl. constructor; [|apply HR].
      intros ([c' o'] & -> & Hin)%list_elem_of_fmap. by apply Hof in Hin.
    + intros c' o' [[= -> ->]|Hin]%elem_of_multimap_insert; [|by eapply rep_late].
      pose proof half. pose proof (round_down (curBlock q) (B / 2)). lia.
    + intros c' o' c2 [[= -> ->]|Hin]%elem_of_multimap_insert; [done|by eapply rep_out].
    + intros o' c'. rewrite lookup_insert_Some, (rep_contents _ _ _ HR), elem_of_multimap_insert.
      destruct (decide (o' = o)) as [->|]; naive_solver.
    + rewrite (rep_elems _ _ _ HR). by apply elems_insert.
Qed.

(** The entries of the map before [top], a prefix, enter the window. *)
Lemma move_far_spec far q L :
  Window B q L -> curBlock q + 2 * B < 2 ^ 58 -> 0 <= curBlock q ->
  (forall c o, (c, o) ∈ far -> curBlock q <= c / 64 /\ forall c', o ∉ L c') -> NoDup far.*2 -> sorted_far far ->
  wp (move_far B ((curBlock q + B) * 64) far) q (fun rest q' => exists moved L',
    far = moved ++ rest /\ Window B q' L' /\ same_rest q q' /\
    (forall c o, (c, o) ∈ rest -> curBlock q + B <= c / 64) /\
    (forall o c, o ∈ L' c <-> o ∈ L c \/ (c, o) ∈ moved)).
Proof using HB HB58.
  revert q L. induction far as [|[c o] far IH]; intros q L HW Hq H0 Hfar Hnd Hs; cbn [move_far].
  { wp_step. exists [], L. split_and!; try done; set_solver. }
  csimpl in Hnd. apply NoDup_cons in Hnd as [Hof Hnd].
  destruct (Hfar c o) as [Hc HoL]; [by left|].
  destruct (Z.ltb_spec c ((curBlock q + B) * 64)) as [Hlt|Hge].
  - assert (c / 64 < curBlock q + B) by (apply Z.div_lt_upper_bound; lia).
    cbv zeta. do 2 wp_step. wp_step. wp_step; [by apply Z.leb_le|]. wp_step. wp_step.
    { rewrite u64_id by (unfold in_u64, W64; lia). by apply Z.ltb_lt. }
    wp_step. eapply wp_mono; [eapply (block_enqueue_spec B HB _ L c o); [done|lia|done]|].
    intros _ q1 (HW1 & Ef1 & Ec1 & Ee1). rewrite <- Ec1.
    assert (sorted_far far) as Hs' by (by inversion Hs).
    eapply wp_mono; [eapply (IH q1 _ HW1); rewrite ?Ec1; try done|].
    { intros c1 o1 Hin. split; [apply (Hfar c1 o1); by right|].
      intros c' Hin'. destruct (decide (c' = c)) as [->|Hne]; [rewrite fn_lookup_insert in Hin'|rewrite fn_lookup_insert_ne in Hin' by done].
      + apply elem_of_cons in Hin' as [->|Hin']; [apply Hof, list_elem_of_fmap; by exists (c1, o)|].
        destruct (Hfar c1 o1) as [_ H']; [by right|]. by destruct (H' c).
      + destruct (Hfar c1 o1) as [_ H']; [by right|]. by destruct (H' c'). }
    intros rest q2 (moved & L2 & -> & HW2 & (Ef2 & Ec2 & Ee2) & Hrest & Hmem).
    exists ((c, o) :: moved), L2. split_and!; try done; [unfold same_rest; split_and!; congruence|].
    intros o' c'. rewrite Hmem. destruct (decide (c' = c)) as [->|Hne].
    + assert ((c, o') = (c, o) <-> o' = o) by (split; congruence). rewrite fn_lookup_insert, !elem_of_cons. tauto.
    + assert ((c', o') <> (c, o)) by congruence. rewrite fn_lookup_insert_ne, elem_of_cons by done. tauto.
  - wp_step. exists [], L. split_and!; [done..| |intros o' c'; rewrite elem_of_nil; tauto].
    assert (forall c', (curBlock q + B) * 64 <= c' -> curBlock q + B <= c' / 64) as Hdiv
      by (intros; apply Z.div_le_lower_bound; lia).
    intros c' o' [[= -> ->]|Hin]%elem_of_cons; [by apply Hdiv|]. apply Hdiv.
    inversion Hs as [|? ? Hs' Hall]; subst. rewrite Forall_forall in Hall. specialize (Hall _ Hin). simpl in Hall. lia.
Qed.

(** One round of the loop of [dequeue]: the current block is empty. *)
Lemma next_block_spec q L m blk (Q : unit -> PrioQueue -> Prop) (k : st PrioQueue unit) :
  QueueRep q L m -> blocks q !! Z.to_nat (curBlock q `mod` B) = Some blk -> occ blk = 0 -> m <> ∅ ->
  (forall q' L', QueueRep q' L' m -> curBlock q' = curBlock q + 1 ->
     (forall o c, m !! o = Some c -> curBlock q + 1 <= c / 64) -> wp k q' Q) ->
  wp (_ ← modify (set_curBlock (fun c => u64 (c + 1)));
      cur ← gets curBlock;
      far ← gets feMap;
      _ ← when ((cur `mod` (B / 2) =? 0) && negb (bool_decide (far = []))) (
            rest ← move_far B (u64 (u64 (cur + B) * 64)) far;
            modify (set_feMap (fun _ => rest)));
      k) q Q.
Proof using HB HB58.
  intros HR Hb Hocc Hm Hk. pose proof (rep_cur _ _ _ HR) as Hq. pose proof half as Hh.
  destruct (window_advance B HB _ _ _ (rep_window _ _ _ HR) Hb Hocc) as [HW Hfirst].
  assert (forall o c, m !! o = Some c -> curBlock q + 1 <= c / 64) as Hafter.
  { intros o c [Hin|Hin]%(rep_contents _ _ _ HR).
    - apply Hfirst. intros E. rewrite E in Hin. by apply elem_of_nil in Hin.
    - pose proof (far_beyond _ _ _ _ _ HR Hin). lia. }
  assert (curBlock q + 1 + 2 * B < 2 ^ 58) as Hq'.
  { destruct (map_choose _ Hm) as (o & c & Hoc). pose proof (Hafter _ _ Hoc). pose proof (rep_time _ _ _ HR _ _ Hoc) as [_ ?]. lia. }
  do 2 wp_step. set (q1 := set_curBlock _ q).
  assert (q1 = set_curBlock (fun c => c + 1) q) as Eq1.
  { unfold q1, set_curBlock. rewrite u64_id; [done|]. unfold in_u64, W64. lia. }
  rewrite Eq1. clear q1 Eq1. set (q1 := set_curBlock _ q) in *.
  assert (curBlock q1 = curBlock q + 1) as Ec1 by done.
  do 4 wp_step. wp_step. wp_step.
  - intros [Hmod%Z.eqb_eq Hne]%andb_true_iff.
    rewrite (u64_id (curBlock q1 + B)), u64_id by (unfold in_u64, W64; lia).
    wp_step. eapply wp_mono; [eapply (move_far_spec _ q1 L HW)|]; try (rewrite ?Ec1; lia || apply HR).
    { intros c o Hin. change (feMap q1) with (feMap q) in Hin. rewrite Ec1. split; [|intros; by eapply rep_out].
      pose proof (far_beyond _ _ _ _ _ HR Hin). lia. }
    intros rest q2 (moved & L2 & Ef & HW2 & (_ & Ec2 & Ee2) & Hrest & Hmem). change (feMap q1) with (feMap q) in Ef.
    wp_step. eapply (Hk _ L2); [|cbn; congruence|done].
    pose proof (rep_nodup _ _ _ HR) as Hnd. rewrite Ef, fmap_app in Hnd. apply NoDup_app in Hnd as (Hnd1 & Hnd2 & Hnd3).
    split; cbn; try apply HR.
    + by eapply (window_frame B q2).
    + eapply StronglySorted_app_1_r. rewrite <- Ef. apply HR.
    + done.
    + intros c o Hin. rewrite Ec2. pose proof (Hrest _ _ Hin). pose proof (round_down (curBlock q1) (B / 2)). lia.
    + intros c o c' Hin [Hin'|Hin']%Hmem.
      * eapply rep_out; [done| |exact Hin']. rewrite Ef. apply elem_of_app. by right.
      * apply (Hnd2 o); apply list_elem_of_fmap; [by exists (c', o)|by exists (c, o)].
    + intros o c. rewrite (rep_contents _ _ _ HR), Hmem, Ef, elem_of_app. tauto.
    + rewrite Ee2. apply HR.
    + rewrite Ec2, Ec1. lia.
  - intros Hno. eapply (Hk q1 L); [|done|done]. split; try apply HR; [done| |rewrite Ec1; lia].
    intros c o Hin. change (feMap q1) with (feMap q) in Hin. rewrite Ec1.
    apply andb_false_iff in Hno as [Hmod%Z.eqb_neq|Hnil].
    + rewrite Ec1 in Hmod. rewrite round_down_succ by (done || lia). by eapply rep_late.
    + apply negb_false_iff, bool_decide_eq_true in Hnil. change (feMap q1) with (feMap q) in Hnil. rewrite Hnil in Hin. by apply elem_of_nil in Hin.
Qed.

(** The loop of [dequeue] stops at the first populated block. *)
Lemma find_block_spec fuel q L m o c :
  QueueRep q L m -> m !! o = Some c -> (Z.to_nat (c / 64 - curBlock q) < fuel)%nat ->
  wp (find_block B fuel) q (fun _ q' => exists L' blk,
    QueueRep q' L' m /\ blocks q' !! Z.to_nat (curBlock q' `mod` B) = Some blk /\ occ blk <> 0).
Proof using HB HB58.
  revert q L. induction fuel as [|fuel IH]; intros q L HR Hoc Hf; [lia|]. cbn [find_block].
  destruct (window_block _ _ _ (rep_window _ _ _ HR) (curBlock q) ltac:(lia)) as (blk & Hb & _).
  do 2 wp_step. wp_step. eapply wp_block_at; [exact Hb|].
  destruct (Z.eqb_spec (occ blk) 0) as [E|E].
  - eapply (next_block_spec q L m blk); [done..|intros ->; by rewrite lookup_empty in Hoc|].
    intros q' L' HR' Ec Hafter. eapply IH; [done..|]. specialize (Hafter _ _ Hoc). rewrite Ec. lia.
  - wp_step. eauto.
Qed.

Lemma horizon_enough q L m :
  QueueRep q L m -> m <> ∅ -> exists o c, m !! o = Some c /\ (Z.to_nat (c / 64 - curBlock q) < horizon B q)%nat.
Proof using HB.
  intros HR Hm. unfold horizon. destruct (feMap q) as [|[c o] far] eqn:Ef.
  - destruct (map_choose _ Hm) as (o & c & Hoc). exists o, c. split; [done|].
    pose proof (proj1 (rep_contents _ _ _ HR _ _) Hoc) as [Hin|Hin]; [|rewrite Ef in Hin; by apply elem_of_nil in Hin].
    pose proof (window_elem _ _ _ _ (rep_window _ _ _ HR) Hin). lia.
  - exists o, c. split; [apply (rep_contents _ _ _ HR); right; rewrite Ef; by left|]. lia.
Qed.

(** [dequeue] gives an element of the least cycle, and its cycle. *)
Lemma dequeue_spec q L m :
  QueueRep q L m -> m <> ∅ ->
  wp (dequeue B) q (fun r q' => m !! r.1 = Some r.2 /\ (forall o c, m !! o = Some c -> r.2 <= c) /\
    (exists L', QueueRep q' L' (delete r.1 m)) /\ curBlock q' = r.2 / 64 /\ next q' !! r.1 = None).
Proof using HB HB58.
  intros HR Hm. destruct (horizon_enough _ _ _ HR Hm) as (o0 & c0 & Hoc0 & Hfuel).
  unfold dequeue. do 2 wp_step. wp_step. wp_step.
  { rewrite (rep_elems _ _ _ HR). apply negb_true_iff, Z.eqb_neq.
    assert (base.size m <> 0%nat) by (by intros E%map_size_empty_inv). lia. }
  do 2 wp_step. wp_step. eapply wp_mono; [eapply (find_block_spec _ _ _ _ _ _ HR Hoc0 Hfuel)|]. clear dependent q L.
  intros _ q (L & blk & HR & Hb & Hocc). pose proof (rep_cur _ _ _ HR) as Hq.
  do 2 wp_step. wp_step. eapply wp_mono; [eapply (block_dequeue_spec B HB q L blk); [apply HR|done..]|].
  intros [o pos] q1 (l & c & Ec & Epos & EL & Hmin & HW1 & (Ef & Ec1 & Ee) & Hnull). simpl in *.
  injection Epos as ->. destruct (cycle_split c) as [Ecyc Hpos].
  assert (m !! o = Some c) as Hoc by (apply (rep_contents _ _ _ HR); left; rewrite EL; by left).
  assert (u64 (curBlock q * 64 + c `mod` 64) = c) as ->.
  { pose proof (rep_time _ _ _ HR _ _ Hoc) as [Hc0 Hc]. rewrite u64_id; [lia|]. unfold in_u64, W64. lia. }
  do 2 wp_step. wp_step. split_and!; [done| | |cbn; congruence|done].
  - intros o' c' [Hin|Hin]%(rep_contents _ _ _ HR).
    + pose proof (window_elem _ _ _ _ (rep_window _ _ _ HR) Hin). destruct (decide (c' / 64 = curBlock q)) as [E|].
      * apply Hmin; [done|]. intros E'. rewrite E' in Hin. by apply elem_of_nil in Hin.
      * destruct (cycle_split c'). simpl. lia.
    + pose proof (far_beyond _ _ _ _ _ HR Hin). pose proof half. destruct (cycle_split c'). simpl. lia.
  - assert (o ∉ l) as Hol.
    { destruct (window_block _ _ _ HW1 (c / 64)) as (blk1 & _ & _ & Hs); [rewrite Ec1; lia|].
      destruct (window_block _ _ _ (rep_window _ _ _ HR) (c / 64)) as (blk0 & _ & _ & Hs0); [lia|].
      destruct (Hs0 _ Hpos) as (p & _ & Hch & _). rewrite <- Ecyc, EL in Hch. pose proof Hch as [-> _].
      by apply (chain_head_notin (next q)). }
    exists (<[c := l]> L). split; cbn; rewrite ?Ef, ?Ec1; try apply HR.
    + by eapply (window_frame B q1).
    + intros c' o' c2 Hin. destruct (decide (c2 = c)) as [->|].
      * rewrite fn_lookup_insert. intros Hin'. eapply (rep_out _ _ _ HR _ _ c Hin). rewrite EL. by right.
      * rewrite fn_lookup_insert_ne by done. by eapply rep_out.
    + intros o' c'. rewrite lookup_delete_Some, (rep_contents _ _ _ HR).
      assert ((c', o) ∉ feMap q) as Hof by (intros Hin; eapply (rep_out _ _ _ HR _ _ c Hin); rewrite EL; by left).
      assert (o ∈ L c' -> c' = c) as HoL by (intros Hin; eapply window_disj; [apply HR|exact Hin|rewrite EL; by left]).
      destruct (decide (o' = o)) as [->|Hne].
      * split; [naive_solver|]. intros [Hin|Hin]; [|done]. destruct (decide (c' = c)) as [->|];
          [rewrite fn_lookup_insert in Hin; done|rewrite fn_lookup_insert_ne in Hin by done; naive_solver].
      * destruct (decide (c' = c)) as [->|]; [rewrite fn_lookup_insert, EL, elem_of_cons; naive_solver|].
        rewrite fn_lookup_insert_ne by done. naive_solver.
    + rewrite Ee, (rep_elems _ _ _ HR). apply elems_delete; [apply HR|by exists c].
    + intros o' [_ Hs]%lookup_delete_is_Some. by apply (rep_address _ _ _ HR).
    + intros o' c' [_ H]%lookup_delete_Some. by eapply rep_time.
Qed.

(** The first list of the [n] blocks from block [i] of the window on. *)
Lemma scan_spec n i q L m :
  QueueRep q L m -> 0 <= i -> i + Z.of_nat n <= B ->
  match scan B n i q with
  | Ok (Some c) => L c <> [] /\ curBlock q + i <= c / 64 < curBlock q + i + Z.of_nat n /\
      (forall c', L c' <> [] -> curBlock q + i <= c' / 64 -> c <= c')
  | Ok None => forall c', L c' <> [] -> curBlock q + i <= c' / 64 -> curBlock q + i + Z.of_nat n <= c' / 64
  | Err _ => False
  end.
Proof using HB HB58.
  intros HR. revert i. induction n as [|n IH]; intros i Hi Hn; cbn [scan]; [intros; lia|].
  pose proof (rep_cur _ _ _ HR) as Hq. rewrite (u64_id (curBlock q + i)) by (unfold in_u64, W64; lia).
  destruct (window_block _ _ _ (rep_window _ _ _ HR) (curBlock q + i) ltac:(lia)) as (blk & -> & Hw & Hs).
  destruct (Z.eqb_spec (occ blk) 0) as [E|E].
  - assert (forall c', L c' <> [] -> curBlock q + i <= c' / 64 -> curBlock q + (i + 1) <= c' / 64) as Hskip.
    { intros c' Hne Hc'. destruct (decide (c' / 64 = curBlock q + i)) as [E'|]; [|lia]. destruct Hne.
      destruct (cycle_split c') as [Ecyc Hpos]. destruct (Hs _ Hpos) as (_ & _ & _ & Hbit).
      rewrite E, Z.bits_0, <- E', <- Ecyc in Hbit. symmetry in Hbit. by apply bool_decide_eq_false, dec_stable in Hbit. }
    specialize (IH (i + 1) ltac:(lia) ltac:(lia)). destruct (scan B n (i + 1) q) as [[c|]|]; [| |done].
    + destruct IH as (H1 & H2 & H3). split_and!; [done|lia..|]. intros c' Hne Hc'. apply H3; auto.
    + intros c' Hne Hc'. specialize (IH c' Hne (Hskip _ Hne Hc')). lia.
  - destruct (least_bit _ Hw E) as (pos & Hpos & Hset & Hlow). rewrite (ctzl_spec _ pos) by done.
    set (c := (curBlock q + i) * 64 + pos). assert (c / 64 = curBlock q + i) as Ec by (unfold c; rewrite Z.div_add_l, Z.div_small by lia; lia).
    rewrite u64_id by (unfold in_u64, W64; lia). fold c.
    split_and!; [|lia..|].
    + destruct (Hs _ Hpos) as (_ & _ & _ & Hbit). rewrite Hset in Hbit. symmetry in Hbit. by apply bool_decide_eq_true in Hbit.
    + intros c' Hne Hc'. destruct (cycle_split c') as [Ecyc Hpos']. destruct (decide (c' / 64 = curBlock q + i)) as [E'|]; [|unfold c; lia].
      destruct (decide (c' `mod` 64 < pos)); [|unfold c; lia]. destruct Hne.
      destruct (Hs _ Hpos') as (_ & _ & _ & Hbit). rewrite Hlow, <- E', <- Ecyc in Hbit by lia.
      symmetry in Hbit. by apply bool_decide_eq_false, dec_stable in Hbit.
Qed.

Lemma far_first q L m c0 o0 far c o :
  QueueRep q L m -> feMap q = (c0, o0) :: far -> (c, o) ∈ feMap q -> c0 <= c.
Proof.
  intros HR Ef. rewrite Ef. pose proof (rep_sorted _ _ _ HR) as Hs. rewrite Ef in Hs.
  inversion Hs as [|? ? _ Hall]; subst. intros [[= -> ->]|Hin]%elem_of_cons; [lia|].
  rewrite Forall_forall in Hall. apply (Hall _ Hin).
Qed.

(** [firstCycle] is the least cycle of the queue. *)
Lemma firstCycle_spec q L m :
  QueueRep q L m -> m <> ∅ ->
  exists o c, firstCycle B q = Ok (c, q) /\ m !! o = Some c /\ forall o' c', m !! o' = Some c' -> c <= c'.
Proof using HB HB58.
  intros HR Hm. pose proof half as Hh.
  assert (forall c, L c <> [] -> exists o, m !! o = Some c) as HL.
  { intros c Hne. destruct (L c) as [|o l] eqn:E; [done|]. exists o. apply (rep_contents _ _ _ HR). left. rewrite E. by left. }
  assert (forall o c, m !! o = Some c -> (L c <> [] /\ curBlock q <= c / 64 < curBlock q + B) \/ (c, o) ∈ feMap q) as Hwhere.
  { intros o c [Hin|Hin]%(rep_contents _ _ _ HR); [left|by right].
    split; [|by eapply window_elem; [apply HR|]]. intros E. rewrite E in Hin. by apply elem_of_nil in Hin. }
  assert (forall c0 o0 far, feMap q = (c0, o0) :: far -> m !! o0 = Some c0) as Hfar0.
  { intros c0 o0 far Ef. apply (rep_contents _ _ _ HR). right. rewrite Ef. by left. }
  assert ((negb (elems q =? 0)) = true) as Hel.
  { rewrite (rep_elems _ _ _ HR). apply negb_true_iff, Z.eqb_neq.
    assert (base.size m <> 0%nat) by (by intros E%map_size_empty_inv). lia. }
  unfold firstCycle, gets, assert_, lift, mbind, st_bind. rewrite Hel. simpl.
  pose proof (scan_spec (Z.to_nat (B / 2)) 0 q L m HR ltac:(lia) ltac:(lia)) as Hnear.
  destruct (scan B (Z.to_nat (B / 2)) 0 q) as [[c|]|]; [| |done].
  { destruct Hnear as (Hne & Hc & Hmin). destruct (HL _ Hne) as [o Ho]. exists o, c. split_and!; [done..|].
    intros o' c' [[Hne' Hc']|Hin]%Hwhere; [apply Hmin; [done|lia]|].
    pose proof (far_beyond _ _ _ _ _ HR Hin). destruct (cycle_split c), (cycle_split c'). lia. }
  pose proof (scan_spec (Z.to_nat (B - B / 2)) (B / 2) q L m HR ltac:(lia) ltac:(lia)) as Hlate.
  assert (forall o c, m !! o = Some c -> (L c <> [] /\ curBlock q + B / 2 <= c / 64 < curBlock q + B) \/ (c, o) ∈ feMap q) as Hwhere'.
  { intros o c [[Hne Hc]|Hin]%Hwhere; [left|by right]. split; [done|]. specialize (Hnear c Hne ltac:(lia)). lia. }
  destruct (scan B (Z.to_nat (B - B / 2)) (B / 2) q) as [[c|]|]; [| |done].
  - destruct Hlate as (Hne & Hc & Hmin). destruct (HL _ Hne) as [o Ho].
    destruct (feMap q) as [|[c0 o0] far] eqn:Ef.
    + exists o, c. split_and!; [done..|]. intros o' c' [[Hne' Hc']|Hin]%Hwhere'; [apply Hmin; [done|lia]|by apply elem_of_nil in Hin].
    + assert (forall o' c', m !! o' = Some c' -> Z.min c c0 <= c') as Hle.
      { intros o' c' [[Hne' Hc']|Hin]%Hwhere'; [specialize (Hmin c' Hne' ltac:(lia)); lia|].
        rewrite <- Ef in Hin. pose proof (far_first _ _ _ _ _ _ _ _ HR Ef Hin). lia. }
      destruct (Z.min_spec c c0) as [[_ Emin]|[_ Emin]]; rewrite Emin in *; [exists o, c|exists o0, c0]; eauto.
  - destruct (feMap q) as [|[c0 o0] far] eqn:Ef.
    + destruct (map_choose _ Hm) as (o & c & Hoc). exfalso.
      destruct (Hwhere' _ _ Hoc) as [[Hne Hc]|Hin]; [|by apply elem_of_nil in Hin]. specialize (Hlate c Hne ltac:(lia)). lia.
    + exists o0, c0. split_and!; [done|eauto|]. intros o' c' [[Hne Hc]|Hin]%Hwhere'; [specialize (Hlate c' Hne ltac:(lia)); lia|].
      rewrite <- Ef in Hin. by pose proof (far_first _ _ _ _ _ _ _ _ HR Ef Hin).
Qed.

(** ** Histories of a queue *)

(** [Reached q m now]: after some enqueues and dequeues the queue is [q], the
    elements in it are [m] with their cycles, and [now] is the cycle of the last
    dequeue.  An element is a 64-bit address that is not in the queue already;
    its cycle is not before [now]. *)
Inductive Reached : PrioQueue -> gmap Z Z -> Z -> Prop :=
| reached_init : Reached (PrioQueue_init B) ∅ 0
| reached_enqueue q m now o c q' :
    Reached q m now -> m !! o = None -> 0 < o < W64 -> in_time c -> now <= c ->
    enqueue B o c q = Ok (tt, q') -> Reached q' (<[o := c]> m) now
| reached_dequeue q m now o c q' :
    Reached q m now -> dequeue B q = Ok ((o, c), q') -> Reached q' (delete o m) c.

Lemma dequeue_empty q : elems q = 0 -> dequeue B q = Err AssertFail.
Proof. intros E. unfold dequeue, gets, assert_, mbind, st_bind. by rewrite E. Qed.

Lemma reached_rep q m now :
  Reached q m now -> (exists L, QueueRep q L m) /\ curBlock q = now / 64 /\ forall o c, m !! o = Some c -> now <= c.
Proof using HB HB58.
  induction 1 as [|q m now o c q' H (HR & Hcur & Hnow) Ho Ha Ht Hc He|q m now o c q' H (HR & Hcur & Hnow) Hd].
  - split; [eexists; apply init_rep|]. split; [done|]. intros o c Hoc. by rewrite lookup_empty in Hoc.
  - destruct HR as [L HR]. assert (curBlock q <= c / 64) as Hblock by (rewrite Hcur; apply Z.div_le_mono; lia).
    pose proof (enqueue_spec _ _ _ _ _ HR Ho Ha Ht Hblock) as Hwp. unfold wp in Hwp. rewrite He in Hwp.
    destruct Hwp as [HR' Hc']. split; [done|]. split; [congruence|].
    intros o' c' [[<- <-]|[_ H']]%lookup_insert_Some; [done|eauto].
  - destruct HR as [L HR]. destruct (decide (m = ∅)) as [->|Hne].
    { rewrite dequeue_empty in Hd; [done|]. by rewrite (rep_elems _ _ _ HR), map_size_empty. }
    pose proof (dequeue_spec _ _ _ HR Hne) as Hwp. unfold wp in Hwp. rewrite Hd in Hwp. simpl in Hwp.
    destruct Hwp as (Hoc & Hmin & HR' & Hc' & _). split; [done|]. split; [done|].
    intros o' c' [_ H']%lookup_delete_Some. eauto.
Qed.

(** C30: The calendar queue is a priority queue.  In every history, as long as
    there are elements in it, [dequeue] returns: no assertion on the way fails,
    its loop over the blocks ends; it gives one of the elements of the least
    cycle, with the cycle it was put in with, and leaves all the others.  The
    elements thus come out in the order of their cycles, and the one that came
    out can be put in again (its [next] field is null). *)
Theorem dequeue_earliest q m now :
  Reached q m now -> m <> ∅ ->
  exists o c q', dequeue B q = Ok ((o, c), q') /\ m !! o = Some c /\ now <= c /\
    (forall o' c', m !! o' = Some c' -> c <= c') /\ Reached q' (delete o m) c /\ next q' !! o = None.
Proof using HB HB58.
  intros H Hm. destruct (reached_rep _ _ _ H) as ([L HR] & Hcur & Hnow).
  pose proof (proj1 (wp_ok _ _ _) (dequeue_spec _ _ _ HR Hm)) as ([o c] & q' & Hd & Hoc & Hmin & _ & _ & Hn).
  exists o, c, q'. split_and!; eauto using reached_dequeue.
Qed.

(** [enqueue] takes any element that is not in the queue, at any cycle from
    the current one on, however far ahead; [size] then is the number of the
    elements, and [firstCycle] the least of their cycles, which the next
    [dequeue] gives. *)
Theorem enqueue_counts q m now o c :
  Reached q m now -> m !! o = None -> 0 < o < W64 -> in_time c -> now <= c ->
  exists q' first, enqueue B o c q = Ok (tt, q') /\ Reached q' (<[o := c]> m) now /\
    size q' = Z.of_nat (base.size (<[o := c]> m)) /\
    firstCycle B q' = Ok (first, q') /\ first <= c /\
    (forall o' c', m !! o' = Some c' -> first <= c') /\ (first = c \/ exists o', m !! o' = Some first).
Proof using HB HB58.
  intros H Ho Ha Ht Hc. destruct (reached_rep _ _ _ H) as ([L HR] & Hcur & Hnow).
  assert (curBlock q <= c / 64) as Hblock by (rewrite Hcur; apply Z.div_le_mono; lia).
  pose proof (proj1 (wp_ok _ _ _) (enqueue_spec _ _ _ _ _ HR Ho Ha Ht Hblock)) as ([] & q' & He & [L' HR'] & _).
  destruct (firstCycle_spec _ _ _ HR' (insert_non_empty _ _ _)) as (o1 & first & Hf & Ho1 & Hmin).
  exists q', first. split_and!; [done|by eapply reached_enqueue|apply HR'|done| | |].
  - apply (Hmin o). by rewrite lookup_insert_eq.
  - intros o' c' Hoc. apply (Hmin o'). rewrite lookup_insert_ne; [done|]. intros ->. congruence.
  - apply lookup_insert_Some in Ho1 as [[-> ->]|[_ Ho1]]; eauto.
Qed.

End correctness.

(** A queue of four blocks: a far element, two elements of one cycle. *)
Definition put (o c : Z) (q : PrioQueue) : PrioQueue :=
  match enqueue 4 o c q with Ok (_, q') => q' | Err _ => q end.
Definition queue3 : PrioQueue := put 3 10 (put 2 10 (put 1 300 (PrioQueue_init 4))).

Lemma put_reached q m now o c :
  Reached 4 q m now -> m !! o = None -> 0 < o < W64 -> in_time 4 c -> now <= c -> Reached 4 (put o c q) (<[o := c]> m) now.
Proof.
  intros H Ho Ha Ht Hc. destruct (reached_rep 4 ltac:(lia) ltac:(lia) _ _ _ H) as ([L HR] & Hcur & Hnow).
  assert (curBlock q <= c / 64) as Hblock by (rewrite Hcur; apply Z.div_le_mono; lia).
  pose proof (proj1 (wp_ok _ _ _) (enqueue_spec 4 ltac:(lia) ltac:(lia) _ _ _ _ _ HR Ho Ha Ht Hblock)) as ([] & q' & He & _).
  unfold put. rewrite He. by eapply reached_enqueue.
Qed.

Lemma queue3_reached : Reached 4 queue3 (<[3 := 10]> (<[2 := 10]> (<[1 := 300]> ∅))) 0.
Proof. repeat (apply put_reached; [|done|unfold W64; lia|by split|lia]). apply reached_init. Qed.

Lemma dequeue_earliest_witness :
  exists o q', dequeue 4 queue3 = Ok ((o, 10), q') /\ next q' !! o = None.
Proof.
  destruct (dequeue_earliest 4 ltac:(lia) ltac:(lia) queue3 _ 0 queue3_reached ltac:(apply insert_non_empty))
    as (o & c & q' & Hd & Hoc & _ & Hmin & _ & Hn).
  assert (c <= 10) by (by apply (Hmin 2)). assert (c = 10) as ->; [|by exists o, q'].
  apply lookup_insert_Some in Hoc as [[_ <-]|[_ Hoc]]; [done|].
  apply lookup_insert_Some in Hoc as [[_ <-]|[_ Hoc]]; [done|].
  apply lookup_insert_Some in Hoc as [[_ <-]|[_ Hoc]]; [lia|]. by rewrite lookup_empty in Hoc.
Defined.

Lemma enqueue_counts_witness :
  exists q', enqueue 4 4 5000 queue3 = Ok (tt, q') /\ firstCycle 4 q' = Ok (10, q').
Proof.
  destruct (enqueue_counts 4 ltac:(lia) ltac:(lia) queue3 _ 0 4 5000 queue3_reached)
    as (q' & first & He & _ & _ & Hf & _); [done|unfold W64; lia|by split|lia|].
  exists q'. split; [done|]. rewrite Hf. vm_compute in He. injection He as <-. vm_compute in Hf. by injection Hf as <-.
Defined.
