(* ===== verification/TimingEvents.v ===== *)
(** * Timing events and the weave phase
    (timing_event.h/.cpp, contention_sim.h/.cpp, timing_cache.cpp, weave_md1_mem.h)

    The bound phase records what each access does as a graph of events: an event
    starts when its last parent is done, after its own [preDelay], and lets its
    children know [postDelay] after it is done.  The weave phase runs the events
    of a domain in the order of a calendar queue, up to the end of the phase.
    Here are the events, their operations, the handlers of the caches and
    memories, and the loop of a simulation thread that has one domain. *)

From stdpp Require Import base tactics numbers list gmap.
From Stdlib Require Import ZArith Lia.
From S2P Require Import Prelude PrioQueue.

Open Scope Z_scope.

(** ** Data *)

Inductive EventState : Type := EV_INVALID | EV_NONE | EV_QUEUED | EV_RUNNING | EV_HELD | EV_DONE.
#[export] Instance EventState_eq_dec : EqDecision EventState.
Proof. solve_decision. Defined.

(** The classes of events, with the fields they add.  A cache, a core and the
    event that started a miss are known by their addresses; the [startCycle] of
    that event is not set when it is made. *)
Inductive EventClass : Type :=
| DelayEvent
| WeaveMemAccEvent (lat : Z)
| HitEvent (cache : Z)
| MissStartEvent (cache : Z) (startCycle : option Z)
| MissResponseEvent (cache mse : Z)
| MissWritebackEvent (cache mse : Z)
| ReplAccessEvent (cache accsLeft : Z)
| TimingCoreEvent (cRec origStartCycle startCycle : Z)
| StreamPrefetcherEvent (onGoingCycle : Z).

Definition TIMING_BLOCK_EVENTS : nat := 3.
(** [TimingEventBlock]: the array [events]; the chain through [next] is a list. *)
Definition TimingEventBlock : Type := list ptr.
Definition TimingEventBlock_init : TimingEventBlock := replicate TIMING_BLOCK_EVENTS None.

(** The union of [child] and [children]. *)
Inductive Links : Type := child (p : ptr) | children (blocks : list TimingEventBlock).

Record TimingEvent : Type := mkEvent {
  privCycle : Z;
  state : EventState;
  cycle : Z;
  minStartCycle : Z;
  links : Links;
  domain : Z;      (** -1 if none *)
  numChildren : Z;
  numParents : Z;
  preDelay : Z;
  postDelay : Z;
  class : EventClass
}.

Definition TimingEvent_init (_preDelay _postDelay _domain : Z) (c : EventClass) : TimingEvent :=
  mkEvent 0 EV_NONE 0 (u64 (-1)) (child None) _domain 0 0 _preDelay _postDelay c.

Definition set_privCycle (x : Z) (e : TimingEvent) : TimingEvent :=
  mkEvent x (state e) (cycle e) (minStartCycle e) (links e) (domain e) (numChildren e) (numParents e) (preDelay e) (postDelay e) (class e).
Definition set_state (x : EventState) (e : TimingEvent) : TimingEvent :=
  mkEvent (privCycle e) x (cycle e) (minStartCycle e) (links e) (domain e) (numChildren e) (numParents e) (preDelay e) (postDelay e) (class e).
Definition set_cycle (x : Z) (e : TimingEvent) : TimingEvent :=
  mkEvent (privCycle e) (state e) x (minStartCycle e) (links e) (domain e) (numChildren e) (numParents e) (preDelay e) (postDelay e) (class e).
Definition setMinStartCycle (x : Z) (e : TimingEvent) : TimingEvent :=
  mkEvent (privCycle e) (state e) (cycle e) x (links e) (domain e) (numChildren e) (numParents e) (preDelay e) (postDelay e) (class e).
Definition set_children (l : Links) (n : Z) (e : TimingEvent) : TimingEvent :=
  mkEvent (privCycle e) (state e) (cycle e) (minStartCycle e) l (domain e) n (numParents e) (preDelay e) (postDelay e) (class e).
Definition set_domain (x : Z) (e : TimingEvent) : TimingEvent :=
  mkEvent (privCycle e) (state e) (cycle e) (minStartCycle e) (links e) x (numChildren e) (numParents e) (preDelay e) (postDelay e) (class e).
Definition set_numParents (x : Z) (e : TimingEvent) : TimingEvent :=
  mkEvent (privCycle e) (state e) (cycle e) (minStartCycle e) (links e) (domain e) (numChildren e) x (preDelay e) (postDelay e) (class e).
Definition set_class (c : EventClass) (e : TimingEvent) : TimingEvent :=
  mkEvent (privCycle e) (state e) (cycle e) (minStartCycle e) (links e) (domain e) (numChildren e) (numParents e) (preDelay e) (postDelay e) c.

(** The part of [TimingCache] that the weave phase uses.  Of its statistics there
    are the two latency counters that take a value out of another event: the
    amounts that were added to them, the latest first, [None] for an amount
    computed from what was read out of an event that had been freed. *)
Record TimingCache : Type := mkTimingCache {
  lastAccCycle : Z;
  lastFreeCycle : Z;
  numMSHRs : Z;
  activeMisses : Z;
  pendingQueue : list Z;
  profMissRespLat : list (option Z);
  profMissLat : list (option Z)
}.

Definition TimingCache_init (mshrs : Z) : TimingCache := mkTimingCache 0 0 mshrs 0 [] [] [].

Definition set_lastAccCycle (x : Z) (c : TimingCache) : TimingCache :=
  mkTimingCache x (lastFreeCycle c) (numMSHRs c) (activeMisses c) (pendingQueue c) (profMissRespLat c) (profMissLat c).
Definition set_lastFreeCycle (x : Z) (c : TimingCache) : TimingCache :=
  mkTimingCache (lastAccCycle c) x (numMSHRs c) (activeMisses c) (pendingQueue c) (profMissRespLat c) (profMissLat c).
Definition set_activeMisses (x : Z) (c : TimingCache) : TimingCache :=
  mkTimingCache (lastAccCycle c) (lastFreeCycle c) (numMSHRs c) x (pendingQueue c) (profMissRespLat c) (profMissLat c).
Definition set_pendingQueue (f : list Z -> list Z) (c : TimingCache) : TimingCache :=
  mkTimingCache (lastAccCycle c) (lastFreeCycle c) (numMSHRs c) (activeMisses c) (f (pendingQueue c)) (profMissRespLat c) (profMissLat c).
Definition inc_profMissRespLat (x : option Z) (c : TimingCache) : TimingCache :=
  mkTimingCache (lastAccCycle c) (lastFreeCycle c) (numMSHRs c) (activeMisses c) (pendingQueue c) (x :: profMissRespLat c) (profMissLat c).
Definition inc_profMissLat (x : option Z) (c : TimingCache) : TimingCache :=
  mkTimingCache (lastAccCycle c) (lastFreeCycle c) (numMSHRs c) (activeMisses c) (pendingQueue c) (profMissRespLat c) (x :: profMissLat c).

Inductive RecorderState : Type := HALTED | RUNNING | DRAINING.
#[export] Instance RecorderState_eq_dec : EqDecision RecorderState.
Proof. solve_decision. Defined.

(** [CoreRecorder], with the fields of its [EventRecorder] that carry clocks. *)
Record CoreRecorder : Type := mkRecorder {
  rec_state : RecorderState;
  gapCycles : Z;
  prevRespCycle : Z;
  prevRespEvent : ptr;
  lastEventSimulatedStartCycle : Z;
  lastEventSimulatedOrigStartCycle : Z;
  totalGapCycles : Z;
  totalHaltedCycles : Z;
  lastUnhaltedCycle : Z;
  rec_domain : Z;
  lastGapCycles : Z;     (** of the event recorder *)
  lastStartSlack : Z     (** of the event recorder *)
}.

(** The simulation of one domain: the events by address (an event that is freed
    leaves the map), the data of the domain, the limits of the phase, the caches
    and recorders; [logVec] is the post-mortem log, the latest entry first. *)
Record ContentionSim : Type := mkSim {
  events : gmap Z TimingEvent;
  pq : PrioQueue;
  curCycle : Z;
  limit : Z;
  lastLimit : Z;
  inCSim : bool;
  phaseLength : Z;       (** [zinfo->phaseLength] *)
  tcaches : gmap Z TimingCache;
  recorders : gmap Z CoreRecorder;
  logVec : list (Z * Z)
}.

Definition set_events (f : gmap Z TimingEvent -> gmap Z TimingEvent) (s : ContentionSim) : ContentionSim :=
  mkSim (f (events s)) (pq s) (curCycle s) (limit s) (lastLimit s) (inCSim s) (phaseLength s) (tcaches s) (recorders s) (logVec s).
Definition set_pq (q : PrioQueue) (s : ContentionSim) : ContentionSim :=
  mkSim (events s) q (curCycle s) (limit s) (lastLimit s) (inCSim s) (phaseLength s) (tcaches s) (recorders s) (logVec s).
Definition set_curCycle (x : Z) (s : ContentionSim) : ContentionSim :=
  mkSim (events s) (pq s) x (limit s) (lastLimit s) (inCSim s) (phaseLength s) (tcaches s) (recorders s) (logVec s).
Definition set_limit (x : Z) (s : ContentionSim) : ContentionSim :=
  mkSim (events s) (pq s) (curCycle s) x (lastLimit s) (inCSim s) (phaseLength s) (tcaches s) (recorders s) (logVec s).
Definition set_lastLimit (x : Z) (s : ContentionSim) : ContentionSim :=
  mkSim (events s) (pq s) (curCycle s) (limit s) x (inCSim s) (phaseLength s) (tcaches s) (recorders s) (logVec s).
Definition set_inCSim (x : bool) (s : ContentionSim) : ContentionSim :=
  mkSim (events s) (pq s) (curCycle s) (limit s) (lastLimit s) x (phaseLength s) (tcaches s) (recorders s) (logVec s).
Definition set_tcaches (f : gmap Z TimingCache -> gmap Z TimingCache) (s : ContentionSim) : ContentionSim :=
  mkSim (events s) (pq s) (curCycle s) (limit s) (lastLimit s) (inCSim s) (phaseLength s) (f (tcaches s)) (recorders s) (logVec s).
Definition set_recorders (f : gmap Z CoreRecorder -> gmap Z CoreRecorder) (s : ContentionSim) : ContentionSim :=
  mkSim (events s) (pq s) (curCycle s) (limit s) (lastLimit s) (inCSim s) (phaseLength s) (tcaches s) (f (recorders s)) (logVec s).
Definition set_logVec (f : list (Z * Z) -> list (Z * Z)) (s : ContentionSim) : ContentionSim :=
  mkSim (events s) (pq s) (curCycle s) (limit s) (lastLimit s) (inCSim s) (phaseLength s) (tcaches s) (recorders s) (f (logVec s)).

Definition PQ_BLOCKS : Z := 1024.
Definition numDomains : Z := 1.

Abbreviation sim := (st ContentionSim).

(** ** Memory *)

(** An event, a cache or a recorder at an address; a dangling pointer is undefined. *)
Definition at_event (e : Z) : sim TimingEvent := fun s =>
  match events s !! e with Some ev => Ok (ev, s) | None => Err Panicked end.
Definition set_event (e : Z) (f : TimingEvent -> TimingEvent) : sim unit := modify (set_events (alter f e)).
Definition at_cache (c : Z) : sim TimingCache := fun s =>
  match tcaches s !! c with Some tc => Ok (tc, s) | None => Err Panicked end.
Definition set_cache (c : Z) (f : TimingCache -> TimingCache) : sim unit := modify (set_tcaches (alter f c)).
Definition at_recorder (c : Z) : sim CoreRecorder := fun s =>
  match recorders s !! c with Some r => Ok (r, s) | None => Err Panicked end.
Definition set_recorder (c : Z) (f : CoreRecorder -> CoreRecorder) : sim unit := modify (set_recorders (alter f c)).
(** [slab::freeElem]. *)
Definition freeEvent (e : Z) : sim unit := modify (set_events (delete e)).

(** ** Children *)

(** The children in the order of [visitChildren]: a block is read up to its
    first null pointer. *)
Fixpoint block_events (b : TimingEventBlock) : list Z :=
  match b with Some e :: b => e :: block_events b | _ => [] end.
Definition visited (ev : TimingEvent) : list ptr :=
  if numChildren ev =? 0 then []
  else match links ev with
       | child p => [p]
       | children bs => map Some (concat (map block_events bs))
       end.

Fixpoint visit (f : Z -> sim unit) (l : list ptr) : sim unit :=
  match l with
  | [] => mret tt
  | Some c :: l => _ ← f c; visit f l
  | None :: _ => fail Panicked
  end.
Definition visitChildren (f : Z -> sim unit) (ev : TimingEvent) : sim unit :=
  _ ← visit f (visited ev);
  when (1 <? numChildren ev) (assert_ (Z.of_nat (length (visited ev)) =? numChildren ev)).

(** [propagateDomain]; every call gives a domain to an event that has none. *)
Fixpoint propagateDomain (fuel : nat) (dom e : Z) : sim unit :=
  match fuel with
  | O => fail NoFuel
  | S fuel =>
    ev ← at_event e;
    _ ← assert_ (domain ev =? -1);
    _ ← set_event e (set_domain dom);
    visitChildren (fun c => ch ← at_event c; when (domain ch =? -1) (propagateDomain fuel dom c)) ev
  end.

(** The child pointers with one more child. *)
Definition add_link (childEv : Z) (ev : TimingEvent) : result TimingEvent :=
  if numChildren ev =? 0 then Ok (set_children (child (Some childEv)) 1 ev)
  else if numChildren ev =? 1 then
    match links ev with
    | child firstChild => Ok (set_children (children [ <[1%nat := Some childEv]> (<[0%nat := firstChild]> TimingEventBlock_init) ]) 2 ev)
    | children _ => Err Panicked
    end
  else
    match links ev with
    | children bs =>
      let idx := Z.to_nat (numChildren ev `mod` Z.of_nat TIMING_BLOCK_EVENTS) in
      let bs := if Nat.eqb idx 0 then TimingEventBlock_init :: bs else bs in
      match bs with
      | b :: bs => Ok (set_children (children (<[idx := Some childEv]> b :: bs)) (u32 (numChildren ev + 1)) ev)
      | [] => Err Panicked
      end
    | child _ => Err Panicked
    end.

Definition addChild (e childEv : Z) : sim Z :=
  ev ← at_event e;
  _ ← assert_ (bool_decide (state ev = EV_NONE \/ state ev = EV_QUEUED));
  ch ← at_event childEv;
  _ ← assert_ (bool_decide (state ch = EV_NONE));
  ev' ← lift (add_link childEv ev);
  _ ← set_event e (fun _ => ev');
  ch ← at_event childEv;
  n ← gets (fun s => base.size (events s));
  _ ← when (negb (domain ev =? -1) && (domain ch =? -1)) (propagateDomain n (domain ev) childEv);
  _ ← set_event childEv (fun c => set_numParents (u32 (numParents c + 1)) c);
  mret childEv.

(** ** Queueing *)

Definition ContentionSim_enqueue (e cyc : Z) : sim unit :=
  sm ← gets id;
  _ ← assert_ (inCSim sm);
  _ ← assert_ (lastLimit sm <=? cyc);
  _ ← assert_ (cyc <? u64 (lastLimit sm + 10 * phaseLength sm + 1000000));
  ev ← at_event e;
  _ ← (if domain ev =? 0 then assert_ (curCycle sm <=? cyc) else fail Panicked);
  _ ← set_event e (set_privCycle cyc);
  _ ← assert_ (numParents ev =? 0);
  _ ← assert_ (negb (domain ev =? -1));
  _ ← assert_ (domain ev <? numDomains);
  zoom pq set_pq (enqueue PQ_BLOCKS e cyc).

Definition enqueueSynced (e cyc : Z) : sim unit :=
  sm ← gets id;
  _ ← assert_ (negb (inCSim sm));
  ev ← at_event e;
  _ ← assert_ (negb (domain ev =? -1));
  _ ← assert_ (domain ev <? numDomains);
  _ ← assert_ (lastLimit sm <=? cyc);
  _ ← assert_ (cyc <? u64 (lastLimit sm + 10 * phaseLength sm + 10000));
  _ ← set_event e (set_privCycle cyc);
  _ ← assert_ (numParents ev =? 0);
  zoom pq set_pq (enqueue PQ_BLOCKS e cyc).

(** [TimingEvent::queue], in the bound phase. *)
Definition queue (e nextCycle : Z) : sim unit :=
  ev ← at_event e;
  _ ← assert_ (bool_decide (state ev = EV_NONE) && (numParents ev =? 0));
  _ ← set_event e (set_state EV_QUEUED);
  enqueueSynced e nextCycle.

(** [TimingEvent::requeue], in the weave phase. *)
Definition requeue (e nextCycle : Z) : sim unit :=
  ev ← at_event e;
  _ ← assert_ (numParents ev =? 0);
  _ ← assert_ (bool_decide (state ev = EV_RUNNING \/ state ev = EV_HELD));
  _ ← set_event e (set_state EV_QUEUED);
  ContentionSim_enqueue e nextCycle.

Definition hold (e : Z) : sim unit :=
  ev ← at_event e;
  _ ← assert_ (bool_decide (state ev = EV_RUNNING));
  set_event e (set_state EV_HELD).

(** ** Completion *)

(** [TimingEvent::done], with the [parentDone] of the children. *)
Definition done_with (parentDone : Z -> Z -> sim unit) (e doneCycle : Z) : sim unit :=
  ev ← at_event e;
  _ ← assert_ (bool_decide (state ev = EV_RUNNING));
  _ ← set_event e (set_state EV_DONE);
  _ ← visitChildren (fun c => parentDone c (u64 (doneCycle + postDelay ev))) ev;
  freeEvent e.

(** [TimingEvent::parentDone] and [DelayEvent::parentDone], which is done at once. *)
Fixpoint parentDone (fuel : nat) (e startCycle : Z) : sim unit :=
  match fuel with
  | O => fail NoFuel
  | S fuel =>
    _ ← at_event e;
    _ ← set_event e (fun ev => set_cycle (Z.max (cycle ev) startCycle) ev);
    ev ← at_event e;
    match class ev with
    | DelayEvent =>
      _ ← set_event e (set_numParents (u32 (numParents ev - 1)));
      when (u32 (numParents ev - 1) =? 0) (
        _ ← set_event e (set_state EV_RUNNING);
        done_with (parentDone fuel) e (u64 (cycle ev + preDelay ev)))
    | _ =>
      _ ← assert_ (negb (numParents ev =? 0));
      _ ← set_event e (set_numParents (u32 (numParents ev - 1)));
      when (u32 (numParents ev - 1) =? 0) (
        _ ← assert_ (bool_decide (state ev = EV_NONE));
        _ ← set_event e (set_state EV_QUEUED);
        ContentionSim_enqueue e (u64 (cycle ev + preDelay ev)))
    end
  end.

(** A chain of delay events visits an event once, so their number is enough. *)
Definition done (e doneCycle : Z) : sim unit :=
  n ← gets (fun s => base.size (events s));
  done_with (parentDone (S n)) e doneCycle.

(** ** TimingCache *)

Definition highPrioAccess (c cyc : Z) : sim Z :=
  tc ← at_cache c;
  _ ← assert_ (lastFreeCycle tc <=? cyc);
  let lookupCycle := Z.max cyc (u64 (lastAccCycle tc + 1)) in
  (* record last free run *)
  _ ← when (lastAccCycle tc <? u64 (cyc - 1)) (set_cache c (set_lastFreeCycle (u64 (cyc - 1))));
  _ ← set_cache c (set_lastAccCycle lookupCycle);
  mret lookupCycle.

Definition tryLowPrioAccess (c cyc : Z) : sim Z :=
  tc ← at_cache c;
  if (lastAccCycle tc <? u64 (cyc - 1)) || (lastFreeCycle tc =? u64 (cyc - 1)) then
    _ ← set_cache c (set_lastFreeCycle 0);
    _ ← set_cache c (set_lastAccCycle (Z.max (u64 (cyc - 1)) (lastAccCycle tc)));
    mret cyc
  else mret 0.

Definition simulateHit (c e cyc : Z) : sim unit :=
  tc ← at_cache c;
  if activeMisses tc <? numMSHRs tc then
    lookupCycle ← highPrioAccess c cyc;
    done e lookupCycle
  else
    _ ← hold e;
    set_cache c (set_pendingQueue (fun l => l ++ [e])).

Definition simulateMissStart (c e cyc : Z) : sim unit :=
  tc ← at_cache c;
  if activeMisses tc <? numMSHRs tc then
    _ ← set_cache c (set_activeMisses (u32 (activeMisses tc + 1)));
    _ ← set_event e (set_class (MissStartEvent c (Some cyc)));
    lookupCycle ← highPrioAccess c cyc;
    done e lookupCycle
  else
    _ ← hold e;
    set_cache c (set_pendingQueue (fun l => l ++ [e])).

(** [cycle - mse->startCycle].  By then [mse] is done, and [done] has freed it
    ("immediately reclaimed"): the read is of what its memory holds by now. *)
Definition startCycle_of (E : gmap Z TimingEvent) (mse : Z) : option Z :=
  match E !! mse with
  | Some ev => match class ev with MissStartEvent _ sc => sc | _ => None end
  | None => None
  end.
Definition amount (E : gmap Z TimingEvent) (mse cyc : Z) : option Z :=
  option_map (fun sc => u64 (cyc - sc)) (startCycle_of E mse).
Definition since_start (mse cyc : Z) : sim (option Z) := gets (fun s => amount (events s) mse cyc).

Definition simulateMissResponse (c e cyc mse : Z) : sim unit :=
  _ ← at_cache c;
  x ← since_start mse cyc;
  _ ← set_cache c (inc_profMissRespLat x);
  done e cyc.

Fixpoint requeue_all (l : list Z) (cyc : Z) : sim unit :=
  match l with
  | [] => mret tt
  | qev :: l => _ ← requeue qev cyc; requeue_all l cyc
  end.

Definition simulateMissWriteback (c e cyc mse : Z) : sim unit :=
  lookupCycle ← tryLowPrioAccess c cyc;
  if negb (lookupCycle =? 0) then (* success, release MSHR *)
    tc ← at_cache c;
    _ ← assert_ (negb (activeMisses tc =? 0));
    x ← since_start mse cyc;
    _ ← set_cache c (inc_profMissLat x);
    _ ← set_cache c (set_activeMisses (u32 (activeMisses tc - 1)));
    _ ← requeue_all (pendingQueue tc) (u64 (cyc + 1));
    _ ← set_cache c (set_pendingQueue (fun _ => []));
    done e cyc
  else requeue e (u64 (cyc + 1)).

Definition simulateReplAccess (c e accsLeft cyc : Z) : sim unit :=
  _ ← assert_ (negb (accsLeft =? 0));
  lookupCycle ← tryLowPrioAccess c cyc;
  if negb (lookupCycle =? 0) then
    _ ← set_event e (set_class (ReplAccessEvent c (u32 (accsLeft - 1))));
    if u32 (accsLeft - 1) =? 0 then done e cyc else requeue e (u64 (cyc + 1))
  else requeue e (u64 (cyc + 1)).

(** ** CoreRecorder *)

Definition reportEventSimulated (r e origStartCycle startCycle : Z) : sim unit :=
  rc ← at_recorder r;
  _ ← when (bool_decide (prevRespEvent rc = Some e)) (assert_ (bool_decide (rec_state rc = DRAINING)));
  set_recorder r (fun rc => mkRecorder (rec_state rc) (gapCycles rc) (prevRespCycle rc)
    (if decide (prevRespEvent rc = Some e) then None else prevRespEvent rc) startCycle origStartCycle
    (totalGapCycles rc) (totalHaltedCycles rc) (lastUnhaltedCycle rc) (rec_domain rc) (lastGapCycles rc)
    (u64 (startCycle - origStartCycle))).

(** ** Running events *)

(** [simulate] of every class. *)
Definition simulate (e startCycle : Z) : sim unit :=
  ev ← at_event e;
  match class ev with
  | DelayEvent => fail Panicked
  | WeaveMemAccEvent lat => done e (u64 (startCycle + lat))
  | HitEvent c => simulateHit c e startCycle
  | MissStartEvent c _ => simulateMissStart c e startCycle
  | MissResponseEvent c mse => simulateMissResponse c e startCycle mse
  | MissWritebackEvent c mse => simulateMissWriteback c e startCycle mse
  | ReplAccessEvent c accsLeft => simulateReplAccess c e accsLeft startCycle
  | TimingCoreEvent r orig _ =>
    _ ← set_event e (set_class (TimingCoreEvent r orig startCycle));
    _ ← reportEventSimulated r e orig startCycle;
    done e startCycle
  | StreamPrefetcherEvent _ => done e startCycle
  end.

Definition run (e startCycle : Z) : sim unit :=
  ev ← at_event e;
  _ ← assert_ (bool_decide (state ev = EV_NONE \/ state ev = EV_QUEUED));
  _ ← set_event e (set_state EV_RUNNING);
  _ ← assert_ (minStartCycle ev <=? startCycle);
  simulate e startCycle.

Definition pq_size : sim Z := gets (fun s => size (pq s)).
Definition pq_firstCycle : sim Z := zoom pq set_pq (firstCycle PQ_BLOCKS).

(** The loop of [simulatePhaseThread] for a thread with one domain. *)
Fixpoint phase_loop (fuel : nat) : sim unit :=
  n ← pq_size;
  more ← (if n =? 0 then mret false
          else (first ← pq_firstCycle; lim ← gets limit; mret (first <? lim)));
  if negb more then mret tt
  else match fuel with
  | O => fail NoFuel
  | S fuel =>
    domCycle ← gets curCycle;
    '(te, cyc) ← zoom pq set_pq (dequeue PQ_BLOCKS);
    _ ← assert_ (domCycle <=? cyc);
    _ ← modify (set_curCycle cyc);
    _ ← run te cyc;
    n ← pq_size;
    newCycle ← (if n =? 0 then gets limit else pq_firstCycle);
    _ ← assert_ (cyc <=? newCycle);
    _ ← modify (set_curCycle newCycle);
    _ ← modify (set_logVec (cons (cyc, te)));
    phase_loop fuel
  end.

(** No event runs twice in a cycle: that many runs are enough. *)
Definition phase_fuel (s : ContentionSim) : nat :=
  (base.size (events s) * Z.to_nat (limit s - curCycle s))%nat.

Definition simulatePhaseThread : sim unit :=
  fuel ← gets phase_fuel;
  _ ← phase_loop fuel;
  lim ← gets limit;
  modify (set_curCycle lim).
