(* ===== verification/WeaveInv.v ===== *)
(** * The graph of events and its invariant

    What holds of the events of a domain between and during the operations of
    the weave phase: the number of parents of an event is the number of edges
    into it and of notifications that are on their way, an event that some
    event will notify is waiting, every miss has one event that will release
    its MSHR, and that one comes after the start of the miss. *)

From stdpp Require Import base tactics numbers list gmap relations sets.
From Stdlib Require Import ZArith Lia.
From S2P Require Import Prelude PrioQueue TimingEvents.

Open Scope Z_scope.

(** ** Occurrences in lists *)
Definition occurs (c : Z) (l : list Z) : Z := sumZ (map (fun x => if decide (x = c) then 1 else 0) l).

Lemma occurs_cons c x l : occurs c (x :: l) = (if decide (x = c) then 1 else 0) + occurs c l.
Proof. done. Qed.

Lemma occurs_pend x c t (l : list (Z * Z)) : occurs x ((c, t) :: l).*1 = (if decide (c = x) then 1 else 0) + occurs x l.*1.
Proof. done. Qed.

Lemma occurs_nonneg c l : 0 <= occurs c l.
Proof. induction l as [|x l IH]; [done|]. rewrite occurs_cons. case_decide; lia. Qed.

Lemma occurs_app c l l' : occurs c (l ++ l') = occurs c l + occurs c l'.
Proof. induction l as [|x l IH]; [done|]. cbn [app]. rewrite !occurs_cons, IH. lia. Qed.

Lemma occurs_elem c l : c ∈ l <-> 0 < occurs c l.
Proof.
  induction l as [|x l IH]; [split; [by intros ?%elem_of_nil|done]|].
  rewrite occurs_cons, elem_of_cons. pose proof (occurs_nonneg c l). case_decide; [subst; split; [lia|by left]|].
  rewrite <- (Z.add_0_l (occurs c l)) in IH. rewrite IH. split; [intros [->|]; [done|done]|by right].
Qed.

(** ** Classes *)

(** What stays the same in an event from its creation on. *)
Definition class_sim (c c' : EventClass) : Prop :=
  match c, c' with
  | MissStartEvent x _, MissStartEvent y _ => x = y
  | ReplAccessEvent x _, ReplAccessEvent y _ => x = y
  | TimingCoreEvent r o _, TimingCoreEvent r' o' _ => r = r' /\ o = o'
  | _, _ => c = c'
  end.

(** The latency that an event has without contention. *)
Definition lat (ev : TimingEvent) : Z := match class ev with WeaveMemAccEvent l => l | _ => 0 end.
(** The cache in whose pending queue an event may be held. *)
Definition holder (ev : TimingEvent) : option Z :=
  match class ev with HitEvent c | MissStartEvent c _ => Some c | _ => None end.
(** The cache in which an event starts a miss. *)
Definition starts (ev : TimingEvent) : option Z := match class ev with MissStartEvent c _ => Some c | _ => None end.
(** The cache that an event accesses. *)
Definition accessed (ev : TimingEvent) : option Z :=
  match class ev with
  | HitEvent c | MissStartEvent c _ | MissResponseEvent c _ | MissWritebackEvent c _ | ReplAccessEvent c _ => Some c
  | _ => None
  end.

Definition waiting (st : EventState) : bool := match st with EV_NONE | EV_QUEUED | EV_HELD => true | _ => false end.

Definition kids (ev : TimingEvent) : list Z := omap id (visited ev).

Record same_event (ev ev' : TimingEvent) : Prop := {
  same_links : links ev' = links ev;
  same_numChildren : numChildren ev' = numChildren ev;
  same_pre : preDelay ev' = preDelay ev;
  same_post : postDelay ev' = postDelay ev;
  same_min : minStartCycle ev' = minStartCycle ev;
  same_domain : domain ev' = domain ev;
  same_class : class_sim (class ev) (class ev')
}.

Lemma class_sim_refl c : class_sim c c.
Proof. by destruct c. Qed.
Lemma class_sim_trans c1 c2 c3 : class_sim c1 c2 -> class_sim c2 c3 -> class_sim c1 c3.
Proof. destruct c1, c2, c3; simpl; intros H1 H2; naive_solver congruence. Qed.

Lemma same_event_refl ev : same_event ev ev.
Proof. split; auto using class_sim_refl. Qed.
Lemma same_event_trans ev1 ev2 ev3 : same_event ev1 ev2 -> same_event ev2 ev3 -> same_event ev1 ev3.
Proof. intros [] []. split; try congruence. by eapply class_sim_trans. Qed.

Lemma same_event_sym ev ev' : same_event ev ev' -> same_event ev' ev.
Proof.
  intros []. split; try congruence. destruct (class ev), (class ev'); simpl in *; try congruence. naive_solver.
Qed.

Lemma same_visited ev ev' : same_event ev ev' -> visited ev' = visited ev.
Proof. intros [E1 E2 _ _ _ _ _]. unfold visited. by rewrite E1, E2. Qed.
Lemma same_kids ev ev' : same_event ev ev' -> kids ev' = kids ev.
Proof. intros H. unfold kids. by rewrite (same_visited _ _ H). Qed.
Lemma same_lat ev ev' : same_event ev ev' -> lat ev' = lat ev.
Proof. intros [_ _ _ _ _ _ H]. unfold lat. destruct (class ev), (class ev'); simpl in H; congruence. Qed.
Lemma same_holder ev ev' : same_event ev ev' -> holder ev' = holder ev.
Proof. intros [_ _ _ _ _ _ H]. unfold holder. destruct (class ev), (class ev'); simpl in H; congruence. Qed.
Lemma same_starts ev ev' : same_event ev ev' -> starts ev' = starts ev.
Proof. intros [_ _ _ _ _ _ H]. unfold starts. destruct (class ev), (class ev'); simpl in H; congruence. Qed.

Lemma set_state_same x ev : same_event ev (set_state x ev).
Proof. split; auto using class_sim_refl. Qed.
Lemma set_privCycle_same x ev : same_event ev (set_privCycle x ev).
Proof. split; auto using class_sim_refl. Qed.
Lemma set_cycle_same x ev : same_event ev (set_cycle x ev).
Proof. split; auto using class_sim_refl. Qed.
Lemma set_numParents_same x ev : same_event ev (set_numParents x ev).
Proof. split; auto using class_sim_refl. Qed.
Lemma set_class_same c ev : class_sim (class ev) c -> same_event ev (set_class c ev).
Proof. by split. Qed.
#[export] Hint Resolve same_event_refl class_sim_refl set_state_same set_privCycle_same set_cycle_same set_numParents_same : damov.

(** ** The invariant of the events *)

Section events.
Context (lb : Z -> Z).   (** the cycle of an event in the bound phase: it starts no earlier *)

Abbreviation EvMap := (gmap Z TimingEvent).

(** The edges into an event, from events that are not done. *)
Definition edges_of (c : Z) (ev : TimingEvent) : Z := if decide (state ev = EV_DONE) then 0 else occurs c (kids ev).
Definition edges_to (E : EvMap) (c : Z) : Z := map_sum (fun _ => edges_of c) E.

Definition edge (E : EvMap) (p c : Z) : Prop := exists ev, E !! p = Some ev /\ state ev <> EV_DONE /\ c ∈ kids ev.

(** The write-back events of the miss that event [m] starts, in cache [c]. *)
Definition release_of (m c : Z) (ev : TimingEvent) : Z :=
  match class ev with
  | MissWritebackEvent c' m' => if decide (c' = c /\ m' = m) then (if waiting (state ev) then 1 else 0) else 0
  | _ => 0
  end.
Definition releases (E : EvMap) (m c : Z) : Z := map_sum (fun _ => release_of m c) E.

(** An event that has not begun. *)
Definition pending (E : EvMap) (m : Z) : bool := match E !! m with Some ev => waiting (state ev) | None => false end.

(** The misses of a cache that have begun and have not released their MSHR. *)
Definition active_of (E : EvMap) (c : Z) (ev : TimingEvent) : Z :=
  match class ev with
  | MissWritebackEvent c' m => if decide (c' = c) then (if waiting (state ev) && negb (pending E m) then 1 else 0) else 0
  | _ => 0
  end.
Definition active (E : EvMap) (c : Z) : Z := map_sum (fun _ => active_of E c) E.

(** What is wrong of no event. *)
Record EventOk (e : Z) (ev : TimingEvent) : Prop := {
  ok_address : 0 < e < W64;
  ok_domain : domain ev = 0;
  ok_pre : in_u32 (preDelay ev);
  ok_post : in_u32 (postDelay ev);
  ok_lat : in_u32 (lat ev);
  ok_visited : Forall is_Some (visited ev) /\ Z.of_nat (length (visited ev)) = numChildren ev;
  ok_parents : 0 <= numParents ev < W32;
  ok_min : class ev <> DelayEvent -> minStartCycle ev <= lb e;
  ok_first : accessed ev <> None -> 1 <= lb e;
  ok_accs : forall c n, class ev = ReplAccessEvent c n -> waiting (state ev) = true -> 0 < n < W32;
  ok_started : state ev <> EV_NONE -> numParents ev = 0;
  ok_delay : class ev = DelayEvent -> state ev <> EV_QUEUED /\ state ev <> EV_HELD;
  ok_held : state ev = EV_HELD -> holder ev <> None;
  ok_valid : state ev <> EV_INVALID
}.

Record EventsInv (pend : list (Z * Z)) (R : gset Z) (E : EvMap) : Prop := {
  ev_ok e ev : E !! e = Some ev -> EventOk e ev;
  ev_parents e ev : E !! e = Some ev -> numParents ev = edges_to E e + occurs e pend.*1;
  ev_edges p ev c : E !! p = Some ev -> state ev <> EV_DONE -> c ∈ kids ev ->
    exists ch, E !! c = Some ch /\ state ch = EV_NONE /\ lb c <= lb p + lat ev + postDelay ev + preDelay ch;
  ev_pend c t : (c, t) ∈ pend ->
    exists ch, E !! c = Some ch /\ state ch = EV_NONE /\ lb c <= t + preDelay ch;
  ev_running e ev : E !! e = Some ev -> waiting (state ev) = false -> e ∈ R;
  ev_release w wb c m ev : E !! w = Some wb -> class wb = MissWritebackEvent c m ->
    E !! m = Some ev -> state ev <> EV_DONE -> starts ev = Some c;
  ev_miss m ev c : E !! m = Some ev -> state ev <> EV_DONE -> starts ev = Some c ->
    releases E m c = 1 /\ forall w wb, E !! w = Some wb -> class wb = MissWritebackEvent c m -> tc (edge E) m w
}.

(** An event stays in order when it changes in what its handlers change. *)
Lemma event_ok_change e ev ev' :
  EventOk e ev -> same_event ev ev' -> 0 <= numParents ev' < W32 -> state ev' <> EV_INVALID ->
  (state ev' <> EV_NONE -> numParents ev' = 0) ->
  (class ev = DelayEvent -> state ev' <> EV_QUEUED /\ state ev' <> EV_HELD) ->
  (state ev' = EV_HELD -> holder ev <> None) ->
  (forall c n, class ev' = ReplAccessEvent c n -> waiting (state ev') = true -> 0 < n < W32) ->
  EventOk e ev'.
Proof.
  intros [] Hs Hp Hv Hst Hd Hh Ha. pose proof Hs as [E1 E2 E3 E4 E5 E6 E7].
  assert (accessed ev' = accessed ev) as Eacc.
  { unfold accessed. destruct (class ev), (class ev'); simpl in E7; congruence. }
  assert (class ev' = DelayEvent -> class ev = DelayEvent) as Edel.
  { intros Hc. rewrite Hc in E7. destruct (class ev); simpl in E7; congruence. }
  assert (class ev' <> DelayEvent -> class ev <> DelayEvent) as Edel'.
  { intros Hc Hc'. rewrite Hc' in E7. destruct (class ev'); simpl in E7; congruence. }
  split; rewrite ?E3, ?E4, ?E5, ?E6, ?E2, ?Eacc, ?(same_lat _ _ Hs), ?(same_visited _ _ Hs), ?(same_holder _ _ Hs); auto.
Qed.

Lemma edges_of_nonneg c ev : 0 <= edges_of c ev.
Proof. unfold edges_of. case_decide; [done|apply occurs_nonneg]. Qed.

Lemma edges_nonneg E c : 0 <= edges_to E c.
Proof. apply map_sum_nonneg. intros. apply edges_of_nonneg. Qed.

Lemma edge_counts E p c : edge E p c -> 0 < edges_to E c.
Proof.
  intros (ev & Hp & Hs & Hc). apply occurs_elem in Hc.
  assert (edges_of c ev <= edges_to E c); [|unfold edges_of in *; rewrite decide_False in * by done; lia].
  apply (map_sum_lookup (fun _ => edges_of c) E p ev); [intros; apply edges_of_nonneg|done].
Qed.

(** An event that is past waiting for its parents has none, and no one will notify it. *)
Lemma started_alone pend R E e ev :
  EventsInv pend R E -> E !! e = Some ev -> state ev <> EV_NONE ->
  edges_to E e = 0 /\ (e ∉ pend.*1) /\ forall p, ~ edge E p e.
Proof.
  intros HE He Hs. pose proof (ok_started _ _ (ev_ok _ _ _ HE _ _ He) Hs) as H0.
  rewrite (ev_parents _ _ _ HE _ _ He) in H0. pose proof (edges_nonneg E e). pose proof (occurs_nonneg e pend.*1).
  split_and!; [lia|rewrite occurs_elem; lia|]. intros p Hp%edge_counts. lia.
Qed.

Lemma edges_to_update E e ev ev' c :
  E !! e = Some ev -> edges_to (<[e:=ev']> E) c = edges_to E c - edges_of c ev + edges_of c ev'.
Proof. intros He. apply (map_sum_update (fun _ => edges_of c) E e ev ev' He). Qed.

Lemma edges_to_same E e ev ev' c :
  E !! e = Some ev -> same_event ev ev' -> state ev <> EV_DONE -> state ev' <> EV_DONE ->
  edges_to (<[e:=ev']> E) c = edges_to E c.
Proof.
  intros He Hs H H'. rewrite (edges_to_update E e ev ev' c He). unfold edges_of.
  rewrite !decide_False, (same_kids _ _ Hs) by done. lia.
Qed.

(** Edges and paths that avoid an event survive its end. *)
Lemma edge_update E e ev ev' p c :
  E !! e = Some ev -> same_event ev ev' -> (p = e -> state ev' <> EV_DONE) -> edge E p c -> edge (<[e:=ev']> E) p c.
Proof.
  intros He Hs Hd (evp & Hp & Hsp & Hc). destruct (decide (p = e)) as [->|Hne].
  - exists ev'. rewrite lookup_insert_eq. assert (evp = ev) as -> by congruence.
    split_and!; [done|auto|]. by rewrite (same_kids _ _ Hs).
  - exists evp. rewrite lookup_insert_ne by done. done.
Qed.

Lemma path_update E e ev ev' a b :
  E !! e = Some ev -> same_event ev ev' -> state ev' <> EV_DONE -> tc (edge E) a b -> tc (edge (<[e:=ev']> E)) a b.
Proof.
  intros He Hs Hd. induction 1 as [a b H|a b c H _ IH].
  - apply tc_once. by eapply edge_update.
  - eapply tc_l; [by eapply edge_update|done].
Qed.

Lemma path_last E a b : tc (edge E) a b -> exists p, edge E p b.
Proof. induction 1 as [a b H|a b c H _ IH]; eauto. Qed.

Lemma path_avoids E E' e a b :
  (forall p, ~ edge E p e) -> (forall p c, p <> e -> edge E p c -> edge E' p c) -> a <> e ->
  tc (edge E) a b -> tc (edge E') a b.
Proof.
  intros Hno Hkeep Ha H. revert Ha. induction H as [a b H|a b c H Hbc IH]; intros Ha.
  - apply tc_once. auto.
  - eapply tc_l; [by apply Hkeep|]. apply IH. intros ->. by apply (Hno a).
Qed.

(** The count of the write-back events of a miss. *)
Lemma release_of_bounds m c ev : 0 <= release_of m c ev <= 1.
Proof. unfold release_of. destruct (class ev); try lia. repeat case_match; lia. Qed.

Lemma releases_nonneg E m c : 0 <= releases E m c.
Proof. apply map_sum_nonneg. intros. apply release_of_bounds. Qed.

Lemma releases_update E e ev ev' m c :
  E !! e = Some ev -> releases (<[e:=ev']> E) m c = releases E m c - release_of m c ev + release_of m c ev'.
Proof. intros He. apply (map_sum_update (fun _ => release_of m c) E e ev ev' He). Qed.

Lemma release_of_same m c ev ev' :
  same_event ev ev' -> waiting (state ev') = waiting (state ev) -> release_of m c ev' = release_of m c ev.
Proof.
  intros [_ _ _ _ _ _ H] Hw. unfold release_of. rewrite Hw.
  destruct (class ev), (class ev'); simpl in H; try done; try congruence. naive_solver.
Qed.

Lemma release_elem E w wb m c :
  E !! w = Some wb -> class wb = MissWritebackEvent c m -> waiting (state wb) = true -> 1 <= releases E m c.
Proof.
  intros Hw Hc Hs. transitivity (release_of m c wb).
  - unfold release_of. rewrite Hc, Hs, decide_True by done. done.
  - apply (map_sum_lookup (fun _ => release_of m c) E w wb); [intros; apply release_of_bounds|done].
Qed.

(** ** Changes of one event *)

Lemma update_back (E : EvMap) e ev ev' x y :
  E !! e = Some ev -> same_event ev ev' -> <[e:=ev']> E !! x = Some y ->
  exists y0, E !! x = Some y0 /\ same_event y0 y /\ (x = e /\ y = ev' /\ y0 = ev \/ x <> e /\ y = y0).
Proof.
  intros He Hs [[<- <-]|[Hne Hx]]%lookup_insert_Some; [exists ev; split; [done|]; split; [done|by left]|].
  exists y. split; [done|]. split; [apply same_event_refl|right; split; done].
Qed.

(** An event that is not done changes, and is not done. *)
Lemma events_update pend pend' R R' E e ev ev' :
  EventsInv pend R E -> E !! e = Some ev -> same_event ev ev' -> EventOk e ev' ->
  state ev <> EV_DONE -> state ev' <> EV_DONE -> (state ev' = EV_NONE -> state ev = EV_NONE) ->
  (forall x, x <> e -> occurs x pend'.*1 = occurs x pend.*1) ->
  numParents ev' - occurs e pend'.*1 = numParents ev - occurs e pend.*1 ->
  (forall x, x ∈ pend' -> x ∈ pend) ->
  (waiting (state ev') = false -> e ∈ R') -> (forall x, x <> e -> x ∈ R -> x ∈ R') ->
  EventsInv pend' R' (<[e:=ev']> E).
Proof.
  intros HE He Hs Hok Hd Hd' Hnone Hocc Hpar Hsub HR HR'.
  assert (forall x, edges_to (<[e:=ev']> E) x = edges_to E x) as Hedges by (intros; by eapply edges_to_same).
  assert (edges_to E e + occurs e pend'.*1 = numParents ev') as Hin.
  { pose proof (ev_parents _ _ _ HE _ _ He). lia. }
  assert (state ev' <> EV_NONE -> forall p, ~ edge E p e) as Halone.
  { intros Hst p Hp%edge_counts. pose proof (ok_started _ _ Hok Hst). pose proof (occurs_nonneg e pend'.*1). lia. }
  assert (state ev' = EV_NONE \/ state ev' <> EV_NONE) as Hcase by (destruct (state ev'); auto).
  assert (forall x y, <[e:=ev']> E !! x = Some y -> exists y0, E !! x = Some y0 /\ same_event y0 y /\
    (state y <> EV_DONE -> state y0 <> EV_DONE)) as Hback.
  { intros x y (y0 & Hx & Hsy & Hcases)%(update_back _ _ _ _ _ _ He Hs). exists y0. naive_solver. }
  assert (forall x y, E !! x = Some y -> state y = EV_NONE -> x = e /\ state ev' <> EV_NONE \/
    exists y', <[e:=ev']> E !! x = Some y' /\ state y' = EV_NONE /\ preDelay y' = preDelay y) as Hforth.
  { intros x y Hx Hy. destruct (decide (x = e)) as [->|Hne].
    - assert (y = ev) as -> by congruence. destruct Hcase; [right; exists ev'|by left].
      rewrite lookup_insert_eq. by destruct Hs.
    - right. exists y. by rewrite lookup_insert_ne. }
  split.
  - intros x y [[<- <-]|[Hne Hx]]%lookup_insert_Some; [done|]. by apply (ev_ok _ _ _ HE).
  - intros x y [[<- <-]|[Hne Hx]]%lookup_insert_Some; [by rewrite Hedges|]. rewrite Hedges, Hocc by done.
    by apply (ev_parents _ _ _ HE).
  - intros p pv c (p0 & Hp0 & Hsp & Hpd)%Hback Hd0 Hc. rewrite (same_kids _ _ Hsp) in Hc.
    destruct (ev_edges _ _ _ HE p p0 c Hp0 (Hpd Hd0) Hc) as (ch & Hch & Hst & Hlb).
    destruct (Hforth _ _ Hch Hst) as [[-> H']|(y' & Hy & Hst' & Epre)].
    + destruct (Halone H' p). exists p0. auto.
    + exists y'. rewrite Epre, (same_lat _ _ Hsp), (same_post _ _ Hsp). done.
  - intros c t Hct. destruct (ev_pend _ _ _ HE c t (Hsub _ Hct)) as (ch & Hch & Hst & Hlb).
    destruct (Hforth _ _ Hch Hst) as [[-> H']|(y' & Hy & Hst' & Epre)]; [|exists y'; by rewrite Epre].
    pose proof (ok_started _ _ Hok H') as H0. rewrite <- Hin in H0. pose proof (edges_nonneg E e).
    assert (e ∈ pend'.*1) as Hin'%occurs_elem by (apply list_elem_of_fmap; by exists (e, t)). lia.
  - intros x y [[<- <-]|[Hne Hx]]%lookup_insert_Some Hw; [by apply HR|]. apply HR'; [done|].
    by eapply (ev_running _ _ _ HE).
  - intros w wb c m mv (w0 & Hw0 & Hsw & _)%Hback Hc (m0 & Hm0 & Hsm & Hmd)%Hback Hmd'.
    pose proof (same_class _ _ Hsw) as Hcw. rewrite Hc in Hcw. destruct (class w0) eqn:Ew; simpl in Hcw; try done.
    injection Hcw as -> ->. pose proof (ev_release _ _ _ HE _ _ _ _ _ Hw0 Ew Hm0 (Hmd Hmd')) as Em.
    by rewrite (same_starts _ _ Hsm).
  - intros m mv c (m0 & Hm0 & Hsm & Hmd)%Hback Hmd' Hc.
    rewrite (same_starts _ _ Hsm) in Hc. rename Hc into Em. destruct (ev_miss _ _ _ HE _ _ _ Hm0 (Hmd Hmd') Em) as [Hone Hpath]. split.
    + rewrite (releases_update E e ev ev' m c He). destruct Hcase as [H'|H'].
      * rewrite (release_of_same m c ev ev' Hs); [lia|]. by rewrite H', Hnone.
      * assert (forall z, class z = class ev \/ class z = class ev' -> release_of m c z = 0) as Hz; [|rewrite !Hz by auto; lia].
        intros z Hz. unfold release_of. destruct (class z) as [| | | | |c' m'| | |] eqn:Ez; try done.
        case_decide as E'; [|done]. destruct E' as [-> ->]. exfalso.
        assert (class ev = MissWritebackEvent c m) as Hce.
        { destruct Hz as [Hz|Hz]; [congruence|]. pose proof (same_class _ _ Hs) as Hcs. rewrite <- Hz in Hcs.
          destruct (class ev); simpl in Hcs; congruence. }
        pose proof (Hpath _ _ He Hce) as Ht. apply path_last in Ht as [p Hp]. by apply (Halone H' p).
    + intros w wb (w0 & Hw0 & Hsw & _)%Hback Hcw. eapply path_update; [done..|]. apply (Hpath w w0 Hw0).
      pose proof (same_class _ _ Hsw) as H'. rewrite Hcw in H'. destruct (class w0); simpl in H'; congruence.
Qed.

(** An event ends: its children are to be notified. *)
Lemma events_done pend R E e ev dc :
  EventsInv pend R E -> E !! e = Some ev -> state ev = EV_RUNNING -> lb e + lat ev <= dc ->
  EventsInv (map (fun c => (c, dc + postDelay ev)) (kids ev) ++ pend) R (<[e:=set_state EV_DONE ev]> E).
Proof.
  intros HE He Hst Hdc. pose proof (ev_ok _ _ _ HE _ _ He) as Hok.
  destruct (started_alone _ _ _ _ _ HE He) as (Hzero & Hpend & Halone); [by rewrite Hst|].
  assert (forall x y, <[e:=set_state EV_DONE ev]> E !! x = Some y -> state y <> EV_DONE -> x <> e /\ E !! x = Some y) as Hback.
  { intros x y [[<- <-]|[Hne Hx]]%lookup_insert_Some Hd; [done|done]. }
  assert (forall x y, E !! x = Some y -> state y = EV_NONE -> <[e:=set_state EV_DONE ev]> E !! x = Some y) as Hforth.
  { intros x y Hx Hy. rewrite lookup_insert_ne; [done|]. intros <-. congruence. }
  assert ((map (fun c => (c, dc + postDelay ev)) (kids ev)).*1 = kids ev) as Ek.
  { induction (kids ev) as [|c l IH]; [done|]. cbn. by f_equal. }
  split.
  - intros x y [[<- <-]|[Hne Hx]]%lookup_insert_Some; [|by apply (ev_ok _ _ _ HE)].
    destruct Hok as [? ? ? ? ? ? ? ? ? ? Hs]. split; try done. intros _. apply Hs. by rewrite Hst.
  - intros x y Hx. rewrite (edges_to_update E e ev _ x He), fmap_app, occurs_app. unfold edges_of.
    change (kids (set_state EV_DONE ev)) with (kids ev). rewrite Ek, Hst, (decide_False (P := EV_RUNNING = EV_DONE)), decide_True by done.
    apply lookup_insert_Some in Hx as [[<- <-]|[Hne Hx]]; [pose proof (ev_parents _ _ _ HE _ _ He); simpl in *; lia|].
    pose proof (ev_parents _ _ _ HE _ _ Hx). lia.
  - intros p pv c Hp Hpd Hc. destruct (Hback _ _ Hp Hpd) as [_ Hp0].
    destruct (ev_edges _ _ _ HE p pv c Hp0 Hpd Hc) as (ch & Hch & Hs & Hlb). exists ch. auto.
  - intros c t [Hc|Hc]%elem_of_app.
    + apply list_elem_of_fmap in Hc as (c' & [= -> ->] & Hc).
      destruct (ev_edges _ _ _ HE e ev c' He) as (ch & Hch & Hs & Hlb); [by rewrite Hst|done|]. exists ch. split_and!; auto. lia.
    + destruct (ev_pend _ _ _ HE c t Hc) as (ch & Hch & Hs & Hlb). exists ch. auto.
  - intros x y [[<- <-]|[Hne Hx]]%lookup_insert_Some Hw; [|by eapply (ev_running _ _ _ HE)].
    eapply (ev_running _ _ _ HE); [exact He|by rewrite Hst].
  - intros w wb c m mv Hw Hc Hm Hmd. destruct (Hback _ _ Hm Hmd) as [_ Hm0].
    apply lookup_insert_Some in Hw as [[<- <-]|[Hne Hw]];
      [by apply (ev_release _ _ _ HE e ev c m)|by apply (ev_release _ _ _ HE w wb c m)].
  - intros m mv c Hm Hmd Hc. destruct (Hback _ _ Hm Hmd) as [Hme Hm0].
    destruct (ev_miss _ _ _ HE _ _ _ Hm0 Hmd Hc) as [Hone Hpath]. split.
    + rewrite (releases_update E e ev _ m c He), (release_of_same m c ev (set_state EV_DONE ev)); [lia|auto with damov|by rewrite Hst].
    + intros w wb Hw Hcw. apply (path_avoids E _ e); [done| |done|].
      * intros p x Hpe (pv & Hp & Hpd & Hx). exists pv. by rewrite lookup_insert_ne.
      * by apply lookup_insert_Some in Hw as [[<- <-]|[Hne Hw]]; [apply (Hpath e ev)|apply (Hpath w wb)].
Qed.

(** An event that is done is freed. *)
Lemma events_free pend R E e ev :
  EventsInv pend R E -> E !! e = Some ev -> state ev = EV_DONE -> EventsInv pend (R ∖ {[e]}) (delete e E).
Proof.
  intros HE He Hst. destruct (started_alone _ _ _ _ _ HE He) as (Hzero & Hpend & Halone); [by rewrite Hst|].
  assert (forall x y, E !! x = Some y -> state y = EV_NONE -> delete e E !! x = Some y) as Hforth.
  { intros x y Hx Hy. rewrite lookup_delete_ne; [done|]. intros <-. congruence. }
  assert (forall x, edges_to (delete e E) x = edges_to E x) as Hedges.
  { intros x. unfold edges_to. rewrite (map_sum_delete _ E e ev He). unfold edges_of at 2. rewrite decide_True by done. lia. }
  assert (forall m c, releases (delete e E) m c = releases E m c) as Hrel.
  { intros m c. unfold releases. rewrite (map_sum_delete _ E e ev He). unfold release_of at 2. rewrite Hst. simpl.
    destruct (class ev); try lia. case_decide; lia. }
  split.
  - intros x y [Hne Hx]%lookup_delete_Some. by apply (ev_ok _ _ _ HE).
  - intros x y [Hne Hx]%lookup_delete_Some. rewrite Hedges. by apply (ev_parents _ _ _ HE).
  - intros p pv c [Hne Hp]%lookup_delete_Some Hpd Hc.
    destruct (ev_edges _ _ _ HE p pv c Hp Hpd Hc) as (ch & Hch & Hs & Hlb). exists ch. auto.
  - intros c t Hc. destruct (ev_pend _ _ _ HE c t Hc) as (ch & Hch & Hs & Hlb). exists ch. auto.
  - intros x y [Hne Hx]%lookup_delete_Some Hw. apply in_remove. split; [by eapply (ev_running _ _ _ HE)|done].
  - intros w wb c m mv [_ Hw]%lookup_delete_Some Hc [_ Hm]%lookup_delete_Some. by apply (ev_release _ _ _ HE w wb c m mv).
  - intros m mv c [Hme Hm]%lookup_delete_Some Hmd Hc. destruct (ev_miss _ _ _ HE _ _ _ Hm Hmd Hc) as [Hone Hpath].
    rewrite Hrel. split; [done|]. intros w wb [_ Hw]%lookup_delete_Some Hcw.
    apply (path_avoids E _ e); [done| |done|by eapply Hpath].
    intros p x Hpe (pv & Hp & Hpd & Hx). exists pv. by rewrite lookup_delete_ne.
Qed.

(** The write-back of a miss begins after the miss itself is done. *)
Lemma release_after pend R E e ev c m :
  EventsInv pend R E -> E !! e = Some ev -> class ev = MissWritebackEvent c m -> state ev <> EV_NONE -> pending E m = false.
Proof.
  intros HE He Hc Hst. unfold pending. destruct (E !! m) as [mv|] eqn:Hm; [|done].
  destruct (decide (state mv = EV_DONE)) as [E'|Hd]; [by rewrite E'|]. exfalso.
  pose proof (ev_release _ _ _ HE _ _ _ _ _ He Hc Hm Hd) as Hcm.
  destruct (ev_miss _ _ _ HE _ _ _ Hm Hd Hcm) as [_ Hpath]. destruct (path_last _ _ _ (Hpath _ _ He Hc)) as [p Hp].
  destruct (started_alone _ _ _ _ _ HE He Hst) as (_ & _ & Halone). by apply (Halone p).
Qed.

Lemma releases_zero pend R E e ev c :
  EventsInv pend R E -> E !! e = Some ev -> state ev <> EV_DONE -> starts ev <> Some c -> releases E e c = 0.
Proof.
  intros HE He Hd Hc. apply map_sum_zero. intros w wb Hw. unfold release_of.
  destruct (class wb) as [| | | | |c' m'| | |] eqn:Ew; try done. case_decide as E'; [|done]. destruct E' as [-> ->].
  destruct Hc. by eapply (ev_release _ _ _ HE).
Qed.

(** ** The misses of a cache that are in progress *)

Lemma pending_update (E : EvMap) e ev ev' m :
  E !! e = Some ev -> (m = e -> waiting (state ev') = waiting (state ev)) -> pending (<[e:=ev']> E) m = pending E m.
Proof.
  intros He Hw. unfold pending. destruct (decide (m = e)) as [->|Hne].
  - by rewrite lookup_insert_eq, He, Hw.
  - by rewrite lookup_insert_ne.
Qed.

Lemma active_update (E : EvMap) e ev ev' c :
  E !! e = Some ev ->
  active (<[e:=ev']> E) c = map_sum (fun _ => active_of (<[e:=ev']> E) c) E - active_of (<[e:=ev']> E) c ev + active_of (<[e:=ev']> E) c ev'.
Proof. intros He. apply (map_sum_update (fun _ => active_of (<[e:=ev']> E) c) E e ev ev' He). Qed.

Lemma active_of_pending (E E' : EvMap) c ev :
  (forall m, pending E' m = pending E m) -> active_of E' c ev = active_of E c ev.
Proof. intros H. unfold active_of. destruct (class ev); try done. by rewrite H. Qed.

Lemma active_of_same E c ev ev' :
  same_event ev ev' -> waiting (state ev') = waiting (state ev) -> active_of E c ev' = active_of E c ev.
Proof using Type. clear lb.
  intros [_ _ _ _ _ _ H] Hw. unfold active_of. rewrite Hw.
  destruct (class ev), (class ev'); simpl in H; try done; try congruence. naive_solver.
Qed.

Lemma active_same (E : EvMap) e ev ev' c :
  E !! e = Some ev -> same_event ev ev' -> waiting (state ev') = waiting (state ev) ->
  active (<[e:=ev']> E) c = active E c.
Proof using Type.
  intros He Hs Hw. rewrite (active_update E e ev ev' c He), (active_of_same _ c ev ev' Hs Hw).
  assert (forall m, pending (<[e:=ev']> E) m = pending E m) as Hp by (intros; by eapply pending_update).
  unfold active. rewrite (map_sum_ext (fun _ => active_of E c) (fun _ => active_of (<[e:=ev']> E) c)); [lia|].
  intros k x _. symmetry. by apply active_of_pending.
Qed.

Lemma active_free (E : EvMap) e ev c :
  E !! e = Some ev -> state ev = EV_DONE -> active (delete e E) c = active E c.
Proof.
  intros He Hst. unfold active. rewrite (map_sum_delete (fun _ => active_of E c) E e ev He).
  assert (active_of E c ev = 0) as ->.
  { unfold active_of. rewrite Hst. simpl. destruct (class ev); try done. by case_decide. }
  apply map_sum_ext. intros k x _. apply active_of_pending. intros m. unfold pending.
  destruct (decide (m = e)) as [->|Hne]; [by rewrite lookup_delete_eq, He, Hst|by rewrite lookup_delete_ne].
Qed.

(** What the beginning of an event adds to the misses of cache [c]. *)
Definition begins (c : Z) (ev : TimingEvent) : Z :=
  match class ev with
  | MissStartEvent c' _ => if decide (c' = c) then 1 else 0
  | MissWritebackEvent c' _ => if decide (c' = c) then -1 else 0
  | _ => 0
  end.

Lemma active_start pend R E e ev ev' c :
  EventsInv pend R E -> E !! e = Some ev -> same_event ev ev' -> waiting (state ev) = true -> waiting (state ev') = false ->
  (forall c' m, class ev = MissWritebackEvent c' m -> pending E m = false) ->
  active (<[e:=ev']> E) c = active E c + begins c ev.
Proof.
  intros HE He Hs Hw Hw' Hp. rewrite (active_update E e ev ev' c He).
  assert (state ev <> EV_DONE) as Hd by (by intros E'; rewrite E' in Hw).
  assert (map_sum (fun _ => active_of (<[e:=ev']> E) c) E = active E c + releases E e c) as ->.
  { unfold active, releases. rewrite <- map_sum_add. apply map_sum_ext. intros k x _.
    unfold active_of, release_of. destruct (class x) as [| | | | |c1 m1| | |]; try done.
    destruct (decide (c1 = c)) as [->|Hne]; [|rewrite decide_False by naive_solver; lia].
    destruct (decide (m1 = e)) as [->|Hne].
    - rewrite decide_True by done. unfold pending. rewrite lookup_insert_eq, He, Hw, Hw'. destruct (waiting (state x)); simpl; lia.
    - rewrite decide_False by naive_solver. rewrite (pending_update E e ev ev' m1 He) by done. lia. }
  assert (active_of (<[e:=ev']> E) c ev' = 0) as ->.
  { unfold active_of. rewrite Hw'. destruct (class ev'); try done. by case_decide. }
  assert (releases E e c = begins c ev + active_of (<[e:=ev']> E) c ev) as Hr; [|lia].
  unfold begins, active_of. destruct (class ev) as [| | |c1 sc| |c1 m1| | |] eqn:Ec;
    try (rewrite (releases_zero pend R E e ev c HE He Hd) by (unfold starts; by rewrite Ec); lia).
  - destruct (decide (c1 = c)) as [->|Hne].
    + destruct (ev_miss _ _ _ HE _ ev c He Hd) as [-> _]; [unfold starts; by rewrite Ec|]. lia.
    + rewrite (releases_zero pend R E e ev c HE He Hd) by (unfold starts; rewrite Ec; congruence). lia.
  - rewrite (releases_zero pend R E e ev c HE He Hd) by (unfold starts; by rewrite Ec). case_decide; [|lia].
    rewrite Hw. destruct (decide (m1 = e)) as [->|Hne].
    + unfold pending. rewrite lookup_insert_eq, Hw'. simpl. lia.
    + rewrite (pending_update E e ev ev' m1 He), (Hp _ _ eq_refl) by done. simpl. lia.
Qed.

(** An event that has no parents any more moves between the queue, the handlers
    and the lists of held events. *)
Lemma events_switch R R' E e ev ev' :
  EventsInv [] R E -> E !! e = Some ev -> same_event ev ev' -> numParents ev' = numParents ev ->
  state ev <> EV_NONE -> state ev <> EV_DONE -> state ev' <> EV_NONE -> state ev' <> EV_DONE -> state ev' <> EV_INVALID ->
  class ev <> DelayEvent -> (state ev' = EV_HELD -> holder ev <> None) ->
  (forall c n, class ev' = ReplAccessEvent c n -> waiting (state ev') = true -> 0 < n < W32) ->
  (waiting (state ev') = false -> e ∈ R') -> (forall x, x <> e -> x ∈ R -> x ∈ R') ->
  EventsInv [] R' (<[e:=ev']> E).
Proof.
  intros HE He Hs Hn H1 H2 H3 H4 H5 Hdel Hheld Haccs HR HR'.
  pose proof (ev_ok _ _ _ HE _ _ He) as Hok. pose proof (ok_started _ _ Hok H1) as H0.
  apply (events_update [] [] R R' E e ev ev'); try done; [|by rewrite Hn].
  eapply (event_ok_change _ ev); try done; rewrite ?Hn, ?H0; done.
Qed.

Lemma begins_same c ev ev' : same_event ev ev' -> begins c ev' = begins c ev.
Proof.
  intros [_ _ _ _ _ _ H]. unfold begins. destruct (class ev), (class ev'); simpl in H; try done; by (subst || (injection H; intros; subst)).
Qed.

(** An event that runs is put aside again. *)
Lemma active_stop R E e ev ev' c :
  EventsInv [] R (<[e:=ev']> E) -> E !! e = Some ev -> same_event ev ev' -> waiting (state ev) = false ->
  waiting (state ev') = true -> state ev' <> EV_NONE ->
  active (<[e:=ev']> E) c + begins c ev = active E c.
Proof.
  intros HE He Hs Hw Hw' Hn. pose proof (lookup_insert_eq E e ev') as He'.
  pose proof (active_start [] R _ e ev' ev c HE He' (same_event_sym _ _ Hs) Hw' Hw) as Ha.
  rewrite insert_insert_eq, (insert_id E e ev He) in Ha. rewrite Ha, (begins_same c ev ev' Hs); [done|].
  intros c' m Hc'. by eapply (release_after [] R _ e ev' c' m).
Qed.
End events.
