(* ===== verification/Weave.v ===== *)
(** * The weave phase

    Over every graph of events that the bound phase may record, a phase runs to
    its end: no assertion of the events, the queue, the caches or the recorders
    fails, the loop ends, no event starts before its cycle in the bound phase,
    none before the events it depends on are done, and events run in the order
    of their cycles. *)

From stdpp Require Import base tactics numbers list gmap relations sets.
From Stdlib Require Import ZArith Lia.
From S2P Require Import Prelude PrioQueue TimingEvents WeaveInv.

Open Scope Z_scope.

(** ** Steps on events *)

Lemma wp_at_event e ev s (Q : TimingEvent -> ContentionSim -> Prop) :
  events s !! e = Some ev -> Q ev s -> wp (at_event e) s Q.
Proof. intros He HQ. unfold wp, at_event. by rewrite He. Qed.

Lemma wp_set_event e f ev s (Q : unit -> ContentionSim -> Prop) :
  events s !! e = Some ev -> Q tt (set_events (insert e (f ev)) s) -> wp (set_event e f) s Q.
Proof.
  intros He HQ. unfold set_event. apply wp_modify. unfold set_events. by rewrite (alter_known f _ _ _ He).
Qed.

Lemma wp_at_cache c tc s (Q : TimingCache -> ContentionSim -> Prop) :
  tcaches s !! c = Some tc -> Q tc s -> wp (at_cache c) s Q.
Proof. intros He HQ. unfold wp, at_cache. by rewrite He. Qed.

Lemma wp_set_cache c f tc s (Q : unit -> ContentionSim -> Prop) :
  tcaches s !! c = Some tc -> Q tt (set_tcaches (insert c (f tc)) s) -> wp (set_cache c f) s Q.
Proof.
  intros He HQ. unfold set_cache. apply wp_modify. unfold set_tcaches. by rewrite (alter_known f _ _ _ He).
Qed.

(** ** Clocks and budgets *)

(** The delays that an event may still add to a clock. *)
Definition budget_of (ev : TimingEvent) : Z :=
  match state ev with
  | EV_NONE => preDelay ev + lat ev + postDelay ev + 1
  | EV_QUEUED | EV_HELD => lat ev + postDelay ev + 1
  | _ => 0
  end.
Definition budget (E : gmap Z TimingEvent) : Z := map_sum (fun _ => budget_of) E.

(** The cycles that are left for an event until the end of the phase. *)
Definition left_of (cur lim : Z) (ev : TimingEvent) : Z :=
  match state ev with
  | EV_NONE => Z.max 0 (lim - cur)
  | EV_QUEUED => Z.max 0 (lim - privCycle ev)
  | EV_HELD => Z.max 0 (lim - cur - 1)
  | _ => 0
  end.
Definition left (cur lim : Z) (E : gmap Z TimingEvent) : Z := map_sum (fun _ => left_of cur lim) E.

Definition none_of (ev : TimingEvent) : Z := if decide (state ev = EV_NONE) then 1 else 0.
Definition nones (E : gmap Z TimingEvent) : Z := map_sum (fun _ => none_of) E.

(** The events in the queue, with their cycles. *)
Definition queued_at (ev : TimingEvent) : option Z := if decide (state ev = EV_QUEUED) then Some (privCycle ev) else None.
Definition queued (E : gmap Z TimingEvent) : gmap Z Z := omap queued_at E.

(** Events are queued before this cycle. *)
Definition top (s : ContentionSim) : Z := lastLimit s + 10 * phaseLength s + 1000000.

Lemma left_of_nonneg cur lim ev : 0 <= left_of cur lim ev.
Proof. unfold left_of. destruct (state ev); lia. Qed.

Lemma queued_Some E e c : queued E !! e = Some c <-> exists ev, E !! e = Some ev /\ state ev = EV_QUEUED /\ privCycle ev = c.
Proof.
  unfold queued. rewrite lookup_omap_Some. unfold queued_at. split.
  - intros (ev & H & He). case_decide; [|done]. exists ev. split_and!; congruence.
  - intros (ev & He & Hs & Hp). exists ev. rewrite decide_True by done. split; [congruence|done].
Qed.

Lemma queued_insert (E : gmap Z TimingEvent) e ev : queued (<[e:=ev]> E) = match queued_at ev with Some c => <[e:=c]> (queued E) | None => delete e (queued E) end.
Proof.
  unfold queued. destruct (queued_at ev) eqn:H; [by apply omap_insert_Some|by apply omap_insert_None].
Qed.

Lemma queued_other (E : gmap Z TimingEvent) e ev : state ev <> EV_QUEUED -> queued (<[e:=ev]> E) = delete e (queued E).
Proof. intros H. rewrite queued_insert. unfold queued_at. by rewrite decide_False. Qed.

Lemma queued_keep (E : gmap Z TimingEvent) e ev ev' :
  E !! e = Some ev -> state ev <> EV_QUEUED -> state ev' <> EV_QUEUED -> queued (<[e:=ev']> E) = queued E.
Proof.
  intros He H H'. rewrite queued_other by done. apply delete_id. destruct (queued E !! e) as [c|] eqn:Hc; [|done].
  apply queued_Some in Hc as (ev0 & He0 & Hs & _). congruence.
Qed.

(** ** The invariant of the simulation *)

Section weave.
Context (lb : Z -> Z).

Record Base (pend : list (Z * Z)) (R : gset Z) (w : Z) (s : ContentionSim) : Prop := {
  base_events : EventsInv lb pend R (events s);
  base_queue : exists L, QueueRep PQ_BLOCKS (pq s) L (queued (events s));
  base_block : curBlock (pq s) <= curCycle s / 64;
  base_queued e ev : events s !! e = Some ev -> state ev = EV_QUEUED ->
    curCycle s <= privCycle ev /\ lb e <= privCycle ev /\ privCycle ev + w + budget (events s) < top s;
  base_none e ev : events s !! e = Some ev -> state ev = EV_NONE ->
    0 <= cycle ev /\ cycle ev + w + budget (events s) < top s;
  base_held e ev : events s !! e = Some ev -> state ev = EV_HELD -> lb e <= curCycle s;
  base_pend c t : (c, t) ∈ pend -> curCycle s <= t /\ t + w + budget (events s) < top s;
  base_clock : inCSim s = true /\ 0 <= lastLimit s <= curCycle s /\ 0 <= phaseLength s /\ top s < 2 ^ 62 /\
    limit s + w + budget (events s) < top s /\ 0 <= w
}.

(** What an operation leaves alone, but for the event [x]. *)
Record Frame (x : option Z) (s s' : ContentionSim) : Prop := {
  fr_fields : curCycle s' = curCycle s /\ limit s' = limit s /\ lastLimit s' = lastLimit s /\ inCSim s' = inCSim s /\
    phaseLength s' = phaseLength s /\ tcaches s' = tcaches s /\ recorders s' = recorders s /\ logVec s' = logVec s;
  fr_back e ev' : events s' !! e = Some ev' -> exists ev, events s !! e = Some ev /\ same_event ev ev' /\
    (ev' = ev \/ state ev = EV_NONE /\ (state ev' = EV_NONE \/ state ev' = EV_QUEUED));
  fr_forth e ev : x <> Some e -> events s !! e = Some ev -> state ev <> EV_NONE -> events s' !! e = Some ev;
  fr_budget : budget (events s') <= budget (events s);
  fr_left : left (curCycle s) (limit s) (events s') <= left (curCycle s) (limit s) (events s);
  fr_active c : active (events s') c = active (events s) c;
  fr_nones : nones (events s') <= nones (events s)
}.

Lemma frame_refl s : Frame None s s.
Proof. split; try done. intros e ev He. exists ev. auto using same_event_refl. Qed.

Lemma frame_trans x s1 s2 s3 : Frame None s1 s2 -> Frame x s2 s3 -> Frame x s1 s3.
Proof.
  intros [(E1 & E2 & E3 & E4 & E5 & E6 & E7 & E8) B1 F1 H1 L1 A1 N1] [(D1 & D2 & D3 & D4 & D5 & D6 & D7 & D8) B2 F2 H2 L2 A2 N2].
  split.
  - split_and!; congruence.
  - intros e ev' (ev2 & He2 & Hs2 & Hc2)%B2. destruct (B1 _ _ He2) as (ev1 & He1 & Hs1 & Hc1).
    exists ev1. split; [done|]. split; [by eapply same_event_trans|].
    destruct Hc2 as [->|[Hn Hc2]]; [done|]. destruct Hc1 as [->|[Hn' _]]; auto.
  - intros e ev Hx He Hn. eapply F2; [done| |done]. by apply F1.
  - lia.
  - rewrite <- E1, <- E2 in *. lia.
  - intros c. by rewrite A2, A1.
  - lia.
Qed.

Lemma base_mono pend R R' w s : R ⊆ R' -> Base pend R w s -> Base pend R' w s.
Proof.
  intros HR [HE ? ? ? ? ? ? ?]. split; try done. destruct HE. split; try done. intros e ev He Hw. apply HR. eauto.
Qed.

Lemma base_weaken pend R w w' s : 0 <= w' <= w -> Base pend R w s -> Base pend R w' s.
Proof.
  intros Hw [HE HQ Hb Hq Hn Hh Hp Hc]. split; try done.
  - intros e ev He Hs. destruct (Hq _ _ He Hs) as (? & ? & ?). lia.
  - intros e ev He Hs. destruct (Hn _ _ He Hs) as (? & ?). lia.
  - intros c t Hct. destruct (Hp _ _ Hct). lia.
  - naive_solver lia.
Qed.

Lemma budget_update (E : gmap Z TimingEvent) e ev ev' : E !! e = Some ev -> budget (<[e:=ev']> E) = budget E - budget_of ev + budget_of ev'.
Proof. apply (map_sum_update (fun _ => budget_of)). Qed.
Lemma left_update cur lim (E : gmap Z TimingEvent) e ev ev' :
  E !! e = Some ev -> left cur lim (<[e:=ev']> E) = left cur lim E - left_of cur lim ev + left_of cur lim ev'.
Proof. apply (map_sum_update (fun _ => left_of cur lim)). Qed.
Lemma nones_update (E : gmap Z TimingEvent) e ev ev' : E !! e = Some ev -> nones (<[e:=ev']> E) = nones E - none_of ev + none_of ev'.
Proof. apply (map_sum_update (fun _ => none_of)). Qed.

(** *** Events change *)

(** An event changes and is not in the queue afterwards (nor was it before). *)
Lemma base_update pend pend' R R' w w' s e ev ev' :
  Base pend R w s -> events s !! e = Some ev -> EventsInv lb pend' R' (<[e:=ev']> (events s)) ->
  state ev <> EV_QUEUED -> state ev' <> EV_QUEUED ->
  w' + budget_of ev' <= w + budget_of ev -> 0 <= w' ->
  (state ev' = EV_NONE -> 0 <= cycle ev' /\ cycle ev' + w + budget (events s) < top s) ->
  (state ev' = EV_HELD -> lb e <= curCycle s) ->
  (forall c t, (c, t) ∈ pend' -> curCycle s <= t /\ t + w' + budget (<[e:=ev']> (events s)) < top s) ->
  Base pend' R' w' (set_events (insert e ev') s).
Proof.
  intros [HE HQ Hb Hq Hn Hh Hp Hc] He HE' Hs Hs' Hw Hw0 Hnone Hheld Hpend.
  pose proof (budget_update _ _ _ ev' He) as Hbud.
  split; cbn [events pq curCycle limit lastLimit inCSim phaseLength set_events]; try done.
  - by rewrite (queued_keep _ _ ev ev').
  - intros x y [[<- <-]|[Hne Hx]]%lookup_insert_Some Hst; [done|]. destruct (Hq _ _ Hx Hst) as (? & ? & ?).
    change (top (set_events _ s)) with (top s). lia.
  - change (top (set_events _ s)) with (top s).
    intros x y [[<- <-]|[Hne Hx]]%lookup_insert_Some Hst; [specialize (Hnone Hst); lia|].
    destruct (Hn _ _ Hx Hst) as (? & ?). lia.
  - intros x y [[<- <-]|[Hne Hx]]%lookup_insert_Some Hst; eauto.
  - change (top (set_events _ s)) with (top s). naive_solver lia.
Qed.

(** An event goes into the queue. *)
Lemma event_enqueue_spec pend pend' R R' w w' s e ev ev1 cyc :
  Base pend R w s -> events s !! e = Some ev -> EventsInv lb pend' R' (<[e:=set_privCycle cyc ev1]> (events s)) ->
  state ev <> EV_QUEUED -> state ev1 = EV_QUEUED ->
  w' + budget_of ev1 <= w + budget_of ev -> 0 <= w' ->
  curCycle s <= cyc -> lb e <= cyc -> cyc + w' + budget (<[e:=ev1]> (events s)) < top s ->
  (forall x, x ∈ pend' -> x ∈ pend) ->
  wp (ContentionSim_enqueue e cyc) (set_events (insert e ev1) s) (fun _ s' =>
    Base pend' R' w' s' /\ exists q, s' = set_pq q (set_events (insert e (set_privCycle cyc ev1)) s)).
Proof.
  intros HB He HE' Hs Hs1 Hw Hw0 Hcur Hlb Htop Hpend. pose proof HB as [HE HQ Hb Hq Hn Hh Hp Hc].
  destruct Hc as (Hin & Hlast & Hph & Htop62 & Hlim & _).
  pose proof (ev_ok _ _ _ _ HE' e _ (lookup_insert_eq _ _ _)) as Hok.
  pose proof (ok_started _ _ _ Hok ltac:(cbn; rewrite Hs1; done)) as Hpar. cbn in Hpar.
  pose proof (ok_domain _ _ _ Hok) as Hdom. cbn in Hdom.
  pose proof (budget_update _ _ _ ev1 He) as Hbud.
  assert (budget (<[e:=set_privCycle cyc ev1]> (events s)) = budget (<[e:=ev1]> (events s))) as Hbud1.
  { rewrite Hbud. apply (budget_update _ _ _ (set_privCycle cyc ev1) He). }
  assert (0 <= budget (<[e:=ev1]> (events s))) as Hb0.
  { rewrite <- Hbud1. apply map_sum_nonneg. intros x y Hx. pose proof (ev_ok _ _ _ _ HE' _ _ Hx) as [_ _ [? _] [? _] [? _] _ _ _ _ _ _ _ _].
    unfold budget_of. destruct (state y); lia. }
  assert (queued (<[e:=set_privCycle cyc ev1]> (events s)) = <[e:=cyc]> (queued (events s))) as Equeue.
  { rewrite queued_insert. unfold queued_at. cbn. by rewrite decide_True. }
  destruct HQ as [L HR].
  unfold ContentionSim_enqueue. do 2 wp_step. do 2 wp_step; [done|]. do 2 wp_step; [apply Z.leb_le; cbn; lia|].
  do 2 wp_step. { apply Z.ltb_lt. cbn. change (cyc < u64 (top s)). rewrite u64_id; [lia|]. unfold in_u64, W64. lia. }
  wp_step. eapply wp_at_event; [apply lookup_insert_eq|]. wp_step. rewrite Hdom. cbn [Z.eqb]. wp_step; [apply Z.leb_le; done|].
  wp_step. eapply wp_set_event; [apply lookup_insert_eq|].
  do 2 wp_step; [by rewrite Hpar|]. do 2 wp_step; [done|]. do 2 wp_step; [done|]. wp_step.
  eapply wp_mono.
  { cbn. eapply (PrioQueue.enqueue_spec PQ_BLOCKS ltac:(done) ltac:(done) (pq s) L (queued (events s)) e cyc HR).
    - destruct (queued (events s) !! e) as [c0|] eqn:E0; [|done]. apply queued_Some in E0 as (ev0 & He0 & Hs0 & _). congruence.
    - apply Hok.
    - split; [lia|]. unfold PQ_BLOCKS. assert (cyc / 64 <= 2 ^ 62 / 64) by (apply Z.div_le_mono; lia).
      assert (2 ^ 62 / 64 = 2 ^ 56) by done. lia.
    - transitivity (curCycle s / 64); [done|]. apply Z.div_le_mono; lia. }
  intros _ q [[L' HR'] Hcb]. split.
  2:{ exists q. unfold set_pq, set_events. cbn. by rewrite insert_insert_eq. }
  split; cbn [events pq curCycle limit lastLimit inCSim phaseLength set_events set_pq]; rewrite ?insert_insert_eq.
  - done.
  - exists L'. by rewrite Equeue.
  - by rewrite Hcb.
  - change (top (set_pq q _)) with (top s). rewrite Hbud1.
    intros x y [[<- <-]|[Hne Hx]]%lookup_insert_Some Hst; [cbn; lia|]. destruct (Hq _ _ Hx Hst) as (? & ? & ?). lia.
  - change (top (set_pq q _)) with (top s). rewrite Hbud1.
    intros x y [[<- <-]|[Hne Hx]]%lookup_insert_Some Hst; [cbn in Hst; congruence|]. destruct (Hn _ _ Hx Hst) as (? & ?). lia.
  - intros x y [[<- <-]|[Hne Hx]]%lookup_insert_Some Hst; [cbn in Hst; congruence|eauto].
  - change (top (set_pq q _)) with (top s). rewrite Hbud1. intros c t Hct%Hpend. destruct (Hp _ _ Hct). lia.
  - change (top (set_pq q _)) with (top s). rewrite Hbud1. split_and!; try done; lia.
Qed.

(** *** Frames of single changes *)

Lemma frame_update s s' e ev ev' :
  events s !! e = Some ev -> events s' = <[e:=ev']> (events s) ->
  curCycle s' = curCycle s /\ limit s' = limit s /\ lastLimit s' = lastLimit s /\ inCSim s' = inCSim s /\
    phaseLength s' = phaseLength s /\ tcaches s' = tcaches s /\ recorders s' = recorders s /\ logVec s' = logVec s ->
  same_event ev ev' -> state ev = EV_NONE -> (state ev' = EV_NONE \/ state ev' = EV_QUEUED) ->
  budget_of ev' <= budget_of ev -> left_of (curCycle s) (limit s) ev' <= left_of (curCycle s) (limit s) ev ->
  Frame None s s'.
Proof.
  intros He Ee Hf Hs Hst Hst' Hb Hl. split; rewrite ?Ee; [done|..].
  - intros x y [[<- <-]|[Hne Hx]]%lookup_insert_Some; [exists ev; auto|exists y; auto using same_event_refl].
  - intros x y _ Hx Hn. rewrite lookup_insert_ne; [done|]. intros <-. congruence.
  - rewrite (budget_update _ _ _ ev' He). lia.
  - rewrite (left_update _ _ _ _ _ ev' He). lia.
  - intros c. apply (active_same _ _ ev); [done..|]. destruct Hst' as [-> | ->]; by rewrite Hst.
  - rewrite (nones_update _ _ _ ev' He). unfold none_of. rewrite Hst. destruct Hst' as [-> | ->]; simpl; lia.
Qed.

Lemma budget_delete (E : gmap Z TimingEvent) e ev : E !! e = Some ev -> budget E = budget_of ev + budget (delete e E).
Proof. apply (map_sum_delete (fun _ => budget_of)). Qed.
Lemma left_delete cur lim (E : gmap Z TimingEvent) e ev :
  E !! e = Some ev -> left cur lim E = left_of cur lim ev + left cur lim (delete e E).
Proof. apply (map_sum_delete (fun _ => left_of cur lim)). Qed.
Lemma nones_delete (E : gmap Z TimingEvent) e ev : E !! e = Some ev -> nones E = none_of ev + nones (delete e E).
Proof. apply (map_sum_delete (fun _ => none_of)). Qed.

Lemma set_events_twice e a b s : set_events (insert e a) (set_events (insert e b) s) = set_events (insert e a) s.
Proof. unfold set_events. cbn. by rewrite insert_insert_eq. Qed.

(** An event that runs or is done counts for nothing. *)
Lemma counts_nothing ev : waiting (state ev) = false ->
  budget_of ev = 0 /\ (forall cur lim, left_of cur lim ev = 0) /\ none_of ev = 0.
Proof. unfold budget_of, left_of, none_of. by destruct (state ev). Qed.

(** The event that is done is freed. *)
Lemma base_free pend R s e ev :
  Base pend R 0 s -> events s !! e = Some ev -> state ev = EV_DONE ->
  Base pend (R ∖ {[e]}) 0 (set_events (delete e) s).
Proof.
  intros [HE HQ Hb Hq Hn Hh Hp Hc] He Hst.
  pose proof (budget_delete _ _ _ He) as Hbud. destruct (counts_nothing ev) as (Hb0 & _ & _); [by rewrite Hst|].
  assert (queued (delete e (events s)) = queued (events s)) as Eq.
  { unfold queued. rewrite omap_delete. apply delete_id. rewrite lookup_omap, He. simpl. unfold queued_at. by rewrite Hst. }
  split; cbn [events pq curCycle limit lastLimit inCSim phaseLength set_events]; rewrite ?Eq; try done.
  - by eapply events_free.
  - intros x y [_ Hx]%lookup_delete_Some Hs. change (top (set_events _ s)) with (top s). destruct (Hq _ _ Hx Hs) as (?&?&?). lia.
  - intros x y [_ Hx]%lookup_delete_Some Hs. change (top (set_events _ s)) with (top s). destruct (Hn _ _ Hx Hs) as (?&?). lia.
  - intros x y [_ Hx]%lookup_delete_Some Hs. eauto.
  - intros c t Hct. change (top (set_events _ s)) with (top s). destruct (Hp _ _ Hct) as (?&?). lia.
  - change (top (set_events _ s)) with (top s). split_and!; try apply Hc; lia.
Qed.

Lemma frame_done s s2 e ev :
  events s !! e = Some ev -> state ev = EV_RUNNING ->
  Frame None (set_events (insert e (set_state EV_DONE ev)) s) s2 ->
  events s2 !! e = Some (set_state EV_DONE ev) /\ Frame (Some e) s (set_events (delete e) s2).
Proof.
  intros He Hst [Hf Hback Hforth Hbud Hleft Hact Hnones]. cbn [events set_events curCycle limit] in *.
  assert (events s2 !! e = Some (set_state EV_DONE ev)) as He2 by (apply Hforth; [done|apply lookup_insert_eq|done]).
  split; [done|].
  pose proof (budget_update _ _ _ (set_state EV_DONE ev) He) as B1. pose proof (budget_delete _ _ _ He2) as B2.
  pose proof (left_update (curCycle s) (limit s) _ _ _ (set_state EV_DONE ev) He) as L1.
  pose proof (left_delete (curCycle s) (limit s) _ _ _ He2) as L2.
  pose proof (nones_update _ _ _ (set_state EV_DONE ev) He) as N1. pose proof (nones_delete _ _ _ He2) as N2.
  destruct (counts_nothing ev) as (Hb & Hl & Hnn); [by rewrite Hst|].
  destruct (counts_nothing (set_state EV_DONE ev)) as (Hb' & Hl' & Hn'); [done|].
  rewrite Hl, Hl' in L1. rewrite Hl' in L2.
  split; cbn [events set_events]; [done|..]; try lia.
  - intros x y [Hne Hx]%lookup_delete_Some. destruct (Hback _ _ Hx) as (y0 & Hy0 & Hs & Hc).
    rewrite lookup_insert_ne in Hy0 by done. eauto.
  - intros x y Hne Hx Hn. rewrite lookup_delete_ne by congruence. apply Hforth; [done| |done].
    rewrite lookup_insert_ne; [done|congruence].
  - intros c. rewrite (active_free _ _ _ _ He2), Hact by done. apply (active_same _ _ ev); [done|apply set_state_same|]. by rewrite Hst.
Qed.

(** A delay event that is done at once. *)
Lemma frame_delay s s' e ev ev1 pend R :
  EventsInv lb pend R (events s) -> events s !! e = Some ev -> state ev = EV_NONE -> class ev = DelayEvent ->
  same_event ev ev1 -> state ev1 = EV_RUNNING ->
  Frame (Some e) (set_events (insert e ev1) s) s' -> events s' !! e = None -> Frame None s s'.
Proof.
  intros HE He Hst Hcl Hs Hst1 [Hf Hback Hforth Hbud Hleft Hact Hnones] He'. cbn [events set_events curCycle limit] in *.
  pose proof (ev_ok _ _ _ _ HE _ _ He) as [_ _ [? _] [? _] [? _] _ _ _ _ _ _ _ _].
  rewrite (budget_update _ _ _ ev1 He) in Hbud. rewrite (left_update _ _ _ _ _ ev1 He) in Hleft.
  rewrite (nones_update _ _ _ ev1 He) in Hnones.
  pose proof (left_of_nonneg (curCycle s) (limit s) ev). destruct (counts_nothing ev1) as (Hb' & Hl' & Hn'); [by rewrite Hst1|].
  rewrite Hl' in Hleft. assert (0 <= budget_of ev) by (unfold budget_of; rewrite Hst; lia).
  assert (none_of ev = 1) by (unfold none_of; by rewrite decide_True).
  split; [done|..]; try lia.
  - intros x y Hx. destruct (Hback _ _ Hx) as (y0 & Hy0 & Hsy & Hc).
    apply lookup_insert_Some in Hy0 as [[<- <-]|[Hne Hy0]]; [congruence|eauto].
  - intros x y _ Hx Hn. assert (x <> e) by (intros ->; congruence). apply Hforth; [congruence| |done].
    by rewrite lookup_insert_ne.
  - intros c. rewrite Hact, (active_start _ _ _ _ e ev ev1 c HE He Hs); [|by rewrite Hst|by rewrite Hst1|by rewrite Hcl].
    unfold begins. rewrite Hcl. lia.
Qed.

(** *** Completion of events *)

Lemma budget_nonneg pend R w s : Base pend R w s -> 0 <= budget (events s).
Proof.
  intros HB. apply map_sum_nonneg. intros x y Hx.
  pose proof (ev_ok _ _ _ _ (base_events _ _ _ _ HB) _ _ Hx) as [_ _ [? _] [? _] [? _] _ _ _ _ _ _ _ _].
  unfold budget_of. destruct (state y); lia.
Qed.

Lemma visited_kids e ev : EventOk lb e ev -> visited ev = map Some (kids ev) /\ Z.of_nat (length (visited ev)) = numChildren ev.
Proof.
  intros Hok. destruct (ok_visited _ _ _ Hok) as [Hall Hlen]. split; [|done]. unfold kids.
  clear Hlen. induction Hall as [|x l [y ->] _ IH]; [done|]. cbn. by rewrite IH at 1.
Qed.

(** What [parentDone] must do, for graphs with fewer waiting events. *)
Definition notifies (fuel : nat) : Prop := forall s c t pend R,
  Base ((c, t) :: pend) R 0 s -> nones (events s) < Z.of_nat fuel ->
  wp (parentDone fuel c t) s (fun _ s' => Base pend R 0 s' /\ Frame None s s').

Lemma visit_spec fuel l s t pend R :
  notifies fuel -> Base (map (fun c => (c, t)) l ++ pend) R 0 s -> nones (events s) < Z.of_nat fuel ->
  wp (visit (fun c => parentDone fuel c t) (map Some l)) s (fun _ s' => Base pend R 0 s' /\ Frame None s s').
Proof.
  intros Hpd. revert s. induction l as [|c l IH]; intros s HB Hf; cbn [map visit app] in *.
  - wp_step. auto using frame_refl.
  - wp_step. eapply wp_mono; [by apply (Hpd s c t)|]. intros _ s1 [HB1 HF1].
    eapply wp_mono; [apply (IH s1 HB1); pose proof (fr_nones _ _ _ HF1); lia|].
    intros _ s2 [HB2 HF2]. split; [done|]. by eapply frame_trans.
Qed.

(** An event that runs is done: its children are notified, and it is freed. *)
Lemma done_with_spec fuel s e ev dc pend R w :
  notifies fuel -> Base pend R w s -> nones (events s) < Z.of_nat fuel ->
  events s !! e = Some ev -> state ev = EV_RUNNING ->
  curCycle s <= dc -> lb e + lat ev <= dc -> dc + postDelay ev + budget (events s) < top s ->
  wp (done_with (parentDone fuel) e dc) s (fun _ s' =>
    Base pend (R ∖ {[e]}) 0 s' /\ Frame (Some e) s s' /\ events s' !! e = None).
Proof.
  intros Hpd HB Hf He Hst Hcur Hlb Htop.
  pose proof (ev_ok _ _ _ _ (base_events _ _ _ _ HB) _ _ He) as Hok.
  destruct (visited_kids _ _ Hok) as [Hvis Hlen]. pose proof (ok_post _ _ _ Hok) as [Hpost _].
  pose proof (base_clock _ _ _ _ HB) as (_ & Hlast & _ & Htop62 & _ & Hw). pose proof (budget_nonneg _ _ _ _ HB) as Hb0.
  assert (u64 (dc + postDelay ev) = dc + postDelay ev) as Eu by (apply u64_id; unfold in_u64, W64; lia).
  unfold done_with. wp_step. eapply wp_at_event; [done|]. do 2 wp_step; [by rewrite Hst|].
  wp_step. eapply wp_set_event; [done|].
  set (s1 := set_events (insert e (set_state EV_DONE ev)) s).
  assert (budget (events s1) = budget (events s)) as Hbud1.
  { cbn. rewrite (budget_update _ _ _ (set_state EV_DONE ev) He).
    destruct (counts_nothing ev) as (-> & _); [by rewrite Hst|]. destruct (counts_nothing (set_state EV_DONE ev)) as (-> & _); [done|]. lia. }
  assert (Base (map (fun c => (c, dc + postDelay ev)) (kids ev) ++ pend) R 0 s1) as HB1.
  { eapply (base_update pend _ R R w 0 s e ev); try done; [|by rewrite Hst| |].
    - eapply events_done; [apply HB|done..].
    - unfold budget_of. rewrite Hst. cbn. lia.
    - intros c t Hct. change (budget (<[e:=set_state EV_DONE ev]> (events s))) with (budget (events s1)). rewrite Hbud1.
      apply elem_of_app in Hct as [(c' & [= -> ->] & Hc)%list_elem_of_fmap|Hct]; [lia|].
      destruct (base_pend _ _ _ _ HB _ _ Hct). lia. }
  assert (nones (events s1) < Z.of_nat fuel) as Hf1.
  { cbn. rewrite (nones_update _ _ _ (set_state EV_DONE ev) He).
    destruct (counts_nothing ev) as (_ & _ & ->); [by rewrite Hst|]. destruct (counts_nothing (set_state EV_DONE ev)) as (_ & _ & ->); [done|]. lia. }
  wp_step. unfold visitChildren. wp_step. rewrite Hvis, Eu.
  eapply wp_mono; [by apply (visit_spec fuel (kids ev) s1 _ pend R Hpd HB1)|].
  intros _ s2 [HB2 HF2]. destruct (frame_done s s2 e ev He Hst HF2) as [He2 HF].
  wp_step; intros _; [wp_step; [by rewrite <- Hvis, Hlen, Z.eqb_refl|]|];
    unfold freeEvent; wp_step; (split_and!; [by eapply base_free|done|apply lookup_delete_eq]).
Qed.

Lemma wp_delay {A} (cl : EventClass) (m1 m2 : sim A) s Q :
  (cl = DelayEvent -> wp m1 s Q) -> (cl <> DelayEvent -> wp m2 s Q) ->
  wp match cl with DelayEvent => m1 | _ => m2 end s Q.
Proof. destruct cl; intros H1 H2; (by apply H1) || (by apply H2). Qed.

Lemma notifies_0 : notifies 0.
Proof.
  intros s c t pend R HB Hf. exfalso. enough (0 <= nones (events s)) by lia.
  apply map_sum_nonneg. intros. unfold none_of. case_decide; lia.
Qed.

(** [parentDone]: the child counts its parents; the last one queues it, or
    completes it if it is a delay. *)
Lemma notifies_S fuel : notifies fuel -> notifies (S fuel).
Proof.
  intros IH s c t pend R HB Hf.
  pose proof (base_events _ _ _ _ HB) as HE. destruct (base_clock _ _ _ _ HB) as (_ & Hlast & _ & Htop62 & _ & _).
  destruct (ev_pend _ _ _ _ HE c t) as (ch & Hch & Hst & Hlb); [by left|].
  destruct (base_pend _ _ _ _ HB c t) as [Hcur Htop]; [by left|]. pose proof (budget_nonneg _ _ _ _ HB) as Hb0.
  pose proof (ev_ok _ _ _ _ HE _ _ Hch) as Hok. destruct (base_none _ _ _ _ HB _ _ Hch Hst) as [Hcyc Hcyct].
  pose proof (ok_pre _ _ _ Hok) as [Hpre Hpre2]. pose proof (ok_post _ _ _ Hok) as [Hpost _]. pose proof (ok_lat _ _ _ Hok) as [Hlat _].
  pose proof (ok_parents _ _ _ Hok) as Hnp.
  assert (0 < numParents ch) as Hpos.
  { rewrite (ev_parents _ _ _ _ HE _ _ Hch), occurs_pend, decide_True by done.
    pose proof (edges_nonneg (events s) c). pose proof (occurs_nonneg c pend.*1). lia. }
  set (n := numParents ch - 1) in *. set (x := Z.max (cycle ch) t) in *.
  assert (u32 (numParents ch - 1) = n) as En by (apply u32_id; unfold in_u32; lia).
  assert (forall st, same_event ch (set_state st (set_numParents n (set_cycle x ch)))) as Hsame by (intros; split; auto with damov).
  assert (forall pv st, st <> EV_DONE -> st <> EV_INVALID -> (st <> EV_NONE -> n = 0) -> (class ch = DelayEvent -> st <> EV_QUEUED /\ st <> EV_HELD) ->
    st <> EV_HELD -> forall R', (waiting st = false -> c ∈ R') -> R ⊆ R' ->
    EventsInv lb pend R' (<[c:=set_privCycle pv (set_state st (set_numParents n (set_cycle x ch)))]> (events s))) as Hupd.
  { intros pv st Hd Hv Hn Hdel Hh R' HR' HRR'.
    assert (same_event ch (set_privCycle pv (set_state st (set_numParents n (set_cycle x ch))))) as Hs by (split; auto with damov).
    eapply (events_update lb ((c, t) :: pend) pend R R' _ c ch); try done.
    - eapply (event_ok_change _ _ ch); try done; [cbn; unfold n; lia|].
      intros c' m Hc' _. eapply (ok_accs _ _ _ Hok c' m); [done|by rewrite Hst].
    - by rewrite Hst.
    - intros y Hy. rewrite occurs_pend, decide_False by done. done.
    - rewrite occurs_pend, decide_True by done. cbn [numParents set_privCycle set_state set_numParents]. unfold n. lia.
    - intros y Hy. by right.
    - intros y _ Hy. by apply HRR'. }
  assert (forall st, budget (<[c:=set_state st (set_numParents n (set_cycle x ch))]> (events s)) =
    budget (events s) - (preDelay ch + lat ch + postDelay ch + 1) + budget_of (set_state st (set_numParents n (set_cycle x ch)))) as Hbud.
  { intros st. rewrite (budget_update _ _ _ _ Hch). unfold budget_of at 1. by rewrite Hst. }
  assert (set_numParents n (set_cycle x ch) = set_state EV_NONE (set_numParents n (set_cycle x ch))) as E1.
  { unfold set_state, set_numParents, set_cycle. cbn. by rewrite Hst. }
  assert (forall st, set_state st (set_numParents n (set_cycle x ch)) =
    set_privCycle (privCycle ch) (set_state st (set_numParents n (set_cycle x ch)))) as E2 by done.
  assert (n <> 0 -> Base pend R 0 (set_events (insert c (set_numParents n (set_cycle x ch))) s) /\
    Frame None s (set_events (insert c (set_numParents n (set_cycle x ch))) s)) as Hwait.
  { intros Hn. rewrite E1. split.
    - eapply (base_update ((c, t) :: pend) pend R R 0 0 s c ch); try done; [by rewrite E2; apply Hupd|by rewrite Hst| | |].
      + unfold budget_of. by rewrite Hst.
      + intros _. cbn. unfold x. lia.
      + intros c' t' Hin. rewrite Hbud. unfold budget_of. cbn.
        change (lat (set_state EV_NONE _)) with (lat ch). destruct (base_pend _ _ _ _ HB c' t') as [? ?]; [by right|]. lia.
    - eapply (frame_update _ _ c ch); [done|cbn; reflexivity|done|done|done|by left| |]; unfold budget_of, left_of; by rewrite Hst. }
  cbn [parentDone]. wp_step. eapply wp_at_event; [done|]. wp_step. eapply wp_set_event; [done|].
  wp_step. eapply wp_at_event; [apply lookup_insert_eq|]. cbn [class numParents cycle preDelay state set_cycle]. rewrite En. fold x.
  apply wp_delay; intros Hcl.
  - wp_step. eapply wp_set_event; [apply lookup_insert_eq|]. rewrite set_events_twice.
    wp_step; [intros Hz%Z.eqb_eq|intros Hz%Z.eqb_neq; by apply Hwait].
    wp_step. eapply wp_set_event; [apply lookup_insert_eq|]. rewrite set_events_twice.
    assert (lat ch = 0) as Hl0 by (unfold lat; by rewrite Hcl).
    rewrite u64_id by (unfold in_u64, W64, W32, x in *; lia).
    set (ch1 := set_state EV_RUNNING (set_numParents n (set_cycle x ch))). set (s1 := set_events (insert c ch1) s).
    assert (budget (events s1) = budget (events s) - (preDelay ch + postDelay ch + 1)) as Hbud1.
    { change (events s1) with (<[c:=ch1]> (events s)). unfold ch1. rewrite Hbud. unfold budget_of. cbn. lia. }
    assert (Base pend (R ∪ {[c]}) 0 s1) as HB1.
    { eapply (base_update ((c, t) :: pend) pend R _ 0 0 s c ch ch1); try done; [|by rewrite Hst| |].
      - unfold ch1. rewrite E2. apply Hupd; try done; set_solver.
      - unfold budget_of. rewrite Hst. cbn. lia.
      - intros c' t' Hin. change (budget (<[c:=ch1]> (events s))) with (budget (events s1)). rewrite Hbud1.
        destruct (base_pend _ _ _ _ HB c' t') as [? ?]; [by right|]. lia. }
    eapply wp_mono; [eapply (done_with_spec fuel s1 c ch1 _ pend _ 0 IH HB1)|].
    + change (events s1) with (<[c:=ch1]> (events s)). rewrite (nones_update _ _ _ ch1 Hch).
      destruct (counts_nothing ch1) as (_ & _ & ->); [done|]. unfold none_of. rewrite decide_True by done. lia.
    + apply lookup_insert_eq.
    + done.
    + cbn. unfold x. lia.
    + change (lat ch1) with (lat ch). unfold x. lia.
    + rewrite Hbud1. change (postDelay ch1) with (postDelay ch). change (top s1) with (top s). unfold x. lia.
    + intros _ s' (HB' & HF & Hgone). split; [eapply base_mono; [|exact HB']; set_solver|].
      eapply (frame_delay s s' c ch ch1); [apply HB|done|done|done|apply Hsame|done..].
  - wp_step. wp_step; [apply negb_true_iff, Z.eqb_neq; lia|].
    wp_step. eapply wp_set_event; [apply lookup_insert_eq|]. rewrite set_events_twice.
    wp_step; [intros Hz%Z.eqb_eq|intros Hz%Z.eqb_neq; by apply Hwait].
    wp_step. wp_step; [by rewrite Hst|]. wp_step. eapply wp_set_event; [apply lookup_insert_eq|]. rewrite set_events_twice.
    rewrite u64_id by (unfold in_u64, W64, W32, x in *; lia).
    eapply wp_mono; [eapply (event_enqueue_spec ((c, t) :: pend) pend R R 0 0 s c ch)|].
    + done.
    + done.
    + by apply Hupd.
    + by rewrite Hst.
    + done.
    + unfold budget_of. rewrite Hst. cbn. unfold lat. cbn. lia.
    + done.
    + unfold x. lia.
    + unfold x. lia.
    + rewrite Hbud. unfold budget_of. cbn. unfold lat in *. cbn. unfold x. lia.
    + intros y Hy. by right.
    + intros _ s' [HB' [q ->]]. split; [done|].
      eapply (frame_update _ _ c ch); [done|cbn; reflexivity|done|by split; auto with damov|done|by right| |]; unfold budget_of, left_of; rewrite Hst; cbn.
      * unfold lat. cbn. lia.
      * unfold x. lia.
Qed.

Lemma notifies_all fuel : notifies fuel.
Proof. induction fuel; [apply notifies_0|by apply notifies_S]. Qed.

(** An event that runs is done; the fuel of [done] is enough. *)
Lemma done_spec s e ev dc pend R w :
  Base pend R w s -> events s !! e = Some ev -> state ev = EV_RUNNING ->
  curCycle s <= dc -> lb e + lat ev <= dc -> dc + postDelay ev + budget (events s) < top s ->
  wp (done e dc) s (fun _ s' => Base pend (R ∖ {[e]}) 0 s' /\ Frame (Some e) s s' /\ events s' !! e = None).
Proof.
  intros HB He Hst Hcur Hlb Htop. unfold done. do 2 wp_step. eapply done_with_spec; eauto using notifies_all.
  enough (nones (events s) <= Z.of_nat (base.size (events s)) * 1) by lia.
  apply map_sum_bound. intros k x _. unfold none_of. case_decide; lia.
Qed.
End weave.
