(* ===== verification/WeavePhase.v ===== *)
(** * The handlers of the weave phase, and its loop

    The caches count the misses they have in flight and the accesses their port
    takes; the handlers keep that count, and the loop runs until the end of the
    phase. *)

From stdpp Require Import base tactics numbers list gmap relations sets.
From Stdlib Require Import ZArith Lia.
From S2P Require Import Prelude PrioQueue TimingEvents WeaveInv Weave.

Open Scope Z_scope.

Section phase.
Context (lb : Z -> Z).

(** [adj c] is what the event that runs has not yet added to the misses of [c]. *)
Record CachesOk (w : Z) (adj : Z -> Z) (s : ContentionSim) : Prop := {
  ca_accessed e ev c : events s !! e = Some ev -> accessed ev = Some c -> is_Some (tcaches s !! c);
  ca_core e ev r o x : events s !! e = Some ev -> class ev = TimingCoreEvent r o x -> is_Some (recorders s !! r);
  ca_free c tc : tcaches s !! c = Some tc -> 0 <= lastFreeCycle tc <= curCycle s;
  ca_acc c tc : tcaches s !! c = Some tc -> 0 <= lastAccCycle tc /\ lastAccCycle tc + w + budget (events s) < top s;
  ca_mshrs c tc : tcaches s !! c = Some tc ->
    0 < numMSHRs tc < W32 /\ 0 <= activeMisses tc <= numMSHRs tc /\ activeMisses tc + adj c = active (events s) c;
  ca_pending c tc : tcaches s !! c = Some tc -> NoDup (pendingQueue tc) /\
    forall e, e ∈ pendingQueue tc <-> exists ev, events s !! e = Some ev /\ state ev = EV_HELD /\ holder ev = Some c;
  ca_full c tc : tcaches s !! c = Some tc -> pendingQueue tc <> [] -> activeMisses tc = numMSHRs tc
}.

(** The last event of a core that has not left starts in a later phase. *)
Definition RecordersOk (s : ContentionSim) : Prop := forall r rc e,
  recorders s !! r = Some rc -> prevRespEvent rc = Some e -> rec_state rc = DRAINING \/ limit s <= lb e.

(** Between two runs of events. *)
Definition WellFormed (s : ContentionSim) : Prop :=
  Base lb [] ∅ 0 s /\ CachesOk 0 (fun _ => 0) s /\ RecordersOk s.

(** What a run of an event does not change. *)
Record Step (s s' : ContentionSim) : Prop := {
  st_fields : curCycle s' = curCycle s /\ limit s' = limit s /\ lastLimit s' = lastLimit s /\
    phaseLength s' = phaseLength s /\ logVec s' = logVec s;
  st_back e ev' : events s' !! e = Some ev' -> exists ev, events s !! e = Some ev /\ same_event ev ev';
  st_left : left (curCycle s) (limit s) (events s') <= left (curCycle s) (limit s) (events s) + (limit s - curCycle s - 1)
}.

(** The handler of event [e] runs. *)
Record Handling (adj : Z -> Z) (w : Z) (e : Z) (ev : TimingEvent) (s : ContentionSim) : Prop := {
  h_base : Base lb [] {[e]} w s;
  h_event : events s !! e = Some ev /\ state ev = EV_RUNNING /\ class ev <> DelayEvent;
  h_caches : CachesOk w adj s;
  h_recorders : RecordersOk s;
  h_cycle : lb e <= curCycle s < limit s;
  h_budget : curCycle s + w + budget (events s) < top s
}.

(** Base does not look at the caches and recorders. *)
Lemma base_fields pend R w s s' :
  Base lb pend R w s -> events s' = events s -> pq s' = pq s -> curCycle s' = curCycle s -> limit s' = limit s ->
  lastLimit s' = lastLimit s -> inCSim s' = inCSim s -> phaseLength s' = phaseLength s -> Base lb pend R w s'.
Proof.
  intros [] E1 E2 E3 E4 E5 E6 E7. assert (top s' = top s) as E8 by (unfold top; congruence).
  split; rewrite ?E1, ?E2, ?E3, ?E4, ?E5, ?E6, ?E7, ?E8; done.
Qed.

(** ** Done *)

Lemma caches_frame w adj s s' e ev :
  0 <= w -> Frame (Some e) s s' -> events s !! e = Some ev -> state ev = EV_RUNNING -> CachesOk w adj s -> CachesOk 0 adj s'.
Proof.
  intros Hw HF He Hst [Ha Hr Hf Hac Hm Hp Hfull].
  destruct (fr_fields _ _ _ HF) as (E1 & E2 & E3 & E4 & E5 & E6 & E7 & E8).
  assert (top s' = top s) as Et by (unfold top; congruence). pose proof (fr_budget _ _ _ HF).
  split; rewrite ?E6, ?E7, ?E1, ?Et; try done.
  - intros x y c Hx Hy. destruct (fr_back _ _ _ HF _ _ Hx) as (y0 & Hx0 & Hs & _). apply (Ha x y0 c Hx0).
    rewrite <- Hy. unfold accessed. pose proof (same_class _ _ Hs). destruct (class y0), (class y); simpl in *; congruence.
  - intros x y r o z Hx Hy. destruct (fr_back _ _ _ HF _ _ Hx) as (y0 & Hx0 & Hs & _).
    pose proof (same_class _ _ Hs) as Hc. rewrite Hy in Hc. destruct (class y0) eqn:Ec; simpl in Hc; try done.
    destruct Hc as [-> ->]. by eapply Hr.
  - intros c tc Hc. destruct (Hac _ _ Hc). lia.
  - intros c tc Hc. rewrite (fr_active _ _ _ HF). eauto.
  - intros c tc Hc. destruct (Hp _ _ Hc) as [Hnd Hin]. split; [done|]. intros x. rewrite Hin. split.
    + intros (y & Hx & Hs & Hh). exists y. split; [|done]. apply (fr_forth _ _ _ HF); [congruence|done|congruence].
    + intros (y & Hx & Hs & Hh). destruct (fr_back _ _ _ HF _ _ Hx) as (y0 & Hx0 & Hsy & Hc').
      exists y0. destruct Hc' as [->|[_ [?|?]]]; [done|congruence|congruence].
Qed.

(** An event that has done its work is done, not before [dc]. *)
Lemma done_step adj w e ev s dc :
  Handling adj w e ev s -> (forall c, adj c = 0) -> curCycle s <= dc -> lb e + lat ev <= dc ->
  dc + postDelay ev + budget (events s) < top s ->
  wp (done e dc) s (fun _ s' => WellFormed s' /\ Step s s').
Proof.
  intros [HB (He & Hst & Hcl) HC HR Hcyc Hbud] Hadj Hcur Hlb Htop.
  assert (0 <= w) by (by apply (base_clock _ _ _ _ _ HB)).
  eapply wp_mono; [by eapply (done_spec lb s e ev dc [] {[e]} w)|].
  intros _ s' (HB' & HF & Hgone). destruct (fr_fields _ _ _ HF) as (E1 & E2 & E3 & E4 & E5 & E6 & E7 & E8). split.
  - split; [eapply base_mono; [|exact HB']; set_solver|]. split.
    + destruct (caches_frame w adj s s' e ev) as []; try done. split; try done.
      intros c tc Hc. specialize (ca_mshrs0 c tc Hc). by rewrite (Hadj c) in ca_mshrs0.
    + unfold RecordersOk. by rewrite E7, E2.
  - split; [by split_and!| |pose proof (fr_left _ _ _ HF); lia].
    intros x y Hx. destruct (fr_back _ _ _ HF _ _ Hx) as (y0 & Hx0 & Hs & _). eauto.
Qed.

(** ** Put aside *)

(** An event that runs is put aside, in the queue or among the held events. *)
Lemma caches_aside adj w e ev ev' s s' :
  Handling adj w e ev s -> (forall c, adj c = begins c ev) -> EventsInv lb [] ∅ (events s') ->
  events s' = <[e:=ev']> (events s) -> same_event ev ev' -> waiting (state ev') = true -> state ev' <> EV_NONE ->
  budget (events s') <= w + budget (events s) -> top s' = top s -> curCycle s' = curCycle s -> recorders s' = recorders s ->
  (forall c tc', tcaches s' !! c = Some tc' -> exists tc, tcaches s !! c = Some tc /\
     lastFreeCycle tc' = lastFreeCycle tc /\ lastAccCycle tc' = lastAccCycle tc /\ numMSHRs tc' = numMSHRs tc /\
     activeMisses tc' = activeMisses tc /\ (pendingQueue tc' <> [] -> activeMisses tc = numMSHRs tc) /\
     if decide (state ev' = EV_HELD /\ holder ev = Some c) then pendingQueue tc' = pendingQueue tc ++ [e] else pendingQueue tc' = pendingQueue tc) ->
  (forall c, is_Some (tcaches s !! c) -> is_Some (tcaches s' !! c)) ->
  CachesOk 0 (fun _ => 0) s'.
Proof.
  intros [HB (He & Hst & Hcl) [Ha Hr Hf Hac Hm Hp Hfull] HR Hcyc Hbud] Hadj HE' Ee Hs Hw Hn Hb Et Ec Er Htc Hsome.
  split; rewrite ?Et, ?Ec, ?Er.
  - intros x y c Hx Hy. rewrite Ee in Hx. apply Hsome.
    destruct (update_back _ _ _ _ _ _ He Hs Hx) as (y0 & Hx0 & Hsy & _). apply (Ha x y0 c Hx0).
    rewrite <- Hy. unfold accessed. pose proof (same_class _ _ Hsy). destruct (class y0), (class y); simpl in *; congruence.
  - intros x y r o z Hx Hy. rewrite Ee in Hx.
    destruct (update_back _ _ _ _ _ _ He Hs Hx) as (y0 & Hx0 & Hsy & _). pose proof (same_class _ _ Hsy) as Hc.
    rewrite Hy in Hc. destruct (class y0) eqn:Ey; simpl in Hc; try done. destruct Hc as [-> ->]. by eapply Hr.
  - intros c tc' Hc. destruct (Htc _ _ Hc) as (tc & Hc0 & -> & _). eauto.
  - intros c tc' Hc. destruct (Htc _ _ Hc) as (tc & Hc0 & _ & -> & _). destruct (Hac _ _ Hc0). lia.
  - intros c tc' Hc. destruct (Htc _ _ Hc) as (tc & Hc0 & _ & _ & -> & -> & _). destruct (Hm _ _ Hc0) as (? & ? & Hact).
    split_and!; try done; try lia. rewrite Ee in *.
    pose proof (active_stop lb ∅ (events s) e ev ev' c HE' He Hs ltac:(by rewrite Hst) Hw Hn). rewrite Hadj in Hact. lia.
  - intros c tc' Hc. destruct (Htc _ _ Hc) as (tc & Hc0 & _ & _ & _ & _ & _ & Hq). destruct (Hp _ _ Hc0) as [Hnd Hin].
    assert (e ∉ pendingQueue tc) as Hout by (rewrite Hin; intros (y & Hy & Hys & _); congruence).
    assert (forall x, x <> e -> events s' !! x = events s !! x) as Hother by (intros; rewrite Ee; by apply lookup_insert_ne).
    assert (events s' !! e = Some ev') as He' by (rewrite Ee; apply lookup_insert_eq).
    case_decide as Hd; rewrite Hq.
    + split. { apply NoDup_app. split; [done|]. split; [|apply NoDup_singleton]. intros x Hx ->%list_elem_of_singleton. done. }
      intros x. rewrite elem_of_app, list_elem_of_singleton. destruct (decide (x = e)) as [->|Hne].
      * split; [intros _|by right]. exists ev'. rewrite (same_holder _ _ Hs). tauto.
      * rewrite (Hother _ Hne), <- Hin. tauto.
    + split; [done|]. intros x. destruct (decide (x = e)) as [->|Hne]; [|by rewrite (Hother _ Hne), <- Hin].
      split; [done|]. intros (y & Hy & Hys & Hh). rewrite He' in Hy. injection Hy as <-. rewrite (same_holder _ _ Hs) in Hh. tauto.
  - intros c tc' Hc. destruct (Htc _ _ Hc) as (tc & Hc0 & _ & _ & -> & -> & Hfl & _). done.
Qed.

Lemma step_aside adj w e ev ev' s s' :
  Handling adj w e ev s -> same_event ev ev' -> events s' = <[e:=ev']> (events s) ->
  left_of (curCycle s) (limit s) ev' <= limit s - curCycle s - 1 ->
  curCycle s' = curCycle s /\ limit s' = limit s /\ lastLimit s' = lastLimit s /\
    phaseLength s' = phaseLength s /\ logVec s' = logVec s -> Step s s'.
Proof.
  intros HH Hs Ee Hl Hf. destruct (h_event _ _ _ _ _ HH) as (He & Hst & _). split; [done|..].
  - intros x y Hx. rewrite Ee in Hx. destruct (update_back _ _ _ _ _ _ He Hs Hx) as (y0 & ? & ? & _). eauto.
  - rewrite Ee, (left_update _ _ _ _ _ ev' He). destruct (counts_nothing ev) as (_ & -> & _); [by rewrite Hst|]. lia.
Qed.

Lemma handling_switch adj w e ev ev' s :
  Handling adj w e ev s -> same_event ev ev' -> numParents ev' = numParents ev -> state ev' = EV_QUEUED \/ state ev' = EV_HELD ->
  (state ev' = EV_HELD -> holder ev <> None) -> (forall c n, class ev' = ReplAccessEvent c n -> 0 < n < W32) ->
  EventsInv lb [] ∅ (<[e:=ev']> (events s)).
Proof.
  intros HH Hs Hn Hst' Hh Ha. destruct (h_event _ _ _ _ _ HH) as (He & Hst & Hcl).
  eapply (events_switch lb {[e]} ∅ _ e ev ev'); try done; try (by rewrite Hst); try (by destruct Hst' as [-> | ->]).
  - apply (h_base _ _ _ _ _ HH).
  - intros c n Hc _. by eapply Ha.
  - set_solver.
Qed.

(** The event that runs goes back to the queue. *)
Lemma requeue_step adj w e ev s :
  Handling adj w e ev s -> (forall c, adj c = begins c ev) -> lat ev + postDelay ev + 1 <= w ->
  (forall c n, class ev = ReplAccessEvent c n -> 0 < n < W32) ->
  wp (requeue e (u64 (curCycle s + 1))) s (fun _ s' => WellFormed s' /\ Step s s').
Proof.
  intros HH Hadj Hw Haccs. pose proof HH as [HB (He & Hst & Hcl) HC HR Hcyc Hbud].
  pose proof (ev_ok _ _ _ _ (base_events _ _ _ _ _ HB) _ _ He) as Hok.
  pose proof (ok_started _ _ _ Hok ltac:(by rewrite Hst)) as Hnp.
  destruct (base_clock _ _ _ _ _ HB) as (_ & Hlast & _ & Htop62 & Hlim & Hw0). pose proof (budget_nonneg _ _ _ _ _ HB) as Hb0.
  rewrite u64_id by (unfold in_u64, W64; lia).
  unfold requeue. wp_step. eapply wp_at_event; [done|]. do 2 wp_step; [by rewrite Hnp|]. do 2 wp_step; [by rewrite Hst|].
  wp_step. eapply wp_set_event; [done|]. set (ev1 := set_state EV_QUEUED ev).
  assert (budget (<[e:=ev1]> (events s)) = budget (events s) + (lat ev + postDelay ev + 1)) as Hbud1.
  { rewrite (budget_update _ _ _ ev1 He). destruct (counts_nothing ev) as (-> & _); [by rewrite Hst|]. change (budget_of ev1) with (lat ev + postDelay ev + 1). lia. }
  assert (EventsInv lb [] ∅ (<[e:=set_privCycle (curCycle s + 1) ev1]> (events s))) as HE1.
  { eapply handling_switch; try done; [by split; auto with damov|by left]. }
  eapply wp_mono.
  - eapply (event_enqueue_spec lb [] [] {[e]} ∅ w 0 s e ev ev1); try done; try (by rewrite Hst); try lia.
    destruct (counts_nothing ev) as (-> & _); [by rewrite Hst|]. change (budget_of ev1) with (lat ev + postDelay ev + 1). lia.
  - intros _ s' [HB' [q ->]].
    assert (budget (events (set_pq q (set_events (insert e (set_privCycle (curCycle s + 1) ev1)) s))) <= w + budget (events s)) as Hb'.
    { change (events (set_pq _ _)) with (<[e:=set_privCycle (curCycle s + 1) ev1]> (events s)).
      rewrite (budget_update _ _ _ _ He). destruct (counts_nothing ev) as (-> & _); [by rewrite Hst|].
      change (budget_of (set_privCycle _ ev1)) with (lat ev + postDelay ev + 1). lia. }
    split; [split; [done|split; [|done]]|].
    + eapply (caches_aside adj w e ev); try done; [by split; auto with damov|].
      intros c tc' Hc. exists tc'. split_and!; try done. eapply ca_full; eauto.
    + eapply (step_aside adj w e ev); try done; [by split; auto with damov|].
      unfold left_of. cbn. lia.
Qed.

(** The event that runs is held by the cache. *)
Lemma hold_step c w e ev s tc :
  Handling (fun c => begins c ev) w e ev s -> holder ev = Some c -> lat ev + postDelay ev + 1 <= w ->
  tcaches s !! c = Some tc -> activeMisses tc = numMSHRs tc ->
  wp (_ ← hold e; set_cache c (set_pendingQueue (fun l => l ++ [e]))) s (fun _ s' => WellFormed s' /\ Step s s').
Proof.
  intros HH Hh Hw Hc Hfull. pose proof HH as [HB (He & Hst & Hcl) HC HR Hcyc Hbud].
  wp_step. unfold hold. wp_step. eapply wp_at_event; [done|]. do 2 wp_step; [by rewrite Hst|]. eapply wp_set_event; [done|].
  eapply wp_set_cache; [done|]. set (ev1 := set_state EV_HELD ev).
  assert (EventsInv lb [] ∅ (<[e:=ev1]> (events s))) as HE1.
  { eapply handling_switch; try done; [apply set_state_same|by right|by rewrite Hh|].
    intros c' n Hc'. cbn in Hc'. unfold holder in Hh. by rewrite Hc' in Hh. }
  assert (budget (<[e:=ev1]> (events s)) <= w + budget (events s)) as Hbud1.
  { rewrite (budget_update _ _ _ ev1 He). destruct (counts_nothing ev) as (-> & _); [by rewrite Hst|]. change (budget_of ev1) with (lat ev + postDelay ev + 1). lia. }
  split; [split; [|split; [|done]]|].
  - apply (base_fields _ _ _ (set_events (insert e ev1) s)); try done.
    eapply (base_update lb [] [] {[e]} ∅ w 0 s e ev ev1); try done; try (by rewrite Hst).
    + destruct (counts_nothing ev) as (-> & _); [by rewrite Hst|]. change (budget_of ev1) with (lat ev + postDelay ev + 1). lia.
    + lia.
    + intros c' t Hct. by apply elem_of_nil in Hct.
  - eapply (caches_aside _ w e ev ev1); try done; [apply set_state_same| |].
    + intros c' tc' Hc'. cbn in Hc'. apply lookup_insert_Some in Hc' as [[<- <-]|[Hne Hc']].
      * exists tc. cbn. rewrite decide_True by done. done.
      * exists tc'. split_and!; try done; [by eapply ca_full|]. rewrite decide_False; [done|]. rewrite Hh. naive_solver.
    + intros c' Hc'. cbn. apply lookup_insert_is_Some'. by right.
  - eapply (step_aside _ w e ev ev1); try done; [apply set_state_same|]. unfold left_of. cbn. lia.
Qed.

(** ** The port of a cache *)

Lemma set_tcaches_twice c a b s : set_tcaches (insert c a) (set_tcaches (insert c b) s) = set_tcaches (insert c a) s.
Proof. unfold set_tcaches. cbn. by rewrite insert_insert_eq. Qed.

Lemma set_tcaches_same c tc s : tcaches s !! c = Some tc -> set_tcaches (insert c tc) s = s.
Proof. intros Hc. destruct s. unfold set_tcaches. cbn in *. by rewrite insert_id. Qed.

(** The clocks and the count of misses of one cache change. *)
Lemma caches_set w w' adj adj' s c tc tc' :
  CachesOk w adj s -> tcaches s !! c = Some tc -> w' <= w ->
  0 <= lastFreeCycle tc' <= curCycle s -> 0 <= lastAccCycle tc' -> lastAccCycle tc' + w' + budget (events s) < top s ->
  numMSHRs tc' = numMSHRs tc -> 0 <= activeMisses tc' <= numMSHRs tc -> activeMisses tc' + adj' c = activeMisses tc + adj c ->
  pendingQueue tc' = pendingQueue tc -> (pendingQueue tc <> [] -> activeMisses tc' = numMSHRs tc) ->
  (forall c', c' <> c -> adj' c' = adj c') -> CachesOk w' adj' (set_tcaches (insert c tc') s).
Proof.
  intros [Ha Hr Hf Hac Hm Hp Hfull] Hc Hw Hf' Ha1 Ha2 En Hact Heq Eq Hfl Hadj.
  split; cbn [events tcaches recorders curCycle set_tcaches]; try done;
    try change (top (set_tcaches _ s)) with (top s).
  - intros x y d Hx Hy. apply lookup_insert_is_Some'. right. eauto.
  - intros d td [[<- <-]|[Hne Hd]]%lookup_insert_Some; eauto.
  - intros d td [[<- <-]|[Hne Hd]]%lookup_insert_Some; [lia|]. destruct (Hac _ _ Hd). lia.
  - intros d td [[<- <-]|[Hne Hd]]%lookup_insert_Some.
    + destruct (Hm _ _ Hc) as (? & ? & ?). rewrite En. split_and!; lia.
    + rewrite Hadj by done. eauto.
  - intros d td [[<- <-]|[Hne Hd]]%lookup_insert_Some; [rewrite Eq|]; eauto.
  - intros d td [[<- <-]|[Hne Hd]]%lookup_insert_Some; [rewrite Eq, En|]; eauto.
Qed.

(** A high-priority access gets the first cycle that is free. *)
Lemma highPrio_spec adj w s c tc :
  CachesOk w adj s -> tcaches s !! c = Some tc -> 1 <= curCycle s -> 1 <= w ->
  curCycle s + w + budget (events s) < top s -> 0 <= budget (events s) -> top s < 2 ^ 62 ->
  wp (highPrioAccess c (curCycle s)) s (fun l s' => curCycle s <= l /\ l + (w - 1) + budget (events s) < top s /\
    exists tc', s' = set_tcaches (insert c tc') s /\ CachesOk (w - 1) adj s').
Proof.
  intros HC Hc Hcur Hw Htop Hb H62. destruct (ca_acc _ _ _ HC _ _ Hc) as [Ha1 Ha2]. pose proof (ca_free _ _ _ HC _ _ Hc) as Hf.
  destruct (ca_mshrs _ _ _ HC _ _ Hc) as (Hn & Hact & Heq). pose proof (ca_full _ _ _ HC _ _ Hc) as Hfull.
  unfold highPrioAccess. wp_step. eapply wp_at_cache; [done|]. do 2 wp_step; [apply Z.leb_le; lia|].
  rewrite !u64_id by (unfold in_u64, W64; lia). cbv zeta. set (l := Z.max (curCycle s) (lastAccCycle tc + 1)).
  wp_step. wp_step; intros Hcase.
  - eapply wp_set_cache; [done|]. wp_step. eapply wp_set_cache; [apply lookup_insert_eq|]. wp_step.
    rewrite set_tcaches_twice. split_and!; [unfold l; lia|unfold l; lia|]. eexists. split; [done|].
    eapply (caches_set w _ adj adj s c tc); cbn; try done; try lia; unfold l; lia.
  - wp_step. eapply wp_set_cache; [done|]. wp_step. split_and!; [unfold l; lia|unfold l; lia|]. eexists. split; [done|].
    eapply (caches_set w _ adj adj s c tc); cbn; try done; try lia; unfold l; lia.
Qed.

(** A low-priority access takes the cycle before, or fails. *)
Lemma tryLowPrio_spec adj w s c tc :
  CachesOk w adj s -> tcaches s !! c = Some tc -> 1 <= curCycle s -> 0 <= w ->
  curCycle s + w + budget (events s) < top s -> 0 <= budget (events s) -> top s < 2 ^ 62 ->
  wp (tryLowPrioAccess c (curCycle s)) s (fun l s' => (l = curCycle s \/ l = 0) /\
    exists tc', s' = set_tcaches (insert c tc') s /\ activeMisses tc' = activeMisses tc /\
      pendingQueue tc' = pendingQueue tc /\ CachesOk w adj s').
Proof.
  intros HC Hc Hcur Hw Htop Hb H62. destruct (ca_acc _ _ _ HC _ _ Hc) as [Ha1 Ha2]. pose proof (ca_free _ _ _ HC _ _ Hc) as Hf.
  destruct (ca_mshrs _ _ _ HC _ _ Hc) as (Hn & Hact & Heq). pose proof (ca_full _ _ _ HC _ _ Hc) as Hfull.
  unfold tryLowPrioAccess. wp_step. eapply wp_at_cache; [done|].
  rewrite u64_id by (unfold in_u64, W64; lia). case_match.
  - wp_step. eapply wp_set_cache; [done|]. wp_step. eapply wp_set_cache; [apply lookup_insert_eq|]. wp_step.
    rewrite set_tcaches_twice. split; [by left|]. eexists. split_and!; [done|done|done|].
    eapply (caches_set w _ adj adj s c tc); cbn; try done; try lia.
  - wp_step. split; [by right|]. exists tc. rewrite set_tcaches_same by done. done.
Qed.

(** ** Handlers *)

Lemma handling_caches adj adj' w w' e ev s f :
  Handling adj w e ev s -> 0 <= w' <= w -> CachesOk w' adj' (set_tcaches f s) -> Handling adj' w' e ev (set_tcaches f s).
Proof.
  intros [HB He HC HR Hcyc Hbud] Hw HC'. split; try done; [|cbn; change (top (set_tcaches f s)) with (top s); lia].
  apply (base_fields _ _ _ s); [|done..]. by eapply base_weaken.
Qed.

(** The facts on clocks that the handlers share. *)
Lemma handling_clock adj w e ev s :
  Handling adj w e ev s -> 0 <= budget (events s) /\ top s < 2 ^ 62 /\ 0 <= w /\ 0 <= curCycle s /\
    (accessed ev <> None -> 1 <= curCycle s) /\ 0 <= lat ev /\ 0 <= postDelay ev.
Proof.
  intros [HB (He & Hst & Hcl) HC HR Hcyc Hbud].
  pose proof (ev_ok _ _ _ _ (base_events _ _ _ _ _ HB) _ _ He) as Hok. pose proof (budget_nonneg _ _ _ _ _ HB).
  destruct (base_clock _ _ _ _ _ HB) as (_ & Hlast & _ & Htop62 & Hlim & Hw0).
  pose proof (ok_lat _ _ _ Hok) as [? _]. pose proof (ok_post _ _ _ Hok) as [? _].
  split_and!; try done; try lia. intros Ha. pose proof (ok_first _ _ _ Hok Ha). lia.
Qed.

(** A hit or the start of a miss looks up the cache. *)
Lemma lookup_step adj w e ev s c tc :
  Handling adj w e ev s -> (forall c, adj c = 0) -> accessed ev = Some c -> tcaches s !! c = Some tc ->
  lat ev = 0 -> postDelay ev + 1 <= w ->
  wp (l ← highPrioAccess c (curCycle s); done e l) s (fun _ s' => WellFormed s' /\ Step s s').
Proof.
  intros HH Hadj Hacc Hc Hlat Hw. destruct (handling_clock _ _ _ _ _ HH) as (Hb & H62 & Hw0 & Hcur & Hfirst & _ & Hpost).
  specialize (Hfirst ltac:(by rewrite Hacc)). pose proof (h_cycle _ _ _ _ _ HH) as Hcyc.
  wp_step. eapply wp_mono.
  { eapply (highPrio_spec adj w s c tc); try done; [apply HH|lia|apply HH]. }
  intros l s1 (Hl & Hltop & tc' & -> & HC').
  assert (Handling adj (w - 1) e ev (set_tcaches (insert c tc') s)) as HH' by (eapply handling_caches; [done|lia|done]).
  eapply wp_mono; [eapply (done_step adj (w - 1) e ev); [done|done|cbn; lia|rewrite Hlat; lia|cbn; change (top (set_tcaches _ s)) with (top s); lia]|].
  intros _ s' [HW [Hf Hback Hleft]]. split; [done|]. by split.
Qed.

Lemma hit_step w e ev s c :
  Handling (fun c => begins c ev) w e ev s -> class ev = HitEvent c -> lat ev + postDelay ev + 1 <= w ->
  wp (simulateHit c e (curCycle s)) s (fun _ s' => WellFormed s' /\ Step s s').
Proof.
  intros HH Hcl Hw. pose proof (h_event _ _ _ _ _ HH) as (He & _). pose proof (h_caches _ _ _ _ _ HH) as HC.
  assert (accessed ev = Some c) as Hacc by (unfold accessed; by rewrite Hcl).
  destruct (ca_accessed _ _ _ HC _ _ _ He Hacc) as [tc Hc]. destruct (ca_mshrs _ _ _ HC _ _ Hc) as (Hn & Hact & Heq).
  assert (lat ev = 0) as Hl0 by (unfold lat; by rewrite Hcl).
  unfold simulateHit. wp_step. eapply wp_at_cache; [done|]. destruct (Z.ltb_spec (activeMisses tc) (numMSHRs tc)).
  - eapply (lookup_step (fun c => begins c ev) w e ev s c tc); try done; [|lia]. intros d. unfold begins. by rewrite Hcl.
  - eapply (hold_step c w e ev s tc); try done; [unfold holder; by rewrite Hcl|lia].
Qed.

(** The fields that a handler changes in its own event. *)
Lemma handling_class adj w e ev s cl :
  Handling adj w e ev s -> class_sim (class ev) cl ->
  Handling adj w e (set_class cl ev) (set_events (insert e (set_class cl ev)) s).
Proof.
  intros HH Hsim. pose proof HH as [HB (He & Hst & Hcl) HC HR Hcyc Hbud].
  pose proof (set_class_same cl ev Hsim) as Hs. set (ev1 := set_class cl ev) in *.
  assert (class ev1 <> DelayEvent) as Hcl1 by (intros Hd; apply Hcl; cbn in Hd; subst cl; destruct (class ev); simpl in Hsim; congruence).
  assert (budget (<[e:=ev1]> (events s)) = budget (events s)) as Eb.
  { rewrite (budget_update _ _ _ _ He). unfold budget_of. change (state ev1) with (state ev). rewrite Hst. lia. }
  split; [| |destruct HC as [Ha Hr Hf Hac Hm Hp Hfull]|done|done|cbn; change (top (set_events _ s)) with (top s); by rewrite Eb].
  - eapply (base_update lb [] [] {[e]} {[e]} w w s e ev ev1); try done; try (by rewrite Hst); try (change (state ev1) with (state ev); by rewrite Hst).
    + eapply (events_switch lb {[e]} {[e]} _ e ev ev1); try done; try (change (state ev1) with (state ev)); try (by rewrite Hst); [apply HB|set_solver].
    + unfold budget_of. change (state ev1) with (state ev). by rewrite Hst.
    + by apply HB.
    + intros c t Hct. by apply elem_of_nil in Hct.
  - split; [apply lookup_insert_eq|done].
  - split; cbn [curCycle events tcaches recorders set_events]; try change (top (set_events _ s)) with (top s); rewrite ?Eb; try done.
    + intros x y d Hx Hy. destruct (update_back _ _ _ _ _ _ He Hs Hx) as (y0 & Hx0 & Hsy & _). apply (Ha x y0 d Hx0).
      rewrite <- Hy. unfold accessed. pose proof (same_class _ _ Hsy). destruct (class y0), (class y); simpl in *; congruence.
    + intros x y r o z Hx Hy. destruct (update_back _ _ _ _ _ _ He Hs Hx) as (y0 & Hx0 & Hsy & _).
      pose proof (same_class _ _ Hsy) as Hcs. rewrite Hy in Hcs. destruct (class y0) eqn:Ey; simpl in Hcs; try done.
      destruct Hcs as [-> ->]. by eapply Hr.
    + intros c tc Hc. rewrite (active_same _ e ev ev1 c He Hs) by done. eauto.
    + intros c tc Hc. destruct (Hp _ _ Hc) as [Hnd Hin]. split; [done|]. intros x. rewrite Hin.
      destruct (decide (x = e)) as [->|Hne]; [|by rewrite lookup_insert_ne].
      split; intros (y & Hy & Hys & _); exfalso; [|rewrite lookup_insert_eq in Hy; injection Hy as <-; change (state ev1) with (state ev) in Hys]; congruence.
Qed.

Lemma class_step s e ev cl :
  events s !! e = Some ev -> state ev = EV_RUNNING -> class_sim (class ev) cl ->
  (forall x y', events (set_events (insert e (set_class cl ev)) s) !! x = Some y' -> exists y, events s !! x = Some y /\ same_event y y') /\
  left (curCycle s) (limit s) (events (set_events (insert e (set_class cl ev)) s)) <= left (curCycle s) (limit s) (events s).
Proof.
  intros He Hst Hsim. cbn. split.
  - intros x y' Hx. destruct (update_back _ _ _ _ _ _ He (set_class_same cl ev Hsim) Hx) as (y & ? & ? & _). eauto.
  - rewrite (left_update _ _ _ _ _ (set_class cl ev) He). unfold left_of. cbn. rewrite Hst. lia.
Qed.

Lemma step_from s1 s s' :
  curCycle s1 = curCycle s /\ limit s1 = limit s /\ lastLimit s1 = lastLimit s /\ phaseLength s1 = phaseLength s /\ logVec s1 = logVec s ->
  (forall x y', events s1 !! x = Some y' -> exists y, events s !! x = Some y /\ same_event y y') ->
  left (curCycle s) (limit s) (events s1) <= left (curCycle s) (limit s) (events s) -> Step s1 s' -> Step s s'.
Proof.
  intros (E1 & E2 & E3 & E4 & E5) Hback Hleft [(F1 & F2 & F3 & F4 & F5) B L]. rewrite E1, E2 in L. split.
  - split_and!; congruence.
  - intros x y' Hx. destruct (B _ _ Hx) as (y1 & Hy1 & Hs1). destruct (Hback _ _ Hy1) as (y & Hy & Hs).
    exists y. split; [done|]. by eapply same_event_trans.
  - lia.
Qed.

Lemma miss_start_step w e ev s c sc :
  Handling (fun c => begins c ev) w e ev s -> class ev = MissStartEvent c sc -> lat ev + postDelay ev + 1 <= w ->
  wp (simulateMissStart c e (curCycle s)) s (fun _ s' => WellFormed s' /\ Step s s').
Proof.
  intros HH Hcl Hw. pose proof (h_event _ _ _ _ _ HH) as (He & Hst & _). pose proof (h_caches _ _ _ _ _ HH) as HC.
  assert (accessed ev = Some c) as Hacc by (unfold accessed; by rewrite Hcl).
  destruct (ca_accessed _ _ _ HC _ _ _ He Hacc) as [tc Hc]. destruct (ca_mshrs _ _ _ HC _ _ Hc) as (Hn & Hact & Heq).
  assert (lat ev = 0) as Hl0 by (unfold lat; by rewrite Hcl).
  destruct (handling_clock _ _ _ _ _ HH) as (Hb & H62 & Hw0 & Hcur & Hfirst & _ & Hpost).
  unfold simulateMissStart. wp_step. eapply wp_at_cache; [done|]. destruct (Z.ltb_spec (activeMisses tc) (numMSHRs tc)).
  - wp_step. eapply wp_set_cache; [done|]. rewrite u32_id by (unfold in_u32; lia).
    destruct (ca_acc _ _ _ HC _ _ Hc). pose proof (ca_free _ _ _ HC _ _ Hc). pose proof (ca_full _ _ _ HC _ _ Hc) as Hfull.
    set (tc1 := set_activeMisses (activeMisses tc + 1) tc).
    assert (CachesOk w (fun _ => 0) (set_tcaches (insert c tc1) s)) as HC1.
    { eapply (caches_set w w (fun c => begins c ev) (fun _ => 0) s c tc); cbn; try done; try lia.
      - unfold begins. rewrite Hcl, decide_True by done. lia.
      - intros Hq. specialize (Hfull Hq). lia.
      - intros d Hd. unfold begins. by rewrite Hcl, decide_False. }
    assert (Handling (fun _ => 0) w e ev (set_tcaches (insert c tc1) s)) as HH1 by (eapply handling_caches; [done|lia|done]).
    set (s1 := set_tcaches _ s) in *. set (cl1 := MissStartEvent c (Some (curCycle s))).
    assert (class_sim (class ev) cl1) as Hsim by (by rewrite Hcl).
    wp_step. eapply (wp_set_event e _ ev); [done|]. pose proof (handling_class _ w e ev s1 cl1 HH1 Hsim) as HH2.
    destruct (class_step s1 e ev cl1 He Hst Hsim) as [Hback2 Hleft2].
    eapply wp_mono; [eapply (lookup_step (fun _ => 0) w e (set_class cl1 ev) _ c tc1 HH2); try done; [apply lookup_insert_eq|]; cbn; lia|].
    intros _ s' [HW HS]. split; [done|]. by eapply (step_from (set_events (insert e (set_class cl1 ev)) s1)).
  - eapply (hold_step c w e ev s tc); try done; [unfold holder; by rewrite Hcl|lia].
Qed.

(** ** The release of an MSHR *)

(** Held events go back to the queue. *)
Record Requeued (l : list Z) (s s' : ContentionSim) : Prop := {
  rq_fields : curCycle s' = curCycle s /\ limit s' = limit s /\ lastLimit s' = lastLimit s /\
    phaseLength s' = phaseLength s /\ logVec s' = logVec s /\ tcaches s' = tcaches s /\ recorders s' = recorders s;
  rq_other x : x ∉ l -> events s' !! x = events s !! x;
  rq_queued x : x ∈ l -> exists ev ev', events s !! x = Some ev /\ events s' !! x = Some ev' /\ same_event ev ev' /\ state ev' = EV_QUEUED;
  rq_budget : budget (events s') = budget (events s);
  rq_left : left (curCycle s) (limit s) (events s') <= left (curCycle s) (limit s) (events s);
  rq_active c : active (events s') c = active (events s) c
}.

Lemma requeue_held R w s x xv :
  Base lb [] R w s -> events s !! x = Some xv -> state xv = EV_HELD -> curCycle s < limit s ->
  wp (requeue x (u64 (curCycle s + 1))) s (fun _ s' => Base lb [] R w s' /\ Requeued [x] s s').
Proof.
  intros HB Hx Hst Hlim. pose proof (ev_ok _ _ _ _ (base_events _ _ _ _ _ HB) _ _ Hx) as Hok.
  pose proof (ok_started _ _ _ Hok ltac:(by rewrite Hst)) as Hnp. pose proof (ok_held _ _ _ Hok Hst) as Hh.
  destruct (base_clock _ _ _ _ _ HB) as (_ & Hlast & _ & Htop62 & Hltop & Hw0). pose proof (budget_nonneg _ _ _ _ _ HB) as Hb0.
  pose proof (base_held _ _ _ _ _ HB _ _ Hx Hst) as Hlb.
  rewrite u64_id by (unfold in_u64, W64; lia).
  unfold requeue. wp_step. eapply wp_at_event; [done|]. do 2 wp_step; [by rewrite Hnp|]. do 2 wp_step; [by rewrite Hst|].
  wp_step. eapply wp_set_event; [done|]. set (ev1 := set_state EV_QUEUED xv).
  assert (forall p, budget (<[x:=set_privCycle p ev1]> (events s)) = budget (events s)) as Hbud.
  { intros p. rewrite (budget_update _ _ _ _ Hx). unfold budget_of. rewrite Hst. cbn. unfold lat. cbn. lia. }
  assert (EventsInv lb [] R (<[x:=set_privCycle (curCycle s + 1) ev1]> (events s))) as HE1.
  { eapply (events_switch lb R R _ x xv); try done; try (by rewrite Hst); [apply HB|by split; auto with damov| |].
    - intros Hd. unfold holder in Hh. by rewrite Hd in Hh.
    - intros c n Hc. cbn in Hc. unfold holder in Hh. by rewrite Hc in Hh. }
  eapply wp_mono.
  - eapply (event_enqueue_spec lb [] [] R R w w s x xv ev1); try done; try (by rewrite Hst); try lia.
    + unfold budget_of. rewrite Hst. cbn. unfold lat. cbn. lia.
    + change ev1 with (set_privCycle (privCycle xv) ev1). rewrite Hbud. lia.
  - intros _ s' [HB' [q ->]]. split; [done|]. split; try done; cbn [events set_pq set_events].
    + intros y Hy%not_elem_of_cons. rewrite lookup_insert_ne; naive_solver.
    + intros y ->%list_elem_of_singleton. exists xv, (set_privCycle (curCycle s + 1) ev1). rewrite lookup_insert_eq.
      split_and!; try done. by split; auto with damov.
    + by rewrite Hbud.
    + rewrite (left_update _ _ _ _ _ _ Hx). unfold left_of. rewrite Hst. cbn. lia.
    + intros c. apply (active_same _ _ xv); [done|by split; auto with damov|by rewrite Hst].
Qed.

Lemma requeue_all_spec R w l s :
  Base lb [] R w s -> NoDup l -> (forall x, x ∈ l -> exists ev, events s !! x = Some ev /\ state ev = EV_HELD) ->
  curCycle s < limit s ->
  wp (requeue_all l (u64 (curCycle s + 1))) s (fun _ s' => Base lb [] R w s' /\ Requeued l s s').
Proof.
  intros HB Hnd. revert s HB. induction Hnd as [|x l Hx Hnd IH]; intros s HB Hheld Hlim; cbn [requeue_all].
  - wp_step. split; [done|]. split; try done. intros x Hx. by apply elem_of_nil in Hx.
  - destruct (Hheld x) as (xv & Hxv & Hst); [by left|].
    wp_step. eapply wp_mono; [by eapply (requeue_held R w s x xv)|].
    intros _ s1 [HB1 [(E1 & E2 & E3 & E4 & E5 & E6 & E7) O1 Q1 B1 L1 A1]]. rewrite <- E1.
    eapply wp_mono; [apply (IH s1 HB1); [|by rewrite E1, E2]|].
    + intros y Hy. rewrite O1; [apply Hheld; by right|]. intros ->%list_elem_of_singleton. done.
    + intros _ s2 [HB2 [(F1 & F2 & F3 & F4 & F5 & F6 & F7) O2 Q2 B2 L2 A2]]. split; [done|]. split.
      * split_and!; congruence.
      * intros y [Hy1 Hy2]%not_elem_of_cons. rewrite O2, O1; [done| |done]. by intros ->%list_elem_of_singleton.
      * intros y [->|Hy]%elem_of_cons.
        -- destruct (Q1 x) as (ev & ev' & ? & ? & ? & ?); [by left|]. exists ev, ev'. by rewrite O2.
        -- destruct (Q2 y Hy) as (ev & ev' & Hev & ? & ? & ?). exists ev, ev'. rewrite O1 in Hev; [done|].
           intros ->%list_elem_of_singleton. done.
      * congruence.
      * rewrite E1, E2 in L2. lia.
      * intros c. by rewrite A2, A1.
Qed.

(** The last step of a miss frees its MSHR, and wakes up all that wait for one. *)
Lemma release_spec w e ev s c m tc :
  Handling (fun c => begins c ev) w e ev s -> class ev = MissWritebackEvent c m -> tcaches s !! c = Some tc ->
  wp (_ ← set_cache c (set_activeMisses (u32 (activeMisses tc - 1)));
      _ ← requeue_all (pendingQueue tc) (u64 (curCycle s + 1));
      set_cache c (set_pendingQueue (fun _ => []))) s (fun _ s' => Handling (fun _ => 0) w e ev s' /\
    curCycle s' = curCycle s /\ limit s' = limit s /\ lastLimit s' = lastLimit s /\
    phaseLength s' = phaseLength s /\ logVec s' = logVec s /\
    (forall x y', events s' !! x = Some y' -> exists y, events s !! x = Some y /\ same_event y y') /\
    left (curCycle s) (limit s) (events s') <= left (curCycle s) (limit s) (events s)).
Proof.
  intros HH Hcl Hc. pose proof HH as [HB (He & Hst & Hdel) HC HR Hcyc Hbud].
  destruct HC as [Ha Hr Hf Hac Hm Hp Hfull]. destruct (Hm _ _ Hc) as (Hn & Hact & Heq). destruct (Hp _ _ Hc) as [Hnd Hin].
  assert (0 <= active (events s) c) as Hact0.
  { apply map_sum_nonneg. intros k x _. unfold active_of. destruct (class x); try done. repeat case_match; lia. }
  assert (begins c ev = -1) as Eb by (unfold begins; by rewrite Hcl, decide_True).
  rewrite u32_id by (unfold in_u32; lia).
  wp_step. eapply wp_set_cache; [done|]. set (s1 := set_tcaches _ s). wp_step.
  eapply wp_mono.
  { eapply (requeue_all_spec {[e]} w (pendingQueue tc) s1); [|done| |cbn; lia]; [by apply (base_fields _ _ _ s)|].
    intros x (y & Hy & Hys & _)%Hin. by exists y. }
  intros _ s2 [HB2 [(E1 & E2 & E3 & E4 & E5 & E6 & E7) O2 Q2 B2 L2 A2]]. cbn in E1, E2, E3, E4, E5, E6, E7, O2, Q2, B2, L2, A2.
  assert (top s2 = top s) as Et by (unfold top; congruence).
  eapply wp_set_cache; [rewrite E6; apply lookup_insert_eq|].
  assert (e ∉ pendingQueue tc) as Hout by (rewrite Hin; intros (y & Hy & Hys & _); congruence).
  assert (forall x y', events s2 !! x = Some y' -> exists y, events s !! x = Some y /\ same_event y y' /\
    (x ∈ pendingQueue tc /\ state y' = EV_QUEUED \/ (x ∉ pendingQueue tc) /\ y' = y)) as Hback.
  { intros x y' Hx. destruct (decide (x ∈ pendingQueue tc)) as [Hxq|Hxq].
    - destruct (Q2 x Hxq) as (y & y2 & Hy & Hy2 & Hs & Hs2). exists y. assert (y2 = y') as -> by congruence. auto.
    - exists y'. rewrite O2 in Hx by done. split_and!; [done|apply same_event_refl|by right]. }
  split_and!; cbn [curCycle limit lastLimit phaseLength logVec events set_tcaches]; try done; [|intros x y' Hx; destruct (Hback _ _ Hx) as (y & ? & ? & _); eauto].
  split; cbn [curCycle limit lastLimit phaseLength logVec events set_tcaches].
  - by apply (base_fields _ _ _ s2).
  - rewrite O2 by done. done.
  - split; cbn [curCycle events tcaches recorders set_tcaches]; try change (top (set_tcaches _ s2)) with (top s2);
      rewrite ?Et, ?E1, ?E6, ?E7, ?B2.
    + intros x y d Hx Hy. destruct (Hback _ _ Hx) as (y0 & Hx0 & Hs & _). apply lookup_insert_is_Some'. right.
      apply lookup_insert_is_Some'. right. apply (Ha x y0 d Hx0).
      rewrite <- Hy. unfold accessed. pose proof (same_class _ _ Hs). destruct (class y0), (class y); simpl in *; congruence.
    + intros x y r o z Hx Hy. destruct (Hback _ _ Hx) as (y0 & Hx0 & Hs & _). pose proof (same_class _ _ Hs) as Hcs.
      rewrite Hy in Hcs. destruct (class y0) eqn:Ey; simpl in Hcs; try done. destruct Hcs as [-> ->]. by eapply Hr.
    + intros d td. rewrite insert_insert_eq. intros [[<- <-]|[Hne Hd]]%lookup_insert_Some; cbn; eauto.
    + intros d td. rewrite insert_insert_eq. intros [[<- <-]|[Hne Hd]]%lookup_insert_Some; cbn; eauto.
    + intros d td. rewrite insert_insert_eq, A2. intros [[<- <-]|[Hne Hd]]%lookup_insert_Some; cbn; [lia|].
      destruct (Hm _ _ Hd) as (? & ? & Hd'). unfold begins in Hd'. rewrite Hcl, decide_False in Hd' by done. done.
    + intros d td. rewrite insert_insert_eq. intros [[<- <-]|[Hne Hd]]%lookup_insert_Some; cbn.
      * split; [constructor|]. intros x. split; [by intros ?%elem_of_nil|]. intros (y & Hy & Hys & Hyh). exfalso.
        destruct (Hback _ _ Hy) as (y0 & Hx0 & Hs & [[Hq Hq']|[Hq ->]]); [congruence|]. apply Hq, Hin. eauto.
      * destruct (Hp _ _ Hd) as [Hnd' Hin']. split; [done|]. intros x. rewrite Hin'. split.
        -- intros (y & Hy & Hys & Hyh). exists y. rewrite O2; [done|]. rewrite Hin. intros (y' & Hy' & _ & Hyh'). congruence.
        -- intros (y & Hy & Hys & Hyh). destruct (Hback _ _ Hy) as (y0 & Hx0 & Hs & [[Hq Hq']|[Hq ->]]); [congruence|]. eauto.
    + intros d td. rewrite insert_insert_eq. intros [[<- <-]|[Hne Hd]]%lookup_insert_Some; cbn; eauto. done.
  - unfold RecordersOk. cbn. by rewrite E7, E2.
  - by rewrite E1, E2.
  - change (top (set_tcaches _ s2)) with (top s2). rewrite E1, B2, Et. done.
Qed.
End phase.
