(* ===== verification/WeaveFrame.v ===== *)
(** * What running an event leaves alone

    A run of one event does not touch the events that wait in the queue, it does no
    more to those that wait for their parents than to queue them, and no handler
    but the one of the cores touches a recorder, and none but those of the last two
    steps of a miss add to the latency counters that read another event. *)

From stdpp Require Import base tactics numbers list gmap.
From Stdlib Require Import ZArith Lia.
From S2P Require Import Prelude PrioQueue TimingEvents.

Open Scope Z_scope.

(** The latency counters of a cache. *)
Definition samples (tc : TimingCache) : list (option Z) * list (option Z) := (profMissRespLat tc, profMissLat tc).

Section frame.
Context (T : gmap Z (option Z)) (R : gmap Z CoreRecorder) (P : gmap Z (list (option Z) * list (option Z))).

(** The events of [T] are still to run, in the queue at their cycles or anywhere, the
    recorders are [R] and the latency counters [P]. *)
Definition tracked (o : option Z) (ev : TimingEvent) : Prop :=
  class ev <> DelayEvent /\ match o with Some c => state ev = EV_QUEUED /\ privCycle ev = c | None => state ev = EV_NONE \/ state ev = EV_QUEUED end.
Definition Kept (s : ContentionSim) : Prop :=
  (recorders s = R /\ samples <$> tcaches s = P) /\ forall x o, T !! x = Some o -> exists xv, events s !! x = Some xv /\ tracked o xv.
Definition queueable (e : Z) : Prop := T !! e = None \/ T !! e = Some None.

Definition keeps {A} (m : sim A) : Prop := forall s, Kept s -> wlp m s (fun _ s' => Kept s').

Lemma keeps_ret {A} (a : A) : keeps (mret a).
Proof. by intros s HK. Qed.
Lemma keeps_bind {A B} (m : sim A) (k : A -> sim B) : keeps m -> (forall a, keeps (k a)) -> keeps (mbind k m).
Proof. intros Hm Hk s HK. apply wlp_bind. eapply wlp_mono; [exact (Hm s HK)|]. intros a s' HK'. by apply Hk. Qed.
Lemma keeps_gets {A} (f : ContentionSim -> A) : keeps (gets f).
Proof. by intros s HK. Qed.
Lemma keeps_assert b : keeps (assert_ b).
Proof. intros s HK. by apply wlp_assert. Qed.
Lemma keeps_when b m : keeps m -> keeps (when b m).
Proof. intros Hm s HK. apply wlp_when; [intros _; by apply Hm|done]. Qed.
Lemma keeps_fail {A} f : keeps (@fail ContentionSim A f).
Proof. done. Qed.
Lemma keeps_at_cache k : keeps (at_cache k).
Proof. intros s HK. unfold wlp, at_cache. by destruct (tcaches s !! k). Qed.
Lemma keeps_set_cache k f : (forall tc, samples (f tc) = samples tc) -> keeps (set_cache k f).
Proof.
  intros Hf s [[HR HP] HK]. apply wlp_modify. split; [|done]. split; [done|]. rewrite <- HP. cbn. apply map_eq. intros i.
  rewrite !lookup_fmap. destruct (decide (k = i)) as [->|Hne]; [rewrite lookup_alter_eq|by rewrite lookup_alter_ne].
  destruct (tcaches s !! i); cbn; by rewrite ?Hf.
Qed.
Lemma keeps_pq {A} (m : st PrioQueue A) : keeps (zoom pq set_pq m).
Proof. intros s HK. unfold wlp, zoom. by destruct (m (pq s)) as [[? ?]|]. Qed.

(** What an event that is read says of [T]. *)
Lemma keeps_at e {A} (k : TimingEvent -> sim A) :
  (forall ev, ((state ev <> EV_QUEUED /\ state ev <> EV_NONE) \/ class ev = DelayEvent -> T !! e = None) ->
     (state ev = EV_NONE -> queueable e) -> keeps (k ev)) -> keeps (mbind k (at_event e)).
Proof.
  intros Hk s HK. unfold wlp, mbind, st_bind, at_event. destruct (events s !! e) as [ev|] eqn:He; [|done].
  apply (Hk ev); [| |done].
  - intros Hst. destruct (T !! e) as [o|] eqn:Ht; [|done]. destruct HK as [_ HK]. destruct (HK _ _ Ht) as (xv & Hx & Hc & Ho).
    destruct Hst as [[? ?]|?]; [destruct o; destruct Ho|]; congruence.
  - intros Hst. unfold queueable. destruct (T !! e) as [[c|]|] eqn:Ht; [|by right|by left]. destruct HK as [_ HK].
    destruct (HK _ _ Ht) as (xv & Hx & Hc & Ho & _). congruence.
Qed.

(** What may change in an event of [T]. *)
Lemma keeps_set_event e f : (forall o ev, T !! e = Some o -> tracked o ev -> tracked o (f ev)) -> keeps (set_event e f).
Proof.
  intros Hf s (HR & HK). apply wlp_modify. split; [done|]. cbn. intros x c Ht. destruct (HK _ _ Ht) as (xv & Hx & Htr).
  destruct (decide (e = x)) as [->|Hne]; [|exists xv; by rewrite lookup_alter_ne].
  exists (f xv). rewrite lookup_alter_eq, Hx. split; [done|]. by apply Hf.
Qed.

Lemma keeps_other e f : T !! e = None -> keeps (set_event e f).
Proof. intros Hne. apply keeps_set_event. congruence. Qed.
Lemma keeps_numParents e f : keeps (set_event e (fun ev => set_numParents (f ev) ev)).
Proof. by apply keeps_set_event. Qed.
Lemma keeps_cycle e f : keeps (set_event e (fun ev => set_cycle (f ev) ev)).
Proof. by apply keeps_set_event. Qed.
Lemma keeps_queued e : queueable e -> keeps (set_event e (set_state EV_QUEUED)).
Proof. intros Hq. apply keeps_set_event. intros [c|] ev Ht [Hc Ho]; [destruct Hq; congruence|]. split; [done|by right]. Qed.
Lemma keeps_privCycle e c : queueable e -> keeps (set_event e (set_privCycle c)).
Proof. intros Hq. apply keeps_set_event. intros [c'|] ev Ht [Hc Ho]; [destruct Hq; congruence|]. by split. Qed.

Lemma keeps_checked {A} b (k : sim A) : (b = true -> keeps k) -> keeps (_ ← assert_ b; k).
Proof. intros Hk s HK. apply wlp_bind, wlp_assert. intros Hb. by apply Hk. Qed.

Lemma keeps_free e : T !! e = None -> keeps (freeEvent e).
Proof.
  intros Hne s (HR & HK). apply wlp_modify. split; [done|]. intros x c Ht. destruct (HK _ _ Ht) as (xv & Hx & ?).
  exists xv. cbn. rewrite lookup_delete_ne by congruence. done.
Qed.

Lemma keeps_visit f l : (forall e, keeps (f e)) -> keeps (visit f l).
Proof. intros Hf. induction l as [|[e|] l IH]; cbn; [apply keeps_ret|by apply keeps_bind|apply keeps_fail]. Qed.

Lemma keeps_visitChildren f ev : (forall e, keeps (f e)) -> keeps (visitChildren f ev).
Proof. intros Hf. apply keeps_bind; [by apply keeps_visit|]. intros _. apply keeps_when, keeps_assert. Qed.

Lemma keeps_enqueue e cyc : queueable e -> keeps (ContentionSim_enqueue e cyc).
Proof.
  intros Hne. apply keeps_bind; [apply keeps_gets|]. intros sm. do 3 (apply keeps_bind; [apply keeps_assert|intros _]).
  apply keeps_at. intros ev _ _. apply keeps_bind; [case_match; [apply keeps_assert|apply keeps_fail]|intros _].
  apply keeps_bind; [by apply keeps_privCycle|intros _]. do 3 (apply keeps_bind; [apply keeps_assert|intros _]). apply keeps_pq.
Qed.

Lemma keeps_done_with pd e dc : (forall e t, keeps (pd e t)) -> keeps (done_with pd e dc).
Proof.
  intros Hpd. apply keeps_at. intros ev Hev _. apply keeps_checked. intros Hr%bool_decide_eq_true.
  assert (T !! e = None) as Hne by (apply Hev; left; by rewrite Hr). apply keeps_bind; [by apply keeps_other|intros _].
  apply keeps_bind; [by apply keeps_visitChildren|intros _]. by apply keeps_free.
Qed.

Lemma keeps_parentDone fuel : forall e t, keeps (parentDone fuel e t).
Proof.
  induction fuel as [|fuel IH]; intros e t; cbn [parentDone]; [apply keeps_fail|].
  apply keeps_at. intros _ _ _. apply keeps_bind; [by apply keeps_set_event|intros _].
  apply keeps_at. intros ev Hev Hnone. destruct (class ev) eqn:Hc.
  1: { assert (T !! e = None) as Hne by (apply Hev; by right). apply keeps_bind; [by apply keeps_other|intros _]. apply keeps_when.
       apply keeps_bind; [by apply keeps_other|intros _]. by apply keeps_done_with. }
  all: apply keeps_bind; [apply keeps_assert|intros _]; apply keeps_bind; [by apply keeps_set_event|intros _]; apply keeps_when;
    apply keeps_checked; intros Hn%bool_decide_eq_true; specialize (Hnone Hn);
    apply keeps_bind; [by apply keeps_queued|intros _]; by apply keeps_enqueue.
Qed.

Lemma keeps_done e dc : keeps (done e dc).
Proof. apply keeps_bind; [apply keeps_gets|]. intros n. apply keeps_done_with, keeps_parentDone. Qed.

Lemma keeps_requeue e cyc : keeps (requeue e cyc).
Proof.
  apply keeps_at. intros ev Hev _. apply keeps_bind; [apply keeps_assert|intros _]. apply keeps_checked. intros Hs%bool_decide_eq_true.
  assert (T !! e = None) as Hne by (apply Hev; left; by destruct Hs as [-> | ->]). apply keeps_bind; [by apply keeps_other|intros _].
  apply keeps_enqueue. by left.
Qed.

Lemma keeps_hold e : keeps (hold e).
Proof.
  apply keeps_at. intros ev Hev _. apply keeps_checked. intros Hs%bool_decide_eq_true. apply keeps_other, Hev. left. by rewrite Hs.
Qed.

Lemma keeps_high k cyc : keeps (highPrioAccess k cyc).
Proof.
  apply keeps_bind; [apply keeps_at_cache|intros tc]. apply keeps_bind; [apply keeps_assert|intros _].
  apply keeps_bind; [apply keeps_when; by apply keeps_set_cache|intros _]. apply keeps_bind; [by apply keeps_set_cache|intros _]. apply keeps_ret.
Qed.

Lemma keeps_low k cyc : keeps (tryLowPrioAccess k cyc).
Proof.
  apply keeps_bind; [apply keeps_at_cache|intros tc]. case_match; [|apply keeps_ret].
  do 2 (apply keeps_bind; [by apply keeps_set_cache|intros _]). apply keeps_ret.
Qed.

Lemma keeps_requeue_all l cyc : keeps (requeue_all l cyc).
Proof. induction l as [|e l IH]; cbn; [apply keeps_ret|]. apply keeps_bind; [apply keeps_requeue|by intros _]. Qed.

Lemma keeps_hold_in k e : keeps (_ ← hold e; set_cache k (set_pendingQueue (fun l => l ++ [e]))).
Proof. apply keeps_bind; [apply keeps_hold|intros _]. by apply keeps_set_cache. Qed.

(** [simulate] of an event that changes neither a recorder nor a latency counter. *)
Definition plain (c : EventClass) : bool :=
  match c with TimingCoreEvent _ _ _ | MissResponseEvent _ _ | MissWritebackEvent _ _ => false | _ => true end.

Lemma keeps_simulate e cyc : T !! e = None -> forall s ev, Kept s -> events s !! e = Some ev ->
  plain (class ev) = true -> wlp (simulate e cyc) s (fun _ s' => Kept s').
Proof.
  intros Hne s ev HK He Hcl. apply wlp_bind. unfold wlp at 1, at_event. rewrite He.
  destruct (class ev) as [|l|c|c sc|c m|c m|c n|r o t|g]; try done; (eapply wlp_mono; [|intros ? ? HK'; exact HK']).
  - by apply keeps_done.
  - unfold simulateHit. revert s HK He. enough (keeps (simulateHit c e cyc)) as Hk by (intros s HK _; exact (Hk s HK)).
    apply keeps_bind; [apply keeps_at_cache|intros tc]; case_match; [|apply keeps_hold_in].
    apply keeps_bind; [apply keeps_high|intros l; apply keeps_done].
  - revert s HK He. enough (keeps (simulateMissStart c e cyc)) as Hk by (intros s HK _; exact (Hk s HK)).
    apply keeps_bind; [apply keeps_at_cache|intros tc]; case_match; [|apply keeps_hold_in].
    apply keeps_bind; [by apply keeps_set_cache|intros _]. apply keeps_bind; [by apply keeps_other|intros _].
    apply keeps_bind; [apply keeps_high|intros l; apply keeps_done].
  - revert s HK He. enough (keeps (simulateReplAccess c e n cyc)) as Hk by (intros s HK _; exact (Hk s HK)).
    apply keeps_bind; [apply keeps_assert|intros _]. apply keeps_bind; [apply keeps_low|intros l]. case_match; [|apply keeps_requeue].
    apply keeps_bind; [by apply keeps_other|intros _]. case_match; [apply keeps_done|apply keeps_requeue].
  - by apply keeps_done.
Qed.
End frame.

(** What the handler of a core's event writes. *)
Definition reported (e o cyc : Z) (rc : CoreRecorder) : CoreRecorder :=
  mkRecorder (rec_state rc) (gapCycles rc) (prevRespCycle rc)
    (if decide (prevRespEvent rc = Some e) then None else prevRespEvent rc) cyc o
    (totalGapCycles rc) (totalHaltedCycles rc) (lastUnhaltedCycle rc) (rec_domain rc) (lastGapCycles rc) (u64 (cyc - o)).

Lemma core_frame T R P e cyc s ev r o t : T !! e = None -> Kept T R P s -> events s !! e = Some ev -> class ev = TimingCoreEvent r o t ->
  wlp (simulate e cyc) s (fun _ s' => Kept T (alter (reported e o cyc) r R) P s').
Proof.
  intros Hne HK He Hcl. apply wlp_bind. unfold wlp at 1, at_event. rewrite He, Hcl. apply wlp_bind.
  eapply (wlp_mono _ _ (fun _ s' => Kept T R P s')); [by apply (keeps_other T R P)|]. intros _ s1 HK1. apply wlp_bind.
  eapply (wlp_mono _ _ (fun _ s' => Kept T (alter (reported e o cyc) r R) P s')); [|intros _ s2 HK2; by apply keeps_done].
  apply wlp_bind. unfold wlp at 1, at_recorder. destruct (recorders s1 !! r); [|done].
  apply wlp_bind. eapply (wlp_mono _ _ (fun _ s' => Kept T R P s')); [apply (keeps_when T R P); [apply keeps_assert|exact HK1]|].
  intros _ s2 [[HR2 HP2] HK2]. apply wlp_modify. split; [cbn; by rewrite HR2|done].
Qed.

(** What the last two steps of a miss add to the counters of their cache, with the events [E]. *)
Definition add_resp (x : option Z) (q : list (option Z) * list (option Z)) : list (option Z) * list (option Z) := (x :: q.1, q.2).
Definition add_miss (x : option Z) (q : list (option Z) * list (option Z)) : list (option Z) * list (option Z) := (q.1, x :: q.2).
Definition sampled (E : gmap Z TimingEvent) (cl : EventClass) (cyc : Z) (P P' : gmap Z (list (option Z) * list (option Z))) : Prop :=
  match cl with
  | MissResponseEvent c m => P' = alter (add_resp (amount E m cyc)) c P
  | MissWritebackEvent c m => P' = P \/ P' = alter (add_miss (amount E m cyc)) c P
  | _ => P' = P
  end.

Lemma sample_kept T R P c f g s : (forall tc, samples (f tc) = g (samples tc)) -> Kept T R P s ->
  wlp (set_cache c f) s (fun _ s' => Kept T R (alter g c P) s').
Proof.
  intros Hf [[HR HP] HK]. apply wlp_modify. split; [|done]. split; [done|]. rewrite <- HP. cbn. apply map_eq. intros i.
  rewrite lookup_fmap. destruct (decide (c = i)) as [->|Hne].
  - rewrite !lookup_alter_eq, lookup_fmap. destruct (tcaches s !! i); cbn; [by rewrite Hf|done].
  - by rewrite !lookup_alter_ne, lookup_fmap.
Qed.

Lemma response_frame T R P e cyc s c m : Kept T R P s ->
  wlp (simulateMissResponse c e cyc m) s (fun _ s' => Kept T R (alter (add_resp (amount (events s) m cyc)) c P) s').
Proof.
  intros HK. apply wlp_bind. unfold wlp at 1, at_cache. destruct (tcaches s !! c); [|done].
  apply wlp_bind, wlp_gets, wlp_bind. eapply wlp_mono; [by apply (sample_kept T R P c _ (add_resp (amount (events s) m cyc)))|].
  intros [] s' HK'. by apply keeps_done.
Qed.

Lemma low_events c cyc s : wlp (tryLowPrioAccess c cyc) s (fun _ s' => events s' = events s).
Proof. apply wlp_bind. unfold wlp at 1, at_cache. destruct (tcaches s !! c); [|done]. by case_match. Qed.

Lemma writeback_frame T R P e cyc s c m : Kept T R P s ->
  wlp (simulateMissWriteback c e cyc m) s (fun _ s' => exists P', (P' = P \/ P' = alter (add_miss (amount (events s) m cyc)) c P) /\ Kept T R P' s').
Proof.
  intros HK. apply wlp_bind. eapply wlp_mono; [apply wlp_and; [exact (keeps_low T R P c cyc s HK)|apply low_events]|].
  intros l s1 [HK1 HE]. case_match.
  2: { eapply wlp_mono; [exact (keeps_requeue T R P e _ s1 HK1)|]. intros [] s2 HK2. exists P. auto. }
  apply wlp_bind. unfold wlp at 1, at_cache. destruct (tcaches s1 !! c) as [tc|]; [|done].
  apply wlp_bind, wlp_assert. intros _. apply wlp_bind, wlp_gets, wlp_bind. rewrite HE.
  eapply wlp_mono; [by apply (sample_kept T R P c _ (add_miss (amount (events s) m cyc)))|]. intros [] s2 HK2.
  set (P1 := alter _ c P) in *.
  eapply (wlp_mono _ _ (fun _ s' => Kept T R P1 s')); [|intros [] s3 HK3; exists P1; split; [by right|exact HK3]].
  revert s2 HK2. apply (keeps_bind T R _ (set_cache c _)); [by apply keeps_set_cache|intros _].
  apply keeps_bind; [apply keeps_requeue_all|intros _]. apply keeps_bind; [by apply keeps_set_cache|intros _]. apply keeps_done.
Qed.

(** [run] of an event of the queue. *)
Lemma amount_state E e x m cyc : amount (alter (set_state x) e E) m cyc = amount E m cyc.
Proof.
  unfold amount, startCycle_of. destruct (decide (e = m)) as [->|Hne]; [rewrite lookup_alter_eq|by rewrite lookup_alter_ne].
  by destruct (E !! m).
Qed.

Lemma run_frame T R P e cyc s ev : T !! e = None -> Kept T R P s -> events s !! e = Some ev ->
  wlp (run e cyc) s (fun _ s' => exists P', sampled (events s) (class ev) cyc P P' /\
    Kept T (match class ev with TimingCoreEvent r o _ => alter (reported e o cyc) r R | _ => R end) P' s').
Proof.
  intros Hne HK He. apply wlp_bind. unfold wlp at 1, at_event. rewrite He.
  apply wlp_bind, wlp_assert. intros _. apply wlp_bind. unfold set_event. apply wlp_modify.
  apply wlp_bind, wlp_assert. intros _. set (s1 := set_events _ s).
  assert (Kept T R P s1) as HK1 by (apply (keeps_other T R P e _ Hne s HK)).
  assert (events s1 !! e = Some (set_state EV_RUNNING ev)) as He1 by (cbn; by rewrite lookup_alter_eq, He).
  destruct (plain (class ev)) eqn:Hpl.
  { eapply wlp_mono; [eapply (keeps_simulate T R P); [done|exact HK1|exact He1|done]|]. intros [] s' HK'. exists P.
    destruct (class ev); done. }
  destruct (class ev) as [| | | |c m|c m| |r o t|] eqn:Hcl; try done.
  - apply wlp_bind. unfold wlp at 1, at_event. rewrite He1. cbn [class set_state]. rewrite Hcl.
    eapply wlp_mono; [by apply (response_frame T R P)|]. intros [] s' HK'. eexists. split; [|exact HK']. cbn. by rewrite amount_state.
  - apply wlp_bind. unfold wlp at 1, at_event. rewrite He1. cbn [class set_state]. rewrite Hcl.
    eapply wlp_mono; [by apply (writeback_frame T R P)|]. intros [] s' (P' & HP' & HK'). exists P'. split; [|exact HK'].
    cbn in HP' |- *. by rewrite amount_state in HP'.
  - eapply wlp_mono; [by eapply core_frame|]. intros [] s' HK'. by exists P.
Qed.

(** The event of a core is gone when it has run. *)
Lemma wlp_last {S A B} (m : st S A) (k : A -> st S B) s (Q : B -> S -> Prop) : (forall a s', wlp (k a) s' Q) -> wlp (mbind k m) s Q.
Proof. intros Hk. apply wlp_bind. unfold wlp at 1. destruct (m s) as [[a s']|]; auto. Qed.

Lemma core_gone e cyc s ev r o t : events s !! e = Some ev -> class ev = TimingCoreEvent r o t -> wlp (run e cyc) s (fun _ s' => events s' !! e = None).
Proof.
  intros He Hcl. unfold run. wlp_step. unfold wlp at 1, at_event. rewrite He. do 2 wlp_step. intros _. unfold set_event. do 4 wlp_step. intros _.
  unfold simulate. wlp_step. unfold wlp at 1, at_event. cbn. rewrite lookup_alter_eq, He. cbn. rewrite Hcl.
  unfold done, done_with. do 7 (apply wlp_last; intros ? ?). unfold freeEvent. wlp_step. cbn. apply lookup_delete_eq.
Qed.

Lemma run_gone e cyc s ev : events s !! e = Some ev -> wlp (run e cyc) s (fun _ s' => forall r o t, class ev = TimingCoreEvent r o t -> events s' !! e = None).
Proof.
  intros He. unfold wlp. destruct (run e cyc s) as [[[] s']|] eqn:Hrun; [|done]. intros r o t Hcl.
  pose proof (core_gone e cyc s ev r o t He Hcl) as Hgone. unfold wlp in Hgone. by rewrite Hrun in Hgone.
Qed.
