(* ===== verification/WeaveMain.v ===== *)
(** * The phase

    Every event that runs keeps the simulation in order and is either done or
    put off to a later cycle; so the loop of a phase ends, with every event that
    is left in the queue beyond the end of the phase. *)

From stdpp Require Import base tactics numbers list gmap relations sets sorting.
From Stdlib Require Import ZArith Lia.
From S2P Require Import Prelude PrioQueue TimingEvents WeaveInv Weave WeavePhase WeaveFrame.

Open Scope Z_scope.

Section main.
Context (lb : Z -> Z).

(** ** The other handlers *)

(** The statistics of a cache are no concern of the phase. *)
Lemma handling_sample adj w e ev s c tc tc' :
  Handling lb adj w e ev s -> tcaches s !! c = Some tc ->
  (lastAccCycle tc', lastFreeCycle tc', numMSHRs tc', activeMisses tc', pendingQueue tc') =
    (lastAccCycle tc, lastFreeCycle tc, numMSHRs tc, activeMisses tc, pendingQueue tc) ->
  Handling lb adj w e ev (set_tcaches (insert c tc') s).
Proof.
  intros HH Hc [= Ea Ef En Em Ep]. pose proof (h_caches _ _ _ _ _ _ HH) as HC. destruct (handling_clock _ _ _ _ _ _ HH) as (_ & _ & Hw & _).
  eapply handling_caches; [done|lia|]. destruct (ca_acc _ _ _ HC _ _ Hc), (ca_mshrs _ _ _ HC _ _ Hc) as (? & ? & ?).
  eapply (caches_set w w adj adj s c tc); rewrite ?Ea, ?Ef, ?En, ?Em, ?Ep; try done; [by eapply (ca_free _ _ _ HC)|by eapply (ca_full _ _ _ HC)].
Qed.

Lemma miss_response_step w e ev s c m :
  Handling lb (fun c => begins c ev) w e ev s -> class ev = MissResponseEvent c m -> lat ev + postDelay ev + 1 <= w ->
  wp (simulateMissResponse c e (curCycle s) m) s (fun _ s' => WellFormed lb s' /\ Step s s').
Proof.
  intros HH Hcl Hw. pose proof (h_event _ _ _ _ _ _ HH) as (He & _).
  destruct (ca_accessed _ _ _ (h_caches _ _ _ _ _ _ HH) e ev c He) as [tc Hc]; [unfold accessed; by rewrite Hcl|].
  unfold simulateMissResponse. wp_step. eapply wp_at_cache; [done|]. wp_step. unfold since_start. wp_step. wp_step.
  eapply wp_set_cache; [done|]. set (s1 := set_tcaches _ s).
  assert (Handling lb (fun c => begins c ev) w e ev s1) as HH1 by (by eapply handling_sample).
  pose proof (h_budget _ _ _ _ _ _ HH1). pose proof (h_cycle _ _ _ _ _ _ HH1) as Hcyc.
  assert (lat ev = 0) as Hl0 by (unfold lat; by rewrite Hcl). change (curCycle s) with (curCycle s1).
  eapply wp_mono; [eapply (done_step lb (fun c => begins c ev) w e ev s1 _ HH1)|]; try lia; [intros d; unfold begins; by rewrite Hcl|].
  intros _ s' [HW [Hf Hback Hleft]]. split; [done|]. by split.
Qed.

Lemma miss_writeback_step w e ev s c m :
  Handling lb (fun c => begins c ev) w e ev s -> class ev = MissWritebackEvent c m -> lat ev + postDelay ev + 1 <= w ->
  wp (simulateMissWriteback c e (curCycle s) m) s (fun _ s' => WellFormed lb s' /\ Step s s').
Proof.
  intros HH Hcl Hw. pose proof (h_event _ _ _ _ _ _ HH) as (He & _). pose proof (h_caches _ _ _ _ _ _ HH) as HC.
  assert (accessed ev = Some c) as Hacc by (unfold accessed; by rewrite Hcl).
  destruct (ca_accessed _ _ _ HC _ _ _ He Hacc) as [tc Hc].
  destruct (handling_clock _ _ _ _ _ _ HH) as (Hb & H62 & Hw0 & Hcur & Hfirst & Hlat & Hpost).
  specialize (Hfirst ltac:(by rewrite Hacc)). unfold simulateMissWriteback. wp_step.
  eapply wp_mono; [eapply (tryLowPrio_spec _ w s c tc HC Hc); try done; apply HH|].
  intros l s1 [Hl (tc' & -> & Ea & Eq & HC')]. set (s1 := set_tcaches (insert c tc') s) in *.
  assert (Handling lb (fun c => begins c ev) w e ev s1) as HH1 by (eapply handling_caches; [done|lia|done]).
  assert (tcaches s1 !! c = Some tc') as Hc1 by apply lookup_insert_eq.
  destruct Hl as [-> | ->].
  - replace (curCycle s =? 0) with false by lia. cbn [negb]. wp_step. eapply wp_at_cache; [done|]. wp_step. wp_step.
    { destruct (ca_mshrs _ _ _ HC' _ _ Hc1) as (_ & _ & Heq).
      assert (0 <= active (events s1) c).
      { apply map_sum_nonneg. intros k x _. unfold active_of. destruct (class x); try done. repeat case_match; lia. }
      assert (begins c ev = -1) as Eb by (unfold begins; by rewrite Hcl, decide_True). apply negb_true_iff, Z.eqb_neq. lia. }
    wp_step. unfold since_start. wp_step. wp_step. eapply wp_set_cache; [done|]. set (x := amount _ _ _).
    assert (Handling lb (fun c => begins c ev) w e ev (set_tcaches (insert c (inc_profMissLat x tc')) s1)) as HH2 by (by eapply handling_sample).
    pose proof (release_spec lb w e ev _ c m (inc_profMissLat x tc') HH2 Hcl (lookup_insert_eq _ _ _)) as Hrel.
    unfold wp, mbind, st_bind in *. cbn [curCycle limit lastLimit phaseLength logVec events set_tcaches activeMisses pendingQueue inc_profMissLat] in Hrel.
    change (curCycle s1) with (curCycle s) in Hrel.
    destruct (set_cache c _ _) as [[[] s2]|]; [|done].
    destruct (requeue_all _ _ s2) as [[[] s3]|]; [|done].
    destruct (set_cache c _ s3) as [[[] s4]|]; [|done].
    destruct Hrel as (HH4 & E1 & E2 & E3 & E4 & E5 & Hback & Hleft).
    assert (lat ev = 0) as Hl0 by (unfold lat; by rewrite Hcl).
    pose proof (done_step lb (fun _ => 0) w e ev s4 (curCycle s) HH4 ltac:(done)) as Hd.
    pose proof (h_budget _ _ _ _ _ _ HH4) as Hbud. pose proof (h_cycle _ _ _ _ _ _ HH4).
    unfold wp in Hd. destruct (done e (curCycle s) s4) as [[[] s5]|]; [|apply Hd; lia].
    destruct Hd as [HW HS]; [lia..|]. split; [done|]. by eapply (step_from s4).
  - cbn [Z.eqb negb]. change (curCycle s) with (curCycle s1).
    eapply wp_mono; [by eapply (requeue_step lb _ w e ev s1); [..|intros ? ? Hc'; congruence]|].
    intros _ s' [HW [Hf Hback Hleft]]. split; [done|]. by split.
Qed.

Lemma repl_step w e ev s c n :
  Handling lb (fun c => begins c ev) w e ev s -> class ev = ReplAccessEvent c n -> 0 < n < W32 -> lat ev + postDelay ev + 1 <= w ->
  wp (simulateReplAccess c e n (curCycle s)) s (fun _ s' => WellFormed lb s' /\ Step s s').
Proof.
  intros HH Hcl Hn Hw. pose proof (h_event _ _ _ _ _ _ HH) as (He & Hst & _). pose proof (h_caches _ _ _ _ _ _ HH) as HC.
  assert (accessed ev = Some c) as Hacc by (unfold accessed; by rewrite Hcl).
  destruct (ca_accessed _ _ _ HC _ _ _ He Hacc) as [tc Hc].
  destruct (handling_clock _ _ _ _ _ _ HH) as (Hb & H62 & Hw0 & Hcur & Hfirst & Hlat & Hpost).
  specialize (Hfirst ltac:(by rewrite Hacc)). unfold simulateReplAccess. wp_step. wp_step; [apply negb_true_iff, Z.eqb_neq; lia|].
  wp_step. eapply wp_mono; [eapply (tryLowPrio_spec _ w s c tc HC Hc); try done; apply HH|].
  intros l s1 [Hl (tc' & -> & Ea & Eq & HC')]. set (s1 := set_tcaches (insert c tc') s) in *.
  assert (Handling lb (fun c => begins c ev) w e ev s1) as HH1 by (eapply handling_caches; [done|lia|done]).
  destruct Hl as [-> | ->].
  - replace (curCycle s =? 0) with false by lia. cbn [negb]. wp_step. eapply wp_set_event; [done|].
    rewrite u32_id by (unfold in_u32; lia). set (cl1 := ReplAccessEvent c (n - 1)).
    assert (class_sim (class ev) cl1) as Hsim by (by rewrite Hcl).
    pose proof (handling_class lb _ w e ev s1 cl1 HH1 Hsim) as HH2. destruct (class_step s1 e ev cl1 He Hst Hsim) as [Hback2 Hleft2].
    set (s2 := set_events _ s1) in *. pose proof (h_budget _ _ _ _ _ _ HH2) as Hbud. pose proof (h_cycle _ _ _ _ _ _ HH2) as Hcyc2.
    assert (forall d, begins d ev = 0) as Hb0 by (intros d; unfold begins; by rewrite Hcl).
    assert (lat ev = 0) as Hl0 by (unfold lat; by rewrite Hcl). change (curCycle s) with (curCycle s2). case_match.
    + eapply wp_mono; [eapply (done_step lb _ w e _ s2 _ HH2); [done|done| |]|].
      * cbn in Hcyc2 |- *. lia.
      * cbn [postDelay set_class]. lia.
      * intros _ s' [HW HS]. split; [done|]. by eapply (step_from s2).
    + eapply wp_mono; [eapply (requeue_step lb _ w e _ s2 HH2); [intros d; rewrite Hb0; done|cbn; lia|]|].
      * intros c' n' [= -> <-]. lia.
      * intros _ s' [HW HS]. split; [done|]. by eapply (step_from s2).
  - cbn [Z.eqb negb]. change (curCycle s) with (curCycle s1).
    eapply wp_mono; [eapply (requeue_step lb _ w e ev s1 HH1); [done|done|]|].
    + intros c' n' Hc'. rewrite Hcl in Hc'. injection Hc' as <- <-. done.
    + intros _ s' [HW [Hf Hback Hleft]]. split; [done|]. by split.
Qed.

(** The event of a core tells its recorder when it ran. *)
Lemma report_spec s r rc e o cyc :
  RecordersOk lb s -> recorders s !! r = Some rc -> lb e <= cyc < limit s ->
  wp (reportEventSimulated r e o cyc) s (fun _ s' => exists rc', s' = set_recorders (insert r rc') s /\ RecordersOk lb s').
Proof.
  intros HR Hrc Hcyc. unfold reportEventSimulated. wp_step. unfold at_recorder, wp at 1. rewrite Hrc.
  assert (forall rc', rec_state rc' = rec_state rc -> (prevRespEvent rc' = prevRespEvent rc \/ prevRespEvent rc' = None) ->
    RecordersOk lb (set_recorders (insert r rc') s)) as Hset.
  { intros rc' Es Ep r0 rc0 e0 Hr0 He0. cbn in Hr0 |- *. apply lookup_insert_Some in Hr0 as [[<- <-]|[Hne Hr0]]; [|eauto].
    rewrite Es. destruct Ep as [Ep|Ep]; [|congruence]. rewrite Ep in He0. eauto. }
  wp_step. wp_step; [intros Hp%bool_decide_eq_true; wp_step|intros _].
  { destruct (HR r rc e Hrc Hp) as [Hd|Hl]; [by rewrite Hd|lia]. }
  all: unfold set_recorder; wp_step; unfold set_recorders; rewrite (alter_known _ _ _ _ Hrc); eexists; (split; [reflexivity|]);
    apply Hset; [done|]; cbn; case_decide; auto.
Qed.

Lemma core_event_step w e ev s r o x :
  Handling lb (fun c => begins c ev) w e ev s -> class ev = TimingCoreEvent r o x -> lat ev + postDelay ev + 1 <= w ->
  wp (_ ← set_event e (set_class (TimingCoreEvent r o (curCycle s)));
      _ ← reportEventSimulated r e o (curCycle s);
      done e (curCycle s)) s (fun _ s' => WellFormed lb s' /\ Step s s').
Proof.
  intros HH Hcl Hw. pose proof (h_event _ _ _ _ _ _ HH) as (He & Hst & _). set (cl1 := TimingCoreEvent r o (curCycle s)).
  assert (class_sim (class ev) cl1) as Hsim by (by rewrite Hcl).
  wp_step. eapply wp_set_event; [done|].
  pose proof (handling_class lb _ w e ev s cl1 HH Hsim) as HH1. destruct (class_step s e ev cl1 He Hst Hsim) as [Hback Hleft].
  set (s1 := set_events _ s) in *. pose proof HH1 as [HB1 He1 HC1 HR1 Hcyc1 Hbud1].
  destruct (ca_core _ _ _ HC1 e _ r o (curCycle s) (proj1 He1) eq_refl) as [rc Hrc].
  wp_step. eapply wp_mono; [eapply (report_spec s1 r rc e o _ HR1 Hrc); done|].
  intros _ s2 [rc' [-> HR2]]. set (s2 := set_recorders _ s1) in *.
  assert (forall d, begins d ev = 0) as Hb0 by (intros d; unfold begins; by rewrite Hcl).
  assert (lat ev = 0) as Hl0 by (unfold lat; by rewrite Hcl).
  assert (Handling lb (fun c => begins c ev) w e (set_class cl1 ev) s2) as HH2.
  { split; try done; [by apply (base_fields _ _ _ _ s1)|]. destruct HC1 as [Ha Hr Hf Hac Hm Hp Hfull]. split; try done.
    intros y yv r0 o0 x0 Hy Hyc. cbn. apply lookup_insert_is_Some'. right. by eapply Hr. }
  eapply wp_mono; [eapply (done_step lb _ w e _ s2 _ HH2); [done|done| |]|intros _ s' [HW HS]; split; [done|]; by eapply (step_from s2)].
  - change (lat (set_class cl1 ev)) with 0. change (curCycle s) with (curCycle s1). lia.
  - cbn [postDelay set_class]. change (curCycle s) with (curCycle s1). change (events s2) with (events s1). change (top s2) with (top s1). lia.
Qed.

(** ** Running an event *)

(** [simulate] of every class of events. *)
Lemma simulate_spec w e ev s :
  Handling lb (fun c => begins c ev) w e ev s -> (forall c n, class ev = ReplAccessEvent c n -> 0 < n < W32) ->
  lat ev + postDelay ev + 1 <= w -> wp (simulate e (curCycle s)) s (fun _ s' => WellFormed lb s' /\ Step s s').
Proof.
  intros HH Haccs Hw. pose proof (h_event _ _ _ _ _ _ HH) as (He & _ & Hdel).
  destruct (handling_clock _ _ _ _ _ _ HH) as (Hb & H62 & Hw0 & Hcur & _ & Hlat & Hpost).
  pose proof (h_budget _ _ _ _ _ _ HH) as Hbud. pose proof (h_cycle _ _ _ _ _ _ HH) as Hcyc.
  unfold simulate. wp_step. eapply wp_at_event; [done|].
  assert (lat ev = match class ev with WeaveMemAccEvent l => l | _ => 0 end) as El by done.
  destruct (class ev) as [|l|c|c sc|c m|c m|c n|r o x|og] eqn:Hcl; try done.
  - rewrite u64_id by (unfold in_u64, W64; lia).
    eapply (done_step lb (fun c => begins c ev) w e ev s); try done; try lia. intros d. unfold begins. by rewrite Hcl.
  - by eapply hit_step.
  - by eapply miss_start_step.
  - by eapply miss_response_step.
  - by eapply miss_writeback_step.
  - eapply repl_step; try done. by eapply Haccs.
  - by eapply core_event_step.
  - eapply (done_step lb (fun c => begins c ev) w e ev s); try done; try lia. intros d. unfold begins. by rewrite Hcl.
Qed.

(** Time goes on while no event is in between. *)
Lemma advance s n :
  WellFormed lb s -> curCycle s <= n -> (forall e ev, events s !! e = Some ev -> state ev = EV_QUEUED -> n <= privCycle ev) ->
  WellFormed lb (set_curCycle n s).
Proof.
  intros [[HE HQ Hb Hq Hn Hh Hp Hc] [HC HR]] Hle Hall. split; [|split; [|exact HR]].
  - split; cbn [events pq curCycle limit lastLimit inCSim phaseLength set_curCycle]; try done;
      try change (top (set_curCycle n s)) with (top s).
    + etrans; [done|]. apply Z.div_le_mono; lia.
    + intros e ev He Hs. destruct (Hq _ _ He Hs) as (? & ? & ?). specialize (Hall _ _ He Hs). lia.
    + intros e ev He Hs. specialize (Hh _ _ He Hs). lia.
    + intros c t Hct. by apply elem_of_nil in Hct.
    + naive_solver lia.
  - destruct HC as [Ha Hr Hf Hac Hm Hpn Hfull]. split; try done. intros c tc Hc'. specialize (Hf _ _ Hc'). cbn. lia.
Qed.

Lemma left_mono cur cur' lim E : cur <= cur' -> left cur' lim E <= left cur lim E.
Proof.
  intros Hle. unfold left. induction E as [|k x E Hk IH] using map_ind; [done|].
  rewrite !map_sum_insert by done. enough (left_of cur' lim x <= left_of cur lim x) by lia.
  unfold left_of. destruct (state x); lia.
Qed.

(** The event that comes out of the queue begins. *)
Lemma begin_event s q e ev :
  WellFormed lb s -> events s !! e = Some ev -> state ev = EV_QUEUED -> privCycle ev = curCycle s -> curCycle s < limit s ->
  (exists L, QueueRep PQ_BLOCKS q L (delete e (queued (events s)))) -> curBlock q <= curCycle s / 64 ->
  Handling lb (fun c => begins c ev) (lat ev + postDelay ev + 1) e (set_state EV_RUNNING ev)
    (set_events (insert e (set_state EV_RUNNING ev)) (set_pq q s)).
Proof.
  intros [HB [HC HR]] He Hst Hpc Hlim HQ Hblk. pose proof HB as [HE _ Hb Hq Hn Hh Hp Hc].
  pose proof (ev_ok _ _ _ _ HE _ _ He) as Hok. destruct (Hq _ _ He Hst) as (_ & Hlb & Htop).
  pose proof (ok_lat _ _ _ Hok) as [Hlat _]. pose proof (ok_post _ _ _ Hok) as [Hpost _].
  assert (class ev <> DelayEvent) as Hdel by (intros Hd; destruct (ok_delay _ _ _ Hok Hd); done).
  set (ev1 := set_state EV_RUNNING ev). pose proof (set_state_same EV_RUNNING ev) as Hs.
  assert (budget (<[e:=ev1]> (events s)) = budget (events s) - (lat ev + postDelay ev + 1)) as Eb.
  { rewrite (budget_update _ _ _ ev1 He). unfold budget_of. rewrite Hst. cbn. lia. }
  split; [| |destruct HC as [Ha Hr Hf Hac Hm Hpn Hfull]|done|cbn; lia|].
  - split; cbn [events pq curCycle limit lastLimit inCSim phaseLength set_events set_pq]; rewrite ?Eb;
      try change (top (set_events _ (set_pq q s))) with (top s).
    + eapply (events_switch lb ∅ {[e]} _ e ev ev1); try done; try (by rewrite Hst). set_solver.
    + by rewrite queued_other.
    + done.
    + intros x y [[<- <-]|[Hne Hx]]%lookup_insert_Some Hsx; [done|]. destruct (Hq _ _ Hx Hsx) as (? & ? & ?). lia.
    + intros x y [[<- <-]|[Hne Hx]]%lookup_insert_Some Hsx; [done|]. destruct (Hn _ _ Hx Hsx) as (? & ?). lia.
    + intros x y [[<- <-]|[Hne Hx]]%lookup_insert_Some Hsx; [done|eauto].
    + intros c t Hct. by apply elem_of_nil in Hct.
    + naive_solver lia.
  - split_and!; [apply lookup_insert_eq|done|done].
  - split; cbn [curCycle events tcaches recorders set_events set_pq]; try change (top (set_events _ (set_pq q s))) with (top s); rewrite ?Eb; try done.
    + intros x y d Hx Hy. destruct (update_back _ _ _ _ _ _ He Hs Hx) as (y0 & Hx0 & Hsy & _). apply (Ha x y0 d Hx0).
      rewrite <- Hy. unfold accessed. pose proof (same_class _ _ Hsy). destruct (class y0), (class y); simpl in *; congruence.
    + intros x y r o z Hx Hy. destruct (update_back _ _ _ _ _ _ He Hs Hx) as (y0 & Hx0 & Hsy & _).
      pose proof (same_class _ _ Hsy) as Hcs. rewrite Hy in Hcs. destruct (class y0) eqn:Ey; simpl in Hcs; try done.
      destruct Hcs as [-> ->]. by eapply Hr.
    + intros c tc Hct. destruct (Hac _ _ Hct). lia.
    + intros c tc Hct. destruct (Hm _ _ Hct) as (? & ? & ?). split; [done|]. split; [done|].
      rewrite (active_start lb [] ∅ (events s) e ev ev1 c HE He Hs); [lia|by rewrite Hst|done|].
      intros c' m Hcm. eapply (release_after lb [] ∅ (events s) e ev c' m); try done. by rewrite Hst.
    + intros c tc Hct. destruct (Hpn _ _ Hct) as [Hnd Hin]. split; [done|]. intros x. rewrite Hin.
      destruct (decide (x = e)) as [->|Hne]; [|by rewrite lookup_insert_ne].
      split; intros (y & Hy & Hys & _); exfalso; [congruence|]. rewrite lookup_insert_eq in Hy. by injection Hy as <-.
  - cbn [curCycle events set_events set_pq]. change (top (set_events _ (set_pq q s))) with (top s). rewrite Eb. lia.
Qed.

Lemma event_run_spec s q e ev :
  WellFormed lb s -> events s !! e = Some ev -> state ev = EV_QUEUED -> privCycle ev = curCycle s -> curCycle s < limit s ->
  (exists L, QueueRep PQ_BLOCKS q L (delete e (queued (events s)))) -> curBlock q <= curCycle s / 64 ->
  wp (run e (curCycle s)) (set_pq q s) (fun _ s' => WellFormed lb s' /\
    curCycle s' = curCycle s /\ limit s' = limit s /\ lastLimit s' = lastLimit s /\ phaseLength s' = phaseLength s /\ logVec s' = logVec s /\
    (forall x y', events s' !! x = Some y' -> exists y, events s !! x = Some y /\ same_event y y') /\
    left (curCycle s) (limit s) (events s') < left (curCycle s) (limit s) (events s)).
Proof.
  intros HW He Hst Hpc Hlim HQ Hblk. pose proof (begin_event s q e ev HW He Hst Hpc Hlim HQ Hblk) as HH.
  pose proof HW as [HB _]. pose proof (ev_ok _ _ _ _ (base_events _ _ _ _ _ HB) _ _ He) as Hok.
  assert (class ev <> DelayEvent) as Hdel by (intros Hd; destruct (ok_delay _ _ _ Hok Hd); done).
  destruct (base_queued _ _ _ _ _ HB _ _ He Hst) as (_ & Hlb & _).
  unfold run. wp_step. eapply wp_at_event; [done|]. do 2 wp_step; [by rewrite Hst|].
  wp_step. eapply wp_set_event; [done|]. set (ev1 := set_state EV_RUNNING ev) in *. set (s1 := set_events _ (set_pq q s)) in *.
  wp_step. wp_step. { apply Z.leb_le. pose proof (ok_min _ _ _ Hok Hdel). lia. }
  change (curCycle s) with (curCycle s1). eapply wp_mono.
  - eapply (simulate_spec _ e ev1 s1 HH); [|done]. intros c n Hc. eapply (ok_accs _ _ _ Hok c n); [done|by rewrite Hst].
  - intros _ s' [HW' [(E1 & E2 & E3 & E4 & E5) Hback Hleft]]. split_and!; try done.
    + intros x y' Hx. destruct (Hback _ _ Hx) as (y1 & Hy1 & Hs1).
      destruct (update_back _ _ _ _ _ _ He (set_state_same EV_RUNNING ev) Hy1) as (y & Hy & Hs & _).
      exists y. split; [done|]. by eapply same_event_trans.
    + change (limit s1) with (limit s) in *. change (curCycle s1) with (curCycle s) in *. cbn [events s1 set_events] in Hleft.
      change (events (set_pq q s)) with (events s) in Hleft.
      rewrite (left_update _ _ _ _ _ ev1 He) in Hleft. unfold left_of in Hleft. rewrite Hst in Hleft. cbn in Hleft. lia.
Qed.

(** ** The loop *)

(** What a stretch of the simulation does; [l] are the runs of it, the latest first. *)
Record Ran (s s' : ContentionSim) (l : list (Z * Z)) : Prop := {
  ran_fields : limit s' = limit s /\ lastLimit s' = lastLimit s /\ phaseLength s' = phaseLength s;
  ran_log : logVec s' = l ++ logVec s;
  ran_back x y' : events s' !! x = Some y' -> exists y, events s !! x = Some y /\ same_event y y';
  ran_cycles c e : (c, e) ∈ l -> curCycle s <= c < limit s /\ lb e <= c /\ is_Some (events s !! e);
  ran_sorted : StronglySorted (fun x y => y.1 <= x.1) l;
  ran_order l1 c e l2 p : l = l1 ++ (c, e) :: l2 -> tc (edge (events s)) p e -> (p ∉ l1.*2) /\ events s' !! p = None
}.

Lemma ran_nil s : Ran s s [].
Proof.
  split; try done.
  - intros x y' Hx. eauto using same_event_refl.
  - intros c e H. by apply elem_of_nil in H.
  - constructor.
  - by intros [|z l1] c e l2 p H.
Qed.

Lemma idle_waiting E e ev : EventsInv lb [] ∅ E -> E !! e = Some ev -> waiting (state ev) = true.
Proof.
  intros HE He. destruct (waiting (state ev)) eqn:Hw; [done|].
  pose proof (ev_running _ _ _ _ HE _ _ He Hw) as H. by apply not_elem_of_empty in H.
Qed.

(** The ancestors of an event that wait keep all that is between waiting. *)
Lemma path_persists s s' p e :
  EventsInv lb [] ∅ (events s') -> (forall x y', events s' !! x = Some y' -> exists y, events s !! x = Some y /\ same_event y y') ->
  tc (edge (events s)) p e -> is_Some (events s' !! p) -> tc (edge (events s')) p e.
Proof.
  intros HE Hback.
  assert (forall a b, edge (events s) a b -> is_Some (events s' !! a) -> edge (events s') a b /\ is_Some (events s' !! b)) as Hstep.
  { intros a b (av & Ha & _ & Hb) [av' Ha']. destruct (Hback _ _ Ha') as (av0 & Ha0 & Hs).
    assert (av0 = av) as -> by congruence. pose proof (idle_waiting _ _ _ HE Ha') as Hw.
    assert (state av' <> EV_DONE) as Hd by (by intros E; rewrite E in Hw). rewrite <- (same_kids _ _ Hs) in Hb.
    split; [by exists av'|]. destruct (ev_edges _ _ _ _ HE _ _ _ Ha' Hd Hb) as (bv & ? & _). by exists bv. }
  induction 1 as [a b H|a b c H _ IH]; intros Ha; destruct (Hstep _ _ H Ha) as [He Hb].
  - by apply tc_once.
  - eapply tc_l; [exact He|]. by apply IH.
Qed.

(** ** The latency counters *)

(** The response of a miss depends on the event that started it. *)
Definition responses_follow (E : gmap Z TimingEvent) : Prop := forall e ev c m,
  E !! e = Some ev -> class ev = MissResponseEvent c m -> is_Some (E !! m) -> tc (edge E) m e.

(** All that is added to the counters comes from reading freed events. *)
Definition freed_reads (ok : Prop) (P P' : gmap Z (list (option Z) * list (option Z))) : Prop := forall c q',
  P' !! c = Some q' -> exists q n k, P !! c = Some q /\ q'.2 = replicate n None ++ q.2 /\ (ok -> q'.1 = replicate k None ++ q.1).

Lemma freed_reads_refl ok P : freed_reads ok P P.
Proof. intros c q Hq. by exists q, 0%nat, 0%nat. Qed.

Lemma freed_reads_run (ok : Prop) E cl cyc P0 P P' :
  freed_reads ok P0 P -> sampled E cl cyc P P' ->
  (forall c m, cl = MissWritebackEvent c m -> E !! m = None) -> (ok -> forall c m, cl = MissResponseEvent c m -> E !! m = None) ->
  freed_reads ok P0 P'.
Proof.
  intros HP HS Hwb Hresp c q' Hq'.
  assert (forall m, E !! m = None -> amount E m cyc = None) as Hnone by (intros m Hm; unfold amount, startCycle_of; by rewrite Hm).
  destruct cl as [| | | |d m|d m| | |]; cbn in HS; try (subst P'; by apply HP).
  - subst P'. apply lookup_alter_Some in Hq' as [(<- & p & Hp & ->)|[_ Hq']]; [|by apply HP].
    destruct (HP _ _ Hp) as (q & n & k & Hq & E2 & E1). exists q, n, (Datatypes.S k). split_and!; [done..|].
    intros Hok. cbn. by rewrite Hnone, E1 by eauto.
  - destruct HS as [-> | ->]; [by apply HP|]. apply lookup_alter_Some in Hq' as [(<- & p & Hp & ->)|[_ Hq']]; [|by apply HP].
    destruct (HP _ _ Hp) as (q & n & k & Hq & E2 & E1). exists q, (Datatypes.S n), k. split_and!; [done| |done].
    cbn. by rewrite Hnone, E2 by eauto.
Qed.

(** The event that started a miss is gone when its write-back, or its response, runs. *)
Lemma writeback_freed E e ev c m :
  EventsInv lb [] ∅ E -> E !! e = Some ev -> state ev = EV_QUEUED -> class ev = MissWritebackEvent c m -> E !! m = None.
Proof.
  intros HE He Hst Hc. assert (pending E m = false) as Hp by (eapply (release_after lb [] ∅ E e ev c m); [done..|by rewrite Hst]).
  unfold pending in Hp. destruct (E !! m) as [mv|] eqn:Hm; [|done]. by rewrite (idle_waiting _ _ _ HE Hm) in Hp.
Qed.

Lemma response_freed s s1 e ev c m :
  responses_follow (events s) -> EventsInv lb [] ∅ (events s1) ->
  (forall x y', events s1 !! x = Some y' -> exists y, events s !! x = Some y /\ same_event y y') ->
  events s1 !! e = Some ev -> state ev = EV_QUEUED -> class ev = MissResponseEvent c m -> events s1 !! m = None.
Proof.
  intros Hf HE Hback He Hst Hc. destruct (events s1 !! m) as [mv|] eqn:Hm; [exfalso|done].
  destruct (Hback _ _ He) as (ev0 & He0 & Hs). destruct (Hback _ _ Hm) as (mv0 & Hm0 & _).
  assert (class ev0 = MissResponseEvent c m) as Hc0.
  { pose proof (same_class _ _ Hs) as H. rewrite Hc in H. destruct (class ev0); simpl in H; congruence. }
  assert (tc (edge (events s1)) m e) as Hp by (eapply (path_persists s s1); [done|done|by eapply Hf|by rewrite Hm]).
  destruct (path_last _ _ _ Hp) as [a Ha]. destruct (started_alone _ _ _ _ _ _ HE He) as (_ & _ & Halone); [by rewrite Hst|].
  by apply (Halone a).
Qed.

(** A run is put in front of what follows. *)
Lemma ran_cons s s1 s' cyc e ev l :
  EventsInv lb [] ∅ (events s) -> EventsInv lb [] ∅ (events s1) -> events s !! e = Some ev -> state ev = EV_QUEUED ->
  curCycle s <= cyc < limit s -> lb e <= cyc -> cyc <= curCycle s1 ->
  limit s1 = limit s /\ lastLimit s1 = lastLimit s /\ phaseLength s1 = phaseLength s -> logVec s1 = (cyc, e) :: logVec s ->
  (forall x y', events s1 !! x = Some y' -> exists y, events s !! x = Some y /\ same_event y y') ->
  Ran s1 s' l -> Ran s s' (l ++ [(cyc, e)]).
Proof.
  intros HE HE1 He Hst Hcyc Hlb Hcyc1 (E1 & E2 & E3) El Hback [(F1 & F2 & F3) Fl Fback Fcyc Fsort Ford].
  split.
  - split_and!; congruence.
  - rewrite Fl, El. by rewrite <- app_assoc.
  - intros x y' Hx. destruct (Fback _ _ Hx) as (y1 & Hy1 & Hs1). destruct (Hback _ _ Hy1) as (y & Hy & Hs).
    exists y. split; [done|]. by eapply same_event_trans.
  - intros c x [Hin|[= -> ->]%list_elem_of_singleton]%elem_of_app; [|split_and!; [lia..|done|by exists ev]].
    destruct (Fcyc _ _ Hin) as (Hc & Hl & [y1 Hy1]). destruct (Hback _ _ Hy1) as (y & Hy & _).
    split_and!; try lia. by exists y.
  - clear - Fsort Fcyc Hcyc1. assert (forall x, x ∈ l -> cyc <= x.1) as Hall.
    { intros [c x] Hin. destruct (Fcyc _ _ Hin) as (? & _). simpl. lia. }
    clear Fcyc. induction Fsort as [|x l Hl IH Hx]; cbn; [repeat constructor|].
    constructor; [apply IH; intros; apply Hall; by right|]. apply Forall_app. split; [done|].
    constructor; [|constructor]. simpl. apply Hall. by left.
  - intros l1 c x l2 p Heq Hp. destruct (decide (l2 = [])) as [->|Hne].
    + apply app_inj_tail in Heq as [-> [= <- <-]]. exfalso.
      destruct (path_last _ _ _ Hp) as [a Ha].
      destruct (started_alone _ _ _ _ _ _ HE He) as (_ & _ & Halone); [by rewrite Hst|]. by apply (Halone a).
    + destruct (exists_last Hne) as (l2' & z & ->). rewrite app_comm_cons, app_assoc in Heq.
      apply app_inj_tail in Heq as [-> _]. destruct (events s1 !! p) as [pv|] eqn:Hpv.
      * apply (Ford l1 c x l2' p eq_refl). eapply path_persists; eauto.
      * split; [|destruct (events s' !! p) as [y'|] eqn:E; [|done]; destruct (Fback _ _ E) as (? & ? & _); congruence].
        intros ([c' p'] & Heq & Hin)%list_elem_of_fmap. simpl in Heq. subst p'.
        destruct (Fcyc c' p) as (_ & _ & [? ?]); [apply elem_of_app; by left|]. congruence.
Qed.

Lemma wellformed_log s f : WellFormed lb s -> WellFormed lb (set_logVec f s).
Proof.
  intros [HB [HC HR]]. split; [by apply (base_fields _ _ _ _ s)|]. split; [|done]. destruct HC. by split.
Qed.

Lemma set_curCycle_same s : set_curCycle (curCycle s) s = s.
Proof. by destruct s. Qed.

Lemma set_pq_same s : set_pq (pq s) s = s.
Proof. by destruct s. Qed.

(** The head of the queue. *)
Lemma head_spec s (Q : Z -> ContentionSim -> Prop) :
  (exists L, QueueRep PQ_BLOCKS (pq s) L (queued (events s))) ->
  (forall n, (n = 0 <-> queued (events s) = ∅) -> Q n s) -> wp pq_size s Q.
Proof.
  intros [L HR] HQ. unfold pq_size. wp_step. apply HQ. unfold size. rewrite (rep_elems _ _ _ _ HR).
  rewrite <- map_size_empty_iff. lia.
Qed.

Lemma first_spec s (Q : Z -> ContentionSim -> Prop) :
  (exists L, QueueRep PQ_BLOCKS (pq s) L (queued (events s))) -> queued (events s) <> ∅ ->
  (forall c e ev, events s !! e = Some ev -> state ev = EV_QUEUED -> privCycle ev = c ->
    (forall e' ev', events s !! e' = Some ev' -> state ev' = EV_QUEUED -> c <= privCycle ev') -> Q c s) ->
  wp pq_firstCycle s Q.
Proof.
  intros [L HR] Hne HQ. destruct (firstCycle_spec PQ_BLOCKS ltac:(done) ltac:(done) _ _ _ HR Hne) as (o & c & Hf & Ho & Hmin).
  apply queued_Some in Ho as (ev & He & Hs & Hp).
  unfold pq_firstCycle, wp, zoom. rewrite Hf, set_pq_same. apply (HQ c o ev); try done.
  intros e' ev' He' Hs'. apply (Hmin e'). apply queued_Some. eauto.
Qed.

(** The events that are still to run, with their cycles if they have one. *)
Definition track (ev : TimingEvent) : option (option Z) :=
  match class ev, state ev with DelayEvent, _ => None | _, EV_QUEUED => Some (Some (privCycle ev)) | _, EV_NONE => Some None | _, _ => None end.

Lemma track_tracked ev o : track ev = Some o -> tracked o ev.
Proof. unfold track, tracked. destruct (class ev), (state ev); intros E; try done; injection E as <-; auto. Qed.

(** What a run of [e] leaves alone: the recorders, but for that of a core's event, and the other events
    of the queue; those that wait for their parents are still to run.  A core's event is gone. *)
Definition after_run (e : Z) (ev : TimingEvent) (cyc : Z) (s s' : ContentionSim) : Prop :=
  recorders s' = match class ev with TimingCoreEvent r o _ => alter (reported e o cyc) r (recorders s) | _ => recorders s end /\
  (forall r o t, class ev = TimingCoreEvent r o t -> events s' !! e = None) /\
  forall x xv o, x <> e -> events s !! x = Some xv -> track xv = Some o -> exists xv', events s' !! x = Some xv' /\ tracked o xv'.
End main.

(** A round of the loop, from [s] to [s1]. *)
Record Round (e : Z) (ev : TimingEvent) (cyc : Z) (s s1 : ContentionSim) : Prop := {
  rd_cycle : cyc <= curCycle s1;
  rd_log : logVec s1 = (cyc, e) :: logVec s;
  rd_fields : limit s1 = limit s /\ lastLimit s1 = lastLimit s /\ phaseLength s1 = phaseLength s;
  rd_queued x xv : events s1 !! x = Some xv -> state xv = EV_QUEUED -> curCycle s1 <= privCycle xv;
  rd_back x y' : events s1 !! x = Some y' -> exists y, events s !! x = Some y /\ same_event y y';
  rd_after : after_run e ev cyc s s1;
  rd_samples : sampled (events s) (class ev) cyc (samples <$> tcaches s) (samples <$> tcaches s1)
}.

Section loop.

(** One round of the loop; the run may be judged by later cycles [lb'], if the state
    is in order with them. *)
Lemma phase_round_gen lb s now (P : Z -> (Z -> Z) -> Prop) (Q : unit -> ContentionSim -> Prop) (k : sim unit) :
  WellFormed lb (set_curCycle now s) -> now <= curCycle s ->
  (forall e ev, events s !! e = Some ev -> state ev = EV_QUEUED -> curCycle s <= privCycle ev) ->
  (exists e ev, events s !! e = Some ev /\ state ev = EV_QUEUED /\ privCycle ev < limit s) ->
  (forall e ev, events s !! e = Some ev -> state ev = EV_QUEUED -> curCycle s <= privCycle ev < limit s ->
     WellFormed lb (set_curCycle (privCycle ev) s) -> exists lb', WellFormed lb' (set_curCycle (privCycle ev) s) /\ P e lb') ->
  (forall s1 e ev cyc lb', P e lb' -> WellFormed lb' (set_curCycle cyc s1) -> events s !! e = Some ev -> state ev = EV_QUEUED ->
     privCycle ev = cyc -> curCycle s <= cyc < limit s -> lb' e <= cyc -> Round e ev cyc s s1 ->
     left cyc (limit s) (events s1) < left now (limit s) (events s) -> wp k s1 Q) ->
  wp (domCycle ← gets curCycle;
      '(te, cyc) ← zoom pq set_pq (dequeue PQ_BLOCKS);
      _ ← assert_ (domCycle <=? cyc);
      _ ← modify (set_curCycle cyc);
      _ ← run te cyc;
      n ← pq_size;
      newCycle ← (if n =? 0 then gets limit else pq_firstCycle);
      _ ← assert_ (cyc <=? newCycle);
      _ ← modify (set_curCycle newCycle);
      _ ← modify (set_logVec (cons (cyc, te)));
      k) s Q.
Proof.
  intros HW Hnow Hcur (e0 & ev0 & He0 & Hs0 & Hl0) Hpick Hk.
  destruct (base_queue _ _ _ _ _ (proj1 HW)) as [L HR]. cbn in HR.
  assert (queued (events s) !! e0 = Some (privCycle ev0)) as Hq0 by (apply queued_Some; eauto).
  assert (queued (events s) <> ∅) as Hne by (intros E; rewrite E, lookup_empty in Hq0; done).
  do 2 wp_step. wp_step. wp_step.
  eapply wp_mono; [eapply (dequeue_spec PQ_BLOCKS ltac:(done) ltac:(done) (pq s) L _ HR Hne)|].
  intros [e cyc] q (Hin & Hmin & HQ & Hblk & _). cbn [fst snd] in *. specialize (Hmin _ _ Hq0) as Hle.
  apply queued_Some in Hin as (ev & He & Hst & Hp). pose proof (Hcur _ _ He Hst) as Hcyc.
  wp_step. wp_step; [apply Z.leb_le; lia|]. do 2 wp_step. wp_step.
  assert (WellFormed lb (set_curCycle cyc s)) as HW0.
  { apply (advance lb (set_curCycle now s)); [done|cbn; lia|]. intros x y Hx Hy. apply (Hmin x). apply queued_Some. eauto. }
  destruct (Hpick e ev He Hst ltac:(lia) ltac:(by rewrite Hp)) as (lb' & HWp & HP). rewrite Hp in HWp.
  destruct (base_queued _ _ _ _ _ (proj1 HWp) _ _ He Hst) as (_ & Hlb & _).
  eapply wp_mono.
  { apply wp_wlp; [apply wp_wlp|].
    - eapply (event_run_spec lb' (set_curCycle cyc s) q e ev HWp); cbn; [done|done|lia|lia|done|lia].
    - by apply (run_gone e cyc _ ev).
    - apply (run_frame (delete e (omap track (events s))) (recorders s) (samples <$> tcaches s) e cyc _ ev);
        [apply lookup_delete_eq| |done].
    split; [done|]. intros x o [_ (xv & Hx & Ht)%lookup_omap_Some]%lookup_delete_Some. exists xv. split; [done|]. by apply track_tracked. }
  intros _ s2 [[(HW2 & E1 & E2 & E3 & E4 & E5 & Hback & Hleft) Hgone] (P' & HP' & [HR2 EP'] & HK2)]. cbn in E1, E2, E3, E4, E5, Hback, Hleft.
  assert (forall new, cyc <= new -> (forall x y, events s2 !! x = Some y -> state y = EV_QUEUED -> new <= privCycle y) ->
    wp (_ ← assert_ (cyc <=? new); _ ← modify (set_curCycle new); _ ← modify (set_logVec (cons (cyc, e))); k) s2 Q) as Hend.
  { intros new Hnew Hall. wp_step. wp_step; [by apply Z.leb_le|]. do 4 wp_step.
    eapply (Hk _ e ev cyc lb'); cbn; try done; try lia.
    - assert (set_curCycle cyc (set_logVec (cons (cyc, e)) (set_curCycle new s2)) = set_logVec (cons (cyc, e)) (set_curCycle (curCycle s2) s2)) as ->
        by (rewrite E1; done).
      rewrite set_curCycle_same. by apply wellformed_log.
    - split; cbn; try done; [by rewrite E5| |by rewrite EP']. split; [done|]. split; [done|]. intros x xv o Hne' Hx Ht.
      apply HK2. rewrite lookup_delete_ne by done. apply lookup_omap_Some. eauto.
    - pose proof (left_mono now cyc (limit s) (events s) ltac:(lia)). lia. }
  wp_step. eapply head_spec; [apply (proj1 HW2)|]. intros n Hn. wp_step. destruct (Z.eqb_spec n 0) as [Hz|Hz].
  - wp_step. apply Hend; [lia|]. intros x y Hx Hy.
    assert (queued (events s2) !! x = Some (privCycle y)) as Hq by (apply queued_Some; eauto).
    rewrite (proj1 Hn Hz), lookup_empty in Hq. done.
  - eapply first_spec; [apply (proj1 HW2)|by rewrite <- Hn|]. intros c x xv Hx Hxs <- Hall. apply Hend; [|done].
    destruct (base_queued _ _ _ _ _ (proj1 HW2) _ _ Hx Hxs) as (? & _). lia.
Qed.

(** What the rounds keep, of the cycles of the bound phase and the state, holds at the end of the loop. *)
Lemma loop_gen (I : (Z -> Z) -> ContentionSim -> Prop) :
  (forall lb s e ev, I lb s -> WellFormed lb (set_curCycle (privCycle ev) s) -> events s !! e = Some ev -> state ev = EV_QUEUED ->
     curCycle s <= privCycle ev < limit s -> exists lb', WellFormed lb' (set_curCycle (privCycle ev) s) /\
       forall s1, WellFormed lb' (set_curCycle (privCycle ev) s1) -> lb' e <= privCycle ev -> Round e ev (privCycle ev) s s1 -> I lb' s1) ->
  forall fuel lb s now, WellFormed lb (set_curCycle now s) -> now <= curCycle s -> now <= limit s ->
  (forall e ev, events s !! e = Some ev -> state ev = EV_QUEUED -> curCycle s <= privCycle ev) ->
  left now (limit s) (events s) <= Z.of_nat fuel -> I lb s ->
  wp (phase_loop fuel) s (fun _ s' => exists (lb' : Z -> Z) (now' : Z), now' <= limit s' /\ limit s' = limit s /\
    WellFormed lb' (set_curCycle now' s') /\ I lb' s' /\
    forall e ev, events s' !! e = Some ev -> state ev = EV_QUEUED -> limit s' <= privCycle ev).
Proof.
  intros HI. induction fuel as [|fuel IH]; intros lb s now HW Hnow Hlim Hcur Hf Hinv;
    pose proof (base_queue _ _ _ _ _ (proj1 HW)) as HQ; cbn in HQ.
  all: assert ((forall e ev, events s !! e = Some ev -> state ev = EV_QUEUED -> limit s <= privCycle ev) ->
    exists lb' now', now' <= limit s /\ limit s = limit s /\ WellFormed lb' (set_curCycle now' s) /\ I lb' s /\
    forall e ev, events s !! e = Some ev -> state ev = EV_QUEUED -> limit s <= privCycle ev) as Hstop
    by (intros Hall; exists lb, now; auto).
  all: cbn [phase_loop]; wp_step; eapply head_spec; [done|]; intros n Hn; destruct (Z.eqb_spec n 0) as [Hz|Hz].
  1, 3: wp_step; wp_step; apply Hstop; intros x y Hx Hy;
    assert (queued (events s) !! x = Some (privCycle y)) as Hq by (apply queued_Some; eauto);
    rewrite (proj1 Hn Hz), lookup_empty in Hq; done.
  all: wp_step; wp_step; eapply first_spec; [done|by rewrite <- Hn|]; intros c x xv Hx Hxs <- Hall; do 2 wp_step; wp_step;
    destruct (Z.ltb_spec (privCycle xv) (limit s)) as [Hlt|Hge]; cbn [negb].
  2, 4: wp_step; apply Hstop; intros y yv Hy Hys; specialize (Hall _ _ Hy Hys); lia.
  - exfalso. assert (left_of now (limit s) xv <= left now (limit s) (events s)) as Hle.
    { apply (map_sum_lookup (fun _ => left_of now (limit s)) (events s) x xv); [intros; apply left_of_nonneg|done]. }
    unfold left_of in Hle. rewrite Hxs in Hle. lia.
  - eapply (phase_round_gen lb s now (fun e lb' => forall ev s1, events s !! e = Some ev -> WellFormed lb' (set_curCycle (privCycle ev) s1) ->
      lb' e <= privCycle ev -> Round e ev (privCycle ev) s s1 -> I lb' s1)); [done|done|done|by eauto| |].
    + intros e ev He Hst Hcyc HWe. destruct (HI lb s e ev) as (lb' & HW' & Hnext); [done..|]. exists lb'. split; [done|].
      intros ev' s1 He'. assert (ev' = ev) as -> by congruence. apply Hnext.
    + intros s1 e ev cyc lb' HP HW1 He Hst <- Hcyc Hlb HR Hleft. destruct (rd_fields _ _ _ _ _ HR) as (E1 & _ & _).
      eapply wp_mono; [eapply (IH lb' s1 (privCycle ev)); try done; rewrite ?E1; try lia; [apply HR|apply HR|by eapply HP]|].
      intros _ s' (lb2 & now' & Hn' & El & Hrest). exists lb2, now'. by rewrite <- E1.
Qed.

(** ** A phase *)

Lemma phase_gen (I : (Z -> Z) -> ContentionSim -> Prop) :
  (forall lb s e ev, I lb s -> WellFormed lb (set_curCycle (privCycle ev) s) -> events s !! e = Some ev -> state ev = EV_QUEUED ->
     curCycle s <= privCycle ev < limit s -> exists lb', WellFormed lb' (set_curCycle (privCycle ev) s) /\
       forall s1, WellFormed lb' (set_curCycle (privCycle ev) s1) -> lb' e <= privCycle ev -> Round e ev (privCycle ev) s s1 -> I lb' s1) ->
  forall lb s, WellFormed lb s -> curCycle s <= limit s -> I lb s ->
  wp simulatePhaseThread s (fun _ s' => exists (lb' : Z -> Z) (s1 : ContentionSim), s' = set_curCycle (limit s) s1 /\ limit s1 = limit s /\
    WellFormed lb' s' /\ I lb' s1 /\ forall e ev, events s1 !! e = Some ev -> state ev = EV_QUEUED -> limit s <= privCycle ev).
Proof.
  intros HI lb s HW Hlim Hinv. unfold simulatePhaseThread. do 3 wp_step. eapply wp_mono.
  - eapply (loop_gen I HI _ lb s (curCycle s)); [by rewrite set_curCycle_same|done|done| | |done].
    + intros e ev He Hs. by apply (base_queued _ _ _ _ _ (proj1 HW) _ _ He Hs).
    + unfold phase_fuel. rewrite Nat2Z.inj_mul, Z2Nat.id by lia. apply map_sum_bound. intros e ev He.
      unfold left_of. destruct (state ev) eqn:Hs; try lia.
      pose proof (base_queued _ _ _ _ _ (proj1 HW) _ _ He Hs). lia.
  - intros _ s' (lb' & now & Hnow & El & HW' & HI' & Hall). do 3 wp_step. rewrite El in *. exists lb', s'. split_and!; try done.
    apply (advance lb' (set_curCycle now s') (limit s)); [done|done|exact Hall].
Qed.

Context (lb : Z -> Z).

(** What the rounds of a phase keep, from the state [s] at its start to [s1]. *)
Definition PhaseInv (s : ContentionSim) (lb1 : Z -> Z) (s1 : ContentionSim) : Prop :=
  lb1 = lb /\ EventsInv lb [] ∅ (events s1) /\
  (exists l0, forall s' l, Ran lb s1 s' l -> Ran lb s s' (l ++ l0)) /\
  freed_reads (responses_follow (events s)) (samples <$> tcaches s) (samples <$> tcaches s1).

Lemma phase_inv_round s lb1 s1 e ev :
  PhaseInv s lb1 s1 -> WellFormed lb1 (set_curCycle (privCycle ev) s1) -> events s1 !! e = Some ev -> state ev = EV_QUEUED ->
  curCycle s1 <= privCycle ev < limit s1 -> exists lb', WellFormed lb' (set_curCycle (privCycle ev) s1) /\
    forall s2, WellFormed lb' (set_curCycle (privCycle ev) s2) -> lb' e <= privCycle ev -> Round e ev (privCycle ev) s1 s2 -> PhaseInv s lb' s2.
Proof.
  intros (-> & HE & [l0 Hran] & Hsamp) HW1 He Hst Hcyc. exists lb. split; [done|]. intros s2 HW2 Hlb HR.
  pose proof (base_events _ _ _ _ _ (proj1 HW2)) as HE2. cbn in HE2. split; [done|]. split; [done|]. split.
  - exists ((privCycle ev, e) :: l0). intros s' l HR'. rewrite cons_middle, app_assoc. apply Hran. destruct HR.
    by eapply (ran_cons lb s1 s2 s').
  - eapply freed_reads_run; [done|apply HR| |].
    + intros c m. by apply (writeback_freed lb _ e ev).
    + intros Hok c m. apply (response_freed lb s s1 e ev); try done. apply (Hran s1 [] (ran_nil lb s1)).
Qed.

Lemma phase_spec s :
  WellFormed lb s -> curCycle s <= limit s ->
  exists s' l, simulatePhaseThread s = Ok (tt, s') /\ WellFormed lb s' /\ curCycle s' = limit s /\ Ran lb s s' l /\
    (forall e ev, events s' !! e = Some ev -> state ev = EV_QUEUED -> limit s <= privCycle ev) /\
    freed_reads (responses_follow (events s)) (samples <$> tcaches s) (samples <$> tcaches s').
Proof.
  intros HW Hlim.
  assert (wp simulatePhaseThread s (fun _ s' => exists l, WellFormed lb s' /\ curCycle s' = limit s /\ Ran lb s s' l /\
    (forall e ev, events s' !! e = Some ev -> state ev = EV_QUEUED -> limit s <= privCycle ev) /\
    freed_reads (responses_follow (events s)) (samples <$> tcaches s) (samples <$> tcaches s'))) as Hwp;
    [|apply wp_ok in Hwp as ([] & s' & H & l & Hl); eauto 10].
  eapply wp_mono.
  - apply (phase_gen (PhaseInv s) (phase_inv_round s) lb s HW Hlim).
    split; [done|]. split; [apply (base_events _ _ _ _ _ (proj1 HW))|]. split; [|apply freed_reads_refl].
    exists []. intros s' l. by rewrite app_nil_r.
  - intros _ s' (lb' & s1 & -> & El & HW' & (-> & _ & [l0 Hran] & Hsamp) & Hall). exists l0. split_and!; try done.
    rewrite <- (app_nil_l l0). destruct (Hran s1 [] (ran_nil lb s1)). by split.
Qed.

(** C9: A weave phase runs to its end.  Whatever graph of events the bound phase
    has recorded (every event with as many parents as edges into it, delays that
    are small against the phase, no access to a cache at cycle 0), no assertion
    fails in [simulatePhaseThread]: not in the events ([run], [parentDone], [done],
    [requeue], [hold]), nor in [enqueue], the calendar queue, the caches or the
    recorders; the loop ends.  Then the domain is at [limit], every event that is
    queued lies in a later phase, and the state is in order for the next one: in
    every cache [activeMisses] is the number of misses in flight, at most [numMSHRs],
    and when an access is held back, all MSHRs are taken by misses that will
    wake it up.  No event that was freed is used, except in two places: the last
    two steps of a miss read [mse->startCycle] for the counters [profMissLat] and
    [profMissRespLat].  Those reads are always of an event that was freed: all
    that a phase adds to [profMissLat] is computed from one, and so is all it adds to
    [profMissRespLat] when the responses depend on the starts of their misses. *)
Theorem phase_completes s :
  WellFormed lb s -> curCycle s <= limit s ->
  exists s', simulatePhaseThread s = Ok (tt, s') /\ WellFormed lb s' /\ curCycle s' = limit s /\
    (forall e ev, events s' !! e = Some ev -> state ev = EV_QUEUED -> limit s <= privCycle ev) /\
    forall c tc, tcaches s' !! c = Some tc ->
      activeMisses tc = active (events s') c /\ activeMisses tc <= numMSHRs tc /\
      (forall e, e ∈ pendingQueue tc <-> exists ev, events s' !! e = Some ev /\ state ev = EV_HELD /\ holder ev = Some c) /\
      (pendingQueue tc <> [] -> activeMisses tc = numMSHRs tc) /\
      exists tc0 n k, tcaches s !! c = Some tc0 /\ profMissLat tc = replicate n None ++ profMissLat tc0 /\
        (responses_follow (events s) -> profMissRespLat tc = replicate k None ++ profMissRespLat tc0).
Proof.
  intros HW Hlim. destruct (phase_spec s HW Hlim) as (s' & l & Hs & HW' & Hc & _ & Hall & Hsamp). exists s'. split_and!; try done.
  destruct HW' as (_ & HC & _). intros c tc Htc.
  destruct (ca_mshrs _ _ _ HC _ _ Htc) as (_ & ? & ?). destruct (ca_pending _ _ _ HC _ _ Htc) as [_ Hin].
  split_and!; [lia|lia|done|by apply (ca_full _ _ _ HC _ _ Htc)|].
  destruct (Hsamp c (samples tc)) as (q & n & k & (tc0 & <- & Htc0)%lookup_fmap_Some & E2 & E1);
    [apply lookup_fmap_Some; eauto|]. by exists tc0, n, k.
Qed.

(** C13: The events of a phase run in order.  Of the runs in the post-mortem log:
    their cycles never go back and lie in the phase; no event runs before the
    cycle it had in the bound phase (contention only adds delay); and an event
    runs after all the events it depends on, through whatever chain of events,
    are done: none of them runs again, and all are gone. *)
Theorem phase_in_order s :
  WellFormed lb s -> curCycle s <= limit s ->
  exists s' l, simulatePhaseThread s = Ok (tt, s') /\ logVec s' = l ++ logVec s /\
    StronglySorted (fun x y => y.1 <= x.1) l /\
    (forall c e, (c, e) ∈ l -> curCycle s <= c < limit s /\ lb e <= c /\ is_Some (events s !! e)) /\
    (forall l1 c e l2 p, l = l1 ++ (c, e) :: l2 -> tc (edge (events s)) p e -> (p ∉ l1.*2) /\ events s' !! p = None).
Proof.
  intros HW Hlim. destruct (phase_spec s HW Hlim) as (s' & l & Hs & _ & _ & [_ Hlog _ Hcyc Hsort Hord] & _).
  exists s', l. split_and!; done.
Qed.
End loop.
