(* ===== verification/CachePort.v ===== *)
(** * The port of a timing cache, and the children of an event
    (timing_cache.cpp, timing_event.h)

    [highPrioAccess] and [tryLowPrioAccess] keep two clocks instead of the set of
    cycles in which the port of the cache is taken; over accesses in the order
    of time they decide as if they kept the set.  The linked blocks in which an
    event keeps its children hold exactly the children that were added. *)

From stdpp Require Import base tactics numbers list gmap sorting.
From Stdlib Require Import ZArith Lia.
From S2P Require Import Prelude PrioQueue TimingEvents WeaveInv Weave.

Open Scope Z_scope.

(** ** Accesses to the port *)

(** A sequence of accesses, of high priority or not, at their cycles. *)
Fixpoint accesses (c : Z) (l : list (bool * Z)) : sim (list Z) :=
  match l with
  | [] => mret []
  | (high, cyc) :: l =>
    r ← (if high : bool then highPrioAccess c cyc else tryLowPrioAccess c cyc);
    rest ← accesses c l;
    mret (r :: rest)
  end.

(** The port with the list of the cycles that are taken: an access of high
    priority gets the first free cycle from now on; one of low priority the
    cycle before, if that is free. *)
Inductive Port : list Z -> list (bool * Z) -> list Z -> Prop :=
| port_end U : Port U [] []
| port_high U cyc r l out :
    cyc <= r -> r ∉ U -> (forall x, cyc <= x < r -> x ∈ U) -> Port (r :: U) l out -> Port U ((true, cyc) :: l) (r :: out)
| port_granted U cyc l out : cyc - 1 ∉ U -> Port (cyc - 1 :: U) l out -> Port U ((false, cyc) :: l) (cyc :: out)
| port_denied U cyc l out : cyc - 1 ∈ U -> Port U l out -> Port U ((false, cyc) :: l) (0 :: out).

(** The two clocks of the cache know enough of the set, from [now] on. *)
Record Clocks (tc : TimingCache) (U : list Z) (now : Z) : Prop := {
  ck_acc : 0 <= lastAccCycle tc;
  ck_used u : u ∈ U -> u <= lastAccCycle tc;
  ck_free : 0 <= lastFreeCycle tc <= lastAccCycle tc /\ lastFreeCycle tc < now;
  ck_free_out : lastFreeCycle tc <> 0 -> lastFreeCycle tc ∉ U;
  ck_gap x : now - 1 <= x <= lastAccCycle tc -> x ∈ U \/ x = lastFreeCycle tc
}.

Definition nondecreasing : list (bool * Z) -> Prop := StronglySorted (fun x y => x.2 <= y.2).

Lemma high_clocks c s tc U now cyc :
  tcaches s !! c = Some tc -> Clocks tc U now -> 2 <= now <= cyc -> cyc < 2 ^ 62 -> lastAccCycle tc < 2 ^ 62 ->
  exists r tc', highPrioAccess c cyc s = Ok (r, set_tcaches (insert c tc') s) /\ Clocks tc' (r :: U) cyc /\
    cyc <= r /\ (r ∉ U) /\ (forall x, cyc <= x < r -> x ∈ U) /\ lastAccCycle tc' <= Z.max cyc (lastAccCycle tc + 1).
Proof.
  intros Hc [Ha Hu [Hf1 Hf2] Hfo Hg] Hnow Hcyc H62.
  set (r := Z.max cyc (lastAccCycle tc + 1)).
  set (f := if decide (lastAccCycle tc < cyc - 1) then cyc - 1 else lastFreeCycle tc).
  exists r, (set_lastAccCycle r (set_lastFreeCycle f tc)).
  assert (highPrioAccess c cyc s = Ok (r, set_tcaches (insert c (set_lastAccCycle r (set_lastFreeCycle f tc))) s)) as Hrun.
  { enough (wp (highPrioAccess c cyc) s (fun x s' => x = r /\ s' = set_tcaches (insert c (set_lastAccCycle r (set_lastFreeCycle f tc))) s)) as Hwp.
    { apply wp_ok in Hwp as (x & s' & -> & -> & ->). done. }
    unfold highPrioAccess. wp_step. eapply wp_at_cache; [done|]. do 2 wp_step; [apply Z.leb_le; lia|].
    rewrite !u64_id by (unfold in_u64, W64; lia). cbv zeta. fold r. unfold f.
    wp_step. wp_step; [intros Hlt%Z.ltb_lt; rewrite decide_True by done|intros Hge%Z.ltb_ge; rewrite decide_False by lia].
    - eapply wp_set_cache; [done|]. wp_step. eapply wp_set_cache; [apply lookup_insert_eq|]. wp_step.
      unfold set_tcaches. cbn. by rewrite insert_insert_eq.
    - wp_step. eapply wp_set_cache; [done|]. wp_step. split; [done|]. by destruct tc. }
  split; [done|]. split_and!; [|unfold r; lia| |intros x Hx; destruct (Hg x); [unfold r in Hx; lia|done|unfold r in Hx; lia]|cbn; unfold r; lia].
  - split; cbn.
    + unfold r. lia.
    + intros u [->|Hin]%elem_of_cons; [lia|]. specialize (Hu _ Hin). unfold r. lia.
    + unfold f, r. case_decide; lia.
    + intros Hf0. rewrite not_elem_of_cons. unfold f in *. case_decide as Hd.
      * split; [unfold r; lia|]. intros Hin. specialize (Hu _ Hin). lia.
      * split; [unfold r; lia|]. by apply Hfo.
    + intros x Hx. rewrite elem_of_cons. unfold f. case_decide as Hd.
      * assert (x = r \/ x = cyc - 1) as [->| ->] by (unfold r in *; lia); auto.
      * destruct (decide (x = r)) as [->|]; [auto|]. destruct (Hg x); [unfold r in *; lia|auto|auto].
  - intros Hin. specialize (Hu _ Hin). unfold r in Hu. lia.
Qed.

Lemma low_clocks c s tc U now cyc :
  tcaches s !! c = Some tc -> Clocks tc U now -> 2 <= now <= cyc -> cyc < 2 ^ 62 ->
  exists r tc', tryLowPrioAccess c cyc s = Ok (r, set_tcaches (insert c tc') s) /\
    lastAccCycle tc' <= Z.max cyc (lastAccCycle tc + 1) /\
    (r = cyc /\ (cyc - 1 ∉ U) /\ Clocks tc' (cyc - 1 :: U) cyc \/ r = 0 /\ cyc - 1 ∈ U /\ Clocks tc' U cyc).
Proof.
  intros Hc [Ha Hu [Hf1 Hf2] Hfo Hg] Hnow Hcyc.
  destruct (decide (lastAccCycle tc < cyc - 1 \/ lastFreeCycle tc = cyc - 1)) as [Hd|Hd].
  - exists cyc, (set_lastAccCycle (Z.max (cyc - 1) (lastAccCycle tc)) (set_lastFreeCycle 0 tc)). split; [|split; [cbn; lia|]].
    + enough (wp (tryLowPrioAccess c cyc) s (fun x s' => x = cyc /\
        s' = set_tcaches (insert c (set_lastAccCycle (Z.max (cyc - 1) (lastAccCycle tc)) (set_lastFreeCycle 0 tc))) s)) as Hwp.
      { apply wp_ok in Hwp as (x & s' & -> & -> & ->). done. }
      unfold tryLowPrioAccess. wp_step. eapply wp_at_cache; [done|]. rewrite u64_id by (unfold in_u64, W64; lia).
      replace ((lastAccCycle tc <? cyc - 1) || (lastFreeCycle tc =? cyc - 1)) with true by lia.
      wp_step. eapply wp_set_cache; [done|]. wp_step. eapply wp_set_cache; [apply lookup_insert_eq|]. wp_step.
      unfold set_tcaches. cbn. by rewrite insert_insert_eq.
    + left. split; [done|].
      assert (cyc - 1 ∉ U) as Hout by (destruct Hd as [Hd|Hd]; [intros Hin; specialize (Hu _ Hin); lia|rewrite <- Hd; apply Hfo; lia]).
      split; [done|]. split; cbn; try lia.
      * intros u [->|Hin]%elem_of_cons; [lia|]. specialize (Hu _ Hin). lia.
      * intros x Hx. left. rewrite elem_of_cons. destruct (decide (x = cyc - 1)); [auto|]. right.
        destruct Hd as [Hd|Hd]; [lia|]. destruct (Hg x); [lia|done|lia].
  - exists 0, tc. split; [|split; [lia|]].
    + unfold tryLowPrioAccess, at_cache, mbind, st_bind. rewrite Hc, u64_id by (unfold in_u64, W64; lia).
      replace ((lastAccCycle tc <? cyc - 1) || (lastFreeCycle tc =? cyc - 1)) with false by lia.
      unfold mret, st_ret. do 2 f_equal. destruct s. unfold set_tcaches. cbn in *. by rewrite insert_id.
    + right. split; [done|]. split; [destruct (Hg (cyc - 1)); [lia|done|lia]|].
      split; try done; [lia|]. intros x Hx. apply Hg. lia.
Qed.

Lemma accesses_spec c l s tc U now :
  tcaches s !! c = Some tc -> Clocks tc U now -> 2 <= now -> Forall (fun x => now <= x.2 < 2 ^ 61) l -> nondecreasing l ->
  Z.max (lastAccCycle tc) (2 ^ 61) + Z.of_nat (length l) < 2 ^ 62 ->
  exists out s', accesses c l s = Ok (out, s') /\ Port U l out.
Proof.
  revert s tc U now. induction l as [|[high cyc] l IH]; intros s tc U now Hc HC Hnow Hall Hsort Hlen.
  { exists [], s. split; [done|constructor]. }
  apply Forall_cons in Hall as [Hcyc Hall]. cbn [snd] in Hcyc. inversion Hsort as [|? ? Hsort' Hle]; subst.
  cbn [length] in Hlen.
  assert (Forall (fun x => cyc <= x.2 < 2 ^ 61) l) as Hall'.
  { rewrite !Forall_forall in *. intros x Hx. specialize (Hall x Hx). specialize (Hle x Hx). simpl in *. lia. }
  assert (forall tc', tcaches (set_tcaches (insert c tc') s) !! c = Some tc') as Hc' by (intros; apply lookup_insert_eq).
  cbn [accesses]. unfold mbind, st_bind. destruct high.
  - destruct (high_clocks c s tc U now cyc Hc HC ltac:(lia) ltac:(lia) ltac:(lia)) as (r & tc' & -> & HC' & H1 & H2 & H3 & H4).
    destruct (IH (set_tcaches (insert c tc') s) tc' (r :: U) cyc (Hc' _) HC' ltac:(lia) Hall' Hsort') as (out & s' & -> & HP); [lia|].
    exists (r :: out), s'. split; [done|]. by constructor.
  - destruct (low_clocks c s tc U now cyc Hc HC ltac:(lia) ltac:(lia)) as (r & tc' & -> & H4 & [(-> & H1 & HC')|(-> & H1 & HC')]).
    + destruct (IH (set_tcaches (insert c tc') s) tc' (cyc - 1 :: U) cyc (Hc' _) HC' ltac:(lia) Hall' Hsort') as (out & s' & -> & HP); [lia|].
      exists (cyc :: out), s'. split; [done|]. by constructor.
    + destruct (IH (set_tcaches (insert c tc') s) tc' U cyc (Hc' _) HC' ltac:(lia) Hall' Hsort') as (out & s' & -> & HP); [lia|].
      exists (0 :: out), s'. split; [done|]. by constructor.
Qed.

(** C31: The port of a timing cache is granted exactly.  Over any accesses in the
    order of time, [highPrioAccess] and [tryLowPrioAccess], which know only the
    last access and the last free cycle, give what one gets from the full set of
    taken cycles: a high-priority access the first cycle that is not taken, never
    earlier than asked for; a low-priority access the cycle before if, and only
    if, it is not taken.  No cycle is given twice.  (Cycles 0 and 1 are out of
    scope: 0 stands for a clock that is not set.) *)
Theorem port_exact c m s l :
  tcaches s !! c = Some (TimingCache_init m) -> Forall (fun x => 2 <= x.2 < 2 ^ 61) l -> nondecreasing l ->
  Z.of_nat (length l) < 2 ^ 61 ->
  exists out s', accesses c l s = Ok (out, s') /\ Port [] l out.
Proof.
  intros Hc Hall Hsort Hlen. eapply (accesses_spec c l s (TimingCache_init m) [] 2); try done; [|cbn; lia].
  split; cbn; try done; try lia. intros u Hu. by apply elem_of_nil in Hu.
Qed.

(** ** The children of an event *)

(** An event to which children were added. *)
Fixpoint add_links (l : list Z) (ev : TimingEvent) : result TimingEvent :=
  match l with
  | [] => Ok ev
  | c :: l => match add_link c ev with Ok ev => add_links l ev | Err f => Err f end
  end.

Lemma block_events_prefix es n : block_events (map Some es ++ replicate n None) = es.
Proof. induction es as [|c es IH]; cbn; [by destruct n|]. by rewrite IH. Qed.

(** A first block that is not empty, and full ones. *)
Definition Blocks (bs : list TimingEventBlock) (l : list Z) : Prop :=
  exists es rest, bs = (map Some es ++ replicate (3 - length es) None) :: rest /\
    (0 < length es <= 3)%nat /\ length es = S ((length l - 1) mod 3) /\ concat (map block_events bs) ≡ₚ l.

(** The children of [ev] are [l]. *)
Definition Children (ev : TimingEvent) (l : list Z) : Prop :=
  numChildren ev = Z.of_nat (length l) /\
  match l with
  | [] => links ev = child None
  | [c] => links ev = child (Some c)
  | _ => exists bs, links ev = children bs /\ Blocks bs l
  end.

Lemma add_link_children ev l c :
  Children ev l -> Z.of_nat (length l) + 1 < W32 -> exists ev', add_link c ev = Ok ev' /\ Children ev' (c :: l).
Proof.
  intros [Hn Hl] Hlen. unfold add_link. rewrite Hn. destruct l as [|c1 [|c2 l]].
  - cbn. eexists. split; [reflexivity|]. done.
  - cbn in *. rewrite Hl. eexists. split; [reflexivity|]. split; [done|]. eexists. split; [reflexivity|].
    exists [c1; c], []. split; [done|]. split; [cbn; lia|]. split; [done|]. cbn. apply Permutation_swap.
  - destruct Hl as (bs & Hbs & es & rest & -> & Hes & Hmod & Hperm). rewrite Hbs.
    set (k := length (c1 :: c2 :: l)) in *. assert (2 <= k)%nat as Hk by (unfold k; cbn; lia).
    replace (Z.of_nat k =? 0) with false by lia. replace (Z.of_nat k =? 1) with false by lia.
    change (Z.of_nat TIMING_BLOCK_EVENTS) with (Z.of_nat 3). rewrite <- Nat2Z.inj_mod, Nat2Z.id.
    assert (u32 (Z.of_nat k + 1) = Z.of_nat (length (c :: c1 :: c2 :: l))) as Eu
      by (rewrite u32_id; [unfold k; cbn [length]; lia|unfold in_u32; lia]).
    rewrite Eu. pose proof (Nat.div_mod k 3 ltac:(lia)) as Hd1. pose proof (Nat.div_mod (k - 1) 3 ltac:(lia)) as Hd2.
    pose proof (Nat.mod_upper_bound k 3 ltac:(lia)). pose proof (Nat.mod_upper_bound (k - 1) 3 ltac:(lia)).
    assert (length (c :: c1 :: c2 :: l) - 1 = k)%nat as Ek by (unfold k; cbn; lia).
    destruct (Nat.eqb_spec (k mod 3) 0) as [E|E].
    + rewrite E. eexists. split; [reflexivity|]. split; [done|]. eexists. split; [reflexivity|].
      exists [c], ((map Some es ++ replicate (3 - length es) None) :: rest). split; [done|]. split; [cbn; lia|].
      split; [by rewrite Ek, E|]. change (concat (map block_events ?x)) with (c :: concat (map block_events (tl x))).
      cbn [tl]. by rewrite Hperm.
    + assert (length es = k mod 3)%nat as El by lia. destruct (3 - length es)%nat as [|j] eqn:Ej; [lia|].
      eexists. split; [reflexivity|]. split; [done|]. eexists. split; [reflexivity|].
      exists (es ++ [c]), rest. rewrite length_app. cbn [length]. rewrite <- El.
      assert (@insert nat ptr (list ptr) _ (length es) (Some c) (map Some es ++ replicate (S j) None) = map Some (es ++ [c]) ++ replicate (3 - (length es + 1)) None) as Eb.
      { rewrite insert_app_r_alt by (by rewrite length_map). rewrite length_map, Nat.sub_diag. cbn.
        rewrite map_app, <- app_assoc. cbn. do 3 f_equal. lia. }
      match goal with |- context [insert ?i ?x ?b :: rest] => replace (insert i x b) with (map Some (es ++ [c]) ++ replicate (3 - (length es + 1)) None) by (symmetry; exact Eb) end.
      split; [done|]. split; [lia|]. split; [cbn [length] in *; rewrite Ek; lia|].
      cbn [map concat] in *. rewrite block_events_prefix in *. rewrite <- Hperm. rewrite <- app_assoc. cbn.
      symmetry. apply Permutation_middle.
Qed.

Lemma children_visited_spec ev l :
  Children ev l -> exists vs, visited ev = map Some vs /\ vs ≡ₚ l /\ numChildren ev = Z.of_nat (length vs).
Proof.
  intros [Hn Hl]. unfold visited. rewrite Hn. destruct l as [|c1 [|c2 l]].
  - by exists [].
  - cbn. rewrite Hl. by exists [c1].
  - destruct Hl as (bs & -> & es & rest & -> & Hes & Hmod & Hperm). cbn [length].
    destruct (Z.eqb_spec (Z.of_nat (S (S (length l)))) 0); [lia|]. eexists. split; [reflexivity|]. split; [done|].
    by rewrite Hperm.
Qed.

(** An event knows its children.  Whatever children are added to a fresh
    event (fewer than 2^32), [addChild] stores them in blocks of three, and
    [visitChildren] comes past every one of them as often as it was added, and
    past nothing else: it meets no null pointer, and its count agrees with
    [numChildren]. *)
Theorem children_exact l pre post dom cl :
  Z.of_nat (length l) < W32 ->
  exists ev vs, add_links l (TimingEvent_init pre post dom cl) = Ok ev /\ visited ev = map Some vs /\ vs ≡ₚ l /\
    numChildren ev = Z.of_nat (length l) /\ forall s, visitChildren (fun _ => mret tt) ev s = Ok (tt, s).
Proof.
  intros Hlen. set (ev0 := TimingEvent_init pre post dom cl).
  enough (forall l0 ev0, Children ev0 l0 -> Z.of_nat (length l0 + length l) < W32 ->
    exists ev, add_links l ev0 = Ok ev /\ Children ev (rev l ++ l0)) as Hadd.
  { destruct (Hadd [] ev0) as (ev & Hev & HC); [by split|done|]. rewrite app_nil_r in HC.
    destruct (children_visited_spec _ _ HC) as (vs & Hvs & Hperm & Hn). exists ev, vs.
    assert (vs ≡ₚ l) as Hperm' by (rewrite Hperm; symmetry; apply Permutation_rev).
    split_and!; [done|done|done|by rewrite Hn, Hperm'|].
    intros s. unfold visitChildren, mbind, st_bind. rewrite Hvs.
    assert (visit (fun _ => mret tt) (map Some vs) s = Ok (tt, s)) as ->.
    { clear. induction vs as [|c vs IH]; [done|]. cbn. unfold mbind, st_bind. by cbn. }
    unfold when. case_match; [|done]. unfold assert_. by rewrite length_map, <- Hn, Z.eqb_refl. }
  clear Hlen ev0. induction l as [|c l IH]; intros l0 ev0 HC Hlen; cbn [add_links rev app length] in *.
  - by exists ev0.
  - destruct (add_link_children ev0 l0 c HC) as (ev1 & -> & HC1); [lia|].
    destruct (IH (c :: l0) ev1 HC1) as (ev & Hev & HC2); [cbn; lia|]. exists ev. split; [done|]. by rewrite <- app_assoc.
Qed.
