(* ===== verification/RecorderInv.v ===== *)
(** * The chain of events of a core

    The events of a core follow each other in the graph.  In the bound phase
    each has a cycle, its [origStartCycle] plus the [gapCycles] of its time; when
    one of them runs later than that, all the events that depend on it will,
    by as much at least, so that their cycles can be moved ([shift]).  During a
    phase the recorder of a core thus has a gap of its own, how late the last
    event of the core was, which never gets smaller. *)

From stdpp Require Import base tactics numbers list gmap relations sets sorting.
From Stdlib Require Import ZArith Lia Classical.
From S2P Require Import Prelude PrioQueue TimingEvents WeaveInv Weave WeavePhase WeaveFrame WeaveMain CachePort.

Open Scope Z_scope.

(** ** Later cycles *)

Abbreviation EvMap := (gmap Z TimingEvent).

(** [x] is [e] or depends on it. *)
Definition below (E : EvMap) (e x : Z) : Prop := x = e \/ tc (edge E) e x.

(** What depends on [e] depends on nothing else that waits. *)
Definition rooted (E : EvMap) (e : Z) : Prop := forall p c, edge E p c -> tc (edge E) e c -> below E e p.

Definition shift (lb : Z -> Z) (X : gset Z) (d x : Z) : Z := if decide (x ∈ X) then lb x + d else lb x.

Lemma shift_le lb X d x : 0 <= d -> lb x <= shift lb X d x.
Proof. unfold shift. case_decide; lia. Qed.

Lemma subset_of (P : Z -> Prop) (Y : gset Z) : exists X : gset Z, forall x, x ∈ X <-> x ∈ Y /\ P x.
Proof.
  induction Y as [|y Y Hy [X HX]] using set_ind_L; [exists ∅; set_solver|].
  destruct (classic (P y)) as [HP|HP]; [exists ({[y]} ∪ X)|exists X]; set_solver.
Qed.

Section shift.
Context (lb : Z -> Z).

Lemma below_set s e ev : Base lb [] ∅ 0 s -> events s !! e = Some ev -> exists X : gset Z, forall x, x ∈ X <-> below (events s) e x.
Proof.
  intros HB He. destruct (subset_of (below (events s) e) (dom (events s))) as [X HX]. exists X. intros x. rewrite HX.
  split; [by intros [_ ?]|]. intros Hx. split; [|done]. apply elem_of_dom. destruct Hx as [->|Ht]; [by eexists|].
  apply path_last in Ht as (p & pv & Hp & Hs & Hc). destruct (ev_edges _ _ _ _ (base_events _ _ _ _ _ HB) _ _ _ Hp Hs Hc) as (ch & ? & _).
  by eexists.
Qed.

(** An event of the queue may be moved to its cycle there, with all that depends on it. *)
Lemma shift_events E e ev X d :
  EventsInv lb [] ∅ E -> E !! e = Some ev -> state ev = EV_QUEUED -> rooted E e -> (forall x, x ∈ X <-> below E e x) -> 0 <= d ->
  EventsInv (shift lb X d) [] ∅ E.
Proof.
  intros HE He Hst Hroot HX Hd. pose proof HE as [Hok Hpar Hedge Hpend Hrun Hrel Hmiss]. split; try done.
  - intros x xv Hx. pose proof (shift_le lb X d x Hd). destruct (Hok _ _ Hx) as [? ? ? ? ? ? ? Hmin Hfirst ? ? ? ? ?].
    split; try done; [intros Hc; specialize (Hmin Hc)|intros Hc; specialize (Hfirst Hc)]; lia.
  - intros p pv c Hp Hs Hc. destruct (Hedge _ _ _ Hp Hs Hc) as (ch & Hch & Hcs & Hle). exists ch. split_and!; [done..|].
    pose proof (shift_le lb X d p Hd). unfold shift at 1. case_decide as Hin; [|lia].
    apply HX in Hin as [->|Ht]; [congruence|]. unfold shift. rewrite decide_True; [lia|].
    apply HX, (Hroot p c); [by exists pv|done].
  - intros c t Hct. by apply elem_of_nil in Hct.
Qed.

Lemma shift_wellformed s e ev X d :
  WellFormed lb s -> events s !! e = Some ev -> state ev = EV_QUEUED -> rooted (events s) e ->
  (forall x, x ∈ X <-> below (events s) e x) -> 0 <= d -> lb e + d <= privCycle ev -> WellFormed (shift lb X d) s.
Proof.
  intros [[HE HQ Hb Hq Hn Hh Hp Hc] [HC HR]] He Hst Hroot HX Hd Hle.
  assert (forall x xv, events s !! x = Some xv -> state xv <> EV_NONE -> x ∈ X -> x = e) as Honly.
  { intros x xv Hx Hs Hin. apply HX in Hin as [->|Ht]; [done|]. exfalso. apply path_last in Ht as [p Hp'].
    by destruct (started_alone _ _ _ _ _ _ HE Hx Hs) as (_ & _ & Halone); apply (Halone p). }
  split; [split; try done|split; [done|]].
  - by eapply shift_events.
  - intros x xv Hx Hs. destruct (Hq _ _ Hx Hs) as (? & ? & ?). split_and!; [done| |done].
    unfold shift. case_decide as Hin; [|done]. assert (x = e) as -> by (eapply Honly; [done|by rewrite Hs|done]). congruence.
  - intros x xv Hx Hs. specialize (Hh _ _ Hx Hs). unfold shift. case_decide as Hin; [|done].
    assert (x = e) as -> by (eapply Honly; [done|by rewrite Hs|done]). congruence.
  - intros r rc x Hr Hx. destruct (HR _ _ _ Hr Hx) as [|Hl]; [by left|right]. pose proof (shift_le lb X d x Hd). lia.
Qed.
End shift.

(** ** The chains *)

Definition of_core (r o : Z) (ev : TimingEvent) : Prop := exists t, class ev = TimingCoreEvent r o t.

(** The events of the core [r] have the cycles of its clock without load, with the
    gap [G r] of the recorder; they depend on each other in a line, what depends
    on them on nothing else, and no two cores on each other. *)
Record Chains (lb G : Z -> Z) (E : EvMap) : Prop := {
  ch_cycle e ev r o : E !! e = Some ev -> of_core r o ev -> 0 <= o /\ 0 <= G r /\ lb e = o + G r;
  ch_rooted e ev r o : E !! e = Some ev -> of_core r o ev -> rooted E e;
  ch_line e1 ev1 e2 ev2 r o1 o2 : E !! e1 = Some ev1 -> E !! e2 = Some ev2 -> of_core r o1 ev1 -> of_core r o2 ev2 ->
    e1 <> e2 -> tc (edge E) e1 e2 \/ tc (edge E) e2 e1;
  ch_apart e1 ev1 e2 ev2 r1 r2 o1 o2 : E !! e1 = Some ev1 -> E !! e2 = Some ev2 -> of_core r1 o1 ev1 -> of_core r2 o2 ev2 ->
    r1 <> r2 -> ~ tc (edge E) e1 e2
}.

Definition back (E E' : EvMap) : Prop := forall x y', E' !! x = Some y' -> exists y, E !! x = Some y /\ same_event y y'.

Lemma of_core_same r o ev ev' : same_event ev ev' -> of_core r o ev' -> of_core r o ev.
Proof.
  intros Hs [t Hc]. pose proof (same_class _ _ Hs) as H. rewrite Hc in H. destruct (class ev) eqn:E; simpl in H; try done.
  destruct H as [-> ->]. by eexists.
Qed.

Lemma edge_back lb E E' p c : EventsInv lb [] ∅ E -> back E E' -> edge E' p c -> edge E p c.
Proof.
  intros HE Hb (ev' & Hp & _ & Hc). destruct (Hb _ _ Hp) as (ev & Hev & Hs). exists ev. split_and!; [done| |].
  - pose proof (idle_waiting _ _ _ _ HE Hev) as Hw. by intros Hd; rewrite Hd in Hw.
  - by rewrite <- (same_kids _ _ Hs).
Qed.

Lemma path_back lb E E' p c : EventsInv lb [] ∅ E -> back E E' -> tc (edge E') p c -> tc (edge E) p c.
Proof. intros HE Hb. induction 1 as [a b H|a b c H _ IH]; [apply tc_once|eapply tc_l; [|exact IH]]; by eapply edge_back. Qed.

(** The chains of what is left. *)
Lemma chains_sub lb lb' G s s' :
  EventsInv lb [] ∅ (events s) -> EventsInv lb' [] ∅ (events s') -> back (events s) (events s') ->
  Chains lb G (events s) -> Chains lb G (events s').
Proof.
  intros HE HE' Hb [Hc Hr Hl Ha].
  assert (forall e ev', events s' !! e = Some ev' -> exists ev, events s !! e = Some ev /\ forall r o, of_core r o ev' -> of_core r o ev) as Hof.
  { intros e ev' He. destruct (Hb _ _ He) as (ev & Hev & Hs). exists ev. split; [done|]. intros r o. by apply of_core_same. }
  assert (forall a b, is_Some (events s' !! a) -> tc (edge (events s)) a b -> tc (edge (events s')) a b) as Hkeep
    by (intros; by eapply path_persists).
  split.
  - intros e ev' r o He Ho. destruct (Hof _ _ He) as (ev & Hev & Hf). eauto.
  - intros e ev' r o He Ho p c Hp Ht. destruct (Hof _ _ He) as (ev & Hev & Hf).
    destruct (Hr e ev r o Hev (Hf _ _ Ho) p c) as [->|Hp']; [by eapply edge_back|by eapply path_back|by left|right]. eauto.
  - intros e1 x1 e2 x2 r o1 o2 H1 H2 Ho1 Ho2 Hne. destruct (Hof _ _ H1) as (y1 & Hy1 & Hf1). destruct (Hof _ _ H2) as (y2 & Hy2 & Hf2).
    destruct (Hl e1 y1 e2 y2 r o1 o2); eauto.
  - intros e1 x1 e2 x2 r1 r2 o1 o2 H1 H2 Ho1 Ho2 Hne Ht. destruct (Hof _ _ H1) as (y1 & Hy1 & Hf1). destruct (Hof _ _ H2) as (y2 & Hy2 & Hf2).
    apply (Ha e1 y1 e2 y2 r1 r2 o1 o2); eauto. by eapply path_back.
Qed.

(** The gap of a core whose event of cycle [o] runs at [cyc]. *)
Definition late (ev : TimingEvent) (cyc : Z) (G : Z -> Z) (r : Z) : Z :=
  match class ev with TimingCoreEvent r' o _ => if decide (r = r') then cyc - o else G r | _ => G r end.

Lemma late_le lb G E e ev cyc r : Chains lb G E -> E !! e = Some ev -> lb e <= cyc -> G r <= late ev cyc G r.
Proof.
  intros HC He Hle. unfold late. destruct (class ev) as [| | | | | | |r' o t|] eqn:Hcl; try lia. case_decide; [|lia]. subst r'.
  pose proof (ch_cycle _ _ _ HC e ev r o He ltac:(by exists t)). lia.
Qed.

(** The first event of the queue can be moved to where it is. *)
Lemma chains_late lb G s e ev :
  WellFormed lb s -> Chains lb G (events s) -> events s !! e = Some ev -> state ev = EV_QUEUED ->
  exists lb', WellFormed lb' s /\ Chains lb' (late ev (privCycle ev) G) (events s) /\
    (forall x, lb x <= lb' x) /\
    forall r o x, of_core r o ev -> below (events s) e x -> lb' x = lb x + (late ev (privCycle ev) G r - G r).
Proof.
  intros HW HC He Hst. pose proof (proj1 HW) as HB. destruct (base_queued _ _ _ _ _ HB _ _ He Hst) as (_ & Hlb & _).
  assert ((forall r o t, class ev <> TimingCoreEvent r o t) \/ exists r o t, class ev = TimingCoreEvent r o t) as [Hno|(r & o & t & Hcl)]
    by (destruct (class ev); eauto 10).
  { exists lb. split_and!; [done| |done|by intros r o x [t Ht]; destruct (Hno r o t)].
    assert (late ev (privCycle ev) G = G) as -> by (unfold late; destruct (class ev); try done; by destruct (Hno cRec origStartCycle startCycle)). done. }
  assert (of_core r o ev) as Ho by (by exists t). destruct (ch_cycle _ _ _ HC _ _ _ _ He Ho) as (Ho0 & HG0 & Hlbe).
  destruct (below_set lb s e ev HB He) as [X HX]. set (d := privCycle ev - lb e).
  exists (shift lb X d). assert (e ∈ X) as HeX by (apply HX; by left). split_and!.
  - eapply shift_wellformed; try done; [by eapply HC|lia..].
  - assert (forall r', late ev (privCycle ev) G r' = if decide (r' = r) then G r + d else G r') as Hlate.
    { intros r'. unfold late. rewrite Hcl. case_decide; [subst|done]. lia. }
    split; [|apply HC..]. intros x xv r' o' Hx Ho'. destruct (ch_cycle _ _ _ HC _ _ _ _ Hx Ho') as (? & ? & ?). rewrite Hlate.
    assert (x ∈ X <-> r' = r) as Hiff; [|unfold shift; destruct (decide (x ∈ X)) as [Hin|Hin]; rewrite Hiff in Hin; case_decide; subst; try done; lia].
    rewrite HX. split.
    + intros [->|Ht]; [destruct Ho as [? E1], Ho' as [? E2]; congruence|]. destruct (decide (r' = r)) as [|Hne]; [done|].
      destruct (ch_apart _ _ _ HC e ev x xv r r' o o'); congruence.
    + intros ->. destruct (decide (e = x)) as [->|Hne]; [by left|].
      destruct (ch_line _ _ _ HC e ev x xv r o o') as [Ht|Ht]; try done; [by right|]. exfalso. apply path_last in Ht as [p Hp].
      destruct (started_alone _ _ _ _ _ _ (base_events _ _ _ _ _ HB) He) as (_ & _ & Halone); [by rewrite Hst|]. by apply (Halone p).
  - intros x. apply shift_le. lia.
  - intros r' o' x [t' Ht'] Hx. assert (r' = r) as -> by congruence. unfold shift. rewrite decide_True by (by apply HX).
    unfold late. rewrite Hcl, decide_True by done. lia.
Qed.

(** ** The clocks of the recorders *)

(** What a phase changes in a recorder, but for the clocks of the last event. *)
Record phased (rc rc' : CoreRecorder) : Prop := {
  ph_fields : rec_state rc' = rec_state rc /\ gapCycles rc' = gapCycles rc /\ prevRespCycle rc' = prevRespCycle rc /\
    totalGapCycles rc' = totalGapCycles rc /\ totalHaltedCycles rc' = totalHaltedCycles rc /\ lastUnhaltedCycle rc' = lastUnhaltedCycle rc /\
    rec_domain rc' = rec_domain rc /\ lastGapCycles rc' = lastGapCycles rc;
  ph_event : prevRespEvent rc' = prevRespEvent rc \/ prevRespEvent rc' = None /\ rec_state rc <> RUNNING
}.

Lemma phased_refl rc : phased rc rc.
Proof. split; auto 10. Qed.
Lemma phased_trans rc1 rc2 rc3 : phased rc1 rc2 -> phased rc2 rc3 -> phased rc1 rc3.
Proof.
  intros [(? & ? & ? & ? & ? & ? & ? & ?) He] [(? & ? & ? & ? & ? & ? & ? & ?) He']. split; [split_and!; congruence|].
  destruct He' as [He'|[? ?]]; [|right; split; congruence]. destruct He as [?|[? ?]]; [left|right; split]; congruence.
Qed.

(** The last event [p] of the chain of core [r], which has yet to run; what comes at [cyc] may depend on it. *)
Record Attached (lb : Z -> Z) (E : EvMap) (r cyc p : Z) : Prop := {
  att_event : exists pv l, E !! p = Some pv /\ tracked None pv /\ cyc <= lb p + lat pv + postDelay pv /\
    Children pv l /\ Z.of_nat (length l) + 1 < W32;
  att_last e ev o : E !! e = Some ev -> of_core r o ev -> below E e p;
  att_apart e ev r' o : E !! e = Some ev -> of_core r' o ev -> r' <> r -> ~ below E e p
}.

(** Between where the last event of a core was without load and where it was is the gap
    [G r], unless the core has just joined and its first event is still to run. *)
Definition timed (G : Z -> Z) (lim : Z) (E : EvMap) (r : Z) (rc : CoreRecorder) : Prop :=
  rec_state rc = HALTED \/
  0 <= lastEventSimulatedOrigStartCycle rc /\ lastEventSimulatedStartCycle rc = lastEventSimulatedOrigStartCycle rc + G r /\
    lastEventSimulatedStartCycle rc <= lim \/
  exists e ev o, E !! e = Some ev /\ state ev = EV_QUEUED /\ of_core r o ev /\ privCycle ev < lim.

(** A recorder in a phase that ends at [lim]. *)
Record Clocked (lb G : Z -> Z) (lim : Z) (E : EvMap) (r : Z) (rc : CoreRecorder) : Prop := {
  cl_gap : 0 <= gapCycles rc <= G r;
  cl_attached p : prevRespEvent rc = Some p ->
    gapCycles rc <= prevRespCycle rc /\ Attached lb E r (prevRespCycle rc + (G r - gapCycles rc)) p;
  cl_none : prevRespEvent rc = None -> rec_state rc <> RUNNING;
  cl_halted : rec_state rc = HALTED -> prevRespEvent rc = None;
  cl_idle e ev o : prevRespEvent rc = None -> E !! e = Some ev -> ~ of_core r o ev;
  cl_clock : timed G lim E r rc
}.

(** In the weave phase the last event of a core is its own. *)
Definition own_event (E : EvMap) (r : Z) (rc : CoreRecorder) : Prop :=
  forall p, prevRespEvent rc = Some p -> exists pv o, E !! p = Some pv /\ of_core r o pv.
Definition Clocks (lb G : Z -> Z) (s : ContentionSim) : Prop :=
  forall r rc, recorders s !! r = Some rc -> Clocked lb G (limit s) (events s) r rc /\ own_event (events s) r rc.

Lemma children_same ev ev' l : same_event ev ev' -> Children ev l -> Children ev' l.
Proof. intros [E1 E2 _ _ _ _ _] [Hn Hl]. split; [congruence|]. by rewrite E1. Qed.

Section run.
Context (lb lb' G : Z -> Z) (s s1 : ContentionSim) (e : Z) (ev : TimingEvent) (cyc : Z).
Hypothesis Hle : forall x, lb x <= lb' x.
Hypothesis Hmove : forall r o x, of_core r o ev -> below (events s) e x -> lb' x = lb x + (late ev cyc G r - G r).
Hypothesis HE1 : EventsInv lb' [] ∅ (events s1).
Hypothesis HE : EventsInv lb' [] ∅ (events s).
Hypothesis Hback : back (events s) (events s1).
Hypothesis Hafter : after_run e ev cyc s s1.
Hypothesis He : events s !! e = Some ev.

Lemma below_keeps a b : is_Some (events s1 !! a) -> below (events s) a b -> below (events s1) a b.
Proof. intros Ha [->|Ht]; [by left|right]. by eapply path_persists. Qed.

Lemma attached_run r c p : Attached lb (events s) r c p -> p <> e -> Attached lb' (events s1) r (c + (late ev cyc G r - G r)) p.
Proof.
  intros [(pv & l & Hp & Ht & Hc & Hch & Hlen) Hlast Hapart] Hne.
  assert (exists pv', events s1 !! p = Some pv' /\ tracked None pv') as (pv' & Hp' & Ht').
  { assert (exists o, track pv = Some o) as [o Ho] by (destruct Ht as [Hcl [Hst|Hst]]; unfold track; rewrite Hst; destruct (class pv); try done; by eexists).
    destruct (proj2 (proj2 Hafter) p pv o Hne Hp Ho) as (xv & Hx & Hcl & Hxv). exists xv. split; [done|]. split; [done|].
    destruct o as [?|]; [right; by destruct Hxv|done]. }
  destruct (Hback _ _ Hp') as (y & Hy & Hs). assert (y = pv) as -> by congruence. split.
  - exists pv', l. split_and!; [done|done| |by eapply children_same|done].
    rewrite (same_lat _ _ Hs), (same_post _ _ Hs). specialize (Hle p).
    assert ((exists o, of_core r o ev) \/ late ev cyc G r = G r) as [[o Ho]|E]; [|rewrite (Hmove r o p Ho); [lia|by eapply Hlast]|lia].
    unfold late. destruct (class ev) eqn:Hcl; auto. case_decide; [|by right]. subst. left. by exists origStartCycle, startCycle.
  - intros x xv o Hx Ho. destruct (Hback _ _ Hx) as (x0 & Hx0 & Hsx). apply below_keeps; [by exists xv|].
    eapply Hlast; [done|]. by eapply of_core_same.
  - intros x xv r' o Hx Ho Hr Hb. destruct (Hback _ _ Hx) as (x0 & Hx0 & Hsx).
    apply (Hapart x x0 r' o); [done|by eapply of_core_same|done|]. destruct Hb as [->|Hb]; [by left|right]. by eapply path_back.
Qed.

(** A recorder of which no event ran. *)
Lemma clocked_other lim r rc :
  Clocked lb G lim (events s) r rc -> own_event (events s) r rc -> (forall o, ~ of_core r o ev) ->
  Clocked lb' (late ev cyc G) lim (events s1) r rc.
Proof.
  intros [Hg Hat Hn Hh Hid Hcl] Hown Hno.
  assert (late ev cyc G r = G r) as EG.
  { unfold late. destruct (class ev) eqn:Hc; try done. case_decide; [|done]. subst. destruct (Hno origStartCycle). by exists startCycle. }
  split; unfold timed in *; rewrite ?EG; try done.
  - intros p Hp. destruct (Hat p Hp) as [? HA]. split; [done|]. replace (prevRespCycle rc + _) with (prevRespCycle rc + (G r - gapCycles rc) + (late ev cyc G r - G r)) by lia.
    apply attached_run; [done|]. intros ->. destruct (Hown e Hp) as (pv & o & Hpv & Ho). apply (Hno o). congruence.
  - intros x xv o Hp Hx Ho. destruct (Hback _ _ Hx) as (y & Hy & Hs). eapply Hid; [done|exact Hy|]. by eapply of_core_same.
  - destruct Hcl as [?|[?|(x & xv & o & Hx & Hst & Ho & Hlim)]]; [by left|by right; left|]. right; right.
    destruct (proj2 (proj2 Hafter) x xv (Some (privCycle xv))) as (xv' & Hx' & _ & Hst' & Hp'); [intros ->; apply (Hno o); congruence|done|..].
    { unfold track. rewrite Hst. destruct Ho as [t ->]. done. }
    exists x, xv', o. split_and!; [done..| |lia]. destruct (Hback _ _ Hx') as (y & Hy & Hs). assert (y = xv) as -> by congruence.
    apply (of_core_same _ _ _ _ (same_event_sym _ _ Hs) Ho).
Qed.

(** The recorder whose event ran. *)
Lemma clocked_same lim r o rc :
  Clocked lb G lim (events s) r rc -> of_core r o ev -> state ev = EV_QUEUED -> 0 <= o -> cyc <= lim -> G r <= cyc - o ->
  (prevRespEvent rc = Some e -> rec_state rc <> RUNNING) ->
  Clocked lb' (late ev cyc G) lim (events s1) r (reported e o cyc rc).
Proof.
  intros [Hg Hat Hn Hh Hid _] [t Hcl] Hst Ho Hlim HG Hrun. assert (late ev cyc G r = cyc - o) as EG by (unfold late; rewrite Hcl; by rewrite decide_True).
  split; unfold timed; rewrite ?EG; cbn; [lia|..].
  - intros p. case_decide as Hpe; [done|]. intros Hp. destruct (Hat p Hp) as [? HA]. split; [done|].
    replace (prevRespCycle rc + _) with (prevRespCycle rc + (G r - gapCycles rc) + (late ev cyc G r - G r)) by lia.
    apply attached_run; [done|]. congruence.
  - case_decide; auto.
  - intros Hhalt. rewrite (Hh Hhalt). done.
  - intros x xv o1 Hpe Hx Ho1. destruct (Hback _ _ Hx) as (y & Hy & Hs). pose proof (of_core_same _ _ _ _ Hs Ho1) as Hoy.
    case_decide as He'; [|by eapply (Hid x y)]. destruct (Hat e He') as [_ [_ Hlast _]].
    destruct (Hlast x y o1 Hy Hoy) as [->|Hxe]; [by rewrite (proj1 (proj2 Hafter) r o t Hcl) in Hx|].
    apply path_last in Hxe as [a Ha]. destruct (started_alone _ _ _ _ _ _ HE He) as (_ & _ & Halone); [by rewrite Hst|]. by apply (Halone a).
  - right; left. lia.
Qed.

Lemma own_event_run r rc rc' p :
  own_event (events s) r rc -> prevRespEvent rc = Some p -> is_Some (events s1 !! p) -> prevRespEvent rc' = Some p -> own_event (events s1) r rc'.
Proof.
  intros Hown Hp [pv' Hp'] Hp2 q Hq. assert (q = p) as -> by congruence. destruct (Hown p Hp) as (pv & o & Hpv & Ho).
  destruct (Hback _ _ Hp') as (y & Hy & Hs). assert (y = pv) as -> by congruence. exists pv', o. split; [done|].
  by apply (of_core_same _ _ _ _ (same_event_sym _ _ Hs)).
Qed.
End run.

(** A run of an event of the queue. *)
Lemma clocks_run lb lb' G s s1 e ev cyc :
  (forall x, lb x <= lb' x) -> (forall r o x, of_core r o ev -> below (events s) e x -> lb' x = lb x + (late ev cyc G r - G r)) ->
  EventsInv lb' [] ∅ (events s1) -> EventsInv lb' [] ∅ (events s) -> RecordersOk lb s -> Clocks lb G s -> Chains lb G (events s) -> events s !! e = Some ev -> state ev = EV_QUEUED ->
  after_run e ev cyc s s1 -> back (events s) (events s1) -> limit s1 = limit s -> lb e <= cyc < limit s ->
  Clocks lb' (late ev cyc G) s1 /\ forall r, option_Forall2 phased (recorders s !! r) (recorders s1 !! r).
Proof.
  intros Hle Hmove HE1 HE HR HC HCh He Hst Hafter Hback Hlim [Hlb Hcyc]. pose proof Hafter as [Hrec _].
  assert (forall r rc, recorders s !! r = Some rc -> (forall o, ~ of_core r o ev) ->
    Clocked lb' (late ev cyc G) (limit s1) (events s1) r rc /\ own_event (events s1) r rc) as Hother.
  { intros r rc Hr Hno. destruct (HC _ _ Hr) as [Hcl Hown]. rewrite Hlim.
    assert (Clocked lb' (late ev cyc G) (limit s) (events s1) r rc) as Hcl' by (by eapply clocked_other). split; [done|].
    intros p Hp. destruct (cl_attached _ _ _ _ _ _ Hcl' p Hp) as [_ [(pv & l & Hpv & _) _ _]].
    eapply (own_event_run s s1); eauto. }
  assert (forall r o rc, of_core r o ev -> recorders s !! r = Some rc ->
    (Clocked lb' (late ev cyc G) (limit s1) (events s1) r (reported e o cyc rc) /\ own_event (events s1) r (reported e o cyc rc)) /\
    phased rc (reported e o cyc rc)) as Hsame.
  { intros r o rc Ho Hr. destruct (HC _ _ Hr) as [Hcl Hown]. rewrite Hlim. destruct (ch_cycle _ _ _ HCh _ _ _ _ He Ho) as (Ho0 & HG0 & Hlbe).
    assert (prevRespEvent rc = Some e -> rec_state rc <> RUNNING) as Hrun by (intros Hpe Hrun; destruct (HR _ _ _ Hr Hpe); [congruence|lia]).
    split; [|split; [done|cbn; case_decide; auto]].
    assert (Clocked lb' (late ev cyc G) (limit s) (events s1) r (reported e o cyc rc)) as Hcl'
      by (eapply (clocked_same lb); try done; lia).
    split; [done|]. intros p Hp. destruct (cl_attached _ _ _ _ _ _ Hcl' p Hp) as [_ [(pv & l & Hpv & _) _ _]].
    eapply (own_event_run s s1 ltac:(done) r rc); eauto. cbn in Hp. by case_decide. }
  destruct (class ev) as [| | | | | | |r o t|] eqn:Hcl.
  8: {
    assert (of_core r o ev) as Ho by (by exists t). split.
    - intros r' rc'. rewrite Hrec, lookup_alter_Some. intros [(-> & rc & Hr & ->)|[Hne Hr]]; [by eapply Hsame|apply Hother; [done|]].
      intros o' [t' Ht']. congruence.
    - intros r'. rewrite Hrec. destruct (decide (r = r')) as [<-|Hne]; [rewrite lookup_alter_eq|rewrite lookup_alter_ne by done].
      + destruct (recorders s !! r) eqn:Hr; cbn; constructor. by eapply Hsame.
      + destruct (recorders s !! r'); constructor; apply phased_refl. }
  all: split; [intros r rc Hr; rewrite Hrec in Hr; apply Hother; [done|intros o [t Ht]; congruence]|
    intros r; rewrite Hrec; destruct (recorders s !! r); constructor; apply phased_refl].
Qed.

(** ** The phase *)

(** The state of the chains after some of a phase that began with [lb], [G], [s]. *)
Definition Progress (lb G : Z -> Z) (s : ContentionSim) (lb' G' : Z -> Z) (s' : ContentionSim) : Prop :=
  Chains lb' G' (events s') /\ Clocks lb' G' s' /\ (forall r, G r <= G' r) /\ (forall x, lb x <= lb' x) /\
  forall r, option_Forall2 phased (recorders s !! r) (recorders s' !! r).

Lemma option_phased_refl (x : option CoreRecorder) : option_Forall2 phased x x.
Proof. destruct x; constructor. apply phased_refl. Qed.
Lemma option_phased_trans (x y z : option CoreRecorder) : option_Forall2 phased x y -> option_Forall2 phased y z -> option_Forall2 phased x z.
Proof. destruct 1; inversion 1; subst; constructor. by eapply phased_trans. Qed.

Lemma progress_refl lb G s : Chains lb G (events s) -> Clocks lb G s -> Progress lb G s lb G s.
Proof. intros HC HK. split_and!; try done. intros r. apply option_phased_refl. Qed.

Lemma progress_round lb0 G0 s0 lb G s e ev :
  Progress lb0 G0 s0 lb G s -> WellFormed lb (set_curCycle (privCycle ev) s) -> events s !! e = Some ev -> state ev = EV_QUEUED ->
  curCycle s <= privCycle ev < limit s -> exists lb', WellFormed lb' (set_curCycle (privCycle ev) s) /\
    forall s1, WellFormed lb' (set_curCycle (privCycle ev) s1) -> lb' e <= privCycle ev -> Round e ev (privCycle ev) s s1 ->
      Progress lb0 G0 s0 lb' (late ev (privCycle ev) G) s1.
Proof.
  intros (HCh & HC & HG & Hlb & Hph) HW He Hst Hcyc.
  destruct (base_queued _ _ _ _ _ (proj1 HW) _ _ He Hst) as (_ & Hlbe & _).
  destruct (chains_late lb G (set_curCycle (privCycle ev) s) e ev) as (lb' & HW' & HCh' & Hle & Hmove); [done..|].
  exists lb'. split; [done|]. intros s1 HW1 _ [_ _ (El & _) _ Hback Hafter]. pose proof (base_events _ _ _ _ _ (proj1 HW1)) as HE1.
  destruct (clocks_run lb lb' G s s1 e ev (privCycle ev)) as [HC1 Hph1]; try done; [apply (base_events _ _ _ _ _ (proj1 HW'))|apply HW|lia|].
  split_and!.
  - eapply (chains_sub lb' lb'); [apply (base_events _ _ _ _ _ (proj1 HW'))|done..].
  - done.
  - intros r. etrans; [apply HG|]. by eapply late_le.
  - intros x. specialize (Hlb x). specialize (Hle x). lia.
  - intros r. by eapply option_phased_trans.
Qed.

Lemma chain_phase lb G s :
  WellFormed lb s -> curCycle s <= limit s -> Chains lb G (events s) -> Clocks lb G s ->
  wp simulatePhaseThread s (fun _ s' => exists lb' G', WellFormed lb' s' /\ Progress lb G s lb' G' s' /\
    (curCycle s' = limit s /\ limit s' = limit s /\ lastLimit s' = lastLimit s /\ phaseLength s' = phaseLength s) /\
    forall e ev, events s' !! e = Some ev -> state ev = EV_QUEUED -> limit s <= privCycle ev).
Proof.
  intros HW Hlim HCh HC. eapply wp_mono.
  - apply (phase_gen (fun lb1 s1 => (exists G1, Progress lb G s lb1 G1 s1) /\ lastLimit s1 = lastLimit s /\ phaseLength s1 = phaseLength s))
      with (lb := lb); [|done|done|split; [exists G; by apply progress_refl|done]].
    intros lb1 s1 e ev ([G1 HP] & E1 & E2) HW1 He Hst Hcyc. destruct (progress_round lb G s lb1 G1 s1 e ev) as (lb' & HW' & Hnext); [done..|].
    exists lb'. split; [done|]. intros s2 HW2 Hlb HR. destruct (rd_fields _ _ _ _ _ HR) as (_ & F1 & F2).
    split; [exists (late ev (privCycle ev) G1); by apply Hnext|]. split; congruence.
  - intros _ s' (lb' & s1 & -> & El & HW' & ([G' HP] & E1 & E2) & Hall). by exists lb', G'.
Qed.
