(* ===== verification/EventRecorder.v ===== *)
(** * The event recorder of a core (event_recorder.h)

    While an access goes through the caches, the events that stand for it wait in
    the recorder of its core: at most one record, from the first to the last
    event, which the next level takes and replaces. *)

From stdpp Require Import base tactics numbers list gmap.
From Stdlib Require Import ZArith Lia.
From S2P Require Import MemTypes Prelude PrioQueue TimingEvents.

Open Scope Z_scope.

Record TimingRecord : Type := mkRecord {
  tr_addr : Z; tr_reqCycle : Z; tr_respCycle : Z; tr_type : AccessType; startEvent : ptr; endEvent : ptr
}.
Definition isValid (r : TimingRecord) : bool := bool_decide (startEvent r <> None).
Definition clear (r : TimingRecord) : TimingRecord :=
  mkRecord (tr_addr r) (tr_reqCycle r) (tr_respCycle r) (tr_type r) None (endEvent r).

(** The event of a miss keeps the address of the start of the miss. *)
Definition mentioned (ev : TimingEvent) : list Z := match class ev with MissResponseEvent _ m | MissWritebackEvent _ m => [m] | _ => [] end.
Definition names (E : gmap Z TimingEvent) : list Z := concat (map (fun x => x.1 :: mentioned x.2) (map_to_list E)).

(** The allocator gives an address that is not in use; here the lowest one that no
    event has kept, so that a new event is not taken for one that is gone. *)
Definition free_address (E : gmap Z TimingEvent) : Z :=
  default 0 (head (filter (fun k => k ∉ names E) (seqZ 1 (Z.of_nat (length (names E)) + 1)))).
Definition alloc_event (ev : TimingEvent) : sim Z :=
  e ← gets (fun s => free_address (events s));
  modify (set_events (insert e ev));;
  mret e.

Lemma elem_of_names E k : k ∈ names E <-> exists x ev, E !! x = Some ev /\ (k = x \/ k ∈ mentioned ev).
Proof.
  unfold names. rewrite list_elem_of_In, in_concat. setoid_rewrite in_map_iff. split.
  - intros (l & ([x ev] & <- & Hin) & Hk). apply list_elem_of_In, elem_of_map_to_list in Hin. exists x, ev. split; [done|].
    by apply list_elem_of_In, elem_of_cons in Hk.
  - intros (x & ev & Hx & Hk). exists (x :: mentioned ev). split; [|by apply list_elem_of_In, elem_of_cons].
    exists (x, ev). split; [done|]. by apply list_elem_of_In, elem_of_map_to_list.
Qed.

Lemma names_length E : Z.of_nat (length (names E)) <= 2 * Z.of_nat (base.size E).
Proof.
  unfold names. rewrite <- length_map_to_list. induction (map_to_list E) as [|[x ev] l IH]; cbn [map concat length fst snd]; [done|].
  rewrite length_app. cbn [length]. assert (length (mentioned ev) <= 1)%nat by (unfold mentioned; destruct (class ev); cbn; lia). lia.
Qed.

Lemma free_address_spec E :
  E !! free_address E = None /\ (forall x ev, E !! x = Some ev -> free_address E ∉ mentioned ev) /\
  1 <= free_address E <= 2 * Z.of_nat (base.size E) + 1.
Proof.
  enough ((free_address E ∉ names E) /\ 1 <= free_address E <= Z.of_nat (length (names E)) + 1) as [Hno ?].
  { pose proof (names_length E). rewrite elem_of_names in Hno. split_and!; [|intros x ev Hx Hin; apply Hno; eauto|lia..].
    destruct (E !! free_address E) eqn:He; [|done]. destruct Hno. eauto. }
  unfold free_address. set (l := filter _ _).
  assert (forall k, k ∈ l <-> (k ∉ names E) /\ 1 <= k <= Z.of_nat (length (names E)) + 1) as Hl.
  { intros k. unfold l. rewrite list_elem_of_filter, elem_of_seqZ. apply and_iff_compat_l. lia. }
  destruct l as [|k l0] eqn:El; [|apply (Hl k); cbn; by left]. exfalso.
  assert (seqZ 1 (Z.of_nat (length (names E)) + 1) ⊆+ names E) as Hsub%submseteq_length.
  { apply NoDup_submseteq; [apply NoDup_seqZ|]. intros k Hk%elem_of_seqZ. destruct (decide (k ∈ names E)) as [|Hno]; [done|].
    assert (k ∈ @nil Z) as Hin by (apply Hl; split; [done|lia]). by apply elem_of_nil in Hin. }
  rewrite length_seqZ in Hsub. lia.
Qed.

(** The simulation that the accesses share: the events, the record that waits in the
    recorder of each core (a core without a recorder is not in the map), and
    the levels above the prefetcher. *)
Record World (P : Type) : Type := mkWorld {
  csim : ContentionSim; eventRecorders : gmap Z TimingRecord; above : P
}.
Arguments mkWorld {P}. Arguments csim {P}. Arguments eventRecorders {P}. Arguments above {P}.

Section world.
Context {P : Type}.

Definition set_csim (s : ContentionSim) (w : World P) : World P := mkWorld s (eventRecorders w) (above w).
Definition set_slot (r : Z) (tr : TimingRecord) (w : World P) : World P := mkWorld (csim w) (<[r := tr]> (eventRecorders w)) (above w).

Definition at_slot (r : Z) : st (World P) TimingRecord := fun w =>
  match eventRecorders w !! r with Some tr => Ok (tr, w) | None => Err Panicked end.

Definition pushRecord (r : Z) (rec : TimingRecord) : st (World P) unit :=
  tr ← at_slot r;
  assert_ (negb (isValid tr));;
  modify (set_slot r rec);;
  assert_ (isValid rec).
Definition popRecord (r : Z) : st (World P) TimingRecord :=
  rec ← at_slot r;
  modify (set_slot r (clear rec));;
  mret rec.
(** [evRec && evRec->hasRecord()]. *)
Definition hasRecord (r : Z) : st (World P) bool :=
  gets (fun w => match eventRecorders w !! r with Some tr => isValid tr | None => false end).

(** [new (evRec) ...]. *)
Definition new_event (r : Z) (ev : TimingEvent) : st (World P) Z :=
  at_slot r;;
  zoom csim set_csim (alloc_event ev).
End world.
