(* ===== verification/CoreRecorder.v ===== *)
(** * The recorder of a simple core (core_recorder.h/.cpp, contention_sim.cpp)

    A core runs in the bound phase on a clock of its own, [curCycle], without
    contention.  Its recorder links the accesses to a chain of events, and after
    the weave phase moves the clock by as much as the chain was delayed: the
    skew goes to [gapCycles], so that [curCycle - gapCycles], the clock without
    load, stays the same.  Here are its calls, and the phase that runs between
    them. *)

From stdpp Require Import base tactics numbers list gmap.
From Stdlib Require Import ZArith Lia.
From S2P Require Import MemTypes Prelude PrioQueue TimingEvents EventRecorder.

Open Scope Z_scope.

(** ** The fields that the calls set *)

Definition set_rec_state (x : RecorderState) (c : CoreRecorder) : CoreRecorder :=
  mkRecorder x (gapCycles c) (prevRespCycle c) (prevRespEvent c) (lastEventSimulatedStartCycle c) (lastEventSimulatedOrigStartCycle c)
    (totalGapCycles c) (totalHaltedCycles c) (lastUnhaltedCycle c) (rec_domain c) (lastGapCycles c) (lastStartSlack c).
(** [prevRespEvent] and [prevRespCycle]. *)
Definition set_prevResp (p : ptr) (cyc : Z) (c : CoreRecorder) : CoreRecorder :=
  mkRecorder (rec_state c) (gapCycles c) cyc p (lastEventSimulatedStartCycle c) (lastEventSimulatedOrigStartCycle c)
    (totalGapCycles c) (totalHaltedCycles c) (lastUnhaltedCycle c) (rec_domain c) (lastGapCycles c) (lastStartSlack c).
(** [gapCycles], here and in the event recorder. *)
Definition set_gapCycles (x : Z) (c : CoreRecorder) : CoreRecorder :=
  mkRecorder (rec_state c) x (prevRespCycle c) (prevRespEvent c) (lastEventSimulatedStartCycle c) (lastEventSimulatedOrigStartCycle c)
    (totalGapCycles c) (totalHaltedCycles c) (lastUnhaltedCycle c) (rec_domain c) x (lastStartSlack c).
Definition set_totals (gap halted : Z) (c : CoreRecorder) : CoreRecorder :=
  mkRecorder (rec_state c) (gapCycles c) (prevRespCycle c) (prevRespEvent c) (lastEventSimulatedStartCycle c) (lastEventSimulatedOrigStartCycle c)
    gap halted (lastUnhaltedCycle c) (rec_domain c) (lastGapCycles c) (lastStartSlack c).
Definition set_lastUnhaltedCycle (x : Z) (c : CoreRecorder) : CoreRecorder :=
  mkRecorder (rec_state c) (gapCycles c) (prevRespCycle c) (prevRespEvent c) (lastEventSimulatedStartCycle c) (lastEventSimulatedOrigStartCycle c)
    (totalGapCycles c) (totalHaltedCycles c) x (rec_domain c) (lastGapCycles c) (lastStartSlack c).
Definition setStartSlack (x : Z) (c : CoreRecorder) : CoreRecorder :=
  mkRecorder (rec_state c) (gapCycles c) (prevRespCycle c) (prevRespEvent c) (lastEventSimulatedStartCycle c) (lastEventSimulatedOrigStartCycle c)
    (totalGapCycles c) (totalHaltedCycles c) (lastUnhaltedCycle c) (rec_domain c) (lastGapCycles c) x.

(** The constructor; the fields that it leaves alone are arguments. *)
Definition CoreRecorder_init (dom resp start orig slack : Z) : CoreRecorder :=
  mkRecorder HALTED 0 resp None start orig 0 0 0 dom 0 slack.

(** ** The bound phase *)

(** [new (eventRecorder) TimingCoreEvent(delay, origStartCycle, this, domain)]. *)
Definition new_core_event (r delay orig dom minStart : Z) : sim Z :=
  alloc_event (setMinStartCycle minStart (TimingEvent_init 0 (u32 delay) dom (TimingCoreEvent r orig 0))).

(** The event that covers [delay] cycles from the last response, a child of the
    last event. *)
Definition append_event (r delay : Z) : sim Z :=
  rc ← at_recorder r;
  ev ← new_core_event r delay (u64 (prevRespCycle rc - gapCycles rc)) (-1) (prevRespCycle rc);
  match prevRespEvent rc with Some p => addChild p ev | None => fail Panicked end.

(** [globPhaseCycles] is the cycle at which the phase starts. *)
Definition notifyJoin (r globPhaseCycles curCycle : Z) : sim Z :=
  rc ← at_recorder r;
  c ← match rec_state rc with
    | HALTED =>
      assert_ (bool_decide (prevRespEvent rc = None));;
      let c := globPhaseCycles in
      assert_ (lastUnhaltedCycle rc <=? c);;
      set_recorder r (fun rc => set_totals (u64 (totalGapCycles rc + gapCycles rc)) (u64 (totalHaltedCycles rc + (c - lastUnhaltedCycle rc))) (set_gapCycles 0 rc));;
      ev ← new_core_event r 0 c (rec_domain rc) c;
      set_recorder r (set_prevResp (Some ev) c);;
      queue ev c;;
      set_recorder r (setStartSlack 0);;
      mret c
    | DRAINING => assert_ (globPhaseCycles <=? curCycle);; mret curCycle
    | RUNNING => fail Panicked
    end;
  set_recorder r (set_rec_state RUNNING);;
  mret c.

Definition notifyLeave (r curCycle : Z) : sim unit :=
  rc ← at_recorder r;
  assert_ (bool_decide (rec_state rc = RUNNING));;
  set_recorder r (set_rec_state DRAINING);;
  assert_ (bool_decide (prevRespEvent rc <> None));;
  ev ← append_event r (u64 (curCycle - prevRespCycle rc));
  set_recorder r (set_prevResp (Some ev) curCycle);;
  ev ← append_event r 0;
  set_recorder r (set_prevResp (Some ev) curCycle).

(** [recordAccess], with the record that it pops.  With one domain there are no
    crossings to produce. *)
Definition add_start (p : Z) (start : ptr) : sim unit :=
  match start with Some a => addChild p a;; mret tt | None => fail Panicked end.
Definition recordAccess (r startCycle : Z) (tr : TimingRecord) : sim unit :=
  rc ← at_recorder r;
  assert_ (prevRespCycle rc <=? startCycle);;
  assert_ (startCycle <=? tr_reqCycle tr);;
  if IsGet (tr_type tr) then
    ev ← append_event r (u64 (tr_reqCycle tr - prevRespCycle rc));
    add_start ev (startEvent tr);;
    set_recorder r (set_prevResp (endEvent tr) (tr_respCycle tr));;
    assert_ (bool_decide (endEvent tr <> None))
  else
    assert_ (IsPut (tr_type tr));;
    dr ← alloc_event (setMinStartCycle (prevRespCycle rc) (TimingEvent_init (u32 (u64 (tr_reqCycle tr - prevRespCycle rc))) 0 (-1) DelayEvent));
    match prevRespEvent rc with Some p => addChild p dr;; add_start dr (startEvent tr) | None => fail Panicked end.
Definition record {P} (r startCycle : Z) : st (World P) unit :=
  has ← hasRecord r;
  when has (tr ← popRecord r; zoom csim set_csim (recordAccess r startCycle tr)).

(** ** Between the phases *)

(** [RUNNING] in [cSimStart]: the chain is continued to the end of the phase. *)
Definition taper (r curCycle : Z) : sim unit :=
  rc ← at_recorder r;
  when (prevRespCycle rc <? curCycle) (
    ev ← append_event r (u64 (curCycle - prevRespCycle rc));
    set_recorder r (set_prevResp (Some ev) curCycle));;
  ev ← append_event r 0;
  set_recorder r (fun rc => set_prevResp (Some ev) (prevRespCycle rc) rc).

Definition cSimStart (r globPhaseCycles curCycle : Z) : sim Z :=
  rc ← at_recorder r;
  nextPhaseCycle ← gets (fun s => u64 (globPhaseCycles + phaseLength s));
  match rec_state rc with
  | HALTED => mret curCycle
  | RUNNING => assert_ (nextPhaseCycle <=? curCycle);; taper r curCycle;; mret curCycle
  | DRAINING => mret (Z.max curCycle nextPhaseCycle)
  end.

Definition cSimEnd (r curCycle : Z) : sim Z :=
  rc ← at_recorder r;
  if bool_decide (rec_state rc = HALTED) then mret curCycle
  else
    let lastEvCycle1 := u64 (lastEventSimulatedOrigStartCycle rc + gapCycles rc) in
    let lastEvCycle2 := lastEventSimulatedStartCycle rc in
    assert_ (lastEvCycle1 <=? curCycle);;
    assert_ (lastEvCycle2 <=? curCycle);;
    (if lastEvCycle2 <? lastEvCycle1 then fail Panicked else mret tt);;
    let skew := lastEvCycle2 - lastEvCycle1 in
    set_recorder r (fun rc => set_prevResp (prevRespEvent rc) (u64 (prevRespCycle rc + skew)) (set_gapCycles (u64 (gapCycles rc + skew)) rc));;
    when (bool_decide (prevRespEvent rc = None)) (
      assert_ (bool_decide (rec_state rc = DRAINING));;
      set_recorder r (fun rc => set_rec_state HALTED (set_lastUnhaltedCycle (lastEventSimulatedStartCycle rc) rc)));;
    mret (u64 (curCycle + skew)).

(** A call of every core, with the clock of each. *)
Fixpoint each_core (f : Z -> Z -> sim Z) (l : list (Z * Z)) : sim (list (Z * Z)) :=
  match l with
  | [] => mret []
  | (r, cur) :: l => cur ← f r cur; l ← each_core f l; mret ((r, cur) :: l)
  end.

(** [ContentionSim::simulatePhase], for the recorders of the cores with their clocks. *)
Definition simulatePhase (globPhaseCycles lim : Z) (cores : list (Z * Z)) : sim (list (Z * Z)) :=
  last ← gets lastLimit;
  modify (set_limit lim);;
  assert_ (last <=? lim);;
  cores ← each_core (fun r => cSimStart r globPhaseCycles) cores;
  modify (set_inCSim true);;
  simulatePhaseThread;;
  modify (set_inCSim false);;
  cores ← each_core cSimEnd cores;
  modify (set_lastLimit lim);;
  mret cores.

(** ** Statistics *)

Definition getUnhaltedCycles (globPhaseCycles curCycle : Z) (c : CoreRecorder) : Z :=
  let cyc := Z.max curCycle globPhaseCycles in
  let haltedCycles := u64 (totalHaltedCycles c + if decide (rec_state c = HALTED) then cyc - lastUnhaltedCycle c else 0) in
  u64 (cyc - haltedCycles).
Definition getContentionCycles (c : CoreRecorder) : Z := u64 (totalGapCycles c + gapCycles c).
