(* ===== verification/RecorderBound.v ===== *)
(** * The bound phase of a recorder

    A core's event goes to the end of the chain: it is a new child of the last event.
    The graph stays in order, and its clocks and those of the recorder go on as
    before. *)

From stdpp Require Import base tactics numbers list gmap relations sets sorting.
From Stdlib Require Import ZArith Lia.
From S2P Require Import Prelude PrioQueue TimingEvents WeaveInv Weave WeavePhase WeaveFrame WeaveMain CachePort RecorderInv EventRecorder CoreRecorder.

Open Scope Z_scope.

(** ** A new event at the end of a chain *)

Lemma children_kids ev l : Children ev l -> kids ev ≡ₚ l /\ Forall is_Some (visited ev) /\ Z.of_nat (length (visited ev)) = numChildren ev.
Proof.
  intros HC. destruct (children_visited_spec _ _ HC) as (vs & Hv & Hp & Hn). unfold kids. rewrite Hv. split_and!.
  - rewrite <- Hp. clear. induction vs; cbn; [done|by constructor].
  - apply Forall_fmap, Forall_forall. by eexists.
  - by rewrite length_map.
Qed.

Lemma occurs_perm c l l' : l ≡ₚ l' -> occurs c l = occurs c l'.
Proof. induction 1 as [|x l l' H IH|x y l|l l' l'' H IH H' IH']; rewrite ?occurs_cons; try lia. Qed.

Definition lb_ext (lb : Z -> Z) (e c x : Z) : Z := if decide (x = e) then c else lb x.

(** An event that got a child. *)
Definition linked (pv pv' : TimingEvent) : Prop :=
  privCycle pv' = privCycle pv /\ state pv' = state pv /\ cycle pv' = cycle pv /\ minStartCycle pv' = minStartCycle pv /\
  domain pv' = domain pv /\ numParents pv' = numParents pv /\ preDelay pv' = preDelay pv /\ postDelay pv' = postDelay pv /\ class pv' = class pv.

(** [p] becomes [pv'], with one more child: the new event [e] of a core, which has no children. *)
Record Extends (lb : Z -> Z) (E : EvMap) (p e c : Z) (pv pv' ev : TimingEvent) (l : list Z) : Prop := {
  ex_inv : EventsInv lb [] ∅ E;
  ex_last : E !! p = Some pv;
  ex_free : E !! e = None;
  ex_fresh x xv : E !! x = Some xv -> e ∉ mentioned xv;
  ex_old : Children pv l;
  ex_new : Children pv' (e :: l);
  ex_linked : linked pv pv';
  ex_ok : EventOk (lb_ext lb e c) e ev;
  ex_fields : state ev = EV_NONE /\ numParents ev = 1 /\ links ev = child None /\ numChildren ev = 0 /\ cycle ev = 0 /\
    exists r o t, class ev = TimingCoreEvent r o t;
  ex_cycle : c <= lb p + lat pv + postDelay pv + preDelay ev
}.
Definition extended (E : EvMap) (p e : Z) (pv' ev : TimingEvent) : EvMap := <[e := ev]> (<[p := pv']> E).

Section extend.
Context (lb : Z -> Z) (E : EvMap) (p e c : Z) (pv pv' ev : TimingEvent) (l : list Z).
Hypothesis HX : Extends lb E p e c pv pv' ev l.
Let HE := ex_inv _ _ _ _ _ _ _ _ _ HX.
Let Hp := ex_last _ _ _ _ _ _ _ _ _ HX.
Let He := ex_free _ _ _ _ _ _ _ _ _ HX.
Let Hfresh := ex_fresh _ _ _ _ _ _ _ _ _ HX.
Let Hold := ex_old _ _ _ _ _ _ _ _ _ HX.
Let Hnew := ex_new _ _ _ _ _ _ _ _ _ HX.
Let Hsame := ex_linked _ _ _ _ _ _ _ _ _ HX.
Let Hev := ex_ok _ _ _ _ _ _ _ _ _ HX.
Let Hfields := ex_fields _ _ _ _ _ _ _ _ _ HX.
Let Hc := ex_cycle _ _ _ _ _ _ _ _ _ HX.
#[local] Abbreviation EX := (extended E p e pv' ev).
#[local] Abbreviation LBE := (lb_ext lb e c).

Lemma ext_distinct : p <> e.
Proof. congruence. Qed.

Lemma ext_lookup x xv : EX !! x = Some xv ->
  x = e /\ xv = ev \/ x = p /\ x <> e /\ xv = pv' \/ x <> p /\ x <> e /\ E !! x = Some xv.
Proof.
  unfold extended. intros [[<- <-]|[Hne Hx]]%lookup_insert_Some; [by left|].
  apply lookup_insert_Some in Hx as [[<- <-]|[Hne' Hx]]; [right; left|right; right]; auto.
Qed.

Lemma ext_e : EX !! e = Some ev.
Proof. apply lookup_insert_eq. Qed.
Lemma ext_p : EX !! p = Some pv'.
Proof. unfold extended. rewrite lookup_insert_ne by (symmetry; apply ext_distinct). apply lookup_insert_eq. Qed.
Lemma ext_other x : x <> p -> x <> e -> EX !! x = E !! x.
Proof. intros. unfold extended. by rewrite !lookup_insert_ne. Qed.

(** A sum over the events. *)
Lemma ext_sum (f : TimingEvent -> Z) : map_sum (fun _ => f) EX = map_sum (fun _ => f) E - f pv + f pv' + f ev.
Proof.
  unfold extended. rewrite map_sum_insert by (rewrite lookup_insert_ne by apply ext_distinct; done).
  rewrite (map_sum_update (fun _ => f) E p pv pv' Hp). lia.
Qed.

Lemma kids_new : kids ev = [].
Proof. unfold kids, visited. destruct Hfields as (_ & _ & _ & -> & _ & _). done. Qed.
Lemma kids_last x : occurs x (kids pv') = (if decide (e = x) then 1 else 0) + occurs x (kids pv).
Proof.
  destruct (children_kids _ _ Hold) as [H1 _]. destruct (children_kids _ _ Hnew) as [H2 _].
  by rewrite (occurs_perm _ _ _ H1), (occurs_perm _ _ _ H2), occurs_cons.
Qed.
Lemma not_done : state pv <> EV_DONE.
Proof. pose proof (idle_waiting _ _ _ _ HE Hp) as Hw. by intros Hd; rewrite Hd in Hw. Qed.

(** The edges. *)
Lemma ext_edge a b : edge EX a b <-> edge E a b \/ a = p /\ b = e.
Proof.
  destruct Hsame as (_ & Hst & _). split.
  - intros (av & Ha & Hs & Hk). apply ext_lookup in Ha as [[-> ->]|[(-> & Hne & ->)|(Hne & Hne' & Ha)]].
    + rewrite kids_new in Hk. by apply elem_of_nil in Hk.
    + apply occurs_elem in Hk. rewrite kids_last in Hk. case_decide; [by right|left]. exists pv. rewrite <- Hst. split_and!; [done..|].
      apply occurs_elem. lia.
    + left. by exists av.
  - intros [(av & Ha & Hs & Hk)|[-> ->]].
    + destruct (decide (a = p)) as [->|Hne].
      * exists pv'. assert (av = pv) as -> by congruence. split_and!; [apply ext_p|by rewrite Hst|]. apply occurs_elem in Hk.
        apply occurs_elem. rewrite kids_last. case_decide; lia.
      * exists av. rewrite ext_other by congruence. done.
    + exists pv'. split_and!; [apply ext_p|rewrite Hst; apply not_done|]. apply occurs_elem. rewrite kids_last, decide_True by done.
      pose proof (occurs_nonneg e (kids pv)). lia.
Qed.

Lemma edge_old a b : edge E a b -> a <> e /\ b <> e.
Proof.
  intros (av & Ha & Hs & Hk). split; [congruence|]. destruct (ev_edges _ _ _ _ HE _ _ _ Ha Hs Hk) as (ch & Hch & _). congruence.
Qed.

(** A path is an old one, or one to the end of the chain and on to the new event. *)
Lemma ext_path a b : tc (edge EX) a b <-> tc (edge E) a b \/ b = e /\ below E a p.
Proof.
  split.
  - induction 1 as [a b H|a b d H _ IH].
    + apply ext_edge in H as [H|[-> ->]]; [left; by apply tc_once|right]. split; [done|by left].
    + apply ext_edge in H as [H|[-> ->]].
      * destruct IH as [IH|[-> IH]]; [left; by eapply tc_l|right]. split; [done|right].
        destruct IH as [<-|IH]; [by apply tc_once|by eapply tc_l].
      * exfalso. destruct IH as [IH|[_ IH]].
        -- inversion IH as [? ? H'|? ? ? H' _]; subst; by apply edge_old in H' as [? _].
        -- destruct IH as [?|IH]; [by apply ext_distinct|]. inversion IH as [? ? H'|? ? ? H' _]; subst; by apply edge_old in H' as [? _].
  - assert (forall a b, tc (edge E) a b -> tc (edge EX) a b) as Hmono.
    { induction 1 as [x y H|x y z H _ IH]; [apply tc_once|eapply tc_l; [|exact IH]]; apply ext_edge; by left. }
    intros [H|[-> [<-|H]]]; [by apply Hmono|apply tc_once, ext_edge; by right|].
    eapply tc_r; [by apply Hmono|]. apply ext_edge. by right.
Qed.

Lemma ext_below a x : a <> e -> below EX a x <-> below E a x \/ x = e /\ below E a p.
Proof. intros Ha. unfold below at 1. rewrite ext_path. unfold below. naive_solver. Qed.

Lemma lb_old x xv : E !! x = Some xv -> LBE x = lb x.
Proof. intros Hx. unfold lb_ext. rewrite decide_False; [done|congruence]. Qed.

(** What an event of the new graph was. *)
Lemma ext_back x xv : EX !! x = Some xv ->
  x = e /\ xv = ev \/ x <> e /\ exists xv0, E !! x = Some xv0 /\ state xv = state xv0 /\ class xv = class xv0 /\ privCycle xv = privCycle xv0 /\
    cycle xv = cycle xv0 /\ preDelay xv = preDelay xv0 /\ postDelay xv = postDelay xv0 /\ numParents xv = numParents xv0.
Proof.
  destruct Hsame as (? & ? & ? & ? & ? & ? & ? & ? & ?).
  intros [[-> ->]|[(-> & Hne & ->)|(Hne & Hne' & Hx)]]%ext_lookup; [by left|right; split; [done|]; by exists pv|right; split; [done|]; by exists xv].
Qed.
Lemma ext_forth x xv0 : E !! x = Some xv0 -> exists xv, EX !! x = Some xv /\ state xv = state xv0 /\ class xv = class xv0 /\
  privCycle xv = privCycle xv0 /\ preDelay xv = preDelay xv0 /\ postDelay xv = postDelay xv0.
Proof.
  intros Hx. destruct Hsame as (? & ? & ? & ? & ? & ? & ? & ? & ?). destruct (decide (x = p)) as [->|Hne].
  - exists pv'. assert (xv0 = pv) as -> by congruence. split; [apply ext_p|done].
  - exists xv0. rewrite ext_other by congruence. done.
Qed.

Lemma ext_sum_same (f : TimingEvent -> Z) : f pv' = f pv -> f ev = 0 -> map_sum (fun _ => f) EX = map_sum (fun _ => f) E.
Proof. intros H1 H2. rewrite ext_sum, H1, H2. lia. Qed.

Lemma ext_releases m d : releases EX m d = releases E m d.
Proof.
  destruct Hsame as (_ & Hst & _ & _ & _ & _ & _ & _ & Hcl), Hfields as (_ & _ & _ & _ & _ & r & o & t & Hcl').
  apply ext_sum_same; unfold release_of; [by rewrite Hcl, Hst|by rewrite Hcl'].
Qed.

Lemma ext_active d : active EX d = active E d.
Proof.
  destruct Hsame as (_ & Hst & _ & _ & _ & _ & _ & _ & Hcl), Hfields as (_ & _ & _ & _ & _ & r & o & t & Hcl').
  assert (forall x xv, E !! x = Some xv -> active_of EX d xv = active_of E d xv) as Hof.
  { intros x xv Hx. unfold active_of. destruct (class xv) eqn:Hxc; try done. case_decide; [|done].
    assert (pending EX mse = pending E mse) as ->; [|done]. unfold pending.
    destruct (decide (mse = e)) as [->|Hne]; [destruct (Hfresh _ _ Hx); unfold mentioned; rewrite Hxc; by left|].
    destruct (decide (mse = p)) as [->|Hne']; [by rewrite ext_p, Hp, Hst|by rewrite ext_other]. }
  unfold active. transitivity (map_sum (fun _ => active_of EX d) E); [apply ext_sum_same|apply map_sum_ext; intros; by eapply Hof].
  - assert (forall E', active_of E' d pv' = active_of E' d pv) as -> by (intros; unfold active_of; by rewrite Hcl, Hst). done.
  - unfold active_of. by rewrite Hcl'.
Qed.

Lemma extended_inv : EventsInv LBE [] ∅ EX.
Proof.
  pose proof HE as [Hok Hpar Hedge Hpend Hrun Hrel Hmiss].
  destruct Hsame as (Epc & Est & Ecy & Emin & Edom & Epar & Epre & Epost & Ecl), Hfields as (Fst & Fpar & Flk & Fn & _ & r & o & t & Fcl).
  assert (forall x xv, EX !! x = Some xv -> numParents xv = edges_to EX x) as Hcount.
  { intros x xv Hx. unfold edges_to. rewrite ext_sum. fold (edges_to E x).
    assert (edges_of x ev = 0) as -> by (unfold edges_of; rewrite kids_new; by case_decide).
    assert (edges_of x pv' = (if decide (e = x) then 1 else 0) + edges_of x pv) as ->.
    { unfold edges_of. rewrite Est, !(decide_False (P := state pv = EV_DONE)) by apply not_done. apply kids_last. }
    destruct (ext_back _ _ Hx) as [[-> ->]|(Hne & xv0 & Hx0 & _ & _ & _ & _ & _ & _ & ->)].
    - rewrite decide_True, Fpar by done. assert (edges_to E e = 0) as ->; [|lia]. apply map_sum_zero. intros x xv Hxv.
      unfold edges_of. case_decide; [done|]. pose proof (occurs_nonneg e (kids xv)).
      destruct (decide (0 < occurs e (kids xv))) as [Hpos%occurs_elem|]; [|lia]. exfalso.
      by destruct (edge_old x e) as [_ ?]; [exists xv|].
    - rewrite decide_False by done. rewrite (Hpar _ _ Hx0). cbn. lia. }
  split.
  - intros x xv Hx. destruct (ext_lookup _ _ Hx) as [[-> ->]|[(-> & Hne & ->)|(Hne & Hne' & Hx0)]]; [done| |].
    + destruct (Hok _ _ Hp) as [H1 H2 H3 H4 H5 H6 H7 H8 H9 H10 H11 H12 H13 H14]. destruct (children_kids _ _ Hnew) as (_ & Hv).
      split; unfold lat, holder, accessed in *; rewrite ?(lb_old _ _ Hp), ?Epre, ?Epost, ?Emin, ?Edom, ?Epar, ?Ecl, ?Est; done.
    + destruct (Hok _ _ Hx0) as []. split; rewrite ?(lb_old _ _ Hx0); done.
  - intros x xv Hx. rewrite (Hcount _ _ Hx). cbn. lia.
  - intros x xv y Hx Hs Hy. assert (edge EX x y) as [He'|[-> ->]]%ext_edge by (by exists xv).
    + destruct He' as (xv0 & Hx0 & Hs0 & Hy0). destruct (Hedge _ _ _ Hx0 Hs0 Hy0) as (ch & Hch & Hcs & Hle).
      destruct (ext_forth _ _ Hch) as (ch' & Hch' & Hcs' & _ & _ & Ecpre & _). exists ch'. split_and!; [done|congruence|].
      rewrite (lb_old _ _ Hch), (lb_old _ _ Hx0), Ecpre. destruct (ext_forth _ _ Hx0) as (xv' & Hx' & _ & Exc & _ & _ & Expost).
      assert (xv' = xv) as -> by congruence. unfold lat in *. rewrite Exc, Expost. done.
    + exists ev. rewrite ext_p in Hx. injection Hx as <-. split_and!; [apply ext_e|done|]. rewrite (lb_old _ _ Hp).
      unfold lb_ext. rewrite decide_True by done. unfold lat in *. rewrite Ecl, Epost. done.
  - intros y u Hyu. by apply elem_of_nil in Hyu.
  - intros x xv Hx Hw. exfalso. destruct (ext_back _ _ Hx) as [[-> ->]|(_ & xv0 & Hx0 & Hs & _)]; [by rewrite Fst in Hw|].
    rewrite Hs, (idle_waiting _ _ _ _ HE Hx0) in Hw. done.
  - intros w wb d m xv Hw Hcl Hm Hs. destruct (ext_back _ _ Hw) as [[-> ->]|(_ & wb0 & Hw0 & _ & Ecw & _)]; [congruence|].
    destruct (ext_back _ _ Hm) as [[-> ->]|(_ & xv0 & Hm0 & Es & Ec & _)].
    + destruct (Hfresh _ _ Hw0). unfold mentioned. rewrite <- Ecw, Hcl. by left.
    + unfold starts. rewrite Ec. apply (Hrel w wb0 d m xv0); congruence.
  - intros m xv d Hm Hs Hcl. unfold starts in Hcl. destruct (ext_back _ _ Hm) as [[-> ->]|(_ & xv0 & Hm0 & Es & Ec & _)]; [by rewrite Fcl in Hcl|].
    rewrite Ec in Hcl. destruct (Hmiss m xv0 d) as [H1 H2]; [done|congruence|done|]. split; [by rewrite ext_releases|].
    intros w wb Hw Hwc. destruct (ext_back _ _ Hw) as [[-> ->]|(_ & wb0 & Hw0 & _ & Ecw & _)]; [congruence|].
    apply ext_path. left. apply (H2 w wb0); congruence.
Qed.

Lemma ext_budget : budget EX = budget E + budget_of ev.
Proof.
  destruct Hsame as (_ & Hst & _ & _ & _ & _ & Hpre & Hpost & Hcl). unfold budget. rewrite ext_sum.
  assert (budget_of pv' = budget_of pv) as ->; [|lia]. unfold budget_of, lat. by rewrite Hst, Hpre, Hpost, Hcl.
Qed.

Lemma ext_queued : queued EX = queued E.
Proof.
  destruct Hsame as (Hpc & Hst & _), Hfields as (Fst & _). apply map_eq. intros x. unfold queued. rewrite !lookup_omap.
  destruct (decide (x = e)) as [->|Hne]; [rewrite ext_e, He; cbn; unfold queued_at; by rewrite decide_False by congruence|].
  destruct (decide (x = p)) as [->|Hne']; [|by rewrite ext_other]. rewrite ext_p, Hp. cbn. unfold queued_at. by rewrite Hst, Hpc.
Qed.

(** The simulation with the new event, which uses up a part of the slack. *)
Lemma base_extended w s : events s = E -> Base lb [] ∅ (w + budget_of ev) s -> 0 <= limit s -> 0 <= w ->
  Base LBE [] ∅ w (set_events (fun _ => EX) s).
Proof.
  intros HEs [_ HQ Hb Hq Hn Hh Hpd Hck] Hlim Hw. rewrite HEs in *. pose proof ext_budget as Eb.
  destruct Hfields as (Fst & _ & _ & _ & Hcy & _). split; cbn [events pq curCycle limit lastLimit inCSim phaseLength set_events];
    try change (top (set_events _ s)) with (top s).
  - apply extended_inv.
  - by rewrite ext_queued.
  - done.
  - intros x xv Hx Hs. destruct (ext_back _ _ Hx) as [[-> ->]|(_ & xv0 & Hx0 & Es & _ & Ep & _)]; [congruence|].
    rewrite (lb_old _ _ Hx0), Ep. destruct (Hq x xv0) as (? & ? & ?); [done|congruence|]. lia.
  - intros x xv Hx Hs. destruct (ext_back _ _ Hx) as [[-> ->]|(_ & xv0 & Hx0 & Es & _ & _ & Ec & _)]; [lia|].
    rewrite Ec. destruct (Hn x xv0) as [? ?]; [done|congruence|]. lia.
  - intros x xv Hx Hs. destruct (ext_back _ _ Hx) as [[-> ->]|(_ & xv0 & Hx0 & Es & _)]; [congruence|].
    rewrite (lb_old _ _ Hx0). apply (Hh x xv0); congruence.
  - intros y t Hyt. by apply elem_of_nil in Hyt.
  - naive_solver lia.
Qed.

Lemma caches_extended w s : events s = E -> CachesOk (w + budget_of ev) (fun _ => 0) s -> (forall r o t, class ev = TimingCoreEvent r o t -> is_Some (recorders s !! r)) ->
  CachesOk w (fun _ => 0) (set_events (fun _ => EX) s).
Proof.
  intros HEs [Ha Hr Hf Hac Hm Hpq Hfull] Hrec. rewrite HEs in *. pose proof ext_budget as Eb. destruct Hfields as (Fst & _ & _ & _ & _ & r1 & o1 & t1 & Fcl).
  split; cbn [events curCycle tcaches recorders set_events]; try change (top (set_events _ s)) with (top s); try done.
  - intros x xv d Hx Hd. destruct (ext_back _ _ Hx) as [[-> ->]|(_ & xv0 & Hx0 & _ & Ec & _)]; [unfold accessed in Hd; by rewrite Fcl in Hd|].
    apply (Ha x xv0); [done|]. unfold accessed in *. by rewrite <- Ec.
  - intros x xv r o t Hx Hd. destruct (ext_back _ _ Hx) as [[-> ->]|(_ & xv0 & Hx0 & _ & Ec & _)]; [by eapply Hrec|].
    apply (Hr x xv0 r o t); congruence.
  - intros d tc Hd. destruct (Hac _ _ Hd). lia.
  - intros d tc Hd. rewrite ext_active. by apply Hm.
  - intros d tc Hd. destruct (Hpq _ _ Hd) as [Hnd Hin]. split; [done|]. intros x. rewrite Hin. split.
    + intros (xv0 & Hx0 & Hs & Hh). destruct (ext_forth _ _ Hx0) as (xv & Hx & Es & Ec & _). exists xv.
      split_and!; [done|congruence|]. unfold holder in *. by rewrite Ec.
    + intros (xv & Hx & Hs & Hh). destruct (ext_back _ _ Hx) as [[-> ->]|(_ & xv0 & Hx0 & Es & Ec & _)]; [congruence|].
      exists xv0. split_and!; [done|congruence|]. unfold holder in *. by rewrite <- Ec.
Qed.

Context (G : Z -> Z) (r o cyc : Z).
Hypothesis HCh : Chains lb G E.
Hypothesis Hat : Attached lb E r cyc p.
Hypothesis Ho : of_core r o ev.
Hypothesis Hcycle : 0 <= o /\ 0 <= G r /\ c = o + G r.

Lemma of_core_class r1 o1 xv xv0 : class xv = class xv0 -> of_core r1 o1 xv -> of_core r1 o1 xv0.
Proof. intros Hcl [t Ht]. exists t. congruence. Qed.

(** An event of a core in the new graph. *)
Lemma ext_core x xv r1 o1 : EX !! x = Some xv -> of_core r1 o1 xv ->
  x = e /\ r1 = r /\ o1 = o \/ x <> e /\ exists xv0, E !! x = Some xv0 /\ of_core r1 o1 xv0.
Proof.
  intros Hx Hx1. destruct (ext_back _ _ Hx) as [[-> ->]|(Hne & xv0 & Hx0 & _ & Hcl & _)].
  - left. destruct Ho as [? ?], Hx1 as [? ?]. split_and!; congruence.
  - right. split; [done|]. exists xv0. split; [done|]. by eapply of_core_class.
Qed.

Lemma no_path_new x : ~ tc (edge EX) e x.
Proof.
  intros [H|[_ [Hpe|H]]]%ext_path; [|by apply ext_distinct|]; inversion H as [? ? H'|? ? ? H' _]; subst; by apply edge_old in H' as [? _].
Qed.

Lemma extended_chains : Chains LBE G EX.
Proof.
  pose proof HCh as [Hc1 Hr1 Hl1 Ha1]. pose proof Hat as [_ Hlast Hapart]. split.
  - intros x xv r1 o1 Hx Hx1. destruct (ext_core _ _ _ _ Hx Hx1) as [(-> & -> & ->)|(Hne & xv0 & Hx0 & Hx1')].
    + unfold lb_ext. by rewrite decide_True.
    + rewrite (lb_old _ _ Hx0). eauto.
  - intros x xv r1 o1 Hx Hx1 a b Hab Hxb. destruct (ext_core _ _ _ _ Hx Hx1) as [(-> & -> & ->)|(Hne & xv0 & Hx0 & Hx1')].
    { by destruct (no_path_new b). }
    rewrite ext_below by done. apply ext_edge in Hab as [Hab|[-> ->]]; apply ext_path in Hxb as [Hxb|[Heb Hxp]].
    + left. by eapply Hr1.
    + by apply edge_old in Hab as [_ ?].
    + exfalso. apply path_last in Hxb as [a Ha]. by apply edge_old in Ha as [_ ?].
    + by left.
  - intros x1 v1 x2 v2 r1 o1 o2 H1 H2 Hx1 Hx2 Hne.
    destruct (ext_core _ _ _ _ H1 Hx1) as [(-> & -> & ->)|(Hne1 & y1 & Hy1 & Hy1')];
      destruct (ext_core _ _ _ _ H2 Hx2) as [(-> & E2 & ->)|(Hne2 & y2 & Hy2 & Hy2')]; [done|right|left|].
    + apply ext_path. right. eauto.
    + apply ext_path. right. split; [done|]. subst r1. eauto.
    + destruct (Hl1 x1 y1 x2 y2 r1 o1 o2) as [H|H]; [done..|left|right]; apply ext_path; by left.
  - intros x1 v1 x2 v2 r1 r2 o1 o2 H1 H2 Hx1 Hx2 Hne Ht.
    destruct (ext_core _ _ _ _ H1 Hx1) as [(-> & -> & ->)|(Hne1 & y1 & Hy1 & Hy1')]; [by apply no_path_new in Ht|].
    destruct (ext_core _ _ _ _ H2 Hx2) as [(-> & -> & ->)|(Hne2 & y2 & Hy2 & Hy2')]; apply ext_path in Ht as [Ht|[He2 Hb]]; try done.
    + apply path_last in Ht as [a Ha]. by apply edge_old in Ha as [_ ?].
    + by apply (Hapart x1 y1 r1 o1).
    + by apply (Ha1 x1 y1 x2 y2 r1 r2 o1 o2).
Qed.

Lemma attached_new : Attached LBE EX r (c + postDelay ev) e.
Proof.
  destruct Hfields as (Fst & Fpar & Flk & Fn & _ & r0 & o0 & t & Fcl). pose proof Hat as [_ Hlast Hapart]. split.
  - exists ev, []. split_and!; [apply ext_e| | |by split|done].
    + split; [congruence|by left].
    + unfold lb_ext, lat. rewrite decide_True, Fcl by done. lia.
  - intros x xv o1 Hx Hx1. destruct (ext_core _ _ _ _ Hx Hx1) as [(-> & _)|(Hne & xv0 & Hx0 & Hx1')]; [by left|].
    rewrite ext_below by done. right. eauto.
  - intros x xv r1 o1 Hx Hx1 Hne Hb. destruct (ext_core _ _ _ _ Hx Hx1) as [(-> & -> & _)|(Hne' & xv0 & Hx0 & Hx1')]; [done|].
    rewrite ext_below in Hb by done; destruct Hb as [Hb|[_ Hb]].
    + destruct Hb as [Hb|Hb]; [congruence|]. apply path_last in Hb as [a Ha]. by apply edge_old in Ha as [_ ?].
    + by apply (Hapart x xv0 r1 o1).
Qed.

Lemma attached_other r' cyc' q : r' <> r -> q <> p -> Attached lb E r' cyc' q -> Attached LBE EX r' cyc' q.
Proof.
  intros Hr Hq [(qv & l' & Hqv & Ht & Hcq & Hch & Hlen) Hlast Hapart].
  assert (q <> e) as Hqe by congruence. split.
  - exists qv, l'. rewrite (lb_old _ _ Hqv), ext_other by done. done.
  - intros x xv o1 Hx Hx1. destruct (ext_core _ _ _ _ Hx Hx1) as [(-> & -> & _)|(Hne & xv0 & Hx0 & Hx1')]; [done|].
    rewrite ext_below by done. left. eauto.
  - intros x xv r1 o1 Hx Hx1 Hne Hb. destruct (ext_core _ _ _ _ Hx Hx1) as [(-> & -> & _)|(Hne' & xv0 & Hx0 & Hx1')].
    + destruct Hb as [Hb|Hb]; [done|]. by apply no_path_new in Hb.
    + rewrite ext_below in Hb by done; destruct Hb as [Hb|[? _]]; [|done]. by apply (Hapart x xv0 r1 o1).
Qed.
End extend.

(** ** The operation *)

Lemma add_link_linked c ev ev' : add_link c ev = Ok ev' -> linked ev ev'.
Proof. unfold add_link. intros H. repeat case_match; simplify_eq; done. Qed.

(** The event that [append_event] makes, once it is a child. *)
Definition core_event (r delay orig minStart : Z) : TimingEvent :=
  mkEvent 0 EV_NONE 0 minStart (child None) 0 0 1 0 delay (TimingCoreEvent r orig 0).

Lemma append_event_spec s r rc p pv l delay :
  recorders s !! r = Some rc -> prevRespEvent rc = Some p -> events s !! p = Some pv -> tracked None pv -> domain pv = 0 ->
  Children pv l -> Z.of_nat (length l) + 1 < W32 -> gapCycles rc <= prevRespCycle rc -> in_u64 (prevRespCycle rc - gapCycles rc) -> in_u32 delay ->
  wp (append_event r delay) s (fun e s' => e = free_address (events s) /\ exists pv', Children pv' (e :: l) /\ linked pv pv' /\
    s' = set_events (fun E => extended E p e pv' (core_event r delay (prevRespCycle rc - gapCycles rc) (prevRespCycle rc))) s).
Proof.
  intros Hr Hpe Hp [_ Hst] Hdom HC Hlen Hgap H64 H32. destruct (free_address_spec (events s)) as (Hfree & _).
  set (e := free_address (events s)) in *. destruct (add_link_children pv l e HC Hlen) as (pv' & Hadd & HC').
  pose proof (add_link_linked _ _ _ Hadd) as Hlk. assert (p <> e) as Hne by congruence. pose proof Hlk as (_ & _ & _ & _ & Hd & _).
  unfold append_event. wp_step. unfold at_recorder, wp at 1. rewrite Hr. wp_step. unfold new_core_event, alloc_event.
  do 5 wp_step. rewrite Hpe. fold e. unfold addChild. wp_step. eapply wp_at_event; [cbn; by rewrite lookup_insert_ne|].
  do 2 wp_step; [by apply bool_decide_eq_true|]. wp_step. eapply wp_at_event; [apply lookup_insert_eq|]. do 2 wp_step; [done|].
  wp_step. wp_step. exists pv'. split; [done|]. wp_step. eapply wp_set_event; [cbn; by rewrite lookup_insert_ne|].
  wp_step. eapply wp_at_event; [cbn; rewrite lookup_insert_ne by done; apply lookup_insert_eq|]. do 4 wp_step; [intros _|by rewrite Hdom].
  set (s1 := set_events _ (set_events _ s)).
  assert (exists n, base.size (events s1) = Datatypes.S n) as [n Hn].
  { destruct (base.size (events s1)) eqn:En; [|by eexists]. apply map_size_empty_inv in En. exfalso.
    assert (events s1 !! p = Some pv') as Hl by apply lookup_insert_eq. by rewrite En, lookup_empty in Hl. }
  rewrite Hn. cbn [propagateDomain]. wp_step. eapply wp_at_event; [cbn; rewrite lookup_insert_ne by done; apply lookup_insert_eq|].
  do 2 wp_step; [done|]. wp_step. eapply wp_set_event; [cbn; rewrite lookup_insert_ne by done; apply lookup_insert_eq|].
  unfold visitChildren. wp_step. apply wp_ret. wp_step; [done|intros _]. wp_step.
  eapply wp_set_event; [cbn; apply lookup_insert_eq|]. wp_step. split; [done|]. exists pv'. split; [done|]. split; [done|].
  unfold s1, set_events. cbn. f_equal. unfold extended, core_event.
  rewrite insert_insert_eq, (insert_insert_ne _ e p) by done. rewrite insert_insert_eq, Hdom, (u32_id delay), u64_id by done.
  by rewrite insert_insert_ne.
Qed.
