(* ===== verification/RecorderMain.v ===== *)
(** * The clocks of the cores over a phase

    Between the bound and the weave phase the chain of every core goes to the end of
    the phase; after it, the recorder moves the clocks of the core by as much as
    its events were late.  Over the whole of [simulatePhase] no assertion fails and no core
    has run ahead of the bound phase, and the clock without load stays what it was. *)

From stdpp Require Import base tactics numbers list gmap relations sets sorting.
From Stdlib Require Import ZArith Lia.
From S2P Require Import Prelude PrioQueue TimingEvents WeaveInv Weave WeavePhase WeaveFrame WeaveMain CachePort RecorderInv EventRecorder CoreRecorder RecorderBound.

Open Scope Z_scope.

(** ** The state in the bound phase *)

Definition gap (s : ContentionSim) (r : Z) : Z := match recorders s !! r with Some rc => gapCycles rc | None => 0 end.

(** With the end of the next phase as its [limit]; [w] is the slack for the events to come. *)
Record Bound (lb : Z -> Z) (w : Z) (s : ContentionSim) : Prop := {
  bd_base : Base lb [] ∅ w (set_inCSim true s);
  bd_caches : CachesOk w (fun _ => 0) s;
  bd_chains : Chains lb (gap s) (events s);
  bd_clocked r rc : recorders s !! r = Some rc -> Clocked lb (gap s) (limit s) (events s) r rc;
  bd_draining r rc : recorders s !! r = Some rc -> rec_state rc = DRAINING -> own_event (events s) r rc;
  bd_separate r1 rc1 r2 rc2 p : recorders s !! r1 = Some rc1 -> recorders s !! r2 = Some rc2 ->
    prevRespEvent rc1 = Some p -> prevRespEvent rc2 = Some p -> r1 = r2
}.

Lemma chains_ext lb G G' E : (forall e ev r o, E !! e = Some ev -> of_core r o ev -> G r = G' r) -> Chains lb G E -> Chains lb G' E.
Proof. intros HG [H1 H2 H3 H4]. split; try done. intros e ev r o He Ho. rewrite <- (HG _ _ _ _ He Ho). eauto. Qed.

Lemma clocked_ext lb G G' lim E r rc : G r = G' r -> Clocked lb G lim E r rc -> Clocked lb G' lim E r rc.
Proof. intros HG [H1 H2 H3 H4 H5]. split; unfold timed in *; rewrite <- ?HG; done. Qed.

Lemma size_budget lb w s : Base lb [] ∅ w s -> Z.of_nat (base.size (events s)) <= budget (events s).
Proof.
  intros HB. pose proof (base_events _ _ _ _ _ HB) as HE.
  assert (forall e ev, events s !! e = Some ev -> 1 <= budget_of ev) as Hone.
  { intros e ev He. pose proof (ev_ok _ _ _ _ HE _ _ He) as Hok. pose proof (idle_waiting _ _ _ _ HE He) as Hw.
    destruct (ok_pre _ _ _ Hok), (ok_post _ _ _ Hok), (ok_lat _ _ _ Hok). unfold budget_of. destruct (state ev); try done; lia. }
  clear HB HE. unfold budget. revert Hone. induction (events s) as [|k x m Hk IH] using map_ind; intros Hone; [done|].
  rewrite map_sum_insert, map_size_insert_None by done. specialize (Hone k x (lookup_insert_eq _ _ _)) as H1.
  assert (Z.of_nat (base.size m) <= map_sum (fun _ => budget_of) m) as H2; [|lia].
  apply IH. intros e ev He. apply (Hone e). rewrite lookup_insert_ne; [done|]. intros ->. congruence.
Qed.

(** What [append_event] makes of the events. *)
Lemma append_extends lb w s r rc p d :
  Bound lb (w + d + 1) s -> recorders s !! r = Some rc -> prevRespEvent rc = Some p -> in_u64 (prevRespCycle rc) -> in_u32 d -> 0 <= w -> 0 <= limit s ->
  wp (append_event r d) s (fun e s' => exists pv pv' l, let ev := core_event r d (prevRespCycle rc - gapCycles rc) (prevRespCycle rc) in
    s' = set_events (fun E => extended E p e pv' ev) s /\ Extends lb (events s) p e (prevRespCycle rc) pv pv' ev l).
Proof.
  intros [HB HC HCh Hcl Hdr Hsep] Hr Hp H64 H32 Hw Hlim.
  pose proof (Hcl _ _ Hr) as [Hg Hat _ _ _ _]. destruct (Hat p Hp) as [Hgp HA]. pose proof HA as [(pv & l & Hpv & Htr & Hcyc & Hch & Hlen) _ _].
  assert (gap s r = gapCycles rc) as Egap by (unfold gap; by rewrite Hr).
  pose proof (base_events _ _ _ _ _ HB) as HE. cbn in HE. pose proof (ev_ok _ _ _ _ HE _ _ Hpv) as Hok.
  eapply wp_mono; [eapply (append_event_spec s r rc p pv l d); try done; [apply Hok|unfold in_u64 in *; lia]|].
  intros e s' (-> & pv' & Hch' & Hlk & ->). set (e := free_address (events s)) in *.
  destruct (free_address_spec (events s)) as (Hfree & Hfresh & Hrange). fold e in Hfree, Hfresh, Hrange.
  exists pv, pv', l. split; [done|]. split; try done; [|split_and!; try done; by repeat eexists|cbn; lia].
  pose proof (size_budget _ _ _ HB) as Hsize. destruct (base_clock _ _ _ _ _ HB) as (_ & _ & _ & Htop & Hlt & _). cbn in Hsize, Htop, Hlt.
  split; cbn; try done; [unfold in_u32, W64 in *; lia|intros _; unfold lb_ext; by rewrite decide_True].
Qed.

(** The end of the chain of a core, an event of the core. *)
Lemma append_bound lb w s r rc p d :
  Bound lb (w + d + 1) s -> recorders s !! r = Some rc -> prevRespEvent rc = Some p -> in_u64 (prevRespCycle rc) -> in_u32 d -> 0 <= w -> 0 <= limit s ->
  wp (append_event r d) s (fun e s' => exists lb' E', s' = set_events (fun _ => E') s /\
    let rc' := set_prevResp (Some e) (prevRespCycle rc + d) rc in
    Bound lb' w (set_recorders (insert r rc') s') /\ own_event E' r rc' /\ lb' e = prevRespCycle rc /\
    (forall x xv, events s !! x = Some xv -> lb' x = lb x /\ exists xv', E' !! x = Some xv' /\ class xv' = class xv)).
Proof.
  intros HBd Hr Hp H64 H32 Hw Hlim. eapply wp_mono; [by eapply append_extends|].
  intros e s' (pv & pv' & l & -> & HX). pose proof HBd as [HB HC HCh Hcl Hdr Hsep].
  set (ev := core_event r d (prevRespCycle rc - gapCycles rc) (prevRespCycle rc)) in *. set (c := prevRespCycle rc) in *.
  set (E' := extended (events s) p e pv' ev) in *. set (rc' := set_prevResp (Some e) (c + d) rc).
  pose proof (Hcl _ _ Hr) as Hclr. destruct (cl_attached _ _ _ _ _ _ Hclr p Hp) as [Hgp HA]. pose proof (cl_gap _ _ _ _ _ _ Hclr) as Hg.
  assert (gap s r = gapCycles rc) as Egap by (unfold gap; by rewrite Hr).
  assert (of_core r (c - gapCycles rc) ev) as Ho by (by eexists).
  assert (0 <= c - gapCycles rc /\ 0 <= gap s r /\ c = c - gapCycles rc + gap s r) as Hcycle by (unfold c; lia).
  assert (budget_of ev = d + 1) as Ebud by (unfold budget_of, lat; cbn; lia).
  set (s2 := set_recorders (insert r rc') (set_events (fun _ => E') s)).
  assert (forall r', gap s r' = gap s2 r') as Hgap.
  { intros r'. unfold gap. cbn. destruct (decide (r = r')) as [<-|Hne]; [by rewrite lookup_insert_eq, Hr|by rewrite lookup_insert_ne]. }
  assert (forall r1 rc1, timed (gap s) (limit s) (events s) r1 rc1 -> timed (gap s) (limit s) E' r1 rc1) as Hclock.
  { intros r1 rc1 [?|[?|(x & xv & o1 & Hx & Hs & Ho1 & Hpc)]]; [by left|by right; left|right; right].
    destruct (ext_forth _ _ _ _ _ _ _ _ _ HX _ _ Hx) as (xv' & Hx' & Es & Ec & Ep & _). exists x, xv', o1.
    split_and!; [done|congruence|by eapply of_core_class|lia]. }
  assert (own_event E' r rc') as Hown.
  { intros q [= <-]. exists ev, (c - gapCycles rc). split; [eapply ext_e|done]. }
  exists (lb_ext lb e c), E'. split; [done|]. split; [split|split_and!; [done|unfold lb_ext; by rewrite decide_True|]].
  - apply (base_fields _ _ _ _ (set_events (fun _ => E') (set_inCSim true s))); try done.
    eapply base_extended; try done. by rewrite Ebud, Z.add_assoc.
  - assert (CachesOk w (fun _ => 0) (set_events (fun _ => E') s)) as [].
    { eapply caches_extended; try done; [by rewrite Ebud, Z.add_assoc|]. intros r1 o1 t1 [= <- _ _]. by eexists. }
    split; try done. intros x xv r1 o1 t1 Hx Hx1. apply lookup_insert_is_Some'. right. by eapply ca_core.
  - eapply chains_ext; [intros _ _ r1 _ _ _; apply Hgap|]. by eapply extended_chains.
  - intros r1 rc1 Hr1. eapply clocked_ext; [exact (Hgap r1)|]. cbn in Hr1 |- *. apply lookup_insert_Some in Hr1 as [[<- <-]|[Hne Hr1]].
    + destruct Hclr as [_ _ Hn Hh _ Hck]. split; cbn; [done| |done| |done|by apply (Hclock r rc)].
      * intros q [= <-]. split; [unfold in_u32 in *; lia|]. replace (c + d + _) with (c + postDelay ev) by (cbn; lia). by eapply attached_new.
      * intros Hhalt. rewrite (Hh Hhalt) in Hp. done.
    + destruct (Hcl _ _ Hr1) as [Hg1 Hat1 Hn1 Hh1 Hid1 Hck1]. split; try done; [| |by apply Hclock].
      * intros q Hq. destruct (Hat1 q Hq) as [? HA1]. split; [done|]. eapply attached_other; try done.
        intros ->. by destruct Hne; eapply Hsep.
      * intros x xv o1 Hn Hx Ho1. destruct (ext_core _ _ _ _ _ _ _ _ _ HX _ _ Ho _ _ _ _ Hx Ho1) as [(_ & ? & _)|(_ & xv0 & Hx0 & Ho0)]; [done|].
        by apply (Hid1 x xv0 o1).
  - intros r1 rc1 Hr1 Hst. cbn in Hr1 |- *. apply lookup_insert_Some in Hr1 as [[<- <-]|[Hne Hr1]]; [done|].
    intros q Hq. destruct (Hdr _ _ Hr1 Hst q Hq) as (qv & o1 & Hqv & Ho1). destruct (ext_forth _ _ _ _ _ _ _ _ _ HX _ _ Hqv) as (qv' & Hqv' & _ & Ec & _).
    exists qv', o1. split; [done|]. by eapply of_core_class.
  - intros r1 rc1 r2 rc2 q. cbn. intros [[<- <-]|[Hne1 H1]]%lookup_insert_Some [[<- <-]|[Hne2 H2]]%lookup_insert_Some Hq1 Hq2; [done| | |by eapply Hsep].
    + injection Hq1 as <-. destruct (cl_attached _ _ _ _ _ _ (Hcl _ _ H2) e Hq2) as [_ [(? & ? & He & _) _ _]].
      by rewrite (ex_free _ _ _ _ _ _ _ _ _ HX) in He.
    + injection Hq2 as <-. destruct (cl_attached _ _ _ _ _ _ (Hcl _ _ H1) e Hq1) as [_ [(? & ? & He & _) _ _]].
      by rewrite (ex_free _ _ _ _ _ _ _ _ _ HX) in He.
  - intros x xv Hx. split; [by eapply lb_old|]. destruct (ext_forth _ _ _ _ _ _ _ _ _ HX _ _ Hx) as (xv' & Hx' & _ & Ec & _). by exists xv'.
Qed.

Lemma bound_slack lb w w' s : Bound lb w s -> 0 <= w' <= w -> Bound lb w' s.
Proof.
  intros [HB HC HCh Hcl Hdr Hsep] Hw. split; try done.
  - destruct HB as [H1 H2 H3 H4 H5 H6 H7 H8]. split; try done.
    + intros e ev He Hs. destruct (H4 _ _ He Hs) as (? & ? & ?). lia.
    + intros e ev He Hs. destruct (H5 _ _ He Hs) as (? & ?). lia.
    + intros c t Hct. destruct (H7 _ _ Hct). lia.
    + naive_solver lia.
  - destruct HC as [H1 H2 H3 H4 H5 H6 H7]. split; try done. intros c tc Hc. destruct (H4 _ _ Hc). lia.
Qed.

(** ** cSimStart *)

(** The events that are there keep their cycles and classes. *)
Definition grown (lb : Z -> Z) (E : EvMap) (lb' : Z -> Z) (E' : EvMap) : Prop :=
  forall x xv, E !! x = Some xv -> lb' x = lb x /\ exists xv', E' !! x = Some xv' /\ class xv' = class xv.

Lemma grown_refl lb E : grown lb E lb E.
Proof. intros x xv Hx. eauto. Qed.
Lemma grown_trans lb1 E1 lb2 E2 lb3 E3 : grown lb1 E1 lb2 E2 -> grown lb2 E2 lb3 E3 -> grown lb1 E1 lb3 E3.
Proof.
  intros H1 H2 x xv Hx. destruct (H1 _ _ Hx) as (L1 & xv1 & Hx1 & C1). destruct (H2 _ _ Hx1) as (L2 & xv2 & Hx2 & C2).
  split; [congruence|]. exists xv2. split; congruence.
Qed.

(** An event at the end of the chain, and the recorder that knows of it. *)
Lemma continue_spec lb w s r rc p d (f : Z -> CoreRecorder -> CoreRecorder) :
  Bound lb (w + d + 1) s -> recorders s !! r = Some rc -> prevRespEvent rc = Some p -> in_u64 (prevRespCycle rc) -> in_u32 d -> 0 <= w -> 0 <= limit s ->
  (forall e, f e rc = set_prevResp (Some e) (prevRespCycle rc + d) rc) ->
  wp (ev ← append_event r d; set_recorder r (f ev)) s (fun _ s' => exists lb' E' e, let rc' := set_prevResp (Some e) (prevRespCycle rc + d) rc in
    s' = set_recorders (insert r rc') (set_events (fun _ => E') s) /\ Bound lb' w s' /\ own_event E' r rc' /\ lb' e = prevRespCycle rc /\
    grown lb (events s) lb' E').
Proof.
  intros HB Hr Hp H64 H32 Hw Hlim Hf. wp_step. eapply wp_mono; [by eapply append_bound|].
  intros e s' (lb' & E' & -> & HB' & Hown & Hlb & Hgr). unfold set_recorder. wp_step. exists lb', E', e.
  assert (set_recorders (alter (f e) r) (set_events (fun _ => E') s) = set_recorders (insert r (set_prevResp (Some e) (prevRespCycle rc + d) rc)) (set_events (fun _ => E') s)) as ->.
  { unfold set_recorders. cbn. f_equal. rewrite (alter_known _ _ _ _ Hr). by rewrite Hf. }
  done.
Qed.

Lemma wp_at_recorder r rc s (Q : CoreRecorder -> ContentionSim -> Prop) : recorders s !! r = Some rc -> Q rc s -> wp (at_recorder r) s Q.
Proof. intros Hr HQ. unfold wp, at_recorder. by rewrite Hr. Qed.

Lemma taper_last lb w s r rc p cur : Bound lb (w + 1) s -> recorders s !! r = Some rc -> prevRespEvent rc = Some p -> prevRespCycle rc = cur ->
  in_u64 cur -> 0 <= w -> 0 <= limit s ->
  wp (ev ← append_event r 0; set_recorder r (fun rc => set_prevResp (Some ev) (prevRespCycle rc) rc)) s
    (fun _ s' => exists lb' E' e, let rc' := set_prevResp (Some e) cur rc in
    s' = set_recorders (insert r rc') (set_events (fun _ => E') s) /\ Bound lb' w s' /\ own_event E' r rc' /\ lb' e = cur /\
    grown lb (events s) lb' E').
Proof.
  intros HB Hr Hp <- H64 Hw Hlim. eapply wp_mono; [eapply (continue_spec lb w s r rc p 0); try done|].
  - by rewrite Z.add_0_r.
  - intros e. by rewrite Z.add_0_r.
  - intros _ s' (lb' & E' & e & H). rewrite Z.add_0_r in H. by exists lb', E', e.
Qed.

Lemma taper_spec lb w s r rc p cur :
  Bound lb (w + (cur - prevRespCycle rc) + 2) s -> recorders s !! r = Some rc -> prevRespEvent rc = Some p ->
  0 <= prevRespCycle rc <= cur -> in_u64 cur -> in_u32 (cur - prevRespCycle rc) -> 0 <= w -> 0 <= limit s ->
  wp (taper r cur) s (fun _ s' => exists lb' E' e, let rc' := set_prevResp (Some e) cur rc in
    s' = set_recorders (insert r rc') (set_events (fun _ => E') s) /\ Bound lb' w s' /\ own_event E' r rc' /\ lb' e = cur /\
    grown lb (events s) lb' E').
Proof.
  intros HB Hr Hp Hcur H64 H32 Hw Hlim. unfold taper. wp_step. eapply wp_at_recorder; [done|]. wp_step. wp_step.
  - intros Hlt%Z.ltb_lt. rewrite u64_id by (unfold in_u64 in *; lia). eapply wp_mono.
    + eapply (continue_spec lb (w + 1) s r rc p (cur - prevRespCycle rc) (fun ev => set_prevResp (Some ev) cur)); try done.
      * replace (w + 1 + _ + 1) with (w + (cur - prevRespCycle rc) + 2) by lia. done.
      * unfold in_u64 in *; lia.
      * lia.
      * intros e. f_equal. lia.
    + intros _ s1 (lb1 & E1 & e1 & -> & HB1 & Hown1 & Hlb1 & Hgr1). replace (prevRespCycle rc + (cur - prevRespCycle rc)) with cur in * by lia.
      eapply wp_mono; [eapply (taper_last lb1 w _ r (set_prevResp (Some e1) cur rc) e1 cur HB1); try done; apply lookup_insert_eq|].
      intros _ s2 (lb2 & E2 & e2 & -> & HB2 & Hown2 & Hlb2 & Hgr2). exists lb2, E2, e2.
      assert (forall rc', set_recorders (insert r rc') (set_events (fun _ => E2) (set_recorders (insert r (set_prevResp (Some e1) cur rc)) (set_events (fun _ => E1) s))) =
        set_recorders (insert r rc') (set_events (fun _ => E2) s)) as Heq by (intros; unfold set_recorders; cbn; by rewrite insert_insert_eq).
      rewrite Heq in *. split_and!; try done. by eapply grown_trans.
  - intros Hge%Z.ltb_ge. eapply wp_mono; [eapply (taper_last lb w s r rc p cur); try done; [|lia]|done].
    eapply bound_slack; [done|lia].
Qed.

(** What [cSimStart] asks of a core and its clock, and the slack that its events take. *)
Definition core_ok (lim : Z) (R : gmap Z CoreRecorder) (x : Z * Z) : Prop := exists rc, R !! x.1 = Some rc /\
  0 <= x.2 < 2 ^ 62 /\ 0 <= prevRespCycle rc < 2 ^ 62 /\
  (rec_state rc = RUNNING -> lim <= x.2 /\ prevRespCycle rc <= x.2 /\ x.2 - prevRespCycle rc < W32).
Definition taken (R : gmap Z CoreRecorder) (x : Z * Z) : Z := match R !! x.1 with
  | Some rc => if decide (rec_state rc = RUNNING) then x.2 - prevRespCycle rc + 2 else 0
  | None => 0
  end.
Definition all_taken (R : gmap Z CoreRecorder) (l : list (Z * Z)) : Z := sumZ (map (taken R) l).

Lemma all_taken_cons R x l : all_taken R (x :: l) = taken R x + all_taken R l.
Proof. done. Qed.
Lemma all_taken_nonneg lim R l : Forall (core_ok lim R) l -> 0 <= all_taken R l.
Proof.
  induction 1 as [|[r cur] l (rc & Hr & _ & _ & Hrun) _ IH]; [done|]. rewrite all_taken_cons. cbn in *. unfold taken. cbn. rewrite Hr.
  case_decide as Hd; [|lia]. destruct (Hrun Hd) as (? & ? & ?). lia.
Qed.

(** The cores that are not in the list keep what was said of them. *)
Lemma all_taken_ext R R' l : (forall r, r ∈ l.*1 -> R' !! r = R !! r) -> all_taken R' l = all_taken R l.
Proof.
  intros HR. induction l as [|[r cur] l IH]; [done|]. rewrite !all_taken_cons, IH by (intros; apply HR; by right).
  unfold taken. cbn. by rewrite HR by (by left).
Qed.
Lemma core_ok_ext lim R R' l : (forall r, r ∈ l.*1 -> R' !! r = R !! r) -> Forall (core_ok lim R) l -> Forall (core_ok lim R') l.
Proof.
  intros HR. rewrite !Forall_forall. intros Hall x Hx. destruct (Hall x Hx) as (rc & Hr & H). exists rc. split; [|done].
  rewrite HR; [done|]. apply list_elem_of_fmap. eauto.
Qed.

(** A core before and after [cSimStart]. *)
Definition started (lim : Z) (lb' : Z -> Z) (E' : EvMap) (R R' : gmap Z CoreRecorder) (x x' : Z * Z) : Prop :=
  x'.1 = x.1 /\ exists rc rc', R !! x.1 = Some rc /\ R' !! x.1 = Some rc' /\
  match rec_state rc with
  | HALTED => rc' = rc /\ x'.2 = x.2
  | RUNNING => x'.2 = x.2 /\ exists e, rc' = set_prevResp (Some e) x.2 rc /\ lb' e = x.2 /\ own_event E' x.1 rc'
  | DRAINING => rc' = rc /\ x'.2 = Z.max x.2 lim
  end.

Lemma own_event_grown lb E lb' E' r rc : grown lb E lb' E' -> own_event E r rc -> own_event E' r rc.
Proof.
  intros Hgr Hown p Hp. destruct (Hown p Hp) as (pv & o & Hpv & Ho). destruct (Hgr _ _ Hpv) as (_ & pv' & Hpv' & Hcl).
  exists pv', o. split; [done|]. by eapply of_core_class.
Qed.

Lemma started_later lim lb E lb' E' R R1 R' x x' :
  R' !! x.1 = R1 !! x.1 -> grown lb E lb' E' -> started lim lb E R R1 x x' -> started lim lb' E' R R' x x'.
Proof.
  intros HR Hgr (Hx & rc & rc' & H1 & H2 & H). split; [done|]. exists rc, rc'. rewrite HR. split; [done|]. split; [done|].
  destruct (rec_state rc); try done. destruct H as (-> & e & -> & Hlb & Hown). split; [done|]. exists e. split; [done|]. split; [|by eapply own_event_grown].
  destruct (Hown e eq_refl) as (pv & o & Hpv & _). destruct (Hgr _ _ Hpv) as [-> _]. done.
Qed.

Lemma started_ext lim lb' E' R R1 R' l l' :
  (forall r, r ∈ l.*1 -> R1 !! r = R !! r) -> Forall2 (started lim lb' E' R1 R') l l' -> Forall2 (started lim lb' E' R R') l l'.
Proof.
  intros HR Hst. induction Hst as [|x x' l l' (Hx & rc & rc' & H1 & H) _ IH]; constructor.
  - split; [done|]. exists rc, rc'. by rewrite <- HR by (by left).
  - apply IH. intros r Hr. apply HR. by right.
Qed.

(** One core. *)
Lemma cSimStart_spec lb w s g r cur :
  Bound lb (w + taken (recorders s) (r, cur)) s -> core_ok (limit s) (recorders s) (r, cur) -> limit s = g + phaseLength s -> 0 <= limit s < 2 ^ 62 -> 0 <= w ->
  wp (cSimStart r g cur) s (fun cur' s' => exists lb' E' R', s' = set_recorders (fun _ => R') (set_events (fun _ => E') s) /\ Bound lb' w s' /\
    grown lb (events s) lb' E' /\ started (limit s) lb' E' (recorders s) R' (r, cur) (r, cur') /\ forall r', r' <> r -> R' !! r' = recorders s !! r').
Proof.
  intros HB (rc & Hr & Hcur & Hprev & Hrun) Hlim Hlb Hw. cbn in Hr, Hcur, Hrun. unfold taken in HB. cbn in HB. rewrite Hr in HB.
  unfold cSimStart. wp_step. eapply wp_at_recorder; [done|]. wp_step. wp_step. rewrite <- Hlim, u64_id by (unfold in_u64, W64; lia).
  pose proof (bd_clocked _ _ _ HB _ _ Hr) as Hcl.
  assert (rec_state rc <> RUNNING -> forall cur', match rec_state rc with HALTED => cur' = cur | RUNNING => False | DRAINING => cur' = Z.max cur (limit s) end ->
    exists lb' E' R', s = set_recorders (fun _ => R') (set_events (fun _ => E') s) /\ Bound lb' w s /\
    grown lb (events s) lb' E' /\ started (limit s) lb' E' (recorders s) R' (r, cur) (r, cur') /\ forall r', r' <> r -> R' !! r' = recorders s !! r') as Hsame.
  { intros Hne cur' Hc. exists lb, (events s), (recorders s). split; [by destruct s|]. rewrite decide_False in HB by done. split_and!; try done.
    - eapply bound_slack; [done|lia].
    - apply grown_refl.
    - split; [done|]. exists rc, rc. cbn. destruct (rec_state rc); done. }
  destruct (rec_state rc) eqn:Hst.
  - wp_step. by apply Hsame.
  - destruct (Hrun eq_refl) as (Hge & Hle & H32). rewrite decide_True in HB by done.
    destruct (prevRespEvent rc) as [p|] eqn:Hp; [|by destruct (cl_none _ _ _ _ _ _ Hcl Hp)].
    wp_step. wp_step; [by apply Z.leb_le|]. wp_step. eapply wp_mono; [eapply (taper_spec lb w s r rc p cur); try done|].
    + by rewrite <- Z.add_assoc.
    + lia.
    + unfold in_u64, W64; lia.
    + unfold in_u32; lia.
    + lia.
    + intros _ s' (lb' & E' & e & -> & HB' & Hown & Hlbe & Hgr). wp_step. exists lb', E', (<[r := set_prevResp (Some e) cur rc]> (recorders s)).
      split; [done|]. split; [done|]. split; [done|]. split; [|intros; by rewrite lookup_insert_ne].
      split; [done|]. eexists rc, _. cbn. rewrite lookup_insert_eq, Hst. split; [done|]. split; [done|]. split; [done|]. by exists e.
  - wp_step. by apply Hsame.
Qed.

Lemma cores_start lb w s g l :
  Bound lb (w + all_taken (recorders s) l) s -> NoDup l.*1 -> Forall (core_ok (limit s) (recorders s)) l -> limit s = g + phaseLength s ->
  0 <= limit s < 2 ^ 62 -> 0 <= w ->
  wp (each_core (fun r => cSimStart r g) l) s (fun l' s' => exists lb' E' R', s' = set_recorders (fun _ => R') (set_events (fun _ => E') s) /\ Bound lb' w s' /\
    grown lb (events s) lb' E' /\ Forall2 (started (limit s) lb' E' (recorders s) R') l l' /\ forall r, r ∉ l.*1 -> R' !! r = recorders s !! r).
Proof.
  revert lb s. induction l as [|[r cur] l IH]; intros lb s HB Hnd Hok Hlim Hl Hw; cbn [each_core].
  - wp_step. exists lb, (events s), (recorders s). split; [by destruct s|]. split_and!; try done.
    + eapply bound_slack; [done|]. unfold all_taken, sumZ. cbn. lia.
    + apply grown_refl.
  - inversion Hok as [|? ? Hok1 Hok2]; subst. apply NoDup_cons in Hnd as [Hr Hnd]. rewrite all_taken_cons in HB. cbn in Hr.
    pose proof (all_taken_nonneg _ _ _ Hok2). wp_step. eapply wp_mono; [eapply (cSimStart_spec lb (w + all_taken (recorders s) l)); try done; [|lia]|].
    { by rewrite <- Z.add_assoc, (Z.add_comm (all_taken _ _)). }
    intros cur' s1 (lb1 & E1 & R1 & -> & HB1 & Hgr1 & Hst1 & Hother1). wp_step.
    assert (forall r', r' ∈ l.*1 -> R1 !! r' = recorders s !! r') as HR1 by (intros r' Hin; apply Hother1; by intros ->).
    eapply wp_mono; [eapply (IH lb1); try done|].
    + cbn. by rewrite (all_taken_ext _ _ _ HR1).
    + by eapply core_ok_ext.
    + intros l' s2 (lb2 & E2 & R2 & -> & HB2 & Hgr2 & Hst2 & Hother2). cbn in Hgr2, Hst2, Hother2. wp_step. exists lb2, E2, R2.
      split; [done|]. split; [done|]. split; [by eapply grown_trans|]. split; [constructor|].
      * eapply started_later; [|done|done]. by apply Hother2.
      * by eapply started_ext.
      * intros r' [Hne Hin]%not_elem_of_cons. rewrite Hother2, Hother1 by done. done.
Qed.

(** ** cSimEnd *)

Lemma wp_set_recorder r f rc s (Q : unit -> ContentionSim -> Prop) :
  recorders s !! r = Some rc -> Q tt (set_recorders (insert r (f rc)) s) -> wp (set_recorder r f) s Q.
Proof. intros Hr HQ. unfold set_recorder. apply wp_modify. unfold set_recorders. by rewrite (alter_known f _ _ _ Hr). Qed.

Lemma set_recorders_twice r x y s : set_recorders (insert r x) (set_recorders (insert r y) s) = set_recorders (insert r x) s.
Proof. unfold set_recorders. cbn. by rewrite insert_insert_eq. Qed.

(** The recorder with the gap [g]. *)
Definition ended (g : Z) (rc : CoreRecorder) : CoreRecorder :=
  if bool_decide (rec_state rc = HALTED) then rc
  else let rc1 := set_prevResp (prevRespEvent rc) (prevRespCycle rc + (g - gapCycles rc)) (set_gapCycles g rc) in
    if bool_decide (prevRespEvent rc = None) then set_rec_state HALTED (set_lastUnhaltedCycle (lastEventSimulatedStartCycle rc) rc1) else rc1.
Definition skew (G : Z -> Z) (R : gmap Z CoreRecorder) (r : Z) : Z := match R !! r with
  | Some rc => if bool_decide (rec_state rc = HALTED) then 0 else G r - gapCycles rc
  | None => 0
  end.

Definition end_ok (G : Z -> Z) (lim : Z) (R : gmap Z CoreRecorder) (x : Z * Z) : Prop := exists rc, R !! x.1 = Some rc /\
  (rec_state rc <> HALTED -> lim <= x.2 < 2 ^ 62 /\ 0 <= prevRespCycle rc < 2 ^ 62 /\ 0 <= gapCycles rc <= G x.1 /\
    0 <= lastEventSimulatedOrigStartCycle rc /\ lastEventSimulatedStartCycle rc = lastEventSimulatedOrigStartCycle rc + G x.1 /\
    lastEventSimulatedStartCycle rc <= lim /\ (prevRespEvent rc = None -> rec_state rc <> RUNNING)).

Lemma cSimEnd_spec G lim s r cur rc :
  end_ok G lim (recorders s) (r, cur) -> recorders s !! r = Some rc -> 0 <= lim < 2 ^ 62 ->
  wp (cSimEnd r cur) s (fun cur' s' => s' = set_recorders (insert r (ended (G r) rc)) s /\ cur' = cur + skew G (recorders s) r).
Proof.
  intros (rc0 & Hr0 & Hok) Hr Hlim. cbn in Hr0, Hok. assert (rc0 = rc) as -> by congruence. unfold cSimEnd, skew, ended. rewrite Hr.
  wp_step. eapply wp_at_recorder; [done|]. case_bool_decide as Hst.
  { wp_step. split; [|lia]. unfold set_recorders. rewrite insert_id by done. by destruct s. }
  destruct (Hok Hst) as (Hcur & Hprev & Hgap & Horig & Hstart & Hle & Hnone).
  assert (in_u64 (lastEventSimulatedOrigStartCycle rc + gapCycles rc)) by (unfold in_u64, W64; lia).
  rewrite !(u64_id (lastEventSimulatedOrigStartCycle rc + gapCycles rc)) by done.
  replace (lastEventSimulatedStartCycle rc - (lastEventSimulatedOrigStartCycle rc + gapCycles rc)) with (G r - gapCycles rc) by lia.
  do 2 wp_step; [apply Z.leb_le; lia|]. do 2 wp_step; [apply Z.leb_le; lia|]. wp_step.
  replace (lastEventSimulatedStartCycle rc <? lastEventSimulatedOrigStartCycle rc + gapCycles rc) with false by lia.
  do 2 wp_step. eapply wp_set_recorder; [done|]. rewrite !u64_id by (unfold in_u64, W64; lia).
  replace (gapCycles rc + (G r - gapCycles rc)) with (G r) by lia. wp_step. wp_step.
  - intros Hp%bool_decide_eq_true. wp_step. wp_step; [apply bool_decide_eq_true; specialize (Hnone Hp); destruct (rec_state rc); done|].
    eapply wp_set_recorder; [apply lookup_insert_eq|]. rewrite set_recorders_twice, bool_decide_eq_true_2 by done. wp_step. done.
  - intros Hp. rewrite Hp. wp_step. done.
Qed.

Lemma skew_ext G R R' r : R' !! r = R !! r -> skew G R' r = skew G R r.
Proof. unfold skew. by intros ->. Qed.

Lemma cores_end G lim l s :
  NoDup l.*1 -> Forall (end_ok G lim (recorders s)) l -> 0 <= lim < 2 ^ 62 ->
  wp (each_core cSimEnd l) s (fun l' s' => exists R', s' = set_recorders (fun _ => R') s /\
    l' = map (fun x => (x.1, x.2 + skew G (recorders s) x.1)) l /\
    (forall r, r ∈ l.*1 -> R' !! r = ended (G r) <$> recorders s !! r) /\ forall r, r ∉ l.*1 -> R' !! r = recorders s !! r).
Proof.
  revert s. induction l as [|[r cur] l IH]; intros s Hnd Hok Hlim; cbn [each_core].
  - wp_step. exists (recorders s). split; [by destruct s|]. split; [done|]. split; [|done]. intros r Hr. by apply elem_of_nil in Hr.
  - inversion Hok as [|? ? Hok1 Hok2]; subst. apply NoDup_cons in Hnd as [Hr Hnd]. cbn in Hr. destruct (id Hok1) as (rc & Hrc & _). cbn in Hrc.
    wp_step. eapply wp_mono; [by eapply (cSimEnd_spec G lim s r cur rc)|]. intros cur' s1 [-> ->]. wp_step.
    assert (forall r', r' ∈ l.*1 -> <[r := ended (G r) rc]> (recorders s) !! r' = recorders s !! r') as HR1
      by (intros r' Hin; apply lookup_insert_ne; by intros ->).
    eapply wp_mono; [apply IH; try done|].
    + rewrite Forall_forall in Hok2 |- *. intros x Hx. destruct (Hok2 x Hx) as (rc' & Hrc' & H). exists rc'. split; [|done].
      cbn. rewrite HR1; [done|]. apply list_elem_of_fmap. eauto.
    + intros l' s' (R' & -> & -> & Hin & Hout). cbn in Hin, Hout. wp_step. exists R'. split; [done|]. split; [|split].
      * cbn. f_equal. apply map_ext_in. intros x Hx. f_equal. f_equal. apply skew_ext, HR1, list_elem_of_fmap. exists x. split; [done|]. by apply list_elem_of_In.
      * intros r' [->|Hr']%elem_of_cons; [|by rewrite Hin, HR1]. cbn. by rewrite Hout, lookup_insert_eq, Hrc.
      * intros r' [Hne Hr']%not_elem_of_cons. rewrite Hout by done. by apply lookup_insert_ne.
Qed.

(** ** The whole of [simulatePhase] *)

(** Before a phase, from [g] to [lim]; the clocks and the events are in order. *)
Record Ready (lb : Z -> Z) (g lim : Z) (cores : list (Z * Z)) (s : ContentionSim) : Prop := {
  ry_bound : Bound lb (all_taken (recorders s) cores) (set_limit lim s);
  ry_nodup : NoDup cores.*1;
  ry_cores : Forall (core_ok lim (recorders s)) cores;
  ry_all r : is_Some (recorders s !! r) -> r ∈ cores.*1;
  ry_limit : lim = g + phaseLength s /\ curCycle s <= lim /\ lim + 10 * phaseLength s + 1000000 < 2 ^ 62
}.

(** The weave phase, between the calls of the cores. *)
Lemma weave_spec lb s :
  Bound lb 0 s -> curCycle s <= limit s ->
  (forall r rc, recorders s !! r = Some rc -> own_event (events s) r rc /\
    (rec_state rc = RUNNING -> forall p, prevRespEvent rc = Some p -> limit s <= lb p)) ->
  wp simulatePhaseThread (set_inCSim true s) (fun _ s' => exists lb' G', WellFormed lb' s' /\ Progress lb (gap s) (set_inCSim true s) lb' G' s' /\
    (curCycle s' = limit s /\ limit s' = limit s /\ lastLimit s' = lastLimit s /\ phaseLength s' = phaseLength s) /\
    forall e ev, events s' !! e = Some ev -> state ev = EV_QUEUED -> limit s <= privCycle ev).
Proof.
  intros [HB HC HCh Hcl Hdr Hsep] Hcur Hown.
  assert (WellFormed lb (set_inCSim true s)) as HW.
  { split; [done|]. split; [by destruct HC; split|]. intros r rc e Hr He. cbn in Hr. destruct (Hown _ _ Hr) as [_ Hrun].
    pose proof (cl_halted _ _ _ _ _ _ (Hcl _ _ Hr)) as Hh. destruct (rec_state rc); [|right; by apply Hrun|by left]. by rewrite Hh in He. }
  apply (chain_phase lb (gap s) (set_inCSim true s)); try done. intros r rc Hr. split; [by apply Hcl|by apply Hown].
Qed.

(** After the calls of [cSimEnd]. *)
Section after.
Context (lb lb' G' : Z -> Z) (s s2 : ContentionSim) (R' : gmap Z CoreRecorder).
Hypothesis HB0 : Bound lb 0 s.
Hypothesis HW : WellFormed lb' s2.
Hypothesis HP : Progress lb (gap s) (set_inCSim true s) lb' G' s2.
Hypothesis Hfields : curCycle s2 = limit s /\ limit s2 = limit s /\ lastLimit s2 = lastLimit s /\ phaseLength s2 = phaseLength s.
Hypothesis Hqueued : forall e ev, events s2 !! e = Some ev -> state ev = EV_QUEUED -> limit s <= privCycle ev.
Hypothesis HR' : forall r, R' !! r = ended (G' r) <$> recorders s2 !! r.
Hypothesis Htop : limit s + 10 * phaseLength s + 1000000 < 2 ^ 62.

Definition after_phase : ContentionSim := set_lastLimit (limit s) (set_recorders (fun _ => R') (set_inCSim false s2)).

(** No core of which an event waits is halted, and its first event has run. *)
Lemma timed_after r rc : recorders s2 !! r = Some rc -> rec_state rc <> HALTED ->
  0 <= lastEventSimulatedOrigStartCycle rc /\ lastEventSimulatedStartCycle rc = lastEventSimulatedOrigStartCycle rc + G' r /\
  lastEventSimulatedStartCycle rc <= limit s.
Proof.
  intros Hr Hst. destruct HP as (_ & HC & _). destruct (HC _ _ Hr) as [Hcl _]. destruct Hfields as (_ & El & _).
  destruct (cl_clock _ _ _ _ _ _ Hcl) as [?|[H|(e & ev & o & He & Hs & _ & Hlt)]]; [done|by rewrite El in H|].
  specialize (Hqueued _ _ He Hs). lia.
Qed.

Lemma gap_after r rc : recorders s2 !! r = Some rc -> rec_state rc <> HALTED -> gap after_phase r = G' r.
Proof.
  intros Hr Hst. unfold gap. cbn. rewrite HR', Hr. cbn. unfold ended. rewrite bool_decide_eq_false_2 by done. by case_bool_decide.
Qed.

Lemma bound_after : Bound lb' 0 after_phase.
Proof.
  destruct HP as (HCh & HC & HG & Hlb & Hph). destruct Hfields as (E1 & E2 & E3 & E4). pose proof HW as [HB [HCa HRo]].
  destruct (base_clock _ _ _ _ _ HB) as (Hin & Hlast & Hpl & Ht & Hlt & _).
  assert (forall r rc', R' !! r = Some rc' -> exists rc, recorders s2 !! r = Some rc /\ rc' = ended (G' r) rc) as Hback.
  { intros r rc' Hr. rewrite HR' in Hr. apply fmap_Some in Hr as (rc & Hr & ->). eauto. }
  assert (forall r rc, prevRespEvent (ended (G' r) rc) = prevRespEvent rc) as Hpe.
  { intros r rc. unfold ended. by repeat case_bool_decide. }
  split.
  - destruct HB as [H1 H2 H3 H4 H5 H6 H7 H8]. split; cbn; try done; unfold top in *; cbn.
    + intros e ev He Hs. destruct (H4 _ _ He Hs) as (? & ? & ?). split_and!; lia.
    + intros e ev He Hs. destruct (H5 _ _ He Hs) as (? & ?). lia.
    + intros c t Hct. by apply elem_of_nil in Hct.
    + split_and!; try done; lia.
  - destruct HCa as [H1 H2 H3 H4 H5 H6 H7]. split; cbn; try done.
    + intros e ev r o x He Hcl. destruct (H2 _ _ _ _ _ He Hcl) as [rc Hrc]. rewrite HR', Hrc. by eexists.
    + intros c tc Hc. destruct (H4 _ _ Hc). unfold top in *. cbn. lia.
  - eapply (chains_ext lb' G'); [|exact HCh]. intros e ev r o He Ho. destruct (id Ho) as [t Hclass].
    destruct (ca_core _ _ _ HCa _ _ _ _ _ He Hclass) as [rc Hrc]. symmetry. apply (gap_after r rc Hrc). intros Hst.
    destruct (HC _ _ Hrc) as [Hcl _]. apply (cl_idle _ _ _ _ _ _ Hcl e ev o); [by apply (cl_halted _ _ _ _ _ _ Hcl)|done|done].
  - intros r rc' Hr. destruct (Hback _ _ Hr) as (rc & Hrc & ->). destruct (HC _ _ Hrc) as [[Hg Hat Hn Hh Hid Hck] _]. cbn in Hr |- *. rewrite E2.
    pose proof (timed_after r rc Hrc) as Htimed. pose proof (gap_after r rc Hrc) as Hgap. unfold ended in Hr |- *. case_bool_decide as Hst.
    + assert (gap after_phase r = gapCycles rc) as EG by (unfold gap; cbn; by rewrite Hr). specialize (Hh Hst).
      split; unfold timed; rewrite ?EG; try done; [lia|intros p Hp; congruence|by left].
    + specialize (Hgap Hst). destruct (Htimed Hst) as (? & ? & ?). assert (0 <= G' r) by lia. clear Htimed.
      case_bool_decide as Hp; split; unfold timed; cbn; rewrite ?Hgap; try done; try lia.
      all: intros p Hpr; destruct (Hat p Hpr) as [? HA]; split; [lia|]; by rewrite Z.sub_diag, Z.add_0_r.
  - intros r rc' Hr _. destruct (Hback _ _ Hr) as (rc & Hrc & ->). destruct (HC _ _ Hrc) as [_ Hown]. intros p Hp. rewrite Hpe in Hp. by apply Hown.
  - intros r1 rc1 r2 rc2 p H1 H2 Hp1 Hp2. destruct (Hback _ _ H1) as (x1 & Hx1 & ->). destruct (Hback _ _ H2) as (x2 & Hx2 & ->).
    rewrite Hpe in Hp1, Hp2. pose proof (Hph r1) as Ha. pose proof (Hph r2) as Hb. rewrite Hx1 in Ha. rewrite Hx2 in Hb.
    inversion Ha as [y1 ? Hy1 Hy1' |]; subst. inversion Hb as [y2 ? Hy2 Hy2'|]; subst. cbn in *.
    eapply (bd_separate _ _ _ HB0 r1 y1 r2 y2 p); try done.
    + destruct (ph_event _ _ Hy1) as [<-|[? _]]; congruence.
    + destruct (ph_event _ _ Hy2) as [<-|[? _]]; congruence.
Qed.
End after.

(** ** The theorem *)

(** A core over a phase: its clock may be put to the end of the phase, and then moves with
    the gap of its recorder. *)
Definition moved (lim : Z) (R R' : gmap Z CoreRecorder) (x x' : Z * Z) : Prop :=
  x'.1 = x.1 /\ exists rc rc', R !! x.1 = Some rc /\ R' !! x.1 = Some rc' /\
  match rec_state rc with
  | HALTED => x'.2 = x.2 /\ gapCycles rc' = gapCycles rc /\ rec_state rc' = HALTED
  | RUNNING => x'.2 - gapCycles rc' = x.2 - gapCycles rc /\ gapCycles rc <= gapCycles rc' /\ rec_state rc' = RUNNING
  | DRAINING => x'.2 - gapCycles rc' = Z.max x.2 lim - gapCycles rc /\ gapCycles rc <= gapCycles rc' /\
      rec_state rc' = match prevRespEvent rc' with None => HALTED | Some _ => DRAINING end
  end.

Section theorem.
Context (lb : Z -> Z) (g lim : Z) (cores : list (Z * Z)) (s : ContentionSim).
Hypothesis HR : Ready lb g lim cores s.

(** What [cSimStart] leaves. *)
Record Begun (lb1 : Z -> Z) (l1 : list (Z * Z)) (s1 : ContentionSim) : Prop := {
  bg_bound : Bound lb1 0 s1;
  bg_grown : grown lb (events s) lb1 (events s1);
  bg_started : Forall2 (started lim lb1 (events s1) (recorders s) (recorders s1)) cores l1;
  bg_other r : r ∉ cores.*1 -> recorders s1 !! r = recorders s !! r;
  bg_fields : limit s1 = lim /\ curCycle s1 = curCycle s /\ phaseLength s1 = phaseLength s
}.

Lemma started_keys lb1 E1 R1 l1 l : Forall2 (started lim lb1 E1 (recorders s) R1) l l1 -> l1.*1 = l.*1.
Proof. induction 1 as [|x x' l l' [Hx _] _ IH]; [done|]. by rewrite !fmap_cons, IH, Hx. Qed.

Lemma begun_own lb1 l1 s1 : Begun lb1 l1 s1 -> forall r rc, recorders s1 !! r = Some rc ->
  own_event (events s1) r rc /\ (rec_state rc = RUNNING -> forall p, prevRespEvent rc = Some p -> limit s1 <= lb1 p).
Proof.
  intros [HB Hgr Hst Hoth (El & _)] r rc Hr.
  destruct (decide (r ∈ cores.*1)) as [Hin|Hout].
  - apply list_elem_of_fmap in Hin as ([r' cur] & -> & Hin). apply list_elem_of_lookup in Hin as [i Hi].
    destruct (Forall2_lookup_l _ _ _ _ _ Hst Hi) as (x' & _ & _ & rc0 & rc1 & H0 & H1 & Hcase). cbn in *.
    assert (rc1 = rc) as -> by congruence. pose proof (proj1 (Forall_forall _ _) (ry_cores _ _ _ _ _ HR) (r', cur)) as Hok.
    destruct Hok as (rc2 & H2 & _ & _ & Hrun); [by apply list_elem_of_lookup; exists i|]. cbn in *. assert (rc2 = rc0) as -> by congruence.
    destruct (rec_state rc0) eqn:Est.
    + destruct Hcase as [-> _]. split; [|congruence]. intros p Hp. pose proof (cl_halted _ _ _ _ _ _ (bd_clocked _ _ _ HB _ _ Hr) Est). congruence.
    + destruct Hcase as (_ & e & -> & Hlb & Hown). split; [done|]. intros _ p [= <-]. rewrite El, Hlb. by apply Hrun.
    + destruct Hcase as [-> _]. split; [by apply (bd_draining _ _ _ HB)|congruence].
  - exfalso. rewrite Hoth in Hr by done. apply Hout, (ry_all _ _ _ _ _ HR). by eexists.
Qed.

Lemma begin_spec : wp (each_core (fun r => cSimStart r g) cores) (set_limit lim s) (fun l1 s1 => exists lb1, Begun lb1 l1 s1).
Proof.
  destruct HR as [HB Hnd Hok Hall (Hlim & Hcur & Htop)]. destruct (base_clock _ _ _ _ _ (bd_base _ _ _ HB)) as (_ & ? & ? & _). cbn in *.
  eapply wp_mono; [eapply (cores_start lb 0 (set_limit lim s) g cores); cbn; try done; lia|].
  intros l1 s1 (lb1 & E1 & R1 & -> & HB1 & Hgr & Hst & Hoth). exists lb1. by split.
Qed.

(** One core, from the start of the phase to its end. *)
Section core.
Context (lb1 lb2 G2 : Z -> Z) (l1 : list (Z * Z)) (s1 s2 : ContentionSim) (R' : gmap Z CoreRecorder).
Hypothesis HBg : Begun lb1 l1 s1.
Hypothesis HW : WellFormed lb2 s2.
Hypothesis HP : Progress lb1 (gap s1) (set_inCSim true s1) lb2 G2 s2.
Hypothesis Hfields : curCycle s2 = limit s1 /\ limit s2 = limit s1 /\ lastLimit s2 = lastLimit s1 /\ phaseLength s2 = phaseLength s1.
Hypothesis Hqueued : forall e ev, events s2 !! e = Some ev -> state ev = EV_QUEUED -> limit s1 <= privCycle ev.

Lemma core_weave x x1 : x ∈ cores -> started lim lb1 (events s1) (recorders s) (recorders s1) x x1 ->
  end_ok G2 lim (recorders s2) x1 /\ forall R', R' !! x.1 = ended (G2 x.1) <$> recorders s2 !! x.1 ->
    moved lim (recorders s) R' x (x1.1, x1.2 + skew G2 (recorders s2) x1.1).
Proof.
  destruct x as [r cur], x1 as [r1 cur1]. intros Hin (Hr & rc0 & rc1 & H0 & H1 & Hcase). cbn in *. subst r1.
  destruct (proj1 (Forall_forall _ _) (ry_cores _ _ _ _ _ HR) _ Hin) as (rc & Hrc & Hcur & Hprev & Hrun). cbn in *. assert (rc = rc0) as -> by congruence.
  destruct (ry_limit _ _ _ _ _ HR) as (_ & _ & Htop). destruct HP as (HCh & HC & _ & _ & Hph). specialize (Hph r). cbn in Hph.
  destruct (base_clock _ _ _ _ _ (proj1 HW)) as (_ & Hlast & Hpl & _). destruct (bg_fields _ _ _ HBg) as (El & _ & Epl). destruct Hfields as (Ec2 & _ & _ & Epl2).
  rewrite H1 in Hph. inversion Hph as [? rc2 Hph2 E1 E2|]; subst. symmetry in E2. destruct (HC _ _ E2) as [Hcl _].
  destruct (ph_fields _ _ Hph2) as (Est & Eg & Ep & _). pose proof (cl_gap _ _ _ _ _ _ Hcl) as Hg.
  assert (rec_state rc1 = rec_state rc0 /\ gapCycles rc1 = gapCycles rc0 /\ 0 <= prevRespCycle rc1 < 2 ^ 62 /\
    (rec_state rc0 <> HALTED -> limit s1 <= cur1 < 2 ^ 62 /\ cur1 = if decide (rec_state rc0 = DRAINING) then Z.max cur (limit s1) else cur)) as (Est1 & Eg1 & Hp1 & Hc1).
  { destruct (rec_state rc0) eqn:E0; [destruct Hcase as [-> _]; split_and!; try done; lia| |].
    - destruct Hcase as (-> & e & -> & _). destruct (Hrun eq_refl) as (? & _). cbn. rewrite decide_False by done. split_and!; try done; lia.
    - destruct Hcase as [-> ->]. rewrite decide_True by done. split_and!; try done; lia. }
  split.
  - exists rc2. split; [done|]. intros Hne. cbn in Hne |- *. destruct (timed_after lb1 lb2 G2 s1 s2 HP Hfields Hqueued r rc2 E2 Hne) as (? & ? & ?).
    destruct Hc1 as [? _]; [congruence|]. split_and!; try lia. by apply (cl_none _ _ _ _ _ _ Hcl).
  - intros R0 HR0. cbn in HR0. split; [done|]. exists rc0, (ended (G2 r) rc2). split; [done|]. split; [done|]. cbn. unfold skew. rewrite ?E2.
    pose proof (cl_none _ _ _ _ _ _ Hcl) as Hnone. unfold ended. rewrite Est, Est1 in *.
    destruct (rec_state rc0) eqn:E0; cbn in Hc1 |- *.
    + destruct Hcase as [_ ->]. rewrite !bool_decide_eq_true_2 by done. split_and!; [lia|congruence|done].
    + destruct (Hc1 ltac:(done)) as [_ ->]. rewrite !(bool_decide_eq_false_2 (RUNNING = HALTED)) by done.
      case_bool_decide as Hpe; [by destruct (Hnone Hpe)|]. cbn. split_and!; [lia|lia|done].
    + destruct (Hc1 ltac:(done)) as [_ ->]. rewrite !(bool_decide_eq_false_2 (DRAINING = HALTED)), decide_True by done.
      case_bool_decide as Hpe; cbn; split_and!; try lia; [by rewrite Hpe|by destruct (prevRespEvent rc2)].
Qed.

(** All the cores after the phase. *)
Lemma end_spec : wp (each_core cSimEnd l1) (set_inCSim false s2) (fun l2 s3 => exists R0,
  s3 = set_recorders (fun _ => R0) (set_inCSim false s2) /\ (forall r, R0 !! r = ended (G2 r) <$> recorders s2 !! r) /\
  Forall2 (moved lim (recorders s) R0) cores l2).
Proof.
  pose proof (bg_started _ _ _ HBg) as Hst. destruct (ry_limit _ _ _ _ _ HR) as (_ & _ & Htop).
  destruct (base_clock _ _ _ _ _ (proj1 HW)) as (_ & ? & ? & _). destruct (bg_fields _ _ _ HBg) as (El & _ & Epl). destruct (id Hfields) as (E1 & _ & _ & Epl2).
  assert (Forall2 (fun x x1 => end_ok G2 lim (recorders s2) x1 /\ forall R0, R0 !! x.1 = ended (G2 x.1) <$> recorders s2 !! x.1 ->
    moved lim (recorders s) R0 x (x1.1, x1.2 + skew G2 (recorders s2) x1.1)) cores l1) as Hall.
  { apply Forall2_same_length_lookup. split; [by eapply Forall2_length|]. intros i x x1 Hx Hx1. apply core_weave.
    - apply list_elem_of_lookup. eauto.
    - by eapply (Forall2_lookup_lr _ _ _ i). }
  eapply wp_mono; [apply (cores_end G2 lim l1); [|  |lia]|].
  - rewrite (started_keys _ _ _ _ _ Hst). apply HR.
  - apply Forall_forall. intros x1 Hx1. apply list_elem_of_lookup in Hx1 as [i Hi].
    destruct (Forall2_lookup_r _ _ _ _ _ Hall Hi) as (x & _ & Hok & _). done.
  - intros l2 s3 (R0 & -> & -> & Hin & Hout). rewrite (started_keys _ _ _ _ _ Hst) in Hin, Hout. cbn in Hin, Hout. exists R0. split; [done|].
    assert (forall r, R0 !! r = ended (G2 r) <$> recorders s2 !! r) as HR0.
    { intros r. destruct (decide (r ∈ cores.*1)) as [|Hr]; [by apply Hin|]. rewrite Hout by done.
      destruct HP as (_ & _ & _ & _ & Hph). specialize (Hph r). cbn in Hph. rewrite (bg_other _ _ _ HBg r Hr) in Hph.
      destruct (recorders s !! r) eqn:Hs; [by destruct Hr; apply (ry_all _ _ _ _ _ HR); eexists|]. by inversion Hph as [|E2 E3]. }
    split; [done|]. apply Forall2_fmap_r. eapply Forall2_impl; [exact Hall|]. intros x x1 [_ Hm]. apply Hm, HR0.
Qed.
End core.
End theorem.

(** C10: Contention only delays, and no core loses time.  From the bound to the weave phase and
    back, over the whole of [simulatePhase] (the [cSimStart] of every core, the run of the
    events, the [cSimEnd] of every core): no assertion fails, and no
    negative skew is met.  No event gets an earlier cycle, so the gap
    of a recorder never gets smaller; a core's clock moves by exactly what its gap
    grows, so that its clock without load, [curCycle - gapCycles], stays what it was (the
    clock of a core that has left is first brought to the end of the phase); a core that has
    left is halted when its last event has run, and only then.  And the state is in order for
    the next phase: the events that wait have the cycles of the moved clocks. *)
Theorem contention_only_delays lb g lim cores s :
  Ready lb g lim cores s -> exists lb' s' cores',
    simulatePhase g lim cores s = Ok (cores', s') /\ Bound lb' 0 s' /\ curCycle s' = lim /\ lastLimit s' = lim /\
    (forall x xv, events s !! x = Some xv -> lb x <= lb' x) /\ Forall2 (moved lim (recorders s) (recorders s')) cores cores'.
Proof.
  intros HR. assert (wp (simulatePhase g lim cores) s (fun cores' s' => exists lb', Bound lb' 0 s' /\ curCycle s' = lim /\ lastLimit s' = lim /\
    (forall x xv, events s !! x = Some xv -> lb x <= lb' x) /\ Forall2 (moved lim (recorders s) (recorders s')) cores cores')) as Hwp.
  { destruct (ry_limit _ _ _ _ _ HR) as (Hlim & Hcur & Htop). destruct (base_clock _ _ _ _ _ (bd_base _ _ _ (ry_bound _ _ _ _ _ HR))) as (_ & Hlast & _). cbn in Hlast.
    unfold simulatePhase. do 2 wp_step. do 2 wp_step. do 2 wp_step; [apply Z.leb_le; lia|]. wp_step. eapply wp_mono; [by apply (begin_spec lb)|].
    intros l1 s1 [lb1 HBg]. destruct (bg_fields _ _ _ _ _ _ _ HBg) as (El & Ec & Epl). do 3 wp_step.
    eapply wp_mono; [apply (weave_spec lb1 s1 (bg_bound _ _ _ _ _ _ _ HBg)); [lia|by eapply begun_own]|].
    intros _ s2 (lb2 & G2 & HW & HP & Hfields & Hq). do 3 wp_step.
    eapply wp_mono; [by eapply (end_spec lb g lim cores s HR lb1 lb2 G2 l1 s1 s2)|].
    intros l2 s3 (R' & -> & HR' & Hmoved). do 3 wp_step. exists lb2. destruct (id Hfields) as (E1 & _). split_and!; try done.
    - rewrite <- El. apply (bound_after lb1 lb2 G2 s1 s2); try done; [apply HBg|]. rewrite El, Epl. done.
    - cbn. by rewrite E1.
    - intros x xv Hx. destruct (bg_grown _ _ _ _ _ _ _ HBg x xv Hx) as [<- _]. apply HP. }
  apply wp_ok in Hwp as (cores' & s' & H & lb' & Hr). eauto 10.
Qed.
