(* ===== verification/RecorderExamples.v ===== *)
(** * A core over a phase

    A core joins, accesses a memory that is slower than the bound phase took it
    for, and runs on to the end of the phase; a second core is halted. *)

From stdpp Require Import base tactics numbers list gmap relations sets sorting.
From Stdlib Require Import ZArith Lia.
From S2P Require Import MemTypes Prelude PrioQueue TimingEvents WeaveInv Weave WeavePhase WeaveFrame WeaveMain CachePort RecorderInv EventRecorder CoreRecorder RecorderBound RecorderMain.

Open Scope Z_scope.

(** ** The program *)

Definition at_rest : ContentionSim :=
  mkSim ∅ (PrioQueue_init PQ_BLOCKS) 1000 1000 1000 false 1000 ∅
    {[100 := CoreRecorder_init 0 0 0 0 0; 101 := CoreRecorder_init 0 0 0 0 0]} [].

(** The join at 1000, and an access at 1010 whose response comes at 1050, where the event
    will take 50 cycles. *)
Definition access_slow : sim Z :=
  cur ← notifyJoin 100 1000 0;
  e ← alloc_event (setMinStartCycle 1010 (TimingEvent_init 0 0 0 (WeaveMemAccEvent 50)));
  recordAccess 100 1010 (mkRecord 0 1010 1050 GETS (Some e) (Some e));;
  mret cur.

Definition accessed_state : ContentionSim := Eval vm_compute in match access_slow at_rest with Ok (_, s) => s | Err _ => at_rest end.
Lemma access_runs : access_slow at_rest = Ok (1000, accessed_state).
Proof. vm_compute. reflexivity. Qed.

(** The core is ten cycles late at the end of the phase, and not without load. *)
Example slow_phase :
  match simulatePhase 1000 2000 [(100, 2010); (101, 5)] accessed_state with
  | Ok (cores, s) => Some (cores, gapCycles <$> recorders s !! 100, prevRespCycle <$> recorders s !! 100, rec_state <$> recorders s !! 101)
  | Err _ => None
  end = Some ([(100, 2020); (101, 5)], Some 10, Some 2020, Some HALTED).
Proof. vm_compute. reflexivity. Qed.

(** ** The state is in order *)

Definition slow_cycle (e : Z) : Z := if e =? 2 then 1010 else 1000.
Definition slow_events : list (Z * TimingEvent) := Eval vm_compute in map_to_list (events accessed_state).

Lemma slow_lookup e ev : events accessed_state !! e = Some ev -> (e, ev) ∈ slow_events.
Proof.
  intros He. assert (map_to_list (events accessed_state) = slow_events) as <- by (vm_compute; reflexivity). by apply elem_of_map_to_list.
Qed.

(** Goals about every event, one by one. *)
Ltac each_slow H :=
  apply slow_lookup in H; unfold slow_events in H;
  repeat (apply elem_of_cons in H as [H|H]; [simplify_eq|]); try by apply elem_of_nil in H.
Ltac each_pair H := repeat (apply elem_of_cons in H as [H|H]; [simplify_eq|]); try by apply elem_of_nil in H.

Lemma slow_edge p c : edge (events accessed_state) p c <-> (p, c) ∈ [(1, 3); (3, 2)].
Proof.
  split.
  - intros (ev & Hp & _ & Hc). each_slow Hp; vm_compute in Hc; repeat (apply elem_of_cons in Hc as [->|Hc]; [set_solver|]); by apply elem_of_nil in Hc.
  - intros H. each_pair H; (eexists; split; [vm_compute; reflexivity|]; split; [done|]; vm_compute; set_solver).
Qed.

Lemma slow_path a b : tc (edge (events accessed_state)) a b <-> (a, b) ∈ [(1, 3); (3, 2); (1, 2)].
Proof.
  split.
  - induction 1 as [x y H|x y z H _ IH]; apply slow_edge in H; [set_solver|]. each_pair H; each_pair IH; set_solver.
  - intros H. each_pair H; [apply tc_once, slow_edge; set_solver..|].
    eapply tc_l; [apply (proj2 (slow_edge 1 3)); set_solver|]. apply tc_once, slow_edge. set_solver.
Qed.

Lemma slow_events_ok : EventsInv slow_cycle [] ∅ (events accessed_state).
Proof.
  split.
  - intros e ev He. each_slow He;
      (split; [vm_compute; by split|reflexivity|vm_compute; by split|vm_compute; by split|vm_compute; by split| |vm_compute; by split
        |by vm_compute|by vm_compute|intros c n Hc; discriminate|by intros Hd
        |discriminate|discriminate|discriminate]).
    all: split; [|reflexivity]; cbn; repeat (constructor; [by eexists|]); constructor.
  - intros e ev He. each_slow He; vm_compute; reflexivity.
  - intros p pv c Hp Hs Hc. assert (edge (events accessed_state) p c) as Hpc%slow_edge by (by exists pv).
    each_pair Hpc; each_slow Hp; (eexists; split; [vm_compute; reflexivity|split; [reflexivity|vm_compute; done]]).
  - intros c t Hc. by apply elem_of_nil in Hc.
  - intros e ev He. each_slow He; done.
  - intros w wb c m ev Hw Hc Hm _. each_slow Hw; done.
  - intros m ev c Hm _ Hc. each_slow Hm; done.
Qed.

Lemma slow_core e ev r o : events accessed_state !! e = Some ev -> of_core r o ev -> r = 100 /\ o = 1000 /\ (e = 1 \/ e = 3).
Proof. intros He [t Ho]. each_slow He; try done; injection Ho as <- <- _; auto. Qed.

Lemma slow_chains G : G 100 = 0 -> Chains slow_cycle G (events accessed_state).
Proof.
  intros HG. split.
  - intros e ev r o He Ho. destruct (slow_core _ _ _ _ He Ho) as (-> & -> & [-> | ->]); rewrite HG; by vm_compute.
  - intros e ev r o He Ho p c Hpc Hec. apply slow_edge in Hpc. apply slow_path in Hec. unfold below. rewrite slow_path.
    destruct (slow_core _ _ _ _ He Ho) as (_ & _ & [-> | ->]); each_pair Hpc; set_solver.
  - intros e1 x1 e2 x2 r o1 o2 H1 H2 Ho1 Ho2 Hne. rewrite !slow_path.
    destruct (slow_core _ _ _ _ H1 Ho1) as (_ & _ & [-> | ->]), (slow_core _ _ _ _ H2 Ho2) as (_ & _ & [-> | ->]); try done; set_solver.
  - intros e1 x1 e2 x2 r1 r2 o1 o2 H1 H2 Ho1 Ho2 Hne.
    destruct (slow_core _ _ _ _ H1 Ho1) as (-> & _), (slow_core _ _ _ _ H2 Ho2) as (-> & _). done.
Qed.

Lemma slow_recorder r rc : recorders accessed_state !! r = Some rc -> r = 100 /\ recorders accessed_state !! 100 = Some rc \/ r = 101 /\ rc = CoreRecorder_init 0 0 0 0 0.
Proof.
  intros Hr. assert (r = 100 \/ r = 101) as [-> | ->]; [|by left|right; split; [done|vm_compute in Hr; by injection Hr as <-]].
  assert (r ∈ dom (recorders accessed_state)) as Hd by (apply elem_of_dom; by exists rc).
  assert (dom (recorders accessed_state) = {[100; 101]}) as E by (vm_compute; reflexivity). rewrite E in Hd. set_solver.
Qed.

Lemma slow_attached : Attached slow_cycle (events accessed_state) 100 1050 2.
Proof.
  split.
  - eexists _, []. split; [vm_compute; reflexivity|]. split; [split; [done|by left]|]. split; [by vm_compute|]. by split.
  - intros e ev o He Ho. unfold below. rewrite slow_path. destruct (slow_core _ _ _ _ He Ho) as (_ & _ & [-> | ->]); set_solver.
  - intros e ev r o He Ho Hne. by destruct (slow_core _ _ _ _ He Ho) as (-> & _).
Qed.

Lemma slow_queue : exists L, QueueRep PQ_BLOCKS (pq accessed_state) L (queued (events accessed_state)).
Proof.
  assert (queued (events accessed_state) = <[1 := 1000]> ∅) as -> by (vm_compute; reflexivity).
  assert (exists q, enqueue PQ_BLOCKS 1 1000 (PrioQueue_init PQ_BLOCKS) = Ok (tt, q) /\ pq accessed_state = q) as (q & Hq & ->).
  { eexists. split; vm_compute; reflexivity. }
  pose proof (enqueue_spec PQ_BLOCKS ltac:(done) ltac:(done) _ _ _ 1 1000 (init_rep PQ_BLOCKS ltac:(done) ltac:(done)) ltac:(done) ltac:(done) ltac:(done) ltac:(by vm_compute)) as Hwp.
  unfold wp in Hwp. rewrite Hq in Hwp. apply Hwp.
Qed.

Definition slow_cores : list (Z * Z) := [(100, 2010); (101, 5)].

Lemma slow_bound : Bound slow_cycle 962 (set_limit 2000 accessed_state).
Proof.
  assert (events (set_limit 2000 accessed_state) = events accessed_state) as Ee by done.
  assert (gap (set_limit 2000 accessed_state) 100 = 0) as Eg by (vm_compute; reflexivity).
  split; rewrite ?Ee.
  - split; cbn [events pq set_inCSim set_limit]; try done.
    + apply slow_events_ok.
    + apply slow_queue.
    + intros e ev He Hs. each_slow He; try done.
    + intros e ev He Hs. each_slow He; done.
    + intros e ev He Hs. each_slow He; done.
    + intros c t Hc. by apply elem_of_nil in Hc.
  - split; rewrite ?Ee.
    + intros e ev c He Hc. each_slow He; done.
    + intros e ev r o x He Hc. destruct (slow_core e ev r o He ltac:(by exists x)) as (-> & _). vm_compute. eauto.
    + intros c tc Hc. by vm_compute in Hc.
    + intros c tc Hc. by vm_compute in Hc.
    + intros c tc Hc. by vm_compute in Hc.
    + intros c tc Hc. by vm_compute in Hc.
    + intros c tc Hc. by vm_compute in Hc.
  - by apply slow_chains.
  - intros r rc Hr. change (recorders (set_limit 2000 accessed_state)) with (recorders accessed_state) in Hr.
    destruct (slow_recorder _ _ Hr) as [[-> Hr']|[-> ->]].
    + vm_compute in Hr'. injection Hr' as <-. split; try done.
      * intros p [= <-]. rewrite Eg. split; [by vm_compute|]. apply slow_attached.
      * right; right. exists 1. eexists _, 1000. split; [vm_compute; reflexivity|]. split; [done|]. split; [by eexists|done].
    + split; try done; [|by left]. intros e ev o _ He Ho. destruct (slow_core _ _ _ _ He Ho) as (? & _). done.
  - intros r rc Hr Hst. destruct (slow_recorder _ _ Hr) as [[-> Hr']|[-> ->]]; [|done]. vm_compute in Hr'. injection Hr' as <-. done.
  - intros r1 rc1 r2 rc2 p H1 H2 Hp1 Hp2.
    destruct (slow_recorder _ _ H1) as [[-> _]|[-> ->]], (slow_recorder _ _ H2) as [[-> _]|[-> ->]]; done.
Qed.

Lemma slow_ready : Ready slow_cycle 1000 2000 slow_cores accessed_state.
Proof.
  split.
  - assert (all_taken (recorders accessed_state) slow_cores = 962) as -> by (vm_compute; reflexivity). apply slow_bound.
  - vm_compute. repeat constructor; set_solver.
  - repeat constructor; (eexists; split; [vm_compute; reflexivity|]); cbn; split_and!; try done.
  - intros r [rc Hr]. destruct (slow_recorder _ _ Hr) as [[-> _]|[-> _]]; cbn; set_solver.
  - done.
Qed.

Lemma contention_only_delays_witness : exists lb' s', simulatePhase 1000 2000 slow_cores accessed_state = Ok ([(100, 2020); (101, 5)], s') /\
  Bound lb' 0 s' /\ curCycle s' = 2000 /\ Forall2 (moved 2000 (recorders accessed_state) (recorders s')) slow_cores [(100, 2020); (101, 5)].
Proof.
  destruct (contention_only_delays slow_cycle 1000 2000 slow_cores accessed_state slow_ready) as (lb' & s' & cores' & Hs & HB & Hc & _ & _ & Hm).
  assert (cores' = [(100, 2020); (101, 5)]) as E.
  { pose proof slow_phase as Hp. change [(100, 2010); (101, 5)] with slow_cores in Hp. rewrite Hs in Hp. by injection Hp as -> _. }
  rewrite E in Hs, Hm. exists lb', s'. by split_and!.
Defined.
