(* ===== verification/Prefetcher.v ===== *)
(** * The stream prefetcher (prefetcher.h/.cpp)

    A prefetcher sits between two levels of caches.  It hands every access to its
    parent, and for loads it watches the page of the line: two accesses at the
    same distance make it ask the parent for a line ahead.  What it fetched is
    kept as the cycle at which the line is there.  The event of a prefetch joins
    the events that the parent left in the recorder of the core. *)

From stdpp Require Import base tactics numbers list gmap.
From Stdlib Require Import ZArith Lia.
From S2P Require Import MemTypes Prelude PrioQueue TimingEvents EventRecorder.

Open Scope Z_scope.

(** ** The entries *)

Definition MAX_CONF : Z := 3.   (* SatCounter<3, 2, 1> *)
Definition THRESHOLD : Z := 2.
Definition INITIAL : Z := 1.
Definition SatCounter_dec (count : Z) : Z := Z.max (count - 1) 0.
Definition SatCounter_inc (count : Z) : Z := Z.min (count + 1) MAX_CONF.
Definition SatCounter_pred (count : Z) : bool := THRESHOLD <=? count.

(** The part of [Entry] that decides what to fetch. *)
Record Strides : Type := mkStrides {
  stride : Z; conf : Z; valid : list bool; lastPos : Z; lastLastPos : Z; lastPrefetchPos : Z
}.
(** [Entry]; [times] holds [startCycle] and [respCycle]. *)
Record Entry : Type := mkEntry { strides : Strides; times : list (Z * Z); lastCycle : Z; ts : Z }.

(** [gm_calloc]: zeros, not the constructor of the counter. *)
Definition Entry_calloc : Entry := mkEntry (mkStrides 0 0 (replicate 64 false) 0 0 0) (replicate 64 (0, 0)) 0 0.

Definition set_conf (c : Z) (x : Strides) : Strides := mkStrides (stride x) c (valid x) (lastPos x) (lastLastPos x) (lastPrefetchPos x).
Definition set_stride (d : Z) (x : Strides) : Strides := mkStrides d (conf x) (valid x) (lastPos x) (lastLastPos x) (lastPrefetchPos x).
Definition set_valid (v : list bool) (x : Strides) : Strides := mkStrides (stride x) (conf x) v (lastPos x) (lastLastPos x) (lastPrefetchPos x).
Definition set_lastPrefetchPos (p : Z) (x : Strides) : Strides := mkStrides (stride x) (conf x) (valid x) (lastPos x) (lastLastPos x) p.
(** The two assignments at the end of a hit. *)
Definition push_pos (p : Z) (x : Strides) : Strides := mkStrides (stride x) (conf x) (valid x) p (lastPos x) (lastPrefetchPos x).

(** [alloc], and the assignments after it. *)
Definition alloc (curCycle pos timestamp : Z) (e : Entry) : Entry :=
  mkEntry (mkStrides 1 INITIAL (replicate 64 false) pos 0 0) (times e) curCycle timestamp.

(** The prediction of a hit: whether to fetch, which position and how far ahead.  The
    division is of unsigned numbers. *)
Definition predict (pos : Z) (x : Strides) : result (option (Z * Z)) :=
  let d := s32 (pos - lastPos x) in
  if d =? 0 then Err Panicked
  else
    let fetchDepth := s32 (u32 (lastPrefetchPos x - lastPos x) / u32 d) in
    let '(prefetchPos, fetchDepth) :=
      if fetchDepth <? 1 then (u32 (pos + d), 1) else (u32 (lastPrefetchPos x + d), fetchDepth) in
    if prefetchPos <? 64 then
      match at_ (valid x) prefetchPos with
      | Ok v => Ok (if v then None else Some (prefetchPos, fetchDepth))
      | Err f => Err f
      end
    else Ok None.

(** Step 2 of a hit, up to the accesses that it asks for. *)
Definition train (pos : Z) (x : Strides) : result (Strides * option (Z * Z)) :=
  let d := s32 (pos - lastPos x) in
  if stride x =? d then
    let x := set_conf (SatCounter_inc (conf x)) x in
    if SatCounter_pred (conf x) then match predict pos x with Ok o => Ok (x, o) | Err f => Err f end
    else Ok (x, None)
  else
    let x := set_conf (SatCounter_dec (conf x)) x in
    let lastStride := s32 (lastPos x - lastLastPos x) in
    let x := if negb (SatCounter_pred (conf x)) && negb (d =? 0) && negb (d =? stride x) && (d =? lastStride)
             then set_stride d (set_conf INITIAL x) else x in
    Ok (set_lastPrefetchPos pos x, None).

(** Step 1 of a hit: a line that was fetched is used up.  The entry, and whether its fetch
    ends after the access ([shortPrefetch]). *)
Definition use_prefetch (pos respCycle : Z) (e : Entry) : result (Entry * bool) :=
  match at_ (valid (strides e)) pos, at_ (times e) pos with
  | Ok true, Ok (_, pfRespCycle) =>
    Ok (mkEntry (set_valid (<[Z.to_nat pos := false]> (valid (strides e))) (strides e)) (times e)
          (Z.max (Z.max pfRespCycle respCycle) (lastCycle e)) (ts e), respCycle <? pfRespCycle)
  | Ok false, _ => Ok (e, false)
  | Err f, _ => Err f
  | _, Err f => Err f
  end.

(** A line is fetched, as [times] and [valid] say. *)
Definition note_prefetch (prefetchPos reqCycle respCycle : Z) (e : Entry) : result Entry :=
  match set_at (valid (strides e)) prefetchPos true, set_at (times e) prefetchPos (u32 reqCycle, respCycle) with
  | Ok v, Ok t => Ok (mkEntry (set_valid v (strides e)) t (lastCycle e) (ts e))
  | Err f, _ | _, Err f => Err f
  end.

(** ** The prefetcher *)

Record StreamPrefetcher : Type := mkPrefetcher { timestamp : Z; tag : list Z; array : list Entry; childId : nat }.

Definition StreamPrefetcher_init (pfEntries : nat) : StreamPrefetcher :=
  mkPrefetcher 0 (replicate pfEntries 0) (replicate pfEntries Entry_calloc) 0.
(** [setParents] keeps the number that the parent gave. *)
Definition setParents (id : nat) (p : StreamPrefetcher) : StreamPrefetcher := mkPrefetcher (timestamp p) (tag p) (array p) id.

(** The entry of a page: the last one of 16; 16 if there is none. *)
Fixpoint find_entry (n : nat) (i idx pageAddr : Z) (tags : list Z) : result Z :=
  match n with
  | O => Ok idx
  | Datatypes.S n => match at_ tags i with
    | Ok t => find_entry n (i + 1) (if pageAddr =? t then i else idx) pageAddr tags
    | Err f => Err f
    end
  end.

(** The entry to replace: the oldest that is not warm. *)
Fixpoint find_victim (n : nat) (i cand candScore reqCycle : Z) (l : list Entry) : result Z :=
  match n with
  | O => Ok cand
  | Datatypes.S n => match at_ l i with
    | Ok e =>
      let take := negb (u64 (reqCycle + 500) <? lastCycle e) && (ts e <? candScore) in
      find_victim n (i + 1) (if take then i else cand) (if take then ts e else candScore) reqCycle l
    | Err f => Err f
    end
  end.

Record Node (P : Type) : Type := mkNode { prefetcher : StreamPrefetcher; world : World P }.
Arguments mkNode {P}. Arguments prefetcher {P}. Arguments world {P}.

Section access.
Context {P : Type}.
(** [parent->access(req)], with the contents of [*req.state] before and after. *)
Context (parent_access : MemReq -> MESIState -> st (World P) (MESIState * Z)).
Context (child_invalidate : InvReq -> st (World P) Z).
(** What [wbAcc.reqCycle] holds when no record was popped. *)
Context (uninit : Z).

Definition set_prefetcher (p : StreamPrefetcher) (s : Node P) : Node P := mkNode p (world s).
Definition set_world (w : World P) (s : Node P) : Node P := mkNode (prefetcher s) w.
Definition in_world {A} (m : st (World P) A) : st (Node P) A := zoom world set_world m.

Definition get_entry (idx : Z) : st (Node P) Entry := p ← gets prefetcher; lift (at_ (array p) idx).
Definition set_entry (idx : Z) (e : Entry) : st (Node P) unit :=
  p ← gets prefetcher;
  a ← lift (set_at (array p) idx e);
  modify (set_prefetcher (mkPrefetcher (timestamp p) (tag p) a (childId p))).
(** [timestamp++]. *)
Definition next_ts : st (Node P) Z :=
  p ← gets prefetcher;
  modify (set_prefetcher (mkPrefetcher (u64 (timestamp p + 1)) (tag p) (array p) (childId p)));;
  mret (timestamp p).

(** [StreamPrefetcherEvent::coupleEvents]. *)
Definition add_child (ev : Z) (c : ptr) : st (World P) unit :=
  match c with Some c => zoom csim set_csim (addChild ev c);; mret tt | None => fail Panicked end.
Definition coupleEvents (ev onGoingCycle : Z) (rec : TimingRecord) : st (World P) unit :=
  when (onGoingCycle <? tr_reqCycle rec) (zoom csim set_csim (set_event ev (setMinStartCycle (tr_reqCycle rec))));;
  add_child ev (startEvent rec);;
  when (bool_decide (startEvent rec <> endEvent rec)) (add_child ev (endEvent rec)).

(** The record that an access of the parent has left, as children of the event. *)
Definition couple_record (r ev onGoingCycle : Z) : st (World P) unit :=
  has ← hasRecord r;
  when has (rec ← popRecord r; coupleEvents ev onGoingCycle rec).

(** The requests: the demand under the name of the prefetcher, and a prefetch. *)
Definition demand_req (req : MemReq) (id : nat) : MemReq :=
  mkReq (lineAddr req) (type req) id (MemTypes.state req) (MemTypes.cycle req) (initialState req) (srcId req) (flags req).
Definition prefetch_req (req : MemReq) (id : nat) (line : Z) : MemReq :=
  mkReq line GETS id CoreState (MemTypes.cycle req) I (srcId req) PREFETCH.

(** One access of the parent for a position ahead, and its entry in the table. *)
Definition fetch (idx : Z) (req : MemReq) (line prefetchPos : Z) (s : MESIState) (longerCycle : Z) : st (Node P) (MESIState * Z) :=
  p ← gets prefetcher;
  '(s', pfRespCycle) ← in_world (parent_access (prefetch_req req (childId p) line) s);
  let longerCycle := Z.max longerCycle pfRespCycle in
  e ← get_entry idx;
  e' ← lift (note_prefetch prefetchPos (MemTypes.cycle req) longerCycle e);
  set_entry idx e';;
  mret (s', longerCycle).

(** The second fetch, of the position after the first. *)
Definition double_prefetch (idx : Z) (req : MemReq) (line prefetchPos : Z) (s : MESIState) (longerCycle ev onGoingCycle : Z) :
    st (Node P) (MESIState * Z) :=
  r ← fetch idx req line prefetchPos s longerCycle;
  in_world (couple_record (srcId req) ev onGoingCycle);;
  mret r.

(** The end of a prefetch: the position is kept, and the record of the event is left to the core. *)
Definition publish (idx r line newEv longerCycle : Z) (s : MESIState) (respCycle prefetchPos : Z) : st (Node P) Z :=
  e ← get_entry idx;
  set_entry idx (mkEntry (set_lastPrefetchPos prefetchPos (strides e)) (times e) (lastCycle e) (ts e));;
  assert_ (bool_decide (s = I));;
  in_world (pushRecord r (mkRecord line longerCycle respCycle GETS (Some newEv) (Some newEv)));;
  mret respCycle.

(** The prefetch of a hit, and maybe a second one; the cycle that [access] returns. *)
Definition issue (idx : Z) (req : MemReq) (wbAcc : TimingRecord) (shortPrefetch : bool) (pos prefetchPos fetchDepth : Z) : st (Node P) Z :=
  e0 ← get_entry idx;
  let d := s32 (pos - lastPos (strides e0)) in
  let line := u64 (lineAddr req + prefetchPos - pos) in
  '(s, longerCycle) ← fetch idx req line prefetchPos I (tr_reqCycle wbAcc);
  newEv ← in_world (new_event (srcId req) (setMinStartCycle longerCycle (TimingEvent_init 0 0 0 (StreamPrefetcherEvent longerCycle))));
  in_world (when (isValid wbAcc) (coupleEvents newEv longerCycle wbAcc));;
  in_world (couple_record (srcId req) newEv longerCycle);;
  e ← get_entry idx;
  let nextPos := u32 (prefetchPos + d) in
  let near := shortPrefetch && (fetchDepth <? 8) && (nextPos <? 64) in
  again ← (if near then v ← lift (at_ (valid (strides e)) nextPos); mret (negb v) else mret false);
  '(s, respCycle, prefetchPos) ←
    (if again : bool then
       '(s, c) ← double_prefetch idx req (u64 (line + d)) nextPos s longerCycle newEv longerCycle; mret (s, c, nextPos)
     else mret (s, longerCycle, prefetchPos));
  publish idx (srcId req) line newEv longerCycle s respCycle prefetchPos.

(** A page that has no entry. *)
Definition entry_miss (pageAddr pos reqCycle : Z) : st (Node P) unit :=
  p ← gets prefetcher;
  cand ← lift (find_victim 16 0 16 (W64 - 1) reqCycle (array p));
  when (cand <? 16) (
    t ← next_ts;
    e ← get_entry cand;
    set_entry cand (alloc reqCycle pos t e);;
    p ← gets prefetcher;
    tags ← lift (set_at (tag p) cand pageAddr);
    modify (set_prefetcher (mkPrefetcher (timestamp p) tags (array p) (childId p)))).

(** A page that has an entry: the position to fetch, if any. *)
Definition entry_hit (idx pos respCycle : Z) : st (Node P) (bool * option (Z * Z)) :=
  t ← next_ts;
  e ← get_entry idx;
  '(e, shortPrefetch) ← lift (use_prefetch pos respCycle (mkEntry (strides e) (times e) (lastCycle e) t));
  '(x, o) ← lift (train pos (strides e));
  set_entry idx (mkEntry (match o with None => push_pos pos x | Some _ => x end) (times e) (lastCycle e) (ts e));;
  mret (shortPrefetch, o).

(** The end of an access that fetches nothing. *)
Definition put_back (r : Z) (wbAcc : TimingRecord) : st (World P) unit := when (isValid wbAcc) (pushRecord r wbAcc).

Definition access (req : MemReq) (s : MESIState) : st (Node P) (MESIState * Z) :=
  p ← gets prefetcher;
  '(s', respCycle) ← in_world (parent_access (demand_req req (childId p)) s);
  if negb (bool_decide (type req = GETS)) then mret (s', respCycle)
  else
    has ← in_world (hasRecord (srcId req));
    wbAcc ← in_world (if has : bool then popRecord (srcId req) else mret (mkRecord 0 uninit 0 GETS None None));
    let pageAddr := Z.shiftr (lineAddr req) 6 in
    let pos := Z.land (lineAddr req) 63 in
    p ← gets prefetcher;
    idx ← lift (find_entry 16 0 16 pageAddr (tag p));
    o ← (if idx =? 16 then entry_miss pageAddr pos (MemTypes.cycle req);; mret None
         else '(shortPrefetch, o) ← entry_hit idx pos respCycle; mret (match o with Some (q, d) => Some (shortPrefetch, q, d) | None => None end));
    match o with
    | Some (shortPrefetch, prefetchPos, fetchDepth) =>
      c ← issue idx req wbAcc shortPrefetch pos prefetchPos fetchDepth;
      mret (s', c)
    | None =>
      in_world (put_back (srcId req) wbAcc);;
      mret (s', respCycle)
    end.

(** [invalidate] only passes the request down. *)
Definition invalidate (req : InvReq) : st (Node P) Z := in_world (child_invalidate req).
End access.
