(* ===== verification/PrefetcherMain.v ===== *)
(** * What the stream prefetcher does to its parent

    The parent is any function that answers accesses and leaves no records; it
    keeps the list of what it was asked.  The demands reach it unchanged, and the
    prefetches stay in the page; over a stream of consecutive lines the requests
    are worked out exactly. *)

From stdpp Require Import base tactics numbers list gmap.
From Stdlib Require Import ZArith Lia.
From S2P Require Import MemTypes Prelude PrioQueue TimingEvents EventRecorder Prefetcher.

Open Scope Z_scope.

(** ** The predictor on its own *)

Record StridesOk (x : Strides) : Prop := { so_valid : length (valid x) = 64%nat; so_stride : stride x <> 0 }.
Record EntryOk (e : Entry) : Prop := { eo_valid : length (valid (strides e)) = 64%nat; eo_times : length (times e) = 64%nat }.

Lemma at_64 {A} (l : list A) i : length l = 64%nat -> 0 <= i < 64 -> exists x, at_ l i = Ok x /\ l !! Z.to_nat i = Some x.
Proof.
  intros Hl Hi. destruct (lookup_lt_is_Some_2 l (Z.to_nat i)) as [x Hx]; [lia|]. exists x. split; [by apply at_some|done].
Qed.

Lemma set_at_64 {A} (l : list A) i (y : A) : length l = 64%nat -> 0 <= i < 64 -> set_at l i y = Ok (<[Z.to_nat i := y]> l).
Proof. intros Hl Hi. destruct (at_64 l i Hl Hi) as (x & _ & Hx). by eapply set_at_some. Qed.

(** A position to fetch is one of the page, and is not there yet. *)
Definition to_fetch (x : Strides) (o : option (Z * Z)) : Prop :=
  match o with Some (q, _) => 0 <= q < 64 /\ valid x !! Z.to_nat q = Some false | None => True end.

Lemma prediction_spec pos x : length (valid x) = 64%nat -> s32 (pos - lastPos x) <> 0 -> exists o, predict pos x = Ok o /\ to_fetch x o.
Proof.
  intros Hv Hd. unfold predict. rewrite (proj2 (Z.eqb_neq _ _)) by done.
  set (q := if _ <? 1 then _ else _). assert (0 <= q.1) as Hq by (unfold q; case_match; cbn; apply u32_range).
  destruct q as [q d]. cbn in Hq. destruct (Z.ltb_spec q 64) as [Hlt|]; [|by exists None].
  destruct (at_64 (valid x) q Hv ltac:(lia)) as ([] & -> & Hl); eexists; split; done.
Qed.

Lemma train_spec pos x : StridesOk x -> exists x' o,
  train pos x = Ok (x', o) /\ StridesOk x' /\ valid x' = valid x /\ lastPos x' = lastPos x /\ to_fetch x' o.
Proof.
  intros [Hv Hs]. unfold train. destruct (Z.eqb_spec (stride x) (s32 (pos - lastPos x))) as [Heq|Hne].
  - cbn [conf set_conf]. case_match; [|exists (set_conf (SatCounter_inc (conf x)) x), None; done].
    destruct (prediction_spec pos (set_conf (SatCounter_inc (conf x)) x)) as (o & -> & Ho); [done|cbn; congruence|].
    exists (set_conf (SatCounter_inc (conf x)) x), o. done.
  - eexists _, None. split; [reflexivity|]. case_match eqn:Hc; split_and!; try done.
    apply andb_prop in Hc as [Hc _]. apply andb_prop in Hc as [Hc _]. apply andb_prop in Hc as [_ Hd].
    apply negb_true_iff, Z.eqb_neq in Hd. split; [done|cbn in *; done].
Qed.

Lemma use_prefetch_spec pos c e : EntryOk e -> 0 <= pos < 64 -> exists v m short,
  valid (strides e) !! Z.to_nat pos = Some v /\ (short = true -> v = true) /\
  use_prefetch pos c e =
    Ok (mkEntry (set_valid (<[Z.to_nat pos := false]> (valid (strides e))) (strides e)) (times e) m (ts e), short).
Proof.
  intros [Hv Ht] Hpos. destruct (at_64 _ _ Hv Hpos) as (v & Hav & Hlv). destruct (at_64 _ _ Ht Hpos) as ([s r] & Hat & _).
  exists v. unfold use_prefetch. rewrite Hav, Hat. destruct v.
  - eexists _, (c <? r). done.
  - exists (lastCycle e), false. split_and!; [done..|]. rewrite list_insert_id by done. by destruct e as [[] ? ? ?].
Qed.

Lemma note_prefetch_spec q c r e : EntryOk e -> 0 <= q < 64 ->
  note_prefetch q c r e = Ok (mkEntry (set_valid (<[Z.to_nat q := true]> (valid (strides e))) (strides e))
    (<[Z.to_nat q := (u32 c, r)]> (times e)) (lastCycle e) (ts e)).
Proof. intros [Hv Ht] Hq. unfold note_prefetch. by rewrite !set_at_64. Qed.

(** What a hit at [pos] fetches; a hit that might fetch twice is left out. *)
Definition hit_step (x : Strides) (pos : Z) : option (Strides * option Z) :=
  v ← valid x !! Z.to_nat pos;
  match train pos (set_valid (<[Z.to_nat pos := false]> (valid x)) x) with
  | Ok (x, None) => Some (push_pos pos x, None)
  | Ok (x, Some (q, _)) => if v : bool then None else Some (set_lastPrefetchPos q (set_valid (<[Z.to_nat q := true]> (valid x)) x), Some q)
  | Err _ => None
  end.
Fixpoint hits (x : Strides) (l : list Z) : option (list Z) :=
  match l with
  | [] => Some []
  | pos :: l => '(x, o) ← hit_step x pos; qs ← hits x l; Some (option_list o ++ qs)
  end.

(** The entry of a page that was first loaded at position [b]. *)
Definition first_at (b : Z) : Strides := mkStrides 1 INITIAL (replicate 64 false) b 0 0.

(** The positions that are fetched of the [n] that follow. *)
Definition fetched_of (b n : Z) : list Z :=
  filter (fun q => (q - b) mod 6 = 2 \/ (q - b) mod 6 = 4) (seqZ (b + 2) (Z.min n (62 - b))).

Definition stream_ok (b n : Z) : bool :=
  bool_decide (hits (first_at b) (seqZ (b + 1) n) = Some (fetched_of b n)).

Lemma stream_checked : forallb (fun b => (b =? 2) || forallb (stream_ok b) (seqZ 0 (64 - b))) (seqZ 0 64) = true.
Proof. vm_compute. reflexivity. Qed.

Lemma stream_hits b n : 0 <= b < 64 -> b <> 2 -> 0 <= n < 64 - b -> hits (first_at b) (seqZ (b + 1) n) = Some (fetched_of b n).
Proof.
  intros Hb Hb2 Hn. pose proof (proj1 (forallb_forall _ _) stream_checked b) as H. cbv beta in H.
  assert (forall a c : Z, 0 <= a < c -> In a (seqZ 0 c)) as Hin by (intros; apply list_elem_of_In, elem_of_seqZ; lia).
  specialize (H (Hin _ _ Hb)). rewrite (proj2 (Z.eqb_neq b 2) Hb2) in H.
  pose proof (proj1 (forallb_forall _ _) H n (Hin _ _ Hn)) as Hok. by apply bool_decide_eq_true_1 in Hok.
Qed.

(** ** A parent that keeps a log *)

Section logged.
(** The answer to the n-th access. *)
Context (answer : nat -> MemReq -> MESIState * Z).
Context (uninit : Z).

Abbreviation Log := (list MemReq).

Definition logged (req : MemReq) (s : MESIState) : st (World Log) (MESIState * Z) := fun w =>
  Ok (answer (length (above w)) req, mkWorld (csim w) (eventRecorders w) (req :: above w)).

Abbreviation node_access := (access logged uninit).

(** The state after an entry and the log have changed. *)
Definition with_entry (idx : Z) (e : Entry) (s : Node Log) : Node Log :=
  let p := prefetcher s in
  mkNode (mkPrefetcher (timestamp p) (tag p) (<[Z.to_nat idx := e]> (array p)) (childId p)) (world s).
Definition with_log (l : Log) (s : Node Log) : Node Log :=
  mkNode (prefetcher s) (mkWorld (csim (world s)) (eventRecorders (world s)) l).
Definition log (s : Node Log) : Log := above (world s).

Lemma fetch_run idx e req line q m c s : array (prefetcher s) !! Z.to_nat idx = Some e -> EntryOk e -> 0 <= q < 64 ->
  let r := prefetch_req req (childId (prefetcher s)) line in
  let a := answer (length (log s)) r in
  let c' := Z.max c a.2 in
  fetch logged idx req line q m c s = Ok ((a.1, c'),
    with_entry idx (mkEntry (set_valid (<[Z.to_nat q := true]> (valid (strides e))) (strides e))
      (<[Z.to_nat q := (u32 (MemTypes.cycle req), c')]> (times e)) (lastCycle e) (ts e)) (with_log (r :: log s) s)).
Proof.
  intros He Hok Hq r a c'. unfold fetch, mbind, st_bind, gets, in_world, zoom, logged, lift, get_entry.
  cbn [prefetcher world set_world]. fold r. change (above (world s)) with (log s). fold a.
  destruct a as [st resp] eqn:Ha. unfold mbind, st_bind, gets, lift. cbn [prefetcher world set_world fst snd].
  rewrite (at_some _ _ _ He), (note_prefetch_spec _ _ _ _ Hok Hq). unfold set_entry, mbind, st_bind, gets, lift, modify.
  cbn [prefetcher set_world]. by rewrite (set_at_some _ _ _ _ He).
Qed.

Lemma get_entry_run idx e (s : Node Log) : array (prefetcher s) !! Z.to_nat idx = Some e -> get_entry idx s = Ok (e, s).
Proof. intros He. unfold get_entry, mbind, st_bind, gets, lift. by rewrite (at_some _ _ _ He). Qed.

Lemma set_entry_run idx e e' (s : Node Log) : array (prefetcher s) !! Z.to_nat idx = Some e ->
  set_entry idx e' s = Ok (tt, with_entry idx e' s).
Proof. intros He. unfold set_entry, mbind, st_bind, gets, lift. by rewrite (set_at_some _ _ _ _ He). Qed.

(** The recorder of the core has no record. *)
Definition no_record (r : Z) (s : Node Log) : Prop := exists tr, eventRecorders (world s) !! r = Some tr /\ isValid tr = false.

Lemma hasRecord_run r s : no_record r s -> in_world (hasRecord r) s = Ok (false, s).
Proof. intros (tr & Hr & Hv). unfold in_world, zoom, hasRecord, gets. rewrite Hr, Hv. by destruct s. Qed.

Lemma couple_record_run r ev c s : no_record r s -> in_world (couple_record r ev c) s = Ok (tt, s).
Proof.
  intros (tr & Hr & Hv). unfold in_world, zoom, couple_record, hasRecord, mbind, st_bind, gets. rewrite Hr, Hv. by destruct s.
Qed.

Lemma new_event_run r ev (s : Node Log) : no_record r s -> exists e cs,
  in_world (new_event r ev) s = Ok (e, mkNode (prefetcher s) (mkWorld cs (eventRecorders (world s)) (log s))).
Proof.
  intros (tr & Hr & _). unfold in_world, zoom, new_event, at_slot, mbind, st_bind. rewrite Hr. by eexists _, _.
Qed.

Lemma push_run r rec (s : Node Log) : no_record r s -> isValid rec = true ->
  in_world (pushRecord r rec) s = Ok (tt, mkNode (prefetcher s) (set_slot r rec (world s))).
Proof.
  intros (tr & Hr & Hv) Hrec. unfold in_world, zoom, pushRecord, at_slot, mbind, st_bind. rewrite Hr.
  unfold assert_, modify. by rewrite Hv, Hrec.
Qed.

(** The prefetcher with another entry, and what it asked for. *)
Record asked (idx : Z) (e : Entry) (ps : Log) (s s' : Node Log) : Prop := {
  as_array : array (prefetcher s') = <[Z.to_nat idx := e]> (array (prefetcher s));
  as_tag : tag (prefetcher s') = tag (prefetcher s);
  as_id : childId (prefetcher s') = childId (prefetcher s);
  as_log : log s' = ps ++ log s
}.

Lemma double_prefetch_run idx e req line q m c ev og s : array (prefetcher s) !! Z.to_nat idx = Some e -> EntryOk e -> 0 <= q < 64 ->
  no_record (srcId req) s ->
  let r := prefetch_req req (childId (prefetcher s)) line in
  let a := answer (length (log s)) r in
  let c' := Z.max c a.2 in
  double_prefetch logged idx req line q m c ev og s = Ok ((a.1, c'),
    with_entry idx (mkEntry (set_valid (<[Z.to_nat q := true]> (valid (strides e))) (strides e))
      (<[Z.to_nat q := (u32 (MemTypes.cycle req), c')]> (times e)) (lastCycle e) (ts e)) (with_log (r :: log s) s)).
Proof.
  intros He Hok Hq Hrec r a c'. unfold double_prefetch, mbind, st_bind. rewrite (fetch_run _ _ _ _ _ _ _ _ He Hok Hq).
  by rewrite couple_record_run.
Qed.

Lemma publish_run idx r line ev lc resp q e s : array (prefetcher s) !! Z.to_nat idx = Some e -> no_record r s ->
  exists s', publish idx r line ev lc I resp q s = Ok (resp, s') /\
    asked idx (mkEntry (set_lastPrefetchPos q (strides e)) (times e) (lastCycle e) (ts e)) [] s s' /\
    exists rec, isValid rec = true /\ eventRecorders (world s') = <[r := rec]> (eventRecorders (world s)).
Proof.
  intros He Hrec. unfold publish, mbind, st_bind. rewrite (get_entry_run _ _ _ He), (set_entry_run _ _ _ _ He).
  change (assert_ (bool_decide (I = I))) with (fun s : Node Log => Ok (tt, s)). cbv beta iota.
  rewrite push_run by done. eexists. split; [reflexivity|]. split; [done|]. by eexists (mkRecord _ _ _ _ (Some ev) _).
Qed.

Lemma asked_trans idx e e' ps ps' s s1 s' : asked idx e ps s s1 -> asked idx e' ps' s1 s' -> asked idx e' (ps' ++ ps) s s'.
Proof.
  intros [Ha Ht Hi Hl] [Ha' Ht' Hi' Hl']. split; [by rewrite Ha', Ha, list_insert_insert_eq|congruence..|by rewrite Hl', Hl, app_assoc].
Qed.

Lemma asked_log idx e ps l s s' : asked idx e ps (with_log (l ++ log s) s) s' -> asked idx e (ps ++ l) s s'.
Proof. intros [Ha Ht Hi Hl]. split; [done..|]. by rewrite Hl, <- app_assoc. Qed.

(** The position after the one that is fetched. *)
Definition next_pos (pos q : Z) (x : Strides) : Z := u32 (q + s32 (pos - lastPos x)).

(** The entry after a hit that fetches [ps], and the cycle that the core is told. *)
Definition fetched (u : Z) (req : MemReq) (pos q : Z) (short : bool) (x x' : Strides) (id n : nat) (ps : Log) (c : Z) : Prop :=
  let line := u64 (lineAddr req + q - pos) in
  let r1 := prefetch_req req id line in
  let c1 := Z.max u (answer n r1).2 in
  let x1 := set_valid (<[Z.to_nat q := true]> (valid x)) x in
  let p := next_pos pos q x in
  let r2 := prefetch_req req id (u64 (line + s32 (pos - lastPos x))) in
  (ps = [r1] /\ c = c1 /\ x' = set_lastPrefetchPos q x1) \/
  (short = true /\ 0 <= p < 64 /\ ps = [r2; r1] /\ c = Z.max c1 (answer (Datatypes.S n) r2).2 /\
     x' = set_lastPrefetchPos p (set_valid (<[Z.to_nat p := true]> (valid x1)) x1)).

Lemma issue_run idx e req wb short pos q depth s :
  array (prefetcher s) !! Z.to_nat idx = Some e -> EntryOk e -> 0 <= q < 64 -> no_record (srcId req) s -> isValid wb = false ->
  (forall n line, (answer n (prefetch_req req (childId (prefetcher s)) line)).1 = I) ->
  exists e' s' c ps, issue logged idx req wb short pos q depth s = Ok (c, s') /\ asked idx e' ps s s' /\ EntryOk e' /\
    fetched (tr_reqCycle wb) req pos q short (strides e) (strides e') (childId (prefetcher s)) (length (log s)) ps c /\
    exists rec, isValid rec = true /\ eventRecorders (world s') = <[srcId req := rec]> (eventRecorders (world s)).
Proof.
  intros He Hok Hq Hrec Hwb HI. pose proof Hok as [Hv Ht].
  unfold fetched. set (id := childId (prefetcher s)). set (line := u64 (lineAddr req + q - pos)). set (r1 := prefetch_req req id line).
  set (c1 := Z.max (tr_reqCycle wb) (answer (length (log s)) r1).2). set (x1 := set_valid (<[Z.to_nat q := true]> (valid (strides e))) (strides e)).
  set (p := next_pos pos q (strides e)). set (r2 := prefetch_req req id (u64 (line + s32 (pos - lastPos (strides e))))). cbv zeta.
  set (e1 := mkEntry x1 (<[Z.to_nat q := (u32 (MemTypes.cycle req), c1)]> (times e)) (lastCycle e) (ts e)).
  assert (EntryOk e1) as Hok1 by (split; cbn; by rewrite length_insert).
  unfold issue, mbind, st_bind. rewrite (get_entry_run _ _ _ He), (fetch_run _ _ _ _ _ _ _ _ He Hok Hq).
  fold line id r1 c1 x1 e1. cbn [fst snd].
  set (s1 := with_entry idx e1 (with_log (r1 :: log s) s)).
  destruct (new_event_run (srcId req) (setMinStartCycle c1 (TimingEvent_init 0 0 0 (StreamPrefetcherEvent c1))) s1 Hrec) as (ev & cs & ->).
  set (s2 := mkNode (prefetcher s1) _). rewrite Hwb. change (in_world (when false _) s2) with (Ok (tt, s2)).
  assert (array (prefetcher s2) !! Z.to_nat idx = Some e1) as He2.
  { cbn. apply list_lookup_insert_eq. by eapply lookup_lt_Some. }
  assert (no_record (srcId req) s2) as Hrec2 by done.
  cbv beta iota. rewrite couple_record_run by done. cbv beta iota. rewrite (get_entry_run _ _ _ He2). cbv beta iota.
  change (u32 (q + s32 (pos - lastPos (strides e)))) with p.
  assert (asked idx e1 [r1] s s2) as Has2 by (split; cbn; done).
  assert (exists t s', publish idx (srcId req) line ev c1 I c1 q s2 = Ok (c1, s') /\
    asked idx (mkEntry (set_lastPrefetchPos q x1) t (lastCycle e) (ts e)) [r1] s s' /\ length t = 64%nat /\
    exists rec, isValid rec = true /\ eventRecorders (world s') = <[srcId req := rec]> (eventRecorders (world s))) as Hone.
  { destruct (publish_run idx (srcId req) line ev c1 c1 q e1 s2 He2 Hrec2) as (s' & Hrun & Has & Hr).
    exists (times e1), s'. split_and!; [done| |cbn; by rewrite length_insert|done]. eapply (asked_trans _ _ _ _ [] _ _ _ Has2 Has). }
  assert ((answer (length (log s)) r1).1 = I) as Er1 by apply HI.
  destruct Hone as (t & s' & Hrun & Has & Hlt & Hrec').
  destruct (short && (depth <? 8) && (p <? 64)) eqn:Hnear.
  - apply andb_prop in Hnear as [Hs Hp%Z.ltb_lt]. apply andb_prop in Hs as [Hs _].
    assert (0 <= p) as Hp' by apply u32_range.
    destruct (at_64 (valid x1) p) as (v & Hat & _); [by cbn; rewrite length_insert|done|].
    cbn [strides e1]. rewrite Hat. cbn [lift mret st_ret]. destruct v; cbn [negb].
    + cbn [mret st_ret]. rewrite Er1. exists (mkEntry (set_lastPrefetchPos q x1) t (lastCycle e) (ts e)), s', c1, [r1].
      split_and!; try done; [|by left]. split; cbn; by rewrite ?length_insert.
    + cbn [mret st_ret]. rewrite Er1. unfold mbind, st_bind.
      rewrite (double_prefetch_run _ _ _ _ _ _ _ _ _ _ He2 Hok1) by done. cbn [fst snd mret st_ret].
      change (prefetch_req req (childId (prefetcher s2)) (u64 (line + s32 (pos - lastPos (strides e))))) with r2.
      change (length (log s2)) with (Datatypes.S (length (log s))).
      assert ((answer (Datatypes.S (length (log s))) r2).1 = I) as -> by apply HI.
      set (c2 := Z.max c1 (answer (Datatypes.S (length (log s))) r2).2). set (e2 := mkEntry (set_valid _ _) _ _ _).
      set (s3 := with_entry idx e2 _).
      assert (array (prefetcher s3) !! Z.to_nat idx = Some e2) as He3 by (apply list_lookup_insert_eq; by eapply lookup_lt_Some).
      destruct (publish_run idx (srcId req) line ev c1 c2 p e2 s3 He3 Hrec2) as (s4 & Hrun4 & Has4 & Hr4).
      exists (mkEntry (set_lastPrefetchPos p (strides e2)) (times e2) (lastCycle e) (ts e)), s4, c2, [r2; r1].
      split_and!; [done| | |by right|done].
      * apply (asked_trans idx e2 _ [r2; r1] [] s s3 s4); [|done]. apply (asked_trans idx e1 e2 [r1] [r2] s s2 s3); [done|]. by split.
      * split; cbn; by rewrite !length_insert.
  - cbn [mret st_ret]. rewrite Er1. exists (mkEntry (set_lastPrefetchPos q x1) t (lastCycle e) (ts e)), s', c1, [r1].
    split_and!; try done; [|by left]. split; cbn; by rewrite ?length_insert.
Qed.

(** ** A hit and a miss *)

Lemma entry_hit_run idx pos c e (s : Node Log) :
  array (prefetcher s) !! Z.to_nat idx = Some e -> EntryOk e -> stride (strides e) <> 0 -> 0 <= pos < 64 ->
  exists v short x o t e' s',
    valid (strides e) !! Z.to_nat pos = Some v /\ (short = true -> v = true) /\
    train pos (set_valid (<[Z.to_nat pos := false]> (valid (strides e))) (strides e)) = Ok (x, o) /\
    entry_hit idx pos c s = Ok ((short, o), s') /\ world s' = world s /\
    e' = mkEntry (match o with None => push_pos pos x | Some _ => x end) (times e) t (timestamp (prefetcher s)) /\
    asked idx e' [] s s'.
Proof.
  intros He Hok Hs Hpos. unfold entry_hit, next_ts, mbind, st_bind, gets, modify, mret, st_ret.
  set (s1 := set_prefetcher _ s).
  assert (array (prefetcher s1) !! Z.to_nat idx = Some e) as He1 by done. rewrite (get_entry_run _ _ _ He1).
  destruct (use_prefetch_spec pos c (mkEntry (strides e) (times e) (lastCycle e) (timestamp (prefetcher s))))
    as (v & m & short & Hv & Hsh & Hu); [by destruct Hok|done|]. cbn [strides times ts] in *.
  unfold lift. rewrite Hu. cbn [strides].
  destruct (train_spec pos (set_valid (<[Z.to_nat pos := false]> (valid (strides e))) (strides e))) as (x & o & Hx & _).
  { split; [cbn; rewrite length_insert; apply Hok|done]. }
  rewrite Hx. cbn [times lastCycle ts]. rewrite (set_entry_run _ _ _ _ He1).
  exists v, short, x, o, m. eexists _, _. split_and!; try done.
Qed.

Lemma find_entry_spec n i idx a tags : (Z.to_nat i + n <= length tags)%nat -> 0 <= i ->
  exists j, find_entry n i idx a tags = Ok j /\
    (j = idx /\ (forall k, i <= k < i + Z.of_nat n -> tags !! Z.to_nat k <> Some a) \/ i <= j < i + Z.of_nat n /\ tags !! Z.to_nat j = Some a).
Proof.
  revert i idx. induction n as [|n IH]; intros i idx Hl Hi; [exists idx; split; [done|left; split; [done|lia]]|].
  cbn [find_entry]. destruct (lookup_lt_is_Some_2 tags (Z.to_nat i)) as [t Ht]; [lia|]. rewrite (at_some _ _ _ Ht).
  destruct (IH (i + 1) (if a =? t then i else idx)) as (j & -> & Hj); [lia|lia|]. exists j. split; [done|].
  destruct Hj as [[-> Hno]|[Hj Hjt]]; [|right; split; [lia|done]].
  destruct (Z.eqb_spec a t) as [->|Hne]; [right; split; [lia|done]|]. left. split; [done|].
  intros k Hk. destruct (decide (k = i)) as [->|]; [congruence|apply Hno; lia].
Qed.

Lemma find_victim_spec n i cand score c l : (Z.to_nat i + n <= length l)%nat -> 0 <= i ->
  exists j, find_victim n i cand score c l = Ok j /\ (j = cand \/ i <= j < i + Z.of_nat n).
Proof.
  revert i cand score. induction n as [|n IH]; intros i cand score Hl Hi; [exists cand; split; [done|by left]|].
  cbn [find_victim]. destruct (lookup_lt_is_Some_2 l (Z.to_nat i)) as [e He]; [lia|]. rewrite (at_some _ _ _ He). cbv zeta.
  edestruct (IH (i + 1)) as (j & -> & Hj); [lia|lia|]. exists j. split; [done|].
  destruct Hj as [->|Hj]; [case_match; [right; lia|by left]|right; lia].
Qed.

(** ** An access *)

Record PrefetcherInv (p : StreamPrefetcher) : Prop := {
  pi_length : (16 <= length (tag p))%nat /\ length (array p) = length (tag p);
  pi_entry i e t : array p !! i = Some e -> tag p !! i = Some t -> EntryOk e /\ (t <> 0 -> stride (strides e) <> 0)
}.

Lemma init_prefetcher_inv n : (16 <= n)%nat -> PrefetcherInv (StreamPrefetcher_init n).
Proof.
  intros Hn. split; cbn; rewrite ?length_replicate; [done|]. intros i e t [-> _]%lookup_replicate [-> _]%lookup_replicate. done.
Qed.

(** The invariant after an entry changed, together with its tag or not. *)
Lemma prefetcher_inv_insert (p p' : StreamPrefetcher) i e t :
  PrefetcherInv p -> EntryOk e -> (t <> 0 -> stride (strides e) <> 0) -> (i < length (tag p))%nat ->
  array p' = <[i := e]> (array p) -> tag p' = <[i := t]> (tag p) -> PrefetcherInv p'.
Proof.
  intros [[Hl Hl'] He] Hok Ht Hi Ea Et. split; rewrite Ea, Et; [by rewrite !length_insert|].
  intros j e' t' Hj Hj'. rewrite list_lookup_insert in Hj. rewrite list_lookup_insert in Hj'. repeat case_decide; try lia; eauto.
  by simplify_eq.
Qed.

Lemma entry_miss_run page pos c (s : Node Log) : PrefetcherInv (prefetcher s) ->
  exists s', entry_miss page pos c s = Ok (tt, s') /\ world s' = world s /\ childId (prefetcher s') = childId (prefetcher s) /\
    PrefetcherInv (prefetcher s').
Proof.
  intros HI. pose proof HI as [[Hl Hl'] He]. unfold entry_miss, mbind, st_bind, gets, lift.
  destruct (find_victim_spec 16 0 16 (W64 - 1) c (array (prefetcher s))) as (j & -> & Hj); [cbn; lia|done|].
  destruct (Z.ltb_spec j 16) as [Hlt|]; [|by exists s]. destruct Hj as [->|Hj]; [done|]. cbn [when].
  destruct (lookup_lt_is_Some_2 (array (prefetcher s)) (Z.to_nat j)) as [e Hej]; [lia|].
  destruct (lookup_lt_is_Some_2 (tag (prefetcher s)) (Z.to_nat j)) as [t Htj]; [lia|].
  unfold next_ts, mbind, st_bind, gets, modify, mret, st_ret. set (s1 := set_prefetcher _ s).
  assert (array (prefetcher s1) !! Z.to_nat j = Some e) as He1 by done.
  rewrite (get_entry_run _ _ _ He1), (set_entry_run _ _ _ _ He1). cbn [prefetcher with_entry tag].
  change (tag (prefetcher s1)) with (tag (prefetcher s)). rewrite (set_at_some _ _ page _ Htj). eexists. split; [reflexivity|]. split_and!; [done..|].
  destruct (He _ _ _ Hej Htj) as [[_ Htimes] _].
  eapply (prefetcher_inv_insert (prefetcher s)); [done| | | |reflexivity|reflexivity]; [|done|lia]. split; [done|exact Htimes].
Qed.

Lemma demand_run d m (s : Node Log) :
  in_world (logged d m) s = Ok (((answer (length (log s)) d).1, (answer (length (log s)) d).2), with_log (d :: log s) s).
Proof. unfold in_world, zoom, logged. change (above (world s)) with (log s). by destruct (answer _ _). Qed.

Lemma put_back_run r wb (s : Node Log) : isValid wb = false -> in_world (put_back r wb) s = Ok (tt, s).
Proof. intros Hwb. unfold in_world, zoom, put_back. rewrite Hwb. by destruct s. Qed.

(** A load in a page that has an entry. *)
Lemma access_hit_run req m idx e s :
  type req = GETS -> no_record (srcId req) s -> find_entry 16 0 16 (Z.shiftr (lineAddr req) 6) (tag (prefetcher s)) = Ok idx -> idx <> 16 ->
  array (prefetcher s) !! Z.to_nat idx = Some e -> EntryOk e -> stride (strides e) <> 0 ->
  (forall n line, (answer n (prefetch_req req (childId (prefetcher s)) line)).1 = I) ->
  let pos := Z.land (lineAddr req) 63 in
  let d := demand_req req (childId (prefetcher s)) in
  let a := answer (length (log s)) d in
  exists v short x o e' s' c ps,
    valid (strides e) !! Z.to_nat pos = Some v /\ (short = true -> v = true) /\
    train pos (set_valid (<[Z.to_nat pos := false]> (valid (strides e))) (strides e)) = Ok (x, o) /\
    node_access req m s = Ok ((a.1, c), s') /\ asked idx e' (ps ++ [d]) s s' /\ EntryOk e' /\
    match o with
    | None => c = a.2 /\ ps = [] /\ strides e' = push_pos pos x /\ eventRecorders (world s') = eventRecorders (world s)
    | Some (q, _) => fetched uninit req pos q short x (strides e') (childId (prefetcher s)) (Datatypes.S (length (log s))) ps c /\
        exists rec, isValid rec = true /\ eventRecorders (world s') = <[srcId req := rec]> (eventRecorders (world s))
    end.
Proof.
  intros Hty Hrec Hfind Hidx He Hok Hs HI pos d a.
  assert (0 <= pos < 64) as Hpos by (unfold pos; change 63 with (Z.ones 6); rewrite Z.land_ones by done; apply Z.mod_pos_bound; done).
  unfold access, mbind, st_bind, gets. rewrite demand_run. fold d a. set (s1 := with_log (d :: log s) s).
  rewrite Hty. cbn [bool_decide negb]. rewrite bool_decide_eq_true_2 by done. cbn [negb].
  rewrite (hasRecord_run (srcId req) s1) by done. set (wb := mkRecord 0 uninit 0 GETS None None).
  change (in_world (mret wb) s1) with (Ok (wb, s1)). cbv beta iota. fold pos.
  unfold lift. change (tag (prefetcher s1)) with (tag (prefetcher s)). rewrite Hfind, (proj2 (Z.eqb_neq _ _) Hidx).
  destruct (entry_hit_run idx pos a.2 e s1 He Hok Hs Hpos) as (v & short & x & o & t & e1 & s2 & Hv & Hsh & Htr & -> & Hw & He1 & Has).
  assert (EntryOk e1) as Hok1.
  { destruct (train_spec pos (set_valid (<[Z.to_nat pos := false]> (valid (strides e))) (strides e))) as (x0 & o0 & Hx0 & [Hl _] & _).
    { split; [cbn; rewrite length_insert; apply Hok|done]. }
    rewrite Htr in Hx0. injection Hx0 as <- <-. rewrite He1. split; [cbn; destruct o; exact Hl|apply Hok]. }
  assert (asked idx e1 [d] s s2) as Has2 by apply (asked_log idx e1 [] [d] s s2 Has).
  destruct o as [[q depth]|]; cbv beta iota; unfold mret, st_ret.
  - assert (0 <= q < 64) as Hq.
    { destruct (train_spec pos (set_valid (<[Z.to_nat pos := false]> (valid (strides e))) (strides e))) as (x0 & o0 & Hx0 & _ & _ & _ & Ho).
      { split; [cbn; rewrite length_insert; apply Hok|done]. }
      rewrite Htr in Hx0. injection Hx0 as <- <-. apply Ho. }
    destruct (issue_run idx e1 req wb short pos q depth s2) as (e' & s' & c & ps & Hrun & Has' & Hok' & Hf & Hr); try done.
    { rewrite (as_array _ _ _ _ _ Has). apply list_lookup_insert_eq. by eapply lookup_lt_Some. }
    { unfold no_record. by rewrite Hw. }
    { intros n line. rewrite (as_id _ _ _ _ _ Has). apply HI. }
    rewrite Hrun, (as_id _ _ _ _ _ Has), (as_log _ _ _ _ _ Has), He1, Hw in *.
    exists v, short, x, (Some (q, depth)), e', s', c, ps. split_and!; try done. by eapply asked_trans.
  - rewrite put_back_run by done. exists v, short, x, None, e1, s2, a.2, [].
    split_and!; try done; [by rewrite He1|by rewrite Hw].
Qed.
(** ** Every access *)

(** The requests of a hit are for lines of the page. *)
Lemma page_line a q : in_u64 a -> 0 <= q < 64 ->
  u64 (a + q - Z.land a 63) = 64 * Z.shiftr a 6 + q /\ Z.shiftr (u64 (a + q - Z.land a 63)) 6 = Z.shiftr a 6.
Proof.
  intros Ha Hq. change 63 with (Z.ones 6). rewrite Z.land_ones, !Z.shiftr_div_pow2 by done. change (2 ^ 6) with 64.
  unfold in_u64, W64 in Ha. pose proof (Z.div_mod a 64 ltac:(done)) as Hd. pose proof (Z.mod_pos_bound a 64 ltac:(done)) as Hm.
  rewrite u64_id by (unfold in_u64, W64; lia). split; [lia|].
  symmetry. apply (Z.div_unique _ 64 (a / 64) q); lia.
Qed.

Lemma next_line pos q x : 0 <= q < 64 -> 0 <= next_pos pos q x < 64 -> next_pos pos q x = q + s32 (pos - lastPos x).
Proof.
  unfold next_pos. intros Hq. set (y := s32 (pos - lastPos x)).
  assert (- 2147483648 <= y < 2147483648) as Hy.
  { unfold y, s32, u32, W32. change (4294967296 / 2) with 2147483648.
    pose proof (Z.mod_pos_bound (pos - lastPos x) 4294967296 ltac:(done)). case_decide; lia. }
  unfold u32, W32. intros Hp. pose proof (Z.div_mod (q + y) 4294967296 ltac:(done)). lia.
Qed.

Definition in_page (req : MemReq) (id : nat) (p : MemReq) : Prop :=
  p = prefetch_req req id (lineAddr p) /\ Z.shiftr (lineAddr p) 6 = Z.shiftr (lineAddr req) 6.

Lemma fetched_in_page u req q short x x' id n ps c : in_u64 (lineAddr req) -> 0 <= q < 64 ->
  fetched u req (Z.land (lineAddr req) 63) q short x x' id n ps c -> Forall (in_page req id) ps.
Proof.
  intros Ha Hq Hf. destruct (page_line (lineAddr req) q Ha Hq) as [El Ep].
  destruct Hf as [(-> & _)|(_ & Hp & -> & _)]; [by repeat constructor|].
  pose proof (next_line _ _ _ Hq Hp) as En. constructor; [|by repeat constructor]. split; [done|]. cbn [lineAddr prefetch_req].
  set (d := s32 _) in *. set (p := next_pos _ _ _) in *. rewrite El.
  destruct (page_line (lineAddr req) p Ha Hp) as [El' Ep'].
  replace (64 * Z.shiftr (lineAddr req) 6 + q + d) with (64 * Z.shiftr (lineAddr req) 6 + p) by lia.
  rewrite <- El', u64_u64. exact Ep'.
Qed.
(** A load in a page that has none. *)
Lemma access_miss_run req m s :
  type req = GETS -> no_record (srcId req) s -> find_entry 16 0 16 (Z.shiftr (lineAddr req) 6) (tag (prefetcher s)) = Ok 16 ->
  PrefetcherInv (prefetcher s) ->
  let d := demand_req req (childId (prefetcher s)) in
  let a := answer (length (log s)) d in
  exists s', node_access req m s = Ok (a, s') /\ world s' = world (with_log (d :: log s) s) /\
    childId (prefetcher s') = childId (prefetcher s) /\ PrefetcherInv (prefetcher s').
Proof.
  intros Hty Hrec Hfind HI d a. unfold access, mbind, st_bind, gets. rewrite demand_run. fold d a. set (s1 := with_log (d :: log s) s).
  rewrite Hty, bool_decide_eq_true_2 by done. cbn [negb]. rewrite (hasRecord_run (srcId req) s1) by done.
  set (wb := mkRecord 0 uninit 0 GETS None None). change (in_world (mret wb) s1) with (Ok (wb, s1)). cbv beta iota.
  unfold lift. change (tag (prefetcher s1)) with (tag (prefetcher s)). rewrite Hfind. cbn [Z.eqb Pos.eqb].
  destruct (entry_miss_run (Z.shiftr (lineAddr req) 6) (Z.land (lineAddr req) 63) (MemTypes.cycle req) s1 HI) as (s' & -> & Hw & Hi & HI').
  unfold mret, st_ret. rewrite put_back_run by done. exists s'. split_and!; try done. by destruct a.
Qed.

(** The cycle that the core is told: the demand's, unless something was fetched. *)
Definition told (a : MESIState * Z) (n : nat) (ps : Log) : Z :=
  match ps with
  | [] => a.2
  | [r1] => Z.max uninit (answer n r1).2
  | r2 :: r1 :: _ => Z.max (Z.max uninit (answer n r1).2) (answer (Datatypes.S n) r2).2
  end.

Lemma fetched_told req pos q short x x' id n ps c a : fetched uninit req pos q short x x' id n ps c ->
  c = told a n ps /\ (1 <= length ps <= 2)%nat /\ stride x' = stride x.
Proof. intros [(-> & -> & ->)|(_ & _ & -> & -> & ->)]; cbn; split_and!; done || lia. Qed.

(** C25: An access through a prefetcher whose parent only answers, leaves no timing
    record (as the memories without contention do) and answers every prefetch with
    the state I; the core of the request has a recorder, which holds no record,
    and the line is not in page 0 (64 <= [lineAddr]).  Then the state of the line is
    the parent's answer to the demand, which reaches it first, with nothing
    changed but the child it comes from.  What else the parent is asked are at
    most two prefetches, for loads only, of lines in the same page.  But when there
    is one, the cycle that comes back is that of the prefetches, whatever the
    parent answered to the demand, and the maximum is taken with
    [wbAcc.reqCycle], which nothing has set when no record was popped.  (A parent
    that leaves a record sets it: that case is not in this theorem.) *)
Theorem demand_reaches_parent req m s :
  PrefetcherInv (prefetcher s) -> no_record (srcId req) s -> 64 <= lineAddr req < W64 ->
  (forall n line, (answer n (prefetch_req req (childId (prefetcher s)) line)).1 = I) ->
  let id := childId (prefetcher s) in
  let d := demand_req req id in
  let a := answer (length (log s)) d in
  exists ps s', node_access req m s = Ok ((a.1, told a (Datatypes.S (length (log s))) ps), s') /\
    log s' = ps ++ d :: log s /\ Forall (in_page req id) ps /\ (length ps <= 2)%nat /\ (type req <> GETS -> ps = []) /\
    PrefetcherInv (prefetcher s') /\ childId (prefetcher s') = id /\ (ps = [] -> no_record (srcId req) s').
Proof.
  intros HI Hrec Ha Hans id d a. destruct (decide (type req = GETS)) as [Hty|Hty].
  - pose proof HI as [[Hl Hl'] Hent].
    destruct (find_entry_spec 16 0 16 (Z.shiftr (lineAddr req) 6) (tag (prefetcher s))) as (idx & Hfind & Hidx); [cbn; lia|done|].
    destruct (decide (idx = 16)) as [->|Hne].
    + destruct (access_miss_run req m s Hty Hrec Hfind HI) as (s' & Hrun & Hw & Hid & HI').
      exists [], s'. rewrite Hrun. fold id d a. split_and!; try done; [by destruct a|unfold log; by rewrite Hw|cbn; lia|].
      intros _. unfold no_record. by rewrite Hw.
    + destruct Hidx as [[? _]|[Hidx Htag]]; [done|].
      destruct (lookup_lt_is_Some_2 (array (prefetcher s)) (Z.to_nat idx)) as [e He]; [lia|].
      destruct (Hent _ _ _ He Htag) as [Hok Hstr].
      assert (Z.shiftr (lineAddr req) 6 <> 0) as Hpage by (rewrite Z.shiftr_div_pow2 by done; change (2 ^ 6) with 64; apply Z.neq_sym, Z.lt_neq, Z.div_str_pos; lia).
      destruct (access_hit_run req m idx e s Hty Hrec Hfind Hne He Hok (Hstr Hpage) Hans)
        as (v & short & x & o & e' & s' & c & ps & _ & _ & Htr & Hrun & Has & Hok' & Hcase).
      fold id d a in Hrun, Has. set (pos := Z.land (lineAddr req) 63) in *.
      destruct (train_spec pos (set_valid (<[Z.to_nat pos := false]> (valid (strides e))) (strides e))) as (x0 & o0 & Hx0 & [_ Hsx] & _ & _ & Ho).
      { split; [cbn; rewrite length_insert; apply Hok|by apply Hstr]. }
      rewrite Htr in Hx0. injection Hx0 as <- <-.
      assert (c = told a (Datatypes.S (length (log s))) ps /\ (length ps <= 2)%nat /\ stride (strides e') <> 0 /\
        Forall (in_page req id) ps /\ (ps = [] -> eventRecorders (world s') = eventRecorders (world s))) as (-> & Hps & Hs' & Hin & Hnil).
      { destruct o as [[q depth]|]; [|destruct Hcase as (-> & -> & -> & ->); split_and!; try done; cbn; lia].
        destruct Hcase as [Hf _]. destruct (fetched_told _ _ _ _ _ _ _ _ _ _ a Hf) as (-> & Hlen & ->).
        split_and!; [done|lia|done| |intros ->; cbn in Hlen; lia]. eapply fetched_in_page; [|apply Ho|exact Hf]. unfold in_u64. lia. }
      exists ps, s'. split_and!; try done; [by rewrite (as_log _ _ _ _ _ Has), <- app_assoc| |apply (as_id _ _ _ _ _ Has)|].
      * eapply (prefetcher_inv_insert (prefetcher s) _ _ e' _ HI Hok'); [by intros _|rewrite <- Hl'; by eapply lookup_lt_Some|apply (as_array _ _ _ _ _ Has)|].
        rewrite (as_tag _ _ _ _ _ Has), list_insert_id by exact Htag. reflexivity.
      * intros Hps0. unfold no_record. by rewrite (Hnil Hps0).
  - unfold access, mbind, st_bind, gets. rewrite demand_run. fold id d a. rewrite bool_decide_eq_false_2 by done. cbn [negb].
    exists [], (with_log (d :: log s) s). split_and!; try done. cbn; lia.
Qed.
(** ** A stream of loads *)

(** The loads of a core; it takes the record that each leaves. *)
Fixpoint loads (l : list MemReq) : st (Node Log) unit :=
  match l with
  | [] => mret tt
  | req :: l => (node_access req I;; in_world (popRecord (srcId req));; mret tt);; loads l
  end.

(** The lines of the prefetches of a log, oldest first. *)
Definition prefetched (l : Log) : list Z := lineAddr <$> filter (fun r => has_flag (flags r) PREFETCH = true) (rev l).

(** A load without flags of core [r]. *)
Definition plain_load (r : Z) (req : MemReq) : Prop := type req = GETS /\ srcId req = r /\ flags req = 0.

Lemma prefetched_app l l' : prefetched (l ++ l') = prefetched l' ++ prefetched l.
Proof. unfold prefetched. by rewrite rev_app_distr, filter_app, fmap_app. Qed.

Lemma pop_run r (s : Node Log) tr : eventRecorders (world s) !! r = Some tr ->
  exists s', in_world (popRecord r) s = Ok (tr, s') /\ prefetcher s' = prefetcher s /\ log s' = log s /\ no_record r s'.
Proof.
  intros Hr. unfold in_world, zoom, popRecord, at_slot, mbind, st_bind. rewrite Hr.
  eexists. split; [reflexivity|]. split_and!; [done..|]. exists (clear tr). split; [apply lookup_insert_eq|done].
Qed.
(** The page of the stream has entry [idx], which is [x]. *)
Record Tracked (r page idx : Z) (x : Strides) (s : Node Log) : Prop := {
  tk_find : find_entry 16 0 16 page (tag (prefetcher s)) = Ok idx /\ idx <> 16;
  tk_entry : exists e, array (prefetcher s) !! Z.to_nat idx = Some e /\ EntryOk e /\ strides e = x;
  tk_stride : stride x <> 0;
  tk_record : no_record r s
}.

Lemma page_position page pos : 0 <= page -> 0 <= pos < 64 -> Z.shiftr (64 * page + pos) 6 = page /\ Z.land (64 * page + pos) 63 = pos.
Proof.
  intros Hp Hpos. change 63 with (Z.ones 6). rewrite Z.shiftr_div_pow2, Z.land_ones by done. change (2 ^ 6) with 64.
  split; [symmetry; apply (Z.div_unique _ _ _ pos); lia|symmetry; apply (Z.mod_unique _ _ page); lia].
Qed.

Hypothesis prefetch_invalid : forall n req, has_flag (flags req) PREFETCH = true -> (answer n req).1 = I.

Lemma load_step r page idx x x' o pos req s :
  Tracked r page idx x s -> plain_load r req -> lineAddr req = 64 * page + pos -> 0 <= pos < 64 -> 0 <= page < 2 ^ 58 ->
  hit_step x pos = Some (x', o) ->
  exists s', (node_access req I;; in_world (popRecord (srcId req));; mret tt) s = Ok (tt, s') /\ Tracked r page idx x' s' /\
    prefetched (log s') = prefetched (log s) ++ ((fun q => 64 * page + q) <$> option_list o).
Proof.
  intros [[Hfind Hne] (e & He & Hok & <-) Hs Hrec] (Hty & <- & Hfl) Ha Hpos Hpage Hstep.
  destruct (page_position page pos) as [Ep El]; [lia|done|]. rewrite <- Ha in Ep, El.
  destruct (access_hit_run req I idx e s Hty Hrec) as (v & short & x0 & o0 & e' & s1 & c & ps & Hv & Hsh & Htr & Hrun & Has & Hok' & Hcase);
    rewrite ?Ep; try done. { intros. by apply prefetch_invalid. }
  rewrite El in *. unfold hit_step in Hstep. rewrite Hv in Hstep. cbn [mbind option_bind] in Hstep. rewrite Htr in Hstep.
  destruct (train_spec pos (set_valid (<[Z.to_nat pos := false]> (valid (strides e))) (strides e))) as (x1 & o1 & Hx1 & [_ Hsx] & _ & _ & Ho).
  { split; [cbn; rewrite length_insert; apply Hok|done]. }
  rewrite Htr in Hx1. injection Hx1 as <- <-.
  unfold mbind, st_bind. rewrite Hrun.
  assert (exists tr s', in_world (popRecord (srcId req)) s1 = Ok (tr, s') /\ prefetcher s' = prefetcher s1 /\ log s' = log s1 /\
    no_record (srcId req) s') as (tr & s' & Hpop & Hp' & Hl' & Hr').
  { destruct o0 as [[q dep]|].
    - destruct Hcase as (_ & rec & _ & Hrc). edestruct (pop_run (srcId req) s1 rec) as (s' & ?); [by rewrite Hrc, lookup_insert_eq|]. eauto.
    - destruct Hcase as (_ & _ & _ & Hrc), Hrec as (tr & Htr' & _).
      edestruct (pop_run (srcId req) s1 tr) as (s' & ?); [by rewrite Hrc|]. eauto. }
  rewrite Hpop. exists s'. split; [done|]. 
  assert (strides e' = x' /\ stride x' <> 0 /\ prefetched ps = (fun q => 64 * page + q) <$> option_list o) as (Ex & Hsx' & Eps).
  { destruct o0 as [[q dep]|]; [|destruct Hcase as (_ & -> & -> & _); injection Hstep as <- <-; done].
    destruct v; [done|]. injection Hstep as <- <-. destruct Hcase as [Hf _].
    destruct Hf as [(-> & _ & ->)|(Hshort & _)]; [|by specialize (Hsh Hshort)]. split_and!; [done..|].
    unfold prefetched. cbn [rev app]. rewrite filter_cons_True by done. cbn. f_equal.
    destruct (page_line (lineAddr req) q) as [Eline _]; [unfold in_u64, W64; lia|apply Ho|]. by rewrite El, Ep in Eline. }
  split; [split|].
  - rewrite Hp', (as_tag _ _ _ _ _ Has). done.
  - exists e'. rewrite Hp', (as_array _ _ _ _ _ Has). split_and!; [|done..]. apply list_lookup_insert_eq. by eapply lookup_lt_Some.
  - done.
  - done.
  - rewrite Hl', (as_log _ _ _ _ _ Has), <- app_assoc, !prefetched_app, Eps. f_equal.
    unfold prefetched at 2. cbn. rewrite Hfl. by rewrite app_nil_r.
Qed.

Lemma stream_run r page idx l : forall x s poss qs,
  Tracked r page idx x s -> Forall (plain_load r) l -> lineAddr <$> l = (fun pos => 64 * page + pos) <$> poss ->
  Forall (fun pos => 0 <= pos < 64) poss -> 0 <= page < 2 ^ 58 -> hits x poss = Some qs ->
  exists s', loads l s = Ok (tt, s') /\ prefetched (log s') = prefetched (log s) ++ ((fun q => 64 * page + q) <$> qs).
Proof.
  induction l as [|req l IH]; intros x s poss qs Ht Hl Ha Hpos Hpage Hh; destruct poss as [|pos poss]; try done.
  { injection Hh as <-. exists s. by rewrite app_nil_r. }
  injection Ha as Ha Ha'. apply Forall_cons in Hl as [Hreq Hl], Hpos as [Hp Hpos].
  cbn [hits] in Hh. apply bind_Some in Hh as ([x' o] & Hstep & Hh). apply bind_Some in Hh as (qs' & Hh & [= <-]).
  destruct (load_step r page idx x x' o pos req s Ht Hreq Ha Hp Hpage Hstep) as (s1 & Hrun & Ht1 & Hlog).
  destruct (IH x' s1 poss qs' Ht1 Hl Ha' Hpos Hpage Hh) as (s' & Hrun' & Hlog').
  exists s'. split; [|by rewrite Hlog', Hlog, fmap_app, app_assoc]. cbn [loads]. unfold mbind at 1, st_bind at 1. by rewrite Hrun.
Qed.

(** C26: Of a stream of consecutive lines the prefetcher fetches a third.  After the
    first load of a page at position [b], the [n] loads that follow at the next
    positions fetch the positions [b + 2] and [b + 4] of every six, and no others: a
    load that fetches returns before it has noted its own position, so the one
    after it looks like a stride of two.  ([b = 2] is out of step, since the
    position before the first is taken to be 0.) *)
Theorem stream_prefetches_a_third r page idx b n l s :
  Tracked r page idx (first_at b) s -> 0 <= page < 2 ^ 58 -> 0 <= b < 64 -> b <> 2 -> 0 <= n < 64 - b ->
  Forall (plain_load r) l -> lineAddr <$> l = (fun pos => 64 * page + pos) <$> seqZ (b + 1) n ->
  exists s', loads l s = Ok (tt, s') /\
    prefetched (log s') = prefetched (log s) ++ ((fun q => 64 * page + q) <$> fetched_of b n).
Proof.
  intros Ht Hpage Hb Hb2 Hn Hl Ha. eapply stream_run; try done; [|by apply stream_hits].
  apply Forall_forall. intros pos ?%elem_of_seqZ. lia.
Qed.
End logged.
