(* ===== verification/PrefetcherExamples.v ===== *)
(** * The prefetcher at concrete inputs

    A parent whose prefetches come back after 10 cycles and whose demands take 200,
    the loads of one page, and three accesses that go wrong. *)

From stdpp Require Import base tactics numbers list gmap.
From Stdlib Require Import ZArith Lia.
From S2P Require Import MemTypes Prelude PrioQueue TimingEvents EventRecorder Prefetcher PrefetcherMain.

Open Scope Z_scope.

Definition slow_parent (n : nat) (req : MemReq) : MESIState * Z :=
  if has_flag (flags req) PREFETCH then (I, MemTypes.cycle req + 10) else (E, MemTypes.cycle req + 200).

Lemma slow_parent_invalid n req : has_flag (flags req) PREFETCH = true -> (slow_parent n req).1 = I.
Proof. unfold slow_parent. by intros ->. Qed.

Definition no_events : ContentionSim := mkSim ∅ (PrioQueue_init PQ_BLOCKS) 0 1000 0 false 1000 ∅ ∅ [].
Definition no_timing : TimingRecord := mkRecord 0 0 0 GETS None None.
(** A prefetcher of 16 entries, below a parent that has seen nothing; core 0 has a recorder. *)
Definition start : Node (list MemReq) := mkNode (StreamPrefetcher_init 16) (mkWorld no_events {[0 := no_timing]} []).
Definition load (line : Z) : MemReq := mkReq line GETS 3 CoreState 1000 I 0 0.

Definition state_of {A} (d : Node (list MemReq)) (r : result (A * Node (list MemReq))) : Node (list MemReq) :=
  match r with Ok (_, s) => s | Err _ => d end.
(** After the first load of page 100. *)
Definition first_load : Node (list MemReq) := Eval vm_compute in state_of start (loads slow_parent 0 [load 6400] start).

Lemma start_no_record : no_record 0 start.
Proof. by exists no_timing. Qed.

Lemma demand_reaches_parent_witness : exists ps s',
  access (logged slow_parent) 0 (load 6400) I start = Ok ((E, told slow_parent 0 (E, 1200) 1 ps), s') /\
  log s' = ps ++ demand_req (load 6400) 0 :: [] /\ (length ps <= 2)%nat.
Proof.
  destruct (demand_reaches_parent slow_parent 0 (load 6400) I start (init_prefetcher_inv 16 ltac:(lia)) start_no_record
    ltac:(by vm_compute) ltac:(done)) as (ps & s' & H1 & H2 & _ & H3 & _).
  exists ps, s'. split; [exact H1|]. split; [exact H2|exact H3].
Defined.

Lemma first_load_tracked : Tracked 0 100 0 (first_at 0) first_load.
Proof.
  split.
  - split; [vm_compute; reflexivity|done].
  - eexists. split; [vm_compute; reflexivity|]. split; [split; vm_compute; reflexivity|]. vm_compute. reflexivity.
  - done.
  - exists no_timing. split; vm_compute; reflexivity.
Qed.

Definition stream : list MemReq := load <$> [6401; 6402; 6403; 6404; 6405; 6406; 6407; 6408].

Lemma stream_prefetches_a_third_witness : exists s',
  loads slow_parent 0 stream first_load = Ok (tt, s') /\ prefetched (log s') = [6402; 6404; 6408].
Proof.
  destruct (stream_prefetches_a_third slow_parent 0 slow_parent_invalid 0 100 0 0 8 stream first_load first_load_tracked
    ltac:(lia) ltac:(lia) ltac:(done) ltac:(lia) ltac:(by repeat constructor) ltac:(vm_compute; reflexivity)) as (s' & H1 & H2).
  exists s'. split; [exact H1|]. rewrite H2. vm_compute. reflexivity.
Defined.

(** ** The events of a prefetch *)

(** The parent left event 5 in the recorder: it becomes a child of the event of the
    prefetch, which is what the core finds in the recorder. *)
Definition with_record : Node (list MemReq) :=
  mkNode (prefetcher first_load) (mkWorld (set_events (fun _ => {[5 := TimingEvent_init 0 0 0 DelayEvent]}) no_events)
    {[0 := mkRecord 6500 1100 1150 PUTX (Some 5) (Some 5)]} []).

Example record_coupled : exists s' ev,
  access (logged slow_parent) 0 (load 6401) I with_record = Ok ((E, 1100), s') /\
  eventRecorders (world s') !! 0 = Some (mkRecord 6402 1100 1100 GETS (Some 1) (Some 1)) /\
  events (csim (world s')) !! 1 = Some ev /\ visited ev = [Some 5] /\ minStartCycle ev = 1100.
Proof. eexists _, _. split_and!; vm_compute; reflexivity. Qed.

(** ** Three accesses that go wrong *)

(** A load that starts a prefetch is answered with the prefetch's cycle, 190 cycles
    before the line that it asked for is there. *)
Example answered_early : exists s', access (logged slow_parent) 0 (load 6401) I first_load = Ok ((E, 1010), s').
Proof. eexists. vm_compute. reflexivity. Qed.

(** The same load, when the stack held another value. *)
Example answered_late : exists s', access (logged slow_parent) 5000 (load 6401) I first_load = Ok ((E, 5000), s').
Proof. eexists. vm_compute. reflexivity. Qed.

(** The entries are zeroed and so are their tags: the first loads of page 0 find a
    stride of 0, and the second one divides by it. *)
Example page_zero_divides : loads slow_parent 0 [load 0; load 0] start = Err Panicked.
Proof. vm_compute. reflexivity. Qed.
