(* ===== verification/WeaveExamples.v ===== *)
(** * A weave phase in full

    Events enter the queue in the bound phase ([queue]); then the phase runs.
    The example is a miss and a hit in a cache with one MSHR: the hit is held
    back until the miss has freed it. *)

From stdpp Require Import base tactics numbers list gmap relations sets sorting.
From Stdlib Require Import ZArith Lia.
From S2P Require Import Prelude PrioQueue TimingEvents WeaveInv Weave WeavePhase WeaveFrame WeaveMain CachePort.

Open Scope Z_scope.

(** ** Queueing in the bound phase *)

Lemma wp_enqueue_inv e cyc s Q :
  wp (ContentionSim_enqueue e cyc) s Q -> exists ev q, events s !! e = Some ev /\ domain ev = 0 /\ numParents ev = 0 /\
    lastLimit s <= cyc /\ enqueue PQ_BLOCKS e cyc (pq s) = Ok (tt, q) /\ Q tt (set_pq q (set_events (insert e (set_privCycle cyc ev)) s)).
Proof.
  unfold wp, ContentionSim_enqueue, mbind, st_bind, gets, assert_, at_event. cbn beta iota. unfold id.
  destruct (inCSim s); [|done]. destruct (Z.leb_spec (lastLimit s) cyc); [|done].
  destruct (cyc <? _); [|done]. destruct (events s !! e) as [ev|] eqn:He; [|done].
  destruct (Z.eqb_spec (domain ev) 0) as [Hd|]; [|done]. destruct (curCycle s <=? cyc); [|done].
  unfold set_event, modify, zoom. destruct (Z.eqb_spec (numParents ev) 0) as [Hn|]; [|done].
  rewrite Hd. cbn [Z.eqb negb Z.ltb Z.compare numDomains]. change (pq (set_events _ s)) with (pq s).
  destruct (enqueue PQ_BLOCKS e cyc (pq s)) as [[[] q]|] eqn:Hq; [|done]. intros HQ. exists ev, q.
  split_and!; try done. unfold set_events in HQ at 1. rewrite (alter_known _ _ _ _ He) in HQ. done.
Qed.

Section queue.
Context (lb : Z -> Z).

(** An event without parents enters the queue in the bound phase, between two
    weave phases, and leaves the simulation in order. *)
Lemma queue_wellformed s e ev cyc :
  WellFormed lb (set_inCSim true s) -> inCSim s = false -> events s !! e = Some ev -> state ev = EV_NONE ->
  numParents ev = 0 -> class ev <> DelayEvent -> curCycle s <= cyc -> lb e <= cyc ->
  cyc < lastLimit s + 10 * phaseLength s + 10000 -> cyc + budget (events s) < top s ->
  exists s', queue e cyc s = Ok (tt, s') /\ WellFormed lb (set_inCSim true s') /\ inCSim s' = false.
Proof.
  intros HW Hin He Hst Hnp Hdel Hcur Hlb Hcyc Htop. pose proof HW as [HB [HC HR]].
  pose proof (base_events _ _ _ _ _ HB) as HE. cbn in HE. pose proof (ev_ok _ _ _ _ HE _ _ He) as Hok.
  destruct (base_clock _ _ _ _ _ HB) as (_ & Hlast & Hph & Htop62 & Hlim & _). cbn in Hlast, Hph, Htop62, Hlim.
  change (top (set_inCSim true s)) with (top s) in *. pose proof (budget_nonneg _ _ _ _ _ HB) as Hb0. cbn in Hb0.
  pose proof (ok_pre _ _ _ Hok) as [Hpre _].
  set (ev1 := set_state EV_QUEUED ev).
  assert (same_event ev (set_privCycle cyc ev1)) as Hs by (split; auto with damov).
  assert (EventsInv lb [] ∅ (<[e:=set_privCycle cyc ev1]> (events s))) as HE1.
  { apply (events_update lb [] [] ∅ ∅ (events s) e ev); try done; try (by rewrite Hst).
    eapply (event_ok_change _ _ ev); try done; cbn; try lia; [by rewrite Hnp|]. intros c n Hc _. cbn in Hc. eapply (ok_accs _ _ _ Hok c n); [done|by rewrite Hst]. }
  assert (budget (<[e:=ev1]> (events s)) = budget (events s) - preDelay ev) as Hb1.
  { rewrite (budget_update _ _ _ _ He). unfold budget_of. rewrite Hst. cbn. unfold lat. cbn. lia. }
  pose proof (event_enqueue_spec lb [] [] ∅ ∅ 0 0 (set_inCSim true s) e ev ev1 cyc HB He HE1) as Hwp.
  destruct (wp_enqueue_inv _ _ _ _ (Hwp ltac:(by rewrite Hst) eq_refl ltac:(unfold budget_of; rewrite Hst; cbn; unfold lat; cbn; lia)
    ltac:(done) Hcur Hlb ltac:(cbn; rewrite Hb1; change (top (set_inCSim true s)) with (top s); lia) ltac:(done)))
    as (ev2 & q & He2 & Hdom & Hnp2 & Hll & Hq & HB' & _).
  cbn in He2. rewrite lookup_insert_eq in He2. injection He2 as <-.
  change (pq (set_events _ (set_inCSim true s))) with (pq s) in Hq.
  assert (exists s', queue e cyc s = Ok (tt, s') /\ s' = set_pq q (set_events (insert e (set_privCycle cyc ev1)) s)) as (s' & Hrun & ->).
  { assert (wp (queue e cyc) s (fun _ s' => s' = set_pq q (set_events (insert e (set_privCycle cyc ev1)) s))) as Hwq.
    { unfold queue. wp_step. eapply wp_at_event; [done|]. do 2 wp_step; [by rewrite Hst, Hnp|].
      wp_step. eapply wp_set_event; [done|]. unfold enqueueSynced. do 2 wp_step. do 2 wp_step; [cbn; by rewrite Hin|].
      wp_step. eapply wp_at_event; [apply lookup_insert_eq|]. cbn in Hdom. wp_step. wp_step; [cbn; by rewrite Hdom|].
      do 2 wp_step; [cbn; by rewrite Hdom|]. do 2 wp_step; [by apply Z.leb_le|].
      do 2 wp_step; [cbn; apply Z.ltb_lt; rewrite u64_id; [done|unfold in_u64, W64, top in *; lia]|].
      wp_step. eapply wp_set_event; [apply lookup_insert_eq|]. do 2 wp_step; [cbn; by rewrite Hnp|].
      unfold wp, zoom. cbn [pq set_events]. rewrite Hq. by rewrite set_events_twice. }
    apply wp_ok in Hwq as ([] & s' & Hrun & Hs'). eauto. }
  eexists. split; [exact Hrun|]. split; [|done]. split; [|split; [|exact HR]].
  - apply (base_fields _ _ _ _ _ _ HB'); try done. cbn. by rewrite insert_insert_eq.
  - destruct HC as [Ha Hr Hf Hac Hm Hp Hfull]. cbn [events curCycle tcaches recorders set_inCSim] in *.
    assert (budget (<[e:=set_privCycle cyc ev1]> (events s)) <= budget (events s)) as Hb2.
    { rewrite (budget_update _ _ _ _ He). unfold budget_of. rewrite Hst. cbn. unfold lat. cbn. lia. }
    split; cbn [events curCycle tcaches recorders set_inCSim set_pq set_events]; try done.
    + intros x y d Hx Hy. destruct (update_back _ _ _ _ _ _ He Hs Hx) as (y0 & Hx0 & Hsy & _). apply (Ha x y0 d Hx0).
      rewrite <- Hy. unfold accessed. pose proof (same_class _ _ Hsy). destruct (class y0), (class y); simpl in *; congruence.
    + intros x y r o z Hx Hy. destruct (update_back _ _ _ _ _ _ He Hs Hx) as (y0 & Hx0 & Hsy & _).
      pose proof (same_class _ _ Hsy) as Hcs. rewrite Hy in Hcs. destruct (class y0) eqn:Ey; simpl in Hcs; try done.
      destruct Hcs as [-> ->]. by eapply Hr.
    + intros c tc Hc. destruct (Hac _ _ Hc). change (top (set_inCSim _ _)) with (top s) in *. lia.
    + intros c tc Hc. rewrite (active_same _ e ev _ c He Hs) by (by rewrite Hst). eauto.
    + intros c tc Hc. destruct (Hp _ _ Hc) as [Hnd Hinq]. split; [done|]. intros x. rewrite Hinq.
      destruct (decide (x = e)) as [->|Hne]; [|by rewrite lookup_insert_ne].
      split; intros (y & Hy & Hys & _); exfalso; [congruence|]. rewrite lookup_insert_eq in Hy. by injection Hy as <-.
Qed.
End queue.

(** ** A miss and a hit *)

(** The events as they are allocated, and their bound-phase cycles. *)
Definition fresh_events : gmap Z TimingEvent := list_to_map [
  (1, setMinStartCycle 10 (TimingEvent_init 0 5 0 (TimingCoreEvent 100 10 0)));
  (2, setMinStartCycle 15 (TimingEvent_init 0 4 0 (MissStartEvent 200 None)));
  (3, setMinStartCycle 15 (TimingEvent_init 10 10 0 (WeaveMemAccEvent 20)));
  (4, setMinStartCycle 39 (TimingEvent_init 0 0 0 (MissResponseEvent 200 2)));
  (5, setMinStartCycle 39 (TimingEvent_init 0 4 0 (MissWritebackEvent 200 2)));
  (6, TimingEvent_init 3 0 (-1) DelayEvent);
  (7, setMinStartCycle 42 (TimingEvent_init 0 0 (-1) (TimingCoreEvent 100 42 0)));
  (8, setMinStartCycle 15 (TimingEvent_init 1 6 0 (HitEvent 200)))].

Definition bound_cycle (e : Z) : Z :=
  if e =? 1 then 10 else if e =? 2 then 15 else if e =? 3 then 29 else if e =? 4 then 39 else if e =? 5 then 39
  else if e =? 6 then 42 else if e =? 7 then 42 else 16.

Definition idle : ContentionSim :=
  mkSim fresh_events (PrioQueue_init PQ_BLOCKS) 0 1000 0 false 1000 {[200 := TimingCache_init 1]}
    {[100 := mkRecorder DRAINING 0 42 (Some 7) 0 0 0 0 0 0 0 0]} [].

(** The bound phase links the events. *)
Definition link : sim Z :=
  _ ← addChild 1 2; _ ← addChild 2 3; _ ← addChild 3 4; _ ← addChild 4 5; _ ← addChild 4 6; _ ← addChild 6 7; addChild 1 8.

Definition get {A} (d : A) (r : result (Z * A)) : A := match r with Ok (_, s) => s | Err _ => d end.
Definition linked : ContentionSim := Eval vm_compute in get idle (link idle).
Definition linked_events : gmap Z TimingEvent := events linked.

Lemma link_runs : exists r, link idle = Ok (r, linked).
Proof. eexists. vm_compute. reflexivity. Qed.

Definition event_list : list (Z * TimingEvent) := Eval vm_compute in map_to_list linked_events.

Lemma linked_lookup e ev : events linked !! e = Some ev -> (e, ev) ∈ event_list.
Proof.
  intros He. assert (map_to_list linked_events = event_list) as <- by (vm_compute; reflexivity). by apply elem_of_map_to_list.
Qed.

(** Goals about every event, one by one. *)
Ltac each_event H :=
  apply linked_lookup in H; unfold event_list in H;
  repeat (apply elem_of_cons in H as [[= -> ->]|H]; [|]); [..|by apply elem_of_nil in H].

(** The children of one event, one by one. *)
Ltac each_kid H := vm_compute in H; repeat (apply elem_of_cons in H as [->|H]; [|]); [..|by apply elem_of_nil in H].

Lemma linked_edge p c : (p, c) ∈ [(1, 2); (1, 8); (2, 3); (3, 4); (4, 5); (4, 6); (6, 7)] -> edge (events linked) p c.
Proof.
  intros H. repeat (apply elem_of_cons in H as [[= -> ->]|H]; [|]); [..|by apply elem_of_nil in H].
  all: eexists; split; [vm_compute; reflexivity|]; split; [done|]; vm_compute; set_solver.
Qed.

Lemma linked_events_ok : EventsInv bound_cycle [] ∅ (events linked).
Proof.
  split.
  - intros e ev He. each_event He;
      (split; [vm_compute; by split|reflexivity|vm_compute; by split|vm_compute; by split|vm_compute; by split| |vm_compute; by split
        |intros Hd; first [by destruct Hd|by vm_compute]|by vm_compute|intros c n Hc; discriminate|intros Hd; by destruct Hd
        |intros _; by split|discriminate|discriminate]).
    all: split; [|reflexivity]; cbn; repeat (constructor; [by eexists|]); constructor.
  - intros e ev He. each_event He; vm_compute; reflexivity.
  - intros p pv c Hp Hs Hc. each_event Hp; each_kid Hc.
    all: eexists; split; [vm_compute; reflexivity|split; [reflexivity|vm_compute; done]].
  - intros c t Hc. by apply elem_of_nil in Hc.
  - intros e ev He. each_event He; done.
  - intros w wb c m ev Hw Hc Hm _. each_event Hw; try done. injection Hc as <- <-. vm_compute in Hm. by injection Hm as <-.
  - intros m ev c Hm _ Hc. each_event Hm; try done. injection Hc as <-. split; [vm_compute; reflexivity|].
    intros w wb Hw Hcw. each_event Hw; try done.
    eapply tc_l; [apply (linked_edge 2 3); set_solver|]. eapply tc_l; [apply (linked_edge 3 4); set_solver|].
    apply tc_once, linked_edge. set_solver.
Qed.

Lemma linked_wellformed : WellFormed bound_cycle (set_inCSim true linked).
Proof.
  assert (events (set_inCSim true linked) = events linked) as Ee by done.
  split; [|split].
  - split; rewrite ?Ee; try done.
    + apply linked_events_ok.
    + exists (fun _ => []).
      assert (queued (events linked) = ∅) as -> by (vm_compute; reflexivity).
      assert (pq (set_inCSim true linked) = PrioQueue_init PQ_BLOCKS) as -> by (vm_compute; reflexivity).
      by apply init_rep.
    + intros e ev He Hs. each_event He; done.
    + intros e ev He Hs. assert (budget (events linked) = 71) as -> by (vm_compute; reflexivity).
      each_event He; vm_compute; split; done.
    + intros e ev He Hs. each_event He; done.
    + intros c t Hc. by apply elem_of_nil in Hc.
  - assert (forall c tc, tcaches (set_inCSim true linked) !! c = Some tc -> 200 = c /\ TimingCache_init 1 = tc) as Htc.
    { intros c tc Hc. assert (tcaches (set_inCSim true linked) = tcaches idle) as E by (vm_compute; reflexivity).
      rewrite E in Hc. unfold idle, tcaches in Hc. by apply lookup_singleton_Some in Hc. }
    split; rewrite ?Ee.
    + intros e ev c He Hc. each_event He; try done; injection Hc as <-; vm_compute; eauto.
    + intros e ev r o x He Hc. each_event He; try done; injection Hc as <- <- <-; vm_compute; eauto.
    + intros c tc [<- <-]%Htc. done.
    + intros c tc [<- <-]%Htc. vm_compute. by split.
    + intros c tc [<- <-]%Htc. vm_compute. split_and!; done.
    + intros c tc [<- <-]%Htc. split; [constructor|]. intros e. split; [by intros ?%elem_of_nil|].
      intros (ev & He & Hs & _). each_event He; done.
    + intros c tc [<- <-]%Htc. done.
  - intros r rc e Hr He. left.
    assert (recorders (set_inCSim true linked) = recorders idle) as E by (vm_compute; reflexivity).
    rewrite E in Hr. unfold idle, recorders in Hr. by apply lookup_singleton_Some in Hr as [_ <-].
Qed.

(** The first event is queued, and the phase begins. *)
Definition queued_miss : ContentionSim := Eval vm_compute in
  match queue 1 10 linked with Ok (_, s) => set_inCSim true s | Err _ => linked end.

Lemma queued_miss_wellformed : WellFormed bound_cycle queued_miss.
Proof.
  destruct (queue_wellformed bound_cycle linked 1 (default (TimingEvent_init 0 0 0 DelayEvent) (events linked !! 1)) 10 linked_wellformed)
    as (s' & Hs & HW & _); [by vm_compute..|].
  assert (queued_miss = set_inCSim true s') as ->; [|done].
  assert (queued_miss = match queue 1 10 linked with Ok (_, s) => set_inCSim true s | Err _ => linked end) as -> by (vm_compute; reflexivity).
  by rewrite Hs.
Qed.

(** The hit of event 8 is held at cycle 15 by the miss of event 2, and runs at 60
    when the write-back of event 5 has freed the MSHR. *)
Definition miss_log : list (Z * Z) := [(62, 7); (60, 8); (59, 5); (59, 4); (29, 3); (16, 8); (15, 2); (10, 1)].
Lemma phase_log : match simulatePhaseThread queued_miss with Ok (_, s') => Some (logVec s', base.size (events s')) | Err _ => None end = Some (miss_log, 0%nat).
Proof. vm_compute. reflexivity. Qed.

(** Both reads of [startCycle] come after event 2 was freed. *)
Lemma phase_samples : match simulatePhaseThread queued_miss with Ok (_, s') => samples <$> tcaches s' !! 200 | Err _ => None end = Some ([None], [None]).
Proof. vm_compute. reflexivity. Qed.

(** The response of the miss, event 4, depends on its start, event 2, through the memory access. *)
Lemma queued_miss_follows : responses_follow (events queued_miss).
Proof.
  intros e ev c m He Hc _.
  assert (forall q, events queued_miss !! e = Some q -> class q = MissResponseEvent c m -> e = 4 /\ m = 2) as Honly.
  { intros q Hq Hcq. assert ((e, q) ∈ map_to_list (events queued_miss)) as H by by apply elem_of_map_to_list.
    assert (Forall (fun x => match class x.2 with MissResponseEvent _ y => x.1 = 4 /\ y = 2 | _ => True end) (map_to_list (events queued_miss))) as HF
      by (vm_compute; repeat (constructor; [by repeat split|]); constructor).
    rewrite Forall_forall in HF. specialize (HF _ H). cbn in HF. by rewrite Hcq in HF. }
  destruct (Honly ev He Hc) as [-> ->].
  apply (tc_l _ 2 3 4); [|apply tc_once]; (eexists; split; [vm_compute; reflexivity|]; split; [done|]; vm_compute; by left).
Qed.

Lemma phase_completes_witness :
  exists s', simulatePhaseThread queued_miss = Ok (tt, s') /\ WellFormed bound_cycle s' /\ curCycle s' = 1000 /\
    forall tc, tcaches s' !! 200 = Some tc -> Forall (eq None) (profMissLat tc) /\ Forall (eq None) (profMissRespLat tc).
Proof.
  destruct (phase_completes bound_cycle queued_miss queued_miss_wellformed ltac:(by vm_compute)) as (s' & Hs & HW & Hc & _ & Hcaches).
  exists s'. split; [exact Hs|]. split; [exact HW|]. split; [exact Hc|]. intros tc Htc.
  destruct (Hcaches 200 tc Htc) as (_ & _ & _ & _ & tc0 & n & k & H0 & -> & Hr). rewrite (Hr queued_miss_follows).
  assert (tc0 = TimingCache_init 1) as -> by (vm_compute in H0; by injection H0 as <-).
  cbn [TimingCache_init profMissLat profMissRespLat]. rewrite !app_nil_r. split; by apply Forall_replicate.
Defined.

Lemma phase_in_order_witness :
  exists s' l, simulatePhaseThread queued_miss = Ok (tt, s') /\ logVec s' = l /\ l = miss_log /\
    (forall c e, (c, e) ∈ l -> bound_cycle e <= c).
Proof.
  destruct (phase_in_order bound_cycle queued_miss queued_miss_wellformed ltac:(by vm_compute)) as (s' & l & Hs & Hl & _ & Hc & _).
  exists s', l. pose proof phase_log as Hlog. rewrite Hs in Hlog. injection Hlog as Hlog _.
  assert (logVec s' = l) as El by (rewrite Hl; apply app_nil_r).
  split; [exact Hs|]. split; [exact El|]. split; [congruence|]. intros c e Hin. by apply (Hc c e Hin).
Defined.

(** Accesses to the port at cycles 5, 5, 6 (low), 8, 8 (low), 8 (low). *)
Definition port_log : list (bool * Z) := [(true, 5); (true, 5); (false, 6); (true, 8); (false, 8); (false, 8)].

Lemma port_exact_witness : exists s', accesses 200 port_log idle = Ok ([5; 6; 0; 8; 8; 0], s') /\ Port [] port_log [5; 6; 0; 8; 8; 0].
Proof.
  destruct (port_exact 200 1 idle port_log) as (out & s' & Hs & HP).
  - apply lookup_singleton_eq.
  - repeat (constructor; [by split|]). constructor.
  - repeat constructor; by vm_compute.
  - by vm_compute.
  - exists s'. assert (out = [5; 6; 0; 8; 8; 0]) as ->; [|by split].
    assert (match accesses 200 port_log idle with Ok (o, _) => o | Err _ => [] end = [5; 6; 0; 8; 8; 0]) as E by (vm_compute; reflexivity).
    by rewrite Hs in E.
Defined.

Lemma children_exact_witness :
  exists ev vs, add_links [11; 12; 13; 14] (TimingEvent_init 0 0 0 DelayEvent) = Ok ev /\ visited ev = map Some vs /\ vs ≡ₚ [11; 12; 13; 14].
Proof.
  destruct (children_exact [11; 12; 13; 14] 0 0 0 DelayEvent ltac:(by vm_compute)) as (ev & vs & He & Hv & Hp & _).
  exists ev, vs. by split_and!.
Defined.
