(* ===== verification/Barrier.v ===== *)
(** * The barrier of the bound phase (barrier.h)

    Threads join and leave a barrier at any time and [sync] at the end of their
    share of a phase; the barrier runs at most [parallelThreads] of them at once
    and ends the phase when every thread has had its turn.  Here are the
    operations, and the specification they implement: a machine in which a
    thread is ready, active or arrived. *)

From stdpp Require Import base tactics numbers list gmap.
From Stdlib Require Import ZArith Lia.
From S2P Require Import Prelude.

Open Scope Z_scope.

Definition MAX_THREADS : Z := 2048.

Inductive State : Type := OFFLINE | WAITING | RUNNING | LEFT.
#[export] Instance State_eq_dec : EqDecision State.
Proof. solve_decision. Defined.

Record ThreadSyncInfo : Type := mkInfo { state : State; futexWord : Z; lastIdx : Z }.

Definition set_state (x : State) (ti : ThreadSyncInfo) : ThreadSyncInfo := mkInfo x (futexWord ti) (lastIdx ti).
Definition set_futexWord (x : Z) (ti : ThreadSyncInfo) : ThreadSyncInfo := mkInfo (state ti) x (lastIdx ti).
Definition set_lastIdx (x : Z) (ti : ThreadSyncInfo) : ThreadSyncInfo := mkInfo (state ti) (futexWord ti) x.

(** What can be observed: the calls of the threads, the threads that the barrier
    wakes up ([FUTEX_WAKE]) and its calls of [sched->callback]. *)
Inductive event : Type := Join (tid : Z) | Leave (tid : Z) | Sync (tid : Z) | Wake (tid : Z) | EndPhase.
#[export] Instance event_eq_dec : EqDecision event.
Proof. solve_decision. Defined.

(** [threadList] has the indices below [MAX_THREADS]; [draws] counts the draws from
    the random generator; [log] has the latest event first. *)
Record Barrier : Type := mkBarrier {
  parallelThreads : Z;
  threadList : gmap Z ThreadSyncInfo;
  runList : gmap Z Z;
  runListSize : Z;
  curThreadIdx : Z;
  runningThreads : Z;
  leftThreads : Z;
  phaseCount : Z;
  draws : nat;
  log : list event
}.

Definition set_threadList (f : gmap Z ThreadSyncInfo -> gmap Z ThreadSyncInfo) (b : Barrier) : Barrier :=
  mkBarrier (parallelThreads b) (f (threadList b)) (runList b) (runListSize b) (curThreadIdx b) (runningThreads b) (leftThreads b) (phaseCount b) (draws b) (log b).
Definition set_runList (f : gmap Z Z -> gmap Z Z) (b : Barrier) : Barrier :=
  mkBarrier (parallelThreads b) (threadList b) (f (runList b)) (runListSize b) (curThreadIdx b) (runningThreads b) (leftThreads b) (phaseCount b) (draws b) (log b).
Definition set_runListSize (x : Z) (b : Barrier) : Barrier :=
  mkBarrier (parallelThreads b) (threadList b) (runList b) x (curThreadIdx b) (runningThreads b) (leftThreads b) (phaseCount b) (draws b) (log b).
Definition set_curThreadIdx (x : Z) (b : Barrier) : Barrier :=
  mkBarrier (parallelThreads b) (threadList b) (runList b) (runListSize b) x (runningThreads b) (leftThreads b) (phaseCount b) (draws b) (log b).
Definition set_runningThreads (x : Z) (b : Barrier) : Barrier :=
  mkBarrier (parallelThreads b) (threadList b) (runList b) (runListSize b) (curThreadIdx b) x (leftThreads b) (phaseCount b) (draws b) (log b).
Definition set_leftThreads (x : Z) (b : Barrier) : Barrier :=
  mkBarrier (parallelThreads b) (threadList b) (runList b) (runListSize b) (curThreadIdx b) (runningThreads b) x (phaseCount b) (draws b) (log b).
Definition set_phaseCount (x : Z) (b : Barrier) : Barrier :=
  mkBarrier (parallelThreads b) (threadList b) (runList b) (runListSize b) (curThreadIdx b) (runningThreads b) (leftThreads b) x (draws b) (log b).
Definition set_draws (x : nat) (b : Barrier) : Barrier :=
  mkBarrier (parallelThreads b) (threadList b) (runList b) (runListSize b) (curThreadIdx b) (runningThreads b) (leftThreads b) (phaseCount b) x (log b).
Definition set_log (f : list event -> list event) (b : Barrier) : Barrier :=
  mkBarrier (parallelThreads b) (threadList b) (runList b) (runListSize b) (curThreadIdx b) (runningThreads b) (leftThreads b) (phaseCount b) (draws b) (f (log b)).

Abbreviation bar := (st Barrier).

(** ** The arrays *)

Definition at_thread (t : Z) : bar ThreadSyncInfo := fun b =>
  match threadList b !! t with Some ti => Ok (ti, b) | None => Err Panicked end.
Definition set_thread (t : Z) (f : ThreadSyncInfo -> ThreadSyncInfo) : bar unit := modify (set_threadList (alter f t)).
Definition in_list (i : Z) : bool := (0 <=? i) && (i <? MAX_THREADS).
Definition runList_get (i : Z) : bar Z := fun b => if in_list i then Ok (word (runList b) i, b) else Err Panicked.
Definition runList_set (i t : Z) : bar unit := fun b => if in_list i then Ok (tt, set_runList (insert i t) b) else Err Panicked.
Definition emit (e : event) : bar unit := modify (set_log (cons e)).

(** The constructor leaves [lastIdx] uninitialised: [junk] is what was in memory. *)
Definition Barrier_init (parallel : Z) (junk : Z -> Z) : Barrier :=
  mkBarrier parallel (list_to_map ((fun t => (t, mkInfo OFFLINE 0 (junk t))) <$> seqZ 0 MAX_THREADS)) ∅ 0 0 0 0 0 0 [].

Section barrier.
(** [rnd.randInt(n)], the [k]-th draw: mtrand.h is third-party. *)
Context (randInt : nat -> Z -> Z).

(** ** Waking threads *)

(** One round of [checkRunList]. *)
Definition wakeNext : bar unit :=
  idx ← gets curThreadIdx;
  _ ← modify (set_curThreadIdx (u32 (idx + 1)));
  wtid ← runList_get idx;
  ti ← at_thread wtid;
  if decide (state ti = WAITING) then
    _ ← set_thread wtid (set_state RUNNING);
    _ ← set_thread wtid (set_lastIdx idx);
    ti ← at_thread wtid;
    if futexWord ti =? 1 then
      _ ← set_thread wtid (set_futexWord 0);
      _ ← emit (Wake wtid);
      modify (fun b => set_runningThreads (u32 (runningThreads b + 1)) b)
    else fail Panicked
  else mret tt.

Fixpoint checkRunList_loop (fuel : nat) : bar unit :=
  b ← gets id;
  if (runningThreads b <? parallelThreads b) && (curThreadIdx b <? runListSize b) then
    match fuel with
    | O => fail NoFuel
    | S fuel => _ ← wakeNext; checkRunList_loop fuel
    end
  else mret tt.
(** Every round advances [curThreadIdx]. *)
Definition checkRunList : bar unit :=
  b ← gets id; checkRunList_loop (Z.to_nat (runListSize b)).

(** ** The end of a phase *)

(** The pass that takes threads which have left off the list. *)
Fixpoint cleanup (fuel : nat) (idx newSize : Z) : bar Z :=
  if idx <? newSize then
    match fuel with
    | O => fail NoFuel
    | S fuel =>
      wtid ← runList_get idx;
      ti ← at_thread wtid;
      if decide (state ti = LEFT) then
        _ ← set_thread wtid (set_state OFFLINE);
        stid ← runList_get (newSize - 1);
        _ ← runList_set idx stid;
        _ ← at_thread stid;
        _ ← set_thread stid (set_lastIdx idx);
        cleanup fuel idx (u32 (newSize - 1))
      else cleanup fuel (idx + 1) newSize
    end
  else mret newSize.

(** The Fisher-Yates shuffle, for [i] down to 1. *)
Fixpoint shuffle (i : nat) : bar unit :=
  match i with
  | O => mret tt
  | S i' =>
    k ← gets draws;
    _ ← modify (set_draws (S k));
    let j := randInt k (Z.of_nat i) in
    itid ← runList_get (Z.of_nat i);
    jtid ← runList_get j;
    _ ← runList_set (Z.of_nat i) jtid;
    _ ← runList_set j itid;
    _ ← at_thread itid;
    _ ← set_thread itid (set_lastIdx j);
    _ ← at_thread jtid;
    _ ← set_thread jtid (set_lastIdx (Z.of_nat i));
    shuffle i'
  end.

Definition checkEndPhase : bar unit :=
  b ← gets id;
  if (curThreadIdx b =? runListSize b) && (runningThreads b =? 0) then
    if leftThreads b =? runListSize b then mret tt
    else
      _ ← emit EndPhase;
      _ ← modify (set_curThreadIdx 0);
      _ ← modify (set_phaseCount (u32 (phaseCount b + 1)));
      _ ← when (Z.land (phaseCount b) (32 - 1) =? 0) (
        _ ← assert_ (0 <? runListSize b);
        newSize ← cleanup (Z.to_nat (runListSize b)) 0 (runListSize b);
        _ ← assert_ (u32 (runListSize b - newSize) =? leftThreads b);
        _ ← modify (set_leftThreads 0);
        modify (set_runListSize newSize));
      b ← gets id;
      when (parallelThreads b <? runListSize b) (shuffle (Z.to_nat (runListSize b - 1)))
  else mret tt.

Definition tryWakeNext : bar unit :=
  _ ← checkRunList;
  _ ← checkEndPhase;
  checkRunList.

(** ** The calls of a thread, up to where it may block *)

(** A thread that left in this phase and rejoins is put in front of the threads to run. *)
Definition rejoin (tid : Z) : bar unit :=
  _ ← modify (fun b => set_leftThreads (u32 (leftThreads b - 1)) b);
  ti ← at_thread tid;
  cur ← gets curThreadIdx;
  when (lastIdx ti <? cur) (
    _ ← modify (set_curThreadIdx (u32 (cur - 1)));
    t ← runList_get (lastIdx ti);
    _ ← assert_ (tid =? t);
    otherTid ← runList_get (u32 (cur - 1));
    _ ← runList_set (lastIdx ti) otherTid;
    _ ← runList_set (u32 (cur - 1)) tid;
    _ ← at_thread otherTid;
    _ ← set_thread otherTid (set_lastIdx (lastIdx ti));
    set_thread tid (set_lastIdx (u32 (cur - 1)))).

Definition join (tid : Z) : bar unit :=
  _ ← emit (Join tid);
  ti ← at_thread tid;
  _ ← assert_ (bool_decide (state ti = LEFT \/ state ti = OFFLINE));
  _ ← (if decide (state ti = OFFLINE) then
         n ← gets runListSize;
         _ ← runList_set n tid;
         modify (set_runListSize (u32 (n + 1)))
       else rejoin tid);
  _ ← set_thread tid (set_state WAITING);
  _ ← set_thread tid (set_futexWord 1);
  tryWakeNext.

Definition leave (tid : Z) : bar unit :=
  _ ← emit (Leave tid);
  ti ← at_thread tid;
  if decide (state ti = RUNNING) then
    _ ← set_thread tid (set_state LEFT);
    _ ← modify (fun b => set_leftThreads (u32 (leftThreads b + 1)) b);
    _ ← modify (fun b => set_runningThreads (u32 (runningThreads b - 1)) b);
    tryWakeNext
  else
    _ ← assert_ (bool_decide (state ti = WAITING));
    _ ← set_thread tid (set_state LEFT);
    modify (fun b => set_leftThreads (u32 (leftThreads b + 1)) b).

Definition sync (tid : Z) : bar unit :=
  _ ← emit (Sync tid);
  ti ← at_thread tid;
  _ ← assert_ (bool_decide (state ti = RUNNING));
  _ ← set_thread tid (set_futexWord 1);
  _ ← set_thread tid (set_state WAITING);
  _ ← modify (fun b => set_runningThreads (u32 (runningThreads b - 1)) b);
  tryWakeNext.

(** The wait of a thread that [join] or [sync] left waiting: one turn of its loop,
    after [FUTEX_WAIT] has returned [futex_res]; [true] if it goes on.  It then
    asserts that it runs. *)
Definition resume (futex_res tid : Z) : bar bool :=
  ti ← at_thread tid;
  if (futex_res =? 0) || negb (futexWord ti =? 1) then
    _ ← assert_ (bool_decide (state ti = RUNNING));
    mret true
  else mret false.

(** ** Histories *)

Inductive op : Type := OpJoin (tid : Z) | OpLeave (tid : Z) | OpSync (tid : Z).
Definition exec (o : op) : bar unit :=
  match o with OpJoin t => join t | OpLeave t => leave t | OpSync t => sync t end.
Fixpoint run (l : list op) : bar unit :=
  match l with [] => mret tt | o :: l => _ ← exec o; run l end.

(** What the callers promise: a thread joins when it is out, syncs when it runs,
    and leaves when it runs, or while it waits for its next turn, having had one. *)
Definition placed (b : Barrier) (tid : Z) (ti : ThreadSyncInfo) : bool :=
  (0 <=? lastIdx ti) && (lastIdx ti <? runListSize b) && (word (runList b) (lastIdx ti) =? tid).
Definition valid (b : Barrier) (o : op) : bool :=
  match o with
  | OpJoin t => match threadList b !! t with Some ti => bool_decide (state ti = LEFT \/ state ti = OFFLINE) | None => false end
  | OpSync t => match threadList b !! t with Some ti => bool_decide (state ti = RUNNING) | None => false end
  | OpLeave t => match threadList b !! t with
    | Some ti => bool_decide (state ti = RUNNING) || (bool_decide (state ti = WAITING) && placed b t ti)
    | None => false end
  end.
(** Every call of a history is valid when it is made. *)
Fixpoint all_valid (l : list op) (b : Barrier) : bool :=
  match l with
  | [] => true
  | o :: l => valid b o && match exec o b with Ok (_, b') => all_valid l b' | Err _ => true end
  end.
End barrier.

(** ** Specification *)

(** The calls in a log. *)
Definition call (e : event) : option op :=
  match e with Join t => Some (OpJoin t) | Leave t => Some (OpLeave t) | Sync t => Some (OpSync t) | _ => None end.
Definition calls (l : list event) : list op := omap call l.

(** A thread in the barrier waits for its turn in the phase, has it, or had it. *)
Inductive Role : Type := Ready | Active | Arrived.
#[export] Instance Role_eq_dec : EqDecision Role.
Proof. solve_decision. Defined.

Definition roles : Type := Z -> option Role.
Definition with_role (t : Z) (r : option Role) (a : roles) : roles := fun x => if decide (x = t) then r else a x.

(** A thread becomes active only if fewer than [P] threads are; a phase ends only
    when all threads in the barrier have arrived, and at least one has. *)
Inductive spec_step (P : Z) : event -> roles -> roles -> Prop :=
| spec_join t a : a t = None -> spec_step P (Join t) a (with_role t (Some Ready) a)
| spec_leave t a : a t <> None -> spec_step P (Leave t) a (with_role t None a)
| spec_sync t a : a t = Some Active -> spec_step P (Sync t) a (with_role t (Some Arrived) a)
| spec_wake t a : a t = Some Ready ->
    (forall l, NoDup l -> (forall x, x ∈ l -> a x = Some Active) -> Z.of_nat (length l) < P) ->
    spec_step P (Wake t) a (with_role t (Some Active) a)
| spec_end a t : a t <> None -> (forall x r, a x = Some r -> r = Arrived) ->
    spec_step P EndPhase a (fun x => match a x with Some _ => Some Ready | None => None end).

(** The events of a log, the latest first, lead from the empty barrier to [a]. *)
Inductive Trace (P : Z) : list event -> roles -> Prop :=
| trace_nil a : (forall x, a x = None) -> Trace P [] a
| trace_step e l a a1 a' : Trace P l a -> spec_step P e a a1 -> (forall x, a' x = a1 x) -> Trace P (e :: l) a'.

(** The role of a thread, from its state and the part of the list that is to come. *)
Definition upcoming (n c : Z) (R : gmap Z Z) : list Z := word R <$> seqZ c (n - c).
Definition role_of (n c : Z) (T : gmap Z ThreadSyncInfo) (R : gmap Z Z) (t : Z) : option Role :=
  match T !! t with
  | Some ti => match state ti with
    | RUNNING => Some Active
    | WAITING => Some (if decide (t ∈ upcoming n c R) then Ready else Arrived)
    | _ => None
    end
  | None => None
  end.
Definition role (b : Barrier) : roles := role_of (runListSize b) (curThreadIdx b) (threadList b) (runList b).
