(* ===== verification/BarrierInv.v ===== *)
(** * The run list of the barrier

    What holds of the threads and the run list, and how it is kept by each
    change that the operations make. *)

From stdpp Require Import base tactics numbers list gmap.
From Stdlib Require Import ZArith Lia.
From S2P Require Import Prelude Barrier.

Open Scope Z_scope.

(** ** Counting threads *)

Definition counted (p : State -> bool) (T : gmap Z ThreadSyncInfo) : Z :=
  map_sum (fun _ s => if p s then 1 else 0) (state <$> T).

Definition in_state (s s' : State) : bool :=
  match s, s' with OFFLINE, OFFLINE | WAITING, WAITING | RUNNING, RUNNING | LEFT, LEFT => true | _, _ => false end.
Definition inside (s : State) : bool := negb (in_state OFFLINE s).

Lemma counted_insert p T t ti ti' :
  T !! t = Some ti ->
  counted p (<[t := ti']> T) =
  counted p T - (if p (state ti) then 1 else 0) + (if p (state ti') then 1 else 0).
Proof.
  intros Ht. unfold counted. rewrite fmap_insert. rewrite (map_sum_update _ _ _ (state ti)); [done|].
  by rewrite lookup_fmap, Ht.
Qed.

Lemma counted_same p T T' : (forall t, state <$> T' !! t = state <$> T !! t) -> counted p T' = counted p T.
Proof. intros H. unfold counted. f_equal. apply map_eq. intros t. by rewrite !lookup_fmap. Qed.

Lemma counted_add (p q r : State -> bool) T :
  (forall s, (if r s then 1 else 0) = (if p s then 1 else 0) + (if q s then 1 else 0)) ->
  counted r T = counted p T + counted q T.
Proof. intros H. unfold counted. rewrite <- map_sum_add. apply map_sum_ext. intros _ s _. apply H. Qed.

Lemma counted_inside T :
  counted inside T = counted (in_state LEFT) T + counted (in_state RUNNING) T + counted (in_state WAITING) T.
Proof.
  rewrite (counted_add (in_state LEFT) (fun s => in_state RUNNING s || in_state WAITING s) inside) by (by intros []).
  rewrite (counted_add (in_state RUNNING) (in_state WAITING) (fun s => in_state RUNNING s || in_state WAITING s)) by (by intros []).
  lia.
Qed.

Lemma counted_nonneg p T : 0 <= counted p T.
Proof. apply map_sum_nonneg. intros _ s _. destruct (p s); lia. Qed.

Lemma counted_some p T t ti : T !! t = Some ti -> p (state ti) = true -> 1 <= counted p T.
Proof.
  intros Ht Hp. unfold counted. etrans; [|apply (map_sum_lookup _ _ t (state ti))]; cbn.
  - by rewrite Hp.
  - intros _ s _. destruct (p s); lia.
  - by rewrite lookup_fmap, Ht.
Qed.

Lemma counted_exists p T : 0 < counted p T -> exists t ti, T !! t = Some ti /\ p (state ti) = true.
Proof.
  intros Hpos. destruct (decide (map_Exists (fun _ ti => p (state ti) = true) T)) as [(t & ti & Ht & Hp)|Hn]; [by eauto|].
  exfalso. enough (counted p T = 0) by lia. apply map_sum_zero. intros t s Hs.
  rewrite lookup_fmap in Hs. destruct (T !! t) as [ti|] eqn:Ht; simplify_eq/=.
  destruct (p (state ti)) eqn:Hp; [|done]. contradict Hn. by exists t, ti.
Qed.

Lemma counted_none p T : (forall t ti, T !! t = Some ti -> p (state ti) = false) -> counted p T = 0.
Proof.
  intros H. apply map_sum_zero. intros t s Hs. rewrite lookup_fmap in Hs.
  destruct (T !! t) as [ti|] eqn:Ht; simplify_eq/=. by rewrite (H t).
Qed.

Lemma counted_list p T (l : list Z) :
  NoDup l -> (forall t, t ∈ l -> exists ti, T !! t = Some ti /\ p (state ti) = true) -> Z.of_nat (length l) <= counted p T.
Proof.
  intros Hl. revert T. induction Hl as [|t l Hnin Hl IH]; intros T Hin; [apply counted_nonneg|].
  destruct (Hin t ltac:(set_solver)) as (ti & Ht & Hp). pose proof (IH (delete t T)) as IH'.
  unfold counted in *. rewrite (map_sum_delete _ _ t (state ti)) by (by rewrite lookup_fmap, Ht). rewrite Hp.
  rewrite <- fmap_delete. enough (Z.of_nat (length l) <= map_sum (fun _ s => if p s then 1 else 0) (state <$> delete t T))
    by (cbn [length]; lia).
  apply IH'. intros x Hx. destruct (Hin x ltac:(set_solver)) as (xi & Hxi & Hpx). exists xi. split; [|done].
  rewrite lookup_delete_ne; [done|]. set_solver.
Qed.

Lemma counted_listing p T :
  exists l, NoDup l /\ Z.of_nat (length l) = counted p T /\
    forall t, t ∈ l <-> exists ti, T !! t = Some ti /\ p (state ti) = true.
Proof.
  induction T as [|t ti T Ht (l & Hl & Hlen & Hin)] using map_ind.
  - exists []. split_and!; [constructor|done|]. intros t. split; [by intros ?%not_elem_of_nil|intros (ti & Hti & _); done].
  - assert (counted p (<[t:=ti]> T) = (if p (state ti) then 1 else 0) + counted p T) as Hc.
    { unfold counted. rewrite fmap_insert, map_sum_insert; [done|]. by rewrite lookup_fmap, Ht. }
    assert (t ∉ l) as Hnin by (rewrite Hin; intros (xi & Hx & _); congruence).
    assert (forall x, x <> t -> (exists xi, <[t:=ti]> T !! x = Some xi /\ p (state xi) = true) <-> x ∈ l) as Hother.
    { intros x Hx. rewrite Hin. by setoid_rewrite lookup_insert_ne; [|done]. }
    exists (if p (state ti) then t :: l else l). destruct (p (state ti)) eqn:Hp; (split_and!; [|cbn [length]; lia|]).
    + by constructor.
    + intros x. rewrite elem_of_cons. destruct (decide (x = t)) as [->|Hx]; [|rewrite Hother by done; naive_solver].
      split; [|by left]. intros _. exists ti. split; [apply lookup_insert_eq|done].
    + done.
    + intros x. destruct (decide (x = t)) as [->|Hx]; [|by rewrite Hother].
      split; [done|]. intros (xi & Hxi & Hpx). rewrite lookup_insert_eq in Hxi. congruence.
Qed.

(** ** The invariant *)

(** [n] threads are on the list, in different places; [c] is the next to look at.
    A thread that has left or runs knows its place, and so does one that has had
    its turn. *)
Record Core (n c : Z) (T : gmap Z ThreadSyncInfo) (R : gmap Z Z) : Prop := {
  core_total : map_sum (fun _ _ => 1) (state <$> T) = MAX_THREADS;
  core_range : 0 <= c <= n;
  core_count : n = counted inside T;
  core_list : forall i, 0 <= i < n -> exists ti, T !! word R i = Some ti /\ state ti <> OFFLINE;
  core_pos : forall t ti, T !! t = Some ti -> state ti <> OFFLINE -> exists i, 0 <= i < n /\ word R i = t;
  core_inj : forall i j, 0 <= i < n -> 0 <= j < n -> word R i = word R j -> i = j;
  core_placed : forall t ti, T !! t = Some ti -> state ti = LEFT \/ state ti = RUNNING ->
    0 <= lastIdx ti < n /\ word R (lastIdx ti) = t;
  core_arrived : forall t ti i, T !! t = Some ti -> state ti = WAITING -> 0 <= i < c -> word R i = t -> lastIdx ti = i;
  core_active : forall t ti, T !! t = Some ti -> state ti = RUNNING -> lastIdx ti < c;
  core_futex : forall t ti, T !! t = Some ti ->
    (state ti = WAITING -> futexWord ti = 1) /\ (state ti = RUNNING -> futexWord ti = 0)
}.

Lemma elem_of_upcoming n c R t : t ∈ upcoming n c R <-> exists i, c <= i < n /\ word R i = t.
Proof.
  unfold upcoming. rewrite list_elem_of_fmap. setoid_rewrite elem_of_seqZ.
  split; intros (i & H1 & H2); exists i; [split; [lia|done]|split; [done|lia]].
Qed.

Lemma role_same n c T R n' c' T' R' t :
  state <$> T' !! t = state <$> T !! t ->
  (state <$> T !! t = Some WAITING -> t ∈ upcoming n' c' R' <-> t ∈ upcoming n c R) ->
  role_of n' c' T' R' t = role_of n c T R t.
Proof.
  unfold role_of. intros Hs Hup. destruct (T' !! t) as [ti'|], (T !! t) as [ti|]; simplify_eq/=; try done.
  rewrite Hs. destruct (state ti) eqn:E; try done. specialize (Hup eq_refl).
  by rewrite (decide_ext _ _ _ _ Hup).
Qed.

Lemma core_bound n c T R : Core n c T R -> n <= MAX_THREADS.
Proof.
  intros HC. rewrite (core_count _ _ _ _ HC), <- (core_total _ _ _ _ HC).
  pose proof (counted_nonneg (in_state OFFLINE) T).
  change (map_sum (fun _ _ => 1) (state <$> T)) with (counted (fun _ => true) T).
  rewrite (counted_add inside (in_state OFFLINE) (fun _ => true)); [lia|]. by intros [].
Qed.

Lemma total_insert T t ti ti' :
  T !! t = Some ti -> map_sum (fun _ _ => 1) (state <$> <[t := ti']> T) = map_sum (fun _ _ => 1) (state <$> T).
Proof. intros Ht. rewrite fmap_insert, (map_sum_update _ _ _ (state ti)); [lia|]. by rewrite lookup_fmap, Ht. Qed.

(** A change of one thread that is on the list. *)
Lemma core_thread n c T R t ti ti' :
  Core n c T R -> T !! t = Some ti -> state ti <> OFFLINE -> state ti' <> OFFLINE ->
  (state ti' = LEFT \/ state ti' = RUNNING -> 0 <= lastIdx ti' < n /\ word R (lastIdx ti') = t) ->
  (forall i, state ti' = WAITING -> 0 <= i < c -> word R i = t -> lastIdx ti' = i) ->
  (state ti' = RUNNING -> lastIdx ti' < c /\ futexWord ti' = 0) -> (state ti' = WAITING -> futexWord ti' = 1) ->
  Core n c (<[t := ti']> T) R.
Proof.
  intros [] Ht Hon Hon' Hp Ha Hr Hw.
  assert (inside (state ti) = true /\ inside (state ti') = true) as [E E'] by (by destruct (state ti), (state ti')).
  split; try done.
  - by rewrite (total_insert _ _ ti).
  - rewrite (counted_insert _ _ _ ti), E, E' by done. lia.
  - intros i Hi. destruct (core_list0 i Hi) as (x & Hx & Hs). destruct (decide (word R i = t)) as [->|];
      [rewrite lookup_insert_eq; eauto|rewrite lookup_insert_ne by done; eauto].
  - intros x xi [[<- <-]|[? Hx]]%lookup_insert_Some Hs; eauto.
  - intros x xi [[<- <-]|[? Hx]]%lookup_insert_Some Hs; eauto.
  - intros x xi i [[<- <-]|[? Hx]]%lookup_insert_Some Hs; eauto.
  - intros x xi [[<- <-]|[? Hx]]%lookup_insert_Some Hs; [by apply Hr|eauto].
  - intros x xi [[<- <-]|[? Hx]]%lookup_insert_Some; [|by eauto]. split; [done|by intros [_ ?]%Hr].
Qed.

(** A thread that changes its state keeps every other role. *)
Lemma role_thread n c T R t ti' r :
  (match state ti' with RUNNING => Some Active
   | WAITING => Some (if decide (t ∈ upcoming n c R) then Ready else Arrived) | _ => None end) = r ->
  forall x, role_of n c (<[t := ti']> T) R x = with_role t r (role_of n c T R) x.
Proof.
  intros <- x. unfold with_role. case_decide as Hx; [subst x|].
  - unfold role_of. by rewrite lookup_insert_eq.
  - apply role_same; [by rewrite lookup_insert_ne|done].
Qed.

(** ** Looking at the next thread *)

Lemma core_next n c T R :
  Core n c T R -> c < n ->
  (forall ti, T !! word R c = Some ti -> state ti = WAITING -> lastIdx ti = c) -> Core n (c + 1) T R.
Proof.
  intros HC Hc Hw. destruct HC. split; try done; [lia| |].
  - intros x xi i Hx Hxs Hi Hxi. destruct (decide (i = c)) as [->|]; [subst x; by apply Hw|].
    apply (core_arrived0 x); try done. lia.
  - intros x xi Hx Hxs. pose proof (core_active0 x xi Hx Hxs). lia.
Qed.

Lemma upcoming_next n c R x : c < n -> x <> word R c -> x ∈ upcoming n (c + 1) R <-> x ∈ upcoming n c R.
Proof.
  intros Hc Hx. rewrite !elem_of_upcoming. split; intros (i & Hi & Hix); exists i; (split; [|done]); [lia|].
  destruct (decide (i = c)) as [->|]; [congruence|lia].
Qed.

Lemma skip_spec n c T R ti :
  Core n c T R -> c < n -> T !! word R c = Some ti -> state ti <> WAITING ->
  Core n (c + 1) T R /\ forall x, role_of n (c + 1) T R x = role_of n c T R x.
Proof.
  intros HC Hc Ht Hs. split.
  - apply core_next; [done|done|]. intros ti' Ht' Hw. congruence.
  - intros x. apply role_same; [done|]. intros Hw. apply upcoming_next; [done|]. intros ->.
    rewrite Ht in Hw. simplify_eq/=.
Qed.

Lemma wake_spec n c T R t ti :
  Core n c T R -> c < n -> word R c = t -> T !! t = Some ti -> state ti = WAITING ->
  Core n (c + 1) (<[t := mkInfo RUNNING 0 c]> T) R /\ role_of n c T R t = Some Ready /\
  (forall x, role_of n (c + 1) (<[t := mkInfo RUNNING 0 c]> T) R x = with_role t (Some Active) (role_of n c T R) x).
Proof.
  intros HC Hc <- Ht Hs. set (t := word R c) in *. pose proof (core_range _ _ _ _ HC).
  assert (forall i, 0 <= i < n -> word R i = t -> i = c) as Huniq.
  { intros i Hi Hx. apply (core_inj _ _ _ _ HC); [lia|lia|by unfold t in Hx]. }
  split_and!.
  - set (t1 := set_lastIdx c ti). assert (Core n c (<[t:=t1]> T) R) as H1.
    { apply (core_thread _ _ _ _ _ ti); try done; rewrite ?Hs; try done; cbn.
      - by rewrite Hs.
      - rewrite Hs. by intros [].
      - intros i _ Hi Hx. symmetry. apply Huniq; [lia|done].
      - by rewrite Hs.
      - intros _. by apply (core_futex _ _ _ _ HC t ti). }
    apply core_next in H1; [|done|].
    2:{ intros ti'. fold t. rewrite lookup_insert_eq. by intros [= <-]. }
    rewrite <- (insert_insert_eq T t (mkInfo RUNNING 0 c) t1). apply (core_thread _ _ _ _ _ t1); try done; cbn.
    + apply lookup_insert_eq.
    + by rewrite Hs.
    + split; [lia|done].
    + split; [lia|done].
  - unfold role_of. rewrite Ht, Hs. rewrite decide_True; [done|]. apply elem_of_upcoming. exists c. split; [lia|done].
  - intros x. unfold with_role. case_decide as Hx; [subst x; unfold role_of; by rewrite lookup_insert_eq|].
    apply role_same; [by rewrite lookup_insert_ne|]. intros _. apply upcoming_next; [done|done].
Qed.

(** ** Leaving, arriving and joining *)

Lemma place_unique n c T R t ti i :
  Core n c T R -> T !! t = Some ti -> state ti = LEFT \/ state ti = RUNNING -> 0 <= i < n -> word R i = t -> lastIdx ti = i.
Proof.
  intros HC Ht Hs Hi Hx. destruct (core_placed _ _ _ _ HC _ _ Ht Hs) as [Hl Hw].
  apply (core_inj _ _ _ _ HC); [done|done|congruence].
Qed.

Lemma arrive_spec n c T R t ti f :
  Core n c T R -> T !! t = Some ti -> state ti = RUNNING -> f = 1 ->
  Core n c (<[t := mkInfo WAITING f (lastIdx ti)]> T) R /\ role_of n c T R t = Some Active /\
  (forall x, role_of n c (<[t := mkInfo WAITING f (lastIdx ti)]> T) R x = with_role t (Some Arrived) (role_of n c T R) x).
Proof.
  intros HC Ht Hs ->. pose proof (core_range _ _ _ _ HC). split_and!.
  - apply (core_thread _ _ _ _ _ ti); try done; cbn; [by rewrite Hs|by intros []|].
    intros i _ Hi Hx. eapply place_unique; eauto. lia.
  - unfold role_of. by rewrite Ht, Hs.
  - apply role_thread. cbn. rewrite decide_False; [done|]. rewrite elem_of_upcoming. intros (i & Hi & Hx).
    pose proof (place_unique _ _ _ _ _ _ i HC Ht (or_intror Hs)). pose proof (core_active _ _ _ _ HC _ _ Ht Hs).
    specialize (H0 ltac:(lia) Hx). lia.
Qed.

Lemma depart_spec n c T R t ti :
  Core n c T R -> T !! t = Some ti -> state ti = RUNNING \/ state ti = WAITING ->
  0 <= lastIdx ti < n -> word R (lastIdx ti) = t ->
  Core n c (<[t := set_state LEFT ti]> T) R /\ role_of n c T R t <> None /\
  (forall x, role_of n c (<[t := set_state LEFT ti]> T) R x = with_role t None (role_of n c T R) x).
Proof.
  intros HC Ht Hs Hl Hx. split_and!.
  - apply (core_thread _ _ _ _ _ ti); try done; cbn; naive_solver congruence.
  - unfold role_of. rewrite Ht. by destruct Hs as [-> | ->].
  - by apply role_thread.
Qed.

(** A thread that has left, and whose turn is still to come, is back in line. *)
Lemma return_spec n c T R t ti f :
  Core n c T R -> T !! t = Some ti -> state ti = LEFT -> c <= lastIdx ti -> f = 1 ->
  Core n c (<[t := mkInfo WAITING f (lastIdx ti)]> T) R /\ role_of n c T R t = None /\
  (forall x, role_of n c (<[t := mkInfo WAITING f (lastIdx ti)]> T) R x = with_role t (Some Ready) (role_of n c T R) x).
Proof.
  intros HC Ht Hs Hl ->. pose proof (core_range _ _ _ _ HC).
  destruct (core_placed _ _ _ _ HC _ _ Ht (or_introl Hs)) as [Hp Hw]. split_and!.
  - apply (core_thread _ _ _ _ _ ti); try done; cbn; [by rewrite Hs|].
    intros i _ Hi Hx. eapply (place_unique _ _ _ _ _ ti); eauto. lia.
  - unfold role_of. by rewrite Ht, Hs.
  - apply role_thread. cbn. rewrite decide_True; [done|]. apply elem_of_upcoming. exists (lastIdx ti). split; [lia|done].
Qed.

(** A thread from outside is appended. *)
Lemma append_spec n c T R t ti f :
  Core n c T R -> T !! t = Some ti -> state ti = OFFLINE -> f = 1 ->
  let T' := <[t := mkInfo WAITING f (lastIdx ti)]> T in let R' := <[n := t]> R in
  n < MAX_THREADS /\ Core (n + 1) c T' R' /\ role_of n c T R t = None /\
  (forall x, role_of (n + 1) c T' R' x = with_role t (Some Ready) (role_of n c T R) x).
Proof.
  intros HC Ht Hs -> T' R'. pose proof (core_range _ _ _ _ HC).
  assert (forall i, 0 <= i < n -> word R i <> t) as Hnew.
  { intros i Hi Hx. destruct (core_list _ _ _ _ HC i Hi) as (xi & Hxi & Hne). congruence. }
  assert (forall i, 0 <= i < n -> word R' i = word R i) as Hold.
  { intros i Hi. unfold R'. rewrite word_insert, decide_False by lia. done. }
  assert (word R' n = t) as Hlast by (unfold R'; by rewrite word_insert, decide_True).
  assert (Core (n + 1) c T' R') as HC'.
  { destruct HC. split.
    - unfold T'. by rewrite (total_insert _ _ ti).
    - lia.
    - unfold T'. rewrite (counted_insert _ _ _ ti) by done. cbn. rewrite Hs. change (if inside OFFLINE then 1 else 0) with 0. change (if inside WAITING then 1 else 0) with 1. lia.
    - intros i Hi. destruct (decide (i = n)) as [->|]; [rewrite Hlast; unfold T'; rewrite lookup_insert_eq; eauto|].
      rewrite Hold by lia. unfold T'. rewrite lookup_insert_ne by (symmetry; apply Hnew; lia). apply core_list0. lia.
    - intros x xi [[<- <-]|[? Hx]]%lookup_insert_Some Hxs; [exists n; split; [lia|done]|].
      destruct (core_pos0 x xi Hx Hxs) as (i & Hi & Hxi). exists i. rewrite Hold by lia. split; [lia|done].
    - intros i j Hi Hj. destruct (decide (i = n)) as [->|], (decide (j = n)) as [->|]; try done; rewrite ?Hlast, ?Hold by lia.
      + intros E. symmetry in E. by apply Hnew in E; [|lia].
      + intros E. by apply Hnew in E; [|lia].
      + apply core_inj0; lia.
    - intros x xi [[<- <-]|[? Hx]]%lookup_insert_Some Hxs; [by destruct Hxs|].
      destruct (core_placed0 x xi Hx Hxs) as [Hi Hxi]. rewrite Hold by lia. split; [lia|done].
    - intros x xi i [[<- <-]|[? Hx]]%lookup_insert_Some Hxs Hi; rewrite Hold by lia; [intros E; by apply Hnew in E; [|lia]|].
      by apply core_arrived0.
    - intros x xi [[<- <-]|[? Hx]]%lookup_insert_Some; [done|eauto].
    - intros x xi [[<- <-]|[? Hx]]%lookup_insert_Some; [done|eauto]. }
  split_and!; [|done|unfold role_of; by rewrite Ht, Hs|].
  { pose proof (core_bound _ _ _ _ HC'). lia. }
  intros x. unfold with_role. case_decide as Hx.
  - subst x. unfold role_of, T'. rewrite lookup_insert_eq. cbn. rewrite decide_True; [done|].
    apply elem_of_upcoming. exists n. split; [lia|done].
  - apply role_same; [unfold T'; by rewrite lookup_insert_ne|]. intros _. rewrite !elem_of_upcoming.
    split; intros (i & Hi & Hxi).
    + destruct (decide (i = n)) as [->|]; [congruence|]. exists i. rewrite Hold in Hxi by lia. split; [lia|done].
    + exists i. rewrite Hold by lia. split; [lia|done].
Qed.

(** ** Permuting the list *)

Definition swapped (i j k : Z) : Z := if decide (k = j) then i else if decide (k = i) then j else k.
Definition moved (x y i j : Z) (z : Z) (zi : ThreadSyncInfo) : ThreadSyncInfo :=
  set_lastIdx (if decide (z = x) then j else if decide (z = y) then i else lastIdx zi) zi.

Lemma moved_sym x y i j z zi : (x = y -> i = j) -> moved x y i j z zi = moved y x j i z zi.
Proof. intros H. unfold moved. repeat case_decide; try done. subst. by rewrite H. Qed.

(** The indices of the two threads, written one after the other. *)
Lemma move_both (T : gmap Z ThreadSyncInfo) x y i j xi yi :
  T !! x = Some xi -> T !! y = Some yi -> (x = y -> i = j) ->
  exists y1, <[x := set_lastIdx j xi]> T !! y = Some y1 /\
    forall z, <[y := set_lastIdx i y1]> (<[x := set_lastIdx j xi]> T) !! z = moved x y i j z <$> T !! z.
Proof.
  intros Hx Hy Heq. destruct (decide (x = y)) as [<-|Hxy].
  - exists (set_lastIdx j xi). split; [apply lookup_insert_eq|]. rewrite (Heq eq_refl). intros z. rewrite insert_insert_eq.
    unfold moved. destruct (decide (z = x)) as [->|]; [by rewrite lookup_insert_eq, Hx|].
    rewrite lookup_insert_ne by done. by destruct (T !! z) as [[]|].
  - exists yi. split; [by rewrite lookup_insert_ne|]. intros z. unfold moved.
    destruct (decide (z = y)) as [->|Hzy]; [rewrite decide_False by done; by rewrite lookup_insert_eq, Hy|].
    rewrite lookup_insert_ne by done. destruct (decide (z = x)) as [->|]; [by rewrite lookup_insert_eq, Hx|].
    rewrite lookup_insert_ne by done. by destruct (T !! z) as [[]|].
Qed.

Section swap.
Context (n c : Z) (T T' : gmap Z ThreadSyncInfo) (R : gmap Z Z) (i j x y : Z).
Context (HC : Core n c T R) (Hi : 0 <= i < n) (Hj : 0 <= j < n) (Hx : word R i = x) (Hy : word R j = y).
Context (HT : forall z, T' !! z = moved x y i j z <$> T !! z).
Context (Hrun : forall xi, T !! x = Some xi -> state xi = RUNNING -> j < c).
Context (Hrun' : forall yi, T !! y = Some yi -> state yi = RUNNING -> i < c).
Let R' : gmap Z Z := <[j := x]> (<[i := y]> R).

Lemma swap_word k : word R' k = word R (swapped i j k).
Proof. clear HC HT Hrun Hrun'. unfold R', swapped. rewrite !word_insert. by repeat case_decide; subst. Qed.

Lemma swapped_range k : 0 <= k < n -> 0 <= swapped i j k < n.
Proof. clear HT Hrun Hrun'. unfold swapped. repeat case_decide; lia. Qed.

Lemma swapped_twice k : swapped i j (swapped i j k) = k.
Proof. clear HT Hrun Hrun'. unfold swapped. repeat case_decide; lia. Qed.

Lemma swap_back z zi : T' !! z = Some zi -> exists z0, T !! z = Some z0 /\ zi = moved x y i j z z0.
Proof. rewrite HT. intros (z0 & Hz & ->)%fmap_Some. eauto. Qed.

(** Where a thread is, its new index says. *)
Lemma swap_index z z0 k :
  0 <= k < n -> word R' k = z -> (k <> i -> k <> j -> lastIdx z0 = k) -> lastIdx (moved x y i j z z0) = k.
Proof.
  clear HT Hrun Hrun'. intros Hk Hz Hl. rewrite swap_word in Hz. unfold moved. cbn.
  assert (forall m, 0 <= m < n -> word R m = z -> m = swapped i j k) as Hu.
  { intros m Hm E. apply (core_inj _ _ _ _ HC); [done|by apply swapped_range|congruence]. }
  case_decide as Ezx; [|case_decide as Ezy].
  - specialize (Hu i Hi ltac:(congruence)). revert Hu. unfold swapped. repeat case_decide; lia.
  - specialize (Hu j Hj ltac:(congruence)). revert Hu. unfold swapped. repeat case_decide; congruence || lia.
  - revert Hz. unfold swapped. repeat case_decide; [congruence|congruence|]. by intros _; apply Hl.
Qed.

Lemma swap_states z : state <$> T' !! z = state <$> T !! z.
Proof. rewrite HT. by destruct (T !! z). Qed.

Lemma swap_core : Core n c T' R'.
Proof.
  pose proof swap_word as Hw. pose proof swap_back as Hb. destruct HC as []. split.
  - rewrite <- core_total0. f_equal. apply map_eq. intros z. rewrite !lookup_fmap. apply swap_states.
  - done.
  - rewrite core_count0. symmetry. apply counted_same, swap_states.
  - intros k Hk. rewrite Hw. destruct (core_list0 _ (swapped_range k Hk)) as (zi & Hz & Hs).
    rewrite HT, Hz. by eexists.
  - intros z zi (z0 & Hz & ->)%Hb Hs. destruct (core_pos0 z z0 Hz Hs) as (k & Hk & E).
    exists (swapped i j k). split; [by apply swapped_range|]. by rewrite Hw, swapped_twice.
  - intros k k' Hk Hk'. rewrite !Hw. intros E. rewrite <- (swapped_twice k), <- (swapped_twice k').
    f_equal. apply core_inj0; [by apply swapped_range|by apply swapped_range|done].
  - intros z zi (z0 & Hz & ->)%Hb Hs. destruct (core_placed0 z z0 Hz Hs) as [Hl E].
    assert (lastIdx (moved x y i j z z0) = swapped i j (lastIdx z0)) as ->.
    { apply swap_index; [by apply swapped_range|by rewrite Hw, swapped_twice|].
      unfold swapped. by repeat case_decide. }
    split; [by apply swapped_range|]. by rewrite Hw, swapped_twice.
  - intros z zi k (z0 & Hz & ->)%Hb Hs Hk E. apply swap_index; [lia|done|]. intros Hki Hkj.
    apply (core_arrived0 z); [done|done|done|]. rewrite <- E, Hw. unfold swapped. by rewrite !decide_False.
  - intros z zi (z0 & Hz & ->)%Hb Hs. pose proof (core_active0 z z0 Hz Hs). unfold moved. cbn.
    case_decide; [subst; by eapply Hrun|]. case_decide; [subst; by eapply Hrun'|done].
  - intros z zi (z0 & Hz & ->)%Hb. by apply core_futex0 in Hz.
Qed.

Lemma swap_role : (c <= i <-> c <= j) -> forall z, role_of n c T' R' z = role_of n c T R z.
Proof.
  intros Hc z. apply role_same; [apply swap_states|]. intros _. rewrite !elem_of_upcoming.
  split; intros (k & Hk & E); exists (swapped i j k); (split; [unfold swapped; repeat case_decide; lia|]).
  - by rewrite <- swap_word.
  - by rewrite swap_word, swapped_twice.
Qed.
End swap.

(** The list is rewound by one place, to a thread that has left. *)
Lemma rewind_spec n c T R ti :
  Core n c T R -> 0 < c -> T !! word R (c - 1) = Some ti -> state ti = LEFT ->
  Core n (c - 1) T R /\ forall x, role_of n (c - 1) T R x = role_of n c T R x.
Proof.
  intros HC Hc Ht Hs. pose proof (core_range _ _ _ _ HC). split.
  - pose proof (core_placed _ _ _ _ HC) as Hpl. pose proof (core_active _ _ _ _ HC) as Hac. destruct HC. split; try done; [lia| |].
    + intros x xi i Hx Hxs Hi. apply (core_arrived0 x); try done. lia.
    + intros x xi Hx Hxs. pose proof (Hac x xi Hx Hxs). destruct (Hpl x xi Hx (or_intror Hxs)) as [_ E].
      destruct (decide (lastIdx xi = c - 1)) as [El|]; [|lia]. rewrite El in E. congruence.
  - intros x. apply role_same; [done|]. intros Hw. symmetry.
    replace c with (c - 1 + 1) at 1 by lia. apply upcoming_next; [lia|].
    intros ->. rewrite Ht in Hw. simplify_eq/=. congruence.
Qed.

(** ** Taking a thread off the list *)

Section drop.
Context (n : Z) (T : gmap Z ThreadSyncInfo) (R : gmap Z Z) (i t s : Z) (ti s1 : ThreadSyncInfo).
Context (HC : Core n 0 T R) (Hi : 0 <= i < n) (Ht : word R i = t) (Hs : word R (n - 1) = s).
Context (Hti : T !! t = Some ti) (Hleft : state ti = LEFT).
Let T1 : gmap Z ThreadSyncInfo := <[t := set_state OFFLINE ti]> T.
Context (Hs1 : T1 !! s = Some s1).
Let T' : gmap Z ThreadSyncInfo := <[s := set_lastIdx i s1]> T1.
Let R' : gmap Z Z := <[i := s]> R.

Lemma drop_back z zi : T' !! z = Some zi -> state zi <> OFFLINE ->
  z <> t /\ exists z0, T !! z = Some z0 /\ zi = (if decide (z = s) then set_lastIdx i z0 else z0).
Proof.
  unfold T', T1. intros [[<- <-]|[Hne Hz]]%lookup_insert_Some Hon.
  - unfold T1 in Hs1. apply lookup_insert_Some in Hs1 as [[E <-]|[Hne Hz]]; [by contradict Hon|].
    split; [done|]. exists s1. by rewrite decide_True.
  - apply lookup_insert_Some in Hz as [[E <-]|[Hne' Hz]]; [by contradict Hon|].
    split; [done|]. exists zi. by rewrite decide_False.
Qed.

Lemma drop_forth z z0 : T !! z = Some z0 -> z <> t -> exists zi, T' !! z = Some zi /\ state zi = state z0.
Proof.
  intros Hz Hne. unfold T'. destruct (decide (z = s)) as [->|Hzs].
  - rewrite lookup_insert_eq. eexists. split; [done|]. unfold T1 in Hs1. rewrite lookup_insert_ne in Hs1 by done.
    cbn. congruence.
  - rewrite lookup_insert_ne by done. unfold T1. rewrite lookup_insert_ne by done. eauto.
Qed.

Lemma drop_states z : z <> t -> state <$> T' !! z = state <$> T !! z.
Proof.
  intros Hz. destruct (T !! z) as [z0|] eqn:E.
  - destruct (drop_forth z z0 E Hz) as (zi & -> & Hst). cbn. by rewrite Hst.
  - unfold T'. destruct (decide (z = s)) as [->|]; [|unfold T1; rewrite !lookup_insert_ne by done; by rewrite E].
    unfold T1 in Hs1. rewrite lookup_insert_ne in Hs1 by done. congruence.
Qed.

Lemma drop_off : exists t', T' !! t = Some t' /\ state t' = OFFLINE.
Proof.
  unfold T'. destruct (decide (t = s)) as [E|Hts].
  - rewrite E, lookup_insert_eq. eexists. split; [done|]. unfold T1 in Hs1. rewrite E, lookup_insert_eq in Hs1.
    by injection Hs1 as <-.
  - rewrite lookup_insert_ne by done. unfold T1. rewrite lookup_insert_eq. by eexists.
Qed.

Lemma drop_counted p : counted p T' = counted p T - (if p LEFT then 1 else 0) + (if p OFFLINE then 1 else 0).
Proof.
  rewrite (counted_same p (<[t := set_state OFFLINE ti]> T)).
  - rewrite (counted_insert _ _ _ ti), Hleft by done. done.
  - intros z. destruct (decide (z = t)) as [->|Hz].
    + destruct drop_off as (t' & -> & Hst). rewrite lookup_insert_eq. cbn. by rewrite Hst.
    + rewrite drop_states, lookup_insert_ne by done. done.
Qed.

Lemma drop_word k : 0 <= k < n - 1 -> word R' k = word R (if decide (k = i) then n - 1 else k).
Proof. intros Hk. unfold R'. rewrite word_insert. by case_decide. Qed.

Lemma drop_core : Core (n - 1) 0 T' R'.
Proof.
  pose proof drop_word as Hw. pose proof drop_back as Hb. pose proof drop_forth as Hf. pose proof (drop_counted inside) as Hcnt.
  pose proof (core_range _ _ _ _ HC) as Hr. pose proof (core_inj _ _ _ _ HC) as Hinj. destruct HC as []. split.
  - unfold T', T1. by rewrite (total_insert _ _ s1), (total_insert _ _ ti).
  - lia.
  - rewrite Hcnt. change (if inside LEFT then 1 else 0) with 1. change (if inside OFFLINE then 1 else 0) with 0. lia.
  - intros k Hk. rewrite Hw by done. set (k' := if decide (k = i) then n - 1 else k).
    assert (0 <= k' < n /\ k' <> i) as [Hk' Hne] by (subst k'; case_decide; lia).
    destruct (core_list0 k' Hk') as (z0 & Hz & Hst). destruct (Hf _ _ Hz) as (zi & -> & Hst').
    + intros E. apply Hne, Hinj; [done|done|congruence].
    + exists zi. by rewrite Hst'.
  - intros z zi Hz Hon. destruct (Hb z zi Hz Hon) as (Hzt & z0 & Hz0 & ->).
    assert (state z0 <> OFFLINE) as Hon0 by (by case_decide).
    destruct (core_pos0 z z0 Hz0 Hon0) as (k & Hk & E).
    assert (k <> i) by congruence.
    destruct (decide (k = n - 1)) as [->|Hkn].
    + exists i. split; [lia|]. rewrite Hw by lia. by rewrite decide_True.
    + exists k. split; [lia|]. rewrite Hw by lia. by rewrite decide_False.
  - intros k k' Hk Hk'. rewrite !Hw by done. intros E.
    apply Hinj in E; destruct (decide (k = i)), (decide (k' = i)); lia.
  - intros z zi Hz Hst. assert (state zi <> OFFLINE) as Hon by (by destruct Hst as [-> | ->]).
    destruct (Hb z zi Hz Hon) as (Hzt & z0 & Hz0 & ->). case_decide as Ezs; cbn in *.
    + subst z. split; [|unfold R'; by rewrite word_insert, decide_True].
      destruct (core_placed0 s z0 Hz0 Hst) as [Hl E]. rewrite <- Hs in E. apply Hinj in E; [|lia|lia].
      assert (i <> n - 1) by congruence. lia.
    + destruct (core_placed0 z z0 Hz0 Hst) as [Hl E].
      assert (lastIdx z0 <> n - 1) by congruence. assert (lastIdx z0 <> i) by congruence.
      split; [lia|]. rewrite Hw by lia. by rewrite decide_False.
  - intros z zi k _ _ Hk. lia.
  - intros z zi Hz Hst. assert (state zi <> OFFLINE) as Hon by congruence.
    destruct (Hb z zi Hz Hon) as (Hzt & z0 & Hz0 & ->).
    assert (state z0 = RUNNING) as Hst0 by (by case_decide).
    pose proof (core_active0 _ _ Hz0 Hst0). destruct (core_placed0 _ _ Hz0 (or_intror Hst0)). lia.
  - intros z zi Hz. destruct (decide (state zi = OFFLINE)) as [E|Hon]; [by rewrite E|].
    destruct (Hb z zi Hz Hon) as (Hzt & z0 & Hz0 & ->). apply core_futex0 in Hz0. by case_decide.
Qed.

Lemma drop_role z : role_of (n - 1) 0 T' R' z = role_of n 0 T R z.
Proof.
  destruct (decide (z = t)) as [->|Hzt].
  - unfold role_of. destruct drop_off as (t' & -> & ->). by rewrite Hti, Hleft.
  - apply role_same; [by apply drop_states|]. intros Hw.
    destruct (T !! z) as [z0|] eqn:Hz; [|done]. injection Hw as Hst.
    destruct (drop_forth z z0 Hz Hzt) as (zi & Hzi & Hst'). rewrite !elem_of_upcoming.
    split; intros _.
    + destruct (core_pos _ _ _ _ HC z z0 Hz) as (k & Hk & E); [congruence|]. exists k. split; [lia|done].
    + destruct (core_pos _ _ _ _ drop_core z zi Hzi) as (k & Hk & E); [congruence|]. exists k. split; [lia|done].
Qed.
End drop.
