(* ===== verification/BarrierMain.v ===== *)
(** * The barrier implements its specification

    Every history of valid calls runs without a failed assertion, a lost wake-up
    or an access outside an array; what the barrier does is a run of the
    specification, and it never stands still while a thread waits. *)

From stdpp Require Import base tactics numbers list gmap.
From Stdlib Require Import ZArith Lia.
From S2P Require Import Prelude Barrier BarrierInv.

Open Scope Z_scope.

Lemma wp_at_thread t (b : Barrier) ti (Q : ThreadSyncInfo -> Barrier -> Prop) :
  threadList b !! t = Some ti -> Q ti b -> wp (at_thread t) b Q.
Proof. intros Ht HQ. unfold wp, at_thread. by rewrite Ht. Qed.

Lemma wp_set_thread t f (b : Barrier) ti (Q : unit -> Barrier -> Prop) :
  threadList b !! t = Some ti -> Q tt (set_threadList (insert t (f ti)) b) -> wp (set_thread t f) b Q.
Proof.
  intros Ht HQ. unfold set_thread. apply wp_modify. unfold set_threadList in *.
  by rewrite (alter_known f _ _ _ Ht).
Qed.

Lemma in_list_range i : 0 <= i < MAX_THREADS -> in_list i = true.
Proof. unfold in_list. intros. apply andb_true_iff. split; [apply Z.leb_le|apply Z.ltb_lt]; lia. Qed.

Lemma wp_runList_get i (b : Barrier) (Q : Z -> Barrier -> Prop) :
  0 <= i < MAX_THREADS -> Q (word (runList b) i) b -> wp (runList_get i) b Q.
Proof. intros Hi HQ. unfold wp, runList_get. by rewrite in_list_range. Qed.

Lemma wp_runList_set i t (b : Barrier) (Q : unit -> Barrier -> Prop) :
  0 <= i < MAX_THREADS -> Q tt (set_runList (insert i t) b) -> wp (runList_set i t) b Q.
Proof. intros Hi HQ. unfold wp, runList_set. by rewrite in_list_range. Qed.

Lemma wp_emit e (b : Barrier) (Q : unit -> Barrier -> Prop) : Q tt (set_log (cons e) b) -> wp (emit e) b Q.
Proof. done. Qed.

Lemma Trace_ext P l a a' : Trace P l a -> (forall x, a' x = a x) -> Trace P l a'.
Proof.
  destruct 1 as [a Ha|e l a a1 a2 Htr Hs Ha]; intros E; [constructor; intros x; by rewrite E|].
  econstructor; [done|done|]. intros x. by rewrite E.
Qed.

Definition with_lists (T : gmap Z ThreadSyncInfo) (R : gmap Z Z) (d : nat) (b : Barrier) : Barrier :=
  mkBarrier (parallelThreads b) T R (runListSize b) (curThreadIdx b) (runningThreads b) (leftThreads b) (phaseCount b) d (log b).

Section main.
Context (randInt : nat -> Z -> Z) (P : Z).
Context (HP : 0 < P < W32) (Hrand : forall k n, 0 <= n -> 0 <= randInt k n <= n).

(** ** The passes over the list *)

Lemma cleanup_done nn (b : Barrier) :
  Core nn 0 (threadList b) (runList b) ->
  (forall i ti, 0 <= i < nn -> threadList b !! word (runList b) i = Some ti -> state ti <> LEFT) ->
  exists T' R', b = with_lists T' R' (draws b) b /\ Core nn 0 T' R' /\
    nn = nn - counted (in_state LEFT) (threadList b) /\ counted (in_state LEFT) T' = 0 /\
    counted (in_state RUNNING) T' = counted (in_state RUNNING) (threadList b) /\
    (forall x, role_of nn 0 T' R' x = role_of nn 0 (threadList b) (runList b) x).
Proof.
  intros HC Hall. assert (counted (in_state LEFT) (threadList b) = 0) as HL.
  { apply counted_none. intros t ti Ht. destruct (state ti) eqn:E; try done. exfalso.
    destruct (core_pos _ _ _ _ HC t ti Ht) as (i & Hi & Hx); [congruence|]. apply (Hall i ti); congruence. }
  exists (threadList b), (runList b). split_and!; try done; [by destruct b|lia].
Qed.

Lemma cleanup_spec fuel idx nn (b : Barrier) :
  Core nn 0 (threadList b) (runList b) -> 0 <= idx <= nn -> nn - idx <= Z.of_nat fuel ->
  (forall i ti, 0 <= i < idx -> threadList b !! word (runList b) i = Some ti -> state ti <> LEFT) ->
  wp (cleanup fuel idx nn) b (fun n' b' => exists T' R', b' = with_lists T' R' (draws b) b /\ Core n' 0 T' R' /\
    n' = nn - counted (in_state LEFT) (threadList b) /\ counted (in_state LEFT) T' = 0 /\
    counted (in_state RUNNING) T' = counted (in_state RUNNING) (threadList b) /\
    (forall x, role_of n' 0 T' R' x = role_of nn 0 (threadList b) (runList b) x)).
Proof.
  revert idx nn b. induction fuel as [|fuel IH]; intros idx nn b HC Hidx Hfuel Hbefore; cbn [cleanup];
    (destruct (Z.ltb_spec idx nn) as [Hlt|Hge]; [|apply wp_ret, cleanup_done; [done|intros i ti Hi; apply Hbefore; lia]]);
    [lia|].
  pose proof (core_bound _ _ _ _ HC) as Hmax.
  destruct (core_list _ _ _ _ HC idx ltac:(lia)) as (ti & Hti & Hon).
  apply wp_bind, wp_runList_get; [lia|]. apply wp_bind, (wp_at_thread _ _ ti); [done|].
  case_decide as Hst.
  - destruct (core_list _ _ _ _ HC (nn - 1) ltac:(lia)) as (si & Hsi & _).
    remember (word (runList b) idx) as t eqn:Et. remember (word (runList b) (nn - 1)) as s eqn:Es.
    assert (exists s1, <[t := set_state OFFLINE ti]> (threadList b) !! s = Some s1) as [s1 Hs1].
    { destruct (decide (s = t)) as [->|]; [rewrite lookup_insert_eq; eauto|rewrite lookup_insert_ne by done; eauto]. }
    apply wp_bind, (wp_set_thread _ _ _ ti); [done|].
    apply wp_bind, wp_runList_get; [lia|]. apply wp_bind, wp_runList_set; [lia|].
    cbn [set_threadList set_runList threadList runList]. rewrite <- Es.
    apply wp_bind, (wp_at_thread _ _ s1); [done|]. apply wp_bind, (wp_set_thread _ _ _ s1); [done|].
    cbn [set_threadList set_runList threadList runList].
    rewrite (u32_id (nn - 1)) by (unfold in_u32, W32, MAX_THREADS in *; lia).
    pose proof (drop_core nn _ _ idx t s ti s1 HC ltac:(lia) (eq_sym Et) (eq_sym Es) Hti Hst Hs1) as HC'.
    pose proof (drop_role nn _ _ idx t s ti s1 HC ltac:(lia) (eq_sym Et) (eq_sym Es) Hti Hst Hs1) as Hrole.
    pose proof (drop_counted _ idx t s ti s1 Hti Hst Hs1) as Hcnt.
    eapply wp_mono; [apply IH; cbn [set_threadList set_runList threadList runList]; [done|lia|lia|]|].
    + intros i xi Hi. rewrite word_insert, decide_False by lia. intros Hx Hl.
      destruct (drop_back _ idx t s ti s1 Hs1 _ xi Hx) as (_ & z0 & Hz0 & ->); [congruence|].
      apply (Hbefore i z0 Hi Hz0). by case_decide.
    + intros n' b' (T' & R' & -> & HC1 & Hn & HL & HR & Hro). exists T', R'. rewrite Hcnt in Hn, HR.
      change (if in_state LEFT LEFT then 1 else 0) with 1 in Hn. change (if in_state LEFT OFFLINE then 1 else 0) with 0 in Hn.
      change (if in_state RUNNING LEFT then 1 else 0) with 0 in HR. change (if in_state RUNNING OFFLINE then 1 else 0) with 0 in HR.
      split_and!; [done|done|lia|done|lia|]. intros x. by rewrite Hro, Hrole.
  - eapply wp_mono; [apply IH; try done; try lia|by intros].
    intros i xi Hi Hx. destruct (decide (i = idx)) as [->|]; [congruence|]. apply (Hbefore i); [lia|done].
Qed.

Lemma shuffle_spec i n (b : Barrier) :
  Core n 0 (threadList b) (runList b) -> Z.of_nat i < n -> counted (in_state RUNNING) (threadList b) = 0 ->
  wp (shuffle randInt i) b (fun _ b' => exists T' R' d, b' = with_lists T' R' d b /\ Core n 0 T' R' /\
    (forall x, state <$> T' !! x = state <$> threadList b !! x) /\
    (forall x, role_of n 0 T' R' x = role_of n 0 (threadList b) (runList b) x)).
Proof.
  revert b. induction i as [|i IH]; intros b HC Hi Hnone.
  { apply wp_ret. exists (threadList b), (runList b), (draws b). split_and!; try done. by destruct b. }
  cbn [shuffle]. apply wp_bind, wp_gets, wp_bind, wp_modify.
  pose proof (core_bound _ _ _ _ HC) as Hmax. pose proof (Hrand (draws b) (Z.of_nat (S i)) ltac:(lia)) as Hj.
  set (j := randInt (draws b) (Z.of_nat (S i))) in *. set (k := Z.of_nat (S i)) in *.
  assert (forall m ti, threadList b !! m = Some ti -> state ti = RUNNING -> False) as Hno.
  { intros m ti Hm Hs. pose proof (counted_some (in_state RUNNING) _ _ _ Hm) as Hc. rewrite Hs in Hc.
    specialize (Hc eq_refl). lia. }
  destruct (core_list _ _ _ _ HC k ltac:(lia)) as (ti & Hti & _). destruct (core_list _ _ _ _ HC j ltac:(lia)) as (tj & Htj & _).
  do 2 (apply wp_bind, wp_runList_get; [lia|]). do 2 (apply wp_bind, wp_runList_set; [lia|]). 
  cbn [set_runList set_draws runList threadList].
  remember (word (runList b) k) as x eqn:Ex. remember (word (runList b) j) as y eqn:Ey.
  apply wp_bind, (wp_at_thread _ _ ti); [done|]. apply wp_bind, (wp_set_thread _ _ _ ti); [done|].
  cbn [set_runList set_draws set_threadList runList threadList].
  destruct (move_both _ x y k j ti tj Hti Htj) as (t1 & Ht1 & HT).
  { intros E. apply (core_inj _ _ _ _ HC); [lia|lia|congruence]. }
  apply wp_bind, (wp_at_thread _ _ t1); [done|]. apply wp_bind, (wp_set_thread _ _ _ t1); [done|].
  cbn [set_runList set_draws set_threadList runList threadList].
  pose proof (swap_core n 0 _ _ _ k j x y HC ltac:(lia) ltac:(lia) (eq_sym Ex) (eq_sym Ey) HT) as HC'.
  pose proof (swap_role n 0 _ _ _ k j x y ltac:(lia) ltac:(lia) (eq_sym Ex) (eq_sym Ey) HT) as Hrole.
  pose proof (swap_states _ _ k j x y HT) as Hst.
  eapply wp_mono; [apply IH; cbn [set_runList set_draws set_threadList runList threadList]|].
  - apply HC'; intros xi Hxi Hr; by edestruct Hno.
  - lia.
  - rewrite (counted_same _ _ _ Hst). done.
  - intros [] b' (T' & R' & d & -> & HC1 & Hst1 & Hro1). exists T', R', d. split_and!; [done|done| |].
    + intros z. rewrite Hst1. apply Hst.
    + intros z. rewrite Hro1. apply Hrole. lia.
Qed.
(** ** The invariant of the barrier *)

Record Inv (L : list op) (b : Barrier) : Prop := {
  inv_P : parallelThreads b = P;
  inv_core : Core (runListSize b) (curThreadIdx b) (threadList b) (runList b);
  inv_run : runningThreads b = counted (in_state RUNNING) (threadList b);
  inv_max : runningThreads b <= P;
  inv_left : leftThreads b = counted (in_state LEFT) (threadList b);
  inv_trace : Trace P (log b) (role b);
  inv_calls : calls (log b) = L
}.

(** Between calls, the barrier runs as many threads as it may or has looked at all;
    and if none runs, all have left. *)
Definition Settled (b : Barrier) : Prop :=
  (runningThreads b = P \/ curThreadIdx b = runListSize b) /\ (runningThreads b = 0 -> leftThreads b = runListSize b).

Lemma inv_bounds L b : Inv L b ->
  0 <= curThreadIdx b <= runListSize b /\ runListSize b <= MAX_THREADS /\ 0 <= runningThreads b.
Proof.
  intros HI. pose proof (inv_core _ _ HI) as HC. split; [apply HC|]. split; [by eapply core_bound|].
  rewrite (inv_run _ _ HI). apply counted_nonneg.
Qed.

Lemma ready_upcoming L b t : Inv L b -> role b t = Some Ready -> curThreadIdx b < runListSize b.
Proof.
  intros HI Hr. unfold role, role_of in Hr. destruct (threadList b !! t) as [ti|]; [|done].
  destruct (state ti); try done. case_decide as Hup; [|done]. apply elem_of_upcoming in Hup as (i & Hi & _). lia.
Qed.

Lemma wake_round L b :
  Inv L b -> runningThreads b < P -> curThreadIdx b < runListSize b ->
  wp wakeNext b (fun _ b' => Inv L b' /\ curThreadIdx b' = curThreadIdx b + 1 /\
    runListSize b' = runListSize b /\ leftThreads b' = leftThreads b /\ runningThreads b <= runningThreads b' /\
    (forall t, role b t = Some Ready -> role b' t = Some Ready \/ 0 < runningThreads b')).
Proof.
  intros HI Hrun Hcur. pose proof (inv_bounds L b HI) as (Hc & Hmax & Hr0). destruct HI as [HPb HC Hcnt Hle Hleft Htr Hca].
  set (c := curThreadIdx b) in *. destruct (core_list _ _ _ _ HC c ltac:(lia)) as (ti & Hti & Hon).
  remember (word (runList b) c) as t eqn:Et. unfold MAX_THREADS in *.
  destruct (decide (state ti = WAITING)) as [Hst|Hst].
  - destruct (wake_spec _ _ _ _ t ti HC ltac:(lia) (eq_sym Et) Hti Hst) as (HC' & Hready & Hrole).
    destruct (core_futex _ _ _ _ HC t ti Hti) as [Hfut _]. specialize (Hfut Hst).
    apply wp_bind, wp_gets, wp_bind, wp_modify, wp_bind, wp_runList_get; [unfold MAX_THREADS; lia|]. fold c. cbn. rewrite <- Et.
    apply wp_bind, (wp_at_thread _ _ ti); [done|]. rewrite decide_True by done.
    apply wp_bind, (wp_set_thread _ _ _ ti); [done|].
    apply wp_bind, (wp_set_thread _ _ _ (set_state RUNNING ti)); [cbn; apply lookup_insert_eq|].
    apply wp_bind, (wp_at_thread _ _ (set_lastIdx c (set_state RUNNING ti))); [cbn; apply lookup_insert_eq|].
    cbn. rewrite Hfut. cbn.
    apply wp_bind, (wp_set_thread _ _ _ (set_lastIdx c (set_state RUNNING ti))); [cbn; apply lookup_insert_eq|].
    apply wp_bind, wp_emit, wp_modify. cbn. rewrite !u32_id by (unfold in_u32, W32 in *; lia).
    split_and!; try done; try lia.
    split; cbn; rewrite ?insert_insert_eq, ?(counted_insert _ _ _ _ _ Hti), ?Hst; cbn; try done; try lia.
      econstructor; [exact Htr| |intros x; unfold role; cbn; rewrite !insert_insert_eq; apply Hrole].
      constructor; [done|]. intros l Hl Hact.
      eapply Z.le_lt_trans; [apply (counted_list (in_state RUNNING) (threadList b) l Hl)|lia].
      intros x Hx. specialize (Hact x Hx). unfold role, role_of in Hact.
      destruct (threadList b !! x) as [xi|]; [|done]. exists xi. split; [done|]. destruct (state xi); try done. by case_decide.
  - destruct (skip_spec _ _ _ _ ti HC ltac:(lia) ltac:(by rewrite <- Et) Hst) as [HC' Hrole].
    apply wp_bind, wp_gets, wp_bind, wp_modify, wp_bind, wp_runList_get; [unfold MAX_THREADS; lia|]. fold c. cbn. rewrite <- Et.
    apply wp_bind, (wp_at_thread _ _ ti); [done|]. rewrite decide_False by done. apply wp_ret. cbn.
    rewrite !u32_id by (unfold in_u32, W32 in *; lia). split_and!; try done; try lia.
    + split; cbn; try done. eapply Trace_ext; [exact Htr|apply Hrole].
    + intros x Hx. left. unfold role. cbn. by rewrite Hrole.
Qed.

Lemma checkRunList_loop_spec L fuel b :
  Inv L b -> runListSize b - curThreadIdx b <= Z.of_nat fuel ->
  wp (checkRunList_loop fuel) b (fun _ b' => Inv L b' /\ (runningThreads b' = P \/ curThreadIdx b' = runListSize b') /\
    runListSize b' = runListSize b /\ leftThreads b' = leftThreads b /\ runningThreads b <= runningThreads b' /\
    (forall t, role b t = Some Ready -> 0 < runningThreads b')).
Proof.
  revert b. induction fuel as [|fuel IH]; intros b HI Hfuel; cbn [checkRunList_loop]; apply wp_bind, wp_gets; cbn;
    rewrite (inv_P _ _ HI); pose proof (inv_bounds L b HI) as (Hc & Hmax & Hr0); pose proof (inv_max _ _ HI) as Hle;
    (destruct (Z.ltb_spec (runningThreads b) P) as [Hrun|Hrun]; [destruct (Z.ltb_spec (curThreadIdx b) (runListSize b)) as [Hcur|Hcur]|]); cbn;
    try (by split_and!; try done; try lia; intros t Hr; pose proof (ready_upcoming L b t HI Hr); lia); [lia|].
  apply wp_bind. eapply wp_mono; [by apply wake_round|]. intros [] b1 (HI1 & Hc1 & Hs1 & Hl1 & Hr1 & Hready1).
  eapply wp_mono; [apply IH; [done|lia]|]. intros [] b2 (HI2 & Hset & Hs2 & Hl2 & Hr2 & Hready2).
  split_and!; try done; try lia.
  intros t Ht. destruct (Hready1 t Ht) as [Ht1|]; [by eapply Hready2|lia].
Qed.

Lemma checkRunList_spec L b :
  Inv L b ->
  wp checkRunList b (fun _ b' => Inv L b' /\ (runningThreads b' = P \/ curThreadIdx b' = runListSize b') /\
    runListSize b' = runListSize b /\ leftThreads b' = leftThreads b /\ runningThreads b <= runningThreads b' /\
    (forall t, role b t = Some Ready -> 0 < runningThreads b')).
Proof.
  intros HI. pose proof (inv_bounds L b HI). apply wp_bind, wp_gets, checkRunList_loop_spec; [done|cbn; lia].
Qed.

(** ** The end of a phase *)

(** When all threads have been looked at and none runs, those that have not left
    have arrived: the phase can end. *)
Lemma phase_over L b :
  Inv L b -> curThreadIdx b = runListSize b -> runningThreads b = 0 -> leftThreads b <> runListSize b ->
  Core (runListSize b) 0 (threadList b) (runList b) /\
  Trace P (EndPhase :: log b) (role_of (runListSize b) 0 (threadList b) (runList b)) /\
  exists t, role_of (runListSize b) 0 (threadList b) (runList b) t = Some Ready.
Proof.
  intros HI Hcur Hrun Hleft. pose proof (inv_core _ _ HI) as HC. pose proof (core_range _ _ _ _ HC) as Hr.
  rewrite (inv_run _ _ HI) in Hrun. rewrite (inv_left _ _ HI) in Hleft.
  assert (forall t ti, threadList b !! t = Some ti -> state ti <> RUNNING) as Hno.
  { intros t ti Ht Hs. pose proof (counted_some (in_state RUNNING) _ _ _ Ht) as Hc. rewrite Hs in Hc. specialize (Hc eq_refl). lia. }
  assert (forall x, role_of (runListSize b) 0 (threadList b) (runList b) x =
    match role b x with Some _ => Some Ready | None => None end) as Hro.
  { intros x. unfold role, role_of. destruct (threadList b !! x) as [xi|] eqn:Hx; [|done].
    destruct (state xi) eqn:Hs; try done; [|by apply Hno in Hx].
    rewrite decide_True; [done|]. apply elem_of_upcoming. apply (core_pos _ _ _ _ HC x xi Hx). congruence. }
  assert (exists t ti, threadList b !! t = Some ti /\ in_state WAITING (state ti) = true) as (t & ti & Ht & Hw).
  { apply counted_exists. pose proof (core_count _ _ _ _ HC) as Hn.
    rewrite counted_inside in Hn.
    pose proof (counted_nonneg (in_state WAITING) (threadList b)). lia. }
  assert (state ti = WAITING) as Hst by (by destruct (state ti)). split_and!.
  - destruct HC. split; try done; try lia. intros t' ti' Ht' Hs'. by apply Hno in Ht'.
  - assert (forall x r, role b x = Some r -> r = Arrived) as Harr.
    { intros x r. unfold role, role_of. destruct (threadList b !! x) as [xi|] eqn:Hx; [|done].
      destruct (state xi) eqn:Hs; try done; [|by apply Hno in Hx]. intros [= <-]. rewrite decide_False; [done|].
      rewrite elem_of_upcoming. intros (k & Hk & _). lia. }
    econstructor; [exact (inv_trace _ _ HI)|apply (spec_end _ _ t); [|exact Harr]|exact Hro].
    unfold role, role_of. by rewrite Ht, Hst.
  - exists t. rewrite Hro. unfold role, role_of. by rewrite Ht, Hst.
Qed.

(** The threads that have left are taken off, now and then. *)
Lemma clean_spec (full : bool) b :
  Core (runListSize b) 0 (threadList b) (runList b) -> curThreadIdx b = 0 -> leftThreads b = counted (in_state LEFT) (threadList b) ->
  counted (in_state LEFT) (threadList b) <> runListSize b ->
  wp (when full (
        _ ← assert_ (0 <? runListSize b);
        newSize ← cleanup (Z.to_nat (runListSize b)) 0 (runListSize b);
        _ ← assert_ (u32 (runListSize b - newSize) =? leftThreads b);
        _ ← modify (set_leftThreads 0);
        modify (set_runListSize newSize))) b
    (fun _ b' => exists T' R' n', b' = set_runListSize n' (set_leftThreads (counted (in_state LEFT) T') (with_lists T' R' (draws b) b)) /\
      Core n' 0 T' R' /\ counted (in_state RUNNING) T' = counted (in_state RUNNING) (threadList b) /\
      (forall x, role_of n' 0 T' R' x = role_of (runListSize b) 0 (threadList b) (runList b) x)).
Proof.
  intros HC Hcur Hl Hne. apply wp_when; intros _.
  2:{ exists (threadList b), (runList b), (runListSize b). split_and!; try done. rewrite <- Hl. by destruct b. }
  pose proof (core_range _ _ _ _ HC) as Hr. pose proof (core_bound _ _ _ _ HC) as Hmax.
  pose proof (counted_nonneg (in_state LEFT) (threadList b)) as Hnn.
  apply wp_bind, wp_assert.
  { apply Z.ltb_lt. enough (runListSize b <> 0) by lia. intros E. apply Hne. rewrite E.
    apply counted_none. intros t ti Ht. destruct (state ti) eqn:Hs; try done. exfalso.
    destruct (core_pos _ _ _ _ HC t ti Ht) as (k & Hk & _); [congruence|lia]. }
  apply wp_bind. eapply wp_mono; [apply (cleanup_spec _ 0 _ _ HC); [lia|lia|intros; lia]|].
  intros n' b' (T' & R' & -> & HC' & Hn & HL & HR & Hrole).
  pose proof (core_range _ _ _ _ HC') as Hr'. apply wp_bind, wp_assert.
  { apply Z.eqb_eq. rewrite u32_id; [lia|]. unfold in_u32, W32, MAX_THREADS in *. lia. }
  apply wp_bind, wp_modify, wp_modify. exists T', R', n'. rewrite HL. done.
Qed.

Lemma checkEndPhase_spec L b :
  Inv L b -> runningThreads b = P \/ curThreadIdx b = runListSize b ->
  wp (checkEndPhase randInt) b (fun _ b' => Inv L b' /\
    ((runningThreads b' = 0 -> leftThreads b' = runListSize b') \/ exists t, role b' t = Some Ready)).
Proof.
  intros HI Hset. apply wp_bind, wp_gets. cbn.
  destruct (Z.eqb_spec (curThreadIdx b) (runListSize b)) as [Hcur|Hcur]; cbn; [|split; [done|left; lia]].
  destruct (Z.eqb_spec (runningThreads b) 0) as [Hrun|Hrun]; [|split; [done|left; lia]].
  destruct (Z.eqb_spec (leftThreads b) (runListSize b)) as [Hleft|Hleft]; [split; [done|left; done]|].
  destruct (phase_over L b HI Hcur Hrun Hleft) as (HC & Htr & t & Ht). pose proof HI as [HPb _ Hcr _ Hcl _ Hca].
  apply wp_bind, wp_emit, wp_bind, wp_modify, wp_bind, wp_modify.
  set (b1 := set_phaseCount _ _). apply wp_bind.
  eapply wp_mono; [apply (clean_spec _ b1); cbn; try done; congruence|].
  intros [] b2 (T' & R' & n' & -> & HC' & HR' & Hrole'). cbn in HR', Hrole'. apply wp_bind, wp_gets. cbn.
  assert (forall b3 T'' R'' d, b3 = with_lists T'' R'' d (set_runListSize n' (set_leftThreads (counted (in_state LEFT) T') (with_lists T' R' (draws b1) b1))) ->
    Core n' 0 T'' R'' -> (forall p, counted p T'' = counted p T') ->
    (forall x, role_of n' 0 T'' R'' x = role_of n' 0 T' R' x) ->
    Inv L b3 /\ ((runningThreads b3 = 0 -> leftThreads b3 = runListSize b3) \/ exists t, role b3 t = Some Ready)) as Hend.
  { intros b3 T'' R'' d -> HC'' Hcnt Hro. split.
    - split; cbn; try done; rewrite ?Hcnt; try done; [lia|lia|].
      eapply Trace_ext; [exact Htr|]. intros x. unfold role; cbn. by rewrite Hro, Hrole'.
    - right. exists t. unfold role. cbn. by rewrite Hro, Hrole'. }
  apply wp_when; intros Hpar.
  - pose proof (core_range _ _ _ _ HC') as Hr'. eapply wp_mono; [apply (shuffle_spec _ n')|].
    + done.
    + cbn. apply Z.ltb_lt in Hpar. lia.
    + cbn. lia.
    + intros [] b3 (T'' & R'' & d & -> & HC'' & Hst & Hro). eapply Hend; [reflexivity|done| |done].
      intros p. by apply counted_same.
  - apply (Hend _ T' R' (draws b1)); done.
Qed.

Lemma tryWakeNext_spec L b : Inv L b -> wp (tryWakeNext randInt) b (fun _ b' => Inv L b' /\ Settled b').
Proof.
  intros HI. apply wp_bind. eapply wp_mono; [by apply checkRunList_spec|]. intros [] b1 (HI1 & Hset1 & _).
  apply wp_bind. eapply wp_mono; [by apply checkEndPhase_spec|]. intros [] b2 [HI2 Hend].
  eapply wp_mono; [by apply checkRunList_spec|]. intros [] b3 (HI3 & Hset3 & Hs3 & Hl3 & Hr3 & Hready).
  split; [done|]. split; [done|]. intros H0. destruct (inv_bounds L b2 HI2) as (_ & _ & Hr2).
  destruct Hend as [Hend|[t Ht]]; [|specialize (Hready t Ht); lia]. rewrite Hs3, Hl3. apply Hend. lia.
Qed.
(** ** The calls *)

Definition Good (L : list op) (b : Barrier) : Prop := Inv L b /\ Settled b.

Lemma sync_spec L b t ti :
  Inv L b -> threadList b !! t = Some ti -> state ti = RUNNING -> wp (sync randInt t) b (fun _ b' => Good (OpSync t :: L) b').
Proof.
  intros [HPb HC Hcr Hle Hcl Htr Hca] Ht Hst.
  destruct (arrive_spec _ _ _ _ t ti 1 HC Ht Hst eq_refl) as (HC' & Hact & Hrole).
  pose proof (counted_some (in_state RUNNING) _ _ _ Ht) as Hpos. rewrite Hst in Hpos. specialize (Hpos eq_refl).
  apply wp_bind, wp_emit, wp_bind, (wp_at_thread _ _ ti); [done|]. apply wp_bind, wp_assert; [by apply bool_decide_eq_true|].
  apply wp_bind, (wp_set_thread _ _ _ ti); [done|].
  apply wp_bind, (wp_set_thread _ _ _ (set_futexWord 1 ti)); [cbn; apply lookup_insert_eq|]. apply wp_bind, wp_modify.
  apply tryWakeNext_spec. split; cbn; rewrite ?insert_insert_eq, ?(counted_insert _ _ _ _ _ Ht), ?Hst; cbn; try done; try lia.
  - rewrite u32_id; [lia|]. unfold in_u32. lia.
  - rewrite u32_id; [lia|]. unfold in_u32. lia.
  - econstructor; [exact Htr|by apply (spec_sync _ t)|]. intros x. unfold role; cbn. rewrite insert_insert_eq. apply Hrole.
  - by rewrite <- Hca.
Qed.

Lemma leave_spec L b t ti :
  Good L b -> threadList b !! t = Some ti -> state ti = RUNNING \/ (state ti = WAITING /\ placed b t ti = true) ->
  wp (leave randInt t) b (fun _ b' => Good (OpLeave t :: L) b').
Proof.
  intros [HI Hset] Ht Hst. pose proof (inv_bounds L b HI) as (Hc & Hmax & Hr0). pose proof HI as [HPb HC Hcr Hle Hcl Htr Hca].
  assert (0 <= lastIdx ti < runListSize b /\ word (runList b) (lastIdx ti) = t) as [Hl Hw].
  { destruct Hst as [Hst|[Hst Hpl]]; [by apply (core_placed _ _ _ _ HC); [|right]|].
    unfold placed in Hpl. rewrite !andb_true_iff in Hpl. lia. }
  destruct (depart_spec _ _ _ _ t ti HC Ht ltac:(naive_solver) Hl Hw) as (HC' & Hin & Hrole).
  assert (counted (in_state LEFT) (threadList b) + 1 <= MAX_THREADS) as Hroom.
  { pose proof (core_bound _ _ _ _ HC'). pose proof (core_count _ _ _ _ HC') as Hn.
    rewrite counted_inside in Hn. pose proof (counted_nonneg (in_state RUNNING) (<[t:=set_state LEFT ti]> (threadList b))).
    pose proof (counted_nonneg (in_state WAITING) (<[t:=set_state LEFT ti]> (threadList b))).
    rewrite (counted_insert (in_state LEFT) _ _ _ _ Ht) in Hn. destruct Hst as [Hst|[Hst _]]; rewrite Hst in Hn; cbn in Hn; lia. }
  pose proof (counted_nonneg (in_state LEFT) (threadList b)) as HL. unfold MAX_THREADS in *.
  assert (Trace P (Leave t :: log b) (role_of (runListSize b) (curThreadIdx b) (<[t:=set_state LEFT ti]> (threadList b)) (runList b))) as Htr'.
  { econstructor; [exact Htr|by apply (spec_leave _ t)|exact Hrole]. }
  apply wp_bind, wp_emit, wp_bind, (wp_at_thread _ _ ti); [done|].
  destruct Hst as [Hst|[Hst _]]; rewrite Hst; [rewrite decide_True by done|rewrite decide_False by done].
  - pose proof (counted_some (in_state RUNNING) _ _ _ Ht) as Hpos. rewrite Hst in Hpos. specialize (Hpos eq_refl).
    apply wp_bind, (wp_set_thread _ _ _ ti); [done|]. apply wp_bind, wp_modify, wp_bind, wp_modify.
    apply tryWakeNext_spec. split; cbn; rewrite ?(counted_insert _ _ _ _ _ Ht), ?Hst; cbn; try done;
      rewrite ?u32_id by (unfold in_u32, W32 in *; lia); first [lia|by rewrite <- Hca].
  - apply wp_bind, wp_assert; [by apply bool_decide_eq_true|].
    apply wp_bind, (wp_set_thread _ _ _ ti); [done|]. apply wp_modify. split.
    + split; cbn; rewrite ?(counted_insert _ _ _ _ _ Ht), ?Hst; cbn; try done;
        rewrite ?u32_id by (unfold in_u32, W32 in *; lia); first [lia|by rewrite <- Hca].
    + destruct Hset as [Hs1 Hs2]. split; cbn; [done|]. intros H0. exfalso. specialize (Hs2 H0).
      pose proof (core_count _ _ _ _ HC) as Hn. rewrite counted_inside in Hn.
      pose proof (counted_some (in_state WAITING) _ _ _ Ht) as Hpos. rewrite Hst in Hpos. specialize (Hpos eq_refl). lia.
Qed.
(** A thread that has left, back in line: everything but its state. *)
Lemma rejoin_spec b t ti :
  Core (runListSize b) (curThreadIdx b) (threadList b) (runList b) -> leftThreads b = counted (in_state LEFT) (threadList b) ->
  threadList b !! t = Some ti -> state ti = LEFT ->
  wp (rejoin t) b (fun _ b' => exists T' R' c' ti',
    b' = set_leftThreads (leftThreads b - 1) (set_curThreadIdx c' (with_lists T' R' (draws b) b)) /\
    Core (runListSize b) c' T' R' /\ T' !! t = Some ti' /\ state ti' = LEFT /\ c' <= lastIdx ti' /\
    (forall x, state <$> T' !! x = state <$> threadList b !! x) /\
    (forall x, role_of (runListSize b) c' T' R' x = role b x)).
Proof.
  intros HC Hcl Ht Hst. pose proof (core_range _ _ _ _ HC) as Hc. pose proof (core_bound _ _ _ _ HC) as Hmax.
  pose proof (counted_some (in_state LEFT) _ _ _ Ht) as Hpos. rewrite Hst in Hpos. specialize (Hpos eq_refl).
  pose proof (core_count _ _ _ _ HC) as Hn. rewrite counted_inside in Hn.
  pose proof (counted_nonneg (in_state WAITING) (threadList b)). pose proof (counted_nonneg (in_state RUNNING) (threadList b)).
  destruct (core_placed _ _ _ _ HC _ _ Ht (or_introl Hst)) as [Hl Hw]. unfold MAX_THREADS in *.
  apply wp_bind, wp_modify, wp_bind, (wp_at_thread _ _ ti); [done|]. apply wp_bind, wp_gets, wp_when; cbn; intros Hlt.
  2:{ exists (threadList b), (runList b), (curThreadIdx b), ti. apply Z.ltb_ge in Hlt. split_and!; try done.
      rewrite u32_id by (unfold in_u32, W32; lia). by destruct b. }
  apply Z.ltb_lt in Hlt. rewrite !u32_id by (unfold in_u32, W32; lia). set (c := curThreadIdx b) in *.
  apply wp_bind, wp_modify, wp_bind, wp_runList_get; [unfold MAX_THREADS; lia|]. cbn. rewrite Hw.
  apply wp_bind, wp_assert; [apply Z.eqb_refl|]. apply wp_bind, wp_runList_get; [unfold MAX_THREADS; lia|]. cbn.
  destruct (core_list _ _ _ _ HC (c - 1) ltac:(lia)) as (oi & Hoi & _). remember (word (runList b) (c - 1)) as o eqn:Eo.
  do 2 (apply wp_bind, wp_runList_set; [unfold MAX_THREADS; lia|]). cbn.
  destruct (move_both _ o t (c - 1) (lastIdx ti) oi ti Hoi Ht) as (t1 & Ht1 & HT).
  { intros E. apply (core_inj _ _ _ _ HC); [lia|lia|congruence]. }
  apply wp_bind, (wp_at_thread _ _ oi); [done|]. apply wp_bind, (wp_set_thread _ _ _ oi); [done|].
  apply (wp_set_thread _ _ _ t1); [done|]. cbn.
  set (T' := <[t:=set_lastIdx (c - 1) t1]> _) in *. set (R' := <[c - 1:=t]> (<[lastIdx ti:=o]> (runList b))).
  assert (forall z, T' !! z = moved t o (lastIdx ti) (c - 1) z <$> threadList b !! z) as HT'.
  { intros z. rewrite HT. destruct (threadList b !! z); [|done]. cbn. f_equal. apply moved_sym.
    intros E. apply (core_inj _ _ _ _ HC); [lia|lia|congruence]. }
  pose proof (swap_core _ c _ _ _ (lastIdx ti) (c - 1) t o HC ltac:(lia) ltac:(lia) Hw (eq_sym Eo) HT') as HC'.
  pose proof (swap_role (runListSize b) c _ _ _ (lastIdx ti) (c - 1) t o ltac:(lia) ltac:(lia) Hw (eq_sym Eo) HT' ltac:(lia)) as Hrole.
  assert (T' !! t = Some (set_lastIdx (c - 1) t1)) as Htt by apply lookup_insert_eq.
  pose proof (swap_states _ _ _ _ _ _ HT') as Hss.
  assert (state t1 = LEFT) as Hst1 by (pose proof (Hss t) as E; rewrite Htt, Ht in E; injection E as E; by rewrite <- Hst).
  destruct (rewind_spec (runListSize b) c T' R' (set_lastIdx (c - 1) t1)) as [HC'' Hrole']; [|lia| |done|].
  - apply HC'; intros; lia.
  - unfold R'. by rewrite word_insert, decide_True.
  - exists T', R', (c - 1), (set_lastIdx (c - 1) t1). split_and!; try done. intros x. etrans; [apply Hrole'|apply Hrole].
Qed.

Lemma join_spec L b t ti :
  Inv L b -> threadList b !! t = Some ti -> state ti = LEFT \/ state ti = OFFLINE -> wp (join randInt t) b (fun _ b' => Good (OpJoin t :: L) b').
Proof.
  intros HI Ht Hst. pose proof (inv_bounds L b HI) as (Hc & Hmax & Hr0).
  apply wp_bind, wp_emit, wp_bind, (wp_at_thread _ _ ti); [done|]. apply wp_bind, wp_assert; [by apply bool_decide_eq_true|].
  apply wp_bind. case_decide as Hoff.
  - pose proof HI as [HPb HC Hcr Hle Hcl Htr Hca].
    destruct (append_spec _ _ _ _ t ti 1 HC Ht Hoff eq_refl) as (Hn & HC' & Hout & Hrole).
    apply wp_bind, wp_gets, wp_bind, wp_runList_set; [cbn; lia|]. apply wp_modify. cbn.
    apply wp_bind, (wp_set_thread _ _ _ ti); [done|].
    apply wp_bind, (wp_set_thread _ _ _ (set_state WAITING ti)); [cbn; apply lookup_insert_eq|].
    apply tryWakeNext_spec. split; cbn; rewrite ?insert_insert_eq, ?(counted_insert _ _ _ _ _ Ht), ?Hoff; cbn;
      rewrite ?u32_id by (unfold in_u32, W32, MAX_THREADS in *; lia); try done; try lia.
    + econstructor; [exact Htr|by apply (spec_join _ t)|]. intros x. unfold role; cbn.
      rewrite insert_insert_eq. apply Hrole.
    + by rewrite <- Hca.
  - assert (state ti = LEFT) as Hl by (by destruct Hst).
    pose proof HI as [HPb HC Hcr Hle Hcl Htr Hca]. pose proof (core_range _ _ _ _ HC) as Hr.
    eapply wp_mono; [apply (rejoin_spec (set_log (cons (Join t)) b) t ti); done|].
    intros [] b' (T' & R' & c' & ti' & -> & HC' & Ht' & Hst' & Hidx & Hss & Hrole'). cbn in *.
    destruct (return_spec _ _ _ _ t ti' 1 HC' Ht' Hst' Hidx eq_refl) as (HC'' & Hout & Hrole'').
    apply wp_bind, (wp_set_thread _ _ _ ti'); [done|].
    apply wp_bind, (wp_set_thread _ _ _ (set_state WAITING ti')); [cbn; apply lookup_insert_eq|].
    apply tryWakeNext_spec. split; cbn; rewrite ?insert_insert_eq, ?(counted_insert _ _ _ _ _ Ht'), ?Hst'; cbn;
      rewrite ?(counted_same _ _ _ Hss); try done; try lia.
    + econstructor; [exact Htr|apply (spec_join _ t); etrans; [symmetry; apply Hrole'|done]|].
      intros x. unfold role; cbn. rewrite insert_insert_eq, Hrole''. unfold with_role. case_decide; [done|apply Hrole'].
    + by rewrite <- Hca.
Qed.
(** ** Histories *)

Lemma init_threads (l : list Z) (junk : Z -> Z) :
  NoDup l ->
  let T := list_to_map ((fun t => (t, mkInfo OFFLINE 0 (junk t))) <$> l) : gmap Z ThreadSyncInfo in
  map_sum (fun _ _ => 1) (state <$> T) = Z.of_nat (length l) /\ forall t ti, T !! t = Some ti -> state ti = OFFLINE.
Proof.
  induction 1 as [|t l Hnin _ [IHsum IHoff]]; cbn [fmap list_fmap list_to_map foldr fst snd].
  - split; [|done]. by rewrite fmap_empty.
  - split.
    + rewrite fmap_insert, map_sum_insert; [cbn [length]; rewrite IHsum; lia|]. rewrite lookup_fmap.
      rewrite not_elem_of_list_to_map_1; [done|]. rewrite <- list_fmap_compose. cbn. by rewrite list_fmap_id.
    + intros x xi [[<- <-]|[_ Hx]]%lookup_insert_Some; [done|eauto].
Qed.

Lemma init_good junk : Good [] (Barrier_init P junk).
Proof.
  destruct (init_threads (seqZ 0 MAX_THREADS) junk) as [Hsum Hoff]; [apply NoDup_seqZ|].
  rewrite length_seqZ, Z2Nat.id in Hsum by done. unfold Barrier_init. generalize dependent (list_to_map (M := gmap Z ThreadSyncInfo)
    ((fun t => (t, mkInfo OFFLINE 0 (junk t))) <$> seqZ 0 MAX_THREADS)). intros T Hsum Hoff.
  assert (forall p, p OFFLINE = false -> counted p T = 0) as Hcnt.
  { intros p Hp. apply counted_none. intros t ti Ht. by rewrite (Hoff t ti Ht). }
  assert (forall t ti, T !! t = Some ti -> state ti <> OFFLINE -> False) as Hno by eauto.
  split; [|by split; [right|]]. split; cbn; rewrite ?Hcnt by done; try done; [|lia|].
  - split; rewrite ?Hcnt by done; try done; try lia; try (intros; exfalso; by eapply Hno; [done|naive_solver congruence]).
    intros t ti Ht. by rewrite (Hoff t ti Ht).
  - constructor. intros x. unfold role, role_of. cbn.
    destruct (T !! x) as [xi|] eqn:Hx; [|done]. by rewrite (Hoff x xi Hx).
Qed.

Lemma exec_spec L b o : Good L b -> valid b o = true -> wp (exec randInt o) b (fun _ b' => Good (o :: L) b').
Proof.
  intros HG Hv. destruct o as [t|t|t]; cbn in *; (destruct (threadList b !! t) as [ti|] eqn:Ht; [|done]).
  - apply bool_decide_eq_true in Hv. by eapply join_spec; [apply HG|..].
  - apply (leave_spec L b t ti HG Ht). rewrite orb_true_iff, andb_true_iff, !bool_decide_eq_true in Hv. done.
  - apply bool_decide_eq_true in Hv. by eapply sync_spec; [apply HG|..].
Qed.

Lemma run_good l L b : Good L b -> all_valid randInt l b = true -> wp (run randInt l) b (fun _ b' => Good (rev l ++ L) b').
Proof.
  revert L b. induction l as [|o l IH]; intros L b HG Hv; [done|]. cbn [run all_valid rev] in *.
  apply andb_true_iff in Hv as [Hv Hl]. apply wp_bind. pose proof (exec_spec L b o HG Hv) as Hexec. unfold wp in *.
  destruct (exec randInt o b) as [[[] b1]|f]; [|done]. rewrite <- app_assoc. by apply IH.
Qed.

Lemma history_good l junk :
  all_valid randInt l (Barrier_init P junk) = true ->
  exists b, run randInt l (Barrier_init P junk) = Ok (tt, b) /\ Good (rev l) b.
Proof.
  intros Hv. pose proof (run_good l [] _ (init_good junk) Hv) as Hr. apply wp_ok in Hr as ([] & b & Hb & HG).
  rewrite app_nil_r in HG. eauto.
Qed.
Lemma active_running b t : role b t = Some Active <-> exists ti, threadList b !! t = Some ti /\ in_state RUNNING (state ti) = true.
Proof.
  unfold role, role_of. destruct (threadList b !! t) as [ti|]; [|naive_solver].
  split; [|intros (? & [= <-] & Hs); by destruct (state ti)].
  intros Hr. exists ti. split; [done|]. destruct (state ti); try done. by case_decide.
Qed.

(** C14: The barrier implements its specification.  Over every history of valid
    calls, no assertion fails, no wake-up is lost ("Wakeup race in barrier"), no
    access is outside [runList] or [threadList] and every loop ends.  What is
    observed of the barrier (the calls, the threads it wakes, the ends of phases
    it reports) is a run of the specification, in which a thread that is in line
    is woken once in the phase, only while fewer than [parallelThreads] run, and a
    phase ends only when every thread in the barrier has had its turn; and the
    calls in it are those that were made. *)
Theorem barrier_refines l junk :
  all_valid randInt l (Barrier_init P junk) = true ->
  exists b, run randInt l (Barrier_init P junk) = Ok (tt, b) /\ Trace P (log b) (role b) /\ calls (log b) = rev l.
Proof.
  intros Hv. destruct (history_good l junk Hv) as (b & Hb & [HI _]). exists b. split_and!; [done|apply HI|apply HI].
Qed.

(** C15: The barrier never stands still.  After every history of valid calls, if any
    thread is in the barrier then one is active; if a thread is still to have its
    turn, exactly [parallelThreads] are active, and never more are.  A thread that
    comes back from [FUTEX_WAIT], with whatever result, goes on when it is active;
    when it is not, it waits again if the result is not 0 (its word is still 1).
    A result of 0 is taken for a wake-up without a look at the word: a spurious
    one, which the kernel's documentation allows, fails the assertion that the
    thread is RUNNING. *)
Theorem barrier_progress l junk :
  all_valid randInt l (Barrier_init P junk) = true ->
  exists b act, run randInt l (Barrier_init P junk) = Ok (tt, b) /\
    NoDup act /\ (forall t, t ∈ act <-> role b t = Some Active) /\ Z.of_nat (length act) <= P /\
    (forall t, role b t = Some Ready -> Z.of_nat (length act) = P) /\
    ((exists t, role b t <> None) -> act <> []) /\
    forall t res, role b t <> None ->
      resume res t b = if decide (role b t = Some Active) then Ok (true, b) else if res =? 0 then Err AssertFail else Ok (false, b).
Proof.
  intros Hv. destruct (history_good l junk Hv) as (b & Hb & [HI [Hset Hlive]]). pose proof (inv_core _ _ HI) as HC.
  destruct (counted_listing (in_state RUNNING) (threadList b)) as (act & Hnd & Hlen & Hin).
  rewrite <- (inv_run _ _ HI) in Hlen. exists b, act. split_and!; [done|done| |by rewrite Hlen; apply HI| | |].
  - intros t. by rewrite Hin, active_running.
  - intros t Ht. pose proof (ready_upcoming _ b t HI Ht). lia.
  - intros [t Ht] ->. cbn in Hlen. specialize (Hlive ltac:(lia)). rewrite (inv_left _ _ HI) in Hlive.
    pose proof (core_count _ _ _ _ HC) as Hn. rewrite counted_inside in Hn.
    pose proof (counted_nonneg (in_state RUNNING) (threadList b)).
    unfold role, role_of in Ht. destruct (threadList b !! t) as [ti|] eqn:Hti; [|done].
    pose proof (counted_some (in_state RUNNING) _ _ _ Hti) as H1. pose proof (counted_some (in_state WAITING) _ _ _ Hti) as H2.
    pose proof (counted_nonneg (in_state WAITING) (threadList b)).
    destruct (state ti); try done; [specialize (H2 eq_refl)|specialize (H1 eq_refl)]; lia.
  - intros t res Hin'. unfold role, role_of in *. destruct (threadList b !! t) as [ti|] eqn:Hti; [|done].
    destruct (core_futex _ _ _ _ HC t ti Hti) as [Hw Hr]. unfold resume, mbind, st_bind, at_thread. rewrite Hti.
    destruct (state ti) eqn:Hst; try done.
    + rewrite (Hw eq_refl), decide_False by by case_decide. by destruct (res =? 0).
    + by rewrite (Hr eq_refl), orb_true_r.
Qed.
End main.

(** ** A latent fault *)

Definition no_random (k : nat) (n : Z) : Z := 0.
Lemma no_random_ok k n : 0 <= n -> 0 <= no_random k n <= n.
Proof. unfold no_random. lia. Qed.

(** A thread that leaves before its first turn breaks the barrier.  With one
    thread at a time, thread 1 joins while thread 0 runs, is made to leave while it
    still waits, which [leave] admits, and joins again, which [join] admits of a
    thread that has left: its [lastIdx] was never written, and the assertion
    [tid == runList[lastIdx]] fails. *)
Theorem leave_before_turn_fails :
  let b0 := Barrier_init 1 (fun _ => 0) in
  (exists b, run no_random [OpJoin 0; OpJoin 1; OpLeave 1] b0 = Ok (tt, b) /\
    state <$> threadList b !! 1 = Some LEFT /\ lastIdx <$> threadList b !! 1 = Some 0) /\
  run no_random [OpJoin 0; OpJoin 1; OpLeave 1; OpJoin 1] b0 = Err AssertFail.
Proof. split; [|by vm_compute]. eexists. split; [by vm_compute|by vm_compute]. Qed.

(** Three threads, two at a time: a thread that leaves is back in the same phase. *)
Definition three_threads : list op :=
  [OpJoin 0; OpJoin 1; OpJoin 2; OpSync 0; OpLeave 1; OpJoin 1; OpSync 2; OpSync 1; OpSync 2; OpLeave 1; OpSync 0].
Definition three_start : Barrier := Barrier_init 2 (fun _ => 7).

Example three_threads_log :
  match run no_random three_threads three_start with Ok (_, b) => Some (rev (log b)) | Err _ => None end = Some
  [Join 0; Wake 0; Join 1; Wake 1; Join 2; Sync 0; Wake 2; Leave 1; Join 1; Wake 1; Sync 2; Sync 1; EndPhase;
   Wake 2; Wake 1; Sync 2; Wake 0; Leave 1; Sync 0; EndPhase; Wake 0; Wake 2].
Proof. by vm_compute. Qed.

Lemma barrier_refines_witness :
  exists b, run no_random three_threads three_start = Ok (tt, b) /\ Trace 2 (log b) (role b) /\ calls (log b) = rev three_threads.
Proof. apply (barrier_refines no_random 2); [done|apply no_random_ok|by vm_compute]. Defined.

Lemma barrier_progress_witness :
  exists b act, run no_random three_threads three_start = Ok (tt, b) /\
    NoDup act /\ (forall t, t ∈ act <-> role b t = Some Active) /\ Z.of_nat (length act) <= 2 /\
    (forall t, role b t = Some Ready -> Z.of_nat (length act) = 2) /\
    ((exists t, role b t <> None) -> act <> []) /\
    forall t res, role b t <> None ->
      resume res t b = if decide (role b t = Some Active) then Ok (true, b) else if res =? 0 then Err AssertFail else Ok (false, b).
Proof. apply (barrier_progress no_random 2); [done|apply no_random_ok|by vm_compute]. Defined.
