(* ===== verification/Locality.v ===== *)
(** * The locality monitor (locality.h, locality.cpp)

    The monitor keeps the addresses that a core touches and, at the end, derives
    from them a histogram of reuse distances and one of strides, and from each a
    score between 0 and 1.  [log2], [ceil] and [pow] are exact on the numbers they
    are used on (below 2^28 and powers of two); [float] is an exact rational. *)

From stdpp Require Import base tactics numbers list gmap.
From Stdlib Require Import ZArith QArith Lqa Lia.
From S2P Require Import Prelude.

Open Scope Z_scope.

(** ** The monitor *)

Record request : Type := mkRequest { address : Z; size : Z }.

Record locality : Type := mkLocality {
  t_histogram : gmap Z Z;
  s_histogram : gmap Z Z;
  last_access : gmap Z Z;
  past_32 : list Z;
  verify_to_remove_address : gmap Z Z;
  requests : list request;
  counter : Z;
  spatial_locality_score : Q;
  addr_id : Z;
  stride_access : Z;
  temporal_locality_score : Q;
  mem_accesses : Z
}.

Definition max_instructions : Z := 200000000.
Definition max_stride : Z := 1048576.

(** [pow(2, ceil(log2(n)))] of a positive [n]. *)
Definition bucket (n : Z) : Z := 2 ^ Z.log2_up n.

Definition locality_init : locality :=
  let h : gmap Z Z := list_to_map ((fun i => (2 ^ i, 0)) <$> seqZ 0 21) in
  mkLocality h h ∅ [] ∅ [] 0 0 0 0 0 0.

(** [push_address]; the map of counts is keyed by [long]. *)
Definition push_address (addr sz : Z) (s : locality) : locality :=
  if max_instructions <=? counter s then s
  else
    let key := s64 addr in
    let n := match verify_to_remove_address s !! key with Some n => n + 1 | None => 1 end in
    mkLocality (t_histogram s) (s_histogram s) (last_access s) (past_32 s) (<[key := n]> (verify_to_remove_address s))
      (requests s ++ [mkRequest addr sz]) (counter s + 1) (spatial_locality_score s) (addr_id s) (stride_access s)
      (temporal_locality_score s) (mem_accesses s).

(** The addresses that are taken for stack addresses. *)
Definition to_remove (s : locality) : gset Z :=
  dom (filter (fun kv => 21 <= Z.log2_up kv.2) (verify_to_remove_address s)).

(** The stride to the nearest of the last addresses. *)
Definition nearest (past : list Z) (addr : Z) : Z :=
  fold_left (fun stride item =>
    if Z.abs (s64 (s64 item - s64 addr)) <? stride then Z.abs (s64 (s64 item - s64 addr)) else stride) past max_stride.

(** One round of the loop of [calculate_locality]. *)
Definition analyse (removed : gset Z) (r : request) (s : locality) : result locality :=
  if decide (s64 (address r) ∈ removed) then Ok s
  else if size r <=? 0 then Err Panicked (* log2(0) is not an integer *)
  else
    let addr := Z.shiftr (address r) (Z.log2 (size r)) in
    let id := u64 (addr_id s + 1) in
    let t_histogram' := match last_access s !! addr with
      | Some last =>
        let stride := u64 (id - last) in
        let stride := if max_stride <? stride then max_stride else stride in
        <[bucket stride := u64 (word (t_histogram s) (bucket stride) + 1)]> (t_histogram s)
      | None => t_histogram s
      end in
    let '(s_histogram', stride_access', past) :=
      if (32 <=? Z.of_nat (length (past_32 s))) then
        let stride := nearest (past_32 s) addr in
        if negb (stride =? 0) then
          (<[bucket stride := u64 (word (s_histogram s) (bucket stride) + 1)]> (s_histogram s), u64 (stride_access s + 1), tail (past_32 s))
        else (s_histogram s, stride_access s, tail (past_32 s))
      else (s_histogram s, stride_access s, past_32 s) in
    Ok (mkLocality t_histogram' s_histogram' (<[addr := id]> (last_access s)) (past ++ [addr]) (verify_to_remove_address s)
      (requests s) (counter s) (spatial_locality_score s) id stride_access' (temporal_locality_score s) (u64 (mem_accesses s + 1))).

Fixpoint analyse_all (removed : gset Z) (l : list request) (s : locality) : result locality :=
  match l with
  | [] => Ok s
  | r :: l => match analyse removed r s with Ok s => analyse_all removed l s | Err f => Err f end
  end.

Definition clear_counts (s : locality) : locality :=
  mkLocality (t_histogram s) (s_histogram s) (last_access s) (past_32 s) ∅ (requests s) (counter s)
    (spatial_locality_score s) (addr_id s) (stride_access s) (temporal_locality_score s) (mem_accesses s).

Definition calculate_locality (s : locality) : result locality :=
  analyse_all (to_remove s) (requests s) (clear_counts s).

(** The scores are added to what the previous call left. *)
Definition get_spatial_locality (s : locality) : Q * locality :=
  if stride_access s =? 0 then (0%Q, s)
  else
    let score := fold_left (fun score i =>
      let percent := (inject_Z (word (s_histogram s) (2 ^ i)) / inject_Z (stride_access s))%Q in
      (score + percent / inject_Z (2 ^ i))%Q) (seqZ 0 21) (spatial_locality_score s) in
    (score, mkLocality (t_histogram s) (s_histogram s) (last_access s) (past_32 s) (verify_to_remove_address s) (requests s)
      (counter s) score (addr_id s) (stride_access s) (temporal_locality_score s) (mem_accesses s)).

Definition get_temporal_locality (s : locality) : Q * locality :=
  let score := if mem_accesses s =? 0 then 0%Q
    else fold_left (fun score i =>
      let percent := (inject_Z (word (t_histogram s) (2 ^ i)) / inject_Z (mem_accesses s))%Q in
      (score + percent * inject_Z (21 - i) / 21)%Q) (seqZ 0 21) (temporal_locality_score s) in
  (score, mkLocality (t_histogram s) (s_histogram s) (last_access s) (past_32 s) (verify_to_remove_address s) (requests s)
    (counter s) (spatial_locality_score s) (addr_id s) (stride_access s) score (mem_accesses s)).

(** The monitor over the accesses of a run. *)
Definition push_all (l : list request) (s : locality) : locality :=
  fold_left (fun s r => push_address (address r) (size r) s) l s.
Definition monitor (l : list request) : result locality := calculate_locality (push_all l locality_init).

(** ** Reference definitions *)

(** The accesses that count, as numbers of elements of their size: an address
    that occurs more than 2^20 times is left out. *)
Definition times (a : Z) (l : list request) : Z := Z.of_nat (length (filter (fun r => address r = a) l)).
Definition stream (l : list request) : list Z :=
  (fun r => Z.shiftr (address r) (Z.log2 (size r))) <$> filter (fun r => times (address r) l <= 2 ^ 20) l.

(** The distance to the last access of the same element, [past] latest first. *)
Fixpoint reuse_distance (past : list Z) (x : Z) : option Z :=
  match past with
  | [] => None
  | y :: past => if decide (x = y) then Some 1 else Z.succ <$> reuse_distance past x
  end.
Definition min_stride (past : list Z) (x : Z) : Z :=
  foldr (fun y m => Z.min (Z.abs (y - x)) m) max_stride (take 32 past).

Fixpoint reuses (past xs : list Z) : list Z :=
  match xs with
  | [] => []
  | x :: xs => match reuse_distance past x with
    | Some d => Z.min d max_stride :: reuses (x :: past) xs
    | None => reuses (x :: past) xs end
  end.
Fixpoint strides (past xs : list Z) : list Z :=
  match xs with
  | [] => []
  | x :: xs =>
    if decide (32 <= length past)%nat
    then if decide (min_stride past x = 0) then strides (x :: past) xs else min_stride past x :: strides (x :: past) xs
    else strides (x :: past) xs
  end.

(** The accesses that are recorded: the first [max_instructions]. *)
Fixpoint first {A} (n : Z) (l : list A) : list A :=
  match l with [] => [] | x :: l => if n <=? 0 then [] else x :: first (n - 1) l end.

(** How many of [l] fall into the bucket of [key]. *)
Definition in_bucket (key : Z) (l : list Z) : Z := Z.of_nat (length (filter (fun d => bucket d = key) l)).

(** ** The loop and the reference *)

Lemma s64_id z : - (W64 / 2) <= z < W64 / 2 -> s64 z = z.
Proof.
  intros Hz. change (W64 / 2) with 9223372036854775808 in *. unfold s64, u64. change (W64 / 2) with 9223372036854775808.
  destruct (Z_lt_le_dec z 0) as [Hneg|Hpos].
  - replace (z mod W64) with (z + W64) by (apply (Z.mod_unique_pos _ _ (-1)); unfold W64 in *; lia).
    rewrite decide_False by (unfold W64; lia). lia.
  - rewrite Z.mod_small by (unfold W64; lia). by rewrite decide_True by lia.
Qed.

(** Addresses of user programs: below 2^63. *)
Definition in_s63 (z : Z) : Prop := 0 <= z < W64 / 2.

Lemma shiftr_s63 a n : in_s63 a -> 0 <= n -> in_s63 (Z.shiftr a n).
Proof.
  unfold in_s63. intros Ha Hn. rewrite Z.shiftr_div_pow2 by done.
  pose proof (Z.pow_pos_nonneg 2 n ltac:(lia) Hn). split; [apply Z.div_pos; lia|].
  eapply Z.le_lt_trans; [apply Z.div_le_upper_bound|]; [lia| |apply Ha]. nia.
Qed.

Lemma fold_left_reverse {A B} (f : A -> B -> A) l a : fold_left f (reverse l) a = foldr (fun y m => f m y) a l.
Proof.
  unfold reverse. rewrite rev_append_rev, app_nil_r.
  pose proof (fold_left_rev_right (fun y m => f m y) (rev l) a) as E. by rewrite rev_involutive in E.
Qed.

Lemma nearest_spec past x :
  Forall in_s63 past -> in_s63 x -> nearest (reverse (take 32 past)) x = min_stride past x.
Proof.
  intros Hp Hx. unfold nearest, min_stride. rewrite fold_left_reverse.
  assert (Forall in_s63 (take 32 past)) as Ht by by apply Forall_take.
  induction Ht as [|y l Hy _ IH]; [done|]. cbn [foldr]. rewrite IH. unfold in_s63 in *. change (W64 / 2) with 9223372036854775808 in *.
  rewrite !s64_id by (rewrite ?s64_id; change (W64 / 2) with 9223372036854775808; lia).
  destruct (Z.ltb_spec (Z.abs (y - x)) (foldr (fun y m => Z.min (Z.abs (y - x)) m) max_stride l)); lia.
Qed.

Lemma in_bucket_cons key d l : in_bucket key (d :: l) = (if decide (bucket d = key) then 1 else 0) + in_bucket key l.
Proof. unfold in_bucket. rewrite filter_cons. case_decide; cbn [length]; lia. Qed.

Lemma in_bucket_nil key : in_bucket key [] = 0.
Proof. done. Qed.

Lemma in_bucket_one key d : 0 <= in_bucket key [d] <= 1.
Proof. rewrite in_bucket_cons, in_bucket_nil. destruct (decide (bucket d = key)); lia. Qed.

Lemma add_bucket (h : gmap Z Z) d key :
  0 <= word h (bucket d) < W64 - 1 ->
  word (<[bucket d := u64 (word h (bucket d) + 1)]> h) key = word h key + in_bucket key [d].
Proof.
  intros Hh. rewrite word_insert, in_bucket_cons. unfold in_bucket. cbn.
  case_decide as E; [rewrite decide_True by done; subst; rewrite u64_id by (unfold in_u64; lia); lia|].
  rewrite decide_False by done. lia.
Qed.

(** After the elements [past], the latest first. *)
Record Seen (past : list Z) (s : locality) : Prop := {
  seen_last : forall x, reuse_distance past x = (fun last => addr_id s + 1 - last) <$> last_access s !! x;
  seen_past : past_32 s = reverse (take 32 past);
  seen_range : Forall in_s63 past;
  seen_id : addr_id s = Z.of_nat (length past);
  seen_accesses : mem_accesses s = Z.of_nat (length past);
  seen_strides : 0 <= stride_access s <= Z.of_nat (length past);
  seen_t : forall key, 0 <= word (t_histogram s) key <= Z.of_nat (length past);
  seen_s : forall key, 0 <= word (s_histogram s) key <= Z.of_nat (length past)
}.

Lemma reuse_range past x d : reuse_distance past x = Some d -> 1 <= d <= Z.of_nat (length past).
Proof.
  revert d. induction past as [|y past IH]; intros d; cbn [reuse_distance length]; [done|].
  case_decide; [intros [= <-]; lia|]. destruct (reuse_distance past x) as [e|]; [|done].
  intros [= <-]. specialize (IH e eq_refl). lia.
Qed.

Lemma past_step (past : list Z) (x : Z) :
  (if decide (32 <= length past)%nat then tail (reverse (take 32 past)) else reverse (take 32 past)) ++ [x]
    = reverse (take 32 (x :: past)).
Proof.
  cbn [take]. rewrite reverse_cons. f_equal. case_decide as Hl; [|by rewrite !take_ge by lia].
  destruct (lookup_lt_is_Some_2 past 31) as [y Hy]; [lia|]. rewrite (take_S_r _ _ _ Hy), reverse_app. done.
Qed.

Lemma analyse_spec removed past r (s : locality) :
  Seen past s -> Z.of_nat (length past) < 2 ^ 40 -> in_s63 (address r) -> 0 < size r -> s64 (address r) ∉ removed ->
  let x := Z.shiftr (address r) (Z.log2 (size r)) in
  exists s', analyse removed r s = Ok s' /\ Seen (x :: past) s' /\
    (forall key, word (t_histogram s') key = word (t_histogram s) key + in_bucket key (reuses past [x])) /\
    (forall key, word (s_histogram s') key = word (s_histogram s) key + in_bucket key (strides past [x])) /\
    stride_access s' = stride_access s + Z.of_nat (length (strides past [x])).
Proof.
  intros HS Hlen Ha Hsz Hin x. pose proof HS as [Hl Hp Hr Hid Hm Hst Ht Hs]. change (2 ^ 40) with 1099511627776 in *.
  assert (in_s63 x) as Hx by (apply shiftr_s63; [done|apply Z.log2_nonneg]).
  unfold analyse. rewrite decide_False by done. destruct (Z.leb_spec (size r) 0); [lia|]. fold x.
  rewrite (u64_id (addr_id s + 1)) by (unfold in_u64, W64; lia).
  rewrite (u64_id (mem_accesses s + 1)) by (unfold in_u64, W64; lia).
  assert (Z.of_nat (length (past_32 s)) = Z.min 32 (Z.of_nat (length past))) as Hplen.
  { rewrite Hp, length_reverse, length_take. lia. }
  pose proof (past_step past x) as Hstep. rewrite <- Hp in Hstep.
  (* the histogram of reuse distances *)
  set (th := match last_access s !! x with Some _ => _ | None => _ end).
  assert (forall key, word th key = word (t_histogram s) key + in_bucket key (reuses past [x]) /\
    in_bucket key (reuses past [x]) <= 1) as Hth.
  { intros key. unfold th. cbn [reuses]. pose proof (reuse_range past x) as Hrange. rewrite Hl in Hrange |- *.
    destruct (last_access s !! x) as [last|]; cbn [fmap option_fmap option_map] in *; [|rewrite in_bucket_nil; lia].
    specialize (Hrange _ eq_refl). rewrite (u64_id (addr_id s + 1 - last)) by (unfold in_u64, W64; lia).
    replace (if max_stride <? addr_id s + 1 - last then max_stride else addr_id s + 1 - last)
      with (Z.min (addr_id s + 1 - last) max_stride) by (destruct (Z.ltb_spec max_stride (addr_id s + 1 - last)); lia).
    split; [apply add_bucket; specialize (Ht (bucket (Z.min (addr_id s + 1 - last) max_stride))); unfold W64; lia|].
    apply in_bucket_one. }
  assert (forall key, 0 <= in_bucket key (reuses past [x])) as Hth0 by (intros; unfold in_bucket; lia).
  assert (forall key, 0 <= in_bucket key (strides past [x]) <= 1) as Hsh.
  { intros key. cbn [strides]. repeat case_decide; try apply in_bucket_one; by rewrite in_bucket_nil. }
  assert (0 <= Z.of_nat (length (strides past [x])) <= 1) as Hsl by (cbn [strides]; repeat case_decide; cbn [length]; lia).
  assert (forall past' s', addr_id s' = addr_id s + 1 -> last_access s' = <[x:=addr_id s + 1]> (last_access s) -> past_32 s' = past' ++ [x] ->
    past' = (if decide (32 <= length past)%nat then tail (past_32 s) else past_32 s) ->
    mem_accesses s' = mem_accesses s + 1 -> t_histogram s' = th ->
    (forall key, word (s_histogram s') key = word (s_histogram s) key + in_bucket key (strides past [x])) ->
    stride_access s' = stride_access s + Z.of_nat (length (strides past [x])) -> Seen (x :: past) s') as Hseen.
  { intros past' s' E1 E2 E3 -> E5 E6 E7 E8. split; cbn [length]; rewrite ?E1, ?E3, ?E5, ?E6, ?E8; try lia; try done.
    - intros z. rewrite E2. cbn [reuse_distance]. destruct (decide (z = x)) as [Ez|Ez]; [rewrite Ez, lookup_insert_eq; cbn; f_equal; lia|].
      rewrite lookup_insert_ne by done. rewrite Hl. destruct (last_access s !! z); cbn; [f_equal; lia|done].
    - by constructor.
    - intros key. destruct (Hth key) as [-> ?]. specialize (Ht key). specialize (Hth0 key). lia.
    - intros key. rewrite E7. specialize (Hs key). specialize (Hsh key). lia. }
  assert ((32 <=? Z.of_nat (length (past_32 s))) = bool_decide (32 <= length past)%nat) as ->.
  { case_bool_decide; [apply Z.leb_le|apply Z.leb_gt]; lia. }
  pose proof (nearest_spec past x Hr Hx) as Hnear. rewrite <- Hp in Hnear. rewrite Hnear.
  assert (0 <= min_stride past x <= max_stride) as Hmin.
  { unfold min_stride. clear. induction (take 32 past) as [|y l IH]; cbn [foldr]; unfold max_stride in *; lia. }
  assert (0 < W64 - 1 - Z.of_nat (length past)) by (unfold W64; lia).
  case_bool_decide as Hlong; cbn [negb]; [destruct (Z.eqb_spec (min_stride past x) 0) as [Hz|Hz]|]; cbn [negb];
    eexists; (split; [reflexivity|]).
  - assert (strides past [x] = []) as Hnil by (cbn [strides]; by rewrite !decide_True).
    rewrite Hnil in *. split_and!; cbn; try lia; [|intros key; apply Hth|intros key; rewrite in_bucket_nil; lia].
    eapply (Hseen (tail (past_32 s))); cbn; try done; [by rewrite decide_True|intros key; rewrite in_bucket_nil; lia|lia].
  - assert (strides past [x] = [min_stride past x]) as Hnil by (cbn [strides]; by rewrite decide_True, decide_False).
    rewrite Hnil in *. rewrite (u64_id (stride_access s + 1)) by (unfold in_u64, W64; lia).
    assert (forall key, word (<[bucket (min_stride past x):=u64 (word (s_histogram s) (bucket (min_stride past x)) + 1)]> (s_histogram s)) key
      = word (s_histogram s) key + in_bucket key [min_stride past x]) as Hadd.
    { intros key. apply add_bucket. specialize (Hs (bucket (min_stride past x))). lia. }
    split_and!; cbn; try lia; [|intros key; apply Hth|exact Hadd].
    eapply (Hseen (tail (past_32 s))); cbn; try done. by rewrite decide_True.
  - assert (strides past [x] = []) as Hnil by (cbn [strides]; by rewrite decide_False).
    rewrite Hnil in *. split_and!; cbn; try lia; [|intros key; apply Hth|intros key; rewrite in_bucket_nil; lia].
    eapply (Hseen (past_32 s)); cbn; try done; [by rewrite decide_False|intros key; rewrite in_bucket_nil; lia|lia].
Qed.

Lemma in_bucket_app key l l' : in_bucket key (l ++ l') = in_bucket key l + in_bucket key l'.
Proof. unfold in_bucket. rewrite filter_app, length_app. lia. Qed.

Lemma reuses_cons past x xs : reuses past (x :: xs) = reuses past [x] ++ reuses (x :: past) xs.
Proof. cbn [reuses]. by destruct (reuse_distance past x). Qed.

Lemma strides_cons past x xs : strides past (x :: xs) = strides past [x] ++ strides (x :: past) xs.
Proof. cbn [strides]. by repeat case_decide. Qed.

Definition valid_request (r : request) : Prop := in_s63 (address r) /\ 0 < size r.
Definition element (r : request) : Z := Z.shiftr (address r) (Z.log2 (size r)).

Lemma analyse_all_spec removed l past (s : locality) :
  Seen past s -> Z.of_nat (length past) + Z.of_nat (length l) < 2 ^ 40 -> Forall valid_request l ->
  let xs := element <$> filter (fun r => s64 (address r) ∉ removed) l in
  exists s', analyse_all removed l s = Ok s' /\ mem_accesses s' = Z.of_nat (length past) + Z.of_nat (length xs) /\
    (forall key, word (t_histogram s') key = word (t_histogram s) key + in_bucket key (reuses past xs)) /\
    (forall key, word (s_histogram s') key = word (s_histogram s) key + in_bucket key (strides past xs)) /\
    stride_access s' = stride_access s + Z.of_nat (length (strides past xs)).
Proof.
  intros HS Hlen Hv. revert past s HS Hlen. induction Hv as [|r l [Ha Hsz] _ IH]; intros past s HS Hlen xs; cbn [analyse_all].
  { exists s. change xs with (@nil Z). cbn [reuses strides length]. rewrite (seen_accesses _ _ HS).
    split_and!; [done|lia|intros; rewrite in_bucket_nil; lia|intros; rewrite in_bucket_nil; lia|lia]. }
  cbn [length] in Hlen. unfold xs. rewrite filter_cons. case_decide as Hin.
  - destruct (analyse_spec removed past r s HS ltac:(lia) Ha Hsz Hin) as (s1 & -> & HS1 & Ht1 & Hs1 & Hn1).
    destruct (IH _ s1 HS1) as (s' & Hs' & Hm & Ht & Hst & Hn); [cbn [length]; lia|]. exists s'.
    rewrite fmap_cons. cbn [length]. change (Z.shiftr (address r) (Z.log2 (size r))) with (element r) in *. split_and!; [done|cbn [length] in Hm; lia| | |].
    + intros key. rewrite Ht, Ht1, (reuses_cons past (element r) (element <$> _)), in_bucket_app. lia.
    + intros key. rewrite Hst, Hs1, (strides_cons past (element r) (element <$> _)), in_bucket_app. lia.
    + rewrite Hn, Hn1, (strides_cons past (element r) (element <$> _)), length_app. lia.
  - unfold analyse. rewrite decide_True by done. apply IH; [done|lia].
Qed.

(** ** Recording *)

Definition occurrences (key : Z) (l : list request) : Z := Z.of_nat (length (filter (fun r => s64 (address r) = key) l)).

Record Recorded (s : locality) : Prop := {
  rec_counter : counter s = Z.of_nat (length (requests s));
  rec_bound : counter s <= max_instructions;
  rec_counts : forall key, verify_to_remove_address s !! key =
    if decide (occurrences key (requests s) = 0) then None else Some (occurrences key (requests s));
  rec_seen : Seen [] s
}.

Lemma occurrences_snoc key l r : occurrences key (l ++ [r]) = occurrences key l + (if decide (s64 (address r) = key) then 1 else 0).
Proof.
  unfold occurrences. rewrite filter_app, length_app. destruct (decide (s64 (address r) = key));
    [rewrite filter_cons_True by done|rewrite filter_cons_False by done]; rewrite filter_nil; cbn [length]; lia.
Qed.

Lemma push_recorded a sz s : Recorded s -> Recorded (push_address a sz s).
Proof.
  intros [Hc Hb Hv HS]. unfold push_address. destruct (Z.leb_spec max_instructions (counter s)); [done|].
  split; cbn.
  - rewrite length_app. cbn. lia.
  - lia.
  - intros key. rewrite occurrences_snoc. cbn [address]. destruct (decide (s64 a = key)) as [<-|Hne].
    + rewrite lookup_insert_eq, Hv. assert (0 <= occurrences (s64 a) (requests s)) by (unfold occurrences; lia).
      case_decide; rewrite decide_False by lia; f_equal; lia.
    + rewrite lookup_insert_ne by done. by rewrite Z.add_0_r.
  - by destruct HS.
Qed.

Lemma push_all_spec l s :
  Recorded s -> Recorded (push_all l s) /\ requests (push_all l s) = requests s ++ first (max_instructions - counter s) l /\
  t_histogram (push_all l s) = t_histogram s /\ s_histogram (push_all l s) = s_histogram s /\
  stride_access (push_all l s) = stride_access s.
Proof.
  revert s. induction l as [|[a sz] l IH]; intros s HR; cbn [push_all fold_left first]; [by rewrite app_nil_r|].
  cbn [address size]. fold (push_all l (push_address a sz s)). destruct (IH _ (push_recorded a sz s HR)) as (H1 & H2 & H3 & H4 & H5).
  split; [done|]. rewrite H2, H3, H4, H5. unfold push_address.
  destruct (Z.leb_spec max_instructions (counter s)) as [Hle|Hlt]; cbn.
  - destruct (Z.leb_spec (max_instructions - counter s) 0); [|lia]. split_and!; try done. f_equal.
    destruct l; [done|]. cbn. destruct (Z.leb_spec (max_instructions - counter s) 0); [done|lia].
  - destruct (Z.leb_spec (max_instructions - counter s) 0); [lia|]. split_and!; try done.
    rewrite <- app_assoc. cbn. do 3 f_equal. lia.
Qed.

Lemma init_histogram key : word (t_histogram locality_init) key = 0.
Proof.
  unfold word, locality_init. cbn [t_histogram].
  destruct (list_to_map _ !! key) as [v|] eqn:Hv; [|done]. apply elem_of_list_to_map_2, list_elem_of_fmap in Hv as (i & [= -> ->] & _). done.
Qed.

Lemma init_recorded : Recorded locality_init.
Proof.
  split; [done|done|done|]. split; try done; intros key.
  - rewrite init_histogram. cbn. lia.
  - change (s_histogram locality_init) with (t_histogram locality_init). rewrite init_histogram. cbn. lia.
Qed.

Lemma removed_spec s key : Recorded s -> key ∈ to_remove s <-> 2 ^ 20 < occurrences key (requests s).
Proof.
  intros HR. unfold to_remove. rewrite elem_of_dom. assert (0 <= occurrences key (requests s)) as H0 by (unfold occurrences; lia).
  split.
  - intros [n [Hn Hlog]%map_lookup_filter_Some]. cbn in Hlog. rewrite (rec_counts _ HR) in Hn. case_decide; [done|]. injection Hn as <-.
    apply Z.lt_nge. rewrite Z.log2_up_le_pow2 by lia. lia.
  - intros Hlt. exists (occurrences key (requests s)). apply map_lookup_filter_Some. split.
    + rewrite (rec_counts _ HR), decide_False by lia. done.
    + cbn. apply Z.lt_nge in Hlt. rewrite Z.log2_up_le_pow2 in Hlt by lia. lia.
Qed.

Lemma filter_agree {A} (P Q : A -> Prop) `{!forall x, Decision (P x), !forall x, Decision (Q x)} (l : list A) :
  (forall x, x ∈ l -> P x <-> Q x) -> filter P l = filter Q l.
Proof.
  induction l as [|x l IH]; intros Hpq; [done|]. rewrite !filter_cons, IH by set_solver. specialize (Hpq x ltac:(set_solver)).
  by rewrite (decide_ext _ _ _ _ Hpq).
Qed.

Lemma times_occurrences a l : in_s63 a -> Forall valid_request l -> occurrences (s64 a) l = times a l.
Proof.
  intros Ha Hl. unfold occurrences, times. do 2 f_equal. apply filter_agree. intros r Hr.
  rewrite Forall_forall in Hl. destruct (Hl r Hr) as [Hra _]. unfold in_s63 in *.
  rewrite !s64_id by (change (W64 / 2) with 9223372036854775808 in *; lia). done.
Qed.

Lemma first_elem {A} n (l : list A) x : x ∈ first n l -> x ∈ l.
Proof.
  revert n. induction l as [|y l IH]; intros n; cbn [first]; [done|]. destruct (n <=? 0); [by intros ?%not_elem_of_nil|].
  rewrite !elem_of_cons. intros [->|Hx]; [by left|right; eauto].
Qed.

Lemma length_first {A} n (l : list A) : 0 <= n -> Z.of_nat (length (first n l)) <= n.
Proof.
  revert n. induction l as [|y l IH]; intros n Hn; cbn [first length]; [lia|].
  destruct (Z.leb_spec n 0); cbn [length]; [lia|]. specialize (IH (n - 1) ltac:(lia)). lia.
Qed.

(** The two histograms, and the counts of accesses and strides. *)
Lemma monitor_spec l :
  Forall valid_request l ->
  let xs := stream (first max_instructions l) in
  exists s, monitor l = Ok s /\ mem_accesses s = Z.of_nat (length xs) /\
    stride_access s = Z.of_nat (length (strides [] xs)) /\
    (forall key, word (t_histogram s) key = in_bucket key (reuses [] xs)) /\
    (forall key, word (s_histogram s) key = in_bucket key (strides [] xs)).
Proof.
  intros Hl xs. destruct (push_all_spec l locality_init init_recorded) as (HR & Hreq & Ht & Hs & Hn).
  set (s0 := push_all l locality_init) in *. cbn in Hreq, Hn. rewrite Z.sub_0_r in Hreq.
  assert (Forall valid_request (requests s0)) as Hv.
  { rewrite Hreq. rewrite Forall_forall in Hl |- *. intros r Hr%first_elem. by apply Hl. }
  assert (Seen [] (clear_counts s0)) as HS by (by destruct (rec_seen _ HR)).
  pose proof (length_first max_instructions l ltac:(done)) as Hlen. rewrite <- Hreq in Hlen.
  destruct (analyse_all_spec (to_remove s0) (requests s0) [] _ HS) as (s & Hrun & Hm & Hth & Hsh & Hst);
    [cbn [length]; unfold max_instructions in *; lia|done|].
  assert (element <$> filter (fun r => s64 (address r) ∉ to_remove s0) (requests s0) = xs) as Hxs.
  { unfold xs, stream. rewrite <- Hreq. unfold element. f_equal. apply filter_agree. intros r Hr.
    rewrite Forall_forall in Hv. rewrite removed_spec by done. rewrite times_occurrences by (by apply Forall_forall || by apply Hv).
    split; lia. }
  rewrite Hxs in *. exists s. cbn [clear_counts t_histogram s_histogram stride_access] in *. split_and!; [done|done| | |].
  - rewrite Hst, Hn. done.
  - intros key. rewrite Hth, Ht, init_histogram. done.
  - intros key. rewrite Hsh, Hs. change (s_histogram locality_init) with (t_histogram locality_init). by rewrite init_histogram.
Qed.

(** C16: The monitor measures locality.  Over every sequence of accesses with user
    addresses, [calculate_locality] returns, and its two histograms count what the
    reference counts: for each element that was accessed before, the number of
    accesses since then; for each access after the first 32, the least stride to
    one of the last 32, unless it is 0; both cut at 2^20, in buckets of powers of
    two.  The accesses are the first 200 million, less the addresses that occur
    more than 2^20 times. *)
Theorem locality_exact l :
  Forall valid_request l ->
  let xs := stream (first max_instructions l) in
  exists s, monitor l = Ok s /\ mem_accesses s = Z.of_nat (length xs) /\
    stride_access s = Z.of_nat (length (strides [] xs)) /\
    (forall key, word (t_histogram s) key = in_bucket key (reuses [] xs)) /\
    (forall key, word (s_histogram s) key = in_bucket key (strides [] xs)).
Proof. apply monitor_spec. Qed.

(** ** Scores *)

Definition Qsum {A} (f : A -> Q) (l : list A) : Q := foldr (fun x acc => f x + acc)%Q 0%Q l.

Lemma Qsum_ext {A} (f g : A -> Q) l : (forall x, x ∈ l -> f x == g x)%Q -> (Qsum f l == Qsum g l)%Q.
Proof.
  induction l as [|x l IH]; intros H; cbn [Qsum foldr]; [reflexivity|]. fold (Qsum f l) (Qsum g l).
  rewrite (H x), IH; [reflexivity| |]; set_solver.
Qed.

Lemma Qsum_plus {A} (f g : A -> Q) l : (Qsum (fun x => f x + g x) l == Qsum f l + Qsum g l)%Q.
Proof.
  induction l as [|x l IH]; cbn [Qsum foldr]; [reflexivity|]. fold (Qsum f l) (Qsum g l) (Qsum (fun x => f x + g x)%Q l).
  rewrite IH. ring.
Qed.

Lemma Qsum_zero {A} (l : list A) : (Qsum (fun _ => 0) l == 0)%Q.
Proof. induction l as [|x l IH]; cbn [Qsum foldr]; [reflexivity|]. fold (Qsum (fun _ : A => 0%Q) l). rewrite IH. ring. Qed.

Lemma Qsum_scale {A} (f : A -> Q) q l : (Qsum (fun x => f x * q) l == Qsum f l * q)%Q.
Proof.
  induction l as [|x l IH]; cbn [Qsum foldr]; [ring|]. fold (Qsum f l) (Qsum (fun x => f x * q)%Q l). rewrite IH. ring.
Qed.

Lemma Qsum_le {A} (f : A -> Q) b l : (forall x, x ∈ l -> 0 <= f x <= b)%Q -> (0 <= Qsum f l <= inject_Z (Z.of_nat (length l)) * b)%Q.
Proof.
  induction l as [|x l IH]; intros H; cbn [Qsum foldr length]; [change (inject_Z (Z.of_nat 0)) with 0%Q; lra|]. fold (Qsum f l).
  rewrite Nat2Z.inj_succ, <- Z.add_1_l, inject_Z_plus. change (inject_Z 1) with 1%Q.
  pose proof (H x ltac:(set_solver)). specialize (IH ltac:(set_solver)). lra.
Qed.

Lemma Qsum_single (l : list Z) k (w : Z -> Q) : NoDup l -> k ∈ l -> (Qsum (fun i => if decide (k = i) then w i else 0) l == w k)%Q.
Proof.
  induction 1 as [|i l Hi Hl IH]; [by intros ?%not_elem_of_nil|]. intros Hk. cbn [Qsum foldr].
  fold (Qsum (fun i => if decide (k = i) then w i else 0%Q) l). case_decide as E.
  - subst i. rewrite (Qsum_ext _ (fun _ => 0%Q)), Qsum_zero; [ring|]. intros x Hx. rewrite decide_False; [reflexivity|]. congruence.
  - rewrite IH by (apply elem_of_cons in Hk as [?|?]; [done|done]). ring.
Qed.

(** A sum over the buckets of a histogram is a sum over what it counts. *)
Lemma sum_buckets (L : list Z) (w : Z -> Q) :
  Forall (fun d => 1 <= d <= max_stride) L ->
  (Qsum (fun i => inject_Z (in_bucket (2 ^ i) L) * w i) (seqZ 0 21) == Qsum (fun d => w (Z.log2_up d)) L)%Q.
Proof.
  induction 1 as [|d L Hd _ IH].
  - rewrite (Qsum_ext _ (fun _ => 0%Q)), Qsum_zero; [reflexivity|]. intros i _. rewrite in_bucket_nil. change (inject_Z 0) with 0%Q. ring.
  - cbn [Qsum foldr]. fold (Qsum (fun d => w (Z.log2_up d)) L). rewrite <- IH.
    assert (0 <= Z.log2_up d < 21) as Hk.
    { split; [apply Z.log2_up_nonneg|]. change max_stride with (2 ^ 20) in Hd. enough (Z.log2_up d <= 20) by lia. apply Z.log2_up_le_pow2; lia. }
    rewrite <- (Qsum_single (seqZ 0 21) (Z.log2_up d) w) by (apply NoDup_seqZ || apply elem_of_seqZ; lia).
    rewrite <- Qsum_plus. apply Qsum_ext. intros i Hi%elem_of_seqZ. rewrite in_bucket_cons, inject_Z_plus. unfold bucket.
    destruct (decide (Z.log2_up d = i)) as [->|Hne]; [rewrite decide_True by done; change (inject_Z 1) with 1%Q; ring|].
    rewrite decide_False; [change (inject_Z 0) with 0%Q; ring|]. intros E%Z.pow_inj_r; [done|lia|lia|lia].
Qed.

Lemma fold_sum {A} (f : A -> Q) l q : (fold_left (fun score i => score + f i) l q == q + Qsum f l)%Q.
Proof.
  revert q. induction l as [|x l IH]; intros q; cbn [fold_left Qsum foldr]; [ring|]. fold (Qsum f l). rewrite IH. ring.
Qed.

Lemma reuses_range past xs : Forall (fun d => 1 <= d <= max_stride) (reuses past xs).
Proof.
  revert past. induction xs as [|x xs IH]; intros past; cbn [reuses]; [constructor|].
  destruct (reuse_distance past x) as [d|] eqn:Hd; [|done]. constructor; [|done].
  apply reuse_range in Hd. unfold max_stride. lia.
Qed.

Lemma strides_range past xs : Forall (fun d => 1 <= d <= max_stride) (strides past xs).
Proof.
  revert past. induction xs as [|x xs IH]; intros past; cbn [strides]; [constructor|].
  repeat case_decide; try done. constructor; [|done].
  assert (0 <= min_stride past x <= max_stride); [|lia].
  unfold min_stride. clear. induction (take 32 past) as [|y l IH]; cbn [foldr]; unfold max_stride in *; lia.
Qed.

Definition scores (s : locality) : Q * Q := (spatial_locality_score s, temporal_locality_score s).

Lemma analyse_all_scores removed l s s' : analyse_all removed l s = Ok s' -> scores s' = scores s.
Proof.
  revert s. induction l as [|r l IH]; intros s; cbn [analyse_all]; [by intros [= ->]|].
  destruct (analyse removed r s) as [s1|] eqn:Hr; [|done]. intros ->%IH. revert Hr. unfold analyse.
  case_decide; [by intros [= ->]|]. destruct (size r <=? 0); [done|].
  destruct (32 <=? _); [destruct (negb _)|]; by intros [= <-].
Qed.

Lemma push_all_scores l s : scores (push_all l s) = scores s.
Proof.
  revert s. induction l as [|r l IH]; intros s; [done|]. cbn [push_all fold_left]. unfold push_all in IH. rewrite IH.
  unfold push_address. by destruct (max_instructions <=? counter s).
Qed.

Lemma monitor_scores l s : monitor l = Ok s -> scores s = (0%Q, 0%Q).
Proof. intros Hs%analyse_all_scores. rewrite Hs. apply (push_all_scores l locality_init). Qed.

(** The weights of a reuse at distance [d] and of a stride [d]. *)
Definition reuse_weight (d : Z) : Q := (inject_Z (21 - Z.log2_up d) / 21)%Q.
Definition stride_weight (d : Z) : Q := (1 / inject_Z (bucket d))%Q.

(** The mean over a histogram is the mean over what it counts. *)
Lemma histogram_mean (h : gmap Z Z) L (n : Z) (w : Z -> Q) :
  (forall key, word h key = in_bucket key L) -> Forall (fun d => 1 <= d <= max_stride) L ->
  (fold_left (fun score i => score + inject_Z (word h (2 ^ i)) / inject_Z n * w i) (seqZ 0 21) 0
    == Qsum (fun d => w (Z.log2_up d)) L / inject_Z n)%Q.
Proof.
  intros Hh HL. rewrite fold_sum, <- sum_buckets by done. unfold Qdiv. rewrite <- Qsum_scale.
  rewrite Qplus_0_l. apply Qsum_ext. intros i _. rewrite Hh. ring.
Qed.

Lemma Qsum_bounds {A} (f : A -> Q) l (n : Z) :
  (forall x, x ∈ l -> 0 <= f x <= 1)%Q -> Z.of_nat (length l) <= n -> (0 <= Qsum f l / inject_Z n <= 1)%Q.
Proof.
  intros Hf Hn. destruct (Qsum_le f 1%Q l Hf) as [H0 H1]. rewrite Qmult_1_r in H1.
  destruct (Z.eq_dec n 0) as [->|Hne]; [change (inject_Z 0) with 0%Q; unfold Qdiv; change (/ 0)%Q with 0%Q; lra|].
  assert (0 < inject_Z n)%Q by (change 0%Q with (inject_Z 0); rewrite <- Zlt_Qlt; lia).
  split; [apply Qle_shift_div_l; lra|]. apply Qle_shift_div_r; [done|]. rewrite Qmult_1_l.
  eapply Qle_trans; [exact H1|]. by rewrite <- Zle_Qle.
Qed.

Lemma reuses_length past xs : (length (reuses past xs) <= length xs)%nat.
Proof.
  revert past. induction xs as [|x xs IH]; intros past; cbn [reuses length]; [done|].
  destruct (reuse_distance past x); cbn [length]; specialize (IH (x :: past)); lia.
Qed.

Lemma log2_up_range d : 1 <= d <= max_stride -> 0 <= Z.log2_up d <= 20.
Proof. intros Hd. split; [apply Z.log2_up_nonneg|]. change max_stride with (2 ^ 20) in Hd. apply Z.log2_up_le_pow2; lia. Qed.

Lemma reuse_weight_range d : 1 <= d <= max_stride -> (0 <= reuse_weight d <= 1)%Q.
Proof.
  intros Hd%log2_up_range. unfold reuse_weight.
  assert (0 <= inject_Z (21 - Z.log2_up d) <= 21)%Q.
  { change 0%Q with (inject_Z 0). change 21%Q with (inject_Z 21). rewrite <- !Zle_Qle. lia. }
  split; [apply Qle_shift_div_l|apply Qle_shift_div_r]; lra.
Qed.

Lemma stride_weight_range d : 1 <= d <= max_stride -> (0 <= stride_weight d <= 1)%Q.
Proof.
  intros Hd%log2_up_range. unfold stride_weight, bucket. pose proof (Z.pow_pos_nonneg 2 (Z.log2_up d) ltac:(lia) ltac:(lia)).
  assert (1 <= inject_Z (2 ^ Z.log2_up d))%Q by (change 1%Q with (inject_Z 1); rewrite <- Zle_Qle; lia).
  split; [apply Qle_shift_div_l|apply Qle_shift_div_r]; lra.
Qed.

Lemma means_spec l :
  Forall valid_request l ->
  let xs := stream (first max_instructions l) in let rs := reuses [] xs in let ds := strides [] xs in
  exists s, monitor l = Ok s /\
    ((get_temporal_locality s).1 == Qsum reuse_weight rs / inject_Z (Z.of_nat (length xs)))%Q /\
    ((get_spatial_locality s).1 == Qsum stride_weight ds / inject_Z (Z.of_nat (length ds)))%Q /\
    (0 <= (get_temporal_locality s).1 <= 1)%Q /\ (0 <= (get_spatial_locality s).1 <= 1)%Q.
Proof.
  intros Hl xs rs ds. destruct (monitor_spec l Hl) as (s & Hs & Hm & Hn & Ht & Hsp).
  fold xs rs ds in Hm, Hn, Ht, Hsp. exists s. split; [done|]. pose proof (monitor_scores l s Hs) as [= Hsc Htc].
  assert ((get_temporal_locality s).1 == Qsum reuse_weight rs / inject_Z (Z.of_nat (length xs)))%Q as Etemp.
  { unfold get_temporal_locality. cbn [fst]. rewrite Htc, <- Hm. destruct (Z.eqb_spec (mem_accesses s) 0) as [E|E].
    - rewrite E. change (inject_Z 0) with 0%Q. unfold Qdiv. change (/ 0)%Q with 0%Q. ring.
    - rewrite <- (histogram_mean (t_histogram s) rs (mem_accesses s) (fun i => inject_Z (21 - i) / 21)%Q) by
        (done || apply reuses_range). rewrite !fold_sum. apply Qplus_comp; [reflexivity|]. apply Qsum_ext. intros i _. field.
      intros E0. apply E. by apply (inject_Z_injective _ 0). }
  assert ((get_spatial_locality s).1 == Qsum stride_weight ds / inject_Z (Z.of_nat (length ds)))%Q as Espat.
  { unfold get_spatial_locality. rewrite <- Hn. destruct (Z.eqb_spec (stride_access s) 0) as [E|E]; cbn [fst].
    - rewrite E. change (inject_Z 0) with 0%Q. unfold Qdiv. change (/ 0)%Q with 0%Q. ring.
    - rewrite Hsc, <- (histogram_mean (s_histogram s) ds (stride_access s) (fun i => 1 / inject_Z (2 ^ i))%Q) by
        (done || apply strides_range). rewrite !fold_sum. apply Qplus_comp; [reflexivity|]. apply Qsum_ext. intros i _.
      unfold Qdiv. ring. }
  split; [done|]. split; [done|]. rewrite Etemp, Espat. split; apply Qsum_bounds.
  - intros d Hd. apply reuse_weight_range. pose proof (reuses_range [] xs) as Hr. rewrite Forall_forall in Hr. by apply Hr.
  - pose proof (reuses_length [] xs). unfold rs. lia.
  - intros d Hd. apply stride_weight_range. pose proof (strides_range [] xs) as Hr. rewrite Forall_forall in Hr. by apply Hr.
  - lia.
Qed.

(** C17: The scores are averages.  After a run, the temporal score is the mean over
    all accesses of (21 - ceil(log2 d)) / 21 for a reuse at distance d, and 0 for
    a first use; the spatial score is the mean of 1 / 2^ceil(log2 d) over the strides
    d that count.  Without accesses or strides they are 0; both lie between 0 and 1. *)
Theorem scores_are_means l :
  Forall valid_request l ->
  let xs := stream (first max_instructions l) in let rs := reuses [] xs in let ds := strides [] xs in
  exists s, monitor l = Ok s /\
    ((get_temporal_locality s).1 == Qsum reuse_weight rs / inject_Z (Z.of_nat (length xs)))%Q /\
    ((get_spatial_locality s).1 == Qsum stride_weight ds / inject_Z (Z.of_nat (length ds)))%Q /\
    (0 <= (get_temporal_locality s).1 <= 1)%Q /\ (0 <= (get_spatial_locality s).1 <= 1)%Q.
Proof. apply means_spec. Qed.

(** ** The two extremes *)

Lemma reuse_none past x : x ∉ past -> reuse_distance past x = None.
Proof.
  induction past as [|y past IH]; intros Hx; cbn [reuse_distance]; [done|].
  rewrite decide_False by set_solver. by rewrite IH by set_solver.
Qed.

(** [past] ends just before [a]. *)
Definition ends_before (a : Z) (past : list Z) : Prop :=
  (forall y, y ∈ past -> y < a) /\ (past = [] \/ exists rest, past = a - 1 :: rest).

Lemma ends_next a past : ends_before a past -> ends_before (Z.succ a) (a :: past).
Proof.
  intros [Hlt _]. split; [intros y [->|Hy]%elem_of_cons; [lia|specialize (Hlt y Hy); lia]|]. right. exists past. f_equal. lia.
Qed.

Lemma stride_one a past : ends_before a past -> (32 <= length past)%nat -> min_stride past a = 1.
Proof.
  intros [Hlt [->|[rest ->]]] Hlen; [cbn in Hlen; lia|]. unfold min_stride. cbn [take foldr].
  assert (1 <= foldr (fun y m => Z.min (Z.abs (y - a)) m) max_stride (take 31 rest)); [|lia].
  assert (forall y, y ∈ take 31 rest -> y < a) as Hl by (intros y (i & Hi & _)%elem_of_take; apply Hlt, list_elem_of_further, (list_elem_of_lookup_2 _ i); done).
  clear - Hl. induction (take 31 rest) as [|y l IH]; cbn [foldr]; [unfold max_stride; lia|].
  pose proof (Hl y ltac:(set_solver)). specialize (IH ltac:(set_solver)). lia.
Qed.

Lemma consecutive_spec k a past :
  ends_before a past -> reuses past (seqZ a (Z.of_nat k)) = [] /\ Forall (fun d => d = 1) (strides past (seqZ a (Z.of_nat k))) /\
  Z.min (Z.of_nat k) (Z.of_nat (length past) + Z.of_nat k - 32) <= Z.of_nat (length (strides past (seqZ a (Z.of_nat k)))).
Proof.
  revert a past. induction k as [|k IH]; intros a past Hends.
  { rewrite seqZ_nil by done. cbn [reuses strides length]. split_and!; [done|constructor|lia]. }
  rewrite Nat2Z.inj_succ, seqZ_cons, Z.pred_succ by lia. cbn [reuses strides].
  destruct (IH _ _ (ends_next a past Hends)) as (Hr & Hs & Hl). cbn [length] in Hl. rewrite reuse_none.
  2:{ intros Hin. destruct Hends as [Hlt _]. specialize (Hlt a Hin). lia. }
  split; [done|]. case_decide as Hlen; [|split; [done|lia]].
  rewrite (stride_one a past) by done. rewrite decide_False by done. cbn [length]. split; [by constructor|lia].
Qed.

Lemma repeated_spec k x past :
  (forall y, y ∈ past -> y = x) ->
  strides past (replicate k x) = [] /\ Forall (fun d => d = 1) (reuses past (replicate k x)) /\
  Z.of_nat (length (reuses past (replicate k x))) = (if decide (past = []) then Z.max 0 (Z.of_nat k - 1) else Z.of_nat k).
Proof.
  revert past. induction k as [|k IH]; intros past Hp; cbn [replicate reuses strides].
  { split_and!; [done|constructor|]. case_decide; done. }
  destruct (IH (x :: past)) as (Hs & Hr & Hl); [set_solver|]. rewrite decide_False in Hl by done.
  destruct past as [|y past]; cbn [reuse_distance].
  - destruct (decide (32 <= length (@nil Z))%nat) as [E|_]; [cbn in E; lia|]. destruct (decide (@nil Z = [])); [|done].
    split_and!; [done|done|lia].
  - assert (y = x) as -> by set_solver. destruct (decide (x = x)) as [_|]; [|done]. cbn [length]. split; [|split; [by constructor|]].
    + destruct (decide (32 <= S (length past))%nat); [|done]. rewrite decide_True; [done|].
      unfold min_stride. cbn [take foldr]. clear. assert (0 <= foldr (fun y m => Z.min (Z.abs (y - x)) m) max_stride (take 31 past)); [|lia].
      induction (take 31 past) as [|y l IH]; cbn [foldr]; unfold max_stride in *; lia.
    + rewrite decide_False by done. lia.
Qed.

Lemma Qsum_const (f : Z -> Q) c q l : (f c == q)%Q -> Forall (fun d => d = c) l -> (Qsum f l == inject_Z (Z.of_nat (length l)) * q)%Q.
Proof.
  intros Hq. induction 1 as [|d l -> _ IH]; cbn [Qsum foldr length]; [change (inject_Z (Z.of_nat 0)) with 0%Q; ring|].
  fold (Qsum f l). rewrite IH, Hq, Nat2Z.inj_succ, <- Z.add_1_l, inject_Z_plus. change (inject_Z 1) with 1%Q. ring.
Qed.

Definition streaming (a k : Z) (n : nat) : list request := (fun i => mkRequest (i * 2 ^ k) (2 ^ k)) <$> seqZ a (Z.of_nat n).
Definition repeated (a sz : Z) (n : nat) : list request := replicate n (mkRequest a sz).

Lemma first_all {A} n (l : list A) : Z.of_nat (length l) <= n -> first n l = l.
Proof.
  revert n. induction l as [|x l IH]; intros n Hn; cbn [first length] in *; [done|].
  destruct (Z.leb_spec n 0); [lia|]. rewrite IH; [done|lia].
Qed.

Lemma times_le_length a l : times a l <= Z.of_nat (length l).
Proof. unfold times. pose proof (length_filter (fun r => address r = a) l). lia. Qed.

Lemma times_distinct a l : NoDup (address <$> l) -> times a l <= 1.
Proof.
  unfold times. induction l as [|r l IH]; [done|]. rewrite fmap_cons, NoDup_cons. intros [Hnin Hl]. specialize (IH Hl).
  destruct (decide (address r = a)) as [E|E]; [rewrite filter_cons_True by done|by rewrite filter_cons_False by done].
  destruct (filter (fun r => address r = a) l) as [|x l'] eqn:Hf; [done|]. exfalso.
  assert (x ∈ filter (fun r => address r = a) l) as [Ex Hx]%list_elem_of_filter by (rewrite Hf; set_solver).
  apply Hnin. rewrite E, <- Ex. by apply list_elem_of_fmap_2.
Qed.

Lemma stream_all l : Z.of_nat (length l) <= max_instructions -> (forall a, times a l <= 2 ^ 20) ->
  stream (first max_instructions l) = element <$> l.
Proof.
  intros Hlen Ht. rewrite first_all by done. unfold stream. rewrite (filter_agree _ (fun _ => True)) by (intros; split; done || intros _; apply Ht).
  f_equal. clear. induction l as [|r l IH]; [done|]. rewrite filter_cons_True by done. by rewrite IH.
Qed.

(** The scores tell streaming from reuse.  A run over consecutive elements of
    size 2^k scores spatial locality 1 and temporal locality 0; a run of n accesses
    to one element scores temporal locality (n - 1) / n and spatial locality 0. *)
Theorem locality_extremes :
  (forall a k n, 0 <= a -> 0 <= k -> (a + Z.of_nat n) * 2 ^ k < W64 / 2 -> 32 < Z.of_nat n <= max_instructions ->
    exists s, monitor (streaming a k n) = Ok s /\
      ((get_spatial_locality s).1 == 1)%Q /\ ((get_temporal_locality s).1 == 0)%Q) /\
  (forall a sz n, in_s63 a -> 0 < sz -> 1 <= Z.of_nat n <= 2 ^ 20 ->
    exists s, monitor (repeated a sz n) = Ok s /\
      ((get_spatial_locality s).1 == 0)%Q /\
      ((get_temporal_locality s).1 == inject_Z (Z.of_nat n - 1) / inject_Z (Z.of_nat n))%Q).
Proof.
  split.
  - intros a k n Ha Hk Hb Hn. 
    assert (Forall valid_request (streaming a k n)) as Hv.
    { unfold streaming. apply Forall_fmap, Forall_forall. intros i Hi%elem_of_seqZ. pose proof (Z.pow_pos_nonneg 2 k ltac:(lia) Hk).
      split; cbn; unfold in_s63; nia. }
    assert (stream (first max_instructions (streaming a k n)) = seqZ a (Z.of_nat n)) as Hxs.
    { rewrite stream_all.
      - unfold streaming. rewrite <- list_fmap_compose. trans (id <$> seqZ a (Z.of_nat n)); [|apply list_fmap_id]. apply list_fmap_ext. intros _ i _. unfold element. cbn.
        rewrite Z.log2_pow2, <- Z.shiftl_mul_pow2, Z.shiftr_shiftl_l, Z.sub_diag by done. apply Z.shiftl_0_r.
      - unfold streaming. rewrite length_fmap, length_seqZ. lia.
      - intros b. etrans; [apply times_distinct|done]. unfold streaming. rewrite <- list_fmap_compose. apply NoDup_fmap_2, NoDup_seqZ.
        intros i j E. cbn in E. pose proof (Z.pow_pos_nonneg 2 k ltac:(lia) Hk). nia. }
    destruct (means_spec _ Hv) as (s & Hs & Et & Es & _). rewrite Hxs in Et, Es. exists s. split; [done|]. rewrite Et, Es.
    destruct (consecutive_spec n a []) as (-> & Hone & Hlen); [split; [by intros ? ?%not_elem_of_nil|by left]|].
    cbn [length] in Hlen. split.
    + rewrite (Qsum_const _ 1 1%Q) by (done || reflexivity). field. intros E. 
      apply (inject_Z_injective (Z.of_nat (length (strides [] (seqZ a (Z.of_nat n))))) 0) in E. lia.
    + unfold Qdiv. cbn [Qsum foldr]. ring.
  - intros a sz n Ha Hsz Hn. assert (Forall valid_request (repeated a sz n)) as Hv by by apply Forall_replicate.
    assert (stream (first max_instructions (repeated a sz n)) = replicate n (Z.shiftr a (Z.log2 sz))) as Hxs.
    { rewrite stream_all; unfold repeated.
      - by rewrite fmap_replicate.
      - rewrite length_replicate. unfold max_instructions. lia.
      - intros b. etrans; [apply times_le_length|]. rewrite length_replicate. lia. }
    destruct (means_spec _ Hv) as (s & Hs & Et & Es & _). rewrite Hxs in Et, Es. exists s. split; [done|]. rewrite Et, Es.
    destruct (repeated_spec n (Z.shiftr a (Z.log2 sz)) []) as (-> & Hone & Hlen); [by intros ? ?%not_elem_of_nil|].
    rewrite decide_True in Hlen by done. split; [unfold Qdiv; cbn [Qsum foldr]; ring|].
    rewrite (Qsum_const _ 1 1%Q) by (done || reflexivity). rewrite Hlen, length_replicate, Z.max_r by lia. unfold Qdiv. ring.
Qed.

(** ** A run *)

(** Forty elements of an array, and then one of them five times. *)
Definition small_run : list request := streaming 100 3 40 ++ repeated 808 8 5.

Lemma small_run_valid : Forall valid_request small_run.
Proof. unfold small_run. apply Forall_app. split; by repeat (constructor; [split; by vm_compute|]). Qed.

Example small_run_scores :
  match monitor small_run with
  | Ok s => Some (Qred (get_temporal_locality s).1, Qred (get_spatial_locality s).1)
  | Err _ => None
  end = Some (11 # 105, 65 # 72)%Q.
Proof. by vm_compute. Qed.

Lemma locality_exact_witness :
  Forall valid_request small_run /\
  exists s, monitor small_run = Ok s /\ mem_accesses s = Z.of_nat (length (stream (first max_instructions small_run))) /\
    stride_access s = Z.of_nat (length (strides [] (stream (first max_instructions small_run)))) /\
    (forall key, word (t_histogram s) key = in_bucket key (reuses [] (stream (first max_instructions small_run)))) /\
    (forall key, word (s_histogram s) key = in_bucket key (strides [] (stream (first max_instructions small_run)))).
Proof. split; [apply small_run_valid|]. apply (locality_exact small_run), small_run_valid. Defined.

Lemma scores_are_means_witness :
  exists s, monitor small_run = Ok s /\
    ((get_temporal_locality s).1 == Qsum reuse_weight (reuses [] (stream (first max_instructions small_run))) /
      inject_Z (Z.of_nat (length (stream (first max_instructions small_run)))))%Q /\
    ((get_spatial_locality s).1 == Qsum stride_weight (strides [] (stream (first max_instructions small_run))) /
      inject_Z (Z.of_nat (length (strides [] (stream (first max_instructions small_run))))))%Q /\
    (0 <= (get_temporal_locality s).1 <= 1)%Q /\ (0 <= (get_spatial_locality s).1 <= 1)%Q.
Proof. apply (scores_are_means small_run), small_run_valid. Defined.

Lemma locality_extremes_witness :
  (exists s, monitor (streaming 100 3 40) = Ok s /\
    ((get_spatial_locality s).1 == 1)%Q /\ ((get_temporal_locality s).1 == 0)%Q) /\
  (exists s, monitor (repeated 808 8 5) = Ok s /\
    ((get_spatial_locality s).1 == 0)%Q /\ ((get_temporal_locality s).1 == 4 # 5)%Q).
Proof.
  split.
  - apply (proj1 locality_extremes 100 3 40%nat); [lia|lia|by vm_compute|by vm_compute].
  - apply (proj2 locality_extremes 808 8 5%nat); [by vm_compute|lia|by vm_compute].
Defined.
