(* ===== verification/OooWindow.v ===== *)
(** * The instruction window of the out-of-order core (ooo_core.h)

    [WindowStructure] keeps, for each future cycle, which execution ports are
    taken.  The next cycles are in two arrays of [H] entries that are swapped as
    time goes by, the others in a sorted map.  [schedule] gives a micro-operation
    the first cycle in which one of its ports is free. *)

From stdpp Require Import base tactics numbers list gmap.
From Stdlib Require Import ZArith Lia.
From S2P Require Import Prelude PrioQueue.

Open Scope Z_scope.

Record WinCycle : Type := mkWinCycle { occUnits : Z; count : Z }.
Definition WinCycle_zero : WinCycle := mkWinCycle 0 0.
#[export] Instance WinCycle_eq_dec : EqDecision WinCycle.
Proof. solve_decision. Defined.

Record WindowStructure : Type := mkWindow {
  curWin : list WinCycle;
  nextWin : list WinCycle;
  ubWin : list (Z * WinCycle);   (** [std::map]: sorted by cycle *)
  occupancy : Z;
  curPos : Z;
  lastPort : Z
}.

Definition set_curWin (l : list WinCycle) (w : WindowStructure) : WindowStructure :=
  mkWindow l (nextWin w) (ubWin w) (occupancy w) (curPos w) (lastPort w).
Definition set_nextWin (l : list WinCycle) (w : WindowStructure) : WindowStructure :=
  mkWindow (curWin w) l (ubWin w) (occupancy w) (curPos w) (lastPort w).
Definition set_ubWin (l : list (Z * WinCycle)) (w : WindowStructure) : WindowStructure :=
  mkWindow (curWin w) (nextWin w) l (occupancy w) (curPos w) (lastPort w).
Definition set_occupancy (x : Z) (w : WindowStructure) : WindowStructure :=
  mkWindow (curWin w) (nextWin w) (ubWin w) x (curPos w) (lastPort w).
Definition set_curPos (x : Z) (w : WindowStructure) : WindowStructure :=
  mkWindow (curWin w) (nextWin w) (ubWin w) (occupancy w) x (lastPort w).
Definition set_lastPort (x : Z) (w : WindowStructure) : WindowStructure :=
  mkWindow (curWin w) (nextWin w) (ubWin w) (occupancy w) (curPos w) x.

Definition u8 (z : Z) : Z := z `mod` 256.

(** ** One cycle *)

(** [trySchedule]: the entry, the ports that were available, and the port that was
    taken.  A shadow request ([touch] is false) takes all of [portMask]. *)
Definition trySchedule (touch : bool) (wc : WinCycle) (portMask : Z) : result (WinCycle * Z * Z) :=
  let availMask := Z.land (Z.lnot (occUnits wc)) portMask in
  if touch then
    if availMask =? 0 then Ok (wc, 0, 0)
    else match builtin_ctzl availMask with (* ffs - 1 *)
      | Ok firstAvail => Ok (mkWinCycle (Z.lor (occUnits wc) (Z.shiftl 1 firstAvail)) (u8 (count wc + 1)), availMask, firstAvail)
      | Err f => Err f
      end
  else Ok (mkWinCycle (Z.lor (occUnits wc) portMask) (count wc), availMask, 0).

(** The loop over an array from position [pos]: the array, and the position and
    port of the first entry that had a port, if any. *)
Fixpoint scan (touch : bool) (portMask : Z) (pos : nat) (l : list WinCycle) : result (list WinCycle * option (Z * Z)) :=
  let shift (wc : WinCycle) (r : result (list WinCycle * option (Z * Z))) : result (list WinCycle * option (Z * Z)) :=
    match r with
    | Ok (l, None) => Ok (wc :: l, None)
    | Ok (l, Some (i, port)) => Ok (wc :: l, Some (i + 1, port))
    | Err f => Err f
    end in
  match l with
  | [] => Ok ([], None)
  | wc :: l =>
    match pos with
    | S pos => shift wc (scan touch portMask pos l)
    | O => match trySchedule touch wc portMask with
      | Ok (wc, avail, port) => if negb (avail =? 0) then Ok (wc :: l, Some (0, port)) else shift wc (scan touch portMask O l)
      | Err f => Err f
      end
    end
  end.

(** The loop over the map, from the lower bound of [cycle]. *)
Fixpoint scan_map (touch : bool) (portMask : Z) (l : list (Z * WinCycle)) (cycle : Z) : result (list (Z * WinCycle) * Z * Z) :=
  let fresh (l : list (Z * WinCycle)) :=
    match trySchedule touch WinCycle_zero portMask with
    | Ok (wc, avail, port) => if avail =? 0 then Err AssertFail else Ok ((cycle, wc) :: l, cycle, port)
    | Err f => Err f
    end in
  let shift (kv : Z * WinCycle) (r : result (list (Z * WinCycle) * Z * Z)) : result (list (Z * WinCycle) * Z * Z) :=
    match r with Ok (l, c, port) => Ok (kv :: l, c, port) | Err f => Err f end in
  match l with
  | [] => fresh []
  | (k, wc) :: l =>
    if k <? cycle then shift (k, wc) (scan_map touch portMask l cycle)
    else if negb (k =? cycle) then fresh ((k, wc) :: l)
    else match trySchedule touch wc portMask with
      | Ok (wc, avail, port) => if negb (avail =? 0) then Ok ((k, wc) :: l, k, port) else shift (k, wc) (scan_map touch portMask l (cycle + 1))
      | Err f => Err f
      end
  end.

Section window.
Context (H WSZ : Z).

Definition WindowStructure_init (port : Z) : WindowStructure :=
  mkWindow (replicate (Z.to_nat H) WinCycle_zero) (replicate (Z.to_nat H) WinCycle_zero) [] 0 0 port.

(** ** Time *)

(** The elements of the map that come into [nextWin]; [curCycle] is the cycle of [curWin[0]]. *)
Fixpoint move_near (curCycle : Z) (l : list (Z * WinCycle)) (next : list WinCycle) : result (list (Z * WinCycle) * list WinCycle) :=
  match l with
  | (k, wc) :: l' =>
    if k <? u64 (curCycle + 2 * H) then
      let nextWinPos := u32 (k - H - curCycle) in
      if nextWinPos <? H then move_near curCycle l' (<[Z.to_nat nextWinPos := wc]> next) else Err AssertFail
    else Ok (l, next)
  | [] => Ok ([], next)
  end.

Definition advancePos (curCycle : Z) : st WindowStructure Z := fun w =>
  match curWin w !! Z.to_nat (curPos w) with
  | None => Err Panicked
  | Some wc =>
    let occ := u32 (occupancy w - count wc) in
    let cur := <[Z.to_nat (curPos w) := WinCycle_zero]> (curWin w) in
    let pos := u32 (curPos w + 1) in
    let curCycle := u64 (curCycle + 1) in
    if pos =? H then
      match move_near curCycle (ubWin w) cur with
      | Ok (ub, next) => Ok (curCycle, mkWindow (nextWin w) next ub occ 0 (lastPort w))
      | Err f => Err f
      end
    else Ok (curCycle, mkWindow cur (nextWin w) (ubWin w) occ pos (lastPort w))
  end.

(** After this cycle nothing is scheduled. *)
Definition horizon (curCycle : Z) (w : WindowStructure) : Z :=
  foldr (fun kv m => Z.max (kv.1 + 1) m) (curCycle - curPos w + 2 * H) (ubWin w).

(** The wait for the window to have room; it is empty at the horizon at the latest. *)
Fixpoint make_room (fuel : nat) (curCycle : Z) : st WindowStructure Z := fun w =>
  if occupancy w =? WSZ then
    match fuel with
    | O => Err NoFuel
    | S fuel => match advancePos curCycle w with Ok (c, w) => make_room fuel c w | Err f => Err f end
    end
  else Ok (curCycle, w).

Definition longAdvance_loop : nat -> Z -> Z -> st WindowStructure Z :=
  fix loop (fuel : nat) (curCycle targetCycle : Z) : st WindowStructure Z := fun w =>
  if negb (occupancy w =? 0) && (curCycle <? targetCycle) then
    match fuel with
    | O => Err NoFuel
    | S fuel => match advancePos curCycle w with Ok (c, w) => loop fuel c targetCycle w | Err f => Err f end
    end
  else Ok (curCycle, w).

Definition longAdvance (curCycle targetCycle : Z) : st WindowStructure Z :=
  _ ← assert_ (curCycle <=? targetCycle);
  curCycle ← longAdvance_loop (Z.to_nat (targetCycle - curCycle)) curCycle targetCycle;
  occ ← gets occupancy;
  if negb (occ =? 0) then _ ← assert_ (curCycle =? targetCycle); mret curCycle
  else _ ← assert_ (curCycle <=? targetCycle); mret targetCycle.

(** ** Scheduling *)

(** The search of [scheduleInternal]: the cycle of the slot, and its port. *)
Definition find_slot (touchOccupancy : bool) (curCycle schedCycle portMask : Z) : st WindowStructure (Z * Z) :=
  w ← gets id;
  let delay := if curCycle <? schedCycle then u32 (schedCycle - curCycle) else 0 in
  let curWinPos := u32 (curPos w + delay) in
  '(cw, found) ← lift (scan touchOccupancy portMask (Z.to_nat curWinPos) (curWin w));
  _ ← modify (set_curWin cw);
  match found with
  | Some (i, port) => mret (u64 (curCycle + u32 (i - curPos w)), port)
  | None =>
    let nextWinPos := Z.max curWinPos H - H in
    '(nw, found) ← lift (scan touchOccupancy portMask (Z.to_nat nextWinPos) (nextWin w));
    _ ← modify (set_nextWin nw);
    match found with
    | Some (i, port) => mret (u64 (curCycle + u32 (i + H - curPos w)), port)
    | None =>
      let nextWinPos := Z.max nextWinPos H in
      '(ub, c, port) ← lift (scan_map touchOccupancy portMask (ubWin w) (u64 (curCycle + u32 (nextWinPos + H - curPos w))));
      _ ← modify (set_ubWin ub);
      mret (c, port)
    end
  end.

(** [scheduleInternal]: the current cycle and the cycle of the slot. *)
Definition scheduleInternal (touchOccupancy recordPort : bool) (curCycle schedCycle portMask : Z) : st WindowStructure (Z * Z) :=
  w ← gets id;
  curCycle ← (if touchOccupancy then make_room (Z.to_nat (horizon curCycle w - curCycle)) curCycle else mret curCycle);
  '(sched, port) ← find_slot touchOccupancy curCycle schedCycle portMask;
  _ ← when recordPort (modify (set_lastPort port));
  _ ← when touchOccupancy (modify (fun w => set_occupancy (u32 (occupancy w + 1)) w));
  mret (curCycle, sched).

(** The extra slots of an operation that is not pipelined. *)
Fixpoint extra (n : nat) (curCycle cycle portMask : Z) : st WindowStructure unit :=
  match n with
  | O => mret tt
  | S n =>
    '(_, c) ← scheduleInternal false false curCycle cycle portMask;
    extra n curCycle (u64 (c + 1)) portMask
  end.

Definition schedule (curCycle schedCycle portMask extraSlots : Z) : st WindowStructure (Z * Z) :=
  r ← (if extraSlots =? 0 then scheduleInternal true false curCycle schedCycle portMask
       else
         '(cur, sched) ← scheduleInternal true true curCycle schedCycle portMask;
         p ← gets lastPort;
         _ ← extra (Z.to_nat extraSlots) cur (u64 (sched + 1)) (u8 (Z.shiftl 1 p));
         mret (cur, sched));
  occ ← gets occupancy;
  _ ← assert_ (occ <=? WSZ);
  mret r.
End window.
