(* ===== verification/OooWindowInv.v ===== *)
(** * The instruction window as a table of cycles

    The two arrays and the map of [WindowStructure] stand for one table, from
    cycles to the ports taken in them ([slot]).  This file relates the three
    searches of [scheduleInternal] to a search of that table, and the advance of
    the window, with its change of arrays, to leaving the table as it is. *)

From stdpp Require Import base tactics numbers list gmap sorting.
From Stdlib Require Import ZArith Lia.
From S2P Require Import Prelude Hash PrioQueue OooWindow.

Open Scope Z_scope.

#[export] Instance WinCycle_inhabited : Inhabited WinCycle := populate WinCycle_zero.

(** ** One cycle *)

(** A port of [portMask] is free. *)
Definition room (portMask : Z) (wc : WinCycle) : bool := negb (Z.land (Z.lnot (occUnits wc)) portMask =? 0).

(** The first free port. *)
Definition first_free (portMask : Z) (wc : WinCycle) (p : Z) : Prop :=
  0 <= p < 8 /\ Z.testbit portMask p = true /\ Z.testbit (occUnits wc) p = false /\
  forall q, 0 <= q < p -> Z.testbit portMask q = true -> Z.testbit (occUnits wc) q = true.

(** The cycle [wc] with the ports of a request taken. *)
Definition reserved (touch : bool) (portMask : Z) (wc : WinCycle) (p : Z) (wc' : WinCycle) : Prop :=
  if touch then first_free portMask wc p /\ wc' = mkWinCycle (Z.lor (occUnits wc) (Z.shiftl 1 p)) (count wc + 1)
  else p = 0 /\ wc' = mkWinCycle (Z.lor (occUnits wc) portMask) (count wc).

Definition wc_ok (wc : WinCycle) : Prop := 0 <= occUnits wc < 256 /\ 0 <= count wc < 256.

Lemma land_lnot_zero (o m : Z) : Z.land (Z.lnot o) m = 0 <-> forall p, 0 <= p -> Z.testbit m p = true -> Z.testbit o p = true.
Proof.
  split.
  - intros E p Hp Hm. assert (T : Z.testbit (Z.land (Z.lnot o) m) p = false) by (rewrite E; apply Z.bits_0).
    rewrite Z.land_spec, Z.lnot_spec, Hm in T by done. by destruct (Z.testbit o p).
  - intros A. apply Z.bits_inj'. intros p Hp. rewrite Z.bits_0, Z.land_spec, Z.lnot_spec by done.
    destruct (Z.testbit m p) eqn:E; [by rewrite (A p Hp E)|by rewrite andb_false_r].
Qed.

Lemma testbit_high (m p : Z) : 0 <= m < 256 -> 8 <= p -> Z.testbit m p = false.
Proof. intros Hm Hp. apply Z.testbit_false; [lia|]. rewrite Z.div_small; [done|]. assert (2 ^ 8 <= 2 ^ p) by (apply Z.pow_le_mono_r; lia). lia. Qed.

Lemma room_iff m wc : 0 <= m < 256 ->
  room m wc = true <-> exists p, 0 <= p < 8 /\ Z.testbit m p = true /\ Z.testbit (occUnits wc) p = false.
Proof.
  intros Hm. unfold room. rewrite negb_true_iff, Z.eqb_neq, land_lnot_zero. split.
  - intros Hn. destruct (decide (Exists (fun p => Z.testbit m p = true /\ Z.testbit (occUnits wc) p = false) (seqZ 0 8))) as [E|E].
    + apply Exists_exists in E as (p & Hp & E). apply elem_of_seqZ in Hp. exists p. split; [lia|done].
    + exfalso. apply Hn. intros p Hp Ht. destruct (decide (p < 8)).
      * destruct (Z.testbit (occUnits wc) p) eqn:Eo; [done|]. exfalso. apply E, Exists_exists. exists p.
        split; [apply elem_of_seqZ; lia|done].
      * rewrite testbit_high in Ht by lia. done.
  - intros (p & Hp & Ht & Ho) A. by rewrite A in Ho by (done || lia).
Qed.

Lemma lor_small a b : 0 <= a < 256 -> 0 <= b < 256 -> 0 <= Z.lor a b < 256.
Proof.
  intros Ha Hb. assert (0 <= Z.lor a b) by (apply Z.lor_nonneg; lia). split; [done|].
  destruct (Z.eq_dec (Z.lor a b) 0) as [->|]; [lia|]. apply (Z.log2_lt_pow2 _ 8); [lia|].
  rewrite Z.log2_lor by lia. destruct (decide (a = 0)) as [->|], (decide (b = 0)) as [->|]; simpl; try lia.
  - rewrite Z.max_r by (apply Z.log2_nonneg). apply Z.log2_lt_pow2; lia.
  - rewrite Z.max_l by (apply Z.log2_nonneg). apply Z.log2_lt_pow2; lia.
  - apply Z.max_lub_lt; apply Z.log2_lt_pow2; lia.
Qed.

Lemma shiftl_small p : 0 <= p < 8 -> 0 < Z.shiftl 1 p < 256.
Proof. intros Hp. rewrite Z.shiftl_1_l. split; [lia|]. apply (Z.pow_lt_mono_r 2 p 8); lia. Qed.

Lemma reserved_ok touch m wc p wc' : 0 <= m < 256 -> wc_ok wc -> (touch = true -> count wc < 255) ->
  reserved touch m wc p wc' -> wc_ok wc' /\ count wc' = count wc + (if touch then 1 else 0).
Proof.
  intros Hm [Ho Hc] Ht. unfold reserved, wc_ok. destruct touch.
  - intros [(Hp & _) ->]. simpl. specialize (Ht eq_refl). split; [|lia]. split; [|lia].
    apply lor_small; [done|]. pose proof (shiftl_small p Hp). lia.
  - intros [_ ->]. simpl. split; [|lia]. split; [by apply lor_small|done].
Qed.

(** A request takes the first free port, and leaves a full cycle as it is. *)
Lemma trySchedule_spec touch wc m : 0 <= m < 256 -> wc_ok wc -> (touch = true -> count wc < 255) ->
  exists wc' avail p, trySchedule touch wc m = Ok (wc', avail, p) /\
    if room m wc then avail <> 0 /\ reserved touch m wc p wc' else avail = 0 /\ wc' = wc.
Proof.
  intros Hm Hok Ht. unfold trySchedule. destruct (room m wc) eqn:R.
  - pose proof R as R'. unfold room in R'. apply negb_true_iff, Z.eqb_neq in R'. destruct touch.
    + apply Z.eqb_neq in R' as E. rewrite E.
      assert (Hx : in_u64 (Z.land (Z.lnot (occUnits wc)) m)).
      { rewrite Z.land_comm. apply land_range. unfold in_u64, W64. lia. }
      destruct (least_bit _ Hx R') as (p & Hp & Hb & Hf).
      rewrite Z.land_spec, Z.lnot_spec in Hb by lia. apply andb_true_iff in Hb as [Hb2%negb_true_iff Hb1].
      assert (Hp8 : p < 8) by (destruct (decide (p < 8)); [done|]; rewrite testbit_high in Hb1 by lia; done).
      assert (C : builtin_ctzl (Z.land (Z.lnot (occUnits wc)) m) = Ok p).
      { apply ctzl_spec; [done|by rewrite Z.land_spec, Z.lnot_spec, Hb1, Hb2 by lia|done]. }
      rewrite C. eexists _, _, _. split; [done|]. split; [done|]. unfold reserved, u8. specialize (Ht eq_refl). destruct Hok as [? ?].
      rewrite Z.mod_small by lia. split; [|done]. split; [lia|]. split; [done|]. split; [done|].
      intros q Hq Hmq. specialize (Hf q Hq). rewrite Z.land_spec, Z.lnot_spec, Hmq, andb_true_r in Hf by lia. by apply negb_false_iff.
    + eexists _, _, _. split; [done|]. done.
  - unfold room in R. apply negb_false_iff, Z.eqb_eq in R as E. rewrite E. destruct touch; simpl.
    + by eexists _, _, _.
    + eexists _, _, _. split; [done|]. split; [done|]. destruct wc as [o c]. simpl in *. f_equal.
      apply Z.bits_inj'. intros p Hp. rewrite Z.lor_spec. destruct (Z.testbit m p) eqn:Em; [|apply orb_false_r].
      rewrite (proj1 (land_lnot_zero _ _) E p Hp Em). done.
Qed.

(** ** The search of an array *)

Definition scan_post (touch : bool) (m : Z) (pos : nat) (l l' : list WinCycle) (found : option (Z * Z)) : Prop :=
  match found with
  | None => l' = l /\ forall j wc, (pos <= j)%nat -> l !! j = Some wc -> room m wc = false
  | Some (i, p) => exists n wc wc', i = Z.of_nat n /\ (pos <= n)%nat /\ l !! n = Some wc /\ room m wc = true /\
      reserved touch m wc p wc' /\ l' = <[n := wc']> l /\
      forall j x, (pos <= j < n)%nat -> l !! j = Some x -> room m x = false
  end.

Lemma window_scan_spec touch m pos l :
  0 <= m < 256 -> Forall (fun wc => wc_ok wc /\ (touch = true -> count wc < 255)) l ->
  exists l' found, scan touch m pos l = Ok (l', found) /\ scan_post touch m pos l l' found.
Proof.
  intros Hm. revert pos. induction l as [|wc l IH]; intros pos Hl.
  { exists [], None. split; [by destruct pos|]. split; [done|]. intros j x _ Hj. done. }
  apply Forall_cons in Hl as [[Hwc Ht] Hl].
  destruct pos as [|pos]; cbn [scan].
  - destruct (trySchedule_spec touch wc m Hm Hwc Ht) as (wc' & avail & p & -> & Hr).
    destruct (room m wc) eqn:R.
    + destruct Hr as [Hav Hres]. apply Z.eqb_neq in Hav as ->. eexists _, _. split; [done|].
      exists O, wc, wc'. split_and!; try done. intros j x Hj. lia.
    + destruct Hr as [-> ->]. simpl. destruct (IH O Hl) as (l' & found & -> & Hp).
      destruct found as [[i p']|].
      * eexists _, _. split; [done|]. destruct Hp as (n & x & x' & -> & Hn & Hx & Hrx & Hres & -> & Hb).
        exists (S n), x, x'. split; [lia|]. split; [lia|]. split_and!; try done.
        intros [|j] y Hj Hy; [by simplify_eq/=|]. apply (Hb j); [lia|done].
      * eexists _, _. split; [done|]. destruct Hp as [-> Hb]. split; [done|].
        intros [|j] y Hj Hy; [by simplify_eq/=|]. apply (Hb j); [lia|done].
  - destruct (IH pos Hl) as (l' & found & -> & Hp). destruct found as [[i p']|].
    + eexists _, _. split; [done|]. destruct Hp as (n & x & x' & -> & Hn & Hx & Hrx & Hres & -> & Hb).
      exists (S n), x, x'. split; [lia|]. split; [lia|]. split_and!; try done.
      intros [|j] y Hj Hy; [lia|]. apply (Hb j); [lia|done].
    + eexists _, _. split; [done|]. destruct Hp as [-> Hb]. split; [done|].
      intros [|j] y Hj Hy; [lia|]. apply (Hb j); [lia|done].
Qed.

(** ** The search of the map *)

Definition ub_map (l : list (Z * WinCycle)) : gmap Z WinCycle := list_to_map l.

Definition counts (l : list WinCycle) : Z := sumZ (count <$> l).

Definition sorted_keys (l : list (Z * WinCycle)) : Prop := StronglySorted Z.lt (l.*1).

Lemma ub_map_below l c : Forall (fun k => c < k) (l.*1) -> ub_map l !!! c = WinCycle_zero.
Proof.
  intros Hl. unfold ub_map. rewrite lookup_total_alt, not_elem_of_list_to_map_1; [done|].
  intros Hin. rewrite Forall_forall in Hl. specialize (Hl c Hin). lia.
Qed.

Lemma ub_map_cons k wc l c : ub_map ((k, wc) :: l) !!! c = if decide (c = k) then wc else ub_map l !!! c.
Proof.
  unfold ub_map. rewrite list_to_map_cons. destruct (decide (c = k)) as [->|].
  - by rewrite lookup_total_insert_eq.
  - by rewrite lookup_total_insert_ne by done.
Qed.

Definition map_post (touch : bool) (m cycle : Z) (l l' : list (Z * WinCycle)) (c p : Z) : Prop :=
  exists wc, cycle <= c /\ room m (ub_map l !!! c) = true /\
    (forall x, cycle <= x < c -> room m (ub_map l !!! x) = false) /\
    reserved touch m (ub_map l !!! c) p wc /\
    (forall x, ub_map l' !!! x = if decide (x = c) then wc else ub_map l !!! x) /\
    sorted_keys l' /\ Forall wc_ok (l'.*2) /\
    (forall P : Z -> Prop, Forall P (l.*1) -> P c -> Forall P (l'.*1)) /\
    counts (l'.*2) = counts (l.*2) + (if touch then 1 else 0).

Lemma room_zero m : 0 < m < 256 -> room m WinCycle_zero = true.
Proof.
  intros Hm. unfold room. simpl. apply negb_true_iff, Z.eqb_neq. change (Z.lnot 0) with (-1). rewrite Z.land_m1_l. lia.
Qed.

Lemma zero_ok : wc_ok WinCycle_zero.
Proof. unfold wc_ok. simpl. lia. Qed.

Lemma counts_cons wc l : counts (wc :: l) = count wc + counts l.
Proof. done. Qed.

Lemma sorted_keys_cons k wc l : sorted_keys ((k, wc) :: l) <-> sorted_keys l /\ Forall (fun x => k < x) (l.*1).
Proof. unfold sorted_keys. simpl. rewrite StronglySorted_cons. naive_solver. Qed.

Lemma fresh_post touch m cycle l : 0 < m < 256 -> sorted_keys l -> Forall (fun k => cycle < k) (l.*1) -> Forall wc_ok (l.*2) ->
  exists l' c p, match trySchedule touch WinCycle_zero m with
    | Ok (wc, avail, port) => if avail =? 0 then Err AssertFail else Ok ((cycle, wc) :: l, cycle, port)
    | Err f => Err f
    end = Ok (l', c, p) /\ map_post touch m cycle l l' c p.
Proof.
  intros Hm Hs Hk Hok.
  destruct (trySchedule_spec touch WinCycle_zero m ltac:(lia) zero_ok ltac:(simpl; lia)) as (wc' & avail & p & -> & Hr).
  rewrite room_zero in Hr by done. destruct Hr as [Hav%Z.eqb_neq Hres]. rewrite Hav.
  eexists _, _, _. split; [done|].
  destruct (reserved_ok touch m _ _ _ ltac:(lia) zero_ok ltac:(simpl; lia) Hres) as [Hwc Hc].
  exists wc'. rewrite (ub_map_below l cycle Hk). split; [lia|]. split; [by apply room_zero|]. split; [intros; lia|]. split; [done|].
  split; [intros x; apply ub_map_cons|]. split; [by apply sorted_keys_cons|]. split; [by constructor|]. split; [by constructor|].
  csimpl. rewrite counts_cons, Hc. simpl. lia.
Qed.

(** An element that the search passes. *)
Lemma map_post_cons touch m cycle cycle' k wc l l' c p :
  cycle <= cycle' -> sorted_keys ((k, wc) :: l) -> wc_ok wc -> (forall x, cycle <= x < cycle' -> x = k /\ room m wc = false) ->
  k < cycle' -> map_post touch m cycle' l l' c p -> map_post touch m cycle ((k, wc) :: l) ((k, wc) :: l') c p.
Proof.
  intros Hle [Hs Hk]%sorted_keys_cons Hwc Hpass Hkc (wc' & Hc & Hr & Hf & Hres & Hget & Hs' & Hok & HP & Hcnt).
  exists wc'. rewrite ub_map_cons, decide_False by lia. split; [lia|]. split; [done|]. split.
  { intros x Hx. rewrite ub_map_cons. destruct (decide (x < cycle')) as [Hlt|].
    - destruct (Hpass x) as [-> Hrw]; [lia|]. by rewrite decide_True.
    - rewrite decide_False by lia. apply Hf. lia. }
  split; [done|]. split.
  { intros x. rewrite !ub_map_cons, Hget. repeat case_decide; try done; lia. }
  split; [apply sorted_keys_cons; split; [done|]; apply HP; [done|lia]|].
  split; [by constructor|]. split.
  { intros P HPl HPc. cbn [fmap list_fmap fst] in HPl. apply Forall_cons in HPl as [? ?]. csimpl. constructor; [done|]. by apply HP. }
  csimpl. rewrite !counts_cons. lia.
Qed.

Lemma scan_map_spec touch m l cycle :
  0 < m < 256 -> sorted_keys l -> Forall wc_ok (l.*2) -> (touch = true -> Forall (fun wc => count wc < 255) (l.*2)) ->
  exists l' c p, scan_map touch m l cycle = Ok (l', c, p) /\ map_post touch m cycle l l' c p.
Proof.
  intros Hm. revert cycle. induction l as [|[k wc] l IH]; intros cycle Hs Hok Ht.
  { cbn [scan_map]. apply fresh_post; done. }
  pose proof Hs as [Hs' Hk]%sorted_keys_cons. cbn [fmap list_fmap fst snd] in Hok, Ht. pose proof Hok as [Hwc Hok']%Forall_cons.
  assert (Ht' : touch = true -> Forall (fun wc => count wc < 255) (l.*2)) by (intros E; by apply Forall_cons in Ht as [? ?]).
  cbn [scan_map]. case Z.ltb_spec; intros Hkc.
  { destruct (IH cycle Hs' Hok' Ht') as (l' & c & p & -> & Hp). eexists _, _, _. split; [done|].
    eapply map_post_cons; try done; try lia. }
  case Z.eqb_spec; intros Hke; simpl.
  - subst k. destruct (trySchedule_spec touch wc m ltac:(lia) Hwc) as (wc' & avail & p & -> & Hr).
    { intros E. specialize (Ht E). by apply Forall_cons in Ht as [? ?]. }
    destruct (room m wc) eqn:R.
    + destruct Hr as [Hav%Z.eqb_neq Hres]. rewrite Hav. eexists _, _, _. split; [done|].
      destruct (reserved_ok touch m _ _ _ ltac:(lia) Hwc ltac:(intros E; specialize (Ht E); by apply Forall_cons in Ht as [? ?]) Hres) as [Hwc' Hc].
      exists wc'. rewrite ub_map_cons, decide_True by done. split; [lia|]. split; [done|]. split; [intros; lia|]. split; [done|].
      split; [intros x; rewrite !ub_map_cons; by case_decide|]. split; [by apply sorted_keys_cons|].
      split; [by constructor|]. split; [by intros P HPl _|]. csimpl. rewrite !counts_cons. lia.
    + destruct Hr as [-> ->]. simpl. destruct (IH (cycle + 1) Hs' Hok' Ht') as (l' & c & q & -> & Hp).
      eexists _, _, _. split; [done|]. apply (map_post_cons touch m cycle (cycle + 1)); [lia|done|done| |lia|done]. intros x Hx. split; [lia|done].
  - apply fresh_post; try done. csimpl. constructor; [lia|]. eapply Forall_impl; [exact Hk|]. simpl. lia.
Qed.

(** ** Lists of cycles *)

Lemma counts_insert l (n : nat) wc x : l !! n = Some x -> counts (<[n := wc]> l) = counts l - count x + count wc.
Proof.
  revert n. induction l as [|y l IH]; intros [|n] Hn; [done|done| |].
  - simplify_eq/=. rewrite !counts_cons. lia.
  - change (<[S n:=wc]> (y :: l)) with (y :: <[n:=wc]> l). rewrite !counts_cons, (IH n) by done. lia.
Qed.

Lemma counts_nonneg l : Forall wc_ok l -> 0 <= counts l.
Proof. induction 1 as [|wc l [_ Hc] _ IH]; [done|]. rewrite counts_cons. lia. Qed.

Lemma counts_ge l : Forall wc_ok l -> Forall (fun wc => count wc <= counts l) l.
Proof.
  induction 1 as [|wc l [_ Hc] Hl IH]; constructor.
  - rewrite counts_cons. pose proof (counts_nonneg l Hl). lia.
  - eapply Forall_impl; [exact IH|]. intros x Hx. simpl in Hx. rewrite counts_cons. lia.
Qed.

Lemma counts_zero l : Forall (fun wc => wc = WinCycle_zero) l -> counts l = 0.
Proof. induction 1 as [|wc l -> _ IH]; [done|]. rewrite counts_cons, IH. done. Qed.

Lemma counts_app l k : counts (l ++ k) = counts l + counts k.
Proof. induction l as [|x l IH]; [done|]. simpl. rewrite !counts_cons, IH. lia. Qed.

Lemma total_some {A} `{Inhabited A} (l : list A) (n : nat) : (n < length l)%nat -> l !! n = Some (l !!! n).
Proof. apply list_lookup_lookup_total_lt. Qed.

Lemma ok_total l (n : nat) : Forall wc_ok l -> wc_ok (l !!! n).
Proof.
  intros Hl. rewrite list_lookup_total_alt. destruct (l !! n) eqn:E; [|apply zero_ok]. eapply Forall_lookup_1; eauto.
Qed.

Lemma all_zero l : (forall i, (i < length l)%nat -> l !!! i = WinCycle_zero) -> Forall (fun wc => wc = WinCycle_zero) l.
Proof.
  intros Hl. apply Forall_lookup. intros i x Hx. pose proof (lookup_lt_Some _ _ _ Hx) as Hi. specialize (Hl i Hi).
  by rewrite (list_lookup_total_correct _ _ _ Hx) in Hl.
Qed.

(** An entry of the map is what the table holds for its cycle. *)
Lemma ub_map_entry l k wc : sorted_keys l -> (k, wc) ∈ l -> ub_map l !!! k = wc.
Proof.
  intros Hs Hin. unfold ub_map. apply lookup_total_correct. apply elem_of_list_to_map_1; [|done].
  unfold sorted_keys in Hs. clear -Hs. induction Hs as [|x ks Hs IH Hx]; constructor; [|done].
  intros Hin. rewrite Forall_forall in Hx. specialize (Hx x Hin). lia.
Qed.

(** ** The table *)

Section window.
Context (H WSZ : Z).
Context (H_range : 0 < H < 2 ^ 29).
Context (WSZ_range : 0 < WSZ < 256).

(** The entry of cycle [c], for a window whose first array starts at cycle [b]. *)
Definition cycle_at (b : Z) (w : WindowStructure) (c : Z) : WinCycle :=
  if decide (c - b < H) then curWin w !!! Z.to_nat (c - b)
  else if decide (c - b < 2 * H) then nextWin w !!! Z.to_nat (c - b - H)
  else ub_map (ubWin w) !!! c.

Definition table (cur : Z) (w : WindowStructure) (c : Z) : WinCycle := cycle_at (cur - curPos w) w c.

Definition total (w : WindowStructure) : Z := counts (curWin w) + counts (nextWin w) + counts ((ubWin w).*2).

(** The invariant at cycle [cur]; from cycle [L] on the table is empty. *)
Record WInv (L cur : Z) (w : WindowStructure) : Prop := {
  wi_pos : 0 <= curPos w < H;
  wi_base : 0 <= cur - curPos w;
  wi_cur : length (curWin w) = Z.to_nat H;
  wi_next : length (nextWin w) = Z.to_nat H;
  wi_past : forall i, (i < Z.to_nat (curPos w))%nat -> curWin w !!! i = WinCycle_zero;
  wi_sorted : sorted_keys (ubWin w);
  wi_keys : Forall (fun k => cur - curPos w + 2 * H <= k < L) ((ubWin w).*1);
  wi_curok : Forall wc_ok (curWin w);
  wi_nextok : Forall wc_ok (nextWin w);
  wi_ubok : Forall wc_ok ((ubWin w).*2);
  wi_beyond : forall c, L <= c -> table cur w c = WinCycle_zero;
  wi_limit : cur <= L <= 2 ^ 62;
  wi_occ : occupancy w = total w;
  wi_size : occupancy w <= WSZ
}.

Lemma occupancy_range L cur w : WInv L cur w -> 0 <= occupancy w < 256.
Proof.
  intros I. pose proof (wi_size _ _ _ I). rewrite (wi_occ _ _ _ I). unfold total.
  pose proof (counts_nonneg _ (wi_curok _ _ _ I)). pose proof (counts_nonneg _ (wi_nextok _ _ _ I)).
  pose proof (counts_nonneg _ (wi_ubok _ _ _ I)). rewrite (wi_occ _ _ _ I) in *. unfold total in *. lia.
Qed.

(** No cycle holds more than the occupancy. *)
Lemma counts_bound L cur w : WInv L cur w ->
  Forall (fun wc => count wc <= occupancy w) (curWin w) /\ Forall (fun wc => count wc <= occupancy w) (nextWin w) /\
  Forall (fun wc => count wc <= occupancy w) ((ubWin w).*2).
Proof.
  intros I. rewrite (wi_occ _ _ _ I). unfold total.
  pose proof (counts_nonneg _ (wi_curok _ _ _ I)). pose proof (counts_nonneg _ (wi_nextok _ _ _ I)).
  pose proof (counts_nonneg _ (wi_ubok _ _ _ I)).
  split_and!; (eapply Forall_impl; [apply counts_ge; apply I|]); simpl; intros; lia.
Qed.

(** When the current cycle is past everything, the window is empty. *)
Lemma drained L cur w : WInv L cur w -> (forall c, cur <= c -> table cur w c = WinCycle_zero) -> occupancy w = 0.
Proof.
  intros I Hz. rewrite (wi_occ _ _ _ I). unfold total. destruct (wi_pos _ _ _ I) as [P1 P2].
  rewrite !counts_zero; [done| | |].
  - apply Forall_lookup. intros i x Hx. rewrite list_lookup_fmap in Hx. apply fmap_Some in Hx as ([k wc] & Hkw & ->). simpl.
    pose proof (wi_keys _ _ _ I) as Hk. rewrite Forall_fmap, Forall_forall in Hk. apply list_elem_of_lookup_2 in Hkw.
    specialize (Hk _ Hkw). simpl in Hk. rewrite <- (ub_map_entry _ _ _ (wi_sorted _ _ _ I) Hkw).
    rewrite <- (Hz k) by lia. unfold table, cycle_at. by rewrite !decide_False by lia.
  - apply all_zero. rewrite (wi_next _ _ _ I). intros i Hi. rewrite <- (Hz (cur - curPos w + H + Z.of_nat i)) by lia.
    unfold table, cycle_at. rewrite decide_False, decide_True by lia. f_equal. lia.
  - apply all_zero. rewrite (wi_cur _ _ _ I). intros i Hi.
    destruct (decide (i < Z.to_nat (curPos w))%nat); [by apply (wi_past _ _ _ I)|].
    rewrite <- (Hz (cur - curPos w + Z.of_nat i)) by lia. unfold table, cycle_at. rewrite decide_True by lia. f_equal. lia.
Qed.

(** ** Time *)

(** The elements of the map that come into [nextWin], whose first cycle is [cc + H]. *)
Lemma move_near_spec cc l nx :
  0 <= cc <= 2 ^ 62 -> sorted_keys l -> Forall wc_ok (l.*2) -> Forall (fun k => cc + H <= k) (l.*1) ->
  length nx = Z.to_nat H -> Forall wc_ok nx ->
  Forall (fun k => k < cc + 2 * H -> nx !!! Z.to_nat (k - cc - H) = WinCycle_zero) (l.*1) ->
  exists l' nx', move_near H cc l nx = Ok (l', nx') /\
    length nx' = Z.to_nat H /\ Forall wc_ok nx' /\ sorted_keys l' /\ Forall wc_ok (l'.*2) /\
    (forall P : Z -> Prop, Forall P (l.*1) -> Forall P (l'.*1)) /\ Forall (fun k => cc + 2 * H <= k) (l'.*1) /\
    (forall c, cc + 2 * H <= c -> ub_map l' !!! c = ub_map l !!! c) /\
    (forall c, cc + H <= c < cc + 2 * H -> nx' !!! Z.to_nat (c - cc - H) =
       if decide (c ∈ l.*1) then ub_map l !!! c else nx !!! Z.to_nat (c - cc - H)) /\
    counts nx' + counts (l'.*2) = counts nx + counts (l.*2).
Proof.
  intros Hcc. revert nx. induction l as [|[k wc] l IH]; intros nx Hs Hok Hge Hlen Hnx Hz.
  { cbn [move_near]. eexists _, _. split; [done|]. split_and!; try done. }
  pose proof Hs as [Hs' Hk]%sorted_keys_cons. cbn [fmap list_fmap fst snd] in Hok, Hge, Hz.
  apply Forall_cons in Hok as [Hwc Hok]. apply Forall_cons in Hge as [Hgk Hge]. apply Forall_cons in Hz as [Hzk Hz].
  cbn [move_near]. rewrite (u64_id (cc + 2 * H)) by (unfold in_u64, W64; lia). case Z.ltb_spec; intros Hlt.
  - rewrite (u32_id (k - H - cc)) by (unfold in_u32, W32; lia). rewrite (proj2 (Z.ltb_lt _ _)) by lia.
    replace (k - H - cc) with (k - cc - H) by lia. specialize (Hzk Hlt).
    assert (Hn : nx !! Z.to_nat (k - cc - H) = Some WinCycle_zero) by (rewrite <- Hzk; apply total_some; lia).
    destruct (IH (<[Z.to_nat (k - cc - H) := wc]> nx)) as (l' & nx' & -> & A1 & A2 & A3 & A4 & A5 & A6 & A7 & A8 & A9); try done.
    + by rewrite length_insert.
    + by apply Forall_insert.
    + rewrite Forall_forall in Hz, Hk, Hge |- *. intros k' Hk' Hlt'. specialize (Hz k' Hk' Hlt'). specialize (Hk k' Hk'). specialize (Hge k' Hk').
      rewrite list_lookup_total_insert_ne by lia. done.
    + eexists _, _. split; [done|]. split_and!; try done.
      * intros P HP. cbn [fmap list_fmap fst] in HP. apply Forall_cons in HP as [_ HP]. by apply A5.
      * intros c Hc. rewrite A7 by done. rewrite ub_map_cons, decide_False by lia. done.
      * intros c Hc. rewrite A8 by done. rewrite ub_map_cons. cbn [fmap list_fmap fst].
        destruct (decide (c = k)) as [->|Hne].
        -- rewrite decide_False by (intros Hin; rewrite Forall_forall in Hk; specialize (Hk _ Hin); lia).
           rewrite decide_True by (by left). rewrite list_lookup_total_insert_eq by lia. done.
        -- destruct (decide (c ∈ l.*1)) as [Hin|Hin]; [by rewrite decide_True by (by right)|].
           rewrite decide_False by (rewrite elem_of_cons; tauto). by rewrite list_lookup_total_insert_ne by lia.
      * rewrite A9, (counts_insert _ _ _ WinCycle_zero) by done. csimpl. rewrite counts_cons. simpl. lia.
  - eexists _, _. split; [done|]. split_and!; try done.
    + csimpl. constructor; done.
    + csimpl. constructor; [done|]. eapply Forall_impl; [exact Hk|]. simpl. lia.
    + intros c Hc. rewrite decide_False; [done|]. csimpl. intros [->|Hin]%elem_of_cons; [lia|].
      rewrite Forall_forall in Hk. specialize (Hk _ Hin). lia.
Qed.

Definition advanced (L cur : Z) (w w' : WindowStructure) : Prop :=
  WInv L (cur + 1) w' /\ (forall c, cur < c -> table (cur + 1) w' c = table cur w c) /\
  occupancy w' = occupancy w - count (table cur w cur).

(** Within the first array. *)
Lemma advance_inside L cur w occ : WInv L cur w -> cur < L -> curPos w + 1 < H ->
  occ = occupancy w - count (table cur w cur) ->
  advanced L cur w (mkWindow (<[Z.to_nat (curPos w) := WinCycle_zero]> (curWin w)) (nextWin w) (ubWin w) occ (curPos w + 1) (lastPort w)).
Proof.
  intros I Hc Hp Ho. pose proof I as [P B C N Z0 S K Oc On Ou Y L0 OO OS].
  assert (E0 : table cur w cur = curWin w !!! Z.to_nat (curPos w)).
  { unfold table, cycle_at. rewrite decide_True by lia. f_equal. lia. }
  assert (T : forall c, cur < c -> cycle_at (cur + 1 - (curPos w + 1))
    (mkWindow (<[Z.to_nat (curPos w) := WinCycle_zero]> (curWin w)) (nextWin w) (ubWin w) occ (curPos w + 1) (lastPort w)) c = table cur w c).
  { intros c Hlt. unfold table, cycle_at. simpl. replace (cur + 1 - (curPos w + 1)) with (cur - curPos w) by lia.
    repeat case_decide; try done. by rewrite list_lookup_total_insert_ne by lia. }
  assert (Hoc : 0 <= count (table cur w cur)) by (rewrite E0; apply ok_total; done).
  split; [|split; [exact T|done]].
  constructor; simpl; try done; try lia.
  - by rewrite length_insert.
  - intros i Hi. destruct (decide (i = Z.to_nat (curPos w))) as [->|]; [by rewrite list_lookup_total_insert_eq by lia|].
    rewrite list_lookup_total_insert_ne by done. apply Z0. lia.
  - by replace (cur + 1 - (curPos w + 1)) with (cur - curPos w) by lia.
  - apply Forall_insert; [done|apply zero_ok].
  - intros c Hge. unfold table. simpl. rewrite T by lia. by apply Y.
  - subst occ. rewrite OO, E0. unfold total. simpl.
    rewrite (counts_insert _ _ _ _ (total_some (curWin w) (Z.to_nat (curPos w)) ltac:(lia))). simpl. lia.
Qed.

(** The arrays are swapped: the first is empty by then. *)
Lemma advance_rebase L cur w occ : WInv L cur w -> cur < L -> curPos w + 1 = H ->
  occ = occupancy w - count (table cur w cur) ->
  exists ub nx, move_near H (cur + 1) (ubWin w) (<[Z.to_nat (curPos w) := WinCycle_zero]> (curWin w)) = Ok (ub, nx) /\
    advanced L cur w (mkWindow (nextWin w) nx ub occ 0 (lastPort w)).
Proof.
  intros I Hc Hp Ho. pose proof I as [P B C N Z0 S K Oc On Ou Y L0 OO OS].
  assert (E0 : table cur w cur = curWin w !!! Z.to_nat (curPos w)).
  { unfold table, cycle_at. rewrite decide_True by lia. f_equal. lia. }
  assert (Zr : forall i, (i < Z.to_nat H)%nat -> <[Z.to_nat (curPos w) := WinCycle_zero]> (curWin w) !!! i = WinCycle_zero).
  { intros i Hi. destruct (decide (i = Z.to_nat (curPos w))) as [->|]; [by rewrite list_lookup_total_insert_eq by lia|].
    rewrite list_lookup_total_insert_ne by done. apply Z0. lia. }
  destruct (move_near_spec (cur + 1) (ubWin w) (<[Z.to_nat (curPos w) := WinCycle_zero]> (curWin w)))
    as (ub & nx & Hmv & A1 & A2 & A3 & A4 & A5 & A6 & A7 & A8 & A9); try done; try lia.
  { eapply Forall_impl; [exact K|]. simpl. lia. }
  { by rewrite length_insert. }
  { apply Forall_insert; [done|apply zero_ok]. }
  { eapply Forall_impl; [exact K|]. simpl. intros k Hk Hlt. apply Zr. lia. }
  exists ub, nx. split; [exact Hmv|].
  assert (T : forall c, cur < c -> cycle_at (cur + 1 - 0) (mkWindow (nextWin w) nx ub occ 0 (lastPort w)) c = table cur w c).
  { intros c Hlt. unfold table, cycle_at. simpl. rewrite Z.sub_0_r. rewrite (decide_False (P := c - (cur - curPos w) < H)) by lia.
    destruct (decide (c - (cur + 1) < H)).
    - rewrite decide_True by lia. f_equal. lia.
    - rewrite (decide_False (P := c - (cur - curPos w) < 2 * H)) by lia. destruct (decide (c - (cur + 1) < 2 * H)); [|apply A7; lia].
      rewrite A8 by lia. case_decide as Hin; [done|]. rewrite Zr by lia. symmetry. unfold ub_map.
      rewrite lookup_total_alt, not_elem_of_list_to_map_1; done. }
  assert (Hoc : 0 <= count (table cur w cur)) by (rewrite E0; apply ok_total; done).
  split; [|split; [exact T|done]].
  constructor; simpl; try done; try lia.
  - assert (Forall (fun k => k < L) (ub.*1)) as Hl by (apply A5; eapply Forall_impl; [exact K|]; simpl; lia).
    rewrite Forall_forall in Hl, A6 |- *. intros k Hk. specialize (Hl k Hk). specialize (A6 k Hk). simpl in *. lia.
  - intros c Hge. unfold table. simpl. rewrite T by lia. by apply Y.
  - subst occ. rewrite OO, E0. unfold total. simpl.
    rewrite (counts_insert _ _ _ _ (total_some (curWin w) (Z.to_nat (curPos w)) ltac:(lia))) in A9. simpl in A9. lia.
Qed.

Lemma advancePos_spec L cur w : WInv L cur w -> cur < L ->
  exists w', advancePos H cur w = Ok (cur + 1, w') /\ advanced L cur w w'.
Proof.
  intros I Hc. pose proof I as [P B C N Z0 S K Oc On Ou Y L0 OO OS].
  unfold advancePos. rewrite (total_some (curWin w)) by lia.
  assert (E0 : curWin w !!! Z.to_nat (curPos w) = table cur w cur).
  { unfold table, cycle_at. rewrite decide_True by lia. f_equal. lia. }
  pose proof (occupancy_range _ _ _ I) as Ho.
  assert (Hcnt : 0 <= count (table cur w cur) <= occupancy w).
  { rewrite <- E0. destruct (counts_bound _ _ _ I) as (Hb & _). split; [apply ok_total; done|].
    eapply (Forall_lookup_1 _ _ (Z.to_nat (curPos w)) _ Hb), total_some. lia. }
  rewrite E0, (u32_id (_ - _)), (u32_id (_ + 1)), (u64_id (cur + 1)) by (unfold in_u32, in_u64, W32, W64; lia).
  case Z.eqb_spec; intros He.
  - destruct (advance_rebase L cur w _ I Hc He eq_refl) as (ub & nx & -> & Ha). by eexists.
  - eexists. split; [done|]. apply advance_inside; try done. lia.
Qed.

(** What was scheduled from [cur] on and is still in the window at cycle [x]. *)
Definition pending (cur : Z) (w : WindowStructure) (x : Z) : Z :=
  occupancy w - sumZ ((fun c => count (table cur w c)) <$> seqZ cur (x - cur)).

(** The window of cycle [cur] at the later cycle [cur']. *)
Definition advanced_to (L cur : Z) (w : WindowStructure) (cur' : Z) (w' : WindowStructure) : Prop :=
  cur <= cur' /\ WInv L cur' w' /\ (forall c, cur' <= c -> table cur' w' c = table cur w c) /\
  occupancy w' = pending cur w cur'.

Lemma pending_now cur w : pending cur w cur = occupancy w.
Proof. unfold pending. rewrite Z.sub_diag. simpl. lia. Qed.

Lemma pending_later L cur w w' x : advanced L cur w w' -> cur < x -> pending (cur + 1) w' x = pending cur w x.
Proof.
  intros (_ & Ht & Ho) Hx. unfold pending. rewrite Ho, (seqZ_cons cur) by lia. rewrite fmap_cons, sumZ_cons.
  replace (x - (cur + 1)) with (Z.pred (x - cur)) by lia. replace (Z.succ cur) with (cur + 1) by lia.
  rewrite (list_fmap_ext (fun c => count (table (cur + 1) w' c)) (fun c => count (table cur w c)) (seqZ (cur + 1) (Z.pred (x - cur)))); [lia|].
  intros i c Hc. rewrite lookup_seqZ in Hc. f_equal. apply Ht. lia.
Qed.

Lemma advanced_to_refl L cur w : WInv L cur w -> advanced_to L cur w cur w.
Proof. intros I. split; [lia|]. split; [done|]. split; [done|]. by rewrite pending_now. Qed.

Lemma advanced_to_step L cur w w1 cur' w' : advanced L cur w w1 -> advanced_to L (cur + 1) w1 cur' w' -> advanced_to L cur w cur' w'.
Proof.
  intros A (H1 & I & Ht & Ho). split; [lia|]. split; [done|]. pose proof A as (_ & Ht1 & _). split.
  - intros c Hc. rewrite Ht, Ht1 by lia. done.
  - rewrite Ho. apply (pending_later L); [done|lia].
Qed.

(** While something is in the window its last cycle is to come. *)
Lemma busy_before L N cur w : WInv L cur w -> (forall c, N <= c -> table cur w c = WinCycle_zero) -> occupancy w <> 0 -> cur < N.
Proof.
  intros I HN Ho. destruct (decide (cur < N)); [done|]. exfalso. apply Ho, (drained L cur); [done|]. intros c Hc. apply HN. lia.
Qed.

Lemma advanced_empty L N cur w w1 : advanced L cur w w1 -> cur < N ->
  (forall c, N <= c -> table cur w c = WinCycle_zero) -> forall c, N <= c -> table (cur + 1) w1 c = WinCycle_zero.
Proof. intros (_ & Ht & _) Hn HN c Hc. rewrite Ht by lia. by apply HN. Qed.

(** The wait for room ends in the first cycle in which the window is not full. *)
Lemma make_room_spec fuel L N cur w :
  WInv L cur w -> (forall c, N <= c -> table cur w c = WinCycle_zero) -> N <= cur + Z.of_nat fuel ->
  exists cur' w', make_room H WSZ fuel cur w = Ok (cur', w') /\ advanced_to L cur w cur' w' /\
    occupancy w' < WSZ /\ forall x, cur <= x < cur' -> pending cur w x = WSZ.
Proof.
  revert cur w. induction fuel as [|fuel IH]; intros cur w I HN Hf; cbn [make_room].
  all: case Z.eqb_spec; intros Ho.
  - pose proof (busy_before _ _ _ _ I HN ltac:(lia)). lia.
  - eexists _, _. split; [done|]. split; [by apply advanced_to_refl|]. pose proof (wi_size _ _ _ I). split; [lia|]. intros; lia.
  - pose proof (busy_before _ _ _ _ I HN ltac:(lia)) as Hn.
    pose proof (busy_before _ _ _ _ I (wi_beyond _ _ _ I) ltac:(lia)) as Hl.
    destruct (advancePos_spec L cur w I Hl) as (w1 & -> & A).
    destruct (IH (cur + 1) w1) as (cur' & w' & -> & A' & Ho' & Hp); [apply A|by eapply advanced_empty|lia|].
    eexists _, _. split; [done|]. split; [by eapply advanced_to_step|]. split; [done|].
    intros x Hx. destruct (decide (x = cur)) as [->|]; [by rewrite pending_now|].
    rewrite <- (pending_later L cur w w1) by (done || lia). apply Hp. lia.
  - eexists _, _. split; [done|]. split; [by apply advanced_to_refl|]. pose proof (wi_size _ _ _ I). split; [lia|]. intros; lia.
Qed.

Lemma table_past_horizon L cur w : WInv L cur w -> forall c, horizon H cur w <= c -> table cur w c = WinCycle_zero.
Proof.
  intros I c Hc. unfold horizon in Hc.
  assert (Hb : cur - curPos w + 2 * H <= c /\ Forall (fun k => k < c) ((ubWin w).*1)).
  { clear I. revert Hc. induction (ubWin w) as [|[k wc] l IH]; csimpl; intros Hc; [done|]. destruct IH; [lia|].
    split; [lia|]. constructor; [lia|done]. }
  destruct Hb as [Hb Hk]. unfold table, cycle_at. rewrite !decide_False by lia. unfold ub_map.
  rewrite lookup_total_alt, not_elem_of_list_to_map_1; [done|]. intros Hin. rewrite Forall_forall in Hk. specialize (Hk _ Hin). lia.
Qed.
End window.
