(* ===== verification/OooWindowMain.v ===== *)
(** * What the instruction window promises

    [schedule] finds the first cycle in which one of the ports of an operation is
    free, the window never holds more than its size, and no assertion of it
    fails. *)

From stdpp Require Import base tactics numbers list gmap sorting.
From Stdlib Require Import ZArith Lia.
From S2P Require Import Prelude Hash PrioQueue OooWindow OooWindowInv.

Open Scope Z_scope.

Section window.
Context (H WSZ : Z).
Context (H_range : 0 < H < 2 ^ 29).
Context (WSZ_range : 0 < WSZ < 256).
#[local] Abbreviation table := (table H).
#[local] Abbreviation cycle_at := (cycle_at H).
#[local] Abbreviation WInv := (WInv H WSZ).
#[local] Abbreviation advanced_to := (advanced_to H WSZ).

(** ** Taking a slot *)

Definition placed (touch : bool) (L cur : Z) (w : WindowStructure) (sched : Z) (wc : WinCycle) (w' : WindowStructure) : Prop :=
  (forall c, cur <= c -> table cur w' c = if decide (c = sched) then wc else table cur w c) /\
  WInv (Z.max L (sched + 1)) cur w' /\ occupancy w' = occupancy w + (if touch then 1 else 0).

(** The three places a slot can be in. *)
Lemma place_cur touch m L cur w (n : nat) p wc port :
  WInv L cur w -> L < 2 ^ 62 -> cur < 2 ^ 61 -> 0 <= m < 256 -> (touch = true -> occupancy w < WSZ) ->
  curPos w <= Z.of_nat n < H -> reserved touch m (curWin w !!! n) p wc ->
  placed touch L cur w (cur - curPos w + Z.of_nat n) wc
    (mkWindow (<[n := wc]> (curWin w)) (nextWin w) (ubWin w) (occupancy w + (if touch then 1 else 0)) (curPos w) port).
Proof.
  intros I HL Hc62 Hm Ho Hn Hr. pose proof I as [P B C N Z0 S K Oc On Ou Y L0 OO OS].
  assert (Hlt : (n < length (curWin w))%nat) by lia. pose proof (total_some _ _ Hlt) as Hsome.
  destruct (counts_bound H WSZ L cur w I) as (Hb & _).
  destruct (reserved_ok touch m _ _ _ Hm (ok_total _ n Oc) ltac:(intros E; pose proof (Forall_lookup_1 _ _ _ _ Hb Hsome); specialize (Ho E); simpl in *; lia) Hr) as [Hok Hc].
  assert (T : forall c, cur <= c -> table cur
    (mkWindow (<[n := wc]> (curWin w)) (nextWin w) (ubWin w) (occupancy w + (if touch then 1 else 0)) (curPos w) port) c =
      if decide (c = cur - curPos w + Z.of_nat n) then wc else table cur w c).
  { intros c Hge. unfold OooWindowInv.table, OooWindowInv.cycle_at. simpl. destruct (decide (c = _)) as [->|Hne].
    - rewrite decide_True by lia. replace (Z.to_nat _) with n by lia. by rewrite list_lookup_total_insert_eq.
    - repeat case_decide; try done. by rewrite list_lookup_total_insert_ne by lia. }
  split; [exact T|]. split; [|done]. constructor; simpl; try done; try lia.
  - by rewrite length_insert.
  - intros i Hi. rewrite list_lookup_total_insert_ne by lia. by apply Z0.
  - eapply Forall_impl; [exact K|]. simpl. lia.
  - by apply Forall_insert.
  - intros c Hge. rewrite T by lia. rewrite decide_False by lia. apply Y. lia.
  - rewrite OO. unfold total. simpl. rewrite (counts_insert _ _ _ _ Hsome). lia.
  - destruct touch; [specialize (Ho eq_refl)|]; lia.
Qed.

Lemma place_next touch m L cur w (n : nat) p wc port :
  WInv L cur w -> L < 2 ^ 62 -> cur < 2 ^ 61 -> 0 <= m < 256 -> (touch = true -> occupancy w < WSZ) ->
  Z.of_nat n < H -> reserved touch m (nextWin w !!! n) p wc ->
  placed touch L cur w (cur - curPos w + H + Z.of_nat n) wc
    (mkWindow (curWin w) (<[n := wc]> (nextWin w)) (ubWin w) (occupancy w + (if touch then 1 else 0)) (curPos w) port).
Proof.
  intros I HL Hc62 Hm Ho Hn Hr. pose proof I as [P B C N Z0 S K Oc On Ou Y L0 OO OS].
  assert (Hlt : (n < length (nextWin w))%nat) by lia. pose proof (total_some _ _ Hlt) as Hsome.
  destruct (counts_bound H WSZ L cur w I) as (_ & Hb & _).
  destruct (reserved_ok touch m _ _ _ Hm (ok_total _ n On) ltac:(intros E; pose proof (Forall_lookup_1 _ _ _ _ Hb Hsome); specialize (Ho E); simpl in *; lia) Hr) as [Hok Hc].
  assert (T : forall c, cur <= c -> table cur
    (mkWindow (curWin w) (<[n := wc]> (nextWin w)) (ubWin w) (occupancy w + (if touch then 1 else 0)) (curPos w) port) c =
      if decide (c = cur - curPos w + H + Z.of_nat n) then wc else table cur w c).
  { intros c Hge. unfold OooWindowInv.table, OooWindowInv.cycle_at. simpl. destruct (decide (c = _)) as [->|Hne].
    - rewrite decide_False, decide_True by lia. replace (Z.to_nat _) with n by lia. by rewrite list_lookup_total_insert_eq.
    - repeat case_decide; try done. by rewrite list_lookup_total_insert_ne by lia. }
  split; [exact T|]. split; [|done]. constructor; simpl; try done; try lia.
  - by rewrite length_insert.
  - eapply Forall_impl; [exact K|]. simpl. lia.
  - by apply Forall_insert.
  - intros c Hge. rewrite T by lia. rewrite decide_False by lia. apply Y. lia.
  - rewrite OO. unfold total. simpl. rewrite (counts_insert _ _ _ _ Hsome). lia.
  - destruct touch; [specialize (Ho eq_refl)|]; lia.
Qed.

Lemma place_ub touch m L cur w ub start sched p port :
  WInv L cur w -> L < 2 ^ 62 -> start < 2 ^ 62 -> 0 < m < 256 -> (touch = true -> occupancy w < WSZ) ->
  cur - curPos w + 2 * H <= start -> map_post touch m start (ubWin w) ub sched p ->
  exists wc, sched <= Z.max L start /\ reserved touch m (table cur w sched) p wc /\
    placed touch L cur w sched wc (mkWindow (curWin w) (nextWin w) ub (occupancy w + (if touch then 1 else 0)) (curPos w) port).
Proof.
  intros I HL Hs62 Hm Ho Hst (wc & Hge & Hroom & Hfull & Hr & Hget & Hs & Hok & HP & Hcnt).
  pose proof I as [P B C N Z0 S K Oc On Ou Y L0 OO OS].
  assert (E : forall c, start <= c -> table cur w c = ub_map (ubWin w) !!! c).
  { intros c Hc. unfold OooWindowInv.table, OooWindowInv.cycle_at. by rewrite !decide_False by lia. }
  assert (Hmax : sched <= Z.max L start).
  { destruct (decide (sched <= Z.max L start)); [done|]. exfalso. specialize (Hfull (Z.max L start) ltac:(lia)).
    rewrite <- E, Y, room_zero in Hfull by lia. done. }
  exists wc. split; [done|]. rewrite E by done. split; [done|].
  assert (T : forall c, cur <= c -> table cur
    (mkWindow (curWin w) (nextWin w) ub (occupancy w + (if touch then 1 else 0)) (curPos w) port) c =
      if decide (c = sched) then wc else table cur w c).
  { intros c Hge'. unfold OooWindowInv.table, OooWindowInv.cycle_at. simpl. destruct (decide (c = sched)) as [->|Hne].
    - rewrite !decide_False by lia. by rewrite Hget, decide_True.
    - repeat case_decide; try done. by rewrite Hget, decide_False. }
  split; [exact T|]. split; [|done]. constructor; simpl; try done; try lia.
  - apply HP; [|lia]. eapply Forall_impl; [exact K|]. simpl. lia.
  - intros c Hge'. rewrite T by lia. rewrite decide_False by lia. apply Y. lia.
  - rewrite OO. unfold total. simpl. rewrite Hcnt. lia.
  - destruct touch; [specialize (Ho eq_refl)|]; lia.
Qed.

(** ** The search *)

(** The first cycle from [start] on with room for the request. *)
Definition earliest (m : Z) (tab : Z -> WinCycle) (start sched : Z) : Prop :=
  start <= sched /\ room m (tab sched) = true /\ forall c, start <= c < sched -> room m (tab c) = false.

(** The window with the slots of [w'] and the books of [w]. *)
Definition booked (w w' : WindowStructure) (occ port : Z) : WindowStructure :=
  mkWindow (curWin w') (nextWin w') (ubWin w') occ (curPos w) port.

Definition found_slot (touch : bool) (m L cur : Z) (w : WindowStructure) (start sched p : Z) (w' : WindowStructure) : Prop :=
  earliest m (table cur w) start sched /\ w' = booked w w' (occupancy w) (lastPort w) /\
  exists wc, reserved touch m (table cur w sched) p wc /\
    forall port, placed touch L cur w sched wc (booked w w' (occupancy w + (if touch then 1 else 0)) port).

(** A search that comes to the end of the first array. *)
Lemma full_cur m L cur w (pos : nat) : WInv L cur w ->
  (forall j wc, (pos <= j)%nat -> curWin w !! j = Some wc -> room m wc = false) ->
  forall c, cur - curPos w + Z.of_nat pos <= c < cur - curPos w + H -> room m (table cur w c) = false.
Proof.
  intros I Hf c Hc. pose proof (wi_cur _ _ _ _ _ I).
  unfold OooWindowInv.table, OooWindowInv.cycle_at. rewrite decide_True by lia.
  apply (Hf (Z.to_nat (c - (cur - curPos w)))); [lia|]. apply total_some. lia.
Qed.

Lemma full_next m L cur w (pos : nat) : WInv L cur w ->
  (forall j wc, (pos <= j)%nat -> nextWin w !! j = Some wc -> room m wc = false) ->
  forall c, cur - curPos w + H + Z.of_nat pos <= c < cur - curPos w + 2 * H -> room m (table cur w c) = false.
Proof.
  intros I Hf c Hc. pose proof (wi_next _ _ _ _ _ I).
  unfold OooWindowInv.table, OooWindowInv.cycle_at. rewrite decide_False, decide_True by lia.
  apply (Hf (Z.to_nat (c - (cur - curPos w) - H))); [lia|]. apply total_some. lia.
Qed.

(** The three outcomes of the search; [start] is the cycle it starts from. *)
Section outcomes.
Context (touch : bool) (m L cur : Z) (w : WindowStructure).
Context (I : WInv L cur w) (L_range : L < 2 ^ 62) (cur_range : cur < 2 ^ 61) (m_range : 0 < m < 256).
Context (has_room : touch = true -> occupancy w < WSZ).

Lemma table_cur (n : nat) wc : curWin w !! n = Some wc -> table cur w (cur - curPos w + Z.of_nat n) = wc.
Proof.
  intros Hl. pose proof (lookup_lt_Some _ _ _ Hl) as Hlt. pose proof (wi_cur _ _ _ _ _ I).
  unfold OooWindowInv.table, OooWindowInv.cycle_at. rewrite decide_True by lia. replace (Z.to_nat _) with n by lia.
  by apply list_lookup_total_correct.
Qed.

Lemma table_next (n : nat) wc : nextWin w !! n = Some wc -> table cur w (cur - curPos w + H + Z.of_nat n) = wc.
Proof.
  intros Hl. pose proof (lookup_lt_Some _ _ _ Hl) as Hlt. pose proof (wi_next _ _ _ _ _ I).
  unfold OooWindowInv.table, OooWindowInv.cycle_at. rewrite decide_False, decide_True by lia. replace (Z.to_nat _) with n by lia.
  by apply list_lookup_total_correct.
Qed.

Lemma table_ub c : cur - curPos w + 2 * H <= c -> table cur w c = ub_map (ubWin w) !!! c.
Proof. intros Hc. unfold OooWindowInv.table, OooWindowInv.cycle_at. by rewrite !decide_False by lia. Qed.

Lemma found_in_cur (pos : nat) cw i p :
  curPos w <= Z.of_nat pos -> scan_post touch m pos (curWin w) cw (Some (i, p)) ->
  curPos w <= i < H /\ found_slot touch m L cur w (cur - curPos w + Z.of_nat pos) (cur - curPos w + i) p (set_curWin cw w).
Proof.
  intros Hpos (n & wc & wc' & -> & Hn & Hl & Hroom & Hres & -> & Hfull). pose proof (lookup_lt_Some _ _ _ Hl) as Hlt.
  pose proof (wi_cur _ _ _ _ _ I) as C. pose proof (wi_pos _ _ _ _ _ I) as P. split; [lia|].
  pose proof (table_cur _ _ Hl) as E. split; [split_and!|].
  - lia.
  - by rewrite E.
  - intros c Hc. unfold OooWindowInv.table, OooWindowInv.cycle_at. rewrite decide_True by lia.
    apply (Hfull (Z.to_nat (c - (cur - curPos w)))); [lia|]. apply total_some. lia.
  - split; [done|]. exists wc'. rewrite E. split; [done|]. intros port.
    apply (place_cur touch m L cur w n p wc' port); try done; try lia. by rewrite (list_lookup_total_correct _ _ _ Hl).
Qed.

Lemma found_in_next (pos np : nat) nw i p :
  (Z.of_nat np = Z.max (Z.of_nat pos) H - H) ->
  (forall j wc, (pos <= j)%nat -> curWin w !! j = Some wc -> room m wc = false) ->
  scan_post touch m np (nextWin w) nw (Some (i, p)) ->
  0 <= i < H /\ found_slot touch m L cur w (cur - curPos w + Z.of_nat pos) (cur - curPos w + H + i) p (set_nextWin nw w).
Proof.
  intros Hpos F1 (n & wc & wc' & -> & Hn & Hl & Hroom & Hres & -> & Hfull). pose proof (lookup_lt_Some _ _ _ Hl) as Hlt.
  pose proof (wi_next _ _ _ _ _ I) as C. pose proof (wi_pos _ _ _ _ _ I) as P. split; [lia|].
  pose proof (table_next _ _ Hl) as E. split; [split_and!|].
  - lia.
  - by rewrite E.
  - intros c Hc. destruct (decide (c < cur - curPos w + H)); [eapply full_cur; eauto; lia|].
    unfold OooWindowInv.table, OooWindowInv.cycle_at. rewrite decide_False, decide_True by lia.
    apply (Hfull (Z.to_nat (c - (cur - curPos w) - H))); [lia|]. apply total_some. lia.
  - split; [done|]. exists wc'. rewrite E. split; [done|]. intros port.
    apply (place_next touch m L cur w n p wc' port); try done; try lia. by rewrite (list_lookup_total_correct _ _ _ Hl).
Qed.

Lemma found_in_ub (pos np : nat) ub c p :
  (Z.of_nat np = Z.max (Z.of_nat pos) H - H) -> cur - curPos w + Z.of_nat pos < 2 ^ 62 ->
  (forall j wc, (pos <= j)%nat -> curWin w !! j = Some wc -> room m wc = false) ->
  (forall j wc, (np <= j)%nat -> nextWin w !! j = Some wc -> room m wc = false) ->
  map_post touch m (cur - curPos w + H + Z.max (Z.of_nat np) H) (ubWin w) ub c p ->
  found_slot touch m L cur w (cur - curPos w + Z.of_nat pos) c p (set_ubWin ub w).
Proof.
  intros Hpos Hlim F1 F2 Hp. pose proof Hp as (wc & Hge & Hroom & Hfull & Hres & _).
  pose proof (wi_pos _ _ _ _ _ I) as P. split; [split_and!|].
  - lia.
  - by rewrite table_ub by lia.
  - intros x Hx. destruct (decide (x < cur - curPos w + H)); [eapply full_cur; eauto; lia|].
    destruct (decide (x < cur - curPos w + 2 * H)); [eapply full_next; eauto; lia|]. rewrite table_ub by lia. apply Hfull. lia.
  - split; [done|]. exists wc. rewrite table_ub by lia. split; [done|]. intros port.
    destruct (place_ub touch m L cur w ub (cur - curPos w + H + Z.max (Z.of_nat np) H) c p port I L_range ltac:(lia) m_range has_room ltac:(lia) Hp) as (wc2 & _ & Hres2 & Hpl).
    rewrite table_ub in Hres2 by lia. enough (wc2 = wc) as -> by done.
    unfold reserved in Hres, Hres2. destruct touch; by destruct Hres as [_ ->], Hres2 as [_ ->].
Qed.
End outcomes.

Lemma find_slot_spec touch m L cur sched w :
  WInv L cur w -> L < 2 ^ 62 -> cur < 2 ^ 61 -> 0 < m < 256 -> sched < cur + 2 ^ 31 -> (touch = true -> occupancy w < WSZ) ->
  exists sched' p w', find_slot H touch cur sched m w = Ok ((sched', p), w') /\
    found_slot touch m L cur w (Z.max cur sched) sched' p w'.
Proof.
  intros I HL Hc61 Hm Hs Ho. pose proof I as [P B C N Z0 S K Oc On Ou Y L0 OO OS].
  destruct (counts_bound H WSZ L cur w I) as (Bc & Bn & Bu). assert (Hocc := occupancy_range H WSZ WSZ_range L cur w I).
  assert (Hfit : forall l, Forall wc_ok l -> Forall (fun wc => count wc <= occupancy w) l ->
    Forall (fun wc => wc_ok wc /\ (touch = true -> count wc < 255)) l).
  { intros l Hl Hb. rewrite Forall_forall in Hl, Hb |- *. intros x Hx. specialize (Hl x Hx). specialize (Hb x Hx). simpl in Hb.
    split; [done|]. intros E. specialize (Ho E). lia. }
  unfold find_slot, gets, lift, modify, mret, st_ret, mbind, st_bind. simpl.
  set (pos := u32 (curPos w + _)).
  assert (Epos : pos = curPos w + (Z.max cur sched - cur)).
  { unfold pos. case Z.ltb_spec; intros; [rewrite (u32_id (sched - cur)) by (unfold in_u32, W32; lia)|];
      rewrite u32_id by (unfold in_u32, W32; lia); lia. }
  replace (Z.max cur sched) with (cur - curPos w + Z.of_nat (Z.to_nat pos)) by lia.
  destruct (window_scan_spec touch m (Z.to_nat pos) (curWin w)) as (cw & f1 & -> & P1); [lia|by apply Hfit|].
  destruct f1 as [[i p]|].
  { apply (found_in_cur touch m L cur w) in P1 as [Hi F]; try done; try lia.
    rewrite (u32_id (_ - _)), u64_id by (unfold in_u32, in_u64, W32, W64; lia).
    replace (cur + (i - curPos w)) with (cur - curPos w + i) by lia. eauto. }
  destruct P1 as [-> F1]. simpl.
  destruct (window_scan_spec touch m (Z.to_nat (Z.max pos H - H)) (nextWin w)) as (nw & f2 & -> & P2); [lia|by apply Hfit|].
  destruct f2 as [[i p]|].
  { apply (found_in_next touch m L cur w I HL Hc61 Hm Ho (Z.to_nat pos)) in P2 as [Hi F]; [|lia|done].
    rewrite (u32_id (_ - _)), u64_id by (unfold in_u32, in_u64, W32, W64; lia).
    replace (cur + (i + H - curPos w)) with (cur - curPos w + H + i) by lia. eexists _, _, _. split; [done|]. by destruct w. }
  destruct P2 as [-> F2]. simpl.
  rewrite (u32_id (_ - _)), (u64_id (cur + _)) by (unfold in_u32, in_u64, W32, W64; lia).
  replace (cur + _) with (cur - curPos w + H + Z.max (Z.of_nat (Z.to_nat (Z.max pos H - H))) H) by lia.
  edestruct (scan_map_spec touch m (ubWin w)) as (ub & c & p & -> & Hp); [done..| |].
  { intros E. eapply Forall_impl; [exact Bu|]. simpl. specialize (Ho E). lia. }
  eexists _, _, _. split; [done|].
  apply (found_in_ub touch m L cur w I HL Hc61 Hm Ho (Z.to_nat pos)) in Hp; [by destruct w|lia|lia|done|done].
Qed.

(** ** Scheduling *)

Lemma earliest_bound L cur w m start sched :
  WInv L cur w -> 0 < m < 256 -> earliest m (table cur w) start sched -> sched <= Z.max L start.
Proof.
  intros I Hm (Hge & _ & Hf). destruct (decide (sched <= Z.max L start)); [done|]. exfalso.
  specialize (Hf (Z.max L start) ltac:(lia)). rewrite (wi_beyond _ _ _ _ _ I), room_zero in Hf by (done || lia). done.
Qed.

Lemma earliest_ext m tab tab' start sched :
  (forall c, start <= c -> tab c = tab' c) -> earliest m tab start sched -> earliest m tab' start sched.
Proof. intros E (Hge & Hr & Hf). split; [done|]. rewrite <- E by done. split; [done|]. intros c Hc. rewrite <- E by lia. by apply Hf. Qed.

(** The wait of a request that counts; a shadow request does not wait. *)
Definition waited (touch : bool) (L cur : Z) (w : WindowStructure) (cur' : Z) (w1 : WindowStructure) : Prop :=
  advanced_to L cur w cur' w1 /\
  if touch then pending H cur w cur' < WSZ /\ forall x, cur <= x < cur' -> pending H cur w x = WSZ else cur' = cur /\ w1 = w.

Lemma wait_spec (touch : bool) L cur w : WInv L cur w ->
  exists cur' w1, (if touch then make_room H WSZ (Z.to_nat (horizon H cur w - cur)) cur else mret cur) w = Ok (cur', w1) /\
    waited touch L cur w cur' w1 /\ (touch = true -> occupancy w1 < WSZ).
Proof.
  intros I. destruct touch.
  - destruct (make_room_spec H WSZ H_range WSZ_range (Z.to_nat (horizon H cur w - cur)) L (horizon H cur w) cur w I
      (table_past_horizon H WSZ H_range L cur w I) ltac:(lia)) as (cur' & w1 & -> & A & Ho & Hp).
    exists cur', w1. split; [done|]. split; [|done]. split; [done|]. split; [|done]. by destruct A as (_ & _ & _ & <-).
  - exists cur, w. split; [done|]. split; [|done]. split; [by apply advanced_to_refl|done].
Qed.

(** A request at cycle [cur] that gets the slot [sched'] of cycle [cur']. *)
Definition scheduled (touch : bool) (m L cur sched : Z) (w : WindowStructure) (cur' sched' p : Z) (w' : WindowStructure) : Prop :=
  earliest m (table cur w) (Z.max cur' sched) sched' /\
  (exists wc, reserved touch m (table cur w sched') p wc /\
    forall c, cur' <= c -> table cur' w' c = if decide (c = sched') then wc else table cur w c) /\
  occupancy w' = pending H cur w cur' + (if touch then 1 else 0) /\ WInv (Z.max L (sched' + 1)) cur' w'.

Lemma scheduleInternal_spec touch rec L cur sched m w :
  WInv L cur w -> L < 2 ^ 61 -> 0 < m < 256 -> sched < cur + 2 ^ 31 ->
  exists cur' sched' w1 w', scheduleInternal H WSZ touch rec cur sched m w = Ok ((cur', sched'), w') /\
    waited touch L cur w cur' w1 /\
    exists p, scheduled touch m L cur sched w cur' sched' p w' /\ (rec = true -> lastPort w' = p).
Proof.
  intros I HL Hm Hs. unfold scheduleInternal. unfold mbind at 1, st_bind at 1, gets. cbn [id].
  destruct (wait_spec touch L cur w I) as (cur' & w1 & Hw & W & Ho).
  unfold mbind at 1, st_bind at 1. rewrite Hw. pose proof W as ((Hle & I1 & Ht & Hocc) & _).
  pose proof (wi_limit _ _ _ _ _ I1) as HL1.
  destruct (find_slot_spec touch m L cur' sched w1 I1) as (sched' & p & w2 & Hf & (He & Hw2 & wc & Hr & Hpl)); try done; try lia.
  unfold mbind at 1, st_bind at 1. rewrite Hf.
  set (w' := booked w1 w2 (occupancy w1 + (if touch then 1 else 0)) (if rec then p else lastPort w1)).
  exists cur', sched', w1, w'. split; [|split; [done|exists p; split; [|by unfold w'; destruct rec]]].
  - rewrite Hw2. unfold w', booked. destruct rec, touch; unfold mbind, st_bind, when, modify, mret, st_ret, set_lastPort, set_occupancy; simpl;
      rewrite ?(u32_id (occupancy w1 + 1)), ?Z.add_0_r; try done;
      pose proof (occupancy_range H WSZ WSZ_range L cur' w1 I1); unfold in_u32, W32; lia.
  - destruct (Hpl (if rec then p else lastPort w1)) as (Ht' & I' & Ho'). fold w' in Ht', I', Ho'.
    split_and!; [|exists wc|by rewrite Ho', Hocc|done].
    + eapply earliest_ext; [|exact He]. intros c Hc. apply Ht. lia.
    + rewrite <- Ht by (destruct He; lia). split; [done|]. intros c Hc. rewrite Ht' by done. case_decide; [done|]. by apply Ht.
Qed.

(** [n] more slots on a port: each the first free one after the one before. *)
Inductive shadows (m cur : Z) : nat -> Z -> (Z -> WinCycle) -> (Z -> WinCycle) -> Prop :=
  | shadows_none start tab tab' : (forall c, cur <= c -> tab' c = tab c) -> shadows m cur O start tab tab'
  | shadows_more n start c tab tab1 tab' : earliest m tab (Z.max cur start) c ->
      (forall x, cur <= x -> tab1 x = if decide (x = c) then mkWinCycle (Z.lor (occUnits (tab c)) m) (count (tab c)) else tab x) ->
      shadows m cur n (c + 1) tab1 tab' -> shadows m cur (S n) start tab tab'.

Lemma extra_spec n L cur start m w :
  WInv L cur w -> Z.max L start + Z.of_nat n < cur + 2 ^ 31 -> cur < 2 ^ 60 -> 0 < m < 256 ->
  exists w' L', extra H WSZ n cur start m w = Ok (tt, w') /\ shadows m cur n start (table cur w) (table cur w') /\
    WInv L' cur w' /\ L' <= Z.max L start + Z.of_nat n /\ occupancy w' = occupancy w.
Proof.
  revert L start w. induction n as [|n IH]; intros L start w I HL Hc Hm; cbn [extra].
  { exists w, L. split; [done|]. split; [by constructor|]. split; [done|]. split; [lia|done]. }
  destruct (scheduleInternal_spec false false L cur start m w I) as (cur' & c & w1 & w2 & Hr & (_ & -> & ->) & p & (He & (wc & Hres & Ht) & Ho & I2) & _); try done; try lia.
  unfold mbind at 1, st_bind at 1. rewrite Hr. pose proof (earliest_bound _ _ _ _ _ _ I Hm He) as Hb.
  pose proof (wi_limit _ _ _ _ _ I) as Hlim. pose proof (wi_base _ _ _ _ _ I). pose proof (wi_pos _ _ _ _ _ I). destruct He as (Hge & He).
  rewrite u64_id by (unfold in_u64, W64; lia).
  destruct (IH _ (c + 1) w2 I2) as (w' & L' & -> & Hsh & I' & HL' & Ho'); try done; try lia.
  exists w', L'. split; [done|]. split; [|split; [done|split; [|rewrite Ho', Ho, pending_now; lia]]].
  - destruct Hres as [_ ->]. apply (shadows_more m cur n start c _ (table cur w2)); [by split|exact Ht|done].
  - lia.
Qed.

(** A micro-operation: its slot, then the shadow slots on the same port. *)
Lemma schedule_spec L cur sched m extraSlots w :
  WInv L cur w -> L < 2 ^ 60 -> 0 < m < 256 -> 0 <= extraSlots -> Z.max L sched + extraSlots + 2 < cur + 2 ^ 31 ->
  exists cur' sched' p w1 w' L', schedule H WSZ cur sched m extraSlots w = Ok ((cur', sched'), w') /\
    cur <= cur' <= L /\ pending H cur w cur' < WSZ /\ (forall x, cur <= x < cur' -> pending H cur w x = WSZ) /\
    scheduled true m L cur sched w cur' sched' p w1 /\
    shadows (Z.shiftl 1 p) cur' (Z.to_nat extraSlots) (sched' + 1) (table cur' w1) (table cur' w') /\
    WInv L' cur' w' /\ L' <= Z.max L sched + extraSlots + 1 /\ occupancy w' = pending H cur w cur' + 1.
Proof.
  intros I HL Hm Hx Hs. unfold schedule.
  pose proof (wi_limit _ _ _ _ _ I) as Hlim.
  destruct (scheduleInternal_spec true (negb (extraSlots =? 0)) L cur sched m w I) as
    (cur' & sched' & w0 & w1 & Hr & ((Hle & I0 & Ht0 & Ho0) & Hp1 & Hp2) & p & S & Hp); try done; try lia.
  pose proof S as (He & (wc & Hres & Ht) & Ho & I1). pose proof (wi_limit _ _ _ _ _ I0) as Hlim0.
  pose proof (wi_size _ _ _ _ _ I1) as Hsz.
  pose proof (earliest_bound _ _ _ _ _ _ I Hm He) as Hb.
  destruct (Z.eqb_spec extraSlots 0) as [->|Hne]; simpl in Hr, Hp.
  - exists cur', sched', p, w1, w1, (Z.max L (sched' + 1)). split.
    { unfold mbind, st_bind. rewrite Hr. unfold gets, assert_, mret, st_ret. by rewrite (proj2 (Z.leb_le _ _) Hsz). }
    split_and!; try done; try lia. by constructor.
  - assert (Hp8 : 0 <= p < 8) by (by destruct Hres as [[? _] _]).
    pose proof (shiftl_small p Hp8) as Hsm. pose proof He as (Hge & _).
    pose proof (wi_base _ _ _ _ _ I1). pose proof (wi_pos _ _ _ _ _ I1).
    destruct (extra_spec (Z.to_nat extraSlots) (Z.max L (sched' + 1)) cur' (sched' + 1) (Z.shiftl 1 p) w1 I1)
      as (w' & L' & Hx' & Hsh & I' & HL' & Ho'); try lia.
    pose proof (wi_size _ _ _ _ _ I') as Hsz'.
    exists cur', sched', p, w1, w', L'. split.
    { unfold mbind, st_bind. rewrite Hr. unfold gets, assert_, mret, st_ret. rewrite (Hp eq_refl).
      rewrite u64_id by (unfold in_u64, W64; lia). unfold u8. rewrite Z.mod_small by lia. rewrite Hx'.
      by rewrite (proj2 (Z.leb_le _ _) Hsz'). }
    split_and!; try done; try lia.
Qed.

(** ** Long advances *)

Lemma longAdvance_loop_spec fuel L cur target w :
  WInv L cur w -> cur <= target -> target <= cur + Z.of_nat fuel ->
  exists c w', longAdvance_loop H fuel cur target w = Ok (c, w') /\ advanced_to L cur w c w' /\ c <= target /\
    (occupancy w' = 0 \/ c = target) /\ forall x, cur <= x < c -> pending H cur w x <> 0.
Proof.
  revert cur w. induction fuel as [|fuel IH]; intros cur w I Hle Hf; simpl.
  all: destruct (Z.eqb_spec (occupancy w) 0) as [Ho|Ho]; simpl;
    [eexists _, _; split; [done|]; split; [by apply advanced_to_refl|]; split; [done|]; split; [by left|]; intros; lia|].
  all: case Z.ltb_spec; intros Hlt;
    [|eexists _, _; split; [done|]; split; [by apply advanced_to_refl|]; split; [done|]; split; [right; lia|]; intros; lia].
  - lia.
  - pose proof (busy_before H WSZ H_range L L cur w I (wi_beyond _ _ _ _ _ I) Ho) as Hl.
    destruct (advancePos_spec H WSZ H_range WSZ_range L cur w I Hl) as (w1 & -> & A).
    destruct (IH (cur + 1) w1) as (c & w' & -> & A' & Hc & Hend & Hp); [apply A|lia|lia|].
    eexists _, _. split; [done|]. split; [by eapply advanced_to_step|]. split; [done|]. split; [done|].
    intros x Hx. destruct (decide (x = cur)) as [->|]; [by rewrite pending_now|].
    rewrite <- (pending_later H WSZ L cur w w1) by (done || lia). apply Hp. lia.
Qed.

(** The window moves to the first cycle with nothing pending, and the clock to the target. *)
Lemma longAdvance_spec L cur target w :
  WInv L cur w -> cur <= target ->
  exists c w', longAdvance H cur target w = Ok (target, w') /\ advanced_to L cur w c w' /\ c <= target /\
    (pending H cur w c = 0 \/ c = target) /\ forall x, cur <= x < c -> pending H cur w x <> 0.
Proof.
  intros I Hle. destruct (longAdvance_loop_spec (Z.to_nat (target - cur)) L cur target w I Hle ltac:(lia)) as (c & w' & Hr & A & Hc & Hend & Hp).
  exists c, w'. pose proof A as (_ & _ & _ & Ho). split; [|split; [done|split; [done|split; [by rewrite <- Ho|done]]]].
  unfold longAdvance, mbind, st_bind, gets, assert_, mret, st_ret. rewrite (proj2 (Z.leb_le _ _) Hle), Hr.
  destruct (Z.eqb_spec (occupancy w') 0) as [E|E]; simpl.
  - by rewrite (proj2 (Z.leb_le _ _) Hc).
  - destruct Hend as [?| ->]; [done|]. by rewrite Z.eqb_refl.
Qed.

Lemma window_init_inv port : WInv 0 0 (WindowStructure_init H port).
Proof.
  constructor; simpl; try done; try lia; rewrite ?length_replicate; try done; try constructor.
  - apply Forall_replicate, zero_ok.
  - apply Forall_replicate, zero_ok.
  - intros c Hc. unfold OooWindowInv.table, OooWindowInv.cycle_at. simpl.
    repeat case_decide; [| |done]; by rewrite lookup_total_replicate_2 by lia.
  - unfold total, counts. simpl. rewrite fmap_replicate, sumZ_replicate. simpl. lia.
Qed.
End window.

(** C12: The instruction window gives an operation the earliest slot there is.  In every
    well-formed window, and for every mask of ports, [schedule] returns: no assertion
    fails, and its loops end.  The core waits only while the window is full, cycle by
    cycle, until the first cycle in which it is not.  The slot is the first cycle,
    from the one asked for on, in which a port of the mask is free - whichever of the
    two arrays and the map holds it - and the operation gets the first free port of
    it; the slots of an operation that is not pipelined are each the next free ones of
    that port, and no other slot changes.  The window stays well formed: what is in it
    is counted exactly, and never more than its size. *)
Theorem slot_is_earliest H WSZ L cur sched m extraSlots w :
  0 < H < 2 ^ 29 -> 0 < WSZ < 256 -> WInv H WSZ L cur w -> L < 2 ^ 60 ->
  0 < m < 256 -> 0 <= extraSlots -> Z.max L sched + extraSlots + 2 < cur + 2 ^ 31 ->
  exists cur' sched' p w1 w' L', schedule H WSZ cur sched m extraSlots w = Ok ((cur', sched'), w') /\
    cur <= cur' <= L /\ pending H cur w cur' < WSZ /\ (forall x, cur <= x < cur' -> pending H cur w x = WSZ) /\
    scheduled H WSZ true m L cur sched w cur' sched' p w1 /\
    shadows (Z.shiftl 1 p) cur' (Z.to_nat extraSlots) (sched' + 1) (table H cur' w1) (table H cur' w') /\
    WInv H WSZ L' cur' w' /\ L' <= Z.max L sched + extraSlots + 1 /\ occupancy w' = pending H cur w cur' + 1.
Proof. intros. by apply schedule_spec. Qed.

(** The window of the core at the start: an operation for cycle 7 on ports 0 and 5, with two more slots. *)
Lemma slot_is_earliest_witness : exists cur' sched' p w1 w' L',
  schedule 1024 36 0 7 33 2 (WindowStructure_init 1024 0) = Ok ((cur', sched'), w') /\
    0 <= cur' <= 0 /\ pending 1024 0 (WindowStructure_init 1024 0) cur' < 36 /\
    (forall x, 0 <= x < cur' -> pending 1024 0 (WindowStructure_init 1024 0) x = 36) /\
    scheduled 1024 36 true 33 0 0 7 (WindowStructure_init 1024 0) cur' sched' p w1 /\
    shadows (Z.shiftl 1 p) cur' (Z.to_nat 2) (sched' + 1) (table 1024 cur' w1) (table 1024 cur' w') /\
    WInv 1024 36 L' cur' w' /\ L' <= Z.max 0 7 + 2 + 1 /\ occupancy w' = pending 1024 0 (WindowStructure_init 1024 0) cur' + 1.
Proof.
  apply (slot_is_earliest 1024 36 0 0 7 33 2 (WindowStructure_init 1024 0)); [lia|lia|apply window_init_inv; lia|lia|lia|lia|lia].
Defined.
