(* ===== verification/OooBuffers.v ===== *)
(** * Reorder buffers, cycle queues and the branch predictor (ooo_core.h)

    The reorder buffer and the queues of the out-of-order core are rings of the
    cycles in which their last [SZ] entries leave: an operation that finds the ring
    full waits for the cycle in the ring's current place.  The branch predictor
    keeps a history per branch and a two-bit counter per folded history. *)

From stdpp Require Import base tactics numbers list.
From Stdlib Require Import ZArith Lia.
From S2P Require Import Prelude.

Open Scope Z_scope.

Module ReorderBuffer.

Record t : Type := mk { buf : list Z; curRetireCycle : Z; curCycleRetires : Z; idx : Z }.

Section code.
Context (SZ W : Z).

Definition init : t := mk (replicate (Z.to_nat SZ) 0) 0 1 0.

Definition minAllocCycle : st t Z := fun q =>
  match buf q !! Z.to_nat (idx q) with Some c => Ok (c, q) | None => Err Panicked end.

(** The cycle, and the number of retirements in it, of one more entry. *)
Definition retire (minRetireCycle : Z) (q : t) : Z * Z :=
  if minRetireCycle <=? curRetireCycle q then (* retire with bundle *)
    if curCycleRetires q =? W then (u64 (curRetireCycle q + 1), 0)
    else (curRetireCycle q, u32 (curCycleRetires q + 1))
  else (minRetireCycle, 1). (* advance *)

Definition markRetire (minRetireCycle : Z) : st t unit := fun q =>
  let '(cycle, n) := retire minRetireCycle q in
  match buf q !! Z.to_nat (idx q) with
  | None => Err Panicked
  | Some _ =>
    let i := u32 (idx q + 1) in
    Ok (tt, mk (<[Z.to_nat (idx q) := cycle]> (buf q)) cycle n (if i =? SZ then 0 else i))
  end.

(** The way [bbl] uses a buffer: an entry is allocated, and leaves. *)
Definition enter (minRetireCycle : Z) : st t (Z * Z) :=
  alloc ← minAllocCycle;
  markRetire minRetireCycle;;
  c ← gets curRetireCycle;
  mret (alloc, c).

(** A list of entries: the cycle in which each found its place, and in which it left. *)
Fixpoint run (l : list Z) : st t (list (Z * Z)) :=
  match l with
  | [] => mret []
  | m :: l => r ← enter m; rs ← run l; mret (r :: rs)
  end.
End code.
End ReorderBuffer.

Module CycleQueue.

Record t : Type := mk { buf : list Z; idx : Z }.

Section code.
Context (SZ : Z).

Definition init : t := mk (replicate (Z.to_nat SZ) 0) 0.

Definition minAllocCycle : st t Z := fun q =>
  match buf q !! Z.to_nat (idx q) with Some c => Ok (c, q) | None => Err Panicked end.

Definition markLeave (leaveCycle : Z) : st t unit := fun q =>
  match buf q !! Z.to_nat (idx q) with
  | None => Err Panicked
  | Some _ =>
    let i := u32 (idx q + 1) in
    Ok (tt, mk (<[Z.to_nat (idx q) := leaveCycle]> (buf q)) (if i =? SZ then 0 else i))
  end.
End code.
End CycleQueue.

Module BranchPredictor.

Record t : Type := mk { bhsr : list Z; pht : list Z }.

Section code.
Context (NB HB LB : Z).

Definition init : t := mk (replicate (Z.to_nat (2 ^ NB)) 0) (replicate (Z.to_nat (2 ^ LB)) 1).  (* weak non-taken *)

Definition bhsrMask : Z := Z.shiftl 1 NB - 1.
Definition histMask : Z := Z.shiftl 1 HB - 1.
Definition phtMask : Z := Z.shiftl 1 LB - 1.

Definition bhsr_index (branchPc : Z) : Z := Z.land (u32 (Z.shiftr branchPc 1)) bhsrMask.

(** The history, folded to the size of the pattern table. *)
Definition pht_index (history : Z) : Z :=
  Z.land (Z.lxor history (Z.shiftr (Z.land history (Z.lnot phtMask)) (HB - LB))) phtMask.

(** The two-bit saturating counter. *)
Definition counter_update (taken pred : bool) (c : Z) : Z :=
  if taken then (if pred then 3 else c + 1) else (if pred then c - 1 else 0).

Definition history_update (taken : bool) (h : Z) : Z :=
  Z.lor (Z.land (u32 (Z.shiftl h 1)) histMask) (if taken then 1 else 0).

(** [predict]: false if mispredicted. *)
Definition predict (branchPc : Z) (taken : bool) : st t bool := fun b =>
  let i := bhsr_index branchPc in
  match bhsr b !! Z.to_nat i with
  | None => Err Panicked
  | Some h =>
    let j := pht_index h in
    match pht b !! Z.to_nat j with
    | None => Err Panicked
    | Some c =>
      let pred := 1 <? c in
      Ok (Bool.eqb taken pred,
          mk (<[Z.to_nat i := history_update taken h]> (bhsr b)) (<[Z.to_nat j := counter_update taken pred c]> (pht b)))
    end
  end.

(** A sequence of branches: which of the predictions were right. *)
Fixpoint predict_all (l : list (Z * bool)) : st t (list bool) :=
  match l with
  | [] => mret []
  | (pc, taken) :: l => r ← predict pc taken; rs ← predict_all l; mret (r :: rs)
  end.
End code.
End BranchPredictor.

(** ** Rings

    An array of [SZ] entries with the index of the next one holds the last [SZ]
    elements of the list of everything that was put in it, the initial zeros
    included. *)
Module Ring.
Section ring.
Context (SZ : Z).
Context (SZ_range : 0 < SZ < 2 ^ 31).

Definition ring (hist b : list Z) (i : Z) : Prop :=
  length b = Z.to_nat SZ /\ exists n : nat, length hist = (Z.to_nat SZ + n)%nat /\ i = Z.of_nat n `mod` SZ /\
    forall k, (n <= k < n + Z.to_nat SZ)%nat -> b !! Z.to_nat (Z.of_nat k `mod` SZ) = hist !! k.

Lemma ring_init : ring (replicate (Z.to_nat SZ) 0) (replicate (Z.to_nat SZ) 0) 0.
Proof.
  split; [apply length_replicate|]. exists O. rewrite length_replicate, Nat.add_0_r. split; [done|]. split; [done|].
  intros k Hk. by rewrite Z.mod_small, Nat2Z.id by lia.
Qed.

(** The entry in the place of the next one is the one [SZ] before it. *)
Lemma ring_head hist b i : ring hist b i ->
  exists a, b !! Z.to_nat i = Some a /\ hist !! (length hist - Z.to_nat SZ)%nat = Some a.
Proof.
  intros (Hb & n & Hl & -> & Hr). rewrite Hr by lia. replace (length hist - Z.to_nat SZ)%nat with n by lia.
  destruct (lookup_lt_is_Some_2 hist n) as [a Ha]; [lia|]. eauto.
Qed.

(** Different places for [SZ] indices in a row. *)
Lemma places_differ (n k : nat) : (n < k < n + Z.to_nat SZ)%nat -> Z.to_nat (Z.of_nat n `mod` SZ) <> Z.to_nat (Z.of_nat k `mod` SZ).
Proof.
  intros Hk E%Z2Nat.inj; [|apply Z.mod_pos_bound; lia..].
  replace (Z.of_nat k) with (Z.of_nat n + (Z.of_nat k - Z.of_nat n)) in E by lia. rewrite <- Zplus_mod_idemp_l in E.
  set (x := Z.of_nat n `mod` SZ) in *. set (d := _ - _) in E.
  assert (Hd : 0 < d < SZ) by (unfold d; lia). assert (Hx : 0 <= x < SZ) by (apply Z.mod_pos_bound; lia).
  destruct (decide (x + d < SZ)); [rewrite Z.mod_small in E by lia; lia|].
  rewrite <- (Z_mod_plus_full _ (-1)), Z.mod_small in E by lia. lia.
Qed.

Lemma ring_push hist b i c : ring hist b i ->
  ring (hist ++ [c]) (<[Z.to_nat i := c]> b) (if u32 (i + 1) =? SZ then 0 else u32 (i + 1)).
Proof.
  intros (Hb & n & Hl & Hi & Hr). split; [by rewrite length_insert|]. exists (S n).
  assert (Hmod : 0 <= i < SZ) by (rewrite Hi; apply Z.mod_pos_bound; lia).
  split; [rewrite length_app; simpl; lia|]. split.
  - rewrite u32_id by (unfold in_u32, W32; lia). rewrite Nat2Z.inj_succ, <- Z.add_1_r, <- Zplus_mod_idemp_l, <- Hi.
    case Z.eqb_spec; intros E; [rewrite E; by rewrite Z_mod_same_full|]. by rewrite Z.mod_small by lia.
  - intros k Hk. destruct (decide (k = n + Z.to_nat SZ)%nat) as [->|Hne].
    + rewrite lookup_app_r, Hl by lia. replace (n + Z.to_nat SZ - (Z.to_nat SZ + n))%nat with O by lia. simpl.
      replace (Z.of_nat (n + Z.to_nat SZ)) with (Z.of_nat n + 1 * SZ) by lia. rewrite Z_mod_plus_full, <- Hi.
      apply list_lookup_insert_eq. lia.
    + rewrite lookup_app_l, <- Hr by lia. apply list_lookup_insert_ne. rewrite Hi. apply places_differ. lia.
Qed.
End ring.
End Ring.

(** ** Reorder buffers *)

Module ReorderBufferProps.
Import ReorderBuffer Ring.

(** How many entries leave in cycle [c]. *)
Definition leaving (c : Z) (rs : list Z) : Z := Z.of_nat (length (filter (fun r => r = c) rs)).

Lemma leaving_app c rs r : leaving c (rs ++ [r]) = leaving c rs + (if decide (r = c) then 1 else 0).
Proof. unfold leaving. rewrite filter_app, length_app. rewrite filter_cons, filter_nil. case_decide; simpl; lia. Qed.

Section props.
Context (SZ W : Z).
Context (SZ_range : 0 < SZ < 2 ^ 31) (W_range : 0 < W < 2 ^ 31).

(** All the cycles the ring has held: its initial zeros, then the retirements [rs]. *)
Definition history (rs : list Z) : list Z := replicate (Z.to_nat SZ) 0 ++ rs.

Record RInv (rs : list Z) (q : t) : Prop := {
  ri_ring : ring SZ (history rs) (buf q) (idx q);
  ri_last : Forall (fun r => r <= curRetireCycle q) rs;
  ri_width : 0 <= curCycleRetires q <= W;
  ri_count : leaving (curRetireCycle q) rs <= curCycleRetires q + 1;
  ri_band : forall c, leaving c rs <= W + 1
}.

Lemma history_length rs : length (history rs) = (Z.to_nat SZ + length rs)%nat.
Proof. unfold history. by rewrite length_app, length_replicate. Qed.

Lemma history_app rs r : history (rs ++ [r]) = history rs ++ [r].
Proof. unfold history. by rewrite app_assoc. Qed.

Lemma leaving_fresh c rs : Forall (fun r => r < c) rs -> leaving c rs = 0.
Proof.
  unfold leaving. induction 1 as [|r l Hr Hl IH]; [done|]. rewrite filter_cons, decide_False by lia. done.
Qed.

Lemma rob_init : RInv [] (init SZ).
Proof.
  constructor; simpl; try done; try lia.
  - unfold history. rewrite app_nil_r. by apply ring_init.
  - intros c. change (0 <= W + 1). lia.
Qed.

(** The cycle of a retirement: no earlier than asked for and than the one before,
    and no later than the cycle after. *)
Lemma retire_spec m rs q : RInv rs q -> 0 <= curRetireCycle q < 2 ^ 63 ->
  let '(c, n) := retire W m q in
  m <= c /\ curRetireCycle q <= c /\ c <= Z.max m (curRetireCycle q + 1) /\ 0 <= n <= W /\
  leaving c (rs ++ [c]) <= n + 1 /\ (forall x, leaving x (rs ++ [c]) <= W + 1).
Proof.
  intros I Hc. pose proof I as [Hr La [Wi0 Wi] Co Ba]. unfold retire.
  assert (Hfr : forall c, curRetireCycle q < c -> leaving c rs = 0).
  { intros c Hlt. apply leaving_fresh. eapply Forall_impl; [exact La|]. simpl. lia. }
  assert (B : forall c n, n <= W -> leaving c rs + 1 <= n + 1 ->
    leaving c (rs ++ [c]) <= n + 1 /\ forall x, leaving x (rs ++ [c]) <= W + 1).
  { intros c n Hn Hlv. split; [rewrite leaving_app, decide_True by done; lia|]. intros x. rewrite leaving_app.
    case_decide; [subst; lia|]. specialize (Ba x). lia. }
  case Z.leb_spec; intros Hm; [case Z.eqb_spec; intros Hn|].
  - rewrite u64_id by (unfold in_u64, W64; lia). specialize (Hfr (curRetireCycle q + 1) ltac:(lia)).
    destruct (B (curRetireCycle q + 1) 0) as [? ?]; [lia..|]. split_and!; try done; lia.
  - rewrite u32_id by (unfold in_u32, W32; lia).
    destruct (B (curRetireCycle q) (curCycleRetires q + 1)) as [? ?]; [lia..|]. split_and!; try done; lia.
  - specialize (Hfr m ltac:(lia)). destruct (B m 1) as [? ?]; [lia..|]. split_and!; try done; lia.
Qed.

(** An entry finds its place when the entry [SZ] before it leaves. *)
Lemma minAlloc_spec rs q : RInv rs q -> exists a, minAllocCycle q = Ok (a, q) /\ history rs !! length rs = Some a.
Proof.
  intros I. destruct (ring_head SZ SZ_range _ _ _ (ri_ring _ _ I)) as (a & Hb & Ha).
  rewrite history_length in Ha. replace (Z.to_nat SZ + length rs - Z.to_nat SZ)%nat with (length rs) in Ha by lia.
  exists a. unfold minAllocCycle. by rewrite Hb.
Qed.

Lemma markRetire_spec m rs q : RInv rs q -> 0 <= curRetireCycle q < 2 ^ 63 ->
  exists q', markRetire SZ W m q = Ok (tt, q') /\
    m <= curRetireCycle q' /\ curRetireCycle q <= curRetireCycle q' <= Z.max m (curRetireCycle q + 1) /\
    RInv (rs ++ [curRetireCycle q']) q'.
Proof.
  intros I Hc. pose proof I as [Hr La Wi Co Ba]. destruct (ring_head SZ SZ_range _ _ _ Hr) as (a & Hb & Ha).
  pose proof (retire_spec m rs q I Hc) as Hret. unfold markRetire.
  destruct (retire W m q) as [c n]. rewrite Hb. destruct Hret as (H1 & H2 & H3 & H4 & H5 & H6).
  eexists _. split; [done|]. simpl. split; [done|]. split; [lia|].
  constructor; simpl; try done.
  - rewrite history_app. by apply ring_push.
  - apply Forall_app. split; [|by constructor]. eapply Forall_impl; [exact La|]. simpl. lia.
Qed.

Lemma enter_spec m rs q : RInv rs q -> 0 <= curRetireCycle q < 2 ^ 63 ->
  exists a q', enter SZ W m q = Ok ((a, curRetireCycle q'), q') /\ history rs !! length rs = Some a /\
    m <= curRetireCycle q' /\ curRetireCycle q <= curRetireCycle q' <= Z.max m (curRetireCycle q + 1) /\
    RInv (rs ++ [curRetireCycle q']) q'.
Proof.
  intros I Hc. destruct (minAlloc_spec rs q I) as (a & Ha & Hh). destruct (markRetire_spec m rs q I Hc) as (q' & Hm & H).
  exists a, q'. split; [|done]. unfold enter, mbind, st_bind, gets, mret, st_ret. by rewrite Ha, Hm.
Qed.

(** Retirements in program order, each no earlier than asked for, and at most one
    cycle later than that or than the one before. *)
Fixpoint in_order (prev : Z) (ms rs : list Z) : Prop :=
  match ms, rs with
  | [], [] => True
  | m :: ms, r :: rs => m <= r /\ prev <= r <= Z.max m (prev + 1) /\ in_order r ms rs
  | _, _ => False
  end.

Lemma run_from l rs q (n : Z) :
  RInv rs q -> 0 <= n -> 0 <= curRetireCycle q <= 2 ^ 62 + n -> n + Z.of_nat (length l) <= 2 ^ 62 ->
  Forall (fun m => m <= 2 ^ 62) l ->
  exists out q', run SZ W l q = Ok (out, q') /\ RInv (rs ++ out.*2) q' /\ in_order (curRetireCycle q) l (out.*2) /\
    forall i a, out.*1 !! i = Some a -> history (rs ++ out.*2) !! (length rs + i)%nat = Some a.
Proof.
  revert rs q n. induction l as [|m l IH]; intros rs q n I Hn Hc Hlen Hm.
  { exists [], q. cbn [run fmap list_fmap]. rewrite app_nil_r. split_and!; try done. }
  apply Forall_cons in Hm as [Hm Hl]. simpl in Hlen.
  destruct (enter_spec m rs q I ltac:(lia)) as (a & q1 & He & Ha & H1 & H2 & I1).
  destruct (IH _ q1 (n + 1) I1) as (out & q' & Hr & I' & Ho & Hh); [lia|lia|lia|done|].
  exists ((a, curRetireCycle q1) :: out), q'. cbn [run]. unfold mbind, st_bind. rewrite He, Hr. split; [done|].
  rewrite <- app_assoc in I', Hh. csimpl. split; [done|]. split; [by repeat (split; [done|])|].
  intros [|i] x Hx.
  - simplify_eq/=. rewrite Nat.add_0_r. unfold history. rewrite app_assoc. apply lookup_app_l_Some. exact Ha.
  - simpl in Hx. specialize (Hh i x Hx). rewrite length_app in Hh. simpl in Hh. rewrite <- Hh. f_equal. lia.
Qed.

Lemma rob_run_spec l : Z.of_nat (length l) <= 2 ^ 62 -> Forall (fun m => m <= 2 ^ 62) l ->
  exists out q, run SZ W l (init SZ) = Ok (out, q) /\ length out = length l /\ in_order 0 l (out.*2) /\
    (forall i a, out.*1 !! i = Some a ->
      if decide (i < Z.to_nat SZ)%nat then a = 0 else out.*2 !! (i - Z.to_nat SZ)%nat = Some a) /\
    forall c, leaving c (out.*2) <= W + 1.
Proof.
  intros Hlen Hl. destruct (run_from l [] (init SZ) 0 rob_init) as (out & q & Hr & I & Ho & Hh); [done|simpl; lia|lia|done|].
  exists out, q. split; [done|]. split.
  { transitivity (length (out.*2)); [by rewrite length_fmap|]. clear -Ho. revert Ho. simpl. generalize 0. generalize (out.*2).
    induction l as [|m l IH]; intros [|r rs] prev Ho; try done. simpl. f_equal. eapply IH, Ho. }
  split; [done|]. split; [|apply I]. intros i a Ha. specialize (Hh i a Ha). simpl in Hh. unfold history in Hh.
  case_decide as Hi.
  - rewrite lookup_app_l in Hh by (rewrite length_replicate; lia). apply lookup_replicate in Hh as [? _]. done.
  - rewrite lookup_app_r in Hh by (rewrite length_replicate; lia). by rewrite length_replicate in Hh.
Qed.
End props.
End ReorderBufferProps.

(** ** The branch predictor *)

Module BranchPredictorProps.
Import BranchPredictor.
Section props.
Context (NB HB LB : Z).
Context (NB_range : 0 <= NB) (LB_range : NB <= LB <= HB) (HB_range : HB < 32).

Record PInv (b : t) : Prop := {
  pi_bhsr : length (bhsr b) = Z.to_nat (2 ^ NB);
  pi_pht : length (pht b) = Z.to_nat (2 ^ LB);
  pi_history : Forall (fun h => 0 <= h < 2 ^ HB) (bhsr b);
  pi_counter : Forall (fun c => 0 <= c <= 3) (pht b)
}.

Lemma mask_ones n : 0 <= n -> Z.shiftl 1 n - 1 = Z.ones n.
Proof. intros Hn. unfold Z.ones. lia. Qed.

Lemma masked x n : 0 <= n -> 0 <= Z.land x (Z.shiftl 1 n - 1) < 2 ^ n.
Proof. intros Hn. rewrite mask_ones, Z.land_ones by done. apply Z.mod_pos_bound. lia. Qed.

Lemma bhsr_index_range pc : 0 <= bhsr_index NB pc < 2 ^ NB.
Proof. by apply masked. Qed.

Lemma pht_index_range h : 0 <= pht_index HB LB h < 2 ^ LB.
Proof. apply masked. lia. Qed.

Lemma history_bit taken h j : 0 <= j ->
  Z.testbit (history_update HB taken h) j = if decide (j = 0) then taken else if decide (j < HB) then Z.testbit h (j - 1) else false.
Proof.
  intros Hj. unfold history_update, histMask. rewrite Z.lor_spec, Z.land_spec, mask_ones by lia.
  assert (B : Z.testbit (if taken then 1 else 0) j = if decide (j = 0) then taken else false).
  { destruct taken; [|rewrite Z.bits_0; by case_decide]. case_decide; [by subst|].
    change 1 with (2 ^ 0). rewrite Z.pow2_bits_eqb by done. apply Z.eqb_neq. lia. }
  rewrite B. unfold u32. change W32 with (2 ^ 32). rewrite Z.testbit_ones_nonneg by lia.
  destruct (decide (j < HB)) as [Hlt|Hge].
  - rewrite (proj2 (Z.ltb_lt _ _) Hlt), andb_true_r, Z.mod_pow2_bits_low, Z.shiftl_spec by lia.
    case_decide; [subst; by rewrite Z.testbit_neg_r by lia|apply orb_false_r].
  - rewrite (proj2 (Z.ltb_ge _ _)), andb_false_r by lia. simpl. case_decide; [|done].
    done.
Qed.

Lemma history_range taken h : 0 < HB -> 0 <= history_update HB taken h < 2 ^ HB.
Proof.
  intros Hp. assert (0 <= history_update HB taken h).
  { apply Z.lor_nonneg. split; [apply Z.land_nonneg; left; apply u32_range|destruct taken; lia]. }
  split; [done|]. destruct (decide (history_update HB taken h = 0)) as [->|]; [lia|].
  apply Z.log2_lt_pow2; [lia|]. destruct (decide (Z.log2 (history_update HB taken h) < HB)); [done|].
  assert (T : Z.testbit (history_update HB taken h) (Z.log2 (history_update HB taken h)) = true) by (apply Z.bit_log2; lia).
  rewrite history_bit in T by apply Z.log2_nonneg. rewrite !decide_False in T by lia. done.
Qed.

Lemma counter_range taken c : 0 <= c <= 3 -> 0 <= counter_update taken (1 <? c) c <= 3.
Proof. intros Hc. unfold counter_update. case Z.ltb_spec; destruct taken; lia. Qed.

(** The state a prediction reads, and the one it leaves. *)
Lemma predict_spec b pc taken : 0 < HB -> PInv b ->
  exists h c, bhsr b !! Z.to_nat (bhsr_index NB pc) = Some h /\ pht b !! Z.to_nat (pht_index HB LB h) = Some c /\
    0 <= h < 2 ^ HB /\ 0 <= c <= 3 /\
    let b' := mk (<[Z.to_nat (bhsr_index NB pc) := history_update HB taken h]> (bhsr b))
                 (<[Z.to_nat (pht_index HB LB h) := counter_update taken (1 <? c) c]> (pht b)) in
    predict NB HB LB pc taken b = Ok (Bool.eqb taken (1 <? c), b') /\ PInv b'.
Proof.
  intros Hp [L1 L2 F1 F2]. pose proof (bhsr_index_range pc) as Hi.
  destruct (lookup_lt_is_Some_2 (bhsr b) (Z.to_nat (bhsr_index NB pc))) as [h Hh]; [lia|].
  pose proof (pht_index_range h) as Hj.
  destruct (lookup_lt_is_Some_2 (pht b) (Z.to_nat (pht_index HB LB h))) as [c Hc]; [lia|].
  pose proof (Forall_lookup_1 _ _ _ _ F1 Hh) as Hh'. pose proof (Forall_lookup_1 _ _ _ _ F2 Hc) as Hc'. simpl in Hh', Hc'.
  exists h, c. split; [done|]. split; [done|]. split; [done|]. split; [done|]. split.
  - unfold predict. by rewrite Hh, Hc.
  - constructor; simpl; rewrite ?length_insert; try done; apply Forall_insert; try done.
    + by apply history_range.
    + by apply counter_range.
Qed.

Lemma predictor_init_inv : PInv (init NB LB).
Proof.
  constructor; simpl; rewrite ?length_replicate; try done; apply Forall_replicate; [|lia].
  assert (0 < 2 ^ HB) by lia. lia.
Qed.

(** How sure a counter is of a direction: right from 2 on. *)
Definition confidence (taken : bool) (c : Z) : Z := if taken then c else 3 - c.

Lemma confidence_update taken c : 0 <= c <= 3 ->
  confidence taken (counter_update taken (1 <? c) c) >= Z.min 3 (confidence taken c + 1) /\
  Bool.eqb taken (1 <? c) = (2 <=? confidence taken c).
Proof.
  intros Hc. assert (c = 0 \/ c = 1 \/ c = 2 \/ c = 3) as [->|[->|[->| ->]]] by lia; by destruct taken.
Qed.

(** The history of a branch that always goes the same way. *)
Definition settled (taken : bool) (n : Z) (h : Z) : Prop := forall j, 0 <= j < Z.min n HB -> Z.testbit h j = taken.

Lemma settled_step taken n h : 0 <= n -> settled taken n h -> settled taken (n + 1) (history_update HB taken h).
Proof.
  intros Hn Hs j Hj. rewrite history_bit by lia. case_decide; [done|]. rewrite decide_True by lia. apply Hs. lia.
Qed.

Lemma settled_unique taken h h' n : HB <= n -> 0 <= h < 2 ^ HB -> 0 <= h' < 2 ^ HB -> settled taken n h -> settled taken n h' -> h = h'.
Proof.
  intros Hn Hh Hh' S S'. apply Z.bits_inj'. intros j Hj. destruct (decide (j < HB)).
  - rewrite S, S' by lia. done.
  - rewrite <- (Z.mod_small h (2 ^ HB)), <- (Z.mod_small h' (2 ^ HB)), !Z.mod_pow2_bits_high by lia. done.
Qed.

(** After [n] branches that went the same way: the history is settled up to [n]
    outcomes, and then the counter grows. *)
Definition learned (pc : Z) (taken : bool) (n : Z) (b : t) : Prop :=
  exists h, bhsr b !! Z.to_nat (bhsr_index NB pc) = Some h /\ settled taken n h /\
    (HB <= n -> exists c, pht b !! Z.to_nat (pht_index HB LB h) = Some c /\ Z.min 3 (n - HB) <= confidence taken c).

Lemma learned_step pc taken n b : 0 < HB -> 0 <= n -> PInv b -> learned pc taken n b ->
  exists r b', predict NB HB LB pc taken b = Ok (r, b') /\ PInv b' /\ learned pc taken (n + 1) b' /\ (HB + 2 <= n -> r = true).
Proof.
  intros Hp Hn I (h0 & Hh0 & Hs & Hl). destruct (predict_spec b pc taken Hp I) as (h & c & Hh & Hc & Rh & Rc & Hpr & I').
  rewrite Hh in Hh0. injection Hh0 as <-. eexists _, _. split; [exact Hpr|]. split; [exact I'|].
  destruct (confidence_update taken c Rc) as [Hup Hok].
  assert (Hcur : HB <= n -> Z.min 3 (n - HB) <= confidence taken c).
  { intros Hge. destruct (Hl Hge) as (c' & Hc' & Hcf). rewrite Hc in Hc'. by injection Hc' as <-. }
  split.
  - exists (history_update HB taken h). split; [apply list_lookup_insert_eq, (lookup_lt_Some _ _ _ Hh)|].
    split; [by apply settled_step|]. intros Hge. simpl. destruct (decide (HB <= n)) as [Hge'|].
    + assert (E : history_update HB taken h = h).
      { apply (settled_unique taken _ _ n); [done|by apply history_range|done| |done].
        intros j Hj. apply (settled_step taken n h Hn Hs). lia. }
      rewrite E. exists (counter_update taken (1 <? c) c).
      split; [apply list_lookup_insert_eq, (lookup_lt_Some _ _ _ Hc)|]. specialize (Hcur Hge'). lia.
    + destruct (lookup_lt_is_Some_2 (pht (mk (<[Z.to_nat (bhsr_index NB pc) := history_update HB taken h]> (bhsr b))
        (<[Z.to_nat (pht_index HB LB h) := counter_update taken (1 <? c) c]> (pht b)))) (Z.to_nat (pht_index HB LB (history_update HB taken h)))) as [c' Hc'].
      { rewrite (pi_pht _ I'). pose proof (pht_index_range (history_update HB taken h)). lia. }
      exists c'. split; [exact Hc'|]. pose proof (Forall_lookup_1 _ _ _ _ (pi_counter _ I') Hc') as Hr. simpl in Hr.
      replace (n + 1 - HB) with 0 by lia. unfold confidence. destruct taken; lia.
  - intros Hge. rewrite Hok. apply Z.leb_le. specialize (Hcur ltac:(lia)). lia.
Qed.

Lemma learned_start pc taken b : 0 < HB -> PInv b -> learned pc taken 0 b.
Proof.
  intros Hp I. pose proof (bhsr_index_range pc) as Hi.
  destruct (lookup_lt_is_Some_2 (bhsr b) (Z.to_nat (bhsr_index NB pc))) as [h Hh]; [rewrite (pi_bhsr _ I); lia|].
  exists h. split; [done|]. split; [intros j Hj; lia|lia].
Qed.

Lemma learns pc taken (m : nat) n b : 0 < HB -> 0 <= n -> PInv b -> learned pc taken n b ->
  exists rs b', predict_all NB HB LB (replicate m (pc, taken)) b = Ok (rs, b') /\ length rs = m /\
    forall k, HB + 2 <= n + Z.of_nat k -> (k < m)%nat -> rs !! k = Some true.
Proof.
  intros Hp. revert n b. induction m as [|m IH]; intros n b Hn I Hl.
  { exists [], b. split; [done|]. split; [done|]. intros; lia. }
  destruct (learned_step pc taken n b Hp Hn I Hl) as (r & b1 & Hr & I1 & Hl1 & Hok).
  destruct (IH (n + 1) b1 ltac:(lia) I1 Hl1) as (rs & b' & Hrs & Hlen & Hall).
  exists (r :: rs), b'. cbn [replicate predict_all]. unfold mbind, st_bind. rewrite Hr, Hrs. split; [done|].
  split; [simpl; lia|]. intros [|k] Hk Hlt; simpl.
  - rewrite Hok by lia. done.
  - apply Hall; lia.
Qed.
End props.
End BranchPredictorProps.

(** ** Properties *)

(** C22: A reorder buffer retires in order.  Over every sequence of entries, none of which
    makes it fail, each entry leaves no earlier than it may and than the entry in front
    of it, and at most a cycle later than both; it found its place in the cycle in which
    the entry [SZ] places before it left; and no more than [W + 1] entries leave in one
    cycle. *)
Theorem reorder_buffer_exact SZ W l : 0 < SZ < 2 ^ 31 -> 0 < W < 2 ^ 31 ->
  Z.of_nat (length l) <= 2 ^ 62 -> Forall (fun m => m <= 2 ^ 62) l ->
  exists out q, ReorderBuffer.run SZ W l (ReorderBuffer.init SZ) = Ok (out, q) /\ length out = length l /\
    ReorderBufferProps.in_order 0 l (out.*2) /\
    (forall i a, out.*1 !! i = Some a ->
      if decide (i < Z.to_nat SZ)%nat then a = 0 else out.*2 !! (i - Z.to_nat SZ)%nat = Some a) /\
    forall c, ReorderBufferProps.leaving c (out.*2) <= W + 1.
Proof. intros. by apply ReorderBufferProps.rob_run_spec. Qed.

Lemma reorder_buffer_exact_witness : exists out q,
  ReorderBuffer.run 2 4 [5; 3; 9; 9] (ReorderBuffer.init 2) = Ok (out, q) /\ length out = 4%nat /\
    ReorderBufferProps.in_order 0 [5; 3; 9; 9] (out.*2) /\
    (forall i a, out.*1 !! i = Some a ->
      if decide (i < Z.to_nat 2)%nat then a = 0 else out.*2 !! (i - Z.to_nat 2)%nat = Some a) /\
    forall c, ReorderBufferProps.leaving c (out.*2) <= 4 + 1.
Proof. apply (reorder_buffer_exact 2 4 [5; 3; 9; 9]); [lia|lia|simpl; lia|repeat constructor; lia]. Defined.

(** The width of a reorder buffer is exceeded.  When a cycle is full the count for the
    next cycle starts from 0, though the entry that found the cycle full leaves in it:
    of eight entries that may leave at once, the buffer of the core, which is 4 wide,
    lets the fifth one of cycle 1 leave with the other four. *)
Theorem reorder_buffer_overcommits : exists out q,
  ReorderBuffer.run 128 4 (replicate 8 0) (ReorderBuffer.init 128) = Ok (out, q) /\
  out.*2 = [0; 0; 0; 1; 1; 1; 1; 1] /\ ReorderBufferProps.leaving 1 (out.*2) = 5.
Proof. eexists _, _. split; [vm_compute; reflexivity|]. split; reflexivity. Qed.

(** C23: The branch predictor learns a run of one branch.  From any state with its tables in
    order, of [n] predictions in a row for the same branch, with none for another branch in
    between, all of which go the same way, all but the first [HB + 2] are right: the history
    is settled after [HB] outcomes, and the counter it then points to after two more.  None of
    these predictions reads or writes outside of the tables.  (Nothing is said of a run that
    other branches interrupt: they share the tables of histories and counters.) *)
Theorem constant_branch_learned NB HB LB b pc taken n :
  0 <= NB <= LB -> LB <= HB < 32 -> 0 < HB -> BranchPredictorProps.PInv NB HB LB b ->
  exists rs b', BranchPredictor.predict_all NB HB LB (replicate n (pc, taken)) b = Ok (rs, b') /\ length rs = n /\
    forall k, HB + 2 <= Z.of_nat k -> (k < n)%nat -> rs !! k = Some true.
Proof.
  intros H1 H2 H3 I. apply (BranchPredictorProps.learns NB HB LB ltac:(lia) ltac:(lia) ltac:(lia) pc taken n 0 b H3 ltac:(lia) I).
  apply BranchPredictorProps.learned_start; try done; lia.
Qed.

Lemma constant_branch_learned_witness : exists rs b',
  BranchPredictor.predict_all 11 18 14 (replicate 30 (4096, true)) (BranchPredictor.init 11 14) = Ok (rs, b') /\ length rs = 30%nat /\
    forall k, 18 + 2 <= Z.of_nat k -> (k < 30)%nat -> rs !! k = Some true.
Proof.
  apply (constant_branch_learned 11 18 14 (BranchPredictor.init 11 14) 4096 true 30); [lia|lia|lia|].
  apply BranchPredictorProps.predictor_init_inv; lia.
Defined.
