(* ===== verification/OooCore.v ===== *)
(** * The out-of-order core (ooo_core.h, ooo_core.cpp)

    [bbl] simulates a basic block: each micro-operation is decoded, issued,
    dispatched through the instruction window, executed (loads and stores through
    the first-level data cache and the store-to-load forwarding table) and retired;
    then the next block is fetched, down the wrong path first if its branch was
    mispredicted.  The caches are behind an interface, [CoreCaches]; FilterCache.v has
    an instance. *)

From stdpp Require Import base tactics numbers list.
From Stdlib Require Import ZArith Lia.
From S2P Require Import Prelude OooWindow OooBuffers.

Open Scope Z_scope.

(** ** Data *)

Inductive UopType : Type := UOP_GENERAL | UOP_LOAD | UOP_STORE | UOP_STORE_ADDR | UOP_FENCE.

#[export] Instance UopType_eq_dec : EqDecision UopType.
Proof. solve_decision. Defined.

Record DynUop : Type := mkUop {
  rs0 : Z; rs1 : Z; rd0 : Z; rd1 : Z;
  lat : Z;
  decCycle : Z;
  type : UopType;
  portMask : Z;
  extraSlots : Z
}.

Record DynBbl : Type := mkDynBbl {
  uop : list DynUop; d_branchUops : Z; d_fpAddSubUops : Z; d_fpMulDivUops : Z; d_approxInstrs : Z
}.
Record BblInfo : Type := mkBblInfo { b_instrs : Z; b_bytes : Z; oooBbl : DynBbl }.

(** An entry of the forwarding table: the address and the cycle of a store. *)
Record FwdEntry : Type := mkFwd { f_addr : Z; f_storeCycle : Z }.

Definition no_addr : Z := W64 - 1.                       (* (Address)-1L *)
Definition FWD_ENTRIES : Z := 32.

Definition FETCH_STAGE : Z := 1.
Definition DECODE_STAGE : Z := 4.
Definition ISSUE_STAGE : Z := 7.
Definition DISPATCH_STAGE : Z := 13.
Definition L1D_LAT : Z := 4.
Definition FETCH_BYTES_PER_CYCLE : Z := 16.
Definition ISSUES_PER_CYCLE : Z := 4.
Definition RF_READS_PER_CYCLE : Z := 3.
Definition IW : Z := 1024.     (* WindowStructure<1024, 36> *)
Definition IW_SIZE : Z := 36.
Definition ROB_SIZE : Z := 128.  (* ReorderBuffer<128, 4> *)
Definition LSQ_SIZE : Z := 32.   (* ReorderBuffer<32, 4> *)
Definition WIDTH : Z := 4.
Definition UOPQ_SIZE : Z := 28.  (* CycleQueue<28> *)
Definition NB : Z := 11.  (* BranchPredictorPAg<11, 18, 14> *)
Definition HB : Z := 18.
Definition LB : Z := 14.

(** The front of the pipeline: decode and issue. *)
Record Front : Type := mkFront {
  insWindow : WindowStructure;
  curCycle : Z;
  decodeCycle : Z;
  uopQueue : CycleQueue.t;
  curCycleRFReads : Z;
  curCycleIssuedUops : Z;
  regScoreboard : list Z
}.

(** The load-store unit, with the caches and the accesses reported to the recorder
    and to the locality monitor, latest first. *)
Record Lsu (Mem : Type) : Type := mkLsu {
  loadQueue : ReorderBuffer.t;
  storeQueue : ReorderBuffer.t;
  lastStoreCommitCycle : Z;
  lastStoreAddrCommitCycle : Z;
  fwdArray : list FwdEntry;
  mem : Mem;
  recorded : list (Z * Z * Z);
  pushed : list (Z * Z)
}.
Arguments mkLsu {Mem}.
Arguments loadQueue {Mem}. Arguments storeQueue {Mem}. Arguments lastStoreCommitCycle {Mem}.
Arguments lastStoreAddrCommitCycle {Mem}. Arguments fwdArray {Mem}. Arguments mem {Mem}.
Arguments recorded {Mem}. Arguments pushed {Mem}.

(** The counters of the stall statistics, which are globals of the file. *)
Record TopDown : Type := mkTop {
  lastCommitCycleLoad : Z; lastCommitCycleLoad_prev : Z; lastCommitCycleStore_prev : Z; lastCommitCycleOther : Z;
  loadStallsTotal : Z; storeStallsTotal : Z
}.

(** The micro-operations of a block run on these parts. *)
Record Pipe (Mem : Type) : Type := mkPipe {
  front : Front; rob : ReorderBuffer.t; lsu : Lsu Mem; top : TopDown
}.
Arguments mkPipe {Mem}. Arguments front {Mem}. Arguments rob {Mem}. Arguments lsu {Mem}. Arguments top {Mem}.

(** The accesses of the current block, as Pin reports them. *)
Record Accesses : Type := mkAcc { addrs : list (Z * Z); used : Z }.   (** 256 addresses and sizes; how many *)

Record Branch : Type := mkBranch { branchPc : Z; branchTaken : bool; branchTakenNpc : Z; branchNotTakenNpc : Z }.

Record Stats : Type := mkStats {
  instrs : Z; uops : Z; bbls : Z; approxInstrs : Z; branchUops : Z; fpAddSubUops : Z; fpMulDivUops : Z;
  mispredBranches : Z; predBranches : Z; mispredInstrs : Z; mispredPenalty : Z;
  offload_instrs : Z; offload_region : bool
}.

Record Core (Mem : Type) : Type := mkCore {
  pipe : Pipe Mem;
  prevBbl : option BblInfo;
  loads : Accesses;
  stores : Accesses;
  branch_ : Branch;
  branchPred : BranchPredictor.t;
  stats : Stats
}.
Arguments mkCore {Mem}. Arguments pipe {Mem}. Arguments prevBbl {Mem}. Arguments loads {Mem}. Arguments stores {Mem}.
Arguments branch_ {Mem}. Arguments branchPred {Mem}. Arguments stats {Mem}.

(** ** Decode and issue *)

(** [n] times [insWindow.advancePos(curCycle)]. *)
Fixpoint advance_n (n : nat) (cycle : Z) : st WindowStructure Z :=
  match n with
  | O => mret cycle
  | S n => c ← advancePos IW cycle; advance_n n c
  end.

(** The window moves on, and the counts of the cycle start again. *)
Definition next_cycles (n : nat) (rfReads : Z) : st Front unit := fun f =>
  match advance_n n (curCycle f) (insWindow f) with
  | Ok (c, w) => Ok (tt, mkFront w c (decodeCycle f) (uopQueue f) rfReads 0 (regScoreboard f))
  | Err e => Err e
  end.

Definition set_decodeCycle (d : Z) (f : Front) : Front :=
  mkFront (insWindow f) (curCycle f) d (uopQueue f) (curCycleRFReads f) (curCycleIssuedUops f) (regScoreboard f).
Definition set_uopQueue (q : CycleQueue.t) (f : Front) : Front :=
  mkFront (insWindow f) (curCycle f) (decodeCycle f) q (curCycleRFReads f) (curCycleIssuedUops f) (regScoreboard f).
Definition set_counts (rf issued : Z) (f : Front) : Front :=
  mkFront (insWindow f) (curCycle f) (decodeCycle f) (uopQueue f) rf issued (regScoreboard f).
Definition set_regScoreboard (l : list Z) (f : Front) : Front :=
  mkFront (insWindow f) (curCycle f) (decodeCycle f) (uopQueue f) (curCycleRFReads f) (curCycleIssuedUops f) l.

(** Decode stalls, and the place in the micro-operation queue. *)
Definition decode_uop (decDiff : Z) : st Front unit :=
  f ← gets id;
  alloc ← zoom uopQueue set_uopQueue CycleQueue.minAllocCycle;
  let d := Z.max (u64 (decodeCycle f + decDiff)) alloc in
  modify (set_decodeCycle d);;
  when (curCycle f <? d) (next_cycles (Z.to_nat (u32 (d - curCycle f))) 0);;
  c ← gets curCycle;
  zoom uopQueue set_uopQueue (CycleQueue.markLeave UOPQ_SIZE c).

(** The reads of the register file: the cycles in which the two sources are available. *)
Definition read_regs (u : DynUop) : st Front (Z * Z) :=
  f ← gets id;
  regs ← lift (set_at (regScoreboard f) 0 (curCycle f));
  modify (set_regScoreboard regs);;
  c0 ← lift (at_ regs (rs0 u));
  c1 ← lift (at_ regs (rs1 u));
  let reads := u32 (curCycleRFReads f + (if c0 <? curCycle f then 1 else 0) + (if c1 <? curCycle f then 1 else 0)) in
  modify (fun f => set_counts reads (curCycleIssuedUops f) f);;
  when (RF_READS_PER_CYCLE <? reads) (next_cycles 1 (reads - RF_READS_PER_CYCLE));;
  mret (c0, c1).

(** The issue width, then the reads. *)
Definition issue_uop (u : DynUop) : st Front (Z * Z) :=
  issued ← gets curCycleIssuedUops;
  when (ISSUES_PER_CYCLE <=? issued) (next_cycles 1 0);;
  modify (fun f => set_counts (curCycleRFReads f) (u32 (curCycleIssuedUops f + 1)) f);;
  read_regs u.

(** The slot in the instruction window: the cycle of dispatch. *)
Definition schedule_uop (u : DynUop) (dispatchCycle : Z) : st Front Z := fun f =>
  match schedule IW IW_SIZE (curCycle f) dispatchCycle (portMask u) (extraSlots u) (insWindow f) with
  | Ok ((cur, disp), w) =>
    let f' := mkFront w cur (decodeCycle f) (uopQueue f) (curCycleRFReads f) (curCycleIssuedUops f) (regScoreboard f) in
    Ok (disp, if curCycle f <? cur then set_counts 0 0 f' else f')
  | Err e => Err e
  end.

(** The stall statistics, at the cycle of dispatch. *)
Definition note_stalls (dispatchCycle lastStore : Z) (t : TopDown) : TopDown :=
  let t := if (lastCommitCycleOther t <? dispatchCycle) && (lastStore <? dispatchCycle) && (lastCommitCycleOther t <? lastStore)
    then mkTop (lastCommitCycleLoad t) (lastCommitCycleLoad_prev t) lastStore (lastCommitCycleOther t) (loadStallsTotal t)
           (if lastCommitCycleStore_prev t <? lastStore then u64 (storeStallsTotal t + (lastStore - lastCommitCycleOther t)) else storeStallsTotal t)
    else t in
  if (lastCommitCycleOther t <? dispatchCycle) && (lastCommitCycleLoad t <? dispatchCycle) && (lastCommitCycleOther t <? lastCommitCycleLoad t)
  then mkTop (lastCommitCycleLoad t) (lastCommitCycleLoad t) (lastCommitCycleStore_prev t) (lastCommitCycleOther t)
         (if lastCommitCycleLoad_prev t <? lastCommitCycleLoad t then u64 (loadStallsTotal t + (lastCommitCycleLoad t - lastCommitCycleOther t)) else loadStallsTotal t)
         (storeStallsTotal t)
  else t.

(** The filter caches of the core and all behind them: [l1d->load], [l1d->store] and
    [l1i->load] give for an address and the cycle of a request the cycle of the response. *)
Class CoreCaches (Mem : Type) : Type := {
  l1d_load : Z -> Z -> st Mem Z;
  l1d_store : Z -> Z -> st Mem Z;
  l1i_load : Z -> Z -> st Mem Z
}.

Section core.
Context `{CoreCaches Mem}.
Context (solo : bool).          (** [zinfo->numCores == 1] *)
Context (lineBits : Z).

(** ** Loads and stores *)

Definition set_loadQueue (q : ReorderBuffer.t) (l : Lsu Mem) : Lsu Mem :=
  mkLsu q (storeQueue l) (lastStoreCommitCycle l) (lastStoreAddrCommitCycle l) (fwdArray l) (mem l) (recorded l) (pushed l).
Definition set_storeQueue (q : ReorderBuffer.t) (l : Lsu Mem) : Lsu Mem :=
  mkLsu (loadQueue l) q (lastStoreCommitCycle l) (lastStoreAddrCommitCycle l) (fwdArray l) (mem l) (recorded l) (pushed l).
Definition set_stores (last lastAddr : Z) (l : Lsu Mem) : Lsu Mem :=
  mkLsu (loadQueue l) (storeQueue l) last lastAddr (fwdArray l) (mem l) (recorded l) (pushed l).
Definition set_fwdArray (a : list FwdEntry) (l : Lsu Mem) : Lsu Mem :=
  mkLsu (loadQueue l) (storeQueue l) (lastStoreCommitCycle l) (lastStoreAddrCommitCycle l) a (mem l) (recorded l) (pushed l).
Definition set_mem (m : Mem) (r : Z * Z * Z) (l : Lsu Mem) : Lsu Mem :=
  mkLsu (loadQueue l) (storeQueue l) (lastStoreCommitCycle l) (lastStoreAddrCommitCycle l) (fwdArray l) m (r :: recorded l) (pushed l).
Definition push_address (addr size : Z) (l : Lsu Mem) : Lsu Mem :=
  mkLsu (loadQueue l) (storeQueue l) (lastStoreCommitCycle l) (lastStoreAddrCommitCycle l) (fwdArray l) (mem l) (recorded l) ((addr, size) :: pushed l).

(** [cache->load(addr, cycle) + extra], recorded as an access of the core. *)
Definition access (op : Z -> Z -> st Mem Z) (addr curCycle cycle extra : Z) : st (Lsu Mem) Z := fun l =>
  match op addr cycle (mem l) with
  | Ok (resp, m) =>
    let satisfied := u64 (resp + extra) in
    Ok (satisfied, set_mem m (curCycle, cycle, satisfied) l)
  | Err e => Err e
  end.

Definition fwd_index (addr : Z) : Z := Z.land (u32 (Z.shiftr addr 2)) (FWD_ENTRIES - 1).

(** A load or a store waits for its queue, and for the addresses of the stores before it. *)
Definition lsu_dispatch (get : Lsu Mem -> ReorderBuffer.t) (set : ReorderBuffer.t -> Lsu Mem -> Lsu Mem) (dispatchCycle : Z) : st (Lsu Mem) Z :=
  qCycle ← zoom get set ReorderBuffer.minAllocCycle;
  last ← gets lastStoreAddrCommitCycle;
  mret (Z.max (u64 (last + 1)) (if dispatchCycle <? qCycle then qCycle else dispatchCycle)).

(** Store-to-load forwarding, and the end of a load. *)
Definition finish_load (addr reqSatisfiedCycle : Z) : st (Lsu Mem) Z :=
  fwd ← gets fwdArray;
  e ← lift (at_ fwd (fwd_index addr));
  let commitCycle := if f_addr e =? addr then Z.max reqSatisfiedCycle (f_storeCycle e) else reqSatisfiedCycle in
  zoom loadQueue set_loadQueue (ReorderBuffer.markRetire LSQ_SIZE WIDTH commitCycle);;
  mret commitCycle.

Definition do_load (addr size curCycle dispatchCycle : Z) : st (Lsu Mem) Z :=
  dispatchCycle ← lsu_dispatch loadQueue set_loadQueue dispatchCycle;
  reqSatisfiedCycle ← (if negb (addr =? no_addr) then
      r ← access l1d_load addr curCycle dispatchCycle L1D_LAT;
      when solo (modify (push_address addr size));;
      mret r
    else mret dispatchCycle);
  finish_load addr reqSatisfiedCycle.

(** The access of a store, its entry in the forwarding table, and its end. *)
Definition finish_store (addr curCycle dispatchCycle : Z) : st (Lsu Mem) Z :=
  commitCycle ← access l1d_store addr curCycle dispatchCycle L1D_LAT;
  fwd ← gets fwdArray;
  fwd ← lift (set_at fwd (fwd_index addr) (mkFwd addr commitCycle));
  modify (set_fwdArray fwd);;
  modify (fun l => set_stores (Z.max (lastStoreCommitCycle l) commitCycle) (lastStoreAddrCommitCycle l) l);;
  zoom storeQueue set_storeQueue (ReorderBuffer.markRetire LSQ_SIZE WIDTH commitCycle);;
  mret commitCycle.

Definition do_store (addr size curCycle dispatchCycle : Z) : st (Lsu Mem) Z :=
  dispatchCycle ← lsu_dispatch storeQueue set_storeQueue dispatchCycle;
  when solo (modify (push_address addr size));;
  finish_store addr curCycle dispatchCycle.

(** ** A micro-operation *)

Definition set_front (f : Front) (p : Pipe Mem) : Pipe Mem := mkPipe f (rob p) (lsu p) (top p).
Definition set_rob (r : ReorderBuffer.t) (p : Pipe Mem) : Pipe Mem := mkPipe (front p) r (lsu p) (top p).
Definition set_lsu (l : Lsu Mem) (p : Pipe Mem) : Pipe Mem := mkPipe (front p) (rob p) l (top p).
Definition set_top (t : TopDown) (p : Pipe Mem) : Pipe Mem := mkPipe (front p) (rob p) (lsu p) t.
Definition set_commit_load (c : Z) (t : TopDown) : TopDown :=
  mkTop c (lastCommitCycleLoad_prev t) (lastCommitCycleStore_prev t) (lastCommitCycleOther t) (loadStallsTotal t) (storeStallsTotal t).
Definition set_commit_other (c : Z) (t : TopDown) : TopDown :=
  mkTop (lastCommitCycleLoad t) (lastCommitCycleLoad_prev t) (lastCommitCycleStore_prev t) c (loadStallsTotal t) (storeStallsTotal t).

(** The operation itself, by type: the cycle in which it commits, and the next load and store. *)
Definition execute (u : DynUop) (ls ss : list (Z * Z)) (loadIdx storeIdx dispatchCycle : Z) : st (Pipe Mem) (Z * Z * Z) :=
  f ← gets front;
  match type u with
  | UOP_GENERAL =>
    let commitCycle := u64 (dispatchCycle + lat u) in
    modify (fun p => set_top (set_commit_other commitCycle (top p)) p);;
    mret (commitCycle, loadIdx, storeIdx)
  | UOP_LOAD =>
    '(addr, size) ← lift (at_ ls loadIdx);
    commitCycle ← zoom lsu set_lsu (do_load addr size (curCycle f) dispatchCycle);
    modify (fun p => set_top (set_commit_load commitCycle (top p)) p);;
    mret (commitCycle, u32 (loadIdx + 1), storeIdx)
  | UOP_STORE =>
    '(addr, size) ← lift (at_ ss storeIdx);
    commitCycle ← zoom lsu set_lsu (do_store addr size (curCycle f) dispatchCycle);
    mret (commitCycle, loadIdx, u32 (storeIdx + 1))
  | UOP_STORE_ADDR =>
    let commitCycle := u64 (dispatchCycle + lat u) in
    modify (fun p => set_lsu (set_stores (lastStoreCommitCycle (lsu p)) (Z.max (lastStoreAddrCommitCycle (lsu p)) commitCycle) (lsu p)) p);;
    mret (commitCycle, loadIdx, storeIdx)
  | UOP_FENCE =>
    let commitCycle := u64 (dispatchCycle + lat u) in
    modify (fun p => set_lsu (set_stores (lastStoreCommitCycle (lsu p))
      (Z.max commitCycle (Z.max (lastStoreAddrCommitCycle (lsu p)) (u64 (lastStoreCommitCycle (lsu p) + lat u)))) (lsu p)) p);;
    mret (commitCycle, loadIdx, storeIdx)
  end.

(** The earliest cycle of dispatch, given the cycles in which the sources are available. *)
Definition dispatch_bound (c0 c1 c2 c3 : Z) : Z := Z.max (Z.max c0 c1) (u64 (Z.max c2 c3 + (DISPATCH_STAGE - ISSUE_STAGE))).

(** One turn of the loop of [bbl]: the cycles of dispatch and commit, and the next load and store. *)
Definition uop_step (u : DynUop) (prevDecCycle : Z) (ls ss : list (Z * Z)) (loadIdx storeIdx : Z) : st (Pipe Mem) (Z * Z * Z * Z) :=
  zoom front set_front (decode_uop (u32 (decCycle u - prevDecCycle)));;
  '(c0, c1) ← zoom front set_front (issue_uop u);
  c2 ← zoom rob set_rob ReorderBuffer.minAllocCycle;
  c3 ← gets (fun p => curCycle (front p));
  let dispatchCycle := dispatch_bound c0 c1 c2 c3 in
  modify (fun p => set_top (note_stalls dispatchCycle (lastStoreCommitCycle (lsu p)) (top p)) p);;
  dispatchCycle ← zoom front set_front (schedule_uop u dispatchCycle);
  '(commitCycle, loadIdx, storeIdx) ← execute u ls ss loadIdx storeIdx dispatchCycle;
  zoom rob set_rob (ReorderBuffer.markRetire ROB_SIZE WIDTH commitCycle);;
  regs ← gets (fun p => regScoreboard (front p));
  regs ← lift (set_at regs (rd0 u) commitCycle);
  regs ← lift (set_at regs (rd1 u) commitCycle);
  modify (fun p => set_front (set_regScoreboard regs (front p)) p);;
  mret (dispatchCycle, commitCycle, loadIdx, storeIdx).

(** The loop: the last cycle of commit, and how many loads and stores there were. *)
Fixpoint run_uops (l : list DynUop) (prevDecCycle : Z) (ls ss : list (Z * Z)) (loadIdx storeIdx lastCommitCycle : Z) : st (Pipe Mem) (Z * Z * Z) :=
  match l with
  | [] => mret (lastCommitCycle, loadIdx, storeIdx)
  | u :: l =>
    '(_, commitCycle, loadIdx, storeIdx) ← uop_step u prevDecCycle ls ss loadIdx storeIdx;
    run_uops l (decCycle u) ls ss loadIdx storeIdx commitCycle
  end.

(** ** Fetch *)

Definition lineSize : Z := Z.shiftl 1 lineBits.

(** An instruction fetch: its latency. *)
Definition ifetch (addr : Z) : st (Pipe Mem) Z :=
  cur ← gets (fun p => curCycle (front p));
  r ← zoom lsu set_lsu (access l1i_load addr cur cur 0);
  mret (u64 (r - cur)).

(** The fetches down the wrong path until the branch is resolved: the cycle of the
    last request, and the number of fetches. *)
Fixpoint wrong_path (n : nat) (i wrongPathAddr reqCycle lastCommitCycle : Z) : st (Pipe Mem) (Z * Z) :=
  match n with
  | O => mret (reqCycle, i)
  | S n =>
    fetchLat ← ifetch (u64 (wrongPathAddr + u32 (lineSize * i)));
    let respCycle := u64 (reqCycle + fetchLat) in
    if lastCommitCycle <? respCycle then mret (reqCycle, i + 1)
    else wrong_path n (i + 1) wrongPathAddr (u64 (respCycle + lineSize / FETCH_BYTES_PER_CYCLE)) lastCommitCycle
  end.

(** The lines of the block: the cycle in which the last has come. *)
Fixpoint fetch_lines (n : nat) (fetchAddr endAddr fetchCycle : Z) : st (Pipe Mem) Z :=
  if fetchAddr <? endAddr then
    match n with
    | O => fail NoFuel
    | S n => fetchLat ← ifetch fetchAddr; fetch_lines n (u64 (fetchAddr + lineSize)) endAddr (u64 (fetchCycle + fetchLat))
    end
  else mret fetchCycle.

(** ** A basic block *)

Definition set_pipe (p : Pipe Mem) (c : Core Mem) : Core Mem :=
  mkCore p (prevBbl c) (loads c) (stores c) (branch_ c) (branchPred c) (stats c).
Definition set_prevBbl (b : option BblInfo) (c : Core Mem) : Core Mem :=
  mkCore (pipe c) b (loads c) (stores c) (branch_ c) (branchPred c) (stats c).
Definition set_accesses (ls ss : Accesses) (c : Core Mem) : Core Mem :=
  mkCore (pipe c) (prevBbl c) ls ss (branch_ c) (branchPred c) (stats c).
Definition set_branch (b : Branch) (c : Core Mem) : Core Mem :=
  mkCore (pipe c) (prevBbl c) (loads c) (stores c) b (branchPred c) (stats c).
Definition set_branchPred (b : BranchPredictor.t) (c : Core Mem) : Core Mem :=
  mkCore (pipe c) (prevBbl c) (loads c) (stores c) (branch_ c) b (stats c).
Definition set_stats (s : Stats) (c : Core Mem) : Core Mem :=
  mkCore (pipe c) (prevBbl c) (loads c) (stores c) (branch_ c) (branchPred c) s.

(** [loads = stores = 0]. *)
Definition clear_accesses (c : Core Mem) : Core Mem :=
  set_accesses (mkAcc (addrs (loads c)) 0) (mkAcc (addrs (stores c)) 0) c.

(** The counts of a block that has run. *)
Definition count_bbl (b : BblInfo) (s : Stats) : Stats :=
  let d := oooBbl b in
  mkStats (u64 (instrs s + b_instrs b)) (u64 (uops s + Z.of_nat (length (uop d)))) (u64 (bbls s + 1))
    (u64 (approxInstrs s + d_approxInstrs d)) (u64 (branchUops s + d_branchUops d)) (u64 (fpAddSubUops s + d_fpAddSubUops d))
    (u64 (fpMulDivUops s + d_fpMulDivUops d)) (mispredBranches s) (predBranches s) (mispredInstrs s) (mispredPenalty s)
    (if offload_region s then u64 (offload_instrs s + b_instrs b) else offload_instrs s) (offload_region s).

Definition count_mispred (fetches penalty : Z) (s : Stats) : Stats :=
  mkStats (instrs s) (uops s) (bbls s) (approxInstrs s) (branchUops s) (fpAddSubUops s) (fpMulDivUops s)
    (u64 (mispredBranches s + 1)) (predBranches s) (u64 (mispredInstrs s + fetches)) (u64 (mispredPenalty s + penalty))
    (offload_instrs s) (offload_region s).
Definition count_pred (s : Stats) : Stats :=
  mkStats (instrs s) (uops s) (bbls s) (approxInstrs s) (branchUops s) (fpAddSubUops s) (fpMulDivUops s)
    (mispredBranches s) (u64 (predBranches s + 1)) (mispredInstrs s) (mispredPenalty s) (offload_instrs s) (offload_region s).

(** The branch at the end of the block that has run: the cycle of the fetch after it. *)
Definition resolve_branch (lastCommitCycle fetchCycle : Z) : st (Core Mem) Z :=
  b ← gets branch_;
  r ← (if branchPc b =? 0 then mret fetchCycle
    else
      ok ← zoom branchPred set_branchPred (BranchPredictor.predict NB HB LB (branchPc b) (branchTaken b));
      if ok : bool then modify (fun c => set_stats (count_pred (stats c)) c);; mret fetchCycle
      else
        let wrongPathAddr := if branchTaken b then branchNotTakenNpc b else branchTakenNpc b in
        '(reqCycle, fetches) ← zoom pipe set_pipe (wrong_path (Z.to_nat (5 * 64 / lineSize)) 0 wrongPathAddr fetchCycle lastCommitCycle);
        modify (fun c => set_stats (count_mispred fetches (u64 (reqCycle - fetchCycle)) (stats c)) c);;
        mret lastCommitCycle);
  modify (fun c => set_branch (mkBranch 0 (branchTaken b) (branchTakenNpc b) (branchNotTakenNpc b)) c);;
  mret r.

(** The fetch of the block, and the cycle in which its decode can start. *)
Definition fetch_bbl (bblAddr bytes fetchCycle : Z) : st (Core Mem) unit :=
  zoom pipe set_pipe (
    fetchCycle ← fetch_lines (Z.to_nat (bytes / lineSize + 1)) bblAddr (u64 (bblAddr + bytes)) fetchCycle;
    modify (fun p =>
      let d := u64 (decodeCycle (front p) + 1) in
      let minFetchDecCycle := u64 (fetchCycle + (DECODE_STAGE - FETCH_STAGE)) in
      set_front (set_decodeCycle (if d <? minFetchDecCycle then minFetchDecCycle else d) (front p)) p)).

Definition bbl (bblAddr : Z) (bblInfo : BblInfo) : st (Core Mem) unit :=
  c ← gets id;
  match prevBbl c with
  | None => modify (set_prevBbl (Some bblInfo));; modify clear_accesses
  | Some b =>
    modify (set_prevBbl (Some bblInfo));;
    '(lastCommitCycle, loadIdx, storeIdx) ←
      zoom pipe set_pipe (run_uops (uop (oooBbl b)) 0 (addrs (loads c)) (addrs (stores c)) 0 0 0);
    modify (fun c => set_stats (count_bbl b (stats c)) c);;
    assert_ (loadIdx =? used (loads c));;
    assert_ (storeIdx =? used (stores c));;
    modify clear_accesses;;
    d ← gets (fun c => decodeCycle (front (pipe c)));
    fetchCycle ← resolve_branch lastCommitCycle (u64 (d - (DECODE_STAGE - FETCH_STAGE)));
    fetch_bbl bblAddr (b_bytes bblInfo) fetchCycle
  end.

(** ** The calls of the instrumentation *)

(** An access is written down; the arrays have 256 places. *)
Definition add_access (addr size : Z) (a : Accesses) : result Accesses :=
  match set_at (addrs a) (used a) (addr, size) with Ok l => Ok (mkAcc l (u32 (used a + 1))) | Err e => Err e end.

Definition load (addr size : Z) : st (Core Mem) unit :=
  c ← gets id; a ← lift (add_access addr size (loads c)); modify (set_accesses a (stores c)).
Definition store (addr size : Z) : st (Core Mem) unit :=
  c ← gets id; a ← lift (add_access addr size (stores c)); modify (set_accesses (loads c) a).

(** [predFalseMemOp]: the second assignment is to the address again, so the size is
    the one that was there. *)
Definition predFalseMemOp : st (Core Mem) unit :=
  c ← gets id;
  a ← lift (at_ (addrs (loads c)) (used (loads c)));
  load 0 a.2.

Definition branch (pc : Z) (taken : bool) (takenNpc notTakenNpc : Z) : st (Core Mem) unit :=
  modify (set_branch (mkBranch pc taken takenNpc notTakenNpc)).

(** [advance], for the times between the phases. *)
Definition long_advance (targetCycle : Z) : st Front unit := fun f =>
  match longAdvance IW (curCycle f) targetCycle (insWindow f) with
  | Ok (c, w) => Ok (tt, mkFront w c (decodeCycle f) (uopQueue f) 0 0 (regScoreboard f))
  | Err e => Err e
  end.

Definition advance (targetCycle : Z) : st (Core Mem) unit :=
  zoom pipe set_pipe (zoom front set_front (
    f ← gets id;
    assert_ (curCycle f <? targetCycle);;
    modify (set_decodeCycle (u64 (decodeCycle f + (targetCycle - curCycle f))));;
    long_advance targetCycle;;
    c ← gets curCycle;
    assert_ (targetCycle =? c))).
End core.

(** ** The core at the start

    [MAX_REGISTERS] is a number of Pin.  The constructor gives no value to
    [mispredInstrs], to the fields of the branch other than its address, and to the
    arrays of accesses. *)
Definition OOOCore_init {Mem : Type} (MAX_REGISTERS : Z) (port : Z) (m : Mem) (ls ss : list (Z * Z)) (mispred0 : Z) (b : Branch) : Core Mem :=
  let q := ReorderBuffer.init LSQ_SIZE in
  mkCore
    (mkPipe (mkFront (WindowStructure_init IW port) 0 DECODE_STAGE (CycleQueue.init UOPQ_SIZE) 0 0 (replicate (Z.to_nat MAX_REGISTERS) 0))
      (ReorderBuffer.init ROB_SIZE)
      (mkLsu q q 0 0 (replicate (Z.to_nat FWD_ENTRIES) (mkFwd no_addr 0)) m [] [])
      (mkTop 0 0 0 0 0 0))
    None (mkAcc ls 0) (mkAcc ss 0) (mkBranch 0 (branchTaken b) (branchTakenNpc b) (branchNotTakenNpc b)) (BranchPredictor.init NB LB)
    (mkStats 0 0 0 0 0 0 0 0 0 mispred0 0 0 false).
