(* ===== verification/OooCoreInv.v ===== *)
(** * The out-of-order core keeps running

    The state of the core is well formed up to a horizon: no cycle the core has
    noted is later.  Each stage of a micro-operation keeps it so, for a horizon that
    is a bounded number of cycles later, and none of its array accesses and
    assertions fails. *)

From stdpp Require Import base tactics numbers list.
From Stdlib Require Import ZArith Lia.
From S2P Require Import Prelude OooWindow OooWindowInv OooWindowMain OooBuffers OooCore.
Import Ring ReorderBufferProps.

Open Scope Z_scope.

(** A cycle up to the horizon. *)
Definition upto (T x : Z) : Prop := 0 <= x <= T.

Lemma upto_mono T T' x : upto T x -> T <= T' -> upto T' x.
Proof. unfold upto. lia. Qed.

Lemma Forall_upto T T' l : Forall (upto T) l -> T <= T' -> Forall (upto T') l.
Proof. intros Hl HT. eapply Forall_impl; [exact Hl|]. intros x Hx. by eapply upto_mono. Qed.

Lemma WInv_mono H WSZ L L' cur w : WInv H WSZ L cur w -> L <= L' <= 2 ^ 62 -> WInv H WSZ L' cur w.
Proof.
  intros [P B C N Z0 S K Oc On Ou Y L0 OO OS] HL. constructor; try done; try lia.
  - eapply Forall_impl; [exact K|]. simpl. lia.
  - intros c Hc. apply Y. lia.
Qed.

(** A ring of cycles up to the horizon. *)
Definition cycles_ring (SZ T : Z) (b : list Z) (i : Z) : Prop := exists hist, ring SZ hist b i /\ Forall (upto T) hist.

Lemma cycles_ring_mono SZ T T' b i : cycles_ring SZ T b i -> T <= T' -> cycles_ring SZ T' b i.
Proof. intros (h & Hr & Hf) HT. exists h. split; [done|]. by eapply Forall_upto. Qed.

Lemma cycles_ring_head SZ T b i : 0 < SZ < 2 ^ 31 -> cycles_ring SZ T b i -> exists a, b !! Z.to_nat i = Some a /\ upto T a.
Proof.
  intros HSZ (h & Hr & Hf). destruct (ring_head SZ HSZ _ _ _ Hr) as (a & Ha & Hh). exists a. split; [done|].
  by eapply Forall_lookup_1.
Qed.

(** A reorder buffer up to the horizon. *)
Definition rob_upto (SZ W T : Z) (q : ReorderBuffer.t) : Prop :=
  exists rs, RInv SZ W rs q /\ Forall (upto T) rs /\ upto T (ReorderBuffer.curRetireCycle q).

Lemma rob_mono SZ W T T' q : rob_upto SZ W T q -> T <= T' -> rob_upto SZ W T' q.
Proof. intros (rs & I & Hf & Hc) HT. exists rs. split; [done|]. split; [by eapply Forall_upto|by eapply upto_mono]. Qed.

Lemma rob_alloc SZ W T q : 0 < SZ < 2 ^ 31 -> 0 <= T -> rob_upto SZ W T q ->
  wp ReorderBuffer.minAllocCycle q (fun a q' => q' = q /\ upto T a).
Proof.
  intros HSZ HT (rs & I & Hf & Hc). destruct (minAlloc_spec SZ W HSZ rs q I) as (a & Ha & Hh).
  unfold wp. rewrite Ha. split; [done|]. unfold history in Hh. apply lookup_app_Some in Hh as [Hh|[_ Hh]].
  - apply lookup_replicate in Hh as [-> _]. unfold upto. lia.
  - by eapply Forall_lookup_1.
Qed.

Lemma rob_mark SZ W T q m : 0 < SZ < 2 ^ 31 -> 0 < W < 2 ^ 31 -> T < 2 ^ 62 -> upto T m -> rob_upto SZ W T q ->
  wp (ReorderBuffer.markRetire SZ W m) q (fun _ q' => rob_upto SZ W (T + 1) q').
Proof.
  intros HSZ HW HT Hm (rs & I & Hf & Hc). unfold upto in *.
  destruct (markRetire_spec SZ W HSZ HW m rs q I ltac:(lia)) as (q' & Hq & H1 & H2 & I').
  unfold wp. rewrite Hq. exists (rs ++ [ReorderBuffer.curRetireCycle q']). split; [done|].
  assert (upto (T + 1) (ReorderBuffer.curRetireCycle q')) by (unfold upto; lia).
  split; [|done]. apply Forall_app. split; [apply (Forall_upto T); [done|lia]|by constructor].
Qed.

(** ** The front *)

Section front.
Context (NREG : Z).

Record FInv (T : Z) (f : Front) : Prop := {
  fi_win : WInv IW IW_SIZE T (curCycle f) (insWindow f);
  fi_dec : DECODE_STAGE <= decodeCycle f <= T;
  fi_queue : cycles_ring UOPQ_SIZE T (CycleQueue.buf (uopQueue f)) (CycleQueue.idx (uopQueue f));
  fi_reads : 0 <= curCycleRFReads f <= RF_READS_PER_CYCLE;
  fi_issued : 0 <= curCycleIssuedUops f <= ISSUES_PER_CYCLE;
  fi_regs : length (regScoreboard f) = Z.to_nat NREG;
  fi_ready : Forall (upto T) (regScoreboard f)
}.

Lemma FInv_mono T T' f : FInv T f -> T <= T' <= 2 ^ 62 -> FInv T' f.
Proof.
  intros [Wi De Qu Re Is Rl Rr] HT. constructor; try done.
  - eapply WInv_mono; [done|lia].
  - lia.
  - eapply cycles_ring_mono; [done|lia].
  - eapply Forall_upto; [done|lia].
Qed.

Lemma FInv_cur T f : FInv T f -> upto T (curCycle f) /\ T <= 2 ^ 62.
Proof.
  intros I. pose proof (wi_limit _ _ _ _ _ (fi_win _ _ I)). pose proof (wi_base _ _ _ _ _ (fi_win _ _ I)).
  pose proof (wi_pos _ _ _ _ _ (fi_win _ _ I)). unfold upto. lia.
Qed.

Lemma IW_range : 0 < IW < 2 ^ 29.
Proof. unfold IW. lia. Qed.
Lemma IW_SIZE_range : 0 < IW_SIZE < 256.
Proof. unfold IW_SIZE. lia. Qed.

Lemma advance_n_spec n T cur w : WInv IW IW_SIZE T cur w -> cur + Z.of_nat n <= T ->
  wp (advance_n n cur) w (fun c w' => c = cur + Z.of_nat n /\ WInv IW IW_SIZE T c w').
Proof.
  revert cur w. induction n as [|n IH]; intros cur w I Hc; cbn [advance_n].
  { apply wp_ret. split; [lia|done]. }
  apply wp_bind. destruct (advancePos_spec IW IW_SIZE IW_range IW_SIZE_range T cur w I ltac:(lia)) as (w' & Hw & I' & _).
  unfold wp at 1. rewrite Hw. eapply wp_mono; [apply IH; [done|lia]|]. intros c w2 (-> & I2). split; [lia|done].
Qed.

Lemma next_cycles_spec n rf T f : FInv T f -> curCycle f + Z.of_nat n <= T -> 0 <= rf <= RF_READS_PER_CYCLE ->
  wp (next_cycles n rf) f (fun _ f' => FInv T f' /\ curCycle f' = curCycle f + Z.of_nat n /\ decodeCycle f' = decodeCycle f /\
    regScoreboard f' = regScoreboard f /\ curCycleIssuedUops f' = 0).
Proof.
  intros [Wi De Qu Re Is Rl Rr] Hc Hrf. pose proof (advance_n_spec n T _ _ Wi Hc) as Ha. unfold wp, next_cycles in *.
  destruct (advance_n n (curCycle f) (insWindow f)) as [[c w]|e]; [|done]. destruct Ha as (-> & Ia).
  split; [|done]. constructor; simpl; done.
Qed.

Lemma cycles_ring_push SZ T b i c : 0 < SZ < 2 ^ 31 -> cycles_ring SZ T b i -> upto T c ->
  cycles_ring SZ T (<[Z.to_nat i := c]> b) (if u32 (i + 1) =? SZ then 0 else u32 (i + 1)).
Proof.
  intros HSZ (h & Hr & Hf) Hc. exists (h ++ [c]). split; [by apply ring_push|]. apply Forall_app. split; [done|by constructor].
Qed.

(** Decode: the core comes to the cycle of decode. *)
Lemma decode_uop_spec diff T f : FInv T f -> 0 <= diff < 65536 -> T + 65536 <= curCycle f + 2 ^ 31 -> T + 65536 <= 2 ^ 62 ->
  wp (decode_uop diff) f (fun _ f' => FInv (T + 65536) f' /\ curCycle f <= curCycle f' /\
    decodeCycle f + diff <= decodeCycle f' <= curCycle f' /\ regScoreboard f' = regScoreboard f).
Proof.
  intros I Hd Hb H62. destruct (FInv_cur _ _ I) as [Hcur _]. pose proof (fi_dec _ _ I) as Hdec. unfold upto in Hcur. unfold DECODE_STAGE in Hdec.
  unfold decode_uop. wp_step. wp_step. wp_step. wp_step.
  destruct (cycles_ring_head UOPQ_SIZE T _ _ ltac:(unfold UOPQ_SIZE; lia) (fi_queue _ _ I)) as (a & Ha & Hat). unfold upto in Hat.
  unfold wp at 1, CycleQueue.minAllocCycle. cbn [id]. rewrite Ha. cbn [set_uopQueue].
  replace (set_uopQueue (uopQueue f) f) with f by (by destruct f). rewrite u64_id by (unfold in_u64, W64; lia).
  set (d := Z.max (decodeCycle f + diff) a).
  wp_step. wp_step. pose proof (FInv_mono _ (T + 65536) _ I ltac:(lia)) as I1.
  assert (I2 : FInv (T + 65536) (set_decodeCycle d f)).
  { destruct I1 as [Wi De Qu Re Is Rl Rr]. constructor; simpl; try done. unfold DECODE_STAGE. lia. }
  assert (Leave : forall f', FInv (T + 65536) f' -> curCycle f <= curCycle f' -> d <= curCycle f' -> decodeCycle f' = d ->
    regScoreboard f' = regScoreboard f -> wp (c ← gets curCycle; zoom uopQueue set_uopQueue (CycleQueue.markLeave UOPQ_SIZE c)) f'
      (fun _ f' => FInv (T + 65536) f' /\ curCycle f <= curCycle f' /\
        decodeCycle f + diff <= decodeCycle f' <= curCycle f' /\ regScoreboard f' = regScoreboard f)).
  { intros f' I' H1 H2 H3 H4. wp_step. wp_step. wp_step.
    destruct (cycles_ring_head UOPQ_SIZE _ _ _ ltac:(unfold UOPQ_SIZE; lia) (fi_queue _ _ I')) as (a' & Ha' & _).
    unfold wp, CycleQueue.markLeave. rewrite Ha'. simpl. split; [|split; [done|split; [lia|done]]].
    pose proof (proj1 (FInv_cur _ _ I')) as Hcur'. destruct I' as [Wi De Qu Re Is Rl Rr]. constructor; simpl; try done.
    apply cycles_ring_push; [unfold UOPQ_SIZE; lia|done|done]. }
  wp_step. wp_step; intros Hlt.
  - apply Z.ltb_lt in Hlt. rewrite u32_id by (unfold in_u32, W32; lia).
    eapply wp_mono; [apply (next_cycles_spec _ 0 _ _ I2); simpl; [lia|unfold RF_READS_PER_CYCLE; lia]|].
    simpl. intros [] f' (I' & Hc' & Hd' & Hr' & _). apply Leave; try done; lia.
  - apply Z.ltb_ge in Hlt. apply Leave; try done; simpl; lia.
Qed.

(** The registers that an operation reads, and the cycle for a register that is none. *)
Definition sources (T : Z) (u : DynUop) (f f' : Front) (c : Z * Z) : Prop :=
  at_ (regScoreboard f') (rs0 u) = Ok c.1 /\ at_ (regScoreboard f') (rs1 u) = Ok c.2 /\
  upto T c.1 /\ upto T c.2 /\ exists x, regScoreboard f' = <[O := x]> (regScoreboard f).

Lemma read_regs_spec u T f : FInv T f -> curCycle f + 1 <= T -> 0 <= rs0 u < NREG -> 0 <= rs1 u < NREG ->
  wp (read_regs u) f (fun c f' => FInv T f' /\ curCycle f <= curCycle f' <= curCycle f + 1 /\ sources T u f f' c).
Proof.
  intros I Hc R0 R1. pose proof I as [Wi De Qu Re Is Rl Rr]. pose proof (proj1 (FInv_cur _ _ I)) as Hcur.
  unfold RF_READS_PER_CYCLE in *. unfold read_regs, sources. wp_step. wp_step. cbn [id].
  destruct (lookup_lt_is_Some_2 (regScoreboard f) O) as [x0 Hx0]; [lia|].
  wp_step. wp_step. eexists. split; [unfold set_at; change (Z.to_nat 0) with O; by rewrite Hx0|].
  set (regs := <[O := curCycle f]> (regScoreboard f)).
  assert (Fr : Forall (upto T) regs) by (apply Forall_insert; done).
  assert (Lr : length regs = Z.to_nat NREG) by (unfold regs; by rewrite length_insert).
  destruct (lookup_lt_is_Some_2 regs (Z.to_nat (rs0 u))) as [c0 Hc0]; [lia|].
  destruct (lookup_lt_is_Some_2 regs (Z.to_nat (rs1 u))) as [c1 Hc1]; [lia|].
  wp_step. wp_step. wp_step. wp_step. exists c0. split; [by apply at_some|].
  wp_step. wp_step. exists c1. split; [by apply at_some|].
  set (reads := u32 _). assert (Hre : 0 <= reads <= 5).
  { unfold reads. rewrite u32_id by (unfold in_u32, W32; repeat case_match; lia). repeat case_match; lia. }
  assert (I2 : FInv T (set_counts (Z.min reads 3) (curCycleIssuedUops f) (set_regScoreboard regs f))).
  { constructor; simpl; try done; unfold RF_READS_PER_CYCLE; lia. }
  pose proof (Forall_lookup_1 _ _ _ _ Fr Hc0) as U0. pose proof (Forall_lookup_1 _ _ _ _ Fr Hc1) as U1.
  wp_step. wp_step. wp_step. wp_step; intros Hrd.
  - apply Z.ltb_lt in Hrd.
    unfold RF_READS_PER_CYCLE in Hrd |- *. pose proof (next_cycles_spec 1 (reads - 3) _ _ I2 ltac:(simpl; lia) ltac:(unfold RF_READS_PER_CYCLE; lia)) as Hn.
    eapply wp_mono; [exact Hn|]. simpl. intros [] f3 (I3 & Hc3 & _ & Hr3 & _). wp_step. simpl.
    split; [done|]. split; [lia|]. rewrite Hr3, (at_some _ _ _ Hc0), (at_some _ _ _ Hc1). split_and!; try done. by exists (curCycle f).
  - apply Z.ltb_ge in Hrd. unfold RF_READS_PER_CYCLE in Hrd. wp_step. rewrite Z.min_l in I2 by lia. split; [done|]. simpl. split; [lia|].
    rewrite (at_some _ _ _ Hc0), (at_some _ _ _ Hc1). split_and!; try done. by exists (curCycle f).
Qed.

(** Issue: at most [ISSUES_PER_CYCLE] operations are counted in a cycle. *)
Lemma issue_uop_spec u T f : FInv T f -> T + 2 <= 2 ^ 62 -> 0 <= rs0 u < NREG -> 0 <= rs1 u < NREG ->
  wp (issue_uop u) f (fun c f' => FInv (T + 2) f' /\ curCycle f <= curCycle f' <= curCycle f + 2 /\ sources (T + 2) u f f' c).
Proof.
  intros I H62 R0 R1. destruct (FInv_cur _ _ I) as [Hcur _]. unfold upto in Hcur. unfold issue_uop. wp_step. wp_step.
  pose proof (FInv_mono _ (T + 2) _ I ltac:(lia)) as I0. wp_step.
  assert (Rest : forall f1, FInv (T + 2) f1 -> curCycle f <= curCycle f1 <= curCycle f + 1 ->
    0 <= curCycleIssuedUops f1 < ISSUES_PER_CYCLE -> regScoreboard f1 = regScoreboard f ->
    wp (modify (fun f => set_counts (curCycleRFReads f) (u32 (curCycleIssuedUops f + 1)) f);; read_regs u) f1
      (fun c f' => FInv (T + 2) f' /\ curCycle f <= curCycle f' <= curCycle f + 2 /\ sources (T + 2) u f f' c)).
  { intros f1 I1 Hc His Hr. wp_step. wp_step. unfold ISSUES_PER_CYCLE in His. rewrite u32_id by (unfold in_u32, W32; lia).
    eapply wp_mono; [apply (read_regs_spec u (T + 2)); [|simpl; lia|done|done]|].
    - destruct I1 as [Wi De Qu Re Is Rl Rr]. constructor; simpl; try done. unfold ISSUES_PER_CYCLE. lia.
    - simpl. intros c f' (I' & Hc' & Hs). split; [done|]. split; [lia|]. unfold sources in *. simpl in Hs. by rewrite Hr in Hs. }
  wp_step; intros Hi.
  - eapply wp_mono; [apply (next_cycles_spec 1 0 _ _ I0); [lia|unfold RF_READS_PER_CYCLE; lia]|].
    intros [] f1 (I1 & Hc1 & _ & Hr1 & Hi1). apply Rest; try done; try lia. unfold ISSUES_PER_CYCLE. lia.
  - apply Z.leb_gt in Hi. apply Rest; try done; try lia. pose proof (fi_issued _ _ I). lia.
Qed.

(** Dispatch: the slot in the window. *)
Lemma schedule_uop_spec u d T f : FInv T f -> upto T d -> 0 < portMask u < 256 -> 0 <= extraSlots u < 256 ->
  T + 258 < curCycle f + 2 ^ 31 -> T + 258 <= 2 ^ 60 ->
  wp (schedule_uop u d) f (fun disp f' => FInv (T + 256) f' /\ curCycle f <= curCycle f' /\ Z.max d (curCycle f') <= disp <= T /\
    regScoreboard f' = regScoreboard f).
Proof.
  intros I Hd Hm Hx Hb H60. unfold upto in Hd. unfold schedule_uop.
  destruct (schedule_spec IW IW_SIZE IW_range IW_SIZE_range T (curCycle f) d (portMask u) (extraSlots u) (insWindow f) (fi_win _ _ I))
    as (cur' & sched' & p & w1 & w' & L' & Hs & Hc & Hp1 & Hp2 & (He & Hr & Ho & I1) & Hsh & I' & HL & _); try done; try lia.
  pose proof (earliest_bound _ _ _ _ _ _ _ _ (fi_win _ _ I) Hm He) as Hbd. destruct He as (Hge & _).
  pose proof (wi_limit _ _ _ _ _ I1) as Hl1. pose proof (wi_limit _ _ _ _ _ I') as Hl'.
  unfold wp. rewrite Hs.
  assert (Iw : WInv IW IW_SIZE (T + 256) cur' w') by (eapply WInv_mono; [exact I'|lia]).
  pose proof (FInv_mono _ (T + 256) _ I ltac:(lia)) as [Wi De Qu Re Is Rl Rr].
  destruct (curCycle f <? cur'); (split; [constructor; simpl; try done; unfold RF_READS_PER_CYCLE, ISSUES_PER_CYCLE; lia|simpl; split; [lia|split; [lia|done]]]).
Qed.
End front.

(** ** Loads and stores *)

(** What the core relies on: no response comes before its request, and responses come
    within [D] cycles.  Accesses to data need not be in the order of time, so they are
    only bounded by the latest cycle the caches have heard of; fetches always are made
    at the clock. *)
Class TimelyCaches (Mem : Type) `{CoreCaches Mem} (D : Z) : Type := {
  caches_upto : Z -> Z -> Mem -> Prop;    (** up to a horizon, at a clock *)
  caches_latency : 0 <= D < 2 ^ 30;
  caches_mono T T' cur cur' m : caches_upto T cur m -> T <= T' -> cur <= cur' -> caches_upto T' cur' m;
  caches_load T cur addr cycle m : caches_upto T cur m -> 0 <= cycle <= T ->
    wp (l1d_load addr cycle) m (fun r m' => cycle <= r <= T + D /\ caches_upto (T + D) cur m');
  caches_store T cur addr cycle m : caches_upto T cur m -> 0 <= cycle <= T ->
    wp (l1d_store addr cycle) m (fun r m' => cycle <= r <= T + D /\ caches_upto (T + D) cur m');
  caches_fetch T cur addr m : caches_upto T cur m -> 0 <= cur ->
    wp (l1i_load addr cur) m (fun r m' => cur <= r <= cur + D /\ caches_upto T cur m')
}.

Section lsu.
Context `{TC : TimelyCaches Mem D}.
Context (solo : bool).

Record LInv (T cur : Z) (l : Lsu Mem) : Prop := {
  li_loads : rob_upto LSQ_SIZE WIDTH T (loadQueue l);
  li_stores : rob_upto LSQ_SIZE WIDTH T (storeQueue l);
  li_last : upto T (lastStoreCommitCycle l);
  li_lastaddr : upto T (lastStoreAddrCommitCycle l);
  li_fwd : length (fwdArray l) = Z.to_nat FWD_ENTRIES;
  li_fwdcycles : Forall (fun e => upto T (f_storeCycle e)) (fwdArray l);
  li_caches : caches_upto T cur (mem l)
}.

Lemma LInv_mono T T' cur cur' l : LInv T cur l -> T <= T' -> cur <= cur' -> LInv T' cur' l.
Proof.
  intros [Lo St La Ad Fl Fc Ca] HT Hc. constructor; try done; try (by eapply rob_mono); try (by eapply upto_mono).
  - eapply Forall_impl; [exact Fc|]. intros e He. eapply upto_mono; [exact He|done].
  - by eapply caches_mono.
Qed.

Lemma fwd_index_range addr : 0 <= fwd_index addr < FWD_ENTRIES.
Proof. unfold fwd_index, FWD_ENTRIES. change (32 - 1) with (Z.ones 5). rewrite Z.land_ones by done. by apply Z.mod_pos_bound. Qed.

(** What an access of the caches leaves alone. *)
Definition same_lsu (l l' : Lsu Mem) : Prop :=
  fwdArray l' = fwdArray l /\ loadQueue l' = loadQueue l /\ storeQueue l' = storeQueue l /\
  lastStoreCommitCycle l' = lastStoreCommitCycle l /\ lastStoreAddrCommitCycle l' = lastStoreAddrCommitCycle l.

Lemma LInv_access T T' cur cur' l m r : LInv T cur l -> T <= T' -> caches_upto T' cur' m -> LInv T' cur' (set_mem m r l).
Proof.
  intros [Lo St La Ad Fl Fc Ca] HT Hm. constructor; simpl; try done; try (by eapply rob_mono); try (by eapply upto_mono).
  eapply Forall_impl; [exact Fc|]. intros e He. eapply upto_mono; [exact He|done].
Qed.

Lemma data_access_spec op T cur addr now cycle (l : Lsu Mem) :
  (forall T cur addr cycle m, caches_upto T cur m -> 0 <= cycle <= T ->
    wp (op addr cycle) m (fun r m' => cycle <= r <= T + D /\ caches_upto (T + D) cur m')) ->
  LInv T cur l -> upto T cycle -> T + D + 5 <= 2 ^ 62 ->
  wp (access op addr now cycle L1D_LAT) l (fun c l' => cycle + L1D_LAT <= c <= T + D + L1D_LAT /\ LInv (T + D) cur l' /\ same_lsu l l').
Proof.
  intros Hop I Hc HT. pose proof caches_latency as HD. unfold upto, L1D_LAT in *.
  specialize (Hop T cur addr cycle (mem l) (li_caches _ _ _ I) Hc).
  unfold wp, access in *. destruct (op addr cycle (mem l)) as [[resp m]|]; [|done]. destruct Hop as [Hr Hm]. rewrite u64_id by (unfold in_u64, W64; lia).
  split; [lia|]. split; [eapply LInv_access; [done|lia|done]|done].
Qed.

Lemma lsu_dispatch_spec (get : Lsu Mem -> ReorderBuffer.t) set d T (l : Lsu Mem) :
  (forall l, set (get l) l = l) -> rob_upto LSQ_SIZE WIDTH T (get l) -> upto T (lastStoreAddrCommitCycle l) -> upto T d -> T < 2 ^ 62 ->
  wp (lsu_dispatch get set d) l (fun d' l' => l' = l /\ upto (T + 1) d' /\ d <= d' /\ lastStoreAddrCommitCycle l < d').
Proof.
  intros Hset Hq Ha Hd HT. unfold lsu_dispatch. wp_step. wp_step.
  eapply wp_mono; [apply (rob_alloc LSQ_SIZE WIDTH T); [unfold LSQ_SIZE; lia|unfold upto in Hd; lia|done]|].
  simpl. intros a q' (-> & Hat). wp_step. wp_step. wp_step. rewrite Hset. split; [done|].
  unfold upto in *. rewrite u64_id by (unfold in_u64, W64; lia). case_match eqn:E; [apply Z.ltb_lt in E|apply Z.ltb_ge in E]; lia.
Qed.

(** The entry of a store that a load must not overtake. *)
Definition forwarded (l : Lsu Mem) (addr c : Z) : Prop :=
  forall e, fwdArray l !! Z.to_nat (fwd_index addr) = Some e -> f_addr e = addr -> f_storeCycle e <= c.

Lemma finish_load_spec addr r T cur (l : Lsu Mem) : LInv T cur l -> 0 <= r <= T + 4 -> 0 <= T -> T + 5 <= 2 ^ 62 ->
  wp (finish_load addr r) l (fun c l' => LInv (T + 5) cur l' /\ r <= c <= T + 4 /\ forwarded l addr c /\
    fwdArray l' = fwdArray l /\ lastStoreCommitCycle l' = lastStoreCommitCycle l /\ lastStoreAddrCommitCycle l' = lastStoreAddrCommitCycle l).
Proof.
  intros I Hr HT0 HT. pose proof I as [Lo St La Ad Fl Fc Ca]. unfold finish_load. wp_step. wp_step. wp_step. wp_step.
  pose proof (fwd_index_range addr) as Hi. destruct (lookup_lt_is_Some_2 (fwdArray l) (Z.to_nat (fwd_index addr))) as [e He]; [lia|].
  exists e. split; [by apply at_some|]. pose proof (Forall_lookup_1 _ _ _ _ Fc He) as Hec. simpl in Hec. unfold upto in Hec.
  cbv zeta. set (c := if f_addr e =? addr then _ else _).
  assert (Hc : r <= c <= T + 4 /\ (f_addr e = addr -> f_storeCycle e <= c)) by (unfold c; case Z.eqb_spec; intros; lia).
  wp_step. wp_step.
  eapply wp_mono; [apply (rob_mark LSQ_SIZE WIDTH (T + 4)); [unfold LSQ_SIZE; lia|unfold WIDTH; lia|lia|unfold upto; lia|]|].
  { eapply rob_mono; [exact Lo|lia]. }
  simpl. intros [] q' Hq'. wp_step. replace (T + 4 + 1) with (T + 5) in Hq' by lia.
  split; [|split; [lia|split; [|done]]].
  - destruct (LInv_mono _ (T + 5) _ _ _ I ltac:(lia) ltac:(done)). by constructor.
  - intros e' He' Ha'. rewrite He in He'. injection He' as <-. by apply Hc.
Qed.

Lemma finish_store_spec addr now d T cur (l : Lsu Mem) : LInv T cur l -> upto T d -> T + D + 5 <= 2 ^ 62 ->
  wp (finish_store addr now d) l (fun c l' => LInv (T + D + 5) cur l' /\ d <= c <= T + D + 4 /\
    fwdArray l' = <[Z.to_nat (fwd_index addr) := mkFwd addr c]> (fwdArray l) /\
    lastStoreCommitCycle l' = Z.max (lastStoreCommitCycle l) c /\ lastStoreAddrCommitCycle l' = lastStoreAddrCommitCycle l).
Proof.
  intros I Hd HT. pose proof I as [Lo St La Ad Fl Fc Ca]. pose proof caches_latency as HD. unfold finish_store. wp_step.
  eapply wp_mono; [apply (data_access_spec _ T cur addr now d l caches_store I Hd HT)|].
  simpl. intros c l2 (Hc & I2 & Hf2 & Hq2 & Hsq2 & Hs2 & Hsa2). unfold upto, L1D_LAT in *. wp_step. wp_step. wp_step. wp_step.
  rewrite Hf2. pose proof (fwd_index_range addr) as Hi.
  destruct (lookup_lt_is_Some_2 (fwdArray l) (Z.to_nat (fwd_index addr))) as [e He]; [lia|].
  eexists. split; [unfold set_at; by rewrite He|]. wp_step. wp_step. wp_step. wp_step. wp_step. wp_step. simpl.
  eapply wp_mono; [apply (rob_mark LSQ_SIZE WIDTH (T + D + 4)); [unfold LSQ_SIZE; lia|unfold WIDTH; lia|lia|unfold upto; lia|]|].
  { eapply rob_mono; [rewrite Hsq2; exact St|lia]. }
  simpl. intros [] q' Hq'. wp_step. replace (T + D + 4 + 1) with (T + D + 5) in Hq' by lia.
  split; [|split; [lia|split; [done|split; [simpl; by rewrite Hs2|done]]]].
  destruct (LInv_mono _ (T + D + 5) _ cur _ I2 ltac:(lia) ltac:(done)) as [Lo' St' La' Ad' Fl' Fc' Ca']. constructor; simpl; try done.
  - unfold upto in *. lia.
  - by rewrite length_insert.
  - apply Forall_insert; [|simpl; unfold upto; lia]. eapply Forall_impl; [exact Fc|]. intros x Hx. eapply upto_mono; [exact Hx|lia].
Qed.

(** What the operations keep, and the cycle of commit of an access dispatched at [d]. *)
Definition accessed (T cur d : Z) (l : Lsu Mem) (c : Z) (l' : Lsu Mem) : Prop :=
  LInv (T + D + 6) cur l' /\ d <= c /\ lastStoreAddrCommitCycle l < c <= T + D + 5 /\
  lastStoreAddrCommitCycle l' = lastStoreAddrCommitCycle l.

Lemma do_load_spec addr size now d T cur (l : Lsu Mem) : LInv T cur l -> upto T d -> T + D + 6 <= 2 ^ 62 ->
  wp (do_load solo addr size now d) l (fun c l' => accessed T cur d l c l' /\
    lastStoreCommitCycle l' = lastStoreCommitCycle l /\ fwdArray l' = fwdArray l /\ forwarded l addr c).
Proof.
  intros I Hd HT. pose proof I as [Lo St La Ad Fl Fc Ca]. pose proof caches_latency as HD. assert (HT0 : 0 <= T) by (unfold upto in Hd; lia).
  unfold do_load. wp_step.
  eapply wp_mono; [apply (lsu_dispatch_spec loadQueue set_loadQueue d T l); [by intros []|done|done|done|lia]|].
  intros d' l0 (-> & Hu & Hdd & Hla). wp_step.
  assert (Rest : forall r l1, LInv (T + 1 + D) cur l1 -> d' <= r <= T + D + 5 -> fwdArray l1 = fwdArray l ->
    lastStoreCommitCycle l1 = lastStoreCommitCycle l -> lastStoreAddrCommitCycle l1 = lastStoreAddrCommitCycle l ->
    wp (finish_load addr r) l1 (fun c l' => accessed T cur d l c l' /\
      lastStoreCommitCycle l' = lastStoreCommitCycle l /\ fwdArray l' = fwdArray l /\ forwarded l addr c)).
  { intros r l1 I1 Hr Hf Hs Hsa. unfold upto in Hu. eapply wp_mono; [apply (finish_load_spec addr r (T + 1 + D) cur l1 I1); lia|].
    intros c l' (I' & Hc & Hfw & Hf' & Hs' & Hsa'). unfold accessed, forwarded in *. rewrite Hf', Hs', Hsa', Hf, Hs, Hsa in *.
    split; [|done]. split; [by replace (T + D + 6) with (T + 1 + D + 5) by lia|]. split; [lia|]. split; [lia|done]. }
  pose proof (LInv_mono _ (T + 1) _ cur _ I ltac:(lia) ltac:(done)) as I1.
  destruct (addr =? no_addr); simpl.
  - wp_step. unfold upto in Hu. apply Rest; try done; [|lia]. eapply LInv_mono; [exact I1|lia|done].
  - wp_step. eapply wp_mono; [apply (data_access_spec _ (T + 1) cur addr now d' l caches_load I1 Hu); lia|].
    simpl. intros c l1 (Hc & I2 & Hf & Hq & Hsq & Hs & Hsa). unfold upto, L1D_LAT in *. wp_step. wp_step; intros _.
    + wp_step. wp_step. apply Rest; simpl; try done; try lia. destruct I2; by constructor.
    + wp_step. apply Rest; try done; lia.
Qed.

Lemma do_store_spec addr size now d T cur (l : Lsu Mem) : LInv T cur l -> upto T d -> T + D + 6 <= 2 ^ 62 ->
  wp (do_store solo addr size now d) l (fun c l' => accessed T cur d l c l' /\
    lastStoreCommitCycle l' = Z.max (lastStoreCommitCycle l) c /\
    fwdArray l' = <[Z.to_nat (fwd_index addr) := mkFwd addr c]> (fwdArray l)).
Proof.
  intros I Hd HT. pose proof I as [Lo St La Ad Fl Fc Ca]. assert (HT0 : 0 <= T) by (unfold upto in Hd; lia). unfold do_store. wp_step.
  eapply wp_mono; [apply (lsu_dispatch_spec storeQueue set_storeQueue d T l); [by intros []|done|done|done|pose proof caches_latency; lia]|].
  intros d' l0 (-> & Hu & Hdd & Hla). wp_step.
  assert (Rest : forall l1, LInv T cur l1 -> fwdArray l1 = fwdArray l -> lastStoreCommitCycle l1 = lastStoreCommitCycle l ->
    lastStoreAddrCommitCycle l1 = lastStoreAddrCommitCycle l ->
    wp (finish_store addr now d') l1 (fun c l' => accessed T cur d l c l' /\
      lastStoreCommitCycle l' = Z.max (lastStoreCommitCycle l) c /\
      fwdArray l' = <[Z.to_nat (fwd_index addr) := mkFwd addr c]> (fwdArray l))).
  { intros l1 I1 Hf Hs Hsa. eapply wp_mono; [apply (finish_store_spec addr now d' (T + 1) cur); [eapply LInv_mono; [exact I1|lia|done]|exact Hu|lia]|].
    intros c l' (I' & Hc & Hf' & Hs' & Hsa'). unfold accessed. rewrite Hf', Hs', Hsa', Hf, Hs, Hsa.
    split; [|done]. split; [by replace (T + D + 6) with (T + 1 + D + 5) by lia|]. split; [lia|]. split; [lia|done]. }
  wp_step; intros _; [wp_step|]; apply Rest; simpl; try done.
Qed.
End lsu.
