(* ===== verification/FilterCache.v ===== *)
(** * The filter caches of the cores (filter_cache.h)

    In front of each first-level cache a direct-mapped array holds the line of each
    set that was used last, with the cycle from which its data are there.  A hit in it
    is not passed on.  Here a core has an instruction and a data cache with such
    arrays; [Cache::access] of the two, with all behind them, is an interface
    ([LowerCaches]).  An access may call [invalidate] of the two caches before it
    returns.  The pair is what the out-of-order core expects of its caches. *)

From stdpp Require Import base tactics numbers list.
From Stdlib Require Import ZArith Lia.
From S2P Require Import Prelude Hash OooCore OooCoreInv.

Open Scope Z_scope.

Record FilterEntry : Type := mkEntry { rdAddr : Z; wrAddr : Z; availCycle : Z }.
Definition FilterEntry_clear : FilterEntry := mkEntry 0 0 0.

Record FilterCache : Type := mkFilterCache {
  filterArray : list FilterEntry; srcId : Z; reqFlags : Z; fGETSHit : Z; fGETXHit : Z
}.

(** The instruction cache and the data cache of a core. *)
Inductive Which : Type := Instr | Data.
#[export] Instance Which_eq_dec : EqDecision Which.
Proof. solve_decision. Defined.

Record Caches (C : Type) : Type := mkCaches { l1i : FilterCache; l1d : FilterCache; lower : C }.
Arguments mkCaches {C}. Arguments l1i {C}. Arguments l1d {C}. Arguments lower {C}.

Definition get_filter {C} (k : Which) (s : Caches C) : FilterCache := match k with Instr => l1i s | Data => l1d s end.
Definition set_filter {C} (k : Which) (f : FilterCache) (s : Caches C) : Caches C :=
  match k with Instr => mkCaches f (l1d s) (lower s) | Data => mkCaches (l1i s) f (lower s) end.

(** [Cache::access] of a first-level cache: the physical line, a load or a store, the
    cycle, the source and the flags of the request give the cycle of the response, and
    the lines it took from the two caches on the way. *)
Class LowerCaches (C : Type) : Type := {
  lower_access : Which -> Z -> bool -> Z -> Z -> Z -> st C (Z * list (Which * Z))
}.

Section filter.
Context `{LowerCaches C}.
Context (lineBits numSets procMask : Z).

Definition setMask : Z := numSets - 1.

Definition FilterCache_init : FilterCache := mkFilterCache (replicate (Z.to_nat numSets) FilterEntry_clear) (u32 (-1)) 0 0 0.
Definition setSourceId (id : Z) (f : FilterCache) : FilterCache := mkFilterCache (filterArray f) id (reqFlags f) (fGETSHit f) (fGETXHit f).
Definition setFlags (flags : Z) (f : FilterCache) : FilterCache := mkFilterCache (filterArray f) (srcId f) flags (fGETSHit f) (fGETXHit f).
Definition set_filterArray (a : list FilterEntry) (f : FilterCache) : FilterCache :=
  mkFilterCache a (srcId f) (reqFlags f) (fGETSHit f) (fGETXHit f).
Definition count_hit (isLoad : bool) (f : FilterCache) : FilterCache :=
  if isLoad then mkFilterCache (filterArray f) (srcId f) (reqFlags f) (u64 (fGETSHit f + 1)) (fGETXHit f)
  else mkFilterCache (filterArray f) (srcId f) (reqFlags f) (fGETSHit f) (u64 (fGETXHit f + 1)).

Definition set_index (lineAddr : Z) : Z := u32 (Z.land lineAddr setMask).

(** The filter's part of [invalidate]. *)
Definition filter_invalidate (lineAddr : Z) : st FilterCache unit :=
  a ← gets filterArray;
  e ← lift (at_ a (set_index lineAddr));
  when (Z.lor (rdAddr e) procMask =? lineAddr)
    (modify (set_filterArray (<[Z.to_nat (set_index lineAddr) := mkEntry no_addr no_addr (availCycle e)]> a))).

Fixpoint invalidations (l : list (Which * Z)) : st (Caches C) unit :=
  match l with
  | [] => mret tt
  | (k, lineAddr) :: l => zoom (get_filter k) (set_filter k) (filter_invalidate lineAddr);; invalidations l
  end.

(** [replace]: the access, and the new entry. *)
Definition replace (k : Which) (vLineAddr idx : Z) (isLoad : bool) (curCycle : Z) : st (Caches C) Z :=
  f ← gets (get_filter k);
  '(respCycle, invs) ← zoom lower (fun c s => mkCaches (l1i s) (l1d s) c)
    (lower_access k (Z.lor procMask vLineAddr) isLoad curCycle (srcId f) (reqFlags f));
  invalidations invs;;
  a ← gets (fun s => filterArray (get_filter k s));
  e ← lift (at_ a idx);
  let e' := mkEntry vLineAddr (if isLoad then no_addr else vLineAddr) (if rdAddr e =? vLineAddr then availCycle e else respCycle) in
  modify (fun s => set_filter k (set_filterArray (<[Z.to_nat idx := e']> a) (get_filter k s)) s);;
  mret respCycle.

(** [load] and [store]. *)
Definition filter_access (k : Which) (isLoad : bool) (vAddr curCycle : Z) : st (Caches C) Z :=
  let vLineAddr := Z.shiftr vAddr lineBits in
  let idx := set_index vLineAddr in
  a ← gets (fun s => filterArray (get_filter k s));
  e ← lift (at_ a idx);
  if vLineAddr =? (if isLoad then rdAddr e else wrAddr e) then
    modify (fun s => set_filter k (count_hit isLoad (get_filter k s)) s);;
    mret (Z.max curCycle (availCycle e))
  else replace k vLineAddr idx isLoad curCycle.

Definition filter_load (k : Which) : Z -> Z -> st (Caches C) Z := filter_access k true.
Definition filter_store (k : Which) : Z -> Z -> st (Caches C) Z := filter_access k false.

Definition contextSwitch (f : FilterCache) : FilterCache := set_filterArray (replicate (Z.to_nat numSets) FilterEntry_clear) f.
End filter.

(** ** The promise to the core *)

(** The first-level caches answer within [D] cycles. *)
Class TimelyLower (C : Type) `{LowerCaches C} (D : Z) : Type := {
  lower_ok : C -> Prop;
  lower_latency : 0 <= D < 2 ^ 30;
  lower_timely k line isLoad cycle src flags c : lower_ok c -> 0 <= cycle ->
    wp (lower_access k line isLoad cycle src flags) c (fun r c' => cycle <= r.1 <= cycle + D /\ lower_ok c')
}.

Section timely.
Context `{TL : TimelyLower C D}.
Context (lineBits numSets procMask : Z).
Context (numSets_pow2 : isPow2 numSets = true) (numSets_range : 0 < numSets < 2 ^ 32).

Definition filter_upto (T : Z) (f : FilterCache) : Prop :=
  length (filterArray f) = Z.to_nat numSets /\ Forall (fun e => upto T (availCycle e)) (filterArray f).

Definition caches_within (Ti Td : Z) (s : Caches C) : Prop := filter_upto Ti (l1i s) /\ filter_upto Td (l1d s) /\ lower_ok (lower s).
Definition bound (k : Which) (Ti Td : Z) : Z := match k with Instr => Ti | Data => Td end.

Lemma filter_upto_mono T T' f : filter_upto T f -> T <= T' -> filter_upto T' f.
Proof. intros [Hl Hf] HT. split; [done|]. eapply Forall_impl; [exact Hf|]. intros e He. eapply upto_mono; [exact He|done]. Qed.

Lemma within_filter k Ti Td s : caches_within Ti Td s -> filter_upto (bound k Ti Td) (get_filter k s).
Proof. intros (Hi & Hd & _). by destruct k. Qed.

Lemma within_set k Ti Td s f : caches_within Ti Td s -> filter_upto (bound k Ti Td) f -> caches_within Ti Td (set_filter k f s).
Proof. intros (Hi & Hd & Hl) Hf. by destruct k. Qed.

Lemma set_index_range a : 0 <= set_index numSets a < numSets.
Proof.
  unfold set_index, setMask. rewrite land_mask by (done || lia). pose proof (Z.mod_pos_bound a numSets ltac:(lia)).
  rewrite u32_id by (unfold in_u32, W32; lia). lia.
Qed.

Lemma filter_entry T f a : filter_upto T f ->
  exists e, filterArray f !! Z.to_nat (set_index numSets a) = Some e /\ upto T (availCycle e).
Proof.
  intros [Hl Hf]. pose proof (set_index_range a) as Hi.
  destruct (lookup_lt_is_Some_2 (filterArray f) (Z.to_nat (set_index numSets a))) as [e He]; [lia|].
  exists e. split; [done|]. exact (Forall_lookup_1 _ _ _ _ Hf He).
Qed.

Lemma filter_upto_insert T f n e : filter_upto T f -> upto T (availCycle e) -> filter_upto T (set_filterArray (<[n := e]> (filterArray f)) f).
Proof. intros [Hl Hf] He. split; simpl; [by rewrite length_insert|by apply Forall_insert]. Qed.

Lemma invalidations_spec l Ti Td s : caches_within Ti Td s -> wp (invalidations numSets procMask l) s (fun _ s' => caches_within Ti Td s').
Proof.
  revert s. induction l as [|[k a] l IH]; intros s Hs; cbn [invalidations]; [by wp_step|].
  pose proof (within_filter k _ _ _ Hs) as Hf. destruct (filter_entry _ _ a Hf) as (e & He & Hu).
  wp_step. wp_step. unfold filter_invalidate. wp_step. wp_step. wp_step. wp_step. exists e. split; [by apply at_some|].
  wp_step; intros _; [wp_step|]; apply IH, within_set; try done. by apply filter_upto_insert.
Qed.

Lemma filter_access_spec k isLoad vAddr cycle Ti Td s : caches_within Ti Td s -> 0 <= cycle -> cycle + D <= bound k Ti Td ->
  wp (filter_access lineBits numSets procMask k isLoad vAddr cycle) s (fun r s' => cycle <= r <= bound k Ti Td /\ caches_within Ti Td s').
Proof.
  intros Hs Hc Hb. pose proof lower_latency as HD. pose proof (within_filter k _ _ _ Hs) as Hf. unfold filter_access. cbv zeta.
  set (line := Z.shiftr vAddr lineBits). destruct (filter_entry _ _ line Hf) as (e & He & Hu). unfold upto in Hu.
  wp_step. wp_step. wp_step. wp_step. exists e. split; [by apply at_some|]. case_match.
  - wp_step. wp_step. wp_step. split; [lia|]. apply within_set; [done|]. unfold count_hit. by destruct isLoad.
  - unfold replace. wp_step. wp_step. wp_step. wp_step.
    destruct Hs as (Hi & Hd & Hl). eapply wp_mono; [by apply lower_timely|]. intros [resp invs] c' [Hr Hl']. simpl in Hr.
    cbv beta iota. wp_step. eapply wp_mono; [apply (invalidations_spec invs Ti Td); by split|]. intros [] s' Hs'.
    destruct (filter_entry _ _ line (within_filter k _ _ _ Hs')) as (e' & He' & Hu').
    wp_step. wp_step. wp_step. wp_step. exists e'. split; [by apply at_some|]. wp_step. wp_step. wp_step. split; [lia|].
    apply within_set; [done|]. apply filter_upto_insert; [by apply within_filter|]. simpl. destruct (rdAddr e' =? line); [done|unfold upto; lia].
Qed.

#[export] Instance core_caches : CoreCaches (Caches C) := {|
  l1d_load := filter_load lineBits numSets procMask Data;
  l1d_store := filter_store lineBits numSets procMask Data;
  l1i_load := filter_load lineBits numSets procMask Instr
|}.

(** The filter caches keep what the core relies on. *)
#[export, refine] Instance filter_caches_timely : TimelyCaches (Caches C) D := {|
  caches_upto T cur s := caches_within (cur + D) T s /\ 0 <= T
|}.
Proof.
  - apply lower_latency.
  - intros T T' cur cur' s [(Hi & Hd & Hl) H0] HT Hc. split; [|lia]. split; [eapply filter_upto_mono; [exact Hi|lia]|].
    split; [by eapply filter_upto_mono|done].
  - intros T cur addr cycle s [(Hi & Hd & Hl) H0] Hc. pose proof lower_latency as HD. eapply wp_mono.
    { apply (filter_access_spec Data true addr cycle (cur + D) (T + D)); [|lia|simpl; lia]. split; [done|]. split; [|done]. eapply filter_upto_mono; [done|lia]. }
    simpl. intros r s' [Hr Hs']. split; [done|]. split; [done|lia].
  - intros T cur addr cycle s [(Hi & Hd & Hl) H0] Hc. pose proof lower_latency as HD. eapply wp_mono.
    { apply (filter_access_spec Data false addr cycle (cur + D) (T + D)); [|lia|simpl; lia]. split; [done|]. split; [|done]. eapply filter_upto_mono; [done|lia]. }
    simpl. intros r s' [Hr Hs']. split; [done|]. split; [done|lia].
  - intros T cur addr s [Hs H0] Hc. eapply wp_mono.
    { apply (filter_access_spec Instr true addr cur (cur + D) T); [done|done|simpl; lia]. }
    simpl. intros r s' [Hr Hs']. done.
Defined.
End timely.
