(* ===== verification/OooCoreMain.v ===== *)
(** * What the out-of-order core promises

    A basic block runs to its end, and in it no micro-operation is dispatched before
    the operations it takes its operands from have committed, and no access commits
    before the addresses of the stores in front of it are known. *)

From stdpp Require Import base tactics numbers list.
From Stdlib Require Import ZArith Lia.
From S2P Require Import Prelude OooWindow OooWindowInv OooWindowMain OooBuffers OooCore OooCoreInv.
Import ReorderBufferProps.

Open Scope Z_scope.

Section core.
Context `{TC : TimelyCaches Mem D}.
Context (solo : bool) (lineBits NREG : Z).

(** An operation as the decoder produces it. *)
Definition uop_ok (u : DynUop) : Prop :=
  0 <= rs0 u < NREG /\ 0 <= rs1 u < NREG /\ 0 <= rd0 u < NREG /\ 0 <= rd1 u < NREG /\
  0 < portMask u < 256 /\ 0 <= extraSlots u < 256 /\ 0 <= lat u < 65536 /\ 0 <= decCycle u < 65536.

Record PipeInv (T : Z) (p : Pipe Mem) : Prop := {
  pi_front : FInv NREG T (front p);
  pi_rob : rob_upto ROB_SIZE WIDTH T (rob p);
  pi_lsu : LInv T (curCycle (front p)) (lsu p)
}.

(** How far an operation can move the horizon. *)
Definition uop_span : Z := D + 262144.

Definition loads_of (u : DynUop) : Z := match type u with UOP_LOAD => 1 | _ => 0 end.
Definition stores_of (u : DynUop) : Z := match type u with UOP_STORE => 1 | _ => 0 end.

(** When register [r] is ready; register 0 stands for none. *)
Definition ready (p : Pipe Mem) (r : Z) : Z := if decide (r = 0) then 0 else regScoreboard (front p) !!! Z.to_nat r.

Definition is_access (u : DynUop) : Prop := type u = UOP_LOAD \/ type u = UOP_STORE.
#[local] Instance is_access_dec u : Decision (is_access u).
Proof. unfold is_access. apply _. Defined.

(** The operations that later accesses wait for. *)
Definition orders (u : DynUop) : Prop := type u = UOP_STORE_ADDR \/ type u = UOP_FENCE.

(** The times of an operation that runs in [p] and leaves [p']. *)
Record timed (u : DynUop) (p : Pipe Mem) (dispatch commit : Z) (p' : Pipe Mem) : Prop := {
  t_operands : ready p (rs0 u) <= dispatch /\ ready p (rs1 u) <= dispatch;
  t_stages : curCycle (front p) + (DISPATCH_STAGE - ISSUE_STAGE) <= dispatch;
  t_clock : curCycle (front p) <= curCycle (front p') <= dispatch;
  t_latency : dispatch + (if decide (is_access u) then 0 else lat u) <= commit;
  t_after : is_access u -> lastStoreAddrCommitCycle (lsu p) < commit;
  t_orders : orders u -> commit <= lastStoreAddrCommitCycle (lsu p');
  t_mono : lastStoreAddrCommitCycle (lsu p) <= lastStoreAddrCommitCycle (lsu p');
  t_written : forall r, 0 < r < NREG -> ready p' r = if decide (r = rd0 u \/ r = rd1 u) then commit else ready p r
}.

(** The execution of an operation dispatched at [d]. *)
Definition executed (u : DynUop) (T d : Z) (p : Pipe Mem) (li si : Z) (r : Z * Z * Z) (p' : Pipe Mem) : Prop :=
  let '(c, li', si') := r in
  front p' = front p /\ rob p' = rob p /\ LInv (T + D + 65536) (curCycle (front p)) (lsu p') /\ d + (if decide (is_access u) then 0 else lat u) <= c <= T + D + 65535 /\
  li' = li + loads_of u /\ si' = si + stores_of u /\
  (is_access u -> lastStoreAddrCommitCycle (lsu p) < c) /\ (orders u -> c <= lastStoreAddrCommitCycle (lsu p')) /\
  lastStoreAddrCommitCycle (lsu p) <= lastStoreAddrCommitCycle (lsu p').

(** An operation without an access: the last cycles of the stores may change. *)
Lemma executed_plain u T d p li si last lastAddr t : LInv T (curCycle (front p)) (lsu p) -> uop_ok u -> upto T d -> T + D + 65536 <= 2 ^ 62 -> ~ is_access u ->
  upto (T + 65535) last -> upto (T + 65535) lastAddr -> lastStoreAddrCommitCycle (lsu p) <= lastAddr -> (orders u -> d + lat u <= lastAddr) ->
  executed u T d p li si (d + lat u, li, si) (mkPipe (front p) (rob p) (set_stores last lastAddr (lsu p)) t).
Proof.
  intros I (_ & _ & _ & _ & _ & _ & Hl & _) Hd HT Ha H1 H2 H3 H4. pose proof caches_latency as HD. unfold executed, upto in *. simpl.
  split; [done|]. split; [done|]. split.
  { destruct (LInv_mono T (T + D + 65536) _ _ _ I ltac:(lia) ltac:(done)) as [Lo St La Ad Fl Fc Ca]. constructor; simpl; try done; unfold upto; lia. }
  rewrite decide_False by done. assert (E : loads_of u = 0 /\ stores_of u = 0) by (unfold loads_of, stores_of, is_access in *; destruct (type u); naive_solver).
  destruct E as [-> ->]. split; [lia|]. split; [lia|]. split; [lia|]. split; [done|]. split; [exact H4|done].
Qed.

(** The accesses the operation needs are there. *)
Definition has_accesses (u : DynUop) (ls ss : list (Z * Z)) (li si : Z) : Prop :=
  0 <= li <= 256 - loads_of u /\ 0 <= si <= 256 - stores_of u /\ length ls = 256%nat /\ length ss = 256%nat.

Lemma execute_spec u ls ss li si T d p : LInv T (curCycle (front p)) (lsu p) -> uop_ok u -> upto T d -> T + D + 65536 <= 2 ^ 62 -> has_accesses u ls ss li si ->
  wp (execute solo u ls ss li si d) p (executed u T d p li si).
Proof.
  intros I Hu Hd HT (Hli & Hsi & Hls & Hss). pose proof I as [Lo St La Ad Fl Fc Ca]. pose proof caches_latency as HD. pose proof Hu as (_ & _ & _ & _ & _ & _ & Hl & _).
  unfold execute. wp_step. wp_step. assert (E64 : u64 (d + lat u) = d + lat u) by (apply u64_id; unfold upto, in_u64, W64 in *; lia).
  destruct (type u) eqn:Ety.
  - wp_step. wp_step. wp_step. rewrite E64. replace (set_top _ p) with (mkPipe (front p) (rob p) (set_stores (lastStoreCommitCycle (lsu p)) (lastStoreAddrCommitCycle (lsu p)) (lsu p)) (set_commit_other (d + lat u) (top p)))
      by (by destruct p as [? ? [] ?]).
    apply executed_plain; try done; unfold is_access, orders, upto in *; rewrite ?Ety; try lia; naive_solver.
  - wp_step. destruct (lookup_lt_is_Some_2 ls (Z.to_nat li)) as [[addr size] Hx]; [unfold loads_of, stores_of in *; rewrite Ety in *; lia|]. wp_step. exists (addr, size). split; [by apply at_some|].
    wp_step. wp_step. eapply wp_mono; [apply (do_load_spec solo); [exact I|exact Hd|lia]|].
    intros c l' ((I' & Hc & Hla & Hlo) & _). wp_step. wp_step. wp_step. unfold executed. simpl. rewrite u32_id by (unfold in_u32, W32, loads_of, stores_of in *; rewrite Ety in *; lia).
    split; [done|]. split; [done|]. split; [eapply LInv_mono; [exact I'|lia|done]|].
    rewrite (decide_True (P := is_access u)) by (by left). unfold loads_of, stores_of, orders. rewrite Ety. split_and!; try lia; try done. intros [?|?]; done.
  - wp_step. destruct (lookup_lt_is_Some_2 ss (Z.to_nat si)) as [[addr size] Hx]; [unfold loads_of, stores_of in *; rewrite Ety in *; lia|]. wp_step. exists (addr, size). split; [by apply at_some|].
    wp_step. wp_step. eapply wp_mono; [apply (do_store_spec solo); [exact I|exact Hd|lia]|].
    intros c l' ((I' & Hc & Hla & Hlo) & _). wp_step. unfold executed. simpl. rewrite u32_id by (unfold in_u32, W32, loads_of, stores_of in *; rewrite Ety in *; lia).
    split; [done|]. split; [done|]. split; [eapply LInv_mono; [exact I'|lia|done]|].
    rewrite (decide_True (P := is_access u)) by (by right). unfold loads_of, stores_of, orders. rewrite Ety. split_and!; try lia; try done. intros [?|?]; done.
  - wp_step. wp_step. wp_step. rewrite E64. apply executed_plain; try done; unfold is_access, orders, upto in *; rewrite ?Ety; try lia; naive_solver.
  - wp_step. wp_step. wp_step. rewrite E64.
    assert (E2 : u64 (lastStoreCommitCycle (lsu p) + lat u) = lastStoreCommitCycle (lsu p) + lat u) by (apply u64_id; unfold upto, in_u64, W64 in *; lia).
    rewrite E2. apply executed_plain; try done; unfold is_access, orders, upto in *; rewrite ?Ety; try lia; naive_solver.
Qed.

(** A source of an operation is read when the operation is issued. *)
Lemma source_ready T (p : Pipe Mem) (f' : Front) c r x : regScoreboard f' = <[O := x]> (regScoreboard (front p)) ->
  at_ (regScoreboard f') r = Ok c -> upto T c -> 0 <= r -> ready p r <= c.
Proof.
  unfold ready, at_, upto. intros -> Hc Hu Hr. case_decide; [lia|]. rewrite list_lookup_insert_ne in Hc by lia.
  destruct (_ !! _) eqn:E; [|done]. injection Hc as <-. by rewrite (list_lookup_total_correct _ _ _ E).
Qed.

(** The two results of an operation. *)
Lemma write_back (regs0 regs : list Z) x c a b r T :
  regs = <[O := x]> regs0 -> length regs = Z.to_nat NREG -> Forall (upto T) regs -> upto T c -> 0 <= a < NREG -> 0 <= b < NREG ->
  exists regs1 regs2, set_at regs a c = Ok regs1 /\ set_at regs1 b c = Ok regs2 /\ length regs2 = Z.to_nat NREG /\ Forall (upto T) regs2 /\
    (0 < r < NREG -> regs2 !!! Z.to_nat r = if decide (r = a \/ r = b) then c else regs0 !!! Z.to_nat r).
Proof.
  intros -> Hl Hf Hc Ha Hb. set (regs := <[O := x]> regs0) in *.
  destruct (lookup_lt_is_Some_2 regs (Z.to_nat a)) as [y Hy]; [lia|].
  destruct (lookup_lt_is_Some_2 (<[Z.to_nat a := c]> regs) (Z.to_nat b)) as [z Hz]; [rewrite length_insert; lia|].
  eexists _, _. split; [unfold set_at; by rewrite Hy|]. split; [unfold set_at; by rewrite Hz|].
  split; [by rewrite !length_insert|]. split; [by apply Forall_insert; [apply Forall_insert|]|].
  intros Hr. destruct (decide (r = b)) as [->|Hnb].
  { rewrite decide_True by (by right). apply list_lookup_total_insert_eq. rewrite length_insert. lia. }
  rewrite list_lookup_total_insert_ne by lia. destruct (decide (r = a)) as [->|Hna].
  { rewrite decide_True by (by left). apply list_lookup_total_insert_eq. lia. }
  rewrite decide_False by tauto. unfold regs. rewrite !list_lookup_total_insert_ne by lia. done.
Qed.

Lemma dispatch_bound_spec c0 c1 c2 c3 T : upto T c0 -> upto T c1 -> upto T c2 -> upto T c3 -> T < 2 ^ 62 ->
  upto (T + 6) (dispatch_bound c0 c1 c2 c3) /\ c0 <= dispatch_bound c0 c1 c2 c3 /\ c1 <= dispatch_bound c0 c1 c2 c3 /\
  c3 + 6 <= dispatch_bound c0 c1 c2 c3.
Proof.
  unfold upto, dispatch_bound. change (DISPATCH_STAGE - ISSUE_STAGE) with 6. intros H0 H1 H2 H3 HT.
  rewrite u64_id by (unfold in_u64, W64; lia). lia.
Qed.

Lemma uop_step_spec u prev ls ss li si T p : PipeInv T p -> uop_ok u -> 0 <= prev <= decCycle u -> has_accesses u ls ss li si ->
  T + uop_span < curCycle (front p) + 2 ^ 31 -> T + uop_span <= 2 ^ 60 ->
  wp (uop_step solo u prev ls ss li si) p (fun r p' => let '(disp, c, li', si') := r in
    PipeInv (T + uop_span) p' /\ timed u p disp c p' /\ li' = li + loads_of u /\ si' = si + stores_of u /\ upto (T + uop_span) c).
Proof.
  intros [If Ir Il] Hu Hprev Hacc Hb H60. pose proof caches_latency as HD. pose proof Hu as (R0 & R1 & W0 & W1 & Hpm & Hx & Hlat & Hdec). unfold uop_span in *.
  destruct (FInv_cur _ _ _ If) as [Hcur _]. unfold upto in Hcur. unfold uop_step. rewrite u32_id by (unfold in_u32, W32; lia).
  wp_step. wp_step. eapply wp_mono; [apply (decode_uop_spec NREG _ T); [done|lia|lia|lia]|].
  intros [] f1 (I1 & Hc1 & _ & Hr1). wp_step. wp_step. simpl.
  eapply wp_mono; [apply (issue_uop_spec NREG u (T + 65536)); [done|lia|done|done]|].
  intros [c0 c1] f2 (I2 & Hc2 & S0 & S1 & U0 & U1 & x & Hregs). simpl in S0, S1, U0, U1. rewrite Hr1 in Hregs. cbn [fst snd]. wp_step. wp_step. simpl.
  eapply wp_mono; [apply (rob_alloc ROB_SIZE WIDTH T); [unfold ROB_SIZE; lia|lia|done]|].
  intros a q' (-> & Ha). wp_step. wp_step. simpl. destruct (FInv_cur _ _ _ I2) as [Hcur2 _].
  assert (Ha' : upto (T + 65536 + 2) a) by (eapply upto_mono; [done|lia]).
  destruct (dispatch_bound_spec c0 c1 a (curCycle f2) (T + 65536 + 2)) as (Ud & B0 & B1 & B3); try done; try lia.
  set (d := dispatch_bound c0 c1 a (curCycle f2)) in *.
  wp_step. wp_step. wp_step. wp_step. simpl.
  eapply wp_mono; [apply (schedule_uop_spec NREG u d (T + 65536 + 2 + 6)); [eapply FInv_mono; [done|lia]|done|done|done|lia|lia]|].
  intros disp f3 (I3 & Hc3 & Hdisp & Hr3). wp_step. unfold upto in Ud.
  eapply wp_mono; [apply (execute_spec u ls ss li si (T + 65536 + 2 + 6) disp); [simpl; eapply LInv_mono; [done|lia|lia]|done|unfold upto; lia|lia|done]|].
  intros [[c li'] si'] p4 (Ef & Er & I4 & Hcc & -> & -> & Haft & Hord & Hmono). simpl in Ef, Er, Haft, Hmono.
  cbn [fst snd]. wp_step. wp_step. rewrite Er.
  eapply wp_mono; [apply (rob_mark ROB_SIZE WIDTH (T + 65536 + 2 + 6 + D + 65536)); [unfold ROB_SIZE; lia|unfold WIDTH; lia|lia|unfold upto; case_decide; lia|eapply rob_mono; [done|lia]]|].
  intros [] q5 I5. wp_step. wp_step. simpl. rewrite Ef. rewrite Hregs in Hr3.
  assert (Uc : upto (T + (D + 262144)) c) by (unfold upto; case_decide; lia).
  pose proof (FInv_mono _ _ (T + (D + 262144)) _ I3 ltac:(lia)) as I3'. pose proof I3' as [Wi De Qu Re Is Rl Rr].
  destruct (write_back _ _ _ c (rd0 u) (rd1 u) 0 _ Hr3 Rl Rr Uc W0 W1) as (regs1 & regs2 & E1 & E2 & L2 & F2 & _).
  wp_step. wp_step. exists regs1. split; [done|]. wp_step. wp_step. exists regs2. split; [done|]. wp_step. wp_step. wp_step.
  split; [|split; [|split; [done|split; [done|exact Uc]]]].
  - constructor; simpl.
    + rewrite Ef. constructor; simpl; done.
    + eapply rob_mono; [done|lia].
    + simpl in I4. rewrite Ef. eapply LInv_mono; [done|lia|done].
  - constructor; simpl; rewrite ?Ef; simpl.
    + unfold d in B0, B1. split; (etransitivity; [eapply (source_ready _ p f2); [exact Hregs|eassumption|eassumption|lia]|lia]).
    + change (DISPATCH_STAGE - ISSUE_STAGE) with 6. lia.
    + lia.
    + lia.
    + exact Haft.
    + exact Hord.
    + exact Hmono.
    + intros r Hr. unfold ready. simpl. rewrite !(decide_False (P := r = 0)) by lia.
      destruct (write_back _ _ _ c (rd0 u) (rd1 u) r _ Hr3 Rl Rr Uc W0 W1) as (regs1' & regs2' & E1' & E2' & _ & _ & Hw).
      rewrite E1 in E1'. injection E1' as <-. rewrite E2 in E2'. injection E2' as <-. by apply Hw.
Qed.

(** ** Runs *)

(** The operations of a block one after the other, with their cycles of dispatch and commit. *)
Inductive uop_run (ls ss : list (Z * Z)) : list DynUop -> Z -> Z -> Z -> Pipe Mem -> list (Z * Z) -> Pipe Mem -> Prop :=
  | uop_run_nil prev li si p : uop_run ls ss [] prev li si p [] p
  | uop_run_cons u l prev li si p d c li' si' p1 tr p' :
      uop_step solo u prev ls ss li si p = Ok ((d, c, li', si'), p1) ->
      uop_run ls ss l (decCycle u) li' si' p1 tr p' ->
      uop_run ls ss (u :: l) prev li si p ((d, c) :: tr) p'.

(** Well-formed operations, decoded in order. *)
Fixpoint uops_ok (prev : Z) (l : list DynUop) : Prop :=
  match l with [] => True | u :: l => uop_ok u /\ prev <= decCycle u /\ uops_ok (decCycle u) l end.

Definition loads_in (l : list DynUop) : Z := sumZ (loads_of <$> l).
Definition stores_in (l : list DynUop) : Z := sumZ (stores_of <$> l).

Lemma loads_in_cons u l : loads_in (u :: l) = loads_of u + loads_in l.
Proof. done. Qed.
Lemma stores_in_cons u l : stores_in (u :: l) = stores_of u + stores_in l.
Proof. done. Qed.
Lemma loads_in_nonneg l : 0 <= loads_in l.
Proof. apply sumZ_nonneg, Forall_fmap, Forall_forall. intros u _. simpl. unfold loads_of. destruct (type u); lia. Qed.
Lemma stores_in_nonneg l : 0 <= stores_in l.
Proof. apply sumZ_nonneg, Forall_fmap, Forall_forall. intros u _. simpl. unfold stores_of. destruct (type u); lia. Qed.

(** No operation of [l] before the [j]-th writes register [r]. *)
Definition unwritten (l : list DynUop) (r : Z) (i j : nat) : Prop :=
  forall k u, (i <= k < j)%nat -> l !! k = Some u -> r <> rd0 u /\ r <> rd1 u.

(** What was ready, or ordered, before the run. *)
Definition after_operands (p : Pipe Mem) (l : list DynUop) (tr : list (Z * Z)) : Prop :=
  forall j u d c r, l !! j = Some u -> tr !! j = Some (d, c) -> r = rs0 u \/ r = rs1 u -> 0 < r < NREG ->
    unwritten l r O j -> ready p r <= d.
Definition after_addresses (p : Pipe Mem) (l : list DynUop) (tr : list (Z * Z)) : Prop :=
  forall j u d c, l !! j = Some u -> tr !! j = Some (d, c) -> is_access u -> lastStoreAddrCommitCycle (lsu p) < c.

(** An operation is dispatched when the last operation that wrote its source has committed. *)
Definition dataflow (l : list DynUop) (tr : list (Z * Z)) : Prop :=
  forall i j u v di ci dj cj r, (i < j)%nat -> l !! i = Some u -> l !! j = Some v -> tr !! i = Some (di, ci) -> tr !! j = Some (dj, cj) ->
    r = rd0 u \/ r = rd1 u -> r = rs0 v \/ r = rs1 v -> 0 < r < NREG -> unwritten l r (S i) j -> ci <= dj.
(** An access commits after the store addresses and the fences in front of it. *)
Definition store_order (l : list DynUop) (tr : list (Z * Z)) : Prop :=
  forall i j u v di ci dj cj, (i < j)%nat -> l !! i = Some u -> l !! j = Some v -> tr !! i = Some (di, ci) -> tr !! j = Some (dj, cj) ->
    orders u -> is_access v -> ci < cj.
(** An operation commits no earlier than its latency after its dispatch. *)
Definition latencies (l : list DynUop) (tr : list (Z * Z)) : Prop :=
  Forall2 (fun u t => t.1 + (if decide (is_access u) then 0 else lat u) <= t.2) l tr.

Lemma unwritten_tail u l r i j : unwritten (u :: l) r (S i) (S j) -> unwritten l r i j.
Proof. intros Hu k v Hk Hv. apply (Hu (S k)); [lia|done]. Qed.

Lemma ordered_cons u l d c tr p p1 : timed u p d c p1 ->
  after_operands p1 l tr -> after_addresses p1 l tr -> dataflow l tr -> store_order l tr -> latencies l tr ->
  after_operands p (u :: l) ((d, c) :: tr) /\ after_addresses p (u :: l) ((d, c) :: tr) /\
  dataflow (u :: l) ((d, c) :: tr) /\ store_order (u :: l) ((d, c) :: tr) /\ latencies (u :: l) ((d, c) :: tr).
Proof.
  intros [[T1 T2] _ _ T4 T5 T6 T7 T8] A1 A2 A3 A4 A5. split_and!.
  - intros [|j] v dj cj r Hv Ht Hr Hn Hw; simpl in Hv, Ht; simplify_eq; [by destruct Hr as [->| ->]|].
    destruct (Hw O u ltac:(lia) eq_refl) as [N0 N1]. specialize (T8 r Hn). rewrite decide_False in T8 by naive_solver.
    rewrite <- T8. eapply A1; eauto. eapply unwritten_tail with (u := u). intros k x Hk. apply Hw. lia.
  - intros [|j] v dj cj Hv Ht Ha; simpl in Hv, Ht; simplify_eq; [by apply T5|].
    eapply Z.le_lt_trans; [exact T7|]. eapply A2; eauto.
  - intros i [|j] v w di ci dj cj r Hij Hv Hw Hti Htj Hr Hs Hn Hu; [lia|]. simpl in Hw, Htj.
    destruct i as [|i]; simpl in Hv, Hti; simplify_eq.
    + specialize (T8 r Hn). rewrite decide_True in T8 by done. rewrite <- T8. eapply A1; eauto. by eapply unwritten_tail.
    + eapply (A3 i j); eauto; [lia|]. by eapply unwritten_tail.
  - intros i [|j] v w di ci dj cj Hij Hv Hw Hti Htj Ho Ha; [lia|]. simpl in Hw, Htj.
    destruct i as [|i]; simpl in Hv, Hti; simplify_eq.
    + eapply Z.le_lt_trans; [by apply T6|]. eapply A2; eauto.
    + eapply (A4 i j); eauto. lia.
  - by constructor.
Qed.

Lemma run_uops_spec l prev ls ss li si last T p :
  PipeInv T p -> uops_ok prev l -> 0 <= prev -> 0 <= li -> li + loads_in l <= 256 -> 0 <= si -> si + stores_in l <= 256 ->
  length ls = 256%nat -> length ss = 256%nat -> upto T last ->
  T + Z.of_nat (length l) * uop_span < curCycle (front p) + 2 ^ 31 -> T + Z.of_nat (length l) * uop_span <= 2 ^ 60 ->
  exists tr last' p', run_uops solo l prev ls ss li si last p = Ok ((last', li + loads_in l, si + stores_in l), p') /\
    uop_run ls ss l prev li si p tr p' /\ PipeInv (T + Z.of_nat (length l) * uop_span) p' /\
    curCycle (front p) <= curCycle (front p') /\ upto (T + Z.of_nat (length l) * uop_span) last' /\
    after_operands p l tr /\ after_addresses p l tr /\ dataflow l tr /\ store_order l tr /\ latencies l tr.
Proof.
  revert prev li si last T p. induction l as [|u l IH]; intros prev li si last T p I Hok Hp Hli Hll Hsi Hss Hls Hlss Hla Hb H60.
  { exists [], last, p. simpl. rewrite !Z.add_0_r. split; [done|]. split; [constructor|]. split; [done|]. split; [lia|]. split; [done|].
    split_and!; try (intros ?; intros; done). constructor. }
  destruct Hok as (Hu & Hle & Hok). rewrite loads_in_cons in Hll. rewrite stores_in_cons in Hss.
  pose proof (loads_in_nonneg l). pose proof (stores_in_nonneg l).
  assert (Hspan : 0 < uop_span) by (pose proof caches_latency; unfold uop_span; lia). cbn [length] in Hb, H60. rewrite Nat2Z.inj_succ, Z.mul_succ_l in Hb, H60.
  assert (Hl0 : 0 <= loads_of u) by (unfold loads_of; destruct (type u); lia).
  assert (Hs0 : 0 <= stores_of u) by (unfold stores_of; destruct (type u); lia).
  assert (Hmul : 0 <= Z.of_nat (length l) * uop_span) by lia.
  pose proof (uop_step_spec u prev ls ss li si T p I Hu ltac:(lia) ltac:(unfold has_accesses; split_and!; (done || lia)) ltac:(lia) ltac:(lia)) as Hstep.
  unfold wp in Hstep. destruct (uop_step _ _ _ _ _ _ _ _) as [[[[[d c] li'] si'] p1]|e] eqn:Es; [|done].
  destruct Hstep as (I1 & Ht & -> & -> & Hc).
  destruct (IH (decCycle u) (li + loads_of u) (si + stores_of u) c (T + uop_span) p1) as (tr & last' & p' & Hr & Hrun & I' & Hcur & Hl' & A1 & A2 & A3 & A4 & A5);
    try done; try lia. { destruct Ht as [_ _ [? ?]]. lia. } 
  exists ((d, c) :: tr), last', p'. cbn [run_uops]. unfold mbind, st_bind. rewrite Es, Hr.
  rewrite loads_in_cons, stores_in_cons, !Z.add_assoc. split; [done|]. split; [by eapply uop_run_cons|].
  replace (T + Z.of_nat (length (u :: l)) * uop_span) with (T + uop_span + Z.of_nat (length l) * uop_span) by (simpl length; lia).
  split; [done|]. split; [destruct Ht as [_ _ [? ?]]; lia|]. split; [done|]. by eapply ordered_cons.
Qed.

(** ** Fetch *)

Context (lineBits_range : 0 <= lineBits < 32).

Lemma lineSize_pos : 0 < lineSize lineBits < 2 ^ 32.
Proof. unfold lineSize. rewrite Z.shiftl_1_l. split; [lia|]. apply Z.pow_lt_mono_r; lia. Qed.

Lemma ifetch_spec addr T p : PipeInv T p -> T + D + 6 <= 2 ^ 62 ->
  wp (ifetch addr) p (fun r p' => 0 <= r <= D /\ PipeInv T p' /\ front p' = front p).
Proof.
  intros [If Ir Il] HT. pose proof (proj1 (FInv_cur _ _ _ If)) as Hcur. unfold upto in Hcur. pose proof caches_latency as HD.
  pose proof (caches_fetch T (curCycle (front p)) addr _ (li_caches _ _ _ Il) ltac:(lia)) as Hf.
  unfold ifetch. wp_step. wp_step. wp_step. wp_step. unfold wp in Hf. unfold wp at 1, access.
  destruct (l1i_load _ _ _) as [[r m]|]; [|done]. destruct Hf as [Hr Hm].
  wp_step. rewrite Z.add_0_r, (u64_id r), u64_id by (unfold in_u64, W64; lia). split; [lia|]. split; [|done].
  constructor; simpl; [done|done|]. by eapply LInv_access.
Qed.

Lemma wrong_path_spec n i addr req last T p : PipeInv T p -> T + D + 6 <= 2 ^ 62 ->
  wp (wrong_path lineBits n i addr req last) p (fun _ p' => PipeInv T p' /\ front p' = front p).
Proof.
  intros I HT. revert i req p I. induction n as [|n IH]; intros i req p I; cbn [wrong_path]; [by wp_step|].
  wp_step. eapply wp_mono; [by apply ifetch_spec|]. intros r p1 (_ & I1 & E1). case_match; [by wp_step|].
  eapply wp_mono; [by apply IH|]. intros x p2 (I2 & E2). split; [done|]. by rewrite E2.
Qed.

Lemma fetch_lines_spec n addr endAddr cycle T p : PipeInv T p -> T + D + 6 <= 2 ^ 62 ->
  0 <= addr -> endAddr + lineSize lineBits < W64 -> endAddr <= addr + Z.of_nat n * lineSize lineBits -> 0 <= cycle -> cycle + Z.of_nat n * D < W64 ->
  wp (fetch_lines lineBits n addr endAddr cycle) p (fun r p' => cycle <= r <= cycle + Z.of_nat n * D /\ PipeInv T p' /\ front p' = front p).
Proof.
  intros I HT. pose proof lineSize_pos as Hp. pose proof caches_latency as HD. revert addr cycle p I. induction n as [|n IH]; intros addr cycle p I Ha He Hn Hc Hd; cbn [fetch_lines].
  all: case Z.ltb_spec; intros Hlt; [|wp_step; split; [lia|done]].
  - lia.
  - wp_step. eapply wp_mono; [by apply ifetch_spec|]. intros r p1 (Hr & I1 & E1).
    rewrite (u64_id (addr + _)), (u64_id (cycle + r)) by (unfold in_u64; lia).
    eapply wp_mono; [apply IH; [exact I1|lia|done|lia|lia|lia]|]. intros x p2 (Hx & I2 & E2). split; [lia|]. split; [done|by rewrite E2].
Qed.

(** ** Blocks *)

Record CoreInv (T : Z) (c : Core Mem) : Prop := {
  ci_pipe : PipeInv T (pipe c);
  ci_pred : BranchPredictorProps.PInv NB HB LB (branchPred c);
  ci_loads : length (addrs (loads c)) = 256%nat /\ 0 <= used (loads c) <= 256;
  ci_stores : length (addrs (stores c)) = 256%nat /\ 0 <= used (stores c) <= 256
}.

Lemma PipeInv_mono T T' p : PipeInv T p -> T <= T' <= 2 ^ 62 -> PipeInv T' p.
Proof. intros [If Ir Il] HT. constructor; [by eapply FInv_mono|eapply rob_mono; [done|lia]|eapply LInv_mono; [done|lia|done]]. Qed.

(** A part of the core that only changes its pipe within the horizon, its predictor and its counts. *)
Definition resolved (T : Z) (c c' : Core Mem) : Prop :=
  CoreInv T c' /\ front (pipe c') = front (pipe c) /\ prevBbl c' = prevBbl c /\ loads c' = loads c /\ stores c' = stores c.

Lemma resolve_branch_spec last fetch T c : CoreInv T c -> T + D + 6 <= 2 ^ 62 -> upto T last -> upto T fetch ->
  wp (resolve_branch lineBits last fetch) c (fun r c' => upto T r /\ resolved T c c').
Proof.
  intros I HT Hl Hf. pose proof I as [Ip Ib Il Is]. unfold resolve_branch. wp_step. wp_step. wp_step.
  assert (Last : forall r c1, upto T r -> resolved T c c1 ->
    wp (modify (fun c => set_branch (mkBranch 0 (branchTaken (branch_ c)) (branchTakenNpc (branch_ c)) (branchNotTakenNpc (branch_ c))) c);; mret r) c1
      (fun r c' => upto T r /\ resolved T c c') /\
    forall b, wp (modify (set_branch b);; mret r) c1 (fun r c' => upto T r /\ resolved T c c')).
  { intros r c1 Hr ([Ip1 Ib1 Il1 Is1] & H1 & H2 & H3 & H4). split; [|intros b]; (wp_step; wp_step; wp_step; split; [done|]; split; [by constructor|done]). }
  case_match.
  - wp_step. apply (Last fetch c); [done|]. by split.
  - wp_step. wp_step.
    destruct (BranchPredictorProps.predict_spec NB HB LB ltac:(unfold NB; lia) ltac:(unfold NB, LB, HB; lia) ltac:(unfold HB; lia)
      (branchPred c) (branchPc (branch_ c)) (branchTaken (branch_ c)) ltac:(unfold HB; lia) Ib) as (h & k & _ & _ & _ & _ & Hpr & Ib').
    unfold wp at 1. rewrite Hpr. set (c1 := set_branchPred _ c). assert (R1 : resolved T c c1) by (split; [by constructor|done]).
    destruct (Bool.eqb _ _).
    + wp_step. wp_step. wp_step. apply (Last fetch _); [done|]. split; [by constructor|done].
    + wp_step. wp_step. eapply wp_mono; [apply (wrong_path_spec _ _ _ _ _ T); [done|done]|].
      intros [req n] p1 (I1 & E1). wp_step. wp_step. wp_step. apply (Last last _); [done|].
      split; [constructor; simpl; done|]. simpl. by rewrite E1.
Qed.

(** The cycles a block may add to the horizon: its operations, and the lines of the next block. *)
Definition bbl_span (b : BblInfo) (info : BblInfo) : Z :=
  Z.of_nat (length (uop (oooBbl b))) * uop_span + (b_bytes info / lineSize lineBits + 2) * (D + 8).

Lemma fetch_bbl_spec addr info cycle T c : CoreInv T c -> upto T cycle -> 0 <= addr -> 0 <= b_bytes info ->
  addr + b_bytes info + lineSize lineBits < W64 -> T + (b_bytes info / lineSize lineBits + 2) * (D + 8) <= 2 ^ 62 ->
  wp (fetch_bbl lineBits addr (b_bytes info) cycle) c (fun _ c' =>
    CoreInv (T + (b_bytes info / lineSize lineBits + 2) * (D + 8)) c' /\ curCycle (front (pipe c')) = curCycle (front (pipe c)) /\
    regScoreboard (front (pipe c')) = regScoreboard (front (pipe c)) /\ prevBbl c' = prevBbl c /\ loads c' = loads c /\ stores c' = stores c).
Proof.
  intros [Ip Ib Il Is] Hc Ha Hb Hw HT. pose proof lineSize_pos as Hp. pose proof caches_latency as HD. unfold upto in Hc.
  set (k := b_bytes info / lineSize lineBits) in *. assert (Hk : 0 <= k) by (apply Z.div_pos; lia).
  assert (Hkb : b_bytes info <= (k + 1) * lineSize lineBits).
  { pose proof (Z.mod_pos_bound (b_bytes info) (lineSize lineBits) ltac:(lia)). pose proof (Z.div_mod (b_bytes info) (lineSize lineBits) ltac:(lia)). unfold k. lia. }
  assert (HkD : (k + 2) * (D + 8) = (k + 1) * D + D + 8 * k + 16) by lia. assert (0 <= (k + 1) * D) by lia.
  unfold fetch_bbl. wp_step. wp_step. rewrite (u64_id (addr + _)) by (unfold in_u64, W64 in *; lia).
  replace (Z.to_nat (b_bytes info / lineSize lineBits + 1)) with (Z.to_nat (k + 1)) by done.
  eapply wp_mono; [apply (fetch_lines_spec (Z.to_nat (k + 1)) addr _ cycle T (pipe c) Ip); rewrite ?Z2Nat.id by lia; unfold W64 in *; lia|].
  rewrite Z2Nat.id by lia. intros r p' (Hr & I' & E'). wp_step. pose proof I' as [If' Ir' Il'].
  pose proof (fi_dec _ _ _ If') as Hdec. unfold DECODE_STAGE in Hdec.
  change (DECODE_STAGE - FETCH_STAGE) with 3. rewrite !u64_id by (unfold in_u64, W64; lia).
  split; [|simpl; rewrite E'; done].
  destruct (PipeInv_mono T (T + (k + 2) * (D + 8)) _ I' ltac:(lia)) as [[Wi De Qu Re Isu Rl Rr] Ir2 Il2].
  constructor; simpl; try done. constructor; simpl; try done. constructor; simpl; try done.
  unfold DECODE_STAGE. case_match eqn:E; [apply Z.ltb_lt in E|apply Z.ltb_ge in E]; lia.
Qed.

(** The block before [info] is run, [info] is fetched. *)
Lemma bbl_spec addr info b T c :
  CoreInv T c -> prevBbl c = Some b -> uops_ok 0 (uop (oooBbl b)) ->
  loads_in (uop (oooBbl b)) = used (loads c) -> stores_in (uop (oooBbl b)) = used (stores c) ->
  0 <= addr -> 0 <= b_bytes info -> addr + b_bytes info + lineSize lineBits < W64 ->
  T + bbl_span b info < curCycle (front (pipe c)) + 2 ^ 31 -> T + bbl_span b info <= 2 ^ 60 ->
  exists tr p1 c', uop_run (addrs (loads c)) (addrs (stores c)) (uop (oooBbl b)) 0 0 0 (pipe c) tr p1 /\
    bbl solo lineBits addr info c = Ok (tt, c') /\
    curCycle (front (pipe c')) = curCycle (front p1) /\ regScoreboard (front (pipe c')) = regScoreboard (front p1) /\
    CoreInv (T + bbl_span b info) c' /\ curCycle (front (pipe c)) <= curCycle (front (pipe c')) /\
    prevBbl c' = Some info /\ used (loads c') = 0 /\ used (stores c') = 0 /\
    after_operands (pipe c) (uop (oooBbl b)) tr /\ after_addresses (pipe c) (uop (oooBbl b)) tr /\
    dataflow (uop (oooBbl b)) tr /\ store_order (uop (oooBbl b)) tr /\ latencies (uop (oooBbl b)) tr.
Proof.
  intros I Hprev Hok Hl Hs Ha Hby Hw Hb H60. pose proof I as [Ip Ib [Ll Ul] [Ls Us]]. pose proof lineSize_pos as Hp. pose proof caches_latency as HD.
  unfold bbl_span in *. set (l := uop (oooBbl b)) in *. set (k := b_bytes info / lineSize lineBits) in *.
  assert (Hk : 0 <= k) by (apply Z.div_pos; lia). assert (HkD : 0 <= (k + 2) * (D + 8)) by lia.
  pose proof (proj1 (FInv_cur _ _ _ (pi_front _ _ Ip))) as Hcur. unfold upto in Hcur. assert (Hsp : 0 <= uop_span) by (unfold uop_span; lia).
  destruct (run_uops_spec l 0 (addrs (loads c)) (addrs (stores c)) 0 0 0 T (pipe c)) as
    (tr & last & p1 & Hr & Hrun & I1 & Hc1 & Hlast & Hord); try done; try lia; [unfold upto; lia|].
  set (T1 := T + Z.of_nat (length l) * uop_span) in *.
  set (c2 := clear_accesses (set_stats (count_bbl b (stats c)) (set_pipe p1 (set_prevBbl (Some info) c)))).
  assert (I2 : CoreInv T1 c2) by (constructor; simpl; try done; lia).
  pose proof (fi_dec _ _ _ (pi_front _ _ I1)) as Hdec. unfold DECODE_STAGE in Hdec.
  pose proof (resolve_branch_spec last (decodeCycle (front p1) - 3) T1 c2 I2 ltac:(lia) Hlast ltac:(unfold upto; lia)) as Hres.
  apply wp_ok in Hres as (fc & c3 & Hres & Hfc & I3 & F3 & P3 & L3 & S3).
  pose proof (fetch_bbl_spec addr info fc T1 c3 I3 Hfc Ha Hby Hw ltac:(unfold T1; lia)) as Hfet.
  apply wp_ok in Hfet as ([] & c4 & Hfet & I4 & C4 & R4 & P4 & L4 & S4).
  exists tr, p1, c4. split; [done|]. split.
  { unfold bbl, mbind, st_bind, gets, zoom, modify, assert_. cbn [id]. rewrite Hprev. cbn [pipe set_prevBbl]. fold l. rewrite Hr. rewrite !Z.add_0_l, Hl, Hs.
    cbn [loads stores set_stats set_pipe set_prevBbl]. rewrite !Z.eqb_refl.
    change (DECODE_STAGE - FETCH_STAGE) with 3. cbn [pipe front clear_accesses set_accesses set_stats set_pipe stats set_prevBbl].
    rewrite u64_id by (unfold in_u64, W64; lia). unfold c2 in Hres. by rewrite Hres. }
  rewrite C4, R4, F3, P4, P3, L4, L3, S4, S3. split; [done|]. split; [done|].
  split; [replace (T + _) with (T1 + (k + 2) * (D + 8)) by (unfold T1; lia); exact I4|]. done.
Qed.

(** ** Between the phases *)

(** A window with nothing far ahead can be moved as it is. *)
Lemma jump_inv T cur target w : WInv IW IW_SIZE T cur w -> ubWin w = [] -> cur <= target -> T + (target - cur) <= 2 ^ 62 ->
  WInv IW IW_SIZE (T + (target - cur)) target w.
Proof.
  intros [P B C N Z0 S K Oc On Ou Y L0 OO OS] Hub Hle HT. constructor; try done; try lia.
  - by rewrite Hub.
  - intros c Hc. rewrite <- (Y (c - (target - cur))) by lia. unfold OooWindowInv.table, cycle_at. rewrite Hub.
    replace (c - (target - cur) - (cur - curPos w)) with (c - (target - curPos w)) by lia. by repeat case_decide.
Qed.

Lemma advancePos_near T cur w c w' : WInv IW IW_SIZE T cur w -> cur < T -> ubWin w = [] -> advancePos IW cur w = Ok (c, w') -> ubWin w' = [].
Proof.
  intros I Hc Hub. unfold advancePos. destruct (_ !! _); [|done]. case_match.
  - rewrite Hub. cbn [move_near]. by intros [= <- <-].
  - by intros [= <- <-].
Qed.

Lemma longAdvance_loop_near fuel T cur target w c w' : WInv IW IW_SIZE T cur w -> ubWin w = [] ->
  longAdvance_loop IW fuel cur target w = Ok (c, w') -> ubWin w' = [].
Proof.
  revert cur w. induction fuel as [|fuel IH]; intros cur w I Hub; simpl; destruct (negb _ && _) eqn:E; try done; try (by intros [= <- <-]).
  apply andb_true_iff in E as [Ho%negb_true_iff%Z.eqb_neq _].
  pose proof (busy_before IW IW_SIZE IW_range T T cur w I (wi_beyond _ _ _ _ _ I) Ho) as Hl.
  destruct (advancePos_spec IW IW_SIZE IW_range IW_SIZE_range T cur w I Hl) as (w1 & Ha & A). rewrite Ha.
  apply IH; [apply A|]. by eapply advancePos_near.
Qed.

Lemma advance_spec target T c : CoreInv T c -> ubWin (insWindow (front (pipe c))) = [] -> curCycle (front (pipe c)) < target ->
  T + (target - curCycle (front (pipe c))) <= 2 ^ 62 ->
  wp (advance target) c (fun _ c' => CoreInv (T + (target - curCycle (front (pipe c)))) c' /\ curCycle (front (pipe c')) = target /\
    regScoreboard (front (pipe c')) = regScoreboard (front (pipe c))).
Proof.
  intros [[If Ir Il] Ib Hl Hs] Hub Hlt HT. set (f := front (pipe c)) in *. pose proof If as [Wi De Qu Re Is Rl Rr].
  pose proof (proj1 (FInv_cur _ _ _ If)) as Hcur. unfold upto in Hcur. unfold DECODE_STAGE in De.
  unfold advance. wp_step. wp_step. wp_step. wp_step. cbn [id]. wp_step. wp_step; [by apply Z.ltb_lt|]. wp_step. wp_step.
  rewrite u64_id by (unfold in_u64, W64; fold f; lia). wp_step. fold f.
  destruct (longAdvance_spec IW IW_SIZE IW_range IW_SIZE_range T (curCycle f) target (insWindow f) Wi ltac:(lia))
    as (c0 & w' & Hr & (Hc0 & I0 & _) & Hle & _).
  assert (Hub' : ubWin w' = []).
  { unfold longAdvance, mbind, st_bind, gets, assert_, mret, st_ret in Hr. destruct (_ <=? _); [|done].
    destruct (longAdvance_loop _ _ _ _ _) as [[c1 w1]|] eqn:Ell; [|done].
    assert (E : w' = w1).
    { destruct (negb (occupancy w1 =? 0)), (c1 =? target), (c1 <=? target); cbn in Hr; congruence. }
    rewrite E. exact (longAdvance_loop_near _ T _ _ _ _ _ Wi Hub Ell). }
  unfold wp at 1, long_advance. cbn [curCycle insWindow set_decodeCycle]. fold f. rewrite Hr. wp_step. wp_step. wp_step; [by apply Z.eqb_eq|].
  simpl. split; [|done].
  assert (Wj : WInv IW IW_SIZE (T + (target - curCycle f)) target w').
  { eapply WInv_mono; [apply (jump_inv T c0 target w'); [done|done|done|]|]; lia. }
  assert (Hm : T <= T + (target - curCycle f)) by lia.
  constructor; simpl; try done. constructor; simpl; [|by eapply rob_mono|eapply LInv_mono; [done|done|fold f; lia]].
  constructor; simpl; try done; unfold DECODE_STAGE, RF_READS_PER_CYCLE, ISSUES_PER_CYCLE; try lia.
  - by eapply cycles_ring_mono.
  - by eapply Forall_upto.
Qed.
End core.

(** ** The core at the start *)

Lemma rob_upto_init SZ W : 0 < SZ < 2 ^ 31 -> 0 < W < 2 ^ 31 -> rob_upto SZ W DECODE_STAGE (ReorderBuffer.init SZ).
Proof. intros HSZ HW. exists []. split; [by apply rob_init|]. split; [constructor|]. unfold upto, DECODE_STAGE. simpl. lia. Qed.

Lemma OOOCore_init_inv `{TC : TimelyCaches Mem D} NREG port (m : Mem) ls ss mispred0 b : caches_upto DECODE_STAGE 0 m ->
  length ls = 256%nat -> length ss = 256%nat -> CoreInv NREG DECODE_STAGE (OOOCore_init NREG port m ls ss mispred0 b).
Proof.
  intros Hm Hls Hss. assert (F : Forall (fun e => upto DECODE_STAGE (f_storeCycle e)) (replicate (Z.to_nat FWD_ENTRIES) (mkFwd no_addr 0)))
    by (apply Forall_replicate; unfold upto, DECODE_STAGE; simpl; lia).
  constructor; simpl.
  - constructor; simpl.
    + constructor; simpl; try done; unfold DECODE_STAGE, RF_READS_PER_CYCLE, ISSUES_PER_CYCLE; try lia.
      * eapply WInv_mono; [apply (window_init_inv IW IW_SIZE IW_range IW_SIZE_range)|lia].
      * exists (replicate (Z.to_nat UOPQ_SIZE) 0). split; [apply Ring.ring_init; unfold UOPQ_SIZE; lia|].
        apply Forall_replicate. unfold upto. lia.
      * by rewrite length_replicate.
      * apply Forall_replicate. unfold upto. lia.
    + apply rob_upto_init; [unfold ROB_SIZE|unfold WIDTH]; lia.
    + constructor; simpl; try (apply rob_upto_init; [unfold LSQ_SIZE|unfold WIDTH]; lia); try (unfold upto, DECODE_STAGE; lia); try done.
  - apply BranchPredictorProps.predictor_init_inv; unfold NB, LB, HB; lia.
  - split; [done|lia].
  - split; [done|lia].
Qed.

(** C11: The core runs a block in the order of its data.  From every well-formed state, for
    every block as the decoder makes them, with the accesses that belong to it, and for
    caches that answer within [D] cycles, [bbl] returns: no assertion fails, no array is
    left, no loop runs on.  In the run no operation is dispatched before the operation
    that wrote its source last has committed, nor sooner than its latency before it
    commits; and no load or store commits before every store address and fence in front
    of it.  The clock does not go back, and the state is well formed again, up to a
    horizon that is a known number of cycles later. *)
Theorem block_in_dataflow_order `{TC : TimelyCaches Mem D} solo lineBits NREG T (c : Core Mem) b addr info :
  0 <= lineBits < 32 -> CoreInv NREG T c -> prevBbl c = Some b -> uops_ok NREG 0 (uop (oooBbl b)) ->
  loads_in (uop (oooBbl b)) = used (loads c) -> stores_in (uop (oooBbl b)) = used (stores c) ->
  0 <= addr -> 0 <= b_bytes info -> addr + b_bytes info + lineSize lineBits < W64 ->
  T + bbl_span lineBits (D := D) b info < curCycle (front (pipe c)) + 2 ^ 31 -> T + bbl_span lineBits (D := D) b info <= 2 ^ 60 ->
  exists tr p1 c',
    uop_run solo (addrs (loads c)) (addrs (stores c)) (uop (oooBbl b)) 0 0 0 (pipe c) tr p1 /\
    bbl solo lineBits addr info c = Ok (tt, c') /\
    curCycle (front (pipe c')) = curCycle (front p1) /\ regScoreboard (front (pipe c')) = regScoreboard (front p1) /\
    dataflow NREG (uop (oooBbl b)) tr /\ store_order (uop (oooBbl b)) tr /\ latencies (uop (oooBbl b)) tr /\
    curCycle (front (pipe c)) <= curCycle (front (pipe c')) /\ CoreInv NREG (T + bbl_span lineBits (D := D) b info) c' /\
    prevBbl c' = Some info /\ used (loads c') = 0 /\ used (stores c') = 0.
Proof.
  intros Hlb I Hp Hok Hl Hs Ha Hb Hw HT H60.
  destruct (bbl_spec solo lineBits NREG Hlb addr info b T c I Hp Hok Hl Hs Ha Hb Hw HT H60)
    as (tr & p1 & c' & A1 & A2 & A3 & A4 & A5 & A6 & A7 & A8 & A9 & _ & _ & A10 & A11 & A12).
  exists tr, p1, c'. by repeat (split; [done|]).
Qed.
