(* ===== verification/OooExamples.v ===== *)
(** * Concrete cores

    A block on a core with filter caches in front of first-level caches that answer in
    ten cycles, as it is simulated, and
    the places where the code of the cores does something else than its comments. *)

From stdpp Require Import base tactics numbers list.
From Stdlib Require Import ZArith Lia.
From S2P Require Import Prelude OooWindow OooWindowInv OooWindowMain OooBuffers OooCore OooCoreInv FilterCache OooCoreMain.

Open Scope Z_scope.

#[local] Instance ten_cycles : LowerCaches unit := {| lower_access := fun _ _ _ cycle _ _ m => Ok ((cycle + 10, []), m) |}.

#[local, refine] Instance ten_cycles_timely : TimelyLower unit 10 := {| lower_ok := fun _ => True |}.
Proof. all: cbv [wp lower_access ten_cycles]; simpl; intros; lia. Defined.

(** The caches of the core: 64 sets of lines of 64 bytes. *)
#[local] Instance demo_caches : CoreCaches (Caches unit) := core_caches 6 64 0.
#[local] Instance demo_timely : TimelyCaches (Caches unit) 10 := filter_caches_timely 6 64 0 eq_refl ltac:(lia).

(** [r1 = *64; r2 = r1; *128 = r2; r4 = *128]. *)
Definition demo_uops : list DynUop := [
  mkUop 0 0 1 0 0 0 UOP_LOAD 4 0;
  mkUop 1 0 2 0 1 0 UOP_GENERAL 33 0;
  mkUop 2 0 3 0 1 1 UOP_STORE_ADDR 8 0;
  mkUop 3 2 0 0 0 1 UOP_STORE 16 0;
  mkUop 0 0 4 0 0 1 UOP_LOAD 4 0 ].
Definition demo_bbl : BblInfo := mkBblInfo 4 16 (mkDynBbl demo_uops 0 0 0 0).

Definition demo_mem : Caches unit := mkCaches (FilterCache_init 64) (FilterCache_init 64) tt.

Definition demo_core : Core (Caches unit) :=
  set_accesses (mkAcc ((64, 8) :: (128, 8) :: replicate 254 (0, 0)) 2) (mkAcc ((128, 8) :: replicate 255 (0, 0)) 1)
    (set_prevBbl (Some demo_bbl)
      (OOOCore_init 80 0 demo_mem (replicate 256 (0, 0)) (replicate 256 (0, 0)) 0 (mkBranch 0 false 0 0))).

Definition demo_run : result (list Z) :=
  match bbl true 6 4096 demo_bbl demo_core with
  | Ok (_, c) => Ok (curCycle (front (pipe c)) :: decodeCycle (front (pipe c)) :: take 5 (regScoreboard (front (pipe c))))
  | Err e => Err e
  end.

(** The operation that reads [r1] waits for the load; the last load, issued with the
    others, commits no earlier than the store it takes its data from. *)
Example demo_cycles : demo_run = Ok [5; 15; 41; 24; 25; 26; 41].
Proof. vm_compute. reflexivity. Qed.

Lemma demo_inv : CoreInv 80 4 demo_core.
Proof.
  destruct (OOOCore_init_inv 80 0 demo_mem (replicate 256 (0, 0)) (replicate 256 (0, 0)) 0 (mkBranch 0 false 0 0)) as [Ip Ib _ _]; [|done|done|].
  { split; [|done]. split; [|split; [|done]]; (split; [done|]; apply Forall_replicate; unfold upto, DECODE_STAGE; simpl; lia). }
  constructor; [exact Ip|exact Ib|done|done].
Qed.

Lemma block_in_dataflow_order_witness : exists tr p1 c',
  uop_run true (addrs (loads demo_core)) (addrs (stores demo_core)) demo_uops 0 0 0 (pipe demo_core) tr p1 /\
  bbl true 6 4096 demo_bbl demo_core = Ok (tt, c') /\
  curCycle (front (pipe c')) = curCycle (front p1) /\ regScoreboard (front (pipe c')) = regScoreboard (front p1) /\
  dataflow 80 demo_uops tr /\ store_order demo_uops tr /\ latencies demo_uops tr /\
  curCycle (front (pipe demo_core)) <= curCycle (front (pipe c')) /\ CoreInv 80 (4 + bbl_span (D := 10) 6 demo_bbl demo_bbl) c' /\
  prevBbl c' = Some demo_bbl /\ used (loads c') = 0 /\ used (stores c') = 0.
Proof.
  apply (block_in_dataflow_order true 6 80 4 demo_core demo_bbl 4096 demo_bbl);
    try reflexivity; try lia; try (intros a c m Hc; simpl; lia).
  - apply demo_inv.
  - simpl. unfold uop_ok. simpl. lia.
  - vm_compute. congruence.
  - vm_compute. congruence.
Defined.

(** A load that is predicated off is to have no address; the core is given address 0,
    and accesses the cache for it. *)
Lemma predicated_load_reads_zero {Mem : Type} (c c' : Core Mem) : predFalseMemOp c = Ok (tt, c') ->
  exists size, addrs (loads c') !! Z.to_nat (used (loads c)) = Some (0, size).
Proof.
  unfold predFalseMemOp, load, add_access, set_at, at_, gets, lift, modify, mbind, st_bind. cbn [id].
  destruct (addrs (loads c) !! Z.to_nat (used (loads c))) as [[a size]|] eqn:E; [|done]. cbn. rewrite E. intros [= <-].
  exists size. simpl. apply list_lookup_insert_eq. by apply lookup_lt_Some in E.
Qed.

(** A divide issued at cycle 0 holds its port for the 20 cycles behind it.  Nothing is
    pending any more in cycle 1, so a long advance takes the window as it is from there
    to cycle 1000: a divide that comes then finds the port taken until cycle 1020. *)
Example shadow_slots_move :
  match schedule 1024 36 0 0 1 20 (WindowStructure_init 1024 0) with
  | Ok ((cur, _), w) => match longAdvance 1024 cur 1000 w with
    | Ok (cur, w) => match schedule 1024 36 cur 1000 1 0 w with Ok ((cur, sched), _) => Some (cur, sched) | Err _ => None end
    | Err _ => None
    end
  | Err _ => None
  end = Some (1000, 1020).
Proof. vm_compute. reflexivity. Qed.
