(* ===== verification/UMon.v ===== *)
(** * Utility monitors (utility_monitor.h, utility_monitor.cpp)

    A UMON watches a sample of the lines of a partition: each of its sets is a
    list of nodes in LRU order, and a hit is counted at its depth.  Because a
    smaller LRU cache holds a prefix of the list of a larger one, these counts
    give, at once, the misses of the LRU caches of every smaller associativity. *)

From stdpp Require Import base tactics numbers list gmap.
From Stdlib Require Import ZArith Lia.
From S2P Require Import Prelude Hash.

Open Scope Z_scope.

(** ** The monitor *)

(** [Node]; a [Node*] is an index into the array of its set, or null. *)
Record Node : Type := mkNode { addr : Z; next : option nat }.

Definition set_addr (a : Z) (n : Node) : Node := mkNode a (next n).
Definition set_next (p : option nat) (n : Node) : Node := mkNode (addr n) p.

Section umon.
Context {H : Type} `{!HashFamily H}.

Record UMon : Type := mkUMon {
  umonLines : Z;
  samplingFactor : Z;
  buckets : Z;
  sets : Z;
  samplingFactorBits : Z;
  setsBits : Z;
  curWayHits : list Z;
  curMisses : Z;
  array : list (list Node);
  heads : list (option nat);
  hf : H
}.

Definition set_wayHits (f : list Z -> list Z) (u : UMon) : UMon :=
  mkUMon (umonLines u) (samplingFactor u) (buckets u) (sets u) (samplingFactorBits u) (setsBits u)
    (f (curWayHits u)) (curMisses u) (array u) (heads u) (hf u).
Definition set_misses (f : Z -> Z) (u : UMon) : UMon :=
  mkUMon (umonLines u) (samplingFactor u) (buckets u) (sets u) (samplingFactorBits u) (setsBits u)
    (curWayHits u) (f (curMisses u)) (array u) (heads u) (hf u).
Definition set_nodes (s : nat) (f : list Node -> list Node) (u : UMon) : UMon :=
  mkUMon (umonLines u) (samplingFactor u) (buckets u) (sets u) (samplingFactorBits u) (setsBits u)
    (curWayHits u) (curMisses u) (alter f s (array u)) (heads u) (hf u).
Definition set_head (s : nat) (p : option nat) (u : UMon) : UMon :=
  mkUMon (umonLines u) (samplingFactor u) (buckets u) (sets u) (samplingFactorBits u) (setsBits u)
    (curWayHits u) (curMisses u) (array u) (<[s := p]> (heads u)) (hf u).

(** [while (tmp >>= 1) bits++;] on a [uint32_t]. *)
Fixpoint count_bits (n : nat) (tmp bits : Z) : Z :=
  match n with
  | O => bits
  | S n => let tmp := Z.shiftr tmp 1 in if tmp =? 0 then bits else count_bits n tmp (bits + 1)
  end.

(** The nodes of a set, linked in the order of the array. *)
Definition initial_nodes (n : nat) : list Node :=
  (fun j => mkNode 0 (if decide (S j < n)%nat then Some (S j) else None)) <$> seq 0 n.

(** The constructor; its hash family is an argument. *)
Definition UMon_init (bankLines lines bkts : Z) (h : H) : result UMon :=
  if (lines =? 0) || (bkts =? 0) then Err Panicked
  else
    let factor := bankLines / lines in
    let nsets := lines / bkts in
    Ok (mkUMon lines factor bkts nsets (count_bits 32 factor 0) (count_bits 32 nsets 0)
          (replicate (Z.to_nat bkts) 0) 0
          (replicate (Z.to_nat nsets) (initial_nodes (Z.to_nat bkts))) (replicate (Z.to_nat nsets) (Some 0%nat)) h).

(** [~(((uint64_t)-1LL) << bits)]. *)
Definition low_mask (bits : Z) : Z := Z.lxor (W64 - 1) (u64 (Z.shiftl (W64 - 1) bits)).

(** The search of [access]: from bucket [b], [n] buckets to go; the node it
    stops at, the one before it, and the bucket of a hit. *)
Fixpoint find_line (lineAddr bkts : Z) (nodes : list Node) (n : nat) (b : Z) (prev cur : option nat) :
    result (option nat * option nat * option Z) :=
  match n with
  | O => Ok (prev, cur, None)
  | S n =>
    match cur ≫= (nodes !!.) with
    | None => Err Panicked
    | Some nd =>
      if addr nd =? lineAddr then Ok (prev, cur, Some b)
      else if b <? bkts - 1 then find_line lineAddr bkts nodes n (b + 1) cur (next nd)
      else find_line lineAddr bkts nodes n (b + 1) prev cur
    end
  end.

Definition sampled (u : UMon) (lineAddr : Z) : result bool :=
  match hash (hf u) 0 lineAddr with
  | Ok h => Ok (Z.land h (low_mask (samplingFactorBits u)) =? 0)
  | Err f => Err f
  end.
Definition set_of (u : UMon) (lineAddr : Z) : result nat :=
  match hash (hf u) 1 lineAddr with
  | Ok h => Ok (Z.to_nat (Z.land h (low_mask (setsBits u))))
  | Err f => Err f
  end.

(** A pointer that is followed; null, or outside its array, is undefined. *)
Definition deref (s : nat) (p : option nat) : st UMon (nat * Node) := fun u =>
  match p, array u !! s with
  | Some i, Some nodes => match nodes !! i with Some nd => Ok (i, nd, u) | None => Err Panicked end
  | _, _ => Err Panicked
  end.

Definition access (lineAddr : Z) : st UMon unit :=
  (* 1. Hash to decide if it should go in the cache *)
  u ← gets id;
  sel ← lift (sampled u lineAddr);
  when sel (
    (* 2. Insert; hit or miss? *)
    s ← lift (set_of u lineAddr);
    head ← lift (match heads u !! s with Some p => Ok p | None => Err Panicked end);
    nodes ← lift (match array u !! s with Some ns => Ok ns | None => Err Panicked end);
    '(prev, cur, hit) ← lift (find_line lineAddr (buckets u) nodes (Z.to_nat (buckets u)) 0 None head);
    '(icur, ncur) ← deref s cur;
    _ ← match hit with
        | Some b => modify (set_wayHits (alter (fun c => u64 (c + 1)) (Z.to_nat b)))
        | None =>
          _ ← modify (set_misses (fun m => u64 (m + 1)));
          _ ← assert_ (bool_decide (next ncur = None));
          modify (set_nodes s (alter (set_addr lineAddr) icur))
        end;
    (* Move cur to MRU (happens regardless of whether this is a hit or a miss) *)
    match prev with
    | None => mret tt
    | Some iprev =>
      _ ← modify (set_nodes s (alter (set_next (next ncur)) iprev));
      _ ← modify (set_nodes s (alter (set_next head) icur));
      modify (set_head s cur)
    end).

(** [total += curWayHits[buckets - i - 1]] for i from [i], [n] rounds; the
    partial totals are what [getMisses] stores on the way. *)
Fixpoint totals (u : UMon) (n : nat) (i total : Z) : list Z * Z :=
  match n with
  | O => ([], total)
  | S n =>
    let '(l, t) := totals u n (i + 1) (u64 (total + nth (Z.to_nat (buckets u - i - 1)) (curWayHits u) 0)) in
    (total :: l, t)
  end.

Definition getNumAccesses (u : UMon) : Z := (totals u (Z.to_nat (buckets u)) 0 (curMisses u)).2.

(** [getMisses]: [misses[buckets - i]] for each [i], then [misses[0]]; the
    result is the list from index 0 to index [buckets]. *)
Definition getMisses (u : UMon) : list Z :=
  let '(l, t) := totals u (Z.to_nat (buckets u)) 0 (curMisses u) in
  t :: reverse l.

Definition startNextInterval (u : UMon) : UMon := set_wayHits (fmap (fun _ => 0)) (set_misses (fun _ => 0) u).

End umon.
Arguments UMon : clear implicits.

(** ** LRU caches *)

(** A set of an LRU cache is the list of its lines, the most recent first; a
    line that is brought in takes the place of the last one. *)
Fixpoint without (a : Z) (l : list Z) : list Z :=
  match l with
  | [] => []
  | x :: l => if x =? a then l else x :: without a l
  end.
Definition lru_access (s : list Z) (a : Z) : list Z * bool :=
  match s with
  | [] => ([], false)
  | _ => if bool_decide (a ∈ s) then (a :: without a s, true) else (a :: removelast s, false)
  end.

(** A cache of [k] ways: its sets, and the misses so far. *)
Record LRUCache : Type := mkLRU { lru_sets : nat -> list Z; lru_misses : Z }.
Definition lru_init (k : nat) : LRUCache := mkLRU (fun _ => replicate k 0) 0.
Definition lru_step (c : LRUCache) (s : nat) (a : Z) : LRUCache :=
  let '(l, hit) := lru_access (lru_sets c s) a in
  mkLRU (fun s' => if decide (s' = s) then l else lru_sets c s') (if hit then lru_misses c else lru_misses c + 1).

(** A monitor is given lines, and its counters are reset now and then. *)
Inductive op : Type := Access (lineAddr : Z) | NextInterval.

Definition umon_step `{!HashFamily H} (o : op) : st (UMon H) unit :=
  match o with Access a => access a | NextInterval => modify startNextInterval end.
Fixpoint umon_run `{!HashFamily H} (ops : list op) : st (UMon H) unit :=
  match ops with [] => mret tt | o :: ops => _ ← umon_step o; umon_run ops end.

(** The same operations on an LRU cache that sees what the monitor sees. *)
Definition reference_step `{!HashFamily H} (u : UMon H) (c : LRUCache) (o : op) : LRUCache :=
  match o with
  | Access a => match sampled u a, set_of u a with Ok true, Ok s => lru_step c s a | _, _ => c end
  | NextInterval => mkLRU (lru_sets c) 0
  end.
Definition reference `{!HashFamily H} (u : UMon H) (k : nat) (ops : list op) : LRUCache :=
  foldl (reference_step u) (lru_init k) ops.

(** ** Linked sets *)

(** The nodes from [p] on, up to [q], are [l]: their indices and lines. *)
Fixpoint seg (nodes : list Node) (p : option nat) (l : list (nat * Z)) (q : option nat) : Prop :=
  match l with
  | [] => p = q
  | (i, a) :: l => p = Some i /\ exists nx, nodes !! i = Some (mkNode a nx) /\ seg nodes nx l q
  end.

Lemma seg_app nodes p l1 l2 q : seg nodes p (l1 ++ l2) q <-> exists r, seg nodes p l1 r /\ seg nodes r l2 q.
Proof.
  revert p. induction l1 as [|[i a] l1 IH]; intros p; simpl; [naive_solver|].
  split.
  - intros (-> & nx & Hn & (r & H1 & H2)%IH). eauto 10.
  - intros (r & (-> & nx & Hn & H1) & H2). split; [done|]. exists nx. split; [done|]. apply IH. eauto.
Qed.

Lemma seg_frame nodes p l q f j : seg nodes p l q -> j ∉ l.*1 -> seg (alter f j nodes) p l q.
Proof.
  revert p. induction l as [|[i a] l IH]; intros p; csimpl; [done|].
  intros (-> & nx & Hn & Hs) [Hne Hj]%not_elem_of_cons. split; [done|]. exists nx.
  rewrite list_lookup_alter_ne by done. eauto.
Qed.

Lemma seg_relink nodes p l j b q r :
  seg nodes p (l ++ [(j, b)]) q -> j ∉ l.*1 -> seg (alter (set_next r) j nodes) p (l ++ [(j, b)]) r.
Proof.
  intros (m & H1 & H2)%seg_app Hj. apply seg_app. exists m. split; [by apply seg_frame|].
  destruct H2 as (-> & nx & Hn & _). simpl. split; [done|]. exists r. split; [|done].
  by rewrite list_lookup_alter_eq, Hn.
Qed.

(** The node in the middle of a set moves to its front. *)
Lemma seg_move nodes head l0 j b i a nx l2 :
  seg nodes head (l0 ++ [(j, b)]) (Some i) -> nodes !! i = Some (mkNode a nx) -> seg nodes nx l2 None ->
  NoDup ((l0 ++ [(j, b)]).*1 ++ i :: l2.*1) ->
  seg (alter (set_next head) i (alter (set_next nx) j nodes)) (Some i) ((i, a) :: (l0 ++ [(j, b)]) ++ l2) None.
Proof.
  intros H1 Hi H2 Hnd. apply NoDup_app in Hnd as (Hnd1 & Hdisj & [Hi2 Hnd2]%NoDup_cons).
  rewrite fmap_app in Hnd1, Hdisj. csimpl in *. apply NoDup_app in Hnd1 as (_ & Hj & _).
  assert (j ∉ l0.*1) as Hj0 by (intros Hin; apply (Hj _ Hin); by left).
  assert (j <> i /\ j ∉ l2.*1) as [Hji Hj2].
  { assert (j ∉ i :: l2.*1) as Hn by (apply Hdisj, elem_of_app; right; by left). by apply not_elem_of_cons in Hn. }
  assert (i ∉ (l0 ++ [(j, b)]).*1) as Hi1.
  { rewrite fmap_app. intros Hin. apply (Hdisj i Hin). by left. }
  split; [done|]. exists head. split.
  - rewrite list_lookup_alter_eq, list_lookup_alter_ne, Hi by done. done.
  - apply seg_app. exists nx. split; [apply seg_frame; [|done]; by eapply seg_relink|].
    apply seg_frame; [|done]. by apply seg_frame.
Qed.

(** The index before a place in a list. *)
Definition before (prev : option nat) (l : list (nat * Z)) : option nat :=
  match last l with Some (j, _) => Some j | None => prev end.

Lemma before_cons prev x l : before prev (x :: l) = before (Some x.1) l.
Proof. unfold before. destruct x as [j b]. rewrite last_cons. destruct (last l) as [[??]|]; done. Qed.

Lemma find_hit lineAddr bkts nodes l1 i l2 : forall n b prev cur,
  seg nodes cur (l1 ++ (i, lineAddr) :: l2) None -> lineAddr ∉ l1.*2 ->
  n = length (l1 ++ (i, lineAddr) :: l2) -> b + Z.of_nat n = bkts ->
  find_line lineAddr bkts nodes n b prev cur = Ok (before prev l1, Some i, Some (b + Z.of_nat (length l1))).
Proof.
  induction l1 as [|[j a] l1 IH]; intros n b prev cur; csimpl.
  - intros (-> & nx & Hn & Hs) _ -> Hb. cbn [length find_line]. cbn [mbind option_bind]. rewrite Hn. cbn.
    rewrite Z.eqb_refl. do 2 f_equal. f_equal. lia.
  - intros (-> & nx & Hn & Hs) [Hne Hin]%not_elem_of_cons -> Hb. cbn [find_line]. cbn [mbind option_bind]. rewrite Hn. cbn [addr next].
    rewrite (proj2 (Z.eqb_neq a lineAddr)) by done. rewrite length_app in Hb. cbn in Hb.
    rewrite (proj2 (Z.ltb_lt b (bkts - 1))) by lia.
    rewrite (IH _ (b + 1) (Some j) nx Hs Hin eq_refl) by (rewrite length_app; cbn; lia).
    rewrite before_cons. do 2 f_equal. f_equal. lia.
Qed.

Lemma find_miss lineAddr bkts nodes l1 i a : forall n b prev cur,
  seg nodes cur (l1 ++ [(i, a)]) None -> lineAddr ∉ (l1 ++ [(i, a)]).*2 ->
  n = length (l1 ++ [(i, a)]) -> b + Z.of_nat n = bkts ->
  find_line lineAddr bkts nodes n b prev cur = Ok (before prev l1, Some i, None).
Proof.
  induction l1 as [|[j a'] l1 IH]; intros n b prev cur; csimpl.
  - intros (-> & nx & Hn & ->) Hin -> Hb. cbn [length find_line]. cbn [mbind option_bind]. rewrite Hn. cbn [addr next].
    rewrite (proj2 (Z.eqb_neq a lineAddr)) by set_solver. cbn in Hb. by rewrite (proj2 (Z.ltb_ge b (bkts - 1))) by lia.
  - intros (-> & nx & Hn & Hs) [Hne Hin]%not_elem_of_cons -> Hb. cbn [find_line]. cbn [mbind option_bind]. rewrite Hn. cbn [addr next].
    rewrite (proj2 (Z.eqb_neq a' lineAddr)) by done. rewrite length_app in Hb. cbn in Hb.
    rewrite (proj2 (Z.ltb_lt b (bkts - 1))) by lia.
    rewrite (IH _ (b + 1) (Some j) nx Hs Hin eq_refl) by (rewrite length_app; cbn; lia).
    by rewrite before_cons.
Qed.

(** ** LRU caches are prefixes of each other *)

Lemma elem_first (a : Z) l : a ∈ l -> exists l1 l2, l = l1 ++ a :: l2 /\ a ∉ l1.
Proof.
  induction l as [|x l IH]; [by intros ?%elem_of_nil|]. destruct (decide (a = x)) as [->|Hne].
  - intros _. exists [], l. split; [done|apply not_elem_of_nil].
  - intros [?|(l1 & l2 & -> & Hn)%IH]%elem_of_cons; [done|]. exists (x :: l1), l2. split; [done|].
    by apply not_elem_of_cons.
Qed.

Lemma lru_access_hit l1 a l2 : a ∉ l1 -> lru_access (l1 ++ a :: l2) a = (a :: l1 ++ l2, true).
Proof.
  intros Hn. assert (without a (l1 ++ a :: l2) = l1 ++ l2) as Hw.
  { induction l1 as [|x l1 IH]; simpl; [by rewrite Z.eqb_refl|]. apply not_elem_of_cons in Hn as [Hne Hn].
    rewrite (proj2 (Z.eqb_neq x a)) by done. by rewrite IH. }
  unfold lru_access. rewrite bool_decide_true by set_solver. rewrite Hw. by destruct l1.
Qed.

Lemma lru_access_miss l a : a ∉ l -> lru_access l a = (if decide (l = []) then [] else a :: take (pred (length l)) l, false).
Proof.
  intros Hn. unfold lru_access. destruct l as [|x l]; [done|]. rewrite bool_decide_false by done.
  by rewrite removelast_firstn_len.
Qed.

Lemma elem_take (x : Z) n l : x ∈ take n l -> x ∈ l.
Proof. intros (i & Hi & _)%elem_of_take. by eapply list_elem_of_lookup_2. Qed.

(** A cache of fewer ways holds a prefix of the lines. *)
Lemma lru_access_take k l a :
  l <> [] -> (k <= length l)%nat -> lru_access (take k l) a = (take k (lru_access l a).1, bool_decide (a ∈ take k l)).
Proof.
  intros Hl Hk. destruct k as [|k]; [by destruct (lru_access l a)|].
  destruct (decide (a ∈ l)) as [Hin|Hout].
  - destruct (elem_first _ _ Hin) as (l1 & l2 & -> & Hn). rewrite (lru_access_hit l1) by done. cbn [fst].
    destruct (decide (length l1 < S k)%nat) as [Hlt|Hge].
    + rewrite take_app_ge by lia. rewrite (Nat.sub_succ_l (length l1) k) by lia. cbn [take].
      rewrite lru_access_hit by done. rewrite bool_decide_true by set_solver.
      by rewrite take_app_ge by lia.
    + rewrite take_app_le by lia. assert (a ∉ take (S k) l1) as Hn' by (intros ?%elem_take; done).
      rewrite lru_access_miss, bool_decide_false by done. cbn [take].
      rewrite decide_False by (intros E%(f_equal length); rewrite length_take in E; change (length (A:=Z) []) with 0%nat in E; lia).
      rewrite length_take, take_take, take_app_le by lia. do 3 f_equal. lia.
  - assert (a ∉ take (S k) l) as Hn' by (intros ?%elem_take; done).
    rewrite !lru_access_miss, bool_decide_false by done. rewrite (decide_False (P := l = [])) by done. cbn [fst take].
    rewrite decide_False by (intros E%(f_equal length); rewrite length_take in E; change (length (A:=Z) []) with 0%nat in E; lia).
    rewrite length_take, !take_take. do 3 f_equal. lia.
Qed.

(** ** The counters *)

Lemma sumZ_drop_alter k d l x :
  l !! d = Some x -> sumZ (drop k (alter (fun c => c + 1) d l)) = sumZ (drop k l) + (if decide (k <= d)%nat then 1 else 0).
Proof.
  revert k d. induction l as [|y l IH]; intros k d; [done|]. intros Hd. destruct k as [|k].
  { rewrite !drop_0, decide_True by lia. rewrite (sumZ_alter _ _ _ _ Hd). lia. }
  destruct d as [|d].
  - rewrite decide_False by lia. change (sumZ (drop k l) = sumZ (drop k l) + 0). lia.
  - change (sumZ (drop k (alter (fun c => c + 1) d l)) = sumZ (drop k l) + (if decide (S k <= S d)%nat then 1 else 0)).
    rewrite (IH k d Hd). repeat case_decide; lia.
Qed.

(** ** The invariant of the monitor *)

Lemma alter_at {A} (f : A -> A) (s : nat) (l : list A) x : l !! s = Some x -> alter f s l = <[s := f x]> l.
Proof.
  intros Hx. apply list_eq. intros j. destruct (decide (j = s)) as [->|Hne].
  - rewrite list_lookup_alter_eq, Hx, list_lookup_insert_eq; [done|]. by eapply lookup_lt_Some.
  - by rewrite list_lookup_alter_ne, list_lookup_insert_ne.
Qed.

Lemma alter_insert {A} (f : A -> A) (s : nat) (l : list A) x : (s < length l)%nat -> alter f s (<[s := x]> l) = <[s := f x]> l.
Proof. intros Hs. rewrite (alter_at f s _ x); [by rewrite list_insert_insert_eq|by apply list_lookup_insert_eq]. Qed.

Definition set_rep (nodes : list Node) (head : option nat) (n : nat) (stack : list Z) : Prop :=
  exists l, seg nodes head l None /\ NoDup l.*1 /\ l.*2 = stack /\ length l = n.

(** A set after an access: its node for the line is in front. *)
Lemma set_rep_move nodes head n l1 i a nx l2 :
  seg nodes head l1 (Some i) -> nodes !! i = Some (mkNode a nx) -> seg nodes nx l2 None ->
  NoDup (l1 ++ (i, a) :: l2).*1 -> length (l1 ++ (i, a) :: l2) = n ->
  match before None l1 with
  | None => set_rep nodes head n (a :: l1.*2 ++ l2.*2) /\ head = Some i
  | Some j => set_rep (alter (set_next head) i (alter (set_next nx) j nodes)) (Some i) n (a :: l1.*2 ++ l2.*2)
  end.
Proof.
  intros H1 Hi H2 Hnd Hlen. rewrite fmap_app in Hnd. csimpl in Hnd.
  destruct l1 as [|[j b] l0 _] using rev_ind.
  - cbn in H1. subst head. cbn. split; [|done]. exists ((i, a) :: l2). split_and!; [|done..].
    cbn. split; [done|]. eauto.
  - unfold before. rewrite last_snoc. exists ((i, a) :: (l0 ++ [(j, b)]) ++ l2). split_and!.
    + by apply seg_move.
    + csimpl. rewrite fmap_app. by rewrite Permutation_middle.
    + csimpl. by rewrite fmap_app.
    + rewrite <- Hlen. cbn. rewrite !length_app. cbn. lia.
Qed.

Section correctness.
Context {H : Type} `{!HashFamily H} `{!HashFamilyOk H}.
Implicit Types (u : UMon H) (S : nat -> list Z).

Definition in_sets u (s : nat) : Prop := Z.of_nat s < 2 ^ setsBits u.

Record Rep u S : Prop := {
  rep_buckets : 0 < buckets u;
  rep_sets s : in_sets u s -> exists nodes head, array u !! s = Some nodes /\ heads u !! s = Some head /\
    set_rep nodes head (Z.to_nat (buckets u)) (S s);
  rep_hits : length (curWayHits u) = Z.to_nat (buckets u);
  rep_nonneg : Forall (fun x => 0 <= x) (curWayHits u) /\ 0 <= curMisses u;
  rep_hash : hash_id_ok (hf u) 0 /\ hash_id_ok (hf u) 1;
  rep_bits : 0 <= setsBits u < 32
}.

Definition same_setup u u' : Prop :=
  buckets u' = buckets u /\ hf u' = hf u /\ samplingFactorBits u' = samplingFactorBits u /\ setsBits u' = setsBits u.

Definition total u : Z := curMisses u + sumZ (curWayHits u).

Lemma low_mask_eq b : 0 <= b < 32 -> low_mask b = Z.ones b.
Proof.
  intros Hb. assert (forall n, (n < 32)%nat -> low_mask (Z.of_nat n) = Z.ones (Z.of_nat n)) as Hn.
  { intros n Hn. do 32 (destruct n as [|n]; [vm_compute; reflexivity|]). lia. }
  rewrite <- (Z2Nat.id b) by lia. apply Hn. lia.
Qed.

Lemma set_of_ok u S a : Rep u S -> in_u64 a -> exists s, set_of u a = Ok s /\ in_sets u s.
Proof.
  intros HR Ha. destruct (hash_ok (hf u) 1 a) as (h & Hh & Hr); [apply HR|done|].
  unfold set_of. rewrite Hh, low_mask_eq by apply HR. eexists. split; [done|]. unfold in_sets.
  pose proof (rep_bits _ _ HR). rewrite Z.land_ones by lia.
  pose proof (Z.mod_pos_bound h (2 ^ setsBits u) ltac:(lia)). lia.
Qed.

Lemma sampled_ok u S a : Rep u S -> in_u64 a -> exists b, sampled u a = Ok b.
Proof.
  intros HR Ha. destruct (hash_ok (hf u) 0 a) as (h & Hh & Hr); [apply HR|done|].
  unfold sampled. rewrite Hh. by eexists.
Qed.

(** What an access does to the counters, when the set holds [l]. *)
Definition counted u u' (l : list Z) (a : Z) : Prop :=
  (exists l1 l2, l = l1 ++ a :: l2 /\ (a ∉ l1) /\ curMisses u' = curMisses u /\
     curWayHits u' = alter (fun c => c + 1) (length l1) (curWayHits u)) \/
  ((a ∉ l) /\ curMisses u' = curMisses u + 1 /\ curWayHits u' = curWayHits u).

(** One set, and the counters, have changed. *)
Lemma rep_update u u' S s nodes head l a :
  Rep u S -> in_sets u s -> same_setup u u' -> counted u u' (S s) a ->
  array u' = <[s := nodes]> (array u) -> heads u' = <[s := head]> (heads u) ->
  set_rep nodes head (Z.to_nat (buckets u)) l -> Rep u' (fun s' => if decide (s' = s) then l else S s').
Proof.
  intros HR Hs (Eb & Eh & Ef & Es) Hc Ea Ehd Hl. pose proof HR as [? Hsets Hlen [Hnn1 Hnn2] ? ?].
  split; rewrite ?Eb, ?Eh, ?Es; try done.
  - intros s' Hs'. unfold in_sets in Hs'. rewrite Es in Hs'. rewrite Ea, Ehd.
    destruct (Hsets s' Hs') as (ns & hd & H1 & H2 & H3). case_decide as E.
    + subst s'. exists nodes, head. split_and!; [| |done]; apply list_lookup_insert_eq; by eapply lookup_lt_Some.
    + exists ns, hd. by rewrite !list_lookup_insert_ne.
  - destruct Hc as [(l1 & l2 & _ & _ & _ & ->)|(_ & _ & ->)]; [by rewrite length_alter|done].
  - destruct Hc as [(l1 & l2 & _ & _ & -> & ->)|(_ & -> & ->)]; [|split; [done|lia]]. split; [|done].
    apply Forall_alter; [done|]. intros x Hx Hp. lia.
Qed.

Lemma wp_deref s (i : nat) nd nodes u (Q : nat * Node -> UMon H -> Prop) :
  array u !! s = Some nodes -> nodes !! i = Some nd -> Q (i, nd) u -> wp (deref s (Some i)) u Q.
Proof. unfold wp, deref. by intros -> ->. Qed.

(** The end of [access]: the node [i] of the set moves to the front. *)
Lemma move_spec u s nodes head l1 i a nx l2 :
  array u !! s = Some nodes -> heads u !! s = Some head ->
  seg nodes head l1 (Some i) -> nodes !! i = Some (mkNode a nx) -> seg nodes nx l2 None ->
  NoDup (l1 ++ (i, a) :: l2).*1 ->
  wp (match before None l1 with
      | None => mret tt
      | Some iprev =>
        _ ← modify (set_nodes s (alter (set_next nx) iprev));
        _ ← modify (set_nodes s (alter (set_next head) i));
        modify (set_head s (Some i))
      end) u (fun _ u' => exists nodes' head',
        array u' = <[s := nodes']> (array u) /\ heads u' = <[s := head']> (heads u) /\
        set_rep nodes' head' (length (l1 ++ (i, a) :: l2)) (a :: l1.*2 ++ l2.*2) /\
        same_setup u u' /\ curMisses u' = curMisses u /\ curWayHits u' = curWayHits u).
Proof using Type.
  intros En Eh H1 Hi H2 Hnd. pose proof (set_rep_move _ _ _ _ _ _ _ _ H1 Hi H2 Hnd eq_refl) as Hmove.
  destruct (before None l1) as [j|].
  - do 5 wp_step. eexists _, _. cbn [array heads set_nodes set_head].
    rewrite (alter_at _ _ _ _ En), alter_insert by (by eapply lookup_lt_Some). split_and!; done.
  - wp_step. destruct Hmove as [Hrep ->]. exists nodes, (Some i). rewrite !list_insert_id by done. done.
Qed.

(** One access: the set of the line makes the step of an LRU cache of all the
    ways, and the depth of the line, or a miss, is counted. *)
Lemma umon_access_spec u S a :
  Rep u S -> in_u64 a -> total u + 1 < W64 ->
  wp (access a) u (fun _ u' => same_setup u u' /\
    match sampled u a, set_of u a with
    | Ok true, Ok s => in_sets u s /\ counted u u' (S s) a /\
        Rep u' (fun s' => if decide (s' = s) then (lru_access (S s) a).1 else S s')
    | Ok false, Ok _ => u' = u
    | _, _ => False
    end).
Proof using All.
  intros HR Ha Htot. destruct (sampled_ok _ _ _ HR Ha) as [b Eb]. destruct (set_of_ok _ _ _ HR Ha) as (s & Es & Hs).
  unfold access. do 2 wp_step. unfold id. rewrite Eb, Es. wp_step. wp_step. exists b. split; [done|].
  destruct b; [|by cbn].
  destruct (rep_sets _ _ HR _ Hs) as (nodes & head & En & Eh & l & Hseg & Hnd & El & Hlen).
  assert (s < length (array u))%nat as Hsl by (by eapply lookup_lt_Some).
  pose proof (rep_buckets _ _ HR) as Hbk. pose proof (rep_nonneg _ _ HR) as [Hnn1 Hnn2]. pose proof (sumZ_nonneg _ Hnn1) as Hsum.
  wp_step; [intros _|done]. wp_step. wp_step. exists s. split; [done|]. wp_step. wp_step. rewrite Eh. exists head. split; [done|].
  wp_step. wp_step. rewrite En. exists nodes. split; [done|]. wp_step. wp_step.
  destruct (decide (a ∈ l.*2)) as [Hin|Hout].
  - destruct (elem_first _ _ Hin) as (s1 & s2 & Esp & Hn). apply fmap_app_inv in Esp as (l1 & l2' & -> & E2 & ->).
    symmetry in E2. apply fmap_cons_inv in E2 as ([i a'] & l2 & Ea & -> & ->). cbn in Ea. subst a'.
    rewrite (find_hit a (buckets u) nodes l1 i l2) by (done || lia). eexists. split; [done|].
    apply seg_app in Hseg as (r & H1 & (-> & nx & Hi & H2)).
    wp_step. eapply wp_deref; [done..|]. cbn [next].
    assert (exists x, curWayHits u !! length l1 = Some x) as [x Hx].
    { apply lookup_lt_is_Some. rewrite (rep_hits _ _ HR), <- Hlen, length_app. cbn. lia. }
    pose proof (sumZ_lookup _ _ _ Hnn1 Hx) as Hxle. unfold total in Htot.
    assert (0 <= x) as Hx0 by (rewrite Forall_lookup in Hnn1; by eapply Hnn1).
    wp_step. wp_step. eapply wp_mono; [eapply (move_spec _ s nodes head l1 i a nx l2); done|].
    intros _ u' (nodes' & head' & Ea' & Eh' & Hrep & Hset & Em & Ew). cbn in Em, Ew.
    rewrite Z.add_0_l, Nat2Z.id, (alter_at _ _ _ _ Hx), u64_id in Ew by (split; lia).
    assert (counted u u' (S s) a) as Hc.
    { left. rewrite <- El, fmap_app. csimpl. exists l1.*2, l2.*2. rewrite length_fmap, (alter_at _ _ _ _ Hx). done. }
    split; [done|]. split_and!; [done..|]. eapply rep_update; [done..|].
    rewrite <- El, fmap_app. csimpl. rewrite lru_access_hit by done. cbn [fst]. by rewrite <- Hlen.
  - destruct l as [|[i a0] l1 _] using rev_ind; [cbn in Hlen; lia|].
    rewrite (find_miss a (buckets u) nodes l1 i a0) by (done || lia). eexists. split; [done|].
    apply seg_app in Hseg as (r & H1 & (-> & nx & Hi & ->)).
    wp_step. eapply wp_deref; [done..|]. cbn [next].
    wp_step. wp_step. wp_step. wp_step. wp_step; [done|]. wp_step.
    assert (i ∉ l1.*1) as Hil.
    { rewrite fmap_app in Hnd. apply NoDup_app in Hnd as (_ & Hd & _). intros Hin. apply (Hd i Hin). by left. }
    eapply wp_mono; [eapply (move_spec _ s (alter (set_addr a) i nodes) head l1 i a None [])|].
    { cbn [array set_nodes set_misses]. by rewrite list_lookup_alter_eq, En. }
    { done. }
    { by apply seg_frame. }
    { by rewrite list_lookup_alter_eq, Hi. }
    { done. }
    { rewrite fmap_app in Hnd |- *. done. }
    intros _ u' (nodes' & head' & Ea' & Eh' & Hrep & Hset & Em & Ew). cbn in Ea', Em, Ew.
    rewrite (alter_at _ _ _ _ En), list_insert_insert_eq in Ea'. unfold total in Htot.
    rewrite u64_id in Em by (split; lia).
    assert (counted u u' (S s) a) as Hc by (right; rewrite <- El; done).
    split; [done|]. split_and!; [done..|]. eapply rep_update; [done..|].
    rewrite <- El, lru_access_miss by done. rewrite decide_False by (rewrite fmap_app; by destruct l1).
    cbn [fst]. rewrite length_fmap, length_app, fmap_app, Nat.add_comm. cbn [length Nat.add pred].
    rewrite take_app_length' by (by rewrite length_fmap). rewrite <- Hlen, length_app. cbn [length].
    rewrite length_app in Hrep. cbn [length] in Hrep. csimpl in Hrep. by rewrite app_nil_r in Hrep.
Qed.

(** ** The constructor *)

Lemma count_bits_spec n tmp b : 0 <= tmp < 2 ^ Z.of_nat n -> (0 < n)%nat -> count_bits n tmp b = b + Z.log2 tmp.
Proof.
  revert tmp b. induction n as [|n IH]; intros tmp b Ht Hn; [lia|]. cbn [count_bits]. cbv zeta.
  rewrite Z.shiftr_div_pow2 by lia. change (2 ^ 1) with 2.
  rewrite Nat2Z.inj_succ, Z.pow_succ_r in Ht by lia.
  pose proof (Z.div_mod tmp 2 ltac:(lia)). pose proof (Z.mod_pos_bound tmp 2 ltac:(lia)).
  destruct (Z.eqb_spec (tmp / 2) 0) as [E|E].
  - assert (tmp = 0 \/ tmp = 1) as [-> | ->] by lia; cbn; lia.
  - assert (0 < n)%nat by (destruct n; [change (2 ^ Z.of_nat 0) with 1 in Ht|]; lia).
    rewrite IH by lia.
    assert (Z.log2 tmp = Z.succ (Z.log2 (tmp / 2))); [|lia].
    apply Z.log2_unique; [pose proof (Z.log2_nonneg (tmp / 2)); lia|].
    pose proof (Z.log2_spec (tmp / 2) ltac:(lia)) as [L1 L2]. pose proof (Z.log2_nonneg (tmp / 2)).
    rewrite (Z.pow_succ_r 2 (Z.succ (Z.log2 (tmp / 2)))), (Z.pow_succ_r 2 (Z.log2 (tmp / 2))) by lia.
    rewrite Z.pow_succ_r in L2 by lia. lia.
Qed.

Lemma initial_seg n m j : (j + m = n)%nat ->
  seg (initial_nodes n) (if decide (j < n)%nat then Some j else None) ((fun i => (i, 0)) <$> seq j m) None.
Proof.
  revert j. induction m as [|m IH]; intros j Hj; cbn; [by rewrite decide_False by lia|].
  rewrite decide_True by lia. split; [done|]. eexists. split; [|apply (IH (S j)); lia].
  unfold initial_nodes. by rewrite list_lookup_fmap, lookup_seq_lt by lia.
Qed.

Lemma initial_rep n : (0 < n)%nat -> set_rep (initial_nodes n) (Some 0%nat) n (replicate n 0).
Proof.
  intros Hn. exists ((fun i => (i, 0)) <$> seq 0 n). split_and!.
  - pose proof (initial_seg n n 0 ltac:(lia)) as H0. by rewrite decide_True in H0 by lia.
  - rewrite <- list_fmap_compose. rewrite (list_fmap_ext _ id), list_fmap_id; [apply NoDup_seq|done].
  - rewrite <- list_fmap_compose. rewrite (list_fmap_ext _ (fun _ => 0)) by done.
    rewrite (const_fmap _ _ 0) by done. by rewrite length_seq.
  - by rewrite length_fmap, length_seq.
Qed.

Lemma Ok_inj {A} (x y : A) : Ok x = Ok y -> x = y.
Proof. congruence. Qed.

Lemma umon_init_rep bankLines lines bkts (h : H) u :
  0 <= bankLines < W32 -> 0 < bkts <= lines -> lines < W32 -> hash_id_ok h 0 -> hash_id_ok h 1 ->
  UMon_init bankLines lines bkts h = Ok u ->
  Rep u (fun _ => replicate (Z.to_nat bkts) 0) /\ total u = 0 /\ buckets u = bkts /\
  curMisses u = 0 /\ curWayHits u = replicate (Z.to_nat bkts) 0.
Proof using Type.
  intros Hb Hk Hl H0 H1. unfold UMon_init.
  rewrite (proj2 (Z.eqb_neq lines 0)), (proj2 (Z.eqb_neq bkts 0)) by lia.
  intros Eu%Ok_inj. subst u.
  assert (1 <= lines / bkts < W32) as Hsets.
  { split; [apply Z.div_le_lower_bound; lia|]. apply Z.div_lt_upper_bound; [lia|]. unfold W32 in *. lia. }
  pose proof (count_bits_spec 32 (lines / bkts) 0 ltac:(change (2 ^ Z.of_nat 32) with W32; lia) ltac:(lia)) as Ebits.
  pose proof (Z.log2_spec (lines / bkts) ltac:(lia)) as [Hlog _]. pose proof (Z.log2_nonneg (lines / bkts)) as Hlog0.
  assert (Z.log2 (lines / bkts) < 32) as Hlog32 by (apply Z.log2_lt_pow2; [lia|exact (proj2 Hsets)]).
  split_and!; [|unfold total; cbn|done..].
  - split; cbn [buckets array heads curWayHits curMisses hf setsBits]; try done; [lia| | | |].
    + intros s Hs. unfold in_sets in Hs. cbn [setsBits] in Hs. rewrite Ebits, Z.add_0_l in Hs.
      exists (initial_nodes (Z.to_nat bkts)), (Some 0%nat). split_and!; [apply lookup_replicate; split; [done|lia]..|].
      apply initial_rep. lia.
    + by rewrite length_replicate.
    + split; [|done]. apply Forall_replicate. lia.
    + rewrite Ebits. lia.
  - by rewrite sumZ_zeros.
Qed.

(** ** The counters and the caches *)

Lemma drop_nth (l : list Z) d : (d < length l)%nat -> drop d l = nth d l 0 :: drop (Datatypes.S d) l.
Proof.
  revert d. induction l as [|x l IH]; intros d; cbn; [lia|]. destruct d as [|d]; [done|]. intros Hd. apply IH. lia.
Qed.

Lemma sumZ_drop_le d l : Forall (fun x => 0 <= x) l -> 0 <= sumZ (drop d l) <= sumZ l.
Proof.
  intros Hl. split; [by apply sumZ_nonneg, Forall_drop|].
  revert d. induction Hl as [|x l Hx Hl IH]; intros d; [by rewrite drop_nil|].
  destruct d as [|d]; [done|]. specialize (IH d). rewrite sumZ_cons. cbn [drop]. lia.
Qed.

Lemma totals_spec u S n d :
  Rep u S -> total u < W64 -> (d + n)%nat = length (curWayHits u) ->
  totals u n (Z.of_nat d) (curMisses u + sumZ (drop n (curWayHits u))) =
    ((fun j => curMisses u + sumZ (drop j (curWayHits u))) <$> reverse (seq 1 n), curMisses u + sumZ (curWayHits u)).
Proof using Type.
  intros HR Ht. revert d. pose proof (rep_nonneg _ _ HR) as [Hnn1 Hnn2]. pose proof (rep_hits _ _ HR) as Hlen.
  induction n as [|n IH]; intros d Hd; [done|]. cbn [totals].
  replace (Z.to_nat (buckets u - Z.of_nat d - 1)) with n by lia.
  pose proof (sumZ_drop_le n _ Hnn1) as Hdrop. unfold total in Ht.
  assert (u64 (curMisses u + sumZ (drop (Datatypes.S n) (curWayHits u)) + nth n (curWayHits u) 0) =
    curMisses u + sumZ (drop n (curWayHits u))) as ->.
  { rewrite (drop_nth _ n) in * by lia. rewrite sumZ_cons in *. rewrite u64_id; [lia|]. split; lia. }
  replace (Z.of_nat d + 1) with (Z.of_nat (Datatypes.S d)) by lia. rewrite (IH (Datatypes.S d)) by lia.
  rewrite seq_S, reverse_snoc. done.
Qed.

(** [getMisses] gives, for each number of ways, the misses and the hits beyond. *)
Lemma getMisses_spec u S k :
  Rep u S -> total u < W64 -> (k <= length (curWayHits u))%nat ->
  getMisses u !! k = Some (curMisses u + sumZ (drop k (curWayHits u))).
Proof using Type.
  intros HR Ht Hk. pose proof (totals_spec u S (length (curWayHits u)) 0 HR Ht ltac:(lia)) as Htot.
  rewrite drop_all in Htot. cbn [sumZ foldr] in Htot. rewrite Z.add_0_r in Htot. change (Z.of_nat 0) with 0 in Htot.
  unfold getMisses. rewrite <- (rep_hits _ _ HR), Htot.
  destruct k as [|k]; [done|]. rewrite lookup_cons_ne_0 by done. cbn [pred].
  rewrite fmap_reverse, reverse_involutive, list_lookup_fmap, lookup_seq_lt by lia. done.
Qed.

(** The caches of up to all the ways: their sets are prefixes of the lists of
    the monitor, their misses are in its counters. *)
Definition Sim u S (k : nat) (c : LRUCache) : Prop :=
  (forall s, in_sets u s -> lru_sets c s = take k (S s)) /\ lru_misses c = curMisses u + sumZ (drop k (curWayHits u)).

Lemma rep_length u S s : Rep u S -> in_sets u s -> length (S s) = length (curWayHits u).
Proof using Type.
  intros HR Hs. destruct (rep_sets _ _ HR _ Hs) as (? & ? & _ & _ & l & _ & _ & <- & Hl).
  by rewrite length_fmap, Hl, (rep_hits _ _ HR).
Qed.

Lemma sim_step u u' S s a k c :
  Rep u S -> in_sets u s -> same_setup u u' -> counted u u' (S s) a -> (k <= length (curWayHits u))%nat -> Sim u S k c ->
  Sim u' (fun s' => if decide (s' = s) then (lru_access (S s) a).1 else S s') k (lru_step c s a).
Proof using Type.
  intros HR Hs (_ & _ & _ & Es) Hc Hk [Hsets Hmiss]. pose proof (rep_length _ _ _ HR Hs) as Hlen.
  assert (S s <> []) as Hne.
  { intros E. rewrite E, (rep_hits _ _ HR) in Hlen. pose proof (rep_buckets _ _ HR). cbn in Hlen. lia. }
  unfold lru_step. rewrite Hsets, lru_access_take by (done || lia).
  split; cbn [lru_sets lru_misses].
  - intros s' Hs'. unfold in_sets in Hs'. rewrite Es in Hs'. case_decide; [done|]. by apply Hsets.
  - rewrite Hmiss. destruct Hc as [(l1 & l2 & El & Hn & -> & ->)|(Hn & -> & ->)].
    + assert (length l1 < length (curWayHits u))%nat as Hlt by (rewrite <- Hlen, El, length_app; cbn; lia).
      destruct (lookup_lt_is_Some_2 _ _ Hlt) as [x Hx]. rewrite (sumZ_drop_alter _ _ _ _ Hx). rewrite El.
      destruct (decide (k <= length l1)%nat).
      * rewrite take_app_le, bool_decide_false by (lia || by intros ?%elem_take). lia.
      * rewrite bool_decide_true; [lia|]. rewrite take_app_ge by lia.
        replace (k - length l1)%nat with (Datatypes.S (k - length l1 - 1)) by lia. cbn [take].
        apply elem_of_app. right. by left.
    + rewrite bool_decide_false by (by intros ?%elem_take). lia.
Qed.

(** ** Runs *)

Lemma total_counted u u' l a : counted u u' l a -> Forall (fun x => 0 <= x) (curWayHits u) ->
  (length l <= length (curWayHits u))%nat -> total u' = total u + 1.
Proof using Type.
  intros Hc _ Hl. unfold total. destruct Hc as [(l1 & l2 & -> & _ & -> & ->)|(_ & -> & ->)]; [|lia].
  assert (length l1 < length (curWayHits u))%nat as Hlt by (rewrite length_app in Hl; cbn in Hl; lia).
  destruct (lookup_lt_is_Some_2 _ _ Hlt) as [x Hx]. rewrite (sumZ_alter _ _ _ _ Hx). lia.
Qed.

Lemma same_setup_reference u u' c o : same_setup u u' -> reference_step u' c o = reference_step u c o.
Proof using Type. intros (_ & Eh & Ef & Es). destruct o as [a|]; [|done]. unfold reference_step, sampled, set_of. by rewrite Eh, Ef, Es. Qed.

Lemma same_setup_run u u' ops c :
  same_setup u u' -> foldl (reference_step u') c ops = foldl (reference_step u) c ops.
Proof using Type.
  intros Hs. revert c. induction ops as [|o ops IH]; intros c; [done|]. cbn [foldl].
  by rewrite (same_setup_reference u u'), IH.
Qed.

Lemma step_spec u S o :
  Rep u S -> (forall a, o = Access a -> in_u64 a) -> total u + 1 < W64 ->
  wp (umon_step o) u (fun _ u' => same_setup u u' /\ 0 <= total u' <= total u + 1 /\
    length (curWayHits u') = length (curWayHits u) /\ exists S', Rep u' S' /\
    forall k c, (k <= length (curWayHits u))%nat -> Sim u S k c -> Sim u' S' k (reference_step u c o)).
Proof using All.
  intros HR Ho Ht. pose proof (rep_nonneg _ _ HR) as [Hnn1 Hnn2]. pose proof (sumZ_nonneg _ Hnn1) as Hsum.
  destruct o as [a|]; cbn [umon_step].
  - eapply wp_mono; [by apply umon_access_spec; [|apply Ho|]|]. intros _ u' [Hset Hacc]. split; [done|].
    cbn [reference_step].
    destruct (sampled u a) as [[|]|], (set_of u a) as [s|]; try done.
    + destruct Hacc as (Hs & Hc & HR'). pose proof (rep_length _ _ _ HR Hs) as Hlen.
      rewrite (total_counted _ _ _ _ Hc) by (done || lia). rewrite (rep_hits _ _ HR'), (rep_hits _ _ HR).
      destruct Hset as (Eb & Hset). rewrite Eb. split; [unfold total; lia|]. split; [done|].
      eexists. split; [exact HR'|]. intros k c Hk HS. eapply sim_step; [done..| |done]. by rewrite (rep_hits _ _ HR).
    + subst u'. split; [unfold total; lia|]. split; [done|]. exists S. done.
  - unfold wp, modify. split; [done|].
    assert (forall l : list Z, sumZ ((fun _ => 0) <$> l) = 0) as Hz
      by (induction l as [|x l IH]; [done|change (0 + sumZ ((fun _ => 0) <$> l) = 0); lia]).
    assert (forall k (l : list Z), sumZ (drop k ((fun _ => 0) <$> l)) = 0) as Hzd.
    { intros k l. by rewrite <- fmap_drop, Hz. }
    unfold startNextInterval, set_wayHits, set_misses, total. cbn [curMisses curWayHits]. rewrite Hz.
    split; [unfold total in *; lia|]. split; [by rewrite length_fmap|]. exists S. split.
    + destruct HR as [H1 H2 H3 H4 H5 H6]. split; cbn; try done; [by rewrite length_fmap|]. split; [|done].
      apply Forall_fmap, Forall_true. done.
    + intros k c Hk [HS1 HS2]. split; cbn; [exact HS1|]. by rewrite Hzd.
Qed.

Lemma run_spec u S ops :
  Rep u S -> (forall a, Access a ∈ ops -> in_u64 a) -> total u + Z.of_nat (length ops) < W64 ->
  wp (umon_run ops) u (fun _ u' => total u' < W64 /\ length (curWayHits u') = length (curWayHits u) /\ exists S', Rep u' S' /\
    forall k c, (k <= length (curWayHits u))%nat -> Sim u S k c -> Sim u' S' k (foldl (reference_step u) c ops)).
Proof using All.
  revert u S. induction ops as [|o ops IH]; intros u S HR Ho Ht; cbn [umon_run foldl].
  - wp_step. split; [cbn in Ht; lia|]. eauto.
  - cbn [length] in Ht. wp_step. eapply wp_mono; [eapply (step_spec u S o HR); [|lia]|].
    { intros a ->. apply Ho. by left. }
    intros _ u1 (Hset & Htot & Hlen & S1 & HR1 & Hsim). eapply wp_mono; [eapply (IH u1 S1 HR1)|].
    { intros a Ha. apply Ho. by right. }
    { lia. }
    intros _ u2 (Htot2 & Hlen2 & S2 & HR2 & Hsim2). split; [done|]. split; [congruence|]. exists S2. split; [done|].
    intros k c Hk HS. rewrite Hlen in Hsim2. specialize (Hsim2 k _ Hk (Hsim k c Hk HS)).
    by rewrite (same_setup_run u u1) in Hsim2.
Qed.

(** C32: The miss curve of a monitor is exact.  After any sequence of accesses and
    interval changes, none of which fails, [getMisses] gives for every number of
    ways [k], up to the ways of the monitor, the number of misses, since the last
    interval began, of an LRU cache with [k] ways that has the monitor's sets and
    is given the lines the monitor samples. *)
Theorem miss_curve_exact bankLines lines bkts (h : H) u ops :
  0 <= bankLines < W32 -> 0 < bkts <= lines -> lines < W32 -> hash_id_ok h 0 -> hash_id_ok h 1 ->
  UMon_init bankLines lines bkts h = Ok u ->
  (forall a, Access a ∈ ops -> in_u64 a) -> Z.of_nat (length ops) < W64 ->
  exists u', umon_run ops u = Ok (tt, u') /\
    forall k, (k <= Z.to_nat bkts)%nat -> getMisses u' !! k = Some (lru_misses (reference u k ops)).
Proof using All.
  intros Hb Hk Hl H0 H1 Hinit Hops Hlen. destruct (umon_init_rep _ _ _ _ _ Hb Hk Hl H0 H1 Hinit) as (HR & Ht & Eb & Em & Eh).
  pose proof (proj1 (wp_ok _ _ _) (run_spec u _ ops HR Hops ltac:(lia))) as ([] & u' & Hrun & Ht' & Hlen' & S' & HR' & Hsim).
  exists u'. split; [done|]. intros k Hkk.
  assert (length (curWayHits u) = Z.to_nat bkts) as Hways by (by rewrite (rep_hits _ _ HR), Eb).
  rewrite (getMisses_spec _ _ _ HR' Ht') by lia. f_equal. symmetry.
  apply (Hsim k (lru_init k)); [lia|]. split; cbn.
  - intros s _. rewrite take_replicate. f_equal. lia.
  - by rewrite Em, Eh, drop_replicate, sumZ_zeros.
Qed.

End correctness.

(** A monitor of two sets of four ways, every line sampled. *)
Definition trace5 : list op := [Access 2; Access 4; Access 2; Access 6; Access 4; Access 3; Access 2].

Lemma miss_curve_exact_witness :
  exists u u', UMon_init 8 8 4 IdHash = Ok u /\ umon_run trace5 u = Ok (tt, u') /\
    getMisses u' = [7; 7; 6; 4; 4] /\ getMisses u' !! 3%nat = Some (lru_misses (reference u 3 trace5)).
Proof.
  assert (exists u, UMon_init 8 8 4 IdHash = Ok u) as [u Hu] by (eexists; vm_compute; reflexivity).
  destruct (miss_curve_exact 8 8 4 IdHash u trace5) as (u' & Hrun & Hcurve); try done; try (unfold W32; lia).
  - intros a Ha. unfold trace5 in Ha. rewrite !elem_of_cons, elem_of_nil in Ha.
    destruct Ha as [[= ->]|[[= ->]|[[= ->]|[[= ->]|[[= ->]|[[= ->]|[[= ->]|[]]]]]]]]; by split.
  - exists u, u'. split; [exact Hu|]. split; [done|]. split; [|apply Hcurve; lia].
    vm_compute in Hu. apply Ok_inj in Hu. subst u. vm_compute in Hrun. apply Ok_inj in Hrun. injection Hrun as <-. vm_compute. reflexivity.
Defined.
