(* ===== verification/Lookahead.v ===== *)
(** * Dividing a cache: the lookahead partitioner (lookahead.cpp, partitioner.h)

    The lookahead algorithm gives the buckets of a cache to partitions, a few at
    a time, to the one that gains most per bucket.  A monitor says how many
    misses a partition would have with how many buckets; it is an argument here.
    The quotients that the code compares as [double]s are compared as exact
    fractions: counts are 32-bit, and the quotients of such counts by up to 2^20
    buckets that differ, differ as [double]s too. *)

From stdpp Require Import base tactics numbers list.
From Stdlib Require Import ZArith QArith Qround Lia.
From S2P Require Import Prelude.

Open Scope Z_scope.

(** ** The algorithm *)

(** A [double]: a numerator and a positive denominator. *)
Definition fraction : Type := (Z * Z)%type.
Definition frac_lt (x y : fraction) : bool := x.1 * y.2 <? y.1 * x.2.

Section lookahead.
(** [monitor.get(part, buckets)]. *)
Context (get : Z -> Z -> Z).

(** Buckets [i], [i + 1], ..., [n] of them; the best so far. *)
Fixpoint max_utility (part partAlloc : Z) (n : nat) (i : Z) (maxMu : fraction) (maxMuAlloc : Z) : fraction * Z :=
  match n with
  | O => (maxMu, maxMuAlloc)
  | S n =>
    let extraHits := u32 (get part partAlloc - get part (partAlloc + i)) in
    let mu := (extraHits, i) in
    if frac_lt maxMu mu then max_utility part partAlloc n (i + 1) mu i
    else max_utility part partAlloc n (i + 1) maxMu maxMuAlloc
  end.
Definition getMaxMarginalUtility (part partAlloc balance : Z) : fraction * Z :=
  max_utility part partAlloc (Z.to_nat balance) 1 (-1, 1) 0.

(** [noCacheMisses - curPartMisses], of the partitions from [p] on. *)
Fixpoint total_misses (parts : list Z) (p : Z) : Z * Z :=
  match parts with
  | [] => (0, 0)
  | a :: parts => let '(none, cur) := total_misses parts (p + 1) in (u64 (get p 0 + none), u64 (get p a + cur))
  end.
Definition computePartitioningTotalUtility (parts : list Z) : Z :=
  let '(none, cur) := total_misses parts 0 in u64 (none - cur).

(** The partition with the most to gain; [forbidden] partitions get nothing. *)
Fixpoint best_partition (forbidden : Z -> bool) (balance : Z) (allocs : list Z) (i : Z)
    (maxMu : fraction) (maxMuPart : option Z) (maxMuAlloc : Z) : option Z * Z :=
  match allocs with
  | [] => (maxMuPart, maxMuAlloc)
  | a :: allocs =>
    if forbidden i then best_partition forbidden balance allocs (i + 1) maxMu maxMuPart maxMuAlloc
    else
      let '(mu, muAlloc) := getMaxMarginalUtility i a balance in
      if frac_lt maxMu mu then best_partition forbidden balance allocs (i + 1) mu (Some i) muAlloc
      else best_partition forbidden balance allocs (i + 1) maxMu maxMuPart maxMuAlloc
  end.

(** The rounds of [computeBestPartitioning], as long as there are buckets left. *)
Fixpoint allocate (forbidden : Z -> bool) (fuel : nat) (balance : Z) (allocs : list Z) : result (list Z) :=
  if 0 <? balance then
    match fuel with
    | O => Err NoFuel
    | S fuel =>
      let '(part, n) := best_partition forbidden balance allocs 0 (-1, 1) None 0 in
      match part with
      | None => Err AssertFail
      | Some p => allocate forbidden fuel (u32 (balance - n)) (alter (fun a => u32 (a + n)) (Z.to_nat p) allocs)
      end
    end
  else Ok allocs.

Definition computeBestPartitioning (numPartitions : nat) (buckets minAlloc : Z) (forbidden : Z -> bool) : result (list Z) :=
  let balance := u32 (buckets - minAlloc) in
  allocate forbidden (Z.to_nat balance) balance (replicate numPartitions minAlloc).

End lookahead.

(** ** The partitioner *)

(** [LookaheadPartitioner]: the fields of the object and its base class. *)
Record LookaheadPartitioner : Type := mkPartitioner {
  minAlloc : Z;
  allocPortion : Q;
  forbidden : Z -> bool;
  numPartitions : nat;
  buckets : Z;
  curAllocs : list Z
}.

(** The constructor; [curAllocs] has [buckets + 1] entries. *)
Definition LookaheadPartitioner_init (n : nat) (bkts minA : Z) (portion : Q) (forb : Z -> bool) : result LookaheadPartitioner :=
  if 0 <? bkts then Ok (mkPartitioner minA portion forb n bkts (replicate (Z.to_nat (bkts + 1)) 0)) else Err AssertFail.

(** [LookaheadPartitioner::partition]: the new allocation is always taken; it is
    given to the replacement policy ([setPartitionSizes]), and the monitor is
    reset.  The copy is undefined if [curAllocs] is too short. *)
Definition partition (get : Z -> Z -> Z) (setPartitionSizes : list Z -> result unit) (p : LookaheadPartitioner) :
    result LookaheadPartitioner :=
  match computeBestPartitioning get (numPartitions p) (u32 (Qfloor (allocPortion p * inject_Z (buckets p))))
          (u32 (minAlloc p * Z.of_nat (numPartitions p))) (forbidden p) with
  | Err f => Err f
  | Ok best =>
    let newUtility := computePartitioningTotalUtility get best in
    let curUtility := computePartitioningTotalUtility get (take (numPartitions p) (curAllocs p)) in
    let better := u64 (102 * curUtility) / 100 <? newUtility in
    let switchAllocs := if curUtility =? 0 then true else better in
    let switchAllocs := true in
    if decide (length (curAllocs p) < numPartitions p)%nat then Err Panicked
    else
      let allocs := if switchAllocs : bool then best ++ drop (numPartitions p) (curAllocs p) else curAllocs p in
      match setPartitionSizes allocs with
      | Err f => Err f
      | Ok _ => Ok (mkPartitioner (minAlloc p) (allocPortion p) (forbidden p) (numPartitions p) (buckets p) allocs)
      end
  end.

(** ** Fractions *)

Definition frac_le (x y : fraction) : Prop := x.1 * y.2 <= y.1 * x.2.

Lemma frac_lt_iff x y : frac_lt x y = true <-> ~ frac_le y x.
Proof. unfold frac_lt, frac_le. rewrite Z.ltb_lt. lia. Qed.

Lemma frac_lt_false x y : frac_lt x y = false <-> frac_le y x.
Proof. unfold frac_lt, frac_le. rewrite Z.ltb_ge. lia. Qed.

Lemma frac_le_refl x : frac_le x x.
Proof. unfold frac_le. lia. Qed.

Lemma frac_le_trans x y z : 0 < x.2 -> 0 < y.2 -> 0 < z.2 -> frac_le x y -> frac_le y z -> frac_le x z.
Proof.
  unfold frac_le. intros Hx Hy Hz H1 H2. apply (Z.mul_le_mono_pos_r _ _ y.2 Hy).
  assert (x.1 * y.2 * z.2 <= y.1 * x.2 * z.2) by (apply Z.mul_le_mono_nonneg_r; lia).
  assert (y.1 * z.2 * x.2 <= z.1 * y.2 * x.2) by (apply Z.mul_le_mono_nonneg_r; lia). lia.
Qed.

Lemma frac_lt_le x y : frac_lt x y = true -> frac_le x y.
Proof. rewrite frac_lt_iff. unfold frac_le. lia. Qed.

Lemma frac_lt_trans_l x y z : 0 < x.2 -> 0 < y.2 -> 0 < z.2 -> frac_le x y -> frac_lt y z = true -> frac_lt x z = true.
Proof. rewrite !frac_lt_iff. intros Hx Hy Hz H1 H2 H3. apply H2. eapply (frac_le_trans z x y); done. Qed.

(** ** What a partition can gain *)

Section gains.
Context (get : Z -> Z -> Z).

Definition mu_at (part a i : Z) : fraction := (u32 (get part a - get part (a + i)), i).

Lemma max_utility_spec part a n i mx al :
  0 < i -> 0 < mx.2 ->
  let r := max_utility get part a n i mx al in
  0 < r.1.2 /\ frac_le mx r.1 /\ (forall j, i <= j < i + Z.of_nat n -> frac_le (mu_at part a j) r.1) /\
  (r = (mx, al) \/ exists j, i <= j < i + Z.of_nat n /\ r = (mu_at part a j, j) /\ frac_lt mx (mu_at part a j) = true /\
     forall j', i <= j' < j -> frac_lt (mu_at part a j') (mu_at part a j) = true).
Proof.
  revert i mx al. induction n as [|n IH]; intros i mx al Hi Hmx; cbn [max_utility]; cbv zeta.
  { split_and!; [done|apply frac_le_refl|lia|by left]. }
  fold (mu_at part a i). destruct (frac_lt mx (mu_at part a i)) eqn:E.
  - destruct (IH (i + 1) (mu_at part a i) i ltac:(lia) ltac:(cbn; lia)) as (H1 & H2 & H3 & H4).
    split_and!; [done| | |].
    + eapply (frac_le_trans _ (mu_at part a i)); [done|cbn; lia|done|by apply frac_lt_le|done].
    + intros j Hj. destruct (decide (j = i)) as [->|]; [done|]. apply H3. lia.
    + right. destruct H4 as [->|(j & Hj & -> & Hlt & Hsm)].
      * exists i. split_and!; [lia|lia|done|done|]. intros j' Hj'. lia.
      * exists j. split_and!; [lia|lia|done| |].
        -- eapply (frac_lt_trans_l mx (mu_at part a i)); [done|cbn; lia|cbn; lia|by apply frac_lt_le|done].
        -- intros j' Hj'. destruct (decide (j' = i)) as [->|]; [done|]. apply Hsm. lia.
  - apply frac_lt_false in E. destruct (IH (i + 1) mx al ltac:(lia) Hmx) as (H1 & H2 & H3 & H4).
    split_and!; [done|done| |].
    + intros j Hj. destruct (decide (j = i)) as [->|]; [|apply H3; lia].
      eapply (frac_le_trans _ mx); [cbn; lia|done..].
    + destruct H4 as [->|(j & Hj & -> & Hlt & Hsm)]; [by left|]. right. exists j. split_and!; [lia|lia|done|done|].
      intros j' Hj'. destruct (decide (j' = i)) as [->|]; [|apply Hsm; lia].
      eapply (frac_lt_trans_l _ mx); [cbn; lia|done|cbn; lia|done|done].
Qed.

(** The gain of a partition is that of the fewest buckets with the best quotient. *)
Lemma getMaxMarginalUtility_spec part a balance :
  0 < balance ->
  exists j, 1 <= j <= balance /\ getMaxMarginalUtility get part a balance = (mu_at part a j, j) /\
    (forall j', 1 <= j' <= balance -> frac_le (mu_at part a j') (mu_at part a j)) /\
    (forall j', 1 <= j' < j -> frac_lt (mu_at part a j') (mu_at part a j) = true).
Proof.
  intros Hb. unfold getMaxMarginalUtility.
  destruct (max_utility_spec part a (Z.to_nat balance) 1 (-1, 1) 0 ltac:(lia) ltac:(cbn; lia)) as (H1 & H2 & H3 & H4).
  destruct H4 as [E|(j & Hj & E & Hlt & Hsm)].
  - exfalso. rewrite E in H3. specialize (H3 1 ltac:(lia)). unfold frac_le, mu_at in H3. cbn in H3.
    pose proof (u32_range (get part a - get part (a + 1))) as [? _]. lia.
  - exists j. rewrite E in *. cbn [fst] in *. split_and!; [lia|lia|done| |done]. intros j' Hj'. apply H3. lia.
Qed.

Definition gain (balance p a : Z) : fraction := (getMaxMarginalUtility get p a balance).1.

Lemma gain_pos balance p a : 0 < balance -> 0 < (gain balance p a).2 /\ frac_lt (-1, 1) (gain balance p a) = true.
Proof.
  intros Hb. unfold gain. destruct (getMaxMarginalUtility_spec p a balance Hb) as (j & Hj & -> & _).
  cbn. split; [lia|]. apply Z.ltb_lt. cbn. pose proof (u32_range (get p a - get p (a + j))) as [? _]. lia.
Qed.

Lemma best_partition_spec forb balance allocs i mx part al :
  0 < balance -> 0 < mx.2 ->
  let r := best_partition get forb balance allocs i mx part al in
  (r = (part, al) /\ forall q a, allocs !! q = Some a -> forb (i + Z.of_nat q) = false -> frac_le (gain balance (i + Z.of_nat q) a) mx) \/
  (exists p a, allocs !! p = Some a /\ forb (i + Z.of_nat p) = false /\
     r = (Some (i + Z.of_nat p), (getMaxMarginalUtility get (i + Z.of_nat p) a balance).2) /\
     frac_lt mx (gain balance (i + Z.of_nat p) a) = true /\
     forall q b, allocs !! q = Some b -> forb (i + Z.of_nat q) = false ->
       frac_le (gain balance (i + Z.of_nat q) b) (gain balance (i + Z.of_nat p) a)).
Proof.
  intros Hb. revert i mx part al. induction allocs as [|a allocs IH]; intros i mx part al Hmx; cbn [best_partition]; cbv zeta.
  { left. split; [done|]. intros q a Hq. by rewrite lookup_nil in Hq. }
  assert (forall q, i + Z.of_nat (S q) = i + 1 + Z.of_nat q) as Eq by lia.
  destruct (forb i) eqn:Ef.
  - destruct (IH (i + 1) mx part al Hmx) as [[E H]|(p & a' & H1 & H2 & E & H3 & H4)].
    + left. split; [done|]. intros [|q] b Hq Hf; [rewrite Z.add_0_r in Hf; congruence|]. rewrite Eq in *. by apply H.
    + right. exists (S p), a'. rewrite Eq. split_and!; [done..|].
      intros [|q] b Hq Hf; [rewrite Z.add_0_r in Hf; congruence|]. rewrite Eq in *. by apply H4.
  - destruct (gain_pos balance i a Hb) as [Hpos _].
    destruct (getMaxMarginalUtility get i a balance) as [mu n] eqn:Eg. assert (gain balance i a = mu) as Emu by (unfold gain; by rewrite Eg).
    rewrite Emu in Hpos. destruct (frac_lt mx mu) eqn:E.
    + right. destruct (IH (i + 1) mu (Some i) n Hpos) as [[E1 H]|(p & a' & H1 & H2 & E1 & H3 & H4)].
      * exists 0%nat, a. cbn [Z.of_nat]. rewrite Z.add_0_r, Eg, Emu. split_and!; [done..|].
        intros [|q] b Hq Hf; [cbn in Hq; injection Hq as <-; rewrite Z.add_0_r, Emu; apply frac_le_refl|].
        rewrite Eq in *. by apply H.
      * exists (S p), a'. rewrite Eq. destruct (gain_pos balance (i + 1 + Z.of_nat p) a' Hb) as [Hpos' _]. split_and!; [done..| |].
        { eapply (frac_lt_trans_l mx mu); [done..| |done]. by apply frac_lt_le. }
        intros [|q] b Hq Hf; [cbn in Hq; injection Hq as <-; rewrite Z.add_0_r, Emu; by apply frac_lt_le|].
        rewrite Eq in *. by apply H4.
    + apply frac_lt_false in E. destruct (IH (i + 1) mx part al Hmx) as [[E1 H]|(p & a' & H1 & H2 & E1 & H3 & H4)].
      * left. split; [done|]. intros [|q] b Hq Hf; [cbn in Hq; injection Hq as <-; by rewrite Z.add_0_r, Emu|].
        rewrite Eq in *. by apply H.
      * right. exists (S p), a'. rewrite Eq. destruct (gain_pos balance (i + 1 + Z.of_nat p) a' Hb) as [Hpos' _]. split_and!; [done..|].
        intros [|q] b Hq Hf; [cbn in Hq; injection Hq as <-; rewrite Z.add_0_r, Emu|rewrite Eq in *; by apply H4].
        eapply (frac_le_trans _ mx); [done..|by apply frac_lt_le].
Qed.
End gains.

(** ** The allocation *)

Section allocation.
Context (get : Z -> Z -> Z) (forb : Z -> bool) (low : Z).

(** The allocation so far: at least [low] each, [low] for the forbidden ones;
    no partition can come to more than a 32-bit number. *)
Record Allocated (balance : Z) (allocs : list Z) : Prop := {
  alloc_balance : 0 <= balance < W32;
  alloc_low p a : allocs !! p = Some a -> low <= a /\ a + balance < W32;
  alloc_forb p a : allocs !! p = Some a -> forb (Z.of_nat p) = true -> a = low
}.

(** One round: the partition with the best gain takes the buckets of that gain. *)
Lemma round_spec balance allocs :
  0 <= low -> 0 < balance -> Allocated balance allocs ->
  (exists p a, allocs !! p = Some a /\ forb (Z.of_nat p) = false) ->
  exists p a n, best_partition get forb balance allocs 0 (-1, 1) None 0 = (Some (Z.of_nat p), n) /\
    allocs !! p = Some a /\ forb (Z.of_nat p) = false /\ 1 <= n <= balance /\
    getMaxMarginalUtility get (Z.of_nat p) a balance = (mu_at get (Z.of_nat p) a n, n) /\
    (forall q b, allocs !! q = Some b -> forb (Z.of_nat q) = false ->
       frac_le (gain get balance (Z.of_nat q) b) (mu_at get (Z.of_nat p) a n)) /\
    u32 (balance - n) = balance - n /\
    Allocated (balance - n) (alter (fun x => u32 (x + n)) p allocs) /\
    sumZ (alter (fun x => u32 (x + n)) p allocs) = sumZ allocs + n /\
    (alter (fun x => u32 (x + n)) p allocs) !! p = Some (a + n).
Proof using Type.
  intros Hlow Hb HA (q & b & Hq & Hqf).
  destruct (best_partition_spec get forb balance allocs 0 (-1, 1) None 0 Hb ltac:(cbn; lia)) as [[_ Hno]|(p & a & Hp & Hpf & E & _ & Hbest)].
  { exfalso. specialize (Hno q b Hq Hqf). destruct (gain_pos get balance (0 + Z.of_nat q) b Hb) as [_ Hlt].
    apply frac_lt_iff in Hlt. by apply Hlt. }
  rewrite !Z.add_0_l in *. destruct (getMaxMarginalUtility_spec get (Z.of_nat p) a balance Hb) as (n & Hn & Eg & _).
  rewrite Eg in E. cbn [snd] in E. pose proof HA as [Hbal Hal Hfo]. destruct (Hal _ _ Hp) as [Ha1 Ha2].
  assert (u32 (a + n) = a + n) as Eu by (apply u32_id; split; lia).
  assert (forall p' x, alter (fun x => u32 (x + n)) p allocs !! p' = Some x ->
    (p' = p /\ x = a + n) \/ (p' <> p /\ allocs !! p' = Some x)) as Halter.
  { intros p' x Hx. destruct (decide (p' = p)) as [->|Hne].
    - rewrite list_lookup_alter_eq, Hp in Hx. cbn in Hx. injection Hx as <-. auto.
    - rewrite list_lookup_alter_ne in Hx by done. auto. }
  exists p, a, n. split_and!; try done; try lia.
  - intros q' b' Hq' Hf'. pose proof (Hbest q' b' Hq' Hf') as Hle. unfold gain in Hle at 2. rewrite Eg in Hle. exact Hle.
  - apply u32_id. split; lia.
  - split; [lia| |].
    + intros p' x [[-> ->]|[_ Hx]]%Halter; [lia|]. specialize (Hal _ _ Hx). lia.
    + intros p' x [[-> ->]|[_ Hx]]%Halter Hf; [congruence|]. by eapply Hfo.
  - rewrite (sumZ_alter _ _ _ _ Hp), Eu. lia.
  - by rewrite list_lookup_alter_eq, Hp; cbn; rewrite Eu.
Qed.

(** An invariant of the rounds that each of them keeps. *)
Lemma allocate_spec (Inv : list Z -> Prop) fuel balance allocs :
  0 <= low -> Allocated balance allocs -> (Z.to_nat balance <= fuel)%nat ->
  (exists p, (p < length allocs)%nat /\ forb (Z.of_nat p) = false) -> Inv allocs ->
  (forall balance allocs p a n, 0 < balance -> Allocated balance allocs -> Inv allocs -> allocs !! p = Some a ->
     forb (Z.of_nat p) = false -> 1 <= n <= balance ->
     getMaxMarginalUtility get (Z.of_nat p) a balance = (mu_at get (Z.of_nat p) a n, n) ->
     (forall q b, allocs !! q = Some b -> forb (Z.of_nat q) = false ->
       frac_le (gain get balance (Z.of_nat q) b) (mu_at get (Z.of_nat p) a n)) ->
     Inv (alter (fun x => u32 (x + n)) p allocs)) ->
  exists allocs', allocate get forb fuel balance allocs = Ok allocs' /\ length allocs' = length allocs /\
    sumZ allocs' = sumZ allocs + balance /\ Allocated 0 allocs' /\ Inv allocs'.
Proof using Type.
  intros Hlow HA Hf Hfree HI Hstep. revert balance allocs HA Hf Hfree HI. induction fuel as [|fuel IH]; intros balance allocs HA Hf Hfree HI.
  - assert (balance = 0) as -> by (pose proof (alloc_balance _ _ HA); lia). exists allocs. cbn. rewrite Z.add_0_r. done.
  - cbn [allocate]. destruct (Z.ltb_spec 0 balance) as [Hb|Hb].
    + assert (exists p a, allocs !! p = Some a /\ forb (Z.of_nat p) = false) as Hex.
      { destruct Hfree as (p & Hp & Hpf). destruct (lookup_lt_is_Some_2 _ _ Hp) as [a Ha]. eauto. }
      destruct (round_spec balance allocs Hlow Hb HA Hex) as (p & a & n & -> & Hp & Hpf & Hn & Eg & Hbest & -> & HA' & Hsum & _).
      rewrite Nat2Z.id. destruct (IH (balance - n) _ HA') as (allocs' & -> & Hlen & Hs & HAf & HIf).
      * lia.
      * by rewrite length_alter.
      * eapply Hstep; eauto.
      * exists allocs'. rewrite length_alter in Hlen. split_and!; try done. lia.
    + assert (balance = 0) as -> by (pose proof (alloc_balance _ _ HA); lia). exists allocs. rewrite Z.add_0_r. done.
Qed.

Lemma initial_allocated n buckets : 0 <= low <= buckets -> buckets < W32 -> Allocated (buckets - low) (replicate n low).
Proof using Type.
  intros Hl Hb. split; [lia| |].
  - intros p a [-> _]%lookup_replicate. lia.
  - by intros p a [-> _]%lookup_replicate _.
Qed.
End allocation.

(** The lookahead algorithm ends, whatever the monitor says, as long as one
    partition is not forbidden and the floor is within the buckets.  Every
    partition gets at least the floor, a forbidden one just that; together they
    get the floor each and, on top, all the buckets but one floor. *)
Theorem partitioning_total (get : Z -> Z -> Z) (n : nat) (buckets minAlloc : Z) (forb : Z -> bool) :
  0 <= minAlloc <= buckets -> buckets < W32 ->
  (exists p, (p < n)%nat /\ forb (Z.of_nat p) = false) ->
  exists allocs, computeBestPartitioning get n buckets minAlloc forb = Ok allocs /\ length allocs = n /\
    sumZ allocs = Z.of_nat n * minAlloc + (buckets - minAlloc) /\
    forall p a, allocs !! p = Some a -> minAlloc <= a /\ (forb (Z.of_nat p) = true -> a = minAlloc).
Proof.
  intros Hmin Hb Hfree. unfold computeBestPartitioning. rewrite u32_id by (split; lia). cbv zeta.
  destruct (allocate_spec get forb minAlloc (fun _ => True) (Z.to_nat (buckets - minAlloc)) (buckets - minAlloc)
    (replicate n minAlloc)) as (allocs & -> & Hlen & Hs & HA & _); [lia|by apply initial_allocated|done|by rewrite length_replicate|done..|].
  exists allocs. rewrite length_replicate in Hlen. rewrite sumZ_replicate in Hs. split_and!; [done..|].
  intros p a Hp. split; [apply (alloc_low _ _ _ _ HA _ _ Hp)|]. by eapply alloc_forb.
Qed.

Lemma partitioning_total_witness :
  computeBestPartitioning (fun p b => (10 + p) * (8 - b)) 3 8 1 (fun p => p =? 1) = Ok [1; 1; 8] /\
  exists allocs, computeBestPartitioning (fun p b => (10 + p) * (8 - b)) 3 8 1 (fun p => p =? 1) = Ok allocs /\ sumZ allocs = 10.
Proof.
  destruct (partitioning_total (fun p b => (10 + p) * (8 - b)) 3 8 1 (fun p => p =? 1)) as (allocs & H & _ & Hs & _);
    [lia|unfold W32; lia|exists 0%nat; split; [lia|done]|].
  split; [vm_compute; reflexivity|]. exists allocs. by rewrite Hs.
Defined.

(** ** Diminishing returns *)

(** The misses of an allocation, of the partitions from [p] on. *)
Fixpoint misses (get : Z -> Z -> Z) (p : Z) (allocs : list Z) : Z :=
  match allocs with [] => 0 | a :: allocs => get p a + misses get (p + 1) allocs end.

Section optimal.
Context (get : Z -> Z -> Z) (forb : Z -> bool) (low : Z).

(** More buckets never hurt, and each saves at most as much as the one before. *)
Definition saves (p a : Z) : Z := get p a - get p (a + 1).
Definition diminishing : Prop :=
  forall p a, 0 <= a -> in_u32 (get p a) /\ 0 <= saves p a /\ saves p (a + 1) <= saves p a.

Hypothesis Hdim : diminishing.

Lemma saves_mono p a n : 0 <= a -> saves p (a + Z.of_nat n) <= saves p a.
Proof using Hdim.
  intros Ha. induction n as [|n IH]; [rewrite Z.add_0_r; lia|].
  destruct (Hdim p (a + Z.of_nat n) ltac:(lia)) as (_ & _ & H). replace (a + Z.of_nat (S n)) with (a + Z.of_nat n + 1) by lia. lia.
Qed.

Lemma saves_upper p a n : 0 <= a -> get p a - get p (a + Z.of_nat n) <= Z.of_nat n * saves p a.
Proof using Hdim.
  intros Ha. induction n as [|n IH]; [rewrite Z.add_0_r; lia|].
  pose proof (saves_mono p a n Ha) as H. unfold saves at 1 in H. replace (a + Z.of_nat (S n)) with (a + Z.of_nat n + 1) by lia. lia.
Qed.

Lemma saves_lower p a n : 0 <= a -> Z.of_nat n * saves p (a + Z.of_nat n - 1) <= get p a - get p (a + Z.of_nat n).
Proof using Hdim.
  intros Ha. induction n as [|n IH]; [rewrite Z.add_0_r; lia|].
  replace (a + Z.of_nat (S n) - 1) with (a + Z.of_nat n) by lia.
  assert (get p (a + Z.of_nat (S n)) = get p (a + Z.of_nat n) - saves p (a + Z.of_nat n)) as ->.
  { unfold saves. replace (a + Z.of_nat (S n)) with (a + Z.of_nat n + 1) by lia. lia. }
  destruct n as [|n]; [lia|]. destruct (Hdim p (a + Z.of_nat (S n) - 1) ltac:(lia)) as (_ & _ & H).
  replace (a + Z.of_nat (S n) - 1 + 1) with (a + Z.of_nat (S n)) in H by lia.
  assert (Z.of_nat (S n) * saves p (a + Z.of_nat (S n)) <= Z.of_nat (S n) * saves p (a + Z.of_nat (S n) - 1))
    by (apply Z.mul_le_mono_nonneg_l; lia). lia.
Qed.

Lemma misses_decrease p a n : 0 <= a -> get p (a + Z.of_nat n) <= get p a.
Proof using Hdim.
  intros Ha. induction n as [|n IH]; [rewrite Z.add_0_r; lia|].
  destruct (Hdim p (a + Z.of_nat n) ltac:(lia)) as (_ & H & _). unfold saves in H.
  replace (a + Z.of_nat (S n)) with (a + Z.of_nat n + 1) by lia. lia.
Qed.

Lemma mu_exact p a j : 0 <= a -> 1 <= j -> mu_at get p a j = (get p a - get p (a + j), j).
Proof using Hdim.
  intros Ha Hj. unfold mu_at. f_equal. apply u32_id.
  pose proof (misses_decrease p a (Z.to_nat j) Ha) as H. rewrite Z2Nat.id in H by lia.
  destruct (Hdim p a Ha) as ([_ H1] & _). destruct (Hdim p (a + j) ltac:(lia)) as ([H2 _] & _). split; lia.
Qed.

(** So the best gain is that of a single bucket. *)
Lemma one_bucket p a balance n :
  0 <= a -> 0 < balance -> getMaxMarginalUtility get p a balance = (mu_at get p a n, n) -> n = 1.
Proof using Hdim.
  intros Ha Hb Eg. destruct (getMaxMarginalUtility_spec get p a balance Hb) as (j & Hj & Eg' & _ & Hsm).
  assert (j = n) as -> by congruence. destruct (decide (n = 1)) as [|Hne]; [done|]. exfalso.
  specialize (Hsm 1 ltac:(lia)). apply frac_lt_iff in Hsm. apply Hsm. rewrite !mu_exact by lia.
  unfold frac_le. cbn [fst snd]. pose proof (saves_upper p a (Z.to_nat n) Ha) as H. unfold saves in H.
  rewrite Z2Nat.id in H by lia. lia.
Qed.

(** A price [lam]: no further bucket would save more than it, no bucket above
    the floor saved less. *)
Definition priced (allocs : list Z) : Prop :=
  exists lam, forall p a, allocs !! p = Some a -> forb (Z.of_nat p) = false ->
    saves (Z.of_nat p) a <= lam /\ (low < a -> lam <= saves (Z.of_nat p) (a - 1)).

Lemma priced_step balance allocs p a n :
  0 <= low -> 0 < balance -> Allocated forb low balance allocs -> priced allocs -> allocs !! p = Some a ->
  forb (Z.of_nat p) = false -> 1 <= n <= balance ->
  getMaxMarginalUtility get (Z.of_nat p) a balance = (mu_at get (Z.of_nat p) a n, n) ->
  (forall q b, allocs !! q = Some b -> forb (Z.of_nat q) = false -> frac_le (gain get balance (Z.of_nat q) b) (mu_at get (Z.of_nat p) a n)) ->
  priced (alter (fun x => u32 (x + n)) p allocs).
Proof using Hdim.
  intros Hlow Hb HA [lam Hlam] Hp Hpf Hn Eg Hbest.
  assert (forall q b, allocs !! q = Some b -> 0 <= b) as Hpos by (intros q b Hq; pose proof (alloc_low _ _ _ _ HA _ _ Hq); lia).
  assert (n = 1) as -> by (apply (one_bucket _ _ _ _ (Hpos _ _ Hp) Hb Eg)).
  assert (forall q b, allocs !! q = Some b -> forb (Z.of_nat q) = false -> saves (Z.of_nat q) b <= saves (Z.of_nat p) a) as Hmax.
  { intros q b Hq Hqf. specialize (Hbest q b Hq Hqf).
    destruct (getMaxMarginalUtility_spec get (Z.of_nat q) b balance Hb) as (j & _ & Ej & _).
    assert (j = 1) as -> by (apply (one_bucket _ _ _ _ (Hpos _ _ Hq) Hb Ej)). unfold gain in Hbest. rewrite Ej in Hbest. cbn [fst] in Hbest.
    rewrite !mu_exact in Hbest by (eauto || lia). unfold frac_le in Hbest. cbn [fst snd] in Hbest. unfold saves. lia. }
  destruct (alloc_low _ _ _ _ HA _ _ Hp) as [Hal Hab]. exists (saves (Z.of_nat p) a). intros q b Hq Hqf.
  destruct (decide (q = p)) as [->|Hne].
  - rewrite list_lookup_alter_eq, Hp in Hq. cbn in Hq. injection Hq as <-. rewrite u32_id by (split; lia).
    destruct (Hdim (Z.of_nat p) a ltac:(lia)) as (_ & _ & H). split; [done|]. intros _. replace (a + 1 - 1) with a by lia. done.
  - rewrite list_lookup_alter_ne in Hq by done. split; [by apply Hmax|]. intros Hlb.
    destruct (Hlam q b Hq Hqf) as [_ H]. specialize (H Hlb). destruct (Hlam p a Hp Hpf) as [H' _]. lia.
Qed.

(** At one price, no other division of the same buckets saves more. *)
Lemma priced_bound lam p allocs others :
  0 <= low -> length others = length allocs ->
  (forall i a b, allocs !! i = Some a -> others !! i = Some b ->
     low <= a /\ low <= b /\ (a = b \/ (saves (p + Z.of_nat i) a <= lam /\ (low < a -> lam <= saves (p + Z.of_nat i) (a - 1))))) ->
  lam * (sumZ allocs - sumZ others) <= misses get p others - misses get p allocs.
Proof using Hdim.
  intros Hlow. revert p others. induction allocs as [|a allocs IH]; intros p [|b others] Hlen Hall; try done.
  { cbn. lia. }
  assert (lam * (sumZ allocs - sumZ others) <= misses get (p + 1) others - misses get (p + 1) allocs) as Hrest.
  { apply IH; [cbn in Hlen; lia|]. intros i x y Hx Hy. replace (p + 1 + Z.of_nat i) with (p + Z.of_nat (S i)) by lia. by apply (Hall (S i)). }
  destruct (Hall 0%nat a b eq_refl eq_refl) as (Ha & Hb & Hprice). cbn [Z.of_nat] in Hprice. rewrite Z.add_0_r in Hprice.
  assert (lam * (a - b) <= get p b - get p a) as Hhead; [|rewrite !sumZ_cons; cbn [misses]; lia].
  destruct Hprice as [->|[H1 H2]]; [lia|]. destruct (decide (a <= b)) as [Hle|Hgt].
  - pose proof (saves_upper p a (Z.to_nat (b - a)) ltac:(lia)) as H. rewrite Z2Nat.id in H by lia.
    replace (a + (b - a)) with b in H by lia.
    assert ((b - a) * saves p a <= (b - a) * lam) by (apply Z.mul_le_mono_nonneg_l; lia). lia.
  - specialize (H2 ltac:(lia)). pose proof (saves_lower p b (Z.to_nat (a - b)) ltac:(lia)) as H. rewrite Z2Nat.id in H by lia.
    replace (b + (a - b)) with a in H by lia.
    assert ((a - b) * lam <= (a - b) * saves p (a - 1)) by (apply Z.mul_le_mono_nonneg_l; lia). lia.
Qed.
End optimal.

(** C33: If the monitored miss curves have diminishing returns, the allocation that
    the lookahead algorithm computes is the best one: no other way to give the
    partitions the same number of buckets, with at least the floor for each and
    no more than the floor for the forbidden ones, has fewer misses. *)
Theorem partitioning_optimal (get : Z -> Z -> Z) (n : nat) (buckets minAlloc : Z) (forb : Z -> bool) (others : list Z) :
  diminishing get -> 0 <= minAlloc <= buckets -> buckets < W32 ->
  (exists p, (p < n)%nat /\ forb (Z.of_nat p) = false) ->
  length others = n -> sumZ others = Z.of_nat n * minAlloc + (buckets - minAlloc) ->
  (forall p a, others !! p = Some a -> minAlloc <= a /\ (forb (Z.of_nat p) = true -> a = minAlloc)) ->
  exists allocs, computeBestPartitioning get n buckets minAlloc forb = Ok allocs /\ misses get 0 allocs <= misses get 0 others.
Proof.
  intros Hdim Hmin Hb Hfree Hlen Hsum Hothers. unfold computeBestPartitioning. rewrite u32_id by (split; lia). cbv zeta.
  destruct (allocate_spec get forb minAlloc (priced get forb minAlloc) (Z.to_nat (buckets - minAlloc)) (buckets - minAlloc)
    (replicate n minAlloc)) as (allocs & -> & Hlen' & Hs & HA & lam & Hlam).
  - lia.
  - by apply initial_allocated.
  - done.
  - by rewrite length_replicate.
  - exists W32. intros p a [-> _]%lookup_replicate _. split; [|lia].
    destruct (Hdim (Z.of_nat p) minAlloc ltac:(lia)) as ([_ H1] & _). destruct (Hdim (Z.of_nat p) (minAlloc + 1) ltac:(lia)) as ([H2 _] & _).
    unfold saves. lia.
  - intros. eapply priced_step; eauto; lia.
  - exists allocs. split; [done|]. rewrite length_replicate in Hlen'. rewrite sumZ_replicate in Hs.
    assert (lam * (sumZ allocs - sumZ others) <= misses get 0 others - misses get 0 allocs) as H; [|nia].
    apply (priced_bound get minAlloc Hdim); [lia|congruence|]. intros i a b Ha Hob. rewrite Z.add_0_l.
    destruct (alloc_low _ _ _ _ HA _ _ Ha) as [Hla _]. destruct (Hothers _ _ Hob) as [Hlb Hfb].
    split_and!; [done..|]. destruct (forb (Z.of_nat i)) eqn:Ef; [left|right; by apply Hlam].
    rewrite (alloc_forb _ _ _ _ HA _ _ Ha Ef). symmetry. by apply Hfb.
Qed.

(** Partitions whose misses fall by less and less with each bucket. *)
Definition curve (p b : Z) : Z := (if p =? 0 then 1 else 2) * (if b <? 8 then (8 - b) * (9 - b) / 2 else 0).

Lemma curve_diminishing : diminishing curve.
Proof.
  intros p b Hb. unfold saves, in_u32, curve. destruct (decide (b < 8)) as [Hlt|Hge].
  - assert (b = 0 \/ b = 1 \/ b = 2 \/ b = 3 \/ b = 4 \/ b = 5 \/ b = 6 \/ b = 7) as Hb' by lia.
    destruct (p =? 0); repeat (destruct Hb' as [->|Hb']); subst; vm_compute; repeat split; discriminate.
  - rewrite !(proj2 (Z.ltb_ge _ 8)) by lia. rewrite !Z.mul_0_r. unfold W32. lia.
Qed.

Lemma partitioning_optimal_witness :
  computeBestPartitioning curve 2 8 1 (fun _ => false) = Ok [3; 6] /\
  exists allocs, computeBestPartitioning curve 2 8 1 (fun _ => false) = Ok allocs /\ misses curve 0 allocs <= misses curve 0 [2; 7].
Proof.
  split; [vm_compute; reflexivity|].
  apply (partitioning_optimal curve 2 8 1 (fun _ => false) [2; 7]); [apply curve_diminishing|lia|unfold W32; lia| |done|done|].
  - exists 0%nat. split; [lia|done].
  - intros p a Hp. split; [|done]. destruct p as [|[|p]]; cbn in Hp; [injection Hp as <-; lia..|done].
Defined.
