(* ===== verification/WayPart.v ===== *)
(** * Way partitioning (part_repl_policies.h, partition_mapper.h/.cpp)

    The mappers say to which partition a request belongs; the way-partitioning
    policy gives each partition some ways of the cache, evicts from the ways of
    the partition that asks, and counts the lines of each partition. *)

From stdpp Require Import base tactics numbers list.
From Stdlib Require Import ZArith QArith Qround Lia.
From S2P Require Import Prelude MemTypes Lookahead.

Open Scope Z_scope.

(** ** Partition mappers *)

(** The mappers of partition_mapper.h that read the request; [procIdx] is the
    index of the calling process. *)
Inductive PartMapper : Type :=
  | CorePartMapper (numCores : Z)
  | InstrDataPartMapper
  | InstrDataCorePartMapper (numCores : Z)
  | ProcessPartMapper (numProcs : Z)
  | InstrDataProcessPartMapper (numProcs : Z).

Definition getNumPartitions (m : PartMapper) : Z :=
  match m with
  | CorePartMapper n => n
  | InstrDataPartMapper => 2
  | InstrDataCorePartMapper n => u32 (2 * n)
  | ProcessPartMapper n => n
  | InstrDataProcessPartMapper n => u32 (2 * n)
  end.

Definition getPartition (m : PartMapper) (procIdx : Z) (req : MemReq) : result Z :=
  match m with
  | CorePartMapper _ => Ok (srcId req)
  | InstrDataPartMapper => Ok (Z.land (flags req) IFETCH)
  | InstrDataCorePartMapper n =>
    let instr := has_flag (flags req) IFETCH in
    Ok (u32 (srcId req + (if instr then n else 0)))
  | ProcessPartMapper n => if procIdx <? n then Ok procIdx else Err AssertFail
  | InstrDataProcessPartMapper n =>
    if procIdx <? n then
      let instr := has_flag (flags req) IFETCH in
      Ok (u32 (procIdx + (if instr then n else 0)))
    else Err AssertFail
  end.

(** ** The policy *)

Record PartInfo : Type := mkPart {
  size : Z;
  targetSize : Z;
  profHits : Z;
  profMisses : Z;
  profSelfEvictions : Z;
  profExtEvictions : Z
}.
Definition PartInfo_init : PartInfo := mkPart 0 0 0 0 0 0.
Definition add_size (d : Z) (i : PartInfo) : PartInfo :=
  mkPart (u64 (size i + d)) (targetSize i) (profHits i) (profMisses i) (profSelfEvictions i) (profExtEvictions i).
Definition set_target (f : Z -> Z) (i : PartInfo) : PartInfo :=
  mkPart (size i) (f (targetSize i)) (profHits i) (profMisses i) (profSelfEvictions i) (profExtEvictions i).
Definition inc_hits (i : PartInfo) : PartInfo :=
  mkPart (size i) (targetSize i) (u64 (profHits i + 1)) (profMisses i) (profSelfEvictions i) (profExtEvictions i).
Definition inc_misses (i : PartInfo) : PartInfo :=
  mkPart (size i) (targetSize i) (profHits i) (u64 (profMisses i + 1)) (profSelfEvictions i) (profExtEvictions i).
Definition inc_self (i : PartInfo) : PartInfo :=
  mkPart (size i) (targetSize i) (profHits i) (profMisses i) (u64 (profSelfEvictions i + 1)) (profExtEvictions i).
Definition inc_ext (i : PartInfo) : PartInfo :=
  mkPart (size i) (targetSize i) (profHits i) (profMisses i) (profSelfEvictions i) (u64 (profExtEvictions i + 1)).

(** A line: [ts] is 0 if it is empty. *)
Record WayPartInfo : Type := mkLine { addr : Z; ts : Z; part : Z }.

(** [monitor->access(partition, lineAddr)]. *)
Class PartitionMonitor (M : Type) := mon_access : Z -> Z -> M -> result M.

Section policy.
Context {M : Type} `{!PartitionMonitor M}.
(** [mapper->getPartition(req)]. *)
Context (mapper : MemReq -> result Z).

Record WayPartReplPolicy : Type := mkPolicy {
  partInfo : list PartInfo;
  partitions : Z;
  totalSize : Z;
  waySize : Z;
  ways : Z;
  array : list WayPartInfo;
  wayPartIndex : list Z;
  testMode : bool;
  bestId : Z;
  candIdx : Z;
  incomingLinePart : Z;
  incomingLineAddr : Z;
  timestamp : Z;
  monitor : M
}.

Definition set_parts (f : list PartInfo -> list PartInfo) (w : WayPartReplPolicy) : WayPartReplPolicy :=
  mkPolicy (f (partInfo w)) (partitions w) (totalSize w) (waySize w) (ways w) (array w) (wayPartIndex w) (testMode w)
    (bestId w) (candIdx w) (incomingLinePart w) (incomingLineAddr w) (timestamp w) (monitor w).
Definition set_array (f : list WayPartInfo -> list WayPartInfo) (w : WayPartReplPolicy) : WayPartReplPolicy :=
  mkPolicy (partInfo w) (partitions w) (totalSize w) (waySize w) (ways w) (f (array w)) (wayPartIndex w) (testMode w)
    (bestId w) (candIdx w) (incomingLinePart w) (incomingLineAddr w) (timestamp w) (monitor w).
Definition set_index (f : list Z -> list Z) (w : WayPartReplPolicy) : WayPartReplPolicy :=
  mkPolicy (partInfo w) (partitions w) (totalSize w) (waySize w) (ways w) (array w) (f (wayPartIndex w)) (testMode w)
    (bestId w) (candIdx w) (incomingLinePart w) (incomingLineAddr w) (timestamp w) (monitor w).
Definition set_process (best cand : Z) (w : WayPartReplPolicy) : WayPartReplPolicy :=
  mkPolicy (partInfo w) (partitions w) (totalSize w) (waySize w) (ways w) (array w) (wayPartIndex w) (testMode w)
    best cand (incomingLinePart w) (incomingLineAddr w) (timestamp w) (monitor w).
Definition set_incoming (p a : Z) (w : WayPartReplPolicy) : WayPartReplPolicy :=
  mkPolicy (partInfo w) (partitions w) (totalSize w) (waySize w) (ways w) (array w) (wayPartIndex w) (testMode w)
    (bestId w) (candIdx w) p a (timestamp w) (monitor w).
Definition set_timestamp (t : Z) (w : WayPartReplPolicy) : WayPartReplPolicy :=
  mkPolicy (partInfo w) (partitions w) (totalSize w) (waySize w) (ways w) (array w) (wayPartIndex w) (testMode w)
    (bestId w) (candIdx w) (incomingLinePart w) (incomingLineAddr w) t (monitor w).
Definition set_monitor (m : M) (w : WayPartReplPolicy) : WayPartReplPolicy :=
  mkPolicy (partInfo w) (partitions w) (totalSize w) (waySize w) (ways w) (array w) (wayPartIndex w) (testMode w)
    (bestId w) (candIdx w) (incomingLinePart w) (incomingLineAddr w) (timestamp w) m.

(** An element of an array; outside it the access is undefined. *)
Definition at_ {A} (l : list A) (i : Z) : result A :=
  if 0 <=? i then match l !! Z.to_nat i with Some x => Ok x | None => Err Panicked end else Err Panicked.
Definition change_part (p : Z) (f : PartInfo -> PartInfo) : st WayPartReplPolicy unit := fun w =>
  match at_ (partInfo w) p with Ok _ => Ok (tt, set_parts (alter f (Z.to_nat p)) w) | Err e => Err e end.
Definition change_line (id : Z) (f : WayPartInfo -> WayPartInfo) : st WayPartReplPolicy unit := fun w =>
  match at_ (array w) id with Ok _ => Ok (tt, set_array (alter f (Z.to_nat id)) w) | Err e => Err e end.
Definition line (id : Z) : st WayPartReplPolicy WayPartInfo := fun w =>
  match at_ (array w) id with Ok l => Ok (l, w) | Err e => Err e end.

(** The constructor: the ways are dealt out evenly. *)
Definition initial_way (parts nways w : Z) : Z := u32 (w * parts) / nways.
Definition WayPartReplPolicy_init (mon : M) (parts lines nways : Z) (test : bool) : result WayPartReplPolicy :=
  if nways =? 0 then Err Panicked
  else
    let wsize := lines / nways in
    if negb (u32 (wsize * nways) =? lines) then Err AssertFail
    else if parts =? 0 then Err Panicked
    else
      let index := (fun w => initial_way parts nways (Z.of_nat w)) <$> seq 0 (Z.to_nat nways) in
      let target p := Z.of_nat (length (filter (fun q => q = p) index)) * wsize in
      Ok (mkPolicy
        ((fun p => mkPart (if decide (p = 0%nat) then lines else 0) (u64 (target (Z.of_nat p))) 0 0 0 0) <$> seq 0 (Z.to_nat parts))
        parts lines wsize nways (replicate (Z.to_nat lines) (mkLine 0 0 0)) index test (-1) 0 0 0 1 mon).

Definition update (id : Z) : st WayPartReplPolicy unit :=
  e ← line id;
  _ ← (if 0 <? ts e then (* this is a hit update *)
         change_part (part e) inc_hits
       else (* post-miss update, old line has been removed, this is empty *)
         newPart ← gets incomingLinePart;
         _ ← (if part e =? newPart then change_part (part e) inc_self
              else
                _ ← change_part (part e) (add_size (-1));
                _ ← change_part (part e) inc_ext;
                change_part newPart (add_size 1));
         _ ← change_part newPart inc_misses;
         change_line id (fun l => mkLine (addr l) (ts l) newPart));
  t ← gets timestamp;
  _ ← change_line id (fun l => mkLine (addr l) t (part l));
  _ ← modify (set_timestamp (u64 (t + 1)));
  e ← line id;
  m ← gets monitor;
  m' ← lift (mon_access (part e) (addr e) m);
  modify (set_monitor m').

Definition startReplacement (req : MemReq) : st WayPartReplPolicy unit :=
  w ← gets id;
  _ ← assert_ (candIdx w =? 0);
  _ ← assert_ (bestId w =? -1);
  p ← lift (mapper req);
  modify (set_incoming p (lineAddr req)).

Definition recordCandidate (id : Z) : st WayPartReplPolicy unit :=
  w ← gets Datatypes.id;
  _ ← assert_ (candIdx w <? ways w);
  c ← line id;
  let way := candIdx w in
  _ ← modify (set_process (bestId w) (u32 (way + 1)));
  wp ← lift (at_ (wayPartIndex w) way);
  if testMode w || (wp =? incomingLinePart w) then (* this is a way we can fill *)
    if bestId w <? 0 then modify (set_process (s32 id) (u32 (way + 1)))
    else
      best ← line (bestId w);
      let inC := part c =? incomingLinePart w in
      let inB := part best =? incomingLinePart w in
      let replace :=
        if testMode w || (inC && inB) then ts c <? ts best
        else if inC && negb inB then false
        else if negb inC && inB then true
        else ts c <? ts best in
      when replace (modify (set_process (s32 id) (u32 (way + 1))))
  else mret tt.

Definition getBestCandidate : st WayPartReplPolicy Z :=
  b ← gets bestId;
  _ ← assert_ (0 <=? b);
  mret (u32 b).

Fixpoint recordCandidates (cands : list Z) : st WayPartReplPolicy unit :=
  match cands with [] => mret tt | c :: cands => _ ← recordCandidate c; recordCandidates cands end.

(** [LegacyReplPolicy::rank]. *)
Definition rank (req : MemReq) (cands : list Z) : st WayPartReplPolicy Z :=
  _ ← startReplacement req;
  _ ← recordCandidates cands;
  getBestCandidate.

Definition replaced (id : Z) : st WayPartReplPolicy unit :=
  _ ← modify (set_process (-1) 0);
  a ← gets incomingLineAddr;
  change_line id (fun l => mkLine a 0 (part l)).

(** [wayPartIndex[curWay++] = p], [n] times. *)
Fixpoint assign_ways (n : nat) (p curWay : Z) : st WayPartReplPolicy Z :=
  match n with
  | O => mret curWay
  | Datatypes.S n =>
    w ← gets Datatypes.id;
    _ ← lift (at_ (wayPartIndex w) curWay);
    _ ← modify (set_index (<[Z.to_nat curWay := p]>));
    assign_ways n p (u32 (curWay + 1))
  end.
Fixpoint assign_parts (n : nat) (p curWay : Z) (waysPart : list Z) : st WayPartReplPolicy Z :=
  match n with
  | O => mret curWay
  | Datatypes.S n =>
    nw ← lift (at_ waysPart p);
    w ← gets Datatypes.id;
    _ ← change_part p (set_target (fun _ => u32 (totalSize w * nw) / ways w));
    curWay ← assign_ways (Z.to_nat nw) p curWay;
    assign_parts n (p + 1) curWay waysPart
  end.
Definition setPartitionSizes (waysPart : list Z) : st WayPartReplPolicy unit :=
  w ← gets Datatypes.id;
  curWay ← assign_parts (Z.to_nat (partitions w)) 0 0 waysPart;
  assert_ (curWay =? ways w).

End policy.
Arguments WayPartReplPolicy : clear implicits.

(** ** Giving out the ways *)

Section properties.
Context {M : Type} `{!PartitionMonitor M} (mapper : MemReq -> result Z).
Implicit Types w : WayPartReplPolicy M.

Lemma at_ok {A} (l : list A) i x : 0 <= i -> l !! Z.to_nat i = Some x -> at_ l i = Ok x.
Proof. intros Hi Hx. unfold at_. rewrite (proj2 (Z.leb_le 0 i)) by done. by rewrite Hx. Qed.

Lemma at_out {A} (l : list A) i : Z.of_nat (length l) <= i -> at_ l i = Err Panicked.
Proof. intros Hi. unfold at_. case_match; [|done]. by rewrite lookup_ge_None_2 by lia. Qed.

Lemma at_inv {A} (l : list A) i x : at_ l i = Ok x -> 0 <= i /\ l !! Z.to_nat i = Some x.
Proof. unfold at_. destruct (Z.leb_spec 0 i); [|done]. destruct (l !! Z.to_nat i); [|done]. by intros [= <-]. Qed.

(** The writes stay inside the index of the ways, or the last of them does not. *)
Lemma assign_ways_spec n p curWay w :
  0 <= curWay <= Z.of_nat (length (wayPartIndex w)) -> Z.of_nat (length (wayPartIndex w)) < W32 ->
  match assign_ways n p curWay w with
  | Ok (cw, w') => cw = curWay + Z.of_nat n /\ cw <= Z.of_nat (length (wayPartIndex w)) /\
      length (wayPartIndex w') = length (wayPartIndex w) /\ ways w' = ways w /\ totalSize w' = totalSize w /\
      length (partInfo w') = length (partInfo w)
  | Err f => f = Panicked /\ Z.of_nat (length (wayPartIndex w)) < curWay + Z.of_nat n
  end.
Proof using Type.
  revert curWay w. induction n as [|n IH]; intros curWay w Hcur Hlen; [cbn; split_and!; lia|].
  cbn [assign_ways]. unfold gets, lift, modify, mbind, st_bind. unfold Datatypes.id.
  destruct (decide (curWay < Z.of_nat (length (wayPartIndex w)))) as [Hlt|Hge].
  - destruct (lookup_lt_is_Some_2 (wayPartIndex w) (Z.to_nat curWay) ltac:(lia)) as [x Hx].
    rewrite (at_ok _ curWay x) by (lia || done). rewrite u32_id by (split; lia).
    specialize (IH (curWay + 1) (set_index <[Z.to_nat curWay := p]> w)). cbn [wayPartIndex set_index ways totalSize partInfo] in IH.
    rewrite length_insert in IH. specialize (IH ltac:(lia) Hlen).
    destruct (assign_ways n p (curWay + 1) _) as [[cw w']|f]; [destruct IH as (? & ? & ? & ? & ? & ?); split_and!; lia || done|].
    destruct IH. split; [done|lia].
  - rewrite at_out by lia. split; [done|lia].
Qed.

Lemma assign_parts_overrun n p curWay waysPart w :
  0 <= p -> 0 <= curWay <= Z.of_nat (length (wayPartIndex w)) -> Z.of_nat (length (wayPartIndex w)) < W32 ->
  Forall (fun x => 0 <= x) waysPart -> (Z.to_nat p + n <= length waysPart)%nat ->
  (Z.to_nat p + n <= length (partInfo w))%nat ->
  Z.of_nat (length (wayPartIndex w)) < curWay + sumZ (take n (drop (Z.to_nat p) waysPart)) ->
  assign_parts n p curWay waysPart w = Err Panicked.
Proof using Type.
  revert p curWay w. induction n as [|n IH]; intros p curWay w Hp Hcur Hlen Hpos Hn Hinfo Hsum; [rewrite take_0 in Hsum; change (sumZ []) with 0 in Hsum; lia|].
  cbn [assign_parts]. unfold gets, lift, mbind, st_bind. unfold Datatypes.id.
  destruct (lookup_lt_is_Some_2 waysPart (Z.to_nat p) ltac:(lia)) as [nw Hnw]. rewrite (at_ok _ _ _ Hp Hnw).
  destruct (lookup_lt_is_Some_2 (partInfo w) (Z.to_nat p) ltac:(lia)) as [info Hi].
  unfold change_part. rewrite (at_ok _ _ _ Hp Hi).
  set (w1 := set_parts _ w). assert (0 <= nw) as Hnw0 by (rewrite Forall_lookup in Hpos; by eapply Hpos).
  pose proof (assign_ways_spec (Z.to_nat nw) p curWay w1) as Ha. change (wayPartIndex w1) with (wayPartIndex w) in Ha.
  specialize (Ha Hcur Hlen). assert (length (partInfo w1) = length (partInfo w)) as Hl1 by (cbn; apply length_alter).
  destruct (assign_ways (Z.to_nat nw) p curWay w1) as [[cw w2]|f]; [|destruct Ha as [-> _]; done].
  destruct Ha as (-> & Hle & Hl2 & _ & _ & Hl3).
  rewrite (drop_S _ _ _ Hnw) in Hsum. cbn [take] in Hsum. rewrite sumZ_cons in Hsum.
  apply IH; rewrite ?Hl2, ?Hl3, ?Hl1; try lia; try done.
  replace (Z.to_nat (p + 1)) with (Datatypes.S (Z.to_nat p)) by lia. lia.
Qed.

(** C40: The lookahead partitioner breaks way partitioning.  With two partitions or
    more, its floor of one bucket for each is counted once for every pair of them:
    the sizes it computes add up to more ways than there are, whatever the monitor
    measured, and [setPartitionSizes] writes past the end of [wayPartIndex]. *)
Theorem way_partition_overruns (get : Z -> Z -> Z) w (p : LookaheadPartitioner) :
  (2 <= numPartitions p)%nat -> Z.of_nat (numPartitions p) <= ways w -> ways w < W32 ->
  partitions w = Z.of_nat (numPartitions p) -> length (partInfo w) = numPartitions p ->
  Z.of_nat (length (wayPartIndex w)) = ways w ->
  LookaheadPartitioner_init (numPartitions p) (ways w) 1 1 (fun _ => false) = Ok p ->
  partition get (fun sizes => match setPartitionSizes sizes w with Ok _ => Ok tt | Err f => Err f end) p = Err Panicked.
Proof using Type.
  destruct p as [mA portion forb n bkts cur]. cbn [numPartitions]. intros Hn Hw HwW Hparts Hinfo Hindex. unfold LookaheadPartitioner_init.
  rewrite (proj2 (Z.ltb_lt 0 (ways w))) by lia. intros Ep. injection Ep as <- <- <- <- <-.
  unfold partition. cbn [numPartitions allocPortion buckets minAlloc forbidden curAllocs].
  assert (Qfloor ((1 # 1) * inject_Z (ways w)) = ways w) as -> by (rewrite Qmult_1_l; apply Qfloor_Z).
  rewrite (u32_id (ways w)), Z.mul_1_l, (u32_id (Z.of_nat n)) by (split; lia).
  destruct (partitioning_total get n (ways w) (Z.of_nat n) (fun _ => false)) as (allocs & -> & Hlen & Hsum & Hlow);
    [lia|done|exists 0%nat; split; [lia|done]|].
  cbv zeta. rewrite length_replicate, decide_False by lia.
  assert (setPartitionSizes (allocs ++ drop n (replicate (Z.to_nat (ways w + 1)) 0)) w = Err Panicked) as ->; [|done].
  unfold setPartitionSizes, gets, mbind, st_bind. unfold Datatypes.id.
  rewrite assign_parts_overrun; [done|lia..| | | |].
  - apply Forall_app. split; [|apply Forall_drop, Forall_replicate; lia].
    apply Forall_lookup. intros i a Ha. destruct (Hlow i a Ha) as [H _]. lia.
  - rewrite length_app. lia.
  - lia.
  - change (Z.to_nat 0) with 0%nat. rewrite drop_0, take_app_length' by lia. rewrite Hsum, Hindex. nia.
Qed.
(** ** The victim *)

(** Which of two lines goes first: one of another partition before one of our
    own, then the one that was not used for longer. *)
Definition before (p : Z) (x y : WayPartInfo) : Prop :=
  (part x <> p /\ part y = p) \/ ((part x = p <-> part y = p) /\ ts x <= ts y).

Lemma before_refl p x : before p x x.
Proof using Type. right. split; [done|lia]. Qed.

Lemma before_trans p x y z : before p x y -> before p y z -> before p x z.
Proof using Type. unfold before. intros [[? ?]|[? ?]] [[? ?]|[? ?]]; [tauto|left; tauto|left; tauto|right; split; [tauto|lia]]. Qed.

(** After the candidates [pre]: the best of those in ways of the partition. *)
Definition best_of w (p : Z) (pre : list Z) : Prop :=
  candIdx w = Z.of_nat (length pre) /\
  ((bestId w = -1 /\ forall i, (i < length pre)%nat -> wayPartIndex w !! i <> Some p) \/
   exists i lb, pre !! i = Some (bestId w) /\ wayPartIndex w !! i = Some p /\ 0 <= bestId w /\
     array w !! Z.to_nat (bestId w) = Some lb /\
     forall j c lc, pre !! j = Some c -> wayPartIndex w !! j = Some p -> array w !! Z.to_nat c = Some lc -> before p lb lc).

Definition same_tables w w' : Prop :=
  array w' = array w /\ wayPartIndex w' = wayPartIndex w /\ ways w' = ways w /\ testMode w' = testMode w /\
  incomingLinePart w' = incomingLinePart w /\ incomingLineAddr w' = incomingLineAddr w /\ partInfo w' = partInfo w.

Lemma record_spec w p pre c lc :
  best_of w p pre -> incomingLinePart w = p -> testMode w = false ->
  Z.of_nat (length pre) < ways w -> ways w < W32 -> Z.of_nat (length (wayPartIndex w)) = ways w ->
  0 <= c < 2 ^ 31 -> array w !! Z.to_nat c = Some lc ->
  wp (recordCandidate c) w (fun _ w' => best_of w' p (pre ++ [c]) /\ same_tables w w').
Proof using Type.
  intros [Hidx Hbest] Hp Ht Hpre Hways Hlen Hc Hlc. unfold recordCandidate.
  do 2 wp_step. unfold Datatypes.id. wp_step. wp_step; [by apply Z.ltb_lt; lia|].
  wp_step. unfold wp at 1, line. rewrite (at_ok _ c lc) by (lia || done).
  cbv zeta. do 2 wp_step. wp_step. wp_step.
  destruct (lookup_lt_is_Some_2 (wayPartIndex w) (length pre) ltac:(lia)) as [q Hq].
  exists q. split; [apply at_ok; [lia|]; by rewrite Hidx, Nat2Z.id|]. rewrite Ht, Hp. cbn [orb].
  assert (u32 (candIdx w + 1) = Z.of_nat (length (pre ++ [c]))) as Eidx.
  { rewrite Hidx, length_app, u32_id by (split; lia). cbn. lia. }
  assert (s32 c = c) as Es.
  { assert (c < 2147483648) by exact (proj2 Hc). unfold s32. rewrite u32_id by (unfold in_u32, W32; lia).
    change (W32 / 2) with 2147483648. by rewrite decide_True by done. }
  assert (pre !! length pre = None) as Hnone by (apply lookup_ge_None_2; lia).
  destruct (Z.eqb_spec q p) as [->|Hqp].
  - destruct Hbest as [[Hb Hno]|(i & lb & Hi & Hip & Hb0 & Hlb & Hall)].
    + rewrite (proj2 (Z.ltb_lt (bestId w) 0)) by lia. wp_step. split; [|done]. split; [done|]. right.
      exists (length pre), lc. cbn [bestId set_process wayPartIndex array]. rewrite Es.
      split_and!; [by rewrite lookup_app_r, Nat.sub_diag by lia|done|lia|done|].
      intros j c' lc' Hj Hjp Hlc'. destruct (decide (j < length pre)%nat) as [Hlt|Hge]; [by destruct (Hno j Hlt)|].
      rewrite lookup_app_r in Hj by lia. apply list_lookup_singleton_Some in Hj as [_ <-].
      rewrite Hlc in Hlc'. injection Hlc' as <-. apply before_refl.
    + rewrite (proj2 (Z.ltb_ge (bestId w) 0)) by lia. wp_step. unfold wp at 1, line. cbn [array set_process].
      rewrite (at_ok _ (bestId w) lb) by (lia || done).
      match goal with |- wp (when ?r _) _ _ => set (replace := r) end.
      assert (replace = true -> before p lc lb) as Hyes.
      { unfold replace, before. destruct (Z.eqb_spec (part lc) p), (Z.eqb_spec (part lb) p); cbn; try done; try tauto;
          intros H%Z.ltb_lt; right; (split; [tauto|lia]). }
      assert (replace = false -> before p lb lc) as Hkeep.
      { unfold replace, before. destruct (Z.eqb_spec (part lc) p), (Z.eqb_spec (part lb) p); cbn; try done; try tauto;
          intros H%Z.ltb_ge; right; (split; [tauto|lia]). }
      wp_step; intros Er.
      * wp_step. split; [|done]. split; [done|]. right. exists (length pre), lc. cbn [bestId set_process wayPartIndex array]. rewrite Es.
        split_and!; [by rewrite lookup_app_r, Nat.sub_diag by lia|done|lia|done|].
        intros j c' lc' [Hj|[_ Hj]]%lookup_app_Some Hjp Hlc'.
        -- eapply before_trans; [by apply Hyes|eauto].
        -- apply list_lookup_singleton_Some in Hj as [_ <-]. rewrite Hlc in Hlc'. injection Hlc' as <-. apply before_refl.
      * split; [|done]. split; [done|]. right. exists i, lb. cbn [bestId set_process wayPartIndex array].
        split_and!; [by apply lookup_app_l_Some|done..|].
        intros j c' lc' [Hj|[_ Hj]]%lookup_app_Some Hjp Hlc'; [eauto|].
        apply list_lookup_singleton_Some in Hj as [_ <-]. rewrite Hlc in Hlc'. injection Hlc' as <-. by apply Hkeep.
  - wp_step. split; [|done]. split; [done|]. destruct Hbest as [[Hb Hno]|(i & lb & Hi & Hip & Hb0 & Hlb & Hall)].
    + left. split; [done|]. intros i Hi. rewrite length_app in Hi. cbn in Hi. destruct (decide (i = length pre)) as [->|]; [|apply Hno; lia].
      cbn. congruence.
    + right. exists i, lb. cbn [bestId set_process wayPartIndex array]. split_and!; [by apply lookup_app_l_Some|done..|].
      intros j c' lc' [Hj|[Hge Hj]]%lookup_app_Some Hjp Hlc'; [eauto|].
      apply list_lookup_singleton_Some in Hj as [Hj0 _]. assert (j = length pre) as -> by lia. congruence.
Qed.

Lemma records_spec w p pre cands :
  best_of w p pre -> incomingLinePart w = p -> testMode w = false ->
  Z.of_nat (length pre + length cands) <= ways w -> ways w < W32 -> Z.of_nat (length (wayPartIndex w)) = ways w ->
  Forall (fun c => 0 <= c < 2 ^ 31 /\ is_Some (array w !! Z.to_nat c)) cands ->
  wp (recordCandidates cands) w (fun _ w' => best_of w' p (pre ++ cands) /\ same_tables w w').
Proof using Type.
  revert w pre. induction cands as [|c cands IH]; intros w pre Hb Hp Ht Hlen Hways Hidx Hall; cbn [recordCandidates].
  { wp_step. rewrite app_nil_r. done. }
  apply Forall_cons in Hall as [[Hc [lc Hlc]] Hall]. cbn [length] in Hlen.
  wp_step. eapply wp_mono; [eapply (record_spec w p pre c lc); (done || lia)|].
  intros _ w1 [Hb1 (E1 & E2 & E3 & E4 & E5 & E6 & E7)].
  eapply wp_mono; [eapply (IH w1 (pre ++ [c])); rewrite ?E1, ?E2, ?E3, ?E4, ?E5, ?length_app; try done; cbn [length]; lia|].
  intros _ w2 [Hb2 (F1 & F2 & F3 & F4 & F5 & F6 & F7)]. rewrite <- app_assoc in Hb2. split; [done|].
  split_and!; congruence.
Qed.

(** C39: Way partitioning keeps to the ways.  Given one candidate per way, the
    policy chooses a victim in a way of the partition the request belongs to: a
    line that another partition left there if there is one, and among equals the
    one that was not used for longest.  It needs a way of that partition. *)
Theorem way_victim w req p cands :
  candIdx w = 0 -> bestId w = -1 -> testMode w = false -> mapper req = Ok p ->
  Z.of_nat (length cands) = ways w -> ways w < W32 -> Z.of_nat (length (wayPartIndex w)) = ways w ->
  Forall (fun c => 0 <= c < 2 ^ 31 /\ is_Some (array w !! Z.to_nat c)) cands ->
  (exists i, wayPartIndex w !! i = Some p) ->
  exists i v lv w', rank mapper req cands w = Ok (v, w') /\ cands !! i = Some v /\ wayPartIndex w !! i = Some p /\
    array w !! Z.to_nat v = Some lv /\
    (forall j c lc, cands !! j = Some c -> wayPartIndex w !! j = Some p -> array w !! Z.to_nat c = Some lc -> before p lv lc) /\
    incomingLinePart w' = p /\ incomingLineAddr w' = lineAddr req.
Proof using Type.
  intros Hc Hb Ht Hm Hlen Hways Hidx Hall (i0 & Hi0).
  set (w1 := set_incoming p (lineAddr req) w).
  assert (startReplacement mapper req w = Ok (tt, w1)) as Hstart.
  { unfold startReplacement, gets, assert_, lift, modify, mbind, st_bind. unfold Datatypes.id. rewrite Hc, Hb, Hm. done. }
  assert (best_of w1 p []) as Hb1 by (split; [done|left; split; [done|]; intros i Hi; cbn in Hi; lia]).
  pose proof (records_spec w1 p [] cands Hb1 eq_refl Ht ltac:(cbn; lia) Hways Hidx Hall) as Hrec.
  apply wp_ok in Hrec as ([] & w2 & Hrec & [_ Hbest] & (E1 & E2 & E3 & E4 & E5 & E6 & E7)). cbn [app] in Hbest.
  destruct Hbest as [[_ Hno]|(i & lv & Hi & Hip & Hb0 & Hlv & Hbefore)].
  { exfalso. rewrite E2 in Hno. apply (Hno i0); [|done]. apply lookup_lt_Some in Hi0. lia. }
  exists i, (bestId w2), lv, w2. rewrite E1, E2 in *. split_and!; try done.
  - unfold rank, mbind, st_bind. rewrite Hstart, Hrec. unfold getBestCandidate, gets, assert_, mbind, st_bind.
    rewrite (proj2 (Z.leb_le 0 (bestId w2))) by done. unfold mret, st_ret. rewrite u32_id; [done|].
    rewrite Forall_lookup in Hall. destruct (Hall _ _ Hi) as [[_ H] _]. change (2 ^ 31) with 2147483648 in H. unfold in_u32, W32. lia.
Qed.
(** ** Counting the lines of the partitions *)

Definition owned (p : Z) (l : WayPartInfo) : Z := if part l =? p then 1 else 0.
Definition lines_of (p : Z) (a : list WayPartInfo) : Z := sumZ (owned p <$> a).

Lemma lines_of_cons p l a : lines_of p (l :: a) = owned p l + lines_of p a.
Proof using Type. done. Qed.

Lemma lines_of_alter p f a i l : a !! i = Some l -> lines_of p (alter f i a) = lines_of p a + (owned p (f l) - owned p l).
Proof using Type.
  revert i. induction a as [|x a IH]; intros [|i] Hi; try done.
  - injection Hi as ->. change (alter f 0%nat (l :: a)) with (f l :: a). rewrite !lines_of_cons. lia.
  - change (alter f (Datatypes.S i) (x :: a)) with (x :: alter f i a). rewrite !lines_of_cons, (IH i Hi). lia.
Qed.

Lemma lines_of_bound p a : 0 <= lines_of p a <= Z.of_nat (length a).
Proof using Type.
  induction a as [|x a IH]; [done|]. rewrite lines_of_cons. cbn [length]. unfold owned. case_match; lia.
Qed.

Lemma lines_of_pos p a i l : a !! i = Some l -> part l = p -> 1 <= lines_of p a.
Proof using Type.
  revert i. induction a as [|x a IH]; intros i; [done|]. rewrite lines_of_cons. intros Hi Hp.
  pose proof (lines_of_bound p a). destruct i as [|i]; [injection Hi as ->; unfold owned; rewrite Hp, Z.eqb_refl; lia|].
  specialize (IH i Hi Hp). unfold owned. case_match; lia.
Qed.

(** The counters of the [nparts] partitions are right. *)
Context (nparts : Z).
Record Counted w : Prop := {
  counted_nparts : partitions w = nparts;
  counted_parts : Z.of_nat (length (partInfo w)) = partitions w;
  counted_lines : Z.of_nat (length (array w)) = totalSize w /\ totalSize w < W32;
  counted_owner i l : array w !! i = Some l -> 0 <= part l < partitions w;
  counted_size p info : partInfo w !! p = Some info -> size info = lines_of (Z.of_nat p) (array w);
  counted_incoming : 0 <= incomingLinePart w < partitions w
}.

(** Changes of the other fields. *)
Lemma counted_frame w w' :
  Counted w -> size <$> partInfo w' = size <$> partInfo w -> part <$> array w' = part <$> array w -> partitions w' = partitions w ->
  totalSize w' = totalSize w -> 0 <= incomingLinePart w' < partitions w -> Counted w'.
Proof using Type.
  intros [H0 H1 H2 H3 H4 H5] Ei Ea Ep Et Hin.
  assert (length (partInfo w') = length (partInfo w)) as El by (apply (f_equal length) in Ei; by rewrite !length_fmap in Ei).
  assert (length (array w') = length (array w)) as El' by (apply (f_equal length) in Ea; by rewrite !length_fmap in Ea).
  assert (forall p, lines_of p (array w') = lines_of p (array w)) as Elines.
  { intros p. change (sumZ (((fun q => if q =? p then 1 else 0) ∘ part) <$> array w') =
                      sumZ (((fun q => if q =? p then 1 else 0) ∘ part) <$> array w)).
    by rewrite !list_fmap_compose, Ea. }
  split; rewrite ?El, ?El', ?Ep, ?Et; try done.
  - intros i l Hl. assert ((part <$> array w) !! i = Some (part l)) as Hp by (by rewrite <- Ea, list_lookup_fmap, Hl).
    rewrite list_lookup_fmap in Hp. destruct (array w !! i) as [l0|] eqn:E; [|done]. injection Hp as <-. eauto.
  - intros p info Hp. assert ((size <$> partInfo w) !! p = Some (size info)) as Hs by (by rewrite <- Ei, list_lookup_fmap, Hp).
    rewrite list_lookup_fmap in Hs. destruct (partInfo w !! p) as [i0|] eqn:E; [|done]. injection Hs as <-. rewrite Elines. eauto.
Qed.

Lemma alter_same {A B} (g : A -> B) (f : A -> A) (l : list A) i : (forall x, g (f x) = g x) -> g <$> alter f i l = g <$> l.
Proof using Type.
  intros Hg. apply list_eq. intros j. rewrite !list_lookup_fmap. destruct (decide (j = i)) as [->|Hne].
  - rewrite list_lookup_alter_eq. destruct (l !! i); cbn; congruence.
  - by rewrite list_lookup_alter_ne.
Qed.

Lemma change_part_counted p f w :
  (forall i, size (f i) = size i) -> Counted w -> wlp (change_part p f) w (fun _ w' => Counted w' /\ array w' = array w /\ incomingLinePart w' = incomingLinePart w /\ size <$> partInfo w' = size <$> partInfo w).
Proof using Type.
  intros Hf HC. unfold wlp, change_part. destruct (at_ (partInfo w) p); [|done].
  assert (size <$> alter f (Z.to_nat p) (partInfo w) = size <$> partInfo w) as Es by by apply alter_same.
  split_and!; try done. eapply counted_frame; try done. apply (counted_incoming _ HC).
Qed.

Lemma change_line_counted id f w :
  (forall l, part (f l) = part l) -> Counted w -> wlp (change_line id f) w (fun _ w' => Counted w').
Proof using Type.
  intros Hf HC. unfold wlp, change_line. destruct (at_ (array w) id); [|done].
  eapply counted_frame; try done; [by apply alter_same|apply (counted_incoming _ HC)].
Qed.
Lemma alter_fmap {A B} (g : A -> B) (f : A -> A) (h : B -> B) (l : list A) i :
  (forall x, g (f x) = h (g x)) -> g <$> alter f i l = alter h i (g <$> l).
Proof using Type.
  intros Hg. apply list_eq. intros j. destruct (decide (j = i)) as [->|Hne].
  - rewrite list_lookup_alter_eq, !list_lookup_fmap, list_lookup_alter_eq. destruct (l !! i); cbn; congruence.
  - rewrite list_lookup_alter_ne, !list_lookup_fmap, list_lookup_alter_ne by done. done.
Qed.

(** A line changes hands. *)
Lemma counted_move w w' i l old new :
  Counted w -> array w !! i = Some l -> part l = Z.of_nat old -> (old <> new) -> (new < length (partInfo w))%nat ->
  part <$> array w' = part <$> alter (fun l => mkLine (addr l) (ts l) (Z.of_nat new)) i (array w) ->
  size <$> partInfo w' = alter (fun s => u64 (s + 1)) new (alter (fun s => u64 (s + -1)) old (size <$> partInfo w)) ->
  partitions w' = partitions w -> totalSize w' = totalSize w -> incomingLinePart w' = incomingLinePart w -> Counted w'.
Proof using Type.
  intros HC Hl Hold Hne Hnew Ea Ei Ep Et Hin. pose proof HC as [H0 H1 [H2 H2'] H3 H4 H5].
  set (a1 := alter (fun l => mkLine (addr l) (ts l) (Z.of_nat new)) i (array w)) in *.
  set (w1 := set_parts (fun _ => partInfo w') (set_array (fun _ => a1) w)).
  assert (Counted w1) as HC1; [|eapply (counted_frame w1); try done; rewrite Hin; exact H5].
  assert (length (partInfo w') = length (partInfo w)) as El
    by (apply (f_equal length) in Ei; by rewrite !length_alter, !length_fmap in Ei).
  split; cbn [w1 set_parts set_array partInfo partitions array totalSize incomingLinePart]; try done.
  - by rewrite El.
  - unfold a1. by rewrite length_alter.
  - intros j l' Hl'. unfold a1 in Hl'. destruct (decide (j = i)) as [->|Hji].
    + rewrite list_lookup_alter_eq, Hl in Hl'. cbn in Hl'. injection Hl' as <-. cbn. lia.
    + rewrite list_lookup_alter_ne in Hl' by done. eauto.
  - intros p info Hp. assert ((size <$> partInfo w') !! p = Some (size info)) as Hs by (by rewrite list_lookup_fmap, Hp).
    rewrite Ei in Hs. unfold a1. rewrite (lines_of_alter _ _ _ _ _ Hl). unfold owned. cbn [part]. rewrite Hold.
    pose proof (lines_of_pos _ _ _ _ Hl Hold) as Hpos. pose proof (lines_of_bound (Z.of_nat p) (array w)) as Hbd.
    assert (forall q x, (size <$> partInfo w) !! q = Some x -> x = lines_of (Z.of_nat q) (array w)) as Hsz.
    { intros q x Hq. rewrite list_lookup_fmap in Hq. destruct (partInfo w !! q) as [i0|] eqn:E; [|done]. injection Hq as <-. eauto. }
    destruct (decide (p = new)) as [->|Hpn].
    + rewrite list_lookup_alter_eq, list_lookup_alter_ne in Hs by done.
      destruct ((size <$> partInfo w) !! new) as [x|] eqn:E; [|done]. cbn in Hs. injection Hs as <-. rewrite (Hsz _ _ E).
      rewrite Z.eqb_refl, (proj2 (Z.eqb_neq (Z.of_nat old) (Z.of_nat new))) by lia.
      rewrite u64_id; [lia|]. unfold W32 in H2'. unfold in_u64, W64. lia.
    + rewrite list_lookup_alter_ne in Hs by done. destruct (decide (p = old)) as [->|Hpo].
      * rewrite list_lookup_alter_eq in Hs. destruct ((size <$> partInfo w) !! old) as [x|] eqn:E; [|done].
        cbn in Hs. injection Hs as <-. rewrite (Hsz _ _ E).
        rewrite Z.eqb_refl, (proj2 (Z.eqb_neq (Z.of_nat new) (Z.of_nat old))) by lia.
        rewrite u64_id; [lia|]. unfold W32 in H2'. unfold in_u64, W64. lia.
      * rewrite list_lookup_alter_ne in Hs by done. rewrite (Hsz _ _ Hs).
        rewrite (proj2 (Z.eqb_neq (Z.of_nat new) (Z.of_nat p))), (proj2 (Z.eqb_neq (Z.of_nat old) (Z.of_nat p))) by lia. lia.
Qed.

Lemma wlp_line id w (Q : WayPartInfo -> WayPartReplPolicy M -> Prop) :
  (forall l, 0 <= id -> array w !! Z.to_nat id = Some l -> Q l w) -> wlp (line id) w Q.
Proof using Type.
  intros H. unfold wlp, line. destruct (at_ (array w) id) as [l|] eqn:E; [|done]. apply at_inv in E as [H0 E]. auto.
Qed.

(** The post-miss part of [update]. *)
Definition miss_update (id : Z) (e : WayPartInfo) : st (WayPartReplPolicy M) unit :=
  newPart ← gets incomingLinePart;
  _ ← (if part e =? newPart then change_part (part e) inc_self
       else
         _ ← change_part (part e) (add_size (-1));
         _ ← change_part (part e) inc_ext;
         change_part newPart (add_size 1));
  _ ← change_part newPart inc_misses;
  change_line id (fun l => mkLine (addr l) (ts l) newPart).

Lemma miss_update_counted id e w :
  Counted w -> 0 <= id -> array w !! Z.to_nat id = Some e -> wlp (miss_update id e) w (fun _ w' => Counted w').
Proof using Type.
  intros HC Hid He. pose proof (counted_owner _ HC _ _ He) as Ho. pose proof (counted_incoming _ HC) as Hin.
  pose proof (counted_parts _ HC) as Hlen. unfold miss_update. do 2 wlp_step. wlp_step.
  set (new := incomingLinePart w) in *. destruct (Z.eqb_spec (part e) new) as [E|E].
  - eapply wlp_mono; [by apply change_part_counted|]. intros _ w1 (HC1 & Ea1 & Ein1 & _).
    wlp_step. eapply wlp_mono; [by apply change_part_counted|]. intros _ w2 (HC2 & Ea2 & Ein2 & _).
    unfold wlp, change_line. rewrite (at_ok _ id e) by (rewrite ?Ea2, ?Ea1; done).
    eapply counted_frame; try done; [|apply (counted_incoming _ HC2)]. cbn [array set_array]. rewrite Ea2, Ea1.
    apply list_eq. intros j. rewrite !list_lookup_fmap. destruct (decide (j = Z.to_nat id)) as [->|Hne].
    + rewrite list_lookup_alter_eq, He. cbn. congruence.
    + by rewrite list_lookup_alter_ne.
  - destruct (lookup_lt_is_Some_2 (partInfo w) (Z.to_nat (part e)) ltac:(lia)) as [io Hio].
    destruct (lookup_lt_is_Some_2 (partInfo w) (Z.to_nat new) ltac:(lia)) as [im Him].
    assert (Z.to_nat (part e) <> Z.to_nat new) as Hne by lia.
    unfold wlp, mbind, st_bind, change_part. rewrite (at_ok _ (part e) io) by (done || lia). cbn [partInfo set_parts].
    rewrite (at_ok _ (part e) (add_size (-1) io)) by (lia || by rewrite list_lookup_alter_eq, Hio). cbn [partInfo set_parts].
    rewrite (at_ok _ new im) by (lia || by rewrite !list_lookup_alter_ne by done). cbn [partInfo set_parts].
    rewrite (at_ok _ new (add_size 1 im)) by (lia || by rewrite list_lookup_alter_eq, !list_lookup_alter_ne, Him by done).
    unfold change_line. cbn [array set_parts]. rewrite (at_ok _ id e) by done.
    eapply (counted_move w _ (Z.to_nat id) e (Z.to_nat (part e)) (Z.to_nat new)); try done; try lia.
    + cbn [array set_array set_parts]. by rewrite Z2Nat.id by lia.
    + cbn [partInfo set_array set_parts]. rewrite !(alter_same size inc_misses), (alter_fmap size (add_size 1) (fun s => u64 (s + 1))) by done.
      rewrite (alter_same size inc_ext), (alter_fmap size (add_size (-1)) (fun s => u64 (s + -1))) by done. done.
Qed.

Lemma update_counted id w : Counted w -> wlp (update id) w (fun _ w' => Counted w').
Proof using Type.
  intros HC. change (update id) with (
    e ← line id;
    _ ← (if 0 <? ts e then change_part (part e) inc_hits else miss_update id e);
    t ← gets timestamp;
    _ ← change_line id (fun l => mkLine (addr l) t (part l));
    _ ← modify (set_timestamp (u64 (t + 1)));
    e ← line id;
    m ← gets monitor;
    m' ← lift (mon_access (part e) (addr e) m);
    modify (set_monitor m')).
  wlp_step. apply wlp_line. intros e Hid He. wlp_step.
  eapply wlp_mono with (Q := fun _ w' => Counted w').
  { destruct (0 <? ts e); [|by apply miss_update_counted].
    eapply wlp_mono; [by apply change_part_counted|]. by intros _ w' (H & _). }
  intros _ w1 HC1. do 2 wlp_step. wlp_step. eapply wlp_mono with (Q := fun _ w' => Counted w'); [by apply change_line_counted|]. intros _ w2 HC2.
  do 2 wlp_step. wlp_step. apply wlp_line. intros e2 _ _. do 2 wlp_step. wlp_step. wlp_step. intros m' _. wlp_step.
  eapply (counted_frame w2); try done. apply (counted_incoming _ HC2).
Qed.
Lemma assign_ways_counted n p curWay w : Counted w -> wlp (assign_ways n p curWay) w (fun _ w' => Counted w').
Proof using Type.
  revert curWay w. induction n as [|n IH]; intros curWay w HC; cbn [assign_ways]; [by wlp_step|].
  do 2 wlp_step. do 2 wlp_step. intros x _. do 2 wlp_step. apply IH.
  eapply (counted_frame w); try done. apply (counted_incoming _ HC).
Qed.

Lemma assign_parts_counted n p curWay sizes w : Counted w -> wlp (assign_parts n p curWay sizes) w (fun _ w' => Counted w').
Proof using Type.
  revert p curWay w. induction n as [|n IH]; intros p curWay w HC; cbn [assign_parts]; [by wlp_step|].
  do 2 wlp_step. intros nw _. do 2 wlp_step. wlp_step.
  eapply wlp_mono; [by apply change_part_counted|]. intros _ w1 (HC1 & _). wlp_step.
  eapply wlp_mono; [by apply assign_ways_counted|]. intros cw w2 HC2. by apply IH.
Qed.

Lemma recordCandidate_counted id w : Counted w -> wlp (recordCandidate id) w (fun _ w' => Counted w').
Proof using Type.
  intros HC. assert (forall b c, Counted (set_process b c w)) as Hproc.
  { intros b c. eapply (counted_frame w); try done. apply (counted_incoming _ HC). }
  assert (forall b c b' c', Counted (set_process b c (set_process b' c' w))) as Hproc2 by (intros; apply Hproc).
  unfold recordCandidate. do 2 wlp_step. wlp_step. wlp_step. intros _. wlp_step. apply wlp_line. intros l _ _.
  cbv zeta. do 2 wlp_step. do 2 wlp_step. intros wp _. destruct (testMode _ || _); [|by wlp_step].
  destruct (bestId _ <? 0); [by wlp_step|]. wlp_step. apply wlp_line. intros lb _ _. wlp_step; intros _; [by wlp_step|done].
Qed.

(** What a cache and a partitioner do with the policy. *)
Inductive op : Type :=
  | Update (id : Z) | Start (req : MemReq) | Candidate (id : Z) | Replaced (id : Z) | Sizes (sizes : list Z).
Definition step (o : op) : st (WayPartReplPolicy M) unit :=
  match o with
  | Update id => update id
  | Start req => startReplacement mapper req
  | Candidate id => recordCandidate id
  | Replaced id => replaced id
  | Sizes sizes => setPartitionSizes sizes
  end.
Fixpoint steps (ops : list op) : st (WayPartReplPolicy M) unit :=
  match ops with [] => mret tt | o :: ops => _ ← step o; steps ops end.

Lemma step_counted o w :
  (forall req p, o = Start req -> mapper req = Ok p -> 0 <= p < nparts) -> Counted w -> wlp (step o) w (fun _ w' => Counted w').
Proof using Type.
  intros Hmap HC. destruct o as [id|req|id|id|sizes]; cbn [step].
  - by apply update_counted.
  - unfold startReplacement. do 2 wlp_step. wlp_step. wlp_step. intros _. wlp_step. wlp_step. intros _. do 2 wlp_step. intros p Hp. wlp_step.
    eapply (counted_frame w); try done. rewrite (counted_nparts _ HC). by apply (Hmap req).
  - by apply recordCandidate_counted.
  - unfold replaced. do 2 wlp_step. do 2 wlp_step. apply change_line_counted; [done|].
    eapply (counted_frame w); try done. apply (counted_incoming _ HC).
  - unfold setPartitionSizes. do 2 wlp_step. wlp_step. eapply wlp_mono; [by apply assign_parts_counted|].
    intros cw w' HC'. by wlp_step.
Qed.

Lemma steps_counted ops w :
  (forall req p, Start req ∈ ops -> mapper req = Ok p -> 0 <= p < nparts) -> Counted w -> wlp (steps ops) w (fun _ w' => Counted w').
Proof using Type.
  revert w. induction ops as [|o ops IH]; intros w Hmap HC; cbn [steps]; [by wlp_step|]. wlp_step.
  eapply wlp_mono with (Q := fun _ w' => Counted w'); [apply (step_counted o); [|done]|].
  - intros req p -> Hp. eapply Hmap; [by left|done].
  - intros _ w1 HC1. apply IH; [|done]. intros req p Hin. apply Hmap. by right.
Qed.

Lemma init_counted mon lines nways test w :
  0 < nparts -> 0 <= lines < W32 -> WayPartReplPolicy_init mon nparts lines nways test = Ok w -> Counted w.
Proof using Type.
  intros Hn Hl. unfold WayPartReplPolicy_init. destruct (nways =? 0); [done|]. destruct (negb _); [done|].
  rewrite (proj2 (Z.eqb_neq nparts 0)) by lia. intros Ew. injection Ew as <-.
  assert (forall p k, lines_of p (replicate k (mkLine 0 0 0)) = if p =? 0 then Z.of_nat k else 0) as Hrep.
  { intros p k. unfold lines_of. rewrite fmap_replicate, sumZ_replicate. unfold owned. cbn [part]. rewrite (Z.eqb_sym 0 p). case_match; lia. }
  split; cbn [partitions partInfo array totalSize incomingLinePart]; try lia.
  - rewrite length_fmap, length_seq. lia.
  - rewrite length_replicate. lia.
  - intros i l [-> _]%lookup_replicate. cbn. lia.
  - intros p info Hp. rewrite list_lookup_fmap in Hp. destruct (seq 0 (Z.to_nat nparts) !! p) as [q|] eqn:E; [|done].
    apply lookup_seq in E as [-> _]. cbn in Hp. injection Hp as <-. cbn [size]. rewrite Hrep.
    case_decide as E0; [rewrite E0, Z.eqb_refl; lia|]. rewrite (proj2 (Z.eqb_neq _ 0)) by lia. done.
Qed.

Lemma sizes_total (infos : list PartInfo) (a : list WayPartInfo) (k : Z) :
  0 <= k -> (forall i l, a !! i = Some l -> k <= part l < k + Z.of_nat (length infos)) ->
  (forall p info, infos !! p = Some info -> size info = lines_of (k + Z.of_nat p) a) ->
  sumZ (size <$> infos) = Z.of_nat (length a).
Proof using Type.
  intros Hk Hown Hsize.
  assert (forall infos k a, (forall p info, infos !! p = Some info -> size info = lines_of (k + Z.of_nat p) a) ->
    sumZ (size <$> infos) = sumZ ((fun p => lines_of (k + Z.of_nat p) a) <$> seq 0 (length infos))) as Hform.
  { clear. intros infos k a Hs. f_equal. apply list_eq. intros i. rewrite !list_lookup_fmap.
    destruct (infos !! i) as [info|] eqn:E.
    - rewrite lookup_seq_lt by (by eapply lookup_lt_Some). cbn. f_equal. by apply Hs.
    - rewrite lookup_seq_ge; [done|]. by apply lookup_ge_None. }
  rewrite (Hform _ _ _ Hsize). clear Hform Hsize. generalize dependent (length infos). intros n Hown. clear infos.
  assert (forall n x l, sumZ ((fun p => owned (x + Z.of_nat p) l) <$> seq 0 n) = if decide (x <= part l < x + Z.of_nat n) then 1 else 0) as Hone.
  { clear. induction n as [|n IH]; intros x l; [cbn; case_decide; lia|].
    rewrite <- cons_seq, fmap_cons, sumZ_cons, <- fmap_S_seq, <- list_fmap_compose.
    assert (sumZ (((fun p => owned (x + Z.of_nat p) l) ∘ Datatypes.S) <$> seq 0 n) = sumZ ((fun p => owned (x + 1 + Z.of_nat p) l) <$> seq 0 n)) as ->.
    { f_equal. apply list_fmap_ext. intros i p _. cbn. f_equal. lia. }
    rewrite IH. unfold owned. rewrite Z.add_0_r. destruct (Z.eqb_spec (part l) x); repeat case_decide; lia. }
  induction a as [|l a IH].
  - change (sumZ ((fun _ => 0) <$> seq 0 n) = 0). clear. generalize 0%nat. induction n as [|n IH]; intros m; [done|].
    cbn [seq]. rewrite fmap_cons, sumZ_cons, IH. done.
  - assert (forall l1 l2 : nat -> Z, forall s, sumZ ((fun p => l1 p + l2 p) <$> s) = sumZ (l1 <$> s) + sumZ (l2 <$> s)) as Hadd.
    { clear. intros l1 l2 s. induction s as [|x s IH]; [done|]. rewrite !fmap_cons, !sumZ_cons, IH. lia. }
    change (sumZ ((fun p => owned (k + Z.of_nat p) l + lines_of (k + Z.of_nat p) a) <$> seq 0 n) = Z.of_nat (Datatypes.S (length a))).
    rewrite Hadd, Hone, decide_True by (by apply (Hown 0%nat)). rewrite IH; [lia|]. intros i l' Hl'. apply (Hown (Datatypes.S i) l' Hl').
Qed.

(** Way partitioning counts the lines of every partition right.  After any
    sequence of updates, replacements and new sizes, the counter of a partition is
    the number of lines that it owns, every line has an owner, and the counters
    add up to the lines of the cache. *)
Theorem sizes_exact mon lines nways test ops w0 w :
  0 < nparts -> 0 <= lines < W32 -> WayPartReplPolicy_init mon nparts lines nways test = Ok w0 ->
  (forall req p, Start req ∈ ops -> mapper req = Ok p -> 0 <= p < nparts) -> steps ops w0 = Ok (tt, w) ->
  (forall p info, partInfo w !! p = Some info -> size info = lines_of (Z.of_nat p) (array w)) /\
  sumZ (size <$> partInfo w) = totalSize w /\ Z.of_nat (length (array w)) = totalSize w.
Proof using Type.
  intros Hn Hl Hinit Hmap Hrun. pose proof (init_counted _ _ _ _ _ Hn Hl Hinit) as HC0.
  pose proof (wlp_ok _ _ _ _ _ (steps_counted _ _ Hmap HC0) Hrun) as HC. cbn in HC.
  destruct HC as [H0 H1 [H2 H2'] H3 H4 H5]. split; [done|]. split; [|done]. rewrite <- H2.
  apply (sizes_total (partInfo w) (array w) 0); [lia|rewrite H1; apply H3|]. intros p info Hp. rewrite Z.add_0_l. eauto.
Qed.
End properties.
