(* ===== verification/PartMonitor.v ===== *)
(** * Monitoring partitions (monitor.cpp, partitioner.h)

    One utility monitor per partition, and the miss curves that the partitioner
    reads from them, resampled to its buckets. *)

From stdpp Require Import base tactics numbers list.
From Stdlib Require Import ZArith QArith Qround Lia.
From S2P Require Import Prelude MemTypes Hash UMon Lookahead WayPart.

Open Scope Z_scope.

Section monitor.
Context {H : Type} `{!HashFamily H}.

Record UMonMonitor : Type := mkMonitor {
  mon_buckets : Z;
  missCache : list Z;
  missCacheValid : bool;
  monitors : list (UMon H)
}.

Definition set_cache (f : list Z -> list Z) (m : UMonMonitor) : UMonMonitor :=
  mkMonitor (mon_buckets m) (f (missCache m)) (missCacheValid m) (monitors m).
Definition set_valid (b : bool) (m : UMonMonitor) : UMonMonitor :=
  mkMonitor (mon_buckets m) (missCache m) b (monitors m).
Definition set_monitors (f : list (UMon H) -> list (UMon H)) (m : UMonMonitor) : UMonMonitor :=
  mkMonitor (mon_buckets m) (missCache m) (missCacheValid m) (f (monitors m)).

(** The constructor: [missCache] has a place per bucket and partition. *)
Definition UMonMonitor_init (numLines umonLines umonBuckets : Z) (numPartitions : nat) (bkts : Z) (h : H) : result UMonMonitor :=
  if decide (numPartitions = 0%nat) then Err AssertFail
  else match UMon_init numLines umonLines umonBuckets h with
       | Err f => Err f
       | Ok u => Ok (mkMonitor bkts (replicate (Z.to_nat (u32 (bkts * Z.of_nat numPartitions))) 0) false (replicate numPartitions u))
       end.

(** [UMonMonitor::access]. *)
Definition monitor_access (partition lineAddr : Z) (m : UMonMonitor) : result UMonMonitor :=
  match at_ (monitors m) partition with
  | Err _ => Err AssertFail
  | Ok u =>
    match UMon.access lineAddr u with
    | Err f => Err f
    | Ok (_, u') =>
      if missCacheValid m then Err AssertFail
      else Ok (set_valid false (set_monitors <[Z.to_nat partition := u']> m))
    end
  end.
#[export] Instance UMonMonitor_access : WayPart.PartitionMonitor UMonMonitor := monitor_access.

Definition monitor_getNumAccesses (partition : Z) (m : UMonMonitor) : result Z :=
  match at_ (monitors m) partition with Err _ => Err AssertFail | Ok u => Ok (u32 (getNumAccesses u)) end.

(** [monitor->getMisses(umonMisses)] on an array of [n] entries. *)
Definition misses_into (n : Z) (u : UMon H) : result (list Z) :=
  if Z.of_nat (length (getMisses u)) <=? n then Ok (getMisses u) else Err Panicked.

(** [misses[i] = x], where [misses] is the cache from [base] on. *)
Definition store (base i x : Z) : st UMonMonitor unit := fun m =>
  match at_ (missCache m) (base + i) with
  | Err f => Err f
  | Ok _ => Ok (tt, set_cache <[Z.to_nat (base + i) := u32 x]> m)
  end.

(** [misses[j] = umonMisses[j*downsampleRatio]], [n] times. *)
Fixpoint downsample (base ratio : Z) (um : list Z) (n : nat) (j : Z) : st UMonMonitor unit :=
  match n with
  | O => mret tt
  | Datatypes.S n =>
    x ← lift (at_ um (j * ratio));
    _ ← store base j x;
    downsample base ratio um n (j + 1)
  end.

(** The points between two points of the monitor, on a line; the [double]s are
    exact fractions here. *)
Definition interpolate (m0 m1 k ratio : Z) : Z :=
  Qfloor (inject_Z m0 * (1 - inject_Z k / inject_Z ratio) + inject_Z m1 * (inject_Z k / inject_Z ratio)).
Fixpoint upsample_between (base ratio j m0 m1 : Z) (n : nat) (k : Z) : st UMonMonitor unit :=
  match n with
  | O => mret tt
  | Datatypes.S n =>
    _ ← store base (ratio * j + k) (interpolate m0 m1 k ratio);
    upsample_between base ratio j m0 m1 n (k + 1)
  end.
Fixpoint upsample (base ratio : Z) (um : list Z) (umonBuckets : Z) (n : nat) (j : Z) : st UMonMonitor unit :=
  match n with
  | O => mret tt
  | Datatypes.S n =>
    m ← gets id;
    x ← lift (at_ um j);
    _ ← store base (ratio * j) x;
    y ← lift (at_ um (j + 1));
    _ ← upsample_between base ratio j x y (Z.to_nat (ratio - 1)) 1;
    z ← lift (at_ um umonBuckets);
    _ ← store base (mon_buckets m) z;
    upsample base ratio um umonBuckets n (j + 1)
  end.

Definition getMissCurve (base partition : Z) : st UMonMonitor unit :=
  m ← gets id;
  u ← lift (match at_ (monitors m) partition with Ok u => Ok u | Err _ => Err AssertFail end);
  let umonBuckets := UMon.buckets u in
  um ← lift (misses_into umonBuckets u);
  if mon_buckets m <=? umonBuckets then
    let ratio := umonBuckets / mon_buckets m in
    _ ← assert_ (umonBuckets `mod` mon_buckets m =? 0);
    _ ← downsample base ratio um (Z.to_nat (mon_buckets m)) 0;
    x ← lift (at_ um umonBuckets);
    store base (mon_buckets m) x
  else
    let ratio := mon_buckets m / umonBuckets in
    _ ← assert_ (mon_buckets m `mod` umonBuckets =? 0);
    upsample base ratio um umonBuckets (Z.to_nat umonBuckets) 0.

Fixpoint getMissCurves (n : nat) (partition : Z) : st UMonMonitor unit :=
  match n with
  | O => mret tt
  | Datatypes.S n =>
    m ← gets id;
    _ ← getMissCurve (u32 (partition * mon_buckets m)) partition;
    getMissCurves n (partition + 1)
  end.

(** [UMonMonitor::get]. *)
Definition monitor_get (partition bucket : Z) : st UMonMonitor Z :=
  m ← gets id;
  _ ← assert_ (bool_decide (0 <= partition < Z.of_nat (length (monitors m))));
  _ ← when (negb (missCacheValid m)) (
        _ ← getMissCurves (length (monitors m)) 0;
        modify (set_valid true));
  m ← gets id;
  lift (at_ (missCache m) (u32 (u32 (partition * mon_buckets m) + bucket))).

Definition monitor_reset (m : UMonMonitor) : UMonMonitor := set_valid false (set_monitors (fmap startNextInterval) m).

(** ** The array of the miss curve is too short *)

Lemma totals_length (u : UMon H) n i t : length (totals u n i t).1 = n.
Proof.
  revert i t. induction n as [|n IH]; intros i t; [done|]. cbn [totals].
  specialize (IH (i + 1) (u64 (t + nth (Z.to_nat (UMon.buckets u - i - 1)) (curWayHits u) 0))).
  destruct (totals u n (i + 1) _) as [l t']. cbn in *. by rewrite IH.
Qed.

Lemma getMisses_length (u : UMon H) : 0 <= UMon.buckets u -> Z.of_nat (length (getMisses u)) = UMon.buckets u + 1.
Proof.
  intros Hb. unfold getMisses. pose proof (totals_length u (Z.to_nat (UMon.buckets u)) 0 (curMisses u)) as Hl.
  destruct (totals u _ _ _) as [l t]. cbn in Hl. cbn [length]. rewrite length_reverse. lia.
Qed.

(** The miss curves are never read without a buffer overflow.  The array that
    [getMissCurve] gives to [getMisses] has one entry per bucket of the monitor;
    [getMisses] writes one more, so that the first [get] of an interval is
    undefined for every partition and bucket, whatever was monitored. *)
Theorem get_overruns (m : UMonMonitor) (partition bucket : Z) :
  missCacheValid m = false -> 0 <= partition < Z.of_nat (length (monitors m)) ->
  Forall (fun u : UMon H => 0 <= UMon.buckets u) (monitors m) ->
  monitor_get partition bucket m = Err Panicked.
Proof.
  intros Hv Hp Hb. unfold monitor_get, gets, assert_, mbind, st_bind. unfold id.
  rewrite bool_decide_true by done. rewrite Hv. cbn [negb when].
  destruct (monitors m) as [|u ms] eqn:E; [cbn in Hp; lia|]. cbn [length getMissCurves].
  unfold getMissCurve, gets, lift, mbind, st_bind. unfold id. rewrite E. cbn [at_ Z.leb].
  change (at_ (u :: ms) 0) with (Ok u). cbn iota beta zeta.
  apply Forall_cons in Hb as [Hb _]. unfold misses_into. rewrite getMisses_length by done.
  by rewrite (proj2 (Z.leb_gt _ _)) by lia.
Qed.

End monitor.
Arguments UMonMonitor : clear implicits.

(** ** A way-partitioned cache with a monitor *)

(** Two cores, a cache of eight lines and four ways, a monitor of four buckets. *)
Definition two_cores : PartMapper := CorePartMapper 2.
Definition demo_monitor : UMonMonitor IdHashFamily :=
  match UMonMonitor_init 8 8 4 2 4 IdHash with Ok m => m | Err _ => mkMonitor 0 [] false [] end.
Definition demo_policy : WayPartReplPolicy (UMonMonitor IdHashFamily) :=
  match WayPartReplPolicy_init demo_monitor 2 8 4 false with
  | Ok w => w
  | Err _ => mkPolicy [] 0 0 0 0 [] [] false 0 0 0 0 0 demo_monitor
  end.
Definition demo_mapper : MemReq -> result Z := getPartition two_cores 0.

(** Core 1 brings in a line: the third way is its first. *)
Definition demo_req : MemReq := mkReq 5 GETS 0 CoreState 0 I 1 0.
Definition demo_ops : list op := [Start demo_req; Candidate 0; Candidate 2; Candidate 4; Candidate 6; Replaced 4; Update 4].

Lemma get_overruns_witness : monitor_get 1 2 demo_monitor = Err Panicked.
Proof.
  apply (get_overruns demo_monitor 1 2); [vm_compute; reflexivity|vm_compute; split; congruence|].
  vm_compute. repeat constructor; discriminate.
Defined.

Lemma way_partition_overruns_witness :
  exists p, LookaheadPartitioner_init 2 4 1 1 (fun _ => false) = Ok p /\
    partition (fun _ _ => 0) (fun sizes => match setPartitionSizes sizes demo_policy with Ok _ => Ok tt | Err f => Err f end) p = Err Panicked.
Proof.
  eexists. split; [reflexivity|].
  apply (way_partition_overruns (fun _ _ => 0) demo_policy);
    [cbn; lia|vm_compute; discriminate|vm_compute; reflexivity|vm_compute; reflexivity..].
Defined.

Lemma way_victim_witness :
  exists v w', rank demo_mapper demo_req [0; 2; 4; 6] demo_policy = Ok (v, w') /\ (v = 4 \/ v = 6).
Proof.
  destruct (way_victim demo_mapper demo_policy demo_req 1 [0; 2; 4; 6]) as (i & v & lv & w' & Hr & Hi & Hw & _);
    [vm_compute; reflexivity..| | |].
  - repeat constructor; vm_compute; try congruence; eauto.
  - exists 2%nat. vm_compute. reflexivity.
  - exists v, w'. split; [exact Hr|].
    destruct i as [|[|[|[|i]]]]; try (vm_compute in Hw; discriminate Hw); injection Hi as <-; auto.
Defined.

Lemma sizes_exact_witness :
  exists w, steps demo_mapper demo_ops demo_policy = Ok (tt, w) /\ sumZ (size <$> partInfo w) = totalSize w.
Proof.
  assert (exists w, steps demo_mapper demo_ops demo_policy = Ok (tt, w)) as (w & Hw) by (eexists; vm_compute; reflexivity).
  exists w. split; [exact Hw|].
  eapply (sizes_exact demo_mapper 2 demo_monitor 8 4 false demo_ops demo_policy w); [lia|unfold W32; lia|vm_compute; reflexivity| |exact Hw].
  intros req p Hin Hp. unfold demo_ops in Hin. rewrite !elem_of_cons, elem_of_nil in Hin.
  destruct Hin as [[= ->]|Hin]; [vm_compute in Hp; injection Hp as <-; lia|]. naive_solver.
Defined.
