(* ===== verification/Hierarchy.v ===== *)
(** * The memory hierarchy as a whole: properties and a concrete system

    Sequences of core accesses on an initially empty hierarchy: they never
    fail, they keep the caches coherent and inclusive, and they grant the
    permission asked for.  The witnesses run on two private L1s over a shared
    L2, with set-associative LRU arrays, a fixed-delay network and a
    fixed-latency memory. *)

From stdpp Require Import base tactics numbers list gmap sets strings.
From Stdlib Require Import ZArith Lia.
From S2P Require Import Prelude.
From S2P Require Import MemTypes.
From S2P Require Import Coherence.
From S2P Require Import CoherenceInv.
From S2P Require Import CoherenceInval.
From S2P Require Import CoherenceAccess.
From S2P Require Import CoherenceMain.
From S2P Require Import Hash.
From S2P Require Import ReplPolicies.
From S2P Require Import CacheArrays.
From S2P Require Import MemCtrls.

Open Scope Z_scope.

(** A request of a core to its terminal cache. *)
Record CoreReq : Type := mkCoreReq {
  cr_cache : nat;
  cr_addr : Z;
  cr_type : AccessType;
  cr_cycle : Z;
  cr_src : Z;
  cr_flags : Z;
}.

Section Runs.
Context {A N MM : Type} `{!Inhabited A} `{!CacheArray A} `{!CacheArrayOk A}.
Context `{!Network N} `{!NetworkOk N} `{!MemCtrl MM} `{!MemCtrlOk MM}.
Context (cfg : nat -> CacheCfg) (level : nat -> nat) (top : nat).
Abbreviation Sys := (Sys A N MM).
Implicit Types (σ : Sys) (a : Z) (c d p : nat).

(** A hierarchy whose caches are empty. *)
Definition init_caches (arrs : gmap nat A) : gmap nat (Cache A) :=
  (fun s => mkCache s ∅ ∅ (fun _ => 0)) <$> arrs.
Definition init_sys (arrs : gmap nat A) (n : N) (mm : MM) : Sys := mkSys (init_caches arrs) I n mm.

Definition core_step (d n : nat) (r : CoreReq) : st Sys Z :=
  core_access cfg d n (cr_cache r) (cr_addr r) (cr_type r) (cr_cycle r) (cr_src r) (cr_flags r).
Fixpoint core_run (d n : nat) (l : list CoreReq) : st Sys unit :=
  match l with [] => mret tt | r :: l => core_step d n r;; core_run d n l end.

(** The requests a core can send: demand GETS and GETX at a terminal cache. *)
Record core_req_ok (r : CoreReq) : Prop := {
  cq_terminal : c_terminal (cfg (cr_cache r)) = true;
  cq_addr : arr_addr_ok (A:=A) (cr_addr r);
  cq_type : IsGet (cr_type r) = true;
  cq_cycle : access_room level top (cr_cache r) (cr_cycle r);
  cq_flags : demand_flags (cr_flags r);
}.

(** What coherence means. A cache holds what the caches below it hold, with
    at least their exclusivity; a line that one cache holds exclusively is in
    no cache beside it, only in caches above or below it; and the directory of
    a cache lists exactly the children that hold the line. *)
Record coherent σ : Prop := {
  coh_incl : forall a p k ch, child_at cfg a p k ch -> lst σ ch a <> I ->
    lst σ p a <> I /\ (excl (lst σ ch a) -> excl (lst σ p a));
  coh_single : forall a r d1 d2, below cfg a r d1 -> below cfg a r d2 -> excl (lst σ d1 a) -> lst σ d2 a <> I ->
    below cfg a d1 d2 \/ below cfg a d2 d1;
  coh_dir : forall a p k ch id, child_at cfg a p k ch -> find σ p a = Some id ->
    (k ∈ sharers (entry σ p id) <-> lst σ ch a <> I) /\
    numSharers (entry σ p id) = Z.of_nat (size (sharers (entry σ p id)));
}.

Lemma sharer_iff pend σ a p k ch id :
  Inv cfg pend σ -> child_at cfg a p k ch -> find σ p a = Some id ->
  (k ∈ sharers (entry σ p id) <-> lst σ ch a <> I).
Proof.
  intros HI Hk Hf. split.
  - intros Hs. destruct (eo_child _ _ _ _ _ (no_entry _ _ _ _ (inv_node _ _ _ HI a p) _ Hf) k Hs) as (ch' & Hc' & Hl & _).
    by rewrite (child_at_fun _ _ _ _ _ _ Hc' Hk) in Hl.
  - intros Hl. destruct (no_incl _ _ _ _ (inv_node _ _ _ HI a p) _ _ Hk Hl) as (id' & Hf' & Hs). congruence.
Qed.

Lemma Inv_incl pend σ a p k ch : Inv cfg pend σ -> child_at cfg a p k ch -> lst σ ch a <> I ->
  lst σ p a <> I /\ (excl (lst σ ch a) -> excl (lst σ p a)).
Proof.
  intros HI Hk Hl. destruct (no_incl _ _ _ _ (inv_node _ _ _ HI a p) _ _ Hk Hl) as (id & Hf & Hs).
  pose proof (no_entry _ _ _ _ (inv_node _ _ _ HI a p) _ Hf) as HE. rewrite (lst_found _ _ _ _ Hf). split.
  - intros Hb. pose proof (eo_inv _ _ _ _ _ HE Hb). by eapply elem_nonempty.
  - intros Hx. destruct (eo_child _ _ _ _ _ HE k Hs) as (ch' & Hc' & _ & Hiff).
    rewrite (child_at_fun _ _ _ _ _ _ Hc' Hk) in Hiff.
    apply (eo_excl _ _ _ _ _ HE); [by apply Hiff|by eapply elem_nonempty].
Qed.

(** Two children that hold a line, one of them exclusively, are the same. *)
Lemma Inv_siblings pend σ a p k1 k2 c1 c2 : Inv cfg pend σ -> child_at cfg a p k1 c1 -> child_at cfg a p k2 c2 ->
  excl (lst σ c1 a) -> lst σ c2 a <> I -> k1 = k2.
Proof.
  intros HI H1 H2 Hx Hl. pose proof (excl_not_I _ Hx) as Hl1.
  destruct (no_incl _ _ _ _ (inv_node _ _ _ HI a p) _ _ H1 Hl1) as (id & Hf & Hs1).
  pose proof (no_entry _ _ _ _ (inv_node _ _ _ HI a p) _ Hf) as HE.
  assert (k2 ∈ sharers (entry σ p id)) as Hs2 by (by eapply sharer_iff).
  destruct (eo_child _ _ _ _ _ HE k1 Hs1) as (ch' & Hc' & _ & Hiff).
  rewrite (child_at_fun _ _ _ _ _ _ Hc' H1) in Hiff. apply Hiff in Hx.
  destruct (eo_excl _ _ _ _ _ HE Hx) as [Hsz _]; [by eapply elem_nonempty|].
  apply size_1_elem_of in Hsz as [x Heq]. apply leibniz_equiv in Heq. rewrite Heq in Hs1, Hs2.
  apply elem_of_singleton in Hs1, Hs2. congruence.
Qed.

Context (WF : WfCfg cfg level top).

Lemma below_holds pend σ a c d : Inv cfg pend σ -> below cfg a c d -> lst σ d a <> I -> lst σ c a <> I.
Proof. intros HI Hb Hl HI0. apply Hl. eapply below_all_I; [|done|done]. intros. apply HI. Qed.

Lemma below_excl pend σ a c d : Inv cfg pend σ -> below cfg a c d -> excl (lst σ d a) -> excl (lst σ c a).
Proof.
  intros HI Hb Hx. destruct (decide (excl (lst σ c a))) as [|Hn]; [done|].
  destruct (below_not_excl cfg σ a c d); [intros; apply HI|done..].
Qed.

Lemma Inv_single pend σ a r d1 d2 : Inv cfg pend σ -> below cfg a r d1 -> below cfg a r d2 ->
  excl (lst σ d1 a) -> lst σ d2 a <> I -> below cfg a d1 d2 \/ below cfg a d2 d1.
Proof using WF.
  intros HI H1 H2 Hx Hl. remember (level r) as n eqn:Hn. revert r Hn H1 H2.
  induction n as [n IH] using lt_wf_ind. intros r -> H1 H2.
  destruct (below_inv cfg a r d1 H1) as [->|(k1 & c1 & Hk1 & Hb1)]; [by left|].
  destruct (below_inv cfg a r d2 H2) as [->|(k2 & c2 & Hk2 & Hb2)]; [by right|].
  assert (k1 = k2) as ->.
  { eapply Inv_siblings; [done..|by eapply below_excl|by eapply below_holds]. }
  rewrite (child_at_fun _ _ _ _ _ _ Hk2 Hk1) in Hb2.
  eapply (IH (level c1)); [by eapply child_at_level|done..].
Qed.

Lemma Inv_coherent σ : Inv cfg no_pend σ -> coherent σ.
Proof using WF.
  intros HI. split.
  - intros a p k ch. by apply Inv_incl with no_pend.
  - intros a r d1 d2. by apply Inv_single with no_pend.
  - intros a p k ch id Hk Hf. split; [by eapply sharer_iff|].
    apply (no_entry _ _ _ _ (inv_node _ _ _ HI a p) _ Hf).
Qed.

Lemma init_Inv (arrs : gmap nat A) (n : N) (mm : MM) :
  (forall c, arr_inv None (arrs !!! c)) -> mem_inv mm -> Inv cfg no_pend (init_sys arrs n mm).
Proof using Type.
  intros Ha Hm. set (σ := init_sys arrs n mm).
  assert (forall c, arr (cache_of σ c) = arrs !!! c /\ bcc (cache_of σ c) = ∅ /\ tcc (cache_of σ c) = ∅) as Hc.
  { intros c. unfold cache_of, σ, init_sys, init_caches. simpl. rewrite !lookup_total_alt, lookup_fmap.
    by destruct (arrs !! c). }
  assert (forall c id, bst σ c id = I) as Hb.
  { intros c id. unfold bst. destruct (Hc c) as (_ & -> & _). by rewrite lookup_total_empty. }
  assert (forall c id, entry σ c id = Entry_clear) as He.
  { intros c id. unfold entry. destruct (Hc c) as (_ & _ & ->). by rewrite lookup_total_empty. }
  assert (forall c a, lst σ c a = I) as Hl.
  { intros c a. unfold lst. by destruct (find σ c a). }
  split.
  - intros c. destruct (Hc c) as (-> & _). apply Ha.
  - intros c id. by rewrite Hb.
  - intros c id _. by rewrite He.
  - intros a d. split.
    + intros id _. split; rewrite He; [done|done|by intros ? ?%not_elem_of_empty|done].
    + intros k ch _. by rewrite Hl.
  - done.
Qed.

Lemma core_run_spec d n l σ : (top <= d)%nat -> (top < n)%nat -> Inv cfg no_pend σ -> Forall core_req_ok l ->
  wp (core_run d n l) σ (fun _ σ' => Inv cfg no_pend σ').
Proof using WF NetworkOk0.
  intros Hd Hn HI Hl. revert σ HI. induction Hl as [|r l [Ht Ha Hty Hcy Hfl] Hl IH]; intros σ HI; [done|].
  simpl. wp_step. eapply wp_mono; [eapply (core_access_spec cfg level top WF); try done|].
  - pose proof (wf_top _ _ _ WF (cr_cache r)). lia.
  - intros _ σ1 (_ & HI1 & _). by apply IH.
Qed.
End Runs.

(** ** Two L1s over a shared L2 *)
Module Example.

Definition Arr := SetAssocArray LRUReplPolicy IdHashFamily.
(** [numLines] lines in ways of [assoc]. *)
Definition mk_arr (numLines assoc : Z) : Arr :=
  mkSA ∅ (LRU_init true numLines) IdHash numLines (numLines / assoc) assoc (numLines / assoc - 1).
#[global] Instance Arr_inhabited : Inhabited Arr := populate (mk_arr 1 1).
Definition arrays : gmap nat Arr := {[ 0%nat := mk_arr 2 2; 1%nat := mk_arr 2 2; 2%nat := mk_arr 4 2 ]}.

Definition cfg (c : nat) : CacheCfg :=
  match c with
  | 0%nat => mkCfg true 0 [ToCache 2] [] 4 4 false false true
  | 1%nat => mkCfg true 1 [ToCache 2] [] 4 4 false false true
  | 2%nat => mkCfg false 0 [ToMem 0] [0; 1]%nat 12 12 false false false
  | _ => mkCfg true 0 [ToMem 0] [] 4 4 false false false
  end.
Definition level (c : nat) : nat := match c with 2%nat => 1%nat | _ => 0%nat end.
Definition top : nat := 2.

Definition name (r : MemRef) : string :=
  match r with ToCache 0 => "l1-0" | ToCache 1 => "l1-1" | ToCache _ => "l2" | ToMem _ => "mem" end.
Definition network : FixedDelayNetwork :=
  mkFDN (match FDN_load [("l1-0", "l2", 3); ("l1-1", "l2", 5)]%string ∅ with Ok m => m | Err _ => ∅ end) name.
Definition memory : SimpleMemory := mkSimple (fun _ => 100) 0.

Lemma cfg_wf : WfCfg cfg level top.
Proof.
  split.
  - by intros [|[|[|c]]].
  - by intros [|[|[|c]]].
  - by intros [|[|[|c]]].
  - intros [|[|[|c]]] p Hp%list_elem_of_singleton; try done; injection Hp as ->; (split; [vm_compute; lia|done]).
  - intros [|[|[|p]]] k c; simpl; rewrite ?lookup_nil; try done.
    destruct k as [|[|k]]; simpl; rewrite ?lookup_nil; intros [= <-]; (split; [done|vm_compute; lia]).
  - by intros [|[|[|c]]].
  - intros [|[|[|c]]]; by split.
  - intros [|[|[|c]]]; simpl; lia.
  - intros [|[|[|c]]]; vm_compute; lia.
  - vm_compute. congruence.
Qed.

Lemma mk_arr_inv n a : isPow2 (n / a) = true -> 0 < a -> n = n / a * a -> n <= W32 / 2 -> arr_inv None (mk_arr n a).
Proof.
  intros Hp Ha Hn Hb. split; [|done]. assert (0 < n / a).
  { destruct (Z.lt_trichotomy (n / a) 0) as [Hneg|[Hz|?]]; [|by rewrite Hz in Hp|done].
    exfalso. unfold isPow2 in Hp. apply andb_true_iff in Hp as [_ Hp%Z.eqb_eq].
    assert (Z.land (n / a) (n / a - 1) < 0) by (apply Z.land_neg; lia). lia. }
  split; simpl; try done. lia.
Qed.

Lemma arrays_inv c : arr_inv None (arrays !!! c).
Proof.
  destruct (decide (c = 0%nat)) as [->|]; [apply mk_arr_inv; reflexivity || lia || (vm_compute; congruence)|].
  destruct (decide (c = 1%nat)) as [->|]; [apply mk_arr_inv; reflexivity || lia || (vm_compute; congruence)|].
  destruct (decide (c = 2%nat)) as [->|]; [apply mk_arr_inv; reflexivity || lia || (vm_compute; congruence)|].
  unfold arrays. rewrite !lookup_total_insert_ne, lookup_total_singleton_ne by done.
  apply mk_arr_inv; reflexivity || lia || (vm_compute; congruence).
Qed.

Lemma memory_inv : mem_inv memory.
Proof. intros m. unfold W32. simpl. lia. Qed.

Definition start : Sys Arr FixedDelayNetwork SimpleMemory := init_sys arrays network memory.

(** Stores and loads of both cores, with evictions from the L1s. *)
Definition requests : list CoreReq := [
  mkCoreReq 0 16 GETS 10 0 0; mkCoreReq 1 16 GETS 200 1 0; mkCoreReq 1 16 GETX 400 1 0;
  mkCoreReq 0 16 GETS 600 0 0; mkCoreReq 0 18 GETX 800 0 0; mkCoreReq 0 20 GETX 1000 0 0;
  mkCoreReq 1 18 GETS 1200 1 0; mkCoreReq 0 22 GETS 1400 0 0].

Lemma requests_ok : Forall (core_req_ok (A:=Arr) cfg level top) requests.
Proof.
  repeat (constructor; [split; [reflexivity|by split|reflexivity|split; vm_compute; congruence|by split]|]). constructor.
Qed.
End Example.

(** ** Races between a request and invalidations *)

(** The requests a child sends, by the state of its line. *)
Definition legal_request (t : AccessType) (s : MESIState) : Prop :=
  match t with
  | GETS => s = I
  | GETX => s = I \/ s = S
  | PUTS => s = S \/ s = E
  | PUTX => s = M
  end.
(** What an invalidation from above does to a line that waits for its request
    to be served ([MESIBottomCC::processInval]). *)
Inductive inval_step : MESIState -> MESIState -> Prop :=
  | step_INV s : s <> I -> inval_step s I
  | step_INVX s : excl s -> inval_step s S.

Lemma inval_steps_to s s' : rtc inval_step s s' -> s' = s \/ (s' = I /\ s <> I) \/ (s' = S /\ excl s).
Proof.
  induction 1 as [|s1 s2 s3 H _ IH]; [by left|].
  destruct H as [s|s Hx]; destruct IH as [->|[[-> ?]|[-> Hx']]]; try done.
  - right; left; done.
  - by destruct Hx'.
  - right; right; done.
  - right; left. split; [done|by apply excl_not_I].
  - by destruct Hx'.
Qed.

(** ** Properties *)
Section Properties.
Context {A N MM : Type} `{!Inhabited A} `{!CacheArray A} `{!CacheArrayOk A}.
Context `{!Network N} `{!NetworkOk N} `{!MemCtrl MM} `{!MemCtrlOk MM}.
Context (cfg : nat -> CacheCfg) (level : nat -> nat) (top : nat).

(** C1: in a well-formed inclusive hierarchy, any sequence of demand accesses
    from the cores, starting from empty caches, runs to its end without a
    failed assertion, a panic or a lack of fuel, and leaves every line
    coherent: inclusion at every level, a single writer, and directories that
    list exactly the children holding the line. *)
Theorem accesses_coherent (d n : nat) (arrs : gmap nat A) (nw : N) (mm : MM) (l : list CoreReq) :
  WfCfg cfg level top -> (top <= d)%nat -> (top < n)%nat ->
  (forall c, arr_inv None (arrs !!! c)) -> mem_inv mm -> Forall (core_req_ok (A:=A) cfg level top) l ->
  wp (core_run cfg d n l) (init_sys arrs nw mm) (fun _ σ' => coherent cfg σ').
Proof.
  intros WF Hd Hn Ha Hm Hl. eapply wp_mono; [eapply core_run_spec; try done; by apply init_Inv|].
  intros [] σ' HI; cbv beta in HI. by eapply Inv_coherent.
Qed.

(** C2: after any such history, one more access is answered no earlier than it
    was sent and leaves its terminal cache with the permission it asked for; a
    store leaves no other terminal cache of the same tree with a copy. *)
Theorem access_grants (d n : nat) (arrs : gmap nat A) (nw : N) (mm : MM) (l : list CoreReq) (r : CoreReq) :
  WfCfg cfg level top -> (top <= d)%nat -> (top < n)%nat ->
  (forall c, arr_inv None (arrs !!! c)) -> mem_inv mm -> Forall (core_req_ok (A:=A) cfg level top) (l ++ [r]) ->
  wp (core_run cfg d n l;; core_step cfg d n r) (init_sys arrs nw mm) (fun resp σ' =>
    cr_cycle r <= resp /\ lst σ' (cr_cache r) (cr_addr r) <> I /\
    (cr_type r = GETX -> lst σ' (cr_cache r) (cr_addr r) = M /\
       forall root c, below cfg (cr_addr r) root (cr_cache r) -> below cfg (cr_addr r) root c ->
         c_terminal (cfg c) = true -> c <> cr_cache r -> lst σ' c (cr_addr r) = I)).
Proof.
  intros WF Hd Hn Ha Hm [Hl Hr]%Forall_app. apply Forall_cons in Hr as [Hr _]. wp_step.
  eapply wp_mono; [eapply core_run_spec; try done; by apply init_Inv|]. intros [] σ HI. cbv beta in HI.
  destruct Hr as [Ht Hadr Hty Hcy Hfl].
  eapply wp_mono; [eapply (core_access_spec cfg level top WF); try done|].
  { pose proof (wf_top _ _ _ WF (cr_cache r)). lia. }
  intros resp σ' (Hresp & HI' & Hp). split; [done|]. destruct (cr_type r); try done; simpl in Hp.
  rewrite Hp. split; [done|]. intros _. split; [done|]. intros root c H1 H2 Hct Hne.
  destruct (decide (lst σ' c (cr_addr r) = I)) as [|Hc]; [done|exfalso].
  destruct (Inv_single cfg level top WF no_pend σ' (cr_addr r) root (cr_cache r) c HI' H1 H2) as [Hb|Hb].
  - rewrite Hp. by right.
  - done.
  - by apply Hne, (terminal_below cfg level top WF (cr_cache r) (cr_addr r)).
  - by apply Hne, eq_sym, (terminal_below cfg level top WF c (cr_addr r)).
Qed.

(** C24: an invalidation of a line that a cache holds always succeeds; the line
    is gone from the whole subtree and from nowhere else, and the writeback
    flag comes back set exactly when some cache of the subtree held the line
    modified: no dirty data is dropped silently. *)
Theorem invalidate_clears (pend : nat -> option (Z * Z)) (d c : nat) (a cy src : Z) (σ : Sys A N MM) :
  WfCfg cfg level top -> (top <= d)%nat -> Inv cfg pend σ -> arr_addr_ok (A:=A) a -> lst σ c a <> I ->
  0 <= cy <= cycle_limit ->
  wp (invalidate cfg d c (mkInv a INV cy src) false) σ (fun '(resp, wb) σ' =>
    cy <= resp /\ (forall x, below cfg a c x -> lst σ' x a = I) /\
    (forall x, ~ below cfg a c x -> lst σ' x a = lst σ x a) /\
    (forall x b, b <> a -> lst σ' x b = lst σ x b) /\
    (wb = true <-> exists x, below cfg a c x /\ lst σ x a = M)).
Proof.
  intros WF Hd HI Ha Hl Hcy. eapply wp_mono; [apply (invalidate_spec cfg level top WF)|].
  { pose proof (wf_top _ _ _ WF c). lia. }
  { split; try done; [by left|intros x; by exists (pend x); apply HI|intros; apply HI|].
    pose proof (slack cfg level top WF c). unfold cycle_room, cycle_limit in *. lia. }
  intros [resp wb] σ' ([Hsa _ _ Hin Hout] & Hr & Hwb). simpl in *.
  split; [lia|]. split; [|split; [|split]].
  - intros x Hx. unfold lst. rewrite (sa_find _ _ Hsa). destruct (find σ x a) as [i|] eqn:Hf; [|done].
    by destruct (Hin x i Hx Hf) as [-> _].
  - intros x Hx. apply lst_same; [done|]. intros i _. apply Hout. by intros [].
  - intros x b Hb. apply lst_same; [done|]. intros i Hi. apply Hout. intros [_ Hi'].
    apply Hb. by eapply (find_inj cfg).
  - rewrite Hwb. unfold dirty_in. split; [by intros [|]|by right].
Qed.

(** C35: whatever invalidations reach a line while its request waits for the
    lock, [CheckForMESIRace] does not panic or assert: it skips a writeback
    whose line is gone, and otherwise goes on with a request that is legal in
    the state the line now has. *)
Theorem mesi_race_resolved (t : AccessType) (initial cur : MESIState) :
  legal_request t initial -> rtc inval_step initial cur ->
  exists t' skip, CheckForMESIRace t cur initial = Ok (t', skip) /\
    (if skip : bool then cur = I /\ IsPut t = true else legal_request t' cur /\ IsGet t' = IsGet t).
Proof.
  intros Ht Hs. destruct (inval_steps_to _ _ Hs) as [->|[[-> Hn]|[-> [-> | ->]]]]; unfold CheckForMESIRace.
  - rewrite decide_True by done. by exists t, false.
  - destruct t; simpl in Ht; [congruence| | |]; (rewrite decide_False by congruence).
    + destruct Ht as [? | ->]; [done|]. exists GETX, false. split; [done|]. split; [by left|done].
    + by exists PUTS, true.
    + by exists PUTX, true.
  - destruct t; simpl in Ht; try (by destruct Ht); try congruence. exists PUTS, false. split; [done|]. split; [by left|done].
  - destruct t; simpl in Ht; try (by destruct Ht); try congruence. exists PUTS, false. split; [done|]. split; [by left|done].
Qed.

(** every line address has a parent at every cache: the bank index that
    the address folds to is within the cache's parents. *)
Theorem getParentId_in_range (cf : CacheCfg) (a : Z) :
  c_parents cf <> [] -> (getParentId cf a < length (c_parents cf))%nat /\ 0 <= addrFold a < 65536.
Proof.
  intros Hne. assert (0 < Z.of_nat (length (c_parents cf))) by (destruct (c_parents cf); simpl; [done|lia]).
  split.
  - unfold getParentId. pose proof (Z.mod_pos_bound (addrFold a) (Z.of_nat (length (c_parents cf)))). lia.
  - assert (forall x y, 0 <= x < 2 ^ 16 -> 0 <= y < 2 ^ 16 -> 0 <= Z.lxor x y < 2 ^ 16) as Hx.
    { intros x y [Hx0 Hx1] [Hy0 Hy1]. split; [apply Z.lxor_nonneg; lia|].
      destruct (decide (Z.lxor x y = 0)) as [->|]; [done|].
      apply Z.log2_lt_pow2; [assert (0 <= Z.lxor x y) by (apply Z.lxor_nonneg; lia); lia|].
      pose proof (Z.log2_lxor x y Hx0 Hy0).
      assert (forall z, 0 <= z < 2 ^ 16 -> Z.log2 z < 16) as Hlog.
      { intros z Hz. destruct (decide (z = 0)) as [->|]; [done|]. apply Z.log2_lt_pow2; lia. }
      pose proof (Hlog x ltac:(lia)). pose proof (Hlog y ltac:(lia)). lia. }
    assert (forall i, 0 <= Z.land 65535 (Z.shiftr a (16 * i)) < 2 ^ 16) as Hc.
    { intros i. change 65535 with (Z.ones 16). rewrite Z.land_comm, Z.land_ones by lia. apply Z.mod_pos_bound. lia. }
    unfold addrFold. rewrite u32_id; [repeat apply Hx; try apply Hc; lia|].
    assert (0 <= Z.lxor (Z.lxor (Z.lxor (Z.lxor 0 (Z.land 65535 (Z.shiftr a (16 * 0)))) (Z.land 65535 (Z.shiftr a (16 * 1))))
       (Z.land 65535 (Z.shiftr a (16 * 2)))) (Z.land 65535 (Z.shiftr a (16 * 3))) < 2 ^ 16) as Hall.
    { repeat apply Hx; try apply Hc; lia. }
    unfold in_u32, W32. lia.
Qed.
End Properties.

(** ** Witnesses *)
Lemma accesses_coherent_witness :
  wp (core_run Example.cfg 2 3 Example.requests) Example.start (fun _ σ' => coherent Example.cfg σ').
Proof.
  apply (accesses_coherent Example.cfg Example.level Example.top 2 3 Example.arrays Example.network Example.memory).
  - exact Example.cfg_wf.
  - vm_compute. lia.
  - vm_compute. lia.
  - exact Example.arrays_inv.
  - exact Example.memory_inv.
  - exact Example.requests_ok.
Defined.

Lemma access_grants_witness :
  let r := mkCoreReq 1 16 GETX 1600 1 0 in
  wp (core_run Example.cfg 2 3 Example.requests;; core_step Example.cfg 2 3 r) Example.start
    (fun resp σ' => 1600 <= resp /\ lst σ' 1 16 = M /\ lst σ' 0 16 = I).
Proof.
  intros r. eapply wp_mono.
  - apply (access_grants Example.cfg Example.level Example.top 2 3 Example.arrays Example.network Example.memory Example.requests r).
    + exact Example.cfg_wf.
    + vm_compute. lia.
    + vm_compute. lia.
    + exact Example.arrays_inv.
    + exact Example.memory_inv.
    + apply Forall_app. split; [exact Example.requests_ok|].
      constructor; [split; [reflexivity|by split|reflexivity|split; vm_compute; congruence|by split]|constructor].
  - intros resp σ' (Hr & _ & Hx). destruct (Hx eq_refl) as [HM Hothers]. split; [exact Hr|]. split; [exact HM|].
    apply (Hothers 2%nat 0%nat); [|..|reflexivity|done].
    + apply below_step with 2%nat 1%nat; [constructor|split; reflexivity].
    + apply below_step with 2%nat 0%nat; [constructor|split; reflexivity].
Defined.

Lemma invalidate_clears_witness :
  let σ := match core_run Example.cfg 2 3 [mkCoreReq 0 16 GETX 10 0 0] Example.start with Ok (_, σ) => σ | Err _ => Example.start end in
  wp (invalidate Example.cfg 2 2 (mkInv 16 INV 500 0) false) σ (fun '(resp, wb) σ' =>
    500 <= resp /\ lst σ' 0 16 = I /\ wb = true).
Proof.
  intros σ.
  assert (wp (core_run Example.cfg 2 3 [mkCoreReq 0 16 GETX 10 0 0]) Example.start (fun _ σ' => Inv Example.cfg no_pend σ')) as Hrun.
  { apply (core_run_spec Example.cfg Example.level Example.top Example.cfg_wf).
    - vm_compute. lia.
    - vm_compute. lia.
    - apply init_Inv; [exact Example.arrays_inv|exact Example.memory_inv].
    - constructor; [split; [reflexivity|by split|reflexivity|split; vm_compute; congruence|by split]|constructor]. }
  assert (Inv Example.cfg no_pend σ) as HI.
  { unfold wp in Hrun. unfold σ. destruct (core_run _ _ _ _ _) as [[? ?]|]; [exact Hrun|destruct Hrun]. }
  eapply wp_mono.
  - apply (invalidate_clears Example.cfg Example.level Example.top no_pend 2 2 16 500 0 σ).
    + exact Example.cfg_wf.
    + vm_compute. lia.
    + exact HI.
    + by split.
    + intros Heq. vm_compute in Heq. discriminate Heq.
    + unfold cycle_limit. lia.
  - intros [resp wb] σ' (Hr & Hall & _ & _ & Hwb).
    assert (below Example.cfg 16 2 0) as Hb by (apply below_step with 2%nat 0%nat; [constructor|split; reflexivity]).
    split; [exact Hr|]. split; [exact (Hall 0%nat Hb)|]. apply Hwb. exists 0%nat. split; [exact Hb|]. vm_compute. reflexivity.
Defined.

Lemma mesi_race_resolved_witness :
  legal_request PUTX M /\ rtc inval_step M I /\
  exists t' skip, CheckForMESIRace PUTX I M = Ok (t', skip) /\
    (if skip : bool then I = I /\ IsPut PUTX = true else legal_request t' I /\ IsGet t' = IsGet PUTX).
Proof.
  assert (rtc inval_step M I) as Hs.
  { apply rtc_l with S; [apply step_INVX; by right|]. apply rtc_once. by apply step_INV. }
  split; [reflexivity|]. split; [exact Hs|]. apply (mesi_race_resolved PUTX M I); [reflexivity|exact Hs].
Defined.

Lemma getParentId_in_range_witness :
  let cf := mkCfg true 0 [ToCache 1; ToCache 2; ToCache 3] [] 4 4 false false false in
  (getParentId cf 123456789012345 < 3)%nat /\ 0 <= addrFold 123456789012345 < 65536.
Proof. intros cf. apply (getParentId_in_range cf). done. Defined.
