(* ===== verification/Dram.v ===== *)
(** * The DRAM state machine of Ramulator (ramulator/DRAM.h)

    A DRAM standard is a record of tables; a channel is a tree of nodes, each
    with its state, its open rows, the earliest clock of every command and the
    recent issues of every command.  Decoding a command into its prerequisite,
    checking it, updating states and timings are the recursive methods of the
    [DRAM] class template. *)

From stdpp Require Import base tactics numbers list gmap.
From Stdlib Require Import ZArith Lia.
From S2P Require Import Prelude.

Open Scope Z_scope.

(** Results in sequence. *)
Definition bind_res {A B} (r : result A) (f : A -> result B) : result B :=
  match r with Ok a => f a | Err e => Err e end.
Fixpoint fold_res {A B} (f : A -> B -> result A) (l : list B) (a : A) : result A :=
  match l with [] => Ok a | b :: l => bind_res (f a b) (fold_res f l) end.

Section Dram.
Context {C St : Type} `{!EqDecision C}.

(** [T::TimingEntry]; the fields left out of a C++ initialiser are zero. *)
Record TimingEntry : Type := mkTE { te_cmd : C; te_dist : nat; te_val : Z; te_sibling : bool }.

(** The serving and refresh statistics of a node. *)
Record ServStats : Type := mkServ {
  active_cycles : Z;
  refresh_cycles : Z;
  active_refresh_overlap_cycles : Z;
  serving_requests : Z;
  cur_serving_requests : Z;
  begin_of_serving : Z;
  end_of_serving : Z;
  begin_of_cur_reqcnt : Z;
  begin_of_refreshing : Z;
  end_of_refreshing : Z;
  refresh_intervals : list (Z * Z);
}.
Definition serv_init : ServStats := mkServ 0 0 0 0 0 (-1) (-1) (-1) (-1) (-1) [].

(** A node: its place in the tree, its state and that of its rows, its clock,
    the earliest clock of each command (-1: any) and the clocks of the latest
    issues of each command, newest first. *)
Inductive Node : Type := mkNode {
  nd_level : nat;
  nd_id : nat;
  nd_state : St;
  nd_rows : gmap Z St;
  nd_cur : Z;
  nd_next : C -> Z;
  nd_prev : C -> list Z;
  nd_serv : ServStats;
  nd_children : list Node;
}.

Definition set_state (s : St) (nd : Node) : Node :=
  mkNode (nd_level nd) (nd_id nd) s (nd_rows nd) (nd_cur nd) (nd_next nd) (nd_prev nd) (nd_serv nd) (nd_children nd).
Definition set_rows (m : gmap Z St) (nd : Node) : Node :=
  mkNode (nd_level nd) (nd_id nd) (nd_state nd) m (nd_cur nd) (nd_next nd) (nd_prev nd) (nd_serv nd) (nd_children nd).
Definition set_cur (clk : Z) (nd : Node) : Node :=
  mkNode (nd_level nd) (nd_id nd) (nd_state nd) (nd_rows nd) clk (nd_next nd) (nd_prev nd) (nd_serv nd) (nd_children nd).
Definition set_next (c : C) (x : Z) (nd : Node) : Node :=
  mkNode (nd_level nd) (nd_id nd) (nd_state nd) (nd_rows nd) (nd_cur nd)
    (fun d => if decide (d = c) then x else nd_next nd d) (nd_prev nd) (nd_serv nd) (nd_children nd).
Definition set_prev (c : C) (l : list Z) (nd : Node) : Node :=
  mkNode (nd_level nd) (nd_id nd) (nd_state nd) (nd_rows nd) (nd_cur nd) (nd_next nd)
    (fun d => if decide (d = c) then l else nd_prev nd d) (nd_serv nd) (nd_children nd).
Definition set_serv (v : ServStats) (nd : Node) : Node :=
  mkNode (nd_level nd) (nd_id nd) (nd_state nd) (nd_rows nd) (nd_cur nd) (nd_next nd) (nd_prev nd) v (nd_children nd).
Definition set_children (l : list Node) (nd : Node) : Node :=
  mkNode (nd_level nd) (nd_id nd) (nd_state nd) (nd_rows nd) (nd_cur nd) (nd_next nd) (nd_prev nd) (nd_serv nd) l.

(** A DRAM standard. An absent table entry is an empty [std::function]; a
    prerequisite of [Command::MAX] is [None]. Levels are their numbers. *)
Record Spec : Type := mkSpec {
  sp_start : nat -> St;
  sp_scope : C -> nat;
  sp_prereq : nat -> C -> option (Node -> C -> Z -> result (option C));
  sp_rowhit : nat -> C -> option (Node -> C -> Z -> result bool);
  sp_rowopen : nat -> C -> option (Node -> C -> Z -> result bool);
  sp_lambda : nat -> C -> option (Node -> Z -> Node);
  sp_timing : nat -> C -> list TimingEntry;
  sp_count : nat -> nat;              (* org_entry.count *)
  sp_row : nat;                       (* Level::Row *)
  sp_bank : nat;                      (* Level::Bank *)
  sp_opening : C -> bool;
  sp_refreshing : C -> bool;
}.
Context (spec : Spec).

(** ** The constructor *)
Definition max_dist (l : list TimingEntry) : nat := fold_right (fun t m => Nat.max m (te_dist t)) 0%nat l.

Fixpoint build (n : nat) (level id : nat) : Node :=
  mkNode level id (sp_start spec level) ∅ 0 (fun _ => -1)
    (fun c => replicate (max_dist (sp_timing spec level c)) (-1)) serv_init
    (match n with
     | O => []
     | S n' => if decide (S level = sp_row spec) then [] else build n' (S level) <$> seq 0 (sp_count spec (S level))
     end).
(** [new DRAM<T>(spec, Level::Channel)], given its channel number. *)
Definition DRAM_init (channel : nat) : Node := build (sp_row spec) 0 channel.

(** ** Decode, check, row hit, row open *)
Fixpoint decode (nd : Node) (cmd : C) (addr : nat -> Z) : result C :=
  let child_id := addr (S (nd_level nd)) in
  let descend :=
    if (child_id <? 0) || (match nd_children nd with [] => true | _ => false end) then Ok cmd
    else (fix pick (l : list Node) (i : nat) : result C :=
            match l with
            | [] => Err Panicked
            | c :: l => match i with O => decode c cmd addr | S i => pick l i end
            end) (nd_children nd) (Z.to_nat child_id) in
  match sp_prereq spec (nd_level nd) cmd with
  | Some f => bind_res (f nd cmd child_id) (fun p => match p with Some c => Ok c | None => descend end)
  | None => descend
  end.

Fixpoint check (nd : Node) (cmd : C) (addr : nat -> Z) (clk : Z) : result bool :=
  if negb (nd_next nd cmd =? -1) && (clk <? nd_next nd cmd) then Ok false
  else
    let child_id := addr (S (nd_level nd)) in
    if (child_id <? 0) || bool_decide (nd_level nd = sp_scope spec cmd)
       || (match nd_children nd with [] => true | _ => false end) then Ok true
    else (fix pick (l : list Node) (i : nat) : result bool :=
            match l with
            | [] => Err Panicked
            | c :: l => match i with O => check c cmd addr clk | S i => pick l i end
            end) (nd_children nd) (Z.to_nat child_id).

(** check_row_hit and check_row_open, over their table. *)
Fixpoint check_row (table : nat -> C -> option (Node -> C -> Z -> result bool)) (nd : Node) (cmd : C) (addr : nat -> Z) : result bool :=
  let child_id := addr (S (nd_level nd)) in
  match table (nd_level nd) cmd with
  | Some f => f nd cmd child_id
  | None =>
      if (child_id <? 0) || (match nd_children nd with [] => true | _ => false end) then Ok false
      else (fix pick (l : list Node) (i : nat) : result bool :=
              match l with
              | [] => Err Panicked
              | c :: l => match i with O => check_row table c cmd addr | S i => pick l i end
              end) (nd_children nd) (Z.to_nat child_id)
  end.
Definition check_row_hit : Node -> C -> (nat -> Z) -> result bool := check_row (sp_rowhit spec).
Definition check_row_open : Node -> C -> (nat -> Z) -> result bool := check_row (sp_rowopen spec).

(** The loop of [get_next] below a node. *)
Fixpoint get_next_below (nd : Node) (cmd : C) (addr : nat -> Z) (next_clk : Z) : result Z :=
  let a := addr (S (nd_level nd)) in
  if bool_decide (nd_level nd < sp_scope spec cmd)%nat && (match nd_children nd with [] => false | _ => true end) && (0 <=? a)
  then (fix pick (l : list Node) (i : nat) : result Z :=
          match l with
          | [] => Err Panicked
          | c :: l => match i with
                      | O => get_next_below c cmd addr (Z.max next_clk (nd_next c cmd))
                      | S i => pick l i
                      end
          end) (nd_children nd) (Z.to_nat a)
  else Ok next_clk.
Definition get_next (nd : Node) (cmd : C) (addr : nat -> Z) : result Z :=
  get_next_below nd cmd addr (Z.max (nd_cur nd) (nd_next nd cmd)).

(** ** Updates *)

(** [update_state]; [n] bounds the levels below. *)
Fixpoint update_state (n : nat) (nd : Node) (cmd : C) (addr : nat -> Z) : result Node :=
  let child_id := addr (S (nd_level nd)) in
  let nd := match sp_lambda spec (nd_level nd) cmd with Some f => f nd child_id | None => nd end in
  if bool_decide (nd_level nd = sp_scope spec cmd) || (match nd_children nd with [] => true | _ => false end) then Ok nd
  else
    match n with
    | O => Err NoFuel
    | S n' =>
        if decide (child_id < 0) then Err Panicked
        else match nd_children nd !! Z.to_nat child_id with
             | None => Err Panicked
             | Some c => bind_res (update_state n' c cmd addr) (fun c' =>
                 Ok (set_children (<[Z.to_nat child_id := c']> (nd_children nd)) nd))
             end
    end.

(** One timing entry at a sibling of a target node. *)
Definition timing_sibling (clk : Z) (nd : Node) (t : TimingEntry) : result Node :=
  if negb (te_sibling t) then Ok nd
  else if decide (te_dist t = 1%nat) then Ok (set_next (te_cmd t) (Z.max (nd_next nd (te_cmd t)) (clk + te_val t)) nd)
  else Err AssertFail.

(** The refresh statistics of a target node. *)
Definition refresh_stats (clk : Z) (c : C) (nd : Node) : Node :=
  let v := nd_serv nd in
  let e := Z.max (end_of_refreshing v) (nd_next nd c) in
  set_serv (mkServ (active_cycles v) (refresh_cycles v + (e - clk)) (active_refresh_overlap_cycles v) (serving_requests v)
    (cur_serving_requests v) (begin_of_serving v) (end_of_serving v) (begin_of_cur_reqcnt v) clk e
    (if decide (cur_serving_requests v > 0) then refresh_intervals v ++ [(clk, e)] else refresh_intervals v)) nd.

(** One timing entry at a target node. *)
Definition timing_target (cmd : C) (clk : Z) (nd : Node) (t : TimingEntry) : result Node :=
  if te_sibling t then Ok nd
  else
    match te_dist t with
    | O => Err Panicked                  (* prev[cmd][-1] *)
    | S d =>
        match nd_prev nd cmd !! d with
        | None => Err Panicked
        | Some past =>
            if decide (past < 0) then Ok nd
            else
              let nd := set_next (te_cmd t) (Z.max (nd_next nd (te_cmd t)) (past + te_val t)) nd in
              if sp_refreshing spec cmd && sp_opening spec (te_cmd t) then
                if decide (past = clk) then Ok (refresh_stats clk (te_cmd t) nd) else Err AssertFail
              else Ok nd
        end
    end.

(** The history of a command: the oldest clock makes place for the newest. *)
Definition push_prev (clk : Z) (l : list Z) : list Z :=
  match l with [] => [] | _ => clk :: removelast l end.

Fixpoint update_timing (nd : Node) (cmd : C) (addr : nat -> Z) (clk : Z) : result Node :=
  if bool_decide (Z.of_nat (nd_id nd) <> addr (nd_level nd)) then
    fold_res (timing_sibling clk) (sp_timing spec (nd_level nd) cmd) nd
  else
    let pushed := set_prev cmd (push_prev clk (nd_prev nd cmd)) nd in
    bind_res (fold_res (timing_target cmd clk) (sp_timing spec (nd_level nd) cmd) pushed) (fun nd' =>
    bind_res ((fix go (l : list Node) : result (list Node) :=
                 match l with
                 | [] => Ok []
                 | c :: l => bind_res (update_timing c cmd addr clk) (fun c' =>
                             bind_res (go l) (fun l' => Ok (c' :: l')))
                 end) (nd_children nd)) (fun l =>
    Ok (set_children l nd'))).

(** [DRAM::update]. *)
Definition update (nd : Node) (cmd : C) (addr : nat -> Z) (clk : Z) : result Node :=
  bind_res (update_state (sp_row spec) (set_cur clk nd) cmd addr) (fun nd => update_timing nd cmd addr clk).

(** [update_serving_requests]. *)
Definition serve (delta clk : Z) (v : ServStats) : result ServStats :=
  if negb (bool_decide (delta = 1) || bool_decide (delta = -1)) then Err AssertFail
  else
    let busy := bool_decide (begin_of_cur_reqcnt v <> -1) && bool_decide (cur_serving_requests v > 0) in
    let sr := if busy then serving_requests v + (clk - begin_of_cur_reqcnt v) * cur_serving_requests v else serving_requests v in
    let ac := if busy then active_cycles v + (clk - begin_of_cur_reqcnt v) else active_cycles v in
    let cur := cur_serving_requests v + delta in
    if decide (cur < 0) then Err AssertFail
    else if bool_decide (delta = 1) && bool_decide (cur = 1) then
      let ov := if decide (end_of_refreshing v > clk) then active_refresh_overlap_cycles v + (end_of_refreshing v - clk)
                else active_refresh_overlap_cycles v in
      Ok (mkServ ac (refresh_cycles v) ov sr cur clk (end_of_serving v) clk (begin_of_refreshing v) (end_of_refreshing v)
                 (refresh_intervals v))
    else if decide (cur = 0) then
      if bool_decide (begin_of_serving v <> -1) && bool_decide (delta = -1) then
        let ov := fold_left (fun o r => o + (Z.min clk r.2 - r.1)) (refresh_intervals v) (active_refresh_overlap_cycles v) in
        Ok (mkServ (ac + (clk - clk)) (refresh_cycles v) ov sr cur (begin_of_serving v) clk clk (begin_of_refreshing v)
                   (end_of_refreshing v) [])
      else Err AssertFail
    else Ok (mkServ ac (refresh_cycles v) (active_refresh_overlap_cycles v) sr cur (begin_of_serving v) (end_of_serving v) clk
                    (begin_of_refreshing v) (end_of_refreshing v) (refresh_intervals v)).

Fixpoint update_serving_requests (nd : Node) (addr : nat -> Z) (delta clk : Z) : result Node :=
  if negb (bool_decide (Z.of_nat (nd_id nd) = addr (nd_level nd))) then Err AssertFail
  else
    bind_res (serve delta clk (nd_serv nd)) (fun v =>
      let nd' := set_serv v nd in
      let child_id := addr (S (nd_level nd)) in
      if (child_id <? 0) || (match nd_children nd with [] => true | _ => false end) || bool_decide (sp_bank spec < nd_level nd)%nat
      then Ok nd'
      else bind_res ((fix pick (l : list Node) (i : nat) : result (list Node) :=
              match l with
              | [] => Err Panicked
              | c :: l => match i with
                          | O => bind_res (update_serving_requests c addr delta clk) (fun c' => Ok (c' :: l))
                          | S i => bind_res (pick l i) (fun l' => Ok (c :: l'))
                          end
              end) (nd_children nd) (Z.to_nat child_id)) (fun l => Ok (set_children l nd'))).

(** A run of commands, oldest first. *)
Record Issue : Type := mkIssue { is_cmd : C; is_addr : nat -> Z; is_clk : Z }.
Definition DRAM_run (nd : Node) (l : list Issue) : result Node :=
  fold_res (fun nd i => update nd (is_cmd i) (is_addr i) (is_clk i)) l nd.
End Dram.
Arguments TimingEntry : clear implicits.
Arguments Issue : clear implicits.
Arguments Node : clear implicits.
Arguments Spec : clear implicits.

(** ** Induction and equations *)
Section Trees.
Context {C St : Type} `{!EqDecision C}.
Abbreviation Node := (Node C St).
Abbreviation Spec := (Spec C St).
Abbreviation Issue := (Issue C).
Implicit Types (nd : Node) (spec : Spec) (i : Issue) (L : list Issue).

Lemma Node_tree_ind (P : Node -> Prop) : (forall nd, Forall P (nd_children nd) -> P nd) -> forall nd, P nd.
Proof.
  intros HP. fix IH 1. intros [lev id s rows cur nxt prv v ch]. apply HP. simpl.
  induction ch as [|c ch IHch]; constructor; [apply IH|done].
Qed.

(** The child that an address selects. *)
Definition child_at nd (addr : nat -> Z) : result Node :=
  match nd_children nd !! Z.to_nat (addr (S (nd_level nd))) with Some c => Ok c | None => Err Panicked end.
Definition leaf_here nd (addr : nat -> Z) : bool :=
  (addr (S (nd_level nd)) <? 0) || (match nd_children nd with [] => true | _ => false end).

Lemma check_eq spec nd c addr clk :
  check spec nd c addr clk =
  if negb (nd_next nd c =? -1) && (clk <? nd_next nd c) then Ok false
  else if (addr (S (nd_level nd)) <? 0) || bool_decide (nd_level nd = sp_scope spec c)
          || (match nd_children nd with [] => true | _ => false end) then Ok true
  else bind_res (child_at nd addr) (fun ch => check spec ch c addr clk).
Proof.
  destruct nd as [lev id s rows cur nxt prv v ch]. unfold child_at. simpl.
  destruct (_ && _); [done|]. destruct (_ || _); [done|].
  generalize (Z.to_nat (addr (S lev))). intros k. revert k.
  induction ch as [|x ch IH]; intros [|k]; simpl; first [done|apply IH].
Qed.

Lemma decode_eq spec nd c addr :
  decode spec nd c addr =
  let descend := if leaf_here nd addr then Ok c else bind_res (child_at nd addr) (fun ch => decode spec ch c addr) in
  match sp_prereq spec (nd_level nd) c with
  | Some f => bind_res (f nd c (addr (S (nd_level nd)))) (fun p => match p with Some d => Ok d | None => descend end)
  | None => descend
  end.
Proof.
  destruct nd as [lev id s rows cur nxt prv v ch]. unfold child_at, leaf_here. simpl.
  assert ((fix pick (l : list Node) (i : nat) : result C :=
             match l with [] => Err Panicked | x :: l => match i with O => decode spec x c addr | S i => pick l i end end)
            ch (Z.to_nat (addr (S lev))) =
          bind_res (match ch !! Z.to_nat (addr (S lev)) with Some x => Ok x | None => Err Panicked end)
                   (fun x => decode spec x c addr)) as ->; [|done].
  generalize (Z.to_nat (addr (S lev))). intros k. revert k.
  induction ch as [|x ch IH]; intros [|k]; simpl; first [done|apply IH].
Qed.

Lemma get_next_below_eq spec nd c addr n :
  get_next_below spec nd c addr n =
  if bool_decide (nd_level nd < sp_scope spec c)%nat && (match nd_children nd with [] => false | _ => true end)
     && (0 <=? addr (S (nd_level nd)))
  then bind_res (child_at nd addr) (fun ch => get_next_below spec ch c addr (Z.max n (nd_next ch c)))
  else Ok n.
Proof.
  destruct nd as [lev id s rows cur nxt prv v ch]. unfold child_at. simpl.
  destruct (_ && _); [|done]. generalize (Z.to_nat (addr (S lev))). intros k. revert k.
  induction ch as [|x ch IH]; intros [|k]; simpl; first [done|apply IH].
Qed.

Lemma check_row_eq table nd c addr :
  check_row table nd c addr =
  match table (nd_level nd) c with
  | Some f => f nd c (addr (S (nd_level nd)))
  | None => if leaf_here nd addr then Ok false else bind_res (child_at nd addr) (fun ch => check_row table ch c addr)
  end.
Proof.
  destruct nd as [lev id s rows cur nxt prv v ch]. unfold child_at, leaf_here. simpl.
  destruct (table lev c); [done|]. destruct (_ || _); [done|].
  generalize (Z.to_nat (addr (S lev))). intros k. revert k.
  induction ch as [|x ch IH]; intros [|k]; simpl; first [done|apply IH].
Qed.

(** A fallible map over a list. *)
Definition map_res {A B} (f : A -> result B) : list A -> result (list B) :=
  fix go l :=
    match l with
    | [] => Ok []
    | a :: l => bind_res (f a) (fun b => bind_res (go l) (fun l' => Ok (b :: l')))
    end.

Lemma update_timing_eq spec nd c addr clk :
  update_timing spec nd c addr clk =
  if bool_decide (Z.of_nat (nd_id nd) <> addr (nd_level nd)) then
    fold_res (timing_sibling clk) (sp_timing spec (nd_level nd) c) nd
  else
    bind_res (fold_res (timing_target spec c clk) (sp_timing spec (nd_level nd) c)
                (set_prev c (push_prev clk (nd_prev nd c)) nd)) (fun nd' =>
    bind_res (map_res (fun ch => update_timing spec ch c addr clk) (nd_children nd)) (fun l => Ok (set_children l nd'))).
Proof.
  destruct nd as [lev id s rows cur nxt prv v ch]. cbn [update_timing nd_id nd_level nd_children nd_prev].
  destruct (bool_decide _); [done|]. destruct (fold_res _ _ _) as [nd'|e]; [|done]. reflexivity.
Qed.

Lemma map_res_ok {A B} (f : A -> result B) l l' :
  map_res f l = Ok l' -> length l' = length l /\ forall k a, l !! k = Some a -> exists b, f a = Ok b /\ l' !! k = Some b.
Proof.
  revert l'. induction l as [|a l IH]; intros l'; simpl; [intros [= <-]; split; done|].
  destruct (f a) as [b|] eqn:Hb; [|done]. simpl. destruct (map_res f l) as [r|] eqn:Hr; [|done]. simpl.
  intros [= <-]. destruct (IH r eq_refl) as [Hlen Hk]. split; [simpl; by f_equal|].
  intros [|k] x; simpl; [intros [= ->]; by exists b|apply Hk].
Qed.
Lemma map_res_total {A B} (f : A -> result B) l :
  (forall k a, l !! k = Some a -> exists b, f a = Ok b) -> exists l', map_res f l = Ok l'.
Proof.
  induction l as [|a l IH]; intros H; simpl; [by eexists|].
  destruct (H 0%nat a eq_refl) as [b ->]. destruct IH as [r ->]; [intros k x Hk; by apply (H (S k))|]. by eexists.
Qed.
End Trees.
