(* ===== verification/DramTiming.v ===== *)
(** * What the timing tables of a DRAM tree enforce

    The tree keeps, for every node and command, the earliest clock at which
    the command may issue, and updates it on every command.  Here those clocks
    are related to the history: a node's clocks are a function of the commands
    that reached it ([tree_inv]), so that [check] accepts a command exactly
    when every timing constraint of the standard holds of the history
    ([respects]). *)

From stdpp Require Import base tactics numbers list gmap sorting.
From Stdlib Require Import ZArith Lia.
From S2P Require Import Prelude Dram.

Open Scope Z_scope.

(** ** History *)
Section History.
Context {C St : Type} `{!EqDecision C}.
Abbreviation Node := (Node C St).
Abbreviation Spec := (Spec C St).
Abbreviation Issue := (Issue C).
Context (spec : Spec).
Implicit Types (nd : Node) (i : Issue) (L : list Issue) (c : C).

(** The commands of a log (newest first) that target child [id] of level [lev]. *)
Definition targets (lev id : nat) L : list Issue := filter (fun i => is_addr i lev = Z.of_nat id) L.
(** The clocks of a command in a log. *)
Definition clks c L : list Z := is_clk <$> filter (fun i => is_cmd i = c) L.
(** The history kept of [l]: its [n] newest clocks, padded. *)
Definition prev_ref (n : nat) (l : list Z) : list Z := take n (l ++ replicate n (-1)).

(** The earliest clocks of [c] that the newest command of a log imposes. *)
Definition contribs (lev id : nat) c (L : list Issue) : list Z :=
  match L with
  | [] => []
  | i :: _ =>
      if decide (is_addr i lev = Z.of_nat id) then
        omap (fun t => if te_sibling t then None
                       else if decide (te_cmd t = c) then
                         (fun past => past + te_val t) <$> clks (is_cmd i) (targets lev id L) !! (te_dist t - 1)%nat
                       else None) (sp_timing spec lev (is_cmd i))
      else
        omap (fun t => if te_sibling t && bool_decide (te_cmd t = c) then Some (is_clk i + te_val t) else None)
             (sp_timing spec lev (is_cmd i))
  end.
Fixpoint next_ref (lev id : nat) c (L : list Issue) : Z :=
  match L with
  | [] => -1
  | i :: L' => fold_left Z.max (contribs lev id c L) (next_ref lev id c L')
  end.

(** Every constraint of level [lev] on issuing [c] at node [id] at clock
    [clk], after the commands [L] that reached its parent: the [dist]-th latest
    issue of each command to the node is old enough, and so is every issue to
    a sibling. *)
Definition respects (lev id : nat) c (clk : Z) (L : list Issue) : Prop :=
  (forall c' t past, t ∈ sp_timing spec lev c' -> te_cmd t = c -> te_sibling t = false ->
     clks c' (targets lev id L) !! (te_dist t - 1)%nat = Some past -> past + te_val t <= clk) /\
  (forall i t, i ∈ L -> is_addr i lev <> Z.of_nat id -> t ∈ sp_timing spec lev (is_cmd i) -> te_cmd t = c ->
     te_sibling t = true -> is_clk i + te_val t <= clk).

Definition newer (i j : Issue) : Prop := is_clk j <= is_clk i.

Lemma fold_max_le l a x : fold_left Z.max l a <= x <-> a <= x /\ Forall (fun y => y <= x) l.
Proof.
  revert a. induction l as [|y l IH]; intros a; simpl; [split; [by split; [|constructor]|by intros []]|].
  rewrite IH, Forall_cons, Z.max_lub_iff. tauto.
Qed.

Lemma next_ref_le lev id c L x :
  next_ref lev id c L <= x <-> -1 <= x /\ forall L1 L2, L = L1 ++ L2 -> Forall (fun y => y <= x) (contribs lev id c L2).
Proof.
  induction L as [|i L IH]; cbn [next_ref].
  - split; [intros H; split; [done|]|by intros []]. intros L1 L2 Heq. symmetry in Heq.
    apply app_nil in Heq as [_ ->]. constructor.
  - rewrite fold_max_le, IH. split.
    + intros [[Hx Hs] Hc]. split; [done|]. intros [|j L1] L2 Heq; simpl in Heq; [by subst|].
      injection Heq as _ Heq. by apply (Hs L1).
    + intros [Hx Hs]. split; [split; [done|]|by apply (Hs [])].
      intros L1 L2 ->. by apply (Hs (i :: L1)).
Qed.

Lemma targets_cons lev id i L :
  targets lev id (i :: L) = if decide (is_addr i lev = Z.of_nat id) then i :: targets lev id L else targets lev id L.
Proof. unfold targets. by rewrite filter_cons. Qed.
Lemma clks_cons c i L : clks c (i :: L) = if decide (is_cmd i = c) then is_clk i :: clks c L else clks c L.
Proof. unfold clks. rewrite filter_cons. by case_decide. Qed.
Lemma targets_app lev id L1 L2 : targets lev id (L1 ++ L2) = targets lev id L1 ++ targets lev id L2.
Proof. apply filter_app. Qed.
Lemma clks_app c L1 L2 : clks c (L1 ++ L2) = clks c L1 ++ clks c L2.
Proof. unfold clks. by rewrite filter_app, fmap_app. Qed.

Lemma elem_of_contribs_target lev id c i L y :
  is_addr i lev = Z.of_nat id ->
  y ∈ contribs lev id c (i :: L) <->
  exists t past, t ∈ sp_timing spec lev (is_cmd i) /\ te_sibling t = false /\ te_cmd t = c /\
    clks (is_cmd i) (targets lev id (i :: L)) !! (te_dist t - 1)%nat = Some past /\ y = past + te_val t.
Proof.
  intros Hi. unfold contribs. rewrite decide_True by done. rewrite list_elem_of_omap. split.
  - intros (t & Ht & Hy). destruct (te_sibling t) eqn:Hs; [done|]. case_decide; [|done].
    apply fmap_Some in Hy as (past & Hp & ->). by exists t, past.
  - intros (t & past & Ht & Hs & Hc & Hp & ->). exists t. split; [done|]. rewrite Hs, decide_True by done. by rewrite Hp.
Qed.
Lemma elem_of_contribs_sibling lev id c i L y :
  is_addr i lev <> Z.of_nat id ->
  y ∈ contribs lev id c (i :: L) <->
  exists t, t ∈ sp_timing spec lev (is_cmd i) /\ te_sibling t = true /\ te_cmd t = c /\ y = is_clk i + te_val t.
Proof.
  intros Hi. unfold contribs. rewrite decide_False by done. rewrite list_elem_of_omap. split.
  - intros (t & Ht & Hy). destruct (te_sibling t) eqn:Hs; [|done]. simpl in Hy. case_bool_decide; [|done].
    injection Hy as <-. by exists t.
  - intros (t & Ht & Hs & Hc & ->). exists t. split; [done|]. rewrite Hs. simpl. by rewrite bool_decide_true.
Qed.

(** The newest issue of [c'] to the node is the head of some suffix of the log. *)
Lemma newest_suffix lev id c' L d past :
  clks c' (targets lev id L) !! d = Some past ->
  exists L1 i L2, L = L1 ++ i :: L2 /\ is_cmd i = c' /\ is_addr i lev = Z.of_nat id /\
    clks c' (targets lev id (i :: L2)) !! d = Some past.
Proof.
  induction L as [|i L IH]; [done|]. rewrite targets_cons. case_decide as Ha.
  - rewrite clks_cons. case_decide as Hc.
    + intros Hp. exists [], i, L. rewrite targets_cons, decide_True by done. by rewrite clks_cons, decide_True.
    + intros Hp. destruct (IH Hp) as (L1 & j & L2 & -> & ?). by exists (i :: L1), j, L2.
  - intros Hp. destruct (IH Hp) as (L1 & j & L2 & -> & ?). by exists (i :: L1), j, L2.
Qed.

Lemma sorted_clks c' lev id L : StronglySorted newer L -> StronglySorted (fun x y => y <= x) (clks c' (targets lev id L)).
Proof.
  induction 1 as [|i L Hs IH Hf]; [constructor|]. rewrite targets_cons. case_decide; [|done]. rewrite clks_cons.
  case_decide; [|done]. constructor; [done|]. apply Forall_forall. intros x Hx.
  unfold clks, targets in Hx. apply list_elem_of_fmap in Hx as (j & -> & Hj).
  apply list_elem_of_filter in Hj as [_ Hj]. apply list_elem_of_filter in Hj as [_ Hj].
  rewrite Forall_forall in Hf. by apply Hf.
Qed.

Lemma sorted_shift (l1 l2 : list Z) d past :
  StronglySorted (fun x y => y <= x) (l1 ++ l2) -> l2 !! d = Some past ->
  exists past', (l1 ++ l2) !! d = Some past' /\ past <= past'.
Proof.
  revert d past. induction l1 as [|x l1 IH]; intros d past Hs Hp; [by exists past|].
  inversion Hs as [|? ? Hs' Hf]; subst. destruct d as [|d].
  - exists x. split; [done|]. simpl in Hf. rewrite Forall_forall in Hf. apply Hf.
    apply elem_of_app. right. by eapply list_elem_of_lookup_2.
  - destruct (lookup_lt_is_Some_2 l2 d) as [p' Hp']; [apply lookup_lt_Some in Hp; lia|].
    destruct (IH d p' Hs' Hp') as (q & Hq & Hle). exists q. split; [done|].
    assert (StronglySorted (fun x y => y <= x) l2) as Hs2.
    { clear -Hs'. induction l1; [done|]. inversion Hs'; subst; auto. }
    assert (past <= p') as ?; [|lia].
    clear -Hs2 Hp Hp'. revert d Hp Hp'. induction Hs2 as [|a l Hs IH Hf]; intros d Hp Hp'; [done|].
    destruct d as [|d]; simpl in *.
    + injection Hp' as ->. rewrite Forall_forall in Hf. apply Hf. by eapply list_elem_of_lookup_2.
    + by apply (IH d).
Qed.

(** The clocks of a node say exactly that the constraints are respected. *)
Lemma next_ref_respects lev id c L x :
  StronglySorted newer L -> 0 <= x -> next_ref lev id c L <= x <-> respects lev id c x L.
Proof.
  intros Hs Hx. rewrite next_ref_le. split.
  - intros [_ H]. split.
    + intros c' t past Ht Hc Hsib Hp. destruct (newest_suffix _ _ _ _ _ _ Hp) as (L1 & i & L2 & -> & Hi & Ha & Hp').
      specialize (H L1 (i :: L2) eq_refl). rewrite Forall_forall in H. apply H.
      apply elem_of_contribs_target; [done|]. exists t, past. by rewrite Hi.
    + intros i t Hi Ha Ht Hc Hsib. apply list_elem_of_split in Hi as (L1 & L2 & ->).
      specialize (H L1 (i :: L2) eq_refl). rewrite Forall_forall in H. apply H.
      apply elem_of_contribs_sibling; [done|]. by exists t.
  - intros [Ht Hsib]. split; [lia|]. intros L1 [|i L2] ->; [constructor|]. apply Forall_forall. intros y Hy.
    destruct (decide (is_addr i lev = Z.of_nat id)) as [Ha|Ha].
    + apply elem_of_contribs_target in Hy as (t & past & Hin & Hst & Hc & Hp & ->); [|done].
      destruct (sorted_shift (clks (is_cmd i) (targets lev id L1)) (clks (is_cmd i) (targets lev id (i :: L2)))
                  (te_dist t - 1) past) as (p & Hp' & Hle).
      * rewrite <- clks_app, <- targets_app. by apply sorted_clks.
      * done.
      * rewrite <- clks_app, <- targets_app in Hp'. pose proof (Ht _ t p Hin Hc Hst Hp'). lia.
    + apply elem_of_contribs_sibling in Hy as (t & Hin & Hst & Hc & ->); [|done].
      apply Hsib; try done. apply elem_of_app. right. by left.
Qed.

Lemma push_prev_ref n clk l : push_prev clk (prev_ref n l) = prev_ref n (clk :: l).
Proof.
  unfold prev_ref. destruct n as [|n]; [done|].
  assert (length (take (S n) (l ++ replicate (S n) (-1))) = S n) as Hlen.
  { rewrite length_take, length_app, length_replicate. lia. }
  unfold push_prev. destruct (take (S n) (l ++ replicate (S n) (-1))) eqn:Heq; [done|]. rewrite <- Heq.
  rewrite removelast_firstn by (rewrite length_app, length_replicate; lia). done.
Qed.

Lemma prev_ref_lookup n l d : (d < n)%nat ->
  prev_ref n l !! d = match l !! d with Some x => Some x | None => Some (-1) end.
Proof.
  intros Hd. unfold prev_ref. rewrite lookup_take_lt by done. destruct (l !! d) eqn:Hl.
  - by apply lookup_app_l_Some.
  - rewrite lookup_app_r by (by apply lookup_ge_None). apply lookup_replicate_2. lia.
Qed.
End History.

(** ** The tree *)

(** Trees that differ in states, rows and statistics only. *)
Inductive same_tim {C St : Type} : Node C St -> Node C St -> Prop :=
  | same_tim_intro (nd nd' : Node C St) :
      nd_level nd' = nd_level nd -> nd_id nd' = nd_id nd ->
      (forall c, nd_next nd' c = nd_next nd c) -> (forall c, nd_prev nd' c = nd_prev nd c) ->
      length (nd_children nd') = length (nd_children nd) ->
      (forall k ch ch', nd_children nd !! k = Some ch -> nd_children nd' !! k = Some ch' -> same_tim ch ch') ->
      same_tim nd nd'.

(** What a standard promises: its timing entries look at issues the history
    keeps, siblings are constrained by the latest issue only, the statistics of
    a refresh are taken at its issue, and state changes leave the clocks alone. *)
Class SpecOk {C St : Type} `{!EqDecision C} (spec : Spec C St) : Prop := {
  te_dist_pos : forall lev c t, t ∈ sp_timing spec lev c -> (1 <= te_dist t)%nat;
  te_sibling_dist : forall lev c t, t ∈ sp_timing spec lev c -> te_sibling t = true -> te_dist t = 1%nat;
  te_refresh_dist : forall lev c t, t ∈ sp_timing spec lev c -> te_sibling t = false ->
    sp_refreshing spec c = true -> sp_opening spec (te_cmd t) = true -> te_dist t = 1%nat;
  lambda_tim : forall lev c f nd id, sp_lambda spec lev c = Some f -> same_tim nd (f nd id);
}.

Section Tree.
Context {C St : Type} `{!EqDecision C}.
Abbreviation Node := (Node C St).
Abbreviation Spec := (Spec C St).
Abbreviation Issue := (Issue C).
Context (spec : Spec) `{!SpecOk spec}.
Implicit Types (nd : Node) (i : Issue) (L : list Issue) (c : C).

Lemma same_tim_refl nd : same_tim nd nd.
Proof.
  induction nd as [nd IH] using Node_tree_ind. constructor; [done..|]. intros k ch ch' H1 H2.
  rewrite H1 in H2. injection H2 as <-. rewrite Forall_forall in IH. apply IH. by eapply list_elem_of_lookup_2.
Qed.

Definition child_count (lev : nat) : nat :=
  if decide (S lev < sp_row spec)%nat then sp_count spec (S lev) else 0.

Record node_tim (lev id : nat) L nd : Prop := {
  nt_level : nd_level nd = lev;
  nt_id : nd_id nd = id;
  nt_prev : forall c, nd_prev nd c = prev_ref (max_dist (sp_timing spec lev c)) (clks c (targets lev id L));
  nt_next : forall c, nd_next nd c = next_ref spec lev id c L;
  nt_children : length (nd_children nd) = child_count lev;
}.

(** The node [id] of level [lev] after the commands [L] reached its parent. *)
Inductive tree_inv : nat -> nat -> list Issue -> Node -> Prop :=
  | tree_inv_intro lev id L nd :
      node_tim lev id L nd ->
      (forall k ch, nd_children nd !! k = Some ch -> tree_inv (S lev) k (targets lev id L) ch) ->
      tree_inv lev id L nd.

Lemma tree_inv_node lev id L nd : tree_inv lev id L nd -> node_tim lev id L nd.
Proof. by intros []. Qed.
Lemma tree_inv_child lev id L nd k ch :
  tree_inv lev id L nd -> nd_children nd !! k = Some ch -> tree_inv (S lev) k (targets lev id L) ch.
Proof. intros []; auto. Qed.

Lemma tree_inv_same lev id L nd nd' : same_tim nd nd' -> tree_inv lev id L nd -> tree_inv lev id L nd'.
Proof.
  intros Hs H. revert nd' Hs. induction H as [lev id L nd [? ? Hp Hn ?] _ IH]. intros nd' Hs.
  inversion Hs as [? ? Hl Hi Hnx Hpv Hlen Hch]; subst. constructor.
  - split; [done..|by intros c; rewrite Hpv|by intros c; rewrite Hnx|congruence].
  - intros k ch' Hk. destruct (lookup_lt_is_Some_2 (nd_children nd) k) as [ch Hk'].
    { rewrite <- Hlen. exact (lookup_lt_Some _ _ _ Hk). }
    apply (IH k ch Hk'), (Hch k); assumption.
Qed.

(** A freshly built tree has seen no command. *)
Lemma build_inv n lev id : (n + lev = sp_row spec)%nat -> tree_inv lev id [] (build spec n lev id).
Proof.
  revert lev id. induction n as [|n IH]; intros lev id Hn.
  - constructor; [|intros k ch [=]]. split; try done.
    + intros c. simpl. unfold prev_ref. simpl. by rewrite take_ge by (rewrite length_replicate; lia).
    + unfold child_count. case_decide; [lia|done].
  - constructor.
    + split; try done.
      * intros c. simpl. unfold prev_ref. simpl. by rewrite take_ge by (rewrite length_replicate; lia).
      * unfold child_count. cbn [build nd_children]. destruct (decide (S lev = sp_row spec)).
        -- case_decide; [lia|done].
        -- rewrite length_fmap, length_seq. case_decide; [done|lia].
    + intros k ch. simpl. case_decide; [done|]. intros Hk. apply list_lookup_fmap_Some in Hk as (k' & -> & Hk').
      apply lookup_seq in Hk' as [-> _]. apply IH. lia.
Qed.

(** *** update_timing *)

Record upd_next (F : C -> Z) nd nd' : Prop := {
  un_level : nd_level nd' = nd_level nd;
  un_id : nd_id nd' = nd_id nd;
  un_prev : forall c, nd_prev nd' c = nd_prev nd c;
  un_children : nd_children nd' = nd_children nd;
  un_next : forall c, nd_next nd' c = F c;
}.

Lemma timing_siblings_spec clk l nd :
  (forall t, t ∈ l -> te_sibling t = true -> te_dist t = 1%nat) ->
  exists nd', fold_res (timing_sibling clk) l nd = Ok nd' /\
    upd_next (fun c => fold_left Z.max
      (omap (fun t => if te_sibling t && bool_decide (te_cmd t = c) then Some (clk + te_val t) else None) l) (nd_next nd c)) nd nd'.
Proof.
  revert nd. induction l as [|t l IH]; intros nd Hl; [by eexists|].
  assert (exists nd1, timing_sibling clk nd t = Ok nd1 /\ upd_next (fun c =>
    if te_sibling t && bool_decide (te_cmd t = c) then Z.max (nd_next nd c) (clk + te_val t) else nd_next nd c) nd nd1)
    as (nd1 & Heq & [H1 H2 H3 H4 H5]).
  { unfold timing_sibling. destruct (te_sibling t) eqn:Ht; simpl; [|by eexists].
    rewrite decide_True by (apply Hl; [by left|done]). eexists; split; [done|]. split; try done. intros c. simpl.
    case_bool_decide as Hc; [subst; by rewrite decide_True|by rewrite decide_False]. }
  destruct (IH nd1) as (nd' & Heq' & [G1 G2 G3 G4 G5]); [intros x Hx; apply Hl; by right|].
  exists nd'. cbn [fold_res]. rewrite Heq. cbn [bind_res]. split; [done|]. split; try congruence.
  intros c. rewrite G5, H5. cbn [omap list_omap]. by destruct (_ && _).
Qed.

Definition target_contribs (hist : list Z) (l : list (TimingEntry C)) c : list Z :=
  omap (fun t => if te_sibling t then None else if decide (te_cmd t = c) then
          (fun past => past + te_val t) <$> hist !! (te_dist t - 1)%nat else None) l.

Lemma refresh_stats_upd clk c nd : upd_next (nd_next nd) nd (refresh_stats clk c nd).
Proof. by split. Qed.

Lemma timing_target_spec cmd clk hist n t nd :
  (1 <= te_dist t <= n)%nat -> nd_prev nd cmd = prev_ref n hist -> Forall (fun x => 0 <= x) hist -> head hist = Some clk ->
  (te_sibling t = false -> sp_refreshing spec cmd = true -> sp_opening spec (te_cmd t) = true -> te_dist t = 1%nat) ->
  exists nd', timing_target spec cmd clk nd t = Ok nd' /\
    upd_next (fun c => fold_left Z.max (target_contribs hist [t] c) (nd_next nd c)) nd nd'.
Proof.
  intros Hd Hp Hpos Hhd Hr. unfold timing_target, target_contribs. cbn [omap list_omap].
  destruct (te_sibling t) eqn:Hs; [by eexists|]. destruct (te_dist t) as [|d] eqn:Hdt; [lia|].
  rewrite Hp, prev_ref_lookup by lia. replace (S d - 1)%nat with d by lia.
  destruct (hist !! d) as [past|] eqn:Hpast.
  - assert (0 <= past) as Hp0 by (by eapply Forall_lookup_1 in Hpast; [|done]).
    rewrite decide_False by lia.
    assert (upd_next (fun c => fold_left Z.max
        (match (if decide (te_cmd t = c) then (fun past0 => past0 + te_val t) <$> Some past else None) with
         | Some y => [y] | None => [] end) (nd_next nd c)) nd
        (set_next (te_cmd t) (Z.max (nd_next nd (te_cmd t)) (past + te_val t)) nd)) as Hu.
    { split; try done. intros c. simpl. case_decide; [subst; by rewrite decide_True|by rewrite decide_False]. }
    destruct (sp_refreshing spec cmd && sp_opening spec (te_cmd t)) eqn:Hro; [|by eexists].
    apply andb_true_iff in Hro as [Hr1 Hr2]. specialize (Hr eq_refl Hr1 Hr2). injection Hr as ->.
    destruct hist as [|h hist]; [done|]. injection Hhd as ->. injection Hpast as ->. rewrite decide_True by done.
    eexists; split; [done|]. destruct Hu. by split.
  - rewrite decide_True by lia. eexists; split; [done|]. split; try done. intros c. by case_decide.
Qed.

Lemma timing_targets_spec cmd clk hist n l nd :
  (forall t, t ∈ l -> (1 <= te_dist t <= n)%nat /\
    (te_sibling t = false -> sp_refreshing spec cmd = true -> sp_opening spec (te_cmd t) = true -> te_dist t = 1%nat)) ->
  nd_prev nd cmd = prev_ref n hist -> Forall (fun x => 0 <= x) hist -> head hist = Some clk ->
  exists nd', fold_res (timing_target spec cmd clk) l nd = Ok nd' /\
    upd_next (fun c => fold_left Z.max (target_contribs hist l c) (nd_next nd c)) nd nd'.
Proof.
  revert nd. induction l as [|t l IH]; intros nd Hl Hp Hpos Hhd; [by eexists|].
  destruct (Hl t ltac:(by left)) as [Hd Hr].
  destruct (timing_target_spec cmd clk hist n t nd Hd Hp Hpos Hhd Hr) as (nd1 & Heq & [H1 H2 H3 H4 H5]).
  destruct (IH nd1) as (nd' & Heq' & [G1 G2 G3 G4 G5]).
  { intros x Hx. apply Hl. by right. }
  { by rewrite H3. }
  { done. }
  { done. }
  exists nd'. cbn [fold_res]. rewrite Heq. cbn [bind_res]. split; [done|]. split; try congruence.
  intros c. rewrite G5, H5. unfold target_contribs. cbn [omap list_omap]. destruct (te_sibling t); [done|].
  case_decide; [|done]. by destruct (hist !! _).
Qed.

Lemma max_dist_ge t (l : list (TimingEntry C)) : t ∈ l -> (te_dist t <= max_dist l)%nat.
Proof.
  unfold max_dist. induction l as [|x l IH]; [by intros ?%not_elem_of_nil|]. simpl.
  intros [-> | H]%elem_of_cons; [lia|]. apply IH in H. lia.
Qed.

Definition log_pos L : Prop := Forall (fun i => 0 <= is_clk i) L.
Lemma log_pos_targets lev id L : log_pos L -> log_pos (targets lev id L).
Proof. unfold log_pos. rewrite !Forall_forall. intros H i [_ Hi]%list_elem_of_filter. by apply H. Qed.
Lemma log_pos_clks c L : log_pos L -> Forall (fun x => 0 <= x) (clks c L).
Proof.
  unfold log_pos, clks. rewrite !Forall_forall. intros H x (i & -> & [_ Hi]%list_elem_of_filter)%list_elem_of_fmap. by apply H.
Qed.

Lemma update_timing_inv lev id L nd c addr clk :
  tree_inv lev id L nd -> log_pos L -> 0 <= clk ->
  exists nd', update_timing spec nd c addr clk = Ok nd' /\ tree_inv lev id (mkIssue c addr clk :: L) nd'.
Proof.
  intros H. set (i := mkIssue c addr clk).
  induction H as [lev id L nd [Hlev Hid Hprev Hnext Hlen] Hch IH]; intros Hpos Hclk.
  rewrite update_timing_eq, Hlev, Hid. case_bool_decide as Ht.
  - destruct (timing_siblings_spec clk (sp_timing spec lev c) nd) as (nd' & Heq & [H1 H2 H3 H4 H5]).
    { intros t. apply te_sibling_dist. }
    exists nd'. split; [done|].
    assert (targets lev id (i :: L) = targets lev id L) as Htg.
    { rewrite targets_cons, decide_False; [done|]. by apply not_eq_sym. }
    constructor.
    + split; [congruence|congruence|intros d; by rewrite H3, Htg, Hprev| |congruence].
      intros d. rewrite H5, Hnext. cbn [next_ref]. unfold contribs. by rewrite decide_False by (by apply not_eq_sym).
    + rewrite Htg, H4. exact Hch.
  - symmetry in Ht.
    assert (targets lev id (i :: L) = i :: targets lev id L) as Htg.
    { by rewrite targets_cons, decide_True. }
    set (hist := clks c (targets lev id (i :: L))).
    destruct (timing_targets_spec c clk hist (max_dist (sp_timing spec lev c)) (sp_timing spec lev c)
                (set_prev c (push_prev clk (nd_prev nd c)) nd)) as (nd' & Heq & [H1 H2 H3 H4 H5]).
    { intros t Hin. split; [split; [by eapply te_dist_pos|by apply max_dist_ge]|]. by intros; eapply te_refresh_dist. }
    { simpl. rewrite decide_True, Hprev, push_prev_ref by done. unfold hist. rewrite Htg, clks_cons. by rewrite decide_True. }
    { unfold hist. apply log_pos_clks, log_pos_targets. by constructor. }
    { unfold hist. rewrite Htg, clks_cons. by rewrite decide_True. }
    rewrite Heq. cbn [bind_res].
    destruct (map_res_total (fun ch => update_timing spec ch c addr clk) (nd_children nd)) as [l' Hl'].
    { intros k ch Hk. destruct (IH k ch Hk) as (ch' & -> & _); [by apply log_pos_targets|done|]. by eexists. }
    rewrite Hl'. cbn [bind_res]. eexists; split; [done|].
    destruct (map_res_ok _ _ _ Hl') as [Hlen' Hk'].
    constructor.
    + split; [by simpl; rewrite H1|by simpl; rewrite H2| | |by simpl; rewrite Hlen'].
      * intros d. cbn [nd_prev set_children]. rewrite H3. cbn [nd_prev set_prev]. rewrite Htg, clks_cons. case_decide as Hd.
        -- simpl in Hd. subst d. rewrite decide_True by done. by rewrite Hprev, push_prev_ref.
        -- rewrite decide_False by (by apply not_eq_sym). by rewrite Hprev.
      * intros d. cbn [nd_next set_children]. rewrite H5. cbn [nd_next set_prev next_ref]. rewrite Hnext.
        unfold contribs. by rewrite decide_True.
    + simpl. intros k ch' Hk. destruct (lookup_lt_is_Some_2 (nd_children nd) k) as [ch Hkc].
      { rewrite <- Hlen'. exact (lookup_lt_Some _ _ _ Hk). }
      destruct (Hk' k ch Hkc) as (ch2 & Hu & Hk2). rewrite Hk in Hk2. injection Hk2 as <-.
      destruct (IH k ch Hkc) as (ch3 & Hu' & Hinv); [by apply log_pos_targets|done|].
      rewrite Hu in Hu'. injection Hu' as <-. by rewrite Htg.
Qed.
End Tree.

(** ** Runs of commands *)
Section Runs.
Context {C St : Type} `{!EqDecision C}.
Abbreviation Node := (Node C St).
Abbreviation Spec := (Spec C St).
Abbreviation Issue := (Issue C).
Context (spec : Spec) `{!SpecOk spec}.
Implicit Types (nd : Node) (i : Issue) (L : list Issue) (c : C).

(** An address that names a child at every level above the command's scope. *)
Definition valid_addr (c : C) (addr : nat -> Z) : Prop :=
  forall l, (l < sp_scope spec c)%nat -> child_count spec l <> 0%nat -> 0 <= addr (S l) < Z.of_nat (child_count spec l).
Definition valid_issue (i : Issue) : Prop := 0 <= is_clk i /\ valid_addr (is_cmd i) (is_addr i).

Lemma child_at_ok lev id L nd addr :
  tree_inv spec lev id L nd -> 0 <= addr (S lev) < Z.of_nat (child_count spec lev) ->
  exists ch, child_at nd addr = Ok ch /\ nd_children nd !! Z.to_nat (addr (S lev)) = Some ch /\
    tree_inv spec (S lev) (Z.to_nat (addr (S lev))) (targets lev id L) ch.
Proof.
  intros H Ha. pose proof (tree_inv_node _ _ _ _ _ H) as [Hl _ _ _ Hc]. unfold child_at. rewrite Hl.
  destruct (lookup_lt_is_Some_2 (nd_children nd) (Z.to_nat (addr (S lev)))) as [ch Hch]; [rewrite Hc; lia|].
  rewrite Hch. exists ch. split; [done|]. split; [done|]. by eapply tree_inv_child.
Qed.

Lemma children_nil lev id L nd :
  tree_inv spec lev id L nd ->
  (match nd_children nd with [] => true | _ => false end) = bool_decide (child_count spec lev = 0%nat).
Proof. intros [_ _ _ _ Hc]%tree_inv_node. rewrite <- Hc. by destruct (nd_children nd). Qed.

Lemma update_state_inv n lev id L nd c addr :
  tree_inv spec lev id L nd -> valid_addr c addr -> (lev <= sp_scope spec c)%nat -> (sp_row spec <= n + lev + 1)%nat ->
  exists nd', update_state spec n nd c addr = Ok nd' /\ tree_inv spec lev id L nd'.
Proof.
  revert lev id L nd. induction n as [|n IH]; intros lev id L nd H Ha Hsc Hn; cbn [update_state];
    pose proof (tree_inv_node _ _ _ _ _ H) as [Hl _ _ _ _]; rewrite Hl;
    set (nd1 := match sp_lambda spec lev c with Some f => f nd (addr (S lev)) | None => nd end);
    (assert (tree_inv spec lev id L nd1) as H1 by
      (unfold nd1; destruct (sp_lambda spec lev c) eqn:Hf; [eapply tree_inv_same; [by eapply lambda_tim|exact H]|exact H]));
    clearbody nd1; clear nd H Hl; pose proof (tree_inv_node _ _ _ _ _ H1) as [Hl1 _ _ _ Hc1];
    rewrite Hl1, (children_nil _ _ _ _ H1); case_bool_decide as Hs; simpl; try (eexists; split; [done|exact H1]);
    case_bool_decide as Hc; simpl; try (eexists; split; [done|exact H1]).
  - exfalso. apply Hc. unfold child_count. case_decide; [lia|done].
  - pose proof (Ha lev ltac:(lia) Hc) as Hb. rewrite decide_False by lia.
    destruct (child_at_ok _ _ _ _ addr H1 Hb) as (ch & _ & Hch & Hinv). rewrite Hch.
    destruct (IH _ _ _ _ Hinv Ha) as (ch' & -> & Hinv'); [lia|lia|]. cbn [bind_res]. eexists; split; [done|].
    destruct H1 as [lev id L nd1 [Hl Hi Hp Hx Hcc] Hall]. constructor.
    + split; try done. simpl. by rewrite length_insert.
    + simpl. intros k x Hk. apply list_lookup_insert_Some in Hk as [(<- & <- & _)|[_ Hk]]; [exact Hinv'|by apply Hall].
Qed.

Lemma set_cur_inv lev id L nd clk : tree_inv spec lev id L nd -> tree_inv spec lev id L (set_cur clk nd).
Proof. intros [lev' id' L' nd' [] Hch]. constructor; [by split|exact Hch]. Qed.

(** One command: it cannot fail, and the log grows by it. *)
Lemma update_inv id L nd c addr clk :
  tree_inv spec 0 id L nd -> log_pos L -> valid_issue (mkIssue c addr clk) ->
  exists nd', update spec nd c addr clk = Ok nd' /\ tree_inv spec 0 id (mkIssue c addr clk :: L) nd'.
Proof.
  intros H Hpos [Hclk Ha]. unfold update.
  destruct (update_state_inv (sp_row spec) 0 id L (set_cur clk nd) c addr) as (nd1 & -> & H1); [by apply set_cur_inv|done|lia|lia|].
  cbn [bind_res]. by apply update_timing_inv.
Qed.

Lemma run_inv_from id L nd l :
  tree_inv spec 0 id L nd -> log_pos L -> Forall valid_issue l ->
  exists nd', DRAM_run spec nd l = Ok nd' /\ tree_inv spec 0 id (reverse l ++ L) nd'.
Proof.
  revert L nd. induction l as [|i l IH]; intros L nd H Hpos Hl; [by exists nd|].
  apply Forall_cons in Hl as [Hi Hl]. destruct i as [c addr clk].
  destruct (update_inv id L nd c addr clk H Hpos Hi) as (nd1 & Heq & H1).
  destruct (IH _ nd1 H1) as (nd2 & Hrun & H2); [|done|].
  { constructor; [|done]. apply Hi. }
  exists nd2. unfold DRAM_run in *. cbn [fold_res is_cmd is_addr is_clk]. rewrite Heq. split; [done|].
  by rewrite reverse_cons, <- app_assoc.
Qed.

Lemma run_inv channel l :
  Forall valid_issue l ->
  exists nd', DRAM_run spec (DRAM_init spec channel) l = Ok nd' /\ tree_inv spec 0 channel (reverse l) nd'.
Proof.
  intros Hl. destruct (run_inv_from channel [] (DRAM_init spec channel) l) as (nd' & Hr & Hi).
  - apply build_inv. lia.
  - constructor.
  - done.
  - rewrite app_nil_r in Hi. by exists nd'.
Qed.

(** *** The check along a path *)

(** The commands that reached the parent of the node of level [l] on the path of [addr]. *)
Definition reaching (addr : nat -> Z) (l : nat) L : list Issue :=
  filter (fun i => Forall (fun j => is_addr i j = addr j) (seq 0 l)) L.
(** The levels on the path: as long as there are children. *)
Definition level_exists (l : nat) : Prop := forall j, (j < l)%nat -> child_count spec j <> 0%nat.

Lemma reaching_S addr l L :
  0 <= addr l -> targets l (Z.to_nat (addr l)) (reaching addr l L) = reaching addr (S l) L.
Proof.
  intros Ha. unfold targets, reaching. rewrite list_filter_filter. apply list_filter_iff. intros i.
  rewrite seq_S, Forall_app, Forall_singleton, Z2Nat.id by done. simpl. tauto.
Qed.
Lemma reaching_0 addr L : reaching addr 0 L = L.
Proof. unfold reaching. induction L as [|i L IH]; [done|]. rewrite filter_cons_True by (by constructor). by rewrite IH. Qed.

Lemma reaching_sorted addr l L : StronglySorted newer L -> StronglySorted newer (reaching addr l L).
Proof.
  unfold reaching. induction 1 as [|i L Hs IH Hf]; [constructor|]. rewrite filter_cons. case_decide; [|done].
  constructor; [done|]. rewrite Forall_forall in *. intros j [_ Hj]%list_elem_of_filter. by apply Hf.
Qed.

Lemma check_path m lev L nd c addr clk :
  (m + lev = sp_row spec)%nat -> tree_inv spec lev (Z.to_nat (addr lev)) (reaching addr lev L) nd ->
  valid_addr c addr -> 0 <= addr lev -> 0 <= clk -> (lev <= sp_scope spec c)%nat -> level_exists lev ->
  exists b, check spec nd c addr clk = Ok b /\
    (b = true <-> forall l, (lev <= l <= sp_scope spec c)%nat -> level_exists l ->
                    next_ref spec l (Z.to_nat (addr l)) c (reaching addr l L) <= clk).
Proof.
  revert lev nd. induction m as [|m IH]; intros lev nd Hm H Ha H0 Hclk Hsc Hex; rewrite check_eq;
    pose proof (tree_inv_node _ _ _ _ _ H) as [Hl _ _ Hn _]; rewrite Hn, Hl, (children_nil _ _ _ _ H);
    (destruct (_ && _) eqn:Hfail;
     [exists false; split; [done|]; split; [done|]; intros Hall; specialize (Hall lev ltac:(lia) Hex);
      apply andb_true_iff in Hfail as [_ Hlt%Z.ltb_lt]; lia|]);
    (assert (next_ref spec lev (Z.to_nat (addr lev)) c (reaching addr lev L) <= clk) as Hok by
      (apply andb_false_iff in Hfail as [Hf%negb_false_iff%Z.eqb_eq|Hf%Z.ltb_ge]; lia));
    clear Hfail Hn.
  all: destruct (decide (sp_scope spec c = lev)) as [Hs|Hs];
    [rewrite (bool_decide_true (lev = _)) by done; rewrite orb_true_r; simpl; exists true; split; [done|]; split; [|done];
     intros _ l Hl' _; by replace l with lev by lia|].
  all: destruct (decide (child_count spec lev = 0%nat)) as [Hc|Hc];
    [rewrite (bool_decide_true (child_count spec lev = _)) by done; rewrite orb_true_r; exists true; split; [done|]; split; [|done];
     intros _ l Hl' Hx; destruct (decide (l = lev)) as [->|]; [done|]; exfalso; by apply (Hx lev); [lia|]|].
  - exfalso. apply Hc. unfold child_count. case_decide; [lia|done].
  - pose proof (Ha lev ltac:(lia) Hc) as Hb.
    rewrite (bool_decide_false (lev = _)), (bool_decide_false (child_count _ _ = _)) by (done || lia).
    assert ((addr (S lev) <? 0) = false) as -> by (apply Z.ltb_ge; lia). simpl.
    destruct (child_at_ok _ _ _ _ addr H Hb) as (ch & -> & _ & Hinv). cbn [bind_res].
    rewrite reaching_S in Hinv by done.
    destruct (IH (S lev) ch) as (b & Heq & Hb'); [lia|exact Hinv|done|lia|done|lia| |].
    { intros j Hj. destruct (decide (j = lev)) as [->|]; [done|]. apply Hex. lia. }
    exists b. split; [exact Heq|]. rewrite Hb'. split; intros Hall l Hlr Hx.
    + destruct (decide (l = lev)) as [->|]; [exact Hok|]. apply Hall; [lia|done].
    + apply Hall; [lia|done].
Qed.

Lemma get_next_path m lev L nd c addr clk x :
  (m + lev = sp_row spec)%nat -> tree_inv spec lev (Z.to_nat (addr lev)) (reaching addr lev L) nd ->
  valid_addr c addr -> 0 <= addr lev -> 0 <= clk -> (lev <= sp_scope spec c)%nat -> level_exists lev -> nd_next nd c <= x ->
  exists g, get_next_below spec nd c addr x = Ok g /\
    (g <= clk <-> x <= clk /\ check spec nd c addr clk = Ok true).
Proof.
  revert lev nd x. induction m as [|m IH]; intros lev nd x Hm H Ha H0 Hclk Hsc Hex Hx; rewrite get_next_below_eq, check_eq;
    pose proof (tree_inv_node _ _ _ _ _ H) as [Hl _ _ _ Hcc]; rewrite Hl, (children_nil _ _ _ _ H);
    (assert ((match nd_children nd with [] => false | _ => true end) = negb (bool_decide (child_count spec lev = 0%nat))) as ->
      by (rewrite <- (children_nil _ _ _ _ H); by destruct (nd_children nd)));
    (assert (x <= clk -> negb (nd_next nd c =? -1) && (clk <? nd_next nd c) = false) as Hf
      by (intros; apply andb_false_iff; right; apply Z.ltb_ge; lia));
    destruct (decide (lev = sp_scope spec c)) as [Hs|Hs].
  1,3: rewrite (bool_decide_false (_ < _)%nat), (bool_decide_true (lev = _)) by lia; rewrite orb_true_r; simpl;
       exists x; split; [done|]; split; [intros Hle; by rewrite (Hf Hle)|by intros []].
  all: rewrite (bool_decide_true (_ < _)%nat), (bool_decide_false (lev = _)) by lia;
       destruct (decide (child_count spec lev = 0%nat)) as [Hc|Hc].
  1,3: rewrite (bool_decide_true (child_count _ _ = _)) by done; rewrite !orb_true_r; simpl;
       exists x; split; [done|]; split; [intros Hle; by rewrite (Hf Hle)|by intros []].
  - exfalso. apply Hc. unfold child_count. case_decide; [lia|done].
  - rewrite (bool_decide_false (child_count _ _ = _)) by done. simpl. pose proof (Ha lev ltac:(lia) Hc) as Hb.
    assert ((addr (S lev) <? 0) = false) as -> by (apply Z.ltb_ge; lia).
    assert ((0 <=? addr (S lev)) = true) as -> by (apply Z.leb_le; lia). simpl.
    destruct (child_at_ok _ _ _ _ addr H Hb) as (ch & -> & _ & Hinv). cbn [bind_res].
    rewrite reaching_S in Hinv by done.
    destruct (IH (S lev) ch (Z.max x (nd_next ch c))) as (g & -> & Hg); [lia|exact Hinv|done|lia|done|lia| |lia|].
    { intros j Hj. destruct (decide (j = lev)) as [->|]; [done|]. apply Hex. lia. }
    exists g. split; [done|]. rewrite Hg. split.
    + intros [Hm1 Hck]. split; [lia|]. by rewrite Hf by lia.
    + intros [Hm1 Hck]. rewrite Hf in Hck by done. split; [|done].
      rewrite check_eq in Hck. destruct (_ && _) eqn:Hcf in Hck; [done|].
      apply andb_false_iff in Hcf as [Hz%negb_false_iff%Z.eqb_eq|Hz%Z.ltb_ge]; lia.
Qed.
End Runs.

(** ** Properties of every standard *)
Section Properties.
Context {C St : Type} `{!EqDecision C}.
Abbreviation Spec := (Spec C St).
Abbreviation Issue := (Issue C).

(** C21: after any run of commands in clock order, [check] accepts a command
    exactly when no timing constraint of the standard is violated: at every
    level of its path down to its scope, each command's [dist]-th latest issue
    to that node, and each issue to one of its siblings, lies at least the
    tabulated number of cycles in the past.  The run itself cannot fail an
    assertion or index a missing child. *)
Theorem check_exact (spec : Spec) (channel : nat) (l : list Issue) (c : C) (addr : nat -> Z) (clk : Z) :
  SpecOk spec -> Forall (valid_issue spec) l -> StronglySorted newer (reverse l) ->
  valid_addr spec c addr -> addr 0%nat = Z.of_nat channel -> 0 <= clk ->
  exists nd b, DRAM_run spec (DRAM_init spec channel) l = Ok nd /\ check spec nd c addr clk = Ok b /\
    (b = true <-> forall lev, (lev <= sp_scope spec c)%nat -> level_exists spec lev ->
       respects spec lev (Z.to_nat (addr lev)) c clk (reaching addr lev (reverse l))).
Proof.
  intros Hok Hl Hs Ha H0 Hclk. destruct (run_inv spec channel l Hl) as (nd & Hrun & Hinv).
  destruct (check_path spec (sp_row spec) 0 (reverse l) nd c addr clk) as (b & Hc & Hb); [lia| |exact Ha|lia|exact Hclk|lia|intros j Hj; lia|].
  { rewrite H0, Nat2Z.id, reaching_0. exact Hinv. }
  exists nd, b. split; [done|]. split; [done|]. rewrite Hb.
  split; intros H lev Hlev Hx.
  - apply next_ref_respects; [by apply reaching_sorted|done|]. apply H; [lia|done].
  - apply next_ref_respects; [by apply reaching_sorted|done|]. apply H; [lia|done].
Qed.

(** C28: [get_next] is the first clock at which [check] passes: from the
    channel's current clock on, a command is accepted at a clock exactly when
    that clock is at least what [get_next] answers. *)
Theorem get_next_earliest (spec : Spec) (channel : nat) (l : list Issue) (c : C) (addr : nat -> Z) :
  SpecOk spec -> Forall (valid_issue spec) l -> valid_addr spec c addr -> addr 0%nat = Z.of_nat channel ->
  exists nd g, DRAM_run spec (DRAM_init spec channel) l = Ok nd /\ get_next spec nd c addr = Ok g /\
    forall clk, 0 <= clk -> nd_cur nd <= clk -> (check spec nd c addr clk = Ok true <-> g <= clk).
Proof.
  intros Hok Hl Ha H0. destruct (run_inv spec channel l Hl) as (nd & Hrun & Hinv).
  assert (forall clk, 0 <= clk -> exists g, get_next spec nd c addr = Ok g /\
    (g <= clk <-> Z.max (nd_cur nd) (nd_next nd c) <= clk /\ check spec nd c addr clk = Ok true)) as Hg.
  { intros clk Hclk. apply (get_next_path spec (sp_row spec) 0 (reverse l)); [lia| |exact Ha|lia|exact Hclk|lia|intros j Hj; lia|lia].
    rewrite H0, Nat2Z.id, reaching_0. exact Hinv. }
  destruct (Hg 0 ltac:(lia)) as (g & Hgn & _). exists nd, g. split; [done|]. split; [done|].
  intros clk Hclk Hcur. destruct (Hg clk Hclk) as (g' & Hgn' & Hiff). rewrite Hgn in Hgn'. injection Hgn' as <-.
  rewrite Hiff. split; [|by intros []]. intros Hc. split; [|done].
  rewrite check_eq in Hc. destruct (_ && _) eqn:Hf in Hc; [done|].
  apply andb_false_iff in Hf as [Hz%negb_false_iff%Z.eqb_eq|Hz%Z.ltb_ge]; lia.
Qed.
End Properties.

(** ** Serving statistics *)

(** The integral over time of [f] of the number of requests in service. *)
Fixpoint area (f : Z -> Z) (cur t : Z) (l : list (Z * Z)) : Z :=
  match l with [] => 0 | (d, t') :: l => (t' - t) * f cur + area f (cur + d) t' l end.
Fixpoint served (cur : Z) (l : list (Z * Z)) : Z := match l with [] => cur | (d, _) :: l => served (cur + d) l end.
(** Requests arrive and leave one at a time, and none leaves before it came. *)
Fixpoint arrivals_ok (cur : Z) (l : list (Z * Z)) : Prop :=
  match l with [] => True | (d, t) :: l => (d = 1 \/ d = -1) /\ 0 <= t /\ 0 <= cur + d /\ arrivals_ok (cur + d) l end.
Definition serve_run (v : ServStats) (l : list (Z * Z)) : result ServStats :=
  fold_res (fun v '(d, t) => serve d t v) l v.
Definition busy (n : Z) : Z := if decide (n > 0) then 1 else 0.

Lemma serve_step d t v :
  (d = 1 \/ d = -1) -> 0 <= t -> 0 <= cur_serving_requests v + d -> 0 <= cur_serving_requests v ->
  (cur_serving_requests v > 0 -> begin_of_serving v <> -1 /\ begin_of_cur_reqcnt v <> -1) ->
  exists v', serve d t v = Ok v' /\
    serving_requests v' = serving_requests v + (t - begin_of_cur_reqcnt v) * cur_serving_requests v /\
    active_cycles v' = active_cycles v + (t - begin_of_cur_reqcnt v) * busy (cur_serving_requests v) /\
    cur_serving_requests v' = cur_serving_requests v + d /\ begin_of_cur_reqcnt v' = t /\
    (cur_serving_requests v' > 0 -> begin_of_serving v' <> -1 /\ begin_of_cur_reqcnt v' <> -1).
Proof.
  intros Hd Ht Hc Hc0 Hb. unfold serve, busy.
  assert (negb (bool_decide (d = 1) || bool_decide (d = -1)) = false) as ->.
  { destruct Hd as [-> | ->]; done. }
  assert (bool_decide (begin_of_cur_reqcnt v <> -1) && bool_decide (cur_serving_requests v > 0)
          = bool_decide (cur_serving_requests v > 0)) as ->.
  { destruct (decide (cur_serving_requests v > 0)) as [Hp|Hp].
    - destruct (Hb Hp). by rewrite !bool_decide_true.
    - rewrite (bool_decide_false (_ > 0)) by done. by rewrite andb_false_r. }
  rewrite (decide_False (P:=cur_serving_requests v + d < 0)) by lia.
  destruct (decide (cur_serving_requests v > 0)) as [Hp|Hp];
    [rewrite (bool_decide_true (_ > 0)) by done; destruct (Hb Hp) as [Hb1 Hb2]
    |rewrite (bool_decide_false (_ > 0)) by done; replace (cur_serving_requests v) with 0 in * by lia].
  all: destruct Hd as [-> | ->]; simpl; try lia.
  - rewrite bool_decide_false by lia. simpl. rewrite decide_False by lia.
    eexists; split; [done|]. simpl. lia.
  - destruct (decide (cur_serving_requests v + -1 = 0)).
    + rewrite bool_decide_true by done. simpl. eexists; split; [done|]. simpl. lia.
    + eexists; split; [done|]. simpl. lia.
  - eexists; split; [done|]. simpl. lia.
Qed.

(** whatever requests come and go, the statistics of a node count what they
    say: the requests in service, the sum over time of their number, and the
    cycles in which there is at least one; no assertion fails as long as no
    request leaves before it came. *)
Theorem serving_statistics (l : list (Z * Z)) :
  arrivals_ok 0 l ->
  exists v, serve_run serv_init l = Ok v /\ cur_serving_requests v = served 0 l /\
    serving_requests v = area (fun n => n) 0 0 l /\ active_cycles v = area busy 0 0 l.
Proof.
  assert (forall v, arrivals_ok (cur_serving_requests v) l -> 0 <= cur_serving_requests v ->
    (cur_serving_requests v > 0 -> begin_of_serving v <> -1 /\ begin_of_cur_reqcnt v <> -1) ->
    exists v', serve_run v l = Ok v' /\ cur_serving_requests v' = served (cur_serving_requests v) l /\
      serving_requests v' = serving_requests v + area (fun n => n) (cur_serving_requests v) (begin_of_cur_reqcnt v) l /\
      active_cycles v' = active_cycles v + area busy (cur_serving_requests v) (begin_of_cur_reqcnt v) l) as Hgen.
  { induction l as [|[d t] l IH]; intros v Hok Hpos Hb; [exists v; simpl; by rewrite !Z.add_0_r|].
    destruct Hok as (Hd & Ht & Hc & Hok).
    destruct (serve_step d t v Hd Ht Hc Hpos Hb) as (v1 & Heq & H1 & H2 & H3 & H4 & H5).
    destruct (IH v1) as (v' & Hrun & G1 & G2 & G3); [by rewrite H3|lia|done|].
    exists v'. unfold serve_run in *. cbn [fold_res]. rewrite Heq. cbn [bind_res]. split; [done|].
    simpl. rewrite H3, H4 in *. split; [done|]. split; lia. }
  intros Hok. destruct (Hgen serv_init) as (v & Hrun & H1 & H2 & H3); [done|done|by intros H|].
  exists v. split; [done|]. split; [done|]. simpl in *.
  assert (forall f, f 0 = 0 -> forall t t', area f 0 t l = area f 0 t' l) as Hz.
  { intros f Hf t t'. destruct l as [|[d u] l']; [done|]. simpl. rewrite Hf. lia. }
  rewrite H2, H3. split; by apply Hz.
Qed.
Lemma serving_statistics_witness :
  let l := [(1, 5); (1, 9); (-1, 12); (-1, 20); (1, 30)] in
  exists v, serve_run serv_init l = Ok v /\ cur_serving_requests v = 1 /\ serving_requests v = 18 /\ active_cycles v = 15.
Proof.
  intros l. apply (serving_statistics l). simpl. intuition lia.
Defined.
