(* ===== verification/DramStd.v ===== *)
(** * What the DRAM standards share

    The standards of Ramulator (DDR3.h and its siblings) each declare their
    commands, states and tables.  Most declare the same twelve commands and
    the same states; they are declared once here, with the entries of the
    tables, and the protocol of rows and power states that those standards
    have in common ([Banked]), proved once for all of them. *)

From stdpp Require Import base tactics numbers list gmap strings.
From Stdlib Require Import ZArith Lia.
From S2P Require Import Prelude Dram DramTiming.

Open Scope Z_scope.

(** ** Enumerations and tables *)
Inductive Command : Type := ACT | PRE | PREA | RD | WR | RDA | WRA | REF | PDE | PDX | SRE | SRX.
#[export] Instance Command_eq_dec : EqDecision Command.
Proof. solve_decision. Defined.

(** [MAX] is the start state of the levels that have none. *)
Inductive State : Type := Opened | Closed | PowerUp | ActPowerDown | PrePowerDown | SelfRefresh | MAX.
#[export] Instance State_eq_dec : EqDecision State.
Proof. solve_decision. Defined.

Definition is_opening (cmd : Command) : bool := match cmd with ACT => true | _ => false end.
Definition is_accessing (cmd : Command) : bool := match cmd with RD | WR | RDA | WRA => true | _ => false end.
Definition is_closing (cmd : Command) : bool := match cmd with RDA | WRA | PRE | PREA => true | _ => false end.
Definition is_refreshing (cmd : Command) : bool := match cmd with REF => true | _ => false end.

Record OrgEntry : Type := mkOrg { size : Z; dq : Z; count : list Z }.

(** An entry of a timing table: after [c], command [d] waits [v] cycles from
    the [n]-th latest [c]; [sib]: after [c] to a sibling. *)
Definition tim {C} (c d : C) (n : nat) (v : Z) : C * TimingEntry C := (c, mkTE d n v false).
Definition sib {C} (c d : C) (n : nat) (v : Z) : C * TimingEntry C := (c, mkTE d n v true).
(** [timing[level][cmd]], from the entries of the level in the order of the pushes. *)
Definition select {C} `{!EqDecision C} (l : list (C * TimingEntry C)) (c : C) : list (TimingEntry C) :=
  snd <$> filter (fun p => p.1 = c) l.

(** The laws of timing entries, as a check of the tables. *)
Definition entry_ok {C} (refreshing opening : C -> bool) (p : C * TimingEntry C) : bool :=
  bool_decide (1 <= te_dist p.2)%nat &&
  (if te_sibling p.2 then bool_decide (te_dist p.2 = 1%nat)
   else negb (refreshing p.1 && opening (te_cmd p.2)) || bool_decide (te_dist p.2 = 1%nat)).

Lemma select_ok {C} `{!EqDecision C} (refreshing opening : C -> bool) (l : list (C * TimingEntry C)) c t :
  forallb (entry_ok refreshing opening) l = true -> t ∈ select l c ->
  (1 <= te_dist t)%nat /\ (te_sibling t = true -> te_dist t = 1%nat) /\
  (te_sibling t = false -> refreshing c = true -> opening (te_cmd t) = true -> te_dist t = 1%nat).
Proof.
  intros Hl Ht. unfold select in Ht. apply list_elem_of_fmap in Ht as ([c' t'] & -> & Hp).
  apply list_elem_of_filter in Hp as [<- Hp]. rewrite forallb_forall in Hl. apply list_elem_of_In, Hl in Hp.
  unfold entry_ok in Hp. simpl in *. apply andb_true_iff in Hp as [Hd Hp]. apply bool_decide_eq_true in Hd.
  split; [done|]. destruct (te_sibling t').
  - apply bool_decide_eq_true in Hp. by split.
  - split; [done|]. intros _ Hr Ho. rewrite Hr, Ho in Hp. by apply bool_decide_eq_true in Hp.
Qed.

(** ** Changes of states *)
Section Changes.
Context {C : Type}.
Abbreviation Node := (Node C State).
Implicit Types nd : Node.

(** The children, one level and two levels down. *)
Definition map_children (f : Node -> Node) nd : Node := set_children (f <$> nd_children nd) nd.
Definition close_bank nd : Node := set_rows ∅ (set_state Closed nd).
Definition open_row nd (id : Z) : Node := set_rows (<[id := Opened]> (nd_rows nd)) (set_state Opened nd).
Definition bank_closed nd : bool := bool_decide (nd_state nd = Closed).

Lemma same_tim_state s nd : same_tim nd (set_state s nd).
Proof.
  constructor; [done..|]. simpl. intros k ch ch' H1 H2. rewrite H1 in H2. injection H2 as <-. apply same_tim_refl.
Qed.
Lemma same_tim_rows m nd : same_tim nd (set_rows m nd).
Proof.
  constructor; [done..|]. simpl. intros k ch ch' H1 H2. rewrite H1 in H2. injection H2 as <-. apply same_tim_refl.
Qed.
Lemma same_tim_trans nd1 nd2 nd3 : same_tim nd1 nd2 -> same_tim nd2 nd3 -> same_tim nd1 nd3.
Proof.
  intros H. revert nd3. induction H as [nd1 nd2 H1 H2 H3 H4 H5 H6 IH]. intros nd3 H.
  inversion H as [? ? G1 G2 G3 G4 G5 G6]; subst. constructor; [congruence|congruence| | |congruence|].
  - intros c. by rewrite G3, H3.
  - intros c. by rewrite G4, H4.
  - intros k ch ch' Hk Hk'. destruct (lookup_lt_is_Some_2 (nd_children nd2) k) as [ch2 Hk2].
    { rewrite H5. exact (lookup_lt_Some _ _ _ Hk). }
    apply (IH k ch ch2 Hk Hk2). exact (G6 k ch2 ch' Hk2 Hk').
Qed.
Lemma same_tim_close nd : same_tim nd (close_bank nd).
Proof. unfold close_bank. eapply same_tim_trans; [apply same_tim_state|apply same_tim_rows]. Qed.
Lemma same_tim_open nd id : same_tim nd (open_row nd id).
Proof. unfold open_row. eapply same_tim_trans; [apply same_tim_state|apply same_tim_rows]. Qed.
Lemma same_tim_children f nd : (forall ch, same_tim ch (f ch)) -> same_tim nd (map_children f nd).
Proof.
  intros Hf. constructor; [done..|by simpl; rewrite length_fmap|]. simpl. intros k ch ch' H1 H2.
  rewrite list_lookup_fmap, H1 in H2. injection H2 as <-. apply Hf.
Qed.
End Changes.
#[export] Hint Resolve same_tim_refl same_tim_state same_tim_rows same_tim_close same_tim_open same_tim_children : damov.

(** A lookup with [operator[]] of a map: a missing key is inserted with the
    value 0, the first of the enumeration. *)
Definition map_at {A} (m : list (string * A)) (first : A) (k : string) : A :=
  match List.find (fun p => String.eqb p.1 k) m with Some p => p.2 | None => first end.

(** ** Nodes on a path *)
Section Paths.
Context {C St : Type} `{!EqDecision C}.
Abbreviation Node := (Node C St).
Context (spec : Spec C St).
Implicit Types nd : Node.

(** The node [k] levels below, on the path of an address. *)
Fixpoint node_at (k : nat) nd (addr : nat -> Z) : option Node :=
  match k with
  | O => Some nd
  | S k => match nd_children nd !! Z.to_nat (addr (S (nd_level nd))) with Some ch => node_at k ch addr | None => None end
  end.

(** Levels count up along paths. *)
Inductive leveled : nat -> Node -> Prop :=
  | leveled_intro lev nd : nd_level nd = lev ->
      (forall k ch, nd_children nd !! k = Some ch -> leveled (S lev) ch) -> leveled lev nd.

Lemma tree_inv_leveled lev id L nd : tree_inv spec lev id L nd -> leveled lev nd.
Proof. induction 1 as [lev id L nd [] _ IH]. constructor; [done|exact IH]. Qed.

Lemma node_at_leveled k lev nd addr x : leveled lev nd -> node_at k nd addr = Some x -> leveled (k + lev) x.
Proof.
  revert lev nd. induction k as [|k IH]; intros lev nd H; simpl; [by intros [= <-]|].
  destruct H as [lev nd Hl Hch]. destruct (nd_children nd !! _) as [ch|] eqn:Hk; [|done]. intros Hx.
  replace (S (k + lev))%nat with (k + S lev)%nat by lia. apply (IH _ ch); [|done]. exact (Hch _ _ Hk).
Qed.

Lemma node_at_add j k nd addr x :
  node_at j nd addr = Some x -> node_at (j + k) nd addr = node_at k x addr.
Proof.
  revert nd. induction j as [|j IH]; intros nd; simpl; [by intros [= ->]|].
  destruct (nd_children nd !! _); [apply IH|done].
Qed.

Lemma leaf_here_child nd addr ch :
  0 <= addr (S (nd_level nd)) -> nd_children nd !! Z.to_nat (addr (S (nd_level nd))) = Some ch ->
  leaf_here nd addr = false /\ child_at nd addr = Ok ch.
Proof.
  intros Ha Hch. unfold leaf_here, child_at. rewrite Hch. split; [|done].
  assert ((addr (S (nd_level nd)) <? 0) = false) as -> by (apply Z.ltb_ge; lia). by destruct (nd_children nd).
Qed.

(** Decoding passes the levels that have no prerequisite. *)
Lemma decode_skip k lev nd c addr x :
  leveled lev nd -> (forall j, (j < k)%nat -> sp_prereq spec (j + lev) c = None /\ 0 <= addr (S (j + lev))) ->
  node_at k nd addr = Some x -> decode spec nd c addr = decode spec x c addr.
Proof.
  revert lev nd. induction k as [|k IH]; intros lev nd H Hn; simpl; [by intros [= ->]|].
  destruct H as [lev nd Hl Hch]. destruct (nd_children nd !! _) as [ch|] eqn:Hk; [|done]. intros Hx.
  destruct (Hn 0%nat) as [Hp Ha]; [lia|]. simpl in Hp, Ha. rewrite <- Hl in Ha.
  destruct (leaf_here_child nd addr ch Ha Hk) as [Hlf Hca].
  rewrite decode_eq, Hl, Hp. cbv zeta. rewrite Hlf, Hca. cbn [bind_res].
  apply (IH (S lev) ch); [exact (Hch _ _ Hk)| |exact Hx].
  intros j Hj. replace (j + S lev)%nat with (S j + lev)%nat by lia. apply Hn. lia.
Qed.

(** Two trees with the same states along a path. *)
Definition same_st (x y : Node) : Prop := nd_level y = nd_level x /\ nd_state y = nd_state x /\ nd_rows y = nd_rows x.

Lemma fold_sibling_st clk l nd nd' :
  fold_res (timing_sibling clk) l nd = Ok nd' -> same_st nd nd' /\ nd_children nd' = nd_children nd.
Proof.
  revert nd. induction l as [|t l IH]; intros nd; cbn [fold_res]; [by intros [= <-]|].
  unfold timing_sibling at 1. destruct (negb _); [apply IH|]. case_decide; [|done]. cbn [bind_res].
  intros (H1 & H2)%IH. by split.
Qed.
Lemma fold_target_st cmd clk l nd nd' :
  fold_res (timing_target spec cmd clk) l nd = Ok nd' -> same_st nd nd' /\ nd_children nd' = nd_children nd.
Proof.
  revert nd. induction l as [|t l IH]; intros nd; cbn [fold_res]; [by intros [= <-]|].
  destruct (timing_target spec cmd clk nd t) as [nd1|] eqn:Ht; [|done]. cbn [bind_res]. intros ((H1 & H2 & H3) & H4)%IH.
  assert (same_st nd nd1 /\ nd_children nd1 = nd_children nd) as ((G1 & G2 & G3) & G4).
  { unfold timing_target in Ht. destruct (te_sibling t); [by injection Ht as <-|]. destruct (te_dist t); [done|].
    destruct (nd_prev nd cmd !! _); [|done]. case_decide; [by injection Ht as <-|].
    destruct (_ && _); [|by injection Ht as <-]. case_decide; [|done]. by injection Ht as <-. }
  split; [split; [congruence|split; congruence]|congruence].
Qed.

Lemma update_timing_st nd c addr' clk nd' :
  update_timing spec nd c addr' clk = Ok nd' ->
  same_st nd nd' /\ length (nd_children nd') = length (nd_children nd) /\
  forall k ch, nd_children nd !! k = Some ch ->
    nd_children nd' !! k = Some ch \/
    exists ch', nd_children nd' !! k = Some ch' /\ update_timing spec ch c addr' clk = Ok ch'.
Proof.
  rewrite update_timing_eq. destruct (bool_decide _).
  - intros [H ->]%fold_sibling_st. split; [exact H|]. split; [done|]. by left.
  - destruct (fold_res _ _ _) as [nd1|] eqn:Hf; [|done]. cbn [bind_res]. apply fold_target_st in Hf as [Hs _].
    destruct (map_res _ _) as [l|] eqn:Hm; [|done]. cbn [bind_res]. intros [= <-].
    apply map_res_ok in Hm as [Hlen Hm]. split; [exact Hs|]. split; [exact Hlen|]. intros k ch Hk. right.
    destruct (Hm k ch Hk) as (ch' & Hu & Hk'). by exists ch'.
Qed.

Lemma update_timing_node_at k nd c addr' clk nd' addr x :
  update_timing spec nd c addr' clk = Ok nd' -> node_at k nd addr = Some x ->
  exists x', node_at k nd' addr = Some x' /\ same_st x x'.
Proof.
  revert nd nd'. induction k as [|k IH]; intros nd nd' Hu; simpl.
  - intros [= ->]. exists nd'. split; [done|]. by apply update_timing_st in Hu as [? _].
  - apply update_timing_st in Hu as ((Hl & _) & _ & Hch). rewrite Hl.
    destruct (nd_children nd !! _) as [ch|] eqn:Hk; [|done]. intros Hx.
    destruct (Hch _ _ Hk) as [->|(ch' & -> & Hu)]; [by exists x|]. by apply (IH ch).
Qed.

(** [update_state] along a path: levels without an effect pass it on to the
    child, and keep their state. *)
Lemma update_state_skip k n lev nd c addr nd' x :
  leveled lev nd -> (k + lev <= sp_scope spec c)%nat ->
  (forall j, (j < k)%nat -> sp_lambda spec (j + lev) c = None) ->
  node_at k nd addr = Some x -> update_state spec n nd c addr = Ok nd' ->
  exists n' x', update_state spec n' x c addr = Ok x' /\ node_at k nd' addr = Some x' /\
    (forall j y, (j < k)%nat -> node_at j nd addr = Some y -> exists y', node_at j nd' addr = Some y' /\ same_st y y').
Proof.
  revert n lev nd nd'. induction k as [|k IH]; intros n lev nd nd' H Hsc Hn; simpl.
  { intros [= ->] Hu. exists n, nd'. split; [done|]. split; [done|]. intros; lia. }
  destruct H as [lev nd Hl Hch]. destruct (nd_children nd !! _) as [ch|] eqn:Hk; [|done]. intros Hx Hu.
  pose proof (Hn 0%nat ltac:(lia)) as H0. simpl in H0.
  assert (exists n', exists ch', update_state spec n' ch c addr = Ok ch' /\
    nd' = set_children (<[Z.to_nat (addr (S lev)) := ch']> (nd_children nd)) nd) as (n' & ch' & Hu' & ->).
  { destruct n as [|n]; cbn [update_state] in Hu; rewrite Hl, H0, Hl, bool_decide_false in Hu by lia;
      (destruct (nd_children nd) as [|a l] eqn:Hc; [by rewrite lookup_nil in Hk|]); simpl in Hu; [done|].
    case_decide; [done|]. rewrite Hl in Hk. rewrite Hk in Hu.
    destruct (update_state spec n ch c addr) as [ch'|] eqn:Hu'; [|done]. simpl in Hu. injection Hu as <-. by exists n, ch'. }
  destruct (IH n' (S lev) ch ch') as (n2 & x' & Hx' & Hat & Habove); [exact (Hch _ _ Hk)|lia| |exact Hx|exact Hu'|].
  { intros j Hj. replace (j + S lev)%nat with (S j + lev)%nat by lia. apply Hn. lia. }
  rewrite Hl in *. exists n2, x'. split; [done|].
  assert (<[Z.to_nat (addr (S lev)) := ch']> (nd_children nd) !! Z.to_nat (addr (S lev)) = Some ch') as Hin.
  { apply list_lookup_insert_eq. exact (lookup_lt_Some _ _ _ Hk). }
  split; [simpl; by rewrite Hl, Hin|].
  intros [|j] y Hj; simpl.
  - intros [= <-]. eexists; split; [done|]. by split.
  - rewrite !Hl, Hin, Hk. intros Hy. apply Habove; [lia|done].
Qed.
End Paths.
