(* ===== verification/DramBanks.v ===== *)
(** * Banks, rows and power states

    The twelve-command standards share one protocol: a node of level [W] (the
    rank, or the vault) is powered up or in one of three power-down states, and
    each bank below it is closed or has an open row.  [Banked] states what a
    standard's tables say of them, and the theorems hold for every such
    standard. *)

From stdpp Require Import base tactics numbers list gmap.
From Stdlib Require Import ZArith Lia.
From S2P Require Import Prelude Dram DramTiming DramStd.

Open Scope Z_scope.

#[local] Abbreviation Node := (Dram.Node Command State).
#[local] Abbreviation Spec := (Dram.Spec Command State).

(** ** The interface *)

(** What a read or a write needs of the power state and of the bank. *)
Definition wake_prereq (node : Node) (cmd : Command) (id : Z) : result (option Command) :=
  match nd_state node with
  | PowerUp => Ok None
  | ActPowerDown => Ok (Some PDX)
  | PrePowerDown => Ok (Some PDX)
  | SelfRefresh => Ok (Some SRX)
  | _ => Err AssertFail
  end.
Definition bank_prereq (node : Node) (cmd : Command) (id : Z) : result (option Command) :=
  match nd_state node with
  | Closed => Ok (Some ACT)
  | Opened => match nd_rows node !! id with Some _ => Ok (Some cmd) | None => Ok (Some PRE) end
  | _ => Err AssertFail
  end.
Definition bank_rowhit (node : Node) (cmd : Command) (id : Z) : result bool :=
  match nd_state node with
  | Closed => Ok false
  | Opened => match nd_rows node !! id with Some _ => Ok true | None => Ok false end
  | _ => Err AssertFail
  end.

Definition wake_state (s : State) : Prop := s = PowerUp \/ s = ActPowerDown \/ s = PrePowerDown \/ s = SelfRefresh.
(** A bank is closed, or open with some row; or with exactly one. *)
Definition bank_ok (nd : Node) : Prop :=
  (nd_state nd = Closed /\ nd_rows nd = ∅) \/ (nd_state nd = Opened /\ nd_rows nd <> ∅).
Definition bank_one (nd : Node) : Prop :=
  (nd_state nd = Closed /\ nd_rows nd = ∅) \/ (nd_state nd = Opened /\ exists row s, nd_rows nd = {[row := s]}).

Section States.
Context (W B : nat) (P : Node -> Prop).

(** The states of a tree: those of level [W] are power states, those of level
    [B] satisfy [P]. *)
Inductive states_ok : nat -> Node -> Prop :=
  | states_ok_intro lev nd :
      nd_level nd = lev -> (lev = W -> wake_state (nd_state nd)) -> (lev = B -> P nd) ->
      (forall k ch, nd_children nd !! k = Some ch -> states_ok (S lev) ch) -> states_ok lev nd.

Lemma states_ok_inv lev nd : states_ok lev nd ->
  nd_level nd = lev /\ (lev = W -> wake_state (nd_state nd)) /\ (lev = B -> P nd) /\
  forall k ch, nd_children nd !! k = Some ch -> states_ok (S lev) ch.
Proof. by intros []. Qed.
Lemma states_ok_children (f : Node -> Node) lev nd :
  states_ok lev nd -> (forall ch, states_ok (S lev) ch -> states_ok (S lev) (f ch)) ->
  (lev = B -> P (map_children f nd)) -> states_ok lev (map_children f nd).
Proof.
  intros (Hl & Hw & _ & Hch)%states_ok_inv Hf HP. constructor; [done..|]. simpl. intros k ch Hk.
  apply list_lookup_fmap_Some in Hk as (ch0 & -> & Hk). exact (Hf _ (Hch _ _ Hk)).
Qed.
Lemma states_ok_set_state s nd :
  W <> B -> states_ok W nd -> wake_state s -> states_ok W (set_state s nd).
Proof. intros HWB (Hl & _ & _ & Hch)%states_ok_inv Hs. constructor; [done..|exact Hch]. Qed.
Lemma states_ok_close nd :
  W <> B -> (forall x, P (close_bank x)) -> states_ok B nd -> states_ok B (close_bank nd).
Proof.
  intros HWB HP (Hl & Hw & Hb & Hch)%states_ok_inv. constructor; [done| | |exact Hch]; [congruence|].
  intros _. apply HP.
Qed.
End States.

Class Banked (spec : Spec) (W B : nat) : Prop := {
  bk_levels : (W < B)%nat /\ sp_row spec = S B;
  bk_scope_access c : c = RD \/ c = WR \/ c = ACT \/ c = PRE -> (B <= sp_scope spec c)%nat;
  bk_scope_wake c : c = PDX \/ c = SRX -> sp_scope spec c = W;
  bk_prereq lev c : c = RD \/ c = WR ->
    sp_prereq spec lev c = if decide (lev = W) then Some wake_prereq else if decide (lev = B) then Some bank_prereq else None;
  bk_rowhit lev c : c = RD \/ c = WR ->
    sp_rowhit spec lev c = if decide (lev = B) then Some bank_rowhit else None;
  bk_wake lev c : c = PDX \/ c = SRX ->
    sp_lambda spec lev c = if decide (lev = W) then Some (fun nd _ => set_state PowerUp nd) else None;
  bk_act lev : sp_lambda spec lev ACT = if decide (lev = B) then Some open_row else None;
  bk_pre lev : sp_lambda spec lev PRE = if decide (lev = B) then Some (fun nd _ => close_bank nd) else None;
  bk_start : sp_start spec W = PowerUp /\ sp_start spec B = Closed;
  bk_lambda (P : Node -> Prop) lev c f nd id :
    (forall x, P (close_bank x)) -> c <> ACT -> sp_lambda spec lev c = Some f ->
    states_ok W B P lev nd -> states_ok W B P lev (f nd id);
}.

(** ** States along runs *)
Section Banked.
Context (spec : Spec) (W B : nat) `{!SpecOk spec} `{!Banked spec W B}.
Implicit Types nd : Node.

Lemma bank_ok_close x : bank_ok (close_bank x).
Proof. by left. Qed.
Lemma bank_one_close x : bank_one (close_bank x).
Proof. by left. Qed.
Lemma bank_ok_open x id : bank_ok (open_row x id).
Proof. right. split; [done|]. apply insert_non_empty. Qed.

Lemma build_states P n lev id :
  (forall x, nd_state x = Closed -> nd_rows x = ∅ -> P x) -> states_ok W B P lev (build spec n lev id).
Proof.
  intros HP. destruct bk_start as [HW HB]. revert lev id. induction n as [|n IH]; intros lev id.
  - constructor; [done| | |done].
    + intros ->. left. exact HW.
    + intros ->. apply HP; [exact HB|done].
  - constructor; [done| | |].
    + intros ->. left. exact HW.
    + intros ->. apply HP; [exact HB|done].
    + intros k ch. simpl. case_decide; [by rewrite lookup_nil|].
      intros (k' & -> & _)%list_lookup_fmap_Some. apply IH.
Qed.

Lemma update_timing_states P lev nd c addr clk nd' :
  (forall x y, nd_state y = nd_state x -> nd_rows y = nd_rows x -> P x -> P y) ->
  states_ok W B P lev nd -> update_timing spec nd c addr clk = Ok nd' -> states_ok W B P lev nd'.
Proof.
  intros HP H. revert nd'. induction H as [lev nd Hl Hw Hb Hch IH]. intros nd' Hu.
  apply update_timing_st in Hu as ((H1 & H2 & H3) & Hlen & Hk'). constructor.
  - congruence.
  - intros Hx. rewrite H2. by apply Hw.
  - intros Hx. apply (HP nd); [done..|]. by apply Hb.
  - intros k ch' Hc. destruct (lookup_lt_is_Some_2 (nd_children nd) k) as [ch Hk].
    { rewrite <- Hlen. exact (lookup_lt_Some _ _ _ Hc). }
    destruct (Hk' k ch Hk) as [He|(ch2 & He & Hu)]; rewrite Hc in He; injection He as <-.
    + exact (Hch k ch' Hk).
    + exact (IH k ch Hk ch' Hu).
Qed.

Lemma update_state_states P n lev id L nd c addr nd' :
  (forall x, P (close_bank x)) -> (lev <= B)%nat ->
  (c = ACT -> forall bk, node_at (B - lev) nd addr = Some bk -> P (open_row bk (addr (S B)))) ->
  tree_inv spec lev id L nd ->
  states_ok W B P lev nd -> update_state spec n nd c addr = Ok nd' -> states_ok W B P lev nd'.
Proof.
  intros HP. destruct bk_levels as [HWB Hrow]. revert lev id L nd nd'.
  induction n as [|n IH]; intros lev id L nd nd' Hlev Hact Ht H; cbn [update_state];
    pose proof (states_ok_inv _ _ _ _ _ H) as (Hl & Hw & _ & Hch); rewrite Hl.
  all: set (nd1 := match sp_lambda spec lev c with Some f => f nd (addr (S lev)) | None => nd end).
  all: assert (states_ok W B P lev nd1) as H1.
  1,3: unfold nd1; destruct (sp_lambda spec lev c) as [f|] eqn:Hf; [|exact H];
       destruct (decide (c = ACT)) as [->|Hc]; [|exact (bk_lambda P lev c f nd _ HP Hc Hf H)];
       rewrite bk_act in Hf; case_decide; [|done]; injection Hf as <-; subst lev;
       constructor; [done|intros Heq; lia| |exact Hch];
       intros _; match goal with Hd : _ = B |- _ => rewrite Hd, Nat.sub_diag in *; exact (Hact eq_refl nd eq_refl) end.
  - destruct (_ || _); [|discriminate]. intros [= <-]. exact H1.
  - assert (lev < B -> c = ACT -> nd1 = nd)%nat as Hsame.
    { intros Hlt ->. unfold nd1. rewrite bk_act. by rewrite decide_False by lia. }
    assert (tree_inv spec lev id L nd1) as Ht1.
    { unfold nd1. destruct (sp_lambda spec lev c) eqn:Hf; [|exact Ht].
      eapply tree_inv_same; [by eapply lambda_tim|exact Ht]. }
    clearbody nd1. pose proof (states_ok_inv _ _ _ _ _ H1) as (Hl1 & Hw1 & Hb1 & Hch1). rewrite Hl1.
    destruct (bool_decide _ || _) eqn:Hstop; [intros [= <-]; exact H1|]. destruct (decide (addr (S lev) < 0)); [discriminate|].
    destruct (nd_children nd1 !! Z.to_nat (addr (S lev))) as [ch|] eqn:Hk; [|discriminate].
    destruct (update_state spec n ch c addr) as [ch'|] eqn:Hu; [|discriminate]. cbn [bind_res]. intros [= <-].
    assert (lev < B)%nat as Hlt.
    { pose proof (nt_children _ _ _ _ _ (tree_inv_node _ _ _ _ _ Ht1)) as Hcc. apply lookup_lt_Some in Hk.
      unfold child_count in Hcc. destruct (decide (lev < B)%nat); [done|]. rewrite decide_False in Hcc by lia. lia. }
    constructor; [done|done|lia|].
    simpl. intros k x Hx. apply list_lookup_insert_Some in Hx as [(<- & <- & _)|[_ Hx]]; [|exact (Hch1 k x Hx)].
    pose proof (tree_inv_child _ _ _ _ _ _ _ Ht1 Hk) as Htc.
    eapply (IH (S lev) _ _ ch ch'); [lia| |exact Htc|exact (Hch1 _ _ Hk)|exact Hu].
    intros Hc bk Hbk. apply (Hact Hc). specialize (Hsame Hlt Hc). subst nd1.
    replace (B - lev)%nat with (S (B - S lev)) by lia. simpl. by rewrite Hl1, Hk.
Qed.

(** ** The nodes of a path *)

(** An address that names a child at every level down to the bank. *)
Definition bank_addr (addr : nat -> Z) : Prop :=
  forall l, (l < B)%nat -> 0 <= addr (S l) < Z.of_nat (sp_count spec (S l)).

Lemma child_count_below l : (l < B)%nat -> child_count spec l = sp_count spec (S l).
Proof. intros Hl. destruct bk_levels as [_ Hr]. unfold child_count. rewrite decide_True by lia. done. Qed.
Lemma child_count_leaf l : (B <= l)%nat -> child_count spec l = 0%nat.
Proof. intros Hl. destruct bk_levels as [_ Hr]. unfold child_count. by rewrite decide_False by lia. Qed.
Lemma bank_addr_valid addr c : bank_addr addr -> valid_addr spec c addr.
Proof.
  intros Ha l _ Hc. destruct (decide (l < B)%nat) as [Hl|Hl]; [rewrite child_count_below by done; by apply Ha|].
  by rewrite child_count_leaf in Hc by lia.
Qed.

Lemma path_exists k lev id L nd addr :
  tree_inv spec lev id L nd -> (k + lev <= B)%nat -> bank_addr addr ->
  exists x id' L', node_at k nd addr = Some x /\ tree_inv spec (k + lev) id' L' x.
Proof.
  revert lev id L nd. induction k as [|k IH]; intros lev id L nd H Hk Ha; [by exists nd, id, L|].
  assert (0 <= addr (S lev) < Z.of_nat (child_count spec lev)) as Hb.
  { rewrite child_count_below by lia. apply Ha. lia. }
  destruct (child_at_ok _ _ _ _ _ addr H Hb) as (ch & _ & Hch & Hinv).
  destruct (IH (S lev) _ _ ch Hinv) as (x & id' & L' & Hx & Hinv'); [lia|done|].
  exists x, id', L'. pose proof (nt_level _ _ _ _ _ (tree_inv_node _ _ _ _ _ H)) as Hl. simpl. rewrite Hl, Hch.
  split; [exact Hx|]. by replace (S (k + lev)) with (k + S lev)%nat by lia.
Qed.
Lemma path_states P k lev nd addr x :
  states_ok W B P lev nd -> node_at k nd addr = Some x -> states_ok W B P (k + lev) x.
Proof.
  revert lev nd. induction k as [|k IH]; intros lev nd H; simpl; [by intros [= <-]|].
  pose proof (states_ok_inv _ _ _ _ _ H) as (Hl & _ & _ & Hch).
  destruct (nd_children nd !! _) as [ch|] eqn:Hk; [|discriminate]. intros Hx.
  replace (S (k + lev)) with (k + S lev)%nat by lia. exact (IH _ ch (Hch _ _ Hk) Hx).
Qed.

Lemma leveled_level lev nd : leveled lev nd -> nd_level nd = lev.
Proof. by intros []. Qed.

(** What a read or a write sees on its way: the power state, and the bank. *)
Definition wake_of nd addr : option State := nd_state <$> node_at W nd addr.
Definition bank_of nd addr : option (State * gmap Z State) :=
  (fun b => (nd_state b, nd_rows b)) <$> node_at B nd addr.

Lemma decode_access nd addr c ws bs rows :
  leveled 0 nd -> bank_addr addr -> c = RD \/ c = WR ->
  wake_of nd addr = Some ws -> bank_of nd addr = Some (bs, rows) ->
  decode spec nd c addr =
    match ws with
    | PowerUp => match bs with
                 | Closed => Ok ACT
                 | Opened => match rows !! addr (S B) with Some _ => Ok c | None => Ok PRE end
                 | _ => Err AssertFail
                 end
    | ActPowerDown | PrePowerDown => Ok PDX
    | SelfRefresh => Ok SRX
    | _ => Err AssertFail
    end.
Proof.
  intros Hlev Ha Hc Hw Hb. destruct bk_levels as [HWB Hr].
  unfold wake_of in Hw. apply fmap_Some in Hw as (w & Hw & ->).
  unfold bank_of in Hb. apply fmap_Some in Hb as (b & Hb & [= -> ->]).
  rewrite (decode_skip spec W 0 nd c addr w Hlev); [| |exact Hw].
  2: { intros j Hj. rewrite Nat.add_0_r, bk_prereq, !decide_False by (done || lia). split; [done|]. apply Ha. lia. }
  pose proof (node_at_leveled _ _ _ _ _ Hlev Hw) as Hlw. rewrite Nat.add_0_r in Hlw.
  assert (nd_level w = W) as Hwl by (by destruct Hlw).
  rewrite decode_eq, Hwl, bk_prereq, decide_True by done. cbv zeta.
  replace B with (W + (B - W))%nat in Hb by lia. rewrite (node_at_add _ _ _ _ _ Hw) in Hb.
  replace (B - W)%nat with (S (B - S W)) in Hb by lia. simpl in Hb.
  destruct (nd_children w !! Z.to_nat (addr (S (nd_level w)))) as [ch|] eqn:Hk; [|done].
  destruct (leaf_here_child w addr ch) as [Hlf Hca]; [rewrite Hwl; apply Ha; lia|exact Hk|].
  rewrite Hlf, Hca. cbn [bind_res]. unfold wake_prereq. destruct (nd_state w); try done. cbn [bind_res].
  assert (leveled (S W) ch) as Hlc by (destruct Hlw as [? ? _ Hcl]; exact (Hcl _ _ Hk)).
  rewrite (decode_skip spec (B - S W) (S W) ch c addr b Hlc); [| |exact Hb].
  2: { intros j Hj. rewrite bk_prereq, !decide_False by (done || lia). split; [done|]. apply Ha. lia. }
  pose proof (node_at_leveled _ _ _ _ _ Hlc Hb) as Hlb.
  assert (nd_level b = B) as Hbl by (pose proof (leveled_level _ _ Hlb); lia).
  rewrite decode_eq, Hbl, bk_prereq, decide_False, decide_True by (done || lia). cbv zeta.
  unfold bank_prereq. destruct (nd_state b); try done. by destruct (nd_rows b !! addr (S B)).
Qed.

Lemma check_row_skip table k lev nd c addr x :
  leveled lev nd -> (forall j, (j < k)%nat -> table (j + lev)%nat c = None /\ 0 <= addr (S (j + lev))) ->
  node_at k nd addr = Some x -> check_row table nd c addr = check_row table x c addr.
Proof.
  revert lev nd. induction k as [|k IH]; intros lev nd H Hn; simpl; [by intros [= ->]|].
  destruct H as [lev nd Hl Hch]. destruct (nd_children nd !! _) as [ch|] eqn:Hk; [|done]. intros Hx.
  destruct (Hn 0%nat) as [Hp Ha]; [lia|]. simpl in Hp, Ha. rewrite <- Hl in Ha.
  destruct (leaf_here_child nd addr ch Ha Hk) as [Hlf Hca].
  rewrite check_row_eq, Hl, Hp, Hlf, Hca. cbn [bind_res].
  apply (IH (S lev) ch); [exact (Hch _ _ Hk)| |exact Hx].
  intros j Hj. replace (j + S lev)%nat with (S j + lev)%nat by lia. apply Hn. lia.
Qed.
(** A table with an entry for the bank only is asked about the bank. *)
Lemma check_row_bank table f nd c addr :
  leveled 0 nd -> bank_addr addr -> (forall lev, table lev c = if decide (lev = B) then Some f else None) ->
  forall b, node_at B nd addr = Some b -> check_row table nd c addr = f b c (addr (S B)).
Proof.
  intros Hlev Ha Ht b Hb. rewrite (check_row_skip table B 0 nd c addr b Hlev); [| |exact Hb].
  2: { intros j Hj. rewrite Nat.add_0_r, Ht, decide_False by lia. split; [done|]. apply Ha. lia. }
  pose proof (node_at_leveled _ _ _ _ _ Hlev Hb) as Hlb. rewrite Nat.add_0_r in Hlb.
  assert (nd_level b = B) as Hbl by (by destruct Hlb).
  by rewrite check_row_eq, Hbl, Ht, decide_True.
Qed.
Lemma row_hit_access nd addr c bs rows :
  leveled 0 nd -> bank_addr addr -> c = RD \/ c = WR -> bank_of nd addr = Some (bs, rows) ->
  check_row_hit spec nd c addr =
    match bs with
    | Closed => Ok false
    | Opened => match rows !! addr (S B) with Some _ => Ok true | None => Ok false end
    | _ => Err AssertFail
    end.
Proof.
  intros Hlev Ha Hc Hb. unfold bank_of in Hb. apply fmap_Some in Hb as (b & Hb & [= -> ->]). unfold check_row_hit.
  rewrite (check_row_bank (sp_rowhit spec) bank_rowhit nd c addr Hlev Ha (fun lev => bk_rowhit lev c Hc) b Hb). done.
Qed.

(** ** The effect of a command on its path *)
Lemma update_split nd c addr clk nd' :
  update spec nd c addr clk = Ok nd' ->
  exists nd1, update_state spec (sp_row spec) (set_cur clk nd) c addr = Ok nd1 /\ update_timing spec nd1 c addr clk = Ok nd'.
Proof. unfold update. destruct (update_state _ _ _ _ _) as [nd1|]; [|done]. cbn [bind_res]. by exists nd1. Qed.

Lemma wake_of_timing nd c addr' clk nd' addr ws :
  update_timing spec nd c addr' clk = Ok nd' -> wake_of nd addr = Some ws -> wake_of nd' addr = Some ws.
Proof.
  intros Hu. unfold wake_of. intros (w & Hw & ->)%fmap_Some.
  destruct (update_timing_node_at _ _ _ _ _ _ _ _ _ Hu Hw) as (w' & -> & _ & Hs & _). simpl. by rewrite Hs.
Qed.
Lemma bank_of_timing nd c addr' clk nd' addr b :
  update_timing spec nd c addr' clk = Ok nd' -> bank_of nd addr = Some b -> bank_of nd' addr = Some b.
Proof.
  intros Hu. unfold bank_of. intros (w & Hw & ->)%fmap_Some.
  destruct (update_timing_node_at _ _ _ _ _ _ _ _ _ Hu Hw) as (w' & -> & _ & Hs & Hr). simpl. by rewrite Hs, Hr.
Qed.

Lemma node_at_set_cur k clk nd addr : (0 < k)%nat -> node_at k (set_cur clk nd) addr = node_at k nd addr.
Proof. by destruct k; [lia|]. Qed.

Lemma update_wake nd addr clk c nd' ws b :
  leveled 0 nd -> bank_addr addr -> c = PDX \/ c = SRX -> wake_of nd addr = Some ws -> bank_of nd addr = Some b ->
  update spec nd c addr clk = Ok nd' -> wake_of nd' addr = Some PowerUp /\ bank_of nd' addr = Some b.
Proof.
  intros Hlev Ha Hc Hw Hb Hu. destruct bk_levels as [HWB Hr].
  apply update_split in Hu as (nd1 & Hs & Ht).
  assert (wake_of nd1 addr = Some PowerUp /\ bank_of nd1 addr = Some b) as [H1 H2];
    [|split; [by eapply wake_of_timing|by eapply bank_of_timing]].
  assert (exists w, node_at W (set_cur clk nd) addr = Some w /\ node_at (B - W) w addr = node_at B nd addr) as (w & Hw' & Hbk).
  { apply fmap_Some in Hw as (w & Hw & _). destruct (decide (W = 0%nat)) as [HW|HW].
    - rewrite HW in *. simpl in Hw. injection Hw as ->. eexists; split; [done|].
      rewrite Nat.sub_0_r. apply node_at_set_cur. lia.
    - exists w. rewrite node_at_set_cur by lia. split; [exact Hw|].
      replace B with (W + (B - W))%nat at 2 by lia. by rewrite (node_at_add _ _ _ _ _ Hw). }
  assert (leveled 0 (set_cur clk nd)) as Hlc by (destruct Hlev; by constructor).
  destruct (update_state_skip spec W (sp_row spec) 0 (set_cur clk nd) c addr nd1 w Hlc) as (n' & w' & Hw1 & Hat & _); [| |exact Hw'|exact Hs|].
  { rewrite Nat.add_0_r, bk_scope_wake by done. lia. }
  { intros j Hj. by rewrite Nat.add_0_r, bk_wake, decide_False by (done || lia). }
  pose proof (node_at_leveled _ _ _ _ _ Hlc Hw') as Hlw. rewrite Nat.add_0_r in Hlw.
  assert (nd_level w = W) as Hwl by (by destruct Hlw).
  assert (w' = set_state PowerUp w) as ->.
  { destruct n' as [|n']; cbn [update_state] in Hw1; rewrite Hwl, bk_wake, decide_True in Hw1 by done;
      cbn [nd_level set_state] in Hw1; rewrite Hwl, bool_decide_true in Hw1 by (by rewrite bk_scope_wake);
      simpl in Hw1; by injection Hw1 as <-. }
  unfold wake_of, bank_of in *. rewrite Hat. split; [done|].
  replace B with (W + (B - W))%nat by lia. rewrite (node_at_add _ _ _ _ _ Hat).
  assert (node_at (B - W) (set_state PowerUp w) addr = node_at (B - W) w addr) as ->; [|by rewrite Hbk].
  replace (B - W)%nat with (S (B - S W)) by lia. done.
Qed.

Lemma update_bank nd addr clk c nd' ws bs rows id L :
  tree_inv spec 0 id L nd -> bank_addr addr -> c = ACT \/ c = PRE -> wake_of nd addr = Some ws -> bank_of nd addr = Some (bs, rows) ->
  update spec nd c addr clk = Ok nd' ->
  wake_of nd' addr = Some ws /\
  bank_of nd' addr = Some (if decide (c = ACT) then (Opened, <[addr (S B) := Opened]> rows) else (Closed, ∅)).
Proof.
  intros Htree Ha Hc Hw Hb Hu. destruct bk_levels as [HWB Hr].
  apply update_split in Hu as (nd1 & Hs & Ht).
  assert (wake_of nd1 addr = Some ws /\
    bank_of nd1 addr = Some (if decide (c = ACT) then (Opened, <[addr (S B) := Opened]> rows) else (Closed, ∅))) as [H1 H2];
    [|split; [by eapply wake_of_timing|by eapply bank_of_timing]].
  apply (set_cur_inv spec 0 id L nd clk) in Htree.
  pose proof (tree_inv_leveled _ _ _ _ _ Htree) as Hlc.
  assert (node_at B (set_cur clk nd) addr = node_at B nd addr) as HatB by (apply node_at_set_cur; lia).
  unfold bank_of in Hb. apply fmap_Some in Hb as (b & Hb & [= -> ->]). rewrite <- HatB in Hb.
  destruct (update_state_skip spec B (sp_row spec) 0 (set_cur clk nd) c addr nd1 b Hlc) as (n' & b' & Hb1 & Hat & Habove);
    [| |exact Hb|exact Hs|].
  { rewrite Nat.add_0_r. apply bk_scope_access. tauto. }
  { intros j Hj. rewrite Nat.add_0_r. destruct Hc as [-> | ->]; [rewrite bk_act|rewrite bk_pre]; by rewrite decide_False by lia. }
  split.
  - unfold wake_of in *. apply fmap_Some in Hw as (w & Hw & ->).
    assert (exists w0, node_at W (set_cur clk nd) addr = Some w0 /\ nd_state w0 = nd_state w) as (w0 & Hw0 & Hws).
    { destruct (decide (W = 0%nat)) as [HW|HW].
      - rewrite HW in *. simpl in *. injection Hw as ->. by eexists.
      - exists w. by rewrite node_at_set_cur by lia. }
    destruct (Habove W w0 HWB Hw0) as (w' & -> & _ & Hsw & _). simpl. by rewrite Hsw, Hws.
  - unfold bank_of. rewrite Hat. simpl. f_equal.
    destruct (path_exists B 0 _ _ _ addr Htree) as (b0 & idb & Lb & Hb0 & Hinvb); [lia|done|].
    rewrite Hb in Hb0. injection Hb0 as <-. rewrite Nat.add_0_r in Hinvb.
    pose proof (tree_inv_node _ _ _ _ _ Hinvb) as [Hbl _ _ _ Hcc].
    assert (nd_children b = []) as Hnil.
    { apply nil_length_inv. rewrite Hcc. by apply child_count_leaf. }
    destruct Hc as [-> | ->].
    + rewrite decide_True by done.
      destruct n' as [|n']; cbn [update_state] in Hb1; rewrite Hbl, bk_act, decide_True in Hb1 by done;
        cbn [nd_children open_row set_rows set_state] in Hb1; rewrite Hnil, orb_true_r in Hb1; by injection Hb1 as <-.
    + rewrite decide_False by done.
      destruct n' as [|n']; cbn [update_state] in Hb1; rewrite Hbl, bk_pre, decide_True in Hb1 by done;
        cbn [nd_children close_bank set_rows set_state] in Hb1; rewrite Hnil, orb_true_r in Hb1; by injection Hb1 as <-.
Qed.

(** ** Opening a row *)

(** The commands that a read or a write needs before it can issue: decode,
    issue the prerequisite, and so on, at clocks given by [clk]. *)
Fixpoint open_for (n : nat) nd (c : Command) (addr : nat -> Z) (clk : nat -> Z) : result (list Command * Node) :=
  bind_res (decode spec nd c addr) (fun d =>
    if decide (d = c) then Ok ([], nd)
    else match n with
         | O => Err NoFuel
         | S n => bind_res (update spec nd d addr (clk n)) (fun nd' =>
                  bind_res (open_for n nd' c addr clk) (fun '(ds, nd2) => Ok (d :: ds, nd2)))
         end).

(** A reachable tree, and what an access sees in it. *)
Definition sees nd addr ws bs rows : Prop :=
  (exists id L, tree_inv spec 0 id L nd /\ log_pos L) /\ wake_of nd addr = Some ws /\ bank_of nd addr = Some (bs, rows).

Lemma sees_update nd addr ws bs rows c clk :
  sees nd addr ws bs rows -> bank_addr addr -> 0 <= clk -> c = PDX \/ c = SRX \/ c = ACT \/ c = PRE ->
  exists nd', update spec nd c addr clk = Ok nd' /\
    match c with
    | ACT => sees nd' addr ws Opened (<[addr (S B) := Opened]> rows)
    | PRE => sees nd' addr ws Closed ∅
    | _ => sees nd' addr PowerUp bs rows
    end.
Proof.
  intros ((id & L & Ht & Hpos) & Hw & Hb) Ha Hclk Hc.
  destruct (update_inv spec id L nd c addr clk Ht Hpos) as (nd' & Hu & Ht').
  { split; [exact Hclk|]. by apply bank_addr_valid. }
  exists nd'. split; [exact Hu|].
  assert (exists id L, tree_inv spec 0 id L nd' /\ log_pos L) as Hr.
  { eexists _, _. split; [exact Ht'|]. by constructor. }
  pose proof (tree_inv_leveled _ _ _ _ _ Ht) as Hlev.
  destruct Hc as [-> | [-> | [-> | ->]]]; split; try exact Hr.
  - eapply update_wake; [exact Hlev|exact Ha|by left|exact Hw|exact Hb|exact Hu].
  - eapply update_wake; [exact Hlev|exact Ha|by right|exact Hw|exact Hb|exact Hu].
  - eapply (update_bank nd addr clk ACT); [exact Ht|exact Ha|by left|exact Hw|exact Hb|exact Hu].
  - eapply (update_bank nd addr clk PRE); [exact Ht|exact Ha|by right|exact Hw|exact Hb|exact Hu].
Qed.

Lemma sees_decode nd addr ws bs rows c :
  sees nd addr ws bs rows -> bank_addr addr -> c = RD \/ c = WR ->
  decode spec nd c addr =
    match ws with
    | PowerUp => match bs with
                 | Closed => Ok ACT
                 | Opened => match rows !! addr (S B) with Some _ => Ok c | None => Ok PRE end
                 | _ => Err AssertFail
                 end
    | ActPowerDown | PrePowerDown => Ok PDX
    | SelfRefresh => Ok SRX
    | _ => Err AssertFail
    end.
Proof.
  intros ((id & L & Ht & _) & Hw & Hb) Ha Hc.
  apply decode_access; [exact (tree_inv_leveled _ _ _ _ _ Ht)|exact Ha|exact Hc|exact Hw|exact Hb].
Qed.

(** What [open_for] promises. *)
Definition opens (n : nat) nd c addr clk (plan : list Command) : Prop :=
  exists ds nd', open_for n nd c addr clk = Ok (ds, nd') /\ ds `sublist_of` plan /\
    decode spec nd' c addr = Ok c /\ check_row_hit spec nd' c addr = Ok true.

Lemma opens_done n nd addr rows c clk plan x :
  sees nd addr PowerUp Opened rows -> rows !! addr (S B) = Some x -> bank_addr addr -> c = RD \/ c = WR ->
  opens n nd c addr clk plan.
Proof.
  intros Hs Hr Ha Hc. pose proof (sees_decode _ _ _ _ _ _ Hs Ha Hc) as Hd. simpl in Hd. rewrite Hr in Hd.
  exists [], nd. split; [|split; [apply sublist_nil_l|split; [exact Hd|]]].
  - destruct n; cbn [open_for]; rewrite Hd; cbn [bind_res]; by rewrite decide_True.
  - destruct Hs as ((id & L & Ht & _) & _ & Hb).
    rewrite (row_hit_access nd addr c Opened rows); [by rewrite Hr|exact (tree_inv_leveled _ _ _ _ _ Ht)|exact Ha|exact Hc|exact Hb].
Qed.
Lemma opens_step n nd addr ws bs rows c clk d plan :
  sees nd addr ws bs rows -> bank_addr addr -> (forall k, 0 <= clk k) ->
  decode spec nd c addr = Ok d -> d <> c -> d = PDX \/ d = SRX \/ d = ACT \/ d = PRE ->
  (forall nd', match d with
    | ACT => sees nd' addr ws Opened (<[addr (S B) := Opened]> rows)
    | PRE => sees nd' addr ws Closed ∅
    | _ => sees nd' addr PowerUp bs rows
    end -> opens n nd' c addr clk plan) -> opens (S n) nd c addr clk (d :: plan).
Proof.
  intros Hs Ha Hclk Hd Hne Hcase Hnext.
  destruct (sees_update nd addr ws bs rows d (clk n) Hs Ha (Hclk n) Hcase) as (nd' & Hu & Hs').
  destruct (Hnext nd' Hs') as (ds & nd2 & Ho & Hsub & Hfin). exists (d :: ds), nd2.
  split; [|split; [by apply sublist_skip|exact Hfin]].
  cbn [open_for]. rewrite Hd. cbn [bind_res]. rewrite decide_False by done. rewrite Hu. cbn [bind_res]. by rewrite Ho.
Qed.
Lemma opens_weaken n nd c addr clk d plan : opens n nd c addr clk plan -> opens n nd c addr clk (d :: plan).
Proof. intros (ds & nd' & Ho & Hs & Hf). exists ds, nd'. split; [exact Ho|]. split; [by apply sublist_cons|exact Hf]. Qed.

Lemma opens_closed n nd addr rows c clk :
  sees nd addr PowerUp Closed rows -> bank_addr addr -> c = RD \/ c = WR -> (forall k, 0 <= clk k) ->
  opens (S n) nd c addr clk [ACT].
Proof.
  intros Hs Ha Hc Hclk. pose proof (sees_decode _ _ _ _ _ _ Hs Ha Hc) as Hd. simpl in Hd.
  eapply opens_step; [exact Hs|done|done|exact Hd|by destruct Hc as [-> | ->]|tauto|].
  intros nd' Hs'. simpl in Hs'. eapply opens_done; [exact Hs'|by rewrite lookup_insert_eq|done|done].
Qed.
Lemma opens_powered n nd addr bs rows c clk :
  sees nd addr PowerUp bs rows -> bs = Closed \/ bs = Opened -> bank_addr addr -> c = RD \/ c = WR -> (forall k, 0 <= clk k) ->
  opens (S (S n)) nd c addr clk [PRE; ACT].
Proof.
  intros Hs [-> | ->] Ha Hc Hclk; [by apply opens_weaken; eapply opens_closed|].
  destruct (rows !! addr (S B)) as [x|] eqn:Hr; [by eapply opens_done|].
  pose proof (sees_decode _ _ _ _ _ _ Hs Ha Hc) as Hd. simpl in Hd. rewrite Hr in Hd.
  eapply opens_step; [exact Hs|done|done|exact Hd|by destruct Hc as [-> | ->]|tauto|].
  intros nd' Hs'. simpl in Hs'. by eapply opens_closed.
Qed.
Lemma opens_any nd addr ws bs rows c clk :
  sees nd addr ws bs rows -> wake_state ws -> bs = Closed \/ bs = Opened -> bank_addr addr -> c = RD \/ c = WR ->
  (forall k, 0 <= clk k) ->
  exists wake, (wake = PDX \/ wake = SRX) /\ opens 3 nd c addr clk [wake; PRE; ACT].
Proof.
  intros Hs Hws Hbs Ha Hc Hclk. pose proof (sees_decode _ _ _ _ _ _ Hs Ha Hc) as Hd.
  destruct Hws as [-> | Hws].
  { exists PDX. split; [by left|]. by apply opens_weaken; eapply opens_powered. }
  exists (if decide (ws = SelfRefresh) then SRX else PDX).
  destruct Hws as [-> | [-> | ->]]; simpl in *; (split; [tauto|]);
    (eapply opens_step; [exact Hs|done|done|exact Hd|by destruct Hc as [-> | ->]|tauto|]);
    intros nd' Hs'; simpl in Hs'; by eapply opens_powered.
Qed.

(** Any run keeps the states of ranks and banks well formed. *)
Lemma update_states P nd c addr clk nd' id L :
  (forall x, P (close_bank x)) -> (forall x y, nd_state y = nd_state x -> nd_rows y = nd_rows x -> P x -> P y) ->
  (c = ACT -> forall bk, node_at B nd addr = Some bk -> P (open_row bk (addr (S B)))) ->
  tree_inv spec 0 id L nd -> states_ok W B P 0 nd -> update spec nd c addr clk = Ok nd' -> states_ok W B P 0 nd'.
Proof.
  intros HP HPs Hact Ht H Hu. destruct bk_levels as [HWB _]. apply update_split in Hu as (nd1 & Hs & Htim).
  eapply update_timing_states; [exact HPs| |exact Htim].
  eapply (update_state_states P (sp_row spec) 0 id L (set_cur clk nd) c addr nd1); [exact HP|lia| | | |exact Hs].
  - intros Hc bk. rewrite Nat.sub_0_r, node_at_set_cur by lia. by apply Hact.
  - by apply set_cur_inv.
  - apply states_ok_inv in H as (Hl & Hw & Hb & Hch). constructor; [exact Hl|exact Hw|lia|exact Hch].
Qed.

Lemma run_states l nd id L :
  tree_inv spec 0 id L nd -> log_pos L -> states_ok W B bank_ok 0 nd -> Forall (valid_issue spec) l ->
  exists nd' L', DRAM_run spec nd l = Ok nd' /\ tree_inv spec 0 id L' nd' /\ log_pos L' /\ states_ok W B bank_ok 0 nd'.
Proof.
  revert nd L. induction l as [|[c addr clk] l IH]; intros nd L Ht Hpos H Hl; [by exists nd, L|].
  apply Forall_cons in Hl as [Hi Hl]. destruct (update_inv spec id L nd c addr clk Ht Hpos Hi) as (nd1 & Hu & Ht1).
  destruct (IH nd1 _ Ht1) as (nd' & L' & Hrun & Hrest); [constructor; [apply Hi|done]| |done|].
  - eapply (update_states bank_ok); [apply bank_ok_close| | |exact Ht|exact H|exact Hu].
    + intros x y Hs Hr. unfold bank_ok. by rewrite Hs, Hr.
    + intros _ bk _. apply bank_ok_open.
  - exists nd', L'. split; [|exact Hrest]. unfold DRAM_run in *. cbn [fold_res is_cmd is_addr is_clk]. by rewrite Hu.
Qed.

Lemma sees_exists P nd addr id L :
  tree_inv spec 0 id L nd -> log_pos L -> states_ok W B P 0 nd -> bank_addr addr ->
  exists ws b, sees nd addr ws (nd_state b) (nd_rows b) /\ wake_state ws /\ P b /\ node_at B nd addr = Some b.
Proof.
  intros Ht Hpos H Ha. destruct bk_levels as [HWB _].
  destruct (path_exists W 0 _ _ _ addr Ht) as (w & ? & ? & Hw & _); [lia|done|].
  destruct (path_exists B 0 _ _ _ addr Ht) as (b & ? & ? & Hb & _); [lia|done|].
  pose proof (path_states P _ _ _ _ _ H Hw) as (_ & Hws & _ & _)%states_ok_inv.
  pose proof (path_states P _ _ _ _ _ H Hb) as (_ & _ & Hbs & _)%states_ok_inv.
  exists (nd_state w), b. split; [|split; [apply Hws; lia|split; [apply Hbs; lia|exact Hb]]].
  split; [by exists id, L|]. unfold wake_of, bank_of. by rewrite Hw, Hb.
Qed.

(** Activations only of closed banks: those that [decode] asks for. *)
Fixpoint decoded nd (l : list (Issue Command)) : Prop :=
  match l with
  | [] => True
  | i :: l =>
      (is_cmd i = ACT -> bank_addr (is_addr i) /\ decode spec nd RD (is_addr i) = Ok ACT) /\
      forall nd', update spec nd (is_cmd i) (is_addr i) (is_clk i) = Ok nd' -> decoded nd' l
  end.

Lemma bank_one_open nd addr id L bk :
  tree_inv spec 0 id L nd -> log_pos L -> states_ok W B bank_one 0 nd -> bank_addr addr ->
  decode spec nd RD addr = Ok ACT -> node_at B nd addr = Some bk -> bank_one (open_row bk (addr (S B))).
Proof.
  intros Ht Hpos H Ha Hd Hb. destruct (sees_exists _ _ addr _ _ Ht Hpos H Ha) as (ws & b & Hs & Hw & Hone & Hb').
  rewrite Hb in Hb'. injection Hb' as <-. rewrite (sees_decode _ _ _ _ _ RD Hs Ha) in Hd by tauto.
  destruct Hw as [-> | [-> | [-> | ->]]]; simpl in Hd; try discriminate.
  right. split; [done|]. simpl. destruct Hone as [[Hc ->]|[Ho (row & s & Hr)]].
  - by eexists _, _.
  - rewrite Ho, Hr in Hd. by destruct (_ !! _).
Qed.

Lemma run_one l nd id L :
  tree_inv spec 0 id L nd -> log_pos L -> states_ok W B bank_one 0 nd -> Forall (valid_issue spec) l -> decoded nd l ->
  exists nd' L', DRAM_run spec nd l = Ok nd' /\ tree_inv spec 0 id L' nd' /\ log_pos L' /\ states_ok W B bank_one 0 nd'.
Proof.
  revert nd L. induction l as [|[c addr clk] l IH]; intros nd L Ht Hpos H Hl Hdec; [by exists nd, L|].
  apply Forall_cons in Hl as [Hi Hl]. destruct Hdec as [Hact Hdec]. simpl in Hact, Hdec.
  destruct (update_inv spec id L nd c addr clk Ht Hpos Hi) as (nd1 & Hu & Ht1).
  destruct (IH nd1 _ Ht1) as (nd' & L' & Hrun & Hrest); [constructor; [apply Hi|done]| |done|by apply Hdec|].
  - eapply (update_states bank_one); [apply bank_one_close| | |exact Ht|exact H|exact Hu].
    + intros x y Hs Hr. unfold bank_one. by rewrite Hs, Hr.
    + intros Hc bk Hbk. destruct (Hact Hc) as [Ha Hd].
      eapply bank_one_open; [exact Ht|exact Hpos|exact H|exact Ha|exact Hd|exact Hbk].
  - exists nd', L'. split; [|exact Hrest]. unfold DRAM_run in *. cbn [fold_res is_cmd is_addr is_clk]. by rewrite Hu.
Qed.
End Banked.

(** ** Properties of every such standard *)

(** C27: whatever commands a channel has seen, a read or a write of any row
    needs at most three other commands - a wake-up, a precharge, an activation,
    in this order - and then it decodes to itself and hits its row; on the way
    no assertion of the tables fails. *)
Theorem row_access_protocol (spec : Spec) (W B channel : nat) (l : list (Issue Command)) (c : Command)
    (addr : nat -> Z) (clk : nat -> Z) :
  SpecOk spec -> Banked spec W B -> Forall (valid_issue spec) l -> bank_addr spec B addr -> c = RD \/ c = WR ->
  (forall k, 0 <= clk k) ->
  exists nd ds nd' wake, DRAM_run spec (DRAM_init spec channel) l = Ok nd /\
    open_for spec 3 nd c addr clk = Ok (ds, nd') /\ (wake = PDX \/ wake = SRX) /\ ds `sublist_of` [wake; PRE; ACT] /\
    decode spec nd' c addr = Ok c /\ check_row_hit spec nd' c addr = Ok true.
Proof.
  intros Hok Hbk Hl Ha Hc Hclk.
  destruct (run_states spec W B l (DRAM_init spec channel) channel []) as (nd & L & Hrun & Ht & Hpos & Hst); [..|exact Hl|].
  { apply build_inv. lia. }
  { constructor. }
  { apply build_states; [exact Hbk|]. intros x Hx1 Hx2. by left. }
  destruct (sees_exists spec W B bank_ok nd addr channel L Ht Hpos Hst Ha) as (ws & b & Hs & Hw & Hb & _).
  destruct (opens_any spec W B nd addr ws _ _ c clk Hs Hw) as (wake & Hwk & ds & nd' & Ho & Hrest); [|done..|].
  { destruct Hb as [[-> _]|[-> _]]; tauto. }
  exists nd, ds, nd', wake. by split.
Qed.

(** As long as banks are activated only when [decode] asks for it, no bank
    ever has more than one open row, and a closed bank has none. *)
Theorem one_open_row (spec : Spec) (W B channel : nat) (l : list (Issue Command)) (addr : nat -> Z) :
  SpecOk spec -> Banked spec W B -> Forall (valid_issue spec) l -> decoded spec B (DRAM_init spec channel) l ->
  bank_addr spec B addr ->
  exists nd b, DRAM_run spec (DRAM_init spec channel) l = Ok nd /\ node_at B nd addr = Some b /\
    ((nd_state b = Closed /\ nd_rows b = ∅) \/ (nd_state b = Opened /\ exists row s, nd_rows b = {[row := s]})).
Proof.
  intros Hok Hbk Hl Hdec Ha.
  destruct (run_one spec W B l (DRAM_init spec channel) channel []) as (nd & L & Hrun & Ht & Hpos & Hst); [..|exact Hl|exact Hdec|].
  { apply build_inv. lia. }
  { constructor. }
  { apply build_states; [exact Hbk|]. intros x Hx1 Hx2. by left. }
  destruct (sees_exists spec W B bank_one nd addr channel L Ht Hpos Hst Ha) as (ws & b & _ & _ & Hb & Hat).
  by exists nd, b.
Qed.

(** ** Automation for the instances of the standards *)
Ltac split_level lev := do 6 (try destruct lev as [|lev]).
Ltac timing_laws :=
  intros lev c t Ht; split_level lev; simpl in Ht; try (by apply not_elem_of_nil in Ht);
  (eapply (select_ok is_refreshing is_opening) in Ht; [|reflexivity]); destruct Ht as (? & ? & ?); auto.
Ltac lambda_cases Hf lev c :=
  split_level lev; destruct c; simpl in Hf; try discriminate Hf; injection Hf as <-.
