(* ===== verification/DramFrame.v ===== *)
(** * What a command leaves alone

    The memory controller relies on more than the protocol of one bank: a
    command changes the banks in its scope and no others, the tables never
    touch the serving counters, and the serving counter of every node is the
    number of the requests in service below it. *)

From stdpp Require Import base tactics numbers list gmap.
From Stdlib Require Import ZArith Lia.
From S2P Require Import Prelude Dram DramTiming DramStd DramBanks.

Open Scope Z_scope.

(** ** Trees of the same shape *)
Section Shape.
Context {C St : Type}.
Abbreviation Node := (Node C St).
Context (R : Node -> Node -> Prop).

Inductive tree_rel : Node -> Node -> Prop :=
  | tree_rel_intro nd nd' :
      R nd nd' -> nd_level nd' = nd_level nd -> nd_id nd' = nd_id nd -> length (nd_children nd') = length (nd_children nd) ->
      (forall k ch ch', nd_children nd !! k = Some ch -> nd_children nd' !! k = Some ch' -> tree_rel ch ch') ->
      tree_rel nd nd'.

Lemma tree_rel_inv nd nd' : tree_rel nd nd' ->
  R nd nd' /\ nd_level nd' = nd_level nd /\ nd_id nd' = nd_id nd /\ length (nd_children nd') = length (nd_children nd) /\
  forall k ch ch', nd_children nd !! k = Some ch -> nd_children nd' !! k = Some ch' -> tree_rel ch ch'.
Proof. intros []; auto. Qed.

Lemma tree_rel_refl : (forall nd, R nd nd) -> forall nd, tree_rel nd nd.
Proof.
  intros HR nd. induction nd as [nd IH] using Node_tree_ind. constructor; [apply HR|done..|]. intros k ch ch' H1 H2.
  rewrite H1 in H2. injection H2 as <-. rewrite Forall_forall in IH. apply IH. by eapply list_elem_of_lookup_2.
Qed.
Lemma tree_rel_trans nd1 nd2 nd3 :
  (forall x y z, R x y -> R y z -> R x z) -> tree_rel nd1 nd2 -> tree_rel nd2 nd3 -> tree_rel nd1 nd3.
Proof.
  intros HR H. revert nd3. induction H as [nd1 nd2 H1 Hl Hi Hn _ IH]. intros nd3 (H2 & Hl' & Hi' & Hn' & Hch)%tree_rel_inv.
  constructor; [by eapply HR|congruence..|]. intros k ch1 ch3 Hk1 Hk3.
  destruct (lookup_lt_is_Some_2 (nd_children nd2) k) as [ch2 Hk2]; [rewrite Hn; by eapply lookup_lt_Some|].
  exact (IH k ch1 ch2 Hk1 Hk2 _ (Hch k ch2 ch3 Hk2 Hk3)).
Qed.
Lemma tree_rel_sym nd nd' : (forall x y, R x y -> R y x) -> tree_rel nd nd' -> tree_rel nd' nd.
Proof.
  intros HR. induction 1 as [nd nd' H Hl Hi Hn _ IH]. constructor; [by apply HR|done..|].
  intros k ch' ch Hk' Hk. exact (IH k ch ch' Hk Hk').
Qed.
(** A node with one child replaced. *)
Lemma tree_rel_child nd nd' i ch ch' :
  (forall x, R x x) -> R nd nd' -> nd_level nd' = nd_level nd -> nd_id nd' = nd_id nd ->
  nd_children nd !! i = Some ch -> nd_children nd' = <[i := ch']> (nd_children nd) -> tree_rel ch ch' -> tree_rel nd nd'.
Proof.
  intros HR Hn Hl Hi Hk Hc H. constructor; [done..|rewrite Hc; by rewrite length_insert|]. intros k x x' H1 H2. rewrite Hc in H2.
  apply list_lookup_insert_Some in H2 as [(<- & <- & _)|[_ H2]].
  - rewrite Hk in H1. injection H1 as <-. exact H.
  - rewrite H1 in H2. injection H2 as <-. by apply tree_rel_refl.
Qed.
Lemma tree_rel_leaf nd nd' :
  (forall x, R x x) -> R nd nd' -> nd_level nd' = nd_level nd -> nd_id nd' = nd_id nd -> nd_children nd' = nd_children nd ->
  tree_rel nd nd'.
Proof.
  intros HR Hn Hl Hi Hc. constructor; [done..|by rewrite Hc|]. intros k x x' H1 H2. rewrite Hc, H1 in H2.
  injection H2 as <-. by apply tree_rel_refl.
Qed.
End Shape.

(** ** The serving counters *)
Section Serving.
Context {C St : Type} `{!EqDecision C}.
Abbreviation Node := (Node C St).
Implicit Types nd : Node.

(** The counters of a node that the assertions of [update_serving_requests] depend on. *)
Definition same_count nd nd' : Prop :=
  cur_serving_requests (nd_serv nd') = cur_serving_requests (nd_serv nd) /\
  begin_of_serving (nd_serv nd') = begin_of_serving (nd_serv nd).
Lemma same_count_refl nd : same_count nd nd.
Proof. done. Qed.
Lemma same_count_trans nd1 nd2 nd3 : same_count nd1 nd2 -> same_count nd2 nd3 -> same_count nd1 nd3.
Proof. intros [] []. split; congruence. Qed.
Definition same_counts := tree_rel same_count.

(** The addresses of [L] that pass the node. *)
Definition through nd (L : list (nat -> Z)) : list (nat -> Z) := filter (fun a => a (nd_level nd) = Z.of_nat (nd_id nd)) L.
Inductive serv_inv : list (nat -> Z) -> Node -> Prop :=
  | serv_inv_intro L nd :
      cur_serving_requests (nd_serv nd) = Z.of_nat (length (through nd L)) ->
      (through nd L <> [] -> begin_of_serving (nd_serv nd) <> -1) ->
      (forall k ch, nd_children nd !! k = Some ch -> serv_inv (through nd L) ch) ->
      serv_inv L nd.

Lemma serv_inv_inv L nd : serv_inv L nd ->
  cur_serving_requests (nd_serv nd) = Z.of_nat (length (through nd L)) /\
  (through nd L <> [] -> begin_of_serving (nd_serv nd) <> -1) /\
  forall k ch, nd_children nd !! k = Some ch -> serv_inv (through nd L) ch.
Proof. intros []; auto. Qed.

Lemma serv_inv_same L nd nd' : same_counts nd nd' -> serv_inv L nd -> serv_inv L nd'.
Proof.
  intros Hs. revert L. induction Hs as [nd nd' [Hc Hb] Hl Hi Hn _ IH]. intros L (H1 & H2 & H3)%serv_inv_inv.
  assert (through nd' L = through nd L) as Ht by (unfold through; by rewrite Hl, Hi).
  constructor; rewrite Ht; [congruence|by rewrite Hb|]. intros k ch' Hk'.
  destruct (lookup_lt_is_Some_2 (nd_children nd) k) as [ch Hk]; [rewrite <- Hn; by eapply lookup_lt_Some|].
  exact (IH k ch ch' Hk Hk' _ (H3 k ch Hk)).
Qed.
Lemma serv_inv_perm L L' nd : L ≡ₚ L' -> serv_inv L nd -> serv_inv L' nd.
Proof.
  intros HL H. revert L' HL. induction H as [L nd H1 H2 _ IH]. intros L' HL.
  assert (through nd L ≡ₚ through nd L') as Ht by (unfold through; by rewrite HL).
  constructor.
  - by rewrite H1, Ht.
  - intros Hn. apply H2. intros He. apply Hn. rewrite He in Ht. by apply Permutation_nil_l in Ht.
  - intros k ch Hk. by apply (IH k ch Hk).
Qed.
Lemma serv_inv_skip a L nd : a (nd_level nd) <> Z.of_nat (nd_id nd) -> serv_inv L nd <-> serv_inv (a :: L) nd.
Proof.
  intros Ha. assert (through nd (a :: L) = through nd L) as Ht by (unfold through; by rewrite filter_cons_False).
  split; intros (H1 & H2 & H3)%serv_inv_inv.
  - constructor; rewrite Ht; assumption.
  - rewrite Ht in H1, H2, H3. constructor; assumption.
Qed.

Lemma build_serv spec n lev id : serv_inv [] (build (C:=C) (St:=St) spec n lev id).
Proof.
  revert lev id. induction n as [|n IH]; intros lev id; (constructor; [reflexivity|intros Hn; by destruct Hn|]).
  { intros k ch. discriminate. }
  intros k ch. cbn [build nd_children]. case_decide; [discriminate|]. intros (j & -> & _)%list_lookup_fmap_Some. apply IH.
Qed.

(** One step of the counters. *)
Lemma serve_total delta clk v n :
  cur_serving_requests v = Z.of_nat n -> (n <> 0%nat -> begin_of_serving v <> -1) -> 0 <= clk ->
  delta = 1 \/ (delta = -1 /\ n <> 0%nat) ->
  exists v', serve delta clk v = Ok v' /\ cur_serving_requests v' = Z.of_nat n + delta /\
    (Z.of_nat n + delta <> 0 -> begin_of_serving v' <> -1).
Proof.
  intros Hc Hb Hclk Hd. unfold serve. rewrite Hc.
  assert (negb (bool_decide (delta = 1) || bool_decide (delta = -1)) = false) as ->.
  { destruct Hd as [-> | [-> _]]; done. }
  rewrite decide_False by lia. destruct Hd as [-> | [-> Hn]].
  - destruct (decide (n = 0%nat)) as [->|Hn].
    + simpl. eexists; split; [done|]. split; [done|]. intros _. simpl. lia.
    + rewrite (bool_decide_false (Z.of_nat n + 1 = 1)) by lia. rewrite andb_false_r, decide_False by lia.
      eexists; split; [done|]. split; [done|]. intros _. simpl. auto.
  - rewrite (bool_decide_false (-1 = 1)) by lia. cbn [andb].
    destruct (decide (Z.of_nat n + -1 = 0)) as [H0|H0].
    + rewrite (bool_decide_true (begin_of_serving v <> -1)) by auto. eexists; split; [done|]. split; [done|done].
    + eexists; split; [done|]. split; [done|]. intros _. simpl. auto.
Qed.
End Serving.

(** The same node but for the serving statistics. *)
Definition same_dram {C St : Type} (x y : Node C St) : Prop :=
  nd_state y = nd_state x /\ nd_rows y = nd_rows x /\ nd_cur y = nd_cur x /\ nd_next y = nd_next x /\ nd_prev y = nd_prev x.

Section ServingSteps.
Context {C St : Type} `{!EqDecision C}.
Abbreviation Node := (Node C St).
Context (spec : Spec C St) `{!SpecOk spec}.
Implicit Types nd : Node.

Lemma update_serving_eq nd addr delta clk :
  update_serving_requests spec nd addr delta clk =
  if negb (bool_decide (Z.of_nat (nd_id nd) = addr (nd_level nd))) then Err AssertFail
  else bind_res (serve delta clk (nd_serv nd)) (fun v =>
    if leaf_here nd addr || bool_decide (sp_bank spec < nd_level nd)%nat then Ok (set_serv v nd)
    else bind_res (child_at nd addr) (fun ch => bind_res (update_serving_requests spec ch addr delta clk) (fun ch' =>
         Ok (set_children (<[Z.to_nat (addr (S (nd_level nd))) := ch']> (nd_children nd)) (set_serv v nd))))).
Proof.
  destruct nd as [lev id s rows cur nxt prv sv ch]. unfold child_at, leaf_here.
  cbn [update_serving_requests nd_id nd_level nd_serv nd_children].
  destruct (negb _); [done|]. destruct (serve _ _ _) as [v|e]; [|done]. cbn [bind_res]. destruct (_ || _); [done|].
  set (new l := set_children l (set_serv v (mkNode lev id s rows cur nxt prv sv ch))).
  generalize (Z.to_nat (addr (S lev))). intros k.
  enough (forall f, bind_res ((fix pick (l : list Node) (i : nat) : result (list Node) :=
              match l with
              | [] => Err Panicked
              | c :: l => match i with
                          | O => bind_res (update_serving_requests spec c addr delta clk) (fun c' => Ok (c' :: l))
                          | S i => bind_res (pick l i) (fun l' => Ok (c :: l'))
                          end
              end) ch k) f =
    bind_res (match ch !! k with Some c => Ok c | None => Err Panicked end) (fun x =>
      bind_res (update_serving_requests spec x addr delta clk) (fun x' => f (<[k := x']> ch))) :> result Node) as He by apply (He (fun l => Ok (new l))).
  clear new. revert k. induction ch as [|x ch IH]; intros [|k] f; simpl; [done..| |].
  - by destruct (update_serving_requests spec x addr delta clk).
  - specialize (IH k (fun l' => f (x :: l'))). revert IH.
    destruct ((fix pick (l : list Node) (i : nat) : result (list Node) := _) ch k); simpl; intros IH; exact IH.
Qed.

(** The request [addr] enters service, or leaves it. *)
Definition moves (addr : nat -> Z) (delta : Z) (L L' : list (nat -> Z)) : Prop :=
  (delta = 1 /\ L' = addr :: L) \/ (delta = -1 /\ L ≡ₚ addr :: L').
Lemma moves_through nd addr delta L L' :
  moves addr delta L L' -> addr (nd_level nd) = Z.of_nat (nd_id nd) -> moves addr delta (through nd L) (through nd L').
Proof.
  intros [[-> ->]|[-> HL]] Ha; [left|right]; (split; [done|]); unfold through.
  - by rewrite filter_cons_True.
  - rewrite HL. by rewrite filter_cons_True.
Qed.
Lemma moves_skip nd addr delta L L' :
  moves addr delta L L' -> addr (nd_level nd) <> Z.of_nat (nd_id nd) -> serv_inv L nd -> serv_inv L' nd.
Proof.
  intros [[-> ->]|[-> HL]] Ha H; [by apply serv_inv_skip|]. apply (serv_inv_skip addr); [done|]. by eapply serv_inv_perm.
Qed.

Lemma update_serving_total L0 L L' nd lev id addr delta clk :
  tree_inv spec lev id L0 nd -> sp_row spec = S (sp_bank spec) -> addr lev = Z.of_nat id ->
  (forall l, child_count spec l <> 0%nat -> 0 <= addr (S l) < Z.of_nat (child_count spec l)) -> 0 <= clk ->
  serv_inv L nd -> moves addr delta L L' ->
  exists nd', update_serving_requests spec nd addr delta clk = Ok nd' /\ tree_rel same_dram nd nd' /\ serv_inv L' nd'.
Proof.
  intros Htree Hbank. revert lev id L0 L L' Htree.
  induction nd as [nd IH] using Node_tree_ind. intros lev id L0 L L' Htree Hid Ha Hclk Hserv Hmv.
  pose proof (tree_inv_node _ _ _ _ _ Htree) as [Hlev Hnid _ _ Hcc].
  apply serv_inv_inv in Hserv as (Hcur & Hbeg & Hch).
  assert (addr (nd_level nd) = Z.of_nat (nd_id nd)) as Hhere by (rewrite Hlev, Hnid; exact Hid).
  pose proof (moves_through nd addr delta L L' Hmv Hhere) as Hmv'.
  destruct (serve_total delta clk (nd_serv nd) (length (through nd L))) as (v & Hv & Hvc & Hvb).
  { exact Hcur. }
  { intros Hn. apply Hbeg. intros He. by rewrite He in Hn. }
  { exact Hclk. }
  { destruct Hmv' as [[-> _]|[-> HL]]; [by left|]. right. split; [done|]. by rewrite HL. }
  assert (Z.of_nat (length (through nd L)) + delta = Z.of_nat (length (through nd L'))) as Hlen.
  { destruct Hmv' as [[-> ->]|[-> HL]]; [simpl; lia|]. rewrite HL. simpl. lia. }
  rewrite Hlen in Hvc, Hvb.
  assert (through nd L' <> [] -> begin_of_serving v <> -1) as Hvb'.
  { intros Hn. apply Hvb. destruct (through nd L'); [done|]. simpl. lia. }
  rewrite update_serving_eq, Hhere, bool_decide_true by done. cbn [negb]. rewrite Hv. cbn [bind_res].
  unfold leaf_here. rewrite (children_nil _ _ _ _ _ Htree), Hlev.
  destruct (bool_decide (child_count spec lev = 0%nat)) eqn:Hcz.
  - rewrite orb_true_r. cbn [orb]. eexists; split; [done|]. split; [by apply tree_rel_leaf|].
    constructor; [exact Hvc|exact Hvb'|]. intros k ch Hk. exfalso. simpl in Hk. apply bool_decide_eq_true in Hcz.
    apply lookup_lt_Some in Hk. lia.
  - apply bool_decide_eq_false in Hcz. pose proof (Ha lev Hcz) as Hb.
    assert ((addr (S lev) <? 0) = false) as -> by (apply Z.ltb_ge; lia).
    rewrite bool_decide_false by (unfold child_count in Hcz; case_decide; lia). cbn [orb].
    destruct (child_at_ok _ _ _ _ _ addr Htree Hb) as (ch & Hca & Hk & Hinv). rewrite Hca. cbn [bind_res].
    rewrite Forall_forall in IH. assert (ch ∈ nd_children nd) as Hin by (by eapply list_elem_of_lookup_2).
    destruct (IH ch Hin _ _ _ (through nd L) (through nd L') Hinv) as (ch' & Hu & Hrel & Hserv'); [lia|exact Ha|exact Hclk|exact (Hch _ _ Hk)|exact Hmv'|].
    rewrite Hu. cbn [bind_res]. eexists; split; [done|]. split; [by eapply tree_rel_child|].
    constructor; [exact Hvc|exact Hvb'|]. intros k x. simpl.
    intros [(<- & <- & _)|[Hne Hx]]%list_lookup_insert_Some; [exact Hserv'|].
    apply (moves_skip x addr delta (through nd L) (through nd L')); [exact Hmv'| |exact (Hch _ _ Hx)].
    pose proof (tree_inv_node _ _ _ _ _ (tree_inv_child _ _ _ _ _ _ _ Htree Hx)) as [Hxl Hxi _ _ _]. rewrite Hxl, Hxi.
    intros He. apply Hne. rewrite He. lia.
Qed.
End ServingSteps.

(** ** Commands and serving counters *)
Section Counts.
Context {C St : Type} `{!EqDecision C}.
Abbreviation Node := (Node C St).
Context (spec : Spec C St).
Implicit Types nd : Node.

Lemma same_counts_refl nd : same_counts nd nd.
Proof. by apply tree_rel_refl. Qed.
Lemma same_counts_trans nd1 nd2 nd3 : same_counts nd1 nd2 -> same_counts nd2 nd3 -> same_counts nd1 nd3.
Proof. apply tree_rel_trans. intros x y z. apply same_count_trans. Qed.

Lemma fold_sibling_counts clk l nd nd' :
  fold_res (timing_sibling clk) l nd = Ok nd' -> same_counts nd nd'.
Proof.
  revert nd. induction l as [|t l IH]; intros nd; cbn [fold_res]; [intros [= <-]; apply same_counts_refl|].
  unfold timing_sibling at 1. destruct (negb _); [apply IH|]. case_decide; [|discriminate]. cbn [bind_res].
  intros Hr%IH. eapply same_counts_trans; [|exact Hr]. by apply tree_rel_leaf.
Qed.
Lemma target_counts cmd clk nd t nd' : timing_target spec cmd clk nd t = Ok nd' -> same_counts nd nd'.
Proof.
  unfold timing_target. destruct (te_sibling t); [intros [= <-]; apply same_counts_refl|]. destruct (te_dist t); [discriminate|].
  destruct (nd_prev nd cmd !! _); [|discriminate]. case_decide; [intros [= <-]; apply same_counts_refl|].
  destruct (_ && _); [case_decide; [|discriminate]|]; intros [= <-]; by apply tree_rel_leaf.
Qed.
Lemma fold_target_counts cmd clk l nd nd' :
  fold_res (timing_target spec cmd clk) l nd = Ok nd' -> same_counts nd nd'.
Proof.
  revert nd. induction l as [|t l IH]; intros nd; cbn [fold_res]; [intros [= <-]; apply same_counts_refl|].
  destruct (timing_target spec cmd clk nd t) as [nd1|] eqn:Ht; [|discriminate]. cbn [bind_res]. intros H%IH.
  eapply same_counts_trans; [by eapply target_counts|exact H].
Qed.
Lemma same_counts_children nd l :
  length l = length (nd_children nd) ->
  (forall k ch ch', nd_children nd !! k = Some ch -> l !! k = Some ch' -> same_counts ch ch') ->
  same_counts nd (set_children l nd).
Proof. intros Hl H. by constructor. Qed.

Lemma update_timing_counts nd c addr clk nd' : update_timing spec nd c addr clk = Ok nd' -> same_counts nd nd'.
Proof.
  revert nd'. induction nd as [nd IH] using Node_tree_ind. intros nd'. rewrite update_timing_eq.
  destruct (bool_decide _); [apply fold_sibling_counts|].
  destruct (fold_res _ _ _) as [nd1|] eqn:Hf; [|discriminate]. cbn [bind_res]. apply fold_target_counts in Hf.
  apply tree_rel_inv in Hf as (Hn & Hl & Hi & Hlen & _).
  destruct (map_res _ _) as [l|] eqn:Hm; [|discriminate]. cbn [bind_res]. intros [= <-].
  apply map_res_ok in Hm as [Hlm Hm]. constructor; [exact Hn|exact Hl|exact Hi|exact Hlm|].
  intros k ch ch' Hk Hk'. destruct (Hm k ch Hk) as (x & Hx & Hlk). simpl in Hk'. rewrite Hlk in Hk'. injection Hk' as ->.
  rewrite Forall_forall in IH. apply (IH ch); [by eapply list_elem_of_lookup_2|exact Hx].
Qed.

Hypothesis lambda_counts : forall lev c f nd id, sp_lambda spec lev c = Some f -> same_counts nd (f nd id).

Lemma update_state_counts n nd c addr nd' : update_state spec n nd c addr = Ok nd' -> same_counts nd nd'.
Proof.
  revert nd nd'. induction n as [|n IH]; intros nd nd'; cbn [update_state];
    set (nd1 := match sp_lambda spec (nd_level nd) c with Some f => f nd (addr (S (nd_level nd))) | None => nd end);
    (assert (same_counts nd nd1) as H1 by
      (unfold nd1; destruct (sp_lambda spec (nd_level nd) c) eqn:Hf; [by eapply lambda_counts|apply same_counts_refl]));
    clearbody nd1; (destruct (_ || _); [intros [= <-]; exact H1|]); [discriminate|].
  case_decide; [discriminate|]. destruct (nd_children nd1 !! _) as [ch|] eqn:Hk; [|discriminate].
  destruct (update_state spec n ch c addr) as [ch'|] eqn:Hu; [|discriminate]. cbn [bind_res]. intros [= <-].
  eapply same_counts_trans; [exact H1|]. by eapply tree_rel_child; [..|apply (IH ch)].
Qed.
Lemma update_counts nd c addr clk nd' : update spec nd c addr clk = Ok nd' -> same_counts nd nd'.
Proof.
  unfold update. destruct (update_state _ _ _ _ _) as [nd1|] eqn:Hs; [|discriminate]. cbn [bind_res]. intros Ht.
  eapply same_counts_trans; [|by eapply update_timing_counts]. eapply same_counts_trans; [|by eapply update_state_counts].
  by apply tree_rel_leaf.
Qed.
End Counts.

(** ** The banks that a command changes *)
#[local] Abbreviation Node := (Dram.Node Command State).
#[local] Abbreviation Spec := (Dram.Spec Command State).

(** What a path shows of the bank at its end. *)
Definition bank_view (k : nat) (nd : Node) (a : nat -> Z) : option (State * gmap Z State) :=
  (fun b => (nd_state b, nd_rows b)) <$> node_at k nd a.
(** Two addresses that share the path from level [lev] to level [el]. *)
Definition agree (lev el : nat) (addr a : nat -> Z) : bool :=
  bool_decide (lev <= el)%nat && forallb (fun l => addr l =? a l) (seq (S lev) (el - lev)).

Lemma agree_at lev addr a : agree lev lev addr a = true.
Proof. unfold agree. by rewrite bool_decide_true, Nat.sub_diag by lia. Qed.
Lemma agree_below lev el addr a : (el < lev)%nat -> agree lev el addr a = false.
Proof. intros H. unfold agree. by rewrite bool_decide_false by lia. Qed.
Lemma agree_above lev el addr a :
  (lev < el)%nat -> agree lev el addr a = (addr (S lev) =? a (S lev)) && agree (S lev) el addr a.
Proof.
  intros H. unfold agree. rewrite !bool_decide_true by lia. replace (el - lev)%nat with (S (el - S lev)) by lia. done.
Qed.

(** The commands the controller issues, the level at which each acts, and what it does to a bank. *)
Definition issued (c : Command) : Prop := match c with RDA | WRA | PDE | SRE => False | _ => True end.
Section Effects.
Context (W B : nat).
Definition effect_level (c : Command) : nat := match c with PREA => W | _ => B end.
Definition effect (c : Command) (id : Z) (b : State * gmap Z State) : State * gmap Z State :=
  match c with
  | ACT => (Opened, <[id := Opened]> b.2)
  | PRE | PREA => (Closed, ∅)
  | _ => b
  end.
Definition acts (c : Command) : bool := match c with ACT | PRE | PREA => true | _ => false end.
Lemma effect_idle c id : acts c = false -> effect c id = (fun b => b).
Proof. by destruct c. Qed.
End Effects.

Lemma leveled_inv lev (nd : Node) : leveled lev nd ->
  nd_level nd = lev /\ forall k ch, nd_children nd !! k = Some ch -> leveled (S lev) ch.
Proof. intros []; auto. Qed.
Lemma same_tim_leveled lev (nd nd' : Node) : same_tim nd nd' -> leveled lev nd -> leveled lev nd'.
Proof.
  intros H. revert lev. induction H as [nd nd' Hl Hi _ _ Hn _ IH]. intros lev [Hlev Hch]%leveled_inv.
  constructor; [congruence|]. intros k ch' Hk'.
  destruct (lookup_lt_is_Some_2 (nd_children nd) k) as [ch Hk]; [rewrite <- Hn; by eapply lookup_lt_Some|].
  exact (IH k ch ch' Hk Hk' _ (Hch k ch Hk)).
Qed.

(** What the tables promise about the commands of the controller. *)
Class Effects (spec : Spec) (W B : nat) : Prop := {
  ef_lambda lev c f nd id a : issued c -> sp_lambda spec lev c = Some f -> (lev <= B)%nat -> leveled lev nd ->
    bank_view (B - lev) (f nd id) a = (if decide (lev = effect_level W B c) then effect c id else fun b => b) <$> bank_view (B - lev) nd a;
  ef_acts c : acts c = true -> sp_lambda spec (effect_level W B c) c <> None /\ (effect_level W B c <= sp_scope spec c)%nat;
  ef_counts lev c f nd id : sp_lambda spec lev c = Some f -> same_counts nd (f nd id);
}.

Section Frame.
Context (spec : Spec) (W B : nat) `{!SpecOk spec} `{!Banked spec W B} `{!Effects spec W B}.
Implicit Types nd : Node.

Lemma effect_level_le c : (effect_level W B c <= B)%nat.
Proof. destruct (bk_levels (spec:=spec) (W:=W) (B:=B)) as [HWB _]. destruct c; simpl; lia. Qed.

(** The effect of the table at one node. *)
Lemma lambda_view lev c nd id a :
  issued c -> (lev <= B)%nat -> leveled lev nd ->
  let nd1 := match sp_lambda spec lev c with Some f => f nd id | None => nd end in
  leveled lev nd1 /\
  bank_view (B - lev) nd1 a = (if decide (lev = effect_level W B c) then effect c id else fun b => b) <$> bank_view (B - lev) nd a.
Proof.
  intros Hc Hlev Hnd. cbv zeta. destruct (sp_lambda spec lev c) as [f|] eqn:Hf.
  - split; [|by apply ef_lambda]. eapply same_tim_leveled; [by eapply lambda_tim|exact Hnd].
  - split; [exact Hnd|]. destruct (decide (lev = effect_level W B c)) as [->|_]; [|by destruct (bank_view _ _ _)].
    rewrite effect_idle; [by destruct (bank_view _ _ _)|]. destruct (acts c) eqn:Ha; [|done].
    destruct (ef_acts c Ha) as [Hn _]. by destruct Hn.
Qed.

Lemma view_child k nd a : bank_view (S k) nd a = nd_children nd !! Z.to_nat (a (S (nd_level nd))) ≫= fun ch => bank_view k ch a.
Proof. unfold bank_view. simpl. by destruct (nd_children nd !! _). Qed.

(** The node where the effect happens, or a node below: the rest of the path decides. *)
Lemma effect_here lev c addr a :
  ((effect_level W B c <= lev)%nat \/ acts c = false) ->
  (if decide (lev = effect_level W B c) then effect c (addr (S lev)) else fun b => b) =
  (if agree lev (effect_level W B c) addr a then effect c (addr (S (effect_level W B c))) else fun b => b).
Proof.
  intros [Hle|Ha].
  - destruct (decide (lev = effect_level W B c)) as [->|Hne]; [by rewrite agree_at|]. rewrite agree_below by lia. done.
  - rewrite !effect_idle by done. by destruct (decide _), (agree _ _ _ _).
Qed.

(** The recursion stops at the node. *)
Lemma view_stop lev c addr a nd nd1 :
  leveled lev nd1 -> (lev <= B)%nat -> (lev <= sp_scope spec c)%nat ->
  bool_decide (lev = sp_scope spec c) || (match nd_children nd1 with [] => true | _ => false end) = true ->
  bank_view (B - lev) nd1 a = (if decide (lev = effect_level W B c) then effect c (addr (S lev)) else fun b => b) <$> bank_view (B - lev) nd a ->
  bank_view (B - lev) nd1 a =
    (if agree lev (effect_level W B c) addr a then effect c (addr (S (effect_level W B c))) else fun b => b) <$> bank_view (B - lev) nd a.
Proof.
  intros Hnd1 Hlev Hsc Hstop Hview. destruct (acts c) eqn:Hacts; [|by rewrite Hview, (effect_here lev c addr a) by auto].
  destruct (decide (effect_level W B c <= lev)%nat) as [Hle|Hgt]; [by rewrite Hview, (effect_here lev c addr a) by auto|].
  destruct (ef_acts c Hacts) as [_ Hes]. pose proof (effect_level_le c). rewrite bool_decide_false in Hstop by lia. simpl in Hstop.
  assert (bank_view (B - lev) nd1 a = None) as Hn.
  { replace (B - lev)%nat with (S (B - S lev)) by lia. rewrite view_child. by destruct (nd_children nd1). }
  rewrite Hn in Hview |- *. by destruct (bank_view (B - lev) nd a).
Qed.

(** The effect of a node and that of the node below, on the path and beside it. *)
Lemma effect_on_path lev c addr a (v : option (State * gmap Z State)) :
  a (S lev) = addr (S lev) ->
  (if agree (S lev) (effect_level W B c) addr a then effect c (addr (S (effect_level W B c))) else fun b => b) <$>
    ((if decide (lev = effect_level W B c) then effect c (addr (S lev)) else fun b => b) <$> v) =
  (if agree lev (effect_level W B c) addr a then effect c (addr (S (effect_level W B c))) else fun b => b) <$> v.
Proof.
  intros Heq. destruct (decide (lev = effect_level W B c)) as [Hl|Hl].
  - rewrite (agree_below (S lev)) by lia. rewrite <- Hl, agree_at. by destruct v.
  - destruct (decide (lev < effect_level W B c)%nat) as [Hlt|Hge].
    + rewrite (agree_above lev) by done. rewrite Heq, Z.eqb_refl. simpl. by destruct v.
    + rewrite !agree_below by lia. by destruct v.
Qed.
Lemma effect_off_path lev c addr a (v : option (State * gmap Z State)) :
  a (S lev) <> addr (S lev) ->
  (if decide (lev = effect_level W B c) then effect c (addr (S lev)) else fun b => b) <$> v =
  (if agree lev (effect_level W B c) addr a then effect c (addr (S (effect_level W B c))) else fun b => b) <$> v.
Proof.
  intros Hne. destruct (decide (lev = effect_level W B c)) as [Hl|Hl]; [by rewrite <- Hl, agree_at|].
  destruct (decide (lev < effect_level W B c)%nat) as [Hlt|Hge]; [|by rewrite agree_below by lia].
  rewrite (agree_above lev) by done. by rewrite (proj2 (Z.eqb_neq _ _)) by (by apply not_eq_sym).
Qed.

(** The recursion goes on with one child. *)
Lemma view_descend lev c addr a nd nd1 ch ch' :
  leveled lev nd1 -> (lev <= B)%nat -> 0 <= addr (S lev) -> (forall l, (l < B)%nat -> 0 <= a (S l)) ->
  nd_children nd1 !! Z.to_nat (addr (S lev)) = Some ch ->
  bank_view (B - lev) nd1 a = (if decide (lev = effect_level W B c) then effect c (addr (S lev)) else fun b => b) <$> bank_view (B - lev) nd a ->
  ((lev < B)%nat -> bank_view (B - S lev) ch' a =
    (if agree (S lev) (effect_level W B c) addr a then effect c (addr (S (effect_level W B c))) else fun b => b) <$> bank_view (B - S lev) ch a) ->
  bank_view (B - lev) (set_children (<[Z.to_nat (addr (S lev)) := ch']> (nd_children nd1)) nd1) a =
    (if agree lev (effect_level W B c) addr a then effect c (addr (S (effect_level W B c))) else fun b => b) <$> bank_view (B - lev) nd a.
Proof.
  intros Hnd1 Hlev Hpos Ha Hk Hview Hch. pose proof (leveled_level _ _ Hnd1) as Hl1. pose proof (effect_level_le c) as Hel.
  destruct (decide (lev = B)) as [->|HlB].
  { rewrite <- (effect_here B c addr a) by (left; lia). rewrite <- Hview. by rewrite Nat.sub_diag. }
  specialize (Hch ltac:(lia)). specialize (Ha lev ltac:(lia)).
  replace (B - lev)%nat with (S (B - S lev)) in Hview |- * by lia. rewrite !view_child in *. cbn [set_children nd_children nd_level].
  rewrite Hl1 in *. destruct (decide (a (S lev) = addr (S lev))) as [Heq|Hne].
  - rewrite Heq in *. rewrite list_lookup_insert_eq by (by eapply lookup_lt_Some). rewrite Hk in Hview. simpl in Hview |- *.
    rewrite Hch, Hview. by apply effect_on_path.
  - rewrite list_lookup_insert_ne by lia. rewrite Hview. by apply effect_off_path.
Qed.

Lemma update_state_view n lev nd c addr nd' a :
  leveled lev nd -> (lev <= B)%nat -> issued c -> (lev <= sp_scope spec c)%nat -> (forall l, (l < B)%nat -> 0 <= a (S l)) ->
  update_state spec n nd c addr = Ok nd' ->
  bank_view (B - lev) nd' a =
    (if agree lev (effect_level W B c) addr a then effect c (addr (S (effect_level W B c))) else fun b => b) <$> bank_view (B - lev) nd a.
Proof.
  revert lev nd nd'. induction n as [|n IH]; intros lev nd nd' Hnd Hlev Hc Hsc Ha; cbn [update_state];
    rewrite (leveled_level lev nd Hnd);
    destruct (lambda_view lev c nd (addr (S lev)) a Hc Hlev Hnd) as [Hnd1 Hview];
    set (nd1 := match sp_lambda spec lev c with Some f => f nd (addr (S lev)) | None => nd end) in *; clearbody nd1;
    rewrite (leveled_level lev nd1 Hnd1);
    destruct (bool_decide (lev = sp_scope spec c) || _) eqn:Hstop;
    try (intros [= <-]; by apply view_stop).
  destruct (decide (addr (S lev) < 0)) as [Hneg|Hneg]; [discriminate|]. destruct (nd_children nd1 !! _) as [ch|] eqn:Hk; [|discriminate].
  destruct (update_state spec n ch c addr) as [ch'|] eqn:Hu; [|discriminate]. cbn [bind_res]. intros [= <-].
  apply orb_false_iff in Hstop as [Hns%bool_decide_eq_false _].
  eapply view_descend; [exact Hnd1|exact Hlev|lia|exact Ha|exact Hk|exact Hview|].
  intros HlB. apply (IH (S lev) ch ch'); [exact (proj2 (leveled_inv _ _ Hnd1) _ _ Hk)|lia|exact Hc|lia|exact Ha|exact Hu].
Qed.

(** A command of the controller: the bank of any address afterwards. *)
Lemma update_view nd c addr clk nd' a b :
  leveled 0 nd -> issued c -> (forall l, (l < B)%nat -> 0 <= a (S l)) -> (0 < B)%nat ->
  update spec nd c addr clk = Ok nd' -> bank_of B nd a = Some b ->
  bank_of B nd' a =
    Some ((if agree 0 (effect_level W B c) addr a then effect c (addr (S (effect_level W B c))) else fun b => b) b).
Proof.
  intros Hnd Hc Ha HB Hu Hb. apply update_split in Hu as (nd1 & Hs & Ht).
  eapply bank_of_timing; [exact Ht|]. change (bank_of B) with (bank_view B) in *.
  pose proof (update_state_view (sp_row spec) 0 (set_cur clk nd) c addr nd1 a) as H. rewrite Nat.sub_0_r in H. rewrite H; [|..|exact Hs].
  - unfold bank_view in *. rewrite node_at_set_cur by done. rewrite Hb. done.
  - apply leveled_inv in Hnd as [Hl Hch]. by constructor.
  - lia.
  - exact Hc.
  - lia.
  - exact Ha.
Qed.
End Frame.
