(* ===== verification/DDR3.v ===== *)
(** * DDR3 (DDR3.h, DDR3.cc)

    The tables of the DDR3 standard: organisations, speeds, prerequisites, row
    hits, state changes and timing entries, and the [Spec] they make.  Levels:
    Channel 0, Rank 1, Bank 2, Row 3, Column 4. *)

From stdpp Require Import base tactics numbers list gmap strings.
From Stdlib Require Import ZArith QArith Lia.
From S2P Require Import Prelude Dram DramTiming DramStd DramBanks.

Open Scope Z_scope.

#[local] Abbreviation Node := (Dram.Node Command State).

(** ** Organisation and speed *)
Inductive Org : Type :=
  | DDR3_512Mb_x4 | DDR3_512Mb_x8 | DDR3_512Mb_x16 | DDR3_1Gb_x4 | DDR3_1Gb_x8 | DDR3_1Gb_x16 | DDR3_2Gb_x4
  | DDR3_2Gb_x8 | DDR3_2Gb_x16 | DDR3_4Gb_x4 | DDR3_4Gb_x8 | DDR3_4Gb_x16 | DDR3_8Gb_x4 | DDR3_8Gb_x8 | DDR3_8Gb_x16
  | DDR3_2Gb_x16_bank16 | DDR3_2Gb_x16_bank32 | DDR3_2Gb_x16_bank64 | DDR3_2Gb_x16_bank128 | DDR3_2Gb_x16_bank256.
Definition org_table (o : Org) : OrgEntry :=
  match o with
  | DDR3_512Mb_x4 => mkOrg 512 4 [0; 0; 8; 8192; 2048]
  | DDR3_512Mb_x8 => mkOrg 512 8 [0; 0; 8; 8192; 1024]
  | DDR3_512Mb_x16 => mkOrg 512 16 [0; 0; 8; 4096; 1024]
  | DDR3_1Gb_x4 => mkOrg 1024 4 [0; 0; 8; 16384; 2048]
  | DDR3_1Gb_x8 => mkOrg 1024 8 [0; 0; 8; 16384; 1024]
  | DDR3_1Gb_x16 => mkOrg 1024 16 [0; 0; 8; 8192; 1024]
  | DDR3_2Gb_x4 => mkOrg 2048 4 [0; 0; 8; 32768; 2048]
  | DDR3_2Gb_x8 => mkOrg 2048 8 [0; 0; 8; 32768; 1024]
  | DDR3_2Gb_x16 => mkOrg 2048 16 [0; 0; 8; 16384; 1024]
  | DDR3_4Gb_x4 => mkOrg 4096 4 [0; 0; 8; 65536; 2048]
  | DDR3_4Gb_x8 => mkOrg 4096 8 [0; 0; 8; 65536; 1024]
  | DDR3_4Gb_x16 => mkOrg 4096 16 [0; 0; 8; 32768; 1024]
  | DDR3_8Gb_x4 => mkOrg 8192 4 [0; 0; 8; 65536; 4096]
  | DDR3_8Gb_x8 => mkOrg 8192 8 [0; 0; 8; 65536; 2048]
  | DDR3_8Gb_x16 => mkOrg 8192 16 [0; 0; 8; 65536; 1024]
  | DDR3_2Gb_x16_bank16 => mkOrg 2048 16 [0; 0; 16; 8192; 1024]
  | DDR3_2Gb_x16_bank32 => mkOrg 2048 16 [0; 0; 32; 4096; 1024]
  | DDR3_2Gb_x16_bank64 => mkOrg 2048 16 [0; 0; 64; 2048; 1024]
  | DDR3_2Gb_x16_bank128 => mkOrg 2048 16 [0; 0; 128; 1024; 1024]
  | DDR3_2Gb_x16_bank256 => mkOrg 2048 16 [0; 0; 256; 512; 1024]
  end.

Inductive Speed : Type :=
  | DDR3_800D | DDR3_800E | DDR3_1066E | DDR3_1066F | DDR3_1066G | DDR3_1333G | DDR3_1333H | DDR3_1600H | DDR3_1600J
  | DDR3_1600K | DDR3_1866K | DDR3_1866L | DDR3_2133L | DDR3_2133M | DDR3_2133_14 | DDR3_2133L_unlimit_bandwidth
  | DDR3_2133_14_unlimit_bandwidth.
Record SpeedEntry : Type := mkSpeed {
  rate : Z;
  freq : Q;
  tCK : Q;
  nBL : Z;
  nCCD : Z;
  nRTRS : Z;
  nCL : Z;
  nRCD : Z;
  nRP : Z;
  nCWL : Z;
  nRAS : Z;
  nRC : Z;
  nRTP : Z;
  nWTR : Z;
  nWR : Z;
  nRRD : Z;
  nFAW : Z;
  nRFC : Z;
  nREFI : Z;
  nPD : Z;
  nXP : Z;
  nXPDLL : Z;
  nCKESR : Z;
  nXS : Z;
  nXSDLL : Z;
}.
Definition speed_table (x : Speed) : SpeedEntry :=
  match x with
  | DDR3_800D => mkSpeed 800 ((400.0/3)*3)%Q ((3/0.4)/3)%Q 4 4 2 5 5 5 5 15 20 4 4 6 0 0 0 3120 3 3 10 4 0 512
  | DDR3_800E => mkSpeed 800 ((400.0/3)*3)%Q ((3/0.4)/3)%Q 4 4 2 6 6 6 5 15 21 4 4 6 0 0 0 3120 3 3 10 4 0 512
  | DDR3_1066E => mkSpeed 1066 ((400.0/3)*4)%Q ((3/0.4)/4)%Q 4 4 2 6 6 6 6 20 26 4 4 8 0 0 0 4160 3 4 13 4 0 512
  | DDR3_1066F => mkSpeed 1066 ((400.0/3)*4)%Q ((3/0.4)/4)%Q 4 4 2 7 7 7 6 20 27 4 4 8 0 0 0 4160 3 4 13 4 0 512
  | DDR3_1066G => mkSpeed 1066 ((400.0/3)*4)%Q ((3/0.4)/4)%Q 4 4 2 8 8 8 6 20 28 4 4 8 0 0 0 4160 3 4 13 4 0 512
  | DDR3_1333G => mkSpeed 1333 ((400.0/3)*5)%Q ((3/0.4)/5)%Q 4 4 2 8 8 8 7 24 32 5 5 10 0 0 0 5200 4 4 16 5 0 512
  | DDR3_1333H => mkSpeed 1333 ((400.0/3)*5)%Q ((3/0.4)/5)%Q 4 4 2 9 9 9 7 24 33 5 5 10 0 0 0 5200 4 4 16 5 0 512
  | DDR3_1600H => mkSpeed 1600 ((400.0/3)*6)%Q ((3/0.4)/6)%Q 4 4 2 9 9 9 8 28 37 6 6 12 0 0 0 6240 4 5 20 5 0 512
  | DDR3_1600J => mkSpeed 1600 ((400.0/3)*6)%Q ((3/0.4)/6)%Q 4 4 2 10 10 10 8 28 38 6 6 12 0 0 0 6240 4 5 20 5 0 512
  | DDR3_1600K => mkSpeed 1600 ((400.0/3)*6)%Q ((3/0.4)/6)%Q 4 4 2 11 11 11 8 28 39 6 6 12 0 0 0 6240 4 5 20 5 0 512
  | DDR3_1866K => mkSpeed 1866 ((400.0/3)*7)%Q ((3/0.4)/7)%Q 4 4 2 11 11 11 9 32 43 7 7 14 0 0 0 7280 5 6 23 6 0 512
  | DDR3_1866L => mkSpeed 1866 ((400.0/3)*7)%Q ((3/0.4)/7)%Q 4 4 2 12 12 12 9 32 44 7 7 14 0 0 0 7280 5 6 23 6 0 512
  | DDR3_2133L => mkSpeed 2133 ((400.0/3)*8)%Q ((3/0.4)/8)%Q 4 4 2 12 12 12 10 36 48 8 8 16 0 0 0 8320 6 7 26 7 0 512
  | DDR3_2133M => mkSpeed 2133 ((400.0/3)*8)%Q ((3/0.4)/8)%Q 4 4 2 13 13 13 10 36 49 8 8 16 0 0 0 8320 6 7 26 7 0 512
  | DDR3_2133_14 => mkSpeed 2133 ((400.0/3)*8)%Q ((3/0.4)/8)%Q 4 4 2 14 14 14 13 36 50 8 8 16 0 0 0 8320 6 7 26 7 0 512
  | DDR3_2133L_unlimit_bandwidth => mkSpeed 2133 ((400.0/3)*8)%Q ((3/0.4)/8)%Q 0 1 2 12 12 12 10 36 48 8 8 16 0 0 0 8320 6 7 26 7 0 512
  | DDR3_2133_14_unlimit_bandwidth => mkSpeed 2133 ((400.0/3)*8)%Q ((3/0.4)/8)%Q 0 1 2 14 14 14 13 36 50 8 8 16 0 0 0 8320 6 7 26 7 0 512
  end.

Definition set_channel_number (channel : Z) (o : OrgEntry) : OrgEntry := mkOrg (size o) (dq o) (<[0%nat := channel]> (count o)).
Definition set_rank_number (rank : Z) (o : OrgEntry) : OrgEntry := mkOrg (size o) (dq o) (<[1%nat := rank]> (count o)).

Definition with_nRRD_nFAW (rrd faw : Z) (s : SpeedEntry) : SpeedEntry :=
  mkSpeed (rate s) (freq s) (tCK s) (nBL s) (nCCD s) (nRTRS s) (nCL s) (nRCD s) (nRP s) (nCWL s) (nRAS s) (nRC s)
    (nRTP s) (nWTR s) (nWR s) rrd faw (nRFC s) (nREFI s) (nPD s) (nXP s) (nXPDLL s) (nCKESR s) (nXS s) (nXSDLL s).
Definition with_nRFC_nXS (rfc xs : Z) (s : SpeedEntry) : SpeedEntry :=
  mkSpeed (rate s) (freq s) (tCK s) (nBL s) (nCCD s) (nRTRS s) (nCL s) (nRCD s) (nRP s) (nCWL s) (nRAS s) (nRC s)
    (nRTP s) (nWTR s) (nWR s) (nRRD s) (nFAW s) rfc (nREFI s) (nPD s) (nXP s) (nXPDLL s) (nCKESR s) xs (nXSDLL s).
Definition by_chip (chip a b c d e : Z) : Z :=
  if chip =? 512 then a else if chip =? 1024 then b else if chip =? 2048 then c else if chip =? 4096 then d else e.
Definition speed_nRRD_nFAW (rate page : Z) : option (Z * Z) :=
  let sel a b := if page =? 1 then a else b in
  if rate =? 800 then Some (sel 4 4, sel 16 20)
  else if rate =? 1066 then Some (sel 4 6, sel 20 27)
  else if rate =? 1333 then Some (sel 4 5, sel 20 30)
  else if rate =? 1600 then Some (sel 5 6, sel 24 32)
  else if rate =? 1866 then Some (sel 5 6, sel 26 33)
  else if rate =? 2133 then Some (sel 5 6, sel 27 34)
  else None.
Definition speed_nRFC (rate chip : Z) : option Z :=
  if rate =? 800 then Some (by_chip chip 36 44 64 104 140)
  else if rate =? 1066 then Some (by_chip chip 48 59 86 139 187)
  else if rate =? 1333 then Some (by_chip chip 60 74 107 174 234)
  else if rate =? 1600 then Some (by_chip chip 72 88 128 208 280)
  else if rate =? 1866 then Some (by_chip chip 84 103 150 243 327)
  else if rate =? 2133 then Some (by_chip chip 96 118 171 278 374)
  else None.
Definition speed_nXS (rate chip : Z) : option Z :=
  if rate =? 800 then Some (by_chip chip 40 48 68 108 144)
  else if rate =? 1066 then Some (by_chip chip 54 64 91 144 192)
  else if rate =? 1333 then Some (by_chip chip 67 80 114 180 240)
  else if rate =? 1600 then Some (by_chip chip 80 96 136 216 288)
  else if rate =? 1866 then Some (by_chip chip 94 112 159 252 336)
  else if rate =? 2133 then Some (by_chip chip 107 128 182 288 384)
  else None.
Definition init_speed (o : OrgEntry) (s : SpeedEntry) : result SpeedEntry :=
  let page := Z.shiftr (dq o * nth 4 (count o) 0) 13 in
  let chip := size o in
  match speed_nRRD_nFAW (rate s) page, speed_nRFC (rate s) chip, speed_nXS (rate s) chip with
  | Some (rrd, faw), Some rfc, Some xs => Ok (with_nRFC_nXS rfc xs (with_nRRD_nFAW rrd faw s))
  | _, _, _ => Err AssertFail
  end.

(** ** Levels, commands, states *)
Definition start (lev : nat) : State :=
  match lev with 1%nat => PowerUp | 2%nat => Closed | 3%nat => Closed | _ => MAX end.
Definition scope (cmd : Command) : nat :=
  match cmd with
  | ACT => 3%nat | PRE => 2%nat | PREA => 1%nat
  | RD | WR | RDA | WRA => 4%nat
  | REF | PDE | PDX | SRE | SRX => 1%nat
  end.

(** ** Prerequisites *)
Definition prereq_rank_RD (node : Node) (cmd : Command) (id : Z) : result (option Command) :=
  match nd_state node with
  | PowerUp => Ok None
  | ActPowerDown => Ok (Some PDX)
  | PrePowerDown => Ok (Some PDX)
  | SelfRefresh => Ok (Some SRX)
  | _ => Err AssertFail
  end.
Definition prereq_bank_RD (node : Node) (cmd : Command) (id : Z) : result (option Command) :=
  match nd_state node with
  | Closed => Ok (Some ACT)
  | Opened => match nd_rows node !! id with Some _ => Ok (Some cmd) | None => Ok (Some PRE) end
  | _ => Err AssertFail
  end.
(** Every bank below the node is closed. *)
Definition banks_closed (node : Node) : bool := forallb bank_closed (nd_children node).
Definition prereq_rank_REF (node : Node) (cmd : Command) (id : Z) : result (option Command) :=
  if banks_closed node then Ok (Some REF) else Ok (Some PREA).
Definition prereq_rank_PDE (node : Node) (cmd : Command) (id : Z) : result (option Command) :=
  match nd_state node with
  | PowerUp => Ok (Some PDE)
  | ActPowerDown => Ok (Some PDE)
  | PrePowerDown => Ok (Some PDE)
  | SelfRefresh => Ok (Some SRX)
  | _ => Err AssertFail
  end.
Definition prereq_rank_SRE (node : Node) (cmd : Command) (id : Z) : result (option Command) :=
  match nd_state node with
  | PowerUp => Ok (Some SRE)
  | ActPowerDown => Ok (Some PDX)
  | PrePowerDown => Ok (Some PDX)
  | SelfRefresh => Ok (Some SRE)
  | _ => Err AssertFail
  end.
Definition prereq (lev : nat) (cmd : Command) : option (Node -> Command -> Z -> result (option Command)) :=
  match lev, cmd with
  | 1%nat, RD | 1%nat, WR => Some prereq_rank_RD
  | 2%nat, RD | 2%nat, WR => Some prereq_bank_RD
  | 1%nat, REF => Some prereq_rank_REF
  | 1%nat, PDE => Some prereq_rank_PDE
  | 1%nat, SRE => Some prereq_rank_SRE
  | _, _ => None
  end.

(** ** Row hits and open rows *)
Definition rowhit_bank_RD (node : Node) (cmd : Command) (id : Z) : result bool :=
  match nd_state node with
  | Closed => Ok false
  | Opened => match nd_rows node !! id with Some _ => Ok true | None => Ok false end
  | _ => Err AssertFail
  end.
Definition rowhit (lev : nat) (cmd : Command) : option (Node -> Command -> Z -> result bool) :=
  match lev, cmd with 2%nat, RD | 2%nat, WR => Some rowhit_bank_RD | _, _ => None end.
Definition rowopen_bank_RD (node : Node) (cmd : Command) (id : Z) : result bool :=
  match nd_state node with
  | Closed => Ok false
  | Opened => Ok true
  | _ => Err AssertFail
  end.
Definition rowopen (lev : nat) (cmd : Command) : option (Node -> Command -> Z -> result bool) :=
  match lev, cmd with 2%nat, RD | 2%nat, WR => Some rowopen_bank_RD | _, _ => None end.

(** ** State changes *)
Definition lambda (lev : nat) (cmd : Command) : option (Node -> Z -> Node) :=
  match lev, cmd with
  | 2%nat, ACT => Some (fun node id => open_row node id)
  | 2%nat, PRE => Some (fun node id => close_bank node)
  | 1%nat, PREA => Some (fun node id => map_children close_bank node)
  | 1%nat, REF => Some (fun node id => node)
  | 2%nat, RD => Some (fun node id => node)
  | 2%nat, WR => Some (fun node id => node)
  | 2%nat, RDA => Some (fun node id => close_bank node)
  | 2%nat, WRA => Some (fun node id => close_bank node)
  | 1%nat, PDE => Some (fun node id => if banks_closed node then set_state PrePowerDown node else set_state ActPowerDown node)
  | 1%nat, PDX => Some (fun node id => set_state PowerUp node)
  | 1%nat, SRE => Some (fun node id => set_state SelfRefresh node)
  | 1%nat, SRX => Some (fun node id => set_state PowerUp node)
  | _, _ => None
  end.

(** ** Timing *)
Definition timing_channel (s : SpeedEntry) : list (Command * TimingEntry Command) := [
  (* CAS <-> CAS *)
  tim RD RD 1 (nBL s);
  tim RD RDA 1 (nBL s);
  tim RDA RD 1 (nBL s);
  tim RDA RDA 1 (nBL s);
  tim WR WR 1 (nBL s);
  tim WR WRA 1 (nBL s);
  tim WRA WR 1 (nBL s);
  tim WRA WRA 1 (nBL s)
].
Definition timing_rank (s : SpeedEntry) : list (Command * TimingEntry Command) := [
  (* CAS <-> CAS *)
  tim RD RD 1 (nCCD s);
  tim RD RDA 1 (nCCD s);
  tim RDA RD 1 (nCCD s);
  tim RDA RDA 1 (nCCD s);
  tim WR WR 1 (nCCD s);
  tim WR WRA 1 (nCCD s);
  tim WRA WR 1 (nCCD s);
  tim WRA WRA 1 (nCCD s);
  tim RD WR 1 (nCL s + nCCD s + 2 - nCWL s);
  tim RD WRA 1 (nCL s + nCCD s + 2 - nCWL s);
  tim RDA WR 1 (nCL s + nCCD s + 2 - nCWL s);
  tim RDA WRA 1 (nCL s + nCCD s + 2 - nCWL s);
  tim WR RD 1 (nCWL s + nBL s + nWTR s);
  tim WR RDA 1 (nCWL s + nBL s + nWTR s);
  tim WRA RD 1 (nCWL s + nBL s + nWTR s);
  tim WRA RDA 1 (nCWL s + nBL s + nWTR s);
  (* CAS <-> CAS (between sibling ranks) *)
  sib RD RD 1 (nBL s + nRTRS s);
  sib RD RDA 1 (nBL s + nRTRS s);
  sib RDA RD 1 (nBL s + nRTRS s);
  sib RDA RDA 1 (nBL s + nRTRS s);
  sib RD WR 1 (nBL s + nRTRS s);
  sib RD WRA 1 (nBL s + nRTRS s);
  sib RDA WR 1 (nBL s + nRTRS s);
  sib RDA WRA 1 (nBL s + nRTRS s);
  sib RD WR 1 (nCL s + nBL s + nRTRS s - nCWL s);
  sib RD WRA 1 (nCL s + nBL s + nRTRS s - nCWL s);
  sib RDA WR 1 (nCL s + nBL s + nRTRS s - nCWL s);
  sib RDA WRA 1 (nCL s + nBL s + nRTRS s - nCWL s);
  sib WR RD 1 (nCWL s + nBL s + nRTRS s - nCL s);
  sib WR RDA 1 (nCWL s + nBL s + nRTRS s - nCL s);
  sib WRA RD 1 (nCWL s + nBL s + nRTRS s - nCL s);
  sib WRA RDA 1 (nCWL s + nBL s + nRTRS s - nCL s);
  tim RD PREA 1 (nRTP s);
  tim WR PREA 1 (nCWL s + nBL s + nWR s);
  (* CAS <-> PD *)
  tim RD PDE 1 (nCL s + nBL s + 1);
  tim RDA PDE 1 (nCL s + nBL s + 1);
  tim WR PDE 1 (nCWL s + nBL s + nWR s);
  tim WRA PDE 1 (nCWL s + nBL s + nWR s + 1);
  tim PDX RD 1 (nXP s);
  tim PDX RDA 1 (nXP s);
  tim PDX WR 1 (nXP s);
  tim PDX WRA 1 (nXP s);
  (* CAS <-> SR: none (all banks have to be precharged) *)
  (* RAS <-> RAS *)
  tim ACT ACT 1 (nRRD s);
  tim ACT ACT 4 (nFAW s);
  tim ACT PREA 1 (nRAS s);
  tim PREA ACT 1 (nRP s);
  (* RAS <-> REF *)
  tim PRE REF 1 (nRP s);
  tim PREA REF 1 (nRP s);
  tim REF ACT 1 (nRFC s);
  (* RAS <-> PD *)
  tim ACT PDE 1 1;
  tim PDX ACT 1 (nXP s);
  tim PDX PRE 1 (nXP s);
  tim PDX PREA 1 (nXP s);
  (* RAS <-> SR *)
  tim PRE SRE 1 (nRP s);
  tim PREA SRE 1 (nRP s);
  tim SRX ACT 1 (nXS s);
  (* REF <-> REF *)
  tim REF REF 1 (nRFC s);
  (* REF <-> PD *)
  tim REF PDE 1 1;
  tim PDX REF 1 (nXP s);
  (* REF <-> SR *)
  tim SRX REF 1 (nXS s);
  (* PD <-> PD *)
  tim PDE PDX 1 (nPD s);
  tim PDX PDE 1 (nXP s);
  (* PD <-> SR *)
  tim PDX SRE 1 (nXP s);
  tim SRX PDE 1 (nXS s);
  (* SR <-> SR *)
  tim SRE SRX 1 (nCKESR s);
  tim SRX SRE 1 (nXS s)
].
Definition timing_bank (s : SpeedEntry) : list (Command * TimingEntry Command) := [
  (* CAS <-> RAS *)
  tim ACT RD 1 (nRCD s);
  tim ACT RDA 1 (nRCD s);
  tim ACT WR 1 (nRCD s);
  tim ACT WRA 1 (nRCD s);
  tim RD PRE 1 (nRTP s);
  tim WR PRE 1 (nCWL s + nBL s + nWR s);
  tim RDA ACT 1 (nRTP s + nRP s);
  tim WRA ACT 1 (nCWL s + nBL s + nWR s + nRP s);
  (* RAS <-> RAS *)
  tim ACT ACT 1 (nRC s);
  tim ACT PRE 1 (nRAS s);
  tim PRE ACT 1 (nRP s)
].
Definition timing (s : SpeedEntry) (lev : nat) (cmd : Command) : list (TimingEntry Command) :=
  match lev with 0%nat => select (timing_channel s) cmd | 1%nat => select (timing_rank s) cmd | 2%nat => select (timing_bank s) cmd | _ => [] end.

(** ** The standard *)
Definition spec (o : OrgEntry) (s : SpeedEntry) : Spec Command State := {|
  sp_start := start;
  sp_scope := scope;
  sp_prereq := prereq;
  sp_rowhit := rowhit;
  sp_rowopen := rowopen;
  sp_lambda := lambda;
  sp_timing := timing s;
  sp_count := fun lev => Z.to_nat (nth lev (count o) 0);
  sp_row := 3;
  sp_bank := 2;
  sp_opening := is_opening;
  sp_refreshing := is_refreshing;
|}.


(** ** The constructors *)
Definition org_map : list (string * Org) := [
  ("DDR3_512Mb_x4"%string, DDR3_512Mb_x4);
  ("DDR3_512Mb_x8"%string, DDR3_512Mb_x8);
  ("DDR3_512Mb_x16"%string, DDR3_512Mb_x16);
  ("DDR3_1Gb_x4"%string, DDR3_1Gb_x4);
  ("DDR3_1Gb_x8"%string, DDR3_1Gb_x8);
  ("DDR3_1Gb_x16"%string, DDR3_1Gb_x16);
  ("DDR3_2Gb_x4"%string, DDR3_2Gb_x4);
  ("DDR3_2Gb_x8"%string, DDR3_2Gb_x8);
  ("DDR3_2Gb_x16"%string, DDR3_2Gb_x16);
  ("DDR3_4Gb_x4"%string, DDR3_4Gb_x4);
  ("DDR3_4Gb_x8"%string, DDR3_4Gb_x8);
  ("DDR3_4Gb_x16"%string, DDR3_4Gb_x16);
  ("DDR3_8Gb_x4"%string, DDR3_8Gb_x4);
  ("DDR3_8Gb_x8"%string, DDR3_8Gb_x8);
  ("DDR3_8Gb_x16"%string, DDR3_8Gb_x16);
  ("DDR3_2Gb_x16_bank16"%string, DDR3_2Gb_x16_bank16);
  ("DDR3_2Gb_x16_bank32"%string, DDR3_2Gb_x16_bank32);
  ("DDR3_2Gb_x16_bank64"%string, DDR3_2Gb_x16_bank64);
  ("DDR3_2Gb_x16_bank128"%string, DDR3_2Gb_x16_bank128);
  ("DDR3_2Gb_x16_bank256"%string, DDR3_2Gb_x16_bank256)
].
Definition speed_map : list (string * Speed) := [
  ("DDR3_800D"%string, DDR3_800D);
  ("DDR3_800E"%string, DDR3_800E);
  ("DDR3_1066E"%string, DDR3_1066E);
  ("DDR3_1066F"%string, DDR3_1066F);
  ("DDR3_1066G"%string, DDR3_1066G);
  ("DDR3_1333G"%string, DDR3_1333G);
  ("DDR3_1333H"%string, DDR3_1333H);
  ("DDR3_1600H"%string, DDR3_1600H);
  ("DDR3_1600J"%string, DDR3_1600J);
  ("DDR3_1600K"%string, DDR3_1600K);
  ("DDR3_1866K"%string, DDR3_1866K);
  ("DDR3_1866L"%string, DDR3_1866L);
  ("DDR3_2133L"%string, DDR3_2133L);
  ("DDR3_2133M"%string, DDR3_2133M);
  ("DDR3_2133_14"%string, DDR3_2133_14);
  ("DDR3_2133L_unlimit_bandwidth"%string, DDR3_2133L_unlimit_bandwidth);
  ("DDR3_2133_14_unlimit_bandwidth"%string, DDR3_2133_14_unlimit_bandwidth)
].

Record DDR3 : Type := mkDDR3 { org_entry : OrgEntry; speed_entry : SpeedEntry; read_latency : Z; write_latency : Z }.
Definition DDR3_new (org : Org) (speed : Speed) : result DDR3 :=
  let s := speed_table speed in
  bind_res (init_speed (org_table org) s) (fun s' => Ok (mkDDR3 (org_table org) s' (nCL s + nBL s) (nBL s))).
Definition DDR3_of_strings (org_str speed_str : string) : result DDR3 :=
  DDR3_new (map_at org_map DDR3_512Mb_x4 org_str) (map_at speed_map DDR3_800D speed_str).

(** ** The laws of the tables *)
#[export] Instance spec_ok (o : OrgEntry) (s : SpeedEntry) : SpecOk (spec o s).
Proof.
  split; cbn [spec sp_timing sp_refreshing sp_opening sp_lambda].
  1-3: timing_laws.
  intros lev c f nd id Hf. lambda_cases Hf lev c; try match goal with |- context [banks_closed ?x] => destruct (banks_closed x) end; auto 6 with damov.
Qed.

#[export] Instance spec_banked (o : OrgEntry) (s : SpeedEntry) : Banked (spec o s) 1 2.
Proof.
  split; cbn [spec sp_row sp_scope sp_prereq sp_rowhit sp_lambda sp_start].
  - split; [lia|done].
  - intros c [-> | [-> | [-> | ->]]]; simpl; lia.
  - by intros c [-> | ->].
  - intros lev c [-> | ->]; split_level lev; reflexivity.
  - intros lev c [-> | ->]; split_level lev; reflexivity.
  - intros lev c [-> | ->]; split_level lev; reflexivity.
  - intros lev; split_level lev; reflexivity.
  - intros lev; split_level lev; reflexivity.
  - by split.
  - intros P lev c f nd id HP Hc Hf H. lambda_cases Hf lev c; try exact H; try congruence;
      try (apply states_ok_close; [lia|exact HP|assumption]);
      try match goal with |- context [banks_closed ?x] => destruct (banks_closed x) end;
      try (apply states_ok_set_state; [lia|exact H|unfold wake_state; tauto]).
    apply states_ok_children; [assumption| |lia]; intros ch Hc1; apply states_ok_close; [lia|exact HP|assumption].
Qed.
