(* ===== verification/DDR4.v ===== *)
(** * DDR4 (DDR4.h, DDR4.cc)

    The tables of the DDR4 standard: organisations, speeds, prerequisites, row
    hits, state changes and timing entries, and the [Spec] they make.  Levels:
    Channel 0, Rank 1, BankGroup 2, Bank 3, Row 4, Column 5. *)

From stdpp Require Import base tactics numbers list gmap strings.
From Stdlib Require Import ZArith QArith Lia.
From S2P Require Import Prelude Dram DramTiming DramStd DramBanks.

Open Scope Z_scope.

#[local] Abbreviation Node := (Dram.Node Command State).

(** ** Organisation and speed *)
Inductive Org : Type :=
  | DDR4_2Gb_x4 | DDR4_2Gb_x8 | DDR4_2Gb_x16 | DDR4_4Gb_x4 | DDR4_4Gb_x8 | DDR4_4Gb_x16 | DDR4_8Gb_x4 | DDR4_8Gb_x8
  | DDR4_8Gb_x16.
Definition org_table (o : Org) : OrgEntry :=
  match o with
  | DDR4_2Gb_x4 => mkOrg 2048 4 [0; 0; 4; 4; 32768; 1024]
  | DDR4_2Gb_x8 => mkOrg 2048 8 [0; 0; 4; 4; 16384; 1024]
  | DDR4_2Gb_x16 => mkOrg 2048 16 [0; 0; 2; 4; 16384; 1024]
  | DDR4_4Gb_x4 => mkOrg 4096 4 [0; 0; 4; 4; 65536; 1024]
  | DDR4_4Gb_x8 => mkOrg 4096 8 [0; 0; 4; 4; 32768; 1024]
  | DDR4_4Gb_x16 => mkOrg 4096 16 [0; 0; 2; 4; 32768; 1024]
  | DDR4_8Gb_x4 => mkOrg 8192 4 [0; 0; 4; 4; 131072; 1024]
  | DDR4_8Gb_x8 => mkOrg 8192 8 [0; 0; 4; 4; 65536; 1024]
  | DDR4_8Gb_x16 => mkOrg 8192 16 [0; 0; 2; 4; 65536; 1024]
  end.

Inductive Speed : Type :=
  | DDR4_1600K | DDR4_1600L | DDR4_1866M | DDR4_1866N | DDR4_2133P | DDR4_2133R | DDR4_2400R | DDR4_2400U
  | DDR4_2400R_disable_bg.
Record SpeedEntry : Type := mkSpeed {
  rate : Z;
  freq : Q;
  tCK : Q;
  nBL : Z;
  nCCDS : Z;
  nCCDL : Z;
  nRTRS : Z;
  nCL : Z;
  nRCD : Z;
  nRP : Z;
  nCWL : Z;
  nRAS : Z;
  nRC : Z;
  nRTP : Z;
  nWTRS : Z;
  nWTRL : Z;
  nWR : Z;
  nRRDS : Z;
  nRRDL : Z;
  nFAW : Z;
  nRFC : Z;
  nREFI : Z;
  nPD : Z;
  nXP : Z;
  nXPDLL : Z;
  nCKESR : Z;
  nXS : Z;
  nXSDLL : Z;
}.
Definition speed_table (x : Speed) : SpeedEntry :=
  match x with
  | DDR4_1600K => mkSpeed 1600 ((400.0/3)*6)%Q ((3/0.4)/6)%Q 4 4 5 2 11 11 11 9 28 39 6 2 6 12 0 0 0 0 0 4 5 0 5 0 0
  | DDR4_1600L => mkSpeed 1600 ((400.0/3)*6)%Q ((3/0.4)/6)%Q 4 4 5 2 12 12 12 9 28 40 6 2 6 12 0 0 0 0 0 4 5 0 5 0 0
  | DDR4_1866M => mkSpeed 1866 ((400.0/3)*7)%Q ((3/0.4)/7)%Q 4 4 5 2 13 13 13 10 32 45 7 3 7 14 0 0 0 0 0 5 6 0 6 0 0
  | DDR4_1866N => mkSpeed 1866 ((400.0/3)*7)%Q ((3/0.4)/7)%Q 4 4 5 2 14 14 14 10 32 46 7 3 7 14 0 0 0 0 0 5 6 0 6 0 0
  | DDR4_2133P => mkSpeed 2133 ((400.0/3)*8)%Q ((3/0.4)/8)%Q 4 4 6 2 15 15 15 11 36 51 8 3 8 16 0 0 0 0 0 6 7 0 7 0 0
  | DDR4_2133R => mkSpeed 2133 ((400.0/3)*8)%Q ((3/0.4)/8)%Q 4 4 6 2 16 16 16 11 36 52 8 3 8 16 0 0 0 0 0 6 7 0 7 0 0
  | DDR4_2400R => mkSpeed 2400 ((400.0/3)*9)%Q ((3/0.4)/9)%Q 4 4 6 2 16 16 16 12 39 55 9 3 9 18 0 0 0 0 0 6 8 0 7 0 0
  | DDR4_2400U => mkSpeed 2400 ((400.0/3)*9)%Q ((3/0.4)/9)%Q 4 4 6 2 18 18 18 12 39 57 9 3 9 18 0 0 0 0 0 6 8 0 7 0 0
  | DDR4_2400R_disable_bg => mkSpeed 2400 ((400.0/3)*9)%Q ((3/0.4)/9)%Q 4 4 4 2 16 16 16 12 39 55 9 3 9 18 0 0 0 0 0 6 8 0 7 0 0
  end.

Definition set_channel_number (channel : Z) (o : OrgEntry) : OrgEntry := mkOrg (size o) (dq o) (<[0%nat := channel]> (count o)).
Definition set_rank_number (rank : Z) (o : OrgEntry) : OrgEntry := mkOrg (size o) (dq o) (<[1%nat := rank]> (count o)).

Inductive RefreshMode : Type := Refresh_1X | Refresh_2X | Refresh_4X.
Definition mode_index (m : RefreshMode) : nat := match m with Refresh_1X => 0 | Refresh_2X => 1 | Refresh_4X => 2 end.
Definition RRDS_TABLE : list (list Z) := [[4; 4; 4; 4]; [5; 5; 6; 7]].
Definition RRDL_TABLE : list (list Z) := [[5; 5; 6; 6]; [6; 6; 7; 8]].
Definition FAW_TABLE : list (list Z) := [[16; 16; 16; 16]; [20; 22; 23; 26]; [28; 28; 32; 36]].
Definition RFC_TABLE : list (list (list Z)) := [
  [[128; 150; 171; 193]; [208; 243; 278; 313]; [280; 327; 374; 421]];
  [[88; 103; 118; 132]; [128; 150; 171; 192]; [208; 243; 278; 312]];
  [[72; 84; 96; 108]; [88; 103; 118; 132]; [128; 150; 171; 192]]
].
Definition REFI_TABLE : list Z := [6240; 7280; 8320; 9360].
Definition XS_TABLE : list (list Z) := [[136; 159; 182; 204]; [216; 252; 288; 324]; [288; 336; 384; 432]].
Definition at2 (t : list (list Z)) (i j : nat) : Z := nth j (nth i t []) 0.
Definition speed_index (rate : Z) : option nat :=
  if rate =? 1600 then Some 0%nat else if rate =? 1866 then Some 1%nat
  else if rate =? 2133 then Some 2%nat else if rate =? 2400 then Some 3%nat else None.
Definition density_index (size : Z) : option nat :=
  let d := Z.shiftr size 10 in
  if d =? 2 then Some 0%nat else if d =? 4 then Some 1%nat else if d =? 8 then Some 2%nat else None.
Definition init_speed (m : RefreshMode) (o : OrgEntry) (s : SpeedEntry) : result SpeedEntry :=
  match speed_index (rate s), density_index (size o) with
  | Some speed, Some density =>
      let wide := if dq o =? 16 then 1%nat else 0%nat in
      Ok (mkSpeed (rate s) (freq s) (tCK s) (nBL s) (nCCDS s) (nCCDL s) (nRTRS s) (nCL s) (nRCD s) (nRP s) (nCWL s)
            (nRAS s) (nRC s) (nRTP s) (nWTRS s) (nWTRL s) (nWR s)
            (at2 RRDS_TABLE wide speed) (at2 RRDL_TABLE wide speed)
            (at2 FAW_TABLE (if dq o =? 4 then 0%nat else if dq o =? 8 then 1%nat else 2%nat) speed)
            (at2 (nth (mode_index m) RFC_TABLE []) density speed)
            (Z.shiftr (nth speed REFI_TABLE 0) (Z.of_nat (mode_index m)))
            (nPD s) (nXP s) (nXPDLL s) (nCKESR s) (at2 XS_TABLE density speed) (nXSDLL s))
  | _, _ => Err AssertFail
  end.

(** ** Levels, commands, states *)
Definition start (lev : nat) : State :=
  match lev with 1%nat => PowerUp | 3%nat => Closed | 4%nat => Closed | _ => MAX end.
Definition scope (cmd : Command) : nat :=
  match cmd with
  | ACT => 4%nat | PRE => 3%nat | PREA => 1%nat
  | RD | WR | RDA | WRA => 5%nat
  | REF | PDE | PDX | SRE | SRX => 1%nat
  end.

(** ** Prerequisites *)
Definition prereq_rank_RD (node : Node) (cmd : Command) (id : Z) : result (option Command) :=
  match nd_state node with
  | PowerUp => Ok None
  | ActPowerDown => Ok (Some PDX)
  | PrePowerDown => Ok (Some PDX)
  | SelfRefresh => Ok (Some SRX)
  | _ => Err AssertFail
  end.
Definition prereq_bank_RD (node : Node) (cmd : Command) (id : Z) : result (option Command) :=
  match nd_state node with
  | Closed => Ok (Some ACT)
  | Opened => match nd_rows node !! id with Some _ => Ok (Some cmd) | None => Ok (Some PRE) end
  | _ => Err AssertFail
  end.
(** Every bank below the node is closed. *)
Definition banks_closed (node : Node) : bool := forallb (fun bg => forallb bank_closed (nd_children bg)) (nd_children node).
Definition prereq_rank_REF (node : Node) (cmd : Command) (id : Z) : result (option Command) :=
  if banks_closed node then Ok (Some REF) else Ok (Some PREA).
Definition prereq_rank_PDE (node : Node) (cmd : Command) (id : Z) : result (option Command) :=
  match nd_state node with
  | PowerUp => Ok (Some PDE)
  | ActPowerDown => Ok (Some PDE)
  | PrePowerDown => Ok (Some PDE)
  | SelfRefresh => Ok (Some SRX)
  | _ => Err AssertFail
  end.
Definition prereq_rank_SRE (node : Node) (cmd : Command) (id : Z) : result (option Command) :=
  match nd_state node with
  | PowerUp => Ok (Some SRE)
  | ActPowerDown => Ok (Some PDX)
  | PrePowerDown => Ok (Some PDX)
  | SelfRefresh => Ok (Some SRE)
  | _ => Err AssertFail
  end.
Definition prereq (lev : nat) (cmd : Command) : option (Node -> Command -> Z -> result (option Command)) :=
  match lev, cmd with
  | 1%nat, RD | 1%nat, WR => Some prereq_rank_RD
  | 3%nat, RD | 3%nat, WR => Some prereq_bank_RD
  | 1%nat, REF => Some prereq_rank_REF
  | 1%nat, PDE => Some prereq_rank_PDE
  | 1%nat, SRE => Some prereq_rank_SRE
  | _, _ => None
  end.

(** ** Row hits and open rows *)
Definition rowhit_bank_RD (node : Node) (cmd : Command) (id : Z) : result bool :=
  match nd_state node with
  | Closed => Ok false
  | Opened => match nd_rows node !! id with Some _ => Ok true | None => Ok false end
  | _ => Err AssertFail
  end.
Definition rowhit (lev : nat) (cmd : Command) : option (Node -> Command -> Z -> result bool) :=
  match lev, cmd with 3%nat, RD | 3%nat, WR => Some rowhit_bank_RD | _, _ => None end.
Definition rowopen_bank_RD (node : Node) (cmd : Command) (id : Z) : result bool :=
  match nd_state node with
  | Closed => Ok false
  | Opened => Ok true
  | _ => Err AssertFail
  end.
Definition rowopen (lev : nat) (cmd : Command) : option (Node -> Command -> Z -> result bool) :=
  match lev, cmd with 3%nat, RD | 3%nat, WR => Some rowopen_bank_RD | _, _ => None end.

(** ** State changes *)
Definition lambda (lev : nat) (cmd : Command) : option (Node -> Z -> Node) :=
  match lev, cmd with
  | 3%nat, ACT => Some (fun node id => open_row node id)
  | 3%nat, PRE => Some (fun node id => close_bank node)
  | 1%nat, PREA => Some (fun node id => map_children (map_children close_bank) node)
  | 1%nat, REF => Some (fun node id => node)
  | 3%nat, RD => Some (fun node id => node)
  | 3%nat, WR => Some (fun node id => node)
  | 3%nat, RDA => Some (fun node id => close_bank node)
  | 3%nat, WRA => Some (fun node id => close_bank node)
  | 1%nat, PDE => Some (fun node id => if banks_closed node then set_state PrePowerDown node else set_state ActPowerDown node)
  | 1%nat, PDX => Some (fun node id => set_state PowerUp node)
  | 1%nat, SRE => Some (fun node id => set_state SelfRefresh node)
  | 1%nat, SRX => Some (fun node id => set_state PowerUp node)
  | _, _ => None
  end.

(** ** Timing *)
Definition timing_channel (s : SpeedEntry) : list (Command * TimingEntry Command) := [
  (* CAS <-> CAS *)
  tim RD RD 1 (nBL s);
  tim RD RDA 1 (nBL s);
  tim RDA RD 1 (nBL s);
  tim RDA RDA 1 (nBL s);
  tim WR WR 1 (nBL s);
  tim WR WRA 1 (nBL s);
  tim WRA WR 1 (nBL s);
  tim WRA WRA 1 (nBL s)
].
Definition timing_rank (s : SpeedEntry) : list (Command * TimingEntry Command) := [
  (* CAS <-> CAS *)
  tim RD RD 1 (nCCDS s);
  tim RD RDA 1 (nCCDS s);
  tim RDA RD 1 (nCCDS s);
  tim RDA RDA 1 (nCCDS s);
  tim WR WR 1 (nCCDS s);
  tim WR WRA 1 (nCCDS s);
  tim WRA WR 1 (nCCDS s);
  tim WRA WRA 1 (nCCDS s);
  tim RD WR 1 (nCL s + nCCDS s + 2 - nCWL s);
  tim RD WRA 1 (nCL s + nCCDS s + 2 - nCWL s);
  tim RDA WR 1 (nCL s + nCCDS s + 2 - nCWL s);
  tim RDA WRA 1 (nCL s + nCCDS s + 2 - nCWL s);
  tim WR RD 1 (nCWL s + nBL s + nWTRS s);
  tim WR RDA 1 (nCWL s + nBL s + nWTRS s);
  tim WRA RD 1 (nCWL s + nBL s + nWTRS s);
  tim WRA RDA 1 (nCWL s + nBL s + nWTRS s);
  (* CAS <-> CAS (between sibling ranks) *)
  sib RD RD 1 (nBL s + nRTRS s);
  sib RD RDA 1 (nBL s + nRTRS s);
  sib RDA RD 1 (nBL s + nRTRS s);
  sib RDA RDA 1 (nBL s + nRTRS s);
  sib RD WR 1 (nBL s + nRTRS s);
  sib RD WRA 1 (nBL s + nRTRS s);
  sib RDA WR 1 (nBL s + nRTRS s);
  sib RDA WRA 1 (nBL s + nRTRS s);
  sib RD WR 1 (nCL s + nBL s + nRTRS s - nCWL s);
  sib RD WRA 1 (nCL s + nBL s + nRTRS s - nCWL s);
  sib RDA WR 1 (nCL s + nBL s + nRTRS s - nCWL s);
  sib RDA WRA 1 (nCL s + nBL s + nRTRS s - nCWL s);
  sib WR RD 1 (nCWL s + nBL s + nRTRS s - nCL s);
  sib WR RDA 1 (nCWL s + nBL s + nRTRS s - nCL s);
  sib WRA RD 1 (nCWL s + nBL s + nRTRS s - nCL s);
  sib WRA RDA 1 (nCWL s + nBL s + nRTRS s - nCL s);
  tim RD PREA 1 (nRTP s);
  tim WR PREA 1 (nCWL s + nBL s + nWR s);
  (* CAS <-> PD *)
  tim RD PDE 1 (nCL s + nBL s + 1);
  tim RDA PDE 1 (nCL s + nBL s + 1);
  tim WR PDE 1 (nCWL s + nBL s + nWR s);
  tim WRA PDE 1 (nCWL s + nBL s + nWR s + 1);
  tim PDX RD 1 (nXP s);
  tim PDX RDA 1 (nXP s);
  tim PDX WR 1 (nXP s);
  tim PDX WRA 1 (nXP s);
  (* CAS <-> SR: none (all banks have to be precharged) *)
  (* RAS <-> RAS *)
  tim ACT ACT 1 (nRRDS s);
  tim ACT ACT 4 (nFAW s);
  tim ACT PREA 1 (nRAS s);
  tim PREA ACT 1 (nRP s);
  (* RAS <-> REF *)
  tim PRE REF 1 (nRP s);
  tim PREA REF 1 (nRP s);
  tim REF ACT 1 (nRFC s);
  (* RAS <-> PD *)
  tim ACT PDE 1 1;
  tim PDX ACT 1 (nXP s);
  tim PDX PRE 1 (nXP s);
  tim PDX PREA 1 (nXP s);
  (* RAS <-> SR *)
  tim PRE SRE 1 (nRP s);
  tim PREA SRE 1 (nRP s);
  tim SRX ACT 1 (nXS s);
  (* REF <-> REF *)
  tim REF REF 1 (nRFC s);
  (* REF <-> PD *)
  tim REF PDE 1 1;
  tim PDX REF 1 (nXP s);
  (* REF <-> SR *)
  tim SRX REF 1 (nXS s);
  (* PD <-> PD *)
  tim PDE PDX 1 (nPD s);
  tim PDX PDE 1 (nXP s);
  (* PD <-> SR *)
  tim PDX SRE 1 (nXP s);
  tim SRX PDE 1 (nXS s);
  (* SR <-> SR *)
  tim SRE SRX 1 (nCKESR s);
  tim SRX SRE 1 (nXS s)
].
Definition timing_bankgroup (s : SpeedEntry) : list (Command * TimingEntry Command) := [
  (* CAS <-> CAS *)
  tim RD RD 1 (nCCDL s);
  tim RD RDA 1 (nCCDL s);
  tim RDA RD 1 (nCCDL s);
  tim RDA RDA 1 (nCCDL s);
  tim WR WR 1 (nCCDL s);
  tim WR WRA 1 (nCCDL s);
  tim WRA WR 1 (nCCDL s);
  tim WRA WRA 1 (nCCDL s);
  tim WR RD 1 (nCWL s + nBL s + nWTRL s);
  tim WR RDA 1 (nCWL s + nBL s + nWTRL s);
  tim WRA RD 1 (nCWL s + nBL s + nWTRL s);
  tim WRA RDA 1 (nCWL s + nBL s + nWTRL s);
  (* RAS <-> RAS *)
  tim ACT ACT 1 (nRRDL s)
].
Definition timing_bank (s : SpeedEntry) : list (Command * TimingEntry Command) := [
  (* CAS <-> RAS *)
  tim ACT RD 1 (nRCD s);
  tim ACT RDA 1 (nRCD s);
  tim ACT WR 1 (nRCD s);
  tim ACT WRA 1 (nRCD s);
  tim RD PRE 1 (nRTP s);
  tim WR PRE 1 (nCWL s + nBL s + nWR s);
  tim RDA ACT 1 (nRTP s + nRP s);
  tim WRA ACT 1 (nCWL s + nBL s + nWR s + nRP s);
  (* RAS <-> RAS *)
  tim ACT ACT 1 (nRC s);
  tim ACT PRE 1 (nRAS s);
  tim PRE ACT 1 (nRP s)
].
Definition timing (s : SpeedEntry) (lev : nat) (cmd : Command) : list (TimingEntry Command) :=
  match lev with 0%nat => select (timing_channel s) cmd | 1%nat => select (timing_rank s) cmd | 2%nat => select (timing_bankgroup s) cmd | 3%nat => select (timing_bank s) cmd | _ => [] end.

(** ** The standard *)
Definition spec (o : OrgEntry) (s : SpeedEntry) : Spec Command State := {|
  sp_start := start;
  sp_scope := scope;
  sp_prereq := prereq;
  sp_rowhit := rowhit;
  sp_rowopen := rowopen;
  sp_lambda := lambda;
  sp_timing := timing s;
  sp_count := fun lev => Z.to_nat (nth lev (count o) 0);
  sp_row := 4;
  sp_bank := 3;
  sp_opening := is_opening;
  sp_refreshing := is_refreshing;
|}.


(** ** The constructors *)
Definition org_map : list (string * Org) := [
  ("DDR4_2Gb_x4"%string, DDR4_2Gb_x4);
  ("DDR4_2Gb_x8"%string, DDR4_2Gb_x8);
  ("DDR4_2Gb_x16"%string, DDR4_2Gb_x16);
  ("DDR4_4Gb_x4"%string, DDR4_4Gb_x4);
  ("DDR4_4Gb_x8"%string, DDR4_4Gb_x8);
  ("DDR4_4Gb_x16"%string, DDR4_4Gb_x16);
  ("DDR4_8Gb_x4"%string, DDR4_8Gb_x4);
  ("DDR4_8Gb_x8"%string, DDR4_8Gb_x8);
  ("DDR4_8Gb_x16"%string, DDR4_8Gb_x16)
].
Definition speed_map : list (string * Speed) := [
  ("DDR4_1600K"%string, DDR4_1600K);
  ("DDR4_1600L"%string, DDR4_1600L);
  ("DDR4_1866M"%string, DDR4_1866M);
  ("DDR4_1866N"%string, DDR4_1866N);
  ("DDR4_2133P"%string, DDR4_2133P);
  ("DDR4_2133R"%string, DDR4_2133R);
  ("DDR4_2400R"%string, DDR4_2400R);
  ("DDR4_2400U"%string, DDR4_2400U);
  ("DDR4_2400R_disable_bg"%string, DDR4_2400R_disable_bg)
].

Record DDR4 : Type := mkDDR4 { org_entry : OrgEntry; speed_entry : SpeedEntry; read_latency : Z; write_latency : Z }.
Definition DDR4_new (org : Org) (speed : Speed) : result DDR4 :=
  let s := speed_table speed in
  bind_res (init_speed Refresh_1X (org_table org) s) (fun s' => Ok (mkDDR4 (org_table org) s' (nCL s + nBL s) (nBL s))).
Definition DDR4_of_strings (org_str speed_str : string) : result DDR4 :=
  DDR4_new (map_at org_map DDR4_2Gb_x4 org_str) (map_at speed_map DDR4_1600K speed_str).

(** ** The laws of the tables *)
#[export] Instance spec_ok (o : OrgEntry) (s : SpeedEntry) : SpecOk (spec o s).
Proof.
  split; cbn [spec sp_timing sp_refreshing sp_opening sp_lambda].
  1-3: timing_laws.
  intros lev c f nd id Hf. lambda_cases Hf lev c; try match goal with |- context [banks_closed ?x] => destruct (banks_closed x) end; auto 6 with damov.
Qed.

#[export] Instance spec_banked (o : OrgEntry) (s : SpeedEntry) : Banked (spec o s) 1 3.
Proof.
  split; cbn [spec sp_row sp_scope sp_prereq sp_rowhit sp_lambda sp_start].
  - split; [lia|done].
  - intros c [-> | [-> | [-> | ->]]]; simpl; lia.
  - by intros c [-> | ->].
  - intros lev c [-> | ->]; split_level lev; reflexivity.
  - intros lev c [-> | ->]; split_level lev; reflexivity.
  - intros lev c [-> | ->]; split_level lev; reflexivity.
  - intros lev; split_level lev; reflexivity.
  - intros lev; split_level lev; reflexivity.
  - by split.
  - intros P lev c f nd id HP Hc Hf H. lambda_cases Hf lev c; try exact H; try congruence;
      try (apply states_ok_close; [lia|exact HP|assumption]);
      try match goal with |- context [banks_closed ?x] => destruct (banks_closed x) end;
      try (apply states_ok_set_state; [lia|exact H|unfold wake_state; tauto]).
    apply states_ok_children; [assumption| |lia]; intros ch Hc1; apply states_ok_children; [assumption| |lia];
        intros ch' Hc2; apply states_ok_close; [lia|exact HP|assumption].
Qed.
