(* ===== verification/HMC.v ===== *)
(** * HMC (HMC.h, HMC.cc)

    The tables of the HMC standard: organisations, speeds, prerequisites, row
    hits, state changes and timing entries, and the [Spec] they make.  Levels:
    Vault 0, BankGroup 1, Bank 2, Row 3, Column 4. *)

From stdpp Require Import base tactics numbers list gmap strings.
From Stdlib Require Import ZArith QArith Lia.
From S2P Require Import Prelude Dram DramTiming DramStd DramBanks.

Open Scope Z_scope.

#[local] Abbreviation Node := (Dram.Node Command State).

(** ** Organisation and speed *)
Inductive Org : Type :=
  | HMC_4GB | HMC_8GB | HMC_4GB_bank16 | HMC_4GB_bank32 | HMC_4GB_bank64 | HMC_4GB_bank128 | HMC_4GB_bank256
  | HMC_4GB_va64 | HMC_4GB_va128 | HMC_4GB_va256 | HMC_4GB_va512 | HMC_4GB_va1024.
Definition org_table (o : Org) : OrgEntry :=
  match o with
  | HMC_4GB => mkOrg 32768 32 [32; 4; 2; 65536; 64]
  | HMC_8GB => mkOrg 32768 32 [32; 8; 2; 65536; 64]
  | HMC_4GB_bank16 => mkOrg 32768 32 [32; 4; 4; 32768; 64]
  | HMC_4GB_bank32 => mkOrg 32768 32 [32; 4; 8; 16384; 64]
  | HMC_4GB_bank64 => mkOrg 32768 32 [32; 4; 16; 8192; 64]
  | HMC_4GB_bank128 => mkOrg 32768 32 [32; 4; 32; 4096; 64]
  | HMC_4GB_bank256 => mkOrg 32768 32 [32; 4; 64; 2048; 64]
  | HMC_4GB_va64 => mkOrg 32768 32 [64; 4; 2; 32768; 64]
  | HMC_4GB_va128 => mkOrg 32768 32 [128; 4; 2; 16384; 64]
  | HMC_4GB_va256 => mkOrg 32768 32 [256; 4; 2; 8192; 64]
  | HMC_4GB_va512 => mkOrg 32768 32 [512; 4; 2; 4096; 64]
  | HMC_4GB_va1024 => mkOrg 32768 32 [1024; 4; 2; 2048; 64]
  end.

Inductive Speed : Type :=
  | HMC_2500 | HMC_2500_unlimit_bandwidth.
Record SpeedEntry : Type := mkSpeed {
  rate : Z;
  freq : Q;
  tCK : Q;
  nBL : Z;
  nCCDS : Z;
  nCCDL : Z;
  nRTRS : Z;
  nCL : Z;
  nRCD : Z;
  nRP : Z;
  nCWL : Z;
  nRAS : Z;
  nRC : Z;
  nRTP : Z;
  nWTRS : Z;
  nWTRL : Z;
  nWR : Z;
  nRRDS : Z;
  nRRDL : Z;
  nFAW : Z;
  nRFC : Z;
  nREFI : Z;
  nPD : Z;
  nXP : Z;
  nXPDLL : Z;
  nCKESR : Z;
  nXS : Z;
  nXSDLL : Z;
}.
Definition speed_table (x : Speed) : SpeedEntry :=
  match x with
  | HMC_2500 => mkSpeed 2500 (1250)%Q (0.8)%Q 4 4 6 2 17 17 17 13 34 51 9 3 9 19 7 8 17 200 9750 6 8 0 7 0 0
  | HMC_2500_unlimit_bandwidth => mkSpeed 2500 (1250)%Q (0.8)%Q 0 1 1 2 17 17 17 13 34 51 9 3 9 19 7 8 17 200 9750 6 8 0 7 0 0
  end.

(** ** Blocks and links *)
Inductive MaxBlock : Type := HMC_32B | HMC_64B | HMC_128B | HMC_256B.
Record MaxBlockEntry : Type := mkBlock { max_block_size : Z; flit_num_bits : Z }.
Definition maxblock_table (b : MaxBlock) : MaxBlockEntry :=
  match b with HMC_32B => mkBlock 32 5 | HMC_64B => mkBlock 64 6 | HMC_128B => mkBlock 128 7 | HMC_256B => mkBlock 256 8 end.
Inductive LinkWidth : Type := HMC_Full_Width | HMC_Half_Width | HMC_Quarter_Width.
Definition link_width_table (l : LinkWidth) : Z :=
  match l with HMC_Full_Width => 16 | HMC_Half_Width => 8 | HMC_Quarter_Width => 4 end.
Inductive LaneSpeed : Type := HMC_12_5_Gbps | HMC_15_Gbps | HMC_25_Gbps | HMC_28_Gbps | HMC_30_Gbps.
Definition lane_speed_table (l : LaneSpeed) : Q :=
  match l with
  | HMC_12_5_Gbps => 12.5 | HMC_15_Gbps => 15 | HMC_25_Gbps => 25 | HMC_28_Gbps => 28 | HMC_30_Gbps => 30
  end%Q.
Definition prefetch_size : Z := 8.
Definition channel_width : Z := 32.
Definition bytes_per_flit : Z := 16.
(** The division is of integers: the [ceil] around it has nothing to round. *)
Definition burst_count (payload_flits : Z) : Z :=
  Z.quot payload_flits (Z.quot (Z.quot (prefetch_size * channel_width) 8) bytes_per_flit).

(** ** Levels, commands, states *)
Definition start (lev : nat) : State :=
  match lev with 0%nat => PowerUp | 2%nat => Closed | 3%nat => Closed | _ => MAX end.
Definition scope (cmd : Command) : nat :=
  match cmd with
  | ACT => 3%nat | PRE => 2%nat | PREA => 0%nat
  | RD | WR | RDA | WRA => 4%nat
  | REF | PDE | PDX | SRE | SRX => 0%nat
  end.

(** ** Prerequisites *)
Definition prereq_vault_RD (node : Node) (cmd : Command) (id : Z) : result (option Command) :=
  match nd_state node with
  | PowerUp => Ok None
  | ActPowerDown => Ok (Some PDX)
  | PrePowerDown => Ok (Some PDX)
  | SelfRefresh => Ok (Some SRX)
  | _ => Err AssertFail
  end.
Definition prereq_bank_RD (node : Node) (cmd : Command) (id : Z) : result (option Command) :=
  match nd_state node with
  | Closed => Ok (Some ACT)
  | Opened => match nd_rows node !! id with Some _ => Ok (Some cmd) | None => Ok (Some PRE) end
  | _ => Err AssertFail
  end.
(** Every bank below the node is closed. *)
Definition banks_closed (node : Node) : bool := forallb (fun bg => forallb bank_closed (nd_children bg)) (nd_children node).
Definition prereq_vault_REF (node : Node) (cmd : Command) (id : Z) : result (option Command) :=
  if banks_closed node then Ok (Some REF) else Ok (Some PREA).
Definition prereq_vault_PDE (node : Node) (cmd : Command) (id : Z) : result (option Command) :=
  match nd_state node with
  | PowerUp => Ok (Some PDE)
  | ActPowerDown => Ok (Some PDE)
  | PrePowerDown => Ok (Some PDE)
  | SelfRefresh => Ok (Some SRX)
  | _ => Err AssertFail
  end.
Definition prereq_vault_SRE (node : Node) (cmd : Command) (id : Z) : result (option Command) :=
  match nd_state node with
  | PowerUp => Ok (Some SRE)
  | ActPowerDown => Ok (Some PDX)
  | PrePowerDown => Ok (Some PDX)
  | SelfRefresh => Ok (Some SRE)
  | _ => Err AssertFail
  end.
Definition prereq (lev : nat) (cmd : Command) : option (Node -> Command -> Z -> result (option Command)) :=
  match lev, cmd with
  | 0%nat, RD | 0%nat, WR => Some prereq_vault_RD
  | 2%nat, RD | 2%nat, WR => Some prereq_bank_RD
  | 0%nat, REF => Some prereq_vault_REF
  | 0%nat, PDE => Some prereq_vault_PDE
  | 0%nat, SRE => Some prereq_vault_SRE
  | _, _ => None
  end.

(** ** Row hits and open rows *)
Definition rowhit_bank_RD (node : Node) (cmd : Command) (id : Z) : result bool :=
  match nd_state node with
  | Closed => Ok false
  | Opened => match nd_rows node !! id with Some _ => Ok true | None => Ok false end
  | _ => Err AssertFail
  end.
Definition rowhit (lev : nat) (cmd : Command) : option (Node -> Command -> Z -> result bool) :=
  match lev, cmd with 2%nat, RD | 2%nat, WR => Some rowhit_bank_RD | _, _ => None end.
Definition rowopen_bank_RD (node : Node) (cmd : Command) (id : Z) : result bool :=
  match nd_state node with
  | Closed => Ok false
  | Opened => Ok true
  | _ => Err AssertFail
  end.
Definition rowopen (lev : nat) (cmd : Command) : option (Node -> Command -> Z -> result bool) :=
  match lev, cmd with 2%nat, RD | 2%nat, WR => Some rowopen_bank_RD | _, _ => None end.

(** ** State changes *)
Definition lambda (lev : nat) (cmd : Command) : option (Node -> Z -> Node) :=
  match lev, cmd with
  | 2%nat, ACT => Some (fun node id => open_row node id)
  | 2%nat, PRE => Some (fun node id => close_bank node)
  | 0%nat, PREA => Some (fun node id => map_children (map_children close_bank) node)
  | 0%nat, REF => Some (fun node id => node)
  | 2%nat, RD => Some (fun node id => node)
  | 2%nat, WR => Some (fun node id => node)
  | 2%nat, RDA => Some (fun node id => close_bank node)
  | 2%nat, WRA => Some (fun node id => close_bank node)
  | 0%nat, PDE => Some (fun node id => if banks_closed node then set_state PrePowerDown node else set_state ActPowerDown node)
  | 0%nat, PDX => Some (fun node id => set_state PowerUp node)
  | 0%nat, SRE => Some (fun node id => set_state SelfRefresh node)
  | 0%nat, SRX => Some (fun node id => set_state PowerUp node)
  | _, _ => None
  end.

(** ** Timing *)
Definition timing_vault (s : SpeedEntry) : list (Command * TimingEntry Command) := [
  (* CAS <-> CAS *)
  tim RD RD 1 (nBL s);
  tim RD RDA 1 (nBL s);
  tim RDA RD 1 (nBL s);
  tim RDA RDA 1 (nBL s);
  tim WR WR 1 (nBL s);
  tim WR WRA 1 (nBL s);
  tim WRA WR 1 (nBL s);
  tim WRA WRA 1 (nBL s);
  (* CAS <-> CAS *)
  tim RD RD 1 (nCCDS s);
  tim RD RDA 1 (nCCDS s);
  tim RDA RD 1 (nCCDS s);
  tim RDA RDA 1 (nCCDS s);
  tim WR WR 1 (nCCDS s);
  tim WR WRA 1 (nCCDS s);
  tim WRA WR 1 (nCCDS s);
  tim WRA WRA 1 (nCCDS s);
  tim RD WR 1 (nCL s + nCCDS s + 2 - nCWL s);
  tim RD WRA 1 (nCL s + nCCDS s + 2 - nCWL s);
  tim RDA WR 1 (nCL s + nCCDS s + 2 - nCWL s);
  tim RDA WRA 1 (nCL s + nCCDS s + 2 - nCWL s);
  tim WR RD 1 (nCWL s + nBL s + nWTRS s);
  tim WR RDA 1 (nCWL s + nBL s + nWTRS s);
  tim WRA RD 1 (nCWL s + nBL s + nWTRS s);
  tim WRA RDA 1 (nCWL s + nBL s + nWTRS s);
  tim RD PREA 1 (nRTP s);
  tim WR PREA 1 (nCWL s + nBL s + nWR s);
  (* CAS <-> PD *)
  tim RD PDE 1 (nCL s + nBL s + 1);
  tim RDA PDE 1 (nCL s + nBL s + 1);
  tim WR PDE 1 (nCWL s + nBL s + nWR s);
  tim WRA PDE 1 (nCWL s + nBL s + nWR s + 1);
  tim PDX RD 1 (nXP s);
  tim PDX RDA 1 (nXP s);
  tim PDX WR 1 (nXP s);
  tim PDX WRA 1 (nXP s);
  (* CAS <-> SR: none (all banks have to be precharged) *)
  (* RAS <-> RAS *)
  tim ACT ACT 1 (nRRDS s);
  tim ACT ACT 4 (nFAW s);
  tim ACT PREA 1 (nRAS s);
  tim PREA ACT 1 (nRP s);
  (* RAS <-> REF *)
  tim PRE REF 1 (nRP s);
  tim PREA REF 1 (nRP s);
  tim REF ACT 1 (nRFC s);
  (* RAS <-> PD *)
  tim ACT PDE 1 1;
  tim PDX ACT 1 (nXP s);
  tim PDX PRE 1 (nXP s);
  tim PDX PREA 1 (nXP s);
  (* RAS <-> SR *)
  tim PRE SRE 1 (nRP s);
  tim PREA SRE 1 (nRP s);
  tim SRX ACT 1 (nXS s);
  (* REF <-> REF *)
  tim REF REF 1 (nRFC s);
  (* REF <-> PD *)
  tim REF PDE 1 1;
  tim PDX REF 1 (nXP s);
  (* REF <-> SR *)
  tim SRX REF 1 (nXS s);
  (* PD <-> PD *)
  tim PDE PDX 1 (nPD s);
  tim PDX PDE 1 (nXP s);
  (* PD <-> SR *)
  tim PDX SRE 1 (nXP s);
  tim SRX PDE 1 (nXS s);
  (* SR <-> SR *)
  tim SRE SRX 1 (nCKESR s);
  tim SRX SRE 1 (nXS s)
].
Definition timing_bankgroup (s : SpeedEntry) : list (Command * TimingEntry Command) := [
  (* CAS <-> CAS *)
  tim RD RD 1 (nCCDL s);
  tim RD RDA 1 (nCCDL s);
  tim RDA RD 1 (nCCDL s);
  tim RDA RDA 1 (nCCDL s);
  tim WR WR 1 (nCCDL s);
  tim WR WRA 1 (nCCDL s);
  tim WRA WR 1 (nCCDL s);
  tim WRA WRA 1 (nCCDL s);
  tim WR RD 1 (nCWL s + nBL s + nWTRL s);
  tim WR RDA 1 (nCWL s + nBL s + nWTRL s);
  tim WRA RD 1 (nCWL s + nBL s + nWTRL s);
  tim WRA RDA 1 (nCWL s + nBL s + nWTRL s);
  (* RAS <-> RAS *)
  tim ACT ACT 1 (nRRDL s)
].
Definition timing_bank (s : SpeedEntry) : list (Command * TimingEntry Command) := [
  (* CAS <-> RAS *)
  tim ACT RD 1 (nRCD s);
  tim ACT RDA 1 (nRCD s);
  tim ACT WR 1 (nRCD s);
  tim ACT WRA 1 (nRCD s);
  tim RD PRE 1 (nRTP s);
  tim WR PRE 1 (nCWL s + nBL s + nWR s);
  tim RDA ACT 1 (nRTP s + nRP s);
  tim WRA ACT 1 (nCWL s + nBL s + nWR s + nRP s);
  (* RAS <-> RAS *)
  tim ACT ACT 1 (nRC s);
  tim ACT PRE 1 (nRAS s);
  tim PRE ACT 1 (nRP s)
].
Definition timing (s : SpeedEntry) (lev : nat) (cmd : Command) : list (TimingEntry Command) :=
  match lev with 0%nat => select (timing_vault s) cmd | 1%nat => select (timing_bankgroup s) cmd | 2%nat => select (timing_bank s) cmd | _ => [] end.

(** ** The standard *)
Definition spec (o : OrgEntry) (s : SpeedEntry) : Spec Command State := {|
  sp_start := start;
  sp_scope := scope;
  sp_prereq := prereq;
  sp_rowhit := rowhit;
  sp_rowopen := rowopen;
  sp_lambda := lambda;
  sp_timing := timing s;
  sp_count := fun lev => Z.to_nat (nth lev (count o) 0);
  sp_row := 3;
  sp_bank := 2;
  sp_opening := is_opening;
  sp_refreshing := is_refreshing;
|}.


(** ** The constructors *)
Definition org_map : list (string * Org) := [
  ("HMC_4GB"%string, HMC_4GB);
  ("HMC_8GB"%string, HMC_8GB);
  ("HMC_4GB_bank16"%string, HMC_4GB_bank16);
  ("HMC_4GB_bank32"%string, HMC_4GB_bank32);
  ("HMC_4GB_bank64"%string, HMC_4GB_bank64);
  ("HMC_4GB_bank128"%string, HMC_4GB_bank128);
  ("HMC_4GB_bank256"%string, HMC_4GB_bank256);
  ("HMC_4GB_va64"%string, HMC_4GB_va64);
  ("HMC_4GB_va128"%string, HMC_4GB_va128);
  ("HMC_4GB_va256"%string, HMC_4GB_va256);
  ("HMC_4GB_va512"%string, HMC_4GB_va512);
  ("HMC_4GB_va1024"%string, HMC_4GB_va1024)
].
Definition speed_map : list (string * Speed) := [
  ("HMC_2500_unlimit_bandwidth"%string, HMC_2500_unlimit_bandwidth)
].
Definition maxblock_map : list (string * MaxBlock) := [
  ("HMC_32B"%string, HMC_32B);
  ("HMC_64B"%string, HMC_64B);
  ("HMC_128B"%string, HMC_128B);
  ("HMC_256B"%string, HMC_256B)
].
Definition linkwidth_map : list (string * LinkWidth) := [
  ("HMC_Full_Width"%string, HMC_Full_Width);
  ("HMC_Half_Width"%string, HMC_Half_Width);
  ("HMC_Quarter_Width"%string, HMC_Quarter_Width)
].
Definition lanespeed_map : list (string * LaneSpeed) := [
  ("HMC_12.5_Gbps"%string, HMC_12_5_Gbps);
  ("HMC_15_Gbps"%string, HMC_15_Gbps);
  ("HMC_25_Gbps"%string, HMC_25_Gbps);
  ("HMC_28_Gbps"%string, HMC_28_Gbps);
  ("HMC_30_Gbps"%string, HMC_30_Gbps)
].

Record HMC : Type := mkHMC {
  org_entry : OrgEntry;
  speed_entry : SpeedEntry;
  read_latency : Z;
  write_latency : Z;
  maxblock_entry : MaxBlockEntry;
  link_width : Z;
  lane_speed : Q;
  source_links : Z;
  payload_flits : Z;
  hmc_burst_count : Z;
}.
(** [init_speed] is empty. *)
Definition HMC_new (org : Org) (speed : Speed) (maxblock : MaxBlock) (linkwidth : LinkWidth) (lanespeed : LaneSpeed)
    (source_links payload_flits : Z) : HMC :=
  let s := speed_table speed in
  mkHMC (org_table org) s (nCL s + nBL s) (nBL s) (maxblock_table maxblock) (link_width_table linkwidth)
    (lane_speed_table lanespeed) source_links payload_flits (burst_count payload_flits).
Definition HMC_of_strings (org_str speed_str maxblock_str linkwidth_str lanespeed_str : string)
    (source_links payload_flits : Z) : HMC :=
  HMC_new (map_at org_map HMC_4GB org_str) (map_at speed_map HMC_2500 speed_str)
    (map_at maxblock_map HMC_32B maxblock_str) (map_at linkwidth_map HMC_Full_Width linkwidth_str)
    (map_at lanespeed_map HMC_12_5_Gbps lanespeed_str) source_links payload_flits.

(** ** The laws of the tables *)
#[export] Instance spec_ok (o : OrgEntry) (s : SpeedEntry) : SpecOk (spec o s).
Proof.
  split; cbn [spec sp_timing sp_refreshing sp_opening sp_lambda].
  1-3: timing_laws.
  intros lev c f nd id Hf. lambda_cases Hf lev c; try match goal with |- context [banks_closed ?x] => destruct (banks_closed x) end; auto 6 with damov.
Qed.

#[export] Instance spec_banked (o : OrgEntry) (s : SpeedEntry) : Banked (spec o s) 0 2.
Proof.
  split; cbn [spec sp_row sp_scope sp_prereq sp_rowhit sp_lambda sp_start].
  - split; [lia|done].
  - intros c [-> | [-> | [-> | ->]]]; simpl; lia.
  - by intros c [-> | ->].
  - intros lev c [-> | ->]; split_level lev; reflexivity.
  - intros lev c [-> | ->]; split_level lev; reflexivity.
  - intros lev c [-> | ->]; split_level lev; reflexivity.
  - intros lev; split_level lev; reflexivity.
  - intros lev; split_level lev; reflexivity.
  - by split.
  - intros P lev c f nd id HP Hc Hf H. lambda_cases Hf lev c; try exact H; try congruence;
      try (apply states_ok_close; [lia|exact HP|assumption]);
      try match goal with |- context [banks_closed ?x] => destruct (banks_closed x) end;
      try (apply states_ok_set_state; [lia|exact H|unfold wake_state; tauto]).
    apply states_ok_children; [assumption| |lia]; intros ch Hc1; apply states_ok_children; [assumption| |lia];
        intros ch' Hc2; apply states_ok_close; [lia|exact HP|assumption].
Qed.
