(* ===== verification/DramExamples.v ===== *)
(** * Concrete DRAM channels

    A two-rank DDR3 channel, a DDR4 channel and an HMC vault, with short runs
    of commands: the theorems of [DramTiming] and [DramBanks] at concrete
    inputs. *)

From stdpp Require Import base tactics numbers list gmap sorting.
From Stdlib Require Import ZArith Lia.
From S2P Require Import Prelude Dram DramTiming DramStd DramBanks DDR3 DDR4 HMC.

Open Scope Z_scope.

(** A DDR3-1600 channel of two ranks of eight banks. *)
Definition ddr3_org : OrgEntry := DDR3.set_rank_number 2 (DDR3.set_channel_number 1 (DDR3.org_table DDR3.DDR3_2Gb_x8)).
Definition ddr3_speed : DDR3.SpeedEntry :=
  match DDR3.init_speed ddr3_org (DDR3.speed_table DDR3.DDR3_1600H) with Ok s => s | Err _ => DDR3.speed_table DDR3.DDR3_1600H end.
Definition ddr3 : Spec Command State := DDR3.spec ddr3_org ddr3_speed.

(** The address of rank, bank, row and column in channel 0. *)
Definition ddr3_addr (rank bank row : Z) : nat -> Z := fun l => nth l [0; rank; bank; row; 0] (-1).
(** Open a row, read it, and open another bank. *)
Definition ddr3_run : list (Issue Command) := [
  mkIssue ACT (ddr3_addr 0 3 5) 100;
  mkIssue ACT (ddr3_addr 0 4 7) 106;
  mkIssue RD (ddr3_addr 0 3 5) 110
].

(** Commands with concrete clocks and addresses are valid. *)
Ltac valid_address :=
  let l := fresh "l" in let Hl := fresh "Hl" in let Hc := fresh "Hc" in
  intros l Hl Hc; split_level l; first [exfalso; apply Hc; reflexivity | split; vm_compute; congruence].
Ltac valid_run := repeat (apply Forall_cons; split; [split; [vm_compute; congruence|valid_address]|]); apply Forall_nil_2.
Lemma ddr3_run_valid : Forall (valid_issue ddr3) ddr3_run.
Proof. unfold ddr3_run. valid_run. Qed.

(** One nanosecond-accurate consequence: the read waits for tRCD after the
    activation of its row (9 cycles), the next activation of the rank for tRRD. *)
Example ddr3_tRCD :
  bind_res (DRAM_run ddr3 (DRAM_init ddr3 0) [mkIssue ACT (ddr3_addr 0 3 5) 100]) (fun nd =>
    bind_res (check ddr3 nd RD (ddr3_addr 0 3 5) 108) (fun b1 =>
    bind_res (check ddr3 nd RD (ddr3_addr 0 3 5) 109) (fun b2 => Ok (b1, b2)))) = Ok (false, true).
Proof. vm_compute. reflexivity. Qed.

Lemma check_exact_witness :
  exists nd b, DRAM_run ddr3 (DRAM_init ddr3 0) ddr3_run = Ok nd /\ check ddr3 nd PRE (ddr3_addr 0 3 5) 128 = Ok b /\
    (b = true <-> forall lev, (lev <= 2)%nat -> level_exists ddr3 lev ->
       respects ddr3 lev (Z.to_nat (ddr3_addr 0 3 5 lev)) PRE 128 (reaching (ddr3_addr 0 3 5) lev (reverse ddr3_run))).
Proof.
  apply (check_exact ddr3 0 ddr3_run PRE (ddr3_addr 0 3 5) 128).
  - apply DDR3.spec_ok.
  - exact ddr3_run_valid.
  - unfold ddr3_run, newer. repeat (apply SSorted_cons; [|repeat (apply Forall_cons; split; [vm_compute; congruence|]); apply Forall_nil_2]).
    apply SSorted_nil.
  - valid_address.
  - reflexivity.
  - lia.
Defined.

Lemma get_next_earliest_witness :
  exists nd g, DRAM_run ddr3 (DRAM_init ddr3 0) ddr3_run = Ok nd /\ get_next ddr3 nd PRE (ddr3_addr 0 3 5) = Ok g /\
    forall clk, 0 <= clk -> nd_cur nd <= clk -> (check ddr3 nd PRE (ddr3_addr 0 3 5) clk = Ok true <-> g <= clk).
Proof.
  apply (get_next_earliest ddr3 0 ddr3_run PRE (ddr3_addr 0 3 5)).
  - apply DDR3.spec_ok.
  - exact ddr3_run_valid.
  - valid_address.
  - reflexivity.
Defined.

(** A read of another row of bank 3 closes the open one and opens its own. *)
Lemma row_access_protocol_witness :
  exists nd ds nd' wake, DRAM_run ddr3 (DRAM_init ddr3 0) ddr3_run = Ok nd /\
    open_for ddr3 3 nd RD (ddr3_addr 0 3 9) (fun k => 200 - 10 * Z.of_nat (Nat.min k 3)) = Ok (ds, nd') /\
    (wake = PDX \/ wake = SRX) /\ ds `sublist_of` [wake; PRE; ACT] /\
    decode ddr3 nd' RD (ddr3_addr 0 3 9) = Ok RD /\ check_row_hit ddr3 nd' RD (ddr3_addr 0 3 9) = Ok true.
Proof.
  apply (row_access_protocol ddr3 1 2 0 ddr3_run RD (ddr3_addr 0 3 9) (fun k => 200 - 10 * Z.of_nat (Nat.min k 3))).
  - apply DDR3.spec_ok.
  - apply DDR3.spec_banked.
  - exact ddr3_run_valid.
  - intros l Hl. split_level l; [split; vm_compute; congruence|split; vm_compute; congruence|lia..].
  - by left.
  - intros k. lia.
Defined.

Lemma one_open_row_witness :
  exists nd b, DRAM_run ddr3 (DRAM_init ddr3 0) ddr3_run = Ok nd /\ node_at 2 nd (ddr3_addr 0 3 5) = Some b /\
    ((nd_state b = Closed /\ nd_rows b = ∅) \/ (nd_state b = Opened /\ exists row s, nd_rows b = {[row := s]})).
Proof.
  apply (one_open_row ddr3 1 2 0 ddr3_run (ddr3_addr 0 3 5)).
  - apply DDR3.spec_ok.
  - apply DDR3.spec_banked.
  - exact ddr3_run_valid.
  - assert (forall r b row, 0 <= r < 2 -> 0 <= b < 8 -> bank_addr ddr3 2 (ddr3_addr r b row)) as Hba.
    { intros r b row Hr Hb l Hl. split_level l; [exact Hr|exact Hb|lia..]. }
    assert (decode ddr3 (DRAM_init ddr3 0) RD (ddr3_addr 0 3 5) = Ok ACT) as H0 by (vm_compute; reflexivity).
    assert (bind_res (update ddr3 (DRAM_init ddr3 0) ACT (ddr3_addr 0 3 5) 100)
              (fun nd => decode ddr3 nd RD (ddr3_addr 0 4 7)) = Ok ACT) as H1 by (vm_compute; reflexivity).
    split; [intros _; split; [apply Hba; lia|exact H0]|].
    intros nd1 Hu1. cbn [is_cmd is_addr is_clk] in Hu1. rewrite Hu1 in H1. split; [intros _; split; [apply Hba; lia|exact H1]|].
    intros nd2 _. split; [discriminate|]. by intros.
  - intros l Hl. split_level l; [split; vm_compute; congruence|split; vm_compute; congruence|lia..].
Defined.
