(* ===== verification/Scheduler.v ===== *)
(** * Requests, row table, request scheduler and row policy (Request.h, Scheduler.h)

    The row table remembers which rows the controller has opened; the scheduler
    picks the request to serve from a queue; the row policy picks a row to
    close when there is nothing else to do.  What they ask the controller
    (ready, row hit, row open) are parameters here: Controller.v supplies them. *)

From stdpp Require Import base tactics numbers list gmap sorting.
From Stdlib Require Import ZArith Lia.
From S2P Require Import Prelude Dram.

Open Scope Z_scope.

(** ** Requests *)
Inductive ReqType : Type := READ | WRITE | REFRESH | POWERDOWN | SELFREFRESH | EXTENSION.
#[export] Instance ReqType_eq_dec : EqDecision ReqType.
Proof. solve_decision. Defined.

(** The fields of [Request] that the controllers read; [callback] is the
    observable completion of the request, and [arrive_hmc], [depart_hmc] and
    [hops] belong to the HMC network. *)
Record Request : Type := mkRequest {
  is_first_command : bool;
  addr : Z;
  addr_vec : list Z;
  reqid : Z;
  coreid : Z;
  type : ReqType;
  arrive : Z;
  depart : Z;
  burst_count : Z;
}.
#[export] Instance Request_eq_dec : EqDecision Request.
Proof. solve_decision. Defined.
Definition with_arrive (a : Z) (r : Request) : Request :=
  mkRequest (is_first_command r) (addr r) (addr_vec r) (reqid r) (coreid r) (type r) a (depart r) (burst_count r).
Definition with_depart (d : Z) (r : Request) : Request :=
  mkRequest (is_first_command r) (addr r) (addr_vec r) (reqid r) (coreid r) (type r) (arrive r) d (burst_count r).
Definition not_first (r : Request) : Request :=
  mkRequest false (addr r) (addr_vec r) (reqid r) (coreid r) (type r) (arrive r) (depart r) (burst_count r).

(** ** The row table *)
Record RowEntry : Type := mkRow { row : Z; hits : Z; timestamp : Z }.
Abbreviation RowTable := (gmap (list Z) RowEntry).

(** [std::equal(begin, begin + n, key)]: reading past the end of the key is an error. *)
Fixpoint equal_range (l key : list Z) : result bool :=
  match l, key with
  | [], _ => Ok true
  | x :: l, y :: key => if decide (x = y) then equal_range l key else Ok false
  | _ :: _, [] => Err Panicked
  end.
(** Whether some key of the table cannot be compared. *)
Definition range_error (pre : list Z) (t : RowTable) : bool :=
  existsb (fun kv => negb (is_ok (equal_range pre kv.1))) (map_to_list t).
Definition in_range (pre key : list Z) : bool := match equal_range pre key with Ok b => b | Err _ => false end.

Section RowTable.
(** [T::Level::Row] and what [update] reads of the standard. *)
Context {C : Type} (row_level : nat) (scope : C -> nat) (is_opening is_accessing is_closing : C -> bool).

Definition rowgroup (v : list Z) : list Z := take row_level v.

(** Opening: [insert] keeps an entry that is there. *)
Definition table_open (v : list Z) (r clk : Z) (t : RowTable) : RowTable :=
  match t !! rowgroup v with Some _ => t | None => <[rowgroup v := mkRow r 0 clk]> t end.
Definition table_access (v : list Z) (r clk : Z) (t : RowTable) : result RowTable :=
  match t !! rowgroup v with
  | Some e => if decide (row e = r) then Ok (<[rowgroup v := mkRow (row e) (hits e + 1) clk]> t) else Err AssertFail
  | None => Err AssertFail
  end.
Definition table_close (cmd : C) (v : list Z) (t : RowTable) : result RowTable :=
  let pre := take (scope cmd + 1) v in
  if range_error pre t then Err Panicked
  else
    let t' : RowTable := filter (fun kv => in_range pre kv.1 = false) t in
    if decide (size t' < size t)%nat then Ok t' else Err AssertFail.

Definition RowTable_update (cmd : C) (v : list Z) (clk : Z) (t : RowTable) : result RowTable :=
  match v !! row_level with
  | None => Err Panicked
  | Some r =>
      let t := if is_opening cmd then table_open v r clk t else t in
      bind_res (if is_accessing cmd then table_access v r clk t else Ok t) (fun t =>
      if is_closing cmd then table_close cmd v t else Ok t)
  end.

(** [get_hits]: the lookup with [table[rowgroup]] inserts an entry of zeros
    when there is none. *)
Definition get_hits (v : list Z) : st RowTable Z := fun t =>
  match v !! row_level with
  | None => Err Panicked
  | Some r =>
      match t !! rowgroup v with
      | None => Ok (0, <[rowgroup v := mkRow 0 0 0]> t)
      | Some e => Ok (if decide (row e = r) then hits e else 0, t)
      end
  end.
End RowTable.

(** ** The scheduler *)
Inductive SchedType : Type := FCFS | FRFCFS | FRFCFS_Cap | FRFCFS_PriorHit.
#[export] Instance SchedType_eq_dec : EqDecision SchedType.
Proof. solve_decision. Defined.

Section Scheduler.
Variable is_ready is_row_hit is_row_open : Request -> result bool.
Variable hits_of : list Z -> st RowTable Z.
Variable cap : Z.
Variable pre_scope : nat.          (* spec->scope[PRE] *)

Definition older (r1 r2 : Request) : bool := arrive r1 <=? arrive r2.
(** The choice between two requests, given which of them is preferred. *)
Definition prefer (ready1 ready2 : bool) (r1 r2 : Request) : bool :=
  if xorb ready1 ready2 then ready1 else older r1 r2.

Definition ready_hit (r : Request) : result bool :=
  bind_res (is_ready r) (fun b => if b : bool then is_row_hit r else Ok false).

(** [compare[type](req1, req2)]: whether it returns the first. *)
Definition compare (ty : SchedType) (r1 r2 : Request) : st RowTable bool :=
  match ty with
  | FCFS => mret (older r1 r2)
  | FRFCFS => b1 ← lift (is_ready r1); b2 ← lift (is_ready r2); mret (prefer b1 b2 r1 r2)
  | FRFCFS_Cap =>
      b1 ← lift (is_ready r1); b2 ← lift (is_ready r2);
      c1 ← (if b1 : bool then h ← hits_of (addr_vec r1); mret (bool_decide (h <= cap)) else mret false);
      c2 ← (if b2 : bool then h ← hits_of (addr_vec r2); mret (bool_decide (h <= cap)) else mret false);
      mret (prefer c1 c2 r1 r2)
  | FRFCFS_PriorHit => b1 ← lift (ready_hit r1); b2 ← lift (ready_hit r2); mret (prefer b1 b2 r1 r2)
  end.

(** The loop over the queue: positions stand for iterators. *)
Fixpoint best (ty : SchedType) (head : nat * Request) (i : nat) (q : list Request) : st RowTable (nat * Request) :=
  match q with
  | [] => mret head
  | r :: q =>
      b ← compare ty head.2 r;
      best ty (if b : bool then head else (i, r)) (S i) q
  end.

(** The row groups of the row hits in the queue. *)
Fixpoint hit_groups (q : list Request) : result (list (list Z)) :=
  match q with
  | [] => Ok []
  | r :: q =>
      bind_res (is_row_hit r) (fun h => bind_res (hit_groups q) (fun l =>
      Ok (if h : bool then take (pre_scope + 1) (addr_vec r) :: l else l)))
  end.
(** Serving the request would close a row that another request hits. *)
Definition violates (groups : list (list Z)) (r : Request) : result bool :=
  bind_res (is_row_hit r) (fun h =>
    if h : bool then Ok false
    else bind_res (is_row_open r) (fun o =>
      Ok (if o : bool then existsb (fun g => bool_decide (take (pre_scope + 1) (addr_vec r) = g)) groups else false))).
Fixpoint best_harmless (groups : list (list Z)) (head : option (nat * Request)) (i : nat) (q : list Request)
    : st RowTable (option (nat * Request)) :=
  match q with
  | [] => mret head
  | r :: q =>
      bad ← lift (violates groups r);
      if bad : bool then best_harmless groups head (S i) q
      else match head with
           | None => best_harmless groups (Some (i, r)) (S i) q
           | Some h => b ← compare FRFCFS h.2 r; best_harmless groups (Some (if b : bool then h else (i, r))) (S i) q
           end
  end.

(** [get_head]: the position of the chosen request, [None] for [q.end()]. *)
Definition get_head (ty : SchedType) (q : list Request) : st RowTable (option nat) :=
  match q with
  | [] => mret None
  | r :: q' =>
      head ← best ty (0%nat, r) 1 q';
      match ty with
      | FRFCFS_PriorHit =>
          b ← lift (ready_hit head.2);
          if b : bool then mret (Some head.1)
          else
            groups ← lift (hit_groups q);
            h ← best_harmless groups None 0 q;
            mret (fst <$> h)
      | _ => mret (Some head.1)
      end
  end.
End Scheduler.

(** ** The row policy *)
Inductive RowPolicyType : Type := PClosed | POpened | PTimeout.

(** Lexicographic order of the keys of the row table, the order of [std::map]. *)
Fixpoint lex_le (l1 l2 : list Z) : bool :=
  match l1, l2 with
  | [], _ => true
  | _ :: _, [] => false
  | x :: l1, y :: l2 => if x <? y then true else if x =? y then lex_le l1 l2 else false
  end.
Definition key_le (p q : list Z * RowEntry) : Prop := lex_le p.1 q.1 = true.
#[export] Instance key_le_dec : RelDecision key_le := fun p q => decide (lex_le p.1 q.1 = true).
Definition in_order (t : RowTable) : list (list Z * RowEntry) := merge_sort key_le (map_to_list t).

Fixpoint first_ready (ready : list Z -> result bool) (idle : RowEntry -> bool) (l : list (list Z * RowEntry)) : result (list Z) :=
  match l with
  | [] => Ok []
  | (k, e) :: l =>
      if idle e then bind_res (ready k) (fun b => if b : bool then Ok k else first_ready ready idle l)
      else first_ready ready idle l
  end.
(** [get_victim(cmd)]: the key of a row to close, empty for none. *)
Definition get_victim (ty : RowPolicyType) (timeout clk : Z) (ready : list Z -> result bool) (t : RowTable) : result (list Z) :=
  match ty with
  | PClosed => first_ready ready (fun _ => true) (in_order t)
  | POpened => Ok []
  | PTimeout => first_ready ready (fun e => negb (clk - timestamp e <? timeout)) (in_order t)
  end.

(** ** The scheduler's choice *)
Section SchedulerSpec.
Variable is_ready is_row_hit is_row_open : Request -> result bool.
Variable hits_of : list Z -> st RowTable Z.
Variable cap : Z.
Variable pre_scope : nat.
Abbreviation compare := (compare is_ready is_row_hit hits_of cap).
Abbreviation best := (best is_ready is_row_hit hits_of cap).

(** The order of preference: those with [p] first, then by arrival, then by position. *)
Definition beats (p : Request -> bool) (x y : nat * Request) : Prop :=
  (p x.2 = true /\ p y.2 = false) \/
  (p x.2 = p y.2 /\ (arrive x.2 < arrive y.2 \/ (arrive x.2 = arrive y.2 /\ (x.1 <= y.1)%nat))).

Lemma beats_trans p x y z : beats p x y -> beats p y z -> beats p x z.
Proof. unfold beats. intros [[H1 H2]|[H1 H2]] [[H3 H4]|[H3 H4]]; try (left; split; congruence); right; split; try congruence; lia. Qed.
Lemma beats_refl p x : beats p x x.
Proof. right. split; [done|]. right. split; [done|]. lia. Qed.

(** A comparison that follows the preference [p]. *)
Definition follows (ty : SchedType) (p : Request -> bool) (q : list Request) : Prop :=
  forall r1 r2 t, r1 ∈ q -> r2 ∈ q -> compare ty r1 r2 t = Ok (prefer (p r1) (p r2) r1 r2, t).

Lemma prefer_beats p i j r1 r2 : (i < j)%nat ->
  if prefer (p r1) (p r2) r1 r2 then beats p (i, r1) (j, r2) else beats p (j, r2) (i, r1).
Proof.
  intros Hij. unfold prefer, older, beats. destruct (p r1) eqn:H1, (p r2) eqn:H2; simpl.
  - destruct (Z.leb_spec (arrive r1) (arrive r2)); right; (split; [congruence|lia]).
  - by left.
  - by left.
  - destruct (Z.leb_spec (arrive r1) (arrive r2)); right; (split; [congruence|lia]).
Qed.

Lemma best_spec ty p q0 q i h t :
  follows ty p (h.2 :: q0) -> (h.1 < i)%nat -> q ⊆ q0 ->
  exists x, best ty h i q t = Ok (x, t) /\ (x = h \/ exists k r, q !! k = Some r /\ x = ((i + k)%nat, r)) /\
    beats p x h /\ forall k r, q !! k = Some r -> beats p x ((i + k)%nat, r).
Proof.
  revert i h. induction q as [|r q IH]; intros i h Hf Hi Hsub; cbn [best mret st_ret].
  { exists h. split; [done|]. split; [by left|]. split; [apply beats_refl|]. by intros k r0. }
  assert (r ∈ q0) as Hr by (apply Hsub; by left).
  assert (compare ty h.2 r t = Ok (prefer (p h.2) (p r) h.2 r, t)) as Hc by (apply Hf; [by left|by right]).
  unfold mbind, st_bind. rewrite Hc.
  pose proof (prefer_beats p h.1 i h.2 r Hi) as Hpb. destruct h as [hi hr]. simpl in *.
  destruct (prefer (p hr) (p r) hr r).
  - destruct (IH (S i) (hi, hr)) as (x & Hx & Hin & Hb & Hall); [done|simpl; lia|intros y Hy; apply Hsub; by right|].
    exists x. split; [done|]. split; [destruct Hin as [->|(k & y & Hk & ->)]; [by left|]|split; [done|]].
    + right. exists (S k), y. split; [done|]. f_equal. lia.
    + intros [|k] y Hk; simpl in Hk.
      * injection Hk as <-. rewrite Nat.add_0_r. by eapply beats_trans.
      * replace (i + S k)%nat with (S i + k)%nat by lia. by apply Hall.
  - destruct (IH (S i) (i, r)) as (x & Hx & Hin & Hb & Hall); [|simpl; lia|intros y Hy; apply Hsub; by right|].
    { intros r1 r2 t0 H1 H2. simpl in *. apply Hf; right; [apply elem_of_cons in H1 as [-> |]|apply elem_of_cons in H2 as [-> |]]; done. }
    exists x. split; [done|]. split; [|split].
    + right. destruct Hin as [->|(k & y & Hk & ->)]; [exists 0%nat, r; split; [done|]; f_equal; lia|].
      exists (S k), y. split; [done|]. f_equal. lia.
    + by eapply beats_trans.
    + intros [|k] y Hk; simpl in Hk.
      * injection Hk as <-. by rewrite Nat.add_0_r.
      * replace (i + S k)%nat with (S i + k)%nat by lia. by apply Hall.
Qed.

(** The best of a whole queue. *)
Lemma best_queue ty p r q t :
  follows ty p (r :: q) ->
  exists i x, best ty (0%nat, r) 1 q t = Ok ((i, x), t) /\ (r :: q) !! i = Some x /\
    forall j y, (r :: q) !! j = Some y -> beats p (i, x) (j, y).
Proof.
  intros Hf. destruct (best_spec ty p q q 1 (0%nat, r) t Hf) as ([i x] & Hx & Hin & Hb & Hall); [simpl; lia|done|].
  exists i, x. split; [done|]. split.
  - destruct Hin as [[= -> ->]|(k & y & Hk & [= -> ->])]; [done|]. exact Hk.
  - intros [|j] y Hj; simpl in Hj; [injection Hj as <-; exact Hb|]. apply (Hall j y Hj).
Qed.

(** What the controller answers, when it answers. *)
Variable rdy hit opn : Request -> bool.
Definition answers (q : list Request) : Prop :=
  forall r, r ∈ q -> is_ready r = Ok (rdy r) /\ is_row_hit r = Ok (hit r) /\ is_row_open r = Ok (opn r).

Lemma follows_FCFS q : follows FCFS (fun _ => false) q.
Proof. by intros r1 r2 t _ _. Qed.
Lemma follows_FRFCFS q : answers q -> follows FRFCFS rdy q.
Proof.
  intros Ha r1 r2 t H1 H2. unfold Scheduler.compare, mbind, st_bind, lift.
  destruct (Ha r1 H1) as (-> & _), (Ha r2 H2) as (-> & _). done.
Qed.
Lemma ready_hit_answers q r : answers q -> r ∈ q -> ready_hit is_ready is_row_hit r = Ok (rdy r && hit r).
Proof.
  intros Ha Hr. unfold ready_hit. destruct (Ha r Hr) as (-> & -> & _). simpl. by destruct (rdy r).
Qed.
Lemma follows_PriorHit q : answers q -> follows FRFCFS_PriorHit (fun r => rdy r && hit r) q.
Proof.
  intros Ha r1 r2 t H1 H2. unfold Scheduler.compare, mbind, st_bind, lift.
  by rewrite (ready_hit_answers q r1 Ha H1), (ready_hit_answers q r2 Ha H2).
Qed.

(** The row groups that some request of the queue hits, and the requests that would close one. *)
Definition group_of (r : Request) : list Z := take (pre_scope + 1) (addr_vec r).
Definition closes_hit (q : list Request) (r : Request) : Prop :=
  hit r = false /\ opn r = true /\ exists r', r' ∈ q /\ hit r' = true /\ group_of r' = group_of r.

Lemma hit_groups_spec q : answers q ->
  exists l, hit_groups is_row_hit pre_scope q = Ok l /\ forall g, g ∈ l <-> exists r, r ∈ q /\ hit r = true /\ group_of r = g.
Proof.
  induction q as [|r q IH]; intros Ha; simpl.
  { exists []. split; [done|]. intros g. split; [by intros ?%not_elem_of_nil|]. by intros (r & ?%not_elem_of_nil & _). }
  destruct (Ha r ltac:(by left)) as (_ & -> & _). simpl. destruct IH as (l & -> & Hl); [intros y Hy; apply Ha; by right|].
  simpl. eexists; split; [done|]. intros g. destruct (hit r) eqn:Hh; simpl.
  - rewrite elem_of_cons, Hl. split.
    + intros [-> |(y & Hy & ?)]; [exists r; split; [by left|by split]|exists y; split; [by right|done]].
    + intros (y & [-> | Hy]%elem_of_cons & Hhy & Hg); [by left|right; by exists y].
  - rewrite Hl. split; [intros (y & Hy & ?); exists y; split; [by right|done]|].
    intros (y & [-> | Hy]%elem_of_cons & Hhy & Hg); [congruence|by exists y].
Qed.

Lemma violates_spec q0 q l r : answers q0 -> r ∈ q0 ->
  (forall g, g ∈ l <-> exists r, r ∈ q /\ hit r = true /\ group_of r = g) ->
  exists b, violates is_row_hit is_row_open pre_scope l r = Ok b /\ (b = true <-> closes_hit q r).
Proof.
  intros Ha Hr Hl. unfold violates. destruct (Ha r Hr) as (_ & -> & ->). simpl. unfold closes_hit.
  destruct (hit r) eqn:Hh; simpl; [exists false; split; [done|]; split; [done|by intros []]|].
  destruct (opn r) eqn:Ho; simpl; [|exists false; split; [done|]; split; [done|by intros (_ & ? & _)]].
  eexists; split; [done|]. rewrite existsb_exists. split.
  - intros (g & Hg & He). apply list_elem_of_In in Hg. apply bool_decide_eq_true in He.
    split; [done|]. split; [done|]. apply Hl in Hg as (r' & Hr' & Hh' & Hgr). exists r'. by rewrite Hgr.
  - intros (_ & _ & r' & Hr' & Hh' & Hg). exists (group_of r). split; [apply list_elem_of_In, Hl; by exists r'|].
    by apply bool_decide_eq_true.
Qed.

Lemma best_harmless_spec q0 qall l head i q t :
  answers q0 -> q ⊆ q0 -> (forall g, g ∈ l <-> exists r, r ∈ qall /\ hit r = true /\ group_of r = g) ->
  (forall h, head = Some h -> h.2 ∈ q0 /\ (h.1 < i)%nat) ->
  exists x, best_harmless is_ready is_row_hit is_row_open hits_of cap pre_scope l head i q t = Ok (x, t) /\
    match x with
    | None => head = None /\ forall k r, q !! k = Some r -> closes_hit qall r
    | Some x =>
        (head = Some x \/ exists k r, q !! k = Some r /\ ~ closes_hit qall r /\ x = ((i + k)%nat, r)) /\
        (forall h, head = Some h -> beats rdy x h) /\
        forall k r, q !! k = Some r -> ~ closes_hit qall r -> beats rdy x ((i + k)%nat, r)
    end.
Proof.
  intros Ha. revert head i. induction q as [|r q IH]; intros head i Hsub Hl Hh; cbn [best_harmless].
  { exists head. split; [done|]. destruct head as [h|]; [|by split]. split; [by left|]. split; [|by intros k r].
    intros h' [= <-]. apply beats_refl. }
  assert (r ∈ q0) as Hr by (apply Hsub; by left).
  assert (q ⊆ q0) as Hsub' by (intros y Hy; apply Hsub; by right).
  destruct (violates_spec q0 qall l r Ha Hr Hl) as (b & Hv & Hb). unfold mbind at 1, st_bind at 1, lift at 1. rewrite Hv.
  (* the rest of the queue, with the head chosen so far *)
  assert (forall hd, (forall h, hd = Some h -> h.2 ∈ q0 /\ (h.1 < S i)%nat) ->
    (forall h, head = Some h -> exists h', hd = Some h' /\ beats rdy h' h) ->
    (closes_hit qall r -> hd = head) ->
    (~ closes_hit qall r -> exists h', hd = Some h' /\ beats rdy h' (i, r) /\ (head = Some h' \/ h' = (i, r))) ->
    exists x, best_harmless is_ready is_row_hit is_row_open hits_of cap pre_scope l hd (S i) q t = Ok (x, t) /\
      match x with
      | None => head = None /\ forall k y, (r :: q) !! k = Some y -> closes_hit qall y
      | Some x =>
          (head = Some x \/ exists k y, (r :: q) !! k = Some y /\ ~ closes_hit qall y /\ x = ((i + k)%nat, y)) /\
          (forall h, head = Some h -> beats rdy x h) /\
          forall k y, (r :: q) !! k = Some y -> ~ closes_hit qall y -> beats rdy x ((i + k)%nat, y)
      end) as Hrest.
  { intros hd Hhd Hhead Hbad Hgood. destruct (IH hd (S i) Hsub' Hl Hhd) as (x & Hx & Hspec).
    exists x. split; [exact Hx|]. destruct x as [x|].
    - destruct Hspec as (Hin & Hbt & Hall). split; [|split].
      + destruct Hin as [Hin|(k & y & Hk & Hny & ->)].
        * destruct (decide (hd = head)) as [->|Hne]; [by left|]. destruct b.
          { exfalso. apply Hne, Hbad, Hb. done. }
          assert (~ closes_hit qall r) as Hng by (intros Hc; by apply Hb in Hc).
          destruct (Hgood Hng) as (h' & Hh' & _ & [Hhh| ->]); [congruence|].
          right. exists 0%nat, r. split; [done|]. split; [exact Hng|]. rewrite Nat.add_0_r. congruence.
        * right. exists (S k), y. split; [done|]. split; [done|]. f_equal. lia.
      + intros h Hhd'. destruct (Hhead h Hhd') as (h' & Hh' & Hb1). eapply beats_trans; [by apply Hbt|exact Hb1].
      + intros [|k] y Hk Hny; simpl in Hk.
        * injection Hk as <-. rewrite Nat.add_0_r. destruct (Hgood Hny) as (h' & Hh' & Hb1 & _).
          eapply beats_trans; [by apply Hbt|exact Hb1].
        * replace (i + S k)%nat with (S i + k)%nat by lia. by apply Hall.
    - destruct Hspec as (-> & Hall). destruct head as [h|].
      { destruct (Hhead h eq_refl) as (h' & ? & _). discriminate. }
      split; [done|]. intros [|k] y Hk; simpl in Hk; [|by apply (Hall k)]. injection Hk as <-. destruct b; [by apply Hb|].
      destruct (Hgood ltac:(intros Hc; by apply Hb in Hc)) as (h' & ? & _). discriminate. }
  destruct b.
  - apply Hrest; [intros h Hx; destruct (Hh h Hx); split; [done|lia]|intros h ->; eexists; split; [done|apply beats_refl]|done|].
    intros Hn. exfalso. by apply Hn, Hb.
  - assert (~ closes_hit qall r) as Hng by (intros Hc; by apply Hb in Hc).
    destruct head as [h|].
    + destruct (Hh h eq_refl) as [Hhq Hhi].
      pose proof (follows_FRFCFS q0 Ha h.2 r t Hhq Hr) as Hcmp. unfold mbind, st_bind. rewrite Hcmp.
      pose proof (prefer_beats rdy h.1 i h.2 r Hhi) as Hpb. destruct h as [hi hr]; simpl in *.
      destruct (prefer (rdy hr) (rdy r) hr r); apply Hrest.
      * intros h [= <-]. split; [done|simpl; lia].
      * intros h [= <-]. eexists; split; [done|apply beats_refl].
      * done.
      * intros _. eexists; split; [done|]. split; [exact Hpb|by left].
      * intros h [= <-]. split; [done|simpl; lia].
      * intros h [= <-]. by eexists.
      * by intros ?%Hng.
      * intros _. eexists; split; [done|]. split; [apply beats_refl|by right].
    + apply Hrest; [intros h [= <-]; split; [done|simpl; lia]|done|by intros ?%Hng|].
      intros _. eexists; split; [done|]. split; [apply beats_refl|by right].
Qed.

(** The choice is total, and it is made whenever there is a request: a request
    that hits its row never closes a row. *)
Lemma get_head_total ty q t :
  answers q -> ty <> FRFCFS_Cap ->
  exists h, get_head is_ready is_row_hit is_row_open hits_of cap pre_scope ty q t = Ok (h, t) /\
    match h with Some i => (i < length q)%nat | None => q = [] end.
Proof.
  intros Ha Hty. destruct q as [|r0 q]; [by exists None|]. cbn [get_head].
  assert (exists p, follows ty p (r0 :: q)) as [p Hf].
  { destruct ty; [eexists; apply follows_FCFS|eexists; by apply follows_FRFCFS|done|eexists; by apply follows_PriorHit]. }
  destruct (best_queue ty p r0 q t Hf) as (i & x & Hb & Hi & _). unfold mbind at 1, st_bind at 1. rewrite Hb.
  assert (i < length (r0 :: q))%nat as Hlt by (by eapply lookup_lt_Some).
  destruct ty; try (by exists (Some i)). cbn [fst snd].
  assert (x ∈ r0 :: q) as Hx by (by eapply list_elem_of_lookup_2).
  unfold mbind at 1, st_bind at 1, lift at 1. rewrite (ready_hit_answers _ _ Ha Hx).
  destruct (rdy x && hit x); [by exists (Some i)|].
  destruct (hit_groups_spec _ Ha) as (l & Hl & Hgl).
  destruct (best_harmless_spec (r0 :: q) (r0 :: q) l None 0 (r0 :: q) t Ha) as (h & Hh & Hspec); [done|exact Hgl|done|].
  unfold mbind at 1, st_bind at 1, lift at 1. rewrite Hl. unfold mbind, st_bind. rewrite Hh. eexists; split; [done|].
  destruct h as [[j y]|]; simpl.
  - destruct Hspec as ([?|(k & z & Hk & _ & [= -> ->])] & _ & _); [done|]. exact (lookup_lt_Some _ _ _ Hk).
  - destruct Hspec as [_ Hall]. exfalso.
    assert (closes_hit (r0 :: q) r0) as (_ & _ & r' & Hr' & Hhit & _) by (by apply (Hall 0%nat)).
    apply list_elem_of_lookup in Hr' as [k Hk]. destruct (Hall k r' Hk) as (Hmiss & _). congruence.
Qed.
End SchedulerSpec.

(** ** Properties *)

(** First-come-first-served takes the oldest request, and first-ready takes
    the oldest of the ready requests, or of all if none is ready; between
    requests of the same age the one queued first.  The choice is made for
    every non-empty queue and leaves the row table alone. *)
Theorem get_head_oldest (is_ready is_row_hit is_row_open : Request -> result bool) (hits_of : list Z -> st RowTable Z)
    (cap : Z) (pre_scope : nat) (rdy hit opn : Request -> bool) (ty : SchedType) (q : list Request) (t : RowTable) :
  answers is_ready is_row_hit is_row_open rdy hit opn q -> ty = FCFS \/ ty = FRFCFS -> q <> [] ->
  exists i r, get_head is_ready is_row_hit is_row_open hits_of cap pre_scope ty q t = Ok (Some i, t) /\ q !! i = Some r /\
    forall j y, q !! j = Some y -> beats (if decide (ty = FCFS) then fun _ => false else rdy) (i, r) (j, y).
Proof.
  intros Ha Hty Hq. destruct q as [|r q]; [done|].
  assert (follows is_ready is_row_hit hits_of cap ty (if decide (ty = FCFS) then fun _ => false else rdy) (r :: q)) as Hf.
  { destruct Hty as [-> | ->]; simpl; [apply follows_FCFS|by eapply follows_FRFCFS]. }
  destruct (best_queue _ _ _ _ _ _ _ _ t Hf) as (i & x & Hb & Hi & Hall). exists i, x.
  split; [|by split]. cbn [get_head]. unfold mbind, st_bind. rewrite Hb. by destruct Hty as [-> | ->].
Qed.

(** the default policy serves the oldest ready request that hits its row.
    If there is none it serves, first-ready, one of the requests that do not
    close a row which a queued request still hits; it answers nothing only if
    every request would. *)
Theorem get_head_prior_hit (is_ready is_row_hit is_row_open : Request -> result bool) (hits_of : list Z -> st RowTable Z)
    (cap : Z) (pre_scope : nat) (rdy hit opn : Request -> bool) (q : list Request) (t : RowTable) :
  answers is_ready is_row_hit is_row_open rdy hit opn q ->
  exists h, get_head is_ready is_row_hit is_row_open hits_of cap pre_scope FRFCFS_PriorHit q t = Ok (h, t) /\
    match h with
    | Some i => exists r, q !! i = Some r /\
        ((rdy r = true /\ hit r = true /\ forall j y, q !! j = Some y -> beats (fun r => rdy r && hit r) (i, r) (j, y)) \/
         ((forall y, y ∈ q -> rdy y = true -> hit y = false) /\ ~ closes_hit pre_scope hit opn q r /\
          forall j y, q !! j = Some y -> ~ closes_hit pre_scope hit opn q y -> beats rdy (i, r) (j, y)))
    | None => forall y, y ∈ q -> closes_hit pre_scope hit opn q y
    end.
Proof.
  intros Ha. destruct q as [|r0 q]; [exists None; split; [done|]; by intros y ?%not_elem_of_nil|].
  pose proof (follows_PriorHit is_ready is_row_hit is_row_open hits_of cap _ _ _ _ Ha) as Hf.
  destruct (best_queue _ _ _ _ _ _ _ _ t Hf) as (i & x & Hb & Hi & Hall).
  assert (x ∈ r0 :: q) as Hx by (by eapply list_elem_of_lookup_2).
  cbn [get_head]. unfold mbind at 1, st_bind at 1. rewrite Hb. cbn [snd fst].
  unfold mbind at 1, st_bind at 1, lift at 1. rewrite (ready_hit_answers _ _ _ _ _ _ _ _ Ha Hx).
  destruct (rdy x && hit x) eqn:Hrh.
  - apply andb_true_iff in Hrh as [Hr Hh]. exists (Some i). split; [done|]. exists x. split; [done|]. left. by split.
  - destruct (hit_groups_spec _ _ _ pre_scope rdy hit opn (r0 :: q) Ha) as (l & Hl & Hgl).
    destruct (best_harmless_spec _ _ _ hits_of cap pre_scope rdy hit opn (r0 :: q) (r0 :: q) l None 0 (r0 :: q) t Ha)
      as (h & Hh & Hspec); [done|exact Hgl|done|].
    unfold mbind at 1, st_bind at 1, lift at 1. rewrite Hl. unfold mbind, st_bind. rewrite Hh. eexists; split; [done|].
    destruct h as [[j y]|]; simpl.
    + destruct Hspec as ([?|(k & z & Hk & Hnz & [= -> ->])] & _ & Hbest); [done|]. exists z. split; [done|]. right.
      split; [|split; [done|]].
      * intros y Hy Hry. apply list_elem_of_lookup in Hy as [k' Hk']. pose proof (Hall k' y Hk') as Hbt.
        destruct (hit y) eqn:Hhy; [|done]. exfalso.
        destruct Hbt as [[Hb1 _]|[Hb1 _]]; simpl in Hb1; [congruence|]. rewrite Hry, Hhy in Hb1. simpl in Hb1. congruence.
      * intros j y Hj Hny. by apply (Hbest j y).
    + destruct Hspec as [_ Hall']. intros y Hy. apply list_elem_of_lookup in Hy as [k Hk]. by apply (Hall' k).
Qed.

(** [get_hits] of a row group without an entry poisons the table: it leaves
    an entry of row 0 behind, which the next activation does not replace, so
    that the access that follows the activation fails its assertion; without
    the [get_hits] the same two commands succeed. *)
Theorem get_hits_poisons {C : Type} (row_level : nat) (scope : C -> nat) (is_opening is_accessing is_closing : C -> bool)
    (act rd : C) (v : list Z) (r clk clk' : Z) (t : RowTable) :
  is_opening act = true -> is_accessing act = false -> is_closing act = false ->
  is_opening rd = false -> is_accessing rd = true -> is_closing rd = false ->
  v !! row_level = Some r -> r <> 0 -> t !! rowgroup row_level v = None ->
  let upd := RowTable_update row_level scope is_opening is_accessing is_closing in
  (exists t', get_hits row_level v t = Ok (0, t') /\ bind_res (upd act v clk t') (upd rd v clk') = Err AssertFail) /\
  is_ok (bind_res (upd act v clk t) (upd rd v clk')) = true.
Proof.
  intros Ho Ha Hc Ho' Ha' Hc' Hr Hne Ht upd. split.
  - unfold get_hits. rewrite Hr, Ht. eexists; split; [done|]. unfold upd, RowTable_update.
    rewrite Hr, Ho, Ha, Hc, Ho', Ha'. unfold table_open. rewrite lookup_insert_eq. cbn [bind_res].
    unfold table_access. rewrite lookup_insert_eq. cbn [row]. by rewrite decide_False by (by apply not_eq_sym).
  - unfold upd, RowTable_update. rewrite Hr, Ho, Ha, Hc, Ho', Ha', Hc'. unfold table_open. rewrite Ht. cbn [bind_res].
    unfold table_access. rewrite lookup_insert_eq. cbn [row]. by rewrite decide_True.
Qed.

(** ** Witnesses *)

(** Three requests: an old conflict, a hit that is not ready, a younger miss. *)
Definition ex_req (n row arr : Z) : Request := mkRequest true n [0; 0; n; row; 0] n 0 READ arr 0 1.
Definition ex_queue : list Request := [ex_req 3 9 10; ex_req 3 5 20; ex_req 4 1 30].
Definition ex_hit (r : Request) : bool := bool_decide (addr_vec r !! 3%nat = Some 5).
Definition ex_open (r : Request) : bool := bool_decide (addr_vec r !! 2%nat = Some 3).
Definition ex_ready (r : Request) : bool := negb (ex_hit r).

Lemma get_head_oldest_witness :
  exists i r, get_head (fun r => Ok (ex_ready r)) (fun r => Ok (ex_hit r)) (fun r => Ok (ex_open r)) (get_hits 3) 16 2 FRFCFS
      ex_queue ∅ = Ok (Some i, ∅) /\ ex_queue !! i = Some r /\
    forall j y, ex_queue !! j = Some y -> beats (if decide (FRFCFS = FCFS) then fun _ => false else ex_ready) (i, r) (j, y).
Proof. apply (get_head_oldest _ _ _ _ _ _ ex_ready ex_hit ex_open); [by intros r _|by right|done]. Defined.

Lemma get_head_prior_hit_witness :
  exists h, get_head (fun r => Ok (ex_ready r)) (fun r => Ok (ex_hit r)) (fun r => Ok (ex_open r)) (get_hits 3) 16 2
      FRFCFS_PriorHit ex_queue ∅ = Ok (h, ∅) /\ h = Some 2%nat.
Proof.
  destruct (get_head_prior_hit (fun r => Ok (ex_ready r)) (fun r => Ok (ex_hit r)) (fun r => Ok (ex_open r)) (get_hits 3) 16 2
              ex_ready ex_hit ex_open ex_queue ∅) as (h & Hh & _); [by intros r _|].
  exists h. split; [exact Hh|]. vm_compute in Hh. by injection Hh.
Defined.

Lemma get_hits_poisons_witness :
  let upd := RowTable_update 3 (fun _ : bool => 3%nat) (fun c => c) negb (fun _ => false) in
  (exists t', get_hits 3 [0; 0; 2; 7; 0] ∅ = Ok (0, t') /\
     bind_res (upd true [0; 0; 2; 7; 0] 10 t') (upd false [0; 0; 2; 7; 0] 20) = Err AssertFail) /\
  is_ok (bind_res (upd true [0; 0; 2; 7; 0] 10 ∅) (upd false [0; 0; 2; 7; 0] 20)) = true.
Proof. apply (get_hits_poisons 3 (fun _ : bool => 3%nat) (fun c => c) negb (fun _ => false) true false _ 7); try reflexivity. lia. Defined.
