(* ===== verification/AddressMap.v ===== *)
(** * The address mapping of the memory (ramulator/Memory.h)

    How a memory cuts an address into the coordinates of a DRAM location, for
    the two orders of the fields.  The cut loses nothing: the transactions of
    the memory and its coordinates are in bijection. *)

From stdpp Require Import base tactics numbers list.
From Stdlib Require Import ZArith Lia.
From S2P Require Import Prelude Dram.

Open Scope Z_scope.

Inductive MapType : Type := ChRaBaRoCo | RoBaRaCoCh.

(** [calc_log2]: an [int] has at most 31 significant bits; the loop does not end
    for a negative one. *)
Fixpoint log2_loop (fuel : nat) (val n : Z) : result Z :=
  match fuel with
  | O => Err NoFuel
  | S fuel => let val := Z.shiftr val 1 in if val =? 0 then Ok n else log2_loop fuel val (n + 1)
  end.
Definition calc_log2 (val : Z) : result Z := log2_loop 31 val 0.

(** [slice_lower_bits] and [clear_lower_bits]: the rest of the address, after the slice. *)
Definition slice_lower_bits (addr bits : Z) : Z * Z := (Z.land addr (Z.shiftl 1 bits - 1), Z.shiftr addr bits).
Definition clear_lower_bits (addr bits : Z) : Z := Z.shiftr addr bits.

Section Mapping.
Context (bits : list Z).               (* addr_bits *)

(** The levels in the order in which [send] slices them off. *)
Definition slice_order (ty : MapType) (row : nat) : list nat :=
  match ty with
  | ChRaBaRoCo => reverse (seq 0 (length bits))
  | RoBaRaCoCh => 0%nat :: (length bits - 1)%nat :: seq 1 row
  end.
Fixpoint slice_fields (order : list nat) (addr : Z) (vec : list Z) : list Z :=
  match order with
  | [] => vec
  | i :: order => let '(x, addr) := slice_lower_bits addr (nth i bits 0) in slice_fields order addr (<[i := x]> vec)
  end.
(** [resize], then the slices. *)
Definition resized (n : nat) (v : list Z) : list Z := take n v ++ replicate (n - length v) 0.
Definition map_address (ty : MapType) (row : nat) (tx_bits addr : Z) (v : list Z) : list Z :=
  slice_fields (slice_order ty row) (clear_lower_bits addr tx_bits) (resized (length bits) v).

(** The number of a location: the inverse of the slices. *)
Fixpoint compose (order : list nat) (vec : list Z) : Z :=
  match order with
  | [] => 0
  | i :: order => nth i vec 0 + 2 ^ nth i bits 0 * compose order vec
  end.
Definition total_bits (order : list nat) : Z := foldr Z.add 0 ((fun i => nth i bits 0) <$> order).
End Mapping.

(** The sizes of a memory: the bits of its addresses, and its capacity. *)
Record Geometry : Type := mkGeometry { addr_bits : list Z; tx_bits : Z; max_address : Z }.
Definition pow2_or_zero (x : Z) : bool := Z.land x (x - 1) =? 0.
Definition sub_last (l : list Z) (x : Z) : list Z := alter (fun y => y - x) (length l - 1)%nat l.
(** The constructor of [Memory]; [lpddr]: the name of the standard starts with LPDDR. *)
Definition geometry (ty : MapType) (lpddr : bool) (row : nat) (sz : list Z) (prefetch width : Z) : result Geometry :=
  if negb (pow2_or_zero (nth 0 sz 0) && pow2_or_zero (nth 1 sz 0)) then Err AssertFail
  else
    let tx := Z.quot (prefetch * width) 8 in
    bind_res (calc_log2 tx) (fun tx_bits =>
    if negb (Z.shiftl 1 tx_bits =? tx) then Err AssertFail
    else if match ty with RoBaRaCoCh => false | _ => lpddr && negb (pow2_or_zero (nth row sz 0)) end then Err AssertFail
    else
      bind_res (map_res calc_log2 sz) (fun bits =>
      bind_res (calc_log2 prefetch) (fun p =>
      Ok (mkGeometry (sub_last bits p) tx_bits (foldl Z.mul (Z.quot width 8) sz))))).

(** ** The logarithm *)
Lemma log2_loop_spec fuel val n : 0 <= val < 2 ^ Z.of_nat fuel -> (0 < fuel)%nat -> log2_loop fuel val n = Ok (n + Z.log2 val).
Proof.
  revert val n. induction fuel as [|fuel IH]; intros val n Hv Hf; [lia|]. cbn [log2_loop]. cbv zeta.
  rewrite Z.shiftr_div_pow2 by lia. change (2 ^ 1) with 2. destruct (Z.eqb_spec (val / 2) 0) as [H0|H0].
  - assert (val = 0 \/ val = 1) as [-> | ->]; [|simpl; f_equal; lia..]. pose proof (Z.div_mod val 2 ltac:(lia)). pose proof (Z.mod_pos_bound val 2 ltac:(lia)). lia.
  - assert (0 < val / 2) by (pose proof (Z.div_pos val 2 ltac:(lia) ltac:(lia)); lia).
    rewrite Nat2Z.inj_succ, Z.pow_succ_r in Hv by lia.
    assert (val / 2 < 2 ^ Z.of_nat fuel) by (apply Z.div_lt_upper_bound; lia).
    rewrite IH; [|lia|]. 2:{ destruct fuel; [change (2 ^ Z.of_nat 0) with 1 in *; lia|lia]. }
    f_equal. rewrite <- Z.add_assoc. f_equal. rewrite Z.add_1_l, <- Z.log2_double by lia.
    pose proof (Z.div_mod val 2 ltac:(lia)) as Hd. pose proof (Z.mod_pos_bound val 2 ltac:(lia)).
    destruct (decide (val mod 2 = 0)) as [Hm|Hm]; [f_equal; lia|].
    replace val with (2 * (val / 2) + 1) at 2 by lia. rewrite Z.log2_succ_double, Z.log2_double by lia. done.
Qed.
Lemma log2_loop_ge fuel val n r : log2_loop fuel val n = Ok r -> n <= r.
Proof.
  revert val n. induction fuel as [|fuel IH]; intros val n; cbn [log2_loop]; [discriminate|]. cbv zeta.
  destruct (_ =? 0); [intros [= <-]; lia|]. intros H%IH. lia.
Qed.
Lemma calc_log2_spec val : 0 <= val < 2 ^ 31 -> calc_log2 val = Ok (Z.log2 val).
Proof. intros Hv. unfold calc_log2. by rewrite log2_loop_spec by (simpl; lia). Qed.

Lemma slice_spec addr b : 0 <= b -> slice_lower_bits addr b = (addr mod 2 ^ b, addr / 2 ^ b).
Proof.
  intros Hb. unfold slice_lower_bits. rewrite Z.shiftl_1_l, Z.shiftr_div_pow2 by lia.
  replace (2 ^ b - 1) with (Z.ones b) by (rewrite Z.ones_equiv; lia). by rewrite Z.land_ones by lia.
Qed.

Lemma nth_insert_eq (l : list Z) i x : (i < length l)%nat -> nth i (<[i := x]> l) 0 = x.
Proof. intros Hi. apply nth_lookup_Some. by apply list_lookup_insert_eq. Qed.
Lemma nth_insert_ne (l : list Z) i j x : i <> j -> nth j (<[i := x]> l) 0 = nth j l 0.
Proof. intros Hij. by rewrite !nth_lookup, list_lookup_insert_ne. Qed.

(** ** The slices *)
Section Slices.
Context (bits : list Z) (Hbits : Forall (fun b => 0 <= b) bits).
Implicit Types (order : list nat) (vec : list Z).

Lemma bits_nonneg i : 0 <= nth i bits 0.
Proof.
  rewrite nth_lookup. destruct (bits !! i) as [b|] eqn:Hb; [|done]. simpl. rewrite Forall_forall in Hbits.
  apply Hbits. by eapply list_elem_of_lookup_2.
Qed.
Lemma total_nonneg order : 0 <= total_bits bits order.
Proof. unfold total_bits. induction order as [|i order IH]; csimpl; [done|]. pose proof (bits_nonneg i). lia. Qed.
Lemma slice_length order addr vec : length (slice_fields bits order addr vec) = length vec.
Proof. revert addr vec. induction order as [|i order IH]; intros addr vec; simpl; [done|]. by rewrite IH, length_insert. Qed.
Lemma slice_skip order addr vec i : i ∉ order -> nth i (slice_fields bits order addr vec) 0 = nth i vec 0.
Proof.
  revert addr vec. induction order as [|j order IH]; intros addr vec Hi; simpl; [done|].
  apply not_elem_of_cons in Hi as [Hij Hi]. by rewrite IH, nth_insert_ne by done.
Qed.
Lemma slice_head order i addr vec :
  i ∉ order -> (i < length vec)%nat -> nth i (slice_fields bits (i :: order) addr vec) 0 = addr mod 2 ^ nth i bits 0.
Proof.
  intros Hi Hl. cbn [slice_fields]. rewrite slice_spec by apply bits_nonneg. rewrite slice_skip by done. by apply nth_insert_eq.
Qed.

(** Every field lies in its range. *)
Lemma slice_range order addr vec i :
  NoDup order -> i ∈ order -> (i < length vec)%nat -> 0 <= nth i (slice_fields bits order addr vec) 0 < 2 ^ nth i bits 0.
Proof.
  intros Hnd. revert addr vec. induction Hnd as [|j order Hj _ IH]; intros addr vec Hi Hl; [by apply not_elem_of_nil in Hi|].
  destruct (decide (i = j)) as [->|Hne].
  - rewrite slice_head by done. apply Z.mod_pos_bound. pose proof (bits_nonneg j). by apply Z.pow_pos_nonneg.
  - apply elem_of_cons in Hi as [?|Hi]; [done|]. cbn [slice_fields]. destruct (slice_lower_bits addr _) as [x a].
    apply IH; [done|by rewrite length_insert].
Qed.

(** The slices of an address determine it. *)
Lemma compose_slice order addr vec :
  NoDup order -> (forall i, i ∈ order -> (i < length vec)%nat) ->
  compose bits order (slice_fields bits order addr vec) = addr mod 2 ^ total_bits bits order.
Proof.
  intros Hnd. revert addr vec. induction Hnd as [|i order Hi _ IH]; intros addr vec Hl.
  - simpl. by rewrite Z.mod_1_r.
  - cbn [compose]. rewrite slice_head by (try done; apply Hl; by left). cbn [slice_fields]. rewrite slice_spec by apply bits_nonneg.
    rewrite IH by (intros j Hj; rewrite length_insert; apply Hl; by right).
    unfold total_bits at 2. cbn [fmap list_fmap foldr]. fold (total_bits bits order).
    pose proof (bits_nonneg i) as Hb. pose proof (total_nonneg order) as Ht. rewrite Z.pow_add_r by done.
    rewrite Z.rem_mul_r by (try apply Z.pow_nonzero; try apply Z.pow_pos_nonneg; lia). done.
Qed.

(** Coordinates in range are the slices of their number. *)
Lemma slice_compose order v vec i :
  NoDup order -> (forall j, j ∈ order -> (j < length vec)%nat /\ 0 <= nth j v 0 < 2 ^ nth j bits 0) -> i ∈ order ->
  nth i (slice_fields bits order (compose bits order v) vec) 0 = nth i v 0.
Proof.
  intros Hnd. revert vec. induction Hnd as [|j order Hj _ IH]; intros vec Hv Hi; [by apply not_elem_of_nil in Hi|].
  pose proof (bits_nonneg j) as Hb. destruct (Hv j ltac:(by left)) as [Hl Hr]. cbn [compose]. pose proof (Z.pow_pos_nonneg 2 (nth j bits 0) ltac:(lia) Hb) as Hp.
  destruct (decide (i = j)) as [->|Hne].
  - rewrite slice_head by done. rewrite Z.mul_comm, Z_mod_plus_full. by apply Z.mod_small.
  - apply elem_of_cons in Hi as [?|Hi]; [done|]. cbn [slice_fields]. rewrite slice_spec by done.
    rewrite (Z.mul_comm (2 ^ _)), Z.div_add by lia. rewrite Z.div_small by lia. simpl.
    apply IH; [|done]. intros k Hk. rewrite length_insert. apply Hv. by right.
Qed.
Lemma compose_range order v :
  (forall j, j ∈ order -> 0 <= nth j v 0 < 2 ^ nth j bits 0) -> 0 <= compose bits order v < 2 ^ total_bits bits order.
Proof.
  induction order as [|i order IH]; intros Hv; [change (0 <= 0 < 1); lia|]. cbn [compose]. unfold total_bits. cbn [fmap list_fmap foldr].
  fold (total_bits bits order). pose proof (bits_nonneg i). pose proof (total_nonneg order). rewrite Z.pow_add_r by done.
  destruct (Hv i ltac:(by left)). assert (0 <= compose bits order v < 2 ^ total_bits bits order) by (apply IH; intros j Hj; apply Hv; by right). nia.
Qed.
End Slices.

(** ** The mapping *)
Lemma order_covers bits ty row :
  length bits = (row + 2)%nat -> NoDup (slice_order bits ty row) /\ forall i, i ∈ slice_order bits ty row <-> (i < length bits)%nat.
Proof.
  intros Hl. destruct ty; cbn [slice_order].
  - split; [rewrite reverse_Permutation; apply NoDup_seq|]. intros i. rewrite elem_of_reverse, elem_of_seq. lia.
  - split.
    + apply NoDup_cons. split; [rewrite elem_of_cons, elem_of_seq; lia|]. apply NoDup_cons. split; [rewrite elem_of_seq; lia|apply NoDup_seq].
    + intros i. rewrite !elem_of_cons, elem_of_seq. lia.
Qed.
Lemma resized_length n v : length (resized n v) = n.
Proof. unfold resized. rewrite length_app, length_take, length_replicate. lia. Qed.
Lemma map_length bits ty row tx addr v : length (map_address bits ty row tx addr v) = length bits.
Proof. unfold map_address. by rewrite slice_length, resized_length. Qed.

(** A constructor that accepts its sizes: the bits are logarithms. *)
Record sizes_ok (row : nat) (sz : list Z) (prefetch : Z) : Prop := {
  sz_length : length sz = (row + 2)%nat;
  sz_range : Forall (fun s => 0 < s < 2 ^ 31) sz;
  sz_prefetch : 0 < prefetch <= nth (row + 1) sz 0;
}.
Lemma geometry_bits ty lpddr row sz prefetch width g :
  geometry ty lpddr row sz prefetch width = Ok g -> sizes_ok row sz prefetch ->
  addr_bits g = sub_last (Z.log2 <$> sz) (Z.log2 prefetch) /\ max_address g = foldl Z.mul (Z.quot width 8) sz /\
  Z.shiftl 1 (tx_bits g) = Z.quot (prefetch * width) 8 /\ 0 <= tx_bits g.
Proof.
  unfold geometry. intros Hg [Hl Hsz Hp]. destruct (negb _); [discriminate|]. cbv zeta in Hg.
  destruct (calc_log2 (Z.quot _ 8)) as [tx|] eqn:Htx; [|discriminate]. apply log2_loop_ge in Htx. cbn [bind_res] in Hg.
  destruct (Z.eqb_spec (Z.shiftl 1 tx) (Z.quot (prefetch * width) 8)) as [He|]; [|discriminate]. cbn [negb] in Hg.
  destruct (match ty with ChRaBaRoCo => _ | _ => _ end); [discriminate|].
  assert (forall l, Forall (fun s => 0 < s < 2 ^ 31) l -> map_res calc_log2 l = Ok (Z.log2 <$> l)) as Hm.
  { clear. induction 1 as [|s l Hs _ IH]; [done|]. simpl. rewrite calc_log2_spec by lia. cbn [bind_res]. by rewrite IH. }
  rewrite Hm in Hg by done. cbn [bind_res] in Hg.
  assert (nth (row + 1) sz 0 < 2 ^ 31).
  { destruct (lookup_lt_is_Some_2 sz (row + 1) ltac:(lia)) as [s Hs]. rewrite (nth_lookup_Some _ _ _ _ Hs).
    rewrite Forall_forall in Hsz. apply (Hsz s). by eapply list_elem_of_lookup_2. }
  rewrite calc_log2_spec in Hg by lia. cbn [bind_res] in Hg. injection Hg as <-. done.
Qed.

Lemma sub_last_nth l x i : (i < length l)%nat -> nth i (sub_last l x) 0 = nth i l 0 - (if decide (i = (length l - 1)%nat) then x else 0).
Proof.
  intros Hi. destruct (lookup_lt_is_Some_2 l i Hi) as [y Hy]. rewrite (nth_lookup_Some _ _ _ _ Hy). apply nth_lookup_Some.
  unfold sub_last. destruct (decide _) as [->|Hne].
  - by rewrite list_lookup_alter_eq, Hy.
  - rewrite list_lookup_alter_ne by done. rewrite Hy. f_equal. lia.
Qed.
Lemma log2_sizes_nth sz i : (i < length sz)%nat -> nth i (Z.log2 <$> sz) 0 = Z.log2 (nth i sz 0).
Proof.
  intros Hi. destruct (lookup_lt_is_Some_2 sz i Hi) as [y Hy]. rewrite (nth_lookup_Some _ _ _ _ Hy). apply nth_lookup_Some.
  by rewrite list_lookup_fmap, Hy.
Qed.
Lemma size_positive row sz prefetch i : sizes_ok row sz prefetch -> (i < length sz)%nat -> 0 < nth i sz 0.
Proof.
  intros [_ Hsz _] Hi. destruct (lookup_lt_is_Some_2 sz i Hi) as [y Hy]. rewrite (nth_lookup_Some _ _ _ _ Hy).
  rewrite Forall_forall in Hsz. apply (Hsz y). by eapply list_elem_of_lookup_2.
Qed.

Section Bits.
Context (ty : MapType) (lpddr : bool) (row : nat) (sz : list Z) (prefetch width : Z) (g : Geometry).
Context (Hg : geometry ty lpddr row sz prefetch width = Ok g) (Hsz : sizes_ok row sz prefetch).

Lemma bit_width i : (i < length sz)%nat ->
  0 <= nth i (addr_bits g) 0 <= Z.log2 (nth i sz 0) /\
  nth i (addr_bits g) 0 = Z.log2 (nth i sz 0) - (if decide (i = (row + 1)%nat) then Z.log2 prefetch else 0).
Proof using Hg Hsz.
  intros Hi. destruct (geometry_bits _ _ _ _ _ _ _ Hg Hsz) as (-> & _). pose proof Hsz as [Hl _ Hp].
  rewrite sub_last_nth by (by rewrite length_fmap). rewrite log2_sizes_nth, length_fmap, Hl by done.
  replace (row + 2 - 1)%nat with (row + 1)%nat by lia. pose proof (Z.log2_nonneg (nth i sz 0)). pose proof (Z.log2_nonneg prefetch).
  split; [|done]. case_decide as Hc; [|lia]. subst i. pose proof (Z.log2_le_mono _ _ (proj2 Hp)). lia.
Qed.
Lemma bits_length : length (addr_bits g) = length sz.
Proof using Hg Hsz.
  destruct (geometry_bits _ _ _ _ _ _ _ Hg Hsz) as (-> & _). unfold sub_last. by rewrite length_alter, length_fmap.
Qed.
Lemma bits_all_nonneg : Forall (fun b => 0 <= b) (addr_bits g).
Proof using Hg Hsz.
  apply Forall_forall. intros b [i Hi]%list_elem_of_lookup. pose proof (lookup_lt_Some _ _ _ Hi) as Hl. rewrite bits_length in Hl.
  destruct (bit_width i Hl) as [H _]. rewrite (nth_lookup_Some _ _ _ _ Hi) in H. lia.
Qed.
Lemma pow_bits_le i : (i < length sz)%nat -> 2 ^ nth i (addr_bits g) 0 <= nth i sz 0.
Proof using Hg Hsz.
  intros Hi. destruct (bit_width i Hi) as [H _]. pose proof (size_positive row sz prefetch i Hsz Hi) as Hp.
  destruct (Z.log2_spec _ Hp) as [Hs _]. etrans; [|exact Hs]. apply Z.pow_le_mono_r; lia.
Qed.
Abbreviation order := (slice_order (addr_bits g) ty row).
Lemma order_ok : NoDup order /\ forall i, i ∈ order <-> (i < length (addr_bits g))%nat.
Proof using Hg Hsz. apply order_covers. rewrite bits_length. apply (sz_length _ _ _ Hsz). Qed.

(** The coordinates that [send] computes are those of an existing location. *)
Lemma mapped_range addr v i : (i < length sz)%nat -> 0 <= nth i (map_address (addr_bits g) ty row (tx_bits g) addr v) 0 < nth i sz 0.
Proof using Hg Hsz.
  intros Hi. destruct order_ok as [Hnd Hin]. unfold map_address.
  destruct (slice_range (addr_bits g) bits_all_nonneg order (clear_lower_bits addr (tx_bits g)) (resized (length (addr_bits g)) v) i Hnd) as [H1 H2].
  - apply Hin. by rewrite bits_length.
  - by rewrite resized_length, bits_length.
  - pose proof (pow_bits_le i Hi). lia.
Qed.
End Bits.

(** Whatever the address, the coordinates that [send] computes from it are in
    range at every level of the organisation, for both orders of the fields. *)
Theorem mapping_in_range ty lpddr row sz prefetch width g addr v i :
  geometry ty lpddr row sz prefetch width = Ok g -> sizes_ok row sz prefetch -> (i < length sz)%nat ->
  length (map_address (addr_bits g) ty row (tx_bits g) addr v) = length sz /\
  0 <= nth i (map_address (addr_bits g) ty row (tx_bits g) addr v) 0 < nth i sz 0.
Proof.
  intros Hg Hsz Hi. split; [|by eapply mapped_range]. by rewrite map_length, (bits_length _ _ _ _ _ _ _ Hg Hsz).
Qed.

(** C18: the mapping is a bijection between the transactions below [2 ^ (tx_bits +
    total)] and the coordinates: composing the fields of an address gives its
    transaction, and every tuple of coordinates in range is the image of the
    address that composes it. *)
Theorem mapping_bijective ty lpddr row sz prefetch width g :
  geometry ty lpddr row sz prefetch width = Ok g -> sizes_ok row sz prefetch ->
  let order := slice_order (addr_bits g) ty row in
  let total := total_bits (addr_bits g) order in
  (forall addr v, 0 <= addr < 2 ^ (tx_bits g + total) ->
     compose (addr_bits g) order (map_address (addr_bits g) ty row (tx_bits g) addr v) = Z.shiftr addr (tx_bits g)) /\
  (forall vec v, length vec = length sz -> (forall i, (i < length sz)%nat -> 0 <= nth i vec 0 < 2 ^ nth i (addr_bits g) 0) ->
     0 <= compose (addr_bits g) order vec < 2 ^ total /\
     map_address (addr_bits g) ty row (tx_bits g) (Z.shiftl (compose (addr_bits g) order vec) (tx_bits g)) v = vec).
Proof.
  intros Hg Hsz order total. destruct (order_ok _ _ _ _ _ _ _ Hg Hsz) as [Hnd Hin]. pose proof (bits_all_nonneg _ _ _ _ _ _ _ Hg Hsz) as Hb.
  pose proof (bits_length _ _ _ _ _ _ _ Hg Hsz) as Hlen. pose proof (total_nonneg _ Hb order) as Ht.
  destruct (geometry_bits _ _ _ _ _ _ _ Hg Hsz) as (_ & _ & _ & Htx). split.
  - intros addr v Ha. unfold map_address, clear_lower_bits.
    rewrite (compose_slice _ Hb order) by (try done; intros i Hi%Hin; by rewrite resized_length).
    rewrite Z.shiftr_div_pow2 by done. apply Z.mod_small. rewrite Z.pow_add_r in Ha by done.
    pose proof (Z.pow_pos_nonneg 2 (tx_bits g) ltac:(lia) Htx). split; [apply Z.div_pos; lia|]. apply Z.div_lt_upper_bound; [lia|exact (proj2 Ha)].
  - intros vec v Hv Hr. split; [apply (compose_range _ Hb); intros j Hj%Hin; apply Hr; rewrite <- Hlen; exact Hj|].
    apply (nth_ext _ _ 0 0); [by rewrite map_length, Hv|]. rewrite map_length. intros i Hi. unfold map_address, clear_lower_bits.
    rewrite Z.shiftr_shiftl_l, Z.sub_diag, Z.shiftl_0_r by lia.
    apply (slice_compose _ Hb order); [done| |by apply Hin]. intros j Hj%Hin. rewrite resized_length. split; [done|]. apply Hr. rewrite <- Hlen. exact Hj.
Qed.

(** *** Sums and products of sizes *)
Definition sum (l : list Z) : Z := foldr Z.add 0 l.
Lemma sum_perm l l' : l ≡ₚ l' -> sum l = sum l'.
Proof. unfold sum. induction 1; simpl; lia. Qed.
Lemma sum_app l l' : sum (l ++ l') = sum l + sum l'.
Proof. unfold sum. induction l as [|x l IH]; simpl; [done|]. rewrite IH. lia. Qed.
Lemma sum_nth (l : list Z) : sum ((fun i => nth i l 0) <$> seq 0 (length l)) = sum l.
Proof.
  f_equal. apply list_eq. intros i. rewrite list_lookup_fmap. destruct (decide (i < length l)%nat) as [Hi|Hi].
  - rewrite lookup_seq_lt by done. destruct (lookup_lt_is_Some_2 l i Hi) as [x Hx]. rewrite Hx. simpl. f_equal. by apply nth_lookup_Some.
  - rewrite lookup_seq_ge, lookup_ge_None_2 by lia. done.
Qed.
Lemma sum_sub_last l x : l <> [] -> sum (sub_last l x) = sum l - x.
Proof.
  intros Hl. destruct (exists_last Hl) as (l0 & y & ->). unfold sub_last. rewrite length_app. simpl.
  replace (length l0 + 1 - 1)%nat with (length l0 + 0)%nat by lia. rewrite alter_app_r, !sum_app. unfold sum. simpl. lia.
Qed.
Lemma foldl_pow (bs : list Z) a : Forall (fun b => 0 <= b) bs -> foldl Z.mul a ((fun b => 2 ^ b) <$> bs) = a * 2 ^ sum bs.
Proof.
  intros H. revert a. induction H as [|b bs Hb Hbs IH]; intros a; [unfold sum; simpl; lia|]. csimpl. rewrite IH. unfold sum. simpl.
  fold (sum bs). assert (0 <= sum bs) by (unfold sum; clear IH; induction Hbs; simpl; lia). rewrite Z.pow_add_r by done. lia.
Qed.
Lemma log2_pows (bs : list Z) : Forall (fun b => 0 <= b) bs -> Z.log2 <$> ((fun b => 2 ^ b) <$> bs) = bs.
Proof. induction 1 as [|b bs Hb _ IH]; csimpl; [done|]. by rewrite Z.log2_pow2, IH. Qed.

(** the memory is as large as it says: if all sizes are powers of two, the
    locations make up exactly [max_address] bytes. *)
Theorem capacity_exact ty lpddr row sz prefetch width g bs p w :
  geometry ty lpddr row sz prefetch width = Ok g -> sizes_ok row sz prefetch ->
  sz = (fun b => 2 ^ b) <$> bs -> Forall (fun b => 0 <= b) bs -> prefetch = 2 ^ p -> 0 <= p -> width = 8 * w ->
  max_address g = 2 ^ (tx_bits g + total_bits (addr_bits g) (slice_order (addr_bits g) ty row)).
Proof.
  intros Hg Hsz Hbs Hpos -> Hp ->. destruct (order_ok _ _ _ _ _ _ _ Hg Hsz) as [Hnd Hin]. pose proof (bits_all_nonneg _ _ _ _ _ _ _ Hg Hsz) as Hb.
  destruct (geometry_bits _ _ _ _ _ _ _ Hg Hsz) as (Hab & Hmax & Htx & Ht0). pose proof (sz_length _ _ _ Hsz) as Hl.
  assert (slice_order (addr_bits g) ty row ≡ₚ seq 0 (length (addr_bits g))) as Hperm.
  { apply NoDup_Permutation; [done|apply NoDup_seq|]. intros i. rewrite Hin, elem_of_seq. lia. }
  pose proof (total_nonneg _ Hb (slice_order (addr_bits g) ty row)) as Hps.
  assert (total_bits (addr_bits g) (slice_order (addr_bits g) ty row) = sum bs - p) as Htot.
  { unfold total_bits. change (foldr Z.add 0 ?l) with (sum l). rewrite (sum_perm _ _ (fmap_Permutation _ _ _ Hperm)), sum_nth, Hab.
    rewrite Hbs, log2_pows, Z.log2_pow2 by done. apply sum_sub_last. intros ->. rewrite Hbs in Hl. simpl in Hl. lia. }
  rewrite Htot in *. rewrite Hmax, Hbs, foldl_pow by done. rewrite Z.shiftl_1_l in Htx.
  replace (8 * w) with (w * 8) by lia. rewrite Z.quot_mul by lia. replace (2 ^ p * (8 * w)) with (2 ^ p * w * 8) in Htx by lia. rewrite Z.quot_mul in Htx by lia.
  apply (Z.mul_reg_l _ _ (2 ^ p)); [pose proof (Z.pow_pos_nonneg 2 p ltac:(lia) Hp); lia|].
  rewrite <- Z.pow_add_r by lia. replace (p + (tx_bits g + (sum bs - p))) with (tx_bits g + sum bs) by lia.
  rewrite Z.pow_add_r by lia. rewrite Htx. lia.
Qed.

(** *** A memory of two channels of DDR3 *)
Definition ex_sizes : list Z := [2; 2; 8; 32768; 1024].
Definition ex_geometry : Geometry := mkGeometry [1; 1; 3; 15; 7] 6 8589934592.
Lemma ex_geometry_ok : geometry RoBaRaCoCh false 3 ex_sizes 8 64 = Ok ex_geometry.
Proof. vm_compute. reflexivity. Qed.
Lemma ex_sizes_ok : sizes_ok 3 ex_sizes 8.
Proof. split; [done| |simpl; lia]. unfold ex_sizes. repeat (apply Forall_cons; split; [lia|]). apply Forall_nil_2. Qed.
Example ex_map : map_address (addr_bits ex_geometry) RoBaRaCoCh 3 6 305419896 [] = [1; 1; 0; 1165; 44].
Proof. vm_compute. reflexivity. Qed.

Lemma mapping_in_range_witness :
  length (map_address (addr_bits ex_geometry) RoBaRaCoCh 3 6 305419896 []) = 5%nat /\
  0 <= nth 3 (map_address (addr_bits ex_geometry) RoBaRaCoCh 3 6 305419896 []) 0 < 32768.
Proof. apply (mapping_in_range RoBaRaCoCh false 3 ex_sizes 8 64 ex_geometry 305419896 [] 3 ex_geometry_ok ex_sizes_ok). simpl. lia. Defined.
Lemma mapping_bijective_witness :
  compose [1; 1; 3; 15; 7] [0; 4; 1; 2; 3]%nat (map_address [1; 1; 3; 15; 7] RoBaRaCoCh 3 6 305419896 []) = Z.shiftr 305419896 6.
Proof.
  apply (proj1 (mapping_bijective RoBaRaCoCh false 3 ex_sizes 8 64 ex_geometry ex_geometry_ok ex_sizes_ok) 305419896 []).
  vm_compute. split; congruence.
Defined.
Lemma capacity_exact_witness : 8589934592 = 2 ^ (6 + total_bits [1; 1; 3; 15; 7] [0; 4; 1; 2; 3]%nat).
Proof.
  apply (capacity_exact RoBaRaCoCh false 3 ex_sizes 8 64 ex_geometry [1; 1; 3; 15; 10] 3 8 ex_geometry_ok ex_sizes_ok).
  - reflexivity.
  - repeat (apply Forall_cons; split; [lia|]). apply Forall_nil_2.
  - reflexivity.
  - lia.
  - reflexivity.
Defined.
