(* ===== verification/Controller.v ===== *)
(** * The memory controller (ramulator/Controller.h, ramulator/Refresh.h)

    One channel: three request queues, the reads and writes whose data are on
    their way, the DRAM tree, the row table and the refresh scheduler.  [tick]
    is one cycle; it answers the requests whose callback runs in that cycle.
    The commands on the bus are recorded in [trace]; the power statistics are
    output only and left out. *)

From stdpp Require Import base tactics numbers list gmap.
From Stdlib Require Import ZArith Lia.
From S2P Require Import Prelude Dram Scheduler.

Open Scope Z_scope.

(** What the controller reads of a standard, besides the tables of the tree,
    and the number of cores that the memory counts for. *)
Record CtrlSpec (C St : Type) : Type := mkCtrlSpec {
  cs_dram : Spec C St;
  cs_translate : ReqType -> C;
  cs_PRE : C;
  cs_accessing : C -> bool;
  cs_closing : C -> bool;
  cs_levels : nat;                     (* Level::MAX *)
  cs_read_latency : Z;
  cs_write_latency : Z;
  cs_nREFI : Z;
  cs_prefetch_size : Z;
  cs_channel_width : Z;
  cs_cores : Z;                        (* the size of the counters per core *)
}.
Arguments mkCtrlSpec {C St}.
Arguments cs_dram {C St}.
Arguments cs_translate {C St}.
Arguments cs_PRE {C St}.
Arguments cs_accessing {C St}.
Arguments cs_closing {C St}.
Arguments cs_levels {C St}.
Arguments cs_read_latency {C St}.
Arguments cs_write_latency {C St}.
Arguments cs_nREFI {C St}.
Arguments cs_prefetch_size {C St}.
Arguments cs_channel_width {C St}.
Arguments cs_cores {C St}.

(** The knobs of the controller, its scheduler and its row policy. *)
Record CtrlConfig : Type := mkConfig {
  cf_sched : SchedType;
  cf_cap : Z;
  cf_policy : RowPolicyType;
  cf_timeout : Z;
  cf_no_DRAM_latency : bool;
}.
(** The initial values of the fields. *)
Definition default_config : CtrlConfig := mkConfig FRFCFS_PriorHit 16 POpened 50 false.

(** [fake_ideal_DRAM]: the two options, and the entries of the speed table that
    the second one insists on. *)
Definition fake_ideal_DRAM (no_latency unlimited : bool) (read_latency nBL nCL nCCD : Z) (cf : CtrlConfig) : result CtrlConfig :=
  let cf := if no_latency then mkConfig FRFCFS (cf_cap cf) (cf_policy cf) (cf_timeout cf) true else cf in
  if unlimited && negb (bool_decide (nBL = 0) && bool_decide (read_latency = nCL) && bool_decide (nCCD = 1))
  then Err AssertFail else Ok cf.

(** ** State *)

(** The counters; the last six count per core. *)
Record Stats : Type := mkStats {
  req_queue_length_sum : Z;
  read_req_queue_length_sum : Z;
  write_req_queue_length_sum : Z;
  read_latency_sum : Z;
  queueing_latency_sum : Z;
  read_transaction_bytes : Z;
  write_transaction_bytes : Z;
  row_hits : Z;
  row_misses : Z;
  row_conflicts : Z;
  read_row_hits : gmap Z Z;
  read_row_misses : gmap Z Z;
  read_row_conflicts : gmap Z Z;
  write_row_hits : gmap Z Z;
  write_row_misses : gmap Z Z;
  write_row_conflicts : gmap Z Z;
}.
Definition stats_init : Stats := mkStats 0 0 0 0 0 0 0 0 0 0 ∅ ∅ ∅ ∅ ∅ ∅.

Record Ctrl (C St : Type) : Type := mkCtrl {
  clk : Z;
  channel : Node C St;
  rowtable : RowTable;
  ref_clk : Z;                         (* Refresh::clk *)
  refreshed : Z;                       (* Refresh::refreshed *)
  readq : list Request;
  writeq : list Request;
  otherq : list Request;
  pending : list Request;
  pending_write : list Request;
  write_mode : bool;
  trace : list (C * list Z * Z);       (* what [print_cmd_trace] prints: command, address, clock; latest first *)
  stats : Stats;
}.
Arguments mkCtrl {C St}.
Arguments clk {C St}.
Arguments channel {C St}.
Arguments rowtable {C St}.
Arguments ref_clk {C St}.
Arguments refreshed {C St}.
Arguments readq {C St}.
Arguments writeq {C St}.
Arguments otherq {C St}.
Arguments pending {C St}.
Arguments pending_write {C St}.
Arguments write_mode {C St}.
Arguments trace {C St}.
Arguments stats {C St}.

(** [Queue::max], and the two marks of the write mode. *)
Definition queue_max : nat := 32.
Definition high_mark : Z := Z.quot (8 * Z.of_nat queue_max) 10.
Definition low_mark : Z := Z.quot (2 * Z.of_nat queue_max) 10.

Inductive QueueId : Type := ReadQ | WriteQ | OtherQ.
#[export] Instance QueueId_eq_dec : EqDecision QueueId.
Proof. solve_decision. Defined.
Definition get_queue (t : ReqType) : QueueId := match t with READ => ReadQ | WRITE => WriteQ | _ => OtherQ end.

Section Fields.
Context {C St : Type}.
Abbreviation Ctrl := (Ctrl C St).
Implicit Type c : Ctrl.

Definition queue (k : QueueId) c : list Request :=
  match k with ReadQ => readq c | WriteQ => writeq c | OtherQ => otherq c end.
Definition set_queue (k : QueueId) (q : list Request) c : Ctrl :=
  mkCtrl (clk c) (channel c) (rowtable c) (ref_clk c) (refreshed c)
    (if decide (k = ReadQ) then q else readq c) (if decide (k = WriteQ) then q else writeq c)
    (if decide (k = OtherQ) then q else otherq c) (pending c) (pending_write c) (write_mode c) (trace c) (stats c).
Definition set_clk (x : Z) c : Ctrl :=
  mkCtrl x (channel c) (rowtable c) (ref_clk c) (refreshed c) (readq c) (writeq c) (otherq c) (pending c)
    (pending_write c) (write_mode c) (trace c) (stats c).
Definition set_channel (nd : Node C St) c : Ctrl :=
  mkCtrl (clk c) nd (rowtable c) (ref_clk c) (refreshed c) (readq c) (writeq c) (otherq c) (pending c)
    (pending_write c) (write_mode c) (trace c) (stats c).
Definition set_rowtable (t : RowTable) c : Ctrl :=
  mkCtrl (clk c) (channel c) t (ref_clk c) (refreshed c) (readq c) (writeq c) (otherq c) (pending c)
    (pending_write c) (write_mode c) (trace c) (stats c).
Definition set_refresh (rc rd : Z) c : Ctrl :=
  mkCtrl (clk c) (channel c) (rowtable c) rc rd (readq c) (writeq c) (otherq c) (pending c)
    (pending_write c) (write_mode c) (trace c) (stats c).
Definition set_pending (l : list Request) c : Ctrl :=
  mkCtrl (clk c) (channel c) (rowtable c) (ref_clk c) (refreshed c) (readq c) (writeq c) (otherq c) l
    (pending_write c) (write_mode c) (trace c) (stats c).
Definition set_pending_write (l : list Request) c : Ctrl :=
  mkCtrl (clk c) (channel c) (rowtable c) (ref_clk c) (refreshed c) (readq c) (writeq c) (otherq c) (pending c)
    l (write_mode c) (trace c) (stats c).
Definition set_write_mode (b : bool) c : Ctrl :=
  mkCtrl (clk c) (channel c) (rowtable c) (ref_clk c) (refreshed c) (readq c) (writeq c) (otherq c) (pending c)
    (pending_write c) b (trace c) (stats c).
Definition set_trace (l : list (C * list Z * Z)) c : Ctrl :=
  mkCtrl (clk c) (channel c) (rowtable c) (ref_clk c) (refreshed c) (readq c) (writeq c) (otherq c) (pending c)
    (pending_write c) (write_mode c) l (stats c).
Definition set_stats (x : Stats) c : Ctrl :=
  mkCtrl (clk c) (channel c) (rowtable c) (ref_clk c) (refreshed c) (readq c) (writeq c) (otherq c) (pending c)
    (pending_write c) (write_mode c) (trace c) x.
End Fields.

(** ** Statistics *)
Definition bump (k : Z) (m : gmap Z Z) : gmap Z Z := <[k := word m k + 1]> m.
Definition count_lengths (r w p : Z) (s : Stats) : Stats :=
  mkStats (req_queue_length_sum s + (r + w + p)) (read_req_queue_length_sum s + (r + p)) (write_req_queue_length_sum s + w)
    (read_latency_sum s) (queueing_latency_sum s) (read_transaction_bytes s) (write_transaction_bytes s)
    (row_hits s) (row_misses s) (row_conflicts s) (read_row_hits s) (read_row_misses s) (read_row_conflicts s)
    (write_row_hits s) (write_row_misses s) (write_row_conflicts s).
Definition count_latency (x : Z) (s : Stats) : Stats :=
  mkStats (req_queue_length_sum s) (read_req_queue_length_sum s) (write_req_queue_length_sum s)
    (read_latency_sum s + x) (queueing_latency_sum s) (read_transaction_bytes s) (write_transaction_bytes s)
    (row_hits s) (row_misses s) (row_conflicts s) (read_row_hits s) (read_row_misses s) (read_row_conflicts s)
    (write_row_hits s) (write_row_misses s) (write_row_conflicts s).
Definition count_read (wait tx core : Z) (hit opn : bool) (s : Stats) : Stats :=
  mkStats (req_queue_length_sum s) (read_req_queue_length_sum s) (write_req_queue_length_sum s)
    (read_latency_sum s) (queueing_latency_sum s + wait) (read_transaction_bytes s + tx) (write_transaction_bytes s)
    (row_hits s + (if hit then 1 else 0)) (row_misses s + (if hit || opn then 0 else 1))
    (row_conflicts s + (if negb hit && opn then 1 else 0))
    (if hit then bump core (read_row_hits s) else read_row_hits s)
    (if hit || opn then read_row_misses s else bump core (read_row_misses s))
    (if negb hit && opn then bump core (read_row_conflicts s) else read_row_conflicts s)
    (write_row_hits s) (write_row_misses s) (write_row_conflicts s).
Definition count_write (tx core : Z) (hit opn : bool) (s : Stats) : Stats :=
  mkStats (req_queue_length_sum s) (read_req_queue_length_sum s) (write_req_queue_length_sum s)
    (read_latency_sum s) (queueing_latency_sum s) (read_transaction_bytes s) (write_transaction_bytes s + tx)
    (row_hits s + (if hit then 1 else 0)) (row_misses s + (if hit || opn then 0 else 1))
    (row_conflicts s + (if negb hit && opn then 1 else 0))
    (read_row_hits s) (read_row_misses s) (read_row_conflicts s)
    (if hit then bump core (write_row_hits s) else write_row_hits s)
    (if hit || opn then write_row_misses s else bump core (write_row_misses s))
    (if negb hit && opn then bump core (write_row_conflicts s) else write_row_conflicts s).

(** ** Operations *)
Section Operations.
Context {C St : Type} `{!EqDecision C}.
Context (cs : CtrlSpec C St) (cf : CtrlConfig).
Abbreviation Ctrl := (Ctrl C St).
Abbreviation spec := (cs_dram cs).
Implicit Types (c : Ctrl) (req : Request).

(** [addr_vec.data()]. The tree reads at most the entry [Level::Row]; the keys
    of the row table, which are shorter by that entry, are only used with
    commands for which it does not matter. *)
Definition data (v : list Z) : nat -> Z := fun l => nth l v (-1).

Definition get_first_cmd (req : Request) (c : Ctrl) : result C :=
  let cmd := cs_translate cs (type req) in
  if cf_no_DRAM_latency cf then Ok cmd else decode spec (channel c) cmd (data (addr_vec req)).
Definition is_ready_cmd (cmd : C) (v : list Z) (c : Ctrl) : result bool := check spec (channel c) cmd (data v) (clk c).
Definition is_ready (req : Request) (c : Ctrl) : result bool :=
  bind_res (get_first_cmd req c) (fun cmd => is_ready_cmd cmd (addr_vec req) c).
Definition is_row_hit (req : Request) (c : Ctrl) : result bool :=
  check_row_hit spec (channel c) (cs_translate cs (type req)) (data (addr_vec req)).
Definition is_row_open (req : Request) (c : Ctrl) : result bool :=
  check_row_open spec (channel c) (cs_translate cs (type req)) (data (addr_vec req)).
Definition is_active (c : Ctrl) : bool := bool_decide (cur_serving_requests (nd_serv (channel c)) > 0).
Definition is_refresh (c : Ctrl) : bool := bool_decide (clk c <= end_of_refreshing (nd_serv (channel c))).

(** [enqueue]: the read of an address that a queued write has is answered in
    the next cycle, without the DRAM. *)
Definition enqueue (req : Request) : st Ctrl bool := fun c =>
  let k := get_queue (type req) in
  if decide (length (queue k c) = queue_max) then Ok (false, c)
  else
    let req := with_arrive (clk c) req in
    if bool_decide (type req = READ) && existsb (fun w => bool_decide (addr req = addr w)) (writeq c)
    then Ok (true, set_pending (pending c ++ [with_depart (clk c + 1) req]) c)
    else Ok (true, set_queue k (queue k c ++ [req]) c).

Definition serving (req : Request) (delta : Z) : st Ctrl unit := fun c =>
  match update_serving_requests spec (channel c) (data (addr_vec req)) delta (clk c) with
  | Ok nd => Ok (tt, set_channel nd c)
  | Err e => Err e
  end.

(** [issue_cmd]. *)
Definition issue_cmd (cmd : C) (v : list Z) : st Ctrl unit :=
  c ← gets id;
  b ← lift (is_ready_cmd cmd v c);
  assert_ b;;
  if cf_no_DRAM_latency cf then
    nd ← lift (update_timing spec (channel c) cmd (data v) (clk c));
    modify (fun c => set_trace ((cmd, v, clk c) :: trace c) (set_channel nd c))
  else
    nd ← lift (update spec (channel c) cmd (data v) (clk c));
    t ← lift (RowTable_update (sp_row spec) (sp_scope spec) (sp_opening spec) (cs_accessing cs) (cs_closing cs) cmd v (clk c) (rowtable c));
    modify (fun c => set_trace ((cmd, v, clk c) :: trace c) (set_rowtable t (set_channel nd c))).

(** *** Refresh *)

(** The request of [refresh_target]; its [addr], [depart] and [burst_count] are never read. *)
Definition refresh_request (chan rank bank sa : Z) : Request :=
  mkRequest true 0 ([chan; rank; bank; sa] ++ replicate (cs_levels cs - 4) (-1)) (-1) (-1) REFRESH (-1) 0 0.
Definition refresh_target (rank bank sa : Z) : st Ctrl unit :=
  c ← gets id;
  res ← enqueue (refresh_request (Z.of_nat (nd_id (channel c))) rank bank sa);
  assert_ res.
Fixpoint inject_ranks (ranks : list (Node C St)) : st Ctrl unit :=
  match ranks with
  | [] => mret tt
  | rank :: ranks => refresh_target (Z.of_nat (nd_id rank)) (-1) (-1);; inject_ranks ranks
  end.
(** [inject_refresh(true)]. *)
Definition inject_refresh : st Ctrl unit :=
  c ← gets id;
  inject_ranks (nd_children (channel c));;
  modify (fun c => set_refresh (ref_clk c) (ref_clk c) c).
Definition tick_ref : st Ctrl unit :=
  modify (fun c => set_refresh (ref_clk c + 1) (refreshed c) c);;
  c ← gets id;
  when (bool_decide (ref_clk c - refreshed c >= cs_nREFI cs)) inject_refresh.

(** *** One cycle *)
Definition tick_clock : st Ctrl unit := modify (fun c =>
  set_stats (count_lengths (Z.of_nat (length (readq c))) (Z.of_nat (length (writeq c))) (Z.of_nat (length (pending c))) (stats c))
    (set_clk (clk c + 1) c)).

(** 1. Serve completed reads. *)
Definition serve_reads : st Ctrl (list Request) :=
  c ← gets id;
  match pending c with
  | [] => mret []
  | req :: rest =>
      if depart req <=? clk c then
        when (bool_decide (depart req - arrive req > 1))
          (modify (fun c => set_stats (count_latency (depart req - arrive req) (stats c)) c);; serving req (-1));;
        modify (set_pending rest);;
        mret [req]
      else mret []
  end.
(** 1.1. Serve completed writes. *)
Definition serve_writes : st Ctrl (list Request) :=
  c ← gets id;
  match pending_write c with
  | [] => mret []
  | req :: rest => if depart req <=? clk c then modify (set_pending_write rest);; mret [req] else mret []
  end.

(** 3. Should we schedule writes? *)
Definition next_write_mode (c : Ctrl) : bool :=
  let w := Z.of_nat (length (writeq c)) in
  let idle := bool_decide (readq c = []) in
  if negb (write_mode c) then (high_mark <=? w) || idle
  else negb ((w <=? low_mark) && negb idle).

(** 4. The queue to serve, and its best request. *)
Definition chosen_queue (c : Ctrl) : QueueId :=
  match otherq c with [] => if write_mode c then WriteQ else ReadQ | _ => OtherQ end.
Definition choose (k : QueueId) : st Ctrl (option nat) :=
  c ← gets id;
  zoom rowtable set_rowtable
    (get_head (fun r => is_ready r c) (fun r => is_row_hit r c) (fun r => is_row_open r c) (get_hits (sp_row spec)) (cf_cap cf)
       (sp_scope spec (cs_PRE cs)) (cf_sched cf) (queue k c)).
(** Nothing to schedule: close a row, if the row policy says so. *)
Definition speculate : st Ctrl unit :=
  c ← gets id;
  if cf_no_DRAM_latency cf then mret tt
  else
    v ← lift (get_victim (cf_policy cf) (cf_timeout cf) (clk c) (fun k => is_ready_cmd (cs_PRE cs) k c) (rowtable c));
    when (bool_decide (v <> [])) (issue_cmd (cs_PRE cs) v).

(** [VectorStat::operator[]] asserts that the index is in range. *)
Definition counted (req : Request) : bool := (0 <=? coreid req) && (coreid req <? cs_cores cs).
(** The first command of a request: statistics. *)
Definition first_command (k : QueueId) (i : nat) (req : Request) : st Ctrl unit :=
  modify (fun c => set_queue k (<[i := not_first req]> (queue k c)) c);;
  when (bool_decide (type req = READ \/ type req = WRITE)) (serving req 1);;
  let tx := Z.quot (cs_prefetch_size cs * cs_channel_width cs) 8 * burst_count req in
  c ← gets id;
  match type req with
  | READ =>
      hit ← lift (is_row_hit req c);
      opn ← lift (if hit : bool then Ok false else is_row_open req c);
      assert_ (counted req);;
      modify (fun c => set_stats (count_read (clk c - arrive req) tx (coreid req) hit opn (stats c)) c)
  | WRITE =>
      hit ← lift (is_row_hit req c);
      opn ← lift (if hit : bool then Ok false else is_row_open req c);
      assert_ (counted req);;
      modify (fun c => set_stats (count_write tx (coreid req) hit opn (stats c)) c)
  | _ => mret tt
  end.
(** The last command of a request: it leaves its queue. *)
Definition last_command (k : QueueId) (i : nat) (req : Request) : st Ctrl unit :=
  match type req with
  | READ => modify (fun c => set_pending (pending c ++ [with_depart (clk c + cs_read_latency cs) req]) c)
  | WRITE =>
      serving req (-1);;
      modify (fun c => set_pending_write (pending_write c ++ [with_depart (clk c + cs_write_latency cs) req]) c)
  | _ => mret tt
  end;;
  modify (fun c => set_queue k (delete i (queue k c)) c).

Definition serve_request (k : QueueId) (i : nat) (req : Request) : st Ctrl unit :=
  when (is_first_command req) (first_command k i req);;
  c ← gets id;
  cmd ← lift (get_first_cmd req c);
  issue_cmd cmd (addr_vec req);;
  when (bool_decide (cmd = cs_translate cs (type req))) (last_command k i (not_first req)).

Definition schedule : st Ctrl unit :=
  c ← gets id;
  let k := chosen_queue c in
  h ← choose k;
  match h with
  | None => speculate
  | Some i =>
      match queue k c !! i with
      | None => fail Panicked
      | Some req =>
          c ← gets id;
          b ← lift (is_ready req c);
          if b : bool then serve_request k i req else speculate
      end
  end.

Definition tick : st Ctrl (list Request) :=
  tick_clock;;
  reads ← serve_reads;
  writes ← serve_writes;
  tick_ref;;
  modify (fun c => set_write_mode (next_write_mode c) c);;
  schedule;;
  mret (reads ++ writes).

(** [new Controller<T>(configs, channel)]. *)
Definition Controller_init (id : nat) : Ctrl :=
  mkCtrl 0 (DRAM_init spec id) ∅ 0 0 [] [] [] [] [] false [] stats_init.

(** *** Histories *)
Inductive Event : Type := Enqueue (r : Request) | Tick.
(** What a history shows: the answers of [enqueue], the callbacks of [tick]. *)
Inductive Output : Type := Accepted (r : Request) | Rejected (r : Request) | Done (l : list Request).
Definition step (e : Event) : st Ctrl Output :=
  match e with
  | Enqueue r => b ← enqueue r; mret (if b : bool then Accepted r else Rejected r)
  | Tick => l ← tick; mret (Done l)
  end.
Fixpoint run (l : list Event) : st Ctrl (list Output) :=
  match l with
  | [] => mret []
  | e :: l => o ← step e; os ← run l; mret (o :: os)
  end.
End Operations.
Arguments Controller_init {C St} cs.
