(* ===== verification/ControllerInv.v ===== *)
(** * The requests of the controller

    Where the requests are, when they complete and what the counters say, for
    every DRAM standard and every configuration.  Nothing here looks into the
    DRAM tree: that the controller never fails is the subject of
    ControllerSafe.v. *)

From stdpp Require Import base tactics numbers list gmap.
From Stdlib Require Import ZArith Lia.
From S2P Require Import Prelude Dram Scheduler Controller.

Open Scope Z_scope.

(** What identifies a request through the controller. *)
Definition tag (r : Request) : ReqType * Z * list Z * Z * Z := (type r, addr r, addr_vec r, reqid r, coreid r).
Definition is_data (r : Request) : bool := bool_decide (type r = READ \/ type r = WRITE).
Definition data_tags (l : list Request) : list (ReqType * Z * list Z * Z * Z) :=
  omap (fun r => if is_data r then Some (tag r) else None) l.
(** The reads and writes that have had a command, and the time the reads took. *)
Definition started (l : list Request) : list Request := filter (fun r => is_data r = true /\ is_first_command r = false) l.
Definition from_dram (r : Request) : bool := bool_decide (depart r - arrive r > 1).
Definition latencies (l : list Request) : Z :=
  foldr Z.add 0 ((fun r => depart r - arrive r) <$> filter (fun r => type r = READ /\ from_dram r = true) l).

Lemma data_tags_app l1 l2 : data_tags (l1 ++ l2) = data_tags l1 ++ data_tags l2.
Proof. apply omap_app. Qed.
Lemma started_app l1 l2 : started (l1 ++ l2) = started l1 ++ started l2.
Proof. apply filter_app. Qed.
Lemma latencies_app l1 l2 : latencies (l1 ++ l2) = latencies l1 + latencies l2.
Proof.
  unfold latencies. rewrite filter_app, fmap_app, foldr_app.
  generalize ((fun r => depart r - arrive r) <$> filter (fun r => type r = READ /\ from_dram r = true) l1). intros l.
  induction l as [|x l IH]; simpl; [done|]. rewrite IH. lia.
Qed.
#[export] Instance data_tags_perm : Proper ((≡ₚ) ==> (≡ₚ)) data_tags.
Proof. unfold data_tags. intros l1 l2 H. by rewrite H. Qed.
#[export] Instance started_perm : Proper ((≡ₚ) ==> (≡ₚ)) started.
Proof. unfold started. intros l1 l2 H. by rewrite H. Qed.

Lemma insert_delete_perm {A} (l : list A) i x y : l !! i = Some x -> <[i := y]> l ≡ₚ y :: delete i l.
Proof.
  revert i. induction l as [|a l IH]; intros [|i]; simpl; try discriminate; [done|].
  intros H. rewrite (IH i H). apply Permutation_swap.
Qed.

Section Inv.
Context {C St : Type} `{!EqDecision C}.
Context (cs : CtrlSpec C St) (cf : CtrlConfig).
(** What is known of the reads that a queued write has answered. *)
Context (Fwd : Request -> Prop).
Abbreviation Ctrl := (Ctrl C St).
Implicit Types (c : Ctrl) (r : Request).

Definition content c : list Request := readq c ++ writeq c ++ otherq c ++ pending c ++ pending_write c.
Definition others (k : QueueId) c : list Request :=
  match k with
  | ReadQ => writeq c ++ otherq c ++ pending c ++ pending_write c
  | WriteQ => readq c ++ otherq c ++ pending c ++ pending_write c
  | OtherQ => readq c ++ writeq c ++ pending c ++ pending_write c
  end.

Lemma content_queue k c : content c ≡ₚ queue k c ++ others k c.
Proof. unfold content, others, queue. destruct k; solve_Permutation. Qed.
Lemma content_set_queue k q c : content (set_queue k q c) ≡ₚ q ++ others k c.
Proof. unfold content, others, set_queue. destruct k; simpl; solve_Permutation. Qed.
Lemma queue_set_queue k q c : queue k (set_queue k q c) = q.
Proof. by destruct k. Qed.
Lemma content_set_pending l c :
  pending c = [] \/ True -> content (set_pending (pending c ++ l) c) ≡ₚ l ++ content c.
Proof. intros _. unfold content. simpl. solve_Permutation. Qed.
Lemma content_set_pending_write l c : content (set_pending_write (pending_write c ++ l) c) ≡ₚ l ++ content c.
Proof. unfold content. simpl. solve_Permutation. Qed.

(** Only the DRAM, the row table and the trace differ. *)
Record quiet c c' : Prop := {
  q_clk : clk c' = clk c;
  q_ref : ref_clk c' = ref_clk c;
  q_refreshed : refreshed c' = refreshed c;
  q_queue : forall k, queue k c' = queue k c;
  q_pending : pending c' = pending c;
  q_pending_write : pending_write c' = pending_write c;
  q_mode : write_mode c' = write_mode c;
  q_stats : stats c' = stats c;
}.
Lemma quiet_refl c : quiet c c.
Proof. by split. Qed.
Lemma quiet_trans c1 c2 c3 : quiet c1 c2 -> quiet c2 c3 -> quiet c1 c3.
Proof. intros [] []. split; congruence. Qed.
Lemma quiet_content c c' : quiet c c' -> content c' = content c.
Proof.
  intros []. unfold content. pose proof (q_queue0 ReadQ) as H1. pose proof (q_queue0 WriteQ) as H2. pose proof (q_queue0 OtherQ) as H3.
  simpl in *. congruence.
Qed.

Lemma serving_quiet r d c : wlp (serving cs r d) c (fun _ c' => quiet c c').
Proof. unfold wlp, serving. destruct (update_serving_requests _ _ _ _ _); [|done]. by split; try intros []. Qed.
Lemma issue_quiet cmd v c : wlp (issue_cmd cs cf cmd v) c (fun _ c' => quiet c c').
Proof.
  unfold issue_cmd. repeat first [wlp_step | intros ? _ | intros _]. destruct (cf_no_DRAM_latency cf);
    repeat first [wlp_step | intros ? _ | intros _]; by split; try intros [].
Qed.
Lemma choose_quiet k c : wlp (choose cs cf k) c (fun _ c' => quiet c c').
Proof. unfold choose. do 3 wlp_step. apply wlp_true. intros h t. by split; try intros []. Qed.
Lemma speculate_quiet c : wlp (speculate cs cf) c (fun _ c' => quiet c c').
Proof.
  unfold speculate. do 2 wlp_step. destruct (cf_no_DRAM_latency cf); [wlp_step; apply quiet_refl|].
  wlp_step. wlp_step. intros v _. wlp_step; [intros _; apply issue_quiet|intros _; apply quiet_refl].
Qed.

(** ** The ledger *)

(** [acc]: the requests accepted so far; [done]: those called back so far. *)
Record ledger (acc done : list Request) c : Prop := {
  ld_tags : data_tags acc ≡ₚ data_tags (done ++ content c);
  ld_started : row_hits (stats c) + row_misses (stats c) + row_conflicts (stats c) = Z.of_nat (length (started (done ++ content c)));
  ld_latency : read_latency_sum (stats c) = latencies done;
}.
(** The clocks of the requests; those in the queues arrived [n] cycles ago or earlier. *)
Record timed (n : Z) c : Prop := {
  tm_room : forall k, (length (queue k c) <= queue_max)%nat;
  tm_queue : forall k r, r ∈ queue k c -> get_queue (type r) = k /\ (is_data r = true -> arrive r + n <= clk c);
  tm_pending : forall r, r ∈ pending c ->
    type r = READ /\ ((is_first_command r = true /\ depart r = arrive r + 1 /\ Fwd r) \/
                      (is_first_command r = false /\ arrive r + 1 + cs_read_latency cs <= depart r));
  tm_write : forall r, r ∈ pending_write c -> type r = WRITE /\ arrive r + 1 + cs_write_latency cs <= depart r;
}.
Definition inv (n : Z) (acc done : list Request) c : Prop := ledger acc done c /\ timed n c.

Lemma inv_quiet n acc done c c' : quiet c c' -> inv n acc done c -> inv n acc done c'.
Proof.
  intros Hq [[H1 H2 H3] [H4 H5 H6 H7]]. pose proof (quiet_content _ _ Hq) as Hc. destruct Hq. split; split.
  - by rewrite Hc.
  - by rewrite q_stats0, Hc.
  - by rewrite q_stats0.
  - intros k. by rewrite q_queue0.
  - intros k r. rewrite q_queue0, q_clk0. apply H5.
  - rewrite q_pending0. exact H6.
  - rewrite q_pending_write0. exact H7.
Qed.
Lemma inv_weaken n acc done c : 0 <= n -> inv n acc done c -> inv 0 acc done c.
Proof.
  intros Hn [Hl [H1 H2 H3 H4]]. split; [exact Hl|]. split; [exact H1| |exact H3|exact H4].
  intros k r Hr. destruct (H2 k r Hr) as [? H]. split; [done|]. intros Hd. specialize (H Hd). lia.
Qed.
Lemma wlp_quiet {A} (m : st Ctrl A) c n acc done :
  wlp m c (fun _ c' => quiet c c') -> inv n acc done c -> wlp m c (fun _ c' => inv n acc done c').
Proof. intros Hm Hi. eapply wlp_mono; [exact Hm|]. intros a c' Hq. exact (inv_quiet _ _ _ _ _ Hq Hi). Qed.

Lemma tag_with_arrive a r : tag (with_arrive a r) = tag r.
Proof. done. Qed.

Lemma data_tags_one r l : data_tags (r :: l) = (if is_data r then [tag r] else []) ++ data_tags l.
Proof. unfold data_tags. simpl. by destruct (is_data r). Qed.
Lemma started_one r l : started (r :: l) = (if is_data r && negb (is_first_command r) then [r] else []) ++ started l.
Proof.
  unfold started. rewrite filter_cons. destruct (decide _) as [[-> ->]|Hn]; [done|].
  destruct (is_data r), (is_first_command r); simpl; try done. exfalso. by apply Hn.
Qed.

(** A request that is new in the content: like one of the accepted ones, or not data. *)
Lemma ledger_new acc done c c' r r' :
  ledger acc done c -> stats c' = stats c -> content c' ≡ₚ r' :: content c ->
  tag r' = tag r -> is_first_command r' = is_first_command r -> (is_data r = true -> is_first_command r = true) ->
  ledger (acc ++ [r]) done c'.
Proof.
  intros [H1 H2 H3] Hs Hc Ht Hf Hfirst. pose proof Ht as [= Hty _ _ _ _].
  assert (is_data r' = is_data r) as Hd by (unfold is_data; by rewrite Hty).
  split.
  - rewrite data_tags_app, H1, Hc, !data_tags_app, !data_tags_one, Hd, Ht, app_nil_r. solve_Permutation.
  - rewrite Hs, H2. f_equal. rewrite Hc, !started_app, started_one, Hd, Hf.
    destruct (is_data r); simpl; [by rewrite Hfirst|done].
  - by rewrite Hs.
Qed.

(** A write of the address of a read is in its queue: it answers the read. *)
Definition write_queued c r : Prop := type r = READ /\ exists w, w ∈ writeq c /\ type w = WRITE /\ addr w = addr r.

Lemma write_queued_intro n c r : timed n c -> type r = READ -> existsb (fun w => bool_decide (addr r = addr w)) (writeq c) = true -> write_queued c r.
Proof.
  intros Ht Hty (w & Hw & Ha%bool_decide_eq_true)%existsb_exists. split; [done|]. apply list_elem_of_In in Hw. exists w.
  split_and!; [done| |done]. destruct (tm_queue _ _ Ht WriteQ w Hw) as [H _]. by destruct (type w).
Qed.

Lemma enqueue_inv n acc done c r :
  inv n acc done c -> (is_data r = true -> n <= 0 /\ is_first_command r = true) ->
  (write_queued c r -> Fwd (with_depart (clk c + 1) (with_arrive (clk c) r))) ->
  wlp (enqueue r) c (fun b c' =>
    inv n (if b : bool then acc ++ [r] else acc) done c' /\ clk c' = clk c /\
    (b = false <-> length (queue (get_queue (type r)) c) = queue_max) /\ (b = false -> c' = c)).
Proof.
  intros [Hl Ht] Hr Hans. unfold wlp, enqueue. destruct (decide _) as [Hfull|Hroom]; [by split|].
  destruct (bool_decide (type _ = READ) && _) eqn:Hfwd.
  - apply andb_true_iff in Hfwd as [Hty%bool_decide_eq_true Hex]. simpl in Hty, Hex.
    pose proof (write_queued_intro n c r Ht Hty Hex) as Ha.
    split; [|split; [done|split; [split; [done|by intros ?]|done]]]. split.
    + eapply (ledger_new _ _ c _ r (with_depart (clk c + 1) (with_arrive (clk c) r))); [exact Hl|done| |done|done|intros H; by apply Hr].
      by rewrite content_set_pending by auto.
    + destruct Ht as [H1 H2 H3 H4]. split; [exact H1|exact H2| |exact H4].
      simpl. intros x [Hx|Hx]%elem_of_app; [by apply H3|]. apply list_elem_of_singleton in Hx as ->. split; [exact Hty|].
      left. split; [|by split; [|apply Hans]]. apply Hr. unfold is_data. rewrite Hty. done.
  - split; [|split; [done|split; [split; [done|by intros ?]|done]]]. split.
    + eapply (ledger_new _ _ c _ r (with_arrive (clk c) r)); [exact Hl|done| |done|done|intros H; by apply Hr].
      rewrite content_set_queue, (content_queue (get_queue (type r)) c). simpl. solve_Permutation.
    + destruct Ht as [H1 H2 H3 H4]. split; [| |exact H3|exact H4].
      * intros k. destruct (decide (k = get_queue (type r))) as [->|Hk].
        { rewrite queue_set_queue, length_app. simpl. pose proof (H1 (get_queue (type r))). lia. }
        { assert (queue k (set_queue (get_queue (type r)) (queue (get_queue (type r)) c ++ [with_arrive (clk c) r]) c) = queue k c) as ->;
            [|apply H1]. by destruct k, (get_queue (type r)). }
      * intros k x. destruct (decide (k = get_queue (type r))) as [->|Hk].
        { rewrite queue_set_queue. intros [Hx|Hx]%elem_of_app; [by apply H2|]. apply list_elem_of_singleton in Hx as ->.
          simpl. split; [done|]. intros Hd. destruct (Hr Hd) as [? _]. lia. }
        { assert (queue k (set_queue (get_queue (type r)) (queue (get_queue (type r)) c ++ [with_arrive (clk c) r]) c) = queue k c) as ->;
            [|apply H2]. by destruct k, (get_queue (type r)). }
Qed.

(** ** One cycle *)
Definition clocks c : Z * Z * Z := (clk c, ref_clk c, refreshed c).
Lemma quiet_clocks c c' : quiet c c' -> clocks c' = clocks c.
Proof. intros []. unfold clocks. congruence. Qed.

(** A request is called back when its data are there: a cycle after its arrival
    if a queued write answered it, and no earlier than the latency otherwise. *)
Definition on_time (now : Z) r : Prop :=
  depart r <= now /\
  ((type r = READ /\ (depart r = arrive r + 1 /\ Fwd r \/ arrive r + 1 + cs_read_latency cs <= depart r)) \/
   (type r = WRITE /\ arrive r + 1 + cs_write_latency cs <= depart r)).

Lemma tick_clock_inv acc done c :
  inv 0 acc done c ->
  wlp tick_clock c (fun _ c' => inv 1 acc done c' /\ clocks c' = (clk c + 1, ref_clk c, refreshed c)).
Proof.
  intros [[H1 H2 H3] [H4 H5 H6 H7]]. unfold tick_clock. wlp_step. split; [|done].
  split; split; try done. intros k r Hr. assert (r ∈ queue k c) as Hr' by (by destruct k).
  destruct (H5 k r Hr') as [? H]. split; [done|]. intros Hd. specialize (H Hd). simpl. lia.
Qed.

Lemma serve_reads_inv n acc done c :
  inv n acc done c ->
  wlp (serve_reads cs) c (fun l c' => inv n acc (done ++ l) c' /\ clocks c' = clocks c /\ Forall (on_time (clk c)) l).
Proof.
  intros Hi. unfold serve_reads. do 2 wlp_step. unfold id. destruct (pending c) as [|req rest] eqn:Hp.
  { wlp_step. by rewrite app_nil_r. }
  destruct (Z.leb_spec (depart req) (clk c)) as [Hd|Hd]; [|wlp_step; by rewrite app_nil_r].
  destruct Hi as [[H1 H2 H3] [H4 H5 H6 H7]]. destruct (H6 req) as [Hty Htm]; [rewrite Hp; by left|].
  assert (content c ≡ₚ req :: content (set_pending rest c)) as Hc.
  { unfold content. simpl. rewrite Hp. solve_Permutation. }
  (* whatever the DRAM says, the counters are those of the ledger *)
  assert (forall c1, quiet (set_stats (stats c1) c) c1 ->
    row_hits (stats c1) = row_hits (stats c) -> row_misses (stats c1) = row_misses (stats c) ->
    row_conflicts (stats c1) = row_conflicts (stats c) ->
    read_latency_sum (stats c1) = latencies (done ++ [req]) ->
    wlp (modify (set_pending rest);; mret [req]) c1 (fun l c' =>
      inv n acc (done ++ l) c' /\ clocks c' = clocks c /\ Forall (on_time (clk c)) l)) as Hrest.
  { intros c1 [Q1 Q2 Q3 Q4 Q5 Q6 Q7 Q8] Hh Hm Hcf Hlat. do 2 wlp_step. wlp_step.
    pose proof (Q4 ReadQ) as QR. pose proof (Q4 WriteQ) as QW. pose proof (Q4 OtherQ) as QO. simpl in *.
    assert (content (set_pending rest c1) = content (set_pending rest c)) as Hcc.
    { unfold content. simpl. congruence. }
    split; [split; split|split].
    - rewrite Hcc, H1, Hc, !data_tags_app, (data_tags_one req (content _)), (data_tags_one req []). simpl. rewrite app_nil_r. solve_Permutation.
    - simpl. rewrite Hh, Hm, Hcf, H2, Hcc. f_equal. rewrite Hc, !started_app, (started_one req (content _)), (started_one req []).
      rewrite !length_app. simpl. lia.
    - exact Hlat.
    - intros k. pose proof (H4 k). destruct k; simpl in *; congruence.
    - intros k r Hr. simpl. rewrite Q1. apply H5. destruct k; simpl in *; congruence.
    - simpl. intros r Hr. apply H6. rewrite Hp. by right.
    - simpl. rewrite Q6. exact H7.
    - unfold clocks. simpl. by rewrite Q1, Q2, Q3.
    - constructor; [|constructor]. split; [exact Hd|]. left. split; [done|]. destruct Htm as [[_ ?]|[_ ?]]; auto. }
  assert (latencies (done ++ [req]) = latencies done + (if from_dram req then depart req - arrive req else 0)) as Hlat.
  { rewrite latencies_app. f_equal. unfold latencies. rewrite filter_cons.
    destruct (decide _) as [[_ ->]|Hn]; simpl; [lia|]. destruct (from_dram req); [|done]. exfalso. by apply Hn. }
  wlp_step. wlp_step; intros Hfd.
  - do 2 wlp_step. eapply wlp_mono; [apply serving_quiet|]. intros [] c1 Hq1. apply Hrest.
    + destruct Hq1 as [Q1 Q2 Q3 Q4 Q5 Q6 Q7 Q8]. split; simpl in *; try done.
    + by rewrite (q_stats _ _ Hq1).
    + by rewrite (q_stats _ _ Hq1).
    + by rewrite (q_stats _ _ Hq1).
    + rewrite (q_stats _ _ Hq1), Hlat. simpl. unfold from_dram. by rewrite Hfd, H3.
  - apply Hrest; [by split|done|done|done|]. rewrite Hlat, H3. unfold from_dram. rewrite Hfd. lia.
Qed.

Lemma serve_writes_inv n acc done c :
  inv n acc done c ->
  wlp serve_writes c (fun l c' => inv n acc (done ++ l) c' /\ clocks c' = clocks c /\ Forall (on_time (clk c)) l).
Proof.
  intros Hi. unfold serve_writes. do 2 wlp_step. unfold id. destruct (pending_write c) as [|req rest] eqn:Hp.
  { wlp_step. by rewrite app_nil_r. }
  destruct (Z.leb_spec (depart req) (clk c)) as [Hd|Hd]; [|wlp_step; by rewrite app_nil_r].
  do 3 wlp_step. destruct Hi as [[H1 H2 H3] [H4 H5 H6 H7]].
  destruct (H7 req) as [Hty Htm]; [rewrite Hp; by left|].
  assert (content c ≡ₚ req :: content (set_pending_write rest c)) as Hc.
  { unfold content. simpl. rewrite Hp. solve_Permutation. }
  split; [split; split|split; [done|]].
  - rewrite H1, Hc, !data_tags_app, (data_tags_one req (content _)), (data_tags_one req []). simpl. rewrite app_nil_r. solve_Permutation.
  - simpl. rewrite H2. f_equal. rewrite Hc, !started_app, (started_one req (content _)), (started_one req []).
    rewrite !length_app. simpl. lia.
  - simpl. rewrite H3, latencies_app. unfold latencies at 3. rewrite filter_cons, decide_False by (intros [? _]; congruence). simpl. lia.
  - intros k. by destruct k; apply (H4 ReadQ) || apply (H4 WriteQ) || apply (H4 OtherQ).
  - intros k r Hr. apply (H5 k r). by destruct k.
  - exact H6.
  - simpl. intros r Hr. apply H7. rewrite Hp. by right.
  - constructor; [|constructor]. split; [exact Hd|]. by right.
Qed.

Lemma inv_drop n acc done c r : is_data r = false -> inv n (acc ++ [r]) done c -> inv n acc done c.
Proof.
  intros Hr [[H1 H2 H3] Ht]. split; [split; [|done|done]|done].
  rewrite <- H1, data_tags_app, data_tags_one, Hr. simpl. by rewrite app_nil_r.
Qed.

Lemma refresh_target_inv acc done rank bank sa c :
  inv 1 acc done c ->
  wlp (refresh_target cs rank bank sa) c (fun _ c' => inv 1 acc done c' /\ clk c' = clk c).
Proof.
  intros Hi. unfold refresh_target. do 3 wlp_step.
  set (r := refresh_request cs _ rank bank sa).
  eapply wlp_mono; [apply (enqueue_inv 1 acc done c r Hi); [done|by intros [? _]]|]. intros b c' (Hi' & Hc & _). wlp_step. intros ->.
  split; [|done]. by apply (inv_drop 1 acc done c' r).
Qed.
Lemma enqueue_ref r c : wlp (enqueue r) c (fun _ c' => ref_clk c' = ref_clk c /\ refreshed c' = refreshed c).
Proof. unfold wlp, enqueue. destruct (decide _); [done|]. by destruct (_ && _). Qed.
Lemma inject_ranks_inv acc done l c :
  inv 1 acc done c -> wlp (inject_ranks cs l) c (fun _ c' => inv 1 acc done c' /\ clocks c' = clocks c).
Proof.
  revert c. induction l as [|rank l IH]; intros c Hi; cbn [inject_ranks]; wlp_step; [done|].
  assert (wlp (refresh_target cs (Z.of_nat (nd_id rank)) (-1) (-1)) c (fun _ c' => ref_clk c' = ref_clk c /\ refreshed c' = refreshed c)) as Hr.
  { unfold refresh_target. do 3 wlp_step. eapply wlp_mono; [apply enqueue_ref|]. intros b c' H. by wlp_step. }
  pose proof (refresh_target_inv acc done (Z.of_nat (nd_id rank)) (-1) (-1) c Hi) as Ht.
  unfold wlp in Hr, Ht |- *. destruct (refresh_target _ _ _ _ c) as [[[] c1]|]; [|done].
  destruct Ht as [Hi1 Hc1], Hr as [Hr1 Hr2]. pose proof (IH c1 Hi1) as H. unfold wlp in H.
  destruct (inject_ranks cs l c1) as [[[] c2]|]; [|done]. destruct H as [? H]. split; [done|].
  rewrite H. unfold clocks. congruence.
Qed.

(** The refresh clock: a refresh is due every [nREFI] cycles. *)
Definition next_refreshed c : Z := if bool_decide (ref_clk c + 1 - refreshed c >= cs_nREFI cs) then ref_clk c + 1 else refreshed c.
Lemma tick_ref_inv acc done c :
  inv 1 acc done c ->
  wlp (tick_ref cs) c (fun _ c' => inv 1 acc done c' /\ clocks c' = (clk c, ref_clk c + 1, next_refreshed c)).
Proof.
  intros [[H1 H2 H3] [H4 H5 H6 H7]]. unfold tick_ref. do 4 wlp_step.
  assert (inv 1 acc done (set_refresh (ref_clk c + 1) (refreshed c) c)) as Hi.
  { split; split; try done; intros k; by destruct k; apply (H4 ReadQ) || apply (H4 WriteQ) || apply (H4 OtherQ) ||
      apply (H5 ReadQ) || apply (H5 WriteQ) || apply (H5 OtherQ). }
  unfold id, next_refreshed. cbn [ref_clk refreshed set_refresh]. wlp_step; intros ->; [|by split].
  unfold inject_refresh. do 3 wlp_step. eapply wlp_mono; [by apply inject_ranks_inv|].
  intros [] c1 [[[G1 G2 G3] [G4 G5 G6 G7]] Hc]. wlp_step. split.
  - split; split; try done; intros k; by destruct k; apply (G4 ReadQ) || apply (G4 WriteQ) || apply (G4 OtherQ) ||
      apply (G5 ReadQ) || apply (G5 WriteQ) || apply (G5 OtherQ).
  - unfold clocks in *. simpl in *. injection Hc as E1 E2 _. by rewrite E1, E2.
Qed.

Lemma data_tags_not_first r l : data_tags (not_first r :: l) = data_tags (r :: l).
Proof. by rewrite !data_tags_one. Qed.

Definition row_count (s : Stats) : Z := row_hits s + row_misses s + row_conflicts s.
Lemma count_read_rows w tx co h o s : row_count (count_read w tx co h o s) = row_count s + 1 /\
  read_latency_sum (count_read w tx co h o s) = read_latency_sum s.
Proof. unfold row_count. split; [|done]. destruct h, o; simpl; lia. Qed.
Lemma count_write_rows tx co h o s : row_count (count_write tx co h o s) = row_count s + 1 /\
  read_latency_sum (count_write tx co h o s) = read_latency_sum s.
Proof. unfold row_count. split; [|done]. destruct h, o; simpl; lia. Qed.

(** The request at [i] has had its first command; the counters do not know yet. *)
Record marked acc done (n : Z) (k : QueueId) (i : nat) req c : Prop := {
  mk_timed : timed 1 c;
  mk_tags : data_tags acc ≡ₚ data_tags (done ++ content c);
  mk_started : Z.of_nat (length (started (done ++ content c))) = n;
  mk_at : queue k c !! i = Some (not_first req);
}.
Lemma mark_first acc done k i req c :
  inv 1 acc done c -> queue k c !! i = Some req -> is_first_command req = true ->
  marked acc done (row_count (stats c) + (if is_data req then 1 else 0)) k i req
    (set_queue k (<[i := not_first req]> (queue k c)) c).
Proof.
  intros [[H1 H2 H3] [H4 H5 H6 H7]] Hk Hf. set (c1 := set_queue k (<[i := not_first req]> (queue k c)) c).
  assert (queue k c1 = <[i := not_first req]> (queue k c)) as Hq by apply queue_set_queue.
  assert (content c1 ≡ₚ not_first req :: delete i (queue k c) ++ others k c) as Hc1.
  { unfold c1. rewrite content_set_queue, (insert_delete_perm _ _ _ _ Hk). done. }
  assert (content c ≡ₚ req :: delete i (queue k c) ++ others k c) as Hc.
  { etrans; [apply (content_queue k)|]. exact (Permutation_app_tail (others k c) (delete_Permutation _ _ _ Hk)). }
  split.
  - split; [| |done|done]; intros k'; (destruct (decide (k' = k)) as [->|Hne];
      [rewrite Hq|assert (queue k' c1 = queue k' c) as -> by (by destruct k', k)]).
    + rewrite length_insert. apply H4.
    + apply H4.
    + intros r (j & Hj)%list_elem_of_lookup. apply list_lookup_insert_Some in Hj as [(_ & <- & _)|[_ Hj]].
      * apply (H5 k req). by eapply list_elem_of_lookup_2.
      * apply (H5 k r). by eapply list_elem_of_lookup_2.
    + apply H5.
  - rewrite H1, !data_tags_app, Hc, Hc1. by rewrite data_tags_not_first.
  - unfold row_count. rewrite H2, !started_app, Hc, Hc1, !started_one, !length_app. rewrite Hf. simpl.
    change (is_data (not_first req)) with (is_data req). rewrite andb_false_r, andb_true_r. destruct (is_data req); simpl; lia.
  - rewrite Hq. apply list_lookup_insert_eq. by eapply lookup_lt_Some.
Qed.
(** Now they do. *)
Lemma marked_counted acc done k i req c n c1 s :
  marked acc done n k i req c -> quiet c c1 -> row_count s = n -> read_latency_sum s = latencies done ->
  inv 1 acc done (set_stats s c1) /\ clocks (set_stats s c1) = clocks c /\ queue k (set_stats s c1) !! i = Some (not_first req).
Proof.
  intros [[T1 T2 T3 T4] Htags Hst Hi] Hqt Hs Hl. pose proof (quiet_content _ _ Hqt) as Hcc. pose proof (quiet_clocks _ _ Hqt) as Hck.
  destruct Hqt as [Q1 Q2 Q3 Q4 Q5 Q6 Q7 Q8].
  assert (forall k, queue k (set_stats s c1) = queue k c) as Hqq by (intros k'; rewrite <- Q4; by destruct k').
  assert (content (set_stats s c1) = content c) as Hc2 by (rewrite <- Hcc; done).
  split; [split; split|split].
  - by rewrite Hc2.
  - by rewrite Hc2, Hst.
  - exact Hl.
  - intros k'. by rewrite Hqq.
  - intros k' r. rewrite Hqq. simpl. rewrite Q1. apply T2.
  - simpl. by rewrite Q5.
  - simpl. by rewrite Q6.
  - exact Hck.
  - by rewrite Hqq.
Qed.
Lemma set_stats_same c c1 : quiet c c1 -> set_stats (stats c) c1 = c1.
Proof. intros [_ _ _ _ _ _ _ H]. destruct c1; simpl in *. by rewrite H. Qed.

(** The first command takes the request off the list of those that wait, and counts it. *)
Lemma first_command_inv acc done k i req c :
  inv 1 acc done c -> queue k c !! i = Some req -> is_first_command req = true ->
  wlp (first_command cs k i req) c (fun _ c' =>
    inv 1 acc done c' /\ clocks c' = clocks c /\ queue k c' !! i = Some (not_first req)).
Proof.
  intros Hinv Hk Hf. pose proof (mark_first acc done k i req c Hinv Hk Hf) as Hm. destruct Hinv as [[_ _ H3] _].
  unfold first_command. do 2 wlp_step. set (c1 := set_queue k (<[i := not_first req]> (queue k c)) c) in *.
  assert (clocks c1 = clocks c) as <- by done. wlp_step. wlp_step; intros Hty.
  - eapply wlp_mono; [apply serving_quiet|]. intros [] c2 Hqt. do 2 wlp_step. unfold id.
    assert (stats c2 = stats c) as Hs2 by (by rewrite (q_stats _ _ Hqt)).
    assert (is_data req = true) as Hd by exact Hty. rewrite Hd in Hm.
    destruct (type req); try (exfalso; done); do 2 (wlp_step; wlp_step; intros ? _); wlp_step; wlp_step; intros _; wlp_step;
      (eapply marked_counted; [exact Hm|exact Hqt| |]); rewrite Hs2; try rewrite <- H3;
      first [apply count_read_rows|apply count_write_rows].
  - assert (is_data req = false) as Hd by exact Hty. rewrite Hd, Z.add_0_r in Hm.
    pose proof (marked_counted _ _ _ _ _ _ _ c1 (stats c) Hm (quiet_refl c1) eq_refl H3) as Hend.
    do 2 wlp_step. unfold id. destruct (type req); try (exfalso; done); wlp_step; exact Hend.
Qed.

(** The last command moves the request on. *)
Lemma last_command_inv acc done k i req c :
  inv 1 acc done c -> queue k c !! i = Some req -> is_first_command req = false ->
  wlp (last_command cs k i req) c (fun _ c' => inv 1 acc done c' /\ clocks c' = clocks c).
Proof.
  intros Hi Hk Hf. unfold last_command. wlp_step.
  (* the request stays in the queue, with a copy of it in [l] *)
  assert (forall l c2, content c2 ≡ₚ l ++ content c -> (forall k, queue k c2 = queue k c) -> clocks c2 = clocks c -> stats c2 = stats c ->
    (if is_data req then exists r', l = [r'] /\ tag r' = tag req /\ is_first_command r' = false else l = []) ->
    (forall r, r ∈ pending c2 -> type r = READ /\ ((is_first_command r = true /\ depart r = arrive r + 1 /\ Fwd r) \/
      (is_first_command r = false /\ arrive r + 1 + cs_read_latency cs <= depart r))) ->
    (forall r, r ∈ pending_write c2 -> type r = WRITE /\ arrive r + 1 + cs_write_latency cs <= depart r) ->
    wlp (modify (fun c => set_queue k (delete i (queue k c)) c)) c2 (fun _ c' => inv 1 acc done c' /\ clocks c' = clocks c)) as Hrest.
  { intros l c2 Hc2 Hq2 Hck Hs2 Hl Hp Hw. wlp_step. destruct Hi as [[H1 H2 H3] [H4 H5 _ _]].
    assert (req :: content (set_queue k (delete i (queue k c2)) c2) ≡ₚ l ++ content c) as Hc.
    { rewrite <- Hc2, (content_queue k c2), content_set_queue, Hq2. symmetry.
      exact (Permutation_app_tail (others k c2) (delete_Permutation _ _ _ Hk)). }
    set (c3 := set_queue k _ c2) in *.
    assert (data_tags (content c3) ≡ₚ data_tags (content c) /\ length (started (content c3)) = length (started (content c))) as [Ht Hst].
    { destruct (is_data req) eqn:Hd.
      - destruct Hl as (r' & -> & Htag & Hf'). assert (is_data r' = true) as Hd' by (unfold is_data; by rewrite (f_equal (fun x => x.1.1.1.1) Htag : type r' = type req)).
        cbn [app] in Hc. pose proof (data_tags_perm _ _ Hc) as E1. pose proof (Permutation_length (started_perm _ _ Hc)) as E2. revert E1 E2.
        rewrite !data_tags_one, !started_one, Hd, Hd', Hf, Hf', Htag. cbn [app andb negb length]. intros E1 E2.
        split; [by apply Permutation_cons_inv in E1|lia].
      - subst l. simpl in Hc. rewrite <- Hc, data_tags_one, started_one, Hd. done. }
    split; [split; split|].
    - by rewrite H1, !data_tags_app, Ht.
    - change (stats c3) with (stats c2). rewrite Hs2, H2, !started_app, !length_app. lia.
    - change (stats c3) with (stats c2). by rewrite Hs2.
    - intros k'. destruct (decide (k' = k)) as [->|Hne].
      + unfold c3. rewrite queue_set_queue, Hq2. pose proof (H4 k). etrans; [|exact H]. rewrite length_delete by (by eexists). lia.
      + assert (queue k' c3 = queue k' c2) as -> by (by destruct k', k). rewrite Hq2. apply H4.
    - intros k' r Hr. assert (clk c3 = clk c) as -> by (by injection Hck). apply H5.
      destruct (decide (k' = k)) as [->|Hne].
      + unfold c3 in Hr. rewrite queue_set_queue, Hq2 in Hr. eapply elem_of_submseteq; [exact Hr|]. apply submseteq_delete.
      + rewrite <- Hq2. by assert (queue k' c2 = queue k' c3) as -> by (by destruct k', k).
    - exact Hp.
    - exact Hw.
    - exact Hck. }
  destruct Hi as [_ [_ H5 H6 H7]]. destruct (H5 k req) as [_ Hold]; [by eapply list_elem_of_lookup_2|].
  destruct (type req) eqn:Hty.
  3-6: wlp_step; assert (is_data req = false) as Hd by (unfold is_data; by rewrite Hty); rewrite Hd in Hrest; by apply (Hrest []).
  - wlp_step. assert (is_data req = true) as Hd by (unfold is_data; by rewrite Hty). rewrite Hd in Hrest.
    apply (Hrest [with_depart (clk c + cs_read_latency cs) req]); try done.
    + by rewrite content_set_pending by auto.
    + by eexists.
    + simpl. intros r [Hr|Hr]%elem_of_app; [by apply H6|]. apply list_elem_of_singleton in Hr as ->. simpl. split; [done|].
      right. split; [done|]. specialize (Hold Hd). lia.
  - wlp_step. assert (is_data req = true) as Hd by (unfold is_data; by rewrite Hty). rewrite Hd in Hrest.
    eapply wlp_mono; [apply serving_quiet|]. intros [] c1 Hqt. wlp_step.
    pose proof (quiet_content _ _ Hqt) as Hcc. pose proof (quiet_clocks _ _ Hqt) as Hck. destruct Hqt as [Q1 Q2 Q3 Q4 Q5 Q6 Q7 Q8].
    apply (Hrest [with_depart (clk c1 + cs_write_latency cs) req]); try done.
    + by rewrite content_set_pending_write, Hcc.
    + by eexists.
    + simpl. by rewrite Q5.
    + simpl. rewrite Q1, Q6. intros r [Hr|Hr]%elem_of_app; [by apply H7|]. apply list_elem_of_singleton in Hr as ->. simpl. split; [done|].
      specialize (Hold Hd). lia.
Qed.

Lemma not_first_id r : is_first_command r = false -> not_first r = r.
Proof. destruct r. simpl. by intros ->. Qed.

Lemma serve_request_inv acc done k i req c :
  inv 1 acc done c -> queue k c !! i = Some req ->
  wlp (serve_request cs cf k i req) c (fun _ c' => inv 1 acc done c' /\ clocks c' = clocks c).
Proof.
  intros Hi Hk. unfold serve_request. wlp_step.
  assert (forall c1, inv 1 acc done c1 -> clocks c1 = clocks c -> queue k c1 !! i = Some (not_first req) ->
    wlp (c ← gets id; cmd ← lift (get_first_cmd cs cf req c); issue_cmd cs cf cmd (addr_vec req);;
         when (bool_decide (cmd = cs_translate cs (type req))) (last_command cs k i (not_first req))) c1
      (fun _ c' => inv 1 acc done c' /\ clocks c' = clocks c)) as Hrest.
  { intros c1 Hi1 Hck Hk1. do 4 wlp_step. intros cmd _. wlp_step.
    eapply wlp_mono; [apply issue_quiet|]. intros [] c2 Hqt. pose proof (inv_quiet _ _ _ _ _ Hqt Hi1) as Hi2.
    rewrite <- Hck, <- (quiet_clocks _ _ Hqt). wlp_step; intros _; [|done].
    apply (last_command_inv _ _ _ _ (not_first req)); [done| |done]. by rewrite (q_queue _ _ Hqt). }
  wlp_step; intros Hf.
  - eapply wlp_mono; [by apply (first_command_inv _ _ _ _ _ _ Hi Hk)|]. intros [] c1 (H1 & H2 & H3). by apply Hrest.
  - apply Hrest; [done..|]. by rewrite not_first_id.
Qed.

Lemma schedule_inv acc done c :
  inv 1 acc done c -> wlp (schedule cs cf) c (fun _ c' => inv 1 acc done c' /\ clocks c' = clocks c).
Proof.
  intros Hi. unfold schedule. do 2 wlp_step. unfold id. cbv zeta. set (k := chosen_queue c). wlp_step.
  eapply wlp_mono; [apply choose_quiet|]. intros h c1 Hqt. pose proof (inv_quiet _ _ _ _ _ Hqt Hi) as Hi1.
  rewrite <- (quiet_clocks _ _ Hqt).
  assert (wlp (speculate cs cf) c1 (fun _ c' => inv 1 acc done c' /\ clocks c' = clocks c1)) as Hspec.
  { eapply wlp_mono; [apply speculate_quiet|]. intros [] c2 Hq2. split; [by eapply inv_quiet|by apply quiet_clocks]. }
  destruct h as [i|]; [|exact Hspec]. destruct (queue k c !! i) as [req|] eqn:Hk; [|done].
  do 4 wlp_step. intros b _. destruct b; [|exact Hspec]. apply serve_request_inv; [exact Hi1|]. by rewrite (q_queue _ _ Hqt).
Qed.

Lemma tick_inv acc done c :
  inv 0 acc done c ->
  wlp (tick cs cf) c (fun l c' =>
    inv 0 acc (done ++ l) c' /\ clocks c' = (clk c + 1, ref_clk c + 1, next_refreshed c) /\ Forall (on_time (clk c + 1)) l).
Proof.
  intros Hi. unfold tick. wlp_step. eapply wlp_mono; [by apply tick_clock_inv|]. intros [] c1 [H1 Hc1]. wlp_step.
  assert (clk c1 = clk c + 1) as Hclk by (by injection Hc1).
  eapply wlp_mono; [by apply serve_reads_inv|]. intros rs c2 (H2 & Hc2 & Hrs). wlp_step.
  assert (clk c2 = clk c1) as Hclk2 by (by injection Hc2).
  eapply wlp_mono; [by apply serve_writes_inv|]. intros ws c3 (H3 & Hc3 & Hws). wlp_step.
  eapply wlp_mono; [by apply tick_ref_inv|]. intros [] c4 [H4 Hc4]. wlp_step. wlp_step. wlp_step.
  set (c5 := set_write_mode _ c4).
  assert (inv 1 acc ((done ++ rs) ++ ws) c5) as H5.
  { destruct H4 as [[? ? ?] [? ? ? ?]]. split; split; try done; intros k; by destruct k. }
  eapply wlp_mono; [by apply schedule_inv|]. intros [] c6 [H6 Hc6]. wlp_step.
  split; [|split].
  - rewrite app_assoc. by apply (inv_weaken 1).
  - assert (clocks c5 = clocks c4) as Hc5 by done. rewrite Hc6, Hc5, Hc4.
    unfold clocks, next_refreshed in *. injection Hc1 as E1 E2 E3. injection Hc2 as F1 F2 F3. injection Hc3 as G1 G2 G3.
    by rewrite G1, G2, G3, F1, F2, F3, E1, E2, E3.
  - rewrite <- Hclk. apply Forall_app. split; [done|]. by rewrite <- Hclk2.
Qed.

(** ** Histories *)
Definition accepted (os : list Output) : list Request := omap (fun o => match o with Accepted r => Some r | _ => None end) os.
Definition completed (os : list Output) : list Request := o ← os; match o with Done l => l | _ => [] end.
Fixpoint ticks (l : list Event) : Z := match l with [] => 0 | Tick :: l => 1 + ticks l | _ :: l => ticks l end.
(** The requests of a history are new ones, as the constructors of [Request] leave them. *)
Definition fresh (e : Event) : Prop := match e with Enqueue r => is_first_command r = true | Tick => True end.

Lemma step_inv e acc done c :
  inv 0 acc done c -> fresh e ->
  (forall r, e = Enqueue r -> write_queued c r -> Fwd (with_depart (clk c + 1) (with_arrive (clk c) r))) ->
  wlp (step cs cf e) c (fun o c' => inv 0 (acc ++ accepted [o]) (done ++ completed [o]) c' /\ clk c' = clk c + ticks [e] /\
    Forall (on_time (clk c')) (completed [o])).
Proof.
  intros Hi Hf Hans. destruct e as [r|]; cbn [step]; wlp_step.
  - eapply wlp_mono; [apply (enqueue_inv 0 acc done c r Hi); [done|by apply Hans]|]. intros b c' (H & Hck & _). wlp_step.
    destruct b; unfold completed, accepted; simpl; rewrite ?app_nil_r; (split; [done|split; [lia|constructor]]).
  - eapply wlp_mono; [by apply (tick_inv acc done)|]. intros l c' (H & Hck & Ho). wlp_step.
    unfold completed, accepted. simpl. rewrite !app_nil_r. injection Hck as Hck _ _. rewrite Hck. split; [done|split; [lia|done]].
Qed.

Lemma history_inv l acc done c :
  inv 0 acc done c -> Forall fresh l ->
  (forall l1 r l2 os1 c1, l = l1 ++ Enqueue r :: l2 -> run cs cf l1 c = Ok (os1, c1) -> write_queued c1 r ->
    Fwd (with_depart (clk c1 + 1) (with_arrive (clk c1) r))) ->
  wlp (run cs cf l) c (fun os c' => inv 0 (acc ++ accepted os) (done ++ completed os) c' /\ clk c' = clk c + ticks l).
Proof.
  revert acc done c. induction l as [|e l IH]; intros acc done c Hi Hl Hans; cbn [run]; wlp_step.
  { unfold accepted, completed. simpl. rewrite !app_nil_r. split; [done|lia]. }
  apply Forall_cons in Hl as [He Hl].
  eapply wlp_mono.
  { apply wlp_and; [|apply wlp_result]. apply step_inv; [done..|]. intros r -> Ha. by apply (Hans [] r l [] c). }
  intros o c1 [(H1 & Hc1 & _) Hrun]. wlp_step.
  eapply wlp_mono.
  { apply (IH _ _ _ H1 Hl). intros l1 r l2 os1 c2 -> Hr1. apply (Hans (e :: l1) r l2 (o :: os1)); [done|].
    cbn [run]. unfold mbind, st_bind. by rewrite Hrun, Hr1. }
  intros os c2 (H2 & Hc2). wlp_step. split.
  - assert (accepted (o :: os) = accepted [o] ++ accepted os) as -> by (unfold accepted; by rewrite <- omap_app).
    assert (completed (o :: os) = completed [o] ++ completed os) as -> by (unfold completed; simpl; by rewrite app_nil_r).
    by rewrite !app_assoc.
  - rewrite Hc2, Hc1. destruct e; simpl; lia.
Qed.

Lemma init_inv id : inv 0 [] [] (Controller_init cs id).
Proof.
  split; split; simpl; try done.
  - intros []; simpl; lia.
  - intros k r. destruct k; simpl; by intros ?%not_elem_of_nil.
  - by intros r ?%not_elem_of_nil.
  - by intros r ?%not_elem_of_nil.
Qed.
End Inv.
