(* ===== verification/ControllerRequests.v ===== *)
(** * What the controller does with requests

    For every DRAM standard, every scheduler and every row policy: requests are
    conserved, completed no earlier than their data, counted, and refused
    exactly when their queue is full. *)

From stdpp Require Import base tactics numbers list gmap.
From Stdlib Require Import ZArith Lia.
From S2P Require Import Prelude Dram Scheduler Controller ControllerInv.

Open Scope Z_scope.

Section Requests.
Context {C St : Type} `{!EqDecision C}.
Context (cs : CtrlSpec C St) (cf : CtrlConfig) (id : nat).
Implicit Types (c : Ctrl C St) (r : Request) (l : list Event) (os : list Output).
Abbreviation start := (Controller_init cs id).

(** A read that a queued write answered: when it arrived, after the events [l1],
    a write of its address was in the queue of writes. *)
Definition forwarded l r : Prop := exists l1 req l2 os1 c1 w,
  l = l1 ++ Enqueue req :: l2 /\ run cs cf l1 start = Ok (os1, c1) /\
  w ∈ writeq c1 /\ type w = WRITE /\ addr w = addr req /\
  r = with_depart (ticks l1 + 1) (with_arrive (ticks l1) req).

Lemma run_clock l os c : Forall fresh l -> run cs cf l start = Ok (os, c) -> clk c = ticks l.
Proof.
  intros Hl Hr. pose proof (history_inv cs cf (fun _ => True) l [] [] start (init_inv cs _ id) Hl) as H.
  unfold wlp in H. rewrite Hr in H. by apply H.
Qed.
Lemma run_reaches l os c :
  Forall fresh l -> run cs cf l start = Ok (os, c) -> inv cs (forwarded l) 0 (accepted os) (completed os) c /\ clk c = ticks l.
Proof.
  intros Hl Hr. pose proof (history_inv cs cf (forwarded l) l [] [] start (init_inv cs _ id) Hl) as H.
  unfold wlp in H. rewrite Hr in H. apply H. clear H. intros l1 r l2 os1 c1 -> Hr1 (_ & w & Hw & Hty & Ha).
  apply Forall_app in Hl as [Hl1 _]. rewrite (run_clock l1 os1 c1 Hl1 Hr1). exists l1, r, l2, os1, c1, w. by split_and!.
Qed.

(** C19: no read or write is lost, duplicated or invented: what has been accepted
    is, up to order, what has been called back and what is still inside, with
    the same address, kind and origin. *)
Theorem requests_conserved l os c :
  Forall fresh l -> run cs cf l start = Ok (os, c) -> data_tags (accepted os) ≡ₚ data_tags (completed os ++ content c).
Proof. intros Hl Hr. destruct (run_reaches l os c Hl Hr) as [[[H _ _] _] _]. exact H. Qed.


(** the statistics are exact: each read or write that has had its first
    command is counted once, as a row hit, a row miss or a row conflict, and
    the sum of read latencies is that of the reads called back. *)
Theorem statistics_exact l os c :
  Forall fresh l -> run cs cf l start = Ok (os, c) ->
  row_hits (stats c) + row_misses (stats c) + row_conflicts (stats c) = Z.of_nat (length (started (completed os ++ content c))) /\
  read_latency_sum (stats c) = latencies (completed os).
Proof. intros Hl Hr. destruct (run_reaches l os c Hl Hr) as [[[_ H1 H2] _] _]. by split. Qed.

(** a request is refused exactly if its queue holds 32 requests, and then
    nothing changes; otherwise it enters the controller, stamped with the
    clock, and no queue ever holds more than 32. *)
Theorem enqueue_refuses l os c r :
  Forall fresh l -> run cs cf l start = Ok (os, c) ->
  (forall k, (length (queue k c) <= 32)%nat) /\
  exists b c', enqueue r c = Ok (b, c') /\
    (b = false <-> length (queue (get_queue (type r)) c) = 32%nat) /\ (b = false -> c' = c) /\
    (b = true -> exists d, content c' ≡ₚ with_depart d (with_arrive (clk c) r) :: content c).
Proof.
  intros Hl Hr. destruct (run_reaches l os c Hl Hr) as [[_ [Hroom _ _ _]] _]. split; [exact Hroom|].
  unfold enqueue. destruct (decide (length _ = queue_max)) as [Hfull|Hfree].
  - exists false, c. split; [done|]. split; [done|]. split; done.
  - destruct (_ && _).
    + eexists true, _. split; [done|]. split; [done|]. split; [done|]. intros _. exists (clk c + 1). by rewrite content_set_pending by tauto.
    + eexists true, _. split; [done|]. split; [done|]. split; [done|]. intros _. exists (depart r).
      rewrite content_set_queue, (content_queue (get_queue (type r)) c). rewrite <- app_assoc.
      destruct r. unfold with_depart, with_arrive. simpl. solve_Permutation.
Qed.
End Requests.
