(* ===== verification/ControllerPolicy.v ===== *)
(** * The row policies that close rows

    For every DRAM standard and every scheduler: the policies [Closed] and
    [Timeout] of [RowPolicy::get_victim] close no row without a read outside of
    an array.  The row that they choose is named by its key in the row table,
    which ends before the row, and [RowTable::update] reads the element after that. *)

From stdpp Require Import base tactics numbers list gmap sorting.
From Stdlib Require Import ZArith Lia.
From S2P Require Import Prelude Dram Scheduler Controller.

Open Scope Z_scope.

(** ** Two computations with the same results *)

Section refines.
Context {S : Type} (I : S -> Prop).

(** Where [m] has a result from a state in order, [m'] has the same one, and it is in order. *)
Definition refines {A} (m m' : st S A) : Prop := forall s a s', I s -> m s = Ok (a, s') -> m' s = Ok (a, s') /\ I s'.

Lemma refines_bind {A B} (m m' : st S A) (k k' : A -> st S B) :
  refines m m' -> (forall a, refines (k a) (k' a)) -> refines (mbind k m) (mbind k' m').
Proof.
  intros Hm Hk s b s' Hs. unfold mbind, st_bind. destruct (m s) as [[a s1]|] eqn:Em; [|done].
  destruct (Hm _ _ _ Hs Em) as [-> Hs1]. by apply Hk.
Qed.
Lemma refines_ret {A} (a : A) : refines (mret a) (mret a).
Proof. intros s b s' Hs. unfold mret, st_ret. by intros [= <- <-]. Qed.
Lemma refines_gets {A} (f : S -> A) : refines (gets f) (gets f).
Proof. intros s b s' Hs. unfold gets. by intros [= <- <-]. Qed.
Lemma refines_lift {A} (r : result A) : refines (lift r) (lift r).
Proof. intros s b s' Hs. unfold lift. destruct r; [by intros [= <- <-]|done]. Qed.
Lemma refines_assert b : refines (assert_ b) (assert_ b).
Proof. intros s a s' Hs. unfold assert_. destruct b; [by intros [= <- <-]|done]. Qed.
Lemma refines_fail {A} f (m : st S A) : refines (fail f) m.
Proof. done. Qed.
Lemma refines_when (b : bool) (m m' : st S unit) : refines m m' -> refines (when b m) (when b m').
Proof. intros Hm. destruct b; [exact Hm|apply refines_ret]. Qed.
Lemma refines_modify (f : S -> S) : (forall s, I s -> I (f s)) -> refines (modify f) (modify f).
Proof. intros Hf s a s' Hs. unfold modify. intros [= <- <-]. auto. Qed.
End refines.

Create HintDb refines.
#[local] Hint Resolve refines_bind refines_ret refines_gets refines_lift refines_assert refines_fail refines_when : refines.

(** ** The keys of the row table *)

Section Table.
Context {C : Type} (row_level : nat) (scope : C -> nat) (is_opening is_accessing is_closing : C -> bool).

(** Every key is a row group: it has no element for the row. *)
Definition groups_only (t : RowTable) : Prop := forall k e, t !! k = Some e -> length k = row_level.

Lemma groups_insert v r e t : v !! row_level = Some r -> groups_only t -> groups_only (<[rowgroup row_level v := e]> t).
Proof.
  intros Hv Ht k x [[<- _]|[_ Hk]]%lookup_insert_Some; [|by eapply Ht]. apply lookup_lt_Some in Hv. unfold rowgroup.
  rewrite length_take. lia.
Qed.

Lemma update_groups cmd v clk t t' :
  groups_only t -> RowTable_update row_level scope is_opening is_accessing is_closing cmd v clk t = Ok t' -> groups_only t'.
Proof.
  intros Ht. unfold RowTable_update. destruct (v !! row_level) as [r|] eqn:Hr; [|done]. cbv zeta.
  set (t1 := if is_opening cmd then _ else _).
  assert (groups_only t1) as H1 by (unfold t1, table_open; repeat case_match; eauto using groups_insert).
  destruct (if is_accessing cmd then _ else _) as [t2|] eqn:E2; [|done].
  assert (groups_only t2) as H2.
  { revert E2. unfold table_access. repeat case_match; intros [= <-]; eauto using groups_insert. }
  cbn [bind_res]. destruct (is_closing cmd); [|by intros [= <-]]. unfold table_close. repeat case_match; intros [= <-].
  all: intros k e Hk; apply map_lookup_filter_Some in Hk as [Hk _]; by eapply H2.
Qed.

Lemma get_hits_groups v : refines groups_only (get_hits row_level v) (get_hits row_level v).
Proof.
  intros t h t' Ht Hh. split; [done|]. revert Hh. unfold get_hits. destruct (v !! row_level) as [r|] eqn:Hr; [|done].
  case_match; intros [= _ <-]; [done|]. by eapply groups_insert.
Qed.

(** The head of a queue is chosen with no other effect than that of [get_hits]. *)
Section head.
Context (is_ready is_row_hit is_row_open : Request -> result bool) (cap : Z) (pre_scope : nat).
Abbreviation hits_of := (get_hits row_level).

Lemma compare_groups ty r1 r2 : refines groups_only (compare is_ready is_row_hit hits_of cap ty r1 r2) (compare is_ready is_row_hit hits_of cap ty r1 r2).
Proof.
  destruct ty; unfold compare; auto with refines. repeat (apply refines_bind; [by auto with refines|intros ?]).
  apply refines_bind; [case_match; auto using get_hits_groups with refines|intros ?].
  apply refines_bind; [case_match; auto using get_hits_groups with refines|auto with refines].
Qed.

Lemma best_groups ty q : forall h i, refines groups_only (best is_ready is_row_hit hits_of cap ty h i q) (best is_ready is_row_hit hits_of cap ty h i q).
Proof. induction q as [|r q IH]; intros h i; cbn [best]; [apply refines_ret|]. apply refines_bind; [apply compare_groups|intros b; apply IH]. Qed.

Lemma best_harmless_groups gs q : forall h i, refines groups_only (best_harmless is_ready is_row_hit is_row_open hits_of cap pre_scope gs h i q)
  (best_harmless is_ready is_row_hit is_row_open hits_of cap pre_scope gs h i q).
Proof.
  induction q as [|r q IH]; intros h i; cbn [best_harmless]; [apply refines_ret|]. apply refines_bind; [apply refines_lift|intros []; [apply IH|]].
  destruct h; [|apply IH]. apply refines_bind; [apply compare_groups|intros b; apply IH].
Qed.

Lemma get_head_groups ty q : refines groups_only (get_head is_ready is_row_hit is_row_open hits_of cap pre_scope ty q)
  (get_head is_ready is_row_hit is_row_open hits_of cap pre_scope ty q).
Proof.
  destruct q as [|r q]; [apply refines_ret|]. cbn [get_head]. apply refines_bind; [apply best_groups|intros h].
  destruct ty; try apply refines_ret. apply refines_bind; [apply refines_lift|intros []; [apply refines_ret|]].
  apply refines_bind; [apply refines_lift|intros gs]. apply refines_bind; [apply best_harmless_groups|auto with refines].
Qed.
End head.

(** The victim is a key of the table. *)
Lemma first_ready_elem ready idle l v : first_ready ready idle l = Ok v -> v = [] \/ v ∈ l.*1.
Proof.
  induction l as [|[k e] l IH]; cbn [first_ready fmap list_fmap fst]; [intros [= <-]; by left|].
  assert (first_ready ready idle l = Ok v -> v = [] \/ v ∈ k :: l.*1) as Hrest by (intros [->|Hv]%IH; [by left|right; by right]).
  destruct (idle e); [|done]. destruct (ready k) as [[]|]; cbn [bind_res]; [intros [= <-]; right; by left|done|done].
Qed.

Lemma victim_group ty timeout clk ready t v :
  groups_only t -> get_victim ty timeout clk ready t = Ok v -> v <> [] -> length v = row_level.
Proof.
  intros Ht Hv Hne. assert (v ∈ (in_order t).*1) as ((k & e) & -> & Hk)%list_elem_of_fmap.
  { destruct ty; cbn in Hv; [|by injection Hv as <-|]; by apply first_ready_elem in Hv as [|]. }
  apply (Ht k e). apply elem_of_map_to_list. unfold in_order in Hk. by rewrite merge_sort_Permutation in Hk.
Qed.
End Table.

(** ** The controller *)

Section Policy.
Context {C St : Type} `{!EqDecision C}.
Context (cs : CtrlSpec C St) (cf : CtrlConfig).
Implicit Types (c : Ctrl C St).

(** The same controller with the policy [Opened]. *)
Definition keep_open : CtrlConfig := mkConfig (cf_sched cf) (cf_cap cf) POpened (cf_timeout cf) (cf_no_DRAM_latency cf).
Definition table_ok c : Prop := groups_only (sp_row (cs_dram cs)) (rowtable c).
Abbreviation same m := (refines table_ok m m).

Lemma issue_same cmd v : same (issue_cmd cs cf cmd v).
Proof.
  intros c a c' Hc Hrun. split; [exact Hrun|]. revert Hrun. unfold issue_cmd, mbind, st_bind, gets, lift, assert_, modify, id.
  destruct (is_ready_cmd cs cmd v c) as [[]|]; [|done..]. destruct (cf_no_DRAM_latency cf).
  - destruct (update_timing _ _ _ _ _) as [nd|]; [|done]. by intros [= _ <-].
  - destruct (update _ _ _ _ _) as [nd|]; [|done]. destruct (RowTable_update _ _ _ _ _ _ _ _ _) as [t|] eqn:Ht; [|done].
    intros [= _ <-]. by eapply update_groups.
Qed.

(** Whenever the policy finds a row to close, the attempt goes wrong. *)
Lemma speculate_fails c v :
  table_ok c -> cf_no_DRAM_latency cf = false ->
  get_victim (cf_policy cf) (cf_timeout cf) (clk c) (fun k => is_ready_cmd cs (cs_PRE cs) k c) (rowtable c) = Ok v -> v <> [] ->
  exists e, speculate cs cf c = Err e.
Proof.
  intros Hc Hl Hv Hne. pose proof (victim_group _ _ _ _ _ _ _ Hc Hv Hne) as Hlen.
  unfold speculate, mbind, st_bind, gets, id. rewrite Hl. unfold lift at 1. rewrite Hv, bool_decide_eq_true_2 by done. cbn [when].
  unfold issue_cmd, mbind, st_bind, gets, id, lift, assert_. rewrite Hl.
  destruct (is_ready_cmd cs (cs_PRE cs) v c) as [[]|]; [|by eexists..]. destruct (update _ _ _ _ _) as [nd|]; [|by eexists].
  unfold RowTable_update. rewrite (proj2 (lookup_ge_None v (sp_row (cs_dram cs)))) by lia. by eexists.
Qed.

Lemma speculate_refines : refines table_ok (speculate cs cf) (speculate cs keep_open).
Proof.
  intros c [] c' Hc Hrun. unfold speculate, mbind, st_bind, gets, id in *. change (cf_no_DRAM_latency keep_open) with (cf_no_DRAM_latency cf).
  destruct (cf_no_DRAM_latency cf) eqn:Hl; [by injection Hrun as <-|]. cbn [cf_policy keep_open get_victim lift when].
  destruct (get_victim _ _ _ _ _) as [v|] eqn:Hv; [|done]. destruct (decide (v = [])) as [->|Hne]; [by injection Hrun as <-|].
  destruct (speculate_fails c v Hc Hl Hv Hne) as [e He]. unfold speculate, mbind, st_bind, gets, id in He. rewrite Hl, Hv in He.
  cbn [lift] in *. congruence.
Qed.

(** Everything else is the same, whatever the policy. *)
Lemma serving_same r d : same (serving cs r d).
Proof. intros c a c' Hc Hrun. split; [exact Hrun|]. revert Hrun. unfold serving. case_match; [by intros [= _ <-]|done]. Qed.
Lemma enqueue_same r : same (enqueue r).
Proof.
  intros c a c' Hc Hrun. split; [exact Hrun|]. revert Hrun. unfold enqueue. repeat case_match; intros [= _ <-]; try done.
Qed.
Lemma set_queue_same k (f : Ctrl C St -> list Request) : same (modify (fun c => set_queue k (f c) c)).
Proof. apply refines_modify. intros c Hc. by destruct k. Qed.
Lemma choose_same k : same (choose cs cf k).
Proof.
  apply refines_bind; [apply refines_gets|]. intros c0 c a c' Hc Hrun. split; [exact Hrun|]. revert Hrun. unfold zoom.
  destruct (get_head _ _ _ _ _ _ _ _ _) as [[h t]|] eqn:Hh; [|done]. intros [= _ <-].
  by eapply (get_head_groups (sp_row (cs_dram cs)) _ _ _ _ _ _ _ (rowtable c)).
Qed.

Ltac same_step := lazymatch goal with
  | |- refines _ (mbind _ _) _ => apply refines_bind; [|intros ?]
  | |- refines _ (mret _) _ => apply refines_ret
  | |- refines _ (gets _) _ => apply refines_gets
  | |- refines _ (lift _) _ => apply refines_lift
  | |- refines _ (assert_ _) _ => apply refines_assert
  | |- refines _ (fail _) _ => apply refines_fail
  | |- refines _ (when _ _) _ => apply refines_when
  | |- refines _ (serving _ _ _) _ => apply serving_same
  | |- refines _ (enqueue _) _ => apply enqueue_same
  | |- refines _ (issue_cmd _ _ _ _) _ => apply issue_same
  | |- refines _ (choose _ _ _) _ => apply choose_same
  | |- refines _ (modify _) _ => first [apply set_queue_same|by apply refines_modify]
  | |- refines _ (match ?x with _ => _ end) _ => destruct x
  end.

Lemma serve_request_same k i r : same (serve_request cs cf k i r).
Proof. unfold serve_request, first_command, last_command. repeat same_step. Qed.
Lemma schedule_refines : refines table_ok (schedule cs cf) (schedule cs keep_open).
Proof.
  unfold schedule. do 2 same_step; [same_step|]. destruct _ as [i|]; [|apply speculate_refines].
  destruct (_ !! i) as [r|]; [|same_step]. do 2 (same_step; [same_step|]). destruct _; [apply serve_request_same|apply speculate_refines].
Qed.
Lemma inject_same l : same (inject_ranks cs l).
Proof. induction l as [|x l IH]; cbn [inject_ranks]; [same_step|]. same_step; [|exact IH]. unfold refresh_target. repeat same_step. Qed.
Lemma tick_refines : refines table_ok (tick cs cf) (tick cs keep_open).
Proof.
  unfold tick, tick_clock, serve_reads, serve_writes, tick_ref, inject_refresh.
  do 5 (same_step; [repeat same_step; try apply inject_same|]). same_step; [apply schedule_refines|same_step].
Qed.
Lemma step_refines e : refines table_ok (step cs cf e) (step cs keep_open e).
Proof. destruct e; cbn [step]; (apply refines_bind; [apply enqueue_same || apply tick_refines|intros ?; apply refines_ret]). Qed.
Lemma run_refines l : refines table_ok (run cs cf l) (run cs keep_open l).
Proof.
  induction l as [|e l IH]; cbn [run]; [apply refines_ret|]. apply refines_bind; [apply step_refines|intros o].
  apply refines_bind; [exact IH|intros os; apply refines_ret].
Qed.

(** A cycle up to the choice of a request. *)
Definition before_schedule : st (Ctrl C St) unit :=
  tick_clock;; _ ← serve_reads cs; _ ← serve_writes; tick_ref cs;; modify (fun c => set_write_mode (next_write_mode c) c).

Lemma idle_cycle_fails c c2 v :
  table_ok c2 -> before_schedule c = Ok (tt, c2) -> queue (chosen_queue c2) c2 = [] -> cf_no_DRAM_latency cf = false ->
  get_victim (cf_policy cf) (cf_timeout cf) (clk c2) (fun k => is_ready_cmd cs (cs_PRE cs) k c2) (rowtable c2) = Ok v -> v <> [] ->
  exists e, tick cs cf c = Err e.
Proof.
  intros Hc Hb Hq Hl Hv Hne. destruct (speculate_fails c2 v Hc Hl Hv Hne) as [e He]. exists e. revert Hb.
  unfold tick, before_schedule, mbind, st_bind.
  destruct (tick_clock c) as [[[] c3]|]; [|done]. destruct (serve_reads cs c3) as [[rs c4]|]; [|done].
  destruct (serve_writes c4) as [[ws c5]|]; [|done]. destruct (tick_ref cs c5) as [[[] c6]|]; [|done].
  unfold modify. intros [= E]. rewrite E. unfold schedule, choose, mbind, st_bind, gets, id. rewrite Hq. cbn [get_head].
  unfold zoom, mret, st_ret. assert (set_rowtable (rowtable c2) c2 = c2) as -> by (by destruct c2). by rewrite He.
Qed.

Lemma before_same : same before_schedule.
Proof. unfold before_schedule, tick_clock, serve_reads, serve_writes, tick_ref, inject_refresh. repeat same_step; apply inject_same. Qed.

(** C37: The row policies [Closed] and [Timeout] close no row without a read outside
    of an array.  Whatever the standard, the scheduler and the history: when the
    controller gets through it with one of them without such a read (and without
    a failed assertion), it has done exactly what it does with the policy [Opened],
    the same answers, callbacks, commands and state.  For a cycle that has no
    request to serve, and in which the policy finds a row to close, goes wrong:
    the victim is the key of a row group, which has no row, and
    [RowTable::update] reads the row behind the group, past the end of the vector. *)
Theorem closing_policies_close_nothing (id : nat) (l : list Event) os c :
  run cs cf l (Controller_init cs id) = Ok (os, c) ->
  run cs keep_open l (Controller_init cs id) = Ok (os, c) /\
  forall c2 v, before_schedule c = Ok (tt, c2) -> queue (chosen_queue c2) c2 = [] -> cf_no_DRAM_latency cf = false ->
    get_victim (cf_policy cf) (cf_timeout cf) (clk c2) (fun k => is_ready_cmd cs (cs_PRE cs) k c2) (rowtable c2) = Ok v -> v <> [] ->
    exists e, tick cs cf c = Err e.
Proof.
  intros Hr. destruct (run_refines l (Controller_init cs id) os c) as [Ho Hc]; [by intros k e ?|done|].
  split; [exact Ho|]. intros c2 v Hb. destruct (before_same c tt c2 Hc Hb) as [_ Hc2]. by apply idle_cycle_fails.
Qed.
End Policy.
