(* ===== verification/RowMirror.v ===== *)
(** * The row table mirrors the banks

    The controller keeps a table of the rows it has opened and asserts, at each
    command, that the table agrees with it.  It does: the entries of the table
    are exactly the open banks of the DRAM tree, whatever command of the
    controller is issued, so these assertions cannot fail. *)

From stdpp Require Import base tactics numbers list gmap.
From Stdlib Require Import ZArith Lia.
From S2P Require Import Prelude Dram DramTiming DramStd DramBanks DramFrame Scheduler Controller.

Open Scope Z_scope.

(** ** Keys *)
Lemma equal_range_ok (l key : list Z) :
  (length l <= length key)%nat -> equal_range l key = Ok (bool_decide (l = take (length l) key)).
Proof.
  revert key. induction l as [|x l IH]; intros [|y key] Hl; simpl in *; try lia; try done.
  destruct (decide (x = y)) as [->|Hne].
  - rewrite IH by lia. f_equal. apply bool_decide_ext. split; [intros Hl'; by f_equal|intros [= Hl']; exact Hl'].
  - by rewrite bool_decide_false by (by intros [= ? _]).
Qed.

Lemma data_lookup v l : (l < length v)%nat -> v !! l = Some (data v l).
Proof. unfold data. intros Hl. destruct (lookup_lt_is_Some_2 v l Hl) as [x Hx]. by rewrite Hx, (nth_lookup_Some _ _ _ _ Hx). Qed.

(** Two addresses of a channel share a path exactly if they share a prefix. *)
Lemma agree_take el v v' :
  (el < length v)%nat -> (el < length v')%nat -> data v 0 = data v' 0 ->
  agree 0 el (data v) (data v') = true <-> take (S el) v = take (S el) v'.
Proof.
  intros Hv Hv' H0. unfold agree. rewrite bool_decide_true, Nat.sub_0_r by lia. cbn [andb].
  rewrite forallb_forall. split.
  - intros H. apply list_eq. intros i. destruct (decide (i < S el)%nat) as [Hi|Hi].
    + rewrite !lookup_take_lt, !data_lookup by lia. f_equal. destruct i as [|i]; [done|].
      apply Z.eqb_eq, H, in_seq. lia.
    + by rewrite !lookup_take_ge by lia.
  - intros Ht l Hl%in_seq. apply Z.eqb_eq. assert (take (S el) v !! l = take (S el) v' !! l) as He by (by rewrite Ht).
    rewrite !lookup_take_lt, !data_lookup in He by lia. by injection He.
Qed.

(** ** The controller's standards *)
Definition bank_rowopen (node : Node Command State) (cmd : Command) (id : Z) : result bool :=
  match nd_state node with
  | Closed => Ok false
  | Opened => Ok true
  | _ => Err AssertFail
  end.

(** What the controller relies on of the tables, besides the protocol of the
    banks: ranks are the children of the channel, a refresh asks for all banks
    of its rank to be closed, and the classification of commands. *)
Class Controlled (cs : CtrlSpec Command State) (B : nat) : Prop := {
  ct_translate : cs_translate cs READ = RD /\ cs_translate cs WRITE = WR /\ cs_translate cs REFRESH = REF;
  ct_PRE : cs_PRE cs = PRE;
  ct_flags c : sp_opening (cs_dram cs) c = is_opening c /\ cs_accessing cs c = is_accessing c /\ cs_closing cs c = is_closing c;
  ct_bank : sp_bank (cs_dram cs) = B;
  ct_levels : cs_levels cs = (B + 3)%nat;
  ct_scope : sp_scope (cs_dram cs) PRE = B /\ sp_scope (cs_dram cs) PREA = 1%nat /\ sp_scope (cs_dram cs) REF = 1%nat;
  ct_rowopen lev c : c = RD \/ c = WR -> sp_rowopen (cs_dram cs) lev c = if decide (lev = B) then Some bank_rowopen else None;
  ct_refresh_rows lev : sp_rowhit (cs_dram cs) lev REF = None /\ sp_rowopen (cs_dram cs) lev REF = None;
  ct_refresh_top : sp_prereq (cs_dram cs) 0 REF = None;
  ct_refresh : exists f, sp_prereq (cs_dram cs) 1 REF = Some f /\ forall nd id, leveled 1 nd ->
    (f nd REF id = Ok (Some REF) /\ forall a b, bank_view (B - 1) nd a = Some b -> b.1 = Closed) \/
    (f nd REF id = Ok (Some PREA) /\ exists a b, (forall l, 0 <= a l) /\ bank_view (B - 1) nd a = Some b /\ b.1 <> Closed);
}.

Section Mirror.
Context (cs : CtrlSpec Command State) (B id : nat).
Abbreviation spec := (cs_dram cs).
Context `{!SpecOk spec} `{!Banked spec 1 B} `{!Effects spec 1 B} `{!Controlled cs B}.
Implicit Types (v : list Z) (t : RowTable) (nd : Node Command State).

(** The address of a row of the channel [id]. *)
Definition valid_vec v : Prop := length v = cs_levels cs /\ data v 0%nat = Z.of_nat id /\ bank_addr spec B (data v).
Abbreviation group v := (rowgroup (sp_row spec) v).

Lemma row_is : sp_row spec = S B.
Proof. by destruct (bk_levels (spec:=spec) (W:=1%nat) (B:=B)). Qed.
Lemma B_pos : (1 < B)%nat.
Proof. by destruct (bk_levels (spec:=spec) (W:=1%nat) (B:=B)). Qed.
Lemma valid_length v : valid_vec v -> (S B < length v)%nat.
Proof. intros (-> & _ & _). rewrite ct_levels. lia. Qed.
Lemma valid_row v : valid_vec v -> v !! sp_row spec = Some (data v (S B)).
Proof. intros Hv%valid_length. rewrite row_is. by apply data_lookup. Qed.
Lemma group_length v : valid_vec v -> length (group v) = S B.
Proof. intros Hv%valid_length. unfold rowgroup. rewrite length_take, row_is. lia. Qed.
Lemma agree_group v v' : valid_vec v -> valid_vec v' -> agree 0 B (data v) (data v') = true <-> group v = group v'.
Proof.
  intros Hv Hv'. unfold rowgroup. rewrite row_is. pose proof (valid_length v Hv). pose proof (valid_length v' Hv').
  apply agree_take; [lia|lia|]. destruct Hv as (_ & -> & _), Hv' as (_ & -> & _). done.
Qed.

Record mirror nd t : Prop := {
  mr_bank v : valid_vec v -> bank_of B nd (data v) =
    Some match t !! group v with None => (Closed, ∅) | Some e => (Opened, {[row e := Opened]}) end;
  mr_keys k : is_Some (t !! k) -> exists v, valid_vec v /\ k = group v;
}.

(** The trees after a command, through its effect on each bank. *)
Definition effect_of c v nd nd' : Prop := forall v' b, valid_vec v' -> bank_of B nd (data v') = Some b ->
  bank_of B nd' (data v') =
    Some ((if agree 0 (effect_level 1 B c) (data v) (data v') then effect c (data v (S (effect_level 1 B c))) else fun b => b) b).

Lemma mirror_idle c v nd nd' t : acts c = false -> effect_of c v nd nd' -> mirror nd t -> mirror nd' t.
Proof.
  intros Hc He [H1 H2]. split; [|exact H2]. intros v' Hv'. rewrite (He v' _ Hv' (H1 v' Hv')).
  rewrite effect_idle by done. by destruct (agree _ _ _ _).
Qed.

(** Opening a row. *)
Lemma mirror_open v nd nd' t clk :
  valid_vec v -> bank_of B nd (data v) = Some (Closed, ∅) -> effect_of ACT v nd nd' -> mirror nd t ->
  mirror nd' (table_open (sp_row spec) v (data v (S B)) clk t).
Proof.
  intros Hv Hb He [H1 H2]. assert (t !! group v = None) as Hn.
  { rewrite H1 in Hb by done. by destruct (t !! group v). }
  unfold table_open. rewrite Hn. split.
  - intros v' Hv'. rewrite (He v' _ Hv' (H1 v' Hv')). cbn [effect_level effect].
    destruct (decide (group v = group v')) as [Heq|Hne].
    + rewrite (proj2 (agree_group v v' Hv Hv') Heq), Heq, lookup_insert_eq. rewrite <- Heq, Hn. done.
    + rewrite lookup_insert_ne by done. destruct (agree _ _ _ _) eqn:Ha; [|done]. by apply agree_group in Ha.
  - intros k Hk. destruct (decide (k = group v)) as [->|Hne]; [by exists v|].
    apply H2. by rewrite lookup_insert_ne in Hk by (by apply not_eq_sym).
Qed.

(** Accessing the open row. *)
Lemma mirror_access c v nd nd' t clk s rows :
  valid_vec v -> acts c = false -> bank_of B nd (data v) = Some (Opened, rows) -> rows !! data v (S B) = Some s ->
  effect_of c v nd nd' -> mirror nd t ->
  exists t', table_access (sp_row spec) v (data v (S B)) clk t = Ok t' /\ mirror nd' t'.
Proof.
  intros Hv Hc Hb Hrow He Hm. pose proof (mirror_idle c v nd nd' t Hc He Hm) as [G1 G2]. destruct Hm as [H1 H2].
  rewrite H1 in Hb by done. unfold table_access. destruct (t !! group v) as [e|] eqn:Ht; [|done].
  injection Hb as <-. apply lookup_singleton_Some in Hrow as [Hrow _]. rewrite decide_True by done.
  eexists; split; [done|]. split.
  - intros v' Hv'. rewrite G1 by done. destruct (decide (group v = group v')) as [Heq|Hne].
    + by rewrite <- Heq, lookup_insert_eq, Ht.
    + by rewrite lookup_insert_ne.
  - intros k Hk. destruct (decide (k = group v)) as [->|Hne]; [by exists v|].
    apply G2. by rewrite lookup_insert_ne in Hk by (by apply not_eq_sym).
Qed.

(** Closing every open bank in the scope of the command, of which there is one. *)
Lemma close_range c v v' :
  c = PRE \/ c = PREA -> (S B < length v)%nat -> data v 0%nat = Z.of_nat id -> valid_vec v' ->
  equal_range (take (sp_scope spec c + 1) v) (group v') = Ok (agree 0 (effect_level 1 B c) (data v) (data v')).
Proof.
  intros Hc Hlen H0 Hv'. pose proof B_pos as HB. pose proof (valid_length v' Hv') as Hl'.
  assert (sp_scope spec c = effect_level 1 B c /\ (effect_level 1 B c <= B)%nat) as [Hs Hel].
  { destruct ct_scope as (H1 & H2 & _). destruct Hc as [-> | ->]; simpl; rewrite ?H1, ?H2; lia. }
  rewrite Hs, Nat.add_1_r. set (el := effect_level 1 B c) in *.
  assert (length (take (S el) v) = S el) as Hlt by (rewrite length_take; lia).
  rewrite equal_range_ok by (rewrite Hlt, group_length by done; lia). rewrite Hlt. f_equal.
  unfold rowgroup. rewrite take_take, row_is, Nat.min_l by lia.
  pose proof (agree_take el v v' ltac:(lia) ltac:(lia) ltac:(destruct Hv' as (_ & -> & _); exact H0)) as Ha.
  destruct (agree 0 el (data v) (data v')).
  - apply bool_decide_true. by apply Ha.
  - apply bool_decide_false. intros Ht. by apply Ha in Ht.
Qed.

Lemma mirror_close c v nd nd' t v0 :
  c = PRE \/ c = PREA -> (S B < length v)%nat -> data v 0%nat = Z.of_nat id ->
  valid_vec v0 -> agree 0 (effect_level 1 B c) (data v) (data v0) = true -> (exists b, bank_of B nd (data v0) = Some b /\ b.1 <> Closed) ->
  effect_of c v nd nd' -> mirror nd t ->
  exists t', table_close (sp_scope spec) c v t = Ok t' /\ mirror nd' t'.
Proof.
  intros Hc Hlen H0 Hv0 Ha0 (b0 & Hb0 & Hopen) He [H1 H2]. unfold table_close.
  set (pre := take (sp_scope spec c + 1) v).
  assert (forall v', valid_vec v' -> in_range pre (group v') = agree 0 (effect_level 1 B c) (data v) (data v')) as Hin.
  { intros v' Hv'. unfold in_range, pre. by rewrite (close_range c v v'). }
  assert (range_error pre t = false) as ->.
  { unfold range_error. apply not_true_is_false. intros (kv & Hkv & Hr)%existsb_exists. apply list_elem_of_In in Hkv.
    destruct kv as [k e]. apply elem_of_map_to_list in Hkv. destruct (H2 k) as (v' & Hv' & ->); [by eexists|].
    unfold pre in Hr. simpl in Hr. by rewrite (close_range c v v') in Hr. }
  set (t' := filter (fun kv => in_range pre kv.1 = false) t : RowTable).
  assert (t !! group v0 <> None /\ t' !! group v0 = None) as [Hsome Hnone].
  { split.
    - intros Hn. rewrite (H1 v0 Hv0), Hn in Hb0. injection Hb0 as <-. by apply Hopen.
    - apply map_lookup_filter_None. right. intros e _. simpl. by rewrite Hin, Ha0. }
  assert (base.size t' < base.size t)%nat as Hsize.
  { apply map_subset_size. split; [apply map_filter_subseteq|]. intros Hsub. apply Hsome.
    destruct (t !! group v0) as [e|] eqn:Ht; [|done]. pose proof (lookup_weaken _ _ _ _ Ht Hsub) as Hw. congruence. }
  rewrite decide_True by done. eexists; split; [done|]. split.
  - intros v' Hv'. rewrite (He v' _ Hv' (H1 v' Hv')). pose proof (Hin v' Hv') as Hi.
    destruct (agree 0 (effect_level 1 B c) (data v) (data v')) eqn:Ha.
    + assert (t' !! group v' = None) as ->.
      { apply map_lookup_filter_None. right. intros e _. simpl. congruence. }
      by destruct Hc as [-> | ->].
    + assert (t' !! group v' = t !! group v') as ->; [|done].
      destruct (t !! group v') as [e|] eqn:Ht.
      * apply map_lookup_filter_Some. by split.
      * apply map_lookup_filter_None. by left.
  - intros k [e Hk]. apply map_lookup_filter_Some in Hk as [Hk _]. apply H2. by exists e.
Qed.


(** Initially every bank is closed. *)
Lemma build_view n lev i a k :
  (n + lev = S B)%nat -> (k + lev = B)%nat -> (forall l, (lev <= l < B)%nat -> 0 <= a (S l) < Z.of_nat (sp_count spec (S l))) ->
  bank_view k (build spec n lev i) a = Some (Closed, ∅).
Proof.
  revert lev i k. induction n as [|n IH]; intros lev i k Hn Hk Ha; [lia|].
  destruct k as [|k].
  - unfold bank_view. simpl. destruct (bk_start (spec:=spec) (W:=1%nat) (B:=B)) as [_ Hs].
    replace lev with B by lia. by rewrite Hs.
  - rewrite view_child. cbn [build nd_level nd_children]. rewrite row_is, decide_False by lia.
    rewrite list_lookup_fmap, lookup_seq_lt; [|specialize (Ha lev); lia]. simpl. apply IH; [lia|lia|]. intros l Hl. apply Ha. lia.
Qed.
Lemma mirror_init : mirror (DRAM_init spec id) ∅.
Proof.
  split; [|intros k [e He]; by rewrite lookup_empty in He]. intros v (_ & _ & Hv). rewrite lookup_empty.
  unfold DRAM_init. rewrite row_is. apply (build_view (S B) 0); [lia|lia|]. intros l Hl. apply Hv. lia.
Qed.
End Mirror.
