(* ===== verification/ControllerSafe.v ===== *)
(** * The controller never fails an assertion

    For the standards whose banks follow the protocol of DramBanks.v: whatever
    the valid reads and writes it is given, the controller's assertions on
    readiness, on the row table, on the serving counters and inside the DRAM
    tables hold at every cycle; the commands it puts on the bus respect every
    timing constraint.  The one assertion left, room for a refresh, is the
    subject of ControllerLive.v. *)

From stdpp Require Import base tactics numbers list gmap.
From Stdlib Require Import ZArith Lia Sorted.
From S2P Require Import Prelude Dram DramTiming DramStd DramBanks DramFrame Scheduler Controller ControllerInv RowMirror.

Open Scope Z_scope.

#[local] Abbreviation Node := (Dram.Node Command State).
#[local] Abbreviation Issue := (Dram.Issue Command).

(** The commands of the trace, for the tree. *)
Definition issue_of (x : Command * list Z * Z) : Issue := mkIssue x.1.1 (data x.1.2) x.2.

Section Core.
Context (cs : CtrlSpec Command State) (B id : nat).
Abbreviation spec := (cs_dram cs).
Context `{!SpecOk spec} `{!Banked spec 1 B} `{!Effects spec 1 B} `{!Controlled cs B}.
Implicit Types (v : list Z) (t : RowTable) (nd : Node) (L : list Issue).
Abbreviation valid_vec := (valid_vec cs B id).
Abbreviation mirror := (mirror cs B id).

(** The address of a refresh of the channel [id]. *)
Definition ref_vec v : Prop :=
  length v = cs_levels cs /\ data v 0%nat = Z.of_nat id /\ 0 <= data v 1%nat < Z.of_nat (sp_count spec 1) /\ data v 2%nat < 0.

(** The state of the DRAM and of the row table between commands, after the commands [L]. *)
Record core L nd t : Prop := {
  co_tree : tree_inv spec 0 id L nd;
  co_pos : log_pos L;
  co_states : states_ok 1 B bank_one 0 nd;
  co_mirror : mirror nd t;
}.

Lemma core_leveled L nd t : core L nd t -> leveled 0 nd.
Proof. intros []. by eapply tree_inv_leveled. Qed.
Lemma core_sees L nd t v :
  core L nd t -> valid_vec v -> exists ws bs rows, sees spec 1 B nd (data v) ws bs rows /\ wake_state ws /\
    ((bs = Closed /\ rows = ∅) \/ (bs = Opened /\ exists row s, rows = {[row := s]})).
Proof.
  intros [Ht Hp Hs Hm] (_ & _ & Ha).
  destruct (sees_exists spec 1 B bank_one nd (data v) id L Ht Hp Hs Ha) as (ws & b & Hsees & Hw & Hb & _).
  by exists ws, (nd_state b), (nd_rows b).
Qed.

(** ** What may be issued *)
Definition can nd (d : Command) v : Prop :=
  match d with
  | ACT => valid_vec v /\ bank_of B nd (data v) = Some (Closed, ∅)
  | PRE => valid_vec v /\ exists rows, bank_of B nd (data v) = Some (Opened, rows)
  | RD | WR => valid_vec v /\ exists rows s, bank_of B nd (data v) = Some (Opened, rows) /\ rows !! data v (S B) = Some s
  | PDX | SRX => valid_vec v
  | REF => ref_vec v
  | PREA => ref_vec v /\ exists v0, valid_vec v0 /\ agree 0 1 (data v) (data v0) = true /\
              exists b, bank_of B nd (data v0) = Some b /\ b.1 <> Closed
  | _ => False
  end.

Lemma decode_data L nd t v c :
  core L nd t -> valid_vec v -> c = RD \/ c = WR ->
  exists d, decode spec nd c (data v) = Ok d /\ can nd d v /\ (d = RD \/ d = WR -> d = c).
Proof.
  intros Hco Hv Hc. destruct (core_sees L nd t v Hco Hv) as (ws & bs & rows & Hs & Hw & Hb).
  pose proof (proj2 (proj2 Hv)) as Ha. rewrite (sees_decode spec 1 B nd (data v) ws bs rows c Hs Ha Hc).
  destruct Hs as (_ & _ & Hbank).
  destruct Hw as [-> | [-> | [-> | ->]]];
    [|exists PDX; split; [done|split; [done|by intros [|]]]|exists PDX; split; [done|split; [done|by intros [|]]]
     |exists SRX; split; [done|split; [done|by intros [|]]]].
  destruct Hb as [[-> ->]|[-> (row & s & ->)]].
  - exists ACT. split; [done|]. split; [by split|by intros [|]].
  - destruct ({[row := s]} !! data v (S B)) as [x|] eqn:Hx.
    + exists c. split; [done|]. split; [|done]. destruct Hc as [-> | ->]; (split; [done|]; eexists _, _; split; [exact Hbank|exact Hx]).
    + exists PRE. split; [done|]. split; [split; [done|by eexists]|by intros [|]].
Qed.

(** A path of the tree below a node is an address in range. *)
Lemma node_at_range k lev i L nd a x l :
  tree_inv spec lev i L nd -> node_at k nd a = Some x -> (lev <= l < k + lev)%nat -> (Z.to_nat (a (S l)) < child_count spec l)%nat.
Proof.
  revert lev i L nd. induction k as [|k IH]; intros lev i L nd Ht; simpl; [lia|].
  pose proof (tree_inv_node _ _ _ _ _ Ht) as [Hl _ _ _ Hc]. destruct (nd_children nd !! _) as [ch|] eqn:Hk; [|done].
  intros Hx Hr. destruct (decide (l = lev)) as [->|Hne].
  - rewrite <- Hc. apply lookup_lt_Some in Hk. by rewrite Hl in Hk.
  - apply (IH (S lev) _ _ ch (tree_inv_child _ _ _ _ _ _ _ Ht Hk) Hx). lia.
Qed.

(** A bank below the rank of a refresh has an address of the channel. *)
Lemma bank_below L nd v rank a b :
  tree_inv spec 0 id L nd -> ref_vec v -> nd_children nd !! Z.to_nat (data v 1%nat) = Some rank ->
  (forall l, 0 <= a l) -> bank_view (B - 1) rank a = Some b ->
  exists v0, valid_vec v0 /\ agree 0 1 (data v) (data v0) = true /\ bank_of B nd (data v0) = Some b.
Proof.
  intros Ht (_ & _ & H1 & _) Hk Hpos Hview. pose proof (tree_inv_leveled _ _ _ _ _ Ht) as [Hl Hch]%leveled_inv.
  set (v0 := (fun l => match l with 0%nat => Z.of_nat id | 1%nat => data v 1%nat | _ => a l end) <$> seq 0 (cs_levels cs)).
  pose proof (B_pos cs B) as HB.
  assert (forall l, (l < B + 3)%nat -> data v0 l = match l with 0%nat => Z.of_nat id | 1%nat => data v 1%nat | _ => a l end) as Hd.
  { intros l Hll. unfold data at 1. apply nth_lookup_Some. unfold v0. by rewrite list_lookup_fmap, lookup_seq_lt by (by rewrite ct_levels). }
  assert (forall k lev (x : Node), leveled lev x -> (1 <= lev)%nat -> (k + lev <= B)%nat -> node_at k x (data v0) = node_at k x a) as Hpath.
  { intros k. induction k as [|k IH]; intros lev x Hx H1l Hkl; [done|]. simpl. apply leveled_inv in Hx as [-> Hxc].
    rewrite (Hd (S lev)) by lia. destruct lev; [lia|]. destruct (nd_children x !! _) as [y|] eqn:Hy; [|done].
    apply (IH (S (S lev))); [exact (Hxc _ _ Hy)|lia|lia]. }
  assert (bank_view B nd (data v0) = Some b) as Hview0.
  { replace B with (S (B - 1)) by lia. rewrite view_child, Hl, (Hd 1%nat) by lia. rewrite Hk. simpl.
    rewrite <- Hview. unfold bank_view. by rewrite (Hpath (B - 1)%nat 1%nat rank (Hch _ _ Hk)) by lia. }
  exists v0. split; [|split; [|exact Hview0]].
  - split; [unfold v0; by rewrite length_fmap, length_seq|]. split; [apply (Hd 0%nat); lia|].
    intros l Hll. destruct l as [|l]; [rewrite (Hd 1%nat) by lia; exact H1|].
    apply fmap_Some in Hview0 as (x & Hx & _). rewrite <- (child_count_below spec 1 B) by lia.
    pose proof (node_at_range B 0 id L nd (data v0) x (S l) Ht Hx ltac:(lia)) as Hlt.
    rewrite (Hd (S (S l))) in * by lia. pose proof (Hpos (S (S l))). lia.
  - rewrite agree_above by lia. by rewrite agree_at, (Hd 1%nat), Z.eqb_refl by lia.
Qed.

(** A refresh is decoded by the table of its rank. *)
Lemma decode_rank L nd t v :
  core L nd t -> ref_vec v ->
  exists rank, nd_children nd !! Z.to_nat (data v 1%nat) = Some rank /\ leveled 1 rank /\
    forall f d, sp_prereq spec 1 REF = Some f -> f rank REF (data v 2%nat) = Ok (Some d) -> decode spec nd REF (data v) = Ok d.
Proof.
  intros Hco (_ & _ & H1 & _). pose proof (core_leveled _ _ _ Hco) as Hlev. destruct Hco as [Ht _ _ _].
  assert (0 <= data v 1%nat < Z.of_nat (child_count spec 0)) as Hr1.
  { rewrite (child_count_below spec 1 B) by (pose proof (B_pos cs B); lia). exact H1. }
  destruct (child_at_ok spec 0 id L nd (data v) Ht Hr1) as (rank & _ & Hk & Hrank).
  assert (leveled 1 rank) as Hl1 by (by eapply tree_inv_leveled).
  exists rank. split; [exact Hk|]. split; [exact Hl1|]. intros f d Hf Hd.
  rewrite (decode_skip spec 1 0 nd REF (data v) rank Hlev);
    [|intros j Hj; replace j with 0%nat by lia; split; [apply ct_refresh_top|simpl; lia]|simpl; by rewrite (leveled_level _ _ Hlev), Hk].
  by rewrite decode_eq, (leveled_level _ _ Hl1), Hf, Hd.
Qed.

Lemma decode_refresh L nd t v :
  core L nd t -> ref_vec v ->
  exists d, decode spec nd REF (data v) = Ok d /\ can nd d v /\ (d = REF \/ d = PREA).
Proof.
  intros Hco Hv. destruct (decode_rank L nd t v Hco Hv) as (rank & Hk & Hl1 & Hdec).
  destruct ct_refresh as (f & Hf & Hcase).
  destruct (Hcase rank (data v 2%nat) Hl1) as [[Hd _]|[Hd (a & b & Hpos & Hview & Hopen)]].
  - exists REF. split; [by eapply Hdec|]. split; [exact Hv|by left].
  - exists PREA. split; [by eapply Hdec|]. split; [|by right]. split; [exact Hv|].
    destruct (bank_below L nd v rank a b (co_tree _ _ _ Hco) Hv Hk Hpos Hview) as (v0 & Hv0 & Ha0 & Hb0).
    exists v0. split; [done|]. split; [done|]. by exists b.
Qed.

(** ** Issuing *)
Lemma can_shape nd d v : can nd d v -> (S B < length v)%nat /\ data v 0%nat = Z.of_nat id /\ valid_addr spec d (data v) /\ issued d.
Proof.
  intros H. assert (valid_vec v \/ (ref_vec v /\ (d = REF \/ d = PREA))) as Hv.
  { destruct d; simpl in H; try done; try (left; by apply H); try (left; exact H); right; (split; [by apply H|tauto]). }
  assert (issued d) as Hi by (by destruct d).
  destruct Hv as [Hv|[(Hlen & H0 & H1 & _) Hd]].
  - split; [exact (valid_length cs B id v Hv)|]. split; [apply Hv|]. split; [|done]. eapply (bank_addr_valid spec 1 B). apply Hv.
  - split; [rewrite Hlen, ct_levels; lia|]. split; [done|]. split; [|done].
    assert (sp_scope spec d = 1%nat) as Hs by (destruct ct_scope as (_ & ? & ?); by destruct Hd as [-> | ->]).
    intros l Hl _. rewrite Hs in Hl. replace l with 0%nat by lia.
    rewrite (child_count_below spec 1 B) by (pose proof (B_pos cs B); lia). exact H1.
Qed.

Lemma effect_issue L nd t d v clk nd' :
  core L nd t -> issued d -> update spec nd d (data v) clk = Ok nd' -> effect_of cs B id d v nd nd'.
Proof.
  intros Hco Hd Hu v' b Hv' Hb. pose proof (B_pos cs B).
  eapply (update_view spec 1 B); [by eapply core_leveled|exact Hd| |lia|exact Hu|exact Hb].
  intros l Hl. apply Hv'. exact Hl.
Qed.

(** The row table accepts what may be issued. *)
Lemma issue_table L nd t d v clk nd' :
  core L nd t -> can nd d v -> effect_of cs B id d v nd nd' ->
  exists t', RowTable_update (sp_row spec) (sp_scope spec) (sp_opening spec) (cs_accessing cs) (cs_closing cs) d v clk t = Ok t' /\
    mirror nd' t'.
Proof.
  intros [_ _ _ Hm] Hcan He. destruct (can_shape nd d v Hcan) as (Hlen & H0 & _ & _).
  unfold RowTable_update. rewrite (row_is cs B), data_lookup by done. destruct (ct_flags d) as (-> & -> & ->).
  destruct d; simpl in Hcan; try done; cbn [is_opening is_accessing is_closing bind_res].
  - destruct Hcan as [Hv Hb]. eexists; split; [done|].
    pose proof (mirror_open cs B id v nd nd' t clk Hv Hb He Hm) as Hm'. rewrite (row_is cs B) in Hm'. exact Hm'.
  - destruct Hcan as [Hv (rows & Hb)]. apply (mirror_close cs B id PRE v nd nd' t v); [by left|done|done|exact Hv| | |exact He|exact Hm].
    + by apply (agree_group cs B id v v).
    + by eexists.
  - destruct Hcan as [Hv (v0 & Hv0 & Ha & Hb)]. apply (mirror_close cs B id PREA v nd nd' t v0); [by right|done|done|exact Hv0|exact Ha|exact Hb|exact He|exact Hm].
  - destruct Hcan as [Hv (rows & s & Hb & Hrow)].
    destruct (mirror_access cs B id RD v nd nd' t clk s rows Hv eq_refl Hb Hrow He Hm) as (t' & Ht' & Hm').
    rewrite (row_is cs B) in Ht'. rewrite Ht'. by exists t'.
  - destruct Hcan as [Hv (rows & s & Hb & Hrow)].
    destruct (mirror_access cs B id WR v nd nd' t clk s rows Hv eq_refl Hb Hrow He Hm) as (t' & Ht' & Hm').
    rewrite (row_is cs B) in Ht'. rewrite Ht'. by exists t'.
  - exists t. split; [done|]. by eapply (mirror_idle _ _ _ REF).
  - exists t. split; [done|]. by eapply (mirror_idle _ _ _ PDX).
  - exists t. split; [done|]. by eapply (mirror_idle _ _ _ SRX).
Qed.

Lemma issue_core L nd t d v clk :
  core L nd t -> can nd d v -> 0 <= clk ->
  exists nd' t', update spec nd d (data v) clk = Ok nd' /\
    RowTable_update (sp_row spec) (sp_scope spec) (sp_opening spec) (cs_accessing cs) (cs_closing cs) d v clk t = Ok t' /\
    core (mkIssue d (data v) clk :: L) nd' t' /\ same_counts nd nd' /\ effect_of cs B id d v nd nd'.
Proof.
  intros Hco Hcan Hclk. destruct (can_shape nd d v Hcan) as (Hlen & H0 & Hva & Hi).
  destruct (update_inv spec id L nd d (data v) clk (co_tree _ _ _ Hco) (co_pos _ _ _ Hco)) as (nd' & Hu & Ht'); [by split|].
  pose proof (effect_issue L nd t d v clk nd' Hco Hi Hu) as He.
  destruct (issue_table L nd t d v clk nd' Hco Hcan He) as (t' & Hrt & Hm').
  exists nd', t'. split; [exact Hu|]. split; [exact Hrt|]. split; [|split; [|exact He]].
  - destruct Hco as [Ht Hp Hs Hm]. constructor; [exact Ht'|by constructor| |exact Hm'].
    eapply (update_states spec 1 B bank_one); [apply bank_one_close| | |exact Ht|exact Hs|exact Hu].
    + intros x y Hxs Hxr. unfold bank_one. by rewrite Hxs, Hxr.
    + intros -> bk Hbk. destruct Hcan as [_ Hb]. unfold bank_of in Hb. rewrite Hbk in Hb. injection Hb as _ Hr.
      right. split; [done|]. simpl. rewrite Hr. by eexists _, _.
  - eapply update_counts; [|exact Hu]. intros lev c f x i Hf. by eapply ef_counts.
Qed.

(** ** What the controller asks the DRAM *)
Definition valid_req (r : Request) : Prop :=
  (is_data r = true -> counted cs r = true) /\
  ((is_data r = true /\ valid_vec (addr_vec r)) \/ (type r = REFRESH /\ ref_vec (addr_vec r))).

Lemma check_total L nd t d v clk :
  core L nd t -> can nd d v -> 0 <= clk ->
  exists b, check spec nd d (data v) clk = Ok b /\
    (b = true <-> forall l, (l <= sp_scope spec d)%nat -> level_exists spec l ->
       next_ref spec l (Z.to_nat (data v l)) d (reaching (data v) l L) <= clk).
Proof.
  intros Hco Hcan Hclk. destruct (can_shape nd d v Hcan) as (_ & H0 & Hva & _).
  destruct (check_path spec (sp_row spec) 0 L nd d (data v) clk) as (b & Hc & Hb); [lia| |exact Hva|lia|exact Hclk|lia|intros j Hj; lia|].
  { rewrite H0, Nat2Z.id, reaching_0. apply (co_tree _ _ _ Hco). }
  exists b. split; [exact Hc|]. rewrite Hb. split; intros H l; intros; apply H; done || lia.
Qed.

Lemma row_open_access nd v c bs rows :
  leveled 0 nd -> valid_vec v -> c = RD \/ c = WR -> bank_of B nd (data v) = Some (bs, rows) ->
  check_row_open spec nd c (data v) =
    match bs with Closed => Ok false | Opened => Ok true | _ => Err AssertFail end.
Proof.
  intros Hlev (_ & _ & Ha) Hc Hb. unfold bank_of in Hb. apply fmap_Some in Hb as (b & Hb & [= -> ->]). unfold check_row_open.
  by rewrite (check_row_bank spec 1 B (sp_rowopen spec) bank_rowopen nd c (data v) Hlev Ha (fun lev => ct_rowopen lev c Hc) b Hb).
Qed.

(** A refresh has no row to hit. *)
Lemma refresh_no_row (table : nat -> Command -> option (Node -> Command -> Z -> result bool)) L nd t v :
  core L nd t -> ref_vec v -> (forall lev, table lev REF = None) -> check_row table nd REF (data v) = Ok false.
Proof.
  intros Hco (_ & _ & H1 & H2) Ht. pose proof (core_leveled _ _ _ Hco) as Hlev. destruct Hco as [Htree _ _ _].
  assert (0 <= data v 1%nat < Z.of_nat (child_count spec 0)) as Hr1.
  { rewrite (child_count_below spec 1 B) by (pose proof (B_pos cs B); lia). exact H1. }
  destruct (child_at_ok spec 0 id L nd (data v) Htree Hr1) as (rank & _ & Hk & Hrank).
  rewrite (check_row_skip table 1 0 nd REF (data v) rank Hlev);
    [|intros j Hj; replace j with 0%nat by lia; split; [apply Ht|simpl; lia]|simpl; by rewrite (leveled_level _ _ Hlev), Hk].
  pose proof (tree_inv_leveled _ _ _ _ _ Hrank) as Hl1.
  rewrite check_row_eq, Ht. unfold leaf_here. rewrite (leveled_level _ _ Hl1). by rewrite (proj2 (Z.ltb_lt _ _) H2).
Qed.

(** The controller's three questions about a request have an answer. *)
Lemma req_decode L nd t r :
  core L nd t -> valid_req r ->
  exists d, decode spec nd (cs_translate cs (type r)) (data (addr_vec r)) = Ok d /\ can nd d (addr_vec r) /\
    (d = cs_translate cs (type r) \/ d <> RD /\ d <> WR /\ d <> REF).
Proof.
  intros Hco [_ [[Hd Hv]|[Hty Hv]]]; destruct ct_translate as (HR & HW & HF).
  - assert (cs_translate cs (type r) = RD \/ cs_translate cs (type r) = WR) as Hc.
    { apply bool_decide_eq_true in Hd as [-> | ->]; [left; exact HR|right; exact HW]. }
    destruct (decode_data L nd t (addr_vec r) _ Hco Hv Hc) as (d & Hdec & Hcan & Hsame). exists d. split; [done|]. split; [done|].
    destruct (decide (d = RD \/ d = WR)) as [Hrw|Hn]; [left; by apply Hsame|]. right. split; [tauto|]. split; [tauto|]. intros ->.
    destruct Hcan as (_ & _ & _ & Hneg). pose proof (proj2 (proj2 Hv) 1%nat) as Hpos. pose proof (B_pos cs B). lia.
  - rewrite Hty, HF. destruct (decode_refresh L nd t (addr_vec r) Hco Hv) as (d & Hdec & Hcan & Hd). exists d.
    split; [done|]. split; [done|]. destruct Hd as [-> | ->]; [by left|]. by right.
Qed.
Lemma req_rows L nd t r :
  core L nd t -> valid_req r ->
  (exists h, check_row_hit spec nd (cs_translate cs (type r)) (data (addr_vec r)) = Ok h) /\
  (exists o, check_row_open spec nd (cs_translate cs (type r)) (data (addr_vec r)) = Ok o).
Proof.
  intros Hco [_ [[Hd Hv]|[Hty Hv]]]; destruct ct_translate as (HR & HW & HF).
  - assert (cs_translate cs (type r) = RD \/ cs_translate cs (type r) = WR) as Hc.
    { apply bool_decide_eq_true in Hd as [-> | ->]; [left; exact HR|right; exact HW]. }
    destruct (core_sees L nd t _ Hco Hv) as (ws & bs & rows & (_ & _ & Hb) & _ & Hbs).
    rewrite (row_hit_access spec 1 B nd (data (addr_vec r)) _ bs rows (core_leveled _ _ _ Hco) (proj2 (proj2 Hv)) Hc Hb).
    rewrite (row_open_access nd (addr_vec r) _ bs rows (core_leveled _ _ _ Hco) Hv Hc Hb).
    destruct Hbs as [[-> _]|[-> _]]; (split; [|by eexists]); [by eexists|]. by destruct (_ !! _); eexists.
  - rewrite Hty, HF. unfold check_row_hit, check_row_open.
    rewrite !(refresh_no_row _ L nd t (addr_vec r) Hco Hv) by (intros lev; apply ct_refresh_rows). split; by eexists.
Qed.
End Core.

(** ** Trees that differ in the serving statistics *)
Section Same.
Context (cs : CtrlSpec Command State) (B id : nat).
Abbreviation spec := (cs_dram cs).
Context `{!SpecOk spec} `{!Banked spec 1 B} `{!Effects spec 1 B} `{!Controlled cs B}.
Implicit Types (nd : Node) (L : list Issue) (t : RowTable).
Abbreviation same := (tree_rel same_dram).

Lemma same_node_at k nd nd' a x :
  same nd nd' -> node_at k nd a = Some x -> exists x', node_at k nd' a = Some x' /\ same x x'.
Proof.
  revert nd nd'. induction k as [|k IH]; intros nd nd' H; simpl; [intros [= <-]; by exists nd'|].
  apply tree_rel_inv in H as (_ & -> & _ & Hn & Hch). destruct (nd_children nd !! _) as [ch|] eqn:Hk; [|discriminate].
  destruct (lookup_lt_is_Some_2 (nd_children nd') (Z.to_nat (a (S (nd_level nd))))) as [ch' Hk']; [rewrite Hn; by eapply lookup_lt_Some|].
  rewrite Hk'. apply IH. exact (Hch _ _ _ Hk Hk').
Qed.
Lemma same_sym nd nd' : same nd nd' -> same nd' nd.
Proof. apply tree_rel_sym. intros x y (? & ? & ? & ? & ?). by repeat split. Qed.
Lemma same_view k nd nd' a : same nd nd' -> bank_view k nd' a = bank_view k nd a.
Proof.
  assert (forall nd nd' b, same nd nd' -> bank_view k nd a = Some b -> bank_view k nd' a = Some b) as Hle.
  { clear nd nd'. intros nd nd' b H (x & Hx & ->)%fmap_Some. destruct (same_node_at k nd nd' a x H Hx) as (x' & Hx' & Hxx).
    apply tree_rel_inv in Hxx as ((Hs & Hr & _) & _). unfold bank_view. rewrite Hx'. simpl. by rewrite Hs, Hr. }
  intros H. destruct (bank_view k nd a) as [b|] eqn:Hb; [by apply (Hle nd)|].
  destruct (bank_view k nd' a) as [b|] eqn:Hb'; [|done]. apply same_sym in H. by rewrite (Hle _ _ _ H Hb') in Hb.
Qed.
Lemma same_dram_tim nd nd' : same nd nd' -> same_tim nd nd'.
Proof.
  induction 1 as [nd nd' (_ & _ & _ & Hn & Hp) Hl Hi Hlen _ IH].
  constructor; [exact Hl|exact Hi|by rewrite Hn|by rewrite Hp|exact Hlen|exact IH].
Qed.
Lemma same_states P lev nd nd' :
  (forall x y, nd_state y = nd_state x -> nd_rows y = nd_rows x -> P x -> P y) ->
  same nd nd' -> states_ok 1 B P lev nd -> states_ok 1 B P lev nd'.
Proof.
  intros HP H. revert lev. induction H as [nd nd' (Hs & Hr & _) Hl Hi Hlen _ IH]. intros lev (H1 & H2 & H3 & H4)%states_ok_inv.
  constructor.
  - congruence.
  - by rewrite Hs.
  - intros Hlev. eapply HP; [exact Hs|exact Hr|by apply H3].
  - intros k ch' Hk'. destruct (lookup_lt_is_Some_2 (nd_children nd) k) as [ch Hk]; [rewrite <- Hlen; by eapply lookup_lt_Some|].
    exact (IH k ch ch' Hk Hk' _ (H4 k ch Hk)).
Qed.
Lemma same_core L nd nd' t : same nd nd' -> core cs B id L nd t -> core cs B id L nd' t.
Proof.
  intros H [Ht Hp Hs [H1 H2]]. constructor.
  - eapply tree_inv_same; [by apply same_dram_tim|exact Ht].
  - exact Hp.
  - eapply same_states; [|exact H|exact Hs]. intros x y Hx Hy. unfold bank_one. by rewrite Hx, Hy.
  - split; [|exact H2]. intros v Hv. rewrite <- (H1 v Hv). exact (same_view B nd nd' (data v) H).
Qed.

(** They decode and check the same. *)
Lemma same_decode L nd nd' t r :
  same nd nd' -> core cs B id L nd t -> valid_req cs B id r ->
  decode spec nd' (cs_translate cs (type r)) (data (addr_vec r)) = decode spec nd (cs_translate cs (type r)) (data (addr_vec r)).
Proof.
  intros Hsame Hco [_ [[Hd Hv]|[Hty Hv]]]; destruct ct_translate as (HR & HW & HF); pose proof (same_core L nd nd' t Hsame Hco) as Hco'.
  - assert (cs_translate cs (type r) = RD \/ cs_translate cs (type r) = WR) as Hc.
    { apply bool_decide_eq_true in Hd as [-> | ->]; [left; exact HR|right; exact HW]. }
    destruct (core_sees cs B id L nd t _ Hco Hv) as (ws & bs & rows & Hs & _). pose proof (proj2 (proj2 Hv)) as Ha.
    rewrite (sees_decode spec 1 B nd _ ws bs rows _ Hs Ha Hc). apply (sees_decode spec 1 B nd' _ ws bs rows); [|exact Ha|exact Hc].
    destruct Hs as (_ & Hw & Hb). split; [exists id, L; by destruct Hco'|]. split.
    + apply fmap_Some in Hw as (w & Hw & ->). destruct (same_node_at 1 nd nd' _ w Hsame Hw) as (w' & Hw' & Hww).
      apply tree_rel_inv in Hww as ((Hs' & _) & _). unfold wake_of. rewrite Hw'. simpl. by rewrite Hs'.
    + rewrite <- Hb. exact (same_view B nd nd' _ Hsame).
  - rewrite Hty, HF. destruct ct_refresh as (f & Hf & Hcase).
    destruct (decode_rank cs B id L nd t _ Hco Hv) as (rank & Hk & Hl & Hdec), (decode_rank cs B id L nd' t _ Hco' Hv) as (rank' & Hk' & Hl' & Hdec').
    apply tree_rel_inv in Hsame as (_ & _ & _ & _ & Hch). pose proof (Hch _ _ _ Hk Hk') as Hrr.
    destruct (Hcase rank (data (addr_vec r) 2%nat) Hl) as [[Hd Hcl]|[Hd (a & b & _ & Hview & Hopen)]],
      (Hcase rank' (data (addr_vec r) 2%nat) Hl') as [[Hd' Hcl']|[Hd' (a' & b' & _ & Hview' & Hopen')]];
      try (by rewrite (Hdec f _ Hf Hd), (Hdec' f _ Hf Hd')); exfalso.
    + apply Hopen'. apply (Hcl a'). by rewrite <- (same_view _ _ _ _ Hrr).
    + apply Hopen. apply (Hcl' a). by rewrite (same_view _ _ _ _ Hrr).
Qed.
End Same.
