(* ===== verification/ControllerRun.v ===== *)
(** * Every cycle of the controller succeeds

    The steps of [tick], one by one, from a state whose DRAM, row table, serving
    counters and requests are in order to the next such state. *)

From stdpp Require Import base tactics numbers list gmap.
From Stdlib Require Import ZArith Lia Sorted.
From S2P Require Import Prelude Dram DramTiming DramStd DramBanks DramFrame Scheduler Controller ControllerInv RowMirror ControllerSafe.

Open Scope Z_scope.

#[local] Abbreviation Node := (Dram.Node Command State).
#[local] Abbreviation Issue := (Dram.Issue Command).
#[local] Abbreviation Ctrl := (Controller.Ctrl Command State).

(** The configurations covered: the DRAM with its latencies, the default row
    policy, and a scheduler that does not count row hits. *)
Record plain (cf : CtrlConfig) : Prop := {
  pl_latency : cf_no_DRAM_latency cf = false;
  pl_policy : cf_policy cf = POpened;
  pl_sched : cf_sched cf <> FRFCFS_Cap;
}.

(** A log (newest first) in which every command respects every timing
    constraint at every level of its path. *)
Fixpoint legal (spec : Spec Command State) (L : list Issue) : Prop :=
  match L with
  | [] => True
  | i :: L =>
      (forall lev, (lev <= sp_scope spec (is_cmd i))%nat -> level_exists spec lev ->
         respects spec lev (Z.to_nat (is_addr i lev)) (is_cmd i) (is_clk i) (reaching (is_addr i) lev L)) /\ legal spec L
  end.
Definition later (i j : Issue) : Prop := is_clk j < is_clk i.

Section Run.
Context (cs : CtrlSpec Command State) (cf : CtrlConfig) (B id : nat).
Abbreviation spec := (cs_dram cs).
Context `{!SpecOk spec} `{!Banked spec 1 B} `{!Effects spec 1 B} `{!Controlled cs B}.
Context (Hplain : plain cf) (Hlat : 0 < cs_read_latency cs).
Implicit Types (c : Ctrl) (r : Request) (v : list Z).
Abbreviation valid_vec := (valid_vec cs B id).
Abbreviation valid_req := (valid_req cs B id).

Definition log c : list Issue := issue_of <$> trace c.
(** The requests in service: those whose commands have begun and whose data are not there yet. *)
Definition serviced c : list Request := started (readq c ++ writeq c ++ otherq c ++ pending c).
Definition in_service c : list (nat -> Z) := (fun r => data (addr_vec r)) <$> serviced c.

(** Every issue lies [n] cycles or more in the past. *)
Record safe (n : Z) c : Prop := {
  sf_core : core cs B id (log c) (channel c) (rowtable c);
  sf_clk : 0 <= clk c;
  sf_queue k r : r ∈ queue k c -> valid_req r;
  sf_pending r : r ∈ pending c -> valid_vec (addr_vec r);
  sf_past : Forall (fun i => is_clk i + n <= clk c) (log c);
  sf_sorted : StronglySorted later (log c);
  sf_legal : legal spec (log c);
}.
Definition serving_ok c : Prop := serv_inv (in_service c) (channel c).

Lemma later_newer L : StronglySorted later L -> StronglySorted newer L.
Proof.
  induction 1 as [|i L _ IH HF]; constructor; [done|]. eapply Forall_impl; [exact HF|]. intros j. unfold later, newer. lia.
Qed.
Lemma safe_weaken n c : 0 <= n -> safe n c -> safe 0 c.
Proof.
  intros Hn [H1 H2 H3 H4 H5 H6 H7]. split; [exact H1|exact H2|exact H3|exact H4| |exact H6|exact H7].
  eapply Forall_impl; [exact H5|]. intros i. simpl. lia.
Qed.

(** Steps that keep the DRAM side. *)
Definition same_side c c' : Prop :=
  channel c' = channel c /\ rowtable c' = rowtable c /\ trace c' = trace c /\ clk c' = clk c.
Lemma safe_side n c c' :
  same_side c c' -> (forall k r, r ∈ queue k c' -> valid_req r) -> (forall r, r ∈ pending c' -> valid_vec (addr_vec r)) ->
  safe n c -> safe n c'.
Proof.
  intros (H1 & H2 & H3 & H4) Hq Hp [G1 G2 _ _ G5 G6 G7]. unfold log in *. split; unfold log; rewrite ?H1, ?H2, ?H3, ?H4; assumption.
Qed.

(** ** Serving counters *)
Lemma serving_wp n c r delta S S' :
  safe n c -> serv_inv S (channel c) -> moves (data (addr_vec r)) delta S S' -> valid_vec (addr_vec r) ->
  wp (serving cs r delta) c (fun _ c' => safe n c' /\ serv_inv S' (channel c') /\ quiet c c' /\
    tree_rel same_dram (channel c) (channel c') /\ trace c' = trace c).
Proof.
  intros [H1 H2 H3 H4 H5 H6 H7] Hs Hm Hv. unfold wp, serving.
  destruct (update_serving_total spec (log c) S S' (channel c) 0 id (data (addr_vec r)) delta (clk c)) as (nd' & -> & Hrel & Hs').
  - apply (co_tree _ _ _ _ _ _ H1).
  - rewrite ct_bank. apply (row_is cs B).
  - apply Hv.
  - intros l Hl. assert (l < B)%nat as HlB.
    { destruct (decide (l < B)%nat); [done|]. by rewrite (child_count_leaf spec 1 B) in Hl by lia. }
    rewrite (child_count_below spec 1 B) by done. apply (proj2 (proj2 Hv) l HlB).
  - exact H2.
  - exact Hs.
  - exact Hm.
  - split; [|split; [exact Hs'|split; [by split; try intros []|split; [exact Hrel|done]]]].
    split; try assumption. eapply same_core; [exact Hrel|exact H1].
Qed.

(** ** Issuing a command *)
Lemma issue_wp c d v S :
  safe 1 c -> can cs B id (channel c) d v -> is_ready_cmd cs d v c = Ok true -> serv_inv S (channel c) ->
  wp (issue_cmd cs cf d v) c (fun _ c' => safe 0 c' /\ serv_inv S (channel c') /\ quiet c c' /\
    trace c' = (d, v, clk c) :: trace c /\ effect_of cs B id d v (channel c) (channel c')).
Proof.
  intros [H1 H2 H3 H4 H5 H6 H7] Hcan Hready Hs. unfold issue_cmd, Datatypes.id. wp_step. wp_step. wp_step. wp_step. exists true. split; [exact Hready|].
  wp_step. wp_step; [done|]. rewrite (pl_latency cf Hplain).
  destruct (issue_core cs B id (log c) (channel c) (rowtable c) d v (clk c) H1 Hcan H2) as (nd' & t' & Hu & Ht & Hco & Hcnt & He).
  wp_step. wp_step. exists nd'. split; [exact Hu|]. wp_step. wp_step. exists t'. split; [exact Ht|]. wp_step.
  split; [|split; [by eapply serv_inv_same|split; [by split; try intros []|by split]]].
  destruct (check_total cs B id (log c) (channel c) (rowtable c) d v (clk c) H1 Hcan H2) as (b & Hb & Hiff).
  unfold is_ready_cmd in Hready. rewrite Hready in Hb. injection Hb as <-.
  split; simpl.
  - exact Hco.
  - exact H2.
  - intros k. apply (H3 k).
  - exact H4.
  - constructor; [simpl; lia|]. eapply Forall_impl; [exact H5|]. intros i. simpl. lia.
  - constructor; [exact H6|]. eapply Forall_impl; [exact H5|]. intros i. unfold later. simpl. lia.
  - split; [|exact H7]. intros lev Hlev Hex. simpl.
    apply next_ref_respects; [apply reaching_sorted; by apply later_newer|exact H2|]. by apply Hiff.
Qed.

(** ** Choosing a request *)
Lemma ready_total n c r : safe n c -> valid_req r -> exists b, is_ready cs cf r c = Ok b.
Proof.
  intros [H1 H2 _ _ _ _ _] Hr. unfold is_ready, get_first_cmd. rewrite (pl_latency cf Hplain).
  destruct (req_decode cs B id _ _ _ r H1 Hr) as (d & -> & Hcan & _). cbn [bind_res]. unfold is_ready_cmd.
  destruct (check_total cs B id _ _ _ d (addr_vec r) (clk c) H1 Hcan H2) as (b & -> & _). by exists b.
Qed.
Definition truth (x : result bool) : bool := match x with Ok b => b | Err _ => false end.
Lemma answers_safe n c k :
  safe n c -> answers (fun r => is_ready cs cf r c) (fun r => is_row_hit cs r c) (fun r => is_row_open cs r c)
    (fun r => truth (is_ready cs cf r c)) (fun r => truth (is_row_hit cs r c)) (fun r => truth (is_row_open cs r c)) (queue k c).
Proof.
  intros Hs r Hr. pose proof (sf_queue n c Hs k r Hr) as Hv. destruct (ready_total n c r Hs Hv) as [b ->].
  destruct (req_rows cs B id _ _ _ r (sf_core n c Hs) Hv) as [[h Hh] [o Ho]]. unfold is_row_hit, is_row_open. by rewrite Hh, Ho.
Qed.

Lemma choose_wp n c k :
  safe n c -> wp (choose cs cf k) c (fun h c' => c' = c /\ match h with Some i => exists r, queue k c !! i = Some r | None => queue k c = [] end).
Proof.
  intros Hs. unfold choose. do 2 wp_step. wp_step. unfold Datatypes.id, wp.
  destruct (get_head_total _ _ _ (get_hits (sp_row spec)) (cf_cap cf) (sp_scope spec (cs_PRE cs)) _ _ _ (cf_sched cf) (queue k c)
    (rowtable c) (answers_safe n c k Hs) (pl_sched cf Hplain)) as (h & -> & Hh).
  split; [by destruct c|]. destruct h as [i|]; [|exact Hh]. by apply lookup_lt_is_Some.
Qed.
Lemma speculate_wp c : wp (speculate cs cf) c (fun _ c' => c' = c).
Proof.
  unfold speculate. do 2 wp_step. rewrite (pl_latency cf Hplain). wp_step. wp_step.
  exists []. unfold get_victim. rewrite (pl_policy cf Hplain). split; [done|]. wp_step; [done|done].
Qed.

(** ** The requests in service *)
Definition waiting c : list Request := readq c ++ writeq c ++ otherq c ++ pending c.
Definition rest (k : QueueId) c : list Request :=
  match k with
  | ReadQ => writeq c ++ otherq c ++ pending c
  | WriteQ => readq c ++ otherq c ++ pending c
  | OtherQ => readq c ++ writeq c ++ pending c
  end.
Lemma waiting_queue k c : waiting c ≡ₚ queue k c ++ rest k c.
Proof. unfold waiting, rest, queue. destruct k; solve_Permutation. Qed.
Lemma waiting_set_queue k q c : waiting (set_queue k q c) ≡ₚ q ++ rest k c.
Proof. unfold waiting, rest, set_queue. destruct k; simpl; solve_Permutation. Qed.
Lemma waiting_delete k i r c :
  queue k c !! i = Some r -> waiting c ≡ₚ r :: waiting (set_queue k (delete i (queue k c)) c).
Proof.
  intros Hk. rewrite waiting_set_queue. etrans; [apply (waiting_queue k)|].
  exact (Permutation_app_tail (rest k c) (delete_Permutation _ _ _ Hk)).
Qed.
Lemma waiting_insert k i r r' c :
  queue k c !! i = Some r ->
  waiting (set_queue k (<[i := r']> (queue k c)) c) ≡ₚ r' :: waiting (set_queue k (delete i (queue k c)) c).
Proof. intros Hk. rewrite !waiting_set_queue. by rewrite (insert_delete_perm _ _ _ _ Hk). Qed.

(** The addresses of a list of requests that are in service. *)
Definition addrs (l : list Request) : list (nat -> Z) := (fun r => data (addr_vec r)) <$> started l.
Lemma addrs_perm l l' : l ≡ₚ l' -> addrs l ≡ₚ addrs l'.
Proof. unfold addrs. intros H. by rewrite H. Qed.
Lemma addrs_one r l : addrs (r :: l) = (if is_data r && negb (is_first_command r) then [data (addr_vec r)] else []) ++ addrs l.
Proof. unfold addrs. rewrite started_one, fmap_app. by destruct (_ && _). Qed.
Lemma in_service_waiting c : in_service c = addrs (waiting c).
Proof. done. Qed.
Lemma in_service_quiet c c' : quiet c c' -> in_service c' = in_service c.
Proof.
  intros [_ _ _ Hq Hp _ _ _]. rewrite !in_service_waiting. unfold waiting.
  pose proof (Hq ReadQ) as H1. pose proof (Hq WriteQ) as H2. pose proof (Hq OtherQ) as H3. simpl in *. congruence.
Qed.
Lemma serving_ok_perm c S : serv_inv S (channel c) -> S ≡ₚ in_service c -> serving_ok c.
Proof. intros H HS. exact (serv_inv_perm _ _ _ HS H). Qed.

(** ** The first command of a request *)
Lemma valid_not_first r : valid_req r -> valid_req (not_first r).
Proof. done. Qed.
Lemma valid_data r : valid_req r -> is_data r = true -> valid_vec (addr_vec r).
Proof. intros [_ [[_ H]|[Hty _]]] Hd; [done|]. unfold is_data in Hd. by rewrite Hty in Hd. Qed.

Lemma rows_wp n c r (f : bool -> bool -> Ctrl -> Ctrl) Q :
  safe n c -> valid_req r -> is_data r = true -> (forall h o, Q tt (f h o c)) ->
  wp (hit ← lift (is_row_hit cs r c); opn ← lift (if hit : bool then Ok false else is_row_open cs r c); assert_ (counted cs r);; modify (f hit opn)) c Q.
Proof.
  intros Hs Hv Hd HQ. destruct (req_rows cs B id _ _ _ r (sf_core n c Hs) Hv) as [[h Hh] [o Ho]].
  wp_step. wp_step. exists h. split; [exact Hh|]. wp_step. wp_step.
  exists (if h then false else o). split; [by destruct h|]. wp_step. wp_step; [exact (proj1 Hv Hd)|]. wp_step. apply HQ.
Qed.

(** The mark alone, before the DRAM hears of it. *)
Lemma mark_safe k i req c :
  safe 1 c -> queue k c !! i = Some req -> is_first_command req = true ->
  let c1 := set_queue k (<[i := not_first req]> (queue k c)) c in
  safe 1 c1 /\ in_service c1 ≡ₚ (if is_data req then [data (addr_vec req)] else []) ++ in_service c /\
  queue k c1 !! i = Some (not_first req).
Proof.
  intros Hs Hk Hf c1. pose proof (sf_queue 1 c Hs k req ltac:(by eapply list_elem_of_lookup_2)) as Hv. split; [|split].
  - eapply (safe_side 1 c); [by repeat split| |apply (sf_pending 1 c Hs)|exact Hs].
    intros k' r Hr. destruct (decide (k' = k)) as [->|Hne].
    + unfold c1 in Hr. rewrite queue_set_queue in Hr. apply list_elem_of_lookup in Hr as [j Hj].
      apply list_lookup_insert_Some in Hj as [(_ & <- & _)|[_ Hj]]; [by apply valid_not_first|].
      apply (sf_queue 1 c Hs k). by eapply list_elem_of_lookup_2.
    + apply (sf_queue 1 c Hs k'). by destruct k', k.
  - unfold c1. rewrite !in_service_waiting, (addrs_perm _ _ (waiting_insert k i req (not_first req) c Hk)), (addrs_perm _ _ (waiting_delete k i req c Hk)).
    rewrite !addrs_one, Hf, andb_false_r. simpl. change (is_data (not_first req)) with (is_data req). by rewrite andb_true_r.
  - unfold c1. rewrite queue_set_queue. apply list_lookup_insert_eq. by eapply lookup_lt_Some.
Qed.

Lemma first_command_wp k i req c :
  safe 1 c -> serving_ok c -> queue k c !! i = Some req -> is_first_command req = true ->
  wp (first_command cs k i req) c (fun _ c' => safe 1 c' /\ serving_ok c' /\
    tree_rel same_dram (channel c) (channel c') /\ trace c' = trace c /\ clocks c' = clocks c /\
    forall k', queue k' c' = queue k' (set_queue k (<[i := not_first req]> (queue k c)) c)).
Proof.
  intros Hs Hso Hk Hf. pose proof (sf_queue 1 c Hs k req ltac:(by eapply list_elem_of_lookup_2)) as Hv.
  destruct (mark_safe k i req c Hs Hk Hf) as (Hs1 & Hin & Hi).
  unfold first_command. wp_step. wp_step. set (c1 := set_queue k (<[i := not_first req]> (queue k c)) c) in *.
  wp_step. wp_step; intros Hty.
  - assert (is_data req = true) as Hd by exact Hty. rewrite Hd in Hin.
    eapply wp_mono; [apply (serving_wp 1 c1 req 1 (in_service c) (data (addr_vec req) :: in_service c)); [exact Hs1|exact Hso|by left|by apply valid_data]|].
    intros [] c2 (Hs2 & Hso2 & Hq & Hrel & Htr). unfold Datatypes.id. wp_step. wp_step.
    assert (forall s, safe 1 (set_stats s c2) /\ serving_ok (set_stats s c2) /\ tree_rel same_dram (channel c) (channel (set_stats s c2)) /\
      trace (set_stats s c2) = trace c /\ clocks (set_stats s c2) = clocks c /\ forall k', queue k' (set_stats s c2) = queue k' c1) as Hend.
    { intros s. split; [|split; [|split; [exact Hrel|split; [exact Htr|split; [exact (quiet_clocks _ _ Hq)|]]]]].
      - eapply (safe_side 1 c2); [by repeat split| |apply (sf_pending 1 c2 Hs2)|exact Hs2]. intros k' r Hr.
        apply (sf_queue 1 c2 Hs2 k'). by destruct k'.
      - eapply serving_ok_perm; [exact Hso2|]. change (in_service (set_stats s c2)) with (in_service c2).
        by rewrite (in_service_quiet _ _ Hq), Hin.
      - intros k'. rewrite <- (q_queue _ _ Hq). by destruct k'. }
    destruct (type req); try (exfalso; done);
      apply (rows_wp 1 c2 req (fun h o c => set_stats _ c)); first [exact Hs2|exact Hv|exact Hd|intros h o; apply Hend].
  - assert (is_data req = false) as Hd by exact Hty. rewrite Hd in Hin. do 2 wp_step.
    assert (serving_ok c1) as Hso1 by (eapply serving_ok_perm; [exact Hso|by rewrite Hin]).
    assert (tree_rel same_dram (channel c) (channel c1)) as Hrel by (apply tree_rel_refl; by intros x).
    assert (wp (mret tt) c1 (fun _ c' => safe 1 c' /\ serving_ok c' /\
      tree_rel same_dram (channel c) (channel c') /\ trace c' = trace c /\ clocks c' = clocks c /\
    forall k', queue k' c' = queue k' (set_queue k (<[i := not_first req]> (queue k c)) c))) as Hret.
    { wp_step. split; [exact Hs1|split; [exact Hso1|split; [exact Hrel|split; [done|split; [done|done]]]]]. }
    destruct (type req); try (exfalso; done); exact Hret.
Qed.

(** ** The last command of a request *)

(** The request leaves its queue. *)
Lemma delete_safe n k i req c c1 :
  safe n c -> queue k c !! i = Some req -> same_side c c1 -> (forall k, queue k c1 = queue k c) ->
  (forall r, r ∈ pending c1 -> valid_vec (addr_vec r)) ->
  let c2 := set_queue k (delete i (queue k c1)) c1 in
  safe n c2 /\ waiting c1 ≡ₚ req :: waiting c2 /\ forall k', queue k' c2 = queue k' (set_queue k (delete i (queue k c)) c).
Proof.
  intros Hs Hk Hside Hq Hp c2.
  assert (forall k', queue k' c2 = queue k' (set_queue k (delete i (queue k c)) c)) as Hqq.
  { intros k'. unfold c2. rewrite (Hq k). pose proof (Hq ReadQ) as H1. pose proof (Hq WriteQ) as H2. pose proof (Hq OtherQ) as H3.
    simpl in H1, H2, H3. destruct k', k; simpl; congruence. }
  split; [|split; [|exact Hqq]].
  - eapply (safe_side n c); [by destruct Hside as (? & ? & ? & ?)| |exact Hp|exact Hs].
    intros k' r. rewrite Hqq. intros Hr. destruct (decide (k' = k)) as [->|Hne].
    + rewrite queue_set_queue in Hr. apply (sf_queue n c Hs k). eapply elem_of_submseteq; [exact Hr|]. apply submseteq_delete.
    + apply (sf_queue n c Hs k'). by destruct k', k.
  - apply waiting_delete. by rewrite Hq.
Qed.

Definition leaves k i c c' : Prop :=
  safe 0 c' /\ serving_ok c' /\ trace c' = trace c /\ clocks c' = clocks c /\
  tree_rel same_dram (channel c) (channel c') /\ forall k', queue k' c' = queue k' (set_queue k (delete i (queue k c)) c).

Lemma last_read_wp k i req c :
  safe 0 c -> serving_ok c -> queue k c !! i = Some req -> is_first_command req = false -> type req = READ ->
  wp (last_command cs k i req) c (fun _ c' => leaves k i c c').
Proof.
  intros Hs Hso Hk Hf Hty. pose proof (sf_queue 0 c Hs k req ltac:(by eapply list_elem_of_lookup_2)) as Hv.
  assert (is_data req = true) as Hd by (unfold is_data; by rewrite Hty). pose proof (valid_data req Hv Hd) as Hvec.
  unfold last_command. rewrite Hty. do 3 wp_step.
  set (r' := with_depart _ req). set (c1 := set_pending (pending c ++ [r']) c).
  destruct (delete_safe 0 k i req c c1) as (Hs2 & Hw & Hq); [exact Hs|exact Hk|by repeat split|by intros []| |].
  { simpl. intros r [Hr|Hr]%elem_of_app; [by apply (sf_pending 0 c Hs)|]. by apply list_elem_of_singleton in Hr as ->. }
  split; [exact Hs2|]. split; [|split; [done|split; [done|split; [apply tree_rel_refl; by intros x|exact Hq]]]].
  eapply serving_ok_perm; [exact Hso|]. rewrite !in_service_waiting.
  assert (waiting c1 ≡ₚ r' :: waiting c) as Hw1 by (unfold waiting; simpl; solve_Permutation).
  pose proof (addrs_perm _ _ Hw1) as E1. rewrite (addrs_perm _ _ Hw), !addrs_one in E1.
  change (is_data r') with (is_data req) in E1. change (is_first_command r') with (is_first_command req) in E1. rewrite Hd, Hf in E1.
  cbn [andb negb app] in E1. by apply Permutation_cons_inv in E1.
Qed.

Lemma last_write_wp k i req c :
  safe 0 c -> serving_ok c -> queue k c !! i = Some req -> is_first_command req = false -> type req = WRITE ->
  wp (last_command cs k i req) c (fun _ c' => leaves k i c c').
Proof.
  intros Hs Hso Hk Hf Hty. pose proof (sf_queue 0 c Hs k req ltac:(by eapply list_elem_of_lookup_2)) as Hv.
  assert (is_data req = true) as Hd by (unfold is_data; by rewrite Hty). pose proof (valid_data req Hv Hd) as Hvec.
  unfold last_command. rewrite Hty. set (c3 := set_queue k (delete i (queue k c)) c).
  assert (in_service c ≡ₚ data (addr_vec req) :: in_service c3) as Hin.
  { rewrite !in_service_waiting, (addrs_perm _ _ (waiting_delete k i req c Hk)), addrs_one, Hd, Hf. done. }
  do 2 wp_step. eapply wp_mono; [apply (serving_wp 0 c req (-1) (in_service c) (in_service c3)); [exact Hs|exact Hso|by right|exact Hvec]|].
  intros [] c1 (Hs1 & Hso1 & Hqt & Hrel & Htr). wp_step. wp_step. set (c1' := set_pending_write _ c1).
  assert (forall k, queue k c1' = queue k c1) as Hqc by (by intros []).
  destruct (delete_safe 0 k i req c1 c1') as (Hs2 & _ & Hq); [exact Hs1|by rewrite (q_queue _ _ Hqt)|by repeat split|exact Hqc|apply (sf_pending 0 c1 Hs1)|].
  set (c2 := set_queue k (delete i (queue k c1')) c1') in *.
  assert (forall k', queue k' c2 = queue k' c3) as Hq3.
  { intros k'. rewrite Hq. unfold c3. rewrite (q_queue _ _ Hqt). pose proof (q_queue _ _ Hqt k') as H1. destruct k', k; done. }
  split; [exact Hs2|]. split; [|split; [exact Htr|split; [exact (quiet_clocks _ _ Hqt)|split; [exact Hrel|exact Hq3]]]].
  eapply serving_ok_perm; [exact Hso1|]. rewrite !in_service_waiting.
  assert (waiting c2 = waiting c3) as ->; [|done]. unfold waiting.
  assert (readq c2 = readq c3) as -> by exact (Hq3 ReadQ). assert (writeq c2 = writeq c3) as -> by exact (Hq3 WriteQ).
  assert (otherq c2 = otherq c3) as -> by exact (Hq3 OtherQ). assert (pending c2 = pending c3) as -> by exact (q_pending _ _ Hqt). done.
Qed.

Lemma last_command_wp k i req c :
  safe 0 c -> serving_ok c -> queue k c !! i = Some req -> is_first_command req = false ->
  wp (last_command cs k i req) c (fun _ c' => leaves k i c c').
Proof.
  intros Hs Hso Hk Hf.
  assert (is_data req = false -> wp (mret tt;; modify (fun c => set_queue k (delete i (queue k c)) c)) c (fun _ c' => leaves k i c c')) as Hend.
  { intros Hd. do 3 wp_step.
    destruct (delete_safe 0 k i req c c) as (Hs2 & Hw & Hq); [exact Hs|exact Hk|by repeat split|done|apply (sf_pending 0 c Hs)|].
    split; [exact Hs2|]. split; [|split; [done|split; [done|split; [apply tree_rel_refl; by intros x|exact Hq]]]].
    eapply serving_ok_perm; [exact Hso|]. rewrite !in_service_waiting, (addrs_perm _ _ Hw), addrs_one, Hd. done. }
  destruct (type req) eqn:Hty; [by apply last_read_wp|by apply last_write_wp|..];
    unfold last_command; rewrite Hty; apply Hend; unfold is_data; by rewrite Hty.
Qed.

(** ** Serving a request *)
Lemma effect_same d v nd nd1 nd2 nd3 :
  tree_rel same_dram nd nd1 -> effect_of cs B id d v nd1 nd2 -> tree_rel same_dram nd2 nd3 -> effect_of cs B id d v nd nd3.
Proof.
  intros H1 He H3 v' b Hv' Hb. change (bank_of B) with (bank_view B) in *.
  rewrite (same_view B _ _ _ H3). apply (He v' b Hv'). change (bank_of B) with (bank_view B). by rewrite (same_view B _ _ _ H1).
Qed.

(** The request that is ready stays ready while only the serving counters change. *)
Lemma ready_same c c1 r :
  safe 1 c -> safe 1 c1 -> trace c1 = trace c -> clk c1 = clk c -> tree_rel same_dram (channel c) (channel c1) ->
  valid_req r -> is_ready cs cf r c = Ok true ->
  exists d, decode spec (channel c) (cs_translate cs (type r)) (data (addr_vec r)) = Ok d /\ get_first_cmd cs cf r c1 = Ok d /\
    can cs B id (channel c) d (addr_vec r) /\ can cs B id (channel c1) d (addr_vec r) /\ is_ready_cmd cs d (addr_vec r) c1 = Ok true /\
    (d = cs_translate cs (type r) \/ d <> RD /\ d <> WR /\ d <> REF).
Proof.
  intros [H1 H2 _ _ _ _ _] [G1 G2 _ _ _ _ _] Htr Hclk Hrel Hv Hready.
  assert (log c1 = log c) as Hlog by (unfold log; by rewrite Htr).
  destruct (req_decode cs B id _ _ _ r H1 Hv) as (d & Hd & Hcan & Hor), (req_decode cs B id _ _ _ r G1 Hv) as (d1 & Hd1 & Hcan1 & _).
  rewrite (same_decode cs B id (log c) (channel c) (channel c1) (rowtable c) r Hrel H1 Hv), Hd in Hd1. injection Hd1 as <-.
  exists d. split; [exact Hd|]. unfold is_ready, get_first_cmd in *. rewrite (pl_latency cf Hplain) in *.
  rewrite Hd in Hready. cbn [bind_res] in Hready. unfold is_ready_cmd in *.
  split; [by rewrite (same_decode cs B id (log c) (channel c) (channel c1) (rowtable c) r Hrel H1 Hv)|].
  split; [exact Hcan|]. split; [exact Hcan1|]. split; [|exact Hor].
  destruct (check_total cs B id _ _ _ d _ (clk c) H1 Hcan H2) as (b & Hb & Hiff). rewrite Hready in Hb. injection Hb as <-.
  destruct (check_total cs B id _ _ _ d _ (clk c1) G1 Hcan1 G2) as (b1 & -> & Hiff1). f_equal. apply Hiff1. rewrite Hlog, Hclk. by apply Hiff.
Qed.

Definition served k i req c c' : Prop := exists d,
  decode spec (channel c) (cs_translate cs (type req)) (data (addr_vec req)) = Ok d /\ can cs B id (channel c) d (addr_vec req) /\
  trace c' = (d, addr_vec req, clk c) :: trace c /\ clocks c' = clocks c /\
  effect_of cs B id d (addr_vec req) (channel c) (channel c') /\
  forall k', queue k' c' = if decide (k' = k) then
      (if decide (d = cs_translate cs (type req)) then delete i (queue k c) else <[i := not_first req]> (queue k c))
    else queue k' c.

Lemma queue_set_queue_if k k' q c : queue k' (set_queue k q c) = if decide (k' = k) then q else queue k' c.
Proof. by destruct k, k'. Qed.
Lemma delete_insert_same {A} (l : list A) i x : delete i (<[i := x]> l) = delete i l.
Proof. revert i. induction l as [|a l IH]; intros [|i]; simpl; [done..|]. by rewrite IH. Qed.

Lemma serve_request_wp k i req c :
  safe 1 c -> serving_ok c -> queue k c !! i = Some req -> is_ready cs cf req c = Ok true ->
  wp (serve_request cs cf k i req) c (fun _ c' => safe 0 c' /\ serving_ok c' /\ served k i req c c').
Proof.
  intros Hs Hso Hk Hready. pose proof (sf_queue 1 c Hs k req ltac:(by eapply list_elem_of_lookup_2)) as Hv.
  assert (tree_rel same_dram (channel c) (channel c)) as Hrefl by (apply tree_rel_refl; by intros x).
  unfold serve_request. wp_step.
  assert (forall c1, safe 1 c1 -> serving_ok c1 -> tree_rel same_dram (channel c) (channel c1) -> trace c1 = trace c -> clocks c1 = clocks c ->
    (forall k', queue k' c1 = queue k' (set_queue k (<[i := not_first req]> (queue k c)) c)) ->
    wp (c ← gets Datatypes.id; cmd ← lift (get_first_cmd cs cf req c); issue_cmd cs cf cmd (addr_vec req);;
        when (bool_decide (cmd = cs_translate cs (type req))) (last_command cs k i (not_first req))) c1
      (fun _ c' => safe 0 c' /\ serving_ok c' /\ served k i req c c')) as Hrest.
  { intros c1 Hs1 Hso1 Hrel Htr Hck Hq. assert (clk c1 = clk c) as Hclk by (by injection Hck).
    destruct (ready_same c c1 req Hs Hs1 Htr Hclk Hrel Hv Hready) as (d & Hd & Hfirst & Hcan & Hcan1 & Hrdy & Hor).
    unfold Datatypes.id. do 4 wp_step. exists d. split; [exact Hfirst|]. wp_step.
    eapply wp_mono; [by apply (issue_wp c1 d (addr_vec req) (in_service c1))|]. intros [] c2 (Hs2 & Hso2 & Hqt & Htr2 & He).
    assert (serving_ok c2) as Hok2 by (eapply serving_ok_perm; [exact Hso2|by rewrite (in_service_quiet _ _ Hqt)]).
    assert (queue k c2 !! i = Some (not_first req)) as Hk2.
    { rewrite (q_queue _ _ Hqt), Hq, queue_set_queue. apply list_lookup_insert_eq. by eapply lookup_lt_Some. }
    assert (forall k', queue k' c2 = if decide (k' = k) then <[i := not_first req]> (queue k c) else queue k' c) as Hq2.
    { intros k'. by rewrite (q_queue _ _ Hqt), Hq, queue_set_queue_if. }
    wp_step; intros Hlast; [apply bool_decide_eq_true in Hlast|apply bool_decide_eq_false in Hlast].
    - eapply wp_mono; [by apply (last_command_wp k i (not_first req))|].
      intros [] c3 (Hs3 & Hso3 & Htr3 & Hck3 & Hrel3 & Hq3). split; [exact Hs3|]. split; [exact Hso3|].
      exists d. split; [exact Hd|]. split; [exact Hcan|]. split; [by rewrite Htr3, Htr2, Hclk, Htr|].
      split; [rewrite Hck3, (quiet_clocks _ _ Hqt); exact Hck|]. split; [exact (effect_same _ _ _ _ _ _ Hrel He Hrel3)|].
      intros k'. rewrite Hq3, queue_set_queue_if. destruct (decide (k' = k)) as [->|Hne].
      + rewrite Hq2, decide_True, (decide_True _ _ Hlast) by done. apply delete_insert_same.
      + by rewrite Hq2, decide_False.
    - split; [exact Hs2|]. split; [exact Hok2|]. exists d. split; [exact Hd|]. split; [exact Hcan|]. split; [by rewrite Htr2, Hclk, Htr|].
      split; [rewrite (quiet_clocks _ _ Hqt); exact Hck|].
      split; [apply (effect_same _ _ _ _ _ _ Hrel He); apply tree_rel_refl; by intros x|].
      intros k'. rewrite Hq2. destruct (decide (k' = k)); [|done]. by rewrite (decide_False _ _ Hlast). }
  wp_step; intros Hf.
  - eapply wp_mono; [by apply (first_command_wp k i req)|]. intros [] c1 (H1 & H2 & H3 & H4 & H5 & H6). by apply Hrest.
  - apply Hrest; [exact Hs|exact Hso|exact Hrefl|done|done|]. intros k'. rewrite queue_set_queue_if, not_first_id by done.
    destruct (decide (k' = k)) as [->|]; [|done]. by rewrite list_insert_id.
Qed.

(** What [schedule] does: it serves the chosen request, or nothing can be issued. *)
Definition scheduled c c' : Prop :=
  let k := chosen_queue c in
  (exists i req, queue k c !! i = Some req /\ served k i req c c') \/
  (c' = c /\ (queue k c = [] \/ exists i req, queue k c !! i = Some req /\ is_ready cs cf req c = Ok false)).
Lemma schedule_wp c :
  safe 1 c -> serving_ok c -> wp (schedule cs cf) c (fun _ c' => safe 0 c' /\ serving_ok c' /\ scheduled c c').
Proof.
  intros Hs Hso. assert (safe 0 c) as Hs0 by (by apply (safe_weaken 1)). unfold schedule. wp_step. wp_step. unfold Datatypes.id. cbv zeta.
  unfold scheduled. set (k := chosen_queue c). wp_step. eapply wp_mono; [by apply (choose_wp 1)|]. intros h c1 [-> Hh].
  destruct h as [i|].
  - destruct Hh as [req Hk]. rewrite Hk. wp_step. wp_step. wp_step. wp_step.
    destruct (ready_total 1 c req Hs) as [b Hb]; [apply (sf_queue 1 c Hs k); by eapply list_elem_of_lookup_2|].
    exists b. split; [exact Hb|]. destruct b.
    + eapply wp_mono; [by apply (serve_request_wp k i req)|]. intros [] c' (H1 & H2 & H3). split; [exact H1|]. split; [exact H2|].
      left. by exists i, req.
    + eapply wp_mono; [apply speculate_wp|]. intros [] c' ->. split; [exact Hs0|]. split; [exact Hso|]. right. split; [done|]. right. by exists i, req.
  - eapply wp_mono; [apply speculate_wp|]. intros [] c' ->. split; [exact Hs0|]. split; [exact Hso|]. right. split; [done|]. by left.
Qed.

(** ** Completions *)
Definition calm c c' : Prop :=
  trace c' = trace c /\ clocks c' = clocks c /\ tree_rel same_dram (channel c) (channel c') /\ forall k, queue k c' = queue k c.
Lemma calm_refl c : calm c c.
Proof. split; [done|]. split; [done|]. split; [apply tree_rel_refl; by intros x|done]. Qed.
Lemma calm_trans c1 c2 c3 : calm c1 c2 -> calm c2 c3 -> calm c1 c3.
Proof.
  intros (H1 & H2 & H3 & H4) (G1 & G2 & G3 & G4). split; [congruence|]. split; [congruence|]. split; [|intros k; by rewrite G4].
  eapply tree_rel_trans; [|exact H3|exact G3]. intros x y z (? & ? & ? & ? & ?) (? & ? & ? & ? & ?). repeat split; congruence.
Qed.

Lemma pop_pending n c req rest :
  safe n c -> pending c = req :: rest ->
  safe n (set_pending rest c) /\ calm c (set_pending rest c) /\ in_service c ≡ₚ addrs (req :: waiting (set_pending rest c)).
Proof.
  intros Hs Hp. split; [|split].
  - eapply (safe_side n c); [by repeat split|intros []; [apply (sf_queue n c Hs ReadQ)|apply (sf_queue n c Hs WriteQ)|apply (sf_queue n c Hs OtherQ)]| |exact Hs].
    simpl. intros r Hr. apply (sf_pending n c Hs). rewrite Hp. by right.
  - split; [done|]. split; [done|]. split; [apply tree_rel_refl; by intros x|by intros []].
  - rewrite in_service_waiting. apply addrs_perm. unfold waiting. simpl. rewrite Hp. solve_Permutation.
Qed.

Lemma serve_reads_wp n c :
  safe n c -> serving_ok c -> timed cs (fun _ => True) n c ->
  wp (serve_reads cs) c (fun _ c' => safe n c' /\ serving_ok c' /\ calm c c').
Proof.
  intros Hs Hso Ht. unfold serve_reads. wp_step. wp_step. unfold Datatypes.id.
  destruct (pending c) as [|req rest] eqn:Hp; [wp_step; split; [exact Hs|]; split; [exact Hso|apply calm_refl]|].
  destruct (depart req <=? clk c); [|wp_step; split; [exact Hs|]; split; [exact Hso|apply calm_refl]].
  assert (req ∈ pending c) as Hin by (rewrite Hp; by left).
  destruct (tm_pending _ _ _ _ Ht req Hin) as [Hty Htm]. assert (is_data req = true) as Hd by (unfold is_data; by rewrite Hty).
  assert (forall c1, safe n c1 -> calm c c1 ->
    (serv_inv (addrs (waiting (set_pending rest c))) (channel c1)) -> pending c1 = req :: rest ->
    wp (modify (set_pending rest);; mret [req]) c1 (fun _ c' => safe n c' /\ serving_ok c' /\ calm c c')) as Hrest.
  { intros c1 Hs1 Hc1 Hsv Hp1. destruct (pop_pending n c1 req rest Hs1 Hp1) as (Hs2 & Hc2 & _).
    wp_step. wp_step. wp_step. split; [exact Hs2|]. split; [|by eapply calm_trans].
    eapply serving_ok_perm; [exact Hsv|]. rewrite in_service_waiting. destruct Hc1 as (_ & _ & _ & Hq).
    assert (waiting (set_pending rest c1) = waiting (set_pending rest c)) as ->; [|done]. unfold waiting. simpl.
    pose proof (Hq ReadQ) as H1. pose proof (Hq WriteQ) as H2. pose proof (Hq OtherQ) as H3. simpl in *. congruence. }
  destruct (pop_pending n c req rest Hs Hp) as (_ & _ & Hserv). rewrite addrs_one, Hd in Hserv. simpl in Hserv.
  wp_step. wp_step; intros Hfd; [apply bool_decide_eq_true in Hfd|apply bool_decide_eq_false in Hfd].
  - assert (is_first_command req = false) as Hf by (destruct Htm as [[_ ?]|[? _]]; [lia|done]). rewrite Hf in Hserv. simpl in Hserv.
    wp_step. wp_step. set (c1 := set_stats _ c).
    assert (safe n c1) as Hs1 by (destruct Hs; by split; try assumption; intros []).
    eapply wp_mono; [apply (serving_wp n c1 req (-1) (in_service c) (addrs (waiting (set_pending rest c))));
      [exact Hs1|exact Hso|right; by split|by apply (sf_pending n c Hs)]|].
    intros [] c2 (Hs2 & Hsv & Hq & Hrel & Htr). apply Hrest; [exact Hs2| |exact Hsv|by rewrite (q_pending _ _ Hq)].
    split; [exact Htr|]. split; [exact (quiet_clocks _ _ Hq)|]. split; [exact Hrel|]. intros k. rewrite (q_queue _ _ Hq). by destruct k.
  - assert (is_first_command req = true) as Hf by (destruct Htm as [[? _]|[? ?]]; [done|lia]). rewrite Hf in Hserv. simpl in Hserv.
    apply Hrest; [exact Hs|apply calm_refl| |exact Hp].
    exact (serv_inv_perm _ _ _ Hserv Hso).
Qed.

Lemma serve_writes_wp n c :
  safe n c -> serving_ok c -> wp serve_writes c (fun _ c' => safe n c' /\ serving_ok c' /\ calm c c').
Proof.
  intros Hs Hso. unfold serve_writes. wp_step. wp_step. unfold Datatypes.id.
  destruct (pending_write c) as [|req rest]; [wp_step; split; [exact Hs|]; split; [exact Hso|apply calm_refl]|].
  destruct (depart req <=? clk c); [|wp_step; split; [exact Hs|]; split; [exact Hso|apply calm_refl]].
  do 3 wp_step. split; [|split; [exact Hso|]].
  - eapply (safe_side n c); [by repeat split|intros []; [apply (sf_queue n c Hs ReadQ)|apply (sf_queue n c Hs WriteQ)|apply (sf_queue n c Hs OtherQ)]|apply (sf_pending n c Hs)|exact Hs].
  - split; [done|]. split; [done|]. split; [apply tree_rel_refl; by intros x|by intros []].
Qed.

(** ** Refresh *)
Lemma enqueue_other_wp n c r :
  safe n c -> serving_ok c -> is_data r = false -> get_queue (type r) = OtherQ -> valid_req r -> (length (otherq c) < queue_max)%nat ->
  wp (enqueue r) c (fun b c' => b = true /\ c' = set_queue OtherQ (otherq c ++ [with_arrive (clk c) r]) c /\ safe n c' /\ serving_ok c').
Proof.
  intros Hs Hso Hd Hq Hv Hlen. unfold wp, enqueue. rewrite Hq. cbn [queue]. destruct (decide _) as [Hfull|_]; [lia|].
  assert (bool_decide (type (with_arrive (clk c) r) = READ) = false) as ->.
  { simpl. apply bool_decide_false. intros Hty. unfold is_data in Hd. by rewrite Hty in Hd. }
  cbn [andb]. split; [done|]. split; [done|].
  assert (valid_req (with_arrive (clk c) r)) as Hv' by exact Hv. split.
  - eapply (safe_side n c); [by repeat split| |apply (sf_pending n c Hs)|exact Hs].
    intros k r' Hr. destruct k; [by apply (sf_queue n c Hs ReadQ)|by apply (sf_queue n c Hs WriteQ)|].
    simpl in Hr. apply elem_of_app in Hr as [Hr|Hr]; [by apply (sf_queue n c Hs OtherQ)|]. by apply list_elem_of_singleton in Hr as ->.
  - eapply serving_ok_perm; [exact Hso|]. rewrite !in_service_waiting.
    assert (waiting (set_queue OtherQ (otherq c ++ [with_arrive (clk c) r]) c) ≡ₚ with_arrive (clk c) r :: waiting c) as Hw.
    { unfold waiting. simpl. solve_Permutation. }
    rewrite (addrs_perm _ _ Hw), addrs_one. change (is_data (with_arrive (clk c) r)) with (is_data r). by rewrite Hd.
Qed.

Lemma refresh_request_valid rank :
  (rank < sp_count spec 1)%nat -> valid_req (refresh_request cs (Z.of_nat id) (Z.of_nat rank) (-1) (-1)).
Proof.
  intros Hr. split; [done|]. right. split; [done|]. pose proof (B_pos cs B). pose proof (ct_levels (cs:=cs) (B:=B)) as Hl. split.
  - simpl. rewrite length_replicate. lia.
  - split; [done|]. unfold data; simpl; lia.
Qed.

(** The refreshes of the first [n] ranks, in order. *)
Definition refreshes (now : Z) (ranks : list nat) : list Request :=
  (fun rank => with_arrive now (refresh_request cs (Z.of_nat id) (Z.of_nat rank) (-1) (-1))) <$> ranks.

Lemma inject_ranks_wp n l c :
  safe n c -> serving_ok c -> nd_id (channel c) = id ->
  Forall (fun rank => (nd_id rank < sp_count spec 1)%nat) l -> (length (otherq c) + length l <= queue_max)%nat ->
  wp (inject_ranks cs l) c (fun _ c' => safe n c' /\ serving_ok c' /\
    c' = set_queue OtherQ (otherq c ++ refreshes (clk c) (nd_id <$> l)) c).
Proof.
  revert c. induction l as [|rank l IH]; intros c Hs Hso Hid Hl Hlen; cbn [inject_ranks]; wp_step.
  { split; [exact Hs|]. split; [exact Hso|]. simpl. rewrite app_nil_r. by destruct c. }
  apply Forall_cons in Hl as [Hr Hl]. simpl in Hlen. unfold refresh_target, Datatypes.id. wp_step. wp_step. wp_step. rewrite Hid.
  eapply wp_mono; [apply (enqueue_other_wp n c); [exact Hs|exact Hso|done|done|by apply refresh_request_valid|lia]|].
  intros b c1 (-> & -> & Hs1 & Hso1). set (c1 := set_queue OtherQ _ c) in *. wp_step; [done|].
  eapply wp_mono; [apply (IH c1); [exact Hs1|exact Hso1|exact Hid|exact Hl|simpl; rewrite length_app; simpl; lia]|].
  intros [] c2 (Hs2 & Hso2 & ->). split; [exact Hs2|]. split; [exact Hso2|]. unfold c1. simpl. by rewrite <- app_assoc.
Qed.

Definition refresh_due c : bool := bool_decide (ref_clk c + 1 - refreshed c >= cs_nREFI cs).
(** There is room for the refreshes of all ranks when they are due. *)
Definition room c : Prop := refresh_due c = true -> (length (otherq c) + sp_count spec 1 <= queue_max)%nat.
Definition due_refreshes (now : Z) c : list Request := if refresh_due c then refreshes now (seq 0 (sp_count spec 1)) else [].

Lemma ranks_of n c : safe n c -> nd_id (channel c) = id /\ nd_id <$> nd_children (channel c) = seq 0 (sp_count spec 1).
Proof.
  intros Hs. pose proof (co_tree _ _ _ _ _ _ (sf_core n c Hs)) as Ht. pose proof (tree_inv_node _ _ _ _ _ Ht) as [_ Hid _ _ Hcc].
  split; [exact Hid|]. rewrite (child_count_below spec 1 B) in Hcc by (pose proof (B_pos cs B); lia).
  apply list_eq. intros k. rewrite list_lookup_fmap. destruct (nd_children (channel c) !! k) as [ch|] eqn:Hk.
  - pose proof (tree_inv_node _ _ _ _ _ (tree_inv_child _ _ _ _ _ _ _ Ht Hk)) as [_ Hi _ _ _].
    rewrite lookup_seq_lt by (rewrite <- Hcc; by eapply lookup_lt_Some). simpl. by rewrite Hi.
  - symmetry. apply lookup_seq_ge. rewrite <- Hcc. by apply lookup_ge_None.
Qed.

Definition refreshed_state c : Ctrl :=
  set_refresh (ref_clk c + 1) (next_refreshed cs c) (set_queue OtherQ (otherq c ++ due_refreshes (clk c) c) c).
Lemma tick_ref_wp n c :
  safe n c -> serving_ok c -> room c ->
  wp (tick_ref cs) c (fun _ c' => safe n c' /\ serving_ok c' /\ c' = refreshed_state c).
Proof.
  intros Hs Hso Hroom. unfold tick_ref. do 4 wp_step. unfold Datatypes.id. set (c1 := set_refresh (ref_clk c + 1) (refreshed c) c).
  assert (forall rc rd c, safe n c -> safe n (set_refresh rc rd c)) as Hset.
  { intros rc rd x Hx. eapply (safe_side n x); [by repeat split| |apply (sf_pending n x Hx)|exact Hx].
    intros []; [apply (sf_queue n x Hx ReadQ)|apply (sf_queue n x Hx WriteQ)|apply (sf_queue n x Hx OtherQ)]. }
  assert (safe n c1) as Hs1 by (by apply Hset).
  change (ref_clk c1) with (ref_clk c + 1). change (refreshed c1) with (refreshed c).
  unfold refreshed_state, due_refreshes, next_refreshed. change (bool_decide _) with (refresh_due c).
  wp_step; intros Hdue; rewrite Hdue.
  - destruct (ranks_of n c1 Hs1) as [Hid Hranks]. unfold inject_refresh, Datatypes.id. do 3 wp_step.
    eapply wp_mono; [apply (inject_ranks_wp n (nd_children (channel c1)) c1 Hs1 Hso Hid)|].
    + apply Forall_fmap with (f := nd_id) (P := fun i => (i < sp_count spec 1)%nat). rewrite Hranks. apply Forall_seq. lia.
    + rewrite <- (length_fmap nd_id), Hranks, length_seq. by apply Hroom.
    + intros [] c2 (Hs2 & Hso2 & ->). wp_step. split; [by apply Hset|]. split; [exact Hso2|]. by rewrite Hranks.
  - split; [exact Hs1|]. split; [exact Hso|]. rewrite app_nil_r. by destruct c.
Qed.

(** *** A cycle *)
Definition cycle c c' : Prop := exists c1,
  safe 1 c1 /\ clocks c1 = (clk c + 1, ref_clk c + 1, next_refreshed cs c) /\ trace c1 = trace c /\
  tree_rel same_dram (channel c) (channel c1) /\
  readq c1 = readq c /\ writeq c1 = writeq c /\ otherq c1 = otherq c ++ due_refreshes (clk c + 1) c /\
  scheduled c1 c'.

Lemma tick_wp acc done c :
  safe 0 c -> serving_ok c -> inv cs (fun _ => True) 0 acc done c -> room c ->
  wp (tick cs cf) c (fun _ c' => safe 0 c' /\ serving_ok c' /\ cycle c c').
Proof.
  intros Hs Hso Hinv Hroom. unfold tick. wp_step. unfold tick_clock at 1. wp_step.
  pose proof (tick_clock_inv cs _ acc done c Hinv) as Hi1. unfold wlp, tick_clock, modify in Hi1.
  set (c1 := set_stats _ _) in *. destruct Hi1 as [[_ Ht1] _].
  assert (safe 1 c1) as Hs1.
  { destruct Hs as [H1 H2 H3 H4 H5 H6 H7]. split; try assumption.
    - simpl. lia.
    - eapply Forall_impl; [exact H5|]. intros i. simpl. lia. }
  wp_step. eapply wp_mono; [by apply (serve_reads_wp 1)|]. intros rs c2 (Hs2 & Hso2 & Hc2). wp_step.
  eapply wp_mono; [by apply (serve_writes_wp 1)|]. intros ws c3 (Hs3 & Hso3 & Hc3). wp_step.
  pose proof (calm_trans _ _ _ Hc2 Hc3) as (E1 & E2 & E3 & E4). injection E2 as F1 F2 F3.
  assert (refresh_due c3 = refresh_due c) as Hdue by (unfold refresh_due; by rewrite F2, F3).
  eapply wp_mono; [apply (tick_ref_wp 1 c3 Hs3 Hso3)|].
  { intros Hd. rewrite Hdue in Hd. change (otherq c3) with (queue OtherQ c3). rewrite (E4 OtherQ). by apply Hroom. }
  intros [] c4 (Hs4 & Hso4 & Heq4). wp_step. wp_step. wp_step. set (c5 := set_write_mode _ c4).
  assert (safe 1 c5) as Hs5.
  { eapply (safe_side 1 c4); [by repeat split| |apply (sf_pending 1 c4 Hs4)|exact Hs4].
    intros []; [apply (sf_queue 1 c4 Hs4 ReadQ)|apply (sf_queue 1 c4 Hs4 WriteQ)|apply (sf_queue 1 c4 Hs4 OtherQ)]. }
  eapply wp_mono; [by apply (schedule_wp c5)|]. intros [] c6 (Hs6 & Hso6 & Hsch). wp_step.
  split; [exact Hs6|]. split; [exact Hso6|]. exists c5. split; [exact Hs5|].
  subst c4. pose proof (E4 ReadQ) as QR. pose proof (E4 WriteQ) as QW. pose proof (E4 OtherQ) as QO. simpl in QR, QW, QO.
  split; [|split; [exact E1|split; [exact E3|split; [exact QR|split; [exact QW|split; [|exact Hsch]]]]]].
  - unfold clocks, next_refreshed. simpl. unfold next_refreshed. by rewrite F1, F2, F3.
  - simpl. unfold due_refreshes. by rewrite QO, F1, Hdue.
Qed.

(** *** Accepting a request *)
Lemma enqueue_wp r c :
  safe 0 c -> serving_ok c -> is_data r = true -> counted cs r = true -> is_first_command r = true -> valid_vec (addr_vec r) ->
  wp (enqueue r) c (fun _ c' => safe 0 c' /\ serving_ok c' /\ channel c' = channel c /\ trace c' = trace c /\ clocks c' = clocks c /\
    otherq c' = otherq c).
Proof.
  intros Hs Hso Hd Hcnt Hf Hv. unfold wp, enqueue. destruct (decide _) as [_|_]; [split; [exact Hs|split; [exact Hso|done]]|].
  set (r1 := with_arrive (clk c) r).
  assert (is_data r1 && negb (is_first_command r1) = false) as Hns.
  { change (is_data r1) with (is_data r). change (is_first_command r1) with (is_first_command r). by rewrite Hf, andb_false_r. }
  destruct (bool_decide (type r1 = READ) && _).
  - set (r2 := with_depart _ r1). split; [|split; [|done]].
    + eapply (safe_side 0 c); [by repeat split|intros []; [apply (sf_queue 0 c Hs ReadQ)|apply (sf_queue 0 c Hs WriteQ)|apply (sf_queue 0 c Hs OtherQ)]| |exact Hs].
      simpl. intros x [Hx|Hx]%elem_of_app; [by apply (sf_pending 0 c Hs)|]. by apply list_elem_of_singleton in Hx as ->.
    + eapply serving_ok_perm; [exact Hso|]. rewrite !in_service_waiting.
      assert (waiting (set_pending (pending c ++ [r2]) c) ≡ₚ r2 :: waiting c) as Hw by (unfold waiting; simpl; solve_Permutation).
      rewrite (addrs_perm _ _ Hw), addrs_one. change (is_data r2 && negb (is_first_command r2)) with (is_data r1 && negb (is_first_command r1)).
      by rewrite Hns.
  - assert (get_queue (type r) <> OtherQ) as Hk by (unfold is_data in Hd; by destruct (type r)). set (k := get_queue (type r)) in *.
    split; [|split; [|split; [done|split; [done|split; [done|]]]]].
    + eapply (safe_side 0 c); [by repeat split| |apply (sf_pending 0 c Hs)|exact Hs].
      intros k' x. rewrite queue_set_queue_if. destruct (decide (k' = k)) as [->|]; [|apply (sf_queue 0 c Hs k')].
      intros [Hx|Hx]%elem_of_app; [by apply (sf_queue 0 c Hs k)|]. apply list_elem_of_singleton in Hx as ->. split; [done|by left].
    + eapply serving_ok_perm; [exact Hso|]. rewrite !in_service_waiting.
      assert (waiting (set_queue k (queue k c ++ [r1]) c) ≡ₚ r1 :: waiting c) as Hw.
      { rewrite waiting_set_queue, (waiting_queue k c). solve_Permutation. }
      by rewrite (addrs_perm _ _ Hw), addrs_one, Hns.
    + simpl. by rewrite decide_False by (intros ?; by apply Hk).
Qed.

Lemma init_safe : safe 0 (Controller_init cs id) /\ serving_ok (Controller_init cs id).
Proof.
  split; [|apply build_serv]. split; simpl.
  - constructor; [apply build_inv; lia|constructor| |by apply mirror_init].
    apply build_states; [done|]. intros x Hx1 Hx2. by left.
  - lia.
  - intros k r. by destruct k; simpl; intros ?%not_elem_of_nil.
  - by intros r ?%not_elem_of_nil.
  - constructor.
  - constructor.
  - done.
Qed.
End Run.
