(* ===== verification/ControllerLive.v ===== *)
(** * Refreshes are served in time

    A refresh needs at most two commands, and while one waits no other request
    is served, so the time to serve all of them is bounded by the standard's
    timing values.  If that bound lies within the refresh interval, the queue
    always has room for the next refreshes: the last assertion of the
    controller holds too. *)

From stdpp Require Import base tactics numbers list gmap.
From Stdlib Require Import ZArith Lia Sorted.
From S2P Require Import Prelude Dram DramTiming DramStd DramBanks DramFrame Scheduler Controller ControllerInv RowMirror ControllerSafe ControllerRun.

Open Scope Z_scope.

#[local] Abbreviation Node := (Dram.Node Command State).
#[local] Abbreviation Issue := (Dram.Issue Command).
#[local] Abbreviation Ctrl := (Controller.Ctrl Command State).

(** Every timing value of a standard is at most [T]. *)
Definition timing_bound (spec : Spec Command State) (T : Z) : Prop :=
  0 <= T /\ forall lev c t, t ∈ sp_timing spec lev c -> te_val t <= T.

Section Bound.
Context (spec : Spec Command State) (T : Z) (HT : timing_bound spec T).

(** No command has to wait longer than [T] after the last issue. *)
Lemma next_ref_bound lev id c L s : 0 <= s -> Forall (fun i => is_clk i <= s) L -> next_ref spec lev id c L <= s + T.
Proof.
  intros Hs HL. destruct HT as [HT0 Hval]. induction L as [|i L IH]; [simpl; lia|].
  apply Forall_cons in HL as [Hi HL]. cbn [next_ref]. apply fold_max_le. split; [by apply IH|].
  rewrite Forall_forall. intros y Hy.
  destruct (decide (is_addr i lev = Z.of_nat id)) as [Ha|Ha].
  - apply (elem_of_contribs_target spec) in Hy as (t & past & Ht & _ & _ & Hp & ->); [|done].
    pose proof (Hval _ _ _ Ht). assert (past <= s); [|lia].
    apply list_elem_of_lookup_2 in Hp. unfold clks in Hp. apply list_elem_of_fmap in Hp as (j & -> & Hj).
    apply list_elem_of_filter in Hj as [_ Hj]. apply list_elem_of_filter in Hj as [_ Hj].
    apply elem_of_cons in Hj as [-> |Hj]; [done|]. rewrite Forall_forall in HL. by apply HL.
  - apply (elem_of_contribs_sibling spec) in Hy as (t & Ht & _ & _ & ->); [|done]. pose proof (Hval _ _ _ Ht). lia.
Qed.
End Bound.

Section Live.
Context (cs : CtrlSpec Command State) (cf : CtrlConfig) (B id : nat) (T : Z).
Abbreviation spec := (cs_dram cs).
Context `{!SpecOk spec} `{!Banked spec 1 B} `{!Effects spec 1 B} `{!Controlled cs B}.
Context (Hplain : plain cf) (Hlat : 0 < cs_read_latency cs) (HT : timing_bound spec T).
Implicit Types (c : Ctrl) (r : Request) (v : list Z) (nd : Node).
Abbreviation ranks := (sp_count spec 1).
Context (Hranks : (ranks <= queue_max)%nat) (Hinterval : 2 * Z.of_nat ranks * (T + 1) < cs_nREFI cs).
Abbreviation safe := (safe cs B id).
Abbreviation ref_vec := (ref_vec cs id).

(** ** The work left for a refresh *)
Definition cost nd r : Z := match decode spec nd REF (data (addr_vec r)) with Ok REF => 1 | _ => 2 end.
Definition work nd (l : list Request) : Z := foldr Z.add 0 (cost nd <$> l).

Lemma cost_range nd r : 1 <= cost nd r <= 2.
Proof. unfold cost. destruct (decode _ _ _ _) as [[]|]; lia. Qed.
Lemma work_cons nd r l : work nd (r :: l) = cost nd r + work nd l.
Proof. done. Qed.
Lemma work_range nd l : Z.of_nat (length l) <= work nd l <= 2 * Z.of_nat (length l).
Proof. induction l as [|r l IH]; [done|]. pose proof (cost_range nd r). rewrite work_cons. cbn [length]. lia. Qed.
Lemma work_le nd nd' l : (forall r, r ∈ l -> cost nd' r <= cost nd r) -> work nd' l <= work nd l.
Proof.
  induction l as [|r l IH]; intros H; [done|]. pose proof (H r ltac:(by left)).
  assert (work nd' l <= work nd l) by (apply IH; intros x Hx; apply H; by right). rewrite !work_cons. lia.
Qed.
Lemma work_delete nd l i r : l !! i = Some r -> work nd l = cost nd r + work nd (delete i l).
Proof.
  revert i. induction l as [|x l IH]; intros [|i]; simpl; try discriminate; [by intros [= ->]|].
  intros Hi. specialize (IH i Hi). rewrite !work_cons. lia.
Qed.
Lemma work_insert nd l i r r' : l !! i = Some r -> work nd (<[i := r']> l) = cost nd r' + work nd (delete i l).
Proof.
  revert i. induction l as [|x l IH]; intros [|i]; simpl; try discriminate; [done|].
  intros Hi. specialize (IH i Hi). rewrite !work_cons. lia.
Qed.

(** A refresh that is decoded to itself finds all banks of its rank closed. *)
Lemma refresh_closed L nd t v v0 b :
  core cs B id L nd t -> ref_vec v -> decode spec nd REF (data v) = Ok REF ->
  valid_vec cs B id v0 -> agree 0 1 (data v) (data v0) = true -> bank_of B nd (data v0) = Some b -> b.1 = Closed.
Proof.
  intros Hco Hv Hdec Hv0 Ha Hb. destruct (decode_rank cs B id L nd t v Hco Hv) as (rank & Hk & Hl1 & Hd).
  destruct ct_refresh as (f & Hf & Hcase). pose proof (B_pos cs B) as HB.
  destruct (Hcase rank (data v 2%nat) Hl1) as [[_ Hcl]|[Hfr _]].
  - apply (Hcl (data v0)). rewrite agree_above in Ha by lia. apply andb_true_iff in Ha as [Ha%Z.eqb_eq _].
    change (bank_of B) with (bank_view B) in Hb. replace B with (S (B - 1)) in Hb by lia.
    rewrite view_child, (leveled_level _ _ (core_leveled _ _ _ _ _ _ Hco)), <- Ha, Hk in Hb. exact Hb.
  - rewrite (Hd f PREA Hf Hfr) in Hdec. discriminate.
Qed.

(** Neither a refresh nor the precharge of a rank opens a bank. *)
Lemma cost_mono L L' nd nd' t t' d v r :
  core cs B id L nd t -> core cs B id L' nd' t' -> d = REF \/ d = PREA -> effect_of cs B id d v nd nd' -> ref_vec (addr_vec r) ->
  cost nd' r <= cost nd r.
Proof.
  intros Hco Hco' Hd He Hr. unfold cost.
  destruct (decode_refresh cs B id L nd t _ Hco Hr) as (d0 & Hd0 & _ & [-> | ->]); rewrite Hd0;
    destruct (decode_refresh cs B id L' nd' t' _ Hco' Hr) as (d1 & -> & Hcan & [-> | ->]); try lia.
  exfalso. destruct Hcan as [_ (v0 & Hv0 & Ha & b & Hb & Hopen)].
  destruct (core_sees cs B id L nd t v0 Hco Hv0) as (ws & bs & rows & (_ & _ & Hb0) & _).
  pose proof (refresh_closed L nd t _ v0 _ Hco Hr Hd0 Hv0 Ha Hb0) as Hcl. simpl in Hcl. subst bs.
  rewrite (He v0 _ Hv0 Hb0) in Hb. injection Hb as <-. apply Hopen.
  destruct Hd as [-> | ->]; cbn [effect_level effect]; by destruct (agree 0 _ (data v) (data v0)).
Qed.
(** After the precharge of its rank, a refresh needs one command. *)
Lemma cost_precharged L L' nd nd' t t' v r :
  core cs B id L nd t -> core cs B id L' nd' t' -> effect_of cs B id PREA v nd nd' -> ref_vec (addr_vec r) -> v = addr_vec r ->
  cost nd' r = 1.
Proof.
  intros Hco Hco' He Hr ->. unfold cost.
  destruct (decode_refresh cs B id L' nd' t' _ Hco' Hr) as (d1 & -> & Hcan & [-> | ->]); [done|].
  exfalso. destruct Hcan as [_ (v0 & Hv0 & Ha & b & Hb & Hopen)].
  destruct (core_sees cs B id L nd t v0 Hco Hv0) as (ws & bs & rows & (_ & _ & Hb0) & _).
  rewrite (He v0 _ Hv0 Hb0) in Hb. simpl in Hb. rewrite Ha in Hb. injection Hb as <-. by apply Hopen.
Qed.

(** ** The deadline *)

(** [s]: the latest issue or injection; each unit of work takes at most [T + 1] cycles. *)
Definition deadline (slack : Z) c : Prop := exists s,
  refreshed c <= s /\ Forall (fun i => is_clk i <= s) (log c) /\ clk c <= s + T + slack /\
  s <= refreshed c + (2 * Z.of_nat ranks - work (channel c) (otherq c)) * (T + 1).
Record live c : Prop := {
  lv_clk : ref_clk c = clk c;
  lv_refreshed : 0 <= refreshed c <= clk c;
  lv_length : (length (otherq c) <= ranks)%nat;
  lv_kind r : r ∈ otherq c -> type r = REFRESH;
  lv_deadline : otherq c = [] \/ deadline 0 c;
}.

Lemma refresh_vec n c r : safe n c -> r ∈ otherq c -> type r = REFRESH -> ref_vec (addr_vec r).
Proof.
  intros Hs Hr Hty. destruct (sf_queue _ _ _ n c Hs OtherQ r Hr) as [_ [[Hd _]|[_ Hv]]]; [|done].
  unfold is_data in Hd. by rewrite Hty in Hd.
Qed.
Lemma translate_refresh : cs_translate cs REFRESH = REF.
Proof. by destruct (ct_translate (cs:=cs) (B:=B)) as (_ & _ & ?). Qed.

(** Serving a refresh takes work away. *)
Lemma served_work c c' i req :
  safe 1 c -> safe 0 c' -> (forall r, r ∈ otherq c -> type r = REFRESH) -> otherq c !! i = Some req -> served cs B id OtherQ i req c c' ->
  work (channel c') (otherq c') + 1 <= work (channel c) (otherq c) /\ (length (otherq c') <= length (otherq c))%nat /\
  forall r, r ∈ otherq c' -> type r = REFRESH.
Proof.
  intros Hs Hs' Hkind Hi (d & Hd & Hcan & _ & _ & He & Hq). pose proof (sf_core _ _ _ _ _ Hs) as Hco. pose proof (sf_core _ _ _ _ _ Hs') as Hco'.
  assert (req ∈ otherq c) as Hin by (by eapply list_elem_of_lookup_2).
  pose proof (refresh_vec 1 c req Hs Hin (Hkind req Hin)) as Hv.
  rewrite (Hkind req Hin), translate_refresh in Hd. specialize (Hq OtherQ). rewrite (decide_True (P := OtherQ = OtherQ)) in Hq by done.
  rewrite (Hkind req Hin), translate_refresh in Hq. simpl in Hq.
  destruct (decode_refresh cs B id _ _ _ _ Hco Hv) as (d' & Hd' & _ & Hcase). rewrite Hd in Hd'. injection Hd' as <-.
  assert (forall l, l ⊆ otherq c -> work (channel c') l <= work (channel c) l) as Hle.
  { intros l Hl. apply work_le. intros r Hr. apply Hl in Hr. eapply (cost_mono (log c) (log c')); [exact Hco|exact Hco'|exact Hcase|exact He|].
    exact (refresh_vec 1 c r Hs Hr (Hkind r Hr)). }
  assert (delete i (otherq c) ⊆ otherq c) as Hsub.
  { intros r Hr. eapply elem_of_submseteq; [exact Hr|]. apply submseteq_delete. }
  pose proof (work_delete (channel c) _ i req Hi) as Hw. pose proof (Hle _ Hsub) as Hle'.
  destruct Hcase as [-> | ->].
  - rewrite decide_True in Hq by done. pose proof (cost_range (channel c) req). rewrite Hq.
    split; [lia|]. split; [rewrite length_delete by (by eexists); lia|]. intros r Hr. by apply Hkind, Hsub.
  - rewrite decide_False in Hq by done. rewrite Hq.
    rewrite (work_insert (channel c') _ i req (not_first req) Hi).
    rewrite (cost_precharged (log c) (log c') (channel c) (channel c') (rowtable c) (rowtable c') (addr_vec req) (not_first req)) by done.
    assert (cost (channel c) req = 2) by (unfold cost; by rewrite Hd).
    split; [lia|]. split; [by rewrite length_insert|]. intros r Hr. apply list_elem_of_lookup in Hr as [j Hj].
    apply list_lookup_insert_Some in Hj as [(_ & <- & _)|[_ Hj]]; [by apply (Hkind req)|]. apply Hkind. by eapply list_elem_of_lookup_2.
Qed.

(** One cycle's scheduling, when refreshes wait. *)
Lemma schedule_deadline c c' :
  safe 1 c -> safe 0 c' -> (forall r, r ∈ otherq c -> type r = REFRESH) -> otherq c <> [] -> deadline 1 c -> 0 <= refreshed c <= clk c ->
  scheduled cs cf B id c c' -> clocks c' = clocks c ->
  (otherq c' = [] \/ deadline 0 c') /\ (length (otherq c') <= length (otherq c))%nat /\ forall r, r ∈ otherq c' -> type r = REFRESH.
Proof.
  intros Hs Hs' Hkind Hne (s & Hs1 & Hs2 & Hs3 & Hs4) Href Hsch Hck. destruct HT as [HT0 _]. injection Hck as C1 _ C3.
  assert (chosen_queue c = OtherQ) as Hk by (unfold chosen_queue; by destruct (otherq c)).
  unfold scheduled in Hsch. rewrite Hk in Hsch. destruct Hsch as [(i & req & Hi & Hserved)|[-> [Hnil|(i & req & Hi & Hready)]]]; [| |].
  - destruct (served_work c c' i req Hs Hs' Hkind Hi Hserved) as (Hw & Hlen & Hkind'). split; [|by split]. right.
    exists (clk c). rewrite C1, C3. split; [lia|]. split; [|split; [lia|nia]].
    pose proof (sf_past _ _ _ _ _ Hs') as Hp. eapply Forall_impl; [exact Hp|]. intros x. simpl. rewrite C1. lia.
  - by destruct Hne.
  - split; [|by split]. right. exists s. split; [exact Hs1|]. split; [exact Hs2|]. split; [|exact Hs4].
    assert (req ∈ otherq c) as Hin by (by eapply list_elem_of_lookup_2).
    destruct Hs as [Hco Hclk Hqv _ _ _ _]. pose proof (Hqv OtherQ req Hin) as Hv.
    destruct (req_decode cs B id _ _ _ req Hco Hv) as (d & Hd & Hcan & _).
    destruct (check_total cs B id _ _ _ d (addr_vec req) (clk c) Hco Hcan Hclk) as (b & Hb & Hiff).
    unfold is_ready, get_first_cmd in Hready. rewrite (pl_latency cf Hplain), Hd in Hready. cbn [bind_res] in Hready.
    unfold is_ready_cmd in Hready. rewrite Hb in Hready. injection Hready as ->.
    destruct (decide (clk c <= s + T)) as [Hle|Hgt]; [lia|]. exfalso.
    enough (false = true) by done. apply Hiff. intros l _ _.
    pose proof (next_ref_bound spec T HT l (Z.to_nat (data (addr_vec req) l)) d (reaching (data (addr_vec req)) l (log c)) s) as Hnb.
    etrans; [apply Hnb; [lia|]|lia]. rewrite Forall_forall in Hs2 |- *. intros x Hx. apply list_elem_of_filter in Hx as [_ Hx]. by apply Hs2.
Qed.

Lemma interval_pos : 0 < cs_nREFI cs.
Proof using HT Hinterval. destruct HT as [H _]. clear Hranks. nia. Qed.

(** Refreshes are over before the next ones are due. *)
Lemma due_idle c : live c -> refresh_due cs c = true -> otherq c = [].
Proof.
  intros [H1 H2 H3 _ [Hnil|(s & Hs1 & Hs2 & Hs3 & Hs4)]] Hdue; [done|]. destruct (otherq c) as [|r q] eqn:Hq; [done|]. exfalso.
  unfold refresh_due in Hdue. apply bool_decide_eq_true in Hdue. rewrite H1 in Hdue.
  pose proof (work_range (channel c) (r :: q)) as Hw. cbn [length] in Hw. destruct HT as [HT0 _]. nia.
Qed.
Lemma live_room c : live c -> room cs c.
Proof. intros Hl Hdue. rewrite (due_idle c Hl Hdue). exact Hranks. Qed.

Lemma work_same c c1 :
  safe 0 c -> trace c1 = trace c -> tree_rel same_dram (channel c) (channel c1) -> (forall r, r ∈ otherq c -> type r = REFRESH) ->
  work (channel c1) (otherq c) = work (channel c) (otherq c).
Proof.
  intros Hs _ Hrel Hkind.
  assert (forall r, r ∈ otherq c -> cost (channel c1) r = cost (channel c) r) as Hc.
  { intros r Hr. unfold cost. pose proof (same_decode cs B id (log c) (channel c) (channel c1) (rowtable c) r Hrel) as Hd.
    rewrite (Hkind r Hr), translate_refresh in Hd. rewrite Hd; [done|apply (sf_core _ _ _ _ _ Hs)|exact (sf_queue _ _ _ _ _ Hs OtherQ r Hr)]. }
  apply Z.le_antisymm; apply work_le; intros r Hr; rewrite (Hc r Hr); lia.
Qed.

Lemma cycle_live c c' : safe 0 c -> safe 0 c' -> live c -> clocks c' = (clk c + 1, ref_clk c + 1, next_refreshed cs c) ->
  cycle cs cf B id c c' -> live c'.
Proof.
  intros Hs Hs' Hl Hck' (c1 & Hs1 & Hck & Htr & Hrel & _ & _ & Hoq & Hsch).
  pose proof Hl as [L1 L2 L3 L4 L5]. injection Hck as C1 C2 C3. pose proof interval_pos as Hpos. destruct HT as [HT0 _].
  assert (clocks c' = clocks c1) as Hcc by (rewrite Hck'; unfold clocks; congruence).
  (* the queue before scheduling: unchanged, or the new refreshes *)
  assert ((length (otherq c1) <= ranks)%nat /\ (forall r, r ∈ otherq c1 -> type r = REFRESH) /\ 0 <= refreshed c1 <= clk c1 /\
    (otherq c1 = [] \/ deadline 1 c1)) as (Q1 & Q2 & Q3 & Q4).
  { unfold due_refreshes in Hoq. unfold next_refreshed in C3. change (bool_decide _) with (refresh_due cs c) in C3.
    destruct (refresh_due cs c) eqn:Hdue.
    - rewrite (due_idle c Hl Hdue) in Hoq. simpl in Hoq. split; [|split; [|split]].
      + rewrite Hoq. unfold refreshes. by rewrite length_fmap, length_seq.
      + rewrite Hoq. unfold refreshes. intros r (k & -> & _)%list_elem_of_fmap. done.
      + rewrite C1, C3. lia.
      + right. exists (clk c1). split; [lia|]. split; [|split; [lia|]].
        * pose proof (sf_past _ _ _ _ _ Hs1) as Hp. eapply Forall_impl; [exact Hp|]. intros x. simpl. lia.
        * pose proof (work_range (channel c1) (otherq c1)) as Hw.
          assert (length (otherq c1) = ranks) as Hlen by (rewrite Hoq; unfold refreshes; by rewrite length_fmap, length_seq). nia.
    - rewrite app_nil_r in Hoq. rewrite Hoq. split; [exact L3|]. split; [exact L4|]. split; [lia|].
      destruct L5 as [?|(s & D1 & D2 & D3 & D4)]; [by left|]. right. exists s. unfold log in *. rewrite C1, C3, Htr, Hoq.
      rewrite (work_same c c1 Hs Htr Hrel L4). split; [exact D1|]. split; [exact D2|]. split; [lia|exact D4]. }
  pose proof Hcc as Hcc'. injection Hcc' as E1 E2 E3.
  destruct (decide (otherq c1 = [])) as [Hnil|Hne].
  - assert (otherq c' = []) as Hnil'.
    { unfold scheduled in Hsch. assert (chosen_queue c1 <> OtherQ) as Hk by (unfold chosen_queue; rewrite Hnil; by destruct (write_mode c1)).
      destruct Hsch as [(i & req & _ & d & _ & _ & _ & _ & _ & Hq)|[-> _]]; [|exact Hnil].
      specialize (Hq OtherQ). rewrite decide_False in Hq by (by apply not_eq_sym). simpl in Hq. by rewrite Hq. }
    split; [lia|lia|rewrite Hnil'; simpl; lia|rewrite Hnil'; by intros r ?%not_elem_of_nil|by left].
  - destruct Q4 as [?|Hdl]; [done|]. destruct (schedule_deadline c1 c' Hs1 Hs' Q2 Hne Hdl Q3 Hsch Hcc) as (R1 & R2 & R3).
    split; [lia|lia|lia|exact R3|exact R1].
Qed.
End Live.
