(* ===== verification/ControllerRefresh.v ===== *)
(** * Every rank is refreshed once per interval

    A ledger of the refreshes: the REF commands on the bus and the refreshes
    still waiting are, together, one refresh of each rank for each interval
    that has begun. *)

From stdpp Require Import base tactics numbers list gmap.
From Stdlib Require Import ZArith Lia Sorted.
From S2P Require Import Prelude Dram DramTiming DramStd DramBanks DramFrame Scheduler Controller ControllerInv RowMirror ControllerSafe ControllerRun ControllerLive.

Open Scope Z_scope.

#[local] Abbreviation Issue := (Dram.Issue Command).
#[local] Abbreviation Ctrl := (Controller.Ctrl Command State).

Section Refresh.
Context (cs : CtrlSpec Command State) (cf : CtrlConfig) (B id : nat) (T : Z).
Abbreviation spec := (cs_dram cs).
Context `{!SpecOk spec} `{!Banked spec 1 B} `{!Effects spec 1 B} `{!Controlled cs B}.
Context (HT : timing_bound spec T).
Implicit Types (c : Ctrl) (r : Request).
Abbreviation ranks := (sp_count spec 1).
Context (Hinterval : 2 * Z.of_nat ranks * (T + 1) < cs_nREFI cs).
Abbreviation safe := (safe cs B id).
Abbreviation live := (live cs T).

(** The ranks that the REF commands of a log went to, and those of waiting refreshes. *)
Definition refreshed_ranks (L : list Issue) : list Z :=
  omap (fun i => if decide (is_cmd i = REF) then Some (is_addr i 1%nat) else None) L.
Definition waiting_ranks c : list Z := (fun r => data (addr_vec r) 1) <$> otherq c.
(** [k] refreshes of each rank. *)
Fixpoint rounds (k : nat) : list Z := match k with O => [] | S k => (Z.of_nat <$> seq 0 ranks) ++ rounds k end.

Record refresh_ledger c : Prop := {
  rl_ranks : refreshed_ranks (log c) ++ waiting_ranks c ≡ₚ rounds (Z.to_nat (clk c / cs_nREFI cs));
  rl_refreshed : refreshed c = cs_nREFI cs * (clk c / cs_nREFI cs);
}.

Lemma data_queue n c k i req :
  safe n c -> queue k c !! i = Some req -> k <> OtherQ -> (forall r, r ∈ queue k c -> get_queue (type r) = k) ->
  ~ ref_vec cs id (addr_vec req).
Proof.
  intros Hs Hi Hk Hkind Hv. assert (req ∈ queue k c) as Hin by (by eapply list_elem_of_lookup_2).
  destruct (sf_queue _ _ _ n c Hs k req Hin) as [_ [[_ Hvv]|[Hty _]]].
  - destruct Hvv as (_ & _ & Hb). destruct Hv as (_ & _ & _ & H2). pose proof (B_pos cs B). specialize (Hb 1%nat ltac:(lia)). lia.
  - specialize (Hkind req Hin). rewrite Hty in Hkind. simpl in Hkind. congruence.
Qed.

Lemma fmap_delete_perm {A D} (f : A -> D) (l : list A) i x : l !! i = Some x -> f x :: (f <$> delete i l) ≡ₚ f <$> l.
Proof. intros Hi. by rewrite <- fmap_cons, <- delete_Permutation. Qed.

(** Scheduling moves a refresh from the queue to the bus, or changes neither. *)
Lemma scheduled_ranks c c' :
  safe 1 c -> (forall k r, r ∈ queue k c -> get_queue (type r) = k) -> (forall r, r ∈ otherq c -> type r = REFRESH) ->
  scheduled cs cf B id c c' ->
  refreshed_ranks (log c') ++ waiting_ranks c' ≡ₚ refreshed_ranks (log c) ++ waiting_ranks c.
Proof.
  intros Hs Hkq Hkind [(i & req & Hi & d & Hd & Hcan & Htr & _ & _ & Hq)|[-> _]]; [|done].
  unfold log in *. rewrite Htr. cbn [fmap list_fmap]. unfold refreshed_ranks at 1. cbn [omap list_omap issue_of is_cmd is_addr].
  change (omap _ (issue_of <$> trace c)) with (refreshed_ranks (issue_of <$> trace c)). unfold waiting_ranks.
  pose proof (Hq OtherQ) as Hoq. simpl in Hoq.
  destruct (decide (OtherQ = chosen_queue c)) as [Hk|Hk].
  - rewrite <- Hk in *. simpl in Hi. assert (req ∈ otherq c) as Hin by (by eapply list_elem_of_lookup_2).
    rewrite (Hkind req Hin), (translate_refresh cs B) in Hoq. rewrite Hoq.
    destruct (decide (d = REF)) as [-> |Hne].
    + rewrite decide_True by done. cbn [app fst snd]. rewrite <- (fmap_delete_perm (fun r => data (addr_vec r) 1%nat) _ i req Hi).
      solve_Permutation.
    + cbn [app fst snd]. rewrite (decide_False (P := d = REF)) by done. cbn [queue]. rewrite list_fmap_insert. cbn [addr_vec not_first].
      rewrite list_insert_id; [done|]. by rewrite list_lookup_fmap, Hi.
  - rewrite Hoq. cbn [fst snd]. rewrite decide_False; [done|]. intros ->.
    apply (data_queue 1 c (chosen_queue c) i req Hs Hi); [by apply not_eq_sym|apply Hkq|exact Hcan].
Qed.

Lemma next_interval x n : 0 < n -> 0 <= x ->
  (x + 1 - n * (x / n) >= n /\ (x + 1) / n = x / n + 1 /\ x + 1 = n * ((x + 1) / n)) \/
  (x + 1 - n * (x / n) < n /\ (x + 1) / n = x / n).
Proof.
  intros Hn Hx. pose proof (Z.mod_pos_bound x n Hn) as Hm. pose proof (Z.div_mod x n ltac:(lia)) as Hd.
  destruct (Z_lt_ge_dec (x + 1 - n * (x / n)) n) as [Hlt|Hge].
  - right. split; [done|]. symmetry. apply (Z.div_unique _ _ _ (x mod n + 1)); [lia|]. lia.
  - left. split; [done|]. assert ((x + 1) / n = x / n + 1) as He by (symmetry; apply (Z.div_unique _ _ _ 0); [lia|]; lia).
    split; [done|]. rewrite He. lia.
Qed.

Lemma cycle_ranks c c' :
  safe 0 c -> live c -> timed cs (fun _ => True) 0 c -> refresh_ledger c -> clocks c' = (clk c + 1, ref_clk c + 1, next_refreshed cs c) ->
  cycle cs cf B id c c' -> refresh_ledger c'.
Proof.
  intros Hs Hl Ht [R1 R2] Hck' (c1 & Hs1 & Hck & Htr & _ & Hrq & Hwq & Hoq & Hsch). injection Hck' as C1 C2 C3.
  pose proof (interval_pos cs T HT Hinterval) as Hpos. pose proof (sf_clk _ _ _ _ _ Hs) as Hclk.
  assert (forall r, r ∈ otherq c1 -> type r = REFRESH) as Hkind.
  { rewrite Hoq. intros r [Hr|Hr]%elem_of_app; [exact (lv_kind _ _ _ Hl r Hr)|]. unfold due_refreshes in Hr.
    destruct (refresh_due cs c); [|by apply not_elem_of_nil in Hr]. unfold refreshes in Hr. by apply list_elem_of_fmap in Hr as (k & -> & _). }
  assert (forall k r, r ∈ queue k c1 -> get_queue (type r) = k) as Hkq.
  { intros [] r Hr; simpl in Hr; [rewrite Hrq in Hr; apply (tm_queue _ _ _ _ Ht ReadQ r Hr)|rewrite Hwq in Hr; apply (tm_queue _ _ _ _ Ht WriteQ r Hr)|].
    by rewrite (Hkind r Hr). }
  pose proof (scheduled_ranks c1 c' Hs1 Hkq Hkind Hsch) as Hp.
  assert (log c1 = log c) as Hlog by (unfold log; by rewrite Htr).
  assert (waiting_ranks c1 = waiting_ranks c ++ ((fun r => data (addr_vec r) 1%nat) <$> due_refreshes cs id (clk c + 1) c)) as Hw
    by (unfold waiting_ranks; by rewrite Hoq, fmap_app).
  rewrite Hlog, Hw in Hp. rewrite (lv_clk _ _ _ Hl) in *.
  assert (next_refreshed cs c = if refresh_due cs c then clk c + 1 else refreshed c) as Hn.
  { unfold next_refreshed, refresh_due. rewrite (lv_clk _ _ _ Hl). by destruct (bool_decide _). }
  rewrite Hn in C3. unfold due_refreshes in Hp.
  assert (refresh_due cs c = bool_decide (clk c + 1 - refreshed c >= cs_nREFI cs)) as Hdue by (unfold refresh_due; by rewrite (lv_clk _ _ _ Hl)).
  rewrite R2 in Hdue. destruct (next_interval (clk c) (cs_nREFI cs) Hpos Hclk) as [(Hge & Hdiv & Hmul)|[Hlt Hdiv]].
  - rewrite bool_decide_true in Hdue by done. rewrite Hdue in *. split; [|rewrite C1, C3; lia].
    rewrite Hp, C1, Hdiv, app_assoc, R1. rewrite Z2Nat.inj_add by (try apply Z.div_pos; lia). rewrite Nat.add_comm. simpl.
    rewrite (Permutation_app_comm (rounds _)). apply Permutation_app; [|done]. unfold refreshes.
    rewrite <- list_fmap_compose. apply Permutation_refl', list_fmap_ext; intros k x _; done.
  - rewrite bool_decide_false in Hdue by lia. rewrite Hdue in *. split; [|rewrite C1, C3, Hdiv; exact R2].
    rewrite Hp, C1, Hdiv. simpl. rewrite app_nil_r. exact R1.
Qed.
(** The refreshes of one rank. *)
Definition refreshes_of (rank : nat) (L : list Issue) : list Issue :=
  filter (fun i => is_cmd i = REF /\ is_addr i 1%nat = Z.of_nat rank) L.
Lemma count_refreshed rank L :
  length (refreshes_of rank L) = length (filter (eq (Z.of_nat rank)) (refreshed_ranks L)).
Proof.
  induction L as [|i L IH]; [done|]. unfold refreshes_of, refreshed_ranks in *. rewrite filter_cons. cbn [omap list_omap].
  destruct (decide (is_cmd i = REF)) as [Hc|Hc]; [|by rewrite decide_False by (by intros [? _])].
  rewrite filter_cons. destruct (decide (Z.of_nat rank = is_addr i 1%nat)) as [Ha|Ha].
  - rewrite decide_True by done. simpl. by rewrite IH.
  - rewrite decide_False by (intros [_ H]; by rewrite H in Ha). exact IH.
Qed.
Lemma count_rounds rank k : (rank < ranks)%nat -> length (filter (eq (Z.of_nat rank)) (rounds k)) = k.
Proof.
  intros Hr. assert (forall n j, length (filter (eq (Z.of_nat rank)) (Z.of_nat <$> seq j n)) = if decide (j <= rank < j + n)%nat then 1%nat else 0%nat) as Hone.
  { induction n as [|n IH]; intros j; simpl; [by rewrite decide_False by lia|]. rewrite filter_cons. destruct (decide (Z.of_nat rank = Z.of_nat j)) as [He|He]; simpl; rewrite IH.
    - rewrite decide_False by lia. by rewrite decide_True by lia.
    - repeat case_decide; lia. }
  induction k as [|k IH]; [done|]. simpl. rewrite filter_app, length_app, IH, Hone, decide_True by lia. done.
Qed.

Lemma init_ranks : 0 < cs_nREFI cs -> refresh_ledger (Controller_init cs id).
Proof.
  intros Hpos. assert (0 / cs_nREFI cs = 0) as H0 by (apply Z.div_0_l; lia). split; cbn [clk refreshed Controller_init]; rewrite H0; [done|lia].
Qed.
End Refresh.
