(* ===== verification/ControllerHistory.v ===== *)
(** * Histories of the controller

    Any sequence of requests and cycles, from the initial state: the controller
    never fails, every command respects every timing constraint, the row table
    tracks the banks, every rank is refreshed once per interval, and every
    request is answered once and on time. *)

From stdpp Require Import base tactics numbers list gmap.
From Stdlib Require Import ZArith Lia Sorted.
From S2P Require Import Prelude Dram DramTiming DramStd DramBanks DramFrame Scheduler Controller ControllerInv RowMirror ControllerSafe ControllerRun ControllerLive ControllerRefresh.

Open Scope Z_scope.

#[local] Abbreviation Issue := (Dram.Issue Command).
#[local] Abbreviation Ctrl := (Controller.Ctrl Command State).

Section History.
Context (cs : CtrlSpec Command State) (cf : CtrlConfig) (B id : nat) (T : Z).
Abbreviation spec := (cs_dram cs).
Context `{!SpecOk spec} `{!Banked spec 1 B} `{!Effects spec 1 B} `{!Controlled cs B}.
Context (Hplain : plain cf) (Hlat : 0 < cs_read_latency cs) (HT : timing_bound spec T).
Implicit Types (c : Ctrl) (r : Request) (l : list Event).
Abbreviation ranks := (sp_count spec 1).
Context (Hranks : (ranks <= queue_max)%nat) (Hinterval : 2 * Z.of_nat ranks * (T + 1) < cs_nREFI cs).
Abbreviation safe := (safe cs B id).
Abbreviation live := (live cs T).
Abbreviation serving_ok := ControllerRun.serving_ok.
Abbreviation refresh_ledger := (refresh_ledger cs).

(** The requests that the memory sends: reads and writes of existing rows, by known cores. *)
Definition valid_event (e : Event) : Prop :=
  match e with
  | Enqueue r => is_data r = true /\ counted cs r = true /\ is_first_command r = true /\ valid_vec cs B id (addr_vec r)
  | Tick => True
  end.
Record sound acc done c : Prop := {
  so_safe : safe 0 c;
  so_serving : serving_ok c;
  so_inv : inv cs (fun _ => True) 0 acc done c;
  so_live : live c;
  so_refresh : refresh_ledger c;
}.

Lemma live_side c c' :
  live c -> channel c' = channel c -> trace c' = trace c -> clocks c' = clocks c -> otherq c' = otherq c -> live c'.
Proof.
  intros [H1 H2 H3 H4 H5] Hc Ht Hck Hq. injection Hck as C1 C2 C3. split; rewrite ?C1, ?C2, ?C3, ?Hq; try assumption.
  destruct H5 as [?|(s & D)]; [by left|]. right. exists s. unfold log in *. by rewrite C1, C3, Hc, Ht, Hq.
Qed.

Lemma ledger_side c c' : refresh_ledger c -> trace c' = trace c -> clocks c' = clocks c -> otherq c' = otherq c -> refresh_ledger c'.
Proof.
  intros [H1 H2] Ht Hck Hq. injection Hck as C1 _ C3. split; [|by rewrite C1, C3]. unfold log, waiting_ranks in *. by rewrite Ht, Hq, C1.
Qed.

Lemma step_wp e acc done c :
  sound acc done c -> valid_event e -> wp (step cs cf e) c (fun o c' => sound (acc ++ accepted [o]) (done ++ completed [o]) c').
Proof.
  intros [Hs Hso Hi Hl Hr] He. assert (fresh e) as Hf by (destruct e; [apply (proj1 (proj2 (proj2 He)))|done]).
  pose proof (step_inv cs cf (fun _ => True) e acc done c Hi Hf ltac:(done)) as Hinv.
  assert (wp (step cs cf e) c (fun _ c' => safe 0 c' /\ serving_ok c' /\ live c' /\ refresh_ledger c')) as Hw.
  { destruct e as [r|]; cbn [step]; wp_step.
    - destruct He as (H1 & H4 & H2 & H3). eapply wp_mono; [by apply (enqueue_wp cs B id r c)|].
      intros b c' (G1 & G2 & G3 & G4 & G5 & G6). wp_step. split; [exact G1|]. split; [exact G2|].
      split; [exact (live_side c c' Hl G3 G4 G5 G6)|exact (ledger_side c c' Hr G4 G5 G6)].
    - eapply wp_mono; [apply wp_wlp; [exact (tick_wp cs cf B id Hplain Hlat acc done c Hs Hso Hi (live_room cs T HT Hranks Hinterval c Hl))|exact (tick_inv cs cf (fun _ => True) acc done c Hi)]|].
      intros l c' [(G1 & G2 & G3) (_ & G4 & _)]. wp_step. split; [exact G1|]. split; [exact G2|]. 
      split; [exact (cycle_live cs cf B id T Hplain HT Hranks Hinterval c c' Hs G1 Hl G4 G3)|].
      exact (cycle_ranks cs cf B id T HT Hinterval c c' Hs Hl (proj2 Hi) Hr G4 G3). }
  eapply wp_mono; [apply wp_wlp; [exact Hw|exact Hinv]|]. intros o c' [(H1 & H2 & H3 & H5) (H4 & _)].
  split; [exact H1|exact H2|exact H4|exact H3|exact H5].
Qed.

Lemma run_wp l acc done c :
  sound acc done c -> Forall valid_event l ->
  wp (run cs cf l) c (fun os c' => sound (acc ++ accepted os) (done ++ completed os) c').
Proof.
  revert acc done c. induction l as [|e l IH]; intros acc done c Hso Hl; cbn [run]; wp_step.
  { unfold accepted, completed. simpl. rewrite !app_nil_r. exact Hso. }
  apply Forall_cons in Hl as [He Hl]. eapply wp_mono; [exact (step_wp e acc done c Hso He)|]. intros o c1 H1. wp_step.
  eapply wp_mono; [exact (IH _ _ c1 H1 Hl)|]. intros os c2 H2. wp_step.
  assert (accepted (o :: os) = accepted [o] ++ accepted os) as -> by (unfold accepted; by rewrite <- omap_app).
  assert (completed (o :: os) = completed [o] ++ completed os) as -> by (unfold completed; simpl; by rewrite app_nil_r).
  rewrite !app_assoc. exact H2.
Qed.

Lemma init_sound : sound [] [] (Controller_init cs id).
Proof.
  destruct (init_safe cs B id) as [H1 H2]. pose proof (interval_pos cs T HT Hinterval) as Hpos.
  split; [exact H1|exact H2|apply init_inv| |exact (init_ranks cs id Hpos)].
  split; simpl; try lia; [by intros r ?%not_elem_of_nil|by left].
Qed.
Lemma history l : Forall valid_event l ->
  exists os c, run cs cf l (Controller_init cs id) = Ok (os, c) /\ sound (accepted os) (completed os) c.
Proof.
  intros Hl. pose proof (run_wp l [] [] _ init_sound Hl) as H. apply wp_ok in H as (os & c & Hr & H). by exists os, c.
Qed.
End History.

(** ** What holds of every history *)

(** A standard and a configuration in the scope of the theorems: tables that
    keep their laws, timing values of at most [T], and a refresh interval that
    leaves time for the refreshes of all ranks. *)
Class Configured (cs : CtrlSpec Command State) (cf : CtrlConfig) (B : nat) (T : Z) : Prop := {
  cfg_spec :: SpecOk (cs_dram cs);
  cfg_banked :: Banked (cs_dram cs) 1 B;
  cfg_effects :: Effects (cs_dram cs) 1 B;
  cfg_controlled :: Controlled cs B;
  cfg_plain : plain cf;
  cfg_latency : 0 < cs_read_latency cs;
  cfg_bound : timing_bound (cs_dram cs) T;
  cfg_ranks : (sp_count (cs_dram cs) 1 <= queue_max)%nat;
  cfg_interval : 2 * Z.of_nat (sp_count (cs_dram cs) 1) * (T + 1) < cs_nREFI cs;
}.

Section Configured.
Context (cs : CtrlSpec Command State) (cf : CtrlConfig) (B id : nat) (T : Z) `{Hcfg : !Configured cs cf B T}.
Abbreviation spec := (cs_dram cs).
Abbreviation history_ok := (Forall (valid_event cs B id)).
Abbreviation start := (Controller_init cs id).
Implicit Types (c : Ctrl) (r : Request) (l : list Event) (os : list Output).

Lemma history_sound l os c : history_ok l -> run cs cf l start = Ok (os, c) -> sound cs B id T (accepted os) (completed os) c.
Proof using Hcfg.
  intros Hl Hr. destruct Hcfg. destruct (history cs cf B id T) with (l := l) as (os' & c' & Hr' & Hs); try assumption.
  rewrite Hr in Hr'. injection Hr' as -> ->. exact Hs.
Qed.

(** C3: no history of valid requests and cycles makes the controller fail: no
    assertion is violated, no address leads out of the DRAM tree or its row
    table, and every operation returns. *)
Theorem controller_never_fails l : history_ok l -> exists os c, run cs cf l start = Ok (os, c).
Proof using Hcfg.
  intros Hl. destruct Hcfg. destruct (history cs cf B id T) with (l := l) as (os & c & Hr & _); try assumption. by exists os, c.
Qed.

(** C4: at most one command is issued per cycle, and every command on the bus
    respects every timing constraint of the standard, at every level of its
    path, towards every command before it. *)
Theorem commands_legal l os c :
  history_ok l -> run cs cf l start = Ok (os, c) -> StronglySorted later (log c) /\ legal spec (log c).
Proof using Hcfg. intros Hl Hr. destruct (history_sound l os c Hl Hr) as [Hs _ _ _ _]. split; [apply (sf_sorted _ _ _ _ _ Hs)|apply (sf_legal _ _ _ _ _ Hs)]. Qed.

(** C6: the row table is an image of the DRAM: for every row of the channel, its
    bank has an entry exactly if it is open, and the entry names the open row. *)
Theorem row_table_exact l os c v :
  history_ok l -> run cs cf l start = Ok (os, c) -> valid_vec cs B id v ->
  bank_of B (channel c) (data v) =
    Some match rowtable c !! rowgroup (sp_row spec) v with
         | None => (Closed, ∅)
         | Some e => (Opened, {[row e := Opened]})
         end.
Proof using Hcfg.
  intros Hl Hr Hv. destruct (history_sound l os c Hl Hr) as [Hs _ _ _ _].
  exact (mr_bank _ _ _ _ _ (co_mirror _ _ _ _ _ _ (sf_core _ _ _ _ _ Hs)) v Hv).
Qed.

Lemma refreshes_over l os c :
  history_ok l -> run cs cf l start = Ok (os, c) ->
  2 * Z.of_nat (sp_count spec 1) * (T + 1) <= clk c mod cs_nREFI cs -> otherq c = [].
Proof using Hcfg.
  intros Hl Hr Hmod. destruct (history_sound l os c Hl Hr) as [_ _ _ Hlv [_ Href]].
  destruct (lv_deadline _ _ _ Hlv) as [?|(s & D1 & _ & D3 & D4)]; [done|]. destruct (otherq c) as [|r q] eqn:Hq; [done|]. exfalso.
  pose proof (work_range cs cfg_ranks (channel c) (r :: q)) as Hw. cbn [length] in Hw. destruct (cfg_bound (cs := cs) (cf := cf) (B := B)) as [HT _].
  pose proof (interval_pos cs T cfg_bound cfg_interval) as Hpos. pose proof (Z.div_mod (clk c) (cs_nREFI cs) ltac:(lia)). nia.
Qed.

(** C5: refreshes are neither lost nor late: once the first [2 R (T + 1)] cycles
    of a refresh interval are over ([R] ranks, timing values up to [T]), no
    refresh waits, and each rank has received exactly one REF command for every
    interval that has begun. *)
Theorem refreshed_every_interval l os c rank :
  history_ok l -> run cs cf l start = Ok (os, c) ->
  2 * Z.of_nat (sp_count spec 1) * (T + 1) <= clk c mod cs_nREFI cs -> (rank < sp_count spec 1)%nat ->
  otherq c = [] /\ Z.of_nat (length (refreshes_of rank (log c))) = clk c / cs_nREFI cs.
Proof using Hcfg.
  intros Hl Hr Hmod Hrank. pose proof (refreshes_over l os c Hl Hr Hmod) as Hnil. split; [exact Hnil|].
  destruct (history_sound l os c Hl Hr) as [Hs _ _ _ [Hp _]]. unfold waiting_ranks in Hp. rewrite Hnil, app_nil_r in Hp.
  pose proof (interval_pos cs T cfg_bound cfg_interval) as Hpos. pose proof (sf_clk _ _ _ _ _ Hs) as Hclk.
  rewrite count_refreshed, Hp, (count_rounds cs rank _ Hrank). apply Z2Nat.id, Z.div_pos; lia.
Qed.
End Configured.
