(* ===== verification/Memory.v ===== *)
(** * The memory (ramulator/Memory.h)

    The channels behind one address space: [send] cuts the address and hands
    the request to the controller of its channel, [tick] is one cycle of every
    controller.  The statistics that the controllers share by pointers are kept
    per controller here; the formatted averages of [finish] are left out. *)

From stdpp Require Import base tactics numbers list gmap.
From Stdlib Require Import ZArith Lia.
From S2P Require Import Prelude Dram Scheduler AddressMap Controller.

Open Scope Z_scope.

Record Memory (C St : Type) : Type := mkMemory {
  ctrls : list (Ctrl C St);
  num_dram_cycles : Z;
  ramulator_active_cycles : Z;
  num_incoming_requests : Z;
  num_read_requests : gmap Z Z;
  num_write_requests : gmap Z Z;
  incoming_requests_per_channel : gmap Z Z;
  incoming_read_reqs_per_channel : gmap Z Z;
}.
Arguments mkMemory {C St}.
Arguments ctrls {C St}.
Arguments num_dram_cycles {C St}.
Arguments ramulator_active_cycles {C St}.
Arguments num_incoming_requests {C St}.
Arguments num_read_requests {C St}.
Arguments num_write_requests {C St}.
Arguments incoming_requests_per_channel {C St}.
Arguments incoming_read_reqs_per_channel {C St}.

Section Memory.
Context {C St : Type} `{!EqDecision C}.
Context (cs : CtrlSpec C St) (cf : CtrlConfig) (ty : MapType) (g : Geometry) (cacheline_size : Z).
Abbreviation Ctrl := (Ctrl C St).
Abbreviation Memory := (Memory C St).
Implicit Types (m : Memory) (c : Ctrl) (req : Request).

Definition set_ctrls (l : list Ctrl) m : Memory :=
  mkMemory l (num_dram_cycles m) (ramulator_active_cycles m) (num_incoming_requests m) (num_read_requests m) (num_write_requests m)
    (incoming_requests_per_channel m) (incoming_read_reqs_per_channel m).
(** [num_incoming_requests] and the counters per core and per channel. *)
Definition count_send (t : ReqType) (core chan : Z) m : Memory :=
  mkMemory (ctrls m) (num_dram_cycles m) (ramulator_active_cycles m) (num_incoming_requests m + 1)
    (if decide (t = READ) then bump core (num_read_requests m) else num_read_requests m)
    (if decide (t = WRITE) then bump core (num_write_requests m) else num_write_requests m)
    (bump chan (incoming_requests_per_channel m))
    (if decide (t = READ) then bump chan (incoming_read_reqs_per_channel m) else incoming_read_reqs_per_channel m).
Definition count_cycle (active : bool) m : Memory :=
  mkMemory (ctrls m) (num_dram_cycles m + 1) (if active then ramulator_active_cycles m + 1 else ramulator_active_cycles m)
    (num_incoming_requests m) (num_read_requests m) (num_write_requests m) (incoming_requests_per_channel m) (incoming_read_reqs_per_channel m).

(** The request as [send] passes it on: [burst_count] and the coordinates. *)
Definition routed req : Request :=
  mkRequest (is_first_command req) (addr req)
    (map_address (addr_bits g) ty (sp_row (cs_dram cs)) (tx_bits g) (addr req) (addr_vec req))
    (reqid req) (coreid req) (type req) (arrive req) (depart req) (Z.quot cacheline_size (Z.shiftl 1 (tx_bits g))).
Definition channel_of req : Z := nth 0 (addr_vec (routed req)) 0.

Definition send req : st Memory bool := fun m =>
  match ctrls m !! Z.to_nat (channel_of req) with
  | None => Err Panicked
  | Some c =>
      match enqueue (routed req) c with
      | Err e => Err e
      | Ok (false, c') => Ok (false, set_ctrls (<[Z.to_nat (channel_of req) := c']> (ctrls m)) m)
      | Ok (true, c') =>
          if bool_decide (type req = READ \/ type req = WRITE) && negb (counted cs req) then Err AssertFail
          else Ok (true, count_send (type req) (coreid req) (channel_of req)
                           (set_ctrls (<[Z.to_nat (channel_of req) := c']> (ctrls m)) m))
      end
  end.

(** One cycle of every controller; whether one of them was serving requests before its own. *)
Fixpoint tick_ctrls (l : list Ctrl) (active : bool) : result (list Request * bool * list Ctrl) :=
  match l with
  | [] => Ok ([], active, [])
  | c :: l =>
      let active := active || is_active c in
      match tick cs cf c with
      | Err e => Err e
      | Ok (done, c') =>
          bind_res (tick_ctrls l active) (fun '(rest, active, l') => Ok (done ++ rest, active, c' :: l'))
      end
  end.
Definition mem_tick : st Memory (list Request) := fun m =>
  match tick_ctrls (ctrls m) false with
  | Err e => Err e
  | Ok (done, active, l) => Ok (done, count_cycle active (set_ctrls l m))
  end.

Definition pending_requests m : Z :=
  foldr Z.add 0 ((fun c => Z.of_nat (length (readq c) + length (writeq c) + length (otherq c) + length (pending c))) <$> ctrls m).

(** [channels] controllers, each with its own tree. *)
Definition Memory_init (channels : nat) : Memory := mkMemory (Controller_init cs <$> seq 0 channels) 0 0 0 ∅ ∅ ∅ ∅.

(** *** Histories *)
Inductive MemEvent : Type := Send (r : Request) | MemTick.
Definition mem_step (e : MemEvent) : st Memory (list Output) :=
  match e with
  | Send r => b ← send r; mret [if b : bool then Accepted (routed r) else Rejected (routed r)]
  | MemTick => l ← mem_tick; mret [Done l]
  end.
Fixpoint mem_run (l : list MemEvent) : st Memory (list Output) :=
  match l with
  | [] => mret []
  | e :: l => o ← mem_step e; os ← mem_run l; mret (o ++ os)
  end.

(** What a history of the memory is to one of its channels. *)
Definition project_event (i : nat) (e : MemEvent) : option Event :=
  match e with
  | Send r => if decide (Z.to_nat (channel_of r) = i) then Some (Enqueue (routed r)) else None
  | MemTick => Some Tick
  end.
Definition project (i : nat) (l : list MemEvent) : list Event := omap (project_event i) l.
End Memory.
Arguments Memory_init {C St} cs.
