(* ===== verification/MemoryProps.v ===== *)
(** * A memory is its channels

    A history of the memory is, for each channel, a history of its controller:
    the requests whose address lies in the channel, and every cycle.  So what
    holds of all histories of a controller holds of every channel of a memory. *)

From stdpp Require Import base tactics numbers list gmap.
From Stdlib Require Import ZArith Lia.
From S2P Require Import Prelude Dram DramTiming DramStd DramBanks DramFrame Scheduler AddressMap Controller ControllerInv RowMirror ControllerSafe ControllerHistory Memory.

Open Scope Z_scope.

Section Channels.
Context {C St : Type} `{!EqDecision C}.
Context (cs : CtrlSpec C St) (cf : CtrlConfig) (ty : MapType) (g : Geometry) (cacheline : Z).
Abbreviation mem_step := (mem_step cs cf ty g cacheline).
Abbreviation mem_run := (mem_run cs cf ty g cacheline).
Abbreviation project_event := (project_event cs ty g cacheline).
Abbreviation project := (project cs ty g cacheline).
Implicit Types (m : Memory C St) (c : Ctrl C St) (l : list MemEvent).

(** A step of the memory, as seen by one controller. *)
Definition channel_step (i : nat) (e : MemEvent) c : result (Ctrl C St) :=
  match project_event i e with
  | None => Ok c
  | Some ev => match step cs cf ev c with Ok (_, c') => Ok c' | Err e => Err e end
  end.

Lemma step_tick c : step cs cf Tick c = match tick cs cf c with Ok (l, c') => Ok (Done l, c') | Err e => Err e end.
Proof. cbn [step]. unfold mbind, st_bind, mret, st_ret. by destruct (tick cs cf c) as [[? ?]|]. Qed.
Lemma step_enqueue r c :
  step cs cf (Enqueue r) c = match enqueue r c with Ok (b, c') => Ok (if b : bool then Accepted r else Rejected r, c') | Err e => Err e end.
Proof. cbn [step]. unfold mbind, st_bind, mret, st_ret. by destruct (enqueue r c) as [[? ?]|]. Qed.

Lemma tick_ctrls_ok (l : list (Ctrl C St)) active done a (l' : list (Ctrl C St)) :
  tick_ctrls cs cf l active = Ok (done, a, l') ->
  length l' = length l /\ forall i c, l !! i = Some c -> exists rs c', tick cs cf c = Ok (rs, c') /\ l' !! i = Some c'.
Proof.
  revert active done a l'. induction l as [|c l IH]; intros active done a l'; cbn [tick_ctrls].
  { intros [= <- <- <-]. split; [done|]. by intros [|i] c. }
  cbv zeta. destruct (tick cs cf c) as [[rs c']|] eqn:Ht; [|discriminate].
  destruct (tick_ctrls cs cf l _) as [[[rest a'] l1]|] eqn:Hl; [|discriminate]. cbn [bind_res]. intros [= <- <- <-].
  destruct (IH _ _ _ _ Hl) as [Hlen Hi]. split; [simpl; by rewrite Hlen|]. intros [|i] x Hx; [|exact (Hi i x Hx)].
  injection Hx as <-. by exists rs, c'.
Qed.
Lemma tick_ctrls_total (l : list (Ctrl C St)) active :
  (forall i c, l !! i = Some c -> exists rs c', tick cs cf c = Ok (rs, c')) -> exists r, tick_ctrls cs cf l active = Ok r.
Proof.
  revert active. induction l as [|c l IH]; intros active Hl; cbn [tick_ctrls]; [by eexists|]. cbv zeta.
  destruct (Hl 0%nat c eq_refl) as (rs & c' & ->). destruct (IH (active || is_active c)) as [[[rest a] l'] ->]; [|by eexists].
  intros i x Hx. exact (Hl (S i) x Hx).
Qed.

(** Every step of the memory is a step of each of its channels. *)
Lemma mem_step_channels e m o m' :
  mem_step e m = Ok (o, m') ->
  length (ctrls m') = length (ctrls m) /\
  forall i c, ctrls m !! i = Some c -> exists c', channel_step i e c = Ok c' /\ ctrls m' !! i = Some c'.
Proof.
  destruct e as [r|]; cbn [Memory.mem_step]; unfold mbind, st_bind, mret, st_ret.
  - unfold send. destruct (ctrls m !! Z.to_nat (channel_of cs ty g cacheline r)) as [c0|] eqn:Hc0; [|discriminate].
    destruct (enqueue (routed cs ty g cacheline r) c0) as [[b c1]|] eqn:He; [|discriminate].
    intros Hok. assert (ctrls m' = <[Z.to_nat (channel_of cs ty g cacheline r) := c1]> (ctrls m)) as Hm'.
    { destruct b; [|by injection Hok as <- <-]. destruct (_ && _); [discriminate|]. by injection Hok as <- <-. }
    rewrite Hm'. split; [apply length_insert|]. intros i c Hc. unfold channel_step. cbn [Memory.project_event].
    destruct (decide (Z.to_nat (channel_of cs ty g cacheline r) = i)) as [Hi|Hi].
    + rewrite Hi in *. rewrite Hc in Hc0. injection Hc0 as <-. rewrite step_enqueue, He. exists c1. split; [done|].
      apply list_lookup_insert_eq. by eapply lookup_lt_Some.
    + exists c. split; [done|]. by rewrite list_lookup_insert_ne.
  - unfold mem_tick. destruct (tick_ctrls _ _ _ _) as [[[done a] l']|] eqn:Ht; [|discriminate]. intros [= <- <-].
    destruct (tick_ctrls_ok _ _ _ _ _ Ht) as [Hlen Hi]. split; [exact Hlen|]. intros i c Hc. unfold channel_step. cbn [Memory.project_event].
    rewrite step_tick. destruct (Hi i c Hc) as (rs & c' & -> & Hc'). by exists c'.
Qed.

Lemma run_cons ev evs c : run cs cf (ev :: evs) c =
  match step cs cf ev c with
  | Ok (o, c') => match run cs cf evs c' with Ok (os, c'') => Ok (o :: os, c'') | Err e => Err e end
  | Err e => Err e
  end.
Proof.
  cbn [run]. unfold mbind, st_bind, mret, st_ret. destruct (step cs cf ev c) as [[o c']|]; [|done].
  by destruct (run cs cf evs c') as [[? ?]|].
Qed.
Lemma project_cons i e l : project i (e :: l) = match project_event i e with Some ev => ev :: project i l | None => project i l end.
Proof. unfold project. cbn [omap list_omap]. by destruct (project_event i e). Qed.
Lemma run_channel i e l c c' os c'' :
  channel_step i e c = Ok c' -> run cs cf (project i l) c' = Ok (os, c'') -> exists os', run cs cf (project i (e :: l)) c = Ok (os', c'').
Proof.
  unfold channel_step. rewrite project_cons. destruct (project_event i e) as [ev|]; [|intros [= ->] H; by exists os].
  rewrite run_cons. destruct (step cs cf ev c) as [[o c1]|]; [|discriminate]. intros [= ->] ->. by eexists.
Qed.

Lemma mem_run_channels l m os m' :
  mem_run l m = Ok (os, m') ->
  length (ctrls m') = length (ctrls m) /\
  forall i c, ctrls m !! i = Some c -> exists es c', run cs cf (project i l) c = Ok (es, c') /\ ctrls m' !! i = Some c'.
Proof.
  revert m os. induction l as [|e l IH]; intros m os; cbn [Memory.mem_run]; unfold mbind, st_bind, mret, st_ret.
  { intros [= <- <-]. split; [done|]. intros i c Hc. by exists [], c. }
  destruct (mem_step e m) as [[o m1]|] eqn:He; [|discriminate]. destruct (mem_run l m1) as [[os1 m2]|] eqn:Hl; [|discriminate].
  intros [= <- <-]. destruct (mem_step_channels e m o m1 He) as [Hlen1 H1]. destruct (IH m1 os1 Hl) as [Hlen2 H2].
  split; [congruence|]. intros i c Hc. destruct (H1 i c Hc) as (c1 & Hs & Hc1). destruct (H2 i c1 Hc1) as (es & c2 & Hr & Hc2).
  destruct (run_channel i e l c c1 es c2 Hs Hr) as [es' Hr']. by exists es', c2.
Qed.

(** Conversely, a step of the memory succeeds if it does in every channel. *)
Definition sendable (e : MemEvent) : Prop :=
  match e with Send r => is_data r = true /\ counted cs r = true /\ is_first_command r = true | MemTick => True end.
Definition in_range (n : nat) (e : MemEvent) : Prop :=
  match e with Send r => (Z.to_nat (channel_of cs ty g cacheline r) < n)%nat | MemTick => True end.

Lemma mem_step_total e m :
  sendable e -> in_range (length (ctrls m)) e ->
  (forall i c, ctrls m !! i = Some c -> exists c', channel_step i e c = Ok c') -> exists o m', mem_step e m = Ok (o, m').
Proof.
  intros He Hr Hs. destruct e as [r|]; cbn [Memory.mem_step]; unfold mbind, st_bind, mret, st_ret.
  - destruct He as (_ & Hcnt & _). simpl in Hr. destruct (lookup_lt_is_Some_2 _ _ Hr) as [c Hc]. unfold send. rewrite Hc.
    destruct (Hs _ c Hc) as [c' Hc']. unfold channel_step in Hc'. cbn [Memory.project_event] in Hc'. rewrite decide_True in Hc' by done.
    rewrite step_enqueue in Hc'. destruct (enqueue _ c) as [[b c1]|]; [|discriminate]. rewrite Hcnt, andb_false_r.
    destruct b; by eexists _, _.
  - unfold mem_tick. destruct (tick_ctrls_total (ctrls m) false) as [[[done a] l'] ->]; [|by eexists _, _].
    intros i c Hc. destruct (Hs i c Hc) as [c' Hc']. unfold channel_step in Hc'. cbn [Memory.project_event] in Hc'. rewrite step_tick in Hc'.
    destruct (tick cs cf c) as [[rs c1]|]; [|discriminate]. by exists rs, c1.
Qed.
Lemma run_first i e l c os c'' :
  run cs cf (project i (e :: l)) c = Ok (os, c'') ->
  exists c' os', channel_step i e c = Ok c' /\ run cs cf (project i l) c' = Ok (os', c'').
Proof.
  unfold channel_step. rewrite project_cons. destruct (project_event i e) as [ev|]; [|intros H; by exists c, os].
  rewrite run_cons. destruct (step cs cf ev c) as [[o c1]|]; [|discriminate].
  destruct (run cs cf (project i l) c1) as [[os1 c2]|] eqn:Hr; [|discriminate]. intros [= <- <-]. by exists c1, os1.
Qed.
Lemma mem_run_total l m :
  Forall sendable l -> Forall (in_range (length (ctrls m))) l ->
  (forall i c, ctrls m !! i = Some c -> exists os c', run cs cf (project i l) c = Ok (os, c')) ->
  exists os m', mem_run l m = Ok (os, m').
Proof.
  revert m. induction l as [|e l IH]; intros m Hl Hr Hrun; cbn [Memory.mem_run]; unfold mbind, st_bind, mret, st_ret; [by eexists _, _|].
  apply Forall_cons in Hl as [He Hl]. apply Forall_cons in Hr as [Hre Hr].
  destruct (mem_step_total e m He Hre) as (o & m1 & Hs).
  { intros i c Hc. destruct (Hrun i c Hc) as (os & c2 & H). destruct (run_first i e l c os c2 H) as (c1 & _ & H1 & _). by exists c1. }
  rewrite Hs. destruct (mem_step_channels e m o m1 Hs) as [Hlen Hch].
  destruct (IH m1 Hl) as (os & m2 & Hm2).
  - by rewrite Hlen.
  - intros i c1 Hc1. destruct (lookup_lt_is_Some_2 (ctrls m) i) as [c Hc]; [rewrite <- Hlen; by eapply lookup_lt_Some|].
    destruct (Hch i c Hc) as (c1' & Hstep & Hc1'). rewrite Hc1 in Hc1'. injection Hc1' as <-.
    destruct (Hrun i c Hc) as (os & c2 & H). destruct (run_first i e l c os c2 H) as (c1' & os' & H1 & H2).
    rewrite Hstep in H1. injection H1 as <-. by exists os', c2.
  - rewrite Hm2. by eexists _, _.
Qed.
Lemma init_lookup n i c : ctrls (Memory_init cs n) !! i = Some c -> c = Controller_init cs i /\ (i < n)%nat.
Proof. simpl. intros (j & -> & Hj)%list_lookup_fmap_Some. apply lookup_seq in Hj as [-> Hj]. split; [done|lia]. Qed.
End Channels.

(** The sizes of the memory are those of the trees. *)
Class Fits (cs : CtrlSpec Command State) (sz : list Z) : Prop := {
  ft_sizes : sizes_ok (sp_row (cs_dram cs)) sz (cs_prefetch_size cs);
  ft_levels : length sz = cs_levels cs;
  ft_count lev : sp_count (cs_dram cs) lev = Z.to_nat (nth lev sz 0);
}.

Section System.
Context (cs : CtrlSpec Command State) (cf : CtrlConfig) (B : nat) (T : Z) `{Hcfg : !Configured cs cf B T}.
Context (ty : MapType) (lpddr : bool) (sz : list Z) (g : Geometry) (cacheline : Z) `{Hfits : !Fits cs sz}.
Context (Hg : geometry ty lpddr (sp_row (cs_dram cs)) sz (cs_prefetch_size cs) (cs_channel_width cs) = Ok g).
Abbreviation channels := (Z.to_nat (nth 0 sz 0)).
Abbreviation start := (Memory_init cs channels).
Abbreviation mem_run := (mem_run cs cf ty g cacheline).
Abbreviation project := (project cs ty g cacheline).
Implicit Types (l : list MemEvent).

Lemma routed_field r i : (i < length sz)%nat -> 0 <= nth i (addr_vec (routed cs ty g cacheline r)) 0 < nth i sz 0.
Proof using Hg Hfits. intros Hi. eapply mapped_range; [exact Hg|apply ft_sizes|exact Hi]. Qed.
Lemma row_range : (sp_row (cs_dram cs) + 2)%nat = length sz.
Proof using Hfits. symmetry. apply (sz_length _ _ _ ft_sizes). Qed.
Lemma channel_range r : 0 <= channel_of cs ty g cacheline r < nth 0 sz 0.
Proof using Hg Hfits. apply routed_field. rewrite <- row_range. lia. Qed.

(** The address of a routed request is a row of its channel. *)
Lemma routed_valid r :
  valid_vec cs B (Z.to_nat (channel_of cs ty g cacheline r)) (addr_vec (routed cs ty g cacheline r)).
Proof using Hg Hfits Hcfg.
  assert (length (addr_vec (routed cs ty g cacheline r)) = length sz) as Hlen.
  { simpl. rewrite map_length. by apply (bits_length _ _ _ _ _ _ _ Hg ft_sizes). }
  assert (forall i, (i < length sz)%nat -> data (addr_vec (routed cs ty g cacheline r)) i = nth i (addr_vec (routed cs ty g cacheline r)) 0) as Hd
    by (intros i Hi; apply nth_indep; lia).
  pose proof row_range as Hrow. split; [|split].
  - by rewrite Hlen, ft_levels.
  - rewrite Hd by lia. pose proof (channel_range r) as Hc. unfold channel_of in *. lia.
  - intros i Hi. pose proof (row_is cs B) as Hr. rewrite Hd by lia. pose proof (routed_field r (S i) ltac:(lia)) as Hf.
    rewrite ft_count. lia.
Qed.
Lemma project_valid i l : Forall (sendable cs) l -> Forall (valid_event cs B i) (project i l).
Proof using Hg Hfits Hcfg.
  induction 1 as [|e l He _ IH]; [constructor|]. rewrite project_cons. destruct e as [r|]; cbn [project_event]; [|by constructor].
  destruct (decide (Z.to_nat (channel_of cs ty g cacheline r) = i)) as [<-|]; [|exact IH]. constructor; [|exact IH]. destruct He as (H1 & H2 & H3).
  split; [exact H1|]. split; [exact H2|]. split; [exact H3|]. apply routed_valid.
Qed.
Lemma all_in_range l : Forall (in_range cs ty g cacheline (length (ctrls start))) l.
Proof using Hg Hfits.
  apply Forall_forall. intros [r|] _; [|done]. simpl. rewrite length_fmap, length_seq. pose proof (channel_range r). lia.
Qed.

(** C7: the memory never fails: for every sequence of cycles and of reads and
    writes of known cores, at any addresses, every channel's controller accepts
    its part of the sequence and no assertion is violated anywhere. *)
Theorem memory_never_fails l : Forall (sendable cs) l -> exists os m, mem_run l start = Ok (os, m).
Proof using Hg Hfits Hcfg.
  intros Hl. apply mem_run_total; [exact Hl|apply all_in_range|]. intros i c [-> Hi]%init_lookup.
  destruct Hcfg. destruct (history cs cf B i T) with (l := project i l) as (os & c & Hr & _); try assumption; [|by exists os, c].
  by apply project_valid.
Qed.

(** C8: a memory is the interleaving of its channels: after any history, the
    controller of channel [i] is in the state that its own history (the requests
    whose address lies in the channel, and every cycle) leads it to; and that
    history consists of valid requests, so all that holds of the histories of a
    controller holds of it. *)
Theorem memory_is_its_channels l os m i :
  Forall (sendable cs) l -> mem_run l start = Ok (os, m) -> (i < channels)%nat ->
  exists es c, run cs cf (project i l) (Controller_init cs i) = Ok (es, c) /\ ctrls m !! i = Some c /\
    Forall (valid_event cs B i) (project i l).
Proof using Hg Hfits Hcfg.
  intros Hl Hr Hi. destruct (mem_run_channels cs cf ty g cacheline l start os m Hr) as [_ H].
  destruct (H i (Controller_init cs i)) as (es & c & H1 & H2).
  - simpl. by rewrite list_lookup_fmap, lookup_seq_lt.
  - exists es, c. split; [exact H1|]. split; [exact H2|]. by apply project_valid.
Qed.
End System.

(** [pending_requests] counts every request inside the memory but the writes
    whose data are on their way. *)
Theorem pending_requests_exact {C St} (m : Memory C St) :
  pending_requests m = Z.of_nat (length (ctrls m ≫= content)) - Z.of_nat (length (ctrls m ≫= pending_write)).
Proof.
  unfold pending_requests. induction (ctrls m) as [|c l IH]; [done|]. csimpl. rewrite IH, !length_app. unfold content. rewrite !length_app. lia.
Qed.
