(* ===== verification/Pages.v ===== *)
(** * Page allocation (ramulator/Memory.h)

    [page_allocator] gives every virtual page of every core a physical page, at
    random.  While there are free pages its search ends and no two virtual pages
    share a physical one; afterwards a page is taken from its owner, who keeps
    its translation.  The generator ([rand]) is a parameter. *)

From stdpp Require Import base tactics numbers list gmap.
From Stdlib Require Import ZArith Lia.
From S2P Require Import Prelude Dram.

Open Scope Z_scope.

Inductive Translation : Type := TNone | TRandom.

Record Pages : Type := mkPages {
  free_physical_pages : list Z;        (* the owner of each page, or -1 *)
  free_physical_pages_remaining : Z;
  page_translation : gmap (Z * Z) Z;
  memory_footprint : Z;
  physical_page_replacement : Z;
}.
(** The constructor of [Memory], with a translation. *)
Definition Pages_init (max_address : Z) : Pages :=
  mkPages (replicate (Z.to_nat (Z.shiftr max_address 12)) (-1)) (Z.shiftr max_address 12) ∅ 0 0.

Definition assign (target : Z * Z) (page : Z) (p : Pages) : Pages :=
  mkPages (free_physical_pages p) (free_physical_pages_remaining p) (<[target := page]> (page_translation p)) (memory_footprint p)
    (physical_page_replacement p).
Definition count_page (p : Pages) : Pages :=
  mkPages (free_physical_pages p) (free_physical_pages_remaining p) (page_translation p) (memory_footprint p + Z.shiftl 1 12)
    (physical_page_replacement p).
Definition count_replacement (p : Pages) : Pages :=
  mkPages (free_physical_pages p) (free_physical_pages_remaining p) (page_translation p) (memory_footprint p)
    (physical_page_replacement p + 1).
Definition take_page (page core : Z) (p : Pages) : Pages :=
  mkPages (<[Z.to_nat page := core]> (free_physical_pages p)) (free_physical_pages_remaining p - 1) (page_translation p)
    (memory_footprint p) (physical_page_replacement p).

(** The loop: the next free page, in a round from [start]. *)
Fixpoint search (fuel : nat) (pages : list Z) (start page : Z) : result Z :=
  match fuel with
  | O => Err NoFuel
  | S fuel =>
      let page := (page + 1) mod Z.of_nat (length pages) in
      match pages !! Z.to_nat page with
      | None => Err Panicked
      | Some owner => if negb (page =? start) && negb (owner =? -1) then search fuel pages start page else Ok page
      end
  end.

(** [rnd] is what [lrand] returns, if it is called. *)
Definition page_allocator (tr : Translation) (rnd addr coreid : Z) (p : Pages) : result (Z * Pages) :=
  let virtual_page_number := Z.shiftr addr 12 in
  let target := (coreid, virtual_page_number) in
  match tr with
  | TNone =>
      match page_translation p !! target with
      | None => Ok (addr, assign target virtual_page_number (count_page p))
      | Some _ => Ok (addr, p)
      end
  | TRandom =>
      let physical page := Z.lor (Z.shiftl page 12) (Z.land addr (Z.shiftl 1 12 - 1)) in
      match page_translation p !! target with
      | Some page => Ok (physical page, p)
      | None =>
          let p := count_page p in
          let pages := free_physical_pages p in
          let size := Z.of_nat (length pages) in
          if size =? 0 then Err Panicked
          else
            let first := rnd mod size in
            match pages !! Z.to_nat first with
            | None => Err Panicked
            | Some owner =>
                if free_physical_pages_remaining p =? 0 then
                  if owner =? -1 then Err AssertFail
                  else Ok (physical first, assign target first (count_replacement p))
                else
                  bind_res (if owner =? -1 then Ok first else search (length pages) pages first first) (fun page =>
                  match pages !! Z.to_nat page with
                  | None => Err Panicked
                  | Some owner =>
                      if owner =? -1 then Ok (physical page, take_page page coreid (assign target page p)) else Err AssertFail
                  end)
            end
      end
  end.

(** A sequence of translations: a random number, an address and a core each. *)
Record Access : Type := mkAccess { ac_rnd : Z; ac_addr : Z; ac_core : Z }.
Fixpoint translate_all (tr : Translation) (l : list Access) (p : Pages) : result (list Z * Pages) :=
  match l with
  | [] => Ok ([], p)
  | a :: l =>
      bind_res (page_allocator tr (ac_rnd a) (ac_addr a) (ac_core a) p) (fun '(x, p) =>
      bind_res (translate_all tr l p) (fun '(xs, p) => Ok (x :: xs, p)))
  end.

(** ** The search *)
Definition free_at (pages : list Z) (i : nat) : Prop := pages !! i = Some (-1).
Definition free_count (pages : list Z) : nat := length (filter (eq (-1)) pages).

Lemma free_some pages : (0 < free_count pages)%nat -> exists i, free_at pages i.
Proof.
  unfold free_count. destruct (filter (eq (-1)) pages) as [|x l] eqn:Hf; simpl; [lia|]. intros _.
  assert (x ∈ filter (eq (-1)) pages) as Hx by (rewrite Hf; by left). apply list_elem_of_filter in Hx as [<- Hx].
  by apply list_elem_of_lookup in Hx.
Qed.
Lemma free_take pages i x : free_at pages i -> x <> -1 -> S (free_count (<[i := x]> pages)) = free_count pages.
Proof.
  unfold free_count, free_at. revert i. induction pages as [|y pages IH]; intros [|i] Hi Hx; try discriminate; simpl.
  - injection Hi as ->. rewrite !filter_cons. rewrite decide_False by congruence. by rewrite decide_True.
  - rewrite !filter_cons. destruct (decide (-1 = y)); simpl; by rewrite IH.
Qed.

(** Walking on from [page], the first free page is found within [d] steps if
    there is one at that distance and the start is not passed before. *)
Lemma search_finds fuel pages start page d :
  0 <= page -> 0 <= start < Z.of_nat (length pages) -> (0 < d <= fuel)%nat ->
  free_at pages (Z.to_nat ((page + Z.of_nat d) mod Z.of_nat (length pages))) ->
  (forall k, (0 < k < d)%nat -> (page + Z.of_nat k) mod Z.of_nat (length pages) <> start) ->
  exists q, search fuel pages start page = Ok q /\ 0 <= q < Z.of_nat (length pages) /\ free_at pages (Z.to_nat q).
Proof.
  revert page d. induction fuel as [|fuel IH]; intros page d Hp Hs Hd Hfree Hpass; [lia|]. cbn [search]. cbv zeta.
  set (n := Z.of_nat (length pages)) in *. set (q := (page + 1) mod n). pose proof (Z.mod_pos_bound (page + 1) n ltac:(lia)) as Hq.
  destruct (lookup_lt_is_Some_2 pages (Z.to_nat q)) as [owner Ho]; [unfold q; lia|]. rewrite Ho.
  destruct (decide (owner = -1)) as [->|Hne].
  { rewrite Z.eqb_refl, andb_false_r. exists q. split; [done|]. split; [done|exact Ho]. }
  destruct (decide (d = 1%nat)) as [->|Hd1].
  { exfalso. unfold free_at in Hfree. change (Z.of_nat 1) with 1 in Hfree. fold q in Hfree. rewrite Ho in Hfree. by injection Hfree. }
  assert (q <> start) as Hqs by (apply (Hpass 1%nat); lia).
  rewrite (proj2 (Z.eqb_neq _ _) Hqs), (proj2 (Z.eqb_neq _ _) Hne). cbn [negb andb].
  assert (forall k, (q + Z.of_nat k) mod n = (page + Z.of_nat (S k)) mod n) as Hk.
  { intros k. unfold q. rewrite Zplus_mod_idemp_l. f_equal. lia. }
  apply (IH q (d - 1)%nat); [lia|exact Hs|lia| |].
  - rewrite Hk. by replace (S (d - 1)) with d by lia.
  - intros k Hkr. rewrite Hk. apply Hpass. lia.
Qed.
Lemma search_ok pages start :
  0 <= start < Z.of_nat (length pages) -> (0 < free_count pages)%nat -> ~ free_at pages (Z.to_nat start) ->
  exists q, search (length pages) pages start start = Ok q /\ 0 <= q < Z.of_nat (length pages) /\ free_at pages (Z.to_nat q).
Proof.
  intros Hs Hf Hn. destruct (free_some pages Hf) as [i Hi]. pose proof (lookup_lt_Some _ _ _ Hi) as Hlt.
  set (n := Z.of_nat (length pages)) in *. assert (i <> Z.to_nat start) as Hne by (intros ->; done).
  set (d := Z.to_nat ((Z.of_nat i - start) mod n)). pose proof (Z.mod_pos_bound (Z.of_nat i - start) n ltac:(lia)) as Hd.
  assert ((Z.of_nat i - start) mod n <> 0) as Hd0.
  { destruct (decide (start <= Z.of_nat i)) as [Hle|Hgt].
    - rewrite Z.mod_small by lia. lia.
    - replace (Z.of_nat i - start) with ((Z.of_nat i - start + n) + (-1) * n) by lia. rewrite Z_mod_plus_full, Z.mod_small by lia. lia. }
  apply (search_finds _ pages start start d); [lia|exact Hs|unfold d; lia| |].
  - fold n. unfold d. rewrite Z2Nat.id by lia. rewrite Zplus_mod_idemp_r. replace (start + (Z.of_nat i - start)) with (Z.of_nat i) by lia.
    rewrite Z.mod_small by lia. by rewrite Nat2Z.id.
  - fold n. intros k Hk. unfold d in Hk. destruct (decide (start + Z.of_nat k < n)) as [Hlt'|Hge].
    + rewrite Z.mod_small by lia. lia.
    + replace (start + Z.of_nat k) with ((start + Z.of_nat k - n) + 1 * n) by lia. rewrite Z_mod_plus_full, Z.mod_small by lia. lia.
Qed.

(** ** The books *)
Record books (p : Pages) : Prop := {
  bk_remaining : free_physical_pages_remaining p = Z.of_nat (free_count (free_physical_pages p));
  bk_size : (0 < length (free_physical_pages p))%nat;
  bk_pages t page : page_translation p !! t = Some page ->
    0 <= page < Z.of_nat (length (free_physical_pages p)) /\ ~ free_at (free_physical_pages p) (Z.to_nat page);
  bk_owners i owner : free_physical_pages p !! i = Some owner -> owner <> -1 ->
    exists v, page_translation p !! (owner, v) = Some (Z.of_nat i);
  bk_distinct t1 t2 page : physical_page_replacement p = 0 ->
    page_translation p !! t1 = Some page -> page_translation p !! t2 = Some page -> t1 = t2;
  bk_full : physical_page_replacement p <> 0 -> free_physical_pages_remaining p = 0;
  bk_count : 0 <= physical_page_replacement p;
}.
Definition target_of (a : Access) : Z * Z := (ac_core a, Z.shiftr (ac_addr a) 12).
Definition physical (page addr : Z) : Z := Z.lor (Z.shiftl page 12) (Z.land addr 4095).

(** One allocation: the translation of the page is found or made, the others
    stay, and no page is replaced unless none is free. *)
Record allocated (a : Access) (p : Pages) (x : Z) (p' : Pages) : Prop := {
  al_books : books p';
  al_size : length (free_physical_pages p') = length (free_physical_pages p);
  al_here : exists page, page_translation p' !! target_of a = Some page /\ x = physical page (ac_addr a);
  al_there t page : page_translation p !! t = Some page -> page_translation p' !! t = Some page;
  al_replaced : physical_page_replacement p <= physical_page_replacement p';
}.

Lemma books_take p a page :
  books p -> ac_core a <> -1 -> free_at (free_physical_pages p) (Z.to_nat page) -> 0 <= page -> page_translation p !! target_of a = None ->
  books (take_page page (ac_core a) (assign (target_of a) page (count_page p))).
Proof.
  intros [H1 H2 H3 H4 H5 H6 H7] Hcore Hfree Hpos Hnew. pose proof (lookup_lt_Some _ _ _ Hfree) as Hlt.
  pose proof (free_take _ _ (ac_core a) Hfree Hcore) as Hcnt. split; simpl.
  - lia.
  - by rewrite length_insert.
  - intros t q. rewrite lookup_insert_Some, length_insert. unfold free_at. intros [[_ <-]|[_ Hq]].
    + split; [lia|]. rewrite list_lookup_insert_eq by done. congruence.
    + destruct (H3 t q Hq) as [Hr Hn]. split; [done|]. rewrite list_lookup_insert_Some. intros [(_ & ? & _)|[_ ?]]; [congruence|by apply Hn].
  - intros i owner. rewrite list_lookup_insert_Some. intros [(<- & <- & _)|[Hne Hi]] Ho.
    + exists (target_of a).2. rewrite Z2Nat.id by done. unfold target_of. simpl. by rewrite lookup_insert_eq.
    + destruct (H4 i owner Hi Ho) as [v Hv]. exists v. rewrite lookup_insert_ne; [done|]. intros He. rewrite He in Hnew. congruence.
  - intros t1 t2 q Hrep Hq1 Hq2. apply lookup_insert_Some in Hq1 as [[<- <-]|[Hn1 Hq1]], Hq2 as [[<- Hpq]|[Hn2 Hq2]].
    + done.
    + exfalso. by apply (H3 t2 page Hq2).
    + subst q. exfalso. by apply (H3 t1 page Hq1).
    + by apply (H5 t1 t2 q Hrep).
  - intros Hr. pose proof (H6 Hr). lia.
  - done.
Qed.
Lemma books_replace p a page :
  books p -> free_physical_pages_remaining p = 0 -> 0 <= page < Z.of_nat (length (free_physical_pages p)) ->
  ~ free_at (free_physical_pages p) (Z.to_nat page) -> page_translation p !! target_of a = None ->
  books (assign (target_of a) page (count_replacement (count_page p))).
Proof.
  intros [H1 H2 H3 H4 H5 H6 H7] Hr Hrange Hn Hnew. split; simpl.
  - done.
  - done.
  - intros t q. rewrite lookup_insert_Some. intros [[_ <-]|[_ Hq]]; [done|by apply (H3 t)].
  - intros i owner Hi Ho. destruct (H4 i owner Hi Ho) as [v Hv]. exists v. rewrite lookup_insert_ne; [done|]. intros He. rewrite He in Hnew. congruence.
  - lia.
  - done.
  - lia.
Qed.

(** The allocator never fails: the search ends at a free page whenever one is left. *)
Lemma page_allocator_spec p a :
  books p -> ac_core a <> -1 -> 0 <= ac_rnd a ->
  exists x p', page_allocator TRandom (ac_rnd a) (ac_addr a) (ac_core a) p = Ok (x, p') /\ allocated a p x p'.
Proof.
  intros Hb Hcore Hrnd. unfold page_allocator. cbv zeta. change (ac_core a, Z.shiftr (ac_addr a) 12) with (target_of a).
  change (Z.shiftl 1 12 - 1) with 4095.
  destruct (page_translation p !! target_of a) as [page|] eqn:Ht.
  { eexists _, _. split; [done|]. split; [done|done|by exists page|done|done]. }
  cbn [count_page free_physical_pages free_physical_pages_remaining]. pose proof Hb as [H1 H2 H3 H4 H5 H6 H7].
  destruct (Z.eqb_spec (Z.of_nat (length (free_physical_pages p))) 0) as [?|Hsize]; [lia|].
  set (n := Z.of_nat (length (free_physical_pages p))) in *. pose proof (Z.mod_pos_bound (ac_rnd a) n ltac:(lia)) as Hfirst.
  destruct (lookup_lt_is_Some_2 (free_physical_pages p) (Z.to_nat (ac_rnd a mod n))) as [owner Ho]; [lia|]. rewrite Ho.
  destruct (Z.eqb_spec (free_physical_pages_remaining p) 0) as [Hr|Hr].
  - destruct (Z.eqb_spec owner (-1)) as [->|Hne].
    { pose proof (free_take _ _ 0 Ho ltac:(done)). lia. }
    eexists _, _. split; [done|]. split.
    + apply books_replace; [exact Hb|exact Hr|exact Hfirst| |exact Ht]. unfold free_at. congruence.
    + done.
    + eexists. split; [simpl; apply lookup_insert_eq|done].
    + intros t page Hp. simpl. rewrite lookup_insert_ne; [done|]. intros <-. congruence.
    + simpl. lia.
  - assert (exists page, (if owner =? -1 then Ok (ac_rnd a mod n) else search (length (free_physical_pages p)) (free_physical_pages p) (ac_rnd a mod n) (ac_rnd a mod n))
      = Ok page /\ 0 <= page < n /\ free_at (free_physical_pages p) (Z.to_nat page)) as (page & -> & Hrange & Hfree).
    { destruct (Z.eqb_spec owner (-1)) as [->|Hne]; [by eexists|]. apply search_ok; [done|lia|]. unfold free_at. congruence. }
    cbn [bind_res]. rewrite Hfree. cbn [Z.eqb]. eexists _, _. split; [reflexivity|]. split.
    + apply books_take; try assumption; apply Hrange.
    + simpl. apply length_insert.
    + eexists. split; [simpl; apply lookup_insert_eq|done].
    + intros t q Hq. simpl. rewrite lookup_insert_ne; [done|]. intros <-. congruence.
    + done.
Qed.

(** ** Sequences of accesses *)
Definition access_ok (a : Access) : Prop := ac_core a <> -1 /\ 0 <= ac_rnd a.

Lemma init_books max_address : 2 ^ 12 <= max_address -> books (Pages_init max_address).
Proof.
  intros Hm. assert (1 <= Z.shiftr max_address 12) as Hs by (rewrite Z.shiftr_div_pow2 by lia; apply Z.div_le_lower_bound; lia). split; simpl.
  - assert (forall n, free_count (replicate n (-1)) = n) as Hc.
    { induction n as [|n IH]; [done|]. unfold free_count in *. cbn [replicate]. rewrite filter_cons, decide_True by done. cbn [length]. by rewrite IH. }
    rewrite Hc. lia.
  - rewrite length_replicate. lia.
  - intros t page. by rewrite lookup_empty.
  - intros i owner [-> _]%lookup_replicate. done.
  - intros t1 t2 page _. by rewrite lookup_empty.
  - done.
  - done.
Qed.

Lemma translate_all_spec l p :
  books p -> Forall access_ok l ->
  exists xs p', translate_all TRandom l p = Ok (xs, p') /\ books p' /\ length (free_physical_pages p') = length (free_physical_pages p) /\
    (forall t page, page_translation p !! t = Some page -> page_translation p' !! t = Some page) /\
    Forall2 (fun a x => exists page, page_translation p' !! target_of a = Some page /\ x = physical page (ac_addr a)) l xs.
Proof.
  intros Hb Hl. revert p Hb. induction Hl as [|a l [Hc Hr] _ IH]; intros p Hb; cbn [translate_all].
  { exists [], p. split; [done|]. split; [done|]. split; [done|]. split; [done|constructor]. }
  destruct (page_allocator_spec p a Hb Hc Hr) as (x & p1 & -> & [A1 A2 A3 A4 _]). cbn [bind_res].
  destruct (IH p1 A1) as (xs & p2 & -> & B1 & B2 & B3 & B4). cbn [bind_res]. eexists _, _. split; [done|]. split; [exact B1|].
  split; [congruence|]. split; [intros t page Hp; by apply B3, A4|]. constructor; [|exact B4].
  destruct A3 as (page & Hp & ->). exists page. split; [by apply B3|done].
Qed.

Lemma physical_page page addr : Z.shiftr (physical page addr) 12 = page.
Proof.
  unfold physical. rewrite Z.shiftr_lor, Z.shiftr_shiftl_l, Z.shiftl_0_r by lia. rewrite Z.shiftr_land. change (Z.shiftr 4095 12) with 0.
  by rewrite Z.land_0_r, Z.lor_0_r.
Qed.
Lemma physical_offset page addr : Z.land (physical page addr) 4095 = Z.land addr 4095.
Proof.
  unfold physical. change 4095 with (Z.ones 12). rewrite Z.land_lor_distr_l, Z.land_ones, Z.shiftl_mul_pow2, Z_mod_mult by lia.
  rewrite Z.lor_0_l, <- Z.land_assoc. by rewrite Z.land_diag.
Qed.
Lemma physical_range page addr max : 0 <= page < Z.shiftr max 12 -> 0 <= physical page addr < max.
Proof.
  intros Hp. pose proof (physical_page page addr) as Hd. rewrite Z.shiftr_div_pow2 in * by lia.
  pose proof (Z.div_mod (physical page addr) (2 ^ 12) ltac:(lia)). pose proof (Z.mod_pos_bound (physical page addr) (2 ^ 12) ltac:(lia)).
  pose proof (Z.mul_div_le max (2 ^ 12) ltac:(lia)). lia.
Qed.

(** C38: with random translation every address of a known core gets a physical
    address: the search for a free page ends, no assertion fails, the offset in
    the page is kept and the result lies within the memory. *)
Theorem page_allocator_total max_address l :
  2 ^ 12 <= max_address -> Forall access_ok l ->
  exists xs p, translate_all TRandom l (Pages_init max_address) = Ok (xs, p) /\
    Forall2 (fun a x => 0 <= x < max_address /\ Z.land x 4095 = Z.land (ac_addr a) 4095) l xs.
Proof.
  intros Hm Hl. destruct (translate_all_spec l _ (init_books max_address Hm) Hl) as (xs & p & Ht & Hb & Hlen & _ & Hxs).
  exists xs, p. split; [exact Ht|]. eapply Forall2_impl; [exact Hxs|]. intros a x (page & Hp & ->). split; [|apply physical_offset].
  apply physical_range. destruct (bk_pages p Hb _ _ Hp) as [Hr _]. rewrite Hlen in Hr. simpl in Hr. rewrite length_replicate in Hr. lia.
Qed.

(** While no page has been replaced, translation is injective: two accesses
    get the same physical page exactly if they are to the same virtual page of
    the same core. *)
Theorem translation_injective max_address l xs p i j a b x y :
  2 ^ 12 <= max_address -> Forall access_ok l -> translate_all TRandom l (Pages_init max_address) = Ok (xs, p) ->
  physical_page_replacement p = 0 ->
  l !! i = Some a -> xs !! i = Some x -> l !! j = Some b -> xs !! j = Some y ->
  (Z.shiftr x 12 = Z.shiftr y 12 <-> ac_core a = ac_core b /\ Z.shiftr (ac_addr a) 12 = Z.shiftr (ac_addr b) 12).
Proof.
  intros Hm Hl Ht Hr Ha Hx Hb' Hy. destruct (translate_all_spec l _ (init_books max_address Hm) Hl) as (xs' & p' & Ht' & Hb & _ & _ & Hxs).
  rewrite Ht in Ht'. injection Ht' as <- <-.
  destruct (Forall2_lookup_lr _ _ _ _ _ _ Hxs Ha Hx) as (page & Hp & ->). destruct (Forall2_lookup_lr _ _ _ _ _ _ Hxs Hb' Hy) as (page' & Hp' & ->).
  rewrite !physical_page. unfold target_of in *. split.
  - intros <-. pose proof (bk_distinct p Hb _ _ page Hr Hp Hp') as [= H1 H2]. done.
  - intros [H1 H2]. rewrite H1, H2 in Hp. congruence.
Qed.

(** when no page is free, the page that a new virtual page replaces stays
    translated for its owner too: from then on two virtual pages share it. *)
Theorem replacement_aliases p a x p' :
  books p -> access_ok a -> free_physical_pages_remaining p = 0 -> page_translation p !! target_of a = None ->
  page_allocator TRandom (ac_rnd a) (ac_addr a) (ac_core a) p = Ok (x, p') ->
  exists t page, t <> target_of a /\ page_translation p' !! t = Some page /\ page_translation p' !! target_of a = Some page /\
    Z.shiftr x 12 = page.
Proof.
  intros Hb [Hc Hr] Hfull Hnew Hp. destruct (page_allocator_spec p a Hb Hc Hr) as (x' & p1 & Hp1 & [A1 A2 (page & A3 & ->) A4 _]).
  rewrite Hp in Hp1. injection Hp1 as -> ->. destruct (bk_pages p1 A1 _ _ A3) as [Hrange _].
  destruct (lookup_lt_is_Some_2 (free_physical_pages p) (Z.to_nat page)) as [owner Ho]; [lia|].
  assert (owner <> -1) as Hne.
  { intros ->. pose proof (free_take _ _ 0 Ho ltac:(done)). pose proof (bk_remaining p Hb). lia. }
  destruct (bk_owners p Hb _ _ Ho Hne) as [v Hv]. rewrite Z2Nat.id in Hv by lia. exists (owner, v), page.
  split; [intros He; rewrite He in Hv; congruence|]. split; [by apply A4|]. split; [exact A3|apply physical_page].
Qed.

(** *** Two pages, three virtual pages *)
Definition three : list Access := [mkAccess 7 4100 0; mkAccess 3 9000 1; mkAccess 9 4200 0].
Lemma three_ok : Forall access_ok three.
Proof. unfold three. repeat (apply Forall_cons; split; [split; simpl; lia|]). apply Forall_nil_2. Qed.
Lemma page_allocator_total_witness : exists xs p, translate_all TRandom three (Pages_init 8192) = Ok (xs, p) /\
  Forall2 (fun a x => 0 <= x < 8192 /\ Z.land x 4095 = Z.land (ac_addr a) 4095) three xs.
Proof. apply (page_allocator_total 8192 three); [lia|exact three_ok]. Defined.
Lemma translation_injective_witness : exists xs p,
  translate_all TRandom three (Pages_init 8192) = Ok (xs, p) /\ exists x y, xs !! 0%nat = Some x /\ xs !! 1%nat = Some y /\
  (Z.shiftr x 12 = Z.shiftr y 12 <-> 0 = 1 /\ Z.shiftr 4100 12 = Z.shiftr 9000 12).
Proof.
  eexists _, _. split; [vm_compute; reflexivity|]. eexists _, _. split; [reflexivity|]. split; [reflexivity|].
  eapply (translation_injective 8192 three _ _ 0 1 (mkAccess 7 4100 0) (mkAccess 3 9000 1));
    [lia|exact three_ok|vm_compute; reflexivity|vm_compute; reflexivity|reflexivity|reflexivity|reflexivity|reflexivity].
Defined.
Definition one_page : Pages := mkPages [0] 0 {[(0, 1) := 0]} 4096 0.
Lemma one_page_books : books one_page.
Proof.
  split; simpl; try done; try lia.
  - intros t page [_ <-]%lookup_singleton_Some. split; [lia|]. unfold free_at. simpl. congruence.
  - intros [|i] owner; simpl; [|done]. intros [= <-] _. exists 1. by rewrite lookup_singleton_eq.
  - intros t1 t2 page _ [<- _]%lookup_singleton_Some [<- _]%lookup_singleton_Some. done.
Qed.
Lemma replacement_aliases_witness : exists t page p', t <> (1, 2) /\
  page_allocator TRandom 5 9000 1 one_page = Ok (Z.lor (Z.shiftl page 12) (Z.land 9000 4095), p') /\
  page_translation p' !! t = Some page /\ page_translation p' !! (1, 2) = Some page.
Proof.
  destruct (page_allocator TRandom 5 9000 1 one_page) as [[x p']|] eqn:Hp; [|vm_compute in Hp; discriminate].
  destruct (replacement_aliases one_page (mkAccess 5 9000 1) x p') as (t & page & H1 & H2 & H3 & H4).
  - exact one_page_books.
  - split; simpl; lia.
  - reflexivity.
  - vm_compute. reflexivity.
  - exact Hp.
  - exists t, page, p'. split; [exact H1|]. split; [|split; [exact H2|exact H3]]. rewrite <- H4. f_equal. f_equal.
    vm_compute in Hp. injection Hp as <- _. reflexivity.
Defined.
