(* ===== verification/DDRControllers.v ===== *)
(** * DDR3 and DDR4 behind the controller (DDR3.h, DDR4.h)

    What the controller reads of the two standards, and the proofs that their
    tables keep the promises its theorems are stated against: the effect of
    each command on the banks ([Effects]) and the refresh protocol
    ([Controlled]). *)

From stdpp Require Import base tactics numbers list gmap.
From Stdlib Require Import ZArith Lia.
From S2P Require Import Prelude Dram DramTiming DramStd DramBanks DramFrame DDR3 DDR4 Scheduler Controller ControllerInv RowMirror ControllerSafe ControllerRun ControllerLive ControllerRefresh ControllerHistory.

Open Scope Z_scope.

#[local] Abbreviation Node := (Dram.Node Command State).

(** [translate]: the array has five entries, the sixth is zero. *)
Definition translate (t : ReqType) : Command :=
  match t with READ => RD | WRITE => WR | REFRESH => REF | POWERDOWN => PDE | SELFREFRESH => SRE | EXTENSION => ACT end.
Definition prefetch_size : Z := 8.
Definition channel_width : Z := 64.

(** ** Building a channel (MemoryFactory.h) *)

(** [extend_channel_width]: as many devices in parallel as a cache line needs. *)
Definition extend_channel_width (prefetch width cacheline : Z) : result Z :=
  let channel_unit := Z.quot (prefetch * width) 8 in
  let gang_number := Z.quot cacheline channel_unit in
  if channel_unit =? 0 then Err Panicked
  else if negb (1 <=? gang_number) then Err AssertFail
  else if negb (cacheline =? gang_number * channel_unit) then Err AssertFail
  else Ok (width * gang_number).
(** [populate_memory]: the numbers of channels and ranks, where the table has none. *)
Definition populate (channels ranks : Z) (o : OrgEntry) : OrgEntry :=
  let cnt := count o in
  let cnt := if nth 0 cnt 0 =? 0 then <[0%nat := channels]> cnt else cnt in
  let cnt := if nth 1 cnt 0 =? 0 then <[1%nat := ranks]> cnt else cnt in
  mkOrg (size o) (dq o) cnt.

Definition ddr3_controlled (d : DDR3.DDR3) (width cores : Z) : CtrlSpec Command State := {|
  cs_dram := DDR3.spec (DDR3.org_entry d) (DDR3.speed_entry d);
  cs_translate := translate;
  cs_PRE := PRE;
  cs_accessing := is_accessing;
  cs_closing := is_closing;
  cs_levels := 5;
  cs_read_latency := DDR3.read_latency d;
  cs_write_latency := DDR3.write_latency d;
  cs_nREFI := DDR3.nREFI (DDR3.speed_entry d);
  cs_prefetch_size := prefetch_size;
  cs_channel_width := width;
  cs_cores := cores;
|}.
Definition ddr4_controlled (d : DDR4.DDR4) (width cores : Z) : CtrlSpec Command State := {|
  cs_dram := DDR4.spec (DDR4.org_entry d) (DDR4.speed_entry d);
  cs_translate := translate;
  cs_PRE := PRE;
  cs_accessing := is_accessing;
  cs_closing := is_closing;
  cs_levels := 6;
  cs_read_latency := DDR4.read_latency d;
  cs_write_latency := DDR4.write_latency d;
  cs_nREFI := DDR4.nREFI (DDR4.speed_entry d);
  cs_prefetch_size := prefetch_size;
  cs_channel_width := width;
  cs_cores := cores;
|}.

(** [MemoryFactory<T>::create], up to the controllers. *)
Definition validate (channels ranks : Z) : bool := (0 <? channels) && (0 <? ranks).
Definition ddr3_populated (channels ranks : Z) (d : DDR3.DDR3) : DDR3.DDR3 :=
  DDR3.mkDDR3 (populate channels ranks (DDR3.org_entry d)) (DDR3.speed_entry d) (DDR3.read_latency d) (DDR3.write_latency d).
Definition ddr3_create (channels ranks cacheline cores : Z) (org : DDR3.Org) (speed : DDR3.Speed) : result (CtrlSpec Command State) :=
  if negb (validate channels ranks) then Err AssertFail
  else
    bind_res (DDR3.DDR3_new org speed) (fun d =>
    bind_res (extend_channel_width prefetch_size channel_width cacheline) (fun width =>
    Ok (ddr3_controlled (ddr3_populated channels ranks d) width cores))).
Definition ddr4_populated (channels ranks : Z) (d : DDR4.DDR4) : DDR4.DDR4 :=
  DDR4.mkDDR4 (populate channels ranks (DDR4.org_entry d)) (DDR4.speed_entry d) (DDR4.read_latency d) (DDR4.write_latency d).
Definition ddr4_create (channels ranks cacheline cores : Z) (org : DDR4.Org) (speed : DDR4.Speed) : result (CtrlSpec Command State) :=
  if negb (validate channels ranks) then Err AssertFail
  else
    bind_res (DDR4.DDR4_new org speed) (fun d =>
    bind_res (extend_channel_width prefetch_size channel_width cacheline) (fun width =>
    Ok (ddr4_controlled (ddr4_populated channels ranks d) width cores))).

(** ** Views of changed nodes *)
Lemma view_map_children k f (nd : Node) a :
  bank_view (S k) (map_children f nd) a = nd_children nd !! Z.to_nat (a (S (nd_level nd))) ≫= fun ch => bank_view k (f ch) a.
Proof. rewrite view_child. simpl. rewrite list_lookup_fmap. by destruct (nd_children nd !! _). Qed.
Lemma view_id k (nd : Node) a : bank_view k nd a = (fun b => b) <$> bank_view k nd a.
Proof. by destruct (bank_view k nd a). Qed.
Lemma view_set_state k s (nd : Node) a : bank_view (S k) (set_state s nd) a = (fun b => b) <$> bank_view (S k) nd a.
Proof. exact (view_id (S k) nd a). Qed.
(** Closing every bank [S k] levels below, through [k] levels between. *)
Lemma view_map_closed k f (nd : Node) a :
  (forall ch, bank_view k (f ch) a = (fun _ => (Closed, ∅)) <$> bank_view k ch a) ->
  bank_view (S k) (map_children f nd) a = (fun _ => (Closed, ∅)) <$> bank_view (S k) nd a.
Proof. intros Hf. rewrite view_map_children, view_child. destruct (nd_children nd !! _); [apply Hf|done]. Qed.
Lemma view_close (nd : Node) a : bank_view 0 (close_bank nd) a = (fun _ => (Closed, ∅)) <$> bank_view 0 nd a.
Proof. done. Qed.
#[export] Hint Resolve view_map_closed view_close view_set_state : damov.

Lemma same_counts_leaf (nd nd' : Node) :
  nd_serv nd' = nd_serv nd -> nd_level nd' = nd_level nd -> nd_id nd' = nd_id nd -> nd_children nd' = nd_children nd ->
  same_counts nd nd'.
Proof. intros Hs Hl Hi Hc. apply tree_rel_leaf; try assumption; [apply same_count_refl|unfold same_count; by rewrite Hs]. Qed.
Lemma same_counts_map f (nd : Node) : (forall ch, same_counts ch (f ch)) -> same_counts nd (map_children f nd).
Proof.
  intros Hf. apply same_counts_children; [by rewrite length_fmap|]. intros k ch ch' H1 H2.
  rewrite list_lookup_fmap, H1 in H2. injection H2 as <-. apply Hf.
Qed.
Lemma same_counts_close (nd : Node) : same_counts nd (close_bank nd).
Proof. exact (same_counts_leaf nd (close_bank nd) eq_refl eq_refl eq_refl eq_refl). Qed.
Lemma same_counts_open (nd : Node) id : same_counts nd (open_row nd id).
Proof. exact (same_counts_leaf nd (open_row nd id) eq_refl eq_refl eq_refl eq_refl). Qed.
Lemma same_counts_state (nd : Node) s : same_counts nd (set_state s nd).
Proof. exact (same_counts_leaf nd (set_state s nd) eq_refl eq_refl eq_refl eq_refl). Qed.
#[export] Hint Resolve same_counts_refl same_counts_map same_counts_close same_counts_open same_counts_state : damov.


#[export] Instance ddr3_effects o s : Effects (DDR3.spec o s) 1 2.
Proof.
  split; cbn [DDR3.spec sp_lambda sp_scope].
  - intros lev c f nd id a Hc Hf Hlev Hnd. lambda_cases Hf lev c; first [done|apply view_id|simpl; auto with damov].
  - intros []; try done; intros _; simpl; (split; [done|lia]).
  - intros lev c f nd id Hf. lambda_cases Hf lev c; try (destruct (DDR3.banks_closed nd)); auto with damov.
Qed.
#[export] Instance ddr4_effects o s : Effects (DDR4.spec o s) 1 3.
Proof.
  split; cbn [DDR4.spec sp_lambda sp_scope].
  - intros lev c f nd id a Hc Hf Hlev Hnd. lambda_cases Hf lev c; first [done|apply view_id|simpl; auto with damov].
  - intros []; try done; intros _; simpl; (split; [done|lia]).
  - intros lev c f nd id Hf. lambda_cases Hf lev c; try (destruct (DDR4.banks_closed nd)); auto with damov.
Qed.

(** ** The refresh protocol *)
Lemma open_child (l : list Node) f : forallb f l = false -> exists k ch, l !! k = Some ch /\ f ch = false.
Proof.
  induction l as [|x l IH]; simpl; [done|]. destruct (f x) eqn:Hx; [intros (k & ch & Hk & Hf)%IH; by exists (S k), ch|].
  intros _. by exists 0%nat, x.
Qed.
Lemma closed_child (l : list Node) f k ch : forallb f l = true -> l !! k = Some ch -> f ch = true.
Proof. rewrite forallb_forall. intros H Hk. apply H, list_elem_of_In. by eapply list_elem_of_lookup_2. Qed.
Lemma bank_closed_iff (nd : Node) : bank_closed nd = true <-> nd_state nd = Closed.
Proof. apply bool_decide_eq_true. Qed.
Lemma bank_open_iff (nd : Node) : bank_closed nd = false <-> nd_state nd <> Closed.
Proof. apply bool_decide_eq_false. Qed.
Lemma view_zero (nd : Node) a : bank_view 0 nd a = Some (nd_state nd, nd_rows nd).
Proof. done. Qed.

#[export] Instance ddr3_is_controlled d w n : Controlled (ddr3_controlled d w n) 2.
Proof.
  split; try done.
  - intros lev c [-> | ->]; split_level lev; reflexivity.
  - intros lev. split_level lev; done.
  - exists DDR3.prereq_rank_REF. split; [done|]. intros nd id Hnd. change (2 - 1)%nat with 1%nat. unfold DDR3.prereq_rank_REF, DDR3.banks_closed.
    destruct (forallb _ _) eqn:Hall; [left|right]; (split; [done|]).
    + intros a b. rewrite view_child. intros (ch & Hk & Hb)%bind_Some. injection Hb as <-.
      by apply bank_closed_iff, (closed_child _ _ _ _ Hall Hk).
    + destruct (open_child _ _ Hall) as (k & ch & Hk & Hf). exists (fun _ => Z.of_nat k), (nd_state ch, nd_rows ch).
      split; [lia|]. rewrite view_child, Nat2Z.id, Hk. split; [done|]. by apply bank_open_iff.
Qed.
#[export] Instance ddr4_is_controlled d w n : Controlled (ddr4_controlled d w n) 3.
Proof.
  split; try done.
  - intros lev c [-> | ->]; split_level lev; reflexivity.
  - intros lev. split_level lev; done.
  - exists DDR4.prereq_rank_REF. split; [done|]. intros nd id [Hl Hnd]%leveled_inv. change (3 - 1)%nat with 2%nat. unfold DDR4.prereq_rank_REF, DDR4.banks_closed.
    destruct (forallb _ _) eqn:Hall; [left|right]; (split; [done|]).
    + intros a b. rewrite view_child. intros (bg & Hg & Hb)%bind_Some. rewrite view_child in Hb.
      apply bind_Some in Hb as (ch & Hk & Hb). injection Hb as <-.
      apply bank_closed_iff. exact (closed_child _ _ _ _ (closed_child _ _ _ _ Hall Hg) Hk).
    + destruct (open_child _ _ Hall) as (g & bg & Hg & Hbg). destruct (open_child _ _ Hbg) as (k & ch & Hk & Hf).
      exists (fun l => if decide (l = 2%nat) then Z.of_nat g else Z.of_nat k), (nd_state ch, nd_rows ch).
      split; [intros l; case_decide; lia|]. destruct (leveled_inv _ _ (Hnd _ _ Hg)) as [Hl2 _].
      rewrite view_child, Hl. simpl. rewrite Nat2Z.id, Hg. simpl. rewrite view_child, Hl2. simpl. rewrite Nat2Z.id, Hk.
      split; [done|]. by apply bank_open_iff.
Qed.

(** ** Every machine the factory builds is in the scope of the theorems *)

(** The largest value of a timing table. *)
Definition max_timing (l : list (Command * TimingEntry Command)) : Z := foldr Z.max 0 ((fun p => te_val p.2) <$> l).
Lemma max_timing_nonneg l : 0 <= max_timing l.
Proof. unfold max_timing. induction l; csimpl; lia. Qed.
Lemma select_le l c t : t ∈ select l c -> te_val t <= max_timing l.
Proof.
  unfold select. intros (p & -> & Hp)%list_elem_of_fmap. apply list_elem_of_filter in Hp as [_ Hp]. unfold max_timing.
  induction l as [|x l IH]; [by apply not_elem_of_nil in Hp|]. csimpl. apply elem_of_cons in Hp as [-> |Hp]; [lia|]. specialize (IH Hp). lia.
Qed.

Definition ddr3_max (s : DDR3.SpeedEntry) : Z :=
  foldr Z.max 0 [max_timing (DDR3.timing_channel s); max_timing (DDR3.timing_rank s); max_timing (DDR3.timing_bank s)].
Lemma ddr3_bound o s : timing_bound (DDR3.spec o s) (ddr3_max s).
Proof.
  unfold ddr3_max. cbn [foldr]. pose proof (max_timing_nonneg (DDR3.timing_channel s)). split; [lia|].
  intros lev c t Ht. change (t ∈ DDR3.timing s lev c) in Ht. split_level lev; unfold DDR3.timing in Ht;
    try (apply select_le in Ht; lia); by apply not_elem_of_nil in Ht.
Qed.
Definition ddr4_max (s : DDR4.SpeedEntry) : Z :=
  foldr Z.max 0 [max_timing (DDR4.timing_channel s); max_timing (DDR4.timing_rank s); max_timing (DDR4.timing_bankgroup s);
    max_timing (DDR4.timing_bank s)].
Lemma ddr4_bound o s : timing_bound (DDR4.spec o s) (ddr4_max s).
Proof.
  unfold ddr4_max. cbn [foldr]. pose proof (max_timing_nonneg (DDR4.timing_channel s)). split; [lia|].
  intros lev c t Ht. change (t ∈ DDR4.timing s lev c) in Ht. split_level lev; unfold DDR4.timing in Ht;
    try (apply select_le in Ht; lia); by apply not_elem_of_nil in Ht.
Qed.

(** A table that leaves channels and ranks open, and time for the refreshes of eight ranks. *)
Definition in_scope (cnt : list Z) (T nREFI read_latency : Z) : bool :=
  match cnt with 0 :: 0 :: _ => (T <=? 432) && (16 * (T + 1) <? nREFI) && (0 <? read_latency) | _ => false end.
Lemma in_scope_ranks o T n rl channels ranks :
  in_scope (count o) T n rl = true -> 0 < ranks <= 8 ->
  Z.to_nat (nth 1 (count (populate channels ranks o)) 0) = Z.to_nat ranks /\ T <= 432 /\ 16 * (T + 1) < n /\ 0 < rl.
Proof.
  unfold in_scope, populate. destruct (count o) as [|[| |] [|[| |] cnt]]; try done.
  rewrite !andb_true_iff, Z.leb_le, !Z.ltb_lt. intros [[H1 H2] H3] Hr. simpl.
  destruct (channels =? 0) eqn:Hc; simpl; (split; [done|lia]).
Qed.

Lemma ddr3_all_in_scope org speed : exists d, DDR3.DDR3_new org speed = Ok d /\
  in_scope (count (DDR3.org_entry d)) (ddr3_max (DDR3.speed_entry d)) (DDR3.nREFI (DDR3.speed_entry d)) (DDR3.read_latency d) = true.
Proof. destruct org, speed; eexists; (split; [vm_compute; reflexivity|vm_compute; reflexivity]). Qed.
Lemma ddr4_all_in_scope org speed : exists d, DDR4.DDR4_new org speed = Ok d /\
  in_scope (count (DDR4.org_entry d)) (ddr4_max (DDR4.speed_entry d)) (DDR4.nREFI (DDR4.speed_entry d)) (DDR4.read_latency d) = true.
Proof. destruct org, speed; eexists; (split; [vm_compute; reflexivity|vm_compute; reflexivity]). Qed.

Lemma extend_ok lines : 0 < lines -> extend_channel_width prefetch_size channel_width (64 * lines) = Ok (64 * lines).
Proof.
  intros Hl. unfold extend_channel_width, prefetch_size, channel_width. change (Z.quot (8 * 64) 8) with 64. cbn [Z.eqb].
  rewrite Z.mul_comm, Z.quot_mul by lia. replace (1 <=? lines) with true by (symmetry; apply Z.leb_le; lia).
  rewrite Z.eqb_refl. simpl. f_equal. lia.
Qed.

Lemma ddr3_scope d w n cf channels ranks :
  in_scope (count (DDR3.org_entry d)) (ddr3_max (DDR3.speed_entry d)) (DDR3.nREFI (DDR3.speed_entry d)) (DDR3.read_latency d) = true ->
  0 < ranks <= 8 -> plain cf ->
  ddr3_max (DDR3.speed_entry d) <= 432 /\
  Configured (ddr3_controlled (ddr3_populated channels ranks d) w n) cf 2 (ddr3_max (DDR3.speed_entry d)).
Proof.
  intros Hin Hr Hcf. destruct (in_scope_ranks _ _ _ _ channels ranks Hin Hr) as (Hk & HT & Hn & Hrl). split; [exact HT|].
  pose proof (ddr3_bound (populate channels ranks (DDR3.org_entry d)) (DDR3.speed_entry d)) as Hb.
  split; try typeclasses eauto; try assumption; cbn [ddr3_controlled ddr3_populated cs_dram cs_nREFI DDR3.spec sp_count DDR3.org_entry DDR3.speed_entry];
    rewrite Hk; [unfold queue_max; lia|destruct Hb; nia].
Qed.
Lemma ddr4_scope d w n cf channels ranks :
  in_scope (count (DDR4.org_entry d)) (ddr4_max (DDR4.speed_entry d)) (DDR4.nREFI (DDR4.speed_entry d)) (DDR4.read_latency d) = true ->
  0 < ranks <= 8 -> plain cf ->
  ddr4_max (DDR4.speed_entry d) <= 432 /\
  Configured (ddr4_controlled (ddr4_populated channels ranks d) w n) cf 3 (ddr4_max (DDR4.speed_entry d)).
Proof.
  intros Hin Hr Hcf. destruct (in_scope_ranks _ _ _ _ channels ranks Hin Hr) as (Hk & HT & Hn & Hrl). split; [exact HT|].
  pose proof (ddr4_bound (populate channels ranks (DDR4.org_entry d)) (DDR4.speed_entry d)) as Hb.
  split; try typeclasses eauto; try assumption; cbn [ddr4_controlled ddr4_populated cs_dram cs_nREFI DDR4.spec sp_count DDR4.org_entry DDR4.speed_entry];
    rewrite Hk; [unfold queue_max; lia|destruct Hb; nia].
Qed.

Lemma create_valid channels ranks : 0 < channels -> 0 < ranks -> validate channels ranks = true.
Proof. intros Hc Hr. unfold validate. by rewrite !(proj2 (Z.ltb_lt _ _)). Qed.

(** C36: whatever the organisation and the speed grade, the factory builds a DDR3
    machine of up to eight ranks for cache lines of any multiple of 64 bytes,
    and the controller behind it is within the scope of the controller's
    theorems: its tables keep their laws, and its refreshes fit their interval. *)
Theorem ddr3_machines_in_scope org speed channels ranks lines cores cf :
  0 < channels -> 0 < ranks <= 8 -> 0 < lines -> plain cf ->
  exists cs T, ddr3_create channels ranks (64 * lines) cores org speed = Ok cs /\ T <= 432 /\ Configured cs cf 2 T.
Proof.
  intros Hc Hr Hl Hcf. destruct (ddr3_all_in_scope org speed) as (d & Hd & Hin).
  destruct (ddr3_scope d (64 * lines) cores cf channels ranks Hin Hr Hcf) as [HT HC]. unfold ddr3_create.
  rewrite create_valid, Hd, extend_ok by lia. cbn [negb bind_res]. eexists _, _. split; [done|]. split; [exact HT|exact HC].
Qed.
(** The same for DDR4. *)
Theorem ddr4_machines_in_scope org speed channels ranks lines cores cf :
  0 < channels -> 0 < ranks <= 8 -> 0 < lines -> plain cf ->
  exists cs T, ddr4_create channels ranks (64 * lines) cores org speed = Ok cs /\ T <= 432 /\ Configured cs cf 3 T.
Proof.
  intros Hc Hr Hl Hcf. destruct (ddr4_all_in_scope org speed) as (d & Hd & Hin).
  destruct (ddr4_scope d (64 * lines) cores cf channels ranks Hin Hr Hcf) as [HT HC]. unfold ddr4_create.
  rewrite create_valid, Hd, extend_ok by lia. cbn [negb bind_res]. eexists _, _. split; [done|]. split; [exact HT|exact HC].
Qed.
