(* ===== verification/ControllerExamples.v ===== *)
(** * A controller with a DDR3 channel

    A machine of two ranks of DDR3-1600, with short histories: the theorems on
    the controller at concrete inputs, and a configuration outside their scope
    for which they do not hold. *)

From stdpp Require Import base tactics numbers list gmap.
From Stdlib Require Import ZArith Lia Sorted.
From S2P Require Import Prelude Dram DramTiming DramStd DramBanks DramFrame DDR3 DDR4 Scheduler Controller ControllerInv ControllerRequests ControllerPolicy RowMirror ControllerSafe ControllerRun ControllerLive ControllerRefresh ControllerHistory DDRControllers.

Open Scope Z_scope.

Definition device : DDR3.DDR3 :=
  match DDR3.DDR3_new DDR3.DDR3_2Gb_x8 DDR3.DDR3_1600H with
  | Ok d => d
  | Err _ => DDR3.mkDDR3 (DDR3.org_table DDR3.DDR3_2Gb_x8) (DDR3.speed_table DDR3.DDR3_1600H) 0 0
  end.
Definition machine : CtrlSpec Command State := ddr3_controlled (ddr3_populated 1 2 device) 64 4.
Definition machine_T : Z := ddr3_max (DDR3.speed_entry device).

Lemma plain_default : plain default_config.
Proof. by split. Qed.
#[export] Instance machine_configured : Configured machine default_config 2 machine_T.
Proof. apply ddr3_scope; [vm_compute; reflexivity|lia|exact plain_default]. Qed.

(** A request to a rank, bank and row. *)
Definition request (t : ReqType) (rank bank row : Z) : Request :=
  mkRequest true (rank * 2 ^ 20 + bank * 2 ^ 17 + row) [0; rank; bank; row; 0] (-1) 0 t (-1) 0 1.
Lemma request_valid t rank bank row :
  t = READ \/ t = WRITE -> 0 <= rank < 2 -> 0 <= bank < 8 -> valid_event machine 2 0 (Enqueue (request t rank bank row)).
Proof.
  intros Ht Hr Hb. split; [by destruct Ht as [-> | ->]|]. do 4 (split; [done|]).
  intros l Hl. split_level l; [exact Hr|exact Hb|lia..].
Qed.

(** Two reads of one bank that conflict, a write, and cycles. *)
Definition busy : list Event :=
  [Enqueue (request READ 0 3 5); Enqueue (request READ 0 3 9); Enqueue (request WRITE 1 2 7); Tick] ++ replicate 80 Tick.
Lemma ticks_valid n : Forall (valid_event machine 2 0) (replicate n Tick).
Proof. by apply Forall_replicate. Qed.
Lemma busy_valid : Forall (valid_event machine 2 0) busy.
Proof.
  unfold busy. repeat (apply Forall_app_2 || apply Forall_cons_2 || apply Forall_nil_2 || apply ticks_valid || done);
    (apply request_valid; [tauto|lia..]).
Qed.
Definition ran (l : list Event) : bool := match run machine default_config l (Controller_init machine 0) with Ok _ => true | Err _ => false end.
Lemma ran_ok l : ran l = true -> exists os c, run machine default_config l (Controller_init machine 0) = Ok (os, c).
Proof. unfold ran. destruct (run _ _ _ _) as [[os c]|]; [by exists os, c|done]. Qed.

(** What the history shows: the commands, newest first, and the reads called back. *)
Definition commands (l : list Event) : list (Command * list Z * Z) :=
  match run machine default_config l (Controller_init machine 0) with Ok (_, c) => trace c | Err _ => [] end.
Definition callbacks (l : list Event) : list (list Z * Z) :=
  match run machine default_config l (Controller_init machine 0) with
  | Ok (os, _) => (fun r => (addr_vec r, depart r)) <$> completed os
  | Err _ => []
  end.
Example busy_callbacks : callbacks busy = [([0; 0; 3; 5; 0], 23); ([0; 0; 3; 9; 0], 60); ([0; 1; 2; 7; 0], 61)].
Proof. vm_compute. reflexivity. Qed.
Example busy_commands : reverse (commands busy) = [
  (ACT, [0; 0; 3; 5; 0], 1); (RD, [0; 0; 3; 5; 0], 10);
  (PRE, [0; 0; 3; 9; 0], 29); (ACT, [0; 0; 3; 9; 0], 38); (RD, [0; 0; 3; 9; 0], 47);
  (ACT, [0; 1; 2; 7; 0], 48); (WR, [0; 1; 2; 7; 0], 57)].
Proof. vm_compute. reflexivity. Qed.

(** ** The theorems at these histories *)
Lemma controller_never_fails_witness :
  exists os c, run machine default_config busy (Controller_init machine 0) = Ok (os, c).
Proof. apply (controller_never_fails machine default_config 2 0 machine_T). exact busy_valid. Defined.

Lemma commands_legal_witness : exists os c,
  run machine default_config busy (Controller_init machine 0) = Ok (os, c) /\ StronglySorted later (log c) /\ legal (cs_dram machine) (log c).
Proof.
  destruct (ran_ok busy ltac:(vm_compute; reflexivity)) as (os & c & Hr). exists os, c. split; [exact Hr|].
  apply (commands_legal machine default_config 2 0 machine_T busy os c busy_valid Hr).
Defined.

Lemma row_table_exact_witness : exists os c,
  run machine default_config busy (Controller_init machine 0) = Ok (os, c) /\
  bank_of 2 (channel c) (data [0; 0; 3; 9; 0]) =
    Some match rowtable c !! rowgroup 3 [0; 0; 3; 9; 0] with None => (Closed, ∅) | Some e => (Opened, {[row e := Opened]}) end.
Proof.
  destruct (ran_ok busy ltac:(vm_compute; reflexivity)) as (os & c & Hr). exists os, c. split; [exact Hr|].
  apply (row_table_exact machine default_config 2 0 machine_T busy os c [0; 0; 3; 9; 0] busy_valid Hr).
  split; [reflexivity|]. split; [reflexivity|]. intros l Hl. split_level l; [split; vm_compute; congruence..|lia|lia|lia|lia].
Defined.

(** One interval and the time of its refreshes. *)
Lemma refreshed_every_interval_witness : exists os c,
  run machine default_config (replicate (Z.to_nat 6800) Tick) (Controller_init machine 0) = Ok (os, c) /\
  otherq c = [] /\ Z.of_nat (length (refreshes_of 1 (log c))) = clk c / 6240 /\ clk c = 6800.
Proof.
  assert (match run machine default_config (replicate (Z.to_nat 6800) Tick) (Controller_init machine 0) with Ok (_, c) => clk c | Err _ => 0 end = 6800)
    as Hclk by (vm_compute; reflexivity).
  destruct (run machine default_config (replicate (Z.to_nat 6800) Tick) (Controller_init machine 0)) as [[os c]|] eqn:Hr; [|discriminate].
  exists os, c. split; [reflexivity|].
  destruct (refreshed_every_interval machine default_config 2 0 machine_T (replicate (Z.to_nat 6800) Tick) os c 1) as [H1 H2].
  - exact (ticks_valid (Z.to_nat 6800)).
  - exact Hr.
  - rewrite Hclk. vm_compute. congruence.
  - vm_compute. lia.
  - split; [exact H1|]. split; [exact H2|exact Hclk].
Defined.

Lemma busy_fresh : Forall fresh busy.
Proof.
  eapply Forall_impl; [exact busy_valid|]. intros [r|]; [|done]. intros (_ & _ & H & _). exact H.
Qed.
Lemma requests_conserved_witness : exists os c,
  run machine default_config busy (Controller_init machine 0) = Ok (os, c) /\
  data_tags (accepted os) ≡ₚ data_tags (completed os ++ content c).
Proof.
  destruct (ran_ok busy ltac:(vm_compute; reflexivity)) as (os & c & Hr). exists os, c. split; [exact Hr|].
  apply (requests_conserved machine default_config 0 busy os c busy_fresh Hr).
Defined.
Lemma statistics_exact_witness : exists os c,
  run machine default_config busy (Controller_init machine 0) = Ok (os, c) /\
  row_hits (stats c) + row_misses (stats c) + row_conflicts (stats c) = Z.of_nat (length (started (completed os ++ content c))) /\
  read_latency_sum (stats c) = latencies (completed os).
Proof.
  destruct (ran_ok busy ltac:(vm_compute; reflexivity)) as (os & c & Hr). exists os, c. split; [exact Hr|].
  apply (statistics_exact machine default_config 0 busy os c busy_fresh Hr).
Defined.
Lemma enqueue_refuses_witness : exists os c,
  run machine default_config busy (Controller_init machine 0) = Ok (os, c) /\
  (forall k, (length (queue k c) <= 32)%nat) /\
  exists b c', enqueue (request READ 1 1 1) c = Ok (b, c') /\
    (b = false <-> length (queue ReadQ c) = 32%nat) /\ (b = false -> c' = c) /\
    (b = true -> exists d, content c' ≡ₚ with_depart d (with_arrive (clk c) (request READ 1 1 1)) :: content c).
Proof.
  destruct (ran_ok busy ltac:(vm_compute; reflexivity)) as (os & c & Hr). exists os, c. split; [exact Hr|].
  apply (enqueue_refuses machine default_config 0 busy os c (request READ 1 1 1) busy_fresh Hr).
Defined.

(** A read of an address whose write is queued comes back in the next cycle; a
    read of another row does not. *)
Definition returned (l : list Event) : list (ReqType * Z * Z) :=
  match run machine default_config l (Controller_init machine 0) with
  | Ok (_, c) => match tick machine default_config c with Ok (rs, _) => map (fun r => (type r, arrive r, depart r)) rs | Err _ => [] end
  | Err _ => []
  end.
Example answered_read : returned [Enqueue (request WRITE 0 3 5); Enqueue (request READ 0 3 5)] = [(READ, 0, 1)].
Proof. vm_compute. reflexivity. Qed.
Example other_read : returned [Enqueue (request WRITE 0 3 5); Enqueue (request READ 0 3 6)] = [].
Proof. vm_compute. reflexivity. Qed.

Lemma ddr3_machines_in_scope_witness :
  exists cs T, ddr3_create 1 4 64 2 DDR3.DDR3_8Gb_x16 DDR3.DDR3_2133M = Ok cs /\ T <= 432 /\ Configured cs default_config 2 T.
Proof. apply (ddr3_machines_in_scope DDR3.DDR3_8Gb_x16 DDR3.DDR3_2133M 1 4 1 2 default_config); [lia..|exact plain_default]. Defined.
Lemma ddr4_machines_in_scope_witness :
  exists cs T, ddr4_create 1 8 128 2 DDR4.DDR4_8Gb_x16 DDR4.DDR4_2400U = Ok cs /\ T <= 432 /\ Configured cs default_config 3 T.
Proof. apply (ddr4_machines_in_scope DDR4.DDR4_8Gb_x16 DDR4.DDR4_2400U 1 8 2 2 default_config); [lia..|exact plain_default]. Defined.

(** ** The row policies that close rows *)
Definition with_policy (p : RowPolicyType) : CtrlConfig := mkConfig FRFCFS_PriorHit 16 p 50 false.
(** One read, and [n] cycles. *)
Definition one_read (n : nat) : list Event := Enqueue (request READ 0 3 5) :: replicate n Tick.
(** Whether a history ends in the access outside an array. *)
Definition overruns (p : RowPolicyType) (n : nat) : bool :=
  match run machine (with_policy p) (one_read n) (Controller_init machine 0) with Err Panicked => true | _ => false end.

(** A single read is enough for both policies to overrun the array, as soon as its row
    may be precharged; the policy [Opened] survives the same history. *)
Example closing_policies_overrun : overruns PClosed 40 = true /\ overruns PTimeout 60 = true /\ ran (one_read 60) = true.
Proof. split; [|split]; vm_compute; reflexivity. Qed.

(** The cycle in which [Closed] finds the row of the read. *)
Lemma closing_policies_close_nothing_witness : exists os c c2,
  run machine (with_policy PClosed) (one_read 28) (Controller_init machine 0) = Ok (os, c) /\
  run machine (keep_open (with_policy PClosed)) (one_read 28) (Controller_init machine 0) = Ok (os, c) /\
  before_schedule machine c = Ok (tt, c2) /\
  (exists e, tick machine (with_policy PClosed) c = Err e).
Proof.
  assert (match run machine (with_policy PClosed) (one_read 28) (Controller_init machine 0) with
          | Ok (_, c) => match before_schedule machine c with
                         | Ok (_, c2) => bool_decide (queue (chosen_queue c2) c2 = []) &&
                             match get_victim PClosed 50 (clk c2) (fun k => is_ready_cmd machine (cs_PRE machine) k c2) (rowtable c2) with
                             | Ok v => bool_decide (v <> []) | Err _ => false end
                         | Err _ => false end
          | Err _ => false end = true) as H by (vm_compute; reflexivity).
  destruct (run machine (with_policy PClosed) (one_read 28) (Controller_init machine 0)) as [[os c]|] eqn:Hr; [|discriminate].
  destruct (before_schedule machine c) as [[[] c2]|] eqn:Hb; [|discriminate].
  apply andb_true_iff in H as [Hq H]. apply bool_decide_eq_true in Hq.
  destruct (get_victim PClosed 50 (clk c2) _ (rowtable c2)) as [v|] eqn:Hv; [|discriminate]. apply bool_decide_eq_true in H.
  destruct (closing_policies_close_nothing machine (with_policy PClosed) 0 (one_read 28) os c Hr) as [Ho Hf].
  exists os, c, c2. split; [reflexivity|]. split; [exact Ho|]. split; [exact Hb|].
  apply (Hf c2 v Hb Hq eq_refl Hv H).
Defined.
