(* ===== verification/MemoryExamples.v ===== *)
(** * A memory of two DDR3 channels

    The theorems on memories at a concrete machine and a short history. *)

From stdpp Require Import base tactics numbers list gmap.
From Stdlib Require Import ZArith Lia.
From S2P Require Import Prelude Dram DramStd DDR3 Scheduler AddressMap Controller ControllerInv ControllerSafe ControllerHistory DDRControllers ControllerExamples Memory MemoryProps.

Open Scope Z_scope.

Definition machine2 : CtrlSpec Command State := ddr3_controlled (ddr3_populated 2 2 device) 64 4.
#[export] Instance machine2_configured : Configured machine2 default_config 2 machine_T.
Proof. apply ddr3_scope; [vm_compute; reflexivity|lia|exact plain_default]. Qed.
#[export] Instance machine2_fits : Fits machine2 ex_sizes.
Proof.
  assert (count (DDR3.org_entry (ddr3_populated 2 2 device)) = ex_sizes) as Hc by (vm_compute; reflexivity).
  split; [exact ex_sizes_ok|done|]. intros lev. unfold machine2. cbn [cs_dram ddr3_controlled DDR3.spec sp_count]. by rewrite Hc.
Qed.

(** Reads and writes of both channels, and cycles. *)
Definition to (t : ReqType) (address core : Z) : Request := mkRequest true address [] (-1) core t (-1) 0 0.
Definition traffic : list MemEvent :=
  [Send (to READ 305419896 0); Send (to WRITE 305419840 1); Send (to READ 4096 2); MemTick; Send (to READ 64 3)] ++ replicate 60 MemTick.
Lemma traffic_sendable : Forall (sendable machine2) traffic.
Proof. unfold traffic. apply Forall_app_2; [repeat (apply Forall_cons; split; [done|]); apply Forall_nil_2|by apply Forall_replicate]. Qed.
Abbreviation run2 := (mem_run machine2 default_config RoBaRaCoCh ex_geometry 64).
Abbreviation start2 := (Memory_init machine2 2).

Example traffic_done :
  (match run2 traffic start2 with Ok (os, m) => ((fun r => (addr r, depart r)) <$> completed os, pending_requests m, ramulator_active_cycles m) | Err _ => ([], -1, -1) end)
  = ([(4096, 23); (305419896, 23); (305419840, 27); (64, 29)], 0, 28).
Proof. vm_compute. reflexivity. Qed.

Lemma memory_never_fails_witness : exists os m, run2 traffic start2 = Ok (os, m).
Proof. apply (memory_never_fails machine2 default_config 2 machine_T RoBaRaCoCh false ex_sizes ex_geometry 64 ex_geometry_ok traffic traffic_sendable). Defined.
Lemma memory_is_its_channels_witness : exists os m, run2 traffic start2 = Ok (os, m) /\
  exists es c, run machine2 default_config (project machine2 RoBaRaCoCh ex_geometry 64 1 traffic) (Controller_init machine2 1) = Ok (es, c) /\
    ctrls m !! 1%nat = Some c /\ Forall (valid_event machine2 2 1) (project machine2 RoBaRaCoCh ex_geometry 64 1 traffic).
Proof.
  assert (match run2 traffic start2 with Ok _ => true | Err _ => false end = true) as Hok by (vm_compute; reflexivity).
  destruct (run2 traffic start2) as [[os m]|] eqn:Hr; [|discriminate]. exists os, m. split; [reflexivity|].
  apply (memory_is_its_channels machine2 default_config 2 machine_T RoBaRaCoCh false ex_sizes ex_geometry 64 ex_geometry_ok traffic os m 1 traffic_sendable Hr).
  vm_compute. lia.
Defined.
